(* ===== verification/_CoqProject ===== *)
-Q . S2P
Prelude.v
Lz4.v
Ltx.v
WalPayload.v
PageMap.v
SnapshotParts.v
Wal.v
Chain.v
Restore.v
Paging.v
Cell.v
Bucket.v
Fleet.v
Objects.v
Lease.v
Decimal.v
Owner.v
OwnerFleet.v
Route.v
Discipline.v
NodeLog.v
Waker.v
Frames.v
Stream.v
Disk.v
Spool.v
SpoolDurable.v
SpoolHistory.v
SpoolLimits.v
Peer.v
Ship.v
StreamPool.v
Recovery.v
Settled.v
Durability.v
Shipped.v
Names.v
Index.v
Permanent.v
Replica.v
Epochs.v
Compaction.v
ReplicaFleet.v
Restored.v
Compacted.v
