(* ===== verification/Prelude.v ===== *)
(** * CellHive: a verification of its storage and coordination core

    CellHive runs stateful cells (durable objects, key-value stores, databases) on a
    fleet of nodes that share nothing but an object store, the bucket. A cell has
    one owner at a time; the owner captures the write-ahead log of the cell's SQLite
    database, frames it as segments and puts them into the bucket, or hands them to
    followers first; another node that takes the cell over restores it from there.
    These files translate the Go packages behind that promise into functions and
    programs, and prove what they promise each other.

    ** The parts

    Data, from the log to the database image ([src/internal]):
    - [Lz4]: the block codec ([lz4]);
    - [Ltx], [WalPayload], [PageMap], [SnapshotParts]: segments, their payloads, page
      maps and paged snapshots ([ltx]);
    - [Wal]: reading a write-ahead log, whole and by a cursor ([wal]);
    - [Chain], [Restore], [Paging]: choosing the segments that make up a database,
      merging and compacting them, writing the image, indexing its pages
      ([restore]).

    Coordination, through the bucket:
    - [Cell]: scopes, owner records, shards ([cell]);
    - [Bucket]: the contract of the bucket and its file-system backend ([bucket]);
    - [Objects]: prefixes and their owners ([objectstore]);
    - [Lease]: node leases, fencing, the snapshot of the fleet ([lease]);
    - [Owner], [OwnerFleet], [Route]: claims and generations, the fleet of claimers,
      caches and routing ([owner]); [Decimal] is the decimal reading and printing
      of the generation counter;
    - [NodeLog], [Waker]: session records and the election of the waker ([nodelog],
      [waker]);
    - [Recovery]: bringing a lost session's writes from its followers into the bucket
      ([recovery]); [Settled]: what any number of recoveries, stopped anywhere, achieve
      together.

    Segments in the bucket ([replica], [compaction]):
    - [Names], [Index]: the names of segments and batches and what they prove, the page
      index ([replica/index.go]);
    - [Replica]: deletion fences and their cache, appends, markers, manifests, purge and
      sweep ([replica/replica.go], [replica/resource_fence.go]);
    - [Epochs]: restoring an epoch and a chain of epochs, durable watermarks, complete
      snapshots, retirement ([replica/replica.go], [replica/gc.go]);
    - [Compaction]: folding an epoch into a compacted snapshot ([compaction]);
    - [Permanent], [ReplicaFleet]: what is written once, in every run of any number of
      managers; [Restored], [Compacted]: what a restore returns, and that a
      compaction and a retirement keep it.

    Replication, from owners to followers:
    - [Frames], [Disk], [Spool]: the records of a follower's log, a disk that may lose
      what was not synced, and the spool's operations on it ([peer/frames.go],
      [peer/spool.go]); [SpoolDurable] is the logic of crashes, [SpoolHistory] the
      promises over any history of requests, failures and crashes, [SpoolLimits] runs in
      which the code does less than it means to;
    - [Stream]: the pipelined stream of frames and acknowledgements
      ([peer/stream.go]); [StreamPool]: the owners' pool of streams, its dials and
      handshakes;
    - [Peer]: the followers' handlers and the owners' transport, with identities
      ([peer/peer.go], [peer/identity.go], [server/peer_identity.go], the peer routes of
      [server/server.go]);
    - [Ship]: gathering commits into batches and racing them against the followers
      ([peer/shipper.go]);
    - [Durability], [Shipped]: the composition, from an append's answer and from a shipped
      commit to the bucket.

    This file holds what all share: results, machine integers, bytes, slices and
    bounded loops. [Fleet] holds programs and fleets, [Discipline] the argument that
    records only move as their subsystem says.

    ** How the code is modelled

    Integers are [Z] with the wrap-around of their width written out ([u8] to [u64],
    [i64]); bytes are lists of [byte]; a call that returns an error is a [result].
    A loop without a structural argument is [run], with a proof that its measure
    decreases, or has fuel with a proof that it never runs out: [collectTail] gets a
    round per fragment left and [scopedTail] a round per sequence number.
    [ResolveRoute] and the shared read of a deletion fence, which retry without a bound,
    and [RecoverLocal], which retries until its context ends, have their number of rounds
    as an argument. Nothing is claimed about the first and the last; the read of a fence
    that runs out counts as one whose context ended, and the theorems hold for any number.

    Code that talks to the bucket is a program ([Fleet.prog]): a tree of its effects,
    one per call, clock reading, critical section or wait. [alone] runs a program
    without faults or competitors; [act] runs any number of processes and threads
    in any order, with calls that fail and writes that are lost, happen although
    they report an error, or happen later; [safe] ranges over all answers.

    ** What is shown

    - Codecs: decoding undoes encoding, accepts only well-formed input and agrees
      with lookups that decode only a part.
    - The log reader: polling delivers each committed frame once, in whole
      transactions, whatever the writer does between polls.
    - Restoring: the chosen chain is contiguous and fenced, and is found when one
      exists; merging, compacting, writing and indexing give the same pages; a
      failed restore leaves the database as it was.
    - The bucket: the file-system backend refines the contract; a paged listing is
      complete; stores over reserved prefixes never reach each other.
    - Leases, on clocks that do not step and when no write lands after its call has
      returned: a process that believes it is healthy has a live lease in the bucket,
      and a fenced one stays fenced.
    - Ownership, in every run of a fleet: generations increase, an epoch has one
      holder, records are replaced only under larger epochs or by their holder;
      every outcome of a claim; a read fence that holds proves that the scope was
      neither invalidated nor released since.
    - Node logs only move forward; the waker's lease is exclusive.
    - Segments: an acknowledged append stays in the bucket as it is; deletion fences only
      move forward, and a deleted cell is not written. For cells without a deletion
      fence (all but KV and queue cells) and a process that runs alone: a restore of an
      epoch returns what was appended or finds it behind a manifest or in an unfinished
      snapshot, the restore over epochs starts at the newest epoch that gives a valid
      chain, after a compaction the restore gives the same database, and a retirement
      removes only proven payloads of earlier epochs.
    - Recovery uploads before it notes progress or seals, and reclaims only when it
      succeeds; it ends, and alone it succeeds, in every protocol, when the followers can
      be found and read.
    - Followers: what was acknowledged is found again after any crash, a sealed session
      stays as it was sealed, sequence numbers increase; what a response says happened in
      the spool, and only the machine with the asked identity is believed.
    - Shipping: an acknowledgement on the stream or from a race is for the commit that it is
      reported for; batches keep the order of commits.
    - All together: a commit that was reported as replicated over the owner's streams is in
      the bucket once the node log of its session is sealed.

    ** Assumptions

    JSON is a [Codec]: reading what was written gives it back. The tag of an object is
    an injective function of its content ([Etag]); so is the name of a session's directory
    ([Digest]). A synced file or directory survives a crash, anything else may be kept, lost or
    torn ([Disk.reboot]); requests for one session are served one at a time, as its lock
    says; a recovery is a process of its own. HTTP delivers requests and responses whole, and
    escaping a query is undone by parsing it; a connection delivers a prefix of the bytes
    that were written, and batches are small enough for a frame ([okFrame]). A callback answers with success or
    failure. Time has a monotonic and a wall reading. The file system of [wal] and
    [restore], the followers' transport and, in [Recovery], the replica's appends are
    arguments: functions from a call to its answer, so that in one recovery the same question
    gets the same answer. The order in which a cache
    evicts is an argument too. Examples instantiate all of them.

    ** Not modelled

    The S3 client, the page fetcher of [replica], SQLite itself, the gateway, the runtimes,
    timers and queues, the control plane, deployment and the command-line tools: they are
    I/O, process wiring, product interfaces above this core, or code that these parts only
    call. Of [bucket] the segmented store is left out, of [objectstore] the presigned and
    delegated calls, of [peer] the latency injection of the benchmarks, of [waker] the pass
    that dispatches timers. Counts returned beside an error, log lines and metrics
    are dropped. *)

From Stdlib Require Export Strings.Byte ZArith Lia.
From stdpp Require Export prelude gmap strings list pretty sorting.

Declare Scope go_scope.
Delimit Scope go_scope with go.
Open Scope Z_scope.

(** ** Results *)

(** A Go call that returns [(value, error)]. *)
Inductive result (E A : Type) : Type :=
| Ok (a : A)
| Err (e : E).
Arguments Ok {E A} a.
Arguments Err {E A} e.

#[global] Instance Ok_inj {E A : Type} : Inj (=) (=) (@Ok E A).
Proof. by intros x y [=]. Qed.

Definition rbind {E A B : Type} (m : result E A) (k : A → result E B) : result E B :=
  match m with Ok a => k a | Err e => Err e end.

(** [if err != nil { return wrap(err) }] *)
Definition rmap_err {E F A : Type} (f : E → F) (m : result E A) : result F A :=
  match m with Ok a => Ok a | Err e => Err (f e) end.

(** [if bad { return err }] *)
Definition reject {E : Type} (bad : bool) (e : E) : result E unit :=
  if bad then Err e else Ok tt.

Notation "x ←ᵣ m ; k" := (rbind m (λ x, k))
  (at level 20, m at level 100, k at level 200, right associativity) : go_scope.
Notation "' p ←ᵣ m ; k" := (rbind m (λ x, match x with p => k end))
  (at level 20, p pattern, m at level 100, k at level 200, right associativity) : go_scope.
Notation "m ;;ᵣ k" := (rbind m (λ _, k))
  (at level 100, k at level 200, right associativity) : go_scope.
Open Scope go_scope.

Section result_lemmas.
Context {E A B : Type}.
Implicit Types (m : result E A).

Lemma rbind_Ok m (k : A → result E B) b :
  rbind m k = Ok b ↔ ∃ a, m = Ok a ∧ k a = Ok b.
Proof. destruct m; simpl; split; [eauto|by intros (?&[= ->]&?)|done|by intros (?&?&?)]. Qed.

Lemma reject_Ok (bad : bool) (e : E) (k : unit → result E B) b :
  rbind (reject bad e) k = Ok b ↔ bad = false ∧ k tt = Ok b.
Proof. destruct bad; simpl; split; [done|by intros []|done|by intros []]. Qed.

Lemma rmap_err_Ok {F} (f : E → F) m a : rmap_err f m = Ok a ↔ m = Ok a.
Proof. destruct m; naive_solver. Qed.
End result_lemmas.

(** Decomposes every [Ok] hypothesis built from the combinators above. *)
Ltac inv_ok :=
  repeat match goal with
  | H : rbind (reject _ _) _ = Ok _ |- _ => apply reject_Ok in H as [? H]
  | H : rbind ?m _ = Ok _ |- _ =>
      let a := fresh "a" in let Ha := fresh "Ha" in
      apply rbind_Ok in H as (a & Ha & H)
  | H : rmap_err _ _ = Ok _ |- _ => apply rmap_err_Ok in H
  | H : Ok _ = Ok _ |- _ => apply (inj Ok) in H
  | H : Err _ = Ok _ |- _ => discriminate H
  end.

(** ** Machine integers *)

Definition u8 (z : Z) : Z := z mod 2 ^ 8.
Definition u16 (z : Z) : Z := z mod 2 ^ 16.
Definition u32 (z : Z) : Z := z mod 2 ^ 32.
Definition u64 (z : Z) : Z := z mod 2 ^ 64.
(** Go's [int] on a 64-bit platform: two's complement wrap-around. *)
Definition i64 (z : Z) : Z := (z + 2 ^ 63) mod 2 ^ 64 - 2 ^ 63.

Abbreviation is_u8 z := (0 ≤ z < 2 ^ 8).
Abbreviation is_u16 z := (0 ≤ z < 2 ^ 16).
Abbreviation is_u32 z := (0 ≤ z < 2 ^ 32).
Abbreviation is_u64 z := (0 ≤ z < 2 ^ 64).

Lemma u16_id z : is_u16 z → u16 z = z.
Proof. apply Z.mod_small. Qed.
Lemma u32_id z : is_u32 z → u32 z = z.
Proof. apply Z.mod_small. Qed.
Lemma u64_id z : is_u64 z → u64 z = z.
Proof. apply Z.mod_small. Qed.
Lemma i64_id z : - 2 ^ 63 ≤ z < 2 ^ 63 → i64 z = z.
Proof. intros. unfold i64. rewrite Z.mod_small; lia. Qed.
Lemma u32_range z : is_u32 (u32 z).
Proof. apply Z.mod_pos_bound. lia. Qed.
Lemma u64_range z : is_u64 (u64 z).
Proof. apply Z.mod_pos_bound. lia. Qed.

(** Two bit fields that do not overlap: [hi & lo], [hi | lo] and [a &^ b]. *)
Lemma land_fields a b k : 0 ≤ k → 0 ≤ b < 2 ^ k → Z.land (a * 2 ^ k) b = 0.
Proof.
  intros Hk Hb. rewrite <-(Z.mod_small b (2 ^ k)), <-Z.land_ones by lia.
  rewrite Z.land_assoc, (Z.land_comm _ b), <-Z.land_assoc.
  rewrite Z.land_ones, Z.mod_mul by lia. apply Z.land_0_r.
Qed.

Lemma lor_fields a b k : 0 ≤ k → 0 ≤ b < 2 ^ k → Z.lor (a * 2 ^ k) b = a * 2 ^ k + b.
Proof.
  intros Hk Hb. rewrite <-Z.add_lor_land. by rewrite land_fields, Z.add_0_r by done.
Qed.

Lemma ldiff_sub a b : Z.ldiff a b = a - Z.land a b.
Proof.
  pose proof (Z.add_lor_land (Z.ldiff a b) (Z.land a b)) as H.
  rewrite Z.lor_ldiff_and, (Z.land_comm a b), Z.land_assoc, Z.land_ldiff, Z.land_0_l in H.
  rewrite (Z.land_comm a b). lia.
Qed.

(** The single bit [2 ^ k] of a word with [k] bits below it. *)
Lemma bit_set s k : 0 ≤ k → 0 ≤ s < 2 ^ k →
  Z.lor s (2 ^ k) = s + 2 ^ k ∧ Z.land (s + 2 ^ k) (2 ^ k) = 2 ^ k ∧ Z.land s (2 ^ k) = 0.
Proof.
  intros Hk Hs. pose proof (land_fields 1 s k Hk Hs) as H0. rewrite Z.mul_1_l, Z.land_comm in H0.
  pose proof (lor_fields 1 s k Hk Hs) as H1. rewrite Z.mul_1_l, Z.lor_comm in H1.
  split_and!; [lia| |done].
  replace (s + 2 ^ k) with (Z.lor s (2 ^ k)) by lia.
  rewrite Z.land_lor_distr_l, H0, Z.land_diag. done.
Qed.

(** ** Bytes *)

Abbreviation bytes := (list byte).

Definition b2z (b : byte) : Z := Z.of_N (Byte.to_N b).
Definition z2b (z : Z) : byte := default x00 (Byte.of_N (Z.to_N (u8 z))).

Lemma b2z_range b : is_u8 (b2z b).
Proof. unfold b2z. pose proof (Byte.to_N_bounded b). lia. Qed.

Lemma b2z_z2b z : b2z (z2b z) = u8 z.
Proof.
  unfold b2z, z2b. pose proof (Z.mod_pos_bound z (2 ^ 8) ltac:(lia)).
  destruct (Byte.of_N (Z.to_N (u8 z))) as [b|] eqn:E; simpl.
  - apply Byte.to_of_N in E. rewrite E. unfold u8 in *. lia.
  - apply Byte.of_N_None_iff in E. unfold u8 in *. lia.
Qed.

Lemma z2b_b2z b : z2b (b2z b) = b.
Proof.
  unfold z2b, u8. rewrite Z.mod_small by apply b2z_range.
  unfold b2z. by rewrite N2Z.id, Byte.of_to_N.
Qed.

#[global] Instance b2z_inj : Inj (=) (=) b2z.
Proof. intros a b H. by rewrite <-(z2b_b2z a), <-(z2b_b2z b), H. Qed.

#[global] Instance byte_eq_dec : EqDecision byte.
Proof.
  refine (λ a b, cast_if (decide (b2z a = b2z b))); [by apply (inj b2z)|congruence].
Defined.

(** The bytes of a Go string literal. *)
Definition bs (s : string) : bytes := String.list_byte_of_string s.

Abbreviation zlen l := (Z.of_nat (length l)).

(** [b[i:j]], for [0 ≤ i ≤ j ≤ len(b)]. *)
Definition slice {A : Type} (l : list A) (i j : Z) : list A :=
  take (Z.to_nat (j - i)) (drop (Z.to_nat i) l).

(** [b[i]]; the callers check the bounds. *)
Definition byte_at (l : bytes) (i : Z) : Z := b2z (default x00 (l !! Z.to_nat i)).

Lemma length_slice {A} (l : list A) i j :
  0 ≤ i → i ≤ j → j ≤ zlen l → zlen (slice l i j) = j - i.
Proof. intros. unfold slice. rewrite length_take, length_drop. lia. Qed.

Lemma slice_app_skip {A} (l k : list A) i j :
  zlen l ≤ i → slice (l ++ k) i j = slice k (i - zlen l) (j - zlen l).
Proof.
  intros. unfold slice. rewrite drop_app_ge by lia. f_equal; [lia|]. f_equal. lia.
Qed.

Lemma slice_app_take {A} (l k : list A) i j :
  0 ≤ i → j ≤ zlen l → slice (l ++ k) i j = slice l i j.
Proof.
  intros. unfold slice. destruct (decide (i ≤ j)) as [Hij|Hij].
  - rewrite drop_app_le by lia. rewrite take_app_le; [done|]. rewrite length_drop. lia.
  - by replace (Z.to_nat (j - i)) with O by lia.
Qed.

Lemma slice_all {A} (l : list A) j : zlen l = j → slice l 0 j = l.
Proof. intros. unfold slice. rewrite drop_0. apply take_ge. lia. Qed.

Lemma slice_middle {A} (l m k : list A) i j :
  zlen l = i → i + zlen m = j → slice (l ++ m ++ k) i j = m.
Proof.
  intros Hi Hj. rewrite slice_app_skip by lia.
  replace (i - zlen l) with 0 by lia. replace (j - zlen l) with (zlen m) by lia.
  rewrite slice_app_take by lia. by apply slice_all.
Qed.

Lemma slice_prefix {A} (l : list A) i j k :
  0 ≤ i → j ≤ k → k ≤ zlen l → slice (slice l 0 k) i j = slice l i j.
Proof.
  intros Hi Hj Hk. destruct (decide (i ≤ j)) as [Hij|Hij].
  - rewrite <-(take_drop (Z.to_nat k) l) at 2.
    assert (slice l 0 k = take (Z.to_nat k) l) as ->.
    { unfold slice. rewrite drop_0. f_equal. lia. }
    rewrite slice_app_take; [done..|]. rewrite length_take. lia.
  - unfold slice. by replace (Z.to_nat (j - i)) with O by lia.
Qed.

Lemma slice_drop {A} (l : list A) i : 0 ≤ i → slice l i (zlen l) = drop (Z.to_nat i) l.
Proof. intros. unfold slice. apply take_ge. rewrite length_drop. lia. Qed.

Lemma slice_split {A} (l : list A) i j k :
  0 ≤ i → i ≤ j → j ≤ k → slice l i k = slice l i j ++ slice l j k.
Proof.
  intros. unfold slice.
  replace (Z.to_nat (k - i)) with (Z.to_nat (j - i) + Z.to_nat (k - j))%nat by lia.
  replace (Z.to_nat j) with (Z.to_nat i + Z.to_nat (j - i))%nat by lia.
  rewrite <-drop_drop. by rewrite <-take_take_drop.
Qed.

Lemma fmap_slice {A B} (f : A → B) l i j : f <$> slice l i j = slice (f <$> l) i j.
Proof. unfold slice. by rewrite fmap_take, fmap_drop. Qed.

Lemma slice_seqZ m n i j :
  0 ≤ i → i ≤ j → j ≤ n → slice (seqZ m n) i j = seqZ (m + i) (j - i).
Proof.
  intros Hi Hj Hn. replace n with (i + ((j - i) + (n - j))) by lia.
  rewrite seqZ_app, seqZ_app by lia.
  apply slice_middle; rewrite length_seqZ; lia.
Qed.

Lemma list_filter_all {A} (P : A → Prop) `{!∀ x, Decision (P x)} (l : list A) :
  Forall P l → filter P l = l.
Proof.
  induction 1 as [|x l Hx Hl IH]; [done|]. rewrite filter_cons_True by done. by rewrite IH.
Qed.

Lemma list_filter_none {A} (P : A → Prop) `{!∀ x, Decision (P x)} (l : list A) :
  Forall (λ x, ¬ P x) l → filter P l = [].
Proof. induction 1 as [|x l Hx Hl IH]; [done|]. by rewrite filter_cons_False. Qed.

(** ** Big-endian and little-endian integers ([encoding/binary]) *)

Fixpoint be_enc (n : nat) (z : Z) : bytes :=
  match n with
  | O => []
  | S n => z2b (z / 2 ^ (8 * Z.of_nat n)) :: be_enc n z
  end.

Fixpoint be_dec (l : bytes) : Z :=
  match l with
  | [] => 0
  | b :: l => b2z b * 2 ^ (8 * zlen l) + be_dec l
  end.

(** [BigEndian.Uint16/32/64(b[off:])] and [LittleEndian.Uint32(b[off:])]. *)
Definition rd16 (b : bytes) (off : Z) : Z := be_dec (slice b off (off + 2)).
Definition rd32 (b : bytes) (off : Z) : Z := be_dec (slice b off (off + 4)).
Definition rd64 (b : bytes) (off : Z) : Z := be_dec (slice b off (off + 8)).
Definition rd32le (b : bytes) (off : Z) : Z := be_dec (reverse (slice b off (off + 4))).

Lemma length_be_enc n z : length (be_enc n z) = n.
Proof. induction n; simpl; congruence. Qed.

Lemma be_dec_range l : 0 ≤ be_dec l < 2 ^ (8 * zlen l).
Proof.
  induction l as [|b l IH]; simpl be_dec; [simpl; lia|].
  replace (8 * zlen (b :: l)) with (8 + 8 * zlen l) by (simpl; lia).
  rewrite Z.pow_add_r by lia. pose proof (b2z_range b). nia.
Qed.

Lemma be_dec_enc n z : be_dec (be_enc n z) = z mod 2 ^ (8 * Z.of_nat n).
Proof.
  induction n as [|n IH]; [by rewrite Z.mod_1_r|].
  simpl be_enc. simpl be_dec. rewrite IH, length_be_enc, b2z_z2b. unfold u8.
  replace (8 * Z.of_nat (S n)) with (8 * Z.of_nat n + 8) by lia.
  rewrite Z.pow_add_r, Z.rem_mul_r by lia. lia.
Qed.

Lemma be_dec_enc_id n z : 0 ≤ z < 2 ^ (8 * Z.of_nat n) → be_dec (be_enc n z) = z.
Proof. intros. rewrite be_dec_enc. by apply Z.mod_small. Qed.

Lemma be_dec_inj l k : length l = length k → be_dec l = be_dec k → l = k.
Proof.
  revert k. induction l as [|b l IH]; intros [|c k] Hlen Heq; simplify_eq/=; [done|].
  rewrite Hlen in Heq.
  pose proof (be_dec_range l) as Hl. pose proof (be_dec_range k) as Hk. rewrite Hlen in Hl.
  destruct (Z.div_mod_unique (2 ^ (8 * zlen k)) (b2z b) (b2z c) (be_dec l) (be_dec k))
    as [->%(inj b2z) ?]; [lia..|].
  f_equal. by apply IH.
Qed.

Lemma be_enc_dec n l : length l = n → be_enc n (be_dec l) = l.
Proof.
  intros <-. apply be_dec_inj; [apply length_be_enc|].
  apply be_dec_enc_id, be_dec_range.
Qed.

Lemma be_enc_cong n z w :
  z mod 2 ^ (8 * Z.of_nat n) = w mod 2 ^ (8 * Z.of_nat n) → be_enc n z = be_enc n w.
Proof.
  intros. apply be_dec_inj; [by rewrite !length_be_enc|]. by rewrite !be_dec_enc.
Qed.

Lemma length_slice_le {A} (l : list A) i j : zlen (slice l i j) ≤ Z.max 0 (j - i).
Proof. unfold slice. rewrite length_take. lia. Qed.

Lemma rd32_range b off : is_u32 (rd32 b off).
Proof.
  unfold rd32. pose proof (be_dec_range (slice b off (off + 4))) as Hr.
  pose proof (length_slice_le b off (off + 4)).
  assert (2 ^ (8 * zlen (slice b off (off + 4))) ≤ 2 ^ 32) by (apply Z.pow_le_mono_r; lia). lia.
Qed.

Lemma rd64_range b off : 0 ≤ off → off + 8 ≤ zlen b → is_u64 (rd64 b off).
Proof.
  intros. unfold rd64. pose proof (be_dec_range (slice b off (off + 8))) as Hr.
  rewrite length_slice in Hr by lia. by replace (8 * (off + 8 - off)) with 64 in Hr by lia.
Qed.

(** Reading a field out of a concatenation of fields. *)
Lemma rd16_skip l k off : zlen l ≤ off → rd16 (l ++ k) off = rd16 k (off - zlen l).
Proof.
  intros. unfold rd16. rewrite slice_app_skip by done.
  by replace (off + 2 - zlen l) with (off - zlen l + 2) by lia.
Qed.
Lemma rd32_skip l k off : zlen l ≤ off → rd32 (l ++ k) off = rd32 k (off - zlen l).
Proof.
  intros. unfold rd32. rewrite slice_app_skip by done.
  by replace (off + 4 - zlen l) with (off - zlen l + 4) by lia.
Qed.
Lemma rd64_skip l k off : zlen l ≤ off → rd64 (l ++ k) off = rd64 k (off - zlen l).
Proof.
  intros. unfold rd64. rewrite slice_app_skip by done.
  by replace (off + 8 - zlen l) with (off - zlen l + 8) by lia.
Qed.

Lemma slice_enc_head n z k j :
  j = Z.of_nat n → slice (be_enc n z ++ k) 0 j = be_enc n z.
Proof.
  intros ->. rewrite slice_app_take by (rewrite ?length_be_enc; lia).
  apply slice_all. by rewrite length_be_enc.
Qed.
Lemma rd16_enc z k : is_u16 z → rd16 (be_enc 2 z ++ k) 0 = z.
Proof. intros. unfold rd16. rewrite slice_enc_head by lia. by apply be_dec_enc_id. Qed.
Lemma rd32_enc z k : is_u32 z → rd32 (be_enc 4 z ++ k) 0 = z.
Proof. intros. unfold rd32. rewrite slice_enc_head by lia. by apply be_dec_enc_id. Qed.
Lemma rd64_enc z k : is_u64 z → rd64 (be_enc 8 z ++ k) 0 = z.
Proof. intros. unfold rd64. rewrite slice_enc_head by lia. by apply be_dec_enc_id. Qed.

(** ** Decimal formatting ([fmt]'s [%d], [strconv.FormatUint]) *)

Definition fmt_d (z : Z) : string := pretty z.

Fixpoint digits (s : string) : bool :=
  match s with
  | EmptyString => true
  | String c s => bool_decide (is_Some (Ascii.is_nat c)) && digits s
  end.

#[global] Instance fmt_d_inj : Inj (=) (=) fmt_d := pretty_Z_inj.

Lemma pretty_N_go_digits x s : digits s → digits (pretty_N_go x s).
Proof.
  revert s. induction (N.lt_wf_0 x) as [x _ IH]. intros s Hs.
  destruct (decide (0 < x)%N) as [Hx|Hx].
  - rewrite pretty_N_go_step by done. apply IH; [by apply N.div_lt|].
    simpl. apply andb_True. split; [|done]. apply bool_decide_pack.
    unfold pretty_N_char. repeat case_match; by eexists.
  - replace x with 0%N by lia. done.
Qed.

Lemma fmt_d_digits z : 0 ≤ z → digits (fmt_d z).
Proof.
  intros Hz. unfold fmt_d, pretty, pretty_Z, pretty, pretty_positive, pretty, pretty_N.
  destruct z; [done| |lia]. case_decide; [done|]. by apply pretty_N_go_digits.
Qed.

(** A run of digits ends where the first other character stands. *)
Lemma digits_app_inj s1 s2 c1 c2 t1 t2 :
  digits s1 → digits s2 → Ascii.is_nat c1 = None → Ascii.is_nat c2 = None →
  s1 +:+ String c1 t1 = s2 +:+ String c2 t2 → s1 = s2 ∧ c1 = c2 ∧ t1 = t2.
Proof.
  intros H1 H2 Hc1 Hc2. revert s2 H1 H2.
  induction s1 as [|a s1 IH]; intros [|b s2] H1 H2 Heq; simpl in *; simplify_eq;
    rewrite ?andb_True, ?bool_decide_spec in *; destruct_and?.
  - done.
  - match goal with H : is_Some _ |- _ => destruct H end. congruence.
  - match goal with H : is_Some _ |- _ => destruct H end. congruence.
  - by destruct (IH s2) as (->&->&->).
Qed.

(** ** Loops *)

(** One turn of a Go loop: go round again with a new state, or leave it. *)
Inductive turn (S R : Type) : Type :=
| Continue (s : S)
| Return (r : R).
Arguments Continue {S R} s.
Arguments Return {S R} r.

#[global] Instance Continue_inj {S R : Type} : Inj (=) (=) (@Continue S R).
Proof. by intros x y [=]. Qed.
#[global] Instance Return_inj {S R : Type} : Inj (=) (=) (@Return S R).
Proof. by intros x y [=]. Qed.

Fixpoint loop {S R : Type} (body : S → turn S R) (fuel : nat) (s : S) : option R :=
  match fuel with
  | O => None
  | Datatypes.S fuel =>
      match body s with
      | Continue s' => loop body fuel s'
      | Return r => Some r
      end
  end.

(** The loop with the fuel its measure allows; [dflt] is what a loop that does
    not decrease its measure would give, and [run_eq] shows that it is not
    reached when the measure decreases on every turn. *)
Definition run {S R : Type} (body : S → turn S R) (measure : S → nat) (dflt : R) (s : S) : R :=
  default dflt (loop body (Datatypes.S (measure s)) s).

Section loop_lemmas.
Context {S R : Type} (body : S → turn S R) (measure : S → nat) (dflt : R).
Context (Hdec : ∀ s s', body s = Continue s' → (measure s' < measure s)%nat).

Lemma loop_fuel n m s :
  (measure s < n)%nat → (measure s < m)%nat → loop body n s = loop body m s.
Proof.
  revert m s. induction n as [|n IH]; intros [|m] s Hn Hm; try lia. simpl.
  destruct (body s) as [s'|r] eqn:E; [|done]. apply Hdec in E. apply IH; lia.
Qed.

Lemma loop_total n s : (measure s < n)%nat → is_Some (loop body n s).
Proof.
  revert s. induction n as [|n IH]; intros s Hn; [lia|]. simpl.
  destruct (body s) as [s'|r] eqn:E; [|eauto]. apply Hdec in E. apply IH; lia.
Qed.

Lemma run_eq s :
  run body measure dflt s =
    match body s with Continue s' => run body measure dflt s' | Return r => r end.
Proof.
  unfold run at 1. simpl loop at 1. destruct (body s) as [s'|r] eqn:E; [|done].
  unfold run. f_equal. apply loop_fuel; [|lia]. by apply Hdec.
Qed.

(** Reasoning by an invariant of the loop. *)
Lemma run_ind (I : S → Prop) (Q : R → Prop) :
  (∀ s s', I s → body s = Continue s' → I s') →
  (∀ s r, I s → body s = Return r → Q r) →
  ∀ s, I s → Q (run body measure dflt s).
Proof.
  intros Hstep Hret s. induction s as [s IH] using (induction_ltof1 _ measure).
  intros Hs. rewrite run_eq. destruct (body s) as [s'|r] eqn:E; [|eauto].
  apply IH; [by apply Hdec|eauto].
Qed.
End loop_lemmas.

(** ** Automation *)

#[global] Arguments u8 : simpl never.
#[global] Arguments u16 : simpl never.
#[global] Arguments u32 : simpl never.
#[global] Arguments u64 : simpl never.
#[global] Arguments i64 : simpl never.
#[global] Arguments b2z : simpl never.
#[global] Arguments z2b : simpl never.
#[global] Arguments be_enc : simpl never.
#[global] Arguments be_dec : simpl never.
#[global] Arguments slice : simpl never.
#[global] Arguments rd16 : simpl never.
#[global] Arguments rd32 : simpl never.
#[global] Arguments rd64 : simpl never.
#[global] Arguments rd32le : simpl never.
#[global] Arguments run : simpl never.

Create HintDb go.
Create Rewrite HintDb go.
#[export] Hint Rewrite @length_app @length_take @length_drop @length_cons @length_nil
  length_be_enc @length_fmap @length_replicate @length_reverse : go.

(** Arithmetic on the lengths of concatenated buffers. *)
Ltac len := autorewrite with go in *; simpl length in *; lia.

(** Computes the reads of a buffer written as a concatenation of encoded fields. *)
Ltac off_simp :=
  repeat match goal with
  | |- context [?x - ?y] =>
      let v := eval cbv in (x - y) in
      lazymatch v with Z0 => idtac | Zpos _ => idtac end;
      change (x - y) with v
  end.
Ltac rd_simp :=
  repeat first
    [ rewrite rd16_enc by (done || lia) | rewrite rd32_enc by (done || lia)
    | rewrite rd64_enc by (done || lia)
    | rewrite rd16_skip by len; autorewrite with go; off_simp
    | rewrite rd32_skip by len; autorewrite with go; off_simp
    | rewrite rd64_skip by len; autorewrite with go; off_simp ].
