(* ===== verification/Lz4.v ===== *)
(** * LZ4 block codec ([internal/lz4/block.go]) *)

From S2P Require Import Prelude.

Inductive error : Set :=
| ErrTruncated
| ErrBadOffset
| ErrBadLength
| ErrTooLarge
| ErrShortOutput.

Definition minMatch : nat := 4.
Definition maxOffset : Z := 65535.
Definition hashBits : Z := 16.

(** ** Compression *)

(** [hash(i)]: the multiplicative hash of the four bytes at [i]. *)
Definition hash (src : bytes) (i : nat) : Z :=
  Z.shiftr (u32 (rd32le src (Z.of_nat i) * 2654435761)) (32 - hashBits).

(** The inner loop of [EncodeBlock] that extends a match from [i] on. *)
Definition extendTurn (src : bytes) (cand start i : nat) : turn nat nat :=
  if decide (i < length src ∧ src !! (cand + (i - start)) = src !! i)%nat
  then Continue (S i) else Return i.
Definition extend (src : bytes) (cand start : nat) : nat → nat :=
  run (extendTurn src cand start) (λ i, length src - i)%nat O.

(** [appendLengthBytes]: [n] as a run of 255s and a remainder. *)
Definition lengthTurn (s : bytes * nat) : turn (bytes * nat) bytes :=
  let '(dst, n) := s in
  if decide (255 ≤ n)%nat then Continue (dst ++ [z2b 255], n - 255)%nat
  else Return (dst ++ [z2b (Z.of_nat n)]).
Definition appendLengthBytes (dst : bytes) (n : nat) : bytes :=
  run lengthTurn snd [] (dst, n).

(** The literal and match nibbles of a token. *)
Definition litToken (litLen : nat) : Z :=
  if decide (15 ≤ litLen)%nat then 0xF0 else u8 (Z.shiftl (u8 (Z.of_nat litLen)) 4).
Definition matchToken (ml : nat) : Z :=
  if decide (15 ≤ ml)%nat then 0x0F else u8 (Z.of_nat ml).

(** "Emit the pending literals + this match". *)
Definition emitMatch (dst lits : bytes) (offset matchLen : nat) : bytes :=
  let litLen := length lits in
  let ml := (matchLen - minMatch)%nat in
  let dst := dst ++ [z2b (Z.lor (litToken litLen) (matchToken ml))] in
  let dst := if decide (15 ≤ litLen)%nat then appendLengthBytes dst (litLen - 15) else dst in
  let dst := dst ++ lits in
  let dst := dst ++ [z2b (Z.of_nat offset); z2b (Z.shiftr (Z.of_nat offset) 8)] in
  if decide (15 ≤ ml)%nat then appendLengthBytes dst (ml - 15) else dst.

(** "Final literals (the last sequence has no match)". *)
Definition emitFinal (dst lits : bytes) : bytes :=
  let litLen := length lits in
  if decide (0 < litLen)%nat then
    let dst := dst ++ [z2b (litToken litLen)] in
    let dst := if decide (15 ≤ litLen)%nat then appendLengthBytes dst (litLen - 15) else dst in
    dst ++ lits
  else dst.

#[global] Arguments hash : simpl never.
#[global] Arguments extend : simpl never.

(** The state of the main loop; an unset table slot is Go's [-1]. *)
Record encState := EncState {
  table : gmap Z nat;
  anchor : nat;
  pos : nat;
  dst : bytes;
}.

Definition encodeTurn (src : bytes) (s : encState) : turn encState encState :=
  let i := pos s in
  if decide (i + minMatch ≤ length src)%nat then
    let h := hash src i in
    let table' := <[h := i]> (table s) in
    let skip := EncState table' (anchor s) (S i) (dst s) in
    match table s !! h with
    | None => Continue skip
    | Some cand =>
        if decide (maxOffset < Z.of_nat i - Z.of_nat cand) then Continue skip
        else if decide (length src < cand + minMatch)%nat then Continue skip
        else if decide (rd32le src (Z.of_nat cand) ≠ rd32le src (Z.of_nat i)) then Continue skip
        else
          let start := i in
          let i := extend src cand start (i + minMatch) in
          let lits := take (start - anchor s) (drop (anchor s) src) in
          Continue (EncState table' i i (emitMatch (dst s) lits (start - cand) (i - start)))
    end
  else Return s.

Definition EncodeBlock (src : bytes) : bytes :=
  if decide (length src = 0)%nat then [] else
  let s0 := EncState ∅ 0 0 [] in
  let s := run (encodeTurn src) (λ s, length src + 1 - pos s)%nat s0 s0 in
  emitFinal (dst s) (drop (anchor s) src).

(** ** Decompression *)

(** The read cursor [i] into [src] is represented by the unread bytes [src[i:]]. *)
Fixpoint readLength (src : bytes) (total : Z) : result error (Z * bytes) :=
  match src with
  | [] => Err ErrTruncated
  | b :: src =>
      let total := total + b2z b in
      if decide (b2z b ≠ 255) then Ok (total, src)
      else if decide (2 ^ 30 < total) then Err ErrBadLength
      else readLength src total
  end.

(** A nibble of the token, with its extension bytes when it is 15. *)
Definition nibbleLength (nib : Z) (src : bytes) : result error (Z * bytes) :=
  if decide (nib = 15) then
    '(n, src) ←ᵣ readLength src 0; Ok (nib + n, src)
  else Ok (nib, src).

(** "Byte-wise copy: LZ4 matches may overlap". *)
Fixpoint copyMatch (out : bytes) (offset k : nat) : bytes :=
  match k with
  | O => out
  | S k => copyMatch (out ++ [default x00 (out !! (length out - offset)%nat)]) offset k
  end.

(** One sequence; [Continue] carries the unread input and the output so far. *)
Definition decodeTurn (expected : Z) (s : bytes * bytes) : turn (bytes * bytes) (result error bytes) :=
  let '(src, out) := s in
  let finish out := if decide (zlen out ≠ expected) then Err ErrShortOutput else Ok out in
  match src with
  | [] => Return (finish out)
  | token :: src =>
      match nibbleLength (Z.shiftr (b2z token) 4) src with
      | Err e => Return (Err e)
      | Ok (litLen, src) =>
          if decide (zlen src < litLen) then Return (Err ErrTruncated) else
          let out := out ++ take (Z.to_nat litLen) src in
          match drop (Z.to_nat litLen) src with
          | [] => Return (finish out)
          | [_] => Return (Err ErrTruncated)
          | lo :: hi :: src =>
              let offset := Z.lor (b2z lo) (Z.shiftl (b2z hi) 8) in
              if decide (offset = 0 ∨ zlen out < offset) then Return (Err ErrBadOffset) else
              match nibbleLength (Z.land (b2z token) 0x0F) src with
              | Err e => Return (Err e)
              | Ok (matchLen, src) =>
                  let matchLen := matchLen + Z.of_nat minMatch in
                  if decide (expected < zlen out + matchLen) then Return (Err ErrTooLarge) else
                  Continue (src, copyMatch out (Z.to_nat offset) (Z.to_nat matchLen))
              end
          end
      end
  end.

Definition DecodeBlock (src : bytes) (expected : Z) : result error bytes :=
  run (decodeTurn expected) (λ s, length s.1) (Err ErrTruncated) (src, []).

Example encode_abab :
  DecodeBlock (EncodeBlock (bs "abcdabcdabcdabcdabcdabcdabcdabcdabcdabcdabcd!")) 45
  = Ok (bs "abcdabcdabcdabcdabcdabcdabcdabcdabcdabcdabcd!").
Proof. vm_compute. reflexivity. Qed.

(** ** The loops terminate *)

Lemma extend_dec src cand start i i' :
  extendTurn src cand start i = Continue i' → (length src - i' < length src - i)%nat.
Proof. unfold extendTurn. case_decide; intros; simplify_eq. lia. Qed.

Lemma extend_spec src cand start i :
  (i ≤ length src)%nat →
  let e := extend src cand start i in
  (i ≤ e ≤ length src)%nat ∧
  (∀ k, (i ≤ k < e)%nat → src !! (cand + (k - start))%nat = src !! k).
Proof.
  intros Hi. unfold extend.
  apply (run_ind _ _ _ (extend_dec src cand start)
    (λ e, (i ≤ e ≤ length src)%nat ∧
      ∀ k, (i ≤ k < e)%nat → src !! (cand + (k - start))%nat = src !! k));
    unfold extendTurn.
  - intros s s' [Hs Hk] E. case_decide as Hc; simplify_eq. split; [lia|].
    intros k Hk'. destruct (decide (k = s)) as [->|]; [tauto|]. apply Hk. lia.
  - intros s r Hs E. case_decide as Hc; by simplify_eq.
  - split; [lia|]. intros. lia.
Qed.

Lemma encodeTurn_dec src s s' :
  encodeTurn src s = Continue s' →
  (length src + 1 - pos s' < length src + 1 - pos s)%nat.
Proof.
  unfold encodeTurn. intros H. case_decide as Hi; [|discriminate H].
  unfold minMatch in *. destruct (table s !! hash src (pos s)) as [cand|].
  - do 3 (case_decide; [apply (inj Continue) in H as <-; simpl pos; lia|]).
    apply (inj Continue) in H as <-. simpl pos.
    pose proof (extend_spec src cand (pos s) (pos s + 4) Hi) as Hx. simpl in Hx. lia.
  - apply (inj Continue) in H as <-. simpl pos. lia.
Qed.

Lemma readLength_shorter src total n src' :
  readLength src total = Ok (n, src') → (length src' < length src)%nat ∧ total ≤ n.
Proof.
  revert total. induction src as [|b src IH]; intros total H; simpl in H; [done|].
  pose proof (b2z_range b). repeat case_decide; simplify_eq/=; [lia|].
  apply IH in H. lia.
Qed.

Lemma nibbleLength_shorter nib src n src' :
  0 ≤ nib → nibbleLength nib src = Ok (n, src') → (length src' ≤ length src)%nat ∧ 0 ≤ n.
Proof.
  unfold nibbleLength. intros Hn H. case_decide; [|simplify_eq; lia].
  inv_ok. destruct a as [m r]. apply readLength_shorter in Ha. simplify_eq. lia.
Qed.

Lemma decodeTurn_dec expected s s' :
  decodeTurn expected s = Continue s' → (length s'.1 < length s.1)%nat.
Proof.
  destruct s as [src out]. unfold decodeTurn. intros H.
  destruct src as [|t src]; [done|].
  destruct (nibbleLength (b2z t ≫ 4) src) as [[l r]|] eqn:E1; [|done].
  case_decide; [done|]. destruct (drop _ r) as [|lo [|hi r']] eqn:Ed; [done..|].
  case_decide; [done|].
  destruct (nibbleLength (Z.land (b2z t) 15) r') as [[m r'']|] eqn:E2; [|done].
  case_decide; [done|]. simplify_eq/=.
  apply nibbleLength_shorter in E1; [|apply Z.shiftr_nonneg, b2z_range].
  apply nibbleLength_shorter in E2; [|apply Z.land_nonneg; lia].
  apply (f_equal length) in Ed. len.
Qed.

(** ** Round trip *)

(** The closed form of [appendLengthBytes]. *)
Definition lenBytes (n : nat) : bytes :=
  replicate (n / 255) (z2b 255) ++ [z2b (Z.of_nat (n mod 255))].

Lemma lengthTurn_dec s s' : lengthTurn s = Continue s' → (s'.2 < s.2)%nat.
Proof. destruct s. unfold lengthTurn. case_decide; intros; simplify_eq/=. lia. Qed.

Lemma appendLengthBytes_eq dst n : appendLengthBytes dst n = dst ++ lenBytes n.
Proof.
  revert dst. induction n as [n IH] using lt_wf_ind. intros dst.
  unfold appendLengthBytes. rewrite run_eq by apply lengthTurn_dec. unfold lengthTurn at 1.
  case_decide as Hn.
  - fold (appendLengthBytes (dst ++ [z2b 255]) (n - 255)). rewrite IH by lia.
    rewrite <-app_assoc. f_equal. unfold lenBytes.
    replace (n / 255)%nat with (S ((n - 255) / 255)).
    2: { replace n with (n - 255 + 1 * 255)%nat at 2 by lia. rewrite Nat.div_add by lia. lia. }
    replace (n mod 255)%nat with ((n - 255) mod 255)%nat; [done|].
    replace n with (n - 255 + 1 * 255)%nat at 2 by lia. by rewrite Nat.Div0.mod_add.
  - unfold lenBytes. by rewrite Nat.div_small, Nat.mod_small by lia.
Qed.

Lemma readLength_replicate q rest t :
  0 ≤ t → t + 255 * Z.of_nat q ≤ 2 ^ 30 →
  readLength (replicate q (z2b 255) ++ rest) t = readLength rest (t + 255 * Z.of_nat q).
Proof.
  revert t. induction q as [|q IH]; intros t Ht Hq; [simpl; f_equal; lia|].
  cbn [replicate app readLength]. change (b2z (z2b 255)) with 255.
  rewrite !decide_False by lia.
  rewrite IH by lia. f_equal. lia.
Qed.

Lemma readLength_lenBytes n rest :
  Z.of_nat n ≤ 2 ^ 30 → readLength (lenBytes n ++ rest) 0 = Ok (Z.of_nat n, rest).
Proof.
  intros Hn. unfold lenBytes. rewrite <-app_assoc.
  pose proof (Nat.div_mod_eq n 255). pose proof (Nat.mod_upper_bound n 255).
  rewrite readLength_replicate by lia. cbn [app readLength].
  assert (b2z (z2b (Z.of_nat (n mod 255))) = Z.of_nat (n mod 255)) as ->.
  { rewrite b2z_z2b. apply Z.mod_small. lia. }
  rewrite decide_True by lia. do 2 f_equal. lia.
Qed.

(** A length as its nibble and its extension bytes. *)
Definition nibble (n : nat) : Z := if decide (15 ≤ n)%nat then 15 else Z.of_nat n.
Definition extBytes (n : nat) : bytes := if decide (15 ≤ n)%nat then lenBytes (n - 15) else [].

Lemma nibble_range n : 0 ≤ nibble n < 16.
Proof. unfold nibble. case_decide; lia. Qed.

Lemma nibbleLength_ext n rest :
  Z.of_nat n ≤ 2 ^ 30 →
  nibbleLength (nibble n) (extBytes n ++ rest) = Ok (Z.of_nat n, rest).
Proof.
  intros Hn. unfold nibbleLength, nibble, extBytes.
  destruct (decide (15 ≤ n)%nat) as [H15|H15].
  - rewrite decide_True by done. rewrite readLength_lenBytes by lia. simpl. do 2 f_equal. lia.
  - by rewrite decide_False by lia.
Qed.

Lemma token_split a b :
  0 ≤ a < 16 → 0 ≤ b < 16 →
  Z.shiftr (b2z (z2b (Z.lor (a * 16) b))) 4 = a ∧ Z.land (b2z (z2b (Z.lor (a * 16) b))) 15 = b.
Proof.
  intros Ha Hb.
  change 16 with (2 ^ 4) in *. rewrite lor_fields by lia. change (2 ^ 4) with 16 in *.
  rewrite b2z_z2b. unfold u8. rewrite Z.mod_small by lia. split.
  - rewrite Z.shiftr_div_pow2 by lia. change (2 ^ 4) with 16.
    rewrite Z.div_add_l by lia. rewrite Z.div_small by lia. lia.
  - change 15 with (Z.ones 4). rewrite Z.land_ones by lia. change (2 ^ 4) with 16.
    rewrite Z.add_comm, Z.mod_add by lia. by apply Z.mod_small.
Qed.

Lemma offset_split off :
  0 ≤ off < 2 ^ 16 →
  Z.lor (b2z (z2b off)) (Z.shiftl (b2z (z2b (Z.shiftr off 8))) 8) = off.
Proof.
  intros Ho. rewrite !b2z_z2b, Z.shiftr_div_pow2, Z.shiftl_mul_pow2, Z.lor_comm by lia.
  unfold u8. pose proof (Z.mod_pos_bound off (2 ^ 8)).
  assert (0 ≤ off / 2 ^ 8 < 2 ^ 8).
  { split; [apply Z.div_pos; lia|apply Z.div_lt_upper_bound; lia]. }
  rewrite (Z.mod_small (off / 2 ^ 8)), lor_fields by lia.
  pose proof (Z.div_mod off (2 ^ 8)). lia.
Qed.

Lemma litToken_eq n : litToken n = nibble n * 16.
Proof.
  unfold litToken, nibble. case_decide; [done|]. unfold u8.
  rewrite Z.shiftl_mul_pow2 by lia. rewrite !Z.mod_small by (rewrite ?Z.mod_small; lia). lia.
Qed.

Lemma matchToken_eq n : matchToken n = nibble n.
Proof. unfold matchToken, nibble. case_decide; [done|]. apply Z.mod_small. lia. Qed.

Lemma emitMatch_eq dst lits off m :
  emitMatch dst lits off m =
    dst ++ [z2b (Z.lor (nibble (length lits) * 16) (nibble (m - minMatch)))]
      ++ extBytes (length lits) ++ lits
      ++ [z2b (Z.of_nat off); z2b (Z.shiftr (Z.of_nat off) 8)] ++ extBytes (m - minMatch).
Proof.
  unfold emitMatch, extBytes. rewrite litToken_eq, matchToken_eq.
  destruct (decide (15 ≤ length lits)%nat), (decide (15 ≤ m - minMatch)%nat);
    rewrite ?appendLengthBytes_eq, <-?app_assoc; simpl; by rewrite ?app_nil_r.
Qed.

Lemma emitFinal_eq dst lits :
  lits ≠ [] →
  emitFinal dst lits = dst ++ [z2b (nibble (length lits) * 16)] ++ extBytes (length lits) ++ lits.
Proof.
  intros Hl. unfold emitFinal, extBytes. rewrite litToken_eq.
  rewrite decide_True by (destruct lits; [done|simpl; lia]).
  case_decide; rewrite ?appendLengthBytes_eq, <-?app_assoc; by simpl.
Qed.

(** A match copied from the output it repeats gives the next bytes of the source. *)
Lemma copyMatch_take src n off k :
  (n + k ≤ length src)%nat → (0 < off ≤ n)%nat →
  (∀ j, (j < k)%nat → src !! (n + j - off)%nat = src !! (n + j)%nat) →
  copyMatch (take n src) off k = take (n + k) src.
Proof.
  revert n. induction k as [|k IH]; intros n Hk Hoff Hsrc; simpl.
  { by rewrite Nat.add_0_r. }
  assert (take n src ++ [default x00 (take n src !! (length (take n src) - off)%nat)]
          = take (S n) src) as ->.
  { rewrite length_take_le by lia. rewrite lookup_take_lt by lia.
    pose proof (Hsrc O ltac:(lia)) as H0. rewrite Nat.add_0_r in H0. rewrite H0.
    destruct (lookup_lt_is_Some_2 src n) as [b Hb]; [lia|]. rewrite Hb. simpl.
    by rewrite (take_S_r _ _ b). }
  rewrite IH; [f_equal; lia|lia|lia|].
  intros j Hj. replace (S n + j)%nat with (n + S j)%nat by lia. apply Hsrc. lia.
Qed.

Section decoding.
Context (expected : Z).

Abbreviation decode := (run (decodeTurn expected) (λ s, length s.1) (Err ErrTruncated)).

Lemma decode_eq s :
  decode s = match decodeTurn expected s with Continue s' => decode s' | Return r => r end.
Proof. apply run_eq, decodeTurn_dec. Qed.

(** A match sequence decodes to its literals followed by the copied match. *)
Lemma decodeTurn_match lits off m rest out :
  zlen lits ≤ 2 ^ 30 → (4 ≤ m)%nat → Z.of_nat m ≤ 2 ^ 30 →
  0 < Z.of_nat off < 2 ^ 16 → (off ≤ length out + length lits)%nat →
  zlen out + zlen lits + Z.of_nat m ≤ expected →
  decodeTurn expected
    ([z2b (Z.lor (nibble (length lits) * 16) (nibble (m - minMatch)))]
       ++ extBytes (length lits) ++ lits
       ++ [z2b (Z.of_nat off); z2b (Z.shiftr (Z.of_nat off) 8)]
       ++ extBytes (m - minMatch) ++ rest, out)
  = Continue (rest, copyMatch (out ++ lits) off m).
Proof.
  intros Hl Hm Hm' Hoff Hout Hexp. unfold minMatch. unfold decodeTurn. cbn [app].
  destruct (token_split (nibble (length lits)) (nibble (m - 4))) as [-> ->];
    [apply nibble_range..|].
  rewrite nibbleLength_ext by done. rewrite decide_False by len.
  rewrite Nat2Z.id, take_app_length, drop_app_length. cbn [app].
  rewrite offset_split by lia. rewrite decide_False by len.
  rewrite nibbleLength_ext by lia. unfold minMatch. rewrite decide_False by len.
  do 3 f_equal; lia.
Qed.

(** The last sequence decodes to its literals and ends the block. *)
Lemma decodeTurn_final lits out :
  zlen lits ≤ 2 ^ 30 → zlen out + zlen lits = expected →
  decodeTurn expected ([z2b (nibble (length lits) * 16)] ++ extBytes (length lits) ++ lits, out)
  = Return (Ok (out ++ lits)).
Proof.
  intros Hl Hexp. unfold decodeTurn. cbn [app].
  replace (nibble (length lits) * 16) with (Z.lor (nibble (length lits) * 16) 0)
    by apply Z.lor_0_r.
  destruct (token_split (nibble (length lits)) 0) as [-> _]; [apply nibble_range|lia|].
  rewrite nibbleLength_ext by done. rewrite decide_False by lia.
  rewrite Nat2Z.id, take_ge, drop_ge by lia. rewrite decide_False by len. done.
Qed.
End decoding.

Lemma rd32le_match src i j k :
  (i + 4 ≤ length src)%nat → (j + 4 ≤ length src)%nat →
  rd32le src (Z.of_nat i) = rd32le src (Z.of_nat j) →
  (k < 4)%nat → src !! (i + k)%nat = src !! (j + k)%nat.
Proof.
  intros Hi Hj Heq Hk. unfold rd32le in Heq.
  assert (∀ x, (x + 4 ≤ length src)%nat →
    slice src (Z.of_nat x) (Z.of_nat x + 4) = take 4 (drop x src)) as Hs.
  { intros x Hx. unfold slice. f_equal; [lia|]. f_equal. lia. }
  rewrite !Hs in Heq by done. apply be_dec_inj in Heq; [|len].
  apply (inj reverse) in Heq. apply (f_equal (.!! k)) in Heq.
  by rewrite !lookup_take_lt, !lookup_drop in Heq by lia.
Qed.

(** What the main loop keeps: the bytes emitted so far decode to the source up to
    the anchor, whatever follows them, and the table only names earlier positions. *)
Record encInv (src : bytes) (s : encState) : Prop := {
  inv_decodes rest :
    run (decodeTurn (zlen src)) (λ s, length s.1) (Err ErrTruncated) (dst s ++ rest, [])
    = run (decodeTurn (zlen src)) (λ s, length s.1) (Err ErrTruncated) (rest, take (anchor s) src);
  inv_pos : (anchor s ≤ pos s ≤ length src)%nat;
  inv_table h c : table s !! h = Some c → (c < pos s)%nat;
  inv_size : zlen (dst s) ≤ Z.of_nat (anchor s) + Z.of_nat (anchor s) / 255;
}.

Lemma zlen_extBytes n : zlen (extBytes n) ≤ 1 + Z.of_nat n / 255.
Proof.
  unfold extBytes. case_decide.
  - unfold lenBytes. rewrite length_app, length_replicate, Nat2Z.inj_add, Nat2Z.inj_div. simpl.
    assert (Z.of_nat (n - 15) / 255 ≤ Z.of_nat n / 255) by (apply Z.div_le_mono; lia). lia.
  - simpl. assert (0 ≤ Z.of_nat n / 255) by (apply Z.div_pos; lia). lia.
Qed.

Lemma zlen_matchExt m : (4 ≤ m)%nat → 4 + zlen (extBytes (m - 4)) ≤ Z.of_nat m.
Proof.
  intros Hm. destruct (decide (15 ≤ m - 4)%nat) as [H|H].
  - pose proof (zlen_extBytes (m - 4)).
    assert (Z.of_nat (m - 4) / 255 ≤ Z.of_nat (m - 4) / 15) by (apply Z.div_le_compat_l; lia).
    assert (Z.of_nat (m - 4) / 15 * 15 ≤ Z.of_nat (m - 4)).
    { pose proof (Z.mul_div_le (Z.of_nat (m - 4)) 15). lia. }
    lia.
  - unfold extBytes. rewrite decide_False by done. simpl. lia.
Qed.

Lemma div_add_le a b c : 0 < c → a / c + b / c ≤ (a + b) / c.
Proof.
  intros Hc. apply Z.div_le_lower_bound; [done|].
  pose proof (Z.mul_div_le a c). pose proof (Z.mul_div_le b c). lia.
Qed.

Lemma zlen_emitMatch d (lits : bytes) off m (a : nat) :
  (4 ≤ m)%nat → zlen d ≤ Z.of_nat a + Z.of_nat a / 255 →
  zlen (emitMatch d lits off m)
  ≤ Z.of_nat (a + length lits + m) + Z.of_nat (a + length lits + m) / 255.
Proof.
  intros Hm Hd. rewrite emitMatch_eq. unfold minMatch.
  pose proof (zlen_extBytes (length lits)). pose proof (zlen_matchExt m Hm).
  pose proof (div_add_le (Z.of_nat a) (zlen lits) 255 ltac:(lia)).
  assert ((Z.of_nat a + zlen lits) / 255 ≤ Z.of_nat (a + length lits + m) / 255)
    by (apply Z.div_le_mono; lia).
  len.
Qed.

Lemma encInv_step src s s' :
  zlen src ≤ 2 ^ 30 → encInv src s → encodeTurn src s = Continue s' → encInv src s'.
Proof.
  intros Hlen [Hd Hp Ht Hz] H. unfold encodeTurn in H.
  case_decide as Hi; [|discriminate H]. unfold minMatch in Hi, H.
  assert (encInv src (EncState (<[hash src (pos s):=pos s]> (table s)) (anchor s)
                               (S (pos s)) (dst s))) as Hskip.
  { constructor; cbn [dst anchor pos table]; [exact Hd|lia| |exact Hz]. intros h c.
    rewrite lookup_insert_Some. intros [[_ <-]|[_ Hc]]; [lia|]. apply Ht in Hc. lia. }
  destruct (table s !! hash src (pos s)) as [cand|] eqn:Hcand.
  2: { apply (inj Continue) in H as <-. exact Hskip. }
  unfold maxOffset in H.
  do 3 (case_decide; [apply (inj Continue) in H as <-; exact Hskip|]).
  apply (inj Continue) in H as <-. apply Ht in Hcand.
  assert (rd32le src (Z.of_nat cand) = rd32le src (Z.of_nat (pos s))) as H4 by lia.
  pose proof (extend_spec src cand (pos s) (pos s + 4) Hi) as Hx. cbv zeta in Hx.
  set (e := extend src cand (pos s) (pos s + 4)) in *. destruct Hx as [He Hext].
  assert (∀ j, (pos s + j < e)%nat → src !! (cand + j)%nat = src !! (pos s + j)%nat) as Hmatch.
  { intros j Hj. destruct (decide (j < 4)%nat); [by apply rd32le_match; lia|].
    rewrite <-(Hext (pos s + j)%nat) by lia. f_equal. lia. }
  set (lits := take (pos s - anchor s) (drop (anchor s) src)).
  assert (length lits = pos s - anchor s)%nat as Hlits by (unfold lits; len).
  assert (take (anchor s) src ++ lits = take (pos s) src) as Htake.
  { unfold lits. rewrite take_take_drop. f_equal. lia. }
  constructor; cbn [dst anchor pos table].
  - intros rest. rewrite emitMatch_eq, <-!app_assoc, Hd, decode_eq.
    rewrite decodeTurn_match; rewrite ?Hlits, ?length_take_le by lia; try lia.
    rewrite Htake, copyMatch_take by (try intros j Hj; try lia;
      rewrite <-Hmatch by lia; f_equal; lia).
    by replace (pos s + (e - pos s))%nat with e by lia.
  - lia.
  - intros h c. rewrite lookup_insert_Some. intros [[_ <-]|[_ Hc]]; [lia|]. apply Ht in Hc. lia.
  - pose proof (zlen_emitMatch (dst s) lits (pos s - cand) (e - pos s) (anchor s)
      ltac:(lia) Hz) as Hz'.
    by replace (anchor s + length lits + (e - pos s))%nat with e in Hz' by lia.
Qed.

Lemma encInv_run src s0 :
  zlen src ≤ 2 ^ 30 → s0 = EncState ∅ 0 0 [] →
  encInv src (run (encodeTurn src) (λ s, length src + 1 - pos s)%nat s0 s0).
Proof.
  intros Hlen ->. apply (run_ind _ _ _ (encodeTurn_dec src) (encInv src) (encInv src)).
  - intros. by eapply encInv_step.
  - intros s r Hs H. unfold encodeTurn in H. repeat (case_decide || case_match); try discriminate H.
    all: by apply (inj Return) in H as <-.
  - constructor; cbn [dst anchor pos table]; [done|lia|done|by vm_compute].
Qed.

Lemma lz4_roundtrip src :
  zlen src ≤ 2 ^ 30 → DecodeBlock (EncodeBlock src) (zlen src) = Ok src.
Proof.
  intros Hlen. unfold EncodeBlock. case_decide as H0.
  { destruct src; [|discriminate H0]. done. }
  destruct (encInv_run src _ Hlen eq_refl) as [Hd Hp _ _].
  set (s := run _ _ _ _) in *. unfold DecodeBlock.
  destruct (decide (drop (anchor s) src = [])) as [Hnil|Hnil].
  - rewrite Hnil. change (emitFinal (dst s) []) with (dst s).
    rewrite <-(app_nil_r (dst s)), Hd, decode_eq. simpl.
    apply (f_equal length) in Hnil. rewrite take_ge by len. by rewrite decide_False by lia.
  - rewrite emitFinal_eq, Hd, decode_eq, decodeTurn_final by (done || len).
    by rewrite take_drop.
Qed.

Lemma lz4_decoded_length src expected out :
  DecodeBlock src expected = Ok out → zlen out = expected.
Proof.
  unfold DecodeBlock.
  apply (run_ind _ _ _ (decodeTurn_dec expected) (λ _, True)
    (λ r, r = Ok out → zlen out = expected)); [done| |done].
  intros [i o] r _. unfold decodeTurn. intros H Hr. subst r.
  repeat (case_match || case_decide); try discriminate H.
  all: apply (inj Return) in H; simplify_eq; tauto || lia.
Qed.

Lemma lz4_bound src :
  zlen src ≤ 2 ^ 30 → zlen (EncodeBlock src) ≤ zlen src + zlen src / 255 + 16.
Proof.
  intros Hlen. unfold EncodeBlock. case_decide as H0.
  { assert (0 ≤ zlen src / 255) by (apply Z.div_pos; lia). simpl. lia. }
  destruct (encInv_run src _ Hlen eq_refl) as [_ Hp _ Hz].
  set (s := run _ _ _ _) in *.
  pose proof (div_add_le (Z.of_nat (anchor s)) (zlen (drop (anchor s) src)) 255 ltac:(lia)) as Hd.
  assert (Z.of_nat (anchor s) + zlen (drop (anchor s) src) = zlen src) as Hsum by len.
  rewrite Hsum in Hd.
  destruct (decide (drop (anchor s) src = [])) as [Hnil|Hnil].
  - rewrite Hnil in *. change (emitFinal (dst s) []) with (dst s).
    assert (Z.of_nat (anchor s) = zlen src) as Ha by (simpl in Hsum; lia).
    rewrite Ha in Hz. lia.
  - rewrite emitFinal_eq by done. pose proof (zlen_extBytes (length (drop (anchor s) src))).
    rewrite !length_app. simpl length. lia.
Qed.

(** ** Properties *)

(** C37: a page of at most 1 GiB survives compression: [DecodeBlock] of what
    [EncodeBlock] wrote, with the page's length as the expected size, returns
    the page. *)
Theorem DecodeBlock_EncodeBlock src :
  zlen src ≤ 2 ^ 30 → DecodeBlock (EncodeBlock src) (zlen src) = Ok src.
Proof. apply lz4_roundtrip. Qed.

Lemma DecodeBlock_EncodeBlock_witness :
  let src := bs "abcdabcdabcdabcdabcdabcdabcd--abcdabcd" in
  zlen (EncodeBlock src) < zlen src ∧ DecodeBlock (EncodeBlock src) (zlen src) = Ok src.
Proof.
  split; [vm_compute; reflexivity|]. apply DecodeBlock_EncodeBlock. vm_compute. discriminate.
Defined.

(** Whatever the input, a successful [DecodeBlock] returns exactly the
    [expected] number of bytes. *)
Theorem DecodeBlock_length src expected out :
  DecodeBlock src expected = Ok out → zlen out = expected.
Proof. apply lz4_decoded_length. Qed.

Lemma DecodeBlock_length_witness :
  DecodeBlock [x12; x61; x01; x00; x10; x62] 8 = Ok (bs "aaaaaaab") ∧ zlen (bs "aaaaaaab") = 8.
Proof.
  split; [vm_compute; reflexivity|]. apply (DecodeBlock_length [x12; x61; x01; x00; x10; x62]).
  vm_compute. reflexivity.
Defined.

(** Compression expands a page by at most one byte in 255 plus 16, the
    capacity [EncodeBlock] allocates. *)
Theorem EncodeBlock_bound src :
  zlen src ≤ 2 ^ 30 → zlen (EncodeBlock src) ≤ zlen src + zlen src / 255 + 16.
Proof. apply lz4_bound. Qed.

Lemma EncodeBlock_bound_witness :
  zlen (EncodeBlock (bs "abc")) = 4 ∧ zlen (EncodeBlock (bs "abc")) ≤ 3 + 3 / 255 + 16.
Proof.
  split; [vm_compute; reflexivity|]. apply (EncodeBlock_bound (bs "abc")). vm_compute. discriminate.
Defined.
