(* ===== verification/Ltx.v ===== *)
(** * LTX segments ([internal/ltx/ltx.go]) *)

From S2P Require Import Prelude.

(** ** CRC32C ([hash/crc32] with the Castagnoli table) *)

Definition crcBit (c : Z) : Z :=
  if Z.odd c then Z.lxor (Z.shiftr c 1) 0x82F63B78 else Z.shiftr c 1.
Definition crcByte (c : Z) (b : byte) : Z := Nat.iter 8 crcBit (Z.lxor c (b2z b)).
Definition crc32c (p : bytes) : Z :=
  u32 (Z.lxor (foldl crcByte 0xFFFFFFFF p) 0xFFFFFFFF).
#[global] Arguments crc32c : simpl never.

(** The check value of the CRC catalogue. *)
Example crc32c_check : crc32c (bs "123456789") = 0xE3069283.
Proof. vm_compute. reflexivity. Qed.

(** ** Segments *)

Definition HeaderSize : Z := 44.
Definition Magic : bytes := bs "LTX1".
Definition Version : Z := 1.

Definition KindDelta : Z := 0.
Definition KindSnapshot : Z := 1.
Definition KindLink : Z := 2.
Definition KindMarker : Z := 3.

Record Header := MkHeader {
  hVersion : Z;
  hKind : Z;
  hFlags : Z;
  hEpoch : Z;
  hStartTxID : Z;
  hEndTxID : Z;
  hLength : Z;
  hCRC : Z;
}.

(** The values that a Go [Header] can hold. *)
Record wf_header (h : Header) : Prop := {
  wf_version : is_u8 (hVersion h);
  wf_kind : is_u8 (hKind h);
  wf_flags : is_u16 (hFlags h);
  wf_epoch : is_u64 (hEpoch h);
  wf_start : is_u64 (hStartTxID h);
  wf_end : is_u64 (hEndTxID h);
  wf_length : is_u64 (hLength h);
  wf_crc : is_u32 (hCRC h);
}.

Definition flagSnapshotPaged : Z := Z.shiftl 1 15.
Definition snapshotPartMask : Z := flagSnapshotPaged - 1.

Definition SnapshotFlags (part : Z) : Z :=
  let part := if decide (part < 0) then 0 else part in
  Z.lor flagSnapshotPaged (Z.land (u16 part) snapshotPartMask).

(** [None] is Go's [(0, false)]. *)
Definition SnapshotPart (h : Header) : option Z :=
  if decide (hKind h ≠ KindSnapshot ∨ Z.land (hFlags h) flagSnapshotPaged = 0) then None
  else Some (Z.land (hFlags h) snapshotPartMask).

Inductive error : Set :=
| ErrShort
| ErrMagic
| ErrChecksum
| ErrVersion (v : Z).

(** The header that [Encode] writes for [h] and [payload]. *)
Definition stamp (h : Header) (payload : bytes) : Header :=
  MkHeader Version (hKind h) (hFlags h) (hEpoch h) (hStartTxID h) (hEndTxID h)
           (zlen payload) (crc32c payload).

(** The 44 header bytes, field by field. *)
Definition headerBytes (h : Header) : bytes :=
  Magic ++ be_enc 1 (hVersion h) ++ be_enc 1 (hKind h) ++ be_enc 2 (hFlags h)
    ++ be_enc 8 (hEpoch h) ++ be_enc 8 (hStartTxID h) ++ be_enc 8 (hEndTxID h)
    ++ be_enc 8 (hLength h) ++ be_enc 4 (hCRC h).

Definition Encode (h : Header) (payload : bytes) : bytes :=
  headerBytes (stamp h payload) ++ payload.

Definition parseHeader (b : bytes) : Header :=
  {| hVersion := be_dec (slice b 4 5);
     hKind := be_dec (slice b 5 6);
     hFlags := rd16 b 6;
     hEpoch := rd64 b 8;
     hStartTxID := rd64 b 16;
     hEndTxID := rd64 b 24;
     hLength := rd64 b 32;
     hCRC := rd32 b 40 |}.

Definition Decode (b : bytes) : result error (Header * bytes) :=
  reject (bool_decide (zlen b < HeaderSize)) ErrShort ;;ᵣ
  reject (bool_decide (slice b 0 4 ≠ Magic)) ErrMagic ;;ᵣ
  let h := parseHeader b in
  reject (bool_decide (hVersion h ≠ Version)) (ErrVersion (hVersion h)) ;;ᵣ
  reject (bool_decide (zlen b - HeaderSize < hLength h)) ErrShort ;;ᵣ
  let payload := slice b HeaderSize (HeaderSize + hLength h) in
  reject (bool_decide (crc32c payload ≠ hCRC h)) ErrChecksum ;;ᵣ
  Ok (h, payload).

#[global] Arguments headerBytes : simpl never.
#[global] Arguments Encode : simpl never.
#[global] Arguments parseHeader : simpl never.
#[global] Arguments Decode : simpl never.

(** ** Object names *)

(** [Header.ID]. *)
Definition ID (h : Header) : string :=
  fmt_d (hEpoch h) +:+ ":" +:+ fmt_d (hKind h) +:+ ":" +:+ fmt_d (hStartTxID h)
    +:+ ":" +:+ fmt_d (hEndTxID h) +:+ ":" +:+ fmt_d (hCRC h).

Definition SegmentName (h : Header) : string :=
  if decide (hKind h = KindSnapshot) then
    match SnapshotPart h with
    | Some part => fmt_d (hEndTxID h) +:+ ".p" +:+ fmt_d part +:+ ".snapshot"
    | None => fmt_d (hEndTxID h) +:+ ".snapshot"
    end
  else if decide (hKind h = KindLink) then fmt_d (hStartTxID h) +:+ ".link"
  else if decide (hKind h = KindMarker) then fmt_d (hStartTxID h) +:+ ".marker"
  else fmt_d (hStartTxID h) +:+ "-" +:+ fmt_d (hEndTxID h) +:+ ".ltx".

Definition partOf (h : Header) : Z := default 0 (SnapshotPart h).

Definition BatchName (first last : Header) : string :=
  if decide (hKind first = KindSnapshot ∧ hKind last = KindSnapshot
             ∧ hEndTxID first = hEndTxID last) then
    fmt_d (hEndTxID first) +:+ ".p" +:+ fmt_d (partOf first) +:+ "-p"
      +:+ fmt_d (partOf last) +:+ ".s.batch"
  else
    let suffix := if decide (hKind first = KindSnapshot ∨ hKind last = KindSnapshot)
                  then "m" else "d" in
    fmt_d (hStartTxID first) +:+ "-" +:+ fmt_d (hEndTxID last) +:+ "." +:+ suffix +:+ ".batch".

(** ** Group-commit batches *)

(** One turn of [Split]: the unread bytes and the segments found so far. *)
Definition splitTurn (s : bytes * list bytes) : turn (bytes * list bytes) (result error (list bytes)) :=
  let '(b, out) := s in
  if decide (zlen b ≤ 0) then Return (Ok out) else
  if decide (zlen b < HeaderSize) then Return (Err ErrShort) else
  if decide (slice b 0 4 ≠ Magic) then Return (Err ErrMagic) else
  let length := rd64 b 32 in
  if decide (zlen b - HeaderSize < length) then Return (Err ErrShort) else
  let total := HeaderSize + length in
  let seg := slice b 0 total in
  match Decode seg with
  | Err e => Return (Err e)
  | Ok _ => Continue (drop (Z.to_nat total) b, out ++ [seg])
  end.

Definition Split (b : bytes) : result error (list bytes) :=
  run splitTurn (λ s, length s.1) (Err ErrShort) (b, []).

(** ** Encoding and decoding *)

Lemma crc32c_range p : is_u32 (crc32c p).
Proof. apply u32_range. Qed.

Lemma zlen_headerBytes h : zlen (headerBytes h) = HeaderSize.
Proof. unfold headerBytes. autorewrite with go. by change (length Magic) with 4%nat. Qed.

Lemma zlen_Encode h p : zlen (Encode h p) = HeaderSize + zlen p.
Proof. unfold Encode. pose proof (zlen_headerBytes (stamp h p)). len. Qed.

Lemma stamp_wf h p : wf_header h → zlen p < 2 ^ 64 → wf_header (stamp h p).
Proof.
  intros [] Hp. split; simpl; done || apply crc32c_range || lia.
Qed.

(** A header field of one byte. *)
Lemma byte_field l z k i :
  zlen l = i → is_u8 z → be_dec (slice (l ++ be_enc 1 z ++ k) i (i + 1)) = z.
Proof.
  intros Hi Hz. rewrite slice_app_skip by lia.
  rewrite (slice_enc_head 1) || (replace (i - zlen l) with 0 by lia; rewrite (slice_enc_head 1) by lia).
  by apply be_dec_enc_id.
Qed.

Lemma parseHeader_headerBytes h rest : wf_header h → parseHeader (headerBytes h ++ rest) = h.
Proof.
  intros [Hv Hk Hf He Hs He' Hl Hc]. unfold parseHeader, headerBytes.
  destruct h as [v k f e st en ln cr].
  simpl hVersion in *. simpl hKind in *. simpl hFlags in *. simpl hEpoch in *.
  simpl hStartTxID in *. simpl hEndTxID in *. simpl hLength in *. simpl hCRC in *.
  rewrite <-!app_assoc. f_equal; [by apply byte_field| |by rd_simp..].
  rewrite (app_assoc Magic). by apply byte_field.
Qed.

(** Every segment that [Encode] writes is accepted, whatever follows it in the buffer. *)
Lemma Decode_headerBytes h p rest :
  wf_header h → hVersion h = Version → hLength h = zlen p → hCRC h = crc32c p →
  Decode (headerBytes h ++ p ++ rest) = Ok (h, p).
Proof.
  intros Hh Hv Hl Hc. unfold Decode. pose proof (zlen_headerBytes h) as Hz.
  rewrite parseHeader_headerBytes by done. rewrite Hv, Hl, Hc.
  rewrite (slice_middle (headerBytes h) p rest HeaderSize) by lia.
  unfold HeaderSize in *. rewrite !bool_decide_eq_false_2; [done|tauto|len|tauto| |len].
  unfold headerBytes. rewrite <-!app_assoc, slice_app_take, slice_all; [tauto|done..].
Qed.

Lemma ltx_roundtrip h p rest :
  wf_header h → zlen p < 2 ^ 63 → Decode (Encode h p ++ rest) = Ok (stamp h p, p).
Proof.
  intros Hh Hp. unfold Encode. rewrite <-app_assoc.
  apply Decode_headerBytes; [apply stamp_wf; done || lia|done..].
Qed.

(** Reading back the 44 header bytes. *)
Lemma headerBytes_parseHeader b :
  HeaderSize ≤ zlen b → slice b 0 4 = Magic → headerBytes (parseHeader b) = slice b 0 HeaderSize.
Proof.
  unfold HeaderSize. intros Hb Hm. unfold headerBytes, parseHeader. cbn -[be_enc slice Magic].
  unfold rd16, rd32, rd64. rewrite <-Hm.
  rewrite !be_enc_dec by (apply Nat2Z.inj; rewrite length_slice; lia).
  rewrite <-!slice_split by lia. done.
Qed.

Lemma parseHeader_wf b : HeaderSize ≤ zlen b → wf_header (parseHeader b).
Proof.
  unfold HeaderSize. intros Hb. unfold parseHeader.
  assert (∀ i j, 0 ≤ i → i ≤ j → j ≤ zlen b → 0 ≤ be_dec (slice b i j) < 2 ^ (8 * (j - i))) as H.
  { intros i j ???. rewrite <-(length_slice b i j) by done. apply be_dec_range. }
  split; simpl; unfold rd16; first [apply rd32_range | apply rd64_range; lia | apply H; lia].
Qed.

Lemma ltx_sound b h p :
  Decode b = Ok (h, p) →
  ∃ rest, b = Encode h p ++ rest ∧ h = stamp h p ∧ wf_header h.
Proof.
  intros H. unfold Decode in H. inv_ok. simplify_eq. rewrite !bool_decide_eq_false in *.
  set (h := parseHeader b) in *.
  assert (wf_header h) as Hwf by (apply parseHeader_wf; lia).
  unfold HeaderSize in *. pose proof (wf_length _ Hwf) as Hl.
  change (rd64 b 32) with (hLength h) in *.
  set (p := slice b 44 (44 + hLength h)) in *.
  assert (zlen p = hLength h) as Hp by (unfold p; rewrite length_slice; lia).
  assert (h = stamp h p) as Hs.
  { unfold stamp. destruct h; simpl in *. f_equal; lia. }
  exists (drop (Z.to_nat (44 + hLength h)) b). split; [|done].
  unfold Encode. rewrite <-Hs, <-app_assoc.
  assert (headerBytes h = slice b 0 44) as ->.
  { apply headerBytes_parseHeader; [unfold HeaderSize; lia|by apply dec_stable]. }
  rewrite <-slice_drop by lia. unfold p. rewrite <-!slice_split by lia.
  by rewrite slice_all.
Qed.

(** ** Batches *)

Lemma splitTurn_dec s s' : splitTurn s = Continue s' → (length s'.1 < length s.1)%nat.
Proof.
  destruct s as [b out]. unfold splitTurn, HeaderSize. intros H.
  repeat case_decide; try discriminate H. case_match; [|discriminate H].
  apply (inj Continue) in H as <-. simpl. rewrite length_drop.
  pose proof (rd64_range b 32). lia.
Qed.

Lemma Split_loop_eq s :
  run splitTurn (λ s, length s.1) (Err ErrShort) s =
  match splitTurn s with
  | Continue s' => run splitTurn (λ s, length s.1) (Err ErrShort) s'
  | Return r => r
  end.
Proof. apply run_eq, splitTurn_dec. Qed.

Lemma splitTurn_Encode h p rest out :
  wf_header h → zlen p < 2 ^ 63 →
  splitTurn (Encode h p ++ rest, out) = Continue (rest, out ++ [Encode h p]).
Proof.
  intros Hh Hp. unfold splitTurn. pose proof (zlen_Encode h p) as Hl.
  pose proof (Decode_headerBytes (stamp h p) p [] (stamp_wf h p Hh ltac:(lia))
    eq_refl eq_refl eq_refl) as Hd. rewrite app_nil_r in Hd.
  assert (rd64 (Encode h p ++ rest) 32 = zlen p) as Hr.
  { change (rd64 ?b 32) with (hLength (parseHeader b)). unfold Encode. rewrite <-app_assoc.
    by rewrite parseHeader_headerBytes by (apply stamp_wf; done || lia). }
  assert (slice (Encode h p ++ rest) 0 4 = Magic) as Hm.
  { unfold Encode, headerBytes. rewrite <-!app_assoc, slice_app_take, slice_all; done. }
  unfold HeaderSize in *. rewrite Hr, Hm.
  rewrite !decide_False by (rewrite ?length_app; lia || tauto).
  rewrite slice_app_take, slice_all by lia. fold (Encode h p) in Hd. rewrite Hd.
  by rewrite drop_app_length' by lia.
Qed.

Definition encodeSeg (s : Header * bytes) : bytes := Encode s.1 s.2.

(** The segments that the encoder can write. *)
Definition wf_seg (s : Header * bytes) : Prop := wf_header s.1 ∧ zlen s.2 < 2 ^ 63.

Lemma split_roundtrip segs :
  Forall wf_seg segs → Split (concat (encodeSeg <$> segs)) = Ok (encodeSeg <$> segs).
Proof.
  intros Hwf. unfold Split.
  enough (∀ out, run splitTurn (λ s, length s.1) (Err ErrShort)
                     (concat (encodeSeg <$> segs), out) = Ok (out ++ (encodeSeg <$> segs))) as H.
  { apply H. }
  induction Hwf as [|[h p] segs [Hh Hp] Hsegs IH]; intros out.
  - rewrite Split_loop_eq. simpl. by rewrite app_nil_r.
  - rewrite fmap_cons. cbn [concat]. change (encodeSeg (h, p)) with (Encode h p).
    rewrite Split_loop_eq, splitTurn_Encode, IH by done. by rewrite <-app_assoc.
Qed.

Lemma Decode_exact b h p : Decode b = Ok (h, p) → zlen b = HeaderSize + hLength h → b = Encode h p.
Proof.
  intros Hd Hl. destruct (ltx_sound b h p Hd) as (rest & -> & Hs & _).
  assert (hLength h = zlen p) by (by rewrite Hs). pose proof (zlen_Encode h p).
  rewrite length_app in Hl. destruct rest; [apply app_nil_r|len].
Qed.

Lemma Decode_header b h p : Decode b = Ok (h, p) → h = parseHeader b.
Proof. intros H. unfold Decode in H. inv_ok. by simplify_eq. Qed.

Lemma split_sound b segs :
  Split b = Ok segs →
  concat segs = b ∧ Forall (λ s, ∃ h p, wf_header h ∧ s = Encode h p ∧ Decode s = Ok (h, p)) segs.
Proof.
  unfold Split.
  apply (run_ind _ _ _ splitTurn_dec
    (λ s, concat s.2 ++ s.1 = b ∧
      Forall (λ s, ∃ h p, wf_header h ∧ s = Encode h p ∧ Decode s = Ok (h, p)) s.2)
    (λ r, r = Ok segs → concat segs = b ∧ Forall _ segs)).
  - intros [r out] s' [Hc Hf] H. unfold splitTurn in H. unfold HeaderSize in *.
    repeat case_decide; try discriminate H. case_match eqn:Hd; [|discriminate H].
    apply (inj Continue) in H as <-. simpl in *. destruct a as [h p].
    pose proof (rd64_range r 32 ltac:(lia) ltac:(lia)).
    split.
    + rewrite concat_app. simpl. rewrite app_nil_r, <-app_assoc, <-slice_drop by lia.
      by rewrite <-slice_split, slice_all by lia.
    + apply Forall_app_2; [done|]. apply Forall_singleton. exists h, p.
      pose proof (Decode_header _ _ _ Hd) as Hh.
      destruct (ltx_sound _ _ _ Hd) as (_ & _ & _ & Hwf).
      split; [done|]. split; [|done]. apply Decode_exact; [done|].
      rewrite length_slice by lia. subst h. unfold HeaderSize. simpl.
      enough (rd64 (slice r 0 (44 + rd64 r 32)) 32 = rd64 r 32) by lia.
      unfold rd64 at 1. rewrite slice_prefix by lia. done.
  - intros [r out] rr [Hc Hf] H ->. unfold splitTurn in H.
    repeat (case_decide || case_match); try discriminate H.
    apply (inj Return) in H. simplify_eq. simpl in *. destruct r; [|simpl in *; lia].
    by rewrite app_nil_r.
  - done.
Qed.

(** ** Snapshot parts *)

Definition setFlags (h : Header) (f : Z) : Header :=
  MkHeader (hVersion h) (hKind h) f (hEpoch h) (hStartTxID h) (hEndTxID h) (hLength h) (hCRC h).

Lemma SnapshotFlags_eq part : 0 ≤ part < 2 ^ 15 → SnapshotFlags part = 2 ^ 15 + part.
Proof.
  intros Hp. unfold SnapshotFlags. rewrite decide_False by lia. unfold u16.
  rewrite Z.mod_small by lia. change snapshotPartMask with (Z.ones 15).
  rewrite Z.land_ones, Z.mod_small by lia.
  change flagSnapshotPaged with (1 * 2 ^ 15). rewrite lor_fields by lia. lia.
Qed.

Lemma snapshot_flags h part :
  hKind h = KindSnapshot → 0 ≤ part < 2 ^ 15 →
  SnapshotPart (setFlags h (SnapshotFlags part)) = Some part ∧ is_u16 (SnapshotFlags part).
Proof.
  intros Hk Hp. rewrite SnapshotFlags_eq by done. split; [|lia].
  destruct (bit_set part 15) as (_ & Hbit & _); [lia..|]. rewrite Z.add_comm in Hbit.
  unfold SnapshotPart. simpl hKind. simpl hFlags.
  change flagSnapshotPaged with (2 ^ 15). rewrite Hbit, decide_False by (rewrite Hk; tauto || lia).
  change snapshotPartMask with (Z.ones 15). rewrite Z.land_ones by lia.
  rewrite Z.add_comm, <-(Z.mul_1_l (2 ^ 15)), Z.mod_add, Z.mod_small by lia. done.
Qed.

(** ** Object keys do not collide *)

(** What the key suffix of a segment stands for. *)
Inductive segmentKey : Type :=
| KeySnapshotPart (endTx part : Z)
| KeySnapshot (endTx : Z)
| KeyLink (startTx : Z)
| KeyMarker (startTx : Z)
| KeyRange (startTx endTx : Z).

Definition keyOf (h : Header) : segmentKey :=
  if decide (hKind h = KindSnapshot) then
    match SnapshotPart h with
    | Some part => KeySnapshotPart (hEndTxID h) part
    | None => KeySnapshot (hEndTxID h)
    end
  else if decide (hKind h = KindLink) then KeyLink (hStartTxID h)
  else if decide (hKind h = KindMarker) then KeyMarker (hStartTxID h)
  else KeyRange (hStartTxID h) (hEndTxID h).

Definition keyName (k : segmentKey) : string :=
  match k with
  | KeySnapshotPart e p => fmt_d e +:+ ".p" +:+ fmt_d p +:+ ".snapshot"
  | KeySnapshot e => fmt_d e +:+ ".snapshot"
  | KeyLink s => fmt_d s +:+ ".link"
  | KeyMarker s => fmt_d s +:+ ".marker"
  | KeyRange s e => fmt_d s +:+ "-" +:+ fmt_d e +:+ ".ltx"
  end.

Definition wf_key (k : segmentKey) : Prop :=
  match k with
  | KeySnapshotPart a b | KeyRange a b => 0 ≤ a ∧ 0 ≤ b
  | KeySnapshot a | KeyLink a | KeyMarker a => 0 ≤ a
  end.

Lemma SegmentName_key h : SegmentName h = keyName (keyOf h).
Proof. unfold SegmentName, keyOf. repeat case_decide; try done. by destruct (SnapshotPart h). Qed.

Lemma keyOf_wf h : wf_header h → wf_key (keyOf h).
Proof.
  intros [_ _ [Hf _] _ [Hs _] [He _] _ _]. unfold keyOf, SnapshotPart.
  repeat (case_decide || case_match); simpl; simplify_eq; try lia.
  split; [lia|]. apply Z.land_nonneg. lia.
Qed.

Lemma keyName_inj k1 k2 : wf_key k1 → wf_key k2 → keyName k1 = keyName k2 → k1 = k2.
Proof.
  destruct k1, k2; simpl; intros H1 H2 Heq; destruct_and?;
    apply digits_app_inj in Heq as (->%(inj fmt_d) & Hc & Heq);
    try apply fmt_d_digits; try done; simplify_eq; try done.
  all: apply digits_app_inj in Heq as (->%(inj fmt_d) & _ & _); try apply fmt_d_digits; done.
Qed.

Lemma segment_name_inj h1 h2 :
  wf_header h1 → wf_header h2 → SegmentName h1 = SegmentName h2 ↔ keyOf h1 = keyOf h2.
Proof.
  intros H1 H2. rewrite !SegmentName_key. split; [|congruence].
  apply keyName_inj; by apply keyOf_wf.
Qed.

(** ** Properties *)

(** [Decode] of an encoded segment, whatever bytes follow it, returns the
    payload and the header with the version, length and checksum that [Encode]
    stamped. *)
Theorem Decode_Encode h p rest :
  wf_header h → zlen p < 2 ^ 63 → Decode (Encode h p ++ rest) = Ok (stamp h p, p).
Proof. apply ltx_roundtrip. Qed.

Definition witnessHeader : Header := MkHeader 1 KindDelta 0 7 (2 ^ 64 - 2) (2 ^ 64 - 1) 0 0.

Lemma witnessHeader_wf : wf_header witnessHeader.
Proof. split; vm_compute; intuition discriminate. Qed.

Lemma Decode_Encode_witness :
  Decode (Encode witnessHeader (bs "page") ++ bs "tail")
  = Ok (stamp witnessHeader (bs "page"), bs "page").
Proof. apply Decode_Encode; [apply witnessHeader_wf|vm_compute; reflexivity]. Defined.

(** The decoder accepts nothing else. If [Decode] succeeds the buffer starts
    with the encoding of what it returned, whose length and checksum fields
    are those of the payload. *)
Theorem Decode_sound b h p :
  Decode b = Ok (h, p) → ∃ rest, b = Encode h p ++ rest ∧ h = stamp h p ∧ wf_header h.
Proof. apply ltx_sound. Qed.

Lemma Decode_sound_witness :
  ∃ rest, Encode witnessHeader (bs "x") ++ bs "y" = Encode (stamp witnessHeader (bs "x")) (bs "x") ++ rest
    ∧ stamp witnessHeader (bs "x") = stamp (stamp witnessHeader (bs "x")) (bs "x")
    ∧ wf_header (stamp witnessHeader (bs "x")).
Proof. apply Decode_sound. vm_compute. reflexivity. Defined.

(** [Split] of a group-commit object, the concatenation of the segments of a
    batch, returns those segments in order. *)
Theorem Split_concat segs :
  Forall wf_seg segs → Split (concat (encodeSeg <$> segs)) = Ok (encodeSeg <$> segs).
Proof. apply split_roundtrip. Qed.

Lemma Split_concat_witness :
  let segs := [(witnessHeader, bs "one"); (witnessHeader, []); (witnessHeader, bs "three")] in
  Split (concat (encodeSeg <$> segs)) = Ok (encodeSeg <$> segs).
Proof.
  apply (Split_concat [_; _; _]).
  repeat (constructor; [split; [apply witnessHeader_wf|vm_compute; reflexivity]|]). constructor.
Defined.

(** If [Split] succeeds, the pieces concatenate to the object and every one
    of them is exactly one valid segment. *)
Theorem Split_sound b segs :
  Split b = Ok segs →
  concat segs = b ∧ Forall (λ s, ∃ h p, wf_header h ∧ s = Encode h p ∧ Decode s = Ok (h, p)) segs.
Proof. apply split_sound. Qed.

Lemma Split_sound_witness :
  let seg := Encode witnessHeader (bs "one") in
  concat [seg; seg] = seg ++ seg
  ∧ Forall (λ s, ∃ h p, wf_header h ∧ s = Encode h p ∧ Decode s = Ok (h, p)) [seg; seg].
Proof. apply Split_sound. vm_compute. reflexivity. Defined.

(** Two segments share an object name exactly when they have the same kind,
    the same transaction identifiers that the name shows and the same snapshot
    part: names of distinct segments never collide. *)
Theorem SegmentName_inj h1 h2 :
  wf_header h1 → wf_header h2 → SegmentName h1 = SegmentName h2 ↔ keyOf h1 = keyOf h2.
Proof. apply segment_name_inj. Qed.

Lemma SegmentName_inj_witness :
  SegmentName witnessHeader = SegmentName (stamp witnessHeader (bs "x"))
  ↔ keyOf witnessHeader = keyOf (stamp witnessHeader (bs "x")).
Proof.
  apply SegmentName_inj; [apply witnessHeader_wf|].
  apply stamp_wf; [apply witnessHeader_wf|vm_compute; reflexivity].
Defined.
