(* ===== verification/WalPayload.v ===== *)
(** * WAL1 transaction payloads ([internal/ltx/wal_payload.go]) *)

From S2P Require Import Prelude.

Record WALFrame := MkWALFrame {
  fPageNo : Z;
  fDBSize : Z;
  fData : bytes;
}.

Record WALTransaction := MkWALTransaction { Frames : list WALFrame }.

Inductive error : Set :=
| ErrZeroPageSize
| ErrEmptyTxList
| ErrNoFrames (ti : Z)
| ErrNoCommitFrame (ti : Z)
| ErrFrameLength (ti fi : Z)
| ErrBadHeader
| ErrBadDimensions
| ErrTruncatedTx (ti : Z)
| ErrFrameCount (ti : Z)
| ErrTruncatedFrame (ti fi : Z)
| ErrTrailing.

Definition walPayloadMagic : bytes := bs "WAL1".

(** [tx.Frames[len(tx.Frames)-1].DBSize]. *)
Definition lastDBSize (frames : list WALFrame) : Z :=
  default 0 (fDBSize <$> last frames).

(** ** Encoding *)

Fixpoint checkFrames (pageSize ti fi : Z) (frames : list WALFrame) : result error unit :=
  match frames with
  | [] => Ok tt
  | frame :: frames =>
      reject (bool_decide (zlen (fData frame) ≠ pageSize)) (ErrFrameLength ti fi) ;;ᵣ
      checkFrames pageSize ti (fi + 1) frames
  end.

Fixpoint checkTransactions (pageSize ti : Z) (txs : list WALTransaction) : result error unit :=
  match txs with
  | [] => Ok tt
  | tx :: txs =>
      reject (bool_decide (zlen (Frames tx) = 0)) (ErrNoFrames ti) ;;ᵣ
      reject (bool_decide (lastDBSize (Frames tx) = 0)) (ErrNoCommitFrame ti) ;;ᵣ
      checkFrames pageSize ti 0 (Frames tx) ;;ᵣ
      checkTransactions pageSize (ti + 1) txs
  end.

Definition putFrame (frame : WALFrame) : bytes :=
  be_enc 4 (fPageNo frame) ++ be_enc 4 (fDBSize frame) ++ fData frame.

Definition putTransaction (tx : WALTransaction) : bytes :=
  be_enc 4 (zlen (Frames tx)) ++ concat (putFrame <$> Frames tx).

Definition EncodeWALPayload (pageSize : Z) (txs : list WALTransaction) : result error bytes :=
  reject (bool_decide (pageSize = 0)) ErrZeroPageSize ;;ᵣ
  reject (bool_decide (zlen txs = 0)) ErrEmptyTxList ;;ᵣ
  checkTransactions pageSize 0 txs ;;ᵣ
  Ok (walPayloadMagic ++ be_enc 4 pageSize ++ be_enc 4 (zlen txs)
        ++ concat (putTransaction <$> txs)).

(** ** Decoding *)

(** The cursor [off] is represented by the unread bytes [payload[off:]]. *)
Fixpoint decodeFrames (pageSize ti fi : Z) (n : nat) (rest : bytes)
    : result error (list WALFrame * bytes) :=
  match n with
  | O => Ok ([], rest)
  | S n =>
      let need := 8 + pageSize in
      reject (bool_decide (zlen rest < need)) (ErrTruncatedFrame ti fi) ;;ᵣ
      let frame := MkWALFrame (rd32 rest 0) (rd32 rest 4) (slice rest 8 need) in
      '(frames, rest) ←ᵣ decodeFrames pageSize ti (fi + 1) n (drop (Z.to_nat need) rest);
      Ok (frame :: frames, rest)
  end.

Definition decodeTransaction (pageSize ti : Z) (rest : bytes)
    : result error (WALTransaction * bytes) :=
  reject (bool_decide (zlen rest < 4)) (ErrTruncatedTx ti) ;;ᵣ
  let frameCount := rd32 rest 0 in
  let rest := drop 4 rest in
  reject (bool_decide (frameCount = 0 ∨ zlen rest / (8 + pageSize) < frameCount))
         (ErrFrameCount ti) ;;ᵣ
  '(frames, rest) ←ᵣ decodeFrames pageSize ti 0 (Z.to_nat frameCount) rest;
  reject (bool_decide (lastDBSize frames = 0)) (ErrNoCommitFrame ti) ;;ᵣ
  Ok (MkWALTransaction frames, rest).

(** The transaction loop: the next index, the unread bytes, the transactions so far. *)
Definition decodeTxTurn (pageSize txCount : Z) (s : Z * bytes * list WALTransaction)
    : turn (Z * bytes * list WALTransaction) (result error (list WALTransaction)) :=
  let '(ti, rest, txs) := s in
  if decide (ti < txCount) then
    match decodeTransaction pageSize ti rest with
    | Err e => Return (Err e)
    | Ok (tx, rest) => Continue (ti + 1, rest, txs ++ [tx])
    end
  else if decide (zlen rest ≠ 0) then Return (Err ErrTrailing)
  else Return (Ok txs).

Definition DecodeWALPayload (payload : bytes) : result error (Z * list WALTransaction) :=
  reject (bool_decide (zlen payload < 12 ∨ slice payload 0 4 ≠ walPayloadMagic)) ErrBadHeader ;;ᵣ
  let pageSize := rd32 payload 4 in
  let txCount := rd32 payload 8 in
  reject (bool_decide (pageSize = 0 ∨ txCount = 0)) ErrBadDimensions ;;ᵣ
  txs ←ᵣ run (decodeTxTurn pageSize txCount) (λ s, length s.1.2) (Err ErrTrailing)
             (0, drop 12 payload, []);
  Ok (pageSize, txs).

#[global] Arguments putFrame : simpl never.
#[global] Arguments putTransaction : simpl never.
#[global] Arguments decodeTransaction : simpl never.

(** ** The transaction loop terminates *)

Lemma decodeFrames_shorter ps ti fi n rest frames rest' :
  decodeFrames ps ti fi n rest = Ok (frames, rest') → (length rest' ≤ length rest)%nat.
Proof.
  revert fi rest frames. induction n as [|n IH]; intros fi rest frames H; simpl in H.
  - by simplify_eq.
  - inv_ok. destruct a as [fs r]. simplify_eq. apply IH in Ha. len.
Qed.

Lemma decodeTransaction_shorter ps ti rest tx rest' :
  decodeTransaction ps ti rest = Ok (tx, rest') → (length rest' < length rest)%nat.
Proof.
  unfold decodeTransaction. intros H. inv_ok. destruct a as [fs r].
  apply decodeFrames_shorter in Ha. rewrite bool_decide_eq_false in *.
  inv_ok. simplify_eq. len.
Qed.

Lemma decodeTxTurn_dec ps tc s s' :
  decodeTxTurn ps tc s = Continue s' → (length s'.1.2 < length s.1.2)%nat.
Proof.
  destruct s as [[ti rest] txs]. unfold decodeTxTurn. intros H.
  repeat case_decide; try discriminate H. case_match eqn:Hd; [|discriminate H].
  case_match. apply (inj Continue) in H as <-. simpl.
  by eapply decodeTransaction_shorter.
Qed.

(** ** Round trip *)

(** The values that a Go [WALFrame] and the count fields can hold. *)
Definition wf_frame (f : WALFrame) : Prop := is_u32 (fPageNo f) ∧ is_u32 (fDBSize f).
Definition wf_tx (tx : WALTransaction) : Prop :=
  Forall wf_frame (Frames tx) ∧ zlen (Frames tx) < 2 ^ 32.

Lemma checkFrames_Ok ps ti fi frames u :
  checkFrames ps ti fi frames = Ok u → Forall (λ f, zlen (fData f) = ps) frames.
Proof.
  revert fi. induction frames as [|f frames IH]; intros fi H; simpl in H; [done|].
  inv_ok. rewrite bool_decide_eq_false in *. constructor; [lia|eauto].
Qed.

(** What the validation pass of the encoder establishes of each transaction. *)
Definition encodable (ps : Z) (tx : WALTransaction) : Prop :=
  zlen (Frames tx) ≠ 0 ∧ lastDBSize (Frames tx) ≠ 0 ∧
  Forall (λ f, zlen (fData f) = ps) (Frames tx).

Lemma checkTransactions_Ok ps ti txs u :
  checkTransactions ps ti txs = Ok u → Forall (encodable ps) txs.
Proof.
  revert ti. induction txs as [|tx txs IH]; intros ti H; simpl in H; [done|].
  inv_ok. rewrite !bool_decide_eq_false in *.
  constructor; [|eauto]. split_and!; eauto using checkFrames_Ok.
Qed.

Lemma zlen_putFrame f : zlen (putFrame f) = 8 + zlen (fData f).
Proof. unfold putFrame. len. Qed.

Lemma zlen_putFrames ps frames :
  Forall (λ f, zlen (fData f) = ps) frames →
  zlen (concat (putFrame <$> frames)) = zlen frames * (8 + ps).
Proof.
  induction 1 as [|f frames Hf Hfs IH]; [done|].
  rewrite fmap_cons. cbn [concat]. rewrite length_app, length_cons.
  pose proof (zlen_putFrame f). lia.
Qed.

Lemma decodeFrames_put ps ti fi frames rest :
  0 ≤ ps → Forall wf_frame frames → Forall (λ f, zlen (fData f) = ps) frames →
  decodeFrames ps ti fi (length frames) (concat (putFrame <$> frames) ++ rest) = Ok (frames, rest).
Proof.
  intros Hps Hwf Hlen. revert fi. induction Hlen as [|f frames Hf Hlen IH]; intros fi; [done|].
  apply Forall_cons in Hwf as [[Hp Hd] Hwf].
  rewrite fmap_cons. cbn [length concat decodeFrames]. rewrite <-app_assoc.
  set (tl := concat (putFrame <$> frames) ++ rest) in *.
  pose proof (zlen_putFrame f) as Hz.
  rewrite bool_decide_eq_false_2 by len. cbn [reject rbind].
  rewrite drop_app_length' by lia. rewrite IH by done. cbn [rbind].
  unfold putFrame. rewrite <-!app_assoc. rd_simp.
  rewrite (app_assoc (be_enc 4 _) (be_enc 4 _)), slice_middle by len.
  by destruct f.
Qed.

Lemma decodeTransaction_put ps ti tx rest :
  0 < ps → wf_tx tx → encodable ps tx →
  decodeTransaction ps ti (putTransaction tx ++ rest) = Ok (tx, rest).
Proof.
  intros Hps [Hwf Hn] (Hne & Hlast & Hlen). unfold decodeTransaction, putTransaction.
  rewrite <-app_assoc. rewrite bool_decide_eq_false_2 by len. cbn [reject rbind].
  rewrite rd32_enc by lia. rewrite (drop_app_length' (be_enc 4 _)) by len.
  pose proof (zlen_putFrames ps (Frames tx) Hlen) as Hz.
  rewrite bool_decide_eq_false_2.
  2: { intros [?|Hdiv]; [lia|]. apply Z.div_lt_upper_bound in Hdiv || idtac.
       rewrite length_app, Nat2Z.inj_add, Hz in Hdiv.
       rewrite Z.add_comm, Z.div_add in Hdiv by lia.
       assert (0 ≤ zlen rest / (8 + ps)) by (apply Z.div_pos; lia). lia. }
  cbn [reject rbind]. rewrite Nat2Z.id, decodeFrames_put by (done || lia). cbn [rbind].
  rewrite bool_decide_eq_false_2 by done. by destruct tx.
Qed.

Lemma decodeTxs_put ps txs out ti :
  0 < ps → Forall wf_tx txs → Forall (encodable ps) txs →
  run (decodeTxTurn ps (ti + zlen txs)) (λ s, length s.1.2) (Err ErrTrailing)
    (ti, concat (putTransaction <$> txs), out) = Ok (out ++ txs).
Proof.
  intros Hps Hwf Henc. revert ti out. induction Henc as [|tx txs Htx Henc IH]; intros ti out.
  - rewrite run_eq by apply decodeTxTurn_dec. unfold decodeTxTurn at 1.
    rewrite decide_False by (simpl; lia). by rewrite app_nil_r.
  - apply Forall_cons in Hwf as [Hx Hwf].
    rewrite run_eq by apply decodeTxTurn_dec. unfold decodeTxTurn at 1.
    rewrite decide_True by len. rewrite fmap_cons. cbn [concat].
    rewrite decodeTransaction_put by done.
    replace (ti + zlen (tx :: txs)) with (ti + 1 + zlen txs) by len.
    rewrite IH by done. by rewrite <-app_assoc.
Qed.

Lemma payload_roundtrip ps txs buf :
  is_u32 ps → zlen txs < 2 ^ 32 → Forall wf_tx txs →
  EncodeWALPayload ps txs = Ok buf → DecodeWALPayload buf = Ok (ps, txs).
Proof.
  intros Hps Hn Hwf H. unfold EncodeWALPayload in H. inv_ok.
  rewrite !bool_decide_eq_false in *. apply checkTransactions_Ok in Ha. subst buf.
  unfold DecodeWALPayload.
  rewrite bool_decide_eq_false_2.
  2: { change (zlen walPayloadMagic) with 4 in *.
       rewrite slice_app_take, slice_all by done. intros [?|?]; [|done]. len. }
  cbn [reject rbind]. rd_simp. rewrite bool_decide_eq_false_2 by lia. cbn [reject rbind].
  rewrite (app_assoc (be_enc 4 _)), (app_assoc walPayloadMagic).
  rewrite drop_app_length' by len.
  rewrite <-(Z.add_0_l (zlen txs)), decodeTxs_put by (done || lia). done.
Qed.

(** ** Properties *)

(** [DecodeWALPayload] inverts [EncodeWALPayload]: every transaction list
    that the encoder accepts comes back frame by frame, with its page size. *)
Theorem DecodeWALPayload_Encode ps txs buf :
  is_u32 ps → zlen txs < 2 ^ 32 → Forall wf_tx txs →
  EncodeWALPayload ps txs = Ok buf → DecodeWALPayload buf = Ok (ps, txs).
Proof. apply payload_roundtrip. Qed.

Definition witnessTxs : list WALTransaction :=
  [MkWALTransaction [MkWALFrame 1 0 (bs "ab"); MkWALFrame 2 2 (bs "cd")];
   MkWALTransaction [MkWALFrame 1 2 (bs "ef")]].

Lemma DecodeWALPayload_Encode_witness :
  rbind (EncodeWALPayload 2 witnessTxs) DecodeWALPayload = Ok (2, witnessTxs).
Proof.
  destruct (EncodeWALPayload 2 witnessTxs) as [buf|] eqn:E; [|vm_compute in E; discriminate E].
  apply (DecodeWALPayload_Encode 2 witnessTxs buf); [lia|vm_compute; reflexivity| |done].
  repeat constructor; vm_compute; intuition discriminate.
Defined.
