(* ===== verification/PageMap.v ===== *)
(** * Page-map payloads ([internal/ltx/wal_pagemap.go]) *)

From S2P Require Import Prelude Lz4 WalPayload.

Definition walPageMapMagic : bytes := bs "WAL2".
Definition walPageMapV2Magic : bytes := bs "WAL3".

Definition PageMapHeaderSize : Z := 20.
Definition pageMapV2HeaderSize : Z := 24.
Definition pageMapV2IndexStride : Z := 12.

Definition CodecRaw : Z := 0.
Definition CodecLZ4 : Z := 1.
Definition CodecBit : Z := 2 ^ 31.

Record PageLoc := MkPageLoc {
  Pgno : Z;
  Off : Z;
  Stored : Z;
  Size : Z;
  Codec : Z;
}.

Definition PageEntryOffset (pageSize pos : Z) : Z := PageMapHeaderSize + pos * (4 + pageSize).

Record WALPage := MkWALPage {
  PageNo : Z;
  Data : bytes;
}.

#[global] Instance WALPage_eq_dec : EqDecision WALPage.
Proof. solve_decision. Defined.

Inductive error : Set :=
| ErrZeroPageSize
| ErrEmptyTxList
| ErrNoFrames (ti : Z)
| ErrNoCommitFrame (ti : Z)
| ErrFrameLength (ti : Z)
| ErrTxCount
| ErrPageLength (pgno : Z)
| ErrNotAscending
| ErrDimensions
| ErrLength
| ErrTooManyPages
| ErrTruncatedIndex
| ErrHeader
| ErrTruncatedEntry
| ErrFrame (i : Z)
| ErrRawSize (i : Z)
| ErrFrameBounds (i : Z)
| ErrOutOfBounds
| ErrRawLength
| ErrLz4 (e : Lz4.error)
| ErrUnknownCodec (c : Z).

(** ** Collapsing transactions to their final pages *)

(** The frame loop of [PageMapFromTransactions]: Go keeps the position of each page
    number in [index] and overwrites the page in place. *)
Fixpoint collapseFrames (pageSize ti : Z) (frames : list WALFrame)
    (s : gmap Z nat * list WALPage * Z) : result error (gmap Z nat * list WALPage * Z) :=
  match frames with
  | [] => Ok s
  | frame :: frames =>
      let '(index, pages, commit) := s in
      reject (bool_decide (zlen (fData frame) ≠ pageSize)) (ErrFrameLength ti) ;;ᵣ
      let '(index, pages) :=
        match index !! fPageNo frame with
        | Some pos => (index, alter (λ p, MkWALPage (PageNo p) (fData frame)) pos pages)
        | None => (<[fPageNo frame := length pages]> index,
                   pages ++ [MkWALPage (fPageNo frame) (fData frame)])
        end in
      let commit := if decide (fDBSize frame ≠ 0) then fDBSize frame else commit in
      collapseFrames pageSize ti frames (index, pages, commit)
  end.

Fixpoint collapseTxs (pageSize ti : Z) (txs : list WALTransaction)
    (s : gmap Z nat * list WALPage * Z) : result error (gmap Z nat * list WALPage * Z) :=
  match txs with
  | [] => Ok s
  | tx :: txs =>
      reject (bool_decide (zlen (Frames tx) = 0)) (ErrNoFrames ti) ;;ᵣ
      reject (bool_decide (lastDBSize (Frames tx) = 0)) (ErrNoCommitFrame ti) ;;ᵣ
      s ←ᵣ collapseFrames pageSize ti (Frames tx) s;
      collapseTxs pageSize (ti + 1) txs s
  end.

(** [sort.Slice(pages, PageNo <)]; the page numbers are distinct. *)
Definition page_le (p q : WALPage) : Prop := PageNo p ≤ PageNo q.
#[global] Instance page_le_dec : RelDecision page_le.
Proof. intros p q. unfold page_le. apply _. Defined.

Definition PageMapFromTransactions (pageSize : Z) (txs : list WALTransaction)
    : result error (Z * list WALPage) :=
  reject (bool_decide (pageSize = 0)) ErrZeroPageSize ;;ᵣ
  reject (bool_decide (zlen txs = 0)) ErrEmptyTxList ;;ᵣ
  '(_, pages, commit) ←ᵣ collapseTxs pageSize 0 txs (∅, [], 0);
  Ok (commit, merge_sort page_le pages).

(** ** Encoding *)

(** The per-page guards shared by the two encoders; [prev] is the page before. *)
Definition checkPage (pageSize : Z) (prev : option Z) (page : WALPage) : result error unit :=
  reject (bool_decide (zlen (Data page) ≠ pageSize)) (ErrPageLength (PageNo page)) ;;ᵣ
  match prev with
  | Some seen => reject (bool_decide (PageNo page ≤ seen)) ErrNotAscending
  | None => Ok tt
  end.

(** A page's frame: LZ4 when that is smaller. *)
Definition pageFrame (data : bytes) : bytes * Z :=
  let enc := EncodeBlock data in
  if decide (zlen enc < zlen data) then (enc, CodecLZ4) else (data, CodecRaw).

Fixpoint encodePages (pageSize indexEnd : Z) (prev : option Z) (pages : list WALPage)
    (frames : bytes) : result error (list PageLoc * bytes) :=
  match pages with
  | [] => Ok ([], frames)
  | page :: pages =>
      checkPage pageSize prev page ;;ᵣ
      let '(frame, codec) := pageFrame (Data page) in
      let loc := MkPageLoc (PageNo page) (indexEnd + zlen frames) (zlen frame) pageSize codec in
      '(locs, frames) ←ᵣ encodePages pageSize indexEnd (Some (PageNo page)) pages (frames ++ frame);
      Ok (loc :: locs, frames)
  end.

Definition putLoc (l : PageLoc) : bytes :=
  let stored := u32 (Stored l) in
  let stored := if decide (Codec l = CodecLZ4) then Z.lor stored CodecBit else stored in
  be_enc 4 (Pgno l) ++ be_enc 4 (Off l) ++ be_enc 4 stored.

Fixpoint encodePagesV1 (pageSize : Z) (prev : option Z) (pages : list WALPage)
    : result error bytes :=
  match pages with
  | [] => Ok []
  | page :: pages =>
      checkPage pageSize prev page ;;ᵣ
      rest ←ᵣ encodePagesV1 pageSize (Some (PageNo page)) pages;
      Ok (be_enc 4 (PageNo page) ++ Data page ++ rest)
  end.

Definition encodeWALPageMapV1 (pageSize commit txCount : Z) (pages : list WALPage)
    : result error bytes :=
  reject (bool_decide (pageSize = 0)) ErrZeroPageSize ;;ᵣ
  reject (bool_decide (txCount ≤ 0)) ErrTxCount ;;ᵣ
  body ←ᵣ encodePagesV1 pageSize None pages;
  Ok (walPageMapMagic ++ be_enc 4 pageSize ++ be_enc 4 commit ++ be_enc 4 txCount
        ++ be_enc 4 (zlen pages) ++ body).

(** [compression] is the process-wide [CompressionEnabled] switch. *)
Definition EncodeWALPageMap (compression : bool) (pageSize commit txCount : Z)
    (pages : list WALPage) : result error bytes :=
  if negb compression then encodeWALPageMapV1 pageSize commit txCount pages else
  reject (bool_decide (pageSize = 0)) ErrZeroPageSize ;;ᵣ
  reject (bool_decide (txCount ≤ 0)) ErrTxCount ;;ᵣ
  let indexEnd := pageMapV2HeaderSize + zlen pages * pageMapV2IndexStride in
  '(locs, frames) ←ᵣ encodePages pageSize indexEnd None pages [];
  Ok (walPageMapV2Magic ++ be_enc 4 pageSize ++ be_enc 4 commit ++ be_enc 4 txCount
        ++ be_enc 4 (zlen pages) ++ be_enc 4 0 ++ concat (putLoc <$> locs) ++ frames).

(** ** Decoding *)

Record pageMapDesc := MkDesc {
  pageSize : Z;
  commit : Z;
  txCount : Z;
  pageCount : Z;
  v2 : bool;
}.

Definition readDesc (payload : bytes) (v2 : bool) : pageMapDesc :=
  MkDesc (rd32 payload 4) (rd32 payload 8) (rd32 payload 12) (rd32 payload 16) v2.

Definition describePageMap (payload : bytes) : result error pageMapDesc :=
  if decide (20 ≤ zlen payload ∧ slice payload 0 4 = walPageMapMagic) then
    let d := readDesc payload false in
    reject (bool_decide (pageSize d = 0 ∨ txCount d ≤ 0 ∨ pageCount d < 0)) ErrDimensions ;;ᵣ
    let need := i64 (20 + i64 (pageCount d * (4 + pageSize d))) in
    reject (bool_decide (need ≠ zlen payload)) ErrLength ;;ᵣ
    Ok d
  else if decide (pageMapV2HeaderSize ≤ zlen payload ∧ slice payload 0 4 = walPageMapV2Magic) then
    let d := readDesc payload true in
    reject (bool_decide (pageSize d = 0 ∨ txCount d ≤ 0 ∨ pageCount d < 0)) ErrDimensions ;;ᵣ
    reject (bool_decide (2 ^ 31 / pageMapV2IndexStride < pageCount d)) ErrTooManyPages ;;ᵣ
    reject (bool_decide (zlen payload < pageMapV2HeaderSize + pageCount d * pageMapV2IndexStride))
           ErrTruncatedIndex ;;ᵣ
    Ok d
  else Err ErrHeader.

(** [i > 0 && pgno <= prev]. *)
Definition checkAscending (prev : option Z) (pgno : Z) : result error unit :=
  match prev with
  | Some p => reject (bool_decide (pgno ≤ p)) ErrNotAscending
  | None => Ok tt
  end.

Fixpoint pageLocsV1 (payload : bytes) (pageSize off : Z) (prev : option Z) (n : nat)
    : result error (list PageLoc) :=
  match n with
  | O => Ok []
  | S n =>
      reject (bool_decide (zlen payload < off + 4 + pageSize)) ErrTruncatedEntry ;;ᵣ
      let pgno := rd32 payload off in
      checkAscending prev pgno ;;ᵣ
      locs ←ᵣ pageLocsV1 payload pageSize (off + (4 + pageSize)) (Some pgno) n;
      Ok (MkPageLoc pgno (off + 4) pageSize pageSize CodecRaw :: locs)
  end.

Fixpoint pageLocsV2 (payload : bytes) (pageSize indexEnd i : Z) (prev : option Z) (n : nat)
    : result error (list PageLoc) :=
  match n with
  | O => Ok []
  | S n =>
      let at_ := pageMapV2HeaderSize + i * pageMapV2IndexStride in
      let pgno := rd32 payload at_ in
      let off := rd32 payload (at_ + 4) in
      let word := rd32 payload (at_ + 8) in
      let stored := Z.ldiff word CodecBit in
      let codec := if decide (Z.land word CodecBit ≠ 0) then CodecLZ4 else CodecRaw in
      checkAscending prev pgno ;;ᵣ
      reject (bool_decide (stored ≤ 0 ∨ CodecLZ4 < codec)) (ErrFrame i) ;;ᵣ
      reject (bool_decide (codec = CodecRaw ∧ stored ≠ pageSize)) (ErrRawSize i) ;;ᵣ
      reject (bool_decide (off < indexEnd ∨ zlen payload < off + stored)) (ErrFrameBounds i) ;;ᵣ
      locs ←ᵣ pageLocsV2 payload pageSize indexEnd (i + 1) (Some pgno) n;
      Ok (MkPageLoc pgno off stored pageSize codec :: locs)
  end.

(** The locations for a payload whose description is [d]. *)
Definition pageLocsOf (payload : bytes) (d : pageMapDesc) : result error (list PageLoc) :=
  if v2 d then
    pageLocsV2 payload (pageSize d)
      (pageMapV2HeaderSize + pageCount d * pageMapV2IndexStride) 0 None (Z.to_nat (pageCount d))
  else pageLocsV1 payload (pageSize d) PageMapHeaderSize None (Z.to_nat (pageCount d)).

Definition PageLocs (payload : bytes) : result error (list PageLoc) :=
  d ←ᵣ describePageMap payload; pageLocsOf payload d.

Definition FrameData (payload : bytes) (loc : PageLoc) : result error bytes :=
  reject (bool_decide (Off loc < 0 ∨ zlen payload < i64 (Off loc + Stored loc))) ErrOutOfBounds ;;ᵣ
  let frame := slice payload (Off loc) (Off loc + Stored loc) in
  if decide (Codec loc = CodecRaw) then
    reject (bool_decide (zlen frame ≠ Size loc)) ErrRawLength ;;ᵣ Ok frame
  else if decide (Codec loc = CodecLZ4) then rmap_err ErrLz4 (DecodeBlock frame (Size loc))
  else Err (ErrUnknownCodec (Codec loc)).

Fixpoint framesData (payload : bytes) (locs : list PageLoc) : result error (list WALPage) :=
  match locs with
  | [] => Ok []
  | loc :: locs =>
      data ←ᵣ FrameData payload loc;
      pages ←ᵣ framesData payload locs;
      Ok (MkWALPage (Pgno loc) data :: pages)
  end.

Record decoded := MkDecoded {
  dPageSize : Z;
  dCommit : Z;
  dTxCount : Z;
  dPages : list WALPage;
}.

Definition DecodeWALPageMap (payload : bytes) : result error decoded :=
  d ←ᵣ describePageMap payload;
  locs ←ᵣ PageLocs payload;
  pages ←ᵣ framesData payload locs;
  Ok (MkDecoded (pageSize d) (commit d) (txCount d) pages).

Definition PageMapNumbers (payload : bytes) : result error (list Z) :=
  locs ←ᵣ PageLocs payload; Ok (Pgno <$> locs).

Fixpoint lookupLoc (payload : bytes) (locs : list PageLoc) (pgno : Z) : result error (option bytes) :=
  match locs with
  | [] => Ok None
  | loc :: locs =>
      if decide (Pgno loc = pgno) then data ←ᵣ FrameData payload loc; Ok (Some data)
      else lookupLoc payload locs pgno
  end.

Definition PageMapLookup (payload : bytes) (pgno : Z) : result error (option bytes) :=
  locs ←ᵣ PageLocs payload; lookupLoc payload locs pgno.

Example pagemap_v2 :
  (buf ←ᵣ EncodeWALPageMap true 32 3 1
            [MkWALPage 1 (bs "aaaaaaaaaaaaaaaaaaaaaaaaaaaaaaaa");
             MkWALPage 3 (bs "abcdefghijklmnopqrstuvwxyz012345")];
   DecodeWALPageMap buf)
  = Ok (MkDecoded 32 3 1 [MkWALPage 1 (bs "aaaaaaaaaaaaaaaaaaaaaaaaaaaaaaaa");
             MkWALPage 3 (bs "abcdefghijklmnopqrstuvwxyz012345")]).
Proof. vm_compute. reflexivity. Qed.

#[global] Arguments putLoc : simpl never.
#[global] Arguments pageFrame : simpl never.
#[global] Arguments FrameData : simpl never.
#[global] Arguments describePageMap : simpl never.

(** ** What the encoders accept *)

(** Strictly ascending, above [prev] when there is one. *)
Fixpoint ascending (prev : option Z) (l : list Z) : Prop :=
  match l with
  | [] => True
  | x :: l => from_option (λ p, p < x) True prev ∧ ascending (Some x) l
  end.

Lemma checkPage_Ok ps prev page u :
  checkPage ps prev page = Ok u →
  zlen (Data page) = ps ∧ from_option (λ p, p < PageNo page) True prev.
Proof.
  unfold checkPage. intros H. inv_ok. rewrite bool_decide_eq_false in *. split; [lia|].
  destruct prev; [|done]. simpl. unfold reject in H. case_bool_decide; [done|lia].
Qed.

(** The pages that either encoder accepts. *)
Definition encodable (ps : Z) (prev : option Z) (pages : list WALPage) : Prop :=
  ascending prev (PageNo <$> pages) ∧ Forall (λ p, zlen (Data p) = ps) pages.

Lemma encodable_cons ps prev page pages :
  zlen (Data page) = ps → from_option (λ p, p < PageNo page) True prev →
  encodable ps (Some (PageNo page)) pages → encodable ps prev (page :: pages).
Proof. intros ?? []. split; [done|]. by constructor. Qed.

(** The frames and locations of [encodePages], from offset [off] on. *)
Definition frameBytes (pages : list WALPage) : bytes :=
  concat ((λ p, (pageFrame (Data p)).1) <$> pages).

Fixpoint locsFrom (ps off : Z) (pages : list WALPage) : list PageLoc :=
  match pages with
  | [] => []
  | p :: pages =>
      let '(frame, codec) := pageFrame (Data p) in
      MkPageLoc (PageNo p) off (zlen frame) ps codec :: locsFrom ps (off + zlen frame) pages
  end.

Lemma encodePages_Ok ps ie prev pages frames locs out :
  encodePages ps ie prev pages frames = Ok (locs, out) →
  encodable ps prev pages ∧ locs = locsFrom ps (ie + zlen frames) pages
  ∧ out = frames ++ frameBytes pages.
Proof.
  revert prev frames locs out. induction pages as [|p pages IH]; intros prev frames locs out H.
  - simpl in H. simplify_eq. unfold frameBytes. simpl. by rewrite app_nil_r.
  - cbn [encodePages] in H. inv_ok. apply checkPage_Ok in Ha as [??].
    cbn [locsFrom]. destruct (pageFrame (Data p)) as [f c] eqn:Hf. inv_ok.
    destruct a0 as [ls o]. apply IH in Ha as (? & -> & ->). simplify_eq. split_and!.
    + by apply encodable_cons.
    + do 2 f_equal. len.
    + unfold frameBytes. rewrite fmap_cons. cbn [concat]. rewrite Hf. by rewrite <-app_assoc.
Qed.

Lemma checkPage_complete ps prev p :
  zlen (Data p) = ps → from_option (λ n, n < PageNo p) True prev → checkPage ps prev p = Ok tt.
Proof.
  intros Hp Hprev. unfold checkPage. rewrite bool_decide_eq_false_2 by lia. cbn [reject rbind].
  destruct prev; [|done]. simpl in Hprev. by rewrite bool_decide_eq_false_2 by lia.
Qed.

Lemma encodePages_complete ps ie prev pages frames :
  encodable ps prev pages →
  encodePages ps ie prev pages frames
  = Ok (locsFrom ps (ie + zlen frames) pages, frames ++ frameBytes pages).
Proof.
  intros [Ha Hf]. revert prev frames Ha.
  induction Hf as [|p pages Hp Hf IH]; intros prev frames Ha; simpl.
  - unfold frameBytes. simpl. by rewrite app_nil_r.
  - destruct Ha as [Hprev Ha]. rewrite checkPage_complete by done.
    cbn [rbind]. unfold frameBytes. cbn [fmap list_fmap concat].
    destruct (pageFrame (Data p)) as [f c] eqn:Hfr. rewrite IH by done. cbn [rbind].
    simpl. rewrite <-app_assoc. do 4 f_equal. len.
Qed.

(** ** Reading frames back *)

Lemma EncodeBlock_nonempty d : zlen d ≤ 2 ^ 30 → d ≠ [] → EncodeBlock d ≠ [].
Proof.
  intros Hd Hne He. pose proof (lz4_roundtrip d Hd) as H. rewrite He in H.
  unfold DecodeBlock in H. rewrite run_eq in H by apply decodeTurn_dec. simpl in H.
  case_decide; [done|]. destruct d; [done|simpl in *; lia].
Qed.

(** A frame is a nonempty prefix-free image of its page that [FrameData] inverts. *)
Lemma pageFrame_spec ps data frame codec :
  0 < ps ≤ 2 ^ 30 → zlen data = ps → pageFrame data = (frame, codec) →
  0 < zlen frame ≤ ps ∧
  (codec = CodecRaw ∧ zlen frame = ps ∧ frame = data ∨
   codec = CodecLZ4 ∧ DecodeBlock frame ps = Ok data).
Proof.
  intros Hps Hd H. unfold pageFrame in H. case_decide as Hc; simplify_eq.
  - assert (EncodeBlock data ≠ []) as Hne.
    { apply EncodeBlock_nonempty; [lia|]. intros ->. simpl in *. lia. }
    split; [|right; split; [done|apply lz4_roundtrip; lia]].
    destruct (EncodeBlock data); [done|]. simpl in *. lia.
  - split; [lia|by left].
Qed.

Lemma FrameData_frame pre frame post pgno ps codec data :
  0 < ps ≤ 2 ^ 30 → zlen data = ps → pageFrame data = (frame, codec) →
  zlen (pre ++ frame ++ post) < 2 ^ 32 →
  FrameData (pre ++ frame ++ post) (MkPageLoc pgno (zlen pre) (zlen frame) ps codec) = Ok data.
Proof.
  intros Hps Hd Hf Hlen. destruct (pageFrame_spec ps data frame codec Hps Hd Hf) as [Hz Hc].
  unfold FrameData. cbn [Off Stored Size Codec].
  rewrite bool_decide_eq_false_2 by (rewrite i64_id; len). cbn [reject rbind].
  rewrite slice_middle by lia. destruct Hc as [(-> & Hl & ->)|[-> Hdec]].
  - rewrite decide_True by done. by rewrite bool_decide_eq_false_2 by lia.
  - rewrite decide_False, decide_True by done. by rewrite Hdec.
Qed.

Lemma framesData_locs pre pages post ps off :
  0 < ps ≤ 2 ^ 30 → Forall (λ p, zlen (Data p) = ps) pages →
  zlen (pre ++ frameBytes pages ++ post) < 2 ^ 32 → off = zlen pre →
  framesData (pre ++ frameBytes pages ++ post) (locsFrom ps off pages) = Ok pages.
Proof.
  intros Hps Hf. revert pre off. induction Hf as [|p pages Hp Hf IH]; intros pre off Hlen ->; [done|].
  unfold frameBytes in *. rewrite fmap_cons in *. cbn [concat locsFrom] in *.
  destruct (pageFrame (Data p)) as [f c] eqn:Hfr. cbn [fst framesData] in *.
  rewrite <-app_assoc in *. rewrite (FrameData_frame _ _ _ _ _ _ (Data p)) by done.
  cbn [rbind]. rewrite (app_assoc pre f) in *. rewrite IH by (done || len). by destruct p.
Qed.

(** ** Reading the index back *)

Lemma zlen_frameBytes_le ps pages :
  0 < ps ≤ 2 ^ 30 → Forall (λ p, zlen (Data p) = ps) pages →
  zlen (frameBytes pages) ≤ zlen pages * ps.
Proof.
  intros Hps. induction 1 as [|p pages Hp Hf IH]; [done|]. unfold frameBytes in *.
  rewrite fmap_cons. cbn [concat]. destruct (pageFrame (Data p)) as [f c] eqn:Hfr.
  destruct (pageFrame_spec ps (Data p) f c Hps Hp Hfr) as [Hz _]. cbn [fst] in *. len.
Qed.

Lemma zlen_putLocs locs : zlen (concat (putLoc <$> locs)) = 12 * zlen locs.
Proof.
  induction locs as [|l locs IH]; [done|]. rewrite fmap_cons. cbn [concat].
  rewrite length_app, Nat2Z.inj_add, IH. unfold putLoc. cbv zeta. len.
Qed.

Lemma length_locsFrom ps off pages : length (locsFrom ps off pages) = length pages.
Proof.
  revert off. induction pages as [|p pages IH]; intros off; [done|]. simpl.
  destruct (pageFrame (Data p)). simpl. by rewrite IH.
Qed.

(** One index entry: the packed word holds the stored length and the codec bit. *)
Lemma rd_putLoc pre loc tl :
  is_u32 (Pgno loc) → is_u32 (Off loc) → 0 < Stored loc < 2 ^ 31 →
  Codec loc = CodecRaw ∨ Codec loc = CodecLZ4 →
  let payload := pre ++ putLoc loc ++ tl in
  let word := rd32 payload (zlen pre + 8) in
  rd32 payload (zlen pre) = Pgno loc ∧ rd32 payload (zlen pre + 4) = Off loc
  ∧ Z.ldiff word CodecBit = Stored loc
  ∧ (if decide (Z.land word CodecBit ≠ 0) then CodecLZ4 else CodecRaw) = Codec loc.
Proof.
  intros Hp Ho Hs Hc. cbv zeta. rewrite !(rd32_skip pre) by lia.
  replace (zlen pre - zlen pre) with 0 by lia.
  replace (zlen pre + 4 - zlen pre) with 4 by lia.
  replace (zlen pre + 8 - zlen pre) with 8 by lia.
  unfold putLoc. cbv zeta. rewrite u32_id, <-!app_assoc by lia.
  destruct (bit_set (Stored loc) 31) as (Hor & Hand & H0); [lia..|]. fold CodecBit in Hor, Hand, H0.
  destruct Hc as [-> | ->].
  - rewrite (decide_False (P := CodecRaw = CodecLZ4)) by done.
    split; [by rd_simp|]. split; [by rd_simp|]. rd_simp. rewrite ldiff_sub, H0.
    split; [lia|]. by rewrite decide_False by tauto.
  - rewrite (decide_True (P := CodecLZ4 = CodecLZ4)) by done. rewrite Hor.
    split; [by rd_simp|]. split; [by rd_simp|]. unfold CodecBit in *. rd_simp.
    rewrite ldiff_sub, Hand. split; [lia|]. by rewrite decide_True by lia.
Qed.

Lemma pageLocsV2_locs pre pages tl ps ie i prev off :
  let payload := pre ++ concat (putLoc <$> locsFrom ps off pages) ++ tl in
  0 < ps ≤ 2 ^ 30 → encodable ps prev pages → Forall (λ p, is_u32 (PageNo p)) pages →
  zlen pre = pageMapV2HeaderSize + i * pageMapV2IndexStride → 0 ≤ ie ≤ off →
  off + zlen (frameBytes pages) ≤ zlen payload → zlen payload < 2 ^ 32 →
  pageLocsV2 payload ps ie i prev (length pages) = Ok (locsFrom ps off pages).
Proof.
  cbv zeta. intros Hps [Ha Hf]. revert pre i prev off Ha.
  induction Hf as [|p pages Hp Hf IH]; intros pre i prev off Ha Hno Hpre Hie Hoff Hlen; [done|].
  destruct Ha as [Hprev Ha]. apply Forall_cons in Hno as [Hno Hnos].
  cbn [locsFrom length pageLocsV2] in *. unfold frameBytes in *. rewrite fmap_cons in *.
  cbn [concat] in *. destruct (pageFrame (Data p)) as [f c] eqn:Hfr.
  destruct (pageFrame_spec ps (Data p) f c Hps Hp Hfr) as [Hz Hc]. cbn [fst] in *.
  rewrite fmap_cons in *. cbn [concat] in *. rewrite <-app_assoc in *.
  set (loc := MkPageLoc (PageNo p) off (zlen f) ps c) in *.
  set (tl' := concat (putLoc <$> _) ++ tl) in *.
  unfold pageMapV2HeaderSize, pageMapV2IndexStride in *.
  assert (0 ≤ off < 2 ^ 32) by len.
  set (payload := pre ++ putLoc loc ++ tl') in *.
  destruct (rd_putLoc pre loc tl') as (H1 & H2 & H3 & H4);
    [done|done|simpl; lia|simpl; tauto|].
  fold payload in H1, H2, H3, H4. rewrite Hpre in H1, H2, H3, H4. cbn [loc Pgno Off Stored Codec] in *.
  rewrite H1, H2, H3, H4.
  assert (checkAscending prev (PageNo p) = Ok tt) as ->.
  { unfold checkAscending. destruct prev; [|done]. simpl in Hprev.
    by rewrite bool_decide_eq_false_2 by lia. }
  cbn [rbind]. rewrite !bool_decide_eq_false_2; cycle 1.
  { len. }
  { intros [-> ?]. destruct Hc as [(_ & ? & _)|[? _]]; [lia|done]. }
  { intros [?|?]; [lia|]. destruct Hc as [(-> & _)|[-> _]]; done. }
  cbn [reject rbind].
  assert (payload = (pre ++ putLoc loc) ++ tl') as E by (unfold payload; by rewrite app_assoc).
  unfold tl' in *. rewrite E in *. rewrite IH; first done; try done; try lia; len.
Qed.

(** ** The uncompressed layout *)

Definition bodyV1 (pages : list WALPage) : bytes :=
  concat ((λ p, be_enc 4 (PageNo p) ++ Data p) <$> pages).

Fixpoint locsFromV1 (ps off : Z) (pages : list WALPage) : list PageLoc :=
  match pages with
  | [] => []
  | p :: pages =>
      MkPageLoc (PageNo p) (off + 4) ps ps CodecRaw :: locsFromV1 ps (off + (4 + ps)) pages
  end.

Lemma encodePagesV1_Ok ps prev pages body :
  encodePagesV1 ps prev pages = Ok body → encodable ps prev pages ∧ body = bodyV1 pages.
Proof.
  revert prev body. induction pages as [|p pages IH]; intros prev body H.
  - simpl in H. by simplify_eq.
  - cbn [encodePagesV1] in H. inv_ok. apply checkPage_Ok in Ha as [??].
    apply IH in Ha0 as [? ->]. subst body. split; [by apply encodable_cons|].
    unfold bodyV1. rewrite fmap_cons. cbn [concat]. by rewrite <-app_assoc.
Qed.

Lemma encodePagesV1_complete ps prev pages :
  encodable ps prev pages → encodePagesV1 ps prev pages = Ok (bodyV1 pages).
Proof.
  intros [Ha Hf]. revert prev Ha.
  induction Hf as [|p pages Hp Hf IH]; intros prev Ha; [done|].
  destruct Ha as [Hprev Ha]. cbn [encodePagesV1].
  rewrite checkPage_complete, IH by done. cbn [rbind].
  unfold bodyV1. rewrite fmap_cons. cbn [concat]. by rewrite <-app_assoc.
Qed.

Lemma zlen_bodyV1 ps pages :
  Forall (λ p, zlen (Data p) = ps) pages → zlen (bodyV1 pages) = zlen pages * (4 + ps).
Proof.
  induction 1 as [|p pages Hp Hf IH]; [done|]. unfold bodyV1 in *. rewrite fmap_cons.
  cbn [concat]. len.
Qed.

Lemma pageLocsV1_locs pre pages ps prev off :
  0 < ps → encodable ps prev pages → Forall (λ p, is_u32 (PageNo p)) pages → off = zlen pre →
  pageLocsV1 (pre ++ bodyV1 pages) ps off prev (length pages) = Ok (locsFromV1 ps off pages).
Proof.
  intros Hps [Ha Hf]. revert pre prev off Ha.
  induction Hf as [|p pages Hp Hf IH]; intros pre prev off Ha Hno ->; [done|].
  destruct Ha as [Hprev Ha]. apply Forall_cons in Hno as [Hno Hnos].
  cbn [length pageLocsV1 locsFromV1]. unfold bodyV1. rewrite fmap_cons. cbn [concat].
  fold (bodyV1 pages). rewrite <-app_assoc.
  rewrite bool_decide_eq_false_2 by len. cbn [reject rbind].
  rewrite rd32_skip by lia. replace (zlen pre - zlen pre) with 0 by lia. rewrite rd32_enc by done.
  assert (checkAscending prev (PageNo p) = Ok tt) as ->.
  { unfold checkAscending. destruct prev; [|done]. simpl in Hprev.
    by rewrite bool_decide_eq_false_2 by lia. }
  cbn [rbind]. rewrite (app_assoc (be_enc 4 _)), (app_assoc pre).
  by rewrite IH by (done || len).
Qed.

Lemma framesData_locsV1 pre pages ps off :
  Forall (λ p, zlen (Data p) = ps) pages → zlen (pre ++ bodyV1 pages) < 2 ^ 32 → off = zlen pre →
  framesData (pre ++ bodyV1 pages) (locsFromV1 ps off pages) = Ok pages.
Proof.
  intros Hf. revert pre off. induction Hf as [|p pages Hp Hf IH]; intros pre off Hlen ->; [done|].
  unfold bodyV1 in *. rewrite fmap_cons in *. cbn [concat locsFromV1 framesData] in *.
  fold (bodyV1 pages) in *. rewrite <-!app_assoc in *.
  unfold FrameData. cbn [Off Stored Size Codec].
  rewrite bool_decide_eq_false_2 by (rewrite i64_id; len). cbn [reject rbind].
  rewrite decide_True by done. rewrite (app_assoc pre (be_enc 4 _)) in *.
  rewrite slice_middle by len. rewrite bool_decide_eq_false_2 by lia. cbn [reject rbind].
  rewrite (app_assoc _ (Data p)) in *. rewrite IH by (done || len). by destruct p.
Qed.

(** The five header words that both layouts share. *)
Definition dims (ps cm tx n : Z) : bytes :=
  be_enc 4 ps ++ be_enc 4 cm ++ be_enc 4 tx ++ be_enc 4 n.

Lemma readDesc_dims magic ps cm tx n tl v :
  zlen magic = 4 → is_u32 ps → is_u32 cm → is_u32 tx → is_u32 n →
  readDesc (magic ++ dims ps cm tx n ++ tl) v = MkDesc ps cm tx n v.
Proof.
  intros Hm Hps Hcm Htx Hn. unfold readDesc, dims. rewrite <-!app_assoc.
  rewrite !(rd32_skip magic) by lia. rewrite Hm. off_simp. f_equal; by rd_simp.
Qed.

Lemma describePageMap_v1 ps cm tx n body :
  let payload := walPageMapMagic ++ dims ps cm tx n ++ body in
  0 < ps < 2 ^ 32 → is_u32 cm → 0 < tx < 2 ^ 32 → is_u32 n →
  zlen body = n * (4 + ps) → zlen payload < 2 ^ 32 →
  describePageMap payload = Ok (MkDesc ps cm tx n false).
Proof.
  cbv zeta. intros Hps Hcm Htx Hn Hb Hlen. unfold describePageMap.
  assert (zlen (dims ps cm tx n) = 16) as Hd by (unfold dims; len).
  assert (zlen walPageMapMagic = 4) as Hm by done.
  rewrite decide_True.
  2: { split; [len|]. by rewrite slice_app_take, slice_all by lia. }
  rewrite readDesc_dims by (done || lia). cbn [pageSize txCount pageCount].
  rewrite bool_decide_eq_false_2 by lia. cbn [reject rbind].
  rewrite bool_decide_eq_false_2; [done|].
  rewrite !length_app in *. rewrite !i64_id by (rewrite ?i64_id; lia). lia.
Qed.

Lemma describePageMap_v2 ps cm tx n tl :
  let payload := walPageMapV2Magic ++ dims ps cm tx n ++ be_enc 4 0 ++ tl in
  0 < ps < 2 ^ 32 → is_u32 cm → 0 < tx < 2 ^ 32 → 0 ≤ n ≤ 2 ^ 31 / 12 →
  n * 12 ≤ zlen tl →
  describePageMap payload = Ok (MkDesc ps cm tx n true).
Proof.
  cbv zeta. intros Hps Hcm Htx Hn Htl. unfold describePageMap.
  assert (zlen (dims ps cm tx n) = 16) as Hd by (unfold dims; len).
  assert (zlen walPageMapV2Magic = 4) as Hm by done.
  change (2 ^ 31 / 12) with 178956970 in *. unfold pageMapV2HeaderSize, pageMapV2IndexStride.
  change (2 ^ 31 / 12) with 178956970 in *.
  rewrite slice_app_take, slice_all by lia.
  rewrite decide_False by (intros [_ ?]; done). rewrite decide_True by (split; [len|done]).
  rewrite readDesc_dims by (done || lia). cbn [pageSize txCount pageCount].
  rewrite !bool_decide_eq_false_2; [done|len|lia|lia].
Qed.

Lemma DecodeWALPageMap_v1 ps cm tx pages buf :
  0 ≤ ps ≤ 2 ^ 30 → is_u32 cm → tx < 2 ^ 32 → Forall (λ p, is_u32 (PageNo p)) pages →
  zlen buf < 2 ^ 32 → encodeWALPageMapV1 ps cm tx pages = Ok buf →
  DecodeWALPageMap buf = Ok (MkDecoded ps cm tx pages).
Proof.
  intros Hps Hcm Htx Hno Hlen H. unfold encodeWALPageMapV1 in H. inv_ok.
  rewrite !bool_decide_eq_false in *. apply encodePagesV1_Ok in Ha as [[Hasc Hf] ->]. subst buf.
  pose proof (zlen_bodyV1 ps pages Hf) as Hb.
  assert (zlen pages < 2 ^ 32) by (rewrite !length_app in Hlen; nia).
  pose proof (describePageMap_v1 ps cm tx (zlen pages) (bodyV1 pages)) as Hd. cbv zeta in Hd.
  unfold dims in Hd. rewrite <-!app_assoc in Hd.
  unfold DecodeWALPageMap, PageLocs. rewrite Hd by (done || lia). cbn [rbind].
  unfold pageLocsOf. cbn [v2 pageSize pageCount commit txCount]. rewrite Nat2Z.id.
  rewrite !app_assoc in *. unfold PageMapHeaderSize.
  rewrite pageLocsV1_locs; [|lia|done|done|len]. cbn [rbind].
  rewrite framesData_locsV1 by (done || len). done.
Qed.

Lemma DecodeWALPageMap_v2 ps cm tx pages buf :
  0 ≤ ps ≤ 2 ^ 30 → is_u32 cm → tx < 2 ^ 32 → Forall (λ p, is_u32 (PageNo p)) pages →
  zlen pages ≤ 2 ^ 31 / 12 → zlen buf < 2 ^ 32 →
  EncodeWALPageMap true ps cm tx pages = Ok buf →
  DecodeWALPageMap buf = Ok (MkDecoded ps cm tx pages).
Proof.
  intros Hps Hcm Htx Hno Hn Hlen H. unfold EncodeWALPageMap in H. cbn [negb] in H. inv_ok.
  rewrite !bool_decide_eq_false in *. destruct a as [locs fr].
  apply encodePages_Ok in Ha as ([Hasc Hf] & -> & ->). inv_ok. subst buf. cbn [app] in *.
  set (ie := pageMapV2HeaderSize + zlen pages * pageMapV2IndexStride) in *.
  rewrite Z.add_0_r in *. set (locs := locsFrom ps ie pages) in *.
  assert (zlen (concat (putLoc <$> locs)) = 12 * zlen pages) as Hl.
  { rewrite zlen_putLocs. unfold locs. by rewrite length_locsFrom. }
  pose proof (describePageMap_v2 ps cm tx (zlen pages)
    (concat (putLoc <$> locs) ++ frameBytes pages)) as Hd. cbv zeta in Hd.
  unfold dims in Hd. rewrite <-!app_assoc in Hd.
  unfold DecodeWALPageMap, PageLocs. rewrite Hd by (done || len). cbn [rbind].
  unfold pageLocsOf. cbn [v2 pageSize pageCount commit txCount]. rewrite Nat2Z.id. fold ie.
  set (hdr := walPageMapV2Magic ++ be_enc 4 ps ++ be_enc 4 cm ++ be_enc 4 tx
                ++ be_enc 4 (zlen pages) ++ be_enc 4 0).
  assert (zlen hdr = 24) as Hh by (unfold hdr; by autorewrite with go).
  assert (∀ tl, walPageMapV2Magic ++ be_enc 4 ps ++ be_enc 4 cm ++ be_enc 4 tx
    ++ be_enc 4 (zlen pages) ++ be_enc 4 0 ++ tl = hdr ++ tl) as E.
  { intros tl. unfold hdr. by rewrite <-!app_assoc. }
  rewrite E in *. unfold locs in *. rewrite pageLocsV2_locs; try done; try lia; unfold ie, pageMapV2HeaderSize,
    pageMapV2IndexStride in *; try lia; try len.
  cbn [rbind]. rewrite app_assoc in *. rewrite <-(app_nil_r (frameBytes pages)) in *.
  rewrite framesData_locs; [done|lia|done|len|len].
Qed.

Lemma pagemap_roundtrip compression ps cm tx pages buf :
  0 ≤ ps ≤ 2 ^ 30 → is_u32 cm → tx < 2 ^ 32 → Forall (λ p, is_u32 (PageNo p)) pages →
  zlen pages ≤ 2 ^ 31 / 12 → zlen buf < 2 ^ 32 →
  EncodeWALPageMap compression ps cm tx pages = Ok buf →
  DecodeWALPageMap buf = Ok (MkDecoded ps cm tx pages).
Proof.
  intros Hps Hcm Htx Hno Hn Hlen H. destruct compression.
  - by apply DecodeWALPageMap_v2.
  - by apply DecodeWALPageMap_v1.
Qed.

(** ** What the decoder accepts *)

Lemma checkAscending_Ok prev n u :
  checkAscending prev n = Ok u → from_option (λ p, p < n) True prev.
Proof.
  unfold checkAscending, reject. destruct prev; [|done]. case_bool_decide; [done|]. simpl. lia.
Qed.

(** The locations that [PageLocs] returns. *)
Definition locs_ok (ps : Z) (prev : option Z) (locs : list PageLoc) : Prop :=
  ascending prev (Pgno <$> locs) ∧ Forall (λ l, Size l = ps ∧ is_u32 (Pgno l)) locs.

Lemma locs_ok_cons ps prev l locs :
  from_option (λ p, p < Pgno l) True prev → Size l = ps → is_u32 (Pgno l) →
  locs_ok ps (Some (Pgno l)) locs → locs_ok ps prev (l :: locs).
Proof. intros ??? []. split; [done|]. by constructor. Qed.

Lemma pageLocsV1_ok payload ps off prev n locs :
  pageLocsV1 payload ps off prev n = Ok locs → locs_ok ps prev locs ∧ length locs = n.
Proof.
  revert off prev locs. induction n as [|n IH]; intros off prev locs H; cbn [pageLocsV1] in H.
  { by inv_ok; subst. }
  inv_ok. apply checkAscending_Ok in Ha. apply IH in Ha0 as [? <-]. subst locs.
  split; [|done]. apply locs_ok_cons; [done|done|apply rd32_range|done].
Qed.

Lemma pageLocsV2_ok payload ps ie i prev n locs :
  pageLocsV2 payload ps ie i prev n = Ok locs → locs_ok ps prev locs ∧ length locs = n.
Proof.
  revert i prev locs. induction n as [|n IH]; intros i prev locs H; cbn [pageLocsV2] in H.
  { by inv_ok; subst. }
  inv_ok. apply checkAscending_Ok in Ha. apply IH in Ha0 as [? <-]. subst locs.
  split; [|done]. apply locs_ok_cons; [done|done|apply rd32_range|done].
Qed.

Lemma FrameData_length payload l data : FrameData payload l = Ok data → zlen data = Size l.
Proof.
  unfold FrameData. intros H. inv_ok.
  destruct (decide (Codec l = CodecRaw)); [|destruct (decide (Codec l = CodecLZ4)); [|done]]; inv_ok.
  - rewrite !bool_decide_eq_false in *. subst data. lia.
  - by apply lz4_decoded_length in H.
Qed.

Lemma framesData_Ok payload ps prev locs pages :
  locs_ok ps prev locs → framesData payload locs = Ok pages →
  PageNo <$> pages = Pgno <$> locs ∧ Forall (λ p, zlen (Data p) = ps ∧ is_u32 (PageNo p)) pages.
Proof.
  intros [_ Hf]. revert pages. induction Hf as [|l locs [Hs Hn] Hf IH]; intros pages H;
    cbn [framesData] in H; inv_ok; subst pages; [done|].
  apply FrameData_length in Ha. destruct (IH _ Ha0) as [Hp Hall]. rewrite !fmap_cons, Hp.
  split; [done|]. constructor; [|done]. simpl. split; [lia|done].
Qed.

Lemma describePageMap_Ok payload d :
  describePageMap payload = Ok d →
  0 < pageSize d < 2 ^ 32 ∧ is_u32 (commit d) ∧ 0 < txCount d < 2 ^ 32 ∧ is_u32 (pageCount d).
Proof.
  unfold describePageMap. intros H. repeat case_decide; inv_ok; subst d;
    rewrite !bool_decide_eq_false in *; cbn [readDesc pageSize commit txCount pageCount] in *;
    pose proof (rd32_range payload 4); pose proof (rd32_range payload 8);
    pose proof (rd32_range payload 12); pose proof (rd32_range payload 16); lia.
Qed.

Lemma pageLocsOf_ok payload d locs :
  pageLocsOf payload d = Ok locs → locs_ok (pageSize d) None locs.
Proof.
  unfold pageLocsOf. destruct (v2 d); intros H; [eapply pageLocsV2_ok, H|eapply pageLocsV1_ok, H].
Qed.

Lemma pagemap_valid payload d :
  DecodeWALPageMap payload = Ok d →
  0 < dPageSize d ∧ ascending None (PageNo <$> dPages d)
  ∧ Forall (λ p, zlen (Data p) = dPageSize d ∧ is_u32 (PageNo p)) (dPages d).
Proof.
  unfold DecodeWALPageMap, PageLocs. intros H.
  destruct (describePageMap payload) as [desc|] eqn:Hd; [|done]. cbn [rbind] in H. inv_ok. subst d.
  apply describePageMap_Ok in Hd. apply pageLocsOf_ok in Ha.
  destruct (framesData_Ok _ _ _ _ _ Ha Ha0) as [Hn Hall]. cbn [dPageSize dPages].
  split; [lia|]. rewrite Hn. split; [apply Ha|done].
Qed.

(** ** Single-page lookups *)

(** The page with number [n] in a page list. *)
Fixpoint findPage (n : Z) (pages : list WALPage) : option bytes :=
  match pages with
  | [] => None
  | p :: pages => if decide (PageNo p = n) then Some (Data p) else findPage n pages
  end.

Lemma lookupLoc_findPage payload locs pages n :
  framesData payload locs = Ok pages → lookupLoc payload locs n = Ok (findPage n pages).
Proof.
  revert pages. induction locs as [|l locs IH]; intros pages H; cbn [framesData lookupLoc] in *;
    inv_ok; subst pages; [done|]. simpl. case_decide; [|by apply IH].
  by rewrite Ha.
Qed.

Lemma pagemap_lookup payload d n :
  DecodeWALPageMap payload = Ok d →
  PageMapLookup payload n = Ok (findPage n (dPages d))
  ∧ PageMapNumbers payload = Ok (PageNo <$> dPages d).
Proof.
  unfold DecodeWALPageMap, PageMapLookup, PageMapNumbers, PageLocs. intros H.
  destruct (describePageMap payload) as [desc|] eqn:Hd; [|done]. cbn [rbind] in *.
  inv_ok. subst d. cbn [dPages]. rewrite Ha. cbn [rbind].
  apply pageLocsOf_ok in Ha. destruct (framesData_Ok _ _ _ _ _ Ha Ha0) as [-> _].
  by rewrite (lookupLoc_findPage _ _ _ _ Ha0).
Qed.

(** ** Page lists as finite maps *)

Lemma findPage_elem n d pages :
  NoDup (PageNo <$> pages) → findPage n pages = Some d ↔ MkWALPage n d ∈ pages.
Proof.
  induction pages as [|p pages IH]; intros Hnd; simpl; [set_solver|].
  apply NoDup_cons in Hnd as [Hnot Hnd]. rewrite elem_of_cons. case_decide as Hn.
  - subst n. split; [intros [= <-]; left; by destruct p|].
    intros [<-|Hin]; [done|]. destruct Hnot.
    apply list_elem_of_fmap. by exists (MkWALPage (PageNo p) d).
  - rewrite IH by done. split; [by right|]. by intros [<-|?].
Qed.

Lemma findPage_perm n pages pages' :
  NoDup (PageNo <$> pages) → pages ≡ₚ pages' → findPage n pages = findPage n pages'.
Proof.
  intros Hnd Hp. apply option_eq. intros d. rewrite !findPage_elem; [|by rewrite <-Hp|done].
  by rewrite Hp.
Qed.

Lemma ascending_above prev l x :
  ascending (Some prev) l → x ∈ l → prev < x.
Proof.
  revert prev. induction l as [|y l IH]; intros prev H Hx; [set_solver|].
  destruct H as [Hy H]. apply elem_of_cons in Hx as [->|Hx]; [done|].
  specialize (IH y H Hx). simpl in *. lia.
Qed.

Lemma ascending_NoDup prev l : ascending prev l → NoDup l.
Proof.
  revert prev. induction l as [|x l IH]; intros prev H; constructor.
  - intros Hx. destruct H as [_ H]. pose proof (ascending_above _ _ _ H Hx). lia.
  - destruct H as [_ H]. eauto.
Qed.

Lemma sorted_ascending prev pages :
  StronglySorted page_le pages → NoDup (PageNo <$> pages) →
  (∀ p, p ∈ pages → from_option (λ m, m < PageNo p) True prev) →
  ascending prev (PageNo <$> pages).
Proof.
  intros Hs. revert prev. induction Hs as [|p pages Hs IH Hle]; intros prev Hnd Hprev; [done|].
  apply NoDup_cons in Hnd as [Hnot Hnd]. split; [apply Hprev; left|].
  apply IH; [done|]. intros q Hq. simpl. rewrite Forall_forall in Hle.
  pose proof (Hle q Hq) as Hpq. unfold page_le in Hpq.
  assert (PageNo p ≠ PageNo q); [|lia]. intros Heq. apply Hnot. rewrite Heq.
  by apply list_elem_of_fmap_2.
Qed.

#[global] Instance page_le_total : Total page_le.
Proof. intros p q. unfold page_le. lia. Qed.
#[global] Instance page_le_trans : Transitive page_le.
Proof. intros p q r. unfold page_le. lia. Qed.

Lemma sort_pages_ascending pages :
  NoDup (PageNo <$> pages) → ascending None (PageNo <$> merge_sort page_le pages).
Proof.
  intros Hnd. apply sorted_ascending.
  - apply (StronglySorted_merge_sort page_le).
  - by rewrite merge_sort_Permutation.
  - done.
Qed.

(** ** The last write of each page wins *)

Definition lastWrite (n : Z) (frames : list WALFrame) : option bytes :=
  foldl (λ acc f, if decide (fPageNo f = n) then Some (fData f) else acc) None frames.

Definition lastCommit (frames : list WALFrame) : Z :=
  foldl (λ acc f, if decide (fDBSize f ≠ 0) then fDBSize f else acc) 0 frames.

(** The loop state after the frames [done]. *)
Record collapse_inv (ps : Z) (done : list WALFrame) (s : gmap Z nat * list WALPage * Z) : Prop := {
  ci_nodup : NoDup (PageNo <$> s.1.2);
  ci_index n i : s.1.1 !! n = Some i ↔ (PageNo <$> s.1.2) !! i = Some n;
  ci_last n : findPage n s.1.2 = lastWrite n done;
  ci_len : Forall (λ p, zlen (Data p) = ps) s.1.2;
  ci_commit : s.2 = lastCommit done;
}.

Lemma PageNo_alter (pages : list WALPage) (pos : nat) d :
  PageNo <$> alter (λ p, MkWALPage (PageNo p) d) pos pages = PageNo <$> pages.
Proof.
  revert pos. induction pages as [|p pages IH]; intros [|pos]; csimpl; try done. f_equal. apply IH.
Qed.

Lemma findPage_alter (pages : list WALPage) (pos : nat) d n m :
  NoDup (PageNo <$> pages) → (PageNo <$> pages) !! pos = Some m →
  findPage n (alter (λ p, MkWALPage (PageNo p) d) pos pages)
  = if decide (m = n) then Some d else findPage n pages.
Proof.
  revert pos. induction pages as [|p pages IH]; intros [|pos] Hnd Hpos; csimpl in *; simplify_eq.
  - simpl. by case_decide.
  - apply NoDup_cons in Hnd as [Hnot Hnd]. cbn [findPage]. rewrite (IH pos) by done.
    destruct (decide (PageNo p = n)) as [<-|]; [|done].
    rewrite decide_False; [done|]. intros ->. apply Hnot. by eapply list_elem_of_lookup_2.
Qed.

Lemma findPage_snoc pages p n :
  PageNo p ∉ PageNo <$> pages →
  findPage n (pages ++ [p]) = if decide (PageNo p = n) then Some (Data p) else findPage n pages.
Proof.
  induction pages as [|q pages IH]; intros Hnot; [done|].
  rewrite fmap_cons, not_elem_of_cons in Hnot. cbn [app findPage]. rewrite IH by tauto.
  repeat case_decide; try done. naive_solver.
Qed.

Lemma collapse_inv_step ps fs f index pages cm :
  zlen (fData f) = ps → collapse_inv ps fs (index, pages, cm) →
  let '(index', pages') :=
    match index !! fPageNo f with
    | Some pos => (index, alter (λ p, MkWALPage (PageNo p) (fData f)) pos pages)
    | None => (<[fPageNo f := length pages]> index, pages ++ [MkWALPage (fPageNo f) (fData f)])
    end in
  collapse_inv ps (fs ++ [f])
    (index', pages', if decide (fDBSize f ≠ 0) then fDBSize f else cm).
Proof.
  intros Hlen [Hnd Hix Hlast Hall Hcm]. simpl in *.
  assert (∀ n, lastWrite n (fs ++ [f])
               = if decide (fPageNo f = n) then Some (fData f) else lastWrite n fs) as Hlw.
  { intros n. unfold lastWrite. by rewrite foldl_app. }
  assert (lastCommit (fs ++ [f]) = if decide (fDBSize f ≠ 0) then fDBSize f else cm) as Hlc.
  { unfold lastCommit in *. rewrite foldl_app. simpl. by rewrite <-Hcm. }
  destruct (index !! fPageNo f) as [pos|] eqn:Hpos.
  - apply Hix in Hpos. split; simpl; [by rewrite PageNo_alter|by rewrite PageNo_alter| | |done].
    + intros n. rewrite (findPage_alter _ _ _ _ _ Hnd Hpos), Hlw. by rewrite Hlast.
    + apply Forall_alter; [done|]. by intros.
  - assert (fPageNo f ∉ PageNo <$> pages) as Hnot.
    { intros [i Hi]%list_elem_of_lookup. apply Hix in Hi. congruence. }
    split; simpl; [| | | |done].
    + rewrite fmap_app. apply NoDup_app. split_and!; [done|set_solver|apply NoDup_singleton].
    + intros n i. rewrite fmap_app, lookup_insert_Some, Hix, lookup_app_Some, length_fmap.
      assert (∀ m, (PageNo <$> pages) !! i = Some m → (i < length pages)%nat).
      { intros m ?%lookup_lt_Some. by rewrite length_fmap in *. }
      simpl. rewrite list_lookup_singleton_Some. naive_solver lia.
    + intros n. rewrite findPage_snoc, Hlw by done. by rewrite Hlast.
    + apply Forall_app_2; [done|]. by apply Forall_singleton.
Qed.

Lemma collapseFrames_inv ps ti fs frames s s' :
  collapse_inv ps fs s → collapseFrames ps ti frames s = Ok s' →
  collapse_inv ps (fs ++ frames) s'.
Proof.
  revert fs s. induction frames as [|f frames IH]; intros fs [[index pages] cm] Hs H.
  - simpl in H. simplify_eq. by rewrite app_nil_r.
  - cbn [collapseFrames] in H. inv_ok. rewrite bool_decide_eq_false in *.
    pose proof (collapse_inv_step ps fs f index pages cm ltac:(lia) Hs) as Hstep.
    destruct (index !! fPageNo f); apply (IH _ _ Hstep) in H; by rewrite <-app_assoc in H.
Qed.

Definition allFrames (txs : list WALTransaction) : list WALFrame := concat (Frames <$> txs).

Lemma collapseTxs_inv ps ti fs txs s s' :
  collapse_inv ps fs s → collapseTxs ps ti txs s = Ok s' →
  collapse_inv ps (fs ++ allFrames txs) s'.
Proof.
  unfold allFrames. revert ti fs s. induction txs as [|tx txs IH]; intros ti fs s Hs H.
  - simpl in H. simplify_eq. by rewrite app_nil_r.
  - cbn [collapseTxs] in H. inv_ok. rewrite fmap_cons. cbn [concat]. rewrite app_assoc.
    eapply IH; [|done]. by eapply collapseFrames_inv.
Qed.

Lemma pagemap_collapse ps txs cm pages :
  PageMapFromTransactions ps txs = Ok (cm, pages) →
  (∀ n, findPage n pages = lastWrite n (allFrames txs))
  ∧ cm = lastCommit (allFrames txs) ∧ encodable ps None pages.
Proof.
  intros H. unfold PageMapFromTransactions in H. inv_ok. destruct a as [[ix ps'] c].
  apply (collapseTxs_inv ps 0 []) in Ha as [Hnd _ Hlast Hall Hcm]; simpl in *.
  - inv_ok. simplify_eq. split_and!; [|done|split].
    + intros n. rewrite <-Hlast. symmetry. apply findPage_perm; [done|].
      by rewrite merge_sort_Permutation.
    + by apply sort_pages_ascending.
    + by rewrite merge_sort_Permutation.
  - split; simpl; try done. constructor.
Qed.

(** ** Properties *)

(** C38: [DecodeWALPageMap] inverts [EncodeWALPageMap], in the plain format and in
    the compressed one: page size, commit, transaction count and every page come
    back, for payloads that fit the format's 32-bit offsets. *)
Theorem DecodeWALPageMap_Encode compression ps cm tx pages buf :
  0 ≤ ps ≤ 2 ^ 30 → is_u32 cm → tx < 2 ^ 32 → Forall (λ p, is_u32 (PageNo p)) pages →
  zlen pages ≤ 2 ^ 31 / 12 → zlen buf < 2 ^ 32 →
  EncodeWALPageMap compression ps cm tx pages = Ok buf →
  DecodeWALPageMap buf = Ok (MkDecoded ps cm tx pages).
Proof. apply pagemap_roundtrip. Qed.

Definition witnessPages : list WALPage :=
  [MkWALPage 1 (bs "aaaaaaaaaaaaaaaaaaaaaaaaaaaa"); MkWALPage 3 (bs "abcdefghijklmnopqrstuvwxyz01")].

Lemma DecodeWALPageMap_Encode_witness :
  rbind (EncodeWALPageMap true 28 3 1 witnessPages) DecodeWALPageMap
  = Ok (MkDecoded 28 3 1 witnessPages).
Proof.
  destruct (EncodeWALPageMap true 28 3 1 witnessPages) as [buf|] eqn:E;
    [|vm_compute in E; discriminate E].
  apply (DecodeWALPageMap_Encode true 28 3 1 witnessPages buf); [lia|lia|lia| | | |done].
  - repeat constructor; vm_compute; intuition discriminate.
  - vm_compute. discriminate.
  - vm_compute in E. apply (inj Ok) in E as <-. vm_compute. reflexivity.
Defined.

(** A payload that [DecodeWALPageMap] accepts has a positive page size,
    strictly ascending page numbers and pages of exactly that size. *)
Theorem DecodeWALPageMap_valid payload d :
  DecodeWALPageMap payload = Ok d →
  0 < dPageSize d ∧ ascending None (PageNo <$> dPages d)
  ∧ Forall (λ p, zlen (Data p) = dPageSize d ∧ is_u32 (PageNo p)) (dPages d).
Proof. apply pagemap_valid. Qed.

Definition witnessPayload : bytes :=
  walPageMapMagic ++ be_enc 4 2 ++ be_enc 4 9 ++ be_enc 4 1 ++ be_enc 4 2
    ++ be_enc 4 5 ++ bs "ab" ++ be_enc 4 9 ++ bs "cd".

Lemma DecodeWALPageMap_valid_witness :
  0 < 2 ∧ ascending None [5; 9]
  ∧ Forall (λ p, zlen (Data p) = 2 ∧ is_u32 (PageNo p)) [MkWALPage 5 (bs "ab"); MkWALPage 9 (bs "cd")].
Proof.
  apply (DecodeWALPageMap_valid witnessPayload
    (MkDecoded 2 9 1 [MkWALPage 5 (bs "ab"); MkWALPage 9 (bs "cd")])).
  vm_compute. reflexivity.
Defined.

(** Reading one page by its index entry agrees with decoding the payload:
    [PageMapLookup] returns the page that the full decode holds, or none, and
    [PageMapNumbers] lists the decoded page numbers. *)
Theorem PageMapLookup_Decode payload d n :
  DecodeWALPageMap payload = Ok d →
  PageMapLookup payload n = Ok (findPage n (dPages d))
  ∧ PageMapNumbers payload = Ok (PageNo <$> dPages d).
Proof. apply pagemap_lookup. Qed.

Lemma PageMapLookup_Decode_witness :
  PageMapLookup witnessPayload 9 = Ok (Some (bs "cd")) ∧ PageMapNumbers witnessPayload = Ok [5; 9].
Proof.
  apply (PageMapLookup_Decode witnessPayload
    (MkDecoded 2 9 1 [MkWALPage 5 (bs "ab"); MkWALPage 9 (bs "cd")]) 9).
  vm_compute. reflexivity.
Defined.

(** Collapsing transactions keeps the last write of every page: each page of
    the result is the data of the last frame that wrote it, no other page
    appears, the pages ascend and have the page size, and the commit is the last
    non-zero database size. *)
Theorem PageMapFromTransactions_spec ps txs cm pages :
  PageMapFromTransactions ps txs = Ok (cm, pages) →
  (∀ n, findPage n pages = lastWrite n (allFrames txs))
  ∧ cm = lastCommit (allFrames txs) ∧ encodable ps None pages.
Proof. apply pagemap_collapse. Qed.

Lemma PageMapFromTransactions_spec_witness :
  (∀ n, findPage n [MkWALPage 1 (bs "ef"); MkWALPage 2 (bs "cd")]
        = lastWrite n (allFrames witnessTxs))
  ∧ 2 = lastCommit (allFrames witnessTxs)
  ∧ encodable 2 None [MkWALPage 1 (bs "ef"); MkWALPage 2 (bs "cd")].
Proof. apply PageMapFromTransactions_spec. vm_compute. reflexivity. Defined.
