(* ===== verification/SnapshotParts.v ===== *)
(** * Paged snapshots ([internal/ltx/snapshot_parts.go])

    A full-page snapshot that does not fit in one object is cut into parts, each
    a [KindSnapshot] segment whose flags carry its part number. The theorems say
    that the cut is total on complete page lists, that reading the parts back
    gives the pages, and how large a part's payload can be. *)

From S2P Require Import Prelude Lz4 Ltx WalPayload PageMap.

Definition DefaultSnapshotPartBytes : Z := Z.shiftl 8 20.
Definition MaxSnapshotParts : Z := Z.shiftl 1 15.

Inductive partError : Set :=
| ErrNotSnapshot
| ErrPartPageSize
| ErrNoPages
| ErrBudget
| ErrPageCount
| ErrPartRange
| ErrTooManyParts
| ErrEmptyPart
| ErrCovers
| ErrFirstStart
| ErrLaterStart
| ErrLastEnd
| ErrNotContiguous (pgno want : Z)
| ErrPartPageLength (pgno : Z)
| ErrPageMap (e : PageMap.error).

(** The page loop of [EncodeSnapshotPart]; [want] is [first + uint64(i)]. *)
Fixpoint checkContiguous (ps want : Z) (pages : list WALPage) : result partError unit :=
  match pages with
  | [] => Ok tt
  | p :: pages =>
      reject (bool_decide (PageNo p ≠ want)) (ErrNotContiguous (PageNo p) want) ;;ᵣ
      reject (bool_decide (zlen (Data p) ≠ ps)) (ErrPartPageLength (PageNo p)) ;;ᵣ
      checkContiguous ps (u64 (want + 1)) pages
  end.

Definition EncodeSnapshotPart (compression : bool) (h : Header) (ps cm : Z)
    (pages : list WALPage) (partIndex total : Z) : result partError bytes :=
  reject (bool_decide (hKind h ≠ KindSnapshot)) ErrNotSnapshot ;;ᵣ
  reject (bool_decide (ps = 0)) ErrPartPageSize ;;ᵣ
  reject (bool_decide (cm = 0)) ErrNoPages ;;ᵣ
  reject (bool_decide (total < 1 ∨ partIndex < 0 ∨ total ≤ partIndex)) ErrPartRange ;;ᵣ
  reject (bool_decide (MaxSnapshotParts < total)) ErrTooManyParts ;;ᵣ
  match pages with
  | [] => Err ErrEmptyPart
  | p0 :: _ =>
      let first := PageNo p0 in
      let last := u64 (first + zlen pages - 1) in
      reject (bool_decide (first < 1 ∨ cm < last)) ErrCovers ;;ᵣ
      reject (bool_decide (partIndex = 0 ∧ first ≠ 1)) ErrFirstStart ;;ᵣ
      reject (bool_decide (0 < partIndex ∧ first = 1)) ErrLaterStart ;;ᵣ
      reject (bool_decide (partIndex = total - 1 ∧ last ≠ cm)) ErrLastEnd ;;ᵣ
      checkContiguous ps first pages ;;ᵣ
      let ph := setFlags h (if decide (total = 1) then 0 else SnapshotFlags partIndex) in
      payload ←ᵣ rmap_err ErrPageMap (EncodeWALPageMap compression ps cm 1 pages);
      Ok (Encode ph payload)
  end.

(** One turn of the part loop: the next page position and the parts so far. *)
Definition partsTurn (compression : bool) (h : Header) (ps cm : Z) (pages : list WALPage)
    (perPart total : Z) (s : Z * list bytes) : turn (Z * list bytes) (result partError (list bytes)) :=
  let '(i, parts) := s in
  if decide (i < zlen pages) then
    let end_ := i + perPart in
    let end_ := if decide (zlen pages < end_) then zlen pages else end_ in
    match EncodeSnapshotPart compression h ps cm (slice pages i end_) (i / perPart) total with
    | Err e => Return (Err e)
    | Ok segment => Continue (i + perPart, parts ++ [segment])
    end
  else Return (Ok parts).

(** The number of pages that one part takes. *)
Definition pagesPerPart (ps maxBytes : Z) : Z :=
  let perPart := Z.quot (maxBytes - HeaderSize - 20) (4 + ps) in
  if decide (perPart < 1) then 1 else perPart.

Definition EncodeSnapshotParts (compression : bool) (h : Header) (ps cm : Z)
    (pages : list WALPage) (maxBytes : Z) : result partError (list bytes) :=
  reject (bool_decide (hKind h ≠ KindSnapshot)) ErrNotSnapshot ;;ᵣ
  reject (bool_decide (ps = 0)) ErrPartPageSize ;;ᵣ
  reject (bool_decide (cm = 0)) ErrNoPages ;;ᵣ
  reject (bool_decide (maxBytes < HeaderSize + 20 + (4 + ps))) ErrBudget ;;ᵣ
  reject (bool_decide (u32 (zlen pages) ≠ cm)) ErrPageCount ;;ᵣ
  let perPart := pagesPerPart ps maxBytes in
  let total := Z.quot (zlen pages + perPart - 1) perPart in
  run (partsTurn compression h ps cm pages perPart total)
      (λ s, Z.to_nat (zlen pages - s.1)) (Err ErrEmptyPart) (0, []).

Example snapshot_parts_two :
  length <$> (match EncodeSnapshotParts true (MkHeader 1 KindSnapshot 0 1 5 9 0 0) 2 3
           [MkWALPage 1 (bs "ab"); MkWALPage 2 (bs "cd"); MkWALPage 3 (bs "ef")] 76 with
         Ok parts => Some parts | Err _ => None end) = Some 2%nat.
Proof. vm_compute. reflexivity. Qed.

#[global] Arguments EncodeSnapshotPart : simpl never.
#[global] Arguments partsTurn : simpl never.

(** ** One part *)

Lemma EncodeWALPageMap_total compression ps cm tx pages :
  ps ≠ 0 → 0 < tx → encodable ps None pages →
  ∃ buf, EncodeWALPageMap compression ps cm tx pages = Ok buf.
Proof.
  intros Hps Htx Henc. destruct compression; unfold EncodeWALPageMap, encodeWALPageMapV1; cbn [negb].
  - rewrite !bool_decide_eq_false_2 by lia. cbn [reject rbind].
    rewrite encodePages_complete by done. cbn [rbind]. eauto.
  - rewrite !bool_decide_eq_false_2 by lia. cbn [reject rbind].
    rewrite encodePagesV1_complete by done. cbn [rbind]. eauto.
Qed.

(** The size of an encoded page map: the index takes at most 12 bytes a page. *)
Lemma zlen_EncodeWALPageMap compression ps cm tx pages buf :
  0 < ps ≤ 2 ^ 30 → EncodeWALPageMap compression ps cm tx pages = Ok buf →
  zlen buf ≤ 24 + zlen pages * (12 + ps).
Proof.
  intros Hps H. destruct compression; unfold EncodeWALPageMap, encodeWALPageMapV1 in H;
    cbn [negb] in H; inv_ok.
  - destruct a as [locs fr]. apply encodePages_Ok in Ha as ([_ Hf] & -> & ->). inv_ok. subst buf.
    pose proof (zlen_frameBytes_le ps pages Hps Hf). cbn [app] in *.
    autorewrite with go. rewrite !Nat2Z.inj_add, zlen_putLocs, length_locsFrom.
    change (zlen walPageMapV2Magic) with 4. lia.
  - apply encodePagesV1_Ok in Ha as [[_ Hf] ->]. subst buf. pose proof (zlen_bodyV1 ps pages Hf).
    autorewrite with go. rewrite !Nat2Z.inj_add. change (zlen walPageMapMagic) with 4. lia.
Qed.

Lemma checkContiguous_seq ps first pages :
  0 ≤ first → first + zlen pages < 2 ^ 64 → PageNo <$> pages = seqZ first (zlen pages) →
  Forall (λ p, zlen (Data p) = ps) pages → checkContiguous ps first pages = Ok tt.
Proof.
  intros Hlo Hhi Hseq Hf. revert first Hlo Hhi Hseq.
  induction Hf as [|p pages Hp Hf IH]; intros first Hlo Hhi Hseq; [done|].
  rewrite fmap_cons, seqZ_cons in Hseq by len. injection Hseq as Hn Hseq.
  cbn [checkContiguous]. rewrite !bool_decide_eq_false_2 by lia. cbn [reject rbind].
  rewrite u64_id by len. apply IH; [lia|len|].
  rewrite Hseq. f_equal; simpl length; lia.
Qed.

Lemma seq_ascending first n prev :
  from_option (λ m, m < first) True prev → ascending prev (seqZ first (Z.of_nat n)).
Proof.
  revert first prev. induction n as [|n IH]; intros first prev Hprev; [done|].
  rewrite seqZ_cons by lia. split; [done|].
  replace (Z.pred (Z.of_nat (S n))) with (Z.of_nat n) by lia. apply IH. simpl. lia.
Qed.

(** The flags of part [k] of [total]. *)
Definition partFlags (total k : Z) : Z := if decide (total = 1) then 0 else SnapshotFlags k.

(** A part holds a non-empty run of the pages of the snapshot. *)
Record part_ok (ps cm first k total : Z) (g : list WALPage) : Prop := {
  po_seq : PageNo <$> g = seqZ first (zlen g);
  po_len : Forall (λ p, zlen (Data p) = ps) g;
  po_first : 1 ≤ first;
  po_last : first ≤ first + zlen g - 1 ≤ cm;
  po_index : 0 ≤ k < total ∧ total ≤ MaxSnapshotParts;
  po_head : k = 0 ↔ first = 1;
  po_tail : k = total - 1 → first + zlen g - 1 = cm;
}.

Lemma EncodeSnapshotPart_total compression h ps cm first k total g :
  hKind h = KindSnapshot → 0 < ps → 0 < cm < 2 ^ 32 → part_ok ps cm first k total g →
  ∃ payload, EncodeWALPageMap compression ps cm 1 g = Ok payload
    ∧ EncodeSnapshotPart compression h ps cm g k total
      = Ok (Encode (setFlags h (partFlags total k)) payload).
Proof.
  intros Hk Hps Hcm [Hseq Hlen Hfirst Hlast Hidx Hhead Htail].
  destruct (EncodeWALPageMap_total compression ps cm 1 g) as [payload Hp]; [lia|lia| |].
  { split; [|done]. rewrite Hseq. by apply seq_ascending. }
  exists payload. split; [done|]. destruct g as [|p0 g]; [simpl in *; lia|].
  assert (PageNo p0 = first) as Hp0.
  { rewrite fmap_cons, seqZ_cons in Hseq by len. by injection Hseq. }
  unfold EncodeSnapshotPart. rewrite Hp0, u64_id, checkContiguous_seq, Hp by (done || lia).
  rewrite !bool_decide_eq_false_2 by (tauto || lia). done.
Qed.

(** ** Reading parts back *)

(** What a reader gets from one part. *)
Definition readPart (seg : bytes) : option (Header * decoded) :=
  match Decode seg with
  | Ok (h, payload) =>
      match DecodeWALPageMap payload with
      | Ok d => Some (h, d)
      | Err _ => None
      end
  | Err _ => None
  end.

Lemma setFlags_wf h f : wf_header h → is_u16 f → wf_header (setFlags h f).
Proof. intros []. by split. Qed.

Lemma partFlags_part h total k p :
  hKind h = KindSnapshot → 0 ≤ k < total → total ≤ MaxSnapshotParts →
  is_u16 (partFlags total k)
  ∧ SnapshotPart (stamp (setFlags h (partFlags total k)) p) = if decide (total = 1) then None else Some k.
Proof.
  intros Hk Hlt Hmax. unfold partFlags. case_decide as Ht.
  - split; [lia|]. unfold SnapshotPart. by rewrite decide_True by (right; done).
  - change MaxSnapshotParts with (2 ^ 15) in Hmax.
    destruct (snapshot_flags h k) as [Hp Hf]; [done|lia|]. split; [done|].
    by unfold SnapshotPart in *.
Qed.

Lemma readPart_Encode compression h ps cm g payload :
  wf_header h → 0 < ps → is_u32 cm → Forall (λ p, is_u32 (PageNo p)) g →
  zlen g * (4 + ps) ≤ 2 ^ 29 → g ≠ [] →
  EncodeWALPageMap compression ps cm 1 g = Ok payload →
  readPart (Encode h payload) = Some (stamp h payload, MkDecoded ps cm 1 g).
Proof.
  intros Hh Hps Hcm Hno Hsize Hne Henc. unfold readPart.
  assert (0 < zlen g) as Hg by (destruct g; [done|simpl length; lia]).
  pose proof (zlen_EncodeWALPageMap compression ps cm 1 g payload ltac:(nia) Henc) as Hb.
  rewrite <-(app_nil_r (Encode h payload)), ltx_roundtrip by (done || nia).
  rewrite (pagemap_roundtrip compression ps cm 1 g payload); try done; try nia.
  change (2 ^ 31 / 12) with 178956970. nia.
Qed.

(** ** The part loop *)

Section partLoop.
Context (compression : bool) (h : Header) (ps cm : Z) (pages : list WALPage) (perPart : Z).
Context (Hkind : hKind h = KindSnapshot) (Hwf : wf_header h) (Hps : 0 < ps) (Hcm : 0 < cm < 2 ^ 32).
Context (Hseq : PageNo <$> pages = seqZ 1 cm) (Hlen : Forall (λ p, zlen (Data p) = ps) pages).
Lemma pages_count : zlen pages = cm.
Proof. rewrite <-(length_fmap PageNo), Hseq, length_seqZ. lia. Qed.

Context (Hper : 1 ≤ perPart) (Hsize : perPart * (4 + ps) ≤ 2 ^ 29).

Let total : Z := Z.quot (zlen pages + perPart - 1) perPart.
Context (Hmax : total ≤ MaxSnapshotParts).

Lemma total_spec : (total - 1) * perPart < cm ≤ total * perPart ∧ 1 ≤ total.
Proof.
  pose proof pages_count. unfold total.
  pose proof (Z.quot_rem' (zlen pages + perPart - 1) perPart) as Hq.
  pose proof (Z.rem_bound_pos (zlen pages + perPart - 1) perPart ltac:(lia) ltac:(lia)). nia.
Qed.

(** The group of pages that turn [k] encodes is a legal part. *)
Lemma group_ok k :
  0 ≤ k → k * perPart < cm →
  let j := if decide (zlen pages < k * perPart + perPart) then zlen pages else k * perPart + perPart in
  k * perPart < j ≤ cm ∧ j ≤ k * perPart + perPart
  ∧ part_ok ps cm (k * perPart + 1) k total (slice pages (k * perPart) j).
Proof.
  intros Hk Hlt j. pose proof pages_count as Hn. pose proof total_spec as Ht.
  assert (k * perPart < j ≤ cm ∧ j ≤ k * perPart + perPart
          ∧ (k = total - 1 → j = cm)) as (Hj & Hj' & Hlast).
  { unfold j. case_decide; split_and!; nia. }
  split_and!; [lia..|]. assert (zlen (slice pages (k * perPart) j) = j - k * perPart) as Hz.
  { apply length_slice; lia. }
  split; [| |lia|lia| | |].
  - rewrite fmap_slice, Hseq, slice_seqZ, Hz by lia. f_equal. lia.
  - unfold slice. apply Forall_take. by apply Forall_drop.
  - split; [nia|done].
  - nia.
  - intros ->%Hlast. lia.
Qed.

(** What the reader of part [k] sees besides its pages. *)
Definition partMeta (k : nat) (r : Header * decoded) : Prop :=
  SnapshotPart r.1 = (if decide (total = 1) then None else Some (Z.of_nat k))
  ∧ hKind r.1 = hKind h ∧ hEpoch r.1 = hEpoch h
  ∧ hStartTxID r.1 = hStartTxID h ∧ hEndTxID r.1 = hEndTxID h
  ∧ dPageSize r.2 = ps ∧ dCommit r.2 = cm ∧ dTxCount r.2 = 1.

Definition partsRead (parts : list bytes) (upto : Z) : Prop :=
  ∃ ds, mapM readPart parts = Some ds ∧ concat ((λ r, dPages r.2) <$> ds) = slice pages 0 upto
    ∧ ∀ k r, ds !! k = Some r → partMeta k r.

Lemma partsTurn_step k parts :
  k * perPart < cm → k = zlen parts → partsRead parts (k * perPart) →
  ∃ seg j, partsTurn compression h ps cm pages perPart total (k * perPart, parts)
           = Continue (k * perPart + perPart, parts ++ [seg])
    ∧ partsRead (parts ++ [seg]) j ∧ j = Z.min cm (k * perPart + perPart).
Proof.
  intros Hlt Hk (ds & Hds & Hcat & Hmeta). pose proof pages_count as Hn. unfold partsTurn.
  destruct (group_ok k ltac:(lia) Hlt) as (Hj & Hj' & Hok).
  set (j := if decide (zlen pages < _) then _ else _) in *. rewrite decide_True by lia.
  rewrite Z.div_mul by lia. set (g := slice pages (k * perPart) j) in *.
  assert (zlen g = j - k * perPart) as Hg by (apply length_slice; lia).
  destruct (EncodeSnapshotPart_total compression h ps cm _ _ _ g Hkind Hps Hcm Hok)
    as (payload & Hpay & ->).
  destruct (partFlags_part h total k payload Hkind) as [Hflags Hpart]; [apply Hok..|].
  eexists _, j. split; [done|]. split; [|unfold j; destruct (decide (zlen pages < _)); lia].
  exists (ds ++ [(stamp (setFlags h (partFlags total k)) payload, MkDecoded ps cm 1 g)]).
  split_and!.
  - apply mapM_Some_2, Forall2_app; [by apply mapM_Some_1|].
    constructor; [|done]. apply (readPart_Encode compression); try done; try nia.
    + by apply setFlags_wf.
    + apply Forall_forall. intros p Hp. apply (list_elem_of_fmap_2 PageNo) in Hp.
      rewrite (po_seq _ _ _ _ _ _ Hok), elem_of_seqZ in Hp. lia.
    + intros ->. simpl in Hg. lia.
  - rewrite fmap_app, concat_app, Hcat. simpl. rewrite app_nil_r. unfold g.
    symmetry. apply slice_split; lia.
  - intros i r. rewrite lookup_app_Some, list_lookup_singleton_Some.
    apply length_mapM in Hds. intros [?|(Hle & Hi & <-)]; [by apply Hmeta|].
    replace i with (length ds) by lia. unfold partMeta. cbn [fst snd]. rewrite Hpart.
    replace k with (Z.of_nat (length ds)) by lia. split_and!; done.
Qed.

Lemma partsLoop_total dflt :
  ∃ parts, run (partsTurn compression h ps cm pages perPart total)
    (λ s, Z.to_nat (zlen pages - s.1)) dflt (0, []) = Ok parts
    ∧ partsRead parts cm ∧ zlen parts = total.
Proof.
  pose proof pages_count as Hn. pose proof total_spec as Ht.
  apply (run_ind _ _ _) with
    (I := λ s, s.1 = zlen s.2 * perPart ∧ partsRead s.2 (Z.min cm s.1)
               ∧ (zlen s.2 - 1) * perPart < cm)
    (Q := λ r, ∃ parts, r = Ok parts ∧ partsRead parts cm ∧ zlen parts = total).
  - intros [i parts] s'. unfold partsTurn. case_decide; [|done].
    case_match; [|done]. intros <-%(inj Continue). simpl. lia.
  - intros [i parts] s' (Hi & Hread & Hlast) Hs. simpl in *.
    destruct (decide (i < cm)).
    + subst i. destruct (partsTurn_step (zlen parts) parts) as (seg & j & E & Hr & Hj);
        [done|done|by rewrite Z.min_r in Hread by lia|].
      rewrite E in Hs. apply (inj Continue) in Hs as <-. simpl. rewrite length_app. simpl.
      split_and!; [lia|by rewrite <-Hj|lia].
    + unfold partsTurn in Hs. by rewrite decide_False in Hs by lia.
  - intros [i parts] r (Hi & Hread & Hlast) Hs. simpl in *.
    destruct (decide (i < cm)).
    + subst i. destruct (partsTurn_step (zlen parts) parts) as (seg & j & E & _);
        [done|done|by rewrite Z.min_r in Hread by lia|]. by rewrite E in Hs.
    + unfold partsTurn in Hs. rewrite decide_False in Hs by lia.
      apply (inj Return) in Hs as <-. exists parts. rewrite Z.min_l in Hread by lia.
      split_and!; [done|done|nia].
  - simpl. split_and!; [done| |lia]. exists []. rewrite Z.min_r by lia. split_and!; [done|done|].
    by intros k r ?.
Qed.
End partLoop.

Lemma pagesPerPart_spec ps maxBytes :
  0 < ps → HeaderSize + 20 + (4 + ps) ≤ maxBytes →
  1 ≤ pagesPerPart ps maxBytes
  ∧ pagesPerPart ps maxBytes * (4 + ps) ≤ maxBytes - HeaderSize - 20.
Proof.
  intros Hps Hb. unfold pagesPerPart. unfold HeaderSize in *.
  pose proof (Z.quot_rem' (maxBytes - 44 - 20) (4 + ps)) as Hq.
  pose proof (Z.rem_bound_pos (maxBytes - 44 - 20) (4 + ps) ltac:(lia) ltac:(lia)).
  rewrite decide_False by nia. nia.
Qed.

Lemma total_bound n perPart k :
  1 ≤ perPart → 0 ≤ n → 0 ≤ k → n ≤ k * perPart → Z.quot (n + perPart - 1) perPart ≤ k.
Proof.
  intros Hp Hn Hk Hle. pose proof (Z.quot_rem' (n + perPart - 1) perPart) as Hq.
  pose proof (Z.rem_bound_pos (n + perPart - 1) perPart ltac:(lia) ltac:(lia)). nia.
Qed.

(** ** The size of a part *)

Definition sizeBound (compression : bool) (ps n : Z) : Z :=
  HeaderSize + if compression then 24 + n * (12 + ps) else 20 + n * (4 + ps).

Lemma zlen_EncodeSnapshotPart compression h ps cm g k total seg :
  0 < ps ≤ 2 ^ 30 → EncodeSnapshotPart compression h ps cm g k total = Ok seg →
  zlen seg ≤ sizeBound compression ps (zlen g).
Proof.
  intros Hps H. unfold EncodeSnapshotPart in H. inv_ok. destruct g as [|p0 g]; [done|].
  cbv zeta in H. inv_ok. rename a0 into payload. subst seg. rewrite zlen_Encode. unfold sizeBound.
  destruct compression.
  - pose proof (zlen_EncodeWALPageMap _ _ _ _ _ _ Hps Ha0). lia.
  - unfold EncodeWALPageMap, encodeWALPageMapV1 in Ha0. cbn [negb] in Ha0.
    apply reject_Ok in Ha0 as [_ Ha0]. apply reject_Ok in Ha0 as [_ Ha0].
    apply rbind_Ok in Ha0 as (body & Hbody & Ha0). apply (inj Ok) in Ha0 as <-.
    apply encodePagesV1_Ok in Hbody as [[_ Hf] ->].
    pose proof (zlen_bodyV1 ps (p0 :: g) Hf).
    rewrite !length_app, !length_be_enc. change (length walPageMapMagic) with 4%nat. lia.
Qed.

(** ** The whole cut *)

Lemma parts_read compression h ps cm pages maxBytes :
  hKind h = KindSnapshot → wf_header h → 0 < ps → 0 < cm < 2 ^ 32 →
  PageNo <$> pages = seqZ 1 cm → Forall (λ p, zlen (Data p) = ps) pages →
  HeaderSize + 20 + (4 + ps) ≤ maxBytes → maxBytes ≤ 2 ^ 29 →
  cm ≤ MaxSnapshotParts * pagesPerPart ps maxBytes →
  ∃ parts ds, EncodeSnapshotParts compression h ps cm pages maxBytes = Ok parts
    ∧ mapM readPart parts = Some ds ∧ concat ((λ r, dPages r.2) <$> ds) = pages
    ∧ zlen parts = Z.quot (cm + pagesPerPart ps maxBytes - 1) (pagesPerPart ps maxBytes)
    ∧ ∀ k r, ds !! k = Some r → partMeta h ps cm pages (pagesPerPart ps maxBytes) k r.
Proof.
  intros Hk Hwf Hps Hcm Hseq Hlen Hmin Hmax Hparts.
  pose proof (pages_count cm pages Hcm Hseq) as Hn.
  destruct (pagesPerPart_spec ps maxBytes Hps Hmin) as [Hper Hsize]. unfold HeaderSize in *.
  destruct (partsLoop_total compression h ps cm pages (pagesPerPart ps maxBytes)) with
    (dflt := @Err partError (list bytes) ErrEmptyPart) as (parts & Hrun & (ds & Hds & Hcat & Hmeta) & Htotal);
    try done; [lia| |].
  { change MaxSnapshotParts with 32768 in *. apply total_bound; lia. }
  exists parts, ds. split; [|split; [done|]].
  - unfold EncodeSnapshotParts. rewrite u32_id by lia. unfold HeaderSize.
    rewrite !bool_decide_eq_false_2 by (tauto || lia). exact Hrun.
  - rewrite Hn in Htotal. by rewrite Hcat, slice_all.
Qed.

Lemma checkContiguous_sized ps want g u :
  checkContiguous ps want g = Ok u → Forall (λ p, zlen (Data p) = ps) g.
Proof.
  revert want. induction g as [|p g IH]; intros want H; [constructor|]. cbn [checkContiguous] in H.
  inv_ok. rewrite !bool_decide_eq_false in *. constructor; [lia|by eapply IH].
Qed.

Lemma EncodeSnapshotPart_checked compression h ps cm g k total seg :
  EncodeSnapshotPart compression h ps cm g k total = Ok seg →
  total ≤ MaxSnapshotParts ∧ Forall (λ p, zlen (Data p) = ps) g.
Proof.
  intros H. unfold EncodeSnapshotPart in H. inv_ok. destruct g as [|p0 g]; [done|].
  cbv zeta in H. inv_ok. rewrite !bool_decide_eq_false in *. split; [lia|].
  by eapply checkContiguous_sized.
Qed.

(** What a successful cut has checked. *)
Lemma parts_checked compression h ps cm pages maxBytes parts :
  0 < ps → EncodeSnapshotParts compression h ps cm pages maxBytes = Ok parts →
  hKind h = KindSnapshot ∧ HeaderSize + 20 + (4 + ps) ≤ maxBytes
  ∧ Forall (λ p, zlen (Data p) = ps) pages ∧ zlen pages ≤ MaxSnapshotParts * pagesPerPart ps maxBytes.
Proof.
  intros Hps H. unfold EncodeSnapshotParts in H. inv_ok. rewrite !bool_decide_eq_false in *.
  destruct (pagesPerPart_spec ps maxBytes) as [Hper _]; [lia|lia|].
  split; [by apply dec_stable|]. split; [lia|]. revert H. cbv zeta.
  set (perPart := pagesPerPart ps maxBytes) in *.
  set (total := Z.quot (zlen pages + perPart - 1) perPart).
  assert (zlen pages ≤ total * perPart) as Htot.
  { pose proof (Z.quot_rem' (zlen pages + perPart - 1) perPart) as Hq. fold total in Hq.
    pose proof (Z.rem_bound_pos (zlen pages + perPart - 1) perPart ltac:(lia) ltac:(lia)). lia. }
  apply run_ind with
    (I := λ s, 0 ≤ s.1 ∧ Forall (λ p, zlen (Data p) = ps) (slice pages 0 s.1)
               ∧ (0 < s.1 → total ≤ MaxSnapshotParts))
    (Q := λ r, r = Ok parts → Forall _ pages ∧ _).
  - intros [i ps'] s'. unfold partsTurn. case_decide; [|done].
    case_match; [|done]. intros <-%(inj Continue). simpl. lia.
  - intros [i ps'] s' (Hi & Hf & _). unfold partsTurn. destruct (decide (i < zlen pages)); [|done].
    destruct (EncodeSnapshotPart _ _ _ _ _ _ _) eqn:Hs; [|done].
    intros <-%(inj Continue). cbn [fst snd] in *. apply EncodeSnapshotPart_checked in Hs as [Ht Hg].
    split_and!; [lia| |done]. rewrite (slice_split pages 0 i) by lia. apply Forall_app_2; [done|].
    destruct (decide (zlen pages < i + perPart)); [|done].
    unfold slice in *. rewrite take_ge in Hg by (rewrite length_drop; lia).
    by rewrite take_ge by (rewrite length_drop; lia).
  - intros [i ps'] r (Hi & Hf & Ht). unfold partsTurn. destruct (decide (i < zlen pages)).
    + destruct (EncodeSnapshotPart _ _ _ _ _ _ _); [done|]. by intros <-%(inj Return).
    + intros <-%(inj Return) _. cbn [fst] in *. split.
      * unfold slice in Hf. rewrite drop_0, take_ge in Hf by lia. done.
      * destruct (decide (0 < i)) as [Hpos|]; [specialize (Ht Hpos); nia|].
        change MaxSnapshotParts with 32768. lia.
  - by split_and!.
Qed.

(** Each part is exactly one encoded segment. *)
Lemma EncodeSnapshotPart_exact compression h ps cm g k total seg :
  wf_header h → 0 < ps ≤ 2 ^ 30 → zlen g ≤ 2 ^ 31 → EncodeSnapshotPart compression h ps cm g k total = Ok seg →
  Split seg = Ok [seg].
Proof.
  intros Hwf Hps Hg H. pose proof (zlen_EncodeSnapshotPart _ _ _ _ _ _ _ _ Hps H) as Hsize.
  unfold EncodeSnapshotPart in H. inv_ok. destruct g as [|p0 g]; [done|]. cbv zeta in H. inv_ok.
  rename a0 into payload. rewrite !bool_decide_eq_false in *. subst seg. rewrite zlen_Encode in Hsize.
  set (ph := setFlags h _). pose proof (split_roundtrip [(ph, payload)]) as Hs. simpl in Hs. unfold encodeSeg in Hs.
  simpl in Hs. rewrite app_nil_r in Hs. apply Hs. constructor; [|done]. split; cbn [fst snd].
  - apply setFlags_wf; [done|]. destruct (partFlags_part h total k payload) as [Hf _]; [by apply dec_stable|lia|lia|].
    exact Hf.
  - unfold sizeBound, HeaderSize in Hsize. destruct compression; nia.
Qed.

Lemma parts_exact compression h ps cm pages maxBytes parts :
  wf_header h → 0 < ps → maxBytes ≤ 2 ^ 29 → EncodeSnapshotParts compression h ps cm pages maxBytes = Ok parts →
  Forall (λ s, Split s = Ok [s]) parts.
Proof.
  intros Hwf Hps Hmax H. unfold EncodeSnapshotParts in H. inv_ok. rewrite !bool_decide_eq_false in *.
  unfold HeaderSize in *. destruct (pagesPerPart_spec ps maxBytes) as [Hper Hsize]; [lia|unfold HeaderSize; lia|].
  unfold HeaderSize in Hsize. revert H. cbv zeta. set (perPart := pagesPerPart ps maxBytes) in *.
  apply run_ind with
    (I := λ s, 0 ≤ s.1 ∧ Forall (λ s, Split s = Ok [s]) s.2) (Q := λ r, r = Ok parts → Forall _ parts).
  - intros [i ps'] s'. unfold partsTurn. case_decide; [|done].
    case_match; [|done]. intros <-%(inj Continue). simpl. lia.
  - intros [i ps'] s' [Hi Hf]. unfold partsTurn. destruct (decide (i < zlen pages)); [|done].
    destruct (EncodeSnapshotPart _ _ _ _ _ _ _) eqn:Hs; [|done].
    intros <-%(inj Continue). cbn [fst snd] in *. split; [lia|].
    apply Forall_app_2; [done|]. apply Forall_singleton.
    apply EncodeSnapshotPart_exact in Hs; [done|done|lia|].
    rewrite length_slice by (case_decide; lia). destruct (decide (zlen pages < i + perPart)); nia.
  - intros [i ps'] r [_ Hf]. unfold partsTurn. destruct (decide (i < zlen pages)).
    + destruct (EncodeSnapshotPart _ _ _ _ _ _ _); [done|]. by intros <-%(inj Return).
    + by intros <-%(inj Return) [= <-].
  - by split.
Qed.

(** ** Properties *)

(** Cutting a complete snapshot (pages 1 to [cm], all of the page size) into
    parts within a budget succeeds, and reading every part back with [Decode] and
    [DecodeWALPageMap] gives the pages of the snapshot in order; every part
    carries the snapshot's header, its own part number and the full commit. *)
Theorem EncodeSnapshotParts_read compression h ps cm pages maxBytes :
  hKind h = KindSnapshot → wf_header h → 0 < ps → 0 < cm < 2 ^ 32 →
  PageNo <$> pages = seqZ 1 cm → Forall (λ p, zlen (Data p) = ps) pages →
  HeaderSize + 20 + (4 + ps) ≤ maxBytes → maxBytes ≤ 2 ^ 29 →
  cm ≤ MaxSnapshotParts * pagesPerPart ps maxBytes →
  ∃ parts ds, EncodeSnapshotParts compression h ps cm pages maxBytes = Ok parts
    ∧ mapM readPart parts = Some ds ∧ concat ((λ r, dPages r.2) <$> ds) = pages
    ∧ zlen parts = Z.quot (cm + pagesPerPart ps maxBytes - 1) (pagesPerPart ps maxBytes)
    ∧ ∀ k r, ds !! k = Some r → partMeta h ps cm pages (pagesPerPart ps maxBytes) k r.
Proof. apply parts_read. Qed.

Definition snapshotHeader : Header := MkHeader 1 KindSnapshot 0 3 1 9 0 0.

Lemma snapshotHeader_wf : wf_header snapshotHeader.
Proof. split; vm_compute; intuition discriminate. Qed.

(** [n] pages of one byte. *)
Definition bytePages (n : Z) : list WALPage := (λ i, MkWALPage i (bs "x")) <$> seqZ 1 n.

Lemma EncodeSnapshotParts_read_witness :
  ∃ parts ds, EncodeSnapshotParts true snapshotHeader 1 5 (bytePages 5) 75 = Ok parts
    ∧ mapM readPart parts = Some ds ∧ concat ((λ r, dPages r.2) <$> ds) = bytePages 5
    ∧ zlen parts = Z.quot (5 + pagesPerPart 1 75 - 1) (pagesPerPart 1 75)
    ∧ ∀ k r, ds !! k = Some r →
        partMeta snapshotHeader 1 5 (bytePages 5) (pagesPerPart 1 75) k r.
Proof.
  apply EncodeSnapshotParts_read; try (vm_compute; intuition discriminate).
  - apply snapshotHeader_wf.
  - vm_compute. repeat constructor.
Defined.

(** The size of a part. With plain page maps every part fits the budget; with
    compressed page maps the index of a part can take it [4 + 8 * perPart] bytes
    past the budget. *)
Theorem EncodeSnapshotParts_size compression h ps cm pages maxBytes parts :
  0 < ps ≤ 2 ^ 30 → EncodeSnapshotParts compression h ps cm pages maxBytes = Ok parts →
  Forall (λ seg, zlen seg ≤ maxBytes + if compression then 4 + 8 * pagesPerPart ps maxBytes else 0) parts.
Proof.
  intros Hps H. unfold EncodeSnapshotParts in H. inv_ok. rewrite !bool_decide_eq_false in *.
  destruct (pagesPerPart_spec ps maxBytes) as [Hper Hsize]; [lia|lia|].
  revert H. cbv zeta. set (perPart := pagesPerPart ps maxBytes) in *.
  apply run_ind with
    (I := λ s, 0 ≤ s.1 ∧ Forall (λ seg, zlen seg ≤ maxBytes + if compression then 4 + 8 * perPart else 0) s.2)
    (Q := λ r, r = Ok parts → Forall _ parts).
  - intros [i ps'] s'. unfold partsTurn. case_decide; [|done].
    case_match; [|done]. intros <-%(inj Continue). simpl. lia.
  - intros [i ps'] s' [Hi Hf]. unfold partsTurn. destruct (decide (i < zlen pages)); [|done].
    destruct (EncodeSnapshotPart _ _ _ _ _ _ _) eqn:Hs; [|done].
    intros <-%(inj Continue). cbn [fst snd] in *. split; [lia|].
    apply Forall_app_2; [done|]. apply Forall_singleton.
    apply zlen_EncodeSnapshotPart in Hs; [|done]. etrans; [done|].
    rewrite length_slice by (case_decide; lia). unfold sizeBound.
    destruct compression, (decide (zlen pages < i + perPart)); nia.
  - intros [i ps'] r [_ Hf]. unfold partsTurn. destruct (decide (i < zlen pages)).
    + destruct (EncodeSnapshotPart _ _ _ _ _ _ _); [done|]. by intros <-%(inj Return).
    + by intros <-%(inj Return) [= <-].
  - by split.
Qed.

Lemma EncodeSnapshotParts_size_witness :
  match EncodeSnapshotParts true snapshotHeader 1 5 (bytePages 5) 75 with
  | Ok parts => Forall (λ seg, zlen seg ≤ 75 + (4 + 8 * 2)) parts
  | Err _ => False
  end.
Proof.
  destruct (EncodeSnapshotParts true snapshotHeader 1 5 (bytePages 5) 75) as [parts|] eqn:E;
    [|vm_compute in E; discriminate E].
  exact (EncodeSnapshotParts_size true snapshotHeader 1 5 (bytePages 5) 75 parts ltac:(lia) E).
Defined.

(** The documented bound, a payload of at most [maxBytes], does not hold for
    compressed page maps: ten one-byte pages in a budget of 114 bytes give a
    single part whose payload has 154 bytes. *)
Example snapshot_part_over_budget :
  match EncodeSnapshotParts true snapshotHeader 1 10 (bytePages 10) 114 with
  | Ok [part] => zlen part - HeaderSize
  | _ => 0
  end = 154.
Proof. vm_compute. reflexivity. Qed.

(** The parts of a page list that is not [1..commit] are not always refused: the
    middle part may repeat a page. *)
Example snapshot_parts_overlap :
  match EncodeSnapshotParts true snapshotHeader 1 6
    ((λ i, MkWALPage i (bs "x")) <$> [1; 2; 2; 3; 5; 6]) 74 with
  | Ok parts => length parts
  | Err _ => 0%nat
  end = 3%nat.
Proof. vm_compute. reflexivity. Qed.
