(* ===== verification/Wal.v ===== *)
(** * Reading a SQLite write-ahead log ([internal/wal/wal.go])

    [Read] parses a whole file, [Poll] the part that was committed since the last
    call. The file system is an argument: which file a path names and what the
    calls on that file return. The theorems say that polling a growing log
    delivers exactly the frames that [Read] finds, each once and in order, that
    no frame with a wrong checksum is delivered, and that a new generation of the
    log is reported as a checkpoint. *)

From S2P Require Import Prelude.

Definition walHeaderSize : Z := 32.
Definition frameHdrSize : Z := 24.
Definition magicLE : Z := 0x377f0682.
Definition magicBE : Z := 0x377f0683.

Inductive walError : Set :=
| ErrNoWAL
| ErrWalChecksumHeader
| ErrWalChecksumFrame (i : Z)
| ErrBadMagic (m : Z)
| ErrWalPageSize
| ErrIO.

Record WalHeader := MkWalHeader {
  wMagic : Z;
  wVersion : Z;
  wPageSize : Z;
  wCheckpointSeq : Z;
  wSalt1 : Z;
  wSalt2 : Z;
  wChecksum1 : Z;
  wChecksum2 : Z;
}.

Record Frame := MkFrame {
  frPageNo : Z;
  frDBSize : Z;
  frData : bytes;
  frCommitted : bool;
}.

Record Transaction := MkTransaction {
  txFrames : list Frame;
  txDBSize : Z;
}.

Record Snapshot := MkSnapshot {
  snHeader : WalHeader;
  snFrames : list Frame;
  snCommitCount : Z;
  snTotalFrames : Z;
}.

Definition parseWalHeader (b : bytes) : result walError WalHeader :=
  reject (bool_decide (zlen b < walHeaderSize)) ErrNoWAL ;;ᵣ
  let h := MkWalHeader (rd32 b 0) (rd32 b 4) (rd32 b 8) (rd32 b 12)
                       (rd32 b 16) (rd32 b 20) (rd32 b 24) (rd32 b 28) in
  reject (bool_decide (wMagic h ≠ magicLE ∧ wMagic h ≠ magicBE)) (ErrBadMagic (wMagic h)) ;;ᵣ
  reject (bool_decide (wPageSize h = 0)) ErrWalPageSize ;;ᵣ
  Ok h.

(** [checksumBytes]: eight bytes a turn. *)
Fixpoint checksumBytes (b : bytes) (s1 s2 : Z) (big : bool) : Z * Z :=
  match b with
  | b0 :: b1 :: b2 :: b3 :: b4 :: b5 :: b6 :: b7 :: b =>
      let '(x, y) :=
        if big then (be_dec [b0; b1; b2; b3], be_dec [b4; b5; b6; b7])
        else (be_dec [b3; b2; b1; b0], be_dec [b7; b6; b5; b4]) in
      let s1 := u32 (s1 + u32 (x + s2)) in
      let s2 := u32 (s2 + u32 (y + s1)) in
      checksumBytes b s1 s2 big
  | _ => (s1, s2)
  end.

Definition checksumBig (h : WalHeader) : bool := bool_decide (Z.land (wMagic h) 1 = 1).

Definition headerChecksum (raw : bytes) (h : WalHeader) : Z * Z :=
  checksumBytes (slice raw 0 (walHeaderSize - 8)) 0 0 (checksumBig h).

Definition frameChecksum (fh page : bytes) (s1 s2 : Z) (big : bool) : Z * Z :=
  let '(s1, s2) := checksumBytes (slice fh 0 8) s1 s2 big in
  checksumBytes page s1 s2 big.

Definition frameSize (h : WalHeader) : Z := frameHdrSize + wPageSize h.

(** ** Read *)

(** What [os.ReadFile] returned. *)
Inductive readFile : Set :=
| FileBytes (b : bytes)
| FileAbsent
| FileError.

(** The state of the frame loop of [Read]. *)
Record readState := MkReadState {
  rsFrames : list Frame;
  rsLastCommit : Z;
  rsCommits : Z;
  rsBad : option walError;
}.

(** The frame loop of [Read], from frame [i] on, [n] frames to go. *)
Fixpoint readFrames (data : bytes) (h : WalHeader) (i : Z) (n : nat) (s1 s2 : Z)
    (st : readState) : readState :=
  match n with
  | O => st
  | S n =>
      let off := walHeaderSize + i * frameSize h in
      let fh := slice data off (off + frameHdrSize) in
      if decide (rd32 fh 8 ≠ wSalt1 h ∨ rd32 fh 12 ≠ wSalt2 h) then st else
      let page := slice data (off + frameHdrSize) (off + frameHdrSize + wPageSize h) in
      let '(ns1, ns2) := frameChecksum fh page s1 s2 (checksumBig h) in
      if decide (ns1 ≠ rd32 fh 16 ∨ ns2 ≠ rd32 fh 20) then
        MkReadState (rsFrames st) (rsLastCommit st) (rsCommits st) (Some (ErrWalChecksumFrame i))
      else
        let f := MkFrame (rd32 fh 0) (rd32 fh 4) page false in
        let '(lastCommit, commits) :=
          if decide (frDBSize f ≠ 0) then (i, rsCommits st + 1)
          else (rsLastCommit st, rsCommits st) in
        readFrames data h (i + 1) n ns1 ns2
          (MkReadState (rsFrames st ++ [f]) lastCommit commits (rsBad st))
  end.

Definition markCommitted (f : Frame) : Frame :=
  MkFrame (frPageNo f) (frDBSize f) (frData f) true.

(** [Read] returns a snapshot together with the error of the first bad frame. *)
Definition Read (file : readFile) : result walError (Snapshot * option walError) :=
  match file with
  | FileAbsent => Err ErrNoWAL
  | FileError => Err ErrIO
  | FileBytes data =>
      reject (bool_decide (zlen data < walHeaderSize)) ErrNoWAL ;;ᵣ
      h ←ᵣ parseWalHeader (slice data 0 walHeaderSize);
      let '(s1, s2) := headerChecksum (slice data 0 walHeaderSize) h in
      reject (bool_decide (s1 ≠ wChecksum1 h ∨ s2 ≠ wChecksum2 h)) ErrWalChecksumHeader ;;ᵣ
      if decide (zlen data < walHeaderSize + frameSize h) then Ok (MkSnapshot h [] 0 0, None) else
      let total := (zlen data - walHeaderSize) / frameSize h in
      let st := readFrames data h 0 (Z.to_nat total) s1 s2 (MkReadState [] (-1) 0 None) in
      if decide (rsLastCommit st < 0) then Ok (MkSnapshot h [] 0 total, rsBad st) else
      let committed := markCommitted <$> slice (rsFrames st) 0 (rsLastCommit st + 1) in
      Ok (MkSnapshot h committed (rsCommits st) total, rsBad st)
  end.

(** ** Cursor *)

Record PollResult := MkPollResult {
  prHeader : option WalHeader;
  prNewCommitted : list Frame;
  prTransactions : list Transaction;
  prCheckpoint : bool;
}.

(** The file system at the time of one [Poll]. [fsInode] is the file that a path
    names; [fsStat] and [fsReadAt] are what the calls on an open file return. A
    [ReadAt] of [len] bytes at [off] returns the bytes read and whether it failed;
    the file may change between two calls, so the answers need not agree. *)
Record fsView := MkFsView {
  fsInode : string → result bool Z; (* [Err true]: does not exist *)
  fsStat : Z → option Z;
  fsReadAt : Z → Z → Z → bytes * bool;
}.

Record Cursor := MkCursor {
  haveSalt : bool;
  salt1 : Z;
  salt2 : Z;
  cksum1 : Z;
  cksum2 : Z;
  haveCksum : bool;
  frameIdx : Z;
  cfile : option Z;
  cpath : string;
  bytesRead : Z;
}.

Definition NewCursor : Cursor := MkCursor false 0 0 0 0 false 0 None "" 0.

Definition reset (c : Cursor) : Cursor :=
  MkCursor false 0 0 0 0 false 0 (cfile c) (cpath c) (bytesRead c).

Definition Close (c : Cursor) : Cursor :=
  match cfile c with
  | None => c
  | Some _ => MkCursor (haveSalt c) (salt1 c) (salt2 c) (cksum1 c) (cksum2 c) (haveCksum c)
                       (frameIdx c) None "" (bytesRead c)
  end.

Definition Reset (c : Cursor) : Cursor := Close (reset c).

Definition withFile (c : Cursor) (f : option Z) (path : string) : Cursor :=
  MkCursor (haveSalt c) (salt1 c) (salt2 c) (cksum1 c) (cksum2 c) (haveCksum c)
           (frameIdx c) f path (bytesRead c).

(** [open] keeps the descriptor when the path still names the same file. *)
Definition open (fs : fsView) (c : Cursor) (path : string) : Cursor * result bool Z :=
  let reopen :=
    let c := Close c in
    match fsInode fs path with
    | Err e => (c, Err e)
    | Ok ino => (withFile c (Some ino) path, Ok ino)
    end in
  match cfile c with
  | Some ino =>
      if decide (cpath c = path) then
        match fsStat fs ino, fsInode fs path with
        | Some _, Ok now => if decide (ino = now) then (c, Ok ino) else reopen
        | _, _ => reopen
        end
      else reopen
  | None => reopen
  end.

Definition addBytesRead (c : Cursor) (n : Z) : Cursor :=
  MkCursor (haveSalt c) (salt1 c) (salt2 c) (cksum1 c) (cksum2 c) (haveCksum c)
           (frameIdx c) (cfile c) (cpath c) (u64 (bytesRead c + n)).

(** [readAt] into a buffer of [len] bytes. *)
Definition readAt (fs : fsView) (c : Cursor) (ino off len : Z) : Cursor * option bytes :=
  let '(b, failed) := fsReadAt fs ino off len in
  let c := addBytesRead c (zlen b) in
  if failed || negb (bool_decide (zlen b = len)) then (c, None) else (c, Some b).

(** The state of the frame loop of [Poll]. *)
Record pollState := MkPollState {
  psFrames : list Frame;
  psLastCommit : Z;
  psSum : Z * Z;
  psBad : bool;
}.

Fixpoint pollFrames (tail : bytes) (h : WalHeader) (i : Z) (n : nat) (s1 s2 : Z)
    (st : pollState) : pollState :=
  match n with
  | O => st
  | S n =>
      let off := i * frameSize h in
      let fh := slice tail off (off + frameHdrSize) in
      if decide (rd32 fh 8 ≠ wSalt1 h ∨ rd32 fh 12 ≠ wSalt2 h) then st else
      let page := slice tail (off + frameHdrSize) (off + frameHdrSize + wPageSize h) in
      let '(ns1, ns2) := frameChecksum fh page s1 s2 (checksumBig h) in
      if decide (ns1 ≠ rd32 fh 16 ∨ ns2 ≠ rd32 fh 20) then
        MkPollState (psFrames st) (psLastCommit st) (psSum st) true
      else
        let f := MkFrame (rd32 fh 0) (rd32 fh 4) page false in
        let '(lastCommit, sum) :=
          if decide (frDBSize f ≠ 0) then (zlen (psFrames st), (ns1, ns2))
          else (psLastCommit st, psSum st) in
        pollFrames tail h (i + 1) n ns1 ns2
          (MkPollState (psFrames st ++ [f]) lastCommit sum (psBad st))
  end.

(** The transactions of the committed frames; [cur] is [committed[start:i]]. *)
Fixpoint transactions (cur committed : list Frame) : list Transaction :=
  match committed with
  | [] => []
  | f :: committed =>
      if decide (frDBSize f = 0) then transactions (cur ++ [f]) committed
      else MkTransaction (cur ++ [f]) (frDBSize f) :: transactions [] committed
  end.

(** The cursor after the checkpoint detection of [Poll], and whether it reports one. *)
Definition syncCursor (c : Cursor) (h : WalHeader) (hs1 hs2 size : Z) : Cursor * bool :=
  let saltChanged := haveSalt c && bool_decide (salt1 c ≠ wSalt1 h ∨ salt2 c ≠ wSalt2 h) in
  if saltChanged || bool_decide (size < walHeaderSize + frameIdx c * frameSize h) then
    (MkCursor true (wSalt1 h) (wSalt2 h) hs1 hs2 true 0 (cfile c) (cpath c) (bytesRead c), true)
  else
    let '(k1, k2) := if haveCksum c then (cksum1 c, cksum2 c) else (hs1, hs2) in
    (MkCursor true (wSalt1 h) (wSalt2 h) k1 k2 true (frameIdx c) (cfile c) (cpath c) (bytesRead c),
     false).

Definition emptyResult (checkpoint : bool) : PollResult := MkPollResult None [] [] checkpoint.

(** The end of [Poll]: the new committed frames, and the cursor moved past them. *)
Definition deliver (c : Cursor) (h : WalHeader) (checkpoint : bool) (st : pollState)
    : Cursor * (PollResult * option walError) :=
  if decide (0 ≤ psLastCommit st) then
    let committed := markCommitted <$> slice (psFrames st) 0 (psLastCommit st + 1) in
    (MkCursor (haveSalt c) (salt1 c) (salt2 c) (psSum st).1 (psSum st).2 (haveCksum c)
       (frameIdx c + (psLastCommit st + 1)) (cfile c) (cpath c) (bytesRead c),
     (MkPollResult (Some h) committed (transactions [] committed) checkpoint, None))
  else
    (c, (MkPollResult (Some h) [] [] checkpoint,
         if psBad st then Some (ErrWalChecksumFrame (frameIdx c)) else None)).

(** [Poll] from the cursor synchronised with the header on. *)
Definition pollTail (fs : fsView) (ino size : Z) (h : WalHeader) (c : Cursor) (checkpoint : bool)
    : Cursor * (PollResult * option walError) :=
  let total := (size - walHeaderSize) / frameSize h in
  if decide (total ≤ frameIdx c) then (c, (MkPollResult (Some h) [] [] checkpoint, None)) else
  let count := total - frameIdx c in
  let '(c, tail) := readAt fs c ino (walHeaderSize + frameIdx c * frameSize h) (count * frameSize h) in
  match tail with
  | None => (Close (reset c), (emptyResult true, None))
  | Some tail =>
      deliver c h checkpoint
        (pollFrames tail h 0 (Z.to_nat count) (cksum1 c) (cksum2 c)
           (MkPollState [] (-1) (cksum1 c, cksum2 c) false))
  end.

(** The answer when there is no log: a checkpoint if the cursor had seen one. *)
Definition noWal (c : Cursor) : Cursor * (PollResult * option walError) :=
  if haveSalt c then (reset c, (emptyResult true, None))
  else (c, (emptyResult false, Some ErrNoWAL)).

Definition Poll (fs : fsView) (c : Cursor) (path : string)
    : Cursor * (PollResult * option walError) :=
  let '(c, opened) := open fs c path in
  match opened with
  | Err true => noWal c
  | Err false => (c, (emptyResult false, Some ErrIO))
  | Ok ino =>
      match fsStat fs ino with
      | None => (c, (emptyResult false, Some ErrIO))
      | Some size =>
          if decide (size < walHeaderSize) then noWal c else
          let '(c, hdr) := readAt fs c ino 0 walHeaderSize in
          match hdr with
          | None => (c, (emptyResult false, Some ErrIO))
          | Some raw =>
              match parseWalHeader raw with
              | Err e => (c, (emptyResult false, Some e))
              | Ok h =>
                  let '(hs1, hs2) := headerChecksum raw h in
                  if decide (hs1 ≠ wChecksum1 h ∨ hs2 ≠ wChecksum2 h) then
                    (c, (MkPollResult (Some h) [] [] false, Some ErrWalChecksumHeader))
                  else
                    let '(c, checkpoint) := syncCursor c h hs1 hs2 size in
                    pollTail fs ino size h c checkpoint
              end
          end
      end
  end.

#[global] Arguments frameChecksum : simpl never.
#[global] Arguments headerChecksum : simpl never.
#[global] Arguments frameSize : simpl never.
#[global] Arguments Poll : simpl never.

(** ** The committed frames of a log *)

(** The frame at the start of [b], if it belongs to the log with header [h] and
    continues the rolling checksum [s]; with the checksum after it. *)
Definition nextFrame (h : WalHeader) (s : Z * Z) (b : bytes) : option (Frame * (Z * Z)) :=
  let fh := slice b 0 frameHdrSize in
  let page := slice b frameHdrSize (frameHdrSize + wPageSize h) in
  let ns := frameChecksum fh page s.1 s.2 (checksumBig h) in
  if decide (rd32 fh 8 = wSalt1 h ∧ rd32 fh 12 = wSalt2 h
             ∧ ns.1 = rd32 fh 16 ∧ ns.2 = rd32 fh 20)
  then Some (MkFrame (rd32 fh 0) (rd32 fh 4) page false, ns) else None.

(** The longest valid run among the first [n] frames of [b]. *)
Fixpoint scan (h : WalHeader) (n : nat) (s : Z * Z) (b : bytes) : list (Frame * (Z * Z)) :=
  match n with
  | O => []
  | S n =>
      match nextFrame h s b with
      | Some (f, s') => (f, s') :: scan h n s' (drop (Z.to_nat (frameSize h)) b)
      | None => []
      end
  end.

(** The number of frames up to the last commit frame. *)
Fixpoint commitLen (fs : list Frame) : nat :=
  match fs with
  | [] => O
  | f :: fs =>
      match commitLen fs with
      | O => if decide (frDBSize f ≠ 0) then 1%nat else O
      | S n => S (S n)
      end
  end.

(** The checksum after a run of frames that started from [s]. *)
Definition lastSum (s : Z * Z) (l : list (Frame * (Z * Z))) : Z * Z := default s (snd <$> last l).

Lemma commitLen_le fs : (commitLen fs ≤ length fs)%nat.
Proof. induction fs as [|f fs IH]; simpl; [done|]. destruct (commitLen fs); [case_decide|]; lia. Qed.

Lemma commitLen_snoc fs f :
  commitLen (fs ++ [f]) = if decide (frDBSize f ≠ 0) then S (length fs) else commitLen fs.
Proof.
  induction fs as [|g fs IH]; simpl; [by repeat case_decide|]. rewrite IH. by repeat case_decide.
Qed.

Lemma commitLen_app pre post :
  commitLen pre = length pre → commitLen (pre ++ post) = (length pre + commitLen post)%nat.
Proof.
  intros Hpre. induction post as [|f post IH] using rev_ind; [by rewrite app_nil_r, Nat.add_0_r|].
  rewrite app_assoc, !commitLen_snoc, IH, length_app. by case_decide; [lia|].
Qed.

(** The prefix that ends in a commit frame is its own committed part. *)
Lemma commitLen_take fs : commitLen (take (commitLen fs) fs) = commitLen fs.
Proof.
  induction fs as [|f fs IH]; [done|]. simpl. destruct (commitLen fs) as [|n] eqn:E; simpl.
  - case_decide; simpl; [|done]. by rewrite decide_True.
  - by rewrite IH.
Qed.

Lemma slice_at {A} (l : list A) off i j :
  0 ≤ off → 0 ≤ i → slice l (off + i) (off + j) = slice (drop (Z.to_nat off) l) i j.
Proof.
  intros. unfold slice. rewrite drop_drop. f_equal; [lia|]. f_equal. lia.
Qed.

Lemma slice_take {A} (l : list A) i j n :
  0 ≤ i → j ≤ Z.of_nat n → slice (take n l) i j = slice l i j.
Proof.
  intros Hi Hj. unfold slice.
  rewrite skipn_firstn_comm, take_take. f_equal. lia.
Qed.

Section scan.
Context (h : WalHeader) (Hps : 0 < wPageSize h).

Lemma frameSize_pos : 24 < frameSize h.
Proof. unfold frameSize, frameHdrSize. lia. Qed.

Lemma length_scan n s b : (length (scan h n s b) ≤ n)%nat.
Proof.
  revert s b. induction n as [|n IH]; intros s b; simpl; [done|].
  destruct (nextFrame h s b) as [[f s']|]; simpl; [|lia]. specialize (IH s' (drop (Z.to_nat (frameSize h)) b)). lia.
Qed.

(** A log whose first [n] frames are all valid is scanned in two stages. *)
Lemma scan_app n m s b :
  length (scan h n s b) = n →
  scan h (n + m) s b
  = scan h n s b ++ scan h m (lastSum s (scan h n s b)) (drop (n * Z.to_nat (frameSize h)) b).
Proof.
  revert s b. induction n as [|n IH]; intros s b Hlen; simpl in *; [done|].
  destruct (nextFrame h s b) as [[f s']|]; simpl in *; [|done].
  rewrite IH, drop_drop by lia. f_equal. f_equal. unfold lastSum. rewrite last_cons.
  by destruct (last _).
Qed.

Lemma nextFrame_take n s b :
  (Z.to_nat (frameSize h) ≤ n)%nat → nextFrame h s (take n b) = nextFrame h s b.
Proof.
  intros Hn. unfold nextFrame, frameSize, frameHdrSize in *. by rewrite !slice_take by lia.
Qed.

Lemma scan_take n s b : scan h n s (take (n * Z.to_nat (frameSize h)) b) = scan h n s b.
Proof.
  revert s b. induction n as [|n IH]; intros s b; simpl; [done|].
  rewrite nextFrame_take by lia. destruct (nextFrame h s b) as [[f s']|]; [|done].
  f_equal. rewrite skipn_firstn_comm, Nat.add_comm, Nat.add_sub. apply IH.
Qed.

Lemma scan_prefix n m s b :
  (n ≤ m)%nat → scan h n s b = take n (scan h m s b).
Proof.
  revert m s b. induction n as [|n IH]; intros [|m] s b Hle; simpl; try done; [lia|].
  destruct (nextFrame h s b) as [[f s']|]; simpl; [|done]. f_equal. apply IH. lia.
Qed.
End scan.

(** ** The loops of [Read] and [Poll] scan the log *)

Section loops.
Context (h : WalHeader) (Hps : 0 < wPageSize h).

(** The frame slices of the loops, and the order in which they test a frame. *)
Lemma nextFrame_at {A} data off s1 s2 (stale bad : A) (good : Frame → Z → Z → A) :
  0 ≤ off →
  (let fh := slice data off (off + frameHdrSize) in
   if decide (rd32 fh 8 ≠ wSalt1 h ∨ rd32 fh 12 ≠ wSalt2 h) then stale else
   let page := slice data (off + frameHdrSize) (off + frameHdrSize + wPageSize h) in
   let '(ns1, ns2) := frameChecksum fh page s1 s2 (checksumBig h) in
   if decide (ns1 ≠ rd32 fh 16 ∨ ns2 ≠ rd32 fh 20) then bad else
   good (MkFrame (rd32 fh 0) (rd32 fh 4) page false) ns1 ns2)
  = match nextFrame h (s1, s2) (drop (Z.to_nat off) data) with
    | Some (f, (ns1, ns2)) => good f ns1 ns2
    | None =>
        if decide (rd32 (slice data off (off + frameHdrSize)) 8 ≠ wSalt1 h
                   ∨ rd32 (slice data off (off + frameHdrSize)) 12 ≠ wSalt2 h) then stale else bad
    end.
Proof.
  intros Hoff. cbv zeta. unfold nextFrame, frameHdrSize. cbn [fst snd].
  assert (slice data off (off + 24) = slice (drop (Z.to_nat off) data) 0 24) as ->.
  { rewrite <-slice_at by lia. by rewrite Z.add_0_r. }
  rewrite <-Z.add_assoc, slice_at by lia.
  set (fh := slice _ 0 24). set (page := slice _ 24 _).
  destruct (frameChecksum fh page s1 s2 (checksumBig h)) as [ns1 ns2]. cbn [fst snd].
  destruct (decide (rd32 fh 8 ≠ wSalt1 h ∨ rd32 fh 12 ≠ wSalt2 h)).
  - rewrite decide_False by tauto. done.
  - destruct (decide (ns1 ≠ rd32 fh 16 ∨ ns2 ≠ rd32 fh 20)).
    + rewrite decide_False by tauto. done.
    + rewrite decide_True; [done|].
      split_and!; apply dec_stable; tauto.
Qed.

Lemma drop_next {A} (data : list A) base i :
  0 ≤ base → 0 ≤ i →
  drop (Z.to_nat (base + (i + 1) * frameSize h)) data
  = drop (Z.to_nat (frameSize h)) (drop (Z.to_nat (base + i * frameSize h)) data).
Proof. intros. pose proof (frameSize_pos h Hps). rewrite drop_drop. f_equal. nia. Qed.

Lemma commitLen_cons f fs :
  commitLen (f :: fs)
  = match commitLen fs with O => if decide (frDBSize f ≠ 0) then 1%nat else O | S n => S (S n) end.
Proof. done. Qed.

Lemma readFrames_S data i n s1 s2 st :
  0 ≤ i →
  let off := walHeaderSize + i * frameSize h in
  let fh := slice data off (off + frameHdrSize) in
  readFrames data h i (S n) s1 s2 st
  = match nextFrame h (s1, s2) (drop (Z.to_nat off) data) with
    | Some (f, (ns1, ns2)) =>
        let '(lastCommit, commits) :=
          if decide (frDBSize f ≠ 0) then (i, rsCommits st + 1)
          else (rsLastCommit st, rsCommits st) in
        readFrames data h (i + 1) n ns1 ns2
          (MkReadState (rsFrames st ++ [f]) lastCommit commits (rsBad st))
    | None =>
        if decide (rd32 fh 8 ≠ wSalt1 h ∨ rd32 fh 12 ≠ wSalt2 h) then st
        else MkReadState (rsFrames st) (rsLastCommit st) (rsCommits st) (Some (ErrWalChecksumFrame i))
    end.
Proof.
  intros Hi off fh. pose proof (frameSize_pos h Hps).
  refine (nextFrame_at data off s1 s2 _ _ (λ f ns1 ns2, _) _). unfold off, walHeaderSize. nia.
Qed.

Lemma pollFrames_S tail i n s1 s2 st :
  0 ≤ i →
  let off := i * frameSize h in
  let fh := slice tail off (off + frameHdrSize) in
  pollFrames tail h i (S n) s1 s2 st
  = match nextFrame h (s1, s2) (drop (Z.to_nat off) tail) with
    | Some (f, (ns1, ns2)) =>
        let '(lastCommit, sum) :=
          if decide (frDBSize f ≠ 0) then (zlen (psFrames st), (ns1, ns2))
          else (psLastCommit st, psSum st) in
        pollFrames tail h (i + 1) n ns1 ns2
          (MkPollState (psFrames st ++ [f]) lastCommit sum (psBad st))
    | None =>
        if decide (rd32 fh 8 ≠ wSalt1 h ∨ rd32 fh 12 ≠ wSalt2 h) then st
        else MkPollState (psFrames st) (psLastCommit st) (psSum st) true
    end.
Proof.
  intros Hi off fh. pose proof (frameSize_pos h Hps).
  refine (nextFrame_at tail off s1 s2 _ _ (λ f ns1 ns2, _) _). unfold off. nia.
Qed.

Lemma readFrames_scan data i n s1 s2 st :
  0 ≤ i →
  let l := scan h n (s1, s2) (drop (Z.to_nat (walHeaderSize + i * frameSize h)) data) in
  let st' := readFrames data h i n s1 s2 st in
  rsFrames st' = rsFrames st ++ l.*1
  ∧ rsLastCommit st' = match commitLen l.*1 with O => rsLastCommit st | S k => i + Z.of_nat k end.
Proof.
  pose proof (frameSize_pos h Hps) as Hfs. cbv zeta. revert i s1 s2 st.
  induction n as [|n IH]; intros i s1 s2 st Hi.
  { split; [by rewrite app_nil_r|done]. }
  rewrite readFrames_S by done. cbn [scan].
  destruct (nextFrame h (s1, s2) _) as [[f [ns1 ns2]]|] eqn:Hf.
  2: { case_decide; (split; [by rewrite app_nil_r|done]). }
  destruct (if decide (frDBSize f ≠ 0) then _ else _) as [lc cs] eqn:Hlc.
  rewrite <-drop_next by (unfold walHeaderSize; lia).
  edestruct (IH (i + 1) ns1 ns2) as [-> ->]; [lia|]. cbn [rsFrames rsLastCommit].
  rewrite fmap_cons, <-app_assoc, commitLen_cons. split; [done|].
  destruct (commitLen _); cbn [fst]; [|lia].
  case_decide; simplify_eq; simpl; lia.
Qed.

Lemma pollFrames_scan tail i n s1 s2 st :
  0 ≤ i →
  let l := scan h n (s1, s2) (drop (Z.to_nat (i * frameSize h)) tail) in
  let st' := pollFrames tail h i n s1 s2 st in
  psFrames st' = psFrames st ++ l.*1
  ∧ psLastCommit st' = match commitLen l.*1 with
                       | O => psLastCommit st | S k => zlen (psFrames st) + Z.of_nat k end
  ∧ psSum st' = match commitLen l.*1 with
                | O => psSum st | S k => lastSum (s1, s2) (take (S k) l) end.
Proof.
  pose proof (frameSize_pos h Hps) as Hfs. cbv zeta. revert i s1 s2 st.
  induction n as [|n IH]; intros i s1 s2 st Hi.
  { split; [by rewrite app_nil_r|done]. }
  rewrite pollFrames_S by done. cbn [scan].
  destruct (nextFrame h (s1, s2) _) as [[f [ns1 ns2]]|] eqn:Hf.
  2: { case_decide; (split; [by rewrite app_nil_r|done]). }
  destruct (if decide (frDBSize f ≠ 0) then _ else _) as [lc sm] eqn:Hlc.
  rewrite <-(Z.add_0_l (i * frameSize h)), <-drop_next, Z.add_0_l by lia.
  edestruct (IH (i + 1) ns1 ns2) as (-> & -> & ->); [lia|]. cbn [psFrames psLastCommit psSum].
  rewrite fmap_cons, <-app_assoc, commitLen_cons. split; [done|]. cbn [fst].
  destruct (commitLen _) as [|k] eqn:Hc.
  - case_decide; simplify_eq; split; try done; try (simpl; lia).
  - split; [rewrite length_app; simpl; lia|].
    unfold lastSum. rewrite (firstn_cons (S k)), last_cons.
    destruct (last (take (S k) _)) eqn:Hl; [done|].
    apply last_None in Hl. apply (f_equal length) in Hl. rewrite length_take in Hl.
    set (l := scan h n _ _) in *. pose proof (commitLen_le l.*1) as Hle.
    rewrite Hc, length_fmap in Hle. change (length []) with O in Hl. lia.
Qed.
End loops.

(** ** Logs and cursors *)

(** [b] starts with a valid header [h] whose checksum is [hs]. *)
Record validLog (b : bytes) (h : WalHeader) (hs : Z * Z) : Prop := {
  vl_size : walHeaderSize ≤ zlen b;
  vl_parse : parseWalHeader (slice b 0 walHeaderSize) = Ok h;
  vl_sum : headerChecksum (slice b 0 walHeaderSize) h = hs;
  vl_check : hs = (wChecksum1 h, wChecksum2 h);
}.

Definition totalFrames (h : WalHeader) (b : bytes) : nat :=
  Z.to_nat ((zlen b - walHeaderSize) / frameSize h).

(** All valid frames of a log, and the committed ones. *)
Definition logFrames (h : WalHeader) (hs : Z * Z) (b : bytes) : list (Frame * (Z * Z)) :=
  scan h (totalFrames h b) hs (drop (Z.to_nat walHeaderSize) b).
Definition committedFrames (h : WalHeader) (hs : Z * Z) (b : bytes) : list Frame :=
  let l := (logFrames h hs b).*1 in markCommitted <$> take (commitLen l) l.

Lemma validLog_pageSize b h hs : validLog b h hs → 0 < wPageSize h.
Proof.
  intros [_ Hp _ _]. unfold parseWalHeader in Hp. inv_ok. subst h. cbn [wPageSize] in *.
  rewrite bool_decide_eq_false in *. pose proof (rd32_range (slice b 0 walHeaderSize) 8). lia.
Qed.

Lemma length_committedFrames h hs b :
  length (committedFrames h hs b) = commitLen (logFrames h hs b).*1.
Proof.
  unfold committedFrames. rewrite length_fmap, length_take. pose proof (commitLen_le (logFrames h hs b).*1). lia.
Qed.

Lemma Read_log b h hs :
  validLog b h hs →
  ∃ commits total err, Read (FileBytes b) = Ok (MkSnapshot h (committedFrames h hs b) commits total, err).
Proof.
  intros Hv. pose proof (validLog_pageSize _ _ _ Hv) as Hps. pose proof (frameSize_pos h Hps) as Hfs.
  destruct Hv as [Hsize Hparse Hsum Hck]. unfold Read.
  rewrite bool_decide_eq_false_2 by lia. cbn [reject rbind]. rewrite Hparse. cbn [rbind].
  rewrite Hsum. destruct hs as [s1 s2]. simplify_eq.
  rewrite bool_decide_eq_false_2 by tauto. cbn [reject rbind]. case_decide as Hshort.
  - unfold committedFrames, logFrames, totalFrames. rewrite Z.div_small by lia. simpl. eauto.
  - set (n := Z.to_nat _). set (st := readFrames _ _ _ _ _ _ _).
    destruct (readFrames_scan h Hps b 0 n (wChecksum1 h) (wChecksum2 h) (MkReadState [] (-1) 0 None) ltac:(lia))
      as [Hf Hl]. fold st in Hf, Hl. rewrite Z.mul_0_l, Z.add_0_r in Hf, Hl.
    change (scan h n _ _) with (logFrames h (wChecksum1 h, wChecksum2 h) b) in Hf, Hl.
    cbn [rsFrames rsLastCommit app] in Hf, Hl. rewrite Hl, Hf. unfold committedFrames.
    destruct (commitLen _) as [|k] eqn:Hc.
    + rewrite decide_True by lia. eauto.
    + rewrite decide_False by lia. do 3 eexists. do 3 f_equal. unfold slice.
      rewrite drop_0. do 2 f_equal. lia.
Qed.

(** The position of a cursor, without its descriptor and its byte counter. *)
Definition pos (c : Cursor) : bool * Z * Z * Z * Z * bool * Z :=
  (haveSalt c, salt1 c, salt2 c, cksum1 c, cksum2 c, haveCksum c, frameIdx c).

(** The cursor stands in the log [b] after its first [frameIdx c] frames, all
    of which are valid and the last of which is a commit frame. *)
Record synced (h : WalHeader) (hs : Z * Z) (b : bytes) (c : Cursor) : Prop := {
  sy_idx : 0 ≤ frameIdx c;
  sy_size : walHeaderSize + frameIdx c * frameSize h ≤ zlen b;
  sy_salt : haveSalt c = true → salt1 c = wSalt1 h ∧ salt2 c = wSalt2 h;
  sy_valid :
    let l := scan h (Z.to_nat (frameIdx c)) hs (drop (Z.to_nat walHeaderSize) b) in
    length l = Z.to_nat (frameIdx c) ∧ commitLen l.*1 = Z.to_nat (frameIdx c)
    ∧ (if haveCksum c then (cksum1 c, cksum2 c) else hs) = lastSum hs l;
}.

Lemma synced_pos h hs b c c' : pos c = pos c' → synced h hs b c → synced h hs b c'.
Proof. destruct c, c'. unfold pos. cbn. intros Hp [? ? ? ?]. simplify_eq. by split. Qed.

Lemma synced_new h hs b c :
  walHeaderSize ≤ zlen b → frameIdx c = 0 →
  (haveSalt c = true → salt1 c = wSalt1 h ∧ salt2 c = wSalt2 h) →
  (haveCksum c = true → hs = (cksum1 c, cksum2 c)) → synced h hs b c.
Proof.
  intros Hb Hi Hs Hk. split; rewrite ?Hi; try done. split_and!; try done.
  destruct (haveCksum c); [|done]. by rewrite <-Hk.
Qed.

(** The scan up to frame [k] depends on the first [k] frames only. *)
Lemma scan_keeps h hs k b b' :
  0 < wPageSize h → 0 ≤ k →
  take (Z.to_nat (walHeaderSize + k * frameSize h)) b'
  = take (Z.to_nat (walHeaderSize + k * frameSize h)) b →
  scan h (Z.to_nat k) hs (drop (Z.to_nat walHeaderSize) b')
  = scan h (Z.to_nat k) hs (drop (Z.to_nat walHeaderSize) b).
Proof.
  intros Hps Hk Htake. pose proof (frameSize_pos h Hps) as Hfs.
  rewrite <-(scan_take h Hps _ _ (drop _ b')), <-(scan_take h Hps _ _ (drop _ b)). f_equal.
  apply (f_equal (drop (Z.to_nat walHeaderSize))) in Htake. rewrite !skipn_firstn_comm in Htake.
  unfold walHeaderSize in *.
  replace (Z.to_nat k * Z.to_nat (frameSize h))%nat
    with (Z.to_nat (32 + k * frameSize h) - Z.to_nat 32)%nat by nia. done.
Qed.

(** Appending to the log, or rewriting what lies after the cursor, keeps the
    cursor in place. *)
Lemma synced_extend h hs b b' c :
  0 < wPageSize h → walHeaderSize + frameIdx c * frameSize h ≤ zlen b' →
  take (Z.to_nat (walHeaderSize + frameIdx c * frameSize h)) b'
  = take (Z.to_nat (walHeaderSize + frameIdx c * frameSize h)) b →
  synced h hs b c → synced h hs b' c.
Proof.
  intros Hps Hsize Htake [Hi _ Hs Hv]. split; try done. by rewrite (scan_keeps h hs _ b).
Qed.

(** ** Polling *)

(** The path names a file with content [b] that does not change during the call. *)
Definition stable (fs : fsView) (path : string) (b : bytes) : Prop :=
  ∃ ino, fsInode fs path = Ok ino ∧ fsStat fs ino = Some (zlen b)
    ∧ ∀ off len, 0 ≤ off → 0 ≤ len → off + len ≤ zlen b →
        fsReadAt fs ino off len = (slice b off (off + len), false).

Lemma open_Ok fs c path ino :
  fsInode fs path = Ok ino → ∃ c', open fs c path = (c', Ok ino) ∧ pos c' = pos c.
Proof.
  intros Hino. unfold open. rewrite Hino. unfold Close, withFile, pos.
  destruct (cfile c) as [old|]; [|by eexists].
  case_decide; [|by eexists]. destruct (fsStat fs old); [|by eexists].
  case_decide; [|by eexists]. subst. by eexists.
Qed.

Lemma readAt_Ok fs c ino off len b :
  fsReadAt fs ino off len = (b, false) → zlen b = len →
  ∃ c', readAt fs c ino off len = (c', Some b) ∧ pos c' = pos c.
Proof.
  intros Hr Hlen. unfold readAt. rewrite Hr, bool_decide_eq_true_2 by done. by eexists.
Qed.

Lemma lastSum_app s l l' : lastSum s (l ++ l') = lastSum (lastSum s l) l'.
Proof. unfold lastSum. rewrite last_app. by destruct (last l'). Qed.

Section advance.
Context (h : WalHeader) (hs : Z * Z) (b : bytes) (c : Cursor).
Context (Hv : validLog b h hs) (Hs : synced h hs b c) (Hck : haveCksum c = true).

Let k : nat := Z.to_nat (frameIdx c).
Let sum : Z * Z := (cksum1 c, cksum2 c).
Let rest : bytes := drop (Z.to_nat (walHeaderSize + frameIdx c * frameSize h)) b.
(** The valid frames that the cursor has not passed. *)
Let m : nat := (totalFrames h b - k)%nat.
Let tl : list (Frame * (Z * Z)) := scan h m sum rest.

Lemma cursor_le_total : (k ≤ totalFrames h b)%nat.
Proof.
  pose proof (frameSize_pos h (validLog_pageSize _ _ _ Hv)). destruct Hs as [Hi Hsize _ _].
  unfold k, totalFrames. apply Z2Nat.inj_le; [lia|apply Z.div_pos; lia|].
  apply Z.div_le_lower_bound; lia.
Qed.

Lemma logFrames_split :
  logFrames h hs b = scan h k hs (drop (Z.to_nat walHeaderSize) b) ++ tl.
Proof.
  pose proof (frameSize_pos h (validLog_pageSize _ _ _ Hv)). pose proof cursor_le_total.
  destruct Hs as [Hi Hsize _ (Hlen & _ & Hsum)]. rewrite Hck in Hsum. unfold logFrames.
  replace (totalFrames h b) with (k + m)%nat by (unfold m; lia).
  rewrite scan_app by (done || apply (validLog_pageSize _ _ _ Hv)). f_equal.
  unfold tl, sum. rewrite Hsum, drop_drop. f_equal. unfold rest. f_equal.
  unfold k, walHeaderSize in *. nia.
Qed.

Lemma commitLen_split : commitLen (logFrames h hs b).*1 = (k + commitLen tl.*1)%nat.
Proof.
  destruct Hs as [_ _ _ (Hlen & Hcl & _)]. fold k in Hlen, Hcl. rewrite logFrames_split, fmap_app.
  rewrite commitLen_app; rewrite length_fmap, Hlen; done.
Qed.

Lemma committed_split :
  drop k (committedFrames h hs b) = markCommitted <$> take (commitLen tl.*1) tl.*1.
Proof.
  destruct Hs as [_ _ _ (Hlen & _ & _)]. fold k in Hlen. unfold committedFrames. cbv zeta.
  rewrite commitLen_split, logFrames_split, fmap_app.
  rewrite take_app_add' by (by rewrite length_fmap). rewrite fmap_app.
  rewrite drop_app_length'; [done|]. by rewrite !length_fmap.
Qed.

(** A cursor moved past the committed frames is in place again. *)
Lemma synced_advance c' :
  frameIdx c' = frameIdx c + Z.of_nat (commitLen tl.*1) →
  haveSalt c' = haveSalt c → salt1 c' = salt1 c → salt2 c' = salt2 c → haveCksum c' = true →
  (cksum1 c', cksum2 c') = lastSum sum (take (commitLen tl.*1) tl) → synced h hs b c'.
Proof.
  intros Hidx Hh H1 H2 Hk Hsum'. pose proof (frameSize_pos h (validLog_pageSize _ _ _ Hv)) as Hfs.
  pose proof cursor_le_total as Hle. pose proof (commitLen_le tl.*1) as Hcl'.
  rewrite length_fmap in Hcl'. pose proof (length_scan h m sum rest) as Hm. fold tl in Hm.
  destruct Hs as [Hi Hsize Hsalt (Hlen & Hcl & Hsum)]. rewrite Hck in Hsum.
  fold sum in Hsum. fold k in Hlen, Hcl, Hsum.
  set (l := scan h k hs _) in *.
  assert (Z.to_nat (frameIdx c') = k + commitLen tl.*1)%nat as Hk' by (unfold k; lia).
  split; [lia| |by rewrite Hh, H1, H2|].
  - assert (frameIdx c' ≤ (zlen b - walHeaderSize) / frameSize h) as Hb.
    { pose proof (Z.div_pos (zlen b - walHeaderSize) (frameSize h) ltac:(lia) ltac:(lia)).
      unfold m, totalFrames, k in *. lia. }
    pose proof (Z.mul_div_le (zlen b - walHeaderSize) (frameSize h) ltac:(lia)). nia.
  - assert (scan h (Z.to_nat (frameIdx c')) hs (drop (Z.to_nat walHeaderSize) b)
            = l ++ take (commitLen tl.*1) tl) as ->.
    { rewrite Hk', (scan_prefix h _ (totalFrames h b)) by (unfold m in *; lia).
      fold (logFrames h hs b). rewrite logFrames_split. fold l.
      by rewrite take_app_add' by done. }
    cbv zeta. rewrite Hk', Hk, length_app, fmap_app, fmap_take, commitLen_app.
    + rewrite commitLen_take, length_take, !length_fmap, Hlen. split_and!; [lia|lia|].
      by rewrite lastSum_app, <-Hsum.
    + by rewrite length_fmap, Hcl, Hlen.
Qed.
End advance.

(** What a call of [Poll] that works on the log [b] from frame [from] delivers. *)
Record delivered (h : WalHeader) (hs : Z * Z) (b : bytes) (from : Z) (cp : bool)
    (c' : Cursor) (res : PollResult) : Prop := {
  dl_frames : prNewCommitted res = drop (Z.to_nat from) (committedFrames h hs b);
  dl_txs : prTransactions res = transactions [] (prNewCommitted res);
  dl_checkpoint : prCheckpoint res = cp;
  dl_synced : synced h hs b c';
  dl_salt : haveSalt c' = true;
  dl_cksum : haveCksum c' = true;
  dl_idx : frameIdx c' = zlen (committedFrames h hs b);
}.

Lemma pollTail_synced fs ino h hs b c cp :
  validLog b h hs → synced h hs b c → haveSalt c = true → haveCksum c = true →
  (∀ off len, 0 ≤ off → 0 ≤ len → off + len ≤ zlen b →
     fsReadAt fs ino off len = (slice b off (off + len), false)) →
  ∃ c' res err, pollTail fs ino (zlen b) h c cp = (c', (res, err))
    ∧ delivered h hs b (frameIdx c) cp c' res.
Proof.
  intros Hv Hs Hsalt Hck Hread. pose proof (validLog_pageSize _ _ _ Hv) as Hps.
  pose proof (frameSize_pos h Hps) as Hfs.
  pose proof (cursor_le_total h hs b c Hv Hs) as Hle.
  pose proof (commitLen_split h hs b c Hv Hs Hck) as Hcl.
  pose proof (committed_split h hs b c Hv Hs Hck) as Hcs.
  pose proof (synced_advance h hs b c Hv Hs Hck) as Hadv.
  set (m := (totalFrames h b - Z.to_nat (frameIdx c))%nat) in *.
  set (off := walHeaderSize + frameIdx c * frameSize h) in *.
  set (tl := scan h m (cksum1 c, cksum2 c) (drop (Z.to_nat off) b)) in *.
  pose proof (length_committedFrames h hs b) as Hlen. rewrite Hcl in Hlen.
  pose proof (Z.mul_div_le (zlen b - walHeaderSize) (frameSize h) ltac:(lia)) as Hdiv.
  pose proof (Z.div_pos (zlen b - walHeaderSize) (frameSize h)) as Hpos.
  pose proof (vl_size _ _ _ Hv) as Hb. pose proof (sy_idx _ _ _ _ Hs) as Hi.
  unfold pollTail. fold off. unfold totalFrames in *. set (total := (zlen b - walHeaderSize) / frameSize h) in *.
  case_decide as Ht.
  - assert (m = O) as Hm by lia. unfold tl in *. rewrite Hm in *. simpl in *.
    do 3 eexists. split; [done|]. split; cbn; [by rewrite Hcs|done|done|done|done|done|lia].
  - assert (Z.of_nat m = total - frameIdx c) as Hm by lia.
    destruct (readAt_Ok fs c ino off ((total - frameIdx c) * frameSize h)
      (slice b off (off + (total - frameIdx c) * frameSize h))) as (c1 & -> & Hp).
    { apply Hread; unfold off, walHeaderSize in *; nia. }
    { rewrite length_slice; unfold off, walHeaderSize in *; nia. }
    destruct c1 as [hv1 s11 s21 k11 k21 hk1 fi1 f1 p1 r1]. unfold pos in Hp. cbn in Hp.
    simplify_eq. cbn [cksum1 cksum2 frameIdx].
    destruct (pollFrames_scan h Hps (slice b off (off + (total - frameIdx c) * frameSize h))
      0 (Z.to_nat (total - frameIdx c)) (cksum1 c) (cksum2 c)
      (MkPollState [] (-1) (cksum1 c, cksum2 c) false)) as (Hf & Hl & Hsum); [lia|].
    set (st := pollFrames _ _ _ _ _ _ _) in *. cbn [psFrames psLastCommit psSum app length] in *.
    replace (Z.to_nat (total - frameIdx c)) with m in * by lia.
    assert (scan h m (cksum1 c, cksum2 c)
      (drop (Z.to_nat (0 * frameSize h)) (slice b off (off + (total - frameIdx c) * frameSize h))) = tl) as Htl.
    { unfold slice. rewrite Z.mul_0_l, drop_0.
      replace (Z.to_nat (off + (total - frameIdx c) * frameSize h - off))
        with (m * Z.to_nat (frameSize h))%nat by nia. by apply scan_take. }
    rewrite Htl in *. unfold deliver. rewrite Hl, Hf.
    destruct (commitLen tl.*1) as [|n] eqn:Hc.
    + rewrite decide_False by lia. do 3 eexists. split; [done|].
      split; cbn; [by rewrite Hcs|done|done|apply Hadv; cbn; done || lia|done|done|lia].
    + rewrite decide_True by lia. do 3 eexists. split; [done|].
      split; cbn; [|done|done| |done|done|lia].
      * rewrite Hcs. unfold slice. rewrite drop_0. do 2 f_equal. lia.
      * apply Hadv; cbn; try done; [lia|]. rewrite <-surjective_pairing. done.
Qed.

(** [Poll] on a log that does not change during the call. *)
Lemma Poll_stable fs path b h hs c :
  validLog b h hs → stable fs path b →
  ∃ c0 ino, pos c0 = pos c
    ∧ (∀ off len, 0 ≤ off → 0 ≤ len → off + len ≤ zlen b →
         fsReadAt fs ino off len = (slice b off (off + len), false))
    ∧ Poll fs c path = let '(c1, cp) := syncCursor c0 h hs.1 hs.2 (zlen b) in
                       pollTail fs ino (zlen b) h c1 cp.
Proof.
  intros Hv (ino & Hino & Hstat & Hread). unfold Poll.
  destruct (open_Ok fs c path ino Hino) as (c1 & -> & Hp1). rewrite Hstat.
  pose proof (vl_size _ _ _ Hv). rewrite decide_False by lia.
  destruct (readAt_Ok fs c1 ino 0 walHeaderSize (slice b 0 walHeaderSize)) as (c2 & -> & Hp2).
  { apply Hread; unfold walHeaderSize in *; lia. }
  { rewrite length_slice; unfold walHeaderSize in *; lia. }
  rewrite (vl_parse _ _ _ Hv), (vl_sum _ _ _ Hv).
  exists c2, ino. split; [congruence|]. split; [done|].
  rewrite (vl_check _ _ _ Hv). cbn [fst snd]. by rewrite decide_False by tauto.
Qed.

Lemma Poll_synced fs path b h hs c :
  validLog b h hs → stable fs path b → synced h hs b c →
  ∃ c' res err, Poll fs c path = (c', (res, err))
    ∧ delivered h hs b (frameIdx c) false c' res.
Proof.
  intros Hv Hst Hs. destruct (Poll_stable fs path b h hs c Hv Hst) as (c0 & ino & Hp & Hread & ->).
  assert (frameIdx c = frameIdx c0) as -> by (by injection Hp).
  symmetry in Hp. apply (synced_pos h hs b) in Hp; [|done]. clear Hs.
  destruct Hp as [Hi Hsize Hsalt Hvalid]. unfold syncCursor.
  rewrite (bool_decide_eq_false_2 (zlen b < _)) by lia. rewrite orb_false_r.
  replace (haveSalt c0 && _) with false.
  2: { symmetry. apply andb_false_iff. destruct (haveSalt c0); [right|by left].
       apply bool_decide_eq_false_2. destruct Hsalt; [done|]. tauto. }
  destruct hs as [hs1 hs2]. cbn [fst snd].
  destruct (if haveCksum c0 then _ else _) as [k1 k2] eqn:Hk.
  destruct (pollTail_synced fs ino h (hs1, hs2) b
    (MkCursor true (wSalt1 h) (wSalt2 h) k1 k2 true (frameIdx c0) (cfile c0) (cpath c0) (bytesRead c0))
    false Hv) as (c' & res & err & E & Hd); [|done|done|done|
      exists c', res, err; split; [exact E|exact Hd]].
  split; cbn; [done..|]. cbv zeta in Hvalid. destruct Hvalid as (? & ? & Hsum).
  by split_and!.
Qed.

(** A log of another generation is delivered from its start. *)
Lemma Poll_rotated fs path b h hs c :
  validLog b h hs → stable fs path b → haveSalt c = true →
  salt1 c ≠ wSalt1 h ∨ salt2 c ≠ wSalt2 h →
  ∃ c' res err, Poll fs c path = (c', (res, err)) ∧ delivered h hs b 0 true c' res.
Proof.
  intros Hv Hst Hh Hrot. destruct (Poll_stable fs path b h hs c Hv Hst) as (c0 & ino & Hp & Hread & ->).
  unfold pos in Hp. simplify_eq. unfold syncCursor.
  rewrite bool_decide_eq_true_2 by congruence.
  replace (haveSalt c0) with true by congruence. cbn [andb orb].
  destruct (pollTail_synced fs ino h hs b
    (MkCursor true (wSalt1 h) (wSalt2 h) hs.1 hs.2 true 0 (cfile c0) (cpath c0) (bytesRead c0))
    true Hv) as (c' & res & err & E & Hd); [|done|done|done|
      exists c', res, err; split; [exact E|exact Hd]].
  apply synced_new; [apply (vl_size _ _ _ Hv)|done..|]. intros _. apply surjective_pairing.
Qed.

(** ** A sequence of polls *)

Fixpoint pollAll (views : list fsView) (path : string) (c : Cursor) : list PollResult :=
  match views with
  | [] => []
  | fs :: views =>
      let '(c, (res, _)) := Poll fs c path in
      res :: pollAll views path c
  end.

(** [b'] keeps the header and the committed frames of [b]; what follows them may
    be overwritten, and the file may grow. *)
Definition keepsCommitted (h : WalHeader) (hs : Z * Z) (b b' : bytes) : Prop :=
  let n := walHeaderSize + zlen (committedFrames h hs b) * frameSize h in
  n ≤ zlen b' ∧ take (Z.to_nat n) b' = take (Z.to_nat n) b.

Fixpoint keepsAll (h : WalHeader) (hs : Z * Z) (b : bytes) (l : list bytes) : Prop :=
  match l with
  | [] => True
  | b' :: l => keepsCommitted h hs b b' ∧ keepsAll h hs b' l
  end.

Lemma validLog_keeps b b' h hs :
  validLog b h hs → keepsCommitted h hs b b' → validLog b' h hs.
Proof.
  intros Hv [Hn Htake]. pose proof (frameSize_pos h (validLog_pageSize _ _ _ Hv)).
  destruct Hv as [Hsize Hparse Hsum Hck].
  assert (slice b' 0 walHeaderSize = slice b 0 walHeaderSize) as Hsl.
  { apply (f_equal (λ l, slice l 0 walHeaderSize)) in Htake.
    by rewrite !slice_take in Htake by nia. }
  split; rewrite ?Hsl; try done. nia.
Qed.

(** The frames that the cursor has passed are the first committed frames. *)
Lemma committed_passed h hs b c :
  validLog b h hs → synced h hs b c → haveCksum c = true →
  take (Z.to_nat (frameIdx c)) (committedFrames h hs b)
  = markCommitted <$> (scan h (Z.to_nat (frameIdx c)) hs (drop (Z.to_nat walHeaderSize) b)).*1.
Proof.
  intros Hv Hs Hk. unfold committedFrames. cbv zeta.
  rewrite (commitLen_split h hs b c), (logFrames_split h hs b c) by done.
  destruct Hs as [_ _ _ (Hlen & _ & _)]. rewrite <-fmap_take, take_take, Nat.min_l by lia.
  rewrite fmap_app, take_app_length'; [done|]. by rewrite length_fmap.
Qed.

Lemma drop_take_drop {A} (l : list A) n m :
  (n ≤ m)%nat → drop n (take m l) ++ drop m l = drop n l.
Proof.
  intros. rewrite skipn_firstn_comm. replace m with (n + (m - n))%nat at 2 by lia.
  by rewrite <-drop_drop, take_drop.
Qed.

Definition lastLog (b : bytes) (l : list bytes) : bytes := default b (last l).

Lemma pollAll_synced h hs path views logs b c :
  Forall2 (λ fs b, stable fs path b) views logs →
  validLog b h hs → synced h hs b c → haveCksum c = true →
  frameIdx c = zlen (committedFrames h hs b) → keepsAll h hs b logs →
  let all := committedFrames h hs (lastLog b logs) in
  let n := length (committedFrames h hs b) in
  concat (prNewCommitted <$> pollAll views path c) = drop n all
  ∧ Forall (λ r, prCheckpoint r = false) (pollAll views path c)
  ∧ take n all = committedFrames h hs b.
Proof.
  intros HF. revert b c. induction HF as [|fs b' views logs Hst HF IH]; intros b c Hv Hs Hk Hi Hkeep.
  { cbv zeta. unfold lastLog. simpl. by rewrite drop_all, firstn_all. }
  destruct Hkeep as [Hkeep Hrest]. pose proof (validLog_keeps _ _ _ _ Hv Hkeep) as Hv'.
  pose proof (validLog_pageSize _ _ _ Hv) as Hps.
  assert (synced h hs b' c) as Hs'.
  { destruct Hkeep. apply (synced_extend h hs b); rewrite ?Hi; done. }
  destruct (Poll_synced fs path b' h hs c Hv' Hst Hs') as (c' & res & err & E & Hd).
  cbn [pollAll]. rewrite E. destruct Hd as [Hf _ Hcp Hsy Hsa Hck Hidx].
  destruct (IH b' c' Hv' Hsy Hck Hidx Hrest) as (Hcat & Hall & Htake).
  pose proof (committed_passed _ _ _ _ Hv Hs Hk) as Hpass.
  pose proof (committed_passed _ _ _ _ Hv' Hs' Hk) as Hpass'.
  assert (scan h (Z.to_nat (frameIdx c)) hs (drop (Z.to_nat walHeaderSize) b')
          = scan h (Z.to_nat (frameIdx c)) hs (drop (Z.to_nat walHeaderSize) b)) as Hscan.
  { destruct Hkeep as [_ Ht]. rewrite <-Hi in Ht. apply scan_keeps; [done|apply Hs|done]. }
  rewrite Hscan, <-Hpass in Hpass'. rewrite Hi, Nat2Z.id, firstn_all in Hpass'. rewrite Hi, Nat2Z.id in Hf.
  assert (lastLog b (b' :: logs) = lastLog b' logs) as ->.
  { unfold lastLog. rewrite last_cons. by destruct (last logs). }
  set (all := committedFrames h hs (lastLog b' logs)) in *.
  split_and!.
  - rewrite fmap_cons. cbn [concat]. rewrite Hcat, Hf.
    rewrite <-Htake at 1. apply drop_take_drop. rewrite <-Hpass', length_take. lia.
  - by constructor.
  - etrans; [|exact Hpass']. rewrite <-Htake, take_take, Nat.min_l; [done|].
    rewrite <-Hpass', length_take. lia.
Qed.

(** ** Transactions *)

(** The last frame of a transaction, and only that one, carries the database size. *)
Definition isTransaction (t : Transaction) : Prop :=
  ∃ body f, txFrames t = body ++ [f] ∧ Forall (λ g, frDBSize g = 0) body
    ∧ frDBSize f = txDBSize t ∧ txDBSize t ≠ 0.

Lemma commitLen_full f fs :
  commitLen (f :: fs) = length (f :: fs) →
  commitLen fs = length fs ∧ (frDBSize f = 0 → fs ≠ []).
Proof.
  rewrite commitLen_cons. pose proof (commitLen_le fs) as Hle. simpl length.
  destruct (commitLen fs) as [|n] eqn:E; [case_decide|]; intros Heq; try lia.
  split; [lia|]. intros _ ->. simpl in *. lia.
Qed.

Lemma transactions_spec cur fs :
  Forall (λ f, frDBSize f = 0) cur → commitLen fs = length fs → (fs = [] → cur = []) →
  concat (txFrames <$> transactions cur fs) = cur ++ fs
  ∧ Forall isTransaction (transactions cur fs).
Proof.
  revert cur. induction fs as [|f fs IH]; intros cur Hcur Hlen Hnil; cbn [transactions].
  { rewrite Hnil by done. done. }
  destruct (commitLen_full f fs Hlen) as [Hlen' Hne].
  case_decide as Hf.
  - destruct (IH (cur ++ [f])) as [-> Hall]; [by apply Forall_app_2; [|constructor]|done|by intros ->; destruct Hne|].
    by rewrite <-app_assoc.
  - destruct (IH []) as [Hcat Hall]; [done..|]. rewrite fmap_cons. cbn [concat txFrames].
    rewrite Hcat, <-app_assoc. split; [done|]. constructor; [|done]. by exists cur, f.
Qed.

Lemma commitLen_mark fs : commitLen (markCommitted <$> fs) = commitLen fs.
Proof. induction fs as [|f fs IH]; [done|]. rewrite fmap_cons, !commitLen_cons, IH. done. Qed.

(** The result of a poll is made of whole transactions. *)
Definition wholeTransactions (r : PollResult) : Prop :=
  concat (txFrames <$> prTransactions r) = prNewCommitted r
  ∧ Forall isTransaction (prTransactions r).

Lemma deliver_whole c h cp tail n s1 s2 :
  0 < wPageSize h →
  wholeTransactions (deliver c h cp (pollFrames tail h 0 n s1 s2 (MkPollState [] (-1) (s1, s2) false))).2.1.
Proof.
  intros Hps.
  destruct (pollFrames_scan h Hps tail 0 n s1 s2 (MkPollState [] (-1) (s1, s2) false)) as (Hf & Hl & _); [lia|].
  unfold deliver. set (st := pollFrames _ _ _ _ _ _ _) in *. set (l := (scan _ _ _ _).*1) in *.
  cbn [psFrames psLastCommit app length] in *. rewrite Hl, Hf.
  destruct (commitLen l) as [|k] eqn:Hc; case_decide; try lia; [done|].
  unfold wholeTransactions. cbn [fst snd prTransactions prNewCommitted].
  assert (slice l 0 (Z.of_nat 0 + Z.of_nat k + 1) = take (commitLen l) l) as ->.
  { unfold slice. rewrite drop_0, Hc. f_equal. lia. }
  apply transactions_spec; [done| |done].
  rewrite commitLen_mark, commitLen_take, length_fmap, length_take.
  pose proof (commitLen_le l). lia.
Qed.

Lemma Poll_whole fs c path : wholeTransactions (Poll fs c path).2.1.
Proof.
  unfold Poll. destruct (open fs c path) as [c1 [ino|[]]]; [|unfold noWal; by destruct (haveSalt c1)|done].
  destruct (fsStat fs ino) as [size|]; [|done].
  case_decide; [unfold noWal; by destruct (haveSalt c1)|].
  destruct (readAt fs c1 ino 0 walHeaderSize) as [c2 [raw|]]; [|done].
  destruct (parseWalHeader raw) as [h|e] eqn:Hh; [|done].
  destruct (headerChecksum raw h) as [hs1 hs2]. case_decide; [done|].
  assert (0 < wPageSize h) as Hps.
  { unfold parseWalHeader in Hh. inv_ok. subst h. cbn [wPageSize] in *.
    rewrite bool_decide_eq_false in *. pose proof (rd32_range raw 8). lia. }
  destruct (syncCursor c2 h hs1 hs2 size) as [c3 cp]. unfold pollTail. case_decide; [done|].
  destruct (readAt fs c3 _ _ _) as [c4 [tail|]]; [|done]. by apply deliver_whole.
Qed.

(** ** Properties *)

(** C23: polling loses and repeats nothing. Let a log be polled at the times of
    [views], and between two polls keep the frames that were committed at the
    first one (the rest may be overwritten, the file may grow). Then the frames
    of all the polls, concatenated, are exactly the committed frames that [Read]
    finds in the last state of the log, and no poll reports a checkpoint. *)
Theorem Poll_trace path h hs fs b views logs :
  validLog b h hs → Forall2 (λ fs b, stable fs path b) (fs :: views) (b :: logs) →
  keepsAll h hs b logs →
  let rs := pollAll (fs :: views) path NewCursor in
  Forall (λ r, prCheckpoint r = false) rs
  ∧ ∃ commits total err, Read (FileBytes (lastLog b logs))
      = Ok (MkSnapshot h (concat (prNewCommitted <$> rs)) commits total, err).
Proof.
  intros Hv [Hst HF]%Forall2_cons Hkeep.
  assert (validLog (lastLog b logs) h hs) as Hvl.
  { clear HF Hst. revert b Hv Hkeep. induction logs as [|b' logs IH]; intros b Hv Hkeep; [done|].
    destruct Hkeep as [Hk Hkeep]. pose proof (validLog_keeps _ _ _ _ Hv Hk) as Hv'.
    specialize (IH b' Hv' Hkeep). unfold lastLog in *. rewrite last_cons. by destruct (last logs). }
  destruct (Read_log _ _ _ Hvl) as (commits & total & err & HR).
  cbn [pollAll]. assert (synced h hs b NewCursor) as Hs0.
  { apply synced_new; [apply (vl_size _ _ _ Hv)|done..]. }
  destruct (Poll_synced fs path b h hs NewCursor Hv Hst Hs0) as (c' & res & err' & E & Hd).
  rewrite E. cbn [fst snd]. destruct Hd as [Hf _ Hcp Hsy Hsa Hck Hidx]. rewrite drop_0 in Hf.
  destruct (pollAll_synced h hs path views logs b c' HF Hv Hsy Hck Hidx Hkeep) as (Hcat & Hall & Htake).
  split; [by constructor|]. exists commits, total, err. rewrite HR. do 3 f_equal.
  rewrite fmap_cons. cbn [concat]. rewrite Hcat, Hf, <-Htake at 1. by rewrite take_drop.
Qed.

(** A log written with the checksums of this reader, for pages of 8 bytes. *)
Definition logHeader (salt : Z) : WalHeader :=
  let raw := be_enc 4 magicBE ++ be_enc 4 3007000 ++ be_enc 4 8 ++ be_enc 4 0
               ++ be_enc 4 salt ++ be_enc 4 5 in
  let '(s1, s2) := checksumBytes raw 0 0 true in
  MkWalHeader magicBE 3007000 8 0 salt 5 s1 s2.

Definition putWalHeader (h : WalHeader) : bytes :=
  be_enc 4 (wMagic h) ++ be_enc 4 (wVersion h) ++ be_enc 4 (wPageSize h)
    ++ be_enc 4 (wCheckpointSeq h) ++ be_enc 4 (wSalt1 h) ++ be_enc 4 (wSalt2 h)
    ++ be_enc 4 (wChecksum1 h) ++ be_enc 4 (wChecksum2 h).

Fixpoint putWalFrames (h : WalHeader) (s1 s2 : Z) (l : list (Z * Z * bytes)) : bytes :=
  match l with
  | [] => []
  | (pgno, size, page) :: l =>
      let fh := be_enc 4 pgno ++ be_enc 4 size in
      let '(s1, s2) := frameChecksum fh page s1 s2 (checksumBig h) in
      fh ++ be_enc 4 (wSalt1 h) ++ be_enc 4 (wSalt2 h) ++ be_enc 4 s1 ++ be_enc 4 s2 ++ page
        ++ putWalFrames h s1 s2 l
  end.

Definition putLog (salt : Z) (l : list (Z * Z * bytes)) : bytes :=
  let h := logHeader salt in
  putWalHeader h ++ putWalFrames h (wChecksum1 h) (wChecksum2 h) l.

(** Two states of a log: the second overwrites the uncommitted frame of the first. *)
Definition log1 : bytes := putLog 9 [(1, 0, bs "page one"); (2, 2, bs "page two"); (1, 0, bs "rollback")].
Definition log2 : bytes := putLog 9 [(1, 0, bs "page one"); (2, 2, bs "page two"); (3, 3, bs "page 3 !")].

Definition viewOf (b : bytes) : fsView :=
  MkFsView (λ _, Ok 7) (λ _, Some (zlen b))
    (λ _ off len, (slice b off (off + len), negb (bool_decide (off + len ≤ zlen b)))).

Lemma viewOf_stable path b : stable (viewOf b) path b.
Proof.
  exists 7. split_and!; [done|done|]. intros off len H1 H2 H3. simpl.
  by rewrite bool_decide_eq_true_2.
Qed.

Lemma log_valid salt l :
  is_u32 salt → parseWalHeader (slice (putLog salt l) 0 walHeaderSize) = Ok (logHeader salt) →
  headerChecksum (slice (putLog salt l) 0 walHeaderSize) (logHeader salt)
  = (wChecksum1 (logHeader salt), wChecksum2 (logHeader salt)) →
  validLog (putLog salt l) (logHeader salt) (wChecksum1 (logHeader salt), wChecksum2 (logHeader salt)).
Proof.
  intros Hs Hp Hc. split; [|done..]. unfold putLog, putWalHeader, walHeaderSize. len.
Qed.

Lemma Poll_trace_witness :
  let h := logHeader 9 in
  let rs := pollAll [viewOf log1; viewOf log2] "wal" NewCursor in
  Forall (λ r, prCheckpoint r = false) rs
  ∧ ∃ commits total err, Read (FileBytes log2)
      = Ok (MkSnapshot h (concat (prNewCommitted <$> rs)) commits total, err).
Proof.
  apply (Poll_trace "wal" (logHeader 9) (wChecksum1 (logHeader 9), wChecksum2 (logHeader 9))
    (viewOf log1) log1 [viewOf log2] [log2]).
  - apply log_valid; vm_compute; intuition discriminate.
  - repeat constructor; apply viewOf_stable.
  - split; [|done]. split; [vm_compute; discriminate|vm_compute; reflexivity].
Defined.

(** Whatever the file system answers, what a poll delivers is made of whole
    transactions: the frames of the transactions are the new frames, and each
    transaction ends in its only frame with a database size. *)
Theorem Poll_transactions fs c path : wholeTransactions (Poll fs c path).2.1.
Proof. apply Poll_whole. Qed.

(** When the salts of the log changed since the last poll, the poll reports a
    checkpoint, delivers all the committed frames of the new log and leaves the
    cursor after them. *)
Theorem Poll_checkpoint fs path b h hs c :
  validLog b h hs → stable fs path b → haveSalt c = true →
  salt1 c ≠ wSalt1 h ∨ salt2 c ≠ wSalt2 h →
  ∃ c' res err, Poll fs c path = (c', (res, err))
    ∧ prCheckpoint res = true ∧ prNewCommitted res = committedFrames h hs b
    ∧ synced h hs b c' ∧ frameIdx c' = zlen (committedFrames h hs b).
Proof.
  intros Hv Hst Hh Hrot. destruct (Poll_rotated fs path b h hs c Hv Hst Hh Hrot)
    as (c' & res & err & E & [Hf _ Hcp Hsy _ _ Hidx]).
  by exists c', res, err.
Qed.

Lemma Poll_checkpoint_witness :
  ∃ c' res err, Poll (viewOf log2) (MkCursor true 8 5 1 1 true 4 None "" 0) "wal" = (c', (res, err))
    ∧ prCheckpoint res = true
    ∧ prNewCommitted res
      = committedFrames (logHeader 9) (wChecksum1 (logHeader 9), wChecksum2 (logHeader 9)) log2
    ∧ synced (logHeader 9) (wChecksum1 (logHeader 9), wChecksum2 (logHeader 9)) log2 c'
    ∧ frameIdx c'
      = zlen (committedFrames (logHeader 9) (wChecksum1 (logHeader 9), wChecksum2 (logHeader 9)) log2).
Proof.
  apply Poll_checkpoint.
  - apply log_valid; vm_compute; intuition discriminate.
  - apply viewOf_stable.
  - reflexivity.
  - left. vm_compute. discriminate.
Defined.
