(* ===== verification/Chain.v ===== *)
(** * Choosing a restore chain ([internal/restore/chain.go])

    A cell's log holds snapshots, deltas and epoch markers of several epochs.
    [selectChain] drops what a newer epoch has fenced, then takes the newest
    snapshot whose deltas follow it without a gap. The theorems say what the
    chosen chain contains and that no unfenced delta beyond it exists. *)

From S2P Require Import Prelude Ltx.

Inductive chainError : Set :=
| ErrInvalidMarker
| ErrConflictingCuts (epoch : Z)
| ErrNoSnapshot
| ErrIncompleteSet (base epoch : Z)
| ErrDeltaRange (start end_ : Z)
| ErrNonContiguous (expected got : Z)
| ErrSegment (e : Ltx.error).

#[global] Instance Header_eq_dec : EqDecision Header.
Proof. solve_decision. Defined.

(** [headers[i]]; every index below comes from a range over [headers]. *)
Definition zeroHeader : Header := MkHeader 0 0 0 0 0 0 0 0.
Definition hdr (headers : list Header) (i : nat) : Header := default zeroHeader (headers !! i).

(** ** Epoch markers *)

Fixpoint markerCuts (headers : list Header) (cut : gmap Z Z) : result chainError (gmap Z Z) :=
  match headers with
  | [] => Ok cut
  | h :: headers =>
      if decide (hKind h = KindMarker) then
        reject (bool_decide (hStartTxID h = 0 ∨ u64 (hStartTxID h - 1) ≠ hEndTxID h))
          ErrInvalidMarker ;;ᵣ
        reject (match cut !! hEpoch h with
                | Some prev => bool_decide (prev ≠ hEndTxID h)
                | None => false
                end) (ErrConflictingCuts (hEpoch h)) ;;ᵣ
        markerCuts headers (<[hEpoch h := hEndTxID h]> cut)
      else markerCuts headers cut
  end.

(** The inner loop over [cut] only asks whether some entry truncates [h]. *)
Definition truncated (cut : gmap Z Z) (h : Header) : bool :=
  existsb (λ ec, bool_decide (hEpoch h < ec.1 ∧ ec.2 < hEndTxID h)) (map_to_list cut).

Definition keepIndices (headers : list Header) (cut : gmap Z Z) : list nat :=
  filter (λ i, truncated cut (hdr headers i) = false) (seq 0 (length headers)).

(** ** Snapshot sets *)

(** [sets], [baseSeen] and [bases]. *)
Definition setState : Type := gmap (Z * Z) (list nat) * gset Z * list Z.

Definition addSnapshot (headers : list Header) (s : setState) (i : nat) : setState :=
  let '(sets, baseSeen, bases) := s in
  let h := hdr headers i in
  if decide (hKind h ≠ KindSnapshot) then s else
  let k := (hEpoch h, hStartTxID h) in
  let sets := <[k := default [] (sets !! k) ++ [i]]> sets in
  if decide (hStartTxID h ∈ baseSeen) then (sets, baseSeen, bases)
  else (sets, {[hStartTxID h]} ∪ baseSeen, bases ++ [hStartTxID h]).

Definition snapshotSets (headers : list Header) (keep : list nat) : setState :=
  foldl (addSnapshot headers) (∅, ∅, []) keep.

(** [sort.Slice] with [>] on distinct values. *)
Definition desc (x y : Z) : Prop := y ≤ x.
#[global] Instance desc_dec : RelDecision desc.
Proof. intros x y. unfold desc. apply _. Defined.
#[global] Instance desc_total : Total desc.
Proof. intros x y. unfold desc. lia. Qed.
#[global] Instance desc_trans : Transitive desc.
Proof. intros x y z. unfold desc. lia. Qed.

Definition sortDesc (l : list Z) : list Z := merge_sort desc l.

(** The epochs that have a snapshot at [base], newest first. *)
Definition epochsOf (sets : gmap (Z * Z) (list nat)) (base : Z) : list Z :=
  sortDesc (filter (λ kv, kv.1.2 = base) (map_to_list sets)).*1.*1.

(** The loop of [completeSnapshotSet]; [None] is its early [return false]. *)
Fixpoint snapshotParts (headers : list Header) (idx : list nat)
    (parts : gset Z) (pagedSeen : bool) (unpaged crc : Z) : option (gset Z * bool * Z) :=
  match idx with
  | [] => Some (parts, pagedSeen, unpaged)
  | i :: idx =>
      let h := hdr headers i in
      match SnapshotPart h with
      | None =>
          let unpaged := unpaged + 1 in
          if decide (1 < unpaged ∧ hCRC h ≠ crc) then None
          else snapshotParts headers idx parts pagedSeen unpaged (hCRC h)
      | Some part =>
          if decide (part ∈ parts) then None
          else snapshotParts headers idx ({[part]} ∪ parts) true unpaged crc
      end
  end.

Definition completeSnapshotSet (headers : list Header) (idx : list nat) : bool :=
  match idx with
  | [] => false
  | _ =>
      match snapshotParts headers idx ∅ false 0 0 with
      | None => false
      | Some (parts, pagedSeen, unpaged) =>
          if decide (0 < unpaged) then negb pagedSeen
          else if negb pagedSeen then false
          else forallb (λ i, bool_decide (i ∈ parts)) (seqZ 0 (Z.of_nat (size parts)))
      end
  end.

(** ** The delta suffix *)

(** The order of the snapshot parts and of the deltas; both sorts are stable. *)
Definition part_le (headers : list Header) (i j : nat) : Prop :=
  partOf (hdr headers i) ≤ partOf (hdr headers j).
#[global] Instance part_le_dec headers : RelDecision (part_le headers).
Proof. intros i j. unfold part_le. apply _. Defined.

Definition delta_le (headers : list Header) (i j : nat) : Prop :=
  let a := hdr headers i in let b := hdr headers j in
  hStartTxID a < hStartTxID b ∨ hStartTxID a = hStartTxID b ∧ hEndTxID a ≤ hEndTxID b.
#[global] Instance delta_le_dec headers : RelDecision (delta_le headers).
Proof. intros i j. unfold delta_le. apply _. Defined.

Definition deltaTail (headers : list Header) (keep : list nat) (base : Z) : list nat :=
  merge_sort (delta_le headers)
    (filter (λ i, hKind (hdr headers i) = KindDelta ∧ base < hEndTxID (hdr headers i)) keep).

(** The contiguity loop; the result is [expected] at its end. *)
Fixpoint checkTail (headers : list Header) (expected : Z) (tail : list nat) : result chainError Z :=
  match tail with
  | [] => Ok expected
  | i :: tail =>
      let h := hdr headers i in
      reject (bool_decide (hEndTxID h < hStartTxID h)) (ErrDeltaRange (hStartTxID h) (hEndTxID h)) ;;ᵣ
      reject (bool_decide (hStartTxID h ≠ expected)) (ErrNonContiguous expected (hStartTxID h)) ;;ᵣ
      checkTail headers (u64 (hEndTxID h + 1)) tail
  end.

(** ** Selection *)

Definition chain : Type := list nat * list nat * Z.

(** The body of the epoch loop: one snapshot set and its suffix. *)
Definition tryEpoch (headers : list Header) (keep : list nat) (sets : gmap (Z * Z) (list nat))
    (base epoch : Z) : result chainError chain :=
  let snap := default [] (sets !! (epoch, base)) in
  if completeSnapshotSet headers snap then
    let snap := merge_sort (part_le headers) snap in
    let tail := deltaTail headers keep base in
    expected ←ᵣ checkTail headers (u64 (base + 1)) tail;
    Ok (snap, tail, u64 (expected - 1))
  else Err (ErrIncompleteSet base epoch).

(** [if firstErr == nil { firstErr = err }] *)
Definition keepFirst {E : Type} (firstErr : option E) (e : E) : option E :=
  match firstErr with None => Some e | Some _ => firstErr end.

(** The epoch loop: a chain, or [firstErr] after the loop. *)
Fixpoint tryEpochs (headers : list Header) (keep : list nat) (sets : gmap (Z * Z) (list nat))
    (base : Z) (epochs : list Z) (firstErr : option chainError) : chain + option chainError :=
  match epochs with
  | [] => inr firstErr
  | epoch :: epochs =>
      match tryEpoch headers keep sets base epoch with
      | Ok c => inl c
      | Err e => tryEpochs headers keep sets base epochs (keepFirst firstErr e)
      end
  end.

Fixpoint tryBases (headers : list Header) (keep : list nat) (sets : gmap (Z * Z) (list nat))
    (bases : list Z) (firstErr : option chainError) : chain + option chainError :=
  match bases with
  | [] => inr firstErr
  | base :: bases =>
      match tryEpochs headers keep sets base (epochsOf sets base) firstErr with
      | inl c => inl c
      | inr firstErr => tryBases headers keep sets bases firstErr
      end
  end.

Definition selectChain (headers : list Header) : result chainError chain :=
  cut ←ᵣ markerCuts headers ∅;
  let keep := keepIndices headers cut in
  let '(sets, _, bases) := snapshotSets headers keep in
  match bases with
  | [] => Err ErrNoSnapshot
  | _ =>
      match tryBases headers keep sets (sortDesc bases) None with
      | inl c => Ok c
      | inr (Some e) => Err e
      | inr None => Ok ([], [], 0)
      end
  end.

Fixpoint decodeHeaders (segments : list bytes) : result chainError (list Header) :=
  match segments with
  | [] => Ok []
  | raw :: segments =>
      '(h, _) ←ᵣ rmap_err ErrSegment (Decode raw);
      hs ←ᵣ decodeHeaders segments;
      Ok (h :: hs)
  end.

Definition ValidateChain (segments : list bytes) : result chainError unit :=
  headers ←ᵣ decodeHeaders segments;
  selectChain headers ;;ᵣ Ok tt.

(** The scenario of the package's tests: a complete epoch-1 snapshot, a fenced
    epoch-1 delta, and the epoch-2 delta that replaces it. *)
Example select_fenced :
  selectChain [MkHeader 1 KindSnapshot 0 1 5 5 0 0; MkHeader 1 KindDelta 0 1 6 8 0 0;
               MkHeader 1 KindMarker 0 2 7 6 0 0; MkHeader 1 KindDelta 0 1 6 6 0 0;
               MkHeader 1 KindDelta 0 2 7 9 0 0] = Ok ([0%nat], [3%nat; 4%nat], 9).
Proof. vm_compute. reflexivity. Qed.

(** ** Fencing *)

(** A newer epoch's marker cuts the older epochs' objects that end above it. *)
Definition fenced (headers : list Header) (h : Header) : Prop :=
  ∃ m, m ∈ headers ∧ hKind m = KindMarker ∧ hEpoch h < hEpoch m ∧ hEndTxID m < hEndTxID h.

#[global] Instance fenced_dec headers h : Decision (fenced headers h).
Proof.
  refine (cast_if (decide (Exists (λ m, hKind m = KindMarker ∧ hEpoch h < hEpoch m
                                        ∧ hEndTxID m < hEndTxID h) headers)));
  unfold fenced; by rewrite Exists_exists in *.
Defined.

(** The headers that no marker fences. *)
Definition live (headers : list Header) : list nat :=
  filter (λ i, ¬ fenced headers (hdr headers i)) (seq 0 (length headers)).

(** Markers must be well formed and agree with each other. *)
Definition markersOk (headers : list Header) : Prop :=
  ∀ m, m ∈ headers → hKind m = KindMarker →
    (hStartTxID m ≠ 0 ∧ u64 (hStartTxID m - 1) = hEndTxID m)
    ∧ ∀ m', m' ∈ headers → hKind m' = KindMarker → hEpoch m' = hEpoch m → hEndTxID m' = hEndTxID m.

(** [cut] holds the cuts of the markers of [seen]. *)
Definition cutsOf (seen : list Header) (cut : gmap Z Z) : Prop :=
  ∀ e c, cut !! e = Some c ↔
    ∃ m, m ∈ seen ∧ hKind m = KindMarker ∧ hEpoch m = e ∧ hEndTxID m = c.

Lemma cutsOf_snoc_other seen cut h :
  hKind h ≠ KindMarker → cutsOf seen cut → cutsOf (seen ++ [h]) cut.
Proof.
  intros Hk Hc e c. rewrite (Hc e c). split; intros (m & Hm & ? & ? & ?); exists m.
  - split; [|done]. by apply elem_of_app; left.
  - apply elem_of_app in Hm as [Hm | ->%list_elem_of_singleton]; done.
Qed.

Lemma cutsOf_snoc seen cut h :
  hKind h = KindMarker → (∀ c, cut !! hEpoch h = Some c → c = hEndTxID h) →
  cutsOf seen cut → cutsOf (seen ++ [h]) (<[hEpoch h := hEndTxID h]> cut).
Proof.
  intros Hk Hsame Hc e c. rewrite lookup_insert_Some. split.
  - intros [[<- <-]|[Hne He]]; [exists h; set_solver|].
    apply Hc in He as (m & Hm & ?). exists m. set_solver.
  - intros (m & Hm & Hmk & He & Hend). destruct (decide (hEpoch h = e)) as [Heq|Hne].
    + left. split; [done|]. apply elem_of_app in Hm as [Hm | ->%list_elem_of_singleton]; [|done].
      symmetry. apply Hsame. rewrite Heq. apply Hc. by exists m.
    + right. split; [done|]. apply Hc. exists m.
      apply elem_of_app in Hm as [Hm | ->%list_elem_of_singleton]; [done|congruence].
Qed.

Lemma markerCuts_sound headers seen cut cut' :
  cutsOf seen cut → markerCuts headers cut = Ok cut' → cutsOf (seen ++ headers) cut'.
Proof.
  revert seen cut. induction headers as [|h headers IH]; intros seen cut Hc H.
  - simpl in H. simplify_eq. by rewrite app_nil_r.
  - cbn [markerCuts] in H. rewrite cons_middle, app_assoc. case_decide as Hk.
    + inv_ok. eapply IH; [|done]. apply cutsOf_snoc; [done| |done].
      intros c Hl. rewrite Hl, bool_decide_eq_false in *. lia.
    + eapply IH; [|done]. by apply cutsOf_snoc_other.
Qed.

Lemma markerCuts_complete headers seen cut :
  markersOk (seen ++ headers) → cutsOf seen cut → ∃ cut', markerCuts headers cut = Ok cut'.
Proof.
  revert seen cut. induction headers as [|h headers IH]; intros seen cut Hok Hc; [by eexists|].
  rewrite cons_middle, app_assoc in Hok. cbn [markerCuts]. case_decide as Hk.
  - destruct (Hok h ltac:(set_solver) Hk) as [[H0 H1] Hsame].
    rewrite bool_decide_eq_false_2 by lia. cbn [reject rbind].
    assert (∀ c, cut !! hEpoch h = Some c → c = hEndTxID h) as Hcut.
    { intros c (m & Hm & Hmk & He & <-)%Hc. apply Hsame; [set_solver|done..]. }
    destruct (cut !! hEpoch h) as [c|] eqn:Hl.
    + rewrite (Hcut c), bool_decide_eq_false_2 by tauto. cbn [reject rbind].
      apply (IH (seen ++ [h])); [done|]. apply cutsOf_snoc; [done| |done]. by rewrite Hl.
    + cbn [reject rbind]. apply (IH (seen ++ [h])); [done|].
      apply cutsOf_snoc; [done| |done]. by rewrite Hl.
  - apply (IH (seen ++ [h])); [done|]. by apply cutsOf_snoc_other.
Qed.

Lemma truncated_fenced headers cut h :
  cutsOf headers cut → truncated cut h = true ↔ fenced headers h.
Proof.
  intros Hc. unfold truncated, fenced. rewrite existsb_exists. split.
  - intros ([e c] & Hin & Hlt). rewrite bool_decide_eq_true in Hlt. simpl in Hlt.
    apply list_elem_of_In, elem_of_map_to_list, Hc in Hin as (m & Hm & Hk & <- & <-).
    by exists m.
  - intros (m & Hm & Hk & He & Hend). exists (hEpoch m, hEndTxID m). split.
    + apply list_elem_of_In, elem_of_map_to_list, Hc. by exists m.
    + by apply bool_decide_eq_true.
Qed.

Lemma keepIndices_live headers cut :
  cutsOf headers cut → keepIndices headers cut = live headers.
Proof.
  intros Hc. unfold keepIndices, live. apply list_filter_iff. intros i.
  pose proof (truncated_fenced headers cut (hdr headers i) Hc) as Ht.
  destruct (truncated cut (hdr headers i)); naive_solver.
Qed.

(** ** Snapshot sets *)

(** The snapshots of one epoch at one base among the indices [l]. *)
Definition snapsAt (headers : list Header) (l : list nat) (epoch base : Z) : list nat :=
  filter (λ i, hKind (hdr headers i) = KindSnapshot ∧ hEpoch (hdr headers i) = epoch
               ∧ hStartTxID (hdr headers i) = base) l.

(** The loop state after the indices [l]. *)
Record sets_inv (headers : list Header) (l : list nat) (s : setState) : Prop := {
  si_sets e b : default [] (s.1.1 !! (e, b)) = snapsAt headers l e b;
  si_dom e b : is_Some (s.1.1 !! (e, b)) ↔ snapsAt headers l e b ≠ [];
  si_seen b : b ∈ s.1.2 ↔ b ∈ s.2;
  si_bases b : b ∈ s.2 ↔ ∃ e, snapsAt headers l e b ≠ [];
  si_nodup : NoDup s.2;
}.

Lemma snapsAt_snoc headers l i e b :
  let h := hdr headers i in
  snapsAt headers (l ++ [i]) e b
  = snapsAt headers l e b
    ++ if decide (hKind h = KindSnapshot ∧ hEpoch h = e ∧ hStartTxID h = b) then [i] else [].
Proof.
  cbv zeta. unfold snapsAt. rewrite filter_app, filter_cons, filter_nil. by repeat case_decide.
Qed.

Lemma addSnapshot_inv headers l s i :
  sets_inv headers l s → sets_inv headers (l ++ [i]) (addSnapshot headers s i).
Proof.
  destruct s as [[sets seen] bases]. intros [Hsets Hdom Hseen Hbases Hnd]. cbn [fst snd] in *.
  unfold addSnapshot. set (h := hdr headers i) in *.
  assert (∀ e b, snapsAt headers (l ++ [i]) e b = snapsAt headers l e b
    ++ if decide (hKind h = KindSnapshot ∧ hEpoch h = e ∧ hStartTxID h = b) then [i] else [])
    as Hsnoc by (intros; apply snapsAt_snoc).
  destruct (decide (hKind h ≠ KindSnapshot)) as [Hk|Hk].
  { assert (∀ e b, snapsAt headers (l ++ [i]) e b = snapsAt headers l e b) as Heq.
    { intros e b. rewrite Hsnoc, decide_False by tauto. apply app_nil_r. }
    split; cbn [fst snd]; intros; try done; rewrite ?Heq; try done.
    rewrite Hbases. by setoid_rewrite Heq. }
  apply dec_stable in Hk.
  assert (∀ b, (∃ e, snapsAt headers (l ++ [i]) e b ≠ []) ↔ b = hStartTxID h ∨ b ∈ bases) as Hb.
  { intros b. rewrite Hbases. setoid_rewrite Hsnoc. split.
    - intros [e He]. case_decide; [naive_solver|]. rewrite app_nil_r in He. naive_solver.
    - intros [->|[e He]]; [exists (hEpoch h); rewrite decide_True by done; by destruct (snapsAt _ _ _ _)|].
      exists e. by destruct (snapsAt headers l e b). }
  assert (∀ e b, default [] (<[(hEpoch h, hStartTxID h) := default [] (sets !! (hEpoch h, hStartTxID h)) ++ [i]]>
      sets !! (e, b)) = snapsAt headers (l ++ [i]) e b
    ∧ (is_Some (<[(hEpoch h, hStartTxID h) := default [] (sets !! (hEpoch h, hStartTxID h)) ++ [i]]>
      sets !! (e, b)) ↔ snapsAt headers (l ++ [i]) e b ≠ [])) as Hins.
  { intros e b. rewrite Hsnoc. destruct (decide ((hEpoch h, hStartTxID h) = (e, b))) as [Heq|Hne].
    - simplify_eq. rewrite lookup_insert_eq, decide_True, Hsets by done. simpl.
      split; [done|]. split; [by destruct (snapsAt _ _ _ _)|by eexists].
    - rewrite lookup_insert_ne, decide_False, app_nil_r by (done || (intros (_ & ? & ?); congruence)).
      split; [apply Hsets|apply Hdom]. }
  destruct (decide (hStartTxID h ∈ seen)) as [Hs|Hs]; split; cbn [fst snd]; intros; try apply Hins;
    rewrite ?Hb; try done.
  - rewrite Hseen in Hs. naive_solver.
  - rewrite elem_of_app, elem_of_union, Hseen, elem_of_singleton, list_elem_of_singleton. tauto.
  - rewrite elem_of_app, list_elem_of_singleton. tauto.
  - apply NoDup_app. split_and!; [done| |apply NoDup_singleton].
    intros x Hx ->%list_elem_of_singleton. by rewrite Hseen in Hs.
Qed.

Lemma snapshotSets_inv headers l : sets_inv headers l (snapshotSets headers l).
Proof.
  unfold snapshotSets. induction l as [|i l IH] using rev_ind.
  - split; cbn [foldl fst snd]; intros; rewrite ?lookup_empty.
    + done.
    + split; [by intros [? ?]|done].
    + set_solver.
    + split; [set_solver|by intros [? ?]].
    + constructor.
  - rewrite foldl_app. by apply addSnapshot_inv.
Qed.

Lemma sortDesc_perm l : sortDesc l ≡ₚ l.
Proof. apply merge_sort_Permutation. Qed.

Lemma sortDesc_sorted l : StronglySorted desc (sortDesc l).
Proof. apply (StronglySorted_merge_sort desc). Qed.

Lemma elem_of_epochsOf sets base e : e ∈ epochsOf sets base ↔ is_Some (sets !! (e, base)).
Proof.
  unfold epochsOf. rewrite sortDesc_perm, list_elem_of_fmap. setoid_rewrite list_elem_of_fmap.
  setoid_rewrite list_elem_of_filter. split.
  - intros (k & -> & [[e' b] v] & -> & Hb & Hin). simpl in *. subst b.
    apply elem_of_map_to_list in Hin. by eexists.
  - intros [v Hv]. exists (e, base). split; [done|]. exists (e, base, v). split_and!; [done|done|].
    by apply elem_of_map_to_list.
Qed.

(** ** Complete snapshot sets *)

Section complete.
Context (headers : list Header).

Definition partNo (i : nat) : option Z := SnapshotPart (hdr headers i).
Definition crcOf (i : nat) : Z := hCRC (hdr headers i).

(** One unpaged snapshot, possibly in several identical copies; or the parts
    [0..N-1] of a paged one, each exactly once. *)
Definition completeSet (idx : list nat) : Prop :=
  idx ≠ [] ∧
  ((∃ crc, Forall (λ i, partNo i = None ∧ crcOf i = crc) idx)
   ∨ partNo <$> idx ≡ₚ Some <$> seqZ 0 (zlen idx)).

Lemma partNo_nonneg i p : partNo i = Some p → 0 ≤ p.
Proof.
  unfold partNo, SnapshotPart. case_decide; [done|]. intros [= <-].
  apply Z.land_nonneg. right. by vm_compute.
Qed.

(** A run over unpaged copies. *)
Lemma snapshotParts_unpaged idx pg u crc :
  Forall (λ i, partNo i = None ∧ crcOf i = crc) idx → 0 ≤ u →
  snapshotParts headers idx ∅ pg u crc = Some (∅, pg, u + zlen idx).
Proof.
  intros Hf. revert u. induction Hf as [|i idx [Hp Hc] Hf IH]; intros u Hu; cbn [snapshotParts].
  { do 2 f_equal. simpl. lia. }
  unfold partNo, crcOf in *. rewrite Hp, decide_False by tauto.
  rewrite Hc, IH by lia. do 2 f_equal. simpl length. lia.
Qed.

Lemma snapshotParts_inv idx parts pg u crc P pg' u' :
  snapshotParts headers idx parts pg u crc = Some (P, pg', u') →
  NoDup (omap partNo idx) ∧ (∀ p, p ∈ omap partNo idx → p ∉ parts)
  ∧ P = list_to_set (omap partNo idx) ∪ parts
  ∧ pg' = pg || negb (bool_decide (omap partNo idx = []))
  ∧ u' = u + (zlen idx - zlen (omap partNo idx))
  ∧ (0 ≤ u → Forall (λ i, partNo i = None → u = 0 ∨ crcOf i = crc) idx
            ∧ ∃ c, Forall (λ i, partNo i = None → crcOf i = c) idx).
Proof.
  revert parts pg u crc. induction idx as [|i idx IH]; intros parts pg u crc H; cbn [snapshotParts] in H.
  { simplify_eq. simpl. rewrite orb_false_r.
    split_and!; [constructor|set_solver|set_solver|done|lia|]. intros _. split; [done|by exists 0]. }
  change (SnapshotPart (hdr headers i)) with (partNo i) in H.
  assert (omap partNo (i :: idx) = match partNo i with
    | Some p => p :: omap partNo idx | None => omap partNo idx end) as -> by done.
  destruct (partNo i) as [p|] eqn:Hp.
  - case_decide; [done|].
    apply IH in H as (Hnd & Hfresh & HP & Hpg & Hu & Hcrc).
    split_and!.
    + constructor; [|done]. intros Hin. apply (Hfresh p Hin). clear. set_solver.
    + intros q [->|Hq]%elem_of_cons; [done|]. specialize (Hfresh q Hq). clear - Hfresh. set_solver.
    + rewrite HP. clear. set_solver.
    + rewrite Hpg. simpl. by rewrite orb_true_r.
    + simpl length. lia.
    + intros Hu0. destruct (Hcrc Hu0) as [H1 [c H2]]. split; [|exists c]; constructor; try done; by rewrite Hp.
  - case_decide as Hd; [done|]. apply IH in H as (Hnd & Hfresh & HP & Hpg & Hu & Hcrc).
    split_and!; try done.
    + simpl length. lia.
    + intros Hu0. destruct (Hcrc ltac:(lia)) as [H1 _].
      assert (Forall (λ j, partNo j = None → crcOf j = crcOf i) idx) as Hsame.
      { eapply Forall_impl; [exact H1|]. intros j Hj Hn. destruct (Hj Hn); [lia|done]. }
      split; [|exists (crcOf i); by constructor].
      assert (u = 0 ∨ crcOf i = crc) as Hi.
      { destruct (decide (u = 0)); [by left|right]. unfold crcOf. apply dec_stable. lia. }
      constructor; [done|]. eapply Forall_impl; [exact Hsame|]. intros j Hj Hn.
      rewrite Hj by done. done.
Qed.

(** A run over distinct parts. *)
Lemma snapshotParts_paged idx ps parts pg u crc :
  partNo <$> idx = Some <$> ps → NoDup ps → (∀ p, p ∈ ps → p ∉ parts) →
  snapshotParts headers idx parts pg u crc
  = Some (list_to_set ps ∪ parts, pg || negb (bool_decide (ps = [])), u).
Proof.
  revert ps parts pg. induction idx as [|i idx IH]; intros [|p ps] parts pg Heq Hnd Hfresh; try done;
    cbn [snapshotParts].
  { do 3 f_equal; [|by rewrite orb_false_r]. simpl. by rewrite (left_id_L ∅ (∪)). }
  rewrite !fmap_cons in Heq. injection Heq as Hp Heq. unfold partNo in Hp. rewrite Hp.
  apply NoDup_cons in Hnd as [Hnot Hnd].
  rewrite decide_False by (apply Hfresh; left). rewrite (IH ps); [|done|done|].
  - do 3 f_equal; [|by rewrite orb_true_r]. clear. set_solver.
  - intros q Hq. specialize (Hfresh q (list_elem_of_further q p ps Hq)). set_solver.
Qed.

Lemma length_omap_le idx : (length (omap partNo idx) ≤ length idx)%nat.
Proof.
  induction idx as [|i idx IH]; [done|].
  change (omap partNo (i :: idx)) with (match partNo i with
    | Some p => p :: omap partNo idx | None => omap partNo idx end).
  destruct (partNo i); simpl length; lia.
Qed.

Lemma omap_full idx : zlen (omap partNo idx) = zlen idx → partNo <$> idx = Some <$> omap partNo idx.
Proof.
  intros Heq. induction idx as [|i idx IH]; [done|].
  pose proof (length_omap_le idx) as Hle.
  change (omap partNo (i :: idx)) with (match partNo i with
    | Some p => p :: omap partNo idx | None => omap partNo idx end) in *.
  rewrite fmap_cons. destruct (partNo i); simpl length in *; [|lia].
  rewrite fmap_cons. f_equal. apply IH. lia.
Qed.

Lemma omap_empty idx : omap partNo idx = [] → Forall (λ i, partNo i = None) idx.
Proof.
  induction idx as [|i idx IH]; [done|].
  change (omap partNo (i :: idx)) with (match partNo i with
    | Some p => p :: omap partNo idx | None => omap partNo idx end).
  destruct (partNo i) eqn:E; [done|]. intros H. constructor; auto.
Qed.

Lemma seq_permutation ps :
  NoDup ps → Forall (λ i, i ∈ ps) (seqZ 0 (zlen ps)) → ps ≡ₚ seqZ 0 (zlen ps).
Proof.
  intros Hnd Hall. symmetry. apply submseteq_length_Permutation.
  - apply NoDup_submseteq; [apply NoDup_seqZ|]. by apply Forall_forall.
  - rewrite length_seqZ. lia.
Qed.

Lemma completeSnapshotSet_spec idx : completeSnapshotSet headers idx = true ↔ completeSet idx.
Proof.
  destruct idx as [|i0 idx0] eqn:Hidx; [split; [done|by intros []]|]. rewrite <-Hidx.
  assert (completeSnapshotSet headers idx =
    match snapshotParts headers idx ∅ false 0 0 with
    | None => false
    | Some (parts, pagedSeen, unpaged) =>
        if decide (0 < unpaged) then negb pagedSeen
        else if negb pagedSeen then false
        else forallb (λ i, bool_decide (i ∈ parts)) (seqZ 0 (Z.of_nat (size parts)))
    end) as ->. { by subst idx. }
  assert (idx ≠ []) as Hne by by subst. clear Hidx i0 idx0. split.
  - destruct (snapshotParts headers idx ∅ false 0 0) as [[[P pg] u]|] eqn:E; [|done].
    apply snapshotParts_inv in E as (Hnd & _ & HP & Hpg & Hu & Hcrc). simpl in Hpg.
    intros H. split; [done|]. case_decide as Hpos.
    + left. destruct pg; [done|]. destruct (bool_decide _) eqn:Hb in Hpg; [|done].
      apply bool_decide_eq_true, omap_empty in Hb. destruct (Hcrc ltac:(done)) as [_ [c Hc]].
      exists c. rewrite Forall_forall in *. naive_solver.
    + right. destruct pg; [|done]. simpl in H.
      pose proof (length_omap_le idx). rewrite omap_full by lia.
      apply fmap_Permutation. replace (zlen idx) with (zlen (omap partNo idx)) by lia.
      apply seq_permutation; [done|]. apply Forall_forall. intros j Hj.
      rewrite forallb_forall in H. apply list_elem_of_In in Hj.
      assert (size P = length (omap partNo idx)) as Hsz.
      { rewrite HP, (right_id_L ∅ (∪)). by apply size_list_to_set. }
      rewrite Hsz in H. specialize (H j Hj). rewrite bool_decide_eq_true, HP in H. set_solver.
  - intros [_ [[crc Hall]|Hperm]].
    + destruct idx as [|i idx]; [done|]. apply Forall_cons in Hall as [[Hp Hc] Hall].
      cbn [snapshotParts]. unfold partNo in Hp. rewrite Hp, decide_False by lia.
      unfold crcOf in Hc. rewrite Hc, snapshotParts_unpaged by (done || lia).
      rewrite decide_True by lia. done.
    + destruct (Permutation_map_inv Some (seqZ 0 (zlen idx)) Hperm)
        as (ps & Hps & Hpp).
      assert (NoDup ps) as Hnd by (rewrite <-Hpp; apply NoDup_seqZ).
      rewrite (snapshotParts_paged idx ps) by (done || set_solver).
      assert (ps ≠ []) as Hne'.
      { intros ->. destruct idx; [done|]. discriminate Hps. }
      rewrite decide_False, bool_decide_eq_false_2 by (done || lia). simpl.
      rewrite (right_id_L ∅ (∪)), size_list_to_set by done.
      apply forallb_forall. intros j Hj%list_elem_of_In.
      apply bool_decide_eq_true. rewrite elem_of_list_to_set, <-Hpp.
      by rewrite <-(Permutation_length Hpp), length_seqZ, Nat2Z.id in Hj.
Qed.
End complete.

(** ** Contiguous suffixes *)

(** The deltas [tail] cover the transactions [b + 1 .. w] one after the other. *)
Fixpoint contiguous (headers : list Header) (b : Z) (tail : list nat) (w : Z) : Prop :=
  match tail with
  | [] => w = b
  | i :: tail =>
      hStartTxID (hdr headers i) = b + 1 ∧ b < hEndTxID (hdr headers i)
      ∧ contiguous headers (hEndTxID (hdr headers i)) tail w
  end.

(** Transaction identifiers below the largest [uint64]. *)
Definition txidOk (t : Z) : Prop := 0 ≤ t < 2 ^ 64 - 1.
Definition txidsOk (headers : list Header) : Prop :=
  Forall (λ h, txidOk (hStartTxID h) ∧ txidOk (hEndTxID h)) headers.

Lemma hdr_txidOk headers i :
  txidsOk headers → txidOk (hStartTxID (hdr headers i)) ∧ txidOk (hEndTxID (hdr headers i)).
Proof.
  intros Hok. unfold hdr. destruct (headers !! i) as [h|] eqn:E; simpl.
  - by eapply (Forall_lookup_1 _ _ _ _ Hok).
  - unfold txidOk. lia.
Qed.

Lemma checkTail_contiguous headers b tail e :
  txidsOk headers → txidOk b →
  checkTail headers (u64 (b + 1)) tail = Ok e ↔ contiguous headers b tail (e - 1).
Proof.
  intros Hok. revert b. induction tail as [|i tail IH]; intros b Hb; unfold txidOk in Hb.
  - cbn [checkTail contiguous]. rewrite u64_id by lia. split; [intros [= <-]; lia|intros; f_equal; lia].
  - cbn [checkTail contiguous]. destruct (hdr_txidOk headers i Hok) as [Hs He].
    rewrite u64_id by lia. rewrite reject_Ok, bool_decide_eq_false.
    rewrite reject_Ok, bool_decide_eq_false, IH by done. intuition lia.
Qed.

Lemma contiguous_le headers b tail w :
  contiguous headers b tail w → b ≤ w ∧ ∀ i, i ∈ tail → hEndTxID (hdr headers i) ≤ w.
Proof.
  revert b. induction tail as [|i tail IH]; intros b; cbn [contiguous].
  - intros ->. split; [lia|set_solver].
  - intros (Hs & Hlt & H). apply IH in H as [Hle Hall]. split; [lia|].
    intros j [->|Hj]%elem_of_cons; [done|by apply Hall].
Qed.

Lemma contiguous_txidOk headers b tail w :
  txidsOk headers → txidOk b → contiguous headers b tail w → txidOk w.
Proof.
  intros Hok. revert b. induction tail as [|i tail IH]; intros b Hb; cbn [contiguous]; [by intros ->|].
  intros (_ & _ & H). eapply IH; [|done]. by apply hdr_txidOk.
Qed.

(** ** The chosen chain *)

(** A snapshot set that a restore could start from, with the watermark it reaches. *)
Definition usable (headers : list Header) (epoch base w : Z) : Prop :=
  completeSet headers (snapsAt headers (live headers) epoch base)
  ∧ contiguous headers base (deltaTail headers (live headers) base) w.

Section selection.
Context (headers : list Header) (Hok : txidsOk headers).
Let keep : list nat := live headers.
Let sets : gmap (Z * Z) (list nat) := (snapshotSets headers keep).1.1.

Lemma base_txidOk epoch base : snapsAt headers keep epoch base ≠ [] → txidOk base.
Proof.
  destruct (snapsAt headers keep epoch base) as [|i l] eqn:E; [done|]. intros _.
  assert (i ∈ snapsAt headers keep epoch base) as Hi by (rewrite E; left).
  apply list_elem_of_filter in Hi as [(_ & _ & <-) _]. by apply hdr_txidOk.
Qed.

Definition chainOf (epoch base w : Z) : chain :=
  (merge_sort (part_le headers) (snapsAt headers keep epoch base),
   deltaTail headers keep base, w).

Lemma tryEpoch_usable base epoch c :
  tryEpoch headers keep sets base epoch = Ok c
  ↔ ∃ w, usable headers epoch base w ∧ c = chainOf epoch base w.
Proof.
  pose proof (snapshotSets_inv headers keep) as [Hsets _ _ _ _]. unfold tryEpoch, sets.
  rewrite Hsets. unfold usable, chainOf. setoid_rewrite <-completeSnapshotSet_spec. fold keep.
  destruct (completeSnapshotSet headers (snapsAt headers keep epoch base)) eqn:Hc.
  2: { split; [done|]. by intros (w & [? _] & _). }
  assert (txidOk base) as Hb.
  { apply (base_txidOk epoch). intros E. by rewrite E in Hc. }
  rewrite rbind_Ok. split.
  - intros (e & He & Hr). apply (inj Ok) in Hr as <-.
    apply checkTail_contiguous in He; [|done..].
    exists (e - 1). split; [done|]. f_equal. apply u64_id.
    apply contiguous_txidOk in He; [|done..]. unfold txidOk in He. lia.
  - intros (w & [_ Hw] & ->). exists (w + 1). rewrite checkTail_contiguous by done.
    replace (w + 1 - 1) with w by lia. split; [done|]. do 2 f_equal.
    apply contiguous_txidOk in Hw; [|done..]. unfold txidOk in Hw. apply u64_id. lia.
Qed.

Definition noChain (base epoch : Z) : Prop := ∀ w, ¬ usable headers epoch base w.

Lemma tryEpoch_Err base epoch e : tryEpoch headers keep sets base epoch = Err e → noChain base epoch.
Proof.
  intros He w Hw. assert (tryEpoch headers keep sets base epoch = Ok (chainOf epoch base w)) as Hok'.
  { apply tryEpoch_usable. by exists w. }
  congruence.
Qed.

Lemma tryEpochs_spec base epochs fe :
  match tryEpochs headers keep sets base epochs fe with
  | inl c => ∃ pre epoch post w, epochs = pre ++ epoch :: post ∧ usable headers epoch base w
      ∧ c = chainOf epoch base w ∧ Forall (noChain base) pre
  | inr fe' => Forall (noChain base) epochs ∧ (epochs ≠ [] ∨ is_Some fe → is_Some fe')
  end.
Proof.
  revert fe. induction epochs as [|epoch epochs IH]; intros fe; cbn [tryEpochs].
  { split; [constructor|]. by intros [?|?]. }
  destruct (tryEpoch headers keep sets base epoch) as [c|e] eqn:E.
  - apply tryEpoch_usable in E as (w & Hw & ->). by exists [], epoch, epochs, w.
  - apply tryEpoch_Err in E. specialize (IH (keepFirst fe e)).
    assert (is_Some (keepFirst fe e)) as Hsome by (destruct fe; by eexists).
    destruct (tryEpochs _ _ _ _ _ _) as [c|fe'].
    + destruct IH as (pre & e' & post & w & -> & Hw & -> & Hpre).
      exists (epoch :: pre), e', post, w. split_and!; try done. by constructor.
    + destruct IH as [Hall Hfe]. split; [by constructor|]. intros _. apply Hfe. by right.
Qed.

Lemma tryBases_spec bases fe :
  (∀ b, b ∈ bases → epochsOf sets b ≠ []) →
  match tryBases headers keep sets bases fe with
  | inl c => ∃ pre base post pre' epoch post' w, bases = pre ++ base :: post
      ∧ epochsOf sets base = pre' ++ epoch :: post' ∧ usable headers epoch base w
      ∧ c = chainOf epoch base w ∧ Forall (noChain base) pre'
      ∧ Forall (λ b, Forall (noChain b) (epochsOf sets b)) pre
  | inr fe' => Forall (λ b, Forall (noChain b) (epochsOf sets b)) bases
               ∧ (bases ≠ [] ∨ is_Some fe → is_Some fe')
  end.
Proof.
  revert fe. induction bases as [|base bases IH]; intros fe Hne; cbn [tryBases].
  { split; [constructor|]. by intros [?|?]. }
  pose proof (tryEpochs_spec base (epochsOf sets base) fe) as He.
  destruct (tryEpochs _ _ _ _ _ _) as [c|fe1].
  - destruct He as (pre & e & post & w & He & Hw & -> & Hpre).
    by exists [], base, bases, pre, e, post, w.
  - destruct He as [Hall Hfe1]. specialize (IH fe1).
    assert (is_Some fe1) as Hsome by (apply Hfe1; left; apply Hne; left).
    destruct (tryBases _ _ _ _ _) as [c|fe'].
    + destruct IH as (pre & b & post & pre' & e & post' & w & -> & He & Hw & -> & Hpre & Hpres).
      { intros b Hb. apply Hne. by right. }
      exists (base :: pre), b, post, pre', e, post', w. split_and!; try done. by constructor.
    + destruct IH as [Hrest Hfe']; [intros b Hb; apply Hne; by right|].
      split; [by constructor|]. intros _. apply Hfe'. by right.
Qed.

Lemma sorted_desc_mid pre (x : Z) post y :
  StronglySorted desc (pre ++ x :: post) → y ∈ pre ++ x :: post → y ∈ pre ∨ y ≤ x.
Proof.
  intros Hs Hy. apply elem_of_app in Hy as [Hy|[->|Hy]%elem_of_cons]; [by left|right; lia|right].
  apply StronglySorted_app in Hs as (_ & _ & Hs). apply StronglySorted_inv in Hs as [_ Hs].
  rewrite Forall_forall in Hs. apply (Hs y Hy).
Qed.
End selection.

Lemma usable_epochs headers epoch base w :
  usable headers epoch base w →
  let s := snapshotSets headers (live headers) in
  base ∈ s.2 ∧ epoch ∈ epochsOf s.1.1 base.
Proof.
  intros [[Hne _] _]. cbv zeta. pose proof (snapshotSets_inv headers (live headers)) as [_ Hdom _ Hb _].
  rewrite elem_of_epochsOf, Hdom, Hb. by split; [exists epoch|].
Qed.

Lemma epochsOf_nonempty headers base :
  let s := snapshotSets headers (live headers) in base ∈ s.2 → epochsOf s.1.1 base ≠ [].
Proof.
  cbv zeta. pose proof (snapshotSets_inv headers (live headers)) as [_ Hdom _ Hb _].
  intros [e He]%Hb Hnil. apply Hdom, elem_of_epochsOf in He. rewrite Hnil in He. set_solver.
Qed.

(** The newest usable snapshot wins, the newest epoch among equals. *)
Definition newest (headers : list Header) (epoch base : Z) : Prop :=
  ∀ epoch' base' w', usable headers epoch' base' w' →
    base' < base ∨ base' = base ∧ epoch' ≤ epoch.

Lemma select_sound headers c :
  txidsOk headers → selectChain headers = Ok c →
  ∃ epoch base w, usable headers epoch base w ∧ c = chainOf headers epoch base w
    ∧ newest headers epoch base.
Proof.
  intros Hok H. unfold selectChain in H. inv_ok. cbv zeta in H. rename a into cut.
  rewrite (keepIndices_live headers cut) in H.
  2: { apply (markerCuts_sound headers [] ∅ cut); [|done].
       intros e c'. rewrite lookup_empty. split; [done|]. intros (m & Hm & _). set_solver. }
  pose proof (epochsOf_nonempty headers) as Hne. cbv zeta in Hne.
  pose proof (usable_epochs headers) as Hue. cbv zeta in Hue.
  pose proof (tryBases_spec headers Hok (sortDesc (snapshotSets headers (live headers)).2) None) as Ht.
  destruct (snapshotSets headers (live headers)) as [[sets seen] bases]. cbn [fst snd] in *.
  assert (bases ≠ []) as Hnil by by destruct bases.
  assert (match tryBases headers (live headers) sets (sortDesc bases) None with
          | inl c => Ok c | inr (Some e) => Err e | inr None => Ok ([], [], 0) end = Ok c) as H'
    by by destruct bases.
  clear H. destruct (tryBases _ _ _ _ _) as [c'|fe].
  - apply (inj Ok) in H' as ->.
    destruct Ht as (pre & b & post & pre' & e & post' & w & Hb & He & Hw & -> & Hpre' & Hpre).
    { intros b. rewrite sortDesc_perm. apply Hne. }
    exists e, b, w. split_and!; [done..|]. intros e' b' w' Hw'.
    destruct (Hue _ _ _ Hw') as [Hb' He']. rewrite <-sortDesc_perm, Hb in Hb'.
    pose proof (sortDesc_sorted bases) as Hsb. rewrite Hb in Hsb.
    destruct (sorted_desc_mid _ _ _ _ Hsb Hb') as [Hin|Hle].
    { rewrite Forall_forall in Hpre. specialize (Hpre b' Hin). rewrite Forall_forall in Hpre.
      by destruct (Hpre e' He' w'). }
    destruct (decide (b' = b)) as [->|]; [right; split; [done|]|left; lia].
    assert (StronglySorted desc (epochsOf sets b)) as Hse by apply sortDesc_sorted.
    rewrite He in Hse, He'. destruct (sorted_desc_mid _ _ _ _ Hse He') as [Hin|]; [|done].
    rewrite Forall_forall in Hpre'. by destruct (Hpre' e' Hin w').
  - destruct Ht as [_ Hfe]; [intros b; rewrite sortDesc_perm; apply Hne|].
    destruct fe; [done|]. destruct Hfe as [? [=]]. left. intros Hs. apply Hnil.
    by rewrite <-Permutation_nil_r, <-Hs, sortDesc_perm.
Qed.

Lemma select_complete headers epoch base w :
  txidsOk headers → markersOk headers → usable headers epoch base w →
  ∃ c, selectChain headers = Ok c.
Proof.
  intros Hok Hm Hw. unfold selectChain.
  assert (cutsOf [] ∅) as H0.
  { intros e c'. rewrite lookup_empty. split; [done|]. intros (m & Hm' & _). set_solver. }
  destruct (markerCuts_complete headers [] ∅ Hm H0) as [cut Hcut]. rewrite Hcut. cbn [rbind].
  rewrite (keepIndices_live headers cut) by (by apply (markerCuts_sound headers [] ∅ cut)).
  pose proof (epochsOf_nonempty headers) as Hne. cbv zeta in Hne.
  pose proof (usable_epochs headers _ _ _ Hw) as [Hb He].
  pose proof (tryBases_spec headers Hok (sortDesc (snapshotSets headers (live headers)).2) None) as Ht.
  destruct (snapshotSets headers (live headers)) as [[sets seen] bases]. cbn [fst snd] in *.
  destruct bases as [|b0 bases]; [set_solver|].
  destruct (tryBases _ _ _ _ _) as [c'|fe]; [by eexists|].
  destruct Ht as [Hall _]; [intros b; rewrite sortDesc_perm; apply Hne|].
  rewrite <-sortDesc_perm in Hb. rewrite Forall_forall in Hall. specialize (Hall base Hb).
  rewrite Forall_forall in Hall. by destruct (Hall epoch He w).
Qed.

#[global] Instance part_le_total headers : Total (part_le headers).
Proof. intros i j. unfold part_le. lia. Qed.
#[global] Instance part_le_trans headers : Transitive (part_le headers).
Proof. intros i j k. unfold part_le. lia. Qed.

Lemma elem_of_deltaTail headers l base i :
  i ∈ deltaTail headers l base
  ↔ i ∈ l ∧ hKind (hdr headers i) = KindDelta ∧ base < hEndTxID (hdr headers i).
Proof.
  unfold deltaTail. rewrite merge_sort_Permutation, list_elem_of_filter. tauto.
Qed.

(** ** A chain that is one snapshot *)

Lemma filter_iff_elem {A} (P Q : A → Prop) `{!∀ x, Decision (P x), !∀ x, Decision (Q x)} (l : list A) :
  (∀ x, x ∈ l → P x ↔ Q x) → filter P l = filter Q l.
Proof.
  induction l as [|x l IH]; intros Hiff; [done|]. rewrite !filter_cons, IH by (intros y Hy; apply Hiff; by right).
  pose proof (Hiff x (list_elem_of_here x l)). by repeat case_decide; naive_solver.
Qed.

Lemma hdr_filter (hs : list Header) (P : Header → Prop) `{!∀ h, Decision (P h)} :
  hdr hs <$> filter (λ i, P (hdr hs i)) (seq 0 (length hs)) = filter P hs.
Proof.
  induction hs as [|h hs IH] using rev_ind; [done|].
  rewrite length_app, Nat.add_1_r, seq_S, !filter_app, fmap_app. simpl.
  assert (∀ i, (i < length hs)%nat → hdr (hs ++ [h]) i = hdr hs i) as Hl.
  { intros i Hi. unfold hdr. by rewrite lookup_app_l. }
  assert (hdr (hs ++ [h]) (length hs) = h) as Hlast.
  { unfold hdr. by rewrite lookup_app_r, Nat.sub_diag by lia. }
  f_equal.
  - rewrite <-IH. clear IH.
    assert (filter (λ i, P (hdr (hs ++ [h]) i)) (seq 0 (length hs)) = filter (λ i, P (hdr hs i)) (seq 0 (length hs))) as ->.
    { apply filter_iff_elem. intros i [_ Hi]%elem_of_seq. by rewrite Hl by lia. }
    apply list_fmap_ext. intros k i Hk. apply list_elem_of_lookup_2, list_elem_of_filter in Hk as [_ [_ Hi]%elem_of_seq].
    apply Hl. lia.
  - rewrite !filter_cons, !filter_nil, Hlast. by case_decide; simpl; rewrite ?Hlast.
Qed.

Section oneSnapshot.
Context (hs : list Header) (E W : Z) (HW : txidOk W) (Htx : txidsOk hs) (Hm : markersOk hs).
Context (Hall : ∀ h, h ∈ hs → hEpoch h = E
  ∧ (hKind h = KindMarker ∨ hKind h = KindSnapshot ∧ hStartTxID h = W ∧ hEndTxID h = W)).

Definition snapIdx : list nat := filter (λ i, hKind (hdr hs i) = KindSnapshot) (seq 0 (length hs)).
Context (Hset : completeSet hs snapIdx).

Lemma one_hdr i : (i < length hs)%nat → hdr hs i ∈ hs.
Proof. intros Hi. unfold hdr. destruct (lookup_lt_is_Some_2 hs i Hi) as [h Hh]. rewrite Hh. by eapply list_elem_of_lookup_2. Qed.

Lemma one_live : live hs = seq 0 (length hs).
Proof.
  unfold live. apply list_filter_all. apply Forall_forall. intros i [_ Hi]%elem_of_seq (m & Hin & _ & He & _).
  destruct (Hall m Hin) as [Em _]. destruct (Hall _ (one_hdr i Hi)) as [Eh _]. lia.
Qed.

Lemma one_snapsAt : snapsAt hs (live hs) E W = snapIdx.
Proof.
  rewrite one_live. unfold snapsAt, snapIdx. apply filter_iff_elem. intros i [_ Hi]%elem_of_seq.
  destruct (Hall _ (one_hdr i Hi)) as [He [Hk|(Hk & Hs & _)]]; rewrite Hk; naive_solver.
Qed.

Lemma one_unique e b : snapsAt hs (live hs) e b ≠ [] → e = E ∧ b = W.
Proof.
  rewrite one_live. destruct (snapsAt _ _ _ _) as [|i l] eqn:Hs; [done|]. intros _.
  assert (i ∈ snapsAt hs (seq 0 (length hs)) e b) as Hi by (rewrite Hs; left).
  apply list_elem_of_filter in Hi as [(Hk & <- & <-) [_ Hi]%elem_of_seq].
  destruct (Hall _ (one_hdr i Hi)) as [He [Hk'|(_ & Hs' & _)]]; [by rewrite Hk in Hk'|done].
Qed.

Lemma one_tail b : deltaTail hs (live hs) b = [].
Proof.
  apply elem_of_nil_inv. intros i (Hi & Hk & _)%elem_of_deltaTail. rewrite one_live, elem_of_seq in Hi.
  destruct (Hall _ (one_hdr i (proj2 Hi))) as [_ [Hk'|(Hk' & _)]]; by rewrite Hk' in Hk.
Qed.

Lemma select_one : selectChain hs = Ok (merge_sort (part_le hs) snapIdx, [], W).
Proof.
  assert (usable hs E W W) as Hus.
  { split; [by rewrite one_snapsAt|by rewrite one_tail]. }
  destruct (select_complete hs E W W Htx Hm Hus) as [c Hc].
  rewrite Hc. apply select_sound in Hc as (e & b & w & [[Hn _] Hcont] & -> & _); [|done].
  apply one_unique in Hn as [-> ->]. rewrite one_tail in Hcont. simpl in Hcont. subst w.
  unfold chainOf. by rewrite one_snapsAt, one_tail.
Qed.
End oneSnapshot.

(** ** Properties *)

(** C24: the chain that [selectChain] returns starts from a complete snapshot set of
    one epoch, its parts in order; its deltas are all the unfenced deltas that
    reach beyond the snapshot, they follow it without a gap or an overlap up to
    the watermark, and no unfenced delta ends beyond the watermark; and no usable
    snapshot is newer. *)
Theorem selectChain_sound headers snaps deltas w :
  txidsOk headers → selectChain headers = Ok (snaps, deltas, w) →
  ∃ epoch base, completeSet headers snaps
    ∧ snaps ≡ₚ snapsAt headers (live headers) epoch base
    ∧ StronglySorted (part_le headers) snaps
    ∧ contiguous headers base deltas w
    ∧ (∀ i, i ∈ deltas ↔ i ∈ live headers ∧ hKind (hdr headers i) = KindDelta
                         ∧ base < hEndTxID (hdr headers i))
    ∧ (∀ i, i ∈ live headers → hKind (hdr headers i) = KindDelta → hEndTxID (hdr headers i) ≤ w)
    ∧ newest headers epoch base.
Proof.
  intros Hok H. apply select_sound in H as (epoch & base & w' & [Hset Hcont] & Hc & Hnew); [|done].
  unfold chainOf in Hc. simplify_eq. exists epoch, base.
  destruct (contiguous_le _ _ _ _ Hcont) as [Hle Hmax]. split_and!; try done.
  - pose proof (merge_sort_Permutation (part_le headers) (snapsAt headers (live headers) epoch base)) as Hp.
    destruct Hset as [Hne Hcase]. split; [by intros E; rewrite E in Hp; apply Permutation_nil_l in Hp|].
    destruct Hcase as [[crc Hall]|Hparts]; [left; exists crc; by rewrite Hp|right].
    by rewrite Hp.
  - apply merge_sort_Permutation.
  - apply (StronglySorted_merge_sort (part_le headers)).
  - intros i. apply elem_of_deltaTail.
  - intros i Hi Hk. destruct (decide (base < hEndTxID (hdr headers i))); [|lia].
    apply Hmax, elem_of_deltaTail. done.
Qed.

Definition witnessChain : list Header :=
  [MkHeader 1 KindSnapshot 0 1 5 5 0 0; MkHeader 1 KindDelta 0 1 6 8 0 0;
   MkHeader 1 KindMarker 0 2 7 6 0 0; MkHeader 1 KindDelta 0 1 6 6 0 0;
   MkHeader 1 KindDelta 0 2 7 9 0 0].

Lemma selectChain_sound_witness :
  ∃ epoch base, completeSet witnessChain [0%nat]
    ∧ [0%nat] ≡ₚ snapsAt witnessChain (live witnessChain) epoch base
    ∧ StronglySorted (part_le witnessChain) [0%nat]
    ∧ contiguous witnessChain base [3%nat; 4%nat] 9
    ∧ (∀ i, i ∈ [3%nat; 4%nat] ↔ i ∈ live witnessChain ∧ hKind (hdr witnessChain i) = KindDelta
                         ∧ base < hEndTxID (hdr witnessChain i))
    ∧ (∀ i, i ∈ live witnessChain → hKind (hdr witnessChain i) = KindDelta →
          hEndTxID (hdr witnessChain i) ≤ 9)
    ∧ newest witnessChain epoch base.
Proof.
  apply selectChain_sound.
  - repeat constructor; vm_compute; intuition discriminate.
  - vm_compute. reflexivity.
Defined.

(** C25: a restore is refused only for a reason: when the epoch markers are well
    formed and some unfenced snapshot set is complete and has a contiguous delta
    suffix, [selectChain] returns a chain. *)
Theorem selectChain_complete headers epoch base w :
  txidsOk headers → markersOk headers → usable headers epoch base w →
  ∃ c, selectChain headers = Ok c.
Proof. apply select_complete. Qed.

Lemma selectChain_complete_witness : ∃ c, selectChain witnessChain = Ok c.
Proof.
  apply (selectChain_complete witnessChain 1 5 9).
  - repeat constructor; vm_compute; intuition discriminate.
  - intros m Hm Hk. assert (m = MkHeader 1 KindMarker 0 2 7 6 0 0) as ->.
    { repeat (apply elem_of_cons in Hm as [-> | Hm]; [first [done | discriminate Hk]|]). by apply not_elem_of_nil in Hm. }
    split; [vm_compute; intuition discriminate|]. intros m' Hm' Hk' _.
    repeat (apply elem_of_cons in Hm' as [-> | Hm']; [first [done | discriminate Hk']|]).
    by apply not_elem_of_nil in Hm'.
  - split.
    + apply completeSnapshotSet_spec. vm_compute. reflexivity.
    + assert (deltaTail witnessChain (live witnessChain) 5 = [3%nat; 4%nat]) as ->
        by (vm_compute; reflexivity).
      vm_compute. intuition discriminate.
Defined.
