(* ===== verification/Restore.v ===== *)
(** * Restoring and compacting a chain ([internal/restore/restore.go])

    [mergeChain] overlays the deltas of the selected chain on its snapshot,
    [ApplyFile] writes the result to a database file and [Compact] writes it back
    as one snapshot. The theorems say that the merged pages are the last versions
    in the chain, that a compacted chain restores to the same database, and that
    [ApplyFile] either installs the complete image or leaves the file as it was. *)

From S2P Require Import Prelude Lz4 Ltx WalPayload PageMap SnapshotParts Chain.

Inductive restoreError : Set :=
| ErrDecodeSegment (i : Z) (e : Ltx.error)
| ErrSelect (e : chainError)
| ErrReDecode (e : Ltx.error)
| ErrSnapshotMap (e : PageMap.error)
| ErrSnapshotPageSize
| ErrSnapshotCommit (c commit : Z)
| ErrConflictingPage (pgno : Z)
| ErrDeltaMap (start : Z) (e : PageMap.error)
| ErrSnapshotEmpty
| ErrMissingPage (pgno : Z)
| ErrEndless
| ErrRestorePageLength (pgno : Z)
| ErrCompact (e : partError)
| ErrOS.

(** ** mergeChain *)

(** The decode loop: headers, raw segments and the first non-zero epoch. *)
Fixpoint decodeSegments (i epoch : Z) (segments : list bytes)
    : result restoreError (Z * list (Header * bytes)) :=
  match segments with
  | [] => Ok (epoch, [])
  | s :: segments =>
      '(h, _) ←ᵣ rmap_err (ErrDecodeSegment i) (Decode s);
      let epoch := if decide (epoch = 0) then hEpoch h else epoch in
      '(epoch, segs) ←ᵣ decodeSegments (i + 1) epoch segments;
      Ok (epoch, (h, s) :: segs)
  end.

Definition segAt (segs : list (Header * bytes)) (i : nat) : Header * bytes :=
  default (zeroHeader, []) (segs !! i).

(** The page loop of a snapshot part. *)
Fixpoint addSnapshotPages (pages : list WALPage) (pageMap : gmap Z bytes)
    : result restoreError (gmap Z bytes) :=
  match pages with
  | [] => Ok pageMap
  | p :: pages =>
      match pageMap !! PageNo p with
      | Some existing =>
          if decide (existing = Data p) then addSnapshotPages pages pageMap
          else Err (ErrConflictingPage (PageNo p))
      | None => addSnapshotPages pages (<[PageNo p := Data p]> pageMap)
      end
  end.

Fixpoint mergeSnapshots (segs : list (Header * bytes)) (snapshots : list nat)
    (s : Z * Z * gmap Z bytes) : result restoreError (Z * Z * gmap Z bytes) :=
  match snapshots with
  | [] => Ok s
  | i :: snapshots =>
      let '(ps, cm, pageMap) := s in
      '(_, payload) ←ᵣ rmap_err ErrReDecode (Decode (segAt segs i).2);
      d ←ᵣ rmap_err ErrSnapshotMap (DecodeWALPageMap payload);
      ps ←ᵣ (if decide (ps = 0) then Ok (dPageSize d)
             else reject (bool_decide (dPageSize d ≠ ps)) ErrSnapshotPageSize ;;ᵣ Ok ps);
      cm ←ᵣ (if decide (cm = 0) then Ok (dCommit d)
             else reject (bool_decide (dCommit d ≠ cm)) (ErrSnapshotCommit (dCommit d) cm) ;;ᵣ Ok cm);
      pageMap ←ᵣ addSnapshotPages (dPages d) pageMap;
      mergeSnapshots segs snapshots (ps, cm, pageMap)
  end.

(** The page loop of a delta. *)
Definition addDeltaPages (pages : list WALPage) (pageMap : gmap Z bytes) : gmap Z bytes :=
  foldl (λ m p, <[PageNo p := Data p]> m) pageMap pages.

Fixpoint mergeDeltas (segs : list (Header * bytes)) (deltas : list nat)
    (s : Z * gmap Z bytes) : result restoreError (Z * gmap Z bytes) :=
  match deltas with
  | [] => Ok s
  | i :: deltas =>
      let '(cm, pageMap) := s in
      '(_, payload) ←ᵣ rmap_err ErrReDecode (Decode (segAt segs i).2);
      d ←ᵣ rmap_err (ErrDeltaMap (hStartTxID (segAt segs i).1)) (DecodeWALPageMap payload);
      let pageMap := addDeltaPages (dPages d) pageMap in
      let cm := if decide (0 < dCommit d) then dCommit d else cm in
      mergeDeltas segs deltas (cm, pageMap)
  end.

(** A pass of [for pgno := 1; pgno <= commit; pgno++]. *)
Fixpoint collectFrom (pageMap : gmap Z bytes) (pgnos : list Z) : result restoreError (list WALPage) :=
  match pgnos with
  | [] => Ok []
  | pgno :: pgnos =>
      match pageMap !! pgno with
      | None => Err (ErrMissingPage pgno)
      | Some data => out ←ᵣ collectFrom pageMap pgnos; Ok (MkWALPage pgno data :: out)
      end
  end.

(** The counter has 32 bits. For the largest commit it comes round to page 0, which is missing, or
    else the loop does not end: [ErrEndless] stands for that, it is no error of the code. *)
Definition collectPages (pageMap : gmap Z bytes) (cm : Z) : result restoreError (list WALPage) :=
  out ←ᵣ collectFrom pageMap (seqZ 1 cm);
  if decide (cm = 2 ^ 32 - 1)
  then Err (match pageMap !! 0 with None => ErrMissingPage 0 | Some _ => ErrEndless end)
  else Ok out.

Record merged := MkMerged {
  mPageSize : Z;
  mCommit : Z;
  mEpoch : Z;
  mWatermark : Z;
  mPages : list WALPage;
}.

Definition mergeChain (segments : list bytes) : result restoreError merged :=
  '(epoch, segs) ←ᵣ decodeSegments 0 0 segments;
  '(snapshots, deltas, watermark) ←ᵣ rmap_err ErrSelect (selectChain segs.*1);
  '(ps, cm, pageMap) ←ᵣ mergeSnapshots segs snapshots (0, 0, ∅);
  '(cm, pageMap) ←ᵣ mergeDeltas segs deltas (cm, pageMap);
  reject (bool_decide (cm = 0 ∨ ps = 0)) ErrSnapshotEmpty ;;ᵣ
  out ←ᵣ collectPages pageMap cm;
  Ok (MkMerged ps cm epoch watermark out).

(** ** Compact *)

Definition Compact (compression : bool) (segments : list bytes) (maxPartBytes : Z)
    : result restoreError (list bytes) :=
  m ←ᵣ mergeChain segments;
  let maxPartBytes := if decide (maxPartBytes ≤ 0) then DefaultSnapshotPartBytes else maxPartBytes in
  rmap_err ErrCompact
    (EncodeSnapshotParts compression
       (MkHeader 0 KindSnapshot 0 (mEpoch m) (mWatermark m) (mWatermark m) 0 0)
       (mPageSize m) (mCommit m) (mPages m) maxPartBytes).

(** ** ApplyFile *)

(** The calls on the operating system that can fail. *)
Inductive osCall : Set :=
| CallMkdirAll
| CallCreateTemp
| CallTruncate
| CallWriteAt (off : Z) (data : bytes)
| CallSync
| CallChmod
| CallClose
| CallRemove (name : string)
| CallRename.

Record Stats := MkStats {
  stFiles : Z;
  stBytes : Z;
  stPages : Z;
  stLastSize : Z;
  stMaxSize : Z;
}.

(** The files by path, and the process-wide counters. *)
Record fsState := MkFsState {
  files : gmap string bytes;
  stats : Stats;
}.

(** [f.WriteAt(d, off)]: a gap is filled with zeros. *)
Definition writeAt (b : bytes) (off : Z) (d : bytes) : bytes :=
  let n := Z.to_nat off in
  take n (b ++ replicate (n - length b) x00) ++ d ++ drop (n + length d) b.

Definition writeRunBytes : Z := Z.shiftl 1 20.

(** The pending run, its offset, its capacity and the temporary file. *)
Record runState := MkRunState {
  rRun : bytes;
  rOff : Z;
  rCap : Z;
  rTmp : bytes;
}.

Section applyFile.
(** Which calls fail, and the capacity that [append] gives a slice of capacity
    [c] that must hold [n] bytes. *)
Context (fails : osCall → bool) (growCap : Z → Z → Z).

Definition flush (s : runState) : result restoreError runState :=
  match rRun s with
  | [] => Ok s
  | _ =>
      if fails (CallWriteAt (rOff s) (rRun s)) then Err ErrOS
      else Ok (MkRunState [] (-1) (rCap s) (writeAt (rTmp s) (rOff s) (rRun s)))
  end.

(** [run = append(run, data...)] *)
Definition appendRun (s : runState) (data : bytes) : runState :=
  let n := zlen (rRun s) + zlen data in
  MkRunState (rRun s ++ data) (rOff s)
    (if decide (rCap s < n) then growCap (rCap s) n else rCap s) (rTmp s).

Definition setOff (s : runState) (off : Z) : runState :=
  MkRunState (rRun s) off (rCap s) (rTmp s).

Definition writePage (ps : Z) (s : runState) (p : WALPage) : result restoreError runState :=
  let off := i64 (i64 (PageNo p - 1) * ps) in
  let s := if decide (rOff s < 0) then setOff s off else s in
  s ←ᵣ (if decide (off ≠ rOff s + zlen (rRun s) ∨ rCap s < zlen (rRun s) + zlen (Data p))
        then s ←ᵣ flush s; Ok (setOff s off)
        else Ok s);
  Ok (appendRun s (Data p)).

Fixpoint writePages (ps : Z) (s : runState) (pages : list WALPage) : result restoreError runState :=
  match pages with
  | [] => flush s
  | p :: pages => s ←ᵣ writePage ps s p; writePages ps s pages
  end.

Fixpoint checkLengths (ps : Z) (pages : list WALPage) : result restoreError unit :=
  match pages with
  | [] => Ok tt
  | p :: pages =>
      reject (bool_decide (zlen (Data p) ≠ ps)) (ErrRestorePageLength (PageNo p)) ;;ᵣ
      checkLengths ps pages
  end.

Definition addStats (st : Stats) (imageBytes cm : Z) : Stats :=
  MkStats (u64 (stFiles st + 1)) (u64 (stBytes st + u64 imageBytes)) (u64 (stPages st + cm))
    (u64 imageBytes) (if decide (u64 imageBytes ≤ stMaxSize st) then stMaxSize st else u64 imageBytes).

(** The image as it is built in the temporary file: truncate, write, sync, chmod. *)
Definition buildImage (ps imageBytes : Z) (pages : list WALPage) : result restoreError bytes :=
  reject (fails CallTruncate || bool_decide (imageBytes < 0)) ErrOS ;;ᵣ
  s ←ᵣ writePages ps (MkRunState [] (-1) writeRunBytes (replicate (Z.to_nat imageBytes) x00)) pages;
  reject (fails CallSync) ErrOS ;;ᵣ
  reject (fails CallChmod) ErrOS ;;ᵣ
  Ok (rTmp s).

(** [_ = os.Remove(name)] *)
Definition removeFile (name : string) (fs : gmap string bytes) : gmap string bytes :=
  if fails (CallRemove name) then fs else delete name fs.

(** [tmpName] is the name that [os.CreateTemp] chose. *)
Definition ApplyFile (fs : fsState) (dest tmpName : string) (segments : list bytes)
    : fsState * result restoreError Z :=
  match mergeChain segments with
  | Err e => (fs, Err e)
  | Ok m =>
      let imageBytes := i64 (mCommit m * mPageSize m) in
      match checkLengths (mPageSize m) (mPages m) with
      | Err e => (fs, Err e)
      | Ok _ =>
          if fails CallMkdirAll then (fs, Err ErrOS) else
          if fails CallCreateTemp then (fs, Err ErrOS) else
          let created := <[tmpName := []]> (files fs) in
          match buildImage (mPageSize m) imageBytes (mPages m) with
          | Err e => (MkFsState (removeFile tmpName created) (stats fs), Err e)
          | Ok image =>
              let written := <[tmpName := image]> created in
              if fails CallClose then (MkFsState (removeFile tmpName written) (stats fs), Err ErrOS) else
              let swept := removeFile (dest +:+ "-shm") (removeFile (dest +:+ "-wal") written) in
              if fails CallRename then (MkFsState (removeFile tmpName swept) (stats fs), Err ErrOS) else
              (MkFsState (<[dest := image]> (delete tmpName swept))
                         (addStats (stats fs) imageBytes (mCommit m)), Ok (mCommit m))
          end
      end
  end.
End applyFile.

#[global] Arguments Compact : simpl never.
#[global] Arguments writeAt : simpl never.

(** ** The pages of a chain *)

(** The last version of page [n] in a sequence of page maps. *)
Definition lastVersion (n : Z) (ds : list decoded) : option bytes :=
  foldl (λ acc d, match findPage n (dPages d) with Some x => Some x | None => acc end) None ds.

(** The last non-zero database size. *)
Definition lastSize (cm : Z) (ds : list decoded) : Z :=
  foldl (λ c d, if decide (0 < dCommit d) then dCommit d else c) cm ds.

Definition overlay (m : gmap Z bytes) (ds : list decoded) : gmap Z bytes :=
  foldl (λ m d, addDeltaPages (dPages d) m) m ds.

Lemma lookup_addDeltaPages pages m n :
  NoDup (PageNo <$> pages) →
  addDeltaPages pages m !! n = match findPage n pages with Some x => Some x | None => m !! n end.
Proof.
  unfold addDeltaPages. revert m. induction pages as [|p pages IH]; intros m Hnd; simpl; [done|].
  apply NoDup_cons in Hnd as [Hnot Hnd]. rewrite IH by done. case_decide as Hn.
  - subst n. destruct (findPage (PageNo p) pages) as [x|] eqn:Hf.
    + apply findPage_elem in Hf; [|done]. destruct Hnot.
      by apply (list_elem_of_fmap_2 PageNo) in Hf.
    + by rewrite lookup_insert_eq.
  - by rewrite lookup_insert_ne.
Qed.

Definition pagesDistinct (d : decoded) : Prop := NoDup (PageNo <$> dPages d).

Lemma lastVersion_snoc n ds d :
  lastVersion n (ds ++ [d]) = match findPage n (dPages d) with Some x => Some x | None => lastVersion n ds end.
Proof. unfold lastVersion. by rewrite foldl_app. Qed.

Lemma lookup_overlay ds m n :
  Forall pagesDistinct ds →
  overlay m ds !! n = match lastVersion n ds with Some x => Some x | None => m !! n end.
Proof.
  unfold overlay. induction ds as [|d ds IH] using rev_ind; intros Hall; [done|].
  apply Forall_app in Hall as [Hall [Hd _]%Forall_cons].
  rewrite foldl_app, lastVersion_snoc. simpl. rewrite lookup_addDeltaPages by apply Hd.
  destruct (findPage n (dPages d)); [done|]. by apply IH.
Qed.

Lemma addSnapshotPages_Ok pages m m' :
  addSnapshotPages pages m = Ok m' → m' = addDeltaPages pages m.
Proof.
  unfold addDeltaPages. revert m. induction pages as [|p pages IH]; intros m H; simpl in *.
  { by simplify_eq. }
  destruct (m !! PageNo p) as [x|] eqn:Hm; [|by apply IH].
  case_decide; [|done]. subst x. rewrite insert_id by done. by apply IH.
Qed.

Lemma addSnapshotPages_fresh pages m :
  NoDup (PageNo <$> pages) → (∀ n, n ∈ PageNo <$> pages → m !! n = None) →
  addSnapshotPages pages m = Ok (addDeltaPages pages m).
Proof.
  unfold addDeltaPages. revert m. induction pages as [|p pages IH]; intros m Hnd Hfresh; simpl; [done|].
  apply NoDup_cons in Hnd as [Hnot Hnd]. rewrite Hfresh by (rewrite fmap_cons; left).
  apply IH; [done|]. intros n Hn. rewrite lookup_insert_ne by set_solver. apply Hfresh.
  rewrite fmap_cons. by right.
Qed.

(** ** Decoding the segments *)

(** The page map of segment [i]. *)
Definition mapAt (segments : list bytes) (i : nat) : option decoded :=
  s ← segments !! i; snd <$> readPart s.

Lemma readPart_Some s h payload d :
  Decode s = Ok (h, payload) → DecodeWALPageMap payload = Ok d → readPart s = Some (h, d).
Proof. intros Hd Hp. unfold readPart. by rewrite Hd, Hp. Qed.

Lemma decodeSegments_Ok i e segments e' segs :
  decodeSegments i e segments = Ok (e', segs) →
  segs.*2 = segments ∧ Forall (λ hs, ∃ p, Decode hs.2 = Ok (hs.1, p)) segs.
Proof.
  revert i e e' segs. induction segments as [|s segments IH]; intros i e e' segs H; simpl in H.
  { by simplify_eq. }
  inv_ok. destruct a as [h p]. inv_ok. destruct a as [e1 segs1]. inv_ok. simplify_eq.
  apply IH in Ha0 as [<- Hall]. split; [done|]. constructor; [by exists p|done].
Qed.

Lemma decodeSegments_epoch i e segments e' segs :
  is_u64 e → decodeSegments i e segments = Ok (e', segs) → is_u64 e'.
Proof.
  revert i e e' segs. induction segments as [|s segments IH]; intros i e e' segs He H; simpl in H.
  { by simplify_eq. }
  inv_ok. destruct a as [h p]. inv_ok. destruct a as [e1 segs1]. inv_ok. simplify_eq.
  eapply IH; [|exact Ha0]. apply ltx_sound in Ha as (_ & _ & _ & Hwf).
  pose proof (wf_epoch _ Hwf). case_decide; lia.
Qed.

Lemma segAt_map segs segments i h payload d :
  segs.*2 = segments → Decode (segAt segs i).2 = Ok (h, payload) → DecodeWALPageMap payload = Ok d →
  mapAt segments i = Some d.
Proof.
  intros <- Hd Hp. unfold mapAt, segAt in *. rewrite list_lookup_fmap.
  destruct (segs !! i) as [[h' s]|]; simpl in *; [|by vm_compute in Hd].
  by rewrite (readPart_Some _ _ _ _ Hd Hp).
Qed.

(** ** The merge loops *)

Lemma dCommit_u32 payload d : DecodeWALPageMap payload = Ok d → is_u32 (dCommit d).
Proof.
  unfold DecodeWALPageMap. intros H. destruct (describePageMap payload) as [ds|] eqn:Hd; [|done].
  cbn [rbind] in H. inv_ok. subst d. cbn [dCommit]. unfold describePageMap in Hd.
  pose proof (rd32_range payload 8). repeat case_decide; inv_ok; subst; simpl; lia.
Qed.

(** What every decoded page map satisfies. *)
Definition mapOk (d : decoded) : Prop := pagesDistinct d ∧ 0 < dPageSize d ∧ is_u32 (dCommit d).

Lemma mapOk_decoded payload d : DecodeWALPageMap payload = Ok d → mapOk d.
Proof.
  intros Hd. destruct (pagemap_valid _ _ Hd) as (Hps & Hasc & _).
  split; [by eapply ascending_NoDup|]. split; [done|]. by eapply dCommit_u32.
Qed.

Lemma mergeSnapshots_Ok segs segments snaps ps cm m ps' cm' m' :
  segs.*2 = segments → mergeSnapshots segs snaps (ps, cm, m) = Ok (ps', cm', m') →
  ∃ ds, mapM (mapAt segments) snaps = Some ds ∧ m' = overlay m ds ∧ Forall mapOk ds
    ∧ Forall (λ d, dPageSize d = ps') ds ∧ Forall (λ d, dCommit d = cm' ∨ dCommit d = 0) ds
    ∧ (ps ≠ 0 → ps' = ps) ∧ (cm ≠ 0 → cm' = cm) ∧ (0 ≤ ps → 0 ≤ ps') ∧ (is_u32 cm → is_u32 cm')
    ∧ (cm' ∈ dCommit <$> ds ∨ cm' = cm ∧ (ds = [] ∨ cm ≠ 0)) ∧ (ds = [] → ps' = ps).
Proof.
  intros Hseg. revert ps cm m. induction snaps as [|i snaps IH]; intros ps cm m H; cbn [mergeSnapshots] in H.
  { simplify_eq. exists []. split_and!; try done. right. split; [done|by left]. }
  inv_ok. destruct a as [h payload]. inv_ok. rename a into d. rename a0 into ps1.
  rename a1 into cm1. rename a2 into m1.
  pose proof (mapOk_decoded _ _ Ha0) as Hok. pose proof (segAt_map _ _ _ _ _ _ Hseg Ha Ha0) as Hat.
  apply addSnapshotPages_Ok in Ha3. subst m1.
  assert (dPageSize d = ps1 ∧ (ps ≠ 0 → ps1 = ps)) as [Hps1 Hps].
  { destruct (decide (ps = 0)); inv_ok; rewrite ?bool_decide_eq_false in *; lia. }
  assert ((dCommit d = cm1 ∨ dCommit d = 0) ∧ (cm ≠ 0 → cm1 = cm)) as [Hcm1 Hcm].
  { destruct (decide (cm = 0)); inv_ok; rewrite ?bool_decide_eq_false in *; lia. }
  destruct Hok as (Hdist & Hpos & Hcpos).
  apply IH in H as (ds & Hds & -> & Hall & Hsz & Hcms & Hps' & Hcm' & Hp0 & Hc0 & Hsrc & _).
  specialize (Hps' ltac:(lia)). exists (d :: ds). cbn [mapM]. rewrite Hat, Hds. split_and!; try done.
  - by constructor.
  - constructor; [congruence|done].
  - constructor; [|done]. destruct Hcm1 as [Hc|]; [|by right].
    destruct (decide (cm1 = 0)); [right; congruence|left]. rewrite Hcm' by done. done.
  - intros Hz. rewrite Hps', Hps by done. done.
  - intros Hz. rewrite Hcm'; [by apply Hcm|]. rewrite Hcm by done. done.
  - lia.
  - intros Hz. apply Hc0. destruct (decide (cm = 0)); [|rewrite Hcm by done; done]. inv_ok. lia.
  - rewrite fmap_cons, elem_of_cons. destruct Hsrc as [Hin|[-> _]]; [by left; right|].
    destruct (decide (cm = 0)) as [H0|H0]; [inv_ok; left; left; congruence|].
    right. split; [by apply Hcm|by right].
Qed.

Lemma mergeDeltas_Ok segs segments deltas cm m cm' m' :
  segs.*2 = segments → mergeDeltas segs deltas (cm, m) = Ok (cm', m') →
  ∃ ds, mapM (mapAt segments) deltas = Some ds ∧ m' = overlay m ds ∧ Forall mapOk ds
    ∧ cm' = lastSize cm ds.
Proof.
  intros Hseg. revert cm m. induction deltas as [|i deltas IH]; intros cm m H; cbn [mergeDeltas] in H.
  { simplify_eq. by exists []. }
  inv_ok. destruct a as [h payload]. inv_ok. rename a into d.
  pose proof (mapOk_decoded _ _ Ha0) as Hok. pose proof (segAt_map _ _ _ _ _ _ Hseg Ha Ha0) as Hat.
  apply IH in H as (ds & Hds & -> & Hall & ->). exists (d :: ds). cbn [mapM]. rewrite Hat, Hds.
  split_and!; try done. by constructor.
Qed.

Lemma collectFrom_Ok m pgnos out :
  collectFrom m pgnos = Ok out →
  PageNo <$> out = pgnos ∧ Forall (λ p, m !! PageNo p = Some (Data p)) out.
Proof.
  revert out. induction pgnos as [|n pgnos IH]; intros out H; simpl in H; [by simplify_eq|].
  destruct (m !! n) as [x|] eqn:Hm; [|done]. inv_ok. subst out. apply IH in Ha as [<- Hall].
  split; [done|]. by constructor.
Qed.

Lemma collectPages_Ok m cm out :
  collectPages m cm = Ok out →
  PageNo <$> out = seqZ 1 cm ∧ Forall (λ p, m !! PageNo p = Some (Data p)) out ∧ cm ≠ 2 ^ 32 - 1.
Proof. intros H. unfold collectPages in H. inv_ok. case_decide; [done|]. simplify_eq. by apply collectFrom_Ok in Ha as []. Qed.

Lemma collectFrom_complete m pages :
  Forall (λ p, m !! PageNo p = Some (Data p)) pages → collectFrom m (PageNo <$> pages) = Ok pages.
Proof.
  induction 1 as [|p pages Hp Hall IH]; [done|]. rewrite fmap_cons. cbn [collectFrom].
  rewrite Hp, IH. cbn [rbind]. by destruct p.
Qed.

Lemma findPage_Forall pages n (f : Z → option bytes) :
  Forall (λ p, f (PageNo p) = Some (Data p)) pages → n ∈ PageNo <$> pages → findPage n pages = f n.
Proof.
  induction 1 as [|p pages Hp Hall IH]; [set_solver|]. rewrite fmap_cons, elem_of_cons. simpl.
  case_decide; [by subst|]. intros [->|Hn]; [done|by apply IH].
Qed.

(** What a successful merge returns. *)
Record mergedOk (segments : list bytes) (m : merged) (hs : list Header)
    (snaps deltas : list nat) (dsS dsD : list decoded) : Prop := {
  mo_headers : Forall2 (λ s h, ∃ p, Decode s = Ok (h, p)) segments hs;
  mo_select : selectChain hs = Ok (snaps, deltas, mWatermark m);
  mo_snaps : mapM (mapAt segments) snaps = Some dsS;
  mo_deltas : mapM (mapAt segments) deltas = Some dsD;
  mo_size : 0 < mPageSize m ∧ Forall (λ d, dPageSize d = mPageSize m) dsS;
  mo_epoch : is_u64 (mEpoch m);
  mo_commit : 0 < mCommit m < 2 ^ 32 - 1
    ∧ ∃ cm, cm ∈ dCommit <$> dsS ∧ mCommit m = lastSize cm dsD
        ∧ Forall (λ d, dCommit d = cm ∨ dCommit d = 0) dsS;
  mo_numbers : PageNo <$> mPages m = seqZ 1 (mCommit m);
  mo_pages n : 1 ≤ n ≤ mCommit m → is_Some (lastVersion n (dsS ++ dsD))
                 ∧ findPage n (mPages m) = lastVersion n (dsS ++ dsD);
}.


Lemma lastSize_u32 cm ds : Forall mapOk ds → is_u32 cm → is_u32 (lastSize cm ds).
Proof.
  intros Hall. unfold lastSize. revert cm. induction Hall as [|d ds Hd Hall IH]; intros cm Hcm; [done|].
  simpl. apply IH. destruct Hd as (_ & _ & ?). case_decide; lia.
Qed.

Lemma mergeChain_Ok segments m :
  mergeChain segments = Ok m → ∃ hs snaps deltas dsS dsD, mergedOk segments m hs snaps deltas dsS dsD.
Proof.
  intros H. unfold mergeChain in H. inv_ok. destruct a as [epoch segs]. inv_ok.
  destruct a as [[snaps deltas] w]. inv_ok. destruct a as [[ps cm] m1]. inv_ok.
  destruct a as [cm' m2]. inv_ok. rename a into out. subst m.
  pose proof Ha as Hdec0. apply decodeSegments_Ok in Ha as [Hseg Hdec].
  apply (mergeSnapshots_Ok _ _ _ _ _ _ _ _ _ Hseg) in Ha1 as (dsS & HdsS & -> & HS & Hsz & Hcm & _ & _ & Hp0 & Hc0 & Hsrc & Hnil).
  apply (mergeDeltas_Ok _ _ _ _ _ _ _ Hseg) in Ha2 as (dsD & HdsD & -> & HD & ->).
  apply collectPages_Ok in Ha3 as (Hno & Hpages & Hlarge). rewrite bool_decide_eq_false in *.
  pose proof (lastSize_u32 cm dsD HD (Hc0 ltac:(lia))) as Hpos.
  pose proof (decodeSegments_epoch 0 0 segments epoch segs ltac:(lia) Hdec0) as Hep.
  exists segs.*1, snaps, deltas, dsS, dsD. split; cbn [mWatermark mPageSize mCommit mPages mEpoch]; try done.
  - rewrite <-Hseg. clear -Hdec. induction Hdec as [|[h s] segs' [p Hp] Hd IH]; [constructor|].
    constructor; [by exists p|done].
  - split; [lia|done].
  - split; [lia|exists cm]. split; [|done]. destruct Hsrc as [?|[-> [Hds|?]]]; [done| |lia].
    specialize (Hnil Hds). lia.
  - intros n Hn.
    assert (overlay (overlay ∅ dsS) dsD = overlay ∅ (dsS ++ dsD)) as Happ.
    { unfold overlay. by rewrite foldl_app. }
    assert (∀ k, overlay ∅ (dsS ++ dsD) !! k = lastVersion k (dsS ++ dsD)) as Hlook.
    { intros k. rewrite lookup_overlay; [by destruct (lastVersion _ _)|].
      apply Forall_app_2; [apply (Forall_impl _ _ _ HS)|apply (Forall_impl _ _ _ HD)]; by intros d []. }
    assert (findPage n out = lastVersion n (dsS ++ dsD)) as Hfind.
    { rewrite <-Hlook, <-Happ. apply (findPage_Forall out n (λ k, _ !! k)); [done|]. rewrite Hno.
      apply elem_of_seqZ. lia. }
    split; [|done]. rewrite <-Hfind.
    assert (n ∈ PageNo <$> out) as Hin by (rewrite Hno; apply elem_of_seqZ; lia).
    clear -Hin. induction out as [|p out IH]; [set_solver|]. simpl. case_decide; [by eexists|].
    apply IH. rewrite fmap_cons, elem_of_cons in Hin. naive_solver.
Qed.

(** ** Merging the parts of one snapshot *)

Lemma overlay_concat m ds : overlay m ds = addDeltaPages (concat (dPages <$> ds)) m.
Proof.
  unfold overlay, addDeltaPages. revert m. induction ds as [|d ds IH]; intros m; [done|].
  rewrite fmap_cons. cbn [concat foldl]. by rewrite foldl_app, IH.
Qed.

(** The header of a segment. *)
Definition headOf (s : bytes) : Header := match Decode s with Ok (h, _) => h | Err _ => zeroHeader end.

Lemma decodeSegments_all segments E i e :
  Forall (λ s, ∃ h p, Decode s = Ok (h, p) ∧ hEpoch h = E) segments → e = 0 ∨ e = E →
  ∃ e', decodeSegments i e segments = Ok (e', (λ s, (headOf s, s)) <$> segments) ∧ (segments ≠ [] ∨ e = E → e' = E).
Proof.
  intros Hall. revert i e. induction Hall as [|s segments (h & p & Hd & HE) Hall IH]; intros i e He; cbn [decodeSegments].
  { exists e. split; [done|]. by intros [?|?]. }
  rewrite Hd. cbn [rmap_err rbind].
  destruct (IH (i + 1) (if decide (e = 0) then hEpoch h else e)) as (e' & -> & He').
  { case_decide; [by right|]. destruct He; [done|by right]. }
  exists e'. split; [cbn [rbind]; rewrite fmap_cons; unfold headOf at 2; by rewrite Hd|].
  intros _. apply He'. right. case_decide; [done|]. by destruct He.
Qed.

Lemma segAt_hdr (segs : list (Header * bytes)) i : (segAt segs i).1 = hdr segs.*1 i.
Proof. unfold segAt, hdr. rewrite list_lookup_fmap. by destruct (segs !! i). Qed.

Lemma segAt_filter (segments : list bytes) (P : Header → Prop) `{!∀ h, Decision (P h)} :
  let segs := (λ s, (headOf s, s)) <$> segments in
  segAt segs <$> filter (λ i, P (hdr segs.*1 i)) (seq 0 (length segs.*1)) = filter (λ x, P x.1) segs.
Proof.
  cbv zeta. induction segments as [|s segments IH] using rev_ind; [done|].
  set (f := λ s, (headOf s, s)) in *. rewrite fmap_app in *. simpl. set (segs := f <$> segments) in *.
  rewrite fmap_app, length_app, Nat.add_1_r, seq_S, !filter_app, fmap_app. simpl. rewrite length_fmap in *.
  assert (∀ i, (i < length segs)%nat → segAt (segs ++ [f s]) i = segAt segs i) as Hl.
  { intros i Hi. unfold segAt. by rewrite lookup_app_l. }
  assert (segAt (segs ++ [f s]) (length segs) = f s) as Hlast.
  { unfold segAt. by rewrite lookup_app_r, Nat.sub_diag by lia. }
  assert (segs.*1 ++ [headOf s] = (segs ++ [f s]).*1) as -> by by rewrite fmap_app.
  f_equal.
  - rewrite <-IH. clear IH.
    assert (filter (λ i, P (hdr (segs ++ [f s]).*1 i)) (seq 0 (length segs)) = filter (λ i, P (hdr segs.*1 i)) (seq 0 (length segs))) as ->.
    { apply filter_iff_elem. intros i [_ Hi]%elem_of_seq. by rewrite <-!segAt_hdr, Hl by lia. }
    apply list_fmap_ext. intros k i Hk. apply list_elem_of_lookup_2, list_elem_of_filter in Hk as [_ [_ Hi]%elem_of_seq].
    apply Hl. lia.
  - rewrite !filter_cons, !filter_nil, <-segAt_hdr, Hlast. by case_decide; simpl; rewrite ?Hlast.
Qed.

(** Part [i] of [segs] decodes to [d]. *)
Definition decodesTo (segs : list (Header * bytes)) (i : nat) (d : decoded) : Prop :=
  ∃ h payload, Decode (segAt segs i).2 = Ok (h, payload) ∧ DecodeWALPageMap payload = Ok d.

Lemma mergeSnapshots_disjoint segs idx ds ps cm ps0 cm0 m :
  Forall2 (decodesTo segs) idx ds → 0 < ps → 0 < cm →
  Forall (λ d, dPageSize d = ps ∧ dCommit d = cm) ds →
  NoDup (PageNo <$> concat (dPages <$> ds)) →
  (∀ n, n ∈ PageNo <$> concat (dPages <$> ds) → m !! n = None) →
  ps0 = 0 ∨ ps0 = ps → cm0 = 0 ∨ cm0 = cm →
  ∃ ps' cm', mergeSnapshots segs idx (ps0, cm0, m) = Ok (ps', cm', overlay m ds)
    ∧ (idx ≠ [] ∨ ps0 = ps → ps' = ps) ∧ (idx ≠ [] ∨ cm0 = cm → cm' = cm).
Proof.
  intros HF Hps Hcm. revert ps0 cm0 m.
  induction HF as [|i d idx ds (h & payload & Hd & Hp) HF IH]; intros ps0 cm0 m Hall Hnd Hfresh H1 H2.
  { exists ps0, cm0. split; [done|]. naive_solver. }
  apply Forall_cons in Hall as [[Hdp Hdc] Hall]. cbn [mergeSnapshots].
  rewrite fmap_cons in Hnd, Hfresh. cbn [concat] in *. rewrite fmap_app in *.
  apply NoDup_app in Hnd as (Hnd1 & Hdisj & Hnd2).
  rewrite Hd. cbn [rmap_err rbind]. rewrite Hp. cbn [rmap_err rbind]. rewrite Hdp, Hdc.
  assert ((if decide (ps0 = 0) then Ok ps
           else reject (bool_decide (ps ≠ ps0)) ErrSnapshotPageSize ;;ᵣ Ok ps0) = Ok ps) as ->.
  { case_decide; [done|]. destruct H1 as [ ? | -> ]; [done|]. by rewrite bool_decide_eq_false_2 by tauto. }
  assert ((if decide (cm0 = 0) then Ok cm
           else reject (bool_decide (cm ≠ cm0)) (ErrSnapshotCommit cm cm0) ;;ᵣ Ok cm0) = Ok cm) as ->.
  { case_decide; [done|]. destruct H2 as [ ? | -> ]; [done|]. by rewrite bool_decide_eq_false_2 by tauto. }
  cbn [rbind]. rewrite addSnapshotPages_fresh; [|done|by intros n Hn; apply Hfresh, elem_of_app; left].
  cbn [rbind].
  destruct (IH ps cm (addDeltaPages (dPages d) m)) as (ps' & cm' & -> & Hps' & Hcm');
    [done|done| |by right|by right|].
  { intros n Hn. rewrite lookup_addDeltaPages by done.
    destruct (findPage n (dPages d)) as [x|] eqn:Hf; [|by apply Hfresh, elem_of_app; right].
    apply findPage_elem in Hf; [|done]. apply (list_elem_of_fmap_2 PageNo) in Hf.
    by destruct (Hdisj n Hf). }
  exists ps', cm'. split; [done|]. split; intros _; [apply Hps'|apply Hcm']; by right.
Qed.

Lemma parts_decode parts rs :
  mapM readPart parts = Some rs →
  Forall2 (λ s r, headOf s = r.1 ∧ ∃ p, Decode s = Ok (r.1, p) ∧ DecodeWALPageMap p = Ok r.2) parts rs.
Proof.
  intros Hread. eapply Forall2_impl; [by apply mapM_Some_1|]. intros s [h d] Hs. unfold readPart in Hs. unfold headOf.
  destruct (Decode s) as [[h' p]|]; [|done]. destruct (DecodeWALPageMap p) eqn:Ep; [|done]. simplify_eq. by eauto.
Qed.

Lemma part_decode parts rs s :
  mapM readPart parts = Some rs → s ∈ parts →
  ∃ k r, parts !! k = Some s ∧ rs !! k = Some r ∧ headOf s = r.1 ∧ ∃ p, Decode s = Ok (r.1, p).
Proof.
  intros Hread [k Hk]%list_elem_of_lookup.
  destruct (Forall2_lookup_l _ _ _ _ _ (parts_decode _ _ Hread) Hk) as (r & Hr & Hh & p & Hp & _). by exists k, r; eauto.
Qed.

(** A list of segments that is the parts of one snapshot in some order, among markers of their epoch. *)
Section oneSnapshot.
Context (segments parts rest : list bytes) (rs : list (Header * decoded)) (ps cm E W : Z) (pages : list WALPage).
Context (Hperm : segments ≡ₚ parts ++ rest) (Hread : mapM readPart parts = Some rs) (Hne : parts ≠ []).
Context (HW : txidOk W) (Hps : 0 < ps) (Hcm : 0 < cm < 2 ^ 32 - 1).
Context (Hall : ∀ k r, rs !! k = Some r → hKind r.1 = KindSnapshot ∧ hEpoch r.1 = E
     ∧ hStartTxID r.1 = W ∧ hEndTxID r.1 = W ∧ dPageSize r.2 = ps ∧ dCommit r.2 = cm).
Context (Hparts : (∃ r, rs = [r] ∧ SnapshotPart r.1 = None)
  ∨ (∀ k r, rs !! k = Some r → SnapshotPart r.1 = Some (Z.of_nat k))).
Context (Hpages : concat (dPages <$> rs.*2) = pages) (Hseq : PageNo <$> pages = seqZ 1 cm).
Context (Hrest : Forall (λ s, ∃ h p, Decode s = Ok (h, p) ∧ hEpoch h = E ∧ hKind h = KindMarker
     ∧ txidOk (hStartTxID h) ∧ txidOk (hEndTxID h)) rest).
Context (Hmarkers : markersOk (headOf <$> segments)).

Let segs : list (Header * bytes) := (λ s, (headOf s, s)) <$> segments.

Lemma segments_part s : s ∈ segments →
  ∃ h p, Decode s = Ok (h, p) ∧ headOf s = h ∧ hEpoch h = E
    ∧ (hKind h = KindMarker ∨ hKind h = KindSnapshot ∧ hStartTxID h = W ∧ hEndTxID h = W)
    ∧ txidOk (hStartTxID h) ∧ txidOk (hEndTxID h).
Proof.
  rewrite Hperm. intros [Hs|Hs]%elem_of_app.
  - destruct (part_decode _ _ s Hread Hs) as (k & r & _ & Hr & Hh & p & Hp). apply Hall in Hr as (Hk & He & Hst & Hen & _).
    exists r.1, p. rewrite Hst, Hen. by auto 10.
  - rewrite Forall_forall in Hrest. destruct (Hrest s Hs) as (h & p & Hp & He & Hk & Ht).
    exists h, p. unfold headOf. rewrite Hp. by auto 10.
Qed.

(** The snapshots among the segments are the parts. *)
Lemma snaps_perm : filter (λ x : Header * bytes, hKind x.1 = KindSnapshot) segs ≡ₚ (λ s, (headOf s, s)) <$> parts.
Proof.
  unfold segs. rewrite Hperm, fmap_app, filter_app.
  rewrite list_filter_all, list_filter_none, app_nil_r; [done| |].
  - apply Forall_fmap. eapply Forall_impl; [exact Hrest|]. intros s (h & p & Hp & _ & Hk & _). unfold compose, headOf. simpl.
    rewrite Hp, Hk. done.
  - apply Forall_fmap, Forall_forall. intros s Hs. destruct (part_decode _ _ s Hread Hs) as (k & r & _ & Hr & Hh & _).
    unfold compose. simpl. rewrite Hh. by apply Hall in Hr as (-> & _).
Qed.

Lemma length_parts : length parts = length rs.
Proof. exact (Forall2_length _ _ _ (parts_decode _ _ Hread)). Qed.

Lemma parts_numbers : SnapshotPart <$> (headOf <$> parts) = SnapshotPart <$> rs.*1.
Proof.
  f_equal. apply list_eq. intros k. rewrite !list_lookup_fmap.
  destruct (parts !! k) as [s|] eqn:Hk.
  - destruct (Forall2_lookup_l _ _ _ _ _ (parts_decode _ _ Hread) Hk) as (r & -> & Hh & _). simpl. by rewrite Hh.
  - apply lookup_ge_None in Hk. rewrite length_parts in Hk. by rewrite (lookup_ge_None_2 rs).
Qed.

Lemma snaps_complete : completeSet segs.*1 (snapIdx segs.*1).
Proof.
  assert (partNo segs.*1 <$> snapIdx segs.*1 ≡ₚ SnapshotPart <$> rs.*1) as Hp.
  { rewrite <-parts_numbers.
    assert (hdr segs.*1 <$> snapIdx segs.*1 = filter (λ h, hKind h = KindSnapshot) segs.*1) as Hf
      by exact (hdr_filter segs.*1 (λ h, hKind h = KindSnapshot)).
    transitivity (SnapshotPart <$> (hdr segs.*1 <$> snapIdx segs.*1)); [by rewrite <-list_fmap_compose|rewrite Hf].
    apply fmap_Permutation. transitivity (fst <$> filter (λ x : Header * bytes, hKind x.1 = KindSnapshot) segs).
    - clear. induction segs as [|x l IH]; [done|]. rewrite fmap_cons, !filter_cons. by case_decide; rewrite IH.
    - rewrite snaps_perm, <-list_fmap_compose. done. }
  assert (length (snapIdx segs.*1) = length rs) as Hlen.
  { apply Permutation_length in Hp. by rewrite !length_fmap in Hp. }
  assert (rs ≠ []) as Hrs by (intros E0; apply Hne, nil_length_inv; by rewrite length_parts, E0).
  split; [intros E0; by rewrite E0 in Hlen; destruct rs|].
  destruct Hparts as [(r & Ers & Hr)|Hk].
  - left. rewrite Ers in Hp, Hlen. destruct (snapIdx segs.*1) as [|i [|]]; try done.
    exists (crcOf segs.*1 i). constructor; [|done]. split; [|done]. simpl in Hp. rewrite Hr in Hp.
    apply Permutation_singleton_inj in Hp. done.
  - right. rewrite Hp, Hlen.
    assert (SnapshotPart <$> rs.*1 = Some <$> seqZ 0 (zlen rs)) as ->; [|done].
    apply list_eq. intros k. rewrite !list_lookup_fmap. destruct (rs !! k) as [r|] eqn:Er.
    + pose proof (lookup_lt_Some _ _ _ Er). rewrite lookup_seqZ_lt by lia. simpl. by rewrite (Hk k r Er).
    + apply lookup_ge_None in Er. by rewrite lookup_seqZ_ge by lia.
Qed.

(** In the order of the chain they are the parts in their order. *)
Lemma snaps_order : segAt segs <$> merge_sort (part_le segs.*1) (snapIdx segs.*1) = (λ s, (headOf s, s)) <$> parts.
Proof.
  set (J := merge_sort _ _).
  assert (segAt segs <$> J ≡ₚ (λ s, (headOf s, s)) <$> parts) as HJ.
  { unfold J. rewrite merge_sort_Permutation, <-snaps_perm.
    assert (segAt segs <$> snapIdx segs.*1 = filter (λ x : Header * bytes, hKind x.1 = KindSnapshot) segs) as Hf
      by exact (segAt_filter segments (λ h, hKind h = KindSnapshot)).
    by rewrite Hf. }
  destruct Hparts as [(r & Ers & Hr)|Hk].
  { pose proof length_parts as Hl. rewrite Ers in Hl. destruct parts as [|s [|]]; try done.
    simpl in HJ |- *. by apply Permutation_singleton_r in HJ. }
  set (le := λ x y : Header * bytes, partOf x.1 ≤ partOf y.1).
  assert (∀ k s, parts !! k = Some s → partOf (headOf s) = Z.of_nat k) as Hpart.
  { intros k s Hs. destruct (Forall2_lookup_l _ _ _ _ _ (parts_decode _ _ Hread) Hs) as (r & Hr & Hh & _).
    unfold partOf. by rewrite Hh, (Hk k r Hr). }
  apply (StronglySorted_unique_strong le); [| | |done].
  - intros x y Hx Hy. rewrite HJ in Hx. apply list_elem_of_fmap in Hx as (sx & -> & [kx Hkx]%list_elem_of_lookup).
    apply list_elem_of_fmap in Hy as (sy & -> & [ky Hky]%list_elem_of_lookup). unfold le. simpl.
    rewrite (Hpart kx sx), (Hpart ky sy) by done. intros. assert (kx = ky) by lia. congruence.
  - assert (StronglySorted (part_le segs.*1) J) as Hs by apply (StronglySorted_merge_sort (part_le segs.*1)).
    clear -Hs. induction Hs as [|i J Hs IH Hi]; [constructor|]. rewrite fmap_cons. constructor; [done|].
    apply Forall_fmap. eapply Forall_impl; [exact Hi|]. intros j. unfold part_le, le, compose. by rewrite !segAt_hdr.
  - clear -Hpart. assert (∀ n l, (∀ k s, l !! k = Some s → partOf (headOf s) = Z.of_nat (n + k)) →
      StronglySorted le ((λ s, (headOf s, s)) <$> l)) as Hgo; [|by apply (Hgo 0%nat)].
    intros n l. revert n. induction l as [|s l IH]; intros n Hl; rewrite ?fmap_cons; constructor.
    + apply (IH (S n)). intros k s' Hs'. rewrite (Hl (S k) s' Hs'). lia.
    + apply Forall_fmap, Forall_lookup. intros k s' Hs'. unfold le, compose. simpl.
      rewrite (Hl 0%nat s eq_refl), (Hl (S k) s' Hs'). lia.
Qed.

Lemma snaps_decode : Forall2 (decodesTo segs) (merge_sort (part_le segs.*1) (snapIdx segs.*1)) rs.*2.
Proof.
  assert (∀ J P R, segAt segs <$> J = (λ s, (headOf s, s)) <$> P →
    Forall2 (λ s r, headOf s = r.1 ∧ ∃ p, Decode s = Ok (r.1, p) ∧ DecodeWALPageMap p = Ok r.2) P R →
    Forall2 (decodesTo segs) J R.*2) as Hgo.
  { intros J P R EJ HP. revert J EJ. induction HP as [|s r P R (_ & p & Hd & Hp) HP IH]; intros [|j J] EJ; [constructor|done|done|].
    rewrite !fmap_cons in EJ. injection EJ as Ej EJ. constructor; [|by apply IH].
    exists r.1, p. by rewrite Ej. }
  apply (Hgo _ parts); [apply snaps_order|apply (parts_decode _ _ Hread)].
Qed.

Lemma mergeChain_snapshot : mergeChain segments = Ok (MkMerged ps cm E W pages).
Proof.
  unfold mergeChain. destruct (decodeSegments_all segments E 0 0) as (e & -> & He); [|by left|].
  { apply Forall_forall. intros s Hs. destruct (segments_part s Hs) as (h & p & Hp & _ & HE & _). by eauto. }
  rewrite He by (left; intros E0; rewrite E0 in Hperm; apply Permutation_nil_l in Hperm; symmetry in Hperm; apply app_nil in Hperm; by destruct Hperm).
  cbn [rbind]. fold segs.
  assert (segs.*1 = headOf <$> segments) as Hs1 by (unfold segs; by rewrite <-list_fmap_compose).
  rewrite (select_one segs.*1 E W); [|done| |by rewrite Hs1| |apply snaps_complete].
  - cbn [rmap_err rbind]. assert (NoDup (PageNo <$> pages)) as Hnd by (rewrite Hseq; apply NoDup_seqZ).
    destruct (mergeSnapshots_disjoint segs (merge_sort (part_le segs.*1) (snapIdx segs.*1)) rs.*2 ps cm 0 0 ∅)
      as (ps' & cm' & -> & Hps' & Hcm');
      [apply snaps_decode|done|lia| |by rewrite Hpages|done|by left|by left|].
    { apply Forall_fmap, Forall_lookup. intros k r Hk. apply Hall in Hk. unfold compose. simpl. tauto. }
    assert (merge_sort (part_le segs.*1) (snapIdx segs.*1) ≠ []) as Hidx.
    { intros E0. pose proof snaps_order as Ho. rewrite E0 in Ho. symmetry in Ho. by apply fmap_nil_inv in Ho. }
    rewrite Hps', Hcm' by (by left). cbn [rbind mergeDeltas]. rewrite bool_decide_eq_false_2 by lia. cbn [reject rbind].
    unfold collectPages. rewrite overlay_concat, Hpages, <-Hseq, collectFrom_complete; [by cbn [rbind]; rewrite decide_False by lia|].
    apply Forall_forall. intros p Hp. rewrite lookup_addDeltaPages by done.
    destruct p as [n x]. cbn [PageNo Data].
    by rewrite (proj2 (findPage_elem n x pages Hnd) Hp).
  - rewrite Hs1. apply Forall_fmap, Forall_forall. intros s Hs. unfold compose.
    destruct (segments_part s Hs) as (h & p & _ & -> & _ & _ & Ht). done.
  - rewrite Hs1. intros h (s & -> & Hs)%list_elem_of_fmap.
    destruct (segments_part s Hs) as (h & p & _ & -> & HE & Hk & _). done.
Qed.
End oneSnapshot.

(** The parts are one snapshot of the merged database. *)
Record partsOf (parts : list bytes) (rs : list (Header * decoded)) (m : merged) : Prop := {
  po_read : mapM readPart parts = Some rs;
  po_nonempty : parts ≠ [];
  po_txid : txidOk (mWatermark m);
  po_positive : 0 < mPageSize m ∧ 0 < mCommit m < 2 ^ 32 - 1;
  po_all k r : rs !! k = Some r → hKind r.1 = KindSnapshot ∧ hEpoch r.1 = mEpoch m
     ∧ hStartTxID r.1 = mWatermark m ∧ hEndTxID r.1 = mWatermark m ∧ dPageSize r.2 = mPageSize m ∧ dCommit r.2 = mCommit m;
  po_numbers : (∃ r, rs = [r] ∧ SnapshotPart r.1 = None)
     ∨ (∀ k r, rs !! k = Some r → SnapshotPart r.1 = Some (Z.of_nat k));
  po_pages : concat (dPages <$> rs.*2) = mPages m;
  po_seq : PageNo <$> mPages m = seqZ 1 (mCommit m);
}.

Lemma merge_partsOf segments parts rest rs m :
  partsOf parts rs m → segments ≡ₚ parts ++ rest →
  Forall (λ s, ∃ h p, Decode s = Ok (h, p) ∧ hEpoch h = mEpoch m ∧ hKind h = KindMarker
     ∧ txidOk (hStartTxID h) ∧ txidOk (hEndTxID h)) rest →
  markersOk (headOf <$> segments) → mergeChain segments = Ok m.
Proof.
  intros [Hr Hne HW [Hps Hcm] Hall Hnum Hpages Hseq] Hperm Hrest Hm. destruct m. simpl in *.
  by apply (mergeChain_snapshot segments parts rest rs).
Qed.

Lemma partsOf_markers parts rs m : partsOf parts rs m → markersOk (headOf <$> parts).
Proof.
  intros Hof x (s & -> & Hs)%list_elem_of_fmap Hk. exfalso.
  destruct (part_decode _ _ s (po_read _ _ _ Hof) Hs) as (k & r & _ & Hr & Hh & _).
  apply (po_all _ _ _ Hof) in Hr as (Hk' & _). rewrite Hh, Hk' in Hk. done.
Qed.

Lemma compact_parts compression segments maxPartBytes m parts :
  mergeChain segments = Ok m → Compact compression segments maxPartBytes = Ok parts →
  maxPartBytes ≤ 2 ^ 29 → txidOk (mWatermark m) →
  Forall (λ s, Split s = Ok [s]) parts ∧ ∃ rs, partsOf parts rs m.
Proof.
  intros Hm Hc Hmax HW. unfold Compact in Hc. rewrite Hm in Hc. cbn [rbind] in Hc. cbv zeta in Hc.
  inv_ok. set (maxB := if decide (maxPartBytes ≤ 0) then _ else _) in *.
  assert (maxB ≤ 2 ^ 29) as HmaxB.
  { unfold maxB. case_decide; [vm_compute; discriminate|done]. }
  destruct (mergeChain_Ok _ _ Hm) as (hs & snaps & deltas & dsS & dsD & Hok).
  destruct Hok as [_ _ _ _ [Hps _] Hep [Hcm _] Hno _]. unfold txidOk in HW.
  set (H := MkHeader 0 KindSnapshot 0 (mEpoch m) (mWatermark m) (mWatermark m) 0 0) in *.
  destruct (parts_checked _ _ _ _ _ _ _ Hps Hc) as (Hk & Hmin & Hlen & Hbound).
  assert (zlen (mPages m) = mCommit m) as Hn.
  { rewrite <-(length_fmap PageNo), Hno, length_seqZ. lia. }
  assert (wf_header H) as HwfH.
  { split; unfold H; cbn [hVersion hKind hFlags hEpoch hStartTxID hEndTxID hLength hCRC]; unfold KindSnapshot; lia. }
  split; [by eapply parts_exact|].
  destruct (parts_read compression H (mPageSize m) (mCommit m) (mPages m) maxB)
    as (parts' & rs & Henc & Hrs & Hcat & Hcount & Hmeta); try done; try lia.
  rewrite Hc in Henc. apply (inj Ok) in Henc as <-.
  set (perPart := pagesPerPart (mPageSize m) maxB) in *.
  destruct (pagesPerPart_spec (mPageSize m) maxB Hps Hmin) as [Hper _]. fold perPart in Hper.
  pose proof (Z.quot_rem' (mCommit m + perPart - 1) perPart) as Hq.
  pose proof (Z.rem_bound_pos (mCommit m + perPart - 1) perPart ltac:(lia) ltac:(lia)).
  assert (parts ≠ []) as Hne by (intros ->; simpl in Hcount; nia).
  pose proof (length_mapM _ _ _ Hrs) as Hl.
  exists rs. split; try done.
  - intros k r Hr. apply Hmeta in Hr as (_ & ? & ? & ? & ? & ? & ? & _). done.
  - unfold partMeta in Hmeta. rewrite Hn, <-Hcount in Hmeta. case_decide as H1.
    + left. destruct rs as [|r [|r' rs]]; [simpl in *; lia| |simpl in *; lia].
      exists r. split; [done|]. by destruct (Hmeta 0%nat r eq_refl).
    + right. intros k r Hr. by apply Hmeta in Hr as [? _].
  - rewrite <-Hcat. by rewrite <-list_fmap_compose.
Qed.

Lemma compact_merge compression segments maxPartBytes m parts :
  mergeChain segments = Ok m → Compact compression segments maxPartBytes = Ok parts →
  maxPartBytes ≤ 2 ^ 29 → txidOk (mWatermark m) → mergeChain parts = Ok m.
Proof.
  intros Hm Hc Hmax HW. destruct (compact_parts _ _ _ _ _ Hm Hc Hmax HW) as [_ [rs Hof]].
  apply (merge_partsOf parts parts [] rs); [done|by rewrite app_nil_r|done|by eapply partsOf_markers].
Qed.

(** ** The image that [ApplyFile] writes *)

Lemma writeAt_app b off d1 d2 :
  0 ≤ off → writeAt (writeAt b off d1) (off + zlen d1) d2 = writeAt b off (d1 ++ d2).
Proof.
  intros Hoff. unfold writeAt. rewrite Z2Nat.inj_add, Nat2Z.id by lia. set (n := Z.to_nat off).
  set (pre := take n (b ++ replicate (n - length b) x00)).
  assert (length pre = n) as Hpre.
  { unfold pre. rewrite length_take, length_app, length_replicate. lia. }
  rewrite (app_assoc pre d1). rewrite <-(app_assoc (pre ++ d1)), take_app_le, take_ge by (rewrite length_app; lia).
  rewrite <-!app_assoc. do 3 f_equal.
  rewrite (app_assoc pre d1), drop_app_ge by (rewrite length_app; lia).
  rewrite drop_drop, !length_app. f_equal. lia.
Qed.

Lemma writeAt_zeros A d n :
  zlen d ≤ n → writeAt (A ++ replicate (Z.to_nat n) x00) (zlen A) d
               = (A ++ d) ++ replicate (Z.to_nat (n - zlen d)) x00.
Proof.
  intros Hn. unfold writeAt. rewrite Nat2Z.id, <-app_assoc, take_app_length, <-app_assoc.
  do 2 f_equal. rewrite drop_app_ge by lia.
  replace (length A + length d - length A)%nat with (length d) by lia.
  rewrite drop_replicate. f_equal. lia.
Qed.

Section image.
Context (fails : osCall → bool) (growCap : Z → Z → Z).

Definition pageOff (ps : Z) (p : WALPage) : Z := i64 (i64 (PageNo p - 1) * ps).

(** The file once the pending run is written. *)
Definition pending (s : runState) : bytes :=
  match rRun s with [] => rTmp s | _ => writeAt (rTmp s) (rOff s) (rRun s) end.

Definition runOk (s : runState) : Prop := rRun s ≠ [] → 0 ≤ rOff s.

Lemma flush_Ok s s' :
  flush fails s = Ok s' →
  rTmp s' = pending s ∧ rRun s' = [].
Proof.
  unfold flush, pending. destruct (rRun s) eqn:Hr; [by intros [= <-]|].
  destruct (fails _); [done|]. by intros [= <-].
Qed.

(** A coalesced write has the effect of writing the page at its offset. *)
Lemma writePage_Ok ps s p s' :
  runOk s → 0 ≤ pageOff ps p → Data p ≠ [] →
  writePage fails growCap ps s p = Ok s' →
  runOk s' ∧ pending s' = writeAt (pending s) (pageOff ps p) (Data p).
Proof.
  intros Hs Hoff Hd H. unfold writePage in H. fold (pageOff ps p) in H.
  set (off := pageOff ps p) in *. set (s1 := if decide (rOff s < 0) then setOff s off else s) in *.
  assert (pending s1 = pending s ∧ runOk s1 ∧ rRun s1 = rRun s) as (Hp1 & Hs1 & Hr1).
  { unfold s1. destruct (decide (rOff s < 0)) as [Hneg|]; [|done].
    destruct (rRun s) eqn:Hr; [|exfalso; unfold runOk in Hs; rewrite Hr in Hs; specialize (Hs ltac:(done)); lia].
    unfold pending, runOk, setOff. cbn. by rewrite Hr. }
  clearbody s1. cbv zeta in H.
  apply rbind_Ok in H as (s2 & H2 & H). apply (inj Ok) in H as <-.
  assert (∀ s', rRun s' = [] → rTmp s' = pending s → rOff s' = off →
    runOk (appendRun growCap s' (Data p))
    ∧ pending (appendRun growCap s' (Data p)) = writeAt (pending s) off (Data p)) as Hfresh.
  { intros s' Hr Ht Ho. unfold runOk, pending at 1, appendRun. cbn [rRun rOff rTmp].
    rewrite Hr, Ho, Ht. cbn [app]. split; [done|]. by destruct (Data p). }
  destruct (decide (off ≠ rOff s1 + zlen (rRun s1) ∨ rCap s1 < zlen (rRun s1) + zlen (Data p))) as [Hc|Hc].
  - inv_ok. subst s2. apply flush_Ok in Ha as [Htmp Hrun]. apply Hfresh; cbn; congruence.
  - apply (inj Ok) in H2 as <-. assert (off = rOff s1 + zlen (rRun s1)) as Heq by lia.
    destruct (rRun s1) as [|x run] eqn:Hr.
    { apply Hfresh; [done| |simpl in Heq; lia]. rewrite <-Hp1. unfold pending. by rewrite Hr. }
    assert (0 ≤ rOff s1) as Hpos by (apply Hs1; by rewrite Hr).
    unfold runOk, pending at 1, appendRun. cbn [rRun rOff rTmp]. rewrite Hr. cbn [app].
    split; [done|]. change (x :: run ++ Data p) with ((x :: run) ++ Data p).
    rewrite <-writeAt_app, <-Heq, <-Hp1 by done. unfold pending. by rewrite Hr.
Qed.

Lemma writePages_Ok ps s pages s' :
  runOk s → Forall (λ p, 0 ≤ pageOff ps p ∧ Data p ≠ []) pages →
  writePages fails growCap ps s pages = Ok s' →
  rTmp s' = foldl (λ b p, writeAt b (pageOff ps p) (Data p)) (pending s) pages.
Proof.
  intros Hs Hall. revert s Hs. induction Hall as [|p pages [Hoff Hd] Hall IH]; intros s Hs H; cbn [writePages] in H.
  - by apply flush_Ok in H as [? _].
  - inv_ok. apply writePage_Ok in Ha as [Hs' Hp]; [|done..]. simpl. rewrite <-Hp. by apply IH.
Qed.

(** Without failures every run is written. *)
Lemma writePages_total ps s pages :
  (∀ c, fails c = false) → ∃ s', writePages fails growCap ps s pages = Ok s'.
Proof.
  intros Hf. assert (∀ s, ∃ s', flush fails s = Ok s') as Hflush.
  { intros s0. unfold flush. destruct (rRun s0); [by eexists|]. rewrite Hf. by eexists. }
  revert s. induction pages as [|p pages IH]; intros s; cbn [writePages]; [apply Hflush|].
  unfold writePage at 1. cbv zeta. set (s1 := if decide (rOff s < 0) then _ else s). clearbody s1.
  destruct (decide (_ ∨ _)); [|apply IH]. destruct (Hflush s1) as [s2 ->]. apply IH.
Qed.
End image.

(** Writing the pages [k, k+1, ...] after the [k - 1] pages of [A]. *)
Lemma foldl_writeAt ps pages A k :
  0 < ps → PageNo <$> pages = seqZ k (zlen pages) → Forall (λ p, zlen (Data p) = ps) pages →
  1 ≤ k → zlen A = (k - 1) * ps → (k - 1 + zlen pages) * ps < 2 ^ 63 →
  foldl (λ b p, writeAt b (pageOff ps p) (Data p)) (A ++ replicate (Z.to_nat (zlen pages * ps)) x00) pages
  = A ++ concat (Data <$> pages).
Proof.
  intros Hps Hno Hlen. revert A k Hno. induction Hlen as [|p pages Hp Hlen IH]; intros A k Hno Hk HA Hmax.
  { simpl. done. }
  rewrite fmap_cons, seqZ_cons in Hno by (simpl; lia). injection Hno as Hpn Hno.
  simpl length in *. cbn [foldl]. unfold pageOff at 2.
  assert (0 ≤ Z.of_nat (S (length pages)) * ps) as H0 by nia.
  assert (0 ≤ k - 1 ≤ (k - 1) * ps) as H1 by nia.
  assert ((k - 1) * ps < 2 ^ 63) as H2 by (rewrite Z.mul_add_distr_r in Hmax; lia).
  rewrite Hpn, (i64_id (k - 1)), i64_id by lia. rewrite <-HA, writeAt_zeros by nia.
  replace (Z.of_nat (S (length pages)) * ps - zlen (Data p)) with (zlen pages * ps) by lia.
  rewrite (IH _ (k + 1)).
  - rewrite fmap_cons. cbn [concat]. by rewrite <-app_assoc.
  - rewrite Hno. f_equal; lia.
  - lia.
  - rewrite length_app. lia.
  - lia.
Qed.

Lemma checkLengths_Ok ps pages u : checkLengths ps pages = Ok u → Forall (λ p, zlen (Data p) = ps) pages.
Proof.
  induction pages as [|p pages IH]; intros H; [constructor|]. cbn [checkLengths] in H. inv_ok.
  rewrite bool_decide_eq_false in *. constructor; [lia|by apply IH].
Qed.

Lemma buildImage_Ok fails growCap ps cm pages image :
  0 < ps → PageNo <$> pages = seqZ 1 cm → 0 < cm → cm * ps < 2 ^ 63 →
  Forall (λ p, zlen (Data p) = ps) pages →
  buildImage fails growCap ps (i64 (cm * ps)) pages = Ok image → image = concat (Data <$> pages).
Proof.
  intros Hps Hno Hcm Hmax Hlen H. unfold buildImage in H. inv_ok. subst image.
  assert (zlen pages = cm) as Hn by (rewrite <-(length_fmap PageNo), Hno, length_seqZ; lia).
  rewrite i64_id in Ha by nia. apply writePages_Ok in Ha; [|by intros ?|].
  - rewrite Ha. unfold pending. cbn [rRun rTmp]. rewrite <-Hn.
    apply (foldl_writeAt ps pages [] 1); rewrite ?Hn; done || lia.
  - rewrite Forall_forall in *. intros p Hp. specialize (Hlen p Hp).
    apply (list_elem_of_fmap_2 PageNo) in Hp. rewrite Hno, elem_of_seqZ in Hp.
    split; [|intros E; rewrite E in Hlen; simpl in Hlen; lia].
    unfold pageOff. assert (0 ≤ PageNo p - 1 ≤ (PageNo p - 1) * ps) by nia.
    assert ((PageNo p - 1) * ps < 2 ^ 63) by nia. rewrite (i64_id (PageNo p - 1)), i64_id by lia. lia.
Qed.

(** The names that [os.CreateTemp] can return for [dest]. *)
Definition tempName (fs : fsState) (dest tmpName : string) : Prop :=
  files fs !! tmpName = None ∧ tmpName ≠ dest ∧ tmpName ≠ dest +:+ "-wal" ∧ tmpName ≠ dest +:+ "-shm".

Lemma suffix_ne (s : string) t : t ≠ "" → s ≠ s +:+ t.
Proof.
  intros Ht. induction s as [|c s IH]; [intros E; by destruct Ht|].
  intros E. apply IH. by injection E.
Qed.

(** ** Properties *)

(** A snapshot of two pages at transaction 5 and two deltas: 6 rewrites page 2, 7 to 8
    grow the database to three pages. *)
Definition witnessSeg (kind start end_ cm : Z) (pages : list WALPage) : bytes :=
  match EncodeWALPageMap true 2 cm 1 pages with
  | Ok p => Encode (MkHeader 1 kind 0 4 start end_ 0 0) p
  | Err _ => []
  end.
Definition witnessSegs : list bytes :=
  [witnessSeg KindDelta 7 8 3 [MkWALPage 1 (bs "A2"); MkWALPage 3 (bs "C1")];
   witnessSeg KindSnapshot 5 5 2 [MkWALPage 1 (bs "A1"); MkWALPage 2 (bs "B1")];
   witnessSeg KindDelta 6 6 2 [MkWALPage 2 (bs "B2")]].
Definition witnessMerged : merged :=
  MkMerged 2 3 4 8 [MkWALPage 1 (bs "A2"); MkWALPage 2 (bs "B2"); MkWALPage 3 (bs "C1")].

(** C33: a successful merge returns the pages [1..commit], each in the last version
    that the selected snapshot and deltas hold; the commit is the last database
    size in the chain and the watermark is the selected one. *)
Theorem mergeChain_spec segments m :
  mergeChain segments = Ok m → ∃ hs snaps deltas dsS dsD, mergedOk segments m hs snaps deltas dsS dsD.
Proof. apply mergeChain_Ok. Qed.

Lemma mergeChain_spec_witness :
  ∃ hs snaps deltas dsS dsD, mergedOk witnessSegs witnessMerged hs snaps deltas dsS dsD.
Proof. apply mergeChain_spec. vm_compute. reflexivity. Defined.

(** C35: compaction preserves the database. Restoring the compacted parts gives the
    page size, commit, epoch, watermark and pages that the original chain gives. *)
Theorem Compact_restores compression segments maxPartBytes m parts :
  mergeChain segments = Ok m → Compact compression segments maxPartBytes = Ok parts →
  maxPartBytes ≤ 2 ^ 29 → txidOk (mWatermark m) → mergeChain parts = Ok m.
Proof. apply compact_merge. Qed.

Lemma Compact_restores_witness :
  match Compact true witnessSegs 76 with
  | Ok parts => length parts = 2%nat ∧ mergeChain parts = Ok witnessMerged
  | Err _ => False
  end.
Proof.
  destruct (Compact true witnessSegs 76) as [parts|] eqn:E; [|vm_compute in E; discriminate E].
  split.
  - apply (f_equal (λ r, match r with Ok l => length l | Err _ => O end)) in E.
    vm_compute in E. symmetry. exact E.
  - apply (Compact_restores true witnessSegs 76 witnessMerged parts); [|exact E|lia|].
    + vm_compute. reflexivity.
    + vm_compute. intuition discriminate.
Defined.

Lemma removeFile_ne fails name f fs : f ≠ name → removeFile fails name fs !! f = fs !! f.
Proof. intros Hf. unfold removeFile. destruct (fails _); [done|]. by apply lookup_delete_ne. Qed.

Lemma removeFile_eq fails name fs : fails (CallRemove name) = false → removeFile fails name fs !! name = None.
Proof. intros Hf. unfold removeFile. rewrite Hf. apply lookup_delete_eq. Qed.

(** When [ApplyFile] succeeds, the destination holds exactly the merged pages in
    order, the temporary file is gone and every other file is untouched; the logs of
    the replaced database are gone too, unless the call that removes one fails. *)
Theorem ApplyFile_image fails growCap fs dest tmpName segments fs' n :
  tempName fs dest tmpName → ApplyFile fails growCap fs dest tmpName segments = (fs', Ok n) →
  ∃ m, mergeChain segments = Ok m ∧ n = mCommit m
    ∧ (mCommit m * mPageSize m < 2 ^ 63 → files fs' !! dest = Some (concat (Data <$> mPages m)))
    ∧ (fails (CallRemove (dest +:+ "-wal")) = false → files fs' !! (dest +:+ "-wal") = None)
    ∧ (fails (CallRemove (dest +:+ "-shm")) = false → files fs' !! (dest +:+ "-shm") = None)
    ∧ files fs' !! tmpName = None
    ∧ ∀ f, f ∉ [dest; dest +:+ "-wal"; dest +:+ "-shm"; tmpName] → files fs' !! f = files fs !! f.
Proof.
  intros (Hfresh & Hd & Hw & Hs) H. unfold ApplyFile in H.
  destruct (mergeChain segments) as [m|] eqn:Hm; [|done]. exists m. split; [done|].
  destruct (checkLengths _ _) eqn:Hl; [|done]. apply checkLengths_Ok in Hl.
  destruct (fails CallMkdirAll), (fails CallCreateTemp); try done.
  destruct (buildImage _ _ _ _ _) as [image|] eqn:Hi; [|done].
  destruct (fails CallClose), (fails CallRename); try done.
  apply pair_equal_spec in H as [<- H]. apply (inj Ok) in H as <-. cbn [files].
  destruct (mergeChain_Ok _ _ Hm) as (hs & snaps & deltas & dsS & dsD & [_ _ _ _ [Hps _] _ [Hcm _] Hno _]).
  pose proof (suffix_ne dest "-wal" ltac:(done)). pose proof (suffix_ne dest "-shm" ltac:(done)).
  split_and!; [done| | | | |].
  - intros Hmax. rewrite lookup_insert_eq. f_equal. by apply (buildImage_Ok _ _ _ _ _ _ Hps Hno) in Hi; [|lia..|].
  - intros Hf. rewrite lookup_insert_ne, lookup_delete_ne by done.
    destruct (decide (dest +:+ "-shm" = dest +:+ "-wal")); [by simplify_eq|].
    by rewrite removeFile_ne, removeFile_eq.
  - intros Hf. by rewrite lookup_insert_ne, lookup_delete_ne, removeFile_eq.
  - by rewrite lookup_insert_ne, lookup_delete_eq.
  - intros f Hf. rewrite !not_elem_of_cons in Hf. destruct Hf as (? & ? & ? & ? & _).
    by rewrite lookup_insert_ne, lookup_delete_ne, !removeFile_ne, !lookup_insert_ne.
Qed.

Definition witnessFs : fsState :=
  MkFsState (<["db" := bs "old"]> (<["db-wal" := bs "log"]> ∅)) (MkStats 0 0 0 0 0).

Lemma witnessFs_temp : tempName witnessFs "db" "db.tmp-1".
Proof. split_and!; vm_compute; done. Qed.

Lemma ApplyFile_image_witness :
  let r := ApplyFile (λ _, false) (λ _ n, n) witnessFs "db" "db.tmp-1" witnessSegs in
  ∃ m, mergeChain witnessSegs = Ok m ∧ 3 = mCommit m
    ∧ (mCommit m * mPageSize m < 2 ^ 63 → files r.1 !! "db" = Some (concat (Data <$> mPages m)))
    ∧ (false = false → files r.1 !! ("db" +:+ "-wal") = None)
    ∧ (false = false → files r.1 !! ("db" +:+ "-shm") = None)
    ∧ files r.1 !! "db.tmp-1" = None
    ∧ ∀ f, f ∉ ["db"; "db" +:+ "-wal"; "db" +:+ "-shm"; "db.tmp-1"] →
        files r.1 !! f = files witnessFs !! f.
Proof.
  intros r. apply (ApplyFile_image (λ _, false) (λ _ n, n) witnessFs "db" "db.tmp-1" witnessSegs r.1 3).
  - apply witnessFs_temp.
  - vm_compute. reflexivity.
Defined.

(** A log that cannot be removed stays beside the new image. *)
Example stale_log_kept :
  let fails c := match c with CallRemove _ => true | _ => false end in
  let r := ApplyFile fails (λ _ n, n) witnessFs "db" "db.tmp-1" witnessSegs in
  (r.2, files r.1 !! "db-wal", bool_decide (files r.1 !! "db" = files witnessFs !! "db")) = (Ok 3, Some (bs "log"), false).
Proof. vm_compute. reflexivity. Qed.

(** C34: when [ApplyFile] fails, whichever calls failed (the temporary file has a name that
    was free and is not of the destination or its logs), the destination is as it was:
    a partial image is never installed; the counters are unchanged, no file changed but
    the logs of the destination and the temporary file, and the temporary file is
    removed unless the call that removes it fails as well. *)
Theorem ApplyFile_atomic fails growCap fs dest tmpName segments fs' e :
  tempName fs dest tmpName → ApplyFile fails growCap fs dest tmpName segments = (fs', Err e) →
  files fs' !! dest = files fs !! dest ∧ stats fs' = stats fs
  ∧ (fails (CallRemove tmpName) = false → files fs' !! tmpName = None)
  ∧ ∀ f, f ∉ [dest +:+ "-wal"; dest +:+ "-shm"; tmpName] → files fs' !! f = files fs !! f.
Proof.
  intros (Hfresh & Hd & Hw & Hs) H. unfold ApplyFile in H.
  assert (dest ∉ [dest +:+ "-wal"; dest +:+ "-shm"; tmpName]) as Hdest.
  { rewrite !not_elem_of_cons. split_and!; [by apply suffix_ne..|done|apply not_elem_of_nil]. }
  enough (stats fs' = stats fs ∧ (fails (CallRemove tmpName) = false → files fs' !! tmpName = None)
    ∧ ∀ f, f ∉ [dest +:+ "-wal"; dest +:+ "-shm"; tmpName] → files fs' !! f = files fs !! f)
    as (Hst & Htmp & Hall).
  { split_and!; try done. by rewrite Hall. }
  repeat first [case_match | case_decide]; simplify_eq; try done; cbn [files];
    (split_and!; [done|by intros; apply removeFile_eq|]); intros f Hf; rewrite !not_elem_of_cons in Hf;
    destruct Hf as (? & ? & ? & _); by rewrite !removeFile_ne, ?lookup_insert_ne.
Qed.

Lemma ApplyFile_atomic_witness :
  files (ApplyFile (λ c, match c with CallSync => true | _ => false end) (λ _ n, n) witnessFs "db" "db.tmp-1" witnessSegs).1
    !! "db" = files witnessFs !! "db"
  ∧ stats (ApplyFile (λ c, match c with CallSync => true | _ => false end) (λ _ n, n) witnessFs "db" "db.tmp-1" witnessSegs).1
    = stats witnessFs
  ∧ (false = false →
     files (ApplyFile (λ c, match c with CallSync => true | _ => false end) (λ _ n, n) witnessFs "db" "db.tmp-1" witnessSegs).1
       !! "db.tmp-1" = None)
  ∧ ∀ f, f ∉ ["db" +:+ "-wal"; "db" +:+ "-shm"; "db.tmp-1"] →
     files (ApplyFile (λ c, match c with CallSync => true | _ => false end) (λ _ n, n) witnessFs "db" "db.tmp-1" witnessSegs).1 !! f
     = files witnessFs !! f.
Proof.
  apply (ApplyFile_atomic (λ c, match c with CallSync => true | _ => false end) (λ _ n, n) witnessFs "db" "db.tmp-1" witnessSegs
    _ ErrOS).
  - apply witnessFs_temp.
  - vm_compute. reflexivity.
Defined.
