(* ===== verification/Paging.v ===== *)
(** * On-demand paging of a chain ([internal/restore/paging.go])

    [IndexChain] finds, without reading page data, the part that holds the final
    version of every page; [Page] reads one page through that index and
    [SparseFileFunc] writes chosen ranges to a sparse file. The theorems say that a
    page read through the index is the page that a full restore writes. *)

From S2P Require Import Prelude Lz4 Ltx WalPayload PageMap SnapshotParts Chain Restore.

Inductive pagingError : Set :=
| ErrSplit (i : Z) (e : Ltx.error)
| ErrPartDecode (e : Ltx.error)
| ErrPagingSelect (e : chainError)
| ErrPartMap (idx : Z) (e : PageMap.error)
| ErrPagingPageSize
| ErrPartsDisagree
| ErrNumbers (e : PageMap.error)
| ErrDuplicatePage (pgno : Z)
| ErrPagingEmpty
| ErrUndefinedPage (pgno : Z)
| ErrNotDefined (pgno : Z)
| ErrLookup (e : PageMap.error)
| ErrMissingFromPart (pgno : Z)
| ErrEmptyImage
| ErrPageRange
| ErrFillLength (pgno : Z)
| ErrPagingOS.

Record PageIndex := MkPageIndex {
  ixPageSize : Z;
  ixCommit : Z;
  ixWatermark : Z;
  ixRefs : gmap Z nat;
  ixPayloads : list bytes;
}.

(** ** IndexChain *)

Fixpoint decodeParts (split : list bytes) : result pagingError (list (Header * bytes)) :=
  match split with
  | [] => Ok []
  | one :: split =>
      p ←ᵣ rmap_err ErrPartDecode (Decode one);
      parts ←ᵣ decodeParts split;
      Ok (p :: parts)
  end.

Fixpoint splitParts (i : Z) (segments : list bytes) : result pagingError (list (Header * bytes)) :=
  match segments with
  | [] => Ok []
  | raw :: segments =>
      split ←ᵣ rmap_err (ErrSplit i) (Split raw);
      parts ←ᵣ decodeParts split;
      rest ←ᵣ splitParts (i + 1) segments;
      Ok (parts ++ rest)
  end.

Definition partAt (parts : list (Header * bytes)) (i : nat) : Header * bytes :=
  default (zeroHeader, []) (parts !! i).

(** The state of the index loop: the index so far, [snapCommit] and [snapPages]. *)
Record indexState := MkIndexState {
  isPageSize : Z;
  isCommit : Z;
  isRefs : gmap Z nat;
  isPayloads : list bytes;
  isSnapCommit : Z;
  isSnapPages : gset Z;
}.

(** The page-number loop of part [idx]. *)
Fixpoint indexNumbers (inSnap : bool) (idx : nat) (nums : list Z)
    (s : gmap Z nat * gset Z) : result pagingError (gmap Z nat * gset Z) :=
  match nums with
  | [] => Ok s
  | no :: nums =>
      let '(refs, snapPages) := s in
      reject (inSnap && bool_decide (no ∈ snapPages)) (ErrDuplicatePage no) ;;ᵣ
      let snapPages := if inSnap then {[no]} ∪ snapPages else snapPages in
      indexNumbers inSnap idx nums (<[no := idx]> refs, snapPages)
  end.

(** [snapSet] holds positions in the list of parts; [idx] counts in [order]. *)
Fixpoint indexParts (snapSet : gset nat) (idx : nat) (order : list (Header * bytes))
    (s : indexState) : result pagingError indexState :=
  match order with
  | [] => Ok s
  | p :: order =>
      d ←ᵣ rmap_err (ErrPartMap (Z.of_nat idx)) (DecodeWALPageMap p.2);
      ps ←ᵣ (if decide (isPageSize s = 0) then Ok (dPageSize d)
             else reject (bool_decide (dPageSize d ≠ isPageSize s)) ErrPagingPageSize ;;ᵣ Ok (isPageSize s));
      let inSnap := bool_decide (idx ∈ snapSet) in
      snapCommit ←ᵣ (if inSnap then
                       if decide (isSnapCommit s = 0) then Ok (dCommit d)
                       else reject (bool_decide (dCommit d ≠ isSnapCommit s)) ErrPartsDisagree ;;ᵣ
                            Ok (isSnapCommit s)
                     else Ok (isSnapCommit s));
      let cm := if decide (isCommit s < dCommit d) then dCommit d else isCommit s in
      nums ←ᵣ rmap_err ErrNumbers (PageMapNumbers p.2);
      '(refs, snapPages) ←ᵣ indexNumbers inSnap idx nums (isRefs s, isSnapPages s);
      indexParts snapSet (S idx) order
        (MkIndexState ps cm refs (isPayloads s ++ [p.2]) snapCommit snapPages)
  end.

Fixpoint checkDefined (refs : gmap Z nat) (pgnos : list Z) : result pagingError unit :=
  match pgnos with
  | [] => Ok tt
  | pgno :: pgnos =>
      reject (bool_decide (refs !! pgno = None)) (ErrUndefinedPage pgno) ;;ᵣ checkDefined refs pgnos
  end.

Definition IndexChain (segments : list bytes) : result pagingError PageIndex :=
  parts ←ᵣ splitParts 0 segments;
  '(snapshots, deltas, watermark) ←ᵣ rmap_err ErrPagingSelect (selectChain parts.*1);
  let order := partAt parts <$> (snapshots ++ deltas) in
  let snapSet := list_to_set snapshots in
  s ←ᵣ indexParts snapSet 0 order (MkIndexState 0 0 ∅ [] 0 ∅);
  reject (bool_decide (isCommit s = 0 ∨ isPageSize s = 0)) ErrPagingEmpty ;;ᵣ
  checkDefined (isRefs s) (seqZ 1 (isCommit s)) ;;ᵣ
  Ok (MkPageIndex (isPageSize s) (isCommit s) watermark (isRefs s) (isPayloads s)).

(** ** Reading through the index *)

Definition Has (ix : PageIndex) (pgno : Z) : bool :=
  match ixRefs ix !! pgno with Some _ => true | None => false end.

Definition Page (ix : PageIndex) (pgno : Z) : result pagingError bytes :=
  match ixRefs ix !! pgno with
  | None => Err (ErrNotDefined pgno)
  | Some ref =>
      found ←ᵣ rmap_err ErrLookup (PageMapLookup (default [] (ixPayloads ix !! ref)) pgno);
      match found with
      | None => Err (ErrMissingFromPart pgno)
      | Some data => Ok data
      end
  end.

(** The loop of [Ranges]: the runs found, the start of the open run (0 when there
    is none) and the last page of it. *)
Definition rangesStep (ix : PageIndex) (s : list (Z * Z) * Z * Z) (pgno : Z) : list (Z * Z) * Z * Z :=
  let '(out, start, prev) := s in
  if negb (Has ix pgno) then
    if decide (start ≠ 0) then (out ++ [(start, prev)], 0, prev) else (out, start, prev)
  else
    let start := if decide (start = 0) then pgno else start in
    (out, start, pgno).

Definition Ranges (ix : PageIndex) : list (Z * Z) :=
  let '(out, start, prev) := foldl (rangesStep ix) ([], 0, 0) (seqZ 1 (ixCommit ix)) in
  if decide (start ≠ 0) then out ++ [(start, prev)] else out.

(** ** Sparse files *)

(** [dirOf]: the text before the last slash. *)
Fixpoint dirOfGo (path : list Byte.byte) : option (list Byte.byte) :=
  match path with
  | [] => None
  | c :: path =>
      match dirOfGo path with
      | Some dir => Some (c :: dir)
      | None => if decide (c = x2f) then Some [] else None
      end
  end.
Definition dirOf (path : bytes) : bytes := default (bs ".") (dirOfGo path).

Section sparse.
Context (fails : osCall → bool) (fill : Z → result pagingError bytes).

Definition badRange (cm : Z) (r : Z * Z) : bool :=
  bool_decide (r.1 = 0 ∨ r.2 < r.1 ∨ cm < r.2).

(** The page loop of one range: the file, the number of pages written, and the
    error that stopped it. *)
Fixpoint fillPages (ps : Z) (pgnos : list Z) (s : bytes * Z) : bytes * Z * option pagingError :=
  match pgnos with
  | [] => (s, None)
  | pgno :: pgnos =>
      let '(f, written) := s in
      match fill pgno with
      | Err e => (s, Some e)
      | Ok data =>
          if decide (zlen data ≠ ps) then (s, Some (ErrFillLength pgno)) else
          let off := i64 ((pgno - 1) * ps) in
          if fails (CallWriteAt off data) then (s, Some ErrPagingOS) else
          fillPages ps pgnos (writeAt f off data, written + 1)
      end
  end.

Fixpoint fillRanges (ps : Z) (ranges : list (Z * Z)) (s : bytes * Z) : bytes * Z * option pagingError :=
  match ranges with
  | [] => (s, None)
  | r :: ranges =>
      match fillPages ps (seqZ r.1 (r.2 - r.1 + 1)) s with
      | (s, Some e) => (s, Some e)
      | (s, None) => fillRanges ps ranges s
      end
  end.

(** The files afterwards, the number of pages written and the error. [CallCreateTemp]
    stands for the [OpenFile] call. *)
Definition SparseFileFunc (fs : gmap string bytes) (dest : string) (ps cm : Z)
    (ranges : list (Z * Z)) : gmap string bytes * Z * option pagingError :=
  if decide (ps = 0 ∨ cm = 0) then (fs, 0, Some ErrEmptyImage) else
  let ranges := match ranges with [] => [(1, cm)] | _ => ranges end in
  if existsb (badRange cm) ranges then (fs, 0, Some ErrPageRange) else
  if fails CallMkdirAll then (fs, 0, Some ErrPagingOS) else
  let fs := removeFile fails (dest +:+ "-shm") (removeFile fails (dest +:+ "-wal") fs) in
  if fails CallCreateTemp then (fs, 0, Some ErrPagingOS) else
  let size := i64 (cm * ps) in
  if fails CallTruncate || bool_decide (size < 0) then (<[dest := []]> fs, 0, Some ErrPagingOS) else
  let '(f, written, err) := fillRanges ps ranges (replicate (Z.to_nat size) x00, 0) in
  let fs := <[dest := f]> fs in
  match err with
  | Some e => (fs, written, Some e)
  | None => (fs, written, if fails CallSync then Some ErrPagingOS else None)
  end.
End sparse.

Definition SparseFile (fails : osCall → bool) (ix : PageIndex) (fs : gmap string bytes)
    (dest : string) (ranges : list (Z * Z)) : gmap string bytes * Z * option pagingError :=
  SparseFileFunc fails (Page ix) fs dest (ixPageSize ix) (ixCommit ix) ranges.

(** ** The index and the chain *)

(** A part is a segment of the chain without its frame. *)
Lemma decodeParts_Ok split parts :
  decodeParts split = Ok parts → Forall2 (λ s p, Decode s = Ok p) split parts.
Proof.
  revert parts. induction split as [|s split IH]; intros parts H; simpl in H; [by simplify_eq|].
  inv_ok. subst parts. constructor; [done|by apply IH].
Qed.

(** The segments inside the objects of the chain. *)
Definition pieces (segments : list bytes) : list bytes :=
  concat ((λ raw, match Split raw with Ok l => l | Err _ => [] end) <$> segments).

Lemma splitParts_Ok i segments parts :
  splitParts i segments = Ok parts → Forall2 (λ s p, Decode s = Ok p) (pieces segments) parts.
Proof.
  revert i parts. induction segments as [|raw segments IH]; intros i parts H; simpl in H.
  { simplify_eq. constructor. }
  inv_ok. subst parts. unfold pieces. rewrite fmap_cons. cbn [concat]. rewrite Ha.
  apply Forall2_app; [by apply decodeParts_Ok|by eapply IH].
Qed.

(** The loop state after the parts that decode to [ds]. *)
Record indexed (ds : list decoded) (s : indexState) : Prop := {
  id_payloads : Forall2 (λ payload d, DecodeWALPageMap payload = Ok d) (isPayloads s) ds;
  id_refs n : match isRefs s !! n with
              | None => lastVersion n ds = None
              | Some k => ∃ d x, ds !! k = Some d ∧ findPage n (dPages d) = Some x
                                 ∧ lastVersion n ds = Some x
              end;
  id_size : Forall (λ d, dPageSize d = isPageSize s) ds;
  id_commit : Forall (λ d, dCommit d ≤ isCommit s) ds;
}.

Lemma indexNumbers_Ok inSnap idx nums refs sp refs' sp' :
  indexNumbers inSnap idx nums (refs, sp) = Ok (refs', sp') →
  ∀ n, refs' !! n = if decide (n ∈ nums) then Some idx else refs !! n.
Proof.
  revert refs sp. induction nums as [|no nums IH]; intros refs sp H n; cbn [indexNumbers] in H.
  { simplify_eq. by rewrite decide_False by set_solver. }
  inv_ok. rewrite (IH _ _ H n). destruct (decide (n ∈ nums)).
  - rewrite decide_True; [done|by right].
  - destruct (decide (n = no)) as [->|]; [by rewrite lookup_insert_eq, decide_True by left|].
    rewrite lookup_insert_ne, decide_False by (done || rewrite elem_of_cons; tauto). done.
Qed.

Lemma findPage_None n pages : findPage n pages = None ↔ n ∉ PageNo <$> pages.
Proof.
  induction pages as [|p pages IH]; [set_solver|]. rewrite fmap_cons, not_elem_of_cons. simpl.
  case_decide; [naive_solver|]. rewrite IH. naive_solver.
Qed.

Lemma indexParts_Ok snapSet order ds s s' :
  indexParts snapSet (length ds) order s = Ok s' → indexed ds s →
  (ds = [] ∨ isPageSize s ≠ 0) →
  ∃ ds', Forall2 (λ p d, DecodeWALPageMap p.2 = Ok d) order ds' ∧ indexed (ds ++ ds') s'.
Proof.
  revert ds s. induction order as [|p order IH]; intros ds s H Hs Hz; cbn [indexParts] in H.
  { simplify_eq. exists []. by rewrite app_nil_r. }
  inv_ok. rename a into d. rename a0 into ps. rename a1 into sc. rename a2 into nums.
  destruct a3 as [refs sp].
  destruct (pagemap_lookup _ _ 0 Ha) as [_ Hnums]. rewrite Hnums in Ha2. simplify_eq.
  pose proof (pagemap_valid _ _ Ha) as (Hpos & Hasc & _).
  assert (dPageSize d = ps ∧ (ds = [] ∨ isPageSize s = ps)) as [Hps Hsame].
  { destruct (decide (isPageSize s = 0)); inv_ok; [subst; split; [done|]|].
    - left. by destruct Hz.
    - rewrite bool_decide_eq_false in *. split; [lia|by right]. }
  destruct Hs as [Hpay Hrefs Hsz Hcm].
  set (cm := if decide (isCommit s < dCommit d) then dCommit d else isCommit s) in *.
  assert (isCommit s ≤ cm ∧ dCommit d ≤ cm) as [Hc1 Hc2] by (unfold cm; destruct (decide (isCommit s < dCommit d)); lia).
  replace (S (length ds)) with (length (ds ++ [d])) in H by (rewrite length_app; simpl; lia).
  destruct (IH _ _ H) as (ds' & HF & Hix).
  - split; cbn [isPayloads isRefs isPageSize isCommit].
    + apply Forall2_app; [done|]. by constructor.
    + intros n. rewrite (indexNumbers_Ok _ _ _ _ _ _ _ Ha3), lastVersion_snoc.
      destruct (findPage n (dPages d)) as [x|] eqn:Hf.
      * rewrite decide_True.
        -- exists d, x. rewrite lookup_app_r, Nat.sub_diag by lia. done.
        -- apply dec_stable. rewrite <-findPage_None. congruence.
      * rewrite decide_False by (by rewrite <-findPage_None). specialize (Hrefs n).
        destruct (isRefs s !! n) as [k|]; [|done]. destruct Hrefs as (d' & x & Hk & ? & ?).
        exists d', x. split; [|done]. rewrite lookup_app_l; [done|]. by eapply lookup_lt_Some.
    + apply Forall_app_2; [|by constructor]. destruct Hsame as [-> | <-]; [constructor|done].
    + apply Forall_app_2; [|by constructor]. eapply Forall_impl; [exact Hcm|]. simpl. lia.
  - right. cbn. lia.
  - exists (d :: ds'). split; [by constructor|]. by rewrite <-app_assoc in Hix.
Qed.

Lemma parts_headers segs parts hs :
  Forall2 (λ s p, Decode s = Ok p) segs parts → Forall2 (λ s h, ∃ p, Decode s = Ok (h, p)) segs hs →
  hs = parts.*1.
Proof.
  intros HF. revert hs. induction HF as [|s [h p] segs parts Hs HF IH]; intros hs Hh; inversion Hh; subst; [done|].
  destruct H1 as [p' H1]. rewrite fmap_cons. simpl. f_equal; [congruence|by apply IH].
Qed.

Lemma parts_maps segs parts idx ds :
  Forall2 (λ s p, Decode s = Ok p) segs parts → mapM (mapAt segs) idx = Some ds →
  Forall2 (λ p d, DecodeWALPageMap p.2 = Ok d) (partAt parts <$> idx) ds.
Proof.
  intros HF Hm. apply mapM_Some_1 in Hm. apply Forall2_fmap_l. eapply Forall2_impl; [exact Hm|].
  intros i d Hi. unfold mapAt in Hi. destruct (segs !! i) as [s|] eqn:Hs; [|done]. simpl in Hi.
  destruct (Forall2_lookup_l _ _ _ _ _ HF Hs) as (p & Hp & Hdec). simpl. unfold partAt. rewrite Hp. simpl.
  unfold readPart in Hi. rewrite Hdec in Hi. destruct p as [h payload]. simpl in *.
  destruct (DecodeWALPageMap payload); [|done]. by simplify_eq/=.
Qed.

Lemma maps_unique (l : list (Header * bytes)) ds ds' :
  Forall2 (λ p d, DecodeWALPageMap p.2 = Ok d) l ds →
  Forall2 (λ p d, DecodeWALPageMap p.2 = Ok d) l ds' → ds = ds'.
Proof.
  intros HF. revert ds'. induction HF as [|p d l ds Hd HF IH]; intros ds' HF'; inversion HF'; subst; [done|].
  f_equal; [congruence|by apply IH].
Qed.

Lemma lastSize_bound cm ds c : cm ≤ c → Forall (λ d, dCommit d ≤ c) ds → lastSize cm ds ≤ c.
Proof.
  intros Hcm Hall. unfold lastSize. revert cm Hcm. induction Hall as [|d ds Hd Hall IH]; intros cm Hcm; [done|].
  simpl. apply IH. case_decide; lia.
Qed.

(** What an index shares with the merge of the same chain. *)
Lemma IndexChain_merge segments ix m :
  IndexChain segments = Ok ix → mergeChain (pieces segments) = Ok m →
  ixPageSize ix = mPageSize m ∧ ixWatermark ix = mWatermark m ∧ mCommit m ≤ ixCommit ix
  ∧ ∀ n, 1 ≤ n ≤ mCommit m → ∃ x, Page ix n = Ok x ∧ findPage n (mPages m) = Some x.
Proof.
  intros Hix Hm. unfold IndexChain in Hix. inv_ok. rename a into parts.
  destruct a0 as [[snaps deltas] w]. inv_ok. cbv zeta in Hix. inv_ok. rename a into s. subst ix.
  apply splitParts_Ok in Ha.
  destruct (mergeChain_Ok _ _ Hm) as (hs & snaps' & deltas' & dsS & dsD & Hok).
  destruct Hok as [Hhs Hsel HS HD [Hpos Hsz] _ [Hcpos (cm & Hcm & Hcommit & _)] Hno Hpages].
  pose proof (parts_headers _ _ _ Ha Hhs) as ->. rewrite Ha0 in Hsel. simplify_eq.
  destruct (indexParts_Ok _ _ [] _ _ Ha1) as (ds & HF & Hd); [|by left|].
  { split; simpl; try constructor. }
  assert (ds = dsS ++ dsD) as ->.
  { eapply maps_unique; [exact HF|]. rewrite fmap_app. apply Forall2_app; by eapply parts_maps. }
  cbn [app] in Hd. destruct Hd as [Hpay Hrefs Hdsz Hdcm]. cbn [ixPageSize ixWatermark ixCommit].
  split_and!; [|done| |].
  - apply list_elem_of_fmap in Hcm as (d & _ & Hd). rewrite Forall_forall in Hsz, Hdsz.
    rewrite <-(Hsz d Hd). symmetry. apply Hdsz. apply elem_of_app. by left.
  - rewrite Hcommit. apply Forall_app in Hdcm as [HdS HdD]. apply lastSize_bound; [|done].
    apply list_elem_of_fmap in Hcm as (d & -> & Hd). rewrite Forall_forall in HdS. by apply HdS.
  - intros n Hn. destruct (Hpages n Hn) as [[x Hx] Hfind]. exists x. split; [|congruence].
    specialize (Hrefs n). unfold Page. cbn [ixRefs ixPayloads].
    destruct (isRefs s !! n) as [k|]; [|congruence]. destruct Hrefs as (d & x' & Hk & Hf & Hl).
    destruct (Forall2_lookup_r _ _ _ _ _ Hpay Hk) as (payload & Hp & Hdec). rewrite Hp. simpl.
    destruct (pagemap_lookup _ _ n Hdec) as [-> _]. simpl. rewrite Hf. congruence.
Qed.

(** ** Sparse files *)

Lemma fillPages_all fails fill ps pages f w :
  (∀ c, fails c = false) → Forall (λ p, fill (PageNo p) = Ok (Data p)) pages →
  Forall (λ p, zlen (Data p) = ps) pages → Forall (λ p, 1 ≤ PageNo p < 2 ^ 32) pages →
  fillPages fails fill ps (PageNo <$> pages) (f, w)
  = (foldl (λ b p, writeAt b (pageOff ps p) (Data p)) f pages, w + zlen pages, None).
Proof.
  intros Hf Hfill. revert f w. induction Hfill as [|p pages Hp Hfill IH]; intros f w Hlen Hno.
  { simpl. by rewrite Z.add_0_r. }
  apply Forall_cons in Hlen as [Hlp Hlen]. apply Forall_cons in Hno as [Hnp Hno].
  rewrite fmap_cons. cbn [fillPages foldl]. rewrite Hp, decide_False, Hf, IH by (done || lia).
  assert (pageOff ps p = i64 ((PageNo p - 1) * ps)) as ->.
  { unfold pageOff. by rewrite (i64_id (PageNo p - 1)) by lia. }
  f_equal. f_equal. simpl length. lia.
Qed.

Lemma fillRanges_whole fails fill ps cm pages :
  (∀ c, fails c = false) → 0 < ps → 0 < cm < 2 ^ 32 → cm * ps < 2 ^ 63 →
  PageNo <$> pages = seqZ 1 cm → Forall (λ p, zlen (Data p) = ps) pages →
  Forall (λ p, fill (PageNo p) = Ok (Data p)) pages →
  fillRanges fails fill ps [(1, cm)] (replicate (Z.to_nat (cm * ps)) x00, 0)
  = (concat (Data <$> pages), cm, None).
Proof.
  intros Hf Hps Hcm Hmax Hno Hlen Hfill.
  assert (zlen pages = cm) as Hn by (rewrite <-(length_fmap PageNo), Hno, length_seqZ; lia).
  cbn [fillRanges fst snd]. replace (cm - 1 + 1) with cm by lia. rewrite <-Hno, fillPages_all; [|done..|].
  - pose proof (foldl_writeAt ps pages [] 1) as Hfw. cbn [app] in Hfw.
    rewrite <-Hn, Hfw; try done; rewrite ?Hn; done || lia.
  - rewrite Forall_forall. intros p Hp%(list_elem_of_fmap_2 PageNo).
    rewrite Hno, elem_of_seqZ in Hp. lia.
Qed.

Lemma sparse_whole fails fill fs dest ps cm pages :
  (∀ c, fails c = false) → 0 < ps → 0 < cm < 2 ^ 32 → cm * ps < 2 ^ 63 →
  PageNo <$> pages = seqZ 1 cm → Forall (λ p, zlen (Data p) = ps) pages →
  Forall (λ p, fill (PageNo p) = Ok (Data p)) pages →
  ∃ fs', SparseFileFunc fails fill fs dest ps cm [] = (fs', cm, None)
    ∧ fs' !! dest = Some (concat (Data <$> pages)).
Proof.
  intros Hf Hps Hcm Hmax Hno Hlen Hfill. unfold SparseFileFunc. rewrite decide_False by lia.
  cbn [existsb]. unfold badRange. cbn [fst snd]. rewrite bool_decide_eq_false_2 by lia.
  cbn [orb]. rewrite !Hf, i64_id by nia. rewrite bool_decide_eq_false_2 by nia. cbn [orb].
  rewrite (fillRanges_whole fails fill ps cm pages) by done.
  eexists. split; [done|]. apply lookup_insert_eq.
Qed.

(** ** Properties *)

(** C36: paging agrees with restoring. For a chain that both accept, the index has
    the page size and watermark of the full merge, and every page of the
    restored database, read on demand through the index, is the restored page. *)
Theorem IndexChain_restores segments ix m :
  IndexChain segments = Ok ix → mergeChain (pieces segments) = Ok m →
  ixPageSize ix = mPageSize m ∧ ixWatermark ix = mWatermark m ∧ mCommit m ≤ ixCommit ix
  ∧ ∀ n, 1 ≤ n ≤ mCommit m → ∃ x, Page ix n = Ok x ∧ findPage n (mPages m) = Some x.
Proof. apply IndexChain_merge. Qed.

Lemma IndexChain_restores_witness :
  match IndexChain witnessSegs with
  | Ok ix => ixPageSize ix = 2 ∧ ixWatermark ix = 8 ∧ 3 ≤ ixCommit ix
      ∧ ∀ n, 1 ≤ n ≤ 3 → ∃ x, Page ix n = Ok x ∧ findPage n (mPages witnessMerged) = Some x
  | Err _ => False
  end.
Proof.
  destruct (IndexChain witnessSegs) as [ix|] eqn:E; [|vm_compute in E; discriminate E].
  apply (IndexChain_restores witnessSegs ix witnessMerged E). vm_compute. reflexivity.
Defined.

(** A sparse file written through the index over the whole range is the restored
    image: every page of the database is written, at its place. *)
Theorem SparseFile_image fails segments ix m fs dest :
  (∀ c, fails c = false) → IndexChain segments = Ok ix → mergeChain (pieces segments) = Ok m →
  ixCommit ix = mCommit m → Forall (λ p, zlen (Data p) = mPageSize m) (mPages m) →
  mCommit m * mPageSize m < 2 ^ 63 →
  ∃ fs', SparseFile fails ix fs dest [] = (fs', mCommit m, None)
    ∧ fs' !! dest = Some (concat (Data <$> mPages m)).
Proof.
  intros Hf Hix Hm Hc Hlen Hmax. destruct (IndexChain_merge _ _ _ Hix Hm) as (Hps & _ & _ & Hpage).
  destruct (mergeChain_Ok _ _ Hm) as (hs & snaps & deltas & dsS & dsD & [_ _ _ _ [Hpos _] _ [Hcm _] Hno _]).
  unfold SparseFile. rewrite Hps, Hc. apply sparse_whole; [done..|lia|done|done|done|].
  apply Forall_forall. intros [n x] Hp. cbn [PageNo Data].
  assert (NoDup (PageNo <$> mPages m)) as Hnd by (rewrite Hno; apply NoDup_seqZ).
  pose proof (proj2 (findPage_elem n x _ Hnd) Hp) as Hfind.
  apply (list_elem_of_fmap_2 PageNo) in Hp. rewrite Hno, elem_of_seqZ in Hp.
  destruct (Hpage n) as (x' & -> & Hx'); [simpl in Hp; lia|]. congruence.
Qed.

Lemma SparseFile_image_witness :
  match IndexChain witnessSegs with
  | Ok ix => ∃ fs', SparseFile (λ _, false) ix ∅ "db" [] = (fs', 3, None)
               ∧ fs' !! "db" = Some (bs "A2B2C1")
  | Err _ => False
  end.
Proof.
  destruct (IndexChain witnessSegs) as [ix|] eqn:E; [|vm_compute in E; discriminate E].
  apply (SparseFile_image (λ _, false) witnessSegs ix witnessMerged ∅ "db").
  - reflexivity.
  - exact E.
  - vm_compute. reflexivity.
  - vm_compute in E. apply (inj Ok) in E as <-. reflexivity.
  - repeat constructor.
  - reflexivity.
Defined.

(** ** Where paging and restoring differ *)

(** The loop of [IndexChain] tests the position of a part in the chosen order
    against positions in the chain. With an epoch marker before the snapshot, a
    delta is taken for a snapshot part, and a page that it rewrites for a
    duplicate: a chain that restores is refused. *)
Definition witnessPart (part : Z) (pages : list WALPage) : bytes :=
  match EncodeWALPageMap true 2 2 1 pages with
  | Ok p => Encode (MkHeader 1 KindSnapshot (SnapshotFlags part) 4 5 5 0 0) p
  | Err _ => []
  end.
Definition markedChain : list bytes :=
  [Encode (MkHeader 1 KindMarker 0 4 6 5 0 0) [];
   witnessPart 0 [MkWALPage 1 (bs "A1")]; witnessPart 1 [MkWALPage 2 (bs "B1")];
   witnessSeg KindDelta 6 6 2 [MkWALPage 2 (bs "B2")]].

Example index_refuses_restorable :
  IndexChain markedChain = Err (ErrDuplicatePage 2)
  ∧ mergeChain markedChain
    = Ok (MkMerged 2 2 4 6 [MkWALPage 1 (bs "A1"); MkWALPage 2 (bs "B2")]).
Proof. split; vm_compute; reflexivity. Qed.

(** The index takes the largest commit of the chain, the merge the last one: after
    a delta that shrinks the database the two disagree on its size. *)
Definition shrunkChain : list bytes :=
  [witnessSeg KindSnapshot 5 5 2 [MkWALPage 1 (bs "A1"); MkWALPage 2 (bs "B1")];
   witnessSeg KindDelta 6 6 1 [MkWALPage 1 (bs "A2")]].

Example index_keeps_old_size :
  match IndexChain shrunkChain, mergeChain shrunkChain with
  | Ok ix, Ok m => (ixCommit ix, mCommit m)
  | _, _ => (0, 0)
  end = (2, 1).
Proof. vm_compute. reflexivity. Qed.
