(* ===== verification/Cell.v ===== *)
(** * Cell identities ([internal/cell])

    Scopes name cells and their place in the bucket, owner records say who serves
    a cell, and [DOShard] places Durable Objects on hosts. The theorems say that a
    scope's text determines it and that the keys of two cells never overlap. *)

From S2P Require Import Prelude.

(** ** Strings ([strings]) *)

(** [strings.Split(s, sep)] for a one-byte separator. *)
Fixpoint split (sep : Ascii.ascii) (s : string) : list string :=
  match s with
  | EmptyString => [""]
  | String c s =>
      if decide (c = sep) then "" :: split sep s
      else match split sep s with
           | p :: ps => String c p :: ps
           | [] => [String c ""]
           end
  end.

(** [strings.HasPrefix] *)
Fixpoint hasPrefix (p s : string) : bool :=
  match p, s with
  | EmptyString, _ => true
  | String c p, String d s => bool_decide (c = d) && hasPrefix p s
  | _, EmptyString => false
  end.

(** [strings.Contains] *)
Fixpoint contains (s sub : string) : bool :=
  hasPrefix sub s || match s with EmptyString => false | String _ s => contains s sub end.

(** [strings.ContainsAny(s, chars)] *)
Fixpoint containsAny (s : string) (chars : list Ascii.ascii) : bool :=
  match s with
  | EmptyString => false
  | String c s => bool_decide (c ∈ chars) || containsAny s chars
  end.

Definition slash : Ascii.ascii := Ascii.Ascii true true true true false true false false.
Definition backslash : Ascii.ascii := Ascii.Ascii false false true true true false true false.

Example slash_ok : (String slash "", String backslash "") = ("/", "\").
Proof. reflexivity. Qed.

(** ** Scopes ([scope.go]) *)

Record Scope := MkScope {
  Namespace : string;
  Class : string;
  ScopeID : string;
}.

#[global] Instance Scope_eq_dec : EqDecision Scope.
Proof. solve_decision. Defined.

Inductive scopeError : Set :=
| ErrInvalidScope
| ErrComponent (part : string).

Definition reservedClassPrefix : string := "__".

Definition IsReservedClass (s : Scope) : bool := hasPrefix reservedClassPrefix (Class s).

Definition scopeString (s : Scope) : string :=
  Namespace s +:+ "/" +:+ Class s +:+ "/" +:+ ScopeID s.

Definition scopeKey (s : Scope) : string := "cells/" +:+ scopeString s.

(** The two loops of [Validate]. *)
Fixpoint checkTraversal (parts : list string) : result scopeError unit :=
  match parts with
  | [] => Ok tt
  | part :: parts =>
      reject (bool_decide (part = ".") || bool_decide (part = "..") || contains part "..")
        (ErrComponent part) ;;ᵣ
      checkTraversal parts
  end.

Fixpoint checkComponents (parts : list string) : result scopeError unit :=
  match parts with
  | [] => Ok tt
  | p :: parts =>
      reject (bool_decide (p = "")) ErrInvalidScope ;;ᵣ
      reject (containsAny p [slash; backslash]) ErrInvalidScope ;;ᵣ
      checkComponents parts
  end.

Definition Validate (s : Scope) : result scopeError unit :=
  checkTraversal [Namespace s; Class s; ScopeID s] ;;ᵣ
  checkComponents [Namespace s; Class s; ScopeID s].

Definition ParseScope (s : string) : result scopeError Scope :=
  match split slash s with
  | [a; b; c] =>
      let sc := MkScope a b c in
      Validate sc ;;ᵣ Ok sc
  | _ => Err ErrInvalidScope
  end.

(** ** Owner records ([owner.go]) *)

Inductive Role : Set :=
| RoleCellAgent
| RoleDORuntime
| RoleOther (r : string).

#[global] Instance Role_eq_dec : EqDecision Role.
Proof. solve_decision. Defined.

Definition ProtoVersion : string := "v1".

Definition SupportedProtoVersion (v : string) : bool :=
  bool_decide (v = "") || bool_decide (v = "v1").

Record Owner := MkOwner {
  oNode : string;
  oRole : Role;
  oSession : string;
  oEpoch : Z;
  oExpiry : Z;
  oLiveness : string;
  oAddress : string;
  oAdminAddress : string;
  oProtoVersion : string;
}.

#[global] Instance Owner_eq_dec : EqDecision Owner.
Proof. solve_decision. Defined.

(** [now] in Unix milliseconds. *)
Definition Expired (o : Owner) (now : Z) : bool :=
  if decide (oLiveness o = "node-lease") then false else bool_decide (oExpiry o ≤ now).

(** The record that [MarshalOwner] encodes. *)
Definition stampOwner (o : Owner) : Owner :=
  if decide (oProtoVersion o = "") then
    MkOwner (oNode o) (oRole o) (oSession o) (oEpoch o) (oExpiry o) (oLiveness o) (oAddress o)
            (oAdminAddress o) ProtoVersion
  else o.

(** ** Durable Object shards ([do.go]) *)

Definition DOShardCount : Z := 16.

Fixpoint fnv1aLoop (s : string) (h : Z) : Z :=
  match s with
  | EmptyString => h
  | String c s => fnv1aLoop s (u32 (Z.lxor h (Z.of_N (Ascii.N_of_ascii c)) * 0x01000193))
  end.
Definition fnv1a (s : string) : Z := fnv1aLoop s 0x811c9dc5.

Definition DOShard (ns worker class id : string) : Z :=
  fnv1a (ns +:+ "/" +:+ worker +:+ "/" +:+ class +:+ "/" +:+ id) mod DOShardCount.

(** ** Splitting and joining *)

Fixpoint sepFree (sep : Ascii.ascii) (s : string) : Prop :=
  match s with
  | EmptyString => True
  | String c s => c ≠ sep ∧ sepFree sep s
  end.

Lemma containsAny_sepFree s chars c : containsAny s chars = false → c ∈ chars → sepFree c s.
Proof.
  induction s as [|d s IH]; simpl; [done|]. intros [Hd Hs]%orb_false_iff Hc.
  rewrite bool_decide_eq_false in Hd. split; [by intros ->|by apply IH].
Qed.

Lemma split_nonempty sep s : split sep s ≠ [].
Proof. destruct s as [|c s]; simpl; [done|]. case_decide; [done|]. by destruct (split sep s). Qed.

Lemma split_sepFree sep s : sepFree sep s → split sep s = [s].
Proof.
  induction s as [|c s IH]; simpl; [done|]. intros [Hc Hs]. by rewrite decide_False, IH.
Qed.

Lemma split_app sep a b : sepFree sep a → split sep (a +:+ String sep b) = a :: split sep b.
Proof.
  induction a as [|c a IH]; simpl; [by rewrite decide_True|].
  intros [Hc Ha]. by rewrite decide_False, IH.
Qed.

Lemma string_app_assoc (a b c : string) : a +:+ b +:+ c = (a +:+ b) +:+ c.
Proof. induction a as [|x a IH]; [done|]. exact (f_equal (String x) IH). Qed.

Lemma slash_app s : "/" +:+ s = String slash s.
Proof. done. Qed.

(** Joining the parts again. *)
Fixpoint joinWith (sep : Ascii.ascii) (ps : list string) : string :=
  match ps with
  | [] => ""
  | [p] => p
  | p :: ps => p +:+ String sep (joinWith sep ps)
  end.

Lemma join_split sep s : joinWith sep (split sep s) = s.
Proof.
  induction s as [|c s IH]; [done|]. cbn [split]. pose proof (split_nonempty sep s).
  case_decide as Hc.
  - subst c. destruct (split sep s) as [|p ps] eqn:E; [done|].
    transitivity (String sep (joinWith sep (p :: ps))); [done|by rewrite IH].
  - destruct (split sep s) as [|p ps]; [done|].
    transitivity (String c (joinWith sep (p :: ps))); [by destruct ps|by rewrite IH].
Qed.

Lemma checkComponents_free parts u p :
  checkComponents parts = Ok u → p ∈ parts → p ≠ "" ∧ sepFree slash p ∧ sepFree backslash p.
Proof.
  induction parts as [|q parts IH]; [set_solver|]. cbn [checkComponents]. intros H Hp. inv_ok.
  rewrite bool_decide_eq_false in *. apply elem_of_cons in Hp as [->|Hp]; [|by apply IH].
  split; [done|]. split; (eapply containsAny_sepFree; [done|]); set_solver.
Qed.

Lemma Validate_free s u :
  Validate s = Ok u →
  sepFree slash (Namespace s) ∧ sepFree slash (Class s) ∧ sepFree slash (ScopeID s).
Proof.
  unfold Validate. intros H. inv_ok.
  split_and!; eapply (checkComponents_free _ _ _ H); set_solver.
Qed.

Lemma split_scopeString s u :
  Validate s = Ok u → split slash (scopeString s) = [Namespace s; Class s; ScopeID s].
Proof.
  intros (Hn & Hc & Hi)%Validate_free. unfold scopeString.
  rewrite !slash_app, !split_app by done. by rewrite split_sepFree.
Qed.

Lemma ParseScope_valid s : Validate s = Ok tt → ParseScope (scopeString s) = Ok s.
Proof.
  intros Hv. unfold ParseScope. rewrite (split_scopeString s tt Hv). destruct s as [a b c]. cbn [Namespace Class ScopeID].
  by rewrite Hv.
Qed.

Lemma ParseScope_inv s sc : ParseScope s = Ok sc → s = scopeString sc ∧ Validate sc = Ok tt.
Proof.
  unfold ParseScope. intros H. pose proof (join_split slash s) as Hj.
  destruct (split slash s) as [|a [|b [|c [|d l]]]]; try done. inv_ok. subst sc.
  destruct a0. split; [|done]. by rewrite <-Hj.
Qed.

(** The vectors of the JavaScript host. *)
Example DOShard_vectors :
  (DOShard "demo" "counter" "Tenant" "a1", DOShard "acme" "web" "Room" "x",
   DOShard "demo" "counter" "Tenant" "b2") = (13, 3, 11).
Proof. vm_compute. reflexivity. Qed.

(** ** Properties *)

(** Parsing and printing scopes are inverse: [ParseScope] accepts exactly the
    texts of valid scopes and returns the scope whose text it was given. *)
Theorem ParseScope_String s sc :
  ParseScope s = Ok sc ↔ s = scopeString sc ∧ Validate sc = Ok tt.
Proof. split; [apply ParseScope_inv|]. intros [-> Hv]. by apply ParseScope_valid. Qed.

(** The objects of two cells never share a key: a key below one valid scope's
    prefix is below no other scope's prefix. *)
Theorem scopeKey_disjoint s1 s2 t1 t2 :
  Validate s1 = Ok tt → Validate s2 = Ok tt →
  scopeKey s1 +:+ "/" +:+ t1 = scopeKey s2 +:+ "/" +:+ t2 → s1 = s2.
Proof.
  intros (Hn1 & Hc1 & Hi1)%Validate_free (Hn2 & Hc2 & Hi2)%Validate_free Heq.
  apply (f_equal (split slash)) in Heq. unfold scopeKey, scopeString in Heq.
  assert (∀ n c i t, sepFree slash n → sepFree slash c → sepFree slash i →
    split slash (("cells/" +:+ n +:+ "/" +:+ c +:+ "/" +:+ i) +:+ "/" +:+ t)
    = "cells" :: n :: c :: i :: split slash t) as Hsplit.
  { intros n c i t Hn Hc Hi. rewrite <-!string_app_assoc.
    change ("cells/" +:+ ?x) with ("cells" +:+ String slash x).
    rewrite !slash_app, !split_app; done. }
  rewrite !Hsplit in Heq by done. destruct s1, s2. simpl in *. by simplify_eq.
Qed.

Lemma scopeKey_disjoint_witness :
  let s := MkScope "demo" "__kv__" "main" in s = MkScope "demo" "__kv__" "main".
Proof.
  apply (scopeKey_disjoint _ _ "owner.json" "owner.json"); vm_compute; reflexivity.
Defined.
