(* ===== verification/Bucket.v ===== *)
(** * Object storage ([internal/bucket])

    The contract every backend promises ([bucket.go]) is a map from keys to bytes
    with conditional writes, [perform] and [fetch]. The local backend
    ([fsbucket.go]) keeps one file per key below a root directory and publishes
    values through a temporary file; it is modelled over a small file system and
    proved to implement the contract wherever no directory stands in the way of
    a key. Listing by pages and the bounded body readers ([bounds.go]) follow.

    ETags are an argument: a value's tag is a hash of its contents, and the
    theorems that need it assume that different contents have different tags.
    Each operation of the local backend runs under its key's lock and is one
    step here; disk faults other than those of the directory layout, and the
    remote backends, are left out. *)

From S2P Require Import Prelude Cell.

(** ** The contract ([bucket.go]) *)

Inductive errno : Set := ENOENT | ENOTDIR | EISDIR | EEXIST | ENOTEMPTY | EINVAL | EIO.

Inductive bucketError : Set :=
| ErrNotFound
| ErrPrecondition
| ErrNotSupported
| ErrObjectTooLarge
| ErrRange
| ErrPanic (* the Go code panics *)
| ErrIO (e : errno)
| ErrUnavailable
| ErrCanceled (* the context ended during the call *).

#[global] Instance errno_eq_dec : EqDecision errno.
Proof. solve_decision. Defined.
#[global] Instance bucketError_eq_dec : EqDecision bucketError.
Proof. solve_decision. Defined.

(** [etag]: the hash of a value. *)
Class Etag := {
  etag : bytes → string;
  etag_inj :: Inj (=) (=) etag;
  etag_nonempty : ∀ d, etag d ≠ EmptyString;
}.

Abbreviation store := (gmap string bytes).

(** The writing methods of [Bucket]; the methods that return no ETag return the
    empty one. *)
Inductive bucketOp : Type :=
| Put (key : string) (data : bytes)
| ConditionalCreate (key : string) (data : bytes)
| CAS (key : string) (data : bytes) (expect : string)
| Delete (key : string)
| ConditionalDelete (key : string) (expect : string).

Definition opKey (op : bucketOp) : string :=
  match op with
  | Put k _ | ConditionalCreate k _ | CAS k _ _ | Delete k | ConditionalDelete k _ => k
  end.

Section contract.
Context `{Etag}.

Definition fetch (st : store) (key : string) : result bucketError (bytes * string) :=
  match st !! key with Some d => Ok (d, etag d) | None => Err ErrNotFound end.

Definition perform (op : bucketOp) (st : store) : store * result bucketError string :=
  match op with
  | Put k d => (<[k := d]> st, Ok (etag d))
  | ConditionalCreate k d =>
      match st !! k with
      | Some _ => (st, Err ErrPrecondition)
      | None => (<[k := d]> st, Ok (etag d))
      end
  | CAS k d e =>
      match st !! k with
      | None => (st, Err ErrNotFound)
      | Some c => if decide (etag c = e) then (<[k := d]> st, Ok (etag d))
                  else (st, Err ErrPrecondition)
      end
  | Delete k => (delete k st, Ok EmptyString)
  | ConditionalDelete k e =>
      match st !! k with
      | None => (st, Err ErrPrecondition)
      | Some c => if decide (etag c = e) then (delete k st, Ok EmptyString)
                  else (st, Err ErrPrecondition)
      end
  end.
End contract.

(** What a backend with state [B] offers, and what it owes: on every key it is
    [ready] for, reading and writing behave as the contract on the objects it
    [shows]. *)
Class Backend (B : Type) := {
  backendGet : string → B → B * result bucketError (bytes * string);
  backendDo : bucketOp → B → B * result bucketError string;
}.

Class BackendLaws (B : Type) `{Etag} `{!Backend B} := {
  valid : B → Prop;
  ready : B → string → Prop;
  shows : B → store → Prop;
  backendGet_ok b st key :
    valid b → ready b key → shows b st →
    (backendGet key b).2 = fetch st key ∧ valid (backendGet key b).1
    ∧ shows (backendGet key b).1 st;
  backendDo_ok b st op :
    valid b → ready b (opKey op) → shows b st →
    (backendDo op b).2 = (perform op st).2 ∧ valid (backendDo op b).1
    ∧ shows (backendDo op b).1 (perform op st).1;
}.

(** ** Paths ([path/filepath]) *)

(** A path below the root, by components. *)
Abbreviation path := (list string).

Definition cleanStep (acc : path) (c : string) : path :=
  if decide (c = EmptyString ∨ c = ".") then acc
  else if decide (c = "..") then take (length acc - 1) acc
  else acc ++ [c].

(** [filepath.Clean("/" + key)] *)
Definition cleanPath (key : string) : path := foldl cleanStep [] (split slash key).

(** [filepath.ToSlash(filepath.Rel(root, p))] *)
Definition keyOfPath (p : path) : string := joinWith slash p.

Definition Dir (p : path) : path := take (length p - 1) p.

(** [p + ".tmp"] *)
Definition tmpPath (p : path) : path :=
  Dir p ++ [default EmptyString (last p) +:+ ".tmp"].

(** [strings.HasSuffix] *)
Fixpoint hasSuffix (s suf : string) : bool :=
  bool_decide (s = suf) || match s with EmptyString => false | String _ s => hasSuffix s suf end.

(** ** The file system ([os]) *)

Record fsTree := MkFs {
  files : gmap path bytes;
  dirs : gset path;
}.

Definition isDir (fs : fsTree) (p : path) : bool := bool_decide (p = [] ∨ p ∈ dirs fs).
Definition isFile (fs : fsTree) (p : path) : bool := bool_decide (is_Some (files fs !! p)).

(** The directories a path goes through, the root first. *)
Definition ancestors (p : path) : list path := (λ n, take n p) <$> seq 0 (length p).

Definition throughFile (fs : fsTree) (p : path) : bool := existsb (isFile fs) (ancestors p).

(** Why a path that is not there is not there. *)
Definition missing (fs : fsTree) (p : path) : errno :=
  if throughFile fs p then ENOTDIR else ENOENT.

Definition readFile (fs : fsTree) (p : path) : result errno bytes :=
  match files fs !! p with
  | Some d => Ok d
  | None => Err (if isDir fs p then EISDIR else missing fs p)
  end.

(** [os.Stat]: the size of a file, [None] for a directory. *)
Definition stat (fs : fsTree) (p : path) : result errno (option Z) :=
  match files fs !! p with
  | Some d => Ok (Some (zlen d))
  | None => if isDir fs p then Ok None else Err (missing fs p)
  end.

Definition mkdirAll (fs : fsTree) (p : path) : result errno fsTree :=
  if isFile fs p || throughFile fs p then Err ENOTDIR
  else Ok (MkFs (files fs) (list_to_set (p :: ancestors p) ∪ dirs fs)).

Definition writeFile (fs : fsTree) (p : path) (d : bytes) : result errno fsTree :=
  if isDir fs p then Err EISDIR
  else if isDir fs (Dir p) then Ok (MkFs (<[p := d]> (files fs)) (dirs fs))
  else Err (missing fs p).

Definition rename (fs : fsTree) (a b : path) : result errno fsTree :=
  match files fs !! a with
  | None => Err ENOENT
  | Some d => if isDir fs b then Err EEXIST
              else Ok (MkFs (<[b := d]> (delete a (files fs))) (dirs fs))
  end.

Definition link (fs : fsTree) (a b : path) : result errno fsTree :=
  match files fs !! a with
  | None => Err ENOENT
  | Some d => if isDir fs b || isFile fs b then Err EEXIST
              else Ok (MkFs (<[b := d]> (files fs)) (dirs fs))
  end.

Definition hasChild (fs : fsTree) (p : path) : bool :=
  existsb (λ q, bool_decide (Dir q = p ∧ q ≠ [])) (elements (dom (files fs) ∪ dirs fs)).

Definition remove (fs : fsTree) (p : path) : result errno fsTree :=
  match files fs !! p with
  | Some _ => Ok (MkFs (delete p (files fs)) (dirs fs))
  | None =>
      if isDir fs p then
        if hasChild fs p || bool_decide (p = []) then Err ENOTEMPTY
        else Ok (MkFs (files fs) (dirs fs ∖ {[p]}))
      else Err (missing fs p)
  end.

(** The files [filepath.Walk] visits; the callers sort them. *)
Definition below (fs : fsTree) (base : path) : list path :=
  filter (λ p, take (length base) p = base) (map_to_list (files fs)).*1.

(** A base that is missing is an empty walk, any other error ends it. *)
Definition walk (fs : fsTree) (base : path) : result bucketError (list path) :=
  if throughFile fs base then Err (ErrIO ENOTDIR) else Ok (below fs base).

(** ** The local backend ([fsbucket.go]) *)

Record fsStats := MkStats {
  puts : Z;
  gets : Z;
  lists : Z;
  creates : Z;
  casOps : Z;
  deletes : Z;
}.

Record FSBucket := MkBucket {
  tree : fsTree;
  stats : fsStats;
}.

(** A new bucket over a root directory that exists. *)
Definition NewFSBucket : FSBucket := MkBucket (MkFs ∅ ∅) (MkStats 0 0 0 0 0 0).

Definition incr (n : Z) : Z := u64 (n + 1).
Definition addPut '(MkBucket t (MkStats p g l c s d)) := MkBucket t (MkStats (incr p) g l c s d).
Definition addGet '(MkBucket t (MkStats p g l c s d)) := MkBucket t (MkStats p (incr g) l c s d).
Definition addList '(MkBucket t (MkStats p g l c s d)) := MkBucket t (MkStats p g (incr l) c s d).
Definition addCreate '(MkBucket t (MkStats p g l c s d)) := MkBucket t (MkStats p g l (incr c) s d).
Definition addCas '(MkBucket t (MkStats p g l c s d)) := MkBucket t (MkStats p g l c (incr s) d).
Definition addDelete '(MkBucket t (MkStats p g l c s d)) := MkBucket t (MkStats p g l c s (incr d)).
Definition setTree (t : fsTree) (b : FSBucket) : FSBucket := MkBucket t (stats b).

(** [os.IsNotExist(err)] decides which error a failed read becomes. *)
Definition readError (e : errno) : bucketError :=
  if decide (e = ENOENT) then ErrNotFound else ErrIO e.

(** Runs the file-system calls of a step; on an error the tree keeps what the
    calls before it did. *)
Definition tryFs (t : fsTree) (r : result errno fsTree)
    (k : fsTree → fsTree * result bucketError string) : fsTree * result bucketError string :=
  match r with Ok t' => k t' | Err e => (t, Err (ErrIO e)) end.

Section fsbucket.
Context `{Etag}.

Definition getLocked (t : fsTree) (key : string) : result bucketError (bytes * string) :=
  d ←ᵣ rmap_err readError (readFile t (cleanPath key));
  Ok (d, etag d).

Definition fsGet (key : string) (b : FSBucket) : FSBucket * result bucketError (bytes * string) :=
  let b := addGet b in (b, getLocked (tree b) key).

Definition Stat (key : string) (t : fsTree) : result bucketError (Z * string) :=
  sz ←ᵣ rmap_err readError (stat t (cleanPath key));
  d ←ᵣ rmap_err ErrIO (readFile t (cleanPath key));
  Ok (default 0 sz, etag d).

Definition RangedGet (key : string) (off length : Z) (b : FSBucket) :
    FSBucket * result bucketError (bytes * string) :=
  let '(b, r) := fsGet key b in
  (b, '(data, e) ←ᵣ r;
      reject (bool_decide (off < 0) || bool_decide (length < 0) || bool_decide (off > zlen data))
        ErrRange ;;ᵣ
      let stop := i64 (off + length) in
      let stop := if decide (stop > zlen data) then zlen data else stop in
      reject (bool_decide (stop < off)) ErrPanic ;;ᵣ
      Ok (slice data off stop, e)).

(** The root itself is no object: its temporary file lies outside the root and
    the final rename onto a directory fails. *)
Definition putLocked (t : fsTree) (key : string) (data : bytes) :
    fsTree * result bucketError string :=
  let p := cleanPath key in
  if decide (p = []) then (t, Err (ErrIO EEXIST)) else
  tryFs t (mkdirAll t (Dir p)) (λ t,
  tryFs t (writeFile t (tmpPath p) data) (λ t,
  tryFs t (rename t (tmpPath p) p) (λ t, (t, Ok (etag data))))).

Definition createLocked (t : fsTree) (key : string) (data : bytes) :
    fsTree * result bucketError string :=
  let p := cleanPath key in
  tryFs t (mkdirAll t (Dir p)) (λ t,
  match stat t p with
  | Ok _ => (t, Err ErrPrecondition)
  | Err _ =>
      tryFs t (writeFile t (tmpPath p) data) (λ t,
      match link t (tmpPath p) p with
      | Err e => (match remove t (tmpPath p) with Ok t' => t' | Err _ => t end,
                  Err (if decide (e = EEXIST) then ErrPrecondition else ErrIO e))
      | Ok t => (match remove t (tmpPath p) with Ok t' => t' | Err _ => t end, Ok (etag data))
      end)
  end).

Definition casLocked (t : fsTree) (key : string) (data : bytes) (expect : string) :
    fsTree * result bucketError string :=
  match getLocked t key with
  | Err e => (t, Err e)
  | Ok (_, cur) => if decide (cur = expect) then putLocked t key data
                   else (t, Err ErrPrecondition)
  end.

(** [os.Remove] whose [IsNotExist] error is dropped. *)
Definition removeLocked (t : fsTree) (key : string) : fsTree * result bucketError string :=
  match remove t (cleanPath key) with
  | Ok t => (t, Ok EmptyString)
  | Err e => (t, if decide (e = ENOENT) then Ok EmptyString else Err (ErrIO e))
  end.

Definition onTree (b : FSBucket) (r : fsTree * result bucketError string) :
    FSBucket * result bucketError string :=
  (setTree r.1 b, r.2).

Definition fsDo (op : bucketOp) (b : FSBucket) : FSBucket * result bucketError string :=
  match op with
  | Put key data => onTree (addPut b) (putLocked (tree b) key data)
  | ConditionalCreate key data => onTree (addCreate b) (createLocked (tree b) key data)
  | CAS key data expect => onTree (addCas b) (casLocked (tree b) key data expect)
  | Delete key => onTree (addDelete b) (removeLocked (tree b) key)
  | ConditionalDelete key expect =>
      match getLocked (tree b) key with
      | Err e => (b, Err (if decide (e = ErrNotFound) then ErrPrecondition else e))
      | Ok (_, cur) =>
          if decide (cur = expect) then onTree (addDelete b) (removeLocked (tree b) key)
          else (b, Err ErrPrecondition)
      end
  end.

(** *** Listing *)

Record ObjectInfo := MkInfo {
  Key : string;
  Size : Z;
  ETag : string;
}.

(** The entries of the keys that can still be read. *)
Definition objectInfo (t : fsTree) (k : string) : option ObjectInfo :=
  match stat t (cleanPath k), readFile t (cleanPath k) with
  | Ok sz, Ok d => Some (MkInfo k (default 0 sz) (etag d))
  | _, _ => None
  end.

Definition sortKeys (ks : list string) : list string := merge_sort String.le ks.

Definition List (prefix : string) (b : FSBucket) : FSBucket * result bucketError (list string) :=
  let b := addList b in
  (b, ps ←ᵣ walk (tree b) (cleanPath prefix);
      Ok (sortKeys (filter (λ k, hasSuffix k ".tmp" = false) (keyOfPath <$> ps)))).

Definition ListSizes (prefix : string) (b : FSBucket) :
    FSBucket * result bucketError (list ObjectInfo) :=
  let '(b, r) := List prefix b in
  (b, keys ←ᵣ r; Ok (omap (objectInfo (tree b)) keys)).

(** [prefix[:strings.LastIndex(prefix, "/")+1]] *)
Fixpoint dirPrefix (s : string) : string :=
  match s with
  | EmptyString => EmptyString
  | String c s => if contains s "/" then String c (dirPrefix s)
                  else if decide (c = slash) then "/" else EmptyString
  end.

(** One visited file: [kept] holds the smallest [limit+1] keys seen so far. *)
Definition keepKey (prefix after : string) (limit : nat) (kept : list string) (key : string) :
    list string :=
  if negb (hasPrefix prefix key) || hasSuffix key ".tmp" then kept
  else if bool_decide (String.le key after) then kept
  else if decide (length kept < limit + 1)%nat then sortKeys (kept ++ [key])
  else match last kept with
       | Some top => if decide (String.le key top ∧ key ≠ top)
                     then sortKeys (take (length kept - 1) kept ++ [key]) else kept
       | None => kept
       end.

Definition pageBase (t : fsTree) (prefix : string) : path :=
  match stat t (cleanPath prefix) with
  | Ok None => cleanPath prefix
  | _ => cleanPath (dirPrefix prefix)
  end.

Definition pageKeys (prefix after : string) (limit : nat) (keys : list string) : list string :=
  foldl (keepKey prefix after limit) [] keys.

Definition ListPage (prefix after : string) (limit : Z) (b : FSBucket) :
    FSBucket * result bucketError (list ObjectInfo * string) :=
  let limit := Z.to_nat (if decide (limit ≤ 0) then 100 else limit) in
  let b := addList b in
  (b, ps ←ᵣ walk (tree b) (pageBase (tree b) prefix);
      let kept := pageKeys prefix after limit (keyOfPath <$> ps) in
      let next := if decide (limit < length kept)%nat
                  then default EmptyString (kept !! (limit - 1)%nat) else EmptyString in
      Ok (omap (objectInfo (tree b)) (take limit kept), next)).

(** Some file below [dir] is an object. *)
Definition dirHasFile (t : fsTree) (dir : path) : bool :=
  existsb (λ p, negb (hasSuffix (default EmptyString (last p)) ".tmp")) (below t dir).

(** [os.ReadDir] of a directory, its subdirectories by name. *)
Definition subdirs (t : fsTree) (p : path) : list string :=
  sortKeys (omap (λ q, if decide (Dir q = p ∧ q ≠ []) then last q else None) (elements (dirs t))).

Definition CommonPrefixes (prefix delimiter : string) (b : FSBucket) :
    FSBucket * result bucketError (list string) :=
  let delimiter := if decide (delimiter = EmptyString) then "/" else delimiter in
  let b := addList b in
  let p := cleanPath prefix in
  (b, match stat (tree b) p with
      | Err e => if decide (e = ENOENT) then Ok [] else Err (ErrIO e)
      | Ok (Some _) => Err (ErrIO ENOTDIR)
      | Ok None => Ok (omap (λ n, if dirHasFile (tree b) (p ++ [n])
                                  then Some (prefix +:+ n +:+ delimiter) else None)
                            (subdirs (tree b) p))
      end).

Definition PresignGet (root key : string) (t : fsTree) : result bucketError string :=
  _ ←ᵣ rmap_err readError (stat t (cleanPath key));
  Ok ("file://" +:+ root +:+ "/" +:+ keyOfPath (cleanPath key)).
End fsbucket.

#[global] Instance FSBucket_backend `{Etag} : Backend FSBucket :=
  {| backendGet := fsGet; backendDo := fsDo |}.

(** ** Bounded bodies ([bounds.go]) *)

(** An [io.Reader]: the pieces its reads return and the error that ends it, if
    the end is not [io.EOF]. *)
Definition reader : Type := list bytes * option bucketError.

(** [io.LimitReader] *)
Fixpoint limitReads (cs : list bytes) (n : nat) (stop : option bucketError) : reader :=
  match cs with
  | [] => ([], if decide (n = 0%nat) then None else stop)
  | c :: cs =>
      if decide (n = 0%nat) then ([], None)
      else let '(cs', stop') := limitReads cs (n - length c) stop in (take n c :: cs', stop')
  end.
Definition LimitReader (r : reader) (n : Z) : reader := limitReads r.1 (Z.to_nat n) r.2.

(** [io.ReadAll] *)
Definition ReadAll (r : reader) : result bucketError bytes :=
  match r.2 with None => Ok (concat r.1) | Some e => Err e end.

Definition DefaultMaxObjectBytes : Z := 512 * 2 ^ 20.
Definition segProbeBytes : Z := 4096.

Definition readMax (max : Z) : Z := if decide (max ≤ 0) then DefaultMaxObjectBytes else max.
Definition readLimit (max : Z) : Z := if decide (max < 2 ^ 63 - 1) then max + 1 else max.

Definition readContentLength (v : option Z) : Z := default (-1) v.

Definition readAllBounded (body : reader) (contentLength max : Z) : result bucketError bytes :=
  let max := readMax max in
  reject (bool_decide (max < contentLength)) ErrObjectTooLarge ;;ᵣ
  data ←ᵣ ReadAll (LimitReader body (readLimit max));
  reject (bool_decide (max < zlen data)) ErrObjectTooLarge ;;ᵣ
  Ok data.

(** The last [n] bytes. *)
Definition lastBytes (n : Z) (l : bytes) : bytes := drop (length l - Z.to_nat n) l.

Fixpoint tailReads (n max read : Z) (tail : bytes) (cs : list bytes) (stop : option bucketError) :
    result bucketError bytes :=
  match cs with
  | [] => match stop with
          | Some e => Err e
          | None => Ok (if decide (zlen tail > n) then lastBytes n tail else tail)
          end
  | c :: cs =>
      let read := read + zlen c in
      reject (bool_decide (0 < zlen c) && bool_decide (max < read)) ErrObjectTooLarge ;;ᵣ
      let tail := tail ++ c in
      tailReads n max read (if decide (zlen tail > 2 * n) then lastBytes n tail else tail) cs stop
  end.

Definition tailSize (n max : Z) : Z :=
  let n := if decide (n ≤ 0) then segProbeBytes else n in
  if decide (n > max) then max else n.

Definition readTailBounded (body : reader) (n contentLength max : Z) : result bucketError bytes :=
  let max := readMax max in
  reject (bool_decide (max < contentLength)) ErrObjectTooLarge ;;ᵣ
  let '(cs, stop) := LimitReader body (readLimit max) in
  tailReads (tailSize n max) max 0 [] cs stop.

(** ** What a tree shows *)

(** No path is both a file and a directory, and everything hangs from the root. *)
Definition treeOk (t : fsTree) : Prop :=
  (∀ p, isFile t p → isDir t p = false ∧ Forall (isDir t) (ancestors p))
  ∧ (∀ p, p ∈ dirs t → Forall (isDir t) (ancestors p)).

(** A key that names an object: its path spells it again, and it is not the
    name of a temporary file. *)
Definition visible (key : string) : Prop :=
  keyOfPath (cleanPath key) = key ∧ cleanPath key ≠ [] ∧ hasSuffix key ".tmp" = false.

Definition agree (t : fsTree) (st : store) : Prop :=
  ∀ key, visible key → files t !! cleanPath key = st !! key.

(** No directory and no other object stands in the way of the key. *)
Definition clear (t : fsTree) (key : string) : Prop :=
  visible key ∧ isDir t (cleanPath key) = false ∧ isDir t (tmpPath (cleanPath key)) = false
  ∧ throughFile t (cleanPath key) = false.

Lemma isDir_spec t p : isDir t p ↔ p = [] ∨ p ∈ dirs t.
Proof. unfold isDir. by rewrite bool_decide_spec. Qed.

Lemma isFile_spec t p : isFile t p ↔ is_Some (files t !! p).
Proof. unfold isFile. by rewrite bool_decide_spec. Qed.

Lemma elem_of_ancestors q p : q ∈ ancestors p ↔ ∃ n, (n < length p)%nat ∧ q = take n p.
Proof.
  unfold ancestors. rewrite list_elem_of_fmap. setoid_rewrite elem_of_seq.
  split.
  - intros (n & -> & Hn). exists n. split; [lia|done].
  - intros (n & Hn & ->). exists n. split; [done|lia].
Qed.

Lemma ancestors_shorter q p : q ∈ ancestors p → (length q < length p)%nat.
Proof. intros (n & Hn & ->)%elem_of_ancestors. rewrite length_take. lia. Qed.

Lemma length_Dir p : length (Dir p) = (length p - 1)%nat.
Proof. unfold Dir. rewrite length_take. lia. Qed.

Lemma ancestors_Dir p q : p ≠ [] → q ∈ ancestors p ↔ q = Dir p ∨ q ∈ ancestors (Dir p).
Proof.
  intros Hp. assert (0 < length p)%nat by (destruct p; [done|simpl; lia]).
  rewrite !elem_of_ancestors, length_Dir. unfold Dir. split.
  - intros (n & Hn & ->). destruct (decide (n = length p - 1)%nat) as [->|]; [by left|].
    right. exists n. rewrite take_take, Nat.min_l by lia. split; [lia|done].
  - intros [->|(n & Hn & ->)]; [exists (length p - 1)%nat; split; [lia|done]|].
    exists n. rewrite take_take, Nat.min_l by lia. split; [lia|done].
Qed.

Lemma length_tmpPath p : p ≠ [] → length (tmpPath p) = length p.
Proof. destruct p; [done|]. intros _. unfold tmpPath. rewrite length_app, length_Dir. simpl. lia. Qed.

Lemma Dir_tmpPath p : p ≠ [] → Dir (tmpPath p) = Dir p.
Proof.
  intros Hp. unfold Dir at 1. rewrite length_tmpPath by done. unfold tmpPath.
  rewrite take_app_le by (rewrite length_Dir; lia).
  rewrite take_ge by (rewrite length_Dir; lia). done.
Qed.

Lemma ancestors_tmpPath p q : p ≠ [] → q ∈ ancestors (tmpPath p) ↔ q ∈ ancestors p.
Proof.
  intros Hp. assert (tmpPath p ≠ []) by (unfold tmpPath; by destruct (Dir p)).
  by rewrite (ancestors_Dir (tmpPath p)), (ancestors_Dir p), Dir_tmpPath by done.
Qed.

(** *** Suffixes *)

Lemma hasSuffix_app s suf : hasSuffix (s +:+ suf) suf = true.
Proof.
  induction s as [|c s IH].
  - change (EmptyString +:+ suf) with suf. destruct suf; cbn [hasSuffix]; by rewrite bool_decide_eq_true_2.
  - change (String c s +:+ suf) with (String c (s +:+ suf)). cbn [hasSuffix].
    rewrite IH. by rewrite orb_true_r.
Qed.

Lemma joinWith_snoc sep ps p :
  joinWith sep (ps ++ [p]) = if decide (ps = []) then p else joinWith sep ps +:+ String sep p.
Proof.
  induction ps as [|q ps IH]; [done|]. rewrite decide_False by done.
  destruct ps as [|r ps]; [done|]. rewrite decide_False in IH by done.
  change (joinWith sep ((q :: r :: ps) ++ [p])) with (q +:+ String sep (joinWith sep ((r :: ps) ++ [p]))).
  rewrite IH. change (joinWith sep (q :: r :: ps)) with (q +:+ String sep (joinWith sep (r :: ps))).
  rewrite <-string_app_assoc. done.
Qed.

Lemma tmpPath_snoc ps c : tmpPath (ps ++ [c]) = ps ++ [c +:+ ".tmp"].
Proof.
  unfold tmpPath, Dir. rewrite last_snoc, length_app. simpl.
  rewrite Nat.add_sub, take_app_length. done.
Qed.

Lemma keyOfPath_tmp p : p ≠ [] → keyOfPath (tmpPath p) = keyOfPath p +:+ ".tmp".
Proof.
  destruct p as [|c ps _] using rev_ind; [done|]. intros _.
  unfold keyOfPath. rewrite tmpPath_snoc, !joinWith_snoc.
  case_decide; [done|]. by rewrite <-string_app_assoc.
Qed.

Lemma visible_inj k1 k2 : visible k1 → visible k2 → cleanPath k1 = cleanPath k2 → k1 = k2.
Proof. intros (H1 & _) (H2 & _) Heq. by rewrite <-H1, <-H2, Heq. Qed.

Lemma visible_not_tmp key p : visible key → p ≠ [] → cleanPath key ≠ tmpPath p.
Proof.
  intros (Hk & _ & Hs) Hp Heq. rewrite Heq, keyOfPath_tmp in Hk by done.
  rewrite <-Hk, hasSuffix_app in Hs. done.
Qed.

Lemma tmpPath_ne p : p ≠ [] → tmpPath p ≠ p.
Proof.
  intros Hp Heq%(f_equal (String.length ∘ keyOfPath)). simpl in Heq.
  rewrite keyOfPath_tmp in Heq by done. induction (keyOfPath p); simpl in *; [done|lia].
Qed.

(** *** The operations on the tree *)

Lemma throughFile_false t p : throughFile t p = false ↔ Forall (λ q, isFile t q = false) (ancestors p).
Proof.
  unfold throughFile. rewrite Forall_forall. split.
  - intros Hf q Hq. destruct (isFile t q) eqn:E; [|done]. rewrite <-Hf. symmetry.
    apply existsb_exists. exists q. split; [by apply list_elem_of_In|done].
  - intros Hf. apply not_true_iff_false. intros (q & Hq%list_elem_of_In & Hi)%existsb_exists.
    rewrite (Hf q Hq) in Hi. done.
Qed.

(** The tree with the directories above [p]. *)
Definition withDirs (t : fsTree) (p : path) : fsTree :=
  MkFs (files t) (list_to_set (ancestors p) ∪ dirs t).

Lemma isDir_withDirs t p q : isDir (withDirs t p) q ↔ q ∈ ancestors p ∨ isDir t q.
Proof. rewrite !isDir_spec. simpl. set_solver. Qed.

Lemma isDir_withDirs_same t p q :
  (length p ≤ length q)%nat → isDir (withDirs t p) q = isDir t q.
Proof.
  intros Hq. apply Bool.eq_true_iff_eq.
  rewrite <-!Is_true_true, isDir_withDirs. split; [|by right]. intros [Ha%ancestors_shorter|]; [lia|done].
Qed.

Lemma mkdirAll_Dir t p :
  p ≠ [] → throughFile t p = false → mkdirAll t (Dir p) = Ok (withDirs t p).
Proof.
  intros Hp Ht. rewrite throughFile_false, Forall_forall in Ht. unfold mkdirAll.
  assert (isFile t (Dir p) = false) as -> by (apply Ht, ancestors_Dir; [done|by left]).
  assert (throughFile t (Dir p) = false) as ->.
  { rewrite throughFile_false, Forall_forall. intros q Hq. apply Ht, ancestors_Dir; [done|by right]. }
  simpl. f_equal. unfold withDirs. f_equal. apply set_eq. intros q.
  rewrite !elem_of_union, elem_of_singleton, !elem_of_list_to_set, (ancestors_Dir p) by done. tauto.
Qed.

Lemma Forall_isDir_mono t t' l :
  (∀ q, isDir t q → isDir t' q) → Forall (isDir t) l → Forall (isDir t') l.
Proof. intros Hm Hl. eapply Forall_impl; [exact Hl|]. intros q. apply Hm. Qed.

Lemma treeOk_withDirs t p : treeOk t → throughFile t p = false → treeOk (withDirs t p).
Proof.
  intros [Hf Hd] Ht. rewrite throughFile_false, Forall_forall in Ht.
  assert (∀ q, isDir t q → isDir (withDirs t p) q) as Hm by (intros; apply isDir_withDirs; by right).
  split.
  - intros q Hq. change (Is_true (isFile t q)) in Hq. destruct (Hf q Hq) as [Hnd Ha]. split; [|by eapply Forall_isDir_mono].
    apply not_true_iff_false. intros [Hin|Hin]%Is_true_true%isDir_withDirs.
    + by rewrite (Ht q Hin) in Hq.
    + by rewrite Hnd in Hin.
  - intros q [Hq|Hq]%elem_of_union.
    + apply Forall_forall. intros r Hr. apply isDir_withDirs. left.
      apply elem_of_list_to_set, elem_of_ancestors in Hq as (n & Hn & ->).
      apply elem_of_ancestors in Hr as (k & Hk & ->). rewrite length_take in Hk.
      apply elem_of_ancestors. exists k. rewrite take_take, Nat.min_l by lia. split; [lia|done].
    + eapply Forall_isDir_mono; [done|by apply Hd].
Qed.

(** Adding a file where its directory is, and removing any file. *)
Lemma treeOk_insert t p d :
  treeOk t → isDir t p = false → Forall (isDir t) (ancestors p) →
  treeOk (MkFs (<[p := d]> (files t)) (dirs t)).
Proof.
  intros [Hf Hd] Hp Ha. split; [|done]. intros q. rewrite isFile_spec. simpl.
  intros Hq. destruct (decide (q = p)) as [->|Hne]; [by split|].
  rewrite lookup_insert_ne in Hq by done. by apply Hf, isFile_spec.
Qed.

Lemma treeOk_delete t p : treeOk t → treeOk (MkFs (delete p (files t)) (dirs t)).
Proof.
  intros [Hf Hd]. split; [|done]. intros q. rewrite isFile_spec. simpl.
  intros (d & [_ Hq]%lookup_delete_Some). apply Hf, isFile_spec. eauto.
Qed.

(** The tree after publishing [d] at [p]. *)
Definition published (t : fsTree) (p : path) (d : bytes) : fsTree :=
  MkFs (<[p := d]> (delete (tmpPath p) (files t))) (list_to_set (ancestors p) ∪ dirs t).

Lemma ancestors_isDir t p : Forall (isDir (withDirs t p)) (ancestors p).
Proof. apply Forall_forall. intros q Hq. apply isDir_withDirs. by left. Qed.

Lemma treeOk_published t p d :
  treeOk t → isDir t p = false → throughFile t p = false → treeOk (published t p d).
Proof.
  intros Hok Hp Ht. unfold published.
  refine (treeOk_insert (MkFs (delete (tmpPath p) (files t)) (dirs (withDirs t p))) p d _ _ _).
  - apply (treeOk_delete (withDirs t p)). by apply treeOk_withDirs.
  - by refine (eq_trans (isDir_withDirs_same t p p _) _).
  - apply ancestors_isDir.
Qed.

Lemma agree_published t st key d :
  agree t st → visible key → agree (published t (cleanPath key) d) (<[key := d]> st).
Proof.
  intros Ha Hv k Hk. cbn [published files].
  destruct (decide (k = key)) as [->|Hne]; [by rewrite !lookup_insert_eq|].
  rewrite !lookup_insert_ne; [|done|]; [|intros ?; by apply Hne, visible_inj].
  rewrite lookup_delete_ne; [by apply Ha|].
  intros Heq. by apply (visible_not_tmp k (cleanPath key)); [|apply Hv|].
Qed.

Lemma agree_deleted t st key :
  agree t st → visible key →
  agree (MkFs (delete (cleanPath key) (files t)) (dirs t)) (delete key st).
Proof.
  intros Ha Hv k Hk. cbn [files].
  destruct (decide (k = key)) as [->|Hne]; [by rewrite !lookup_delete_eq|].
  rewrite !lookup_delete_ne; [by apply Ha|done|]. intros ?. by apply Hne, visible_inj.
Qed.

Section operations.
Context `{Etag}.

Lemma getLocked_fetch t st key :
  agree t st → clear t key → getLocked t key = fetch st key.
Proof.
  intros Ha (Hv & Hd & _ & Ht). unfold getLocked, readFile, fetch. rewrite <-(Ha key Hv).
  destruct (files t !! cleanPath key) as [d|]; [done|].
  rewrite Hd. unfold missing. by rewrite Ht.
Qed.

(** The temporary file is written next to the object. *)
Lemma writeFile_tmp t p d :
  p ≠ [] → isDir t (tmpPath p) = false →
  writeFile (withDirs t p) (tmpPath p) d
  = Ok (MkFs (<[tmpPath p := d]> (files t)) (dirs (withDirs t p))).
Proof.
  intros Hp Htmp. unfold writeFile.
  rewrite isDir_withDirs_same by (by rewrite length_tmpPath). rewrite Htmp, Dir_tmpPath by done.
  assert (isDir (withDirs t p) (Dir p) = true) as ->; [|done].
  apply Is_true_true, isDir_withDirs. left. apply ancestors_Dir; [done|by left].
Qed.

Lemma putLocked_ready t key d :
  clear t key → putLocked t key d = (published t (cleanPath key) d, Ok (etag d)).
Proof.
  intros ((Hk & Hp & Hs) & Hd & Htmp & Ht). unfold putLocked. rewrite decide_False by done.
  rewrite mkdirAll_Dir by done. cbn [tryFs]. rewrite writeFile_tmp by done. cbn [tryFs].
  unfold rename. cbn [files]. rewrite lookup_insert_eq.
  change (isDir (MkFs ?f (dirs (withDirs t ?p))) ?q) with (isDir (withDirs t p) q).
  rewrite isDir_withDirs_same, Hd by done. cbn [tryFs dirs]. unfold published.
  by rewrite delete_insert_eq.
Qed.

Lemma createLocked_ready t key d :
  clear t key →
  createLocked t key d =
    match files t !! cleanPath key with
    | Some _ => (withDirs t (cleanPath key), Err ErrPrecondition)
    | None => (published t (cleanPath key) d, Ok (etag d))
    end.
Proof.
  intros ((Hk & Hp & Hs) & Hd & Htmp & Ht). unfold createLocked.
  rewrite mkdirAll_Dir by done. cbn [tryFs]. unfold stat. cbn [files withDirs].
  destruct (files t !! cleanPath key) as [c|] eqn:Hc; [done|].
  change (MkFs (files t) (list_to_set (ancestors ?p) ∪ dirs t)) with (withDirs t p).
  rewrite isDir_withDirs_same, Hd by done. rewrite writeFile_tmp by done. cbn [tryFs].
  pose proof (tmpPath_ne _ Hp). unfold link. cbn [files]. rewrite lookup_insert_eq.
  change (isDir (MkFs ?f (dirs (withDirs t ?p))) ?q) with (isDir (withDirs t p) q).
  rewrite isDir_withDirs_same, Hd by done. unfold isFile at 1. cbn [files].
  rewrite lookup_insert_ne, Hc by done. cbn. unfold remove. cbn [files].
  rewrite lookup_insert_ne, lookup_insert_eq by done. cbn [dirs].
  rewrite delete_insert_ne, delete_insert_eq by done. done.
Qed.

Lemma removeLocked_ready t st key :
  agree t st → clear t key →
  removeLocked t key
  = (match st !! key with
     | Some _ => MkFs (delete (cleanPath key) (files t)) (dirs t)
     | None => t
     end, Ok EmptyString).
Proof.
  intros Ha (Hv & Hd & _ & Ht). unfold removeLocked, remove. rewrite <-(Ha key Hv).
  destruct (files t !! cleanPath key) as [d|]; [done|].
  rewrite Hd. unfold missing. by rewrite Ht.
Qed.

Lemma addGet_tree b : tree (addGet b) = tree b.
Proof. by destruct b as [t []]. Qed.

Lemma fsDo_tree op b :
  tree (fsDo op b).1 =
    match op with
    | Put key data => (putLocked (tree b) key data).1
    | ConditionalCreate key data => (createLocked (tree b) key data).1
    | CAS key data expect => (casLocked (tree b) key data expect).1
    | Delete key => (removeLocked (tree b) key).1
    | ConditionalDelete key expect =>
        match getLocked (tree b) key with
        | Ok (_, cur) => if decide (cur = expect) then (removeLocked (tree b) key).1 else tree b
        | Err _ => tree b
        end
    end.
Proof.
  destruct op as [| | | |k e]; cbn [fsDo onTree setTree tree fst]; try done.
  destruct (getLocked (tree b) k) as [[d cur]|]; [|done]. by case_decide.
Qed.

Lemma treeOk_agree_Do b st op :
  treeOk (tree b) → clear (tree b) (opKey op) → agree (tree b) st →
  (fsDo op b).2 = (perform op st).2 ∧ treeOk (tree (fsDo op b).1)
  ∧ agree (tree (fsDo op b).1) (perform op st).1.
Proof.
  intros Hok Hc Ha. pose proof Hc as (Hv & Hd & Htmp & Ht). rewrite fsDo_tree.
  pose proof (getLocked_fetch _ _ _ Ha Hc) as Hget. unfold fetch in Hget.
  pose proof (removeLocked_ready _ _ _ Ha Hc) as Hrem.
  pose proof (agree_deleted _ _ _ Ha Hv) as Hdel.
  destruct op as [k d|k d|k d e|k|k e]; cbn [opKey fsDo perform onTree snd fst] in *.
  - rewrite putLocked_ready by done.
    split_and!; [done|by apply treeOk_published|by apply agree_published].
  - rewrite createLocked_ready, (Ha k Hv) by done. destruct (st !! k) as [c|] eqn:Hk.
    + split_and!; [done|by apply treeOk_withDirs|exact Ha].
    + split_and!; [done|by apply treeOk_published|by apply agree_published].
  - unfold casLocked. rewrite Hget. destruct (st !! k) as [c|]; [|by split_and!].
    case_decide; [|by split_and!]. rewrite putLocked_ready by done.
    split_and!; [done|by apply treeOk_published|by apply agree_published].
  - rewrite Hrem. cbn [fst snd]. destruct (st !! k) as [c|] eqn:Hk.
    + split_and!; [done|by apply treeOk_delete|done].
    + split_and!; [done|done|]. by rewrite delete_id.
  - rewrite Hget. destruct (st !! k) as [c|] eqn:Hk; [|by split_and!].
    case_decide; [|by split_and!]. cbn [snd onTree]. rewrite Hrem.
    split_and!; [done|by apply treeOk_delete|done].
Qed.
End operations.

#[global] Program Instance FSBucket_laws `{Etag} : BackendLaws FSBucket :=
  {| valid b := treeOk (tree b); ready b key := clear (tree b) key; shows b st := agree (tree b) st |}.
Next Obligation.
  intros ? b st key Hok Hc Ha. cbn. rewrite addGet_tree.
  split_and!; [by apply getLocked_fetch|done|done].
Qed.
Next Obligation. intros. by apply treeOk_agree_Do. Qed.

(** *** Keys that leave each other room *)

(** No key's file, and no key's temporary file, is a directory of another key. *)
Definition roomy (keys : list string) : Prop :=
  Forall visible keys
  ∧ ∀ k1 k2, k1 ∈ keys → k2 ∈ keys →
      (cleanPath k1 ∉ ancestors (cleanPath k2)) ∧ (tmpPath (cleanPath k1) ∉ ancestors (cleanPath k2)).

(** A tree that holds nothing but these keys and their directories. *)
Definition only (keys : list string) (t : fsTree) : Prop :=
  (∀ p, isFile t p → ∃ k, k ∈ keys ∧ p = cleanPath k)
  ∧ (∀ p, p ∈ dirs t → ∃ k, k ∈ keys ∧ p ∈ ancestors (cleanPath k)).

Lemma only_clear keys t key : roomy keys → only keys t → key ∈ keys → clear t key.
Proof.
  intros [Hv Hr] [Hf Hd] Hk. pose proof (proj1 (Forall_forall _ _) Hv key Hk) as Hkey.
  assert (∀ p, p ≠ [] → (∀ k, k ∈ keys → p ∉ ancestors (cleanPath k)) → isDir t p = false) as Hdir.
  { intros p Hp Hno. apply not_true_iff_false. intros [->|Hp']%Is_true_true%isDir_spec; [done|].
    apply Hd in Hp' as (k & Hk' & Ha). by apply (Hno k). }
  split_and!; [done|..].
  - apply Hdir; [apply Hkey|]. intros k Hk'. by apply Hr.
  - apply Hdir; [unfold tmpPath; by destruct (Dir _)|]. intros k Hk'. by apply Hr.
  - apply throughFile_false, Forall_forall. intros q Hq. apply not_true_iff_false.
    intros (k & Hk' & ->)%Is_true_true%Hf. by destruct (Hr k key Hk' Hk).
Qed.

Lemma only_withDirs keys t key : key ∈ keys → only keys t → only keys (withDirs t (cleanPath key)).
Proof. intros Hk [Hf Hd]. split; [exact Hf|]. intros p. cbn. set_solver. Qed.

Lemma only_published keys t key d :
  key ∈ keys → only keys t → only keys (published t (cleanPath key) d).
Proof.
  intros Hk [Hf Hd]. split; [|intros p; cbn; set_solver].
  intros p. rewrite isFile_spec. cbn [published files]. intros [c Hc].
  apply lookup_insert_Some in Hc as [[<- _]|[_ [_ Hc]%lookup_delete_Some]]; [by exists key|].
  apply Hf, isFile_spec. eauto.
Qed.

Lemma only_deleted keys t p :
  only keys t → only keys (MkFs (delete p (files t)) (dirs t)).
Proof.
  intros [Hf Hd]. split; [|done]. intros q. rewrite isFile_spec. cbn [files].
  intros [c [_ Hc]%lookup_delete_Some]. apply Hf, isFile_spec. eauto.
Qed.

(** A client's calls, one after another, with what each returned. *)
Inductive call : Type :=
| CallGet (key : string)
| CallDo (op : bucketOp).

Definition callKey (c : call) : string :=
  match c with CallGet k => k | CallDo op => opKey op end.

(** The bytes of a read and the ETag of either kind of call. *)
Definition answer : Type := result bucketError (option bytes * string).

Section calls.
Context `{Etag}.

Definition onFs (c : call) (b : FSBucket) : FSBucket * answer :=
  match c with
  | CallGet k => let '(b, r) := fsGet k b in (b, '(d, e) ←ᵣ r; Ok (Some d, e))
  | CallDo op => let '(b, r) := fsDo op b in (b, e ←ᵣ r; Ok (None, e))
  end.

Definition onStore (c : call) (st : store) : store * answer :=
  match c with
  | CallGet k => (st, '(d, e) ←ᵣ fetch st k; Ok (Some d, e))
  | CallDo op => let '(st, r) := perform op st in (st, e ←ᵣ r; Ok (None, e))
  end.

Fixpoint answers {S : Type} (f : call → S → S * answer) (cs : list call) (s : S) : list answer :=
  match cs with
  | [] => []
  | c :: cs => let '(s, a) := f c s in a :: answers f cs s
  end.

Lemma only_Do keys b op :
  roomy keys → only keys (tree b) → opKey op ∈ keys → only keys (tree (fsDo op b).1).
Proof.
  intros Hr Ho Hk. pose proof (only_clear _ _ _ Hr Ho Hk) as Hc. rewrite fsDo_tree.
  assert (only keys (removeLocked (tree b) (opKey op)).1).
  { unfold removeLocked, remove. destruct Hc as (_ & -> & _).
    destruct (files _ !! _); [by apply only_deleted|done]. }
  destruct op as [k d|k d|k d e|k|k e]; cbn [opKey] in *.
  - rewrite putLocked_ready by done. by apply only_published.
  - rewrite createLocked_ready by done.
    destruct (files _ !! _); [by apply only_withDirs|by apply only_published].
  - unfold casLocked. destruct (getLocked _ _) as [[c cur]|]; [|done]. case_decide; [|done].
    rewrite putLocked_ready by done. by apply only_published.
  - done.
  - destruct (getLocked _ _) as [[c cur]|]; [|done]. by case_decide.
Qed.

(** The local backend answers as the contract does. *)
Lemma answers_agree keys cs b st :
  roomy keys → Forall (λ c, callKey c ∈ keys) cs →
  treeOk (tree b) → only keys (tree b) → agree (tree b) st →
  answers onFs cs b = answers onStore cs st.
Proof.
  intros Hr Hcs. revert b st. induction Hcs as [|c cs Hc Hcs IH]; intros b st Hok Ho Ha; [done|].
  pose proof (only_clear _ _ _ Hr Ho Hc) as Hcl. cbn [answers].
  destruct c as [k|op]; cbn [onFs onStore callKey] in *.
  - cbn [fsGet]. rewrite addGet_tree, (getLocked_fetch _ st) by done.
    f_equal. apply IH; by rewrite addGet_tree.
  - destruct (treeOk_agree_Do _ _ _ Hok Hcl Ha) as (Hres & Hok' & Ha').
    pose proof (only_Do _ _ _ Hr Ho Hc) as Ho'.
    destruct (fsDo op b) as [b' r], (perform op st) as [st' r']. cbn in *. subst r'.
    f_equal. by apply IH.
Qed.

Definition stateAfter {S : Type} (f : call → S → S * answer) (cs : list call) (s : S) : S :=
  foldl (λ s c, (f c s).1) s cs.

Lemma perform_keys (keys : list string) op st :
  (∀ k, is_Some (st !! k) → k ∈ keys) → opKey op ∈ keys →
  ∀ k, is_Some ((perform op st).1 !! k) → k ∈ keys.
Proof.
  intros Hst Hop k. destruct op as [k' d|k' d|k' d e|k'|k' e]; cbn in *;
    try (destruct (st !! k') eqn:?); try case_decide; cbn; auto;
    rewrite ?lookup_insert_is_Some, ?lookup_delete_is_Some; naive_solver.
Qed.

Lemma stateAfter_agree keys cs b st :
  roomy keys → Forall (λ c, callKey c ∈ keys) cs →
  treeOk (tree b) → only keys (tree b) → agree (tree b) st → (∀ k, is_Some (st !! k) → k ∈ keys) →
  let b' := stateAfter onFs cs b in
  let st' := stateAfter onStore cs st in
  treeOk (tree b') ∧ only keys (tree b') ∧ agree (tree b') st'
  ∧ ∀ k, is_Some (st' !! k) → k ∈ keys.
Proof.
  intros Hr Hcs. revert b st. induction Hcs as [|c cs Hc Hcs IH]; intros b st Hok Ho Ha Hst; [done|].
  pose proof (only_clear _ _ _ Hr Ho Hc) as Hcl. unfold stateAfter in *. cbn [foldl].
  destruct c as [k|op]; cbn [onFs onStore callKey] in *.
  - apply IH; cbn; rewrite ?addGet_tree; done.
  - destruct (treeOk_agree_Do _ _ _ Hok Hcl Ha) as (_ & Hok' & Ha').
    pose proof (only_Do _ _ _ Hr Ho Hc) as Ho'. pose proof (perform_keys _ _ _ Hst Hc) as Hst'.
    destruct (fsDo op b) as [b' r], (perform op st) as [st' r']. by apply IH.
Qed.
End calls.

(** ** Listing by pages *)

(** Insertion into a sorted list, the reference for the bounded selection. *)
Fixpoint insKey (k : string) (l : list string) : list string :=
  match l with
  | [] => [k]
  | x :: l => if decide (String.le k x) then k :: x :: l else x :: insKey k l
  end.

Lemma insKey_perm k l : insKey k l ≡ₚ k :: l.
Proof.
  induction l as [|x l IH]; simpl; [done|]. case_decide; [done|]. rewrite IH. by constructor.
Qed.

Lemma insKey_sorted k l : StronglySorted String.le l → StronglySorted String.le (insKey k l).
Proof.
  induction 1 as [|x l Hl IH Hx]; simpl; [by repeat constructor|]. case_decide as Hk.
  - constructor; [by constructor|]. constructor; [done|].
    eapply Forall_impl; [exact Hx|]. intros y Hy. by transitivity x.
  - constructor; [done|]. rewrite insKey_perm. constructor; [|done].
    by destruct (total String.le k x).
Qed.

Lemma sortKeys_perm l : sortKeys l ≡ₚ l.
Proof. apply merge_sort_Permutation. Qed.

Lemma sortKeys_sorted l : StronglySorted String.le (sortKeys l).
Proof. apply StronglySorted_merge_sort; apply _. Qed.

Lemma sorted_perm_eq l1 l2 :
  StronglySorted String.le l1 → StronglySorted String.le l2 → l1 ≡ₚ l2 → l1 = l2.
Proof. intros. by eapply (StronglySorted_unique String.le). Qed.

Lemma sortKeys_id l : StronglySorted String.le l → sortKeys l = l.
Proof. intros. apply sorted_perm_eq; [apply sortKeys_sorted|done|apply sortKeys_perm]. Qed.

Lemma sortKeys_snoc l k : sortKeys (l ++ [k]) = insKey k (sortKeys l).
Proof.
  apply sorted_perm_eq; [apply sortKeys_sorted|apply insKey_sorted, sortKeys_sorted|].
  rewrite insKey_perm, !sortKeys_perm. by rewrite Permutation_app_comm.
Qed.

Lemma sortKeys_nil l : sortKeys l = [] → l = [].
Proof. intros Hl. pose proof (sortKeys_perm l) as Hp. rewrite Hl in Hp. by apply Permutation_nil_l in Hp. Qed.

Lemma take_insKey n k l : take n (insKey k l) = take n (insKey k (take n l)).
Proof.
  revert n. induction l as [|x l IH]; intros n; [by rewrite take_nil|].
  destruct n as [|n]; [done|]. cbn [insKey take]. case_decide; cbn [take]; [|by rewrite IH].
  f_equal. destruct n; [done|]. cbn [take]. by rewrite take_take, Nat.min_l by lia.
Qed.

Lemma insKey_below k l top : String.le k top → insKey k (l ++ [top]) = insKey k l ++ [top].
Proof.
  intros Hk. induction l as [|x l IH]; simpl; [by rewrite decide_True|].
  case_decide; [done|]. by rewrite IH.
Qed.

Lemma sorted_snoc l k :
  StronglySorted String.le l → Forall (λ x, String.le x k) l → StronglySorted String.le (l ++ [k]).
Proof.
  induction 1 as [|x l Hl IH Hx]; simpl; [by repeat constructor|].
  intros [Hxk Hlk]%Forall_cons. constructor; [by apply IH|].
  apply Forall_app. split; [done|by constructor].
Qed.

Lemma insKey_above k l :
  StronglySorted String.le l → Forall (λ x, String.le x k) l → insKey k l = l ++ [k].
Proof.
  intros Hs Hl. apply sorted_perm_eq; [by apply insKey_sorted|by apply sorted_snoc|].
  rewrite insKey_perm. by rewrite Permutation_app_comm.
Qed.

Lemma sorted_last l k :
  StronglySorted String.le (l ++ [k]) → StronglySorted String.le l ∧ Forall (λ x, String.le x k) l.
Proof.
  induction l as [|x l IH]; simpl; [by repeat constructor|].
  intros [Hs [Hl [Hk _]%Forall_cons]%Forall_app]%StronglySorted_inv.
  destruct (IH Hs). split; by constructor.
Qed.

(** The keys a page of the prefix is cut from, after the cursor. *)
Definition wanted (prefix after : string) (k : string) : Prop :=
  hasPrefix prefix k = true ∧ hasSuffix k ".tmp" = false ∧ ¬ String.le k after.

#[global] Instance wanted_dec prefix after k : Decision (wanted prefix after k) := _.

Definition matching (prefix after : string) (keys : list string) : list string :=
  sortKeys (filter (wanted prefix after) keys).

(** One step of the selection keeps the smallest [n = limit + 1] keys. *)
Lemma keepKey_insKey prefix after limit l k :
  StronglySorted String.le l →
  keepKey prefix after limit (take (limit + 1) l) k
  = take (limit + 1) (if decide (wanted prefix after k) then insKey k l else l).
Proof.
  intros Hs. destruct (decide (wanted prefix after k)) as [(Hp & Ht & Ha)|Hw]; unfold keepKey; cycle 1.
  { destruct (hasPrefix prefix k) eqn:Hp, (hasSuffix k ".tmp") eqn:Ht; try done. simpl.
    by rewrite bool_decide_true by (apply dec_stable; unfold wanted in Hw; naive_solver). }
  rewrite Hp, Ht, (bool_decide_false _ Ha). cbn [negb orb]. rewrite take_insKey.
  set (T := take (limit + 1) l). assert (StronglySorted String.le T) as HT.
  { unfold T. rewrite <-(take_drop (limit + 1) l) in Hs. by eapply StronglySorted_app_1_l. }
  case_decide as Hlen.
  - rewrite sortKeys_snoc, sortKeys_id by done. rewrite take_ge; [done|].
    rewrite insKey_perm. simpl. lia.
  - assert (length T = limit + 1)%nat as HlT by (unfold T in *; rewrite length_take in *; lia).
    clearbody T. destruct T as [|top T' _] using rev_ind; [simpl in *; lia|].
    rewrite last_snoc. rewrite length_app in *. simpl in *.
    apply sorted_last in HT as HT'. destruct HT' as [HsT' HleT'].
    rewrite Nat.add_sub, take_app_length.
    case_decide as Htop.
    + rewrite sortKeys_snoc, sortKeys_id by done. rewrite insKey_below by apply Htop.
      rewrite take_app_le by (rewrite insKey_perm; simpl; lia).
      rewrite take_ge; [done|]. rewrite insKey_perm. simpl. lia.
    + assert (String.le top k).
      { destruct (total String.le k top) as [Hle|]; [|done].
        destruct (decide (k = top)) as [->|]; [done|naive_solver]. }
      rewrite insKey_above; [|done|].
      * rewrite take_app_le by (rewrite length_app; simpl; lia).
        rewrite take_ge; [done|]. rewrite length_app. simpl. lia.
      * apply Forall_app. split; [|by constructor].
        eapply Forall_impl; [exact HleT'|]. intros y Hy. by transitivity top.
Qed.

Lemma pageKeys_matching prefix after limit keys :
  pageKeys prefix after limit keys = take (limit + 1) (matching prefix after keys).
Proof.
  unfold pageKeys, matching.
  induction keys as [|k keys IH] using rev_ind; [symmetry; apply take_nil|].
  rewrite foldl_app, IH. cbn [foldl]. rewrite keepKey_insKey by apply sortKeys_sorted.
  rewrite filter_app. f_equal. case_decide as Hw.
  - by rewrite filter_cons_True, sortKeys_snoc.
  - by rewrite filter_cons_False, app_nil_r.
Qed.

(** The cursor splits a listing without loss: what follows the last key of a page
    is the rest of the listing. *)
Lemma matching_next prefix after keys n next :
  NoDup keys → matching prefix after keys !! n = Some next →
  matching prefix next keys = drop (S n) (matching prefix after keys).
Proof.
  intros Hnd Hn. pose proof (sortKeys_sorted (filter (wanted prefix after) keys)) as Hs.
  unfold matching in *. set (M := sortKeys (filter (wanted prefix after) keys)) in *.
  assert (NoDup M) as HndM by (unfold M; rewrite sortKeys_perm; by apply NoDup_filter).
  assert (M ≡ₚ filter (wanted prefix after) keys) as HM by apply sortKeys_perm.
  clearbody M. apply list_elem_of_split_length in Hn as (M1 & M2 & -> & ->).
  assert (wanted prefix after next) as (_ & _ & Hnext).
  { assert (next ∈ filter (wanted prefix after) keys) as H%list_elem_of_filter by (rewrite <-HM; set_solver).
    apply H. }
  replace (drop (S (length M1)) (M1 ++ next :: M2)) with M2
    by (by rewrite cons_middle, app_assoc, drop_app_length' by (rewrite length_app; simpl; lia)).
  assert (StronglySorted String.le M1 ∧ Forall (λ x, String.le x next) M1) as [_ HM1].
  { apply sorted_last. rewrite cons_middle, app_assoc in Hs. by eapply StronglySorted_app_1_l. }
  apply StronglySorted_app_1_r in Hs. apply StronglySorted_inv in Hs as [HsM2 HM2].
  apply sorted_perm_eq; [apply sortKeys_sorted|done|]. rewrite sortKeys_perm.
  transitivity (filter (λ k, ¬ String.le k next) (filter (wanted prefix after) keys)).
  - rewrite list_filter_filter. apply reflexive_eq, list_filter_iff. intros k. unfold wanted.
    split; [|naive_solver]. intros (Hp & Ht & Hk). split_and!; try done. intros Hka. apply Hk.
    transitivity after; [done|]. by destruct (total String.le next after).
  - rewrite <-HM, filter_app, filter_cons_False by (intros Hne; by apply Hne).
    rewrite list_filter_none, list_filter_all; [done|..].
    + rewrite Forall_forall in HM2 |- *. intros x Hx Hle.
      apply NoDup_app in HndM as (_ & _ & [Hc _]%NoDup_cons). apply Hc.
      by rewrite (anti_symm String.le next x (HM2 x Hx) Hle).
    + eapply Forall_impl; [exact HM1|]. intros x Hx Hne. by apply Hne.
Qed.

(** *** The path of a key *)

Lemma split_app_gen sep a b : split sep (a +:+ String sep b) = split sep a ++ split sep b.
Proof.
  induction a as [|c a IH].
  - change (EmptyString +:+ String sep b) with (String sep b). cbn [split]. by rewrite decide_True.
  - change (String c a +:+ String sep b) with (String c (a +:+ String sep b)). cbn [split].
    rewrite IH. case_decide; [done|]. pose proof (split_nonempty sep a).
    by destruct (split sep a).
Qed.

Lemma split_parts sep s : Forall (sepFree sep) (split sep s).
Proof.
  induction s as [|c s IH]; cbn [split]; [by repeat constructor|].
  case_decide; [by constructor|]. destruct (split sep s) as [|p ps]; [by repeat constructor|].
  apply Forall_cons in IH as [Hp Hps]. by repeat constructor.
Qed.

Lemma split_join sep ps : ps ≠ [] → Forall (sepFree sep) ps → split sep (joinWith sep ps) = ps.
Proof.
  intros Hne Hps. induction Hps as [|p ps Hp Hps IH]; [done|].
  destruct ps as [|q ps]; [by apply split_sepFree|].
  change (joinWith sep (p :: q :: ps)) with (p +:+ String sep (joinWith sep (q :: ps))).
  rewrite split_app by done. by rewrite IH.
Qed.

Lemma cleanPath_parts key : Forall (sepFree slash) (cleanPath key).
Proof.
  unfold cleanPath. assert (Forall (sepFree slash) []) as Hacc by done. revert Hacc.
  generalize ([] : path). induction (split_parts slash key) as [|c cs Hc Hcs IH]; [done|].
  intros acc Hacc. cbn [foldl]. apply IH. unfold cleanStep.
  repeat case_decide; [done|by apply Forall_take|]. apply Forall_app. by repeat constructor.
Qed.

Lemma visible_split key : visible key → cleanPath key = split slash key.
Proof.
  intros (Hk & Hp & _). rewrite <-Hk at 2. unfold keyOfPath.
  by rewrite split_join; [|done|apply cleanPath_parts].
Qed.

Lemma hasPrefix_app p s : hasPrefix p s = true ↔ ∃ t, s = p +:+ t.
Proof.
  revert s. induction p as [|c p IH]; intros s.
  - split; [by exists s|done].
  - destruct s as [|x s]; cbn [hasPrefix]; [by split; [done|intros []]|].
    rewrite andb_true_iff, bool_decide_eq_true, IH. split.
    + intros [-> (t & ->)]. by exists t.
    + intros (t & Ht). change (String c p +:+ t) with (String c (p +:+ t)) in Ht. simplify_eq. eauto.
Qed.

Lemma cleanPath_dir d : cleanPath (d +:+ "/") = cleanPath d.
Proof.
  change "/" with (String slash EmptyString). unfold cleanPath. rewrite split_app_gen, foldl_app.
  done.
Qed.

(** A key under a directory lies below its path. *)
Lemma visible_below d key :
  visible d → visible key → hasPrefix (d +:+ "/") key = true →
  take (length (cleanPath d)) (cleanPath key) = cleanPath d.
Proof.
  intros Hd Hk (t & Ht)%hasPrefix_app. rewrite !visible_split by done. rewrite Ht.
  rewrite <-string_app_assoc. change ("/" +:+ t) with (String slash t).
  by rewrite split_app_gen, take_app_length.
Qed.

Lemma dirPrefix_dir d : dirPrefix (d +:+ "/") = d +:+ "/".
Proof.
  assert (∀ s, contains (s +:+ "/") "/" = true) as Hc.
  { intros s. induction s as [|c s IH]; [done|].
    change (String c s +:+ "/") with (String c (s +:+ "/")). cbn [contains]. by rewrite IH, orb_true_r. }
  induction d as [|c d IH]; [done|].
  change (String c d +:+ "/") with (String c (d +:+ "/")). cbn [dirPrefix]. by rewrite Hc, IH.
Qed.

Lemma pageBase_dir t d : pageBase t (d +:+ "/") = cleanPath d.
Proof. unfold pageBase. rewrite dirPrefix_dir, cleanPath_dir. by destruct (stat _ _) as [[]|]. Qed.

Lemma keyOfPath_only keys t p :
  Forall visible keys → only keys t → isFile t p →
  keyOfPath p ∈ keys ∧ visible (keyOfPath p) ∧ cleanPath (keyOfPath p) = p.
Proof.
  intros Hv [Hf _] Hp. apply Hf in Hp as (k & Hk & ->).
  pose proof (proj1 (Forall_forall _ _) Hv k Hk) as Hvk. pose proof Hvk as (-> & _). done.
Qed.

Lemma elem_of_below t base p :
  p ∈ below t base ↔ take (length base) p = base ∧ isFile t p.
Proof.
  unfold below. rewrite list_elem_of_filter, isFile_spec. f_equiv. split.
  - intros ([q d] & -> & Hq%elem_of_map_to_list)%list_elem_of_fmap. eauto.
  - intros [d Hd]. apply list_elem_of_fmap. exists (p, d). split; [done|by apply elem_of_map_to_list].
Qed.

(** What the walk finds below a directory is what the store holds under it. *)
Lemma walk_matching keys t st d after :
  Forall visible keys → only keys t → agree t st → (∀ k, is_Some (st !! k) → k ∈ keys) →
  visible d →
  matching (d +:+ "/") after (keyOfPath <$> below t (cleanPath d))
  = matching (d +:+ "/") after (map_to_list st).*1.
Proof.
  intros Hv Ho Ha Hst Hd. unfold matching.
  apply sorted_perm_eq; [apply sortKeys_sorted..|]. rewrite !sortKeys_perm.
  apply NoDup_Permutation.
  - apply NoDup_filter. apply NoDup_fmap_2_strong.
    + intros p q [_ Hp]%elem_of_below [_ Hq]%elem_of_below Heq.
      destruct (keyOfPath_only _ _ _ Hv Ho Hp) as (_ & _ & <-).
      destruct (keyOfPath_only _ _ _ Hv Ho Hq) as (_ & _ & <-). by rewrite Heq.
    + apply NoDup_filter, NoDup_fst_map_to_list.
  - apply NoDup_filter, NoDup_fst_map_to_list.
  - intros k. rewrite !list_elem_of_filter, !list_elem_of_fmap. split.
    + intros (Hw & p & -> & [_ Hp]%elem_of_below). split; [done|].
      destruct (keyOfPath_only _ _ _ Hv Ho Hp) as (_ & Hvk & Heq).
      apply isFile_spec in Hp as [c Hc]. rewrite <-Heq, (Ha _ Hvk) in Hc.
      exists (keyOfPath p, c). split; [done|by apply elem_of_map_to_list].
    + intros (Hw & [k' c] & -> & Hk%elem_of_map_to_list). split; [done|]. cbn in *.
      assert (visible k') as Hvk by (eapply Forall_forall; [exact Hv|]; eauto).
      exists (cleanPath k'). split; [symmetry; apply Hvk|]. apply elem_of_below.
      split; [by apply visible_below; [..|apply Hw]|]. apply isFile_spec. rewrite (Ha _ Hvk). eauto.
Qed.

Section paging.
Context `{Etag}.

(** The entry of an object. *)
Definition infoOf (st : store) (k : string) : ObjectInfo :=
  let d := default [] (st !! k) in MkInfo k (zlen d) (etag d).

Lemma objectInfo_ok t st k :
  agree t st → visible k → is_Some (st !! k) → objectInfo t k = Some (infoOf st k).
Proof.
  intros Ha Hv [d Hd]. unfold objectInfo, stat, readFile, infoOf. by rewrite (Ha k Hv), Hd.
Qed.

Lemma omap_all {A B} (f : A → option B) (g : A → B) l :
  Forall (λ x, f x = Some (g x)) l → omap f l = g <$> l.
Proof. induction 1 as [|x l Hx Hl IH]; [done|]. csimpl. by rewrite Hx, IH. Qed.

Lemma matching_in prefix after (st : store) k :
  k ∈ matching prefix after (map_to_list st).*1 → is_Some (st !! k) ∧ ¬ String.le k after.
Proof.
  unfold matching. rewrite sortKeys_perm, list_elem_of_filter, list_elem_of_fmap.
  intros ((_ & _ & Ha) & [k' d] & -> & Hk%elem_of_map_to_list). split; [by exists d|done].
Qed.

(** One page of a directory. *)
Lemma ListPage_dir keys b st d after limit :
  Forall visible keys → only keys (tree b) → agree (tree b) st →
  (∀ k, is_Some (st !! k) → k ∈ keys) → visible d →
  throughFile (tree b) (cleanPath d) = false → 0 < limit →
  let all := matching (d +:+ "/") after (map_to_list st).*1 in
  (ListPage (d +:+ "/") after limit b).2
  = Ok (infoOf st <$> take (Z.to_nat limit) all,
        if decide (Z.to_nat limit < length all)%nat
        then default EmptyString (all !! (Z.to_nat limit - 1)%nat) else EmptyString).
Proof.
  intros Hv Ho Ha Hst Hd Ht Hl all. unfold ListPage. cbn [snd]. rewrite decide_False by lia.
  assert (tree (addList b) = tree b) as -> by (by destruct b as [t []]).
  rewrite pageBase_dir. unfold walk. rewrite Ht. cbn [rbind].
  rewrite pageKeys_matching, (walk_matching keys _ st) by done. fold all.
  set (n := Z.to_nat limit). assert (0 < n)%nat by lia.
  rewrite take_take, Nat.min_l by lia. do 2 f_equal.
  - apply omap_all, Forall_take, Forall_forall. intros k Hk. apply matching_in in Hk as [Hk _].
    apply objectInfo_ok; [done| |done]. eapply Forall_forall; [exact Hv|]. by apply Hst.
  - rewrite length_take. destruct (decide (n < length all)%nat).
    + rewrite decide_True by lia. by rewrite lookup_take_lt by lia.
    + by rewrite decide_False by lia.
Qed.

(** The caller's loop: pages from a cursor until the cursor is empty. *)
Fixpoint listAll (fuel : nat) (prefix after : string) (limit : Z) (b : FSBucket) :
    option (list ObjectInfo) :=
  match fuel with
  | O => None
  | S fuel =>
      match ListPage prefix after limit b with
      | (_, Err _) => None
      | (b, Ok (items, next)) =>
          if decide (next = EmptyString) then Some items
          else app items <$> listAll fuel prefix next limit b
      end
  end.

Lemma listAll_complete keys fuel b st d after limit :
  Forall visible keys → only keys (tree b) → agree (tree b) st →
  (∀ k, is_Some (st !! k) → k ∈ keys) → visible d →
  throughFile (tree b) (cleanPath d) = false → 0 < limit →
  let all := matching (d +:+ "/") after (map_to_list st).*1 in
  (length all < fuel)%nat →
  listAll fuel (d +:+ "/") after limit b = Some (infoOf st <$> all).
Proof.
  intros Hv Ho Ha Hst Hd Ht Hl. revert b after Ho Ha Ht.
  induction fuel as [|fuel IH]; intros b after Ho Ha Ht all Hfuel; [lia|].
  cbn [listAll]. pose proof (ListPage_dir keys b st d after limit Hv Ho Ha Hst Hd Ht Hl) as Hp.
  fold all in Hp. assert (tree (ListPage (d +:+ "/") after limit b).1 = tree b) as Htree
    by (by destruct b as [t []]).
  destruct (ListPage (d +:+ "/") after limit b) as [b' r]. cbn [fst snd] in *. subst r.
  set (n := Z.to_nat limit) in *. assert (0 < n)%nat by lia.
  destruct (decide (n < length all)%nat) as [Hn|Hn]; cycle 1.
  { rewrite decide_True by done. by rewrite take_ge by lia. }
  destruct (lookup_lt_is_Some_2 all (n - 1)) as [next Hnext]; [lia|].
  rewrite Hnext. cbn [from_option]. unfold id.
  assert (next ≠ EmptyString) as Hne.
  { apply list_elem_of_lookup_2, matching_in in Hnext as [Hk _].
    pose proof (proj1 (Forall_forall _ _) Hv next (Hst _ Hk)) as (Heq & Hp & _).
    intros ->. done. }
  rewrite decide_False by done.
  assert (matching (d +:+ "/") next (map_to_list st).*1 = drop n all) as Hrest.
  { unfold all. erewrite matching_next; [|apply NoDup_fst_map_to_list|exact Hnext].
    f_equal. lia. }
  rewrite IH; rewrite ?Htree; [|done..|by rewrite Hrest, length_drop; lia].
  cbn [fmap option_fmap option_map]. by rewrite Hrest, <-fmap_app, take_drop.
Qed.
End paging.

(** ** Bounded bodies *)

Lemma limitReads_spec cs n stop :
  concat (limitReads cs n stop).1 = take n (concat cs)
  ∧ (limitReads cs n stop).2 = if decide (length (concat cs) < n)%nat then stop else None.
Proof.
  revert n. induction cs as [|c cs IH]; intros n; simpl.
  - rewrite take_nil. split; [done|]. repeat case_decide; try done; lia.
  - case_decide as Hn; [subst; split; [done|by rewrite decide_False by lia]|].
    destruct (IH (n - length c)%nat) as [IH1 IH2].
    destruct (limitReads cs (n - length c) stop) as [cs' stop']. cbn [fst snd] in *.
    simpl. rewrite IH1, IH2, take_app, length_app. split; [done|].
    repeat case_decide; try done; lia.
Qed.

Lemma length_lastBytes n l : 0 ≤ n → length (lastBytes n l) = (length l `min` Z.to_nat n)%nat.
Proof. intros. unfold lastBytes. rewrite length_drop. lia. Qed.

Lemma lastBytes_short n l : zlen l ≤ n → lastBytes n l = l.
Proof. intros. unfold lastBytes. by replace (length l - Z.to_nat n)%nat with 0%nat by lia. Qed.

Lemma lastBytes_app n a b : 0 ≤ n → lastBytes n (lastBytes n a ++ b) = lastBytes n (a ++ b).
Proof.
  intros Hn. unfold lastBytes. rewrite !length_app, length_drop.
  destruct (decide (length a ≤ Z.to_nat n)%nat) as [Ha|Ha].
  { replace (length a - Z.to_nat n)%nat with 0%nat by lia. rewrite drop_0. f_equal. lia. }
  rewrite <-(drop_app_le a b (length a - Z.to_nat n)) by lia. rewrite drop_drop. f_equal. lia.
Qed.

Lemma lastBytes_idemp n l : 0 ≤ n → lastBytes n (lastBytes n l) = lastBytes n l.
Proof. intros Hn. pose proof (lastBytes_app n l [] Hn) as Heq. by rewrite !app_nil_r in Heq. Qed.

(** Whatever was trimmed on the way, the last [n] bytes are the body's. *)
Lemma tailReads_spec n max read tail seen cs stop :
  0 ≤ n → lastBytes n tail = lastBytes n seen → read = zlen seen → read ≤ max →
  tailReads n max read tail cs stop
  = if decide (max < zlen (seen ++ concat cs)) then Err ErrObjectTooLarge
    else match stop with Some e => Err e | None => Ok (lastBytes n (seen ++ concat cs)) end.
Proof.
  intros Hn. revert read tail seen. induction cs as [|c cs IH]; intros read tail seen Htail -> Hmax; simpl.
  - rewrite app_nil_r, (decide_False (P := max < _)) by lia. destruct stop; [done|]. f_equal. rewrite <-Htail.
    case_decide; [done|]. by rewrite lastBytes_short by lia.
  - rewrite app_assoc. destruct (decide (max < zlen (seen ++ c))) as [Hbig|Hbig].
    + rewrite !length_app in *. rewrite !bool_decide_true by lia. simpl.
      rewrite decide_True; [done|]. lia.
    + rewrite length_app in Hbig. rewrite (bool_decide_false (max < _)) by lia.
      rewrite andb_false_r. cbn [rbind reject].
      apply IH; [|rewrite length_app; lia|lia].
      transitivity (lastBytes n (tail ++ c)).
      * case_decide; [by apply lastBytes_idemp|done].
      * rewrite <-(lastBytes_app n tail), <-(lastBytes_app n seen) by done. by rewrite Htail.
Qed.

Lemma readMax_pos max : 0 < readMax max.
Proof. unfold readMax. case_decide; [done|lia]. Qed.

(** What both readers see of a body: too much of it, its error, or all of it. *)
Lemma limited_body cs stop max :
  zlen (concat cs) < 2 ^ 63 - 1 → 0 < max < 2 ^ 63 →
  let '(cs', stop') := LimitReader (cs, stop) (readLimit max) in
  if decide (max < zlen (concat cs)) then max < zlen (concat cs') ∧ stop' = None
  else concat cs' = concat cs ∧ stop' = stop.
Proof.
  intros Hb Hm. unfold LimitReader. cbn [fst snd].
  destruct (limitReads_spec cs (Z.to_nat (readLimit max)) stop) as [H1 H2].
  destruct (limitReads cs _ stop) as [cs' stop']. cbn [fst snd] in *. subst stop'.
  unfold readLimit in *. destruct (decide (max < 2 ^ 63 - 1)).
  - destruct (decide (max < zlen (concat cs))).
    + rewrite H1, length_take, decide_False by lia. split; [lia|done].
    + rewrite H1, take_ge, decide_True by lia. done.
  - rewrite (decide_False (P := max < zlen (concat cs))) by lia.
    rewrite H1, take_ge by lia. split; [done|]. by rewrite decide_True by lia.
Qed.

Lemma readers_spec cs stop n contentLength max :
  zlen (concat cs) < 2 ^ 63 - 1 → max < 2 ^ 63 → contentLength ≤ readMax max →
  let outcome (b : bytes) : result bucketError bytes :=
    if decide (readMax max < zlen (concat cs)) then Err ErrObjectTooLarge
    else match stop with Some e => Err e | None => Ok b end in
  readAllBounded (cs, stop) contentLength max = outcome (concat cs)
  ∧ readTailBounded (cs, stop) n contentLength max
    = outcome (lastBytes (tailSize n (readMax max)) (concat cs)).
Proof.
  intros Hb Hm Hc outcome. pose proof (readMax_pos max) as Hpos.
  assert (readMax max < 2 ^ 63) as Hlt by (unfold readMax; by case_decide).
  pose proof (limited_body cs stop (readMax max) Hb (conj Hpos Hlt)) as Hl.
  unfold readAllBounded, readTailBounded. rewrite bool_decide_false by lia. cbn [reject rbind].
  destruct (LimitReader (cs, stop) _) as [cs' stop']. unfold ReadAll, outcome. cbn [fst snd].
  assert (0 ≤ tailSize n (readMax max)).
  { unfold tailSize, segProbeBytes. repeat case_decide; lia. }
  rewrite (tailReads_spec _ _ _ _ []) by (done || lia). simpl.
  destruct (decide (readMax max < zlen (concat cs))).
  - destruct Hl as [Hl ->]. rewrite decide_True by done. simpl. by rewrite bool_decide_true.
  - destruct Hl as [-> ->]. rewrite decide_False by done.
    destruct stop; [done|]. simpl. by rewrite bool_decide_false.
Qed.

(** ** Properties *)

(** A tag for examples: the contents themselves. *)
Definition contentTag : Etag.
Proof.
  refine (Build_Etag (λ d, String slash (String.string_of_list_byte d)) _ _).
  - intros d1 d2 [= Heq%(f_equal String.list_byte_of_string)].
    by rewrite !String.list_byte_of_string_of_list_byte in Heq.
  - done.
Defined.

(** C29: the local backend implements the object-store contract: starting empty, any
    sequence of reads, puts, conditional creates, compare-and-swaps, deletes and
    conditional deletes on keys that leave each other room returns exactly what
    the abstract map of keys to values returns, errors and ETags included. *)
Theorem FSBucket_refines `{Etag} keys cs :
  roomy keys → Forall (λ c, callKey c ∈ keys) cs →
  answers onFs cs NewFSBucket = answers onStore cs ∅.
Proof.
  intros Hr Hcs. by apply (answers_agree keys).
Qed.

Definition demoCalls : list call :=
  let k := "cells/a/b/c/owner.json" in
  [CallGet k; CallDo (ConditionalCreate k [x01]); CallDo (ConditionalCreate k [x02]);
   CallDo (CAS k [x03] (@etag contentTag [x01])); CallDo (CAS k [x04] (@etag contentTag [x01]));
   CallGet k; CallDo (ConditionalDelete k (@etag contentTag [x03])); CallGet k;
   CallDo (Put "nodes/n1.json" [x05]); CallDo (Delete k)].

Lemma FSBucket_refines_witness :
  answers (@onFs contentTag) demoCalls NewFSBucket = answers (@onStore contentTag) demoCalls ∅.
Proof.
  apply (@FSBucket_refines contentTag ["cells/a/b/c/owner.json"; "nodes/n1.json"]).
  - split.
    + repeat constructor; vm_compute; congruence.
    + intros k1 k2 [->|[->|[]%not_elem_of_nil]%elem_of_cons]%elem_of_cons
        [->|[->|[]%not_elem_of_nil]%elem_of_cons]%elem_of_cons; vm_compute; set_solver.
  - unfold demoCalls. repeat constructor; set_solver.
Defined.

(** Reading a directory page by page, each page starting after the last key of
    the one before, ends after at most one page per object and returns every
    object of the directory exactly once, in key order, with its size and ETag,
    whatever calls came before and whatever the page size. *)
Theorem ListPage_complete `{Etag} keys cs d limit :
  let b := stateAfter onFs cs NewFSBucket in
  let st := stateAfter onStore cs ∅ in
  let all := matching (d +:+ "/") EmptyString (map_to_list st).*1 in
  roomy keys → Forall (λ c, callKey c ∈ keys) cs →
  visible d → throughFile (tree b) (cleanPath d) = false → 0 < limit →
  listAll (S (length all)) (d +:+ "/") EmptyString limit b = Some (infoOf st <$> all).
Proof.
  intros b st all Hr Hcs Hd Ht Hl.
  destruct (stateAfter_agree keys cs NewFSBucket ∅) as (Hok & Ho & Ha & Hst); try done.
  { intros k. rewrite lookup_empty. by intros []. }
  refine (listAll_complete keys _ b st d EmptyString limit _ _ _ _ _ _ _ _); try done; [apply Hr|].
  unfold all, st. lia.
Qed.

Lemma ListPage_complete_witness :
  let put k := CallDo (Put k [x01]) in
  let cs := [put "r2/b"; put "r2/a"; put "x"; put "r2/sub/c"] in
  option_map (map Key)
    (@listAll contentTag 4 "r2/" EmptyString 1 (stateAfter (@onFs contentTag) cs NewFSBucket))
  = Some ["r2/a"; "r2/b"; "r2/sub/c"].
Proof.
  intros put cs.
  pose proof (@ListPage_complete contentTag ["r2/b"; "r2/a"; "x"; "r2/sub/c"] cs "r2" 1) as Hall.
  cbv zeta in Hall. revert Hall. set (n := length _). assert (n = 3%nat) as -> by (vm_compute; reflexivity).
  change "r2/" with ("r2" +:+ "/"). intros ->; [vm_compute; reflexivity|..]; cycle 1.
  - unfold cs, put. repeat constructor; set_solver.
  - repeat constructor; vm_compute; congruence.
  - vm_compute; reflexivity.
  - lia.
  - split; [repeat constructor; vm_compute; congruence|]. intros k1 k2 Hk1 Hk2.
    repeat (apply elem_of_cons in Hk1 as [->|Hk1]; [|try by apply not_elem_of_nil in Hk1]);
    repeat (apply elem_of_cons in Hk2 as [->|Hk2]; [|try by apply not_elem_of_nil in Hk2]);
    vm_compute; set_solver.
Defined.

(** A body is read within the limit whatever its pieces are: both bounded readers
    refuse a body longer than the limit, report the body's own error, and
    otherwise return all of it and its last bytes respectively. *)
Theorem bounded_readers cs stop n contentLength max :
  zlen (concat cs) < 2 ^ 63 - 1 → max < 2 ^ 63 → contentLength ≤ readMax max →
  let outcome (b : bytes) : result bucketError bytes :=
    if decide (readMax max < zlen (concat cs)) then Err ErrObjectTooLarge
    else match stop with Some e => Err e | None => Ok b end in
  readAllBounded (cs, stop) contentLength max = outcome (concat cs)
  ∧ readTailBounded (cs, stop) n contentLength max
    = outcome (lastBytes (tailSize n (readMax max)) (concat cs)).
Proof. apply readers_spec. Qed.

Lemma bounded_readers_witness :
  readTailBounded ([[x01; x02]; [x03]; [x04; x05]], None) 2 (-1) 6 = Ok [x04; x05].
Proof.
  etransitivity; [apply (bounded_readers [[x01; x02]; [x03]; [x04; x05]] None 2 (-1) 6)|];
    vm_compute; congruence.
Defined.

(** ** Where the local backend differs from an object store *)

(** A prefix that is also a directory hides the keys beside the directory: the
    prefix [meta] lists [meta/x] and misses [meta.txt]. *)
Example list_page_misses_sibling :
  let cs := [CallDo (Put "meta/x" []); CallDo (Put "meta.txt" [])] in
  let b := stateAfter (@onFs contentTag) cs NewFSBucket in
  ('(items, _) ←ᵣ (@ListPage contentTag "meta" EmptyString 10 b).2; Ok (map Key items))
  = Ok ["meta/x"].
Proof. vm_compute. reflexivity. Qed.

(** A write takes an object whose key ends in [.tmp] for its temporary file. *)
Example put_removes_tmp_object :
  answers (@onFs contentTag) [CallDo (Put "a.tmp" [x01]); CallDo (Put "a" [x02]); CallGet "a.tmp"]
    NewFSBucket !! 2%nat = Some (Err ErrNotFound).
Proof. vm_compute. reflexivity. Qed.

(** The directory of a deleted object still blocks the key with its name. *)
Example create_blocked_by_empty_dir :
  let cs := [CallDo (Put "a/b" [x01]); CallDo (Delete "a/b"); CallDo (ConditionalCreate "a" [x02])] in
  answers (@onFs contentTag) cs NewFSBucket !! 2%nat = Some (Err ErrPrecondition)
  ∧ answers (@onStore contentTag) cs ∅ !! 2%nat = Some (Ok (None, @etag contentTag [x02])).
Proof. split; vm_compute; reflexivity. Qed.

(** A range whose end passes the largest [int64] slices with a negative end. *)
Example ranged_get_overflow :
  let b := stateAfter (@onFs contentTag) [CallDo (Put "k" [x01; x02])] NewFSBucket in
  (@RangedGet contentTag "k" 1 (2 ^ 63 - 1) b).2 = Err ErrPanic.
Proof. vm_compute. reflexivity. Qed.
