(* ===== verification/Fleet.v ===== *)
(** * Programs over the bucket and fleets of processes

    The packages that coordinate through the bucket ([internal/lease],
    [internal/owner]) are written here as programs: trees of the effects their
    code performs, one constructor per kind of call. A program is run in two
    ways. [alone] runs it to its end against the bucket contract, with no other
    process and no fault, which is what the functional theorems speak about.
    [act] runs any number of processes, each with any number of threads, one
    effect at a time in any order; a bucket call may fail, and a write that
    reports a failure may have happened, may not happen at all, or may happen
    later. The safety theorems quantify over every such schedule.

    A critical section under a mutex is one effect ([Atomic]); waiting for a
    condition is [Wait]. A clock reading taken inside a critical section is an
    effect of its own before the section. *)

From S2P Require Import Prelude Cell Bucket.

(** ** Time *)

(** [time.Time] as [time.Now] returns it: the monotonic reading that [Before] and
    [After] compare, and the wall clock that [UnixMilli] reads, in nanoseconds. *)
Record time := MkTime {
  mono : Z;
  wall : Z;
}.

#[global] Instance time_eq_dec : EqDecision time.
Proof. solve_decision. Defined.

Definition Millisecond : Z := 10 ^ 6.
Definition Second : Z := 10 ^ 9.

Definition Before (t u : time) : bool := bool_decide (mono t < mono u).
Definition After (t u : time) : bool := bool_decide (mono u < mono t).
Definition Add (t : time) (d : Z) : time := MkTime (mono t + d) (wall t + d).
Definition UnixMilli (t : time) : Z := wall t / Millisecond.

(** ** Encodings ([encoding/json]) *)

Class Codec (A : Type) := {
  marshal : A → bytes;
  unmarshal : bytes → option A;
  unmarshal_marshal a : unmarshal (marshal a) = Some a;
}.

(** An encoding for examples: the bits of the value's number, a byte each. *)
Fixpoint bitBytes (p : positive) : bytes :=
  match p with
  | xI p => x01 :: bitBytes p
  | xO p => x00 :: bitBytes p
  | xH => []
  end.

Fixpoint bytesBits (l : bytes) : positive :=
  match l with
  | [] => xH
  | x01 :: l => xI (bytesBits l)
  | _ :: l => xO (bytesBits l)
  end.

Lemma bytesBits_bitBytes p : bytesBits (bitBytes p) = p.
Proof. induction p as [p IH|p IH|]; simpl; by rewrite ?IH. Qed.

Definition bitCodec (A : Type) `{Countable A} : Codec A.
Proof.
  refine {| marshal a := bitBytes (encode a); unmarshal l := decode (bytesBits l) |}.
  intros a. by rewrite bytesBits_bitBytes, decode_encode.
Defined.

(** ** Programs *)

Section programs.
Context {C M : Type}.

(** [C] is the type of the callbacks a program makes, [M] the state shared by the
    threads of one process. *)
Inductive prog (R : Type) : Type :=
| Ret (r : R)
| Fetch (key : string) (k : result bucketError (bytes * string) → prog R)
| Do (op : bucketOp) (k : result bucketError string → prog R)
| ListKeys (prefix : string) (k : result bucketError (list string) → prog R)
| Now (k : time → prog R)
| CtxErr (k : bool → prog R)
| Atomic (A : Type) (f : M → A * M) (k : A → prog R)
| Wait (A : Type) (cancel : bool) (f : M → option (A * M)) (k : option A → prog R)
| Call (c : C) (k : bool → prog R).

Fixpoint bind {A B : Type} (p : prog A) (g : A → prog B) : prog B :=
  match p with
  | Ret _ r => g r
  | Fetch _ key k => Fetch B key (λ x, bind (k x) g)
  | Do _ op k => Do B op (λ x, bind (k x) g)
  | ListKeys _ prefix k => ListKeys B prefix (λ x, bind (k x) g)
  | Now _ k => Now B (λ x, bind (k x) g)
  | CtxErr _ k => CtxErr B (λ x, bind (k x) g)
  | Atomic _ T f k => Atomic B T f (λ x, bind (k x) g)
  | Wait _ T c f k => Wait B T c f (λ x, bind (k x) g)
  | Call _ c k => Call B c (λ x, bind (k x) g)
  end.
End programs.

Arguments prog C M R : clear implicits.
Arguments Ret {C M R} r.
Arguments Fetch {C M R} key k.
Arguments Do {C M R} op k.
Arguments Now {C M R} k.
Arguments CtxErr {C M R} k.
Arguments Atomic {C M R A} f k.
Arguments Wait {C M R A} cancel f k.
Arguments ListKeys {C M R} prefix k.
Arguments Call {C M R} c k.

#[global] Instance prog_ret {C M} : MRet (prog C M) := λ A r, Ret r.
#[global] Instance prog_bind {C M} : MBind (prog C M) := λ A B g p, bind p g.

(** [v, err := p; if err != nil { return err }] *)
Definition check {C M E A B} (p : prog C M (result E A)) (k : A → prog C M (result E B)) :
    prog C M (result E B) :=
  bind p (λ r, match r with Ok a => k a | Err e => Ret (Err e) end).
Notation "x ←! p ; k" := (check p (λ x, k))
  (at level 20, p at level 100, k at level 200, right associativity) : go_scope.
Notation "' x ←! p ; k" := (check p (λ y, match y with x => k end))
  (at level 20, x pattern, p at level 100, k at level 200, right associativity) : go_scope.

(** The single effects. *)
Section effects.
Context {C M : Type}.

Definition getObject (key : string) : prog C M (result bucketError (bytes * string)) := Fetch key Ret.
Definition putObject (op : bucketOp) : prog C M (result bucketError string) := Do op Ret.
Definition listKeys (prefix : string) : prog C M (result bucketError (list string)) := ListKeys prefix Ret.
Definition now : prog C M time := Now Ret.
Definition ctxErr : prog C M bool := CtxErr Ret.
Definition atomic {A} (f : M → A * M) : prog C M A := Atomic f Ret.
Definition update (f : M → M) : prog C M unit := Atomic (λ m, (tt, f m)) Ret.
(** [mu.Lock] on a mutex that is part of the state, and a wait that ends with the
    context. *)
Definition lock (f : M → option M) : prog C M unit :=
  Wait false (λ m, m' ← f m; Some (tt, m')) (λ _, Ret tt).
Definition waitCtx (f : M → option M) : prog C M bool :=
  Wait true (λ m, m' ← f m; Some (tt, m')) (λ r, Ret (bool_decide (is_Some r))).
Definition callback (c : C) : prog C M bool := Call c Ret.
End effects.

(** A program over a part of the process state. *)
Fixpoint zoom {C M N R : Type} (view : N → M) (put : M → N → N) (p : prog C M R) : prog C N R :=
  match p with
  | Ret r => Ret r
  | Fetch key k => Fetch key (λ x, zoom view put (k x))
  | Do op k => Do op (λ x, zoom view put (k x))
  | ListKeys prefix k => ListKeys prefix (λ x, zoom view put (k x))
  | Now k => Now (λ x, zoom view put (k x))
  | CtxErr k => CtxErr (λ x, zoom view put (k x))
  | Atomic f k => Atomic (λ n, let '(x, m) := f (view n) in (x, put m n)) (λ x, zoom view put (k x))
  | Wait c f k => Wait c (λ n, '(x, m) ← f (view n); Some (x, put m n)) (λ x, zoom view put (k x))
  | Call c k => Call c (λ x, zoom view put (k x))
  end.

(** Programs that write nothing and never wait. *)
Fixpoint reads {C M R : Type} (p : prog C M R) : Prop :=
  match p with
  | Ret _ => True
  | Fetch _ k => ∀ r, reads (k r)
  | Do _ _ | Wait _ _ _ => False
  | ListKeys _ k => ∀ r, reads (k r)
  | Now k => ∀ t, reads (k t)
  | CtxErr k => ∀ b, reads (k b)
  | Atomic _ k => ∀ x, reads (k x)
  | Call _ k => ∀ b, reads (k b)
  end.

Lemma reads_bind {C M A B : Type} (p : prog C M A) (g : A → prog C M B) :
  reads p → (∀ a, reads (g a)) → reads (bind p g).
Proof.
  intros Hp Hg. induction p as [r|key k IH|op k IH|pre k IH|k IH|k IH|T f k IH|T c f k IH|c k IH];
    simpl in *; auto.
Qed.

(** ** A program alone *)

Section alone.
Context `{Etag} {C M : Type}.

(** The keys of a prefix in order. *)
Definition keysOf (prefix : string) (st : store) : list string :=
  sortKeys (filter (λ k, hasPrefix prefix k = true) (map_to_list st).*1).

(** No fault, no other thread, one instant, and callbacks that answer by [cb];
    [None] when the program would wait for ever. *)
Fixpoint alone {R} (t : time) (cb : C → bool) (p : prog C M R) (st : store) (m : M) :
    option (store * M * R) :=
  match p with
  | Ret r => Some (st, m, r)
  | Fetch key k => alone t cb (k (fetch st key)) st m
  | Do op k => let '(st', r) := perform op st in alone t cb (k r) st' m
  | ListKeys prefix k => alone t cb (k (Ok (keysOf prefix st))) st m
  | Now k => alone t cb (k t) st m
  | CtxErr k => alone t cb (k false) st m
  | Atomic f k => let '(x, m') := f m in alone t cb (k x) st m'
  | Wait _ f k => '(x, m') ← f m; alone t cb (k (Some x)) st m'
  | Call c k => alone t cb (k (cb c)) st m
  end.

Lemma alone_bind {A B} t cb (p : prog C M A) (g : A → prog C M B) st m :
  alone t cb (bind p g) st m = '(st', m', a) ← alone t cb p st m; alone t cb (g a) st' m'.
Proof.
  revert st m. induction p as [r|key k IH|op k IH|pre k IH|k IH|k IH|T f k IH|T b f k IH|c k IH]; intros st m;
    cbn [bind alone]; auto.
  - by destruct (perform op st).
  - by destruct (f m).
  - destruct (f m) as [[x m']|]; [apply IH|done].
Qed.

Lemma alone_mbind {A B} t cb (p : prog C M A) (g : A → prog C M B) st m :
  alone t cb (p ≫= g) st m = '(st', m', a) ← alone t cb p st m; alone t cb (g a) st' m'.
Proof. apply alone_bind. Qed.

Lemma alone_seq {A B} t cb (p : prog C M A) (g : A → prog C M B) st m st' m' a :
  alone t cb p st m = Some (st', m', a) → alone t cb (p ≫= g) st m = alone t cb (g a) st' m'.
Proof. intros E. by rewrite alone_mbind, E. Qed.

Lemma alone_check {E A B} t cb (p : prog C M (result E A)) (k : A → prog C M (result E B)) st m :
  alone t cb (check p k) st m
  = '(st', m', r) ← alone t cb p st m;
    match r with Ok a => alone t cb (k a) st' m' | Err e => Some (st', m', Err e) end.
Proof.
  unfold check. rewrite alone_bind. destruct (alone t cb p st m) as [[[st' m'] [a|e]]|]; done.
Qed.
End alone.

(** ** Fleets *)

Section fleet.
Context `{Etag} {C M R : Type}.

(** What happens to the next effect of a thread: it is carried out; a bucket call
    fails, a write possibly after taking effect; a write fails and is still under
    way; or the clock, the context or a callback answers. *)
Inductive reply : Type :=
| RDone
| RLost (applied : bool) (e : bucketError)
| RLater (e : bucketError)
| RTime (t : time)
| RBool (b : bool).

Definition step (a : reply) (st : store) (m : M) (p : prog C M R) :
    option (store * M * prog C M R) :=
  match p, a with
  | Fetch key k, RDone => Some (st, m, k (fetch st key))
  | Fetch key k, RLost _ e => if decide (e = ErrNotFound) then None else Some (st, m, k (Err e))
  | Do op k, RDone => let '(st', r) := perform op st in Some (st', m, k r)
  | Do op k, RLost applied e => Some (if applied then (perform op st).1 else st, m, k (Err e))
  | Do op k, RLater e => Some (st, m, k (Err e))
  | ListKeys prefix k, RDone => Some (st, m, k (Ok (keysOf prefix st)))
  | ListKeys prefix k, RLost _ e => Some (st, m, k (Err e))
  | Now k, RTime t => Some (st, m, k t)
  | CtxErr k, RBool b => Some (st, m, k b)
  | Atomic f k, RDone => let '(x, m') := f m in Some (st, m', k x)
  | Wait _ f k, RDone => '(x, m') ← f m; Some (st, m', k (Some x))
  | Wait cancel _ k, RBool _ => if cancel then Some (st, m, k None) else None
  | Call c k, RBool b => Some (st, m, k b)
  | _, _ => None
  end.

(** The values written so far are remembered, oldest first, and the writes that
    are still under way. *)
Record world := MkWorld {
  wStore : store;
  wHist : list (string * bytes);
  wPending : list bucketOp;
  wProcs : list M;
  wThreads : list (nat * prog C M R);
}.

Definition emptyWorld : world := MkWorld ∅ [] [] [] [].

(** The value an effect writes, if it writes one. *)
Definition opWrites (op : bucketOp) (st : store) : list (string * bytes) :=
  match op, (perform op st).2 with
  | Put k d, Ok _ | ConditionalCreate k d, Ok _ | CAS k d _, Ok _ => [(k, d)]
  | _, _ => []
  end.

(** The tag that a write returns when it succeeds. *)
Definition tagOf (op : bucketOp) : string :=
  match op with Put _ d | ConditionalCreate _ d | CAS _ d _ => etag d | _ => EmptyString end.

Lemma perform_tag op st e : (perform op st).2 = Ok e → e = tagOf op.
Proof. destruct op; simpl; repeat case_match; simpl; congruence. Qed.

Definition writes (a : reply) (st : store) (p : prog C M R) : list (string * bytes) :=
  match p, a with
  | Do op _, RDone | Do op _, RLost true _ => opWrites op st
  | _, _ => []
  end.

Definition delays (a : reply) (p : prog C M R) : list bucketOp :=
  match p, a with Do op _, RLater _ => [op] | _, _ => [] end.

(** A process starts, a process starts a thread, a thread takes a step, a delayed
    write arrives. *)
Inductive action : Type :=
| Boot (m : M)
| Spawn (i : nat) (p : prog C M R)
| Run (n : nat) (a : reply)
| Deliver (n : nat).

Definition act (x : action) (w : world) : option world :=
  match x with
  | Boot m => Some (MkWorld (wStore w) (wHist w) (wPending w) (wProcs w ++ [m]) (wThreads w))
  | Spawn i p =>
      _ ← wProcs w !! i;
      Some (MkWorld (wStore w) (wHist w) (wPending w) (wProcs w) (wThreads w ++ [(i, p)]))
  | Run n a =>
      '(i, p) ← wThreads w !! n;
      m ← wProcs w !! i;
      '(st, m', p') ← step a (wStore w) m p;
      Some (MkWorld st (wHist w ++ writes a (wStore w) p) (wPending w ++ delays a p)
              (<[i := m']> (wProcs w)) (<[n := (i, p')]> (wThreads w)))
  | Deliver n =>
      op ← wPending w !! n;
      Some (MkWorld (perform op (wStore w)).1 (wHist w ++ opWrites op (wStore w))
              (delete n (wPending w)) (wProcs w) (wThreads w))
  end.

Fixpoint acts (xs : list action) (w : world) : option world :=
  match xs with
  | [] => Some w
  | x :: xs => w' ← act x w; acts xs w'
  end.

(** Invariants of every schedule whose actions are allowed. *)
Lemma acts_invariant (allowed : action → Prop) (I : world → Prop) xs w w' :
  (∀ x w w', allowed x → I w → act x w = Some w' → I w') →
  Forall allowed xs → I w → acts xs w = Some w' → I w'.
Proof.
  intros Hstep Hxs. revert w. induction Hxs as [|x xs Hx Hxs IH]; intros w Hw; simpl.
  - by intros [= <-].
  - destruct (act x w) as [w1|] eqn:Hact; [|done]. apply IH. by eapply Hstep.
Qed.

(** A step of the machine, seen from outside. *)
Lemma act_Run n a w w' :
  act (Run n a) w = Some w' →
  ∃ i p m st m' p', wThreads w !! n = Some (i, p) ∧ wProcs w !! i = Some m
    ∧ step a (wStore w) m p = Some (st, m', p')
    ∧ w' = MkWorld st (wHist w ++ writes a (wStore w) p) (wPending w ++ delays a p)
             (<[i := m']> (wProcs w)) (<[n := (i, p')]> (wThreads w)).
Proof.
  simpl. destruct (wThreads w !! n) as [[i p]|] eqn:Hn; [|done]. simpl.
  destruct (wProcs w !! i) as [m|] eqn:Hi; [|done]. simpl.
  destruct (step a (wStore w) m p) as [[[st m'] p']|] eqn:Hs; [|done]. simpl. intros [= <-].
  by repeat eexists.
Qed.
End fleet.

Arguments reply : clear implicits.
Arguments world C M R : clear implicits.
Arguments action C M R : clear implicits.
Arguments emptyWorld {C M R}.

(** ** Runs for examples *)

Section runs.
Context `{Etag} {C M R : Type}.

(** The replies that carry a program through without a fault, at instant [t], with
    callbacks that succeed. *)
Fixpoint replies (t : time) (p : prog C M R) (st : store) (m : M) : list reply :=
  match p with
  | Ret _ => []
  | Fetch key k => RDone :: replies t (k (fetch st key)) st m
  | Do op k => RDone :: replies t (k (perform op st).2) (perform op st).1 m
  | ListKeys prefix k => RDone :: replies t (k (Ok (keysOf prefix st))) st m
  | Now k => RTime t :: replies t (k t) st m
  | CtxErr k => RBool false :: replies t (k false) st m
  | Atomic f k => RDone :: replies t (k (f m).1) st (f m).2
  | Wait _ f k => RDone :: match f m with Some (x, m') => replies t (k (Some x)) st m' | None => [] end
  | Call c k => RBool true :: replies t (k true) st m
  end.

(** Thread [n] carried to its end from a world. *)
Definition finish (n : nat) (t : time) (w : world C M R) : list (action C M R) :=
  match wThreads w !! n with
  | Some (i, p) =>
      match wProcs w !! i with Some m => Run n <$> replies t p (wStore w) m | None => [] end
  | None => []
  end.

Lemma finish_ok (P : action C M R → Prop) n t w : (∀ a, P (Run n a)) → Forall P (finish n t w).
Proof.
  intros HP. unfold finish. destruct (wThreads w !! n) as [[i p]|]; [|done]. destruct (wProcs w !! i); [|done].
  apply Forall_fmap, Forall_true. done.
Qed.

Definition after (xs : list (action C M R)) : world C M R := default emptyWorld (acts xs emptyWorld).

Lemma acts_after xs : bool_decide (is_Some (acts xs emptyWorld)) = true → acts xs emptyWorld = Some (after xs).
Proof. unfold after. by intros [w ->]%bool_decide_eq_true. Qed.

Lemma acts_app (xs ys : list (action C M R)) w : acts (xs ++ ys) w = w' ← acts xs w; acts ys w'.
Proof.
  revert w. induction xs as [|x xs IH]; intros w; [done|]. cbn [acts app]. destruct (act x w); [apply IH|done].
Qed.

Lemma act_after xs x :
  bool_decide (is_Some (acts (xs ++ [x]) emptyWorld)) = true → act x (after xs) = Some (after (xs ++ [x])).
Proof.
  intros Hs%acts_after. pose proof Hs as Hx. rewrite acts_app in Hx.
  destruct (acts xs emptyWorld) as [w|] eqn:E; [|done]. unfold after at 1. rewrite E.
  cbn [acts mbind option_bind] in Hx. simpl. by destruct (act x w).
Qed.
End runs.
