(* ===== verification/Objects.v ===== *)
(** * Prefix-scoped stores ([internal/objectstore])

    Every subsystem reaches the shared bucket through a store that is bound to one
    prefix and checks each key. The theorems say that a store never lets a key
    out of its prefix or through a parent directory, and that two subsystems
    whose reserved prefixes differ can never reach the same object. *)

From S2P Require Import Prelude Cell Bucket Fleet.

(** ** Reserved prefixes *)

Definition PrefixCells : string := "cells/".
Definition PrefixNodes : string := "nodes/".
Definition PrefixNodeLogs : string := "node-logs/".
Definition PrefixFleet : string := "fleet/".
Definition PrefixDeploys : string := "deploys/".
Definition PrefixBundles : string := "bundles/".
Definition PrefixAssets : string := "assets/".
Definition PrefixSupervisor : string := "dosupervisor/".
Definition PrefixWake : string := "wake/".
Definition PrefixR2 : string := "r2/".
Definition PrefixR2Meta : string := "r2meta/".
Definition PrefixR2Usage : string := "r2usage/".

Definition OwnerReplica : string := "replica".
Definition OwnerNodeLog : string := "node-log".
Definition OwnerWaker : string := "waker".
Definition OwnerArtifacts : string := "artifacts".
Definition OwnerSupervisor : string := "do-supervisor".
Definition OwnerR2 : string := "r2".

Definition reserved : list (string * string) :=
  [(PrefixCells, OwnerReplica); (PrefixNodes, OwnerNodeLog); (PrefixNodeLogs, OwnerNodeLog);
   (PrefixFleet, OwnerWaker); (PrefixDeploys, OwnerArtifacts); (PrefixBundles, OwnerArtifacts);
   (PrefixAssets, OwnerArtifacts); (PrefixSupervisor, OwnerSupervisor); (PrefixWake, OwnerWaker);
   (PrefixR2, OwnerR2); (PrefixR2Meta, OwnerR2); (PrefixR2Usage, OwnerR2)].

Definition normalizePrefix (prefix : string) : string :=
  if hasSuffix prefix "/" then prefix else prefix +:+ "/".

Definition OwnerOf (prefix : string) : string :=
  let p := normalizePrefix prefix in
  match list_find (λ r : string * string, r.1 = p) reserved with
  | Some (_, (_, owner)) => owner
  | None => EmptyString
  end.

Definition ReservedPrefixes : list string := reserved.*1.

(** ** Stores *)

Inductive objectsError : Set :=
| ErrBadKey
| ErrReserved
| ErrWrongOwner
| ErrObject (e : bucketError).

Record Objects := MkObjects {
  Prefix : string;
  objErr : option objectsError;
}.

Definition NewObjects (prefix : string) : Objects :=
  let p := normalizePrefix prefix in
  MkObjects p (if decide (OwnerOf p ≠ EmptyString) then Some ErrReserved else None).

Definition NewOwned (prefix owner : string) : Objects :=
  let p := normalizePrefix prefix in
  let want := OwnerOf p in
  MkObjects p (if decide (want ≠ EmptyString ∧ want ≠ owner) then Some ErrWrongOwner else None).

(** [key] *)
Definition objectKey (o : Objects) (key : string) : result objectsError string :=
  match objErr o with
  | Some e => Err e
  | None =>
      if bool_decide (Prefix o = EmptyString) || negb (hasPrefix (Prefix o) key) then Err ErrBadKey
      else if contains key ".." || contains key "\" || hasPrefix "/" key then Err ErrBadKey
      else Ok key
  end.

Section operations.
Context {C M : Type}.
Abbreviation prog := (prog C M).

(** The key of a write. *)
Definition withKey (op : bucketOp) (k : string) : bucketOp :=
  match op with
  | Put _ d => Put k d
  | ConditionalCreate _ d => ConditionalCreate k d
  | CAS _ d e => CAS k d e
  | Delete _ => Delete k
  | ConditionalDelete _ e => ConditionalDelete k e
  end.

Definition GetVersion (o : Objects) (key : string) : prog (result objectsError (bytes * string)) :=
  match objectKey o key with
  | Err e => mret (Err e)
  | Ok k => r ← getObject k; mret (rmap_err ErrObject r)
  end.

Definition Get (o : Objects) (key : string) : prog (result objectsError bytes) :=
  '(data, _) ←! GetVersion o key; mret (Ok data).

(** [Put], [ConditionalCreate], [CAS], [Delete] and [ConditionalDelete] *)
Definition write (o : Objects) (op : bucketOp) : prog (result objectsError string) :=
  match objectKey o (opKey op) with
  | Err e => mret (Err e)
  | Ok k => r ← putObject (withKey op k); mret (rmap_err ErrObject r)
  end.

Definition inside (o : Objects) (s : string) : bool := hasPrefix (Prefix o) s && negb (contains s "..").

Definition ListPrefix (o : Objects) (prefix : string) : prog (result objectsError (list string)) :=
  match objErr o with
  | Some e => mret (Err e)
  | None => if inside o prefix then r ← listKeys prefix; mret (rmap_err ErrObject r)
            else mret (Err ErrBadKey)
  end.

Definition ListObjects (o : Objects) : prog (result objectsError (list string)) :=
  match objErr o with
  | Some e => mret (Err e)
  | None => r ← listKeys (Prefix o); mret (rmap_err ErrObject r)
  end.

(** The page cut from a full listing. *)
Fixpoint cutPage (after : string) (limit : nat) (out : list string) (keys : list string) :
    list string * string :=
  match keys with
  | [] => (out, EmptyString)
  | k :: keys =>
      if bool_decide (String.le k after) then cutPage after limit out keys
      else if decide (length out = limit) then (out, default EmptyString (last out))
      else cutPage after limit (out ++ [k]) keys
  end.

(** The entries of a page: the keys that can still be read, each with the size and the
    etag that it has while the page is listed. *)
Fixpoint pageInfos (keys : list string) : prog (list ObjectInfo) :=
  match keys with
  | [] => mret []
  | k :: keys =>
      r ← getObject k;
      infos ← pageInfos keys;
      mret match r with
           | Ok (d, e) => MkInfo k (zlen d) e :: infos
           | Err _ => infos
           end
  end.

(** [ListPage] of a store whose backend lists by pages, as the directory, S3 and the providers do. *)
Definition ListObjectsPage (o : Objects) (prefix after : string) (limit : Z) :
    prog (result objectsError (list ObjectInfo * string)) :=
  match objErr o with
  | Some e => mret (Err e)
  | None =>
      if negb (inside o prefix) || (bool_decide (after ≠ EmptyString) && negb (inside o after))
      then mret (Err ErrBadKey)
      else
        let limit := if decide (limit ≤ 0) then 1000 else limit in
        r ← listKeys prefix;
        match r with
        | Err e => mret (Err (ErrObject e))
        | Ok keys =>
            let '(page, next) := cutPage after (Z.to_nat limit) [] (sortKeys keys) in
            infos ← pageInfos page;
            mret (Ok (infos, next))
        end
  end.
End operations.

(** ** Properties *)

Lemma objectKey_Ok o key k :
  objectKey o key = Ok k →
  k = key ∧ objErr o = None ∧ hasPrefix (Prefix o) key = true ∧ contains key ".." = false
  ∧ contains key "\" = false ∧ hasPrefix "/" key = false.
Proof.
  unfold objectKey. destruct (objErr o); [done|].
  destruct (bool_decide _ || _) eqn:H1; [done|]. apply orb_false_iff in H1 as [_ H1%negb_false_iff].
  destruct (contains key ".." || _ || _) eqn:H2; [done|].
  apply orb_false_iff in H2 as [[H2 H3]%orb_false_iff H4]. by intros [= <-].
Qed.

Lemma OwnerOf_reserved p :
  OwnerOf p ≠ EmptyString → (normalizePrefix p, OwnerOf p) ∈ reserved.
Proof.
  unfold OwnerOf. destruct (list_find _ reserved) as [[i [q owner]]|] eqn:Hf; [|done].
  apply list_find_Some in Hf as (Hi & Hq & _). cbn in Hq. subst q. intros _.
  by eapply list_elem_of_lookup_2.
Qed.

Lemma hasPrefix_common p q s :
  hasPrefix p s = true → hasPrefix q s = true → hasPrefix p q = true ∨ hasPrefix q p = true.
Proof.
  revert q s. induction p as [|c p IH]; intros q s; [by left|].
  destruct q as [|d q]; [by right|]. destruct s as [|x s]; [done|]. cbn [hasPrefix].
  rewrite !andb_true_iff, !bool_decide_eq_true. intros [-> Hp] [-> Hq]. naive_solver.
Qed.

(** No reserved prefix is a prefix of another. *)
Lemma reserved_apart r1 r2 :
  r1 ∈ reserved → r2 ∈ reserved → hasPrefix r1.1 r2.1 = true → r1 = r2.
Proof.
  assert (Forall (λ r1, Forall (λ r2, hasPrefix r1.1 r2.1 = true → r1 = r2) reserved) reserved) as Hall.
  { unfold reserved. repeat constructor; vm_compute; congruence. }
  rewrite Forall_forall in Hall. setoid_rewrite Forall_forall in Hall. intros. by apply Hall.
Qed.

(** A key that two stores over reserved prefixes both accept belongs to one
    prefix: their subsystems are the same, so no subsystem reaches another's
    objects; and the key stays below the prefix without leading upwards. *)
Theorem stores_isolated p1 w1 p2 w2 key k1 k2 :
  OwnerOf p1 ≠ EmptyString → OwnerOf p2 ≠ EmptyString →
  objectKey (NewOwned p1 w1) key = Ok k1 → objectKey (NewOwned p2 w2) key = Ok k2 →
  k1 = key ∧ k2 = key ∧ w1 = w2 ∧ normalizePrefix p1 = normalizePrefix p2
  ∧ hasPrefix (normalizePrefix p1) key = true ∧ contains key ".." = false.
Proof.
  intros Ho1 Ho2 (-> & He1 & Hp1 & Hdot & _)%objectKey_Ok (-> & He2 & Hp2 & _)%objectKey_Ok.
  cbn [NewOwned Prefix objErr] in *.
  assert (∀ p, normalizePrefix (normalizePrefix p) = normalizePrefix p) as Hnorm.
  { intros p. unfold normalizePrefix at 2 3. destruct (hasSuffix p "/") eqn:Hs; unfold normalizePrefix.
    - by rewrite Hs.
    - by rewrite hasSuffix_app. }
  assert (∀ p, OwnerOf (normalizePrefix p) = OwnerOf p) as Hown by (intros p; unfold OwnerOf; by rewrite Hnorm).
  rewrite !Hown in *. case_decide as Hd1; [done|]. case_decide as Hd2; [done|].
  assert ((normalizePrefix p1, OwnerOf p1) = (normalizePrefix p2, OwnerOf p2)) as [= Hp Ho].
  { destruct (hasPrefix_common _ _ _ Hp1 Hp2).
    - by apply reserved_apart; [apply OwnerOf_reserved..|].
    - symmetry. by apply reserved_apart; [apply OwnerOf_reserved..|]. }
  split_and!; try done. destruct (decide (w1 = w2)); [done|].
  destruct (decide (OwnerOf p1 = w1)); [|by destruct Hd2].
  destruct (decide (OwnerOf p2 = w2)); [congruence|by destruct Hd1].
Qed.

Lemma stores_isolated_witness :
  let key := "cells/a/b/c/owner.json" in
  key = key ∧ key = key ∧ OwnerReplica = OwnerReplica ∧ normalizePrefix "cells" = normalizePrefix "cells/"
  ∧ hasPrefix (normalizePrefix "cells") key = true ∧ contains key ".." = false.
Proof.
  apply (stores_isolated "cells" OwnerReplica "cells/" OwnerReplica "cells/a/b/c/owner.json"
    "cells/a/b/c/owner.json" "cells/a/b/c/owner.json"); vm_compute; congruence.
Defined.

(** A prefix below a reserved one is not reserved: any subsystem may open it. *)
Example subprefix_not_reserved :
  objErr (NewObjects "cells/demo/") = None
  ∧ objectKey (NewObjects "cells/demo/") "cells/demo/__kv__/main/owner.json"
    = Ok "cells/demo/__kv__/main/owner.json".
Proof. split; vm_compute; reflexivity. Qed.
