(* ===== verification/Lease.v ===== *)
(** * Node leases ([internal/lease])

    A process publishes a lease record for its node and renews it; peers judge it
    dead once the record expires. The manager's state is what the threads of a
    process share; [Publish], the health checks, the point reads and the snapshot
    refresh are programs over it ([Fleet.v]).

    The theorems: on clocks without steps, with no write that lands after its call
    returned, a process that reports itself healthy is live in the bucket for every peer
    that reads its record, whatever writes were lost on the way; a fenced process stays fenced and never writes again; and a slow scan never
    replaces a newer point observation in the snapshot. *)

From S2P Require Import Prelude Cell Bucket Fleet Objects.

(** ** Records *)

Record Load := MkLoad {
  OwnedCells : Z;
  Weight : Z;
  ResidentCells : Z;
  RSSBytes : Z;
  CPUPercentX100 : Z;
  Pressured : bool;
  MemoryHeadroom : Z;
  ShedCells : Z;
  Restoring : Z;
  SampledMs : Z;
}.

Record NodeLease := MkLease {
  lNode : string;
  lSession : string;
  lInstance : string;
  lLiveness : string;
  lAdvertise : string;
  lPeerURL : string;
  lAZ : string;
  lExpiry : Z;
  lProtoVersion : string;
  lLoad : Load;
}.

Definition zeroLease : NodeLease :=
  MkLease EmptyString EmptyString EmptyString EmptyString EmptyString EmptyString EmptyString 0
    EmptyString (MkLoad 0 0 0 0 0 false 0 0 0 0).

Definition NodeLeaseLiveness : string := "node-lease-fence-v2-recovery-v3".

(** [Key] *)
Definition leaseKey (node : string) : string := "nodes/" +:+ node +:+ ".json".

Inductive leaseError : Set :=
| ErrFenced
| ErrReplaced
| ErrCtx
| ErrReadLease (e : bucketError)
| ErrDecodeLease
| ErrHeld
| ErrPublish (e : bucketError)
| ErrReturnedExpired
| ErrAddress.

(** [errors.Is(err, ErrFenced)] *)
Definition isFencedErr (e : leaseError) : bool :=
  match e with ErrFenced | ErrReplaced => true | _ => false end.

(** ** The manager *)

(** The fields fixed by [NewManager] and its caller. *)
Record leaseConfig := MkLeaseConfig {
  cNodeID : string;
  cSession : string;
  cAdvert : string;
  cPeerURL : string;
  cAZ : string;
  cTTL : Z;
  cInstance : string;
}.

(** The publication, guarded by [mu]; [publishing] is [publishMu]. *)
Record publication := MkPub {
  publishedExpiry : option time;
  fenced : bool;
  publishing : bool;
  publishedETag : string;
}.

(** The snapshot of other nodes' leases, guarded by [mu]. *)
Record snapshot := MkSnap {
  cached : option (list NodeLease);
  cachedAt : option time;
  refreshing : bool;
  retryAt : option time;
  observed : gmap string time;
  knownRunning : bool;
}.

Record LeaseManager := MkLM {
  lCfg : leaseConfig;
  lPub : publication;
  lSnap : snapshot;
}.

Definition NewManager (cfg : leaseConfig) : LeaseManager :=
  MkLM cfg (MkPub None false false EmptyString) (MkSnap None None false None ∅ false).

Definition setPub (p : publication) (m : LeaseManager) : LeaseManager := MkLM (lCfg m) p (lSnap m).
Definition setSnap (s : snapshot) (m : LeaseManager) : LeaseManager := MkLM (lCfg m) (lPub m) s.

Definition setFenced (b : bool) (p : publication) : publication :=
  MkPub (publishedExpiry p) b (publishing p) (publishedETag p).
Definition setPublishing (b : bool) (p : publication) : publication :=
  MkPub (publishedExpiry p) (fenced p) b (publishedETag p).
Definition setPublished (e : time) (tag : string) (p : publication) : publication :=
  MkPub (Some e) (fenced p) (publishing p) tag.

(** ** Liveness *)

(** [Live] *)
Definition leaseLive (l : NodeLease) (now : time) : bool := bool_decide (UnixMilli now < lExpiry l).

(** The published deadline has passed on either clock. *)
Definition deadlinePassed (p : publication) (t : time) : bool :=
  match publishedExpiry p with
  | Some e => negb (Before t e) || bool_decide (UnixMilli e ≤ UnixMilli t)
  | None => false
  end.

Definition expiredLocked (t : time) (m : LeaseManager) : bool * LeaseManager :=
  let f := fenced (lPub m) || deadlinePassed (lPub m) t in
  (f, setPub (setFenced f (lPub m)) m).

(** [t.Before(HealthyUntil())] needs a deadline: the zero time is before every
    reading of the clock. *)
Definition margin (ttl : Z) : Z := let d := Z.quot ttl 5 in if decide (d ≤ 0) then Second else d.

Definition healthyUntilLocked (t : time) (m : LeaseManager) : option time * LeaseManager :=
  let exp := publishedExpiry (lPub m) in
  let '(x, m) := expiredLocked t m in
  ((if x then None else (λ e, Add e (- margin (cTTL (lCfg m)))) <$> exp), m).

Definition LegacyPeers (leases : list NodeLease) (self : string) (now : time) : list NodeLease :=
  filter (λ l, ¬ (lNode l = self ∨ leaseLive l now = false ∨ lLiveness l = NodeLeaseLiveness)) leases.

Fixpoint HasShedTarget (leases : list NodeLease) (self : string) (now : time) : bool :=
  match leases with
  | [] => false
  | l :: leases =>
      if bool_decide (lNode l = self) || negb (leaseLive l now) || Pressured (lLoad l)
      then HasShedTarget leases self now
      else
        let weight := if decide (Weight (lLoad l) ≤ 0) then 1 else Weight (lLoad l) in
        if decide (OwnedCells (lLoad l) < weight) then true else HasShedTarget leases self now
  end.

(** ** The snapshot ([known_refresh.go]) *)

Definition knownTTL (cfg : leaseConfig) : Z :=
  if decide (0 < cTTL cfg) then cTTL cfg else 10 * Second.

Definition knownRefreshInterval (cfg : leaseConfig) : Z :=
  let d := Z.quot (knownTTL cfg) 5 in
  let d := if decide (d > 2 * Second) then 2 * Second else d in
  if decide (d < 10 * Millisecond) then 10 * Millisecond else d.

(** [m.observed[node].After(started)] *)
Definition observedAfter (obs : gmap string time) (node : string) (started : time) : bool :=
  match obs !! node with Some at_ => After at_ started | None => false end.

(** The first entry of a node in the snapshot. *)
Definition cachedIndex (ls : list NodeLease) (node : string) : option nat :=
  fst <$> list_find (λ l, lNode l = node) ls.

(** What a point read of a node's lease found. *)
Inductive pointRead : Type :=
| Found (l : NodeLease)
| Missing
| Failed.

(** The snapshot after the read that started at [started] is applied at [t]. *)
Definition applyKnownRead (node : string) (r : pointRead) (started t : time) (s : snapshot) : snapshot :=
  let ls := default [] (cached s) in
  let put (c : list NodeLease) :=
    MkSnap (Some c) (cachedAt s) (refreshing s) (retryAt s)
      (<[node := started]> (observed s)) (knownRunning s) in
  match r with
  | Failed => s
  | Found l =>
      if decide (lNode l ≠ node) then s
      else if observedAfter (observed s) node started then s
      else match cachedIndex ls node with
           | Some i => put (<[i := l]> ls)
           | None => if leaseLive l t && bool_decide (zlen ls < 4096) then put (ls ++ [l]) else s
           end
  | Missing =>
      if observedAfter (observed s) node started then s
      else match cachedIndex ls node with
           | Some i => put (delete i ls)
           | None => s
           end
  end.

(** The two loops of [mergeSampleLocked]: the scanned leases, then the cached ones
    the scan did not return. *)
Record mergeState := MkMerge {
  mNext : list NodeLease;
  mSeen : gset string;
  mObserved : gmap string time;
}.

Definition currentLease (ls : list NodeLease) (node : string) : option NodeLease :=
  last (filter (λ l, lNode l = node) ls).

Definition mergeScanned (ls : list NodeLease) (started : time) (x : mergeState) (l : NodeLease) :
    mergeState :=
  if decide (lNode l ∈ mSeen x) then x
  else
    let seen := {[lNode l]} ∪ mSeen x in
    if observedAfter (mObserved x) (lNode l) started then
      match currentLease ls (lNode l) with
      | Some fresh => MkMerge (mNext x ++ [fresh]) seen (mObserved x)
      | None => MkMerge (mNext x) seen (mObserved x)
      end
    else MkMerge (mNext x ++ [l]) seen (<[lNode l := started]> (mObserved x)).

Definition mergeCached (started : time) (floor : Z) (x : mergeState) (l : NodeLease) : mergeState :=
  if negb (bool_decide (lNode l ∈ mSeen x)) &&
     (observedAfter (mObserved x) (lNode l) started || bool_decide (floor < lExpiry l))
  then MkMerge (mNext x ++ [l]) ({[lNode l]} ∪ mSeen x) (mObserved x)
  else x.

Definition mergeSample (cfg : leaseConfig) (sample : list NodeLease) (started t : time)
    (s : snapshot) : snapshot :=
  let ls := default [] (cached s) in
  let x := foldl (mergeScanned ls started) (MkMerge [] ∅ (observed s)) sample in
  let floor := UnixMilli (Add t (- knownTTL cfg)) in
  let x := foldl (mergeCached started floor) x ls in
  let obs := filter (λ '(node, at_), node ∈ mSeen x ∨ After at_ started = true) (mObserved x) in
  MkSnap (Some (mNext x)) (cachedAt s) (refreshing s) (retryAt s) obs (knownRunning s).

(** ** Programs *)

(** [json.Marshal] and [json.Unmarshal] of a lease *)
Abbreviation leaseCodec := (Codec NodeLease).

Section programs.
Context `{leaseCodec} {C : Type}.
Abbreviation prog := (prog C LeaseManager).

Definition config : prog leaseConfig := atomic (λ m, (lCfg m, m)).

Definition Fenced : prog bool := t ← now; atomic (expiredLocked t).

Definition HealthyUntil : prog (option time) := t ← now; atomic (healthyUntilLocked t).

Definition Healthy (t : time) : prog bool :=
  x ← atomic (expiredLocked t);
  if x : bool then mret false
  else until ← HealthyUntil;
       mret (match until with Some u => Before t u | None => false end).

(** The record [Publish] writes. *)
Definition leaseRecord (cfg : leaseConfig) (load : Load) (expiry : time) : NodeLease :=
  MkLease (cNodeID cfg) (cSession cfg) (cInstance cfg) NodeLeaseLiveness (cAdvert cfg)
    (cPeerURL cfg) (cAZ cfg) (UnixMilli expiry) "v1" load.

Definition sampledAt (load : Load) (ms : Z) : Load :=
  MkLoad (OwnedCells load) (Weight load) (ResidentCells load) (RSSBytes load) (CPUPercentX100 load)
    (Pressured load) (MemoryHeadroom load) (ShedCells load) (Restoring load) ms.

(** Never shorten the published lease. *)
Definition keepLonger (expiry : time) (m : LeaseManager) : time :=
  match publishedExpiry (lPub m) with
  | Some e => if After e expiry then e else expiry
  | None => expiry
  end.

(** A live record of another session and another instance. *)
Definition heldByOther (cfg : leaseConfig) (prev : NodeLease) (t : time) : bool :=
  leaseLive prev t && bool_decide (lSession prev ≠ cSession cfg)
  && (bool_decide (cInstance cfg = EmptyString) || bool_decide (lInstance prev ≠ cInstance cfg)).

(** The ETag the write expects, empty for a first write: the one of the last
    write, or that of the record found. *)
Definition expectedETag (cfg : leaseConfig) : prog (result leaseError string) :=
  tag ← atomic (λ m, (publishedETag (lPub m), m));
  if decide (tag ≠ EmptyString) then mret (Ok tag)
  else
    r ← getObject (leaseKey (cNodeID cfg));
    match r with
    | Err e => mret (if decide (e = ErrNotFound) then Ok EmptyString else Err (ErrReadLease e))
    | Ok (previous, etag) =>
        match unmarshal previous with
        | None => mret (Err ErrDecodeLease)
        | Some prev =>
            t ← now;
            mret (if heldByOther cfg prev t then Err ErrHeld else Ok etag)
        end
    end.

(** What the answer of the write means for the publication. *)
Definition finishPublish (r : result bucketError string) (t expiry : time) (expiryMs : Z)
    (m : LeaseManager) : result leaseError unit * LeaseManager :=
  let '(x, m) := expiredLocked t m in
  if x then (Err ErrFenced, m)
  else match r with
       | Err e =>
           if decide (publishedETag (lPub m) ≠ EmptyString ∧ e = ErrPrecondition)
           then (Err ErrReplaced, setPub (setFenced true (lPub m)) m)
           else (Err (ErrPublish e), m)
       | Ok etag =>
           if negb (Before t expiry) || bool_decide (expiryMs ≤ UnixMilli t)
           then (Err ErrReturnedExpired, m)
           else (Ok tt, setPub (setPublished expiry etag (lPub m)) m)
       end.

Definition publishLocked (load : Load) : prog (result leaseError unit) :=
  cfg ← config;
  x ← Fenced;
  if x : bool then mret (Err ErrFenced) else
  c ← ctxErr;
  if c : bool then mret (Err ErrCtx) else
  load ← (if decide (SampledMs load = 0) then t ← now; mret (sampledAt load (UnixMilli t))
          else mret load);
  t ← now;
  expiry ← atomic (λ m, (keepLonger (Add t (cTTL cfg)) m, m));
  let l := leaseRecord cfg load expiry in
  expected ←! expectedETag cfg;
  x ← Fenced;
  if x : bool then mret (Err ErrFenced) else
  r ← putObject (if decide (expected = EmptyString)
                 then ConditionalCreate (leaseKey (cNodeID cfg)) (marshal l)
                 else CAS (leaseKey (cNodeID cfg)) (marshal l) expected);
  t ← now;
  atomic (finishPublish r t expiry (lExpiry l)).

Definition Publish (load : Load) : prog (result leaseError unit) :=
  lock (λ m, if publishing (lPub m) then None else Some (setPub (setPublishing true (lPub m)) m)) ≫=
  λ _, r ← publishLocked load;
       update (λ m, setPub (setPublishing false (lPub m)) m) ≫= λ _, mret r.

(** *** Reads *)

Inductive getError : Set :=
| ErrGet (e : bucketError)
| ErrUnmarshal
| ErrGetCtx.

(** [Get] *)
Definition leaseGet (node : string) : prog (result getError NodeLease) :=
  r ← getObject (leaseKey node);
  mret (match r with
        | Err e => Err (ErrGet e)
        | Ok (data, _) => match unmarshal data with Some l => Ok l | None => Err ErrUnmarshal end
        end).

Definition pointReadOf (r : result getError NodeLease) : pointRead :=
  match r with
  | Ok l => Found l
  | Err (ErrGet ErrNotFound) => Missing
  | Err _ => Failed
  end.

Definition applyRead (node : string) (r : result getError NodeLease) (started : time) : prog unit :=
  t ← now;
  update (λ m, setSnap (applyKnownRead node (pointReadOf r) started t (lSnap m)) m).

(** A point read whose result updates the snapshot unless the context has ended. *)
Definition readAndApply (node : string) : prog (result getError NodeLease) :=
  started ← now;
  r ← leaseGet node;
  c ← ctxErr;
  (if c : bool then mret tt else applyRead node r started) ≫= λ _, mret r.

(** A missing lease is no error. *)
Definition orAbsent (r : result getError NodeLease) : result getError (option NodeLease) :=
  match r with
  | Ok l => Ok (Some l)
  | Err (ErrGet ErrNotFound) => Ok None
  | Err e => Err e
  end.

(** [NodeLeaseFresh] *)
Definition leaseFresh (node : string) : prog (result getError (option NodeLease)) :=
  r ← readAndApply node; mret (orAbsent r).

(** [CachedNodeLease] *)
Definition cachedLease (node : string) (m : LeaseManager) : option NodeLease :=
  snd <$> list_find (λ l, lNode l = node) (default [] (cached (lSnap m))).
Definition CachedNodeLease (node : string) : prog (option NodeLease) :=
  atomic (λ m, (cachedLease node m, m)).

(** [NodeLease] *)
Definition leaseOf (node : string) : prog (result getError (option NodeLease)) :=
  c ← CachedNodeLease node;
  match c with
  | Some l => mret (Ok (Some l))
  | None => leaseFresh node
  end.

Definition LegacyPeerVisible (t : time) : prog bool :=
  atomic (λ m, (negb (bool_decide
    (LegacyPeers (default [] (cached (lSnap m))) (cNodeID (lCfg m)) t = [])), m)).

(** *** Discovery *)

(** A lease key directly below [nodes/]. *)
Definition isLeaseKey (k : string) : bool :=
  match hasPrefix "nodes/" k with
  | true => negb (contains (String.substring 6 (String.length k - 6) k) "/") && hasSuffix k ".json"
  | false => negb (contains k "/") && hasSuffix k ".json"
  end.

(** The reads of [Sample], in the order of the keys; a key that cannot be read or
    decoded is left out, and a cancelled pass returns nothing. *)
Fixpoint sampleKeys (ks : list string) : prog (option (list NodeLease)) :=
  match ks with
  | [] => mret (Some [])
  | k :: ks =>
      if negb (isLeaseKey k) then sampleKeys ks
      else
        c ← ctxErr;
        if c : bool then mret None
        else r ← getObject k;
             ls ← sampleKeys ks;
             mret (match r with
                   | Ok (data, _) =>
                       match unmarshal data with Some l => cons l <$> ls | None => ls end
                   | Err _ => ls
                   end)
  end.

Definition Sample : prog (result getError (list NodeLease)) :=
  r ← listKeys "nodes/";
  match r with
  | Err e => mret (Err (ErrGet e))
  | Ok keys =>
      out ← sampleKeys keys;
      c ← ctxErr;
      mret (match out with
            | Some ls => if c : bool then Err ErrGetCtx else Ok ls
            | None => Err ErrGetCtx
            end)
  end.

(** [SampleCached]: the snapshot, and whether a refresh is to be started. *)
Definition SampleCached (ttl : Z) : prog (option (list NodeLease) * bool) :=
  t ← now;
  atomic (λ m,
    let s := lSnap m in
    let fresh := bool_decide (is_Some (cached s)) &&
                 match cachedAt s with
                 | Some at_ => bool_decide (mono t - mono at_ < ttl)
                 | None => false
                 end in
    let refresh := negb fresh && negb (refreshing s) &&
                   match retryAt s with Some at_ => After t at_ | None => true end in
    ((cached s, refresh),
     setSnap (MkSnap (cached s) (cachedAt s) (refreshing s || refresh) (retryAt s)
                (observed s) (knownRunning s)) m)).

Definition refresh : prog unit :=
  started ← now;
  sample ← Sample;
  t ← now;
  t' ← now;
  update (λ m,
    let s := lSnap m in
    match sample with
    | Err _ => setSnap (MkSnap (cached s) (cachedAt s) false (Some (Add t (5 * Second)))
                          (observed s) (knownRunning s)) m
    | Ok ls =>
        let s := mergeSample (lCfg m) ls started t s in
        setSnap (MkSnap (cached s) (Some t') false (retryAt s) (observed s) (knownRunning s)) m
    end).

(** The peers worth a point read. *)
Definition knownNodes (t : time) (m : LeaseManager) : list string :=
  let floor := UnixMilli (Add t (- knownTTL (lCfg m))) in
  lNode <$> filter (λ l, lNode l ≠ EmptyString ∧ lNode l ≠ cNodeID (lCfg m) ∧ floor < lExpiry l)
              (default [] (cached (lSnap m))).

(** One worker of [refreshKnown] over the nodes it takes. *)
Fixpoint refreshNodes (nodes : list string) : prog unit :=
  match nodes with
  | [] => mret tt
  | node :: nodes =>
      c ← ctxErr;
      if c : bool then mret tt
      else readAndApply node ≫= λ _, refreshNodes nodes
  end.

Definition refreshKnown : prog unit :=
  t ← now;
  nodes ← atomic (λ m, (knownNodes t m, m));
  refreshNodes nodes.
End programs.

(** ** Recovery addresses ([recovery_address.go]) *)

Record PeerIdentity := MkPeer {
  pNode : string;
  pInstance : string;
}.

#[global] Instance PeerIdentity_eq_dec : EqDecision PeerIdentity.
Proof. solve_decision. Defined.

Record RecoveryAddress := MkAddress {
  aPeer : PeerIdentity;
  aAddress : string;
}.

Definition recoveryAddressKey (id : PeerIdentity) : string :=
  "nodes/" +:+ pNode id +:+ "/recovery/" +:+ pInstance id.

Inductive addressError : Set :=
| ErrIncomplete
| ErrStore (e : objectsError)
| ErrLease (e : getError)
| ErrBadAddress
| ErrIdentity.

Definition nodeStore : Objects := NewOwned PrefixNodes OwnerNodeLog.

Section recovery.
Context `{leaseCodec} `{Codec RecoveryAddress} {C : Type}.
Abbreviation prog := (prog C LeaseManager).

Definition PublishRecoveryAddress : prog (result addressError unit) :=
  cfg ← config;
  if decide (cNodeID cfg = EmptyString ∨ cInstance cfg = EmptyString ∨ cPeerURL cfg = EmptyString)
  then mret (Err ErrIncomplete)
  else
    let id := MkPeer (cNodeID cfg) (cInstance cfg) in
    r ← write nodeStore (Put (recoveryAddressKey id) (marshal (MkAddress id (cPeerURL cfg))));
    mret (_ ←ᵣ rmap_err ErrStore r; Ok tt).

Definition ResolveRecoveryAddress (id : PeerIdentity) : prog (result addressError string) :=
  if decide (pNode id = EmptyString ∨ pInstance id = EmptyString) then mret (Err ErrIncomplete)
  else
    r ← Get nodeStore (recoveryAddressKey id);
    match r with
    | Ok b =>
        mret (match unmarshal b with
              | None => Err ErrBadAddress
              | Some a => if decide (aPeer a ≠ id ∨ aAddress a = EmptyString) then Err ErrIdentity
                          else Ok (aAddress a)
              end)
    | Err (ErrObject ErrNotFound) =>
        r ← leaseGet (pNode id);
        mret (match r with
              | Err e => Err (ErrLease e)
              | Ok l => if decide (lNode l ≠ pNode id ∨ lInstance l ≠ pInstance id
                                   ∨ lPeerURL l = EmptyString)
                        then Err ErrIdentity else Ok (lPeerURL l)
              end)
    | Err e => mret (Err (ErrStore e))
    end.
End recovery.

(** ** The publication protocol *)

(** Where a thread stands in [Publish]: outside, holding [publishMu], about to write
    a lease that ends at [x], or having written it. *)
Inductive phase : Type :=
| Idle
| Held
| Armed (x : time)
| Wrote (x : time).

#[global] Instance phase_eq_dec : EqDecision phase.
Proof. solve_decision. Defined.

(** A clock without steps: the wall clock moves with the monotonic one. *)
Definition steady (t : time) : Prop := wall t = mono t.

Definition steadyPub (m : LeaseManager) : Prop :=
  ∀ e, publishedExpiry (lPub m) = Some e → steady e.

Definition notShorter (m : LeaseManager) (x : time) : Prop :=
  ∀ e, publishedExpiry (lPub m) = Some e → mono e ≤ mono x.

(** A critical section that leaves the publication and its mutex alone. *)
Definition keeps (m m' : LeaseManager) : Prop :=
  lCfg m' = lCfg m ∧ publishedExpiry (lPub m') = publishedExpiry (lPub m)
  ∧ publishing (lPub m') = publishing (lPub m) ∧ (fenced (lPub m) → fenced (lPub m')).

(** What a critical section may do to the publication in each phase. *)
Inductive trans (m m' : LeaseManager) : phase → phase → Prop :=
| trans_keep ph : keeps m m' → trans m m' ph ph
| trans_lock :
    publishing (lPub m) = false → m' = setPub (setPublishing true (lPub m)) m → trans m m' Idle Held
| trans_unlock ph :
    ph ≠ Idle → m' = setPub (setPublishing false (lPub m)) m → trans m m' ph Idle
| trans_arm x : keeps m m' → steady x → notShorter m x → trans m m' Held (Armed x)
| trans_publish x tag :
    ¬ fenced (lPub m) →
    m' = setPub (setPublished x tag (setFenced false (lPub m))) m → trans m m' (Wrote x) Held.

Section protocol.
Context `{Etag} `{leaseCodec} {C : Type}.

(** The write of a lease that ends at [x]. *)
Definition leaseWrite (cfg : leaseConfig) (x : time) (op : bucketOp) : Prop :=
  ∃ l, lSession l = cSession cfg ∧ lExpiry l = UnixMilli x
       ∧ (op = ConditionalCreate (leaseKey (cNodeID cfg)) (marshal l)
          ∨ ∃ tag, op = CAS (leaseKey (cNodeID cfg)) (marshal l) tag).

(** Every path of the program follows the protocol and ends with [Q]. *)
Fixpoint obeys {R} (cfg : leaseConfig) (Q : R → phase → Prop) (ph : phase)
    (p : prog C LeaseManager R) : Prop :=
  match p with
  | Ret r => Q r ph
  | Fetch _ k => ∀ r, obeys cfg Q ph (k r)
  | ListKeys _ k => ∀ r, obeys cfg Q ph (k r)
  | Do op k =>
      match ph with
      | Armed x => leaseWrite cfg x op ∧ (∀ tag, obeys cfg Q (Wrote x) (k (Ok tag)))
                   ∧ ∀ e, obeys cfg Q (Armed x) (k (Err e))
      | _ => (∀ n, opKey op ≠ leaseKey n) ∧ ∀ r, obeys cfg Q ph (k r)
      end
  | Now k => ∀ t, steady t → obeys cfg Q ph (k t)
  | CtxErr k => ∀ b, obeys cfg Q ph (k b)
  | Atomic f k =>
      ∀ m, lCfg m = cfg → steadyPub m → ∃ ph', trans m (f m).2 ph ph' ∧ obeys cfg Q ph' (k (f m).1)
  | Wait cancel f k =>
      (cancel → obeys cfg Q ph (k None))
      ∧ ∀ m x m', lCfg m = cfg → steadyPub m → f m = Some (x, m') →
          ∃ ph', trans m m' ph ph' ∧ obeys cfg Q ph' (k (Some x))
  | Call _ k => ∀ b, obeys cfg Q ph (k b)
  end.

Lemma obeys_bind {A B} cfg (Q : A → phase → Prop) (Q' : B → phase → Prop) ph
    (p : prog C LeaseManager A) (g : A → prog C LeaseManager B) :
  obeys cfg Q ph p → (∀ a ph', Q a ph' → obeys cfg Q' ph' (g a)) → obeys cfg Q' ph (bind p g).
Proof.
  intros Hp Hg. revert ph Hp.
  induction p as [r|key k IH|op k IH|pre k IH|k IH|k IH|T f k IH|T c f k IH|c k IH]; intros ph; simpl; eauto.
  - destruct ph; naive_solver.
  - intros Hp m Hm Hs. destruct (Hp m Hm Hs) as (ph' & Ht & Hk). eauto.
  - intros [Hc Hp]. split; [eauto|]. intros m x m' Hm Hs Hf.
    destruct (Hp m x m' Hm Hs Hf) as (ph' & Ht & Hk). eauto.
Qed.

(** A program that writes nothing and stays in its phase. *)
Definition quiet {R} (p : prog C LeaseManager R) : Prop :=
  ∀ cfg ph, obeys cfg (λ _ ph', ph' = ph) ph p.

Lemma quiet_ret {A} (a : A) : quiet (mret a).
Proof. by intros cfg ph. Qed.

Lemma quiet_bind {A B} (p : prog C LeaseManager A) (g : A → prog C LeaseManager B) :
  quiet p → (∀ a, quiet (g a)) → quiet (p ≫= g).
Proof. intros Hp Hg cfg ph. eapply obeys_bind; [by apply Hp|]. intros a ph' ->. by apply Hg. Qed.

Lemma quiet_atomic {A} (f : LeaseManager → A * LeaseManager) :
  (∀ m, keeps m (f m).2) → quiet (atomic f).
Proof. intros Hf cfg ph m Hm Hs. exists ph. split; [by constructor|done]. Qed.

Lemma quiet_update f : (∀ m, keeps m (f m)) → quiet (update f).
Proof. intros Hf cfg ph m Hm Hs. exists ph. split; [by constructor|done]. Qed.

Lemma quiet_now : quiet now.
Proof. by intros cfg ph t Ht. Qed.
Lemma quiet_ctxErr : quiet ctxErr.
Proof. by intros cfg ph b. Qed.
Lemma quiet_get key : quiet (getObject key).
Proof. by intros cfg ph r. Qed.
Lemma quiet_list prefix : quiet (Fleet.listKeys prefix).
Proof. by intros cfg ph r. Qed.

Lemma keeps_refl m : keeps m m.
Proof. by split_and!. Qed.
Lemma keeps_setSnap m s : keeps m (setSnap s m).
Proof. by split_and!. Qed.
Lemma keeps_expired t m : keeps m (expiredLocked t m).2.
Proof. split_and!; try done. simpl. by destruct (fenced (lPub m)). Qed.
Lemma keeps_until t m : keeps m (healthyUntilLocked t m).2.
Proof. apply keeps_expired. Qed.
End protocol.

Create HintDb lease.
#[export] Hint Resolve quiet_ret quiet_bind quiet_atomic quiet_update quiet_now quiet_ctxErr quiet_get
  quiet_list keeps_refl keeps_setSnap keeps_expired keeps_until : lease.

(** Walks a program that writes nothing. *)
Ltac quiet :=
  repeat (intros; match goal with
  | |- quiet (if ?b then _ else _) => destruct b
  | |- quiet (match ?x with _ => _ end) => destruct x
  | |- _ => first [apply quiet_bind | progress eauto with lease nocore]
  end).

Section quiet_programs.
Context `{Etag} `{leaseCodec} {C : Type}.

Lemma quiet_Fenced : quiet (C := C) Fenced.
Proof. unfold Fenced. quiet. Qed.
Lemma quiet_HealthyUntil : quiet (C := C) HealthyUntil.
Proof. unfold HealthyUntil. quiet. Qed.
Lemma quiet_Healthy t : quiet (C := C) (Healthy t).
Proof. unfold Healthy. pose proof quiet_HealthyUntil. quiet. Qed.
Lemma quiet_expectedETag cfg : quiet (C := C) (expectedETag cfg).
Proof. unfold expectedETag. quiet. Qed.
Lemma quiet_readAndApply node : quiet (C := C) (readAndApply node).
Proof. unfold readAndApply, leaseGet, applyRead. quiet. Qed.
Lemma quiet_leaseFresh node : quiet (C := C) (leaseFresh node).
Proof. unfold leaseFresh. pose proof (quiet_readAndApply node). quiet. Qed.
Lemma quiet_leaseOf node : quiet (C := C) (leaseOf node).
Proof. unfold leaseOf, CachedNodeLease. pose proof (quiet_leaseFresh node). quiet. Qed.
Lemma quiet_sampleKeys ks : quiet (C := C) (sampleKeys ks).
Proof. induction ks as [|k ks IH]; cbn [sampleKeys]; quiet. Qed.
Lemma quiet_refresh : quiet (C := C) refresh.
Proof.
  unfold refresh, Sample. pose proof quiet_sampleKeys. quiet.
  intros t'. apply quiet_update. intros m. destruct a0; apply keeps_setSnap.
Qed.
Lemma quiet_refreshKnown : quiet (C := C) refreshKnown.
Proof.
  assert (∀ nodes, quiet (C := C) (refreshNodes nodes)).
  { induction nodes as [|n nodes IH]; cbn [refreshNodes]; [quiet|].
    pose proof (quiet_readAndApply n). quiet. }
  unfold refreshKnown. quiet.
Qed.
Lemma quiet_SampleCached ttl : quiet (C := C) (SampleCached ttl).
Proof. unfold SampleCached. quiet. Qed.

(** *** [Publish] follows the protocol *)

Lemma obeys_quiet {A B} cfg (Q : B → phase → Prop) ph (p : prog C LeaseManager A) g :
  quiet p → (∀ a, obeys cfg Q ph (g a)) → obeys cfg Q ph (p ≫= g).
Proof. intros Hp Hg. eapply obeys_bind; [by apply Hp|]. by intros a ph' ->. Qed.

Lemma obeys_check {E A B} cfg (Q : result E B → phase → Prop) ph
    (p : prog C LeaseManager (result E A)) g :
  quiet p → (∀ e, Q (Err e) ph) → (∀ a, obeys cfg Q ph (g a)) → obeys cfg Q ph (check p g).
Proof. intros Hp He Hg. eapply obeys_bind; [by apply Hp|]. intros [a|e] ph' ->; [apply Hg|apply He]. Qed.

Lemma steady_Add t d : steady t → steady (Add t d).
Proof. unfold steady, Add. simpl. lia. Qed.

Lemma keepLonger_spec x m :
  steady x → steadyPub m → steady (keepLonger x m) ∧ notShorter m (keepLonger x m).
Proof.
  intros Hx Hm. unfold keepLonger, notShorter.
  destruct (publishedExpiry (lPub m)) as [e|] eqn:He; [|done].
  unfold After. case_bool_decide; split; eauto; intros ? [= <-]; lia.
Qed.

(** Whatever the write answered, the manager ends in a phase that holds the lock. *)
Lemma trans_finish r t x ms m ph :
  match r with Ok _ => ph = Wrote x | Err _ => ph = Armed x end →
  ∃ ph', ph' ≠ Idle ∧ trans m (finishPublish r t x ms m).2 ph ph'.
Proof.
  intros Hr. unfold finishPublish. pose proof (keeps_expired t m) as Hk.
  assert (ph ≠ Idle) as Hph by (by destruct r; subst).
  destruct (expiredLocked t m) as [b m1] eqn:Hm1. cbn [snd] in Hk.
  destruct b; [exists ph; split; [done|by constructor]|].
  destruct r as [tag|e].
  - destruct (negb _ || _); [exists ph; split; [done|by constructor]|].
    exists Held. split; [done|]. subst ph. unfold expiredLocked in Hm1. injection Hm1 as Hf <-.
    apply orb_false_iff in Hf as [Hf Hd]. rewrite Hf, Hd. eapply trans_publish; [rewrite Hf; by intros []|done].
  - exists ph. split; [done|]. constructor. case_decide; [|done].
    destruct Hk as (? & ? & ? & ?). by split_and!.
Qed.

Lemma obeys_publishLocked cfg load :
  obeys (C := C) cfg (λ _ ph, ph ≠ Idle) Held (publishLocked load).
Proof.
  unfold publishLocked. unfold config. intros m <- Hs0. exists Held. split; [apply trans_keep, keeps_refl|].
  cbn [fst]. set (cfg := lCfg m) in *. clearbody cfg. clear m Hs0.
  apply obeys_quiet; [apply quiet_Fenced|]. intros [|]; [done|].
  apply obeys_quiet; [apply quiet_ctxErr|]. intros [|]; [done|].
  apply obeys_quiet; [quiet|]. intros load'.
  intros t Ht m Hcfg Hs.
  destruct (keepLonger_spec (Add t (cTTL cfg)) m (steady_Add _ _ Ht) Hs) as [Hx Hns].
  set (x := keepLonger (Add t (cTTL cfg)) m) in *. cbn [fst snd].
  exists (Armed x). split; [by apply trans_arm; [apply keeps_refl|..]|]. clearbody x. clear t Ht m Hcfg Hs Hns.
  apply obeys_check; [apply quiet_expectedETag|done|]. intros expected.
  apply obeys_quiet; [apply quiet_Fenced|]. intros [|]; [done|].
  split; [exists (leaseRecord cfg load' x); split_and!; [done..|case_decide; eauto]|].
  assert (∀ r ph, match r with Ok _ => ph = Wrote x | Err _ => ph = Armed x end →
    obeys (C := C) cfg (λ _ ph, ph ≠ Idle) ph
      (t ← now; atomic (finishPublish r t x (lExpiry (leaseRecord cfg load' x))))) as Hfin.
  { intros r ph Hr t Ht m Hm Hs. destruct (trans_finish r t x (lExpiry (leaseRecord cfg load' x)) m ph Hr)
      as (ph' & Hne & Htr). by exists ph'. }
  split; [intros tag; by apply (Hfin (Ok tag))|intros e; by apply (Hfin (Err e))].
Qed.

Lemma obeys_Publish cfg load : obeys (C := C) cfg (λ _ ph, ph = Idle) Idle (Publish load).
Proof.
  unfold Publish. split; [done|]. intros m x m' Hm Hs Hf.
  destruct (publishing (lPub m)) eqn:Hp; [done|]. injection Hf as <- <-.
  exists Held. split; [by apply trans_lock|].
  refine (obeys_bind _ (λ _ ph, ph ≠ Idle) _ _ (publishLocked load) _ _ _);
    [apply obeys_publishLocked|].
  intros r ph Hph m' Hm' Hs'. exists Idle. split; [by apply trans_unlock|done].
Qed.
End quiet_programs.

(** ** The fleet *)

(** The calls of a process into its manager. *)
Inductive leaseThread `{leaseCodec} {C : Type} : prog C LeaseManager unit → Prop :=
| run_Publish load : leaseThread (Publish load ≫= λ _, mret tt)
| run_Fenced : leaseThread (Fenced ≫= λ _, mret tt)
| run_HealthyUntil : leaseThread (HealthyUntil ≫= λ _, mret tt)
| run_Healthy t : leaseThread (Healthy t ≫= λ _, mret tt)
| run_leaseOf node : leaseThread (leaseOf node ≫= λ _, mret tt)
| run_leaseFresh node : leaseThread (leaseFresh node ≫= λ _, mret tt)
| run_SampleCached ttl : leaseThread (SampleCached ttl ≫= λ _, mret tt)
| run_refresh : leaseThread refresh
| run_refreshKnown : leaseThread refreshKnown.

(** The schedules of the theorems. Processes start with a new manager; the clocks do not
    step; and a write that was reported lost happened at once or will not happen:
    schedules in which a write reaches the bucket after its call returned ([RLater]) are
    left out. *)
Definition leaseAction `{leaseCodec} {C : Type} (x : action C LeaseManager unit) : Prop :=
  match x with
  | Boot m => ∃ cfg, m = NewManager cfg
  | Spawn _ p => leaseThread p
  | Run _ (RTime t) => steady t
  | Run _ (RLater _) => False
  | Run _ _ => True
  | Deliver _ => True
  end.

Section fleet.
Context `{Etag} `{leaseCodec} {C : Type}.
Implicit Types (m : LeaseManager) (st : store) (hist : list (string * bytes)).

Lemma leaseThread_obeys (p : prog C LeaseManager unit) cfg :
  leaseThread p → obeys cfg (λ _ ph, ph = Idle) Idle p.
Proof.
  assert (∀ R (q : prog C LeaseManager R), quiet q → obeys cfg (λ _ ph, ph = Idle) Idle (q ≫= λ _, mret tt)) as Hq.
  { intros R q Hq. by apply obeys_quiet. }
  destruct 1.
  - eapply obeys_bind; [apply obeys_Publish|done].
  - apply Hq, quiet_Fenced.
  - apply Hq, quiet_HealthyUntil.
  - apply Hq, quiet_Healthy.
  - apply Hq, quiet_leaseOf.
  - apply Hq, quiet_leaseFresh.
  - apply Hq, quiet_SampleCached.
  - apply quiet_refresh.
  - apply quiet_refreshKnown.
Qed.

Definition myKey m : string := leaseKey (cNodeID (lCfg m)).

(** As long as the bucket holds a record of this session, it lasts until [x]. *)
Definition lasts st m (x : time) : Prop :=
  ∀ d l, st !! myKey m = Some d → unmarshal d = Some l → lSession l = cSession (lCfg m) →
         UnixMilli x ≤ lExpiry l.

(** A record of this session that ends at [x] was written. *)
Definition recorded hist m (x : time) : Prop :=
  ∃ l, (myKey m, marshal l) ∈ hist ∧ lSession l = cSession (lCfg m) ∧ lExpiry l = UnixMilli x.

Definition procOk st hist m : Prop :=
  steadyPub m ∧ ∀ e, publishedExpiry (lPub m) = Some e → lasts st m e ∧ recorded hist m e.

Definition phaseOk st hist m (ph : phase) : Prop :=
  match ph with
  | Idle => True
  | Held => publishing (lPub m) = true
  | Armed x => publishing (lPub m) = true ∧ steady x ∧ notShorter m x
  | Wrote x => publishing (lPub m) = true ∧ steady x ∧ lasts st m x ∧ recorded hist m x
  end.

Lemma UnixMilli_mono x y : steady x → steady y → mono x ≤ mono y → UnixMilli x ≤ UnixMilli y.
Proof. unfold steady, UnixMilli. intros -> -> ?. by apply Z.div_le_mono. Qed.

Lemma lasts_other st st' m x :
  (∀ n, st' !! leaseKey n = st !! leaseKey n) → lasts st m x → lasts st' m x.
Proof. unfold lasts, myKey. intros ->. done. Qed.

Lemma lasts_write st m x key l :
  (lSession l = cSession (lCfg m) → UnixMilli x ≤ lExpiry l) →
  lasts st m x → lasts (<[key := marshal l]> st) m x.
Proof.
  intros Hl Hst d l' Hd Hu Hs. apply lookup_insert_Some in Hd as [[_ <-]|[_ Hd]]; [|by eapply Hst].
  rewrite unmarshal_marshal in Hu. simplify_eq. by apply Hl.
Qed.

(** What a lease write does to the store. *)
Lemma perform_lease cfg x op st :
  leaseWrite cfg x op →
  ((perform op st).1 = st ∧ opWrites op st = [] ∧ ∃ e, (perform op st).2 = Err e)
  ∨ ∃ l tag, lSession l = cSession cfg ∧ lExpiry l = UnixMilli x
      ∧ (perform op st).1 = <[leaseKey (cNodeID cfg) := marshal l]> st
      ∧ opWrites op st = [(leaseKey (cNodeID cfg), marshal l)] ∧ (perform op st).2 = Ok tag.
Proof.
  intros (l & Hs & Hx & [->|[tag ->]]); unfold opWrites; simpl.
  - destruct (st !! _); simpl; [left; eauto|right; exists l; eauto 10].
  - destruct (st !! _); simpl; [|left; eauto]. case_decide; simpl; [right; exists l; eauto 10|left; eauto].
Qed.

Lemma perform_other op st :
  (∀ n, opKey op ≠ leaseKey n) → ∀ n, (perform op st).1 !! leaseKey n = st !! leaseKey n.
Proof.
  intros Hop n. specialize (Hop n).
  destruct op; simpl in *; try (destruct (st !! key)); try case_decide; simpl;
    rewrite ?lookup_insert_ne, ?lookup_delete_ne by done; done.
Qed.

Definition phasesOk st hist (procs : list LeaseManager)
    (ts : list (nat * prog C LeaseManager unit)) (phs : list phase) : Prop :=
  length phs = length ts
  ∧ (∀ n i p ph, ts !! n = Some (i, p) → phs !! n = Some ph →
       ∃ m, procs !! i = Some m ∧ obeys (lCfg m) (λ _ ph, ph = Idle) ph p ∧ phaseOk st hist m ph)
  ∧ (∀ n n' i p p' ph ph', ts !! n = Some (i, p) → ts !! n' = Some (i, p') →
       phs !! n = Some ph → phs !! n' = Some ph' → ph ≠ Idle → ph' ≠ Idle → n = n').

Definition leaseInv (w : world C LeaseManager unit) : Prop :=
  wPending w = []
  ∧ (∀ i m, wProcs w !! i = Some m → procOk (wStore w) (wHist w) m)
  ∧ ∃ phs, phasesOk (wStore w) (wHist w) (wProcs w) (wThreads w) phs.

Lemma phaseOk_publishing st hist m ph :
  phaseOk st hist m ph → publishing (lPub m) = false → ph = Idle.
Proof. destruct ph; simpl; [done|intros; congruence|intros []; congruence|intros []; congruence]. Qed.

(** One thread and its process move; everything else must stand. *)
Lemma phasesOk_step st hist st' hist' procs ts phs n i p ph m m' p' ph' :
  phasesOk st hist procs ts phs →
  ts !! n = Some (i, p) → phs !! n = Some ph → procs !! i = Some m → lCfg m' = lCfg m →
  obeys (lCfg m) (λ _ ph, ph = Idle) ph' p' → phaseOk st' hist' m' ph' →
  (∀ q, (ph ≠ Idle → q = Idle) → phaseOk st hist m q → phaseOk st' hist' m' q) →
  (∀ j mj q, j ≠ i → procs !! j = Some mj → phaseOk st hist mj q → phaseOk st' hist' mj q) →
  (ph = Idle → ph' ≠ Idle → publishing (lPub m) = false) →
  phasesOk st' hist' (<[i := m']> procs) (<[n := (i, p')]> ts) (<[n := ph']> phs).
Proof.
  intros (Hlen & Hth & Hun) Hn Hphn Hi Hcfg Hob Hok Hsame Hother Hfresh.
  assert (n < length ts)%nat by (by eapply lookup_lt_Some).
  assert (n < length phs)%nat by (by eapply lookup_lt_Some).
  assert (i < length procs)%nat by (by eapply lookup_lt_Some).
  assert (∀ n' p'' q, n' ≠ n → ts !! n' = Some (i, p'') → phs !! n' = Some q → ph ≠ Idle → q = Idle) as Hidle.
  { intros n' p'' q Hne Hn' Hq Hph. destruct (decide (q = Idle)) as [|Hqi]; [done|].
    by destruct (Hun n' n i p'' p q ph Hn' Hn Hq Hphn Hqi Hph). }
  assert (∀ n' p'' q, n' ≠ n → ts !! n' = Some (i, p'') → phs !! n' = Some q → ph' ≠ Idle → q = Idle) as Hidle'.
  { intros n' p'' q Hne Hn' Hq Hph'. destruct (decide (ph = Idle)) as [Hph|]; [|by eapply Hidle].
    destruct (Hth n' i p'' q Hn' Hq) as (m0 & Hm0 & _ & Hq0). simplify_eq.
    eapply phaseOk_publishing; [exact Hq0|auto]. }
  split_and!.
  - by rewrite !length_insert.
  - intros n' j q phq Hn' Hq. destruct (decide (n' = n)) as [->|Hne].
    + rewrite list_lookup_insert_eq in Hn' by done. rewrite list_lookup_insert_eq in Hq by done. simplify_eq.
      exists m'. rewrite list_lookup_insert_eq by done. by rewrite Hcfg.
    + rewrite list_lookup_insert_ne in Hn' by done. rewrite list_lookup_insert_ne in Hq by done.
      destruct (Hth n' j q phq Hn' Hq) as (mj & Hj & Hobj & Hokj).
      destruct (decide (j = i)) as [->|Hji].
      * simplify_eq. exists m'. rewrite list_lookup_insert_eq by done. rewrite Hcfg.
        split_and!; [done..|]. apply Hsame; [|done]. by eapply Hidle.
      * exists mj. rewrite list_lookup_insert_ne by done. eauto.
  - intros n1 n2 j p1 p2 ph1 ph2 Ht1 Ht2 Hp1 Hp2 Hi1 Hi2.
    destruct (decide (n1 = n)) as [->|Hn1], (decide (n2 = n)) as [->|Hn2]; [done|..].
    + rewrite list_lookup_insert_eq in Ht1 by done. rewrite list_lookup_insert_eq in Hp1 by done.
      rewrite list_lookup_insert_ne in Ht2 by done. rewrite list_lookup_insert_ne in Hp2 by done. simplify_eq.
      by destruct Hi2; eapply Hidle'.
    + rewrite list_lookup_insert_eq in Ht2 by done. rewrite list_lookup_insert_eq in Hp2 by done.
      rewrite list_lookup_insert_ne in Ht1 by done. rewrite list_lookup_insert_ne in Hp1 by done. simplify_eq.
      by destruct Hi1; eapply Hidle'.
    + rewrite list_lookup_insert_ne in Ht1, Ht2 by done. rewrite list_lookup_insert_ne in Hp1, Hp2 by done.
      by eapply (Hun n1 n2).
Qed.

(** A critical section keeps what holds of its process. *)
Lemma keeps_procOk st hist m m' : keeps m m' → procOk st hist m → procOk st hist m'.
Proof.
  intros (Hc & He & _ & _) [Hs Hp]. unfold procOk, steadyPub, lasts, recorded, myKey in *.
  by rewrite Hc, He.
Qed.

Lemma keeps_phaseOk st hist m m' ph : keeps m m' → phaseOk st hist m ph → phaseOk st hist m' ph.
Proof.
  intros (Hc & He & Hp & _). destruct ph; unfold phaseOk, notShorter, lasts, recorded, myKey;
    by rewrite ?Hc, ?He, ?Hp.
Qed.

Lemma procOk_pub st hist m p :
  publishedExpiry p = publishedExpiry (lPub m) → procOk st hist m → procOk st hist (setPub p m).
Proof. unfold procOk, steadyPub, lasts, recorded, myKey. simpl. by intros ->. Qed.

Lemma trans_ok st hist m m' ph ph' :
  trans m m' ph ph' → procOk st hist m → phaseOk st hist m ph →
  lCfg m' = lCfg m ∧ procOk st hist m' ∧ phaseOk st hist m' ph'
  ∧ (∀ q, (ph ≠ Idle → q = Idle) → phaseOk st hist m q → phaseOk st hist m' q)
  ∧ (ph = Idle → ph' ≠ Idle → publishing (lPub m) = false).
Proof.
  intros Htr Hpr Hok. destruct Htr as [ph Hk|Hp ->|ph Hph ->|x Hk Hx Hns|x tag Hf ->].
  - split_and!; [apply Hk|by eapply keeps_procOk|by eapply keeps_phaseOk| |by intros -> ?].
    intros q _. by apply keeps_phaseOk.
  - split_and!; [done|by apply procOk_pub|done| |done].
    intros q _ Hq. by rewrite (phaseOk_publishing _ _ _ _ Hq Hp).
  - split_and!; [done|by apply procOk_pub|done| |done]. intros q Hq _. by rewrite Hq.
  - split_and!; [apply Hk|by eapply keeps_procOk| | |done].
    + destruct Hk as (_ & He & Hpub & _). simpl in *. unfold notShorter in *. by rewrite He, Hpub.
    + intros q Hq _. by rewrite Hq.
  - destruct Hok as (Hp & Hx & Hl & Hr). split_and!; [done| |done| |done].
    + split; simpl; intros e [= <-]; [done|]. by split.
    + intros q Hq _. by rewrite Hq.
Qed.

(** A longer history, and a store whose leases are unchanged. *)
Lemma procOk_store st hist st' hist' m :
  (∀ n, st' !! leaseKey n = st !! leaseKey n) → procOk st hist m → procOk st' (hist ++ hist') m.
Proof.
  intros Hst [Hs Hp]. split; [done|]. intros e He. destruct (Hp e He) as [Hl (l & Hin & Hl')].
  split; [by eapply lasts_other|]. exists l. split; [set_solver|done].
Qed.

Lemma phaseOk_store st hist st' hist' m ph :
  (∀ n, st' !! leaseKey n = st !! leaseKey n) → phaseOk st hist m ph → phaseOk st' (hist ++ hist') m ph.
Proof.
  intros Hst. destruct ph as [| |x|x]; simpl; try done.
  intros (Hp & Hx & Hl & (l & Hin & Hl')). split_and!; [done..|by eapply lasts_other|].
  exists l. split; [set_solver|done].
Qed.

(** A lease written by a process does not concern another session, and is long
    enough for its own. *)
Lemma procOk_write st hist m key l :
  (∀ e, lSession l = cSession (lCfg m) → publishedExpiry (lPub m) = Some e → UnixMilli e ≤ lExpiry l) →
  procOk st hist m → procOk (<[key := marshal l]> st) (hist ++ [(key, marshal l)]) m.
Proof.
  intros Hl [Hs Hp]. split; [done|]. intros e He. destruct (Hp e He) as [Hla (l' & Hin & Hl')].
  split; [apply lasts_write; eauto|]. exists l'. split; [set_solver|done].
Qed.

Lemma phaseOk_write st hist m key l ph :
  lSession l ≠ cSession (lCfg m) ∨ ph = Idle →
  phaseOk st hist m ph → phaseOk (<[key := marshal l]> st) (hist ++ [(key, marshal l)]) m ph.
Proof.
  intros Hl. destruct ph as [| |x|x]; simpl; try done.
  intros (Hp & Hx & Hla & (l' & Hin & Hl')). destruct Hl as [Hl|]; [|done].
  split_and!; [done..|by apply lasts_write|]. exists l'. split; [set_solver|done].
Qed.

Definition sessions (w : world C LeaseManager unit) : list string := (cSession ∘ lCfg) <$> wProcs w.

Lemma sessions_ne w i j mi mj :
  NoDup (sessions w) → wProcs w !! i = Some mi → wProcs w !! j = Some mj → j ≠ i →
  cSession (lCfg mi) ≠ cSession (lCfg mj).
Proof.
  intros Hnd Hi Hj Hne Heq. apply Hne. unfold sessions in Hnd.
  eapply (NoDup_lookup _ j i); [exact Hnd|..]; rewrite list_lookup_fmap, ?Hi, ?Hj; simpl; by rewrite ?Heq.
Qed.

(** A step of process [i] from phase [ph] to [ph'] that keeps the invariant. *)
Definition moves st hist (procs : list LeaseManager) (i : nat) m ph st' hist' m' ph' : Prop :=
  lCfg m' = lCfg m ∧ procOk st' hist' m' ∧ phaseOk st' hist' m' ph'
  ∧ (∀ q, (ph ≠ Idle → q = Idle) → phaseOk st hist m q → phaseOk st' hist' m' q)
  ∧ (∀ j mj, j ≠ i → procs !! j = Some mj →
       (procOk st hist mj → procOk st' hist' mj)
       ∧ ∀ q, phaseOk st hist mj q → phaseOk st' hist' mj q)
  ∧ (ph = Idle → ph' ≠ Idle → publishing (lPub m) = false)
  ∧ (fenced (lPub m) → fenced (lPub m')).

Lemma moves_trans st hist procs i m ph m' ph' :
  trans m m' ph ph' → procOk st hist m → phaseOk st hist m ph →
  moves st hist procs i m ph st hist m' ph'.
Proof.
  intros Htr Hp Hok. destruct (trans_ok _ _ _ _ _ _ Htr Hp Hok) as (H1' & H2' & H3' & H4' & H5').
  split_and!; [done..|]. by destruct Htr as [? (_ & _ & _ & ?)|? ->|? ? ->|? (_ & _ & _ & ?)|? ? ? ->].
Qed.

Lemma moves_stay st hist procs i m ph :
  procOk st hist m → phaseOk st hist m ph → moves st hist procs i m ph st hist m ph.
Proof. apply moves_trans, trans_keep, keeps_refl. Qed.

Lemma moves_other st hist procs i m ph st' hist' :
  (∀ n, st' !! leaseKey n = st !! leaseKey n) →
  procOk st hist m → phaseOk st hist m ph → moves st hist procs i m ph st' (hist ++ hist') m ph.
Proof.
  intros Hst Hp Hok. split_and!; [done|by eapply procOk_store|by eapply phaseOk_store| | |by intros -> ?|done].
  - intros q _. by apply phaseOk_store.
  - intros j mj _ _. split; [by apply procOk_store|]. intros q. by apply phaseOk_store.
Qed.

Lemma moves_write st hist procs i m x l ph' :
  (∀ j mj, j ≠ i → procs !! j = Some mj → cSession (lCfg m) ≠ cSession (lCfg mj)) →
  lSession l = cSession (lCfg m) → lExpiry l = UnixMilli x → ph' = Armed x ∨ ph' = Wrote x →
  procOk st hist m → phaseOk st hist m (Armed x) →
  moves st hist procs i m (Armed x)
    (<[myKey m := marshal l]> st) (hist ++ [(myKey m, marshal l)]) m ph'.
Proof.
  intros Hne Hs Hx Hph' Hp (Hpub & Hsx & Hns). split_and!; [done|..|done|done].
  - apply procOk_write; [|done]. intros e _ He. rewrite Hx.
    apply UnixMilli_mono; [by apply Hp|done|by apply Hns].
  - destruct Hph' as [->| ->]; [done|]. simpl. split_and!; [done..| |].
    + intros d l' Hd Hu _. rewrite lookup_insert_eq in Hd. simplify_eq.
      rewrite unmarshal_marshal in Hu. simplify_eq. lia.
    + exists l. split; [set_solver|done].
  - intros q Hq. rewrite Hq by done. done.
  - intros j mj Hj Hmj. specialize (Hne j mj Hj Hmj). split.
    + apply procOk_write. congruence.
    + intros q. apply phaseOk_write. left. congruence.
Qed.

Lemma leaseInv_run n a w w' :
  leaseAction (C := C) (Run n a) → NoDup (sessions w) → leaseInv w → act (Run n a) w = Some w' →
  leaseInv w' ∧ sessions w' = sessions w ∧ length (wProcs w') = length (wProcs w)
  ∧ ∀ i m, wProcs w !! i = Some m → fenced (lPub m) → ∃ m', wProcs w' !! i = Some m' ∧ fenced (lPub m').
Proof.
  intros Ha Hnd (Hpend & Hprocs & phs & Hphs) Hact.
  apply act_Run in Hact as (i & p & m & st' & m' & p' & Hn & Hi & Hs & ->).
  pose proof Hphs as (Hlen & Hth & _).
  destruct (lookup_lt_is_Some_2 phs n) as [ph Hph]; [rewrite Hlen; by eapply lookup_lt_Some|].
  destruct (Hth n i p ph Hn Hph) as (m0 & Hm0 & Hob & Hok). simplify_eq.
  pose proof (Hprocs i m Hi) as Hpr.
  assert (∀ j mj, j ≠ i → wProcs w !! j = Some mj → cSession (lCfg m) ≠ cSession (lCfg mj)) as Hne
    by (intros; by eapply sessions_ne).
  assert (∃ ph', delays a p = [] ∧ obeys (lCfg m) (λ _ ph, ph = Idle) ph' p'
    ∧ moves (wStore w) (wHist w) (wProcs w) i m ph st' (wHist w ++ writes a (wStore w) p) m' ph')
    as (ph' & Hdel & Hob' & (Hcfg & Hpr' & Hok' & Hsame & Hoth & Hfr & Hfen)); cycle 1.
  { assert (i < length (wProcs w))%nat by (by eapply lookup_lt_Some).
    split; [split; [|split]|split_and!].
    - cbn [wPending]. by rewrite Hpend, Hdel.
    - intros j mj. cbn [wProcs wStore wHist]. destruct (decide (j = i)) as [->|Hji].
      + rewrite list_lookup_insert_eq by (by eapply lookup_lt_Some). by intros [= <-].
      + rewrite list_lookup_insert_ne by done. intros Hj. apply (Hoth j mj Hji Hj). by eapply Hprocs.
    - exists (<[n := ph']> phs). eapply phasesOk_step; try done.
      intros j mj q Hji Hj. by apply (Hoth j mj Hji Hj).
    - unfold sessions. cbn [wProcs]. rewrite list_fmap_insert. simpl. rewrite Hcfg.
      apply list_insert_id. by rewrite list_lookup_fmap, Hi.
    - cbn [wProcs]. by rewrite length_insert.
    - intros j mj Hj Hf. cbn [wProcs]. destruct (decide (j = i)) as [->|Hji].
      + simplify_eq. exists m'. rewrite list_lookup_insert_eq by done. auto.
      + exists mj. by rewrite list_lookup_insert_ne. }
  destruct p as [r|key k|op k|pre k|k|k|T f k|T c f k|c k], a as [|ap e|e|t|b];
    try done; cbn [step] in Hs; cbn [writes delays]; rewrite ?app_nil_r.
  - simplify_eq. exists ph. eauto using moves_stay.
  - case_decide; [done|]. simplify_eq. exists ph. eauto using moves_stay.
  - (* a write that is carried out *)
    destruct (perform op (wStore w)) as [st1 r] eqn:Hperf. injection Hs as <- <- <-.
    assert ((∃ x, ph = Armed x) ∨ ∀ x, ph ≠ Armed x) as [[x ->]|Hna]
      by (destruct ph; [by right|by right|by left; eexists|by right]).
    + destruct Hob as (Hw & Hok1 & Herr).
      destruct (perform_lease _ _ _ (wStore w) Hw) as [(Hst & Hwr & e & Hr)|(l & tag & Hls & Hlx & Hst & Hwr & Hr)];
        rewrite Hperf in *; cbn [fst snd] in *; subst; rewrite Hwr, ?app_nil_r.
      * exists (Armed x). eauto using moves_stay.
      * exists (Wrote x). split_and!; [done|done|]. apply moves_write; eauto.
    + assert ((∀ n, opKey op ≠ leaseKey n) ∧ ∀ r, obeys (lCfg m) (λ _ ph, ph = Idle) ph (k r)) as [Hop Hk].
      { destruct ph as [| |x|x]; [exact Hob|exact Hob|by destruct (Hna x)|exact Hob]. }
      exists ph. split_and!; [done|apply Hk|]. apply moves_other; [|done..].
      intros n'. pose proof (perform_other op (wStore w) Hop n') as Hst. by rewrite Hperf in Hst.
  - (* a write that is reported lost *)
    injection Hs as <- <- <-.
    assert ((∃ x, ph = Armed x) ∨ ∀ x, ph ≠ Armed x) as [[x ->]|Hna]
      by (destruct ph; [by right|by right|by left; eexists|by right]).
    + destruct Hob as (Hw & Hok1 & Herr). exists (Armed x). split_and!; [done|apply Herr|].
      destruct ap; cbn [writes]; [|rewrite app_nil_r; by apply moves_stay].
      destruct (perform_lease _ _ _ (wStore w) Hw) as [(Hst & Hwr & e' & Hr)|(l & tag & Hls & Hlx & Hst & Hwr & Hr)];
        rewrite Hst, Hwr, ?app_nil_r; [by apply moves_stay|]. apply moves_write; eauto.
    + assert ((∀ n, opKey op ≠ leaseKey n) ∧ ∀ r, obeys (lCfg m) (λ _ ph, ph = Idle) ph (k r)) as [Hop Hk].
      { destruct ph as [| |x|x]; [exact Hob|exact Hob|by destruct (Hna x)|exact Hob]. }
      exists ph. split_and!; [done|apply Hk|].
      destruct ap; [by apply moves_other; [apply perform_other|..]|]. cbn [writes]. by apply moves_other.
  - simplify_eq. exists ph. eauto using moves_stay.
  - simplify_eq. exists ph. eauto using moves_stay.
  - simplify_eq. exists ph. eauto using moves_stay.
  - simplify_eq. exists ph. eauto using moves_stay.
  - destruct (Hob m eq_refl (proj1 Hpr)) as (ph' & Htr & Hob').
    destruct (f m) as [x m1]. injection Hs as <- <- <-. exists ph'. eauto using moves_trans.
  - destruct (f m) as [[x m1]|] eqn:Hf; [|done]. simpl in Hs. injection Hs as <- <- <-.
    destruct (proj2 Hob m x m1 eq_refl (proj1 Hpr) Hf) as (ph' & Htr & Hob').
    exists ph'. eauto using moves_trans.
  - destruct c; [|done]. simplify_eq. exists ph. split_and!; [done|by apply Hob|by apply moves_stay].
  - simplify_eq. exists ph. eauto using moves_stay.
Qed.

(** The sessions that a schedule starts. *)
Definition boots (xs : list (action C LeaseManager unit)) : list string :=
  omap (λ x, match x with Boot m => Some (cSession (lCfg m)) | _ => None end) xs.

Lemma leaseInv_act x w w' :
  leaseAction x → NoDup (sessions w) → leaseInv w → act x w = Some w' →
  leaseInv w' ∧ sessions w' = sessions w ++ boots [x]
  ∧ ∀ i m, wProcs w !! i = Some m → fenced (lPub m) → ∃ m', wProcs w' !! i = Some m' ∧ fenced (lPub m').
Proof.
  intros Hx Hnd Hinv Hact. destruct x as [m0|i p|n a|n].
  - injection Hact as <-. destruct Hx as [cfg ->]. destruct Hinv as (Hpend & Hprocs & phs & Hlen & Hth & Hun).
    split; [split; [done|split]|split].
    + intros i m [Hi|[_ Hi]]%lookup_app_Some; [by eapply Hprocs|].
      apply list_lookup_singleton_Some in Hi as [_ <-]. by split.
    + exists phs. split_and!; [done| |done]. intros n i p ph Hn Hph.
      destruct (Hth n i p ph Hn Hph) as (m & Hm & ?). exists m. split; [by apply lookup_app_l_Some|done].
    + unfold sessions. cbn [wProcs]. by rewrite fmap_app.
    + intros i m Hi Hf. exists m. split; [by apply lookup_app_l_Some|done].
  - cbn in Hact. destruct (wProcs w !! i) as [m|] eqn:Hi; [|done]. injection Hact as <-.
    destruct Hinv as (Hpend & Hprocs & phs & Hlen & Hth & Hun).
    split; [split; [done|split; [done|]]|split; [symmetry; apply app_nil_r|eauto]].
    exists (phs ++ [Idle]). cbn [wThreads wStore wHist wProcs]. split_and!.
    + by rewrite !length_app, Hlen.
    + intros n j q ph [Hn|[Hle Hn]]%lookup_app_Some Hph.
      * rewrite lookup_app_l in Hph by (rewrite Hlen; by eapply lookup_lt_Some). eauto.
      * rewrite lookup_app_r in Hph by lia. rewrite Hlen in Hph.
        apply list_lookup_singleton_Some in Hn as [Hz [= <- <-]].
        rewrite Hz in Hph. injection Hph as <-. exists m. split_and!; [done|by apply leaseThread_obeys|done].
    + intros n1 n2 j p1 p2 ph1 ph2 Hn1 Hn2 Hp1 Hp2 Hi1 Hi2.
      assert (∀ n ph, (phs ++ [Idle]) !! n = Some ph → ph ≠ Idle → phs !! n = Some ph) as Hold.
      { intros n ph [?|[_ Hs]]%lookup_app_Some Hne; [done|].
        by apply list_lookup_singleton_Some in Hs as [_ <-]. }
      pose proof (Hold _ _ Hp1 Hi1) as Hp1'. pose proof (Hold _ _ Hp2 Hi2) as Hp2'.
      apply lookup_lt_Some in Hp1' as Hl1. apply lookup_lt_Some in Hp2' as Hl2. rewrite Hlen in Hl1, Hl2.
      rewrite lookup_app_l in Hn1, Hn2 by done. by eapply (Hun n1 n2).
  - destruct (leaseInv_run n a w w' Hx Hnd Hinv Hact) as (Hi & Hse & _ & Hf).
    split_and!; [done|rewrite Hse; symmetry; apply app_nil_r|done].
  - cbn in Hact. destruct Hinv as (Hpend & _). by rewrite Hpend in Hact.
Qed.

Lemma boots_cons x xs : boots (x :: xs) = boots [x] ++ boots xs.
Proof. by destruct x. Qed.

Lemma leaseInv_acts xs w w' :
  Forall leaseAction xs → NoDup (sessions w ++ boots xs) → leaseInv w → acts xs w = Some w' →
  leaseInv w' ∧ sessions w' = sessions w ++ boots xs
  ∧ ∀ i m, wProcs w !! i = Some m → fenced (lPub m) → ∃ m', wProcs w' !! i = Some m' ∧ fenced (lPub m').
Proof.
  intros Hxs. revert w. induction Hxs as [|x xs Hx Hxs IH]; intros w Hnd Hinv; cbn [acts].
  - intros [= <-]. split_and!; [done|by rewrite app_nil_r|eauto].
  - destruct (act x w) as [w1|] eqn:Hact; [|done].
    rewrite boots_cons, app_assoc in Hnd. rewrite boots_cons, app_assoc. cbn [mbind option_bind].
    pose proof (proj1 (proj1 (NoDup_app _ _) Hnd)) as Hnd1. apply NoDup_app in Hnd1 as [Hnd1 _].
    destruct (leaseInv_act x w w1 Hx Hnd1 Hinv Hact) as (Hinv1 & Hse1 & Hf1).
    intros Hacts. destruct (IH w1) as (Hinv' & Hse' & Hf'); [by rewrite Hse1|done..|].
    split_and!; [done|by rewrite Hse', Hse1|]. intros i m Hi Hf.
    destruct (Hf1 i m Hi Hf) as (m1 & Hm1 & Hfm1). by eapply Hf'.
Qed.

Lemma leaseInv_empty : leaseInv emptyWorld.
Proof.
  split; [done|split; [done|]]. exists []. by split_and!.
Qed.
End fleet.

(** *** Merging a scan into the snapshot *)

(** The entries of a node, and the entry that a scan gives it. *)
Definition entriesOf (node : string) (ls : list NodeLease) : list NodeLease :=
  filter (λ l, lNode l = node) ls.

Lemma entriesOf_nodup ls : NoDup (lNode <$> ls) ↔ ∀ n, (length (entriesOf n ls) ≤ 1)%nat.
Proof.
  unfold entriesOf. induction ls as [|l ls IH]; [split; [simpl; lia|constructor]|].
  rewrite fmap_cons, NoDup_cons, IH. split.
  - intros [Hl Hls] n. rewrite filter_cons. case_decide as Hn; [|done]. subst n.
    rewrite list_filter_none; [done|]. apply Forall_forall. intros l' Hl' E. apply Hl. rewrite <-E.
    by apply list_elem_of_fmap_2.
  - intros Hls. split; [|intros n; specialize (Hls n); rewrite filter_cons in Hls; case_decide; simpl in Hls; lia].
    intros (l' & E & Hl')%list_elem_of_fmap. specialize (Hls (lNode l)).
    rewrite filter_cons, decide_True in Hls by done. simpl in Hls.
    assert (l' ∈ filter (λ l', lNode l' = lNode l) ls) as Hin by (by apply list_elem_of_filter).
    destruct (filter _ ls); [by apply elem_of_nil in Hin|simpl in Hls; lia].
Qed.

Lemma currentLease_entries n ls :
  (length (entriesOf n ls) ≤ 1)%nat → option_list (currentLease ls n) = entriesOf n ls.
Proof. unfold currentLease, entriesOf. destruct (filter _ ls) as [|l [|]]; simpl; [done|done|lia]. Qed.

Lemma currentLease_node ls n l : currentLease ls n = Some l → lNode l = n.
Proof. unfold currentLease. intros Hl%last_Some_elem_of. by apply list_elem_of_filter in Hl as [? _]. Qed.

Lemma observedAfter_insert obs n n' started :
  observedAfter obs n started = false →
  observedAfter (<[n := started]> obs) n' started = observedAfter obs n' started.
Proof.
  unfold observedAfter. intros Hn. destruct (decide (n = n')) as [<-|]; [|by rewrite lookup_insert_ne].
  rewrite lookup_insert_eq. rewrite Hn. unfold After. by apply bool_decide_eq_false; lia.
Qed.

Section merging.
Context (ls : list NodeLease) (started : time) (n : string).
Hypothesis Hone : (length (entriesOf n ls) ≤ 1)%nat.

(** What one state of the merge says about a node. *)
Definition about (x : mergeState) : list NodeLease * bool * bool :=
  (entriesOf n (mNext x), bool_decide (n ∈ mSeen x), observedAfter (mObserved x) n started).

Lemma entriesOf_app l l' : entriesOf n (l ++ l') = entriesOf n l ++ entriesOf n l'.
Proof. apply filter_app. Qed.

Lemma entriesOf_cons l ls' :
  entriesOf n (l :: ls') = if decide (lNode l = n) then l :: entriesOf n ls' else entriesOf n ls'.
Proof. unfold entriesOf. by rewrite filter_cons. Qed.

Lemma entriesOf_same l : lNode l = n → entriesOf n [l] = [l].
Proof. intros E. unfold entriesOf. by rewrite filter_cons_True. Qed.

Lemma entriesOf_other l : lNode l ≠ n → entriesOf n [l] = [].
Proof. intros E. unfold entriesOf. by rewrite filter_cons_False. Qed.

Lemma seen_same (X : gset string) : bool_decide (n ∈ {[n]} ∪ X) = true.
Proof. apply bool_decide_eq_true. set_solver. Qed.

Lemma seen_other n' (X : gset string) : n' ≠ n → bool_decide (n ∈ {[n']} ∪ X) = bool_decide (n ∈ X).
Proof. intros. apply bool_decide_ext. set_solver. Qed.

Lemma mergeScanned_other x l : lNode l ≠ n →
  about (mergeScanned ls started x l) = about x ∧ mObserved (mergeScanned ls started x l) !! n = mObserved x !! n.
Proof.
  intros Hl. unfold mergeScanned, about. case_decide; [done|].
  destruct (observedAfter (mObserved x) (lNode l) started) eqn:E; simpl.
  - destruct (currentLease ls (lNode l)) as [fresh|] eqn:Ef; simpl; rewrite seen_other by done; [|done].
    rewrite entriesOf_app, entriesOf_other, app_nil_r; [done|]. by rewrite (currentLease_node _ _ _ Ef).
  - rewrite seen_other, entriesOf_app, entriesOf_other, app_nil_r, observedAfter_insert by done.
    by rewrite lookup_insert_ne.
Qed.

Lemma mergeScanned_same x l : lNode l = n →
  about (mergeScanned ls started x l) =
    (entriesOf n (mNext x) ++
       (if decide (n ∈ mSeen x) then []
        else if observedAfter (mObserved x) n started then entriesOf n ls else [l]),
     true, observedAfter (mObserved x) n started)
  ∧ (observedAfter (mObserved x) n started = true →
     mObserved (mergeScanned ls started x l) !! n = mObserved x !! n).
Proof.
  intros Hl. unfold mergeScanned, about. rewrite Hl. case_decide as Hs.
  { rewrite app_nil_r, bool_decide_eq_true_2 by done. done. }
  destruct (observedAfter (mObserved x) n started) eqn:E; simpl.
  - rewrite <-(currentLease_entries n ls) by done.
    destruct (currentLease ls n) as [fresh|] eqn:Ef; simpl; rewrite seen_same.
    + by rewrite entriesOf_app, entriesOf_same, E by apply (currentLease_node _ _ _ Ef).
    + by rewrite app_nil_r, E.
  - by rewrite seen_same, entriesOf_app, entriesOf_same, observedAfter_insert, E.
Qed.

Lemma fold_scanned sample x :
  about (foldl (mergeScanned ls started) x sample) =
    (entriesOf n (mNext x) ++
       match entriesOf n sample with
       | l :: _ => if decide (n ∈ mSeen x) then []
                   else if observedAfter (mObserved x) n started then entriesOf n ls else [l]
       | [] => []
       end,
     bool_decide (n ∈ mSeen x ∨ entriesOf n sample ≠ []),
     observedAfter (mObserved x) n started)
  ∧ (observedAfter (mObserved x) n started = true →
     mObserved (foldl (mergeScanned ls started) x sample) !! n = mObserved x !! n).
Proof.
  revert x. induction sample as [|l sample IH]; intros x; cbn [foldl].
  { rewrite app_nil_r. split; [|done]. unfold about. do 2 f_equal. apply bool_decide_ext. by naive_solver. }
  destruct (IH (mergeScanned ls started x l)) as [-> Hobs].
  rewrite entriesOf_cons. destruct (decide (lNode l = n)) as [Hl|Hl].
  - destruct (mergeScanned_same x l Hl) as [E Ho]. unfold about in E. injection E as -> E2 E3.
    rewrite E3 in *. apply bool_decide_eq_true in E2. split; [|intros Ht; rewrite Hobs; auto].
    rewrite !(bool_decide_eq_true_2 (_ ∨ _)) by auto. f_equal. f_equal.
    destruct (entriesOf n sample); [by rewrite app_nil_r|]. by rewrite (decide_True (P := n ∈ mSeen (mergeScanned ls started x l))), app_nil_r.
  - destruct (mergeScanned_other x l Hl) as [E Ho]. unfold about in E. injection E as -> E2 E3.
    rewrite E3 in *. rewrite Ho in Hobs. split; [|done].
    assert (n ∈ mSeen (mergeScanned ls started x l) ↔ n ∈ mSeen x) as Hseen
      by (rewrite <-(bool_decide_eq_true (n ∈ mSeen x)), <-E2; symmetry; apply bool_decide_eq_true).
    apply (f_equal2 pair); [apply (f_equal2 pair)|done].
    + destruct (entriesOf n sample); [done|]. by rewrite (decide_ext _ _ _ _ Hseen).
    + apply bool_decide_ext. by rewrite Hseen.
Qed.

Lemma fold_cached floor ls' x :
  (length (entriesOf n ls') ≤ 1)%nat →
  entriesOf n (mNext (foldl (mergeCached started floor) x ls')) =
    entriesOf n (mNext x) ++
      (if decide (n ∈ mSeen x) then []
       else if observedAfter (mObserved x) n started then entriesOf n ls'
       else filter (λ l, floor < lExpiry l) (entriesOf n ls'))
  ∧ mObserved (foldl (mergeCached started floor) x ls') = mObserved x.
Proof.
  clear Hone. revert x. induction ls' as [|l ls' IH]; intros x Hlen; cbn [foldl].
  { repeat case_match; simpl; by rewrite ?app_nil_r. }
  rewrite entriesOf_cons in *. destruct (decide (lNode l = n)) as [Hl|Hl].
  - simpl in Hlen. destruct (entriesOf n ls') eqn:Ez; [|simpl in Hlen; lia].
    destruct (IH (mergeCached started floor x l)) as [-> ->]; [simpl; lia|].
    rewrite filter_cons. change (filter (λ l, floor < lExpiry l) []) with (@nil NodeLease).
    unfold mergeCached. rewrite Hl.
    destruct (decide (n ∈ mSeen x)) as [Hs|Hs].
    { rewrite bool_decide_eq_true_2 by done. simpl. by rewrite decide_True. }
    rewrite bool_decide_eq_false_2 by done. simpl.
    destruct (observedAfter (mObserved x) n started) eqn:Eo; simpl.
    + rewrite entriesOf_app, entriesOf_same, decide_True, app_nil_r by (done || set_solver). done.
    + destruct (decide (floor < lExpiry l)) as [Hf|Hf].
      * rewrite bool_decide_eq_true_2 by done. simpl.
        rewrite entriesOf_app, entriesOf_same, decide_True, app_nil_r by (done || set_solver). done.
      * rewrite bool_decide_eq_false_2 by done. rewrite decide_False, Eo by done. done.
  - destruct (IH (mergeCached started floor x l)) as [-> ->]; [done|].
    unfold mergeCached. case_match; [simpl|done].
    rewrite entriesOf_app, (entriesOf_other l), app_nil_r by done. split; [|done]. f_equal.
    by rewrite (decide_ext (n ∈ {[lNode l]} ∪ mSeen x) (n ∈ mSeen x)) by set_solver.
Qed.
End merging.

Lemma mergeSample_entries cfg sample started t s n :
  (length (entriesOf n (default [] (cached s))) ≤ 1)%nat →
  let s' := mergeSample cfg sample started t s in
  entriesOf n (default [] (cached s')) =
    (if observedAfter (observed s) n started then entriesOf n (default [] (cached s))
     else match entriesOf n sample with
          | l :: _ => [l]
          | [] => filter (λ l, UnixMilli (Add t (- knownTTL cfg)) < lExpiry l)
                    (entriesOf n (default [] (cached s)))
          end)
  ∧ (observedAfter (observed s) n started = true → observed s' !! n = observed s !! n).
Proof.
  intros Hone s'. unfold s', mergeSample. cbn [cached observed].
  set (ls := default [] (cached s)) in *. set (floor := UnixMilli _). set (x0 := MkMerge _ _ _).
  destruct (fold_scanned ls started n Hone sample x0) as [Hx Ho].
  set (x1 := foldl (mergeScanned ls started) x0 sample) in *.
  destruct (fold_cached started n floor ls x1 Hone) as [Hn Hobs].
  unfold about in Hx. injection Hx as E1 E2 E3. simpl in E1, E2, E3, Ho. rewrite Hobs. split.
  - cbn [default from_option]. unfold id. rewrite Hn, E1, E3.
    destruct (entriesOf n sample) as [|l sm].
    + rewrite decide_False; [by case_match|]. intros Hin. rewrite bool_decide_eq_true_2 in E2 by done. symmetry in E2.
      apply bool_decide_eq_true in E2 as [Hx|Hx]; [set_solver|done].
    + rewrite (decide_True (P := n ∈ mSeen x1)).
      * rewrite app_nil_r. by rewrite decide_False by set_solver.
      * rewrite (bool_decide_eq_true_2 (_ ∨ _)) in E2 by (by right). by apply bool_decide_eq_true in E2.
  - intros Ht. specialize (Ho Ht). unfold observedAfter in Ht.
    destruct (observed s !! n) as [at_|] eqn:Es; [|done].
    apply map_lookup_filter_Some. by split; [|right].
Qed.

(** ** Properties *)

(** What [Healthy] answers at its own instant. *)
Lemma Healthy_true `{Etag} `{leaseCodec} {C} t cb st m st' m' :
  alone t cb (Healthy (C := C) t) st m = Some (st', m', true) →
  ∃ e, publishedExpiry (lPub m) = Some e ∧ fenced (lPub m) = false
       ∧ mono t < mono e - margin (cTTL (lCfg m)) ∧ UnixMilli t < UnixMilli e.
Proof.
  destruct m as [cfg [[e|] [|] pb tag] sn]; cbn; try (by intros [=]).
  unfold deadlinePassed, Before. cbn. repeat (case_bool_decide; cbn); try (by intros [=]).
  intros [= _ _ Hb]. unfold Before in Hb. rewrite bool_decide_true in Hb by done. cbn in Hb.
  apply bool_decide_eq_true in Hb. exists e. split_and!; [done|done|lia|lia].
Qed.

(** C28: a node that considers itself healthy is live for its peers. In every run of
    any number of processes with pairwise different sessions, on clocks that do not step
    (wall clock and monotonic clock advance together), whatever calls fail and whichever
    writes are reported lost, if a write that was reported lost either happened at
    once or never happens: when [Healthy] says yes at an instant then a record of this
    session that has not expired was written, and as long as the bucket still holds a
    record of this session that record has not expired. A write that lands after its
    call returned is outside this theorem. *)
Theorem Healthy_live `{Etag} `{leaseCodec} {C} (xs : list (action C LeaseManager unit))
    w i m t cb st' m' :
  Forall leaseAction xs → NoDup (boots xs) → acts xs emptyWorld = Some w →
  wProcs w !! i = Some m →
  alone t cb (Healthy (C := C) t) (wStore w) m = Some (st', m', true) →
  (∃ l, (leaseKey (cNodeID (lCfg m)), marshal l) ∈ wHist w ∧ lSession l = cSession (lCfg m)
        ∧ leaseLive l t = true)
  ∧ (∀ d l, wStore w !! leaseKey (cNodeID (lCfg m)) = Some d → unmarshal d = Some l →
       lSession l = cSession (lCfg m) → leaseLive l t = true).
Proof.
  intros Hxs Hnd Hacts Hi (e & He & Hf & Hm & Hlt)%Healthy_true.
  destruct (leaseInv_acts xs emptyWorld w Hxs Hnd leaseInv_empty Hacts) as ((_ & Hprocs & _) & _ & _).
  destruct (Hprocs i m Hi) as [_ Hpub]. destruct (Hpub e He) as [Hlasts (l & Hin & Hs & Hx)].
  unfold leaseLive. split.
  - exists l. split_and!; [done..|]. apply bool_decide_eq_true. lia.
  - intros d l' Hd Hu Hs'. apply bool_decide_eq_true.
    pose proof (Hlasts d l' Hd Hu Hs'). lia.
Qed.

(** Fencing is for ever: once a process is fenced, it is fenced in every later
    state of the fleet; it never reports itself healthy again, and a publication
    it starts writes nothing and reports that it is fenced. *)
Theorem fenced_forever `{Etag} `{leaseCodec} {C} (xs ys : list (action C LeaseManager unit))
    w w' i m :
  Forall leaseAction (xs ++ ys) → NoDup (boots (xs ++ ys)) →
  acts xs emptyWorld = Some w → acts ys w = Some w' →
  wProcs w !! i = Some m → fenced (lPub m) = true →
  ∃ m', wProcs w' !! i = Some m' ∧ fenced (lPub m') = true
    ∧ ∀ t cb st load,
        (∃ m1, alone t cb (Healthy (C := C) t) st m' = Some (st, m1, false))
        ∧ (publishing (lPub m') = false →
           ∃ m1, alone t cb (Publish (C := C) load) st m' = Some (st, m1, Err ErrFenced)).
Proof.
  intros [Hxs Hys]%Forall_app Hnd Hacts Hacts' Hi Hf.
  assert (boots (xs ++ ys) = boots xs ++ boots ys) as Hb by apply omap_app.
  rewrite Hb in Hnd. pose proof (proj1 (proj1 (NoDup_app _ _) Hnd)) as Hnd1.
  destruct (leaseInv_acts xs emptyWorld w Hxs Hnd1 leaseInv_empty Hacts) as (Hinv & Hse & _).
  change (sessions w = boots xs) in Hse. rewrite <-Hse in Hnd.
  destruct (leaseInv_acts ys _ _ Hys Hnd Hinv Hacts') as (_ & _ & Hfen).
  destruct (Hfen i m Hi) as (m' & Hm' & Hf'); [by rewrite Hf|]. apply Is_true_true in Hf'.
  exists m'. split_and!; [done..|]. intros t cb st load. split.
  - unfold Healthy, expiredLocked. cbn. rewrite Hf'. cbn. eauto.
  - intros Hp. unfold Publish, publishLocked, Fenced, expiredLocked. cbn. rewrite Hp. cbn. rewrite Hf'. cbn. eauto.
Qed.

(** A slow scan never overwrites what a point read learned later: merging a scan
    keeps at most one entry per node; a node observed after the scan began keeps
    exactly its entry (or its removal) and its observation time; any other node
    takes the scan's first entry for it, and one the scan did not return keeps its
    entry until that has been expired for a whole TTL. *)
Theorem mergeSample_spec cfg sample started t s :
  NoDup (lNode <$> default [] (cached s)) →
  let s' := mergeSample cfg sample started t s in
  NoDup (lNode <$> default [] (cached s'))
  ∧ ∀ n,
    entriesOf n (default [] (cached s')) =
      (if observedAfter (observed s) n started then entriesOf n (default [] (cached s))
       else match entriesOf n sample with
            | l :: _ => [l]
            | [] => filter (λ l, UnixMilli (Add t (- knownTTL cfg)) < lExpiry l)
                      (entriesOf n (default [] (cached s)))
            end)
    ∧ (observedAfter (observed s) n started = true → observed s' !! n = observed s !! n).
Proof.
  intros Hnd s'. pose proof (proj1 (entriesOf_nodup _) Hnd) as Hone.
  assert (∀ n, _) as Hs by (intros n; exact (mergeSample_entries cfg sample started t s n (Hone n))).
  split; [|exact Hs]. apply entriesOf_nodup. intros n. unfold s'. rewrite (proj1 (Hs n)).
  specialize (Hone n). case_match; [done|]. case_match; [|simpl; lia].
  etrans; [apply length_filter|done].
Qed.

(** The scan still lists a node that a point read found gone. *)
Lemma mergeSample_spec_witness :
  let l := MkLease "n2" "s" "i" NodeLeaseLiveness "a" "u" "z" 9000 "1" (MkLoad 0 1 0 0 0 false 0 0 0 1) in
  let s := MkSnap (Some []) None false None {["n2" := MkTime 20 20]} false in
  let s' := mergeSample (MkLeaseConfig "n1" "s1" "a" "u" "z" 0 "i1") [l] (MkTime 10 10) (MkTime 30 30) s in
  cached s' = Some [] ∧ entriesOf "n2" (default [] (cached s')) = [].
Proof.
  intros l s s'. split; [vm_compute; reflexivity|].
  destruct (mergeSample_spec (MkLeaseConfig "n1" "s1" "a" "u" "z" 0 "i1") [l] (MkTime 10 10) (MkTime 30 30) s)
    as [_ Hs]; [apply NoDup_nil_2|].
  destruct (Hs "n2"%string) as [E _]. etransitivity; [exact E|]. vm_compute. reflexivity.
Defined.

(** *** A run *)

(** Records as lists of fields, for an encoding whose size is linear. *)
Definition loadFields (l : Load) : list (string + Z) :=
  [inr (OwnedCells l); inr (Weight l); inr (ResidentCells l); inr (RSSBytes l); inr (CPUPercentX100 l);
   inr (Z.b2z (Pressured l)); inr (MemoryHeadroom l); inr (ShedCells l); inr (Restoring l);
   inr (SampledMs l)].

Definition leaseFields (l : NodeLease) : list (string + Z) :=
  [inl (lNode l); inl (lSession l); inl (lInstance l); inl (lLiveness l); inl (lAdvertise l);
   inl (lPeerURL l); inl (lAZ l); inr (lExpiry l); inl (lProtoVersion l)] ++ loadFields (lLoad l).

Definition leaseOfFields (l : list (string + Z)) : option NodeLease :=
  match l with
  | [inl a; inl b; inl c; inl d; inl e; inl f; inl g; inr h; inl i; inr j; inr k; inr l; inr m; inr n;
     inr o; inr p; inr q; inr r; inr s] =>
      Some (MkLease a b c d e f g h i (MkLoad j k l m n (Z.eqb o 1) p q r s))
  | _ => None
  end.

#[global] Instance NodeLease_eq_dec : EqDecision NodeLease.
Proof.
  refine (λ l l', cast_if (decide (leaseFields l = leaseFields l'))).
  - abstract (destruct l as [?????????[?????[]????]], l' as [?????????[?????[]????]];
      cbn in *; simplify_eq; congruence).
  - abstract congruence.
Defined.
#[global] Instance NodeLease_countable : Countable NodeLease.
Proof. refine (inj_countable leaseFields leaseOfFields _). by intros [?????????[?????[]????]]. Defined.

Definition demoConfig : leaseConfig := MkLeaseConfig "n1" "s1" "a" "u" "z" (10 * Second) "i1".
Definition demoLoad : Load := MkLoad 0 1 0 0 0 false 0 0 0 1.
Definition at_ (s : Z) : time := MkTime (s * Second) (s * Second).

(** The replies that carry one [Publish] through at instant [t]. *)
Definition publishReplies (t : time) : list reply :=
  [RDone; RDone; RTime t; RDone; RBool false; RTime t; RDone; RDone; RDone; RTime t; RDone; RDone;
   RTime t; RDone; RDone].

Definition demoRun : list (action Empty_set LeaseManager unit) :=
  Boot (NewManager demoConfig)
    :: Spawn 0 (@Publish (bitCodec NodeLease) Empty_set demoLoad ≫= λ _, mret tt)
    :: (Run 0 <$> publishReplies (at_ 1)).

Definition demoWorld : world Empty_set LeaseManager unit :=
  default emptyWorld (@acts contentTag _ _ _ demoRun emptyWorld).

Lemma demoRun_ok : Forall (@leaseAction (bitCodec NodeLease) Empty_set) demoRun.
Proof.
  unfold demoRun. constructor; [by exists demoConfig|]. constructor; [apply run_Publish|].
  repeat constructor.
Qed.

Lemma demoRun_world : @acts contentTag _ _ _ demoRun emptyWorld = Some demoWorld.
Proof.
  unfold demoWorld. destruct (acts demoRun emptyWorld) eqn:E; [done|]. vm_compute in E. discriminate E.
Qed.

Definition demoManager : LeaseManager := default (NewManager demoConfig) (wProcs demoWorld !! 0%nat).

Lemma Healthy_live_witness :
  ∃ l, (leaseKey "n1", @marshal _ (bitCodec NodeLease) l) ∈ wHist demoWorld ∧ leaseLive l (at_ 5) = true.
Proof.
  destruct (@Healthy_live contentTag (bitCodec NodeLease) Empty_set demoRun demoWorld 0 demoManager
    (at_ 5) (λ _, true) (wStore demoWorld) demoManager) as [(l & Hin & _ & Hl) _].
  - apply demoRun_ok.
  - apply NoDup_singleton.
  - apply demoRun_world.
  - vm_compute. reflexivity.
  - vm_compute. reflexivity.
  - exists l. split; [exact Hin|exact Hl].
Defined.

(** The lease lapses before the process looks at the clock again. *)
Definition demoLapse : list (action Empty_set LeaseManager unit) :=
  [Spawn 0 (@Fenced Empty_set ≫= λ _, mret tt); Run 1 (RTime (at_ 12)); Run 1 RDone].

Definition demoFenced : world Empty_set LeaseManager unit :=
  default emptyWorld (@acts contentTag _ _ _ demoLapse demoWorld).

Lemma fenced_forever_witness :
  ∃ m', wProcs demoFenced !! 0%nat = Some m' ∧ fenced (lPub m') = true.
Proof.
  destruct (@fenced_forever contentTag (bitCodec NodeLease) Empty_set (demoRun ++ demoLapse) [] demoFenced
    demoFenced 0 (default demoManager (wProcs demoFenced !! 0%nat))) as (m' & Hm' & Hf & _).
  - rewrite app_nil_r. apply Forall_app. split; [apply demoRun_ok|].
    repeat constructor.
  - apply NoDup_singleton.
  - vm_compute. reflexivity.
  - reflexivity.
  - vm_compute. reflexivity.
  - vm_compute. reflexivity.
  - exists m'. split; [exact Hm'|exact Hf].
Defined.
