(* ===== verification/Decimal.v ===== *)
(** * Decimal text ([strconv], [strings.TrimSpace])

    Counters are stored in objects as decimal text. [FormatUint] writes one,
    [TrimSpace] and [ParseUint] read it back. The loops are those of the standard
    library for base 10 and 64 bits; the white space is the set of
    [unicode.IsSpace], by its UTF-8 encodings. *)

From S2P Require Import Prelude.

Definition maxUint64 : Z := 2 ^ 64 - 1.

Fixpoint formatDigits (fuel : nat) (n : Z) (acc : bytes) : bytes :=
  match fuel with
  | O => acc
  | S fuel =>
      let acc := z2b (48 + n mod 10) :: acc in
      if decide (n < 10) then acc else formatDigits fuel (n / 10) acc
  end.

(** Twenty digits hold every 64-bit number. *)
Definition FormatUint (n : Z) : bytes := formatDigits 20 n [].

Definition isDigit (b : byte) : bool := bool_decide (48 ≤ b2z b ≤ 57).

Fixpoint parseDigits (l : bytes) (n : Z) : option Z :=
  match l with
  | [] => Some n
  | b :: l =>
      if isDigit b then
        let n := n * 10 + (b2z b - 48) in
        if decide (maxUint64 < n) then None else parseDigits l n
      else None
  end.

(** Syntax and range errors are not told apart by the callers. *)
Definition ParseUint (l : bytes) : option Z :=
  match l with [] => None | _ => parseDigits l 0 end.

(** [unicode.IsSpace] in UTF-8 *)
Definition spaces : list bytes :=
  [[x09]; [x0a]; [x0b]; [x0c]; [x0d]; [x20]; [xc2; x85]; [xc2; xa0]; [xe1; x9a; x80];
   [xe2; x80; x80]; [xe2; x80; x81]; [xe2; x80; x82]; [xe2; x80; x83]; [xe2; x80; x84];
   [xe2; x80; x85]; [xe2; x80; x86]; [xe2; x80; x87]; [xe2; x80; x88]; [xe2; x80; x89];
   [xe2; x80; x8a]; [xe2; x80; xa8]; [xe2; x80; xa9]; [xe2; x80; xaf]; [xe2; x81; x9f];
   [xe3; x80; x80]].

Fixpoint trimLeading (fuel : nat) (sps : list bytes) (l : bytes) : bytes :=
  match fuel with
  | O => l
  | S fuel =>
      match list_find (λ sp, sp `prefix_of` l) sps with
      | Some (_, sp) => trimLeading fuel sps (drop (length sp) l)
      | None => l
      end
  end.

(** Each round removes at least a byte. *)
Definition trimLeft (l : bytes) : bytes := trimLeading (length l) spaces l.
Definition trimRight (l : bytes) : bytes :=
  reverse (trimLeading (length l) (reverse <$> spaces) (reverse l)).
Definition TrimSpace (l : bytes) : bytes := trimRight (trimLeft l).

(** ** Round trip *)

Lemma formatDigits_digits fuel n acc :
  0 ≤ n → Forall isDigit acc → Forall isDigit (formatDigits fuel n acc).
Proof.
  revert n acc. induction fuel as [|fuel IH]; intros n acc Hn Hacc; [done|].
  assert (isDigit (z2b (48 + n mod 10))) as Hd.
  { pose proof (Z.mod_pos_bound n 10 ltac:(lia)). unfold isDigit. apply bool_decide_pack.
    rewrite b2z_z2b. unfold u8. rewrite (Z.mod_small (48 + _)); lia. }
  cbn [formatDigits]. case_decide; [by constructor|]. apply IH; [apply Z.div_pos; lia|by constructor].
Qed.

Lemma formatDigits_nonempty fuel n acc : fuel ≠ O ∨ acc ≠ [] → formatDigits fuel n acc ≠ [].
Proof.
  revert n acc. induction fuel as [|fuel IH]; intros n acc; simpl; [tauto|]. intros _.
  case_decide; [done|]. apply IH. by right.
Qed.

Lemma parseDigits_format fuel n acc :
  0 ≤ n ≤ maxUint64 → n < 10 ^ Z.of_nat fuel →
  parseDigits (formatDigits fuel n acc) 0 = parseDigits acc n.
Proof.
  revert n acc. induction fuel as [|fuel IH]; intros n acc Hn Hlt.
  { change (10 ^ Z.of_nat 0) with 1 in Hlt. by replace n with 0 by lia. }
  pose proof (Z.mod_pos_bound n 10 ltac:(lia)) as Hm. pose proof (Z.div_mod n 10 ltac:(lia)) as Hdm.
  assert (∀ k, 0 ≤ k → k * 10 + n mod 10 = n →
    parseDigits (z2b (48 + n mod 10) :: acc) k = parseDigits acc n) as Hstep.
  { intros k Hk Hkn. cbn [parseDigits]. unfold isDigit.
    rewrite b2z_z2b. unfold u8. rewrite (Z.mod_small (48 + _)) by lia.
    rewrite bool_decide_eq_true_2 by lia. cbn beta iota zeta.
    replace (k * 10 + (48 + n mod 10 - 48)) with n by lia. by rewrite decide_False by lia. }
  cbn [formatDigits]. case_decide as H10.
  - apply Hstep; [lia|]. rewrite Z.mod_small; lia.
  - rewrite Nat2Z.inj_succ, Z.pow_succ_r in Hlt by lia.
    assert (n / 10 < 10 ^ Z.of_nat fuel) by (apply Z.div_lt_upper_bound; lia).
    rewrite IH by lia. apply Hstep; lia.
Qed.

Lemma trimLeading_digits fuel sps l :
  Forall (λ sp, match sp with [] => False | b :: _ => isDigit b = false end) sps →
  Forall isDigit l → trimLeading fuel sps l = l.
Proof.
  intros Hsps Hl. destruct fuel as [|fuel]; [done|]. simpl.
  destruct (list_find _ sps) as [[i sp]|] eqn:E; [|done].
  apply list_find_Some in E as (Hi & [k ->] & _).
  pose proof (Forall_lookup_1 _ _ _ _ Hsps Hi) as Hsp. destruct sp as [|b sp]; [done|].
  inversion_clear Hl as [|?? Hb _]. by rewrite Hsp in Hb.
Qed.

Ltac no_digit :=
  match goal with |- Forall _ ?l => let l' := eval vm_compute in l in change l with l' end;
  repeat (apply Forall_cons_2; [reflexivity|]); apply Forall_nil_2.

Lemma ParseUint_FormatUint n : 0 ≤ n ≤ maxUint64 → ParseUint (FormatUint n) = Some n.
Proof.
  intros Hn. unfold FormatUint, ParseUint. pose proof (formatDigits_nonempty 20 n [] ltac:(by left)) as Hne.
  transitivity (parseDigits (formatDigits 20 n []) 0); [by destruct (formatDigits 20 n [])|].
  rewrite parseDigits_format; [done|done|]. unfold maxUint64 in Hn. change (10 ^ Z.of_nat 20) with (10 ^ 20). lia.
Qed.

(** What [FormatUint] writes is read back, also with the trimming in between. *)
Lemma ParseUint_Format n : 0 ≤ n ≤ maxUint64 → ParseUint (TrimSpace (FormatUint n)) = Some n.
Proof.
  intros Hn. pose proof (formatDigits_digits 20 n [] (proj1 Hn) (Forall_nil_2 _)) as Hd.
  unfold TrimSpace, trimRight, trimLeft, FormatUint.
  rewrite (trimLeading_digits _ spaces); [|no_digit|done].
  rewrite trimLeading_digits; [|no_digit|by apply Forall_reverse].
  rewrite reverse_involutive. by apply ParseUint_FormatUint.
Qed.

Lemma parseDigits_range l n m : 0 ≤ n ≤ maxUint64 → parseDigits l n = Some m → 0 ≤ m ≤ maxUint64.
Proof.
  revert n. induction l as [|b l IH]; intros n Hn; simpl; [by intros [= <-]|].
  destruct (isDigit b) eqn:Hb; [|done]. apply bool_decide_eq_true in Hb.
  case_decide; [done|]. apply IH. lia.
Qed.

Lemma ParseUint_range l n : ParseUint l = Some n → 0 ≤ n ≤ maxUint64.
Proof.
  destruct l as [|b l]; [done|]. unfold ParseUint. apply parseDigits_range. unfold maxUint64. lia.
Qed.
