(* ===== verification/Owner.v ===== *)
(** * Cell ownership ([internal/owner]: [owner.go], [as.go])

    A cell has one owner record in the bucket and, beside it, a generation
    counter that is never deleted. A claim first bumps the counter and then
    writes the record with the epoch it got; the record is created when there is
    none and replaced by compare-and-set when its holder is dead. The manager's
    caches and the routing built on them ([route.go]) are in [Route.v]; the state
    of both, and [invalidateLocked], which every claim and release calls, are here.

    The theorems speak about any number of processes and threads, with lost,
    doubled-up and late bucket writes: the generations written for a cell strictly
    increase; an epoch belongs to one holder for ever; a record is replaced only
    under a larger epoch or by its own holder; and, for a claim on its own, every
    branch of [ClaimWithReset].

    The callbacks ([BeforeTakeover], [BeforeRelease], the reset and [Touch]) answer
    with success or failure; what they do to other objects is not part of this
    component. The lease view is the process's own lease manager, as the agent
    wires it, or absent. *)

From S2P Require Import Prelude Decimal Cell Bucket Fleet Objects Lease.

(** ** Errors and records *)

Inductive ownerError : Set :=
| ErrUnowned
| ErrOwnerLive
| ErrEpochMismatch
| ErrNotOwner
| ErrGenContention
| ErrGenCorrupt
| ErrCorruptRecord
| ErrBucket (e : bucketError)
| ErrLease (e : getError)
| ErrCallback
| ErrCtxDone.

(** A failed claim may still return the record it found. *)
Definition claimError : Set := ownerError * option Owner.

Record cachedOwner := MkCached {
  coOwner : Owner;
  coEtag : string;
  coAt : time;
}.

Definition maxOwnerCache : Z := 4096.
Definition maxOwnerCacheRev : Z := 8192.
Definition ownerCacheIdle : Z := 10 * 60 * Second.

(** A routing hint; a zero deadline is [None]. *)
Record ownerRoute := MkRoute {
  rOwner : Owner;
  rEtag : string;
  rUntil : option time;
  rWallExpiry : Z;
  rLocal : bool;
}.

(** A lookup under way: [fResult] is filled in when [done] is closed, with the
    answer and the [retry] flag. *)
Record routeFlight := MkFlight {
  fRev : Z;
  fResult : option (result ownerError (Owner * string) * bool);
}.

Record OwnedScope := MkOwned {
  osScope : Scope;
  osEpoch : Z;
}.

(** ** The manager *)

(** The fields set at construction; the functions among them by their presence. *)
Record ownerConfig := MkOwnerConfig {
  ocNodeID : string;
  ocSession : string;
  ocAdvertise : string;
  ocAdminAdvertise : string;
  ocRole : Role;
  ocOwnerTTL : Z;
  ocLeaseView : bool;
  ocBeforeTakeover : bool;
  ocBeforeRelease : bool;
  ocToucher : bool;
}.

(** What [mu] protects. The flights are kept by number, as the waiters hold pointers to
    them; [ranges] counts the iterations over maps. *)
Record ownerCaches := MkCaches {
  cache : gmap string cachedOwner;
  cacheRev : gmap string Z;
  cacheRevAt : gmap string time;
  cacheEpoch : Z;
  cachePending : gmap string Z;
  guards : gmap string Z;
  routes : gmap string ownerRoute;
  routeFlights : gmap string nat;
  flights : list routeFlight;
  releasing : gmap string Z;
  ranges : nat;
}.

Record ownerStats := MkOwnerStats {
  epochBumps : Z;
  takeoverSuccess : Z;
  takeoverFailed : Z;
  takeoverBlocked : Z;
}.

Record OwnerManager := MkOM {
  oCfg : ownerConfig;
  oCaches : ownerCaches;
  oClaims : gset string;
  oOwned : gmap string OwnedScope;
  oTouched : gmap string time;
  oStats : ownerStats;
}.

Definition newCaches : ownerCaches := MkCaches ∅ ∅ ∅ 0 ∅ ∅ ∅ ∅ [] ∅ 0.
Definition newOwnerManager (cfg : ownerConfig) : OwnerManager :=
  MkOM cfg newCaches ∅ ∅ ∅ (MkOwnerStats 0 0 0 0).

(** A process: its owner manager and its lease manager. *)
Record process := MkProc {
  pOwner : OwnerManager;
  pLease : LeaseManager;
}.

Definition setCaches (x : ownerCaches) (m : OwnerManager) : OwnerManager :=
  MkOM (oCfg m) x (oClaims m) (oOwned m) (oTouched m) (oStats m).
Definition setClaims (x : gset string) (m : OwnerManager) : OwnerManager :=
  MkOM (oCfg m) (oCaches m) x (oOwned m) (oTouched m) (oStats m).
Definition setOwned (x : gmap string OwnedScope) (m : OwnerManager) : OwnerManager :=
  MkOM (oCfg m) (oCaches m) (oClaims m) x (oTouched m) (oStats m).
Definition setTouched (x : gmap string time) (m : OwnerManager) : OwnerManager :=
  MkOM (oCfg m) (oCaches m) (oClaims m) (oOwned m) x (oStats m).
Definition addStats (bumps success failed blocked : Z) (m : OwnerManager) : OwnerManager :=
  let s := oStats m in
  MkOM (oCfg m) (oCaches m) (oClaims m) (oOwned m) (oTouched m)
    (MkOwnerStats (i64 (epochBumps s + bumps)) (i64 (takeoverSuccess s + success))
       (i64 (takeoverFailed s + failed)) (i64 (takeoverBlocked s + blocked))).

(** ** Caches *)

(** The order in which a [range] over a map visits its keys is not specified: the
    [n]-th such statement of a process visits them in the order [visit n]. *)
Class MapOrder := {
  visit : nat → list string → list string;
  visit_perm n l : visit n l ≡ₚ l;
}.

Section caches.
Context `{MapOrder}.

Definition setCache (c : gmap string cachedOwner) (x : ownerCaches) : ownerCaches :=
  MkCaches c (cacheRev x) (cacheRevAt x) (cacheEpoch x) (cachePending x) (guards x) (routes x)
    (routeFlights x) (flights x) (releasing x) (ranges x).
Definition setRevs (rev : gmap string Z) (at_ : gmap string time) (epoch : Z) (x : ownerCaches) :
    ownerCaches :=
  MkCaches (cache x) rev at_ epoch (cachePending x) (guards x) (routes x)
    (routeFlights x) (flights x) (releasing x) (ranges x).
Definition setPending (p : gmap string Z) (x : ownerCaches) : ownerCaches :=
  MkCaches (cache x) (cacheRev x) (cacheRevAt x) (cacheEpoch x) p (guards x) (routes x)
    (routeFlights x) (flights x) (releasing x) (ranges x).
Definition setGuards (g : gmap string Z) (x : ownerCaches) : ownerCaches :=
  MkCaches (cache x) (cacheRev x) (cacheRevAt x) (cacheEpoch x) (cachePending x) g (routes x)
    (routeFlights x) (flights x) (releasing x) (ranges x).
Definition setRoutes (r : gmap string ownerRoute) (x : ownerCaches) : ownerCaches :=
  MkCaches (cache x) (cacheRev x) (cacheRevAt x) (cacheEpoch x) (cachePending x) (guards x) r
    (routeFlights x) (flights x) (releasing x) (ranges x).
Definition setFlights (rf : gmap string nat) (fs : list routeFlight) (x : ownerCaches) : ownerCaches :=
  MkCaches (cache x) (cacheRev x) (cacheRevAt x) (cacheEpoch x) (cachePending x) (guards x) (routes x)
    rf fs (releasing x) (ranges x).
Definition setReleasing (r : gmap string Z) (x : ownerCaches) : ownerCaches :=
  MkCaches (cache x) (cacheRev x) (cacheRevAt x) (cacheEpoch x) (cachePending x) (guards x) (routes x)
    (routeFlights x) (flights x) r (ranges x).
Definition countRange (x : ownerCaches) : ownerCaches :=
  MkCaches (cache x) (cacheRev x) (cacheRevAt x) (cacheEpoch x) (cachePending x) (guards x) (routes x)
    (routeFlights x) (flights x) (releasing x) (S (ranges x)).

(** [for key := range m] *)
Definition mapKeys {V} (m : gmap string V) (x : ownerCaches) : list string :=
  visit (ranges x) (map_to_list m).*1.

(** A missing entry of a counter map reads as zero. *)
Definition count (m : gmap string Z) (key : string) : Z := default 0 (m !! key).

(** The counter after a decrement: removed when it reaches zero. *)
Definition countDown (m : gmap string Z) (key : string) : gmap string Z :=
  if decide (0 < count m key - 1) then <[key := count m key - 1]> m else delete key m.

Definition finishResolveLocked (key : string) (x : ownerCaches) : ownerCaches :=
  setPending (countDown (cachePending x) key) x.

Definition cacheKeyActiveLocked (x : ownerCaches) (key : string) : bool :=
  bool_decide (is_Some (cache x !! key)) || bool_decide (is_Some (routes x !! key))
  || bool_decide (is_Some (routeFlights x !! key)) || bool_decide (0 < count (releasing x) key)
  || bool_decide (0 < count (cachePending x) key) || bool_decide (0 < count (guards x) key).

Definition dropRevLocked (key : string) (x : ownerCaches) : ownerCaches :=
  setRevs (delete key (cacheRev x)) (delete key (cacheRevAt x)) (u64 (cacheEpoch x + 1)) x.

Fixpoint evict (limit : Z) (keys : list string) (c : gmap string cachedOwner) : gmap string cachedOwner :=
  match keys with
  | [] => c
  | k :: keys => if decide (Z.of_nat (size c) ≤ limit) then c else evict limit keys (delete k c)
  end.

Definition trimCache (t : time) (x : ownerCaches) : ownerCaches :=
  if decide (maxOwnerCache < Z.of_nat (size (cache x))) then
    let c := filter (λ '(_, c), mono t - mono (coAt c) < ownerCacheIdle) (cache x) in
    countRange (setCache (evict maxOwnerCache (mapKeys c x) c) x)
  else x.

(** A revision without a time is as old as the zero time. *)
Definition idleRev (t : time) (x : ownerCaches) (key : string) : bool :=
  match cacheRevAt x !! key with
  | Some a => bool_decide (ownerCacheIdle ≤ mono t - mono a)
  | None => true
  end.

Definition dropIdle (t : time) (x : ownerCaches) (key : string) : ownerCaches :=
  if cacheKeyActiveLocked x key then x
  else if idleRev t x key then dropRevLocked key x else x.

Definition dropOver (x : ownerCaches) (key : string) : ownerCaches :=
  if decide (Z.of_nat (size (cacheRev x)) ≤ maxOwnerCacheRev) then x
  else if cacheKeyActiveLocked x key then x else dropRevLocked key x.

Definition trimRevs (t : time) (x : ownerCaches) : ownerCaches :=
  if decide (maxOwnerCacheRev < Z.of_nat (size (cacheRev x))) then
    let x := countRange (foldl (dropIdle t) x (mapKeys (cacheRev x) x)) in
    countRange (foldl dropOver x (mapKeys (cacheRev x) x))
  else x.

Definition trimCachesLocked (t : time) (x : ownerCaches) : ownerCaches := trimRevs t (trimCache t x).

(** [at_] and [t] are the two readings of the clock. *)
Definition invalidateLocked (key : string) (at_ t : time) (x : ownerCaches) : ownerCaches :=
  let x := setRoutes (delete key (routes x)) (setCache (delete key (cache x)) x) in
  trimCachesLocked t
    (setRevs (<[key := u64 (count (cacheRev x) key + 1)]> (cacheRev x))
       (<[key := at_]> (cacheRevAt x)) (cacheEpoch x) x).

Definition beginRelease (key : string) (at_ t : time) (x : ownerCaches) : ownerCaches :=
  invalidateLocked key at_ t
    (setReleasing (<[key := count (releasing x) key + 1]> (releasing x)) x).

Definition endRelease (key : string) (at_ t : time) (x : ownerCaches) : ownerCaches :=
  let n := count (releasing x) key - 1 in
  invalidateLocked key at_ t
    (setReleasing (if decide (n = 0) then delete key (releasing x) else <[key := n]> (releasing x)) x).
End caches.

(** ** Programs *)

(** The functions the manager is given, and the store's [Touch]. *)
Inductive ownerCall : Set :=
| CallBeforeTakeover (o : Owner)
| CallReset (s : Scope)
| CallBeforeRelease (s : Scope) (epoch : Z)
| CallTouch (key : string).

(** [Key] and [genKey] *)
Definition ownerKey (s : Scope) : string := scopeKey s +:+ "/owner.json".
Definition genKey (s : Scope) : string := scopeKey s +:+ "/owner-gen".

(** [DOScope] *)
Definition DOScope (ns worker class : string) (shard : Z) : Scope :=
  MkScope ns "__do__" (worker +:+ "~" +:+ class +:+ "~shard" +:+ fmt_d shard).

(** [json.Marshal] and [json.Unmarshal] of an owner record *)
Abbreviation ownerCodec := (Codec Owner).

(** [MarshalOwner] *)
Definition MarshalOwner `{ownerCodec} (o : Owner) : bytes := marshal (stampOwner o).

Definition ownerFor (cfg : ownerConfig) (epoch : Z) (t : time) (node advertise : string) (role : Role)
    (ttl : Z) : Owner :=
  MkOwner node role (ocSession cfg) epoch (UnixMilli (Add t ttl)) EmptyString advertise
    (ocAdminAdvertise cfg) ProtoVersion.

Definition newOwner (cfg : ownerConfig) (epoch : Z) (t : time) : Owner :=
  MkOwner (ocNodeID cfg) (ocRole cfg) (ocSession cfg) epoch (UnixMilli (Add t (ocOwnerTTL cfg)))
    "node-lease" (ocAdvertise cfg) (ocAdminAdvertise cfg) ProtoVersion.

Definition setExpiry (expiry : Z) (o : Owner) : Owner :=
  MkOwner (oNode o) (oRole o) (oSession o) (oEpoch o) expiry (oLiveness o) (oAddress o)
    (oAdminAddress o) (oProtoVersion o).
Definition setAdminAddress (a : string) (o : Owner) : Owner :=
  MkOwner (oNode o) (oRole o) (oSession o) (oEpoch o) (oExpiry o) (oLiveness o) (oAddress o) a
    (oProtoVersion o).

(** The record belongs to this process. *)
Definition isOwn (cfg : ownerConfig) (o : Owner) : bool :=
  bool_decide (oNode o = ocNodeID cfg ∧ oSession o = ocSession cfg).

(** The next generation after [g] above [floor]. *)
Definition bump (g floor : Z) : Z :=
  let next := u64 (g + 1) in
  if decide (next ≤ floor) then u64 (floor + 1) else next.

Section programs.
Context `{MapOrder} `{leaseCodec} `{ownerCodec}.
Abbreviation prog := (prog ownerCall process).

Definition withLease {R} (p : Fleet.prog ownerCall LeaseManager R) : prog R :=
  zoom pLease (λ l m, MkProc (pOwner m) l) p.

Definition onOwner (f : OwnerManager → OwnerManager) : prog unit :=
  update (λ m, MkProc (f (pOwner m)) (pLease m)).
Definition onCaches (f : ownerCaches → ownerCaches) : prog unit :=
  onOwner (λ m, setCaches (f (oCaches m)) m).

Definition ownerCfg : prog ownerConfig := atomic (λ m, (oCfg (pOwner m), m)).
Definition leaseCfg : prog leaseConfig := atomic (λ m, (lCfg (pLease m), m)).

Definition ClaimStats : prog ownerStats := atomic (λ m, (oStats (pOwner m), m)).

Definition Invalidate (s : Scope) : prog unit :=
  at_ ← now; t ← now; onCaches (invalidateLocked (scopeString s) at_ t).

Definition Resolve (s : Scope) : prog (result ownerError (Owner * string)) :=
  r ← getObject (ownerKey s);
  mret (match r with
        | Err ErrNotFound => Err ErrUnowned
        | Err e => Err (ErrBucket e)
        | Ok (data, e) =>
            match unmarshal data with Some o => Ok (o, e) | None => Err ErrCorruptRecord end
        end).

(** The lease proves the record's session live. *)
Definition proves (l : option NodeLease) (o : Owner) (t : time) : bool :=
  match l with
  | Some l => leaseLive l t && bool_decide (lSession l = oSession o)
  | None => false
  end.

Definition Live (o : Owner) (t : time) : prog (result ownerError bool) :=
  if decide (oLiveness o ≠ "node-lease") then mret (Ok (negb (Expired o (UnixMilli t))))
  else
    cfg ← ownerCfg; lcfg ← leaseCfg;
    if ocLeaseView cfg && isOwn cfg o && bool_decide (cNodeID lcfg = ocNodeID cfg)
       && bool_decide (cSession lcfg = ocSession cfg)
    then h ← withLease (Healthy t); mret (Ok h)
    else if negb (ocLeaseView cfg) then mret (Ok (bool_decide (UnixMilli t < oExpiry o)))
    else
      r ← withLease (leaseOf (oNode o));
      match r with
      | Err e => mret (Err (ErrLease e))
      | Ok l =>
          if proves l o t then mret (Ok true)
          else
            r ← withLease (leaseFresh (oNode o));
            mret (match r with Err e => Err (ErrLease e) | Ok l => Ok (proves l o t) end)
      end.

Definition liveFresh (o : Owner) (t : time) : prog (result ownerError bool) := Live o t.

Definition Forget (s : Scope) (epoch : Z) : prog unit :=
  onOwner (λ m,
    match oOwned m !! scopeString s with
    | Some cur => if decide (epoch = 0 ∨ osEpoch cur = epoch)
                  then setOwned (delete (scopeString s) (oOwned m)) m else m
    | None => m
    end).

Definition rememberOwned (s : Scope) (epoch : Z) : prog unit :=
  onOwner (λ m, setOwned (<[scopeString s := MkOwned s epoch]> (oOwned m)) m).

Definition forgetOwned (s : Scope) : prog unit :=
  _ ← onOwner (λ m, setOwned (delete (scopeString s) (oOwned m)) m);
  onOwner (λ m, setTouched (delete (scopeString s) (oTouched m)) m).

Definition OwnedScopes : prog (list OwnedScope) :=
  atomic (λ m, (omap (λ k, oOwned (pOwner m) !! k) (mapKeys (oOwned (pOwner m)) (oCaches (pOwner m))) : list OwnedScope,
    MkProc (setCaches (countRange (oCaches (pOwner m))) (pOwner m)) (pLease m))).

Definition touchInterval : Z := 30 * 60 * Second.

Definition touchDue (m : OwnerManager) (key : string) (t : time) : bool :=
  match oTouched m !! key with
  | Some last => bool_decide (touchInterval ≤ mono t - mono last)
  | None => true
  end.

Definition touchOwnerSegment (s : Scope) (t : time) : prog unit :=
  cfg ← ownerCfg;
  if negb (ocToucher cfg) then mret tt
  else
    due ← atomic (λ m, let due := touchDue (pOwner m) (scopeString s) t in
      (due, if due then MkProc (setTouched (<[scopeString s := t]> (oTouched (pOwner m))) (pOwner m))
                          (pLease m) else m));
    if due : bool then _ ← callback (CallTouch (ownerKey s)); mret tt else mret tt.

(** *** Generations ([as.go]) *)

Fixpoint nextEpochLoop (attempts : nat) (s : Scope) (floor : Z) : prog (result ownerError Z) :=
  match attempts with
  | O => mret (Err ErrGenContention)
  | S attempts =>
      r ← getObject (genKey s);
      match r with
      | Ok (data, e) =>
          match ParseUint (TrimSpace data) with
          | None => mret (Err ErrGenCorrupt)
          | Some g =>
              w ← putObject (CAS (genKey s) (FormatUint (bump g floor)) e);
              match w with
              | Ok _ => _ ← onOwner (addStats 1 0 0 0); mret (Ok (bump g floor))
              | Err _ => nextEpochLoop attempts s floor
              end
          end
      | Err ErrNotFound =>
          w ← putObject (ConditionalCreate (genKey s) (FormatUint (bump 0 floor)));
          match w with
          | Ok _ => _ ← onOwner (addStats 1 0 0 0); mret (Ok (bump 0 floor))
          | Err _ => nextEpochLoop attempts s floor
          end
      | Err e => mret (Err (ErrBucket e))
      end
  end.

Definition nextEpoch (s : Scope) (floor : Z) : prog (result ownerError Z) := nextEpochLoop 8 s floor.

(** *** Claims *)

(** [lockClaim] waits until no claim of the scope is under way, or the context ends. *)
Definition lockClaim (key : string) : prog bool :=
  waitCtx (λ m, if decide (key ∈ oClaims (pOwner m)) then None
                else Some (MkProc (setClaims ({[key]} ∪ oClaims (pOwner m)) (pOwner m)) (pLease m))).
Definition unlockClaim (key : string) : prog unit :=
  onOwner (λ m, setClaims (oClaims m ∖ {[key]}) m).

(** A callback that is only made when it was given. *)
Definition callIf (b : bool) (c : ownerCall) : prog bool := if b then callback c else mret true.

Definition claimUnowned (s : Scope) (t : time) (reset : bool) : prog (result claimError Owner) :=
  cfg ← ownerCfg;
  g ← nextEpoch s 0;
  match g with
  | Err e => mret (Err (e, None))
  | Ok epoch =>
      ok ← callIf reset (CallReset s);
      if negb ok then mret (Err (ErrCallback, None))
      else
        let o := newOwner cfg epoch t in
        w ← putObject (ConditionalCreate (ownerKey s) (MarshalOwner o));
        match w with
        | Err e => mret (Err (ErrBucket e, None))
        | Ok _ => _ ← Invalidate s; _ ← rememberOwned s (oEpoch o); mret (Ok o)
        end
  end.

Definition claimDead (s : Scope) (t : time) (reset : bool) (cur : Owner) (e : string) :
    prog (result claimError Owner) :=
  cfg ← ownerCfg;
  let takeover := negb (isOwn cfg cur) in
  ok ← callIf (takeover && ocBeforeTakeover cfg) (CallBeforeTakeover cur);
  if negb ok then _ ← onOwner (addStats 0 0 1 0); mret (Err (ErrCallback, Some cur))
  else
    ok ← callIf reset (CallReset s);
    if negb ok then mret (Err (ErrCallback, Some cur))
    else
      g ← nextEpoch s (oEpoch cur);
      match g with
      | Err e => mret (Err (e, None))
      | Ok epoch =>
          let o := newOwner cfg epoch t in
          w ← putObject (CAS (ownerKey s) (MarshalOwner o) e);
          match w with
          | Err e => _ ← onOwner (addStats 0 0 (Z.b2z takeover) 0); mret (Err (ErrBucket e, None))
          | Ok _ =>
              _ ← onOwner (addStats 0 (Z.b2z takeover) 0 0);
              _ ← Invalidate s; _ ← rememberOwned s (oEpoch o); mret (Ok o)
          end
      end.

Definition claimLocked (s : Scope) (t : time) (reset : bool) : prog (result claimError Owner) :=
  r ← Resolve s;
  match r with
  | Err ErrUnowned => claimUnowned s t reset
  | Err e => mret (Err (e, None))
  | Ok (cur, e) =>
      cfg ← ownerCfg;
      if isOwn cfg cur then
        _ ← rememberOwned s (oEpoch cur); _ ← touchOwnerSegment s t; mret (Ok cur)
      else
        live ← liveFresh cur t;
        match live with
        | Err e => mret (Err (e, None))
        | Ok true => _ ← onOwner (addStats 0 0 0 1); mret (Err (ErrOwnerLive, Some cur))
        | Ok false => claimDead s t reset cur e
        end
  end.

Definition ClaimWithReset (s : Scope) (t : time) (reset : bool) : prog (result claimError Owner) :=
  ok ← lockClaim (scopeString s);
  if negb ok then mret (Err (ErrCtxDone, None))
  else r ← claimLocked s t reset; _ ← unlockClaim (scopeString s); mret r.

Definition Claim (s : Scope) (t : time) : prog (result claimError Owner) := ClaimWithReset s t false.

(** *** Renewal and release *)

Definition casOwner (s : Scope) (o : Owner) (e : string) : prog (result ownerError unit) :=
  w ← putObject (CAS (ownerKey s) (MarshalOwner o) e);
  mret (match w with Ok _ => Ok tt | Err e => Err (ErrBucket e) end).

(** The record with the admin address of this process, when it has one. *)
Definition readdress (cfg : ownerConfig) (o : Owner) : Owner :=
  if decide (ocAdminAdvertise cfg = EmptyString) then o else setAdminAddress (ocAdminAdvertise cfg) o.

Definition Renew (s : Scope) (epoch : Z) (t : time) : prog (result ownerError Owner) :=
  ('(cur, e) ←! Resolve s;
   cfg ← ownerCfg;
   if negb (isOwn cfg cur) || bool_decide (oEpoch cur ≠ epoch) then
     _ ← Invalidate s; mret (Err ErrEpochMismatch)
   else if decide (oLiveness cur = "node-lease") then
     if decide (ocAdminAdvertise cfg ≠ EmptyString ∧ oAdminAddress cur ≠ ocAdminAdvertise cfg) then
       let cur := setAdminAddress (ocAdminAdvertise cfg) cur in
       _ ←! casOwner s cur e;
       _ ← rememberOwned s (oEpoch cur); _ ← touchOwnerSegment s t; mret (Ok cur)
     else _ ← rememberOwned s (oEpoch cur); _ ← touchOwnerSegment s t; mret (Ok cur)
   else
     let cur := readdress cfg (setExpiry (UnixMilli (Add t (ocOwnerTTL cfg))) cur) in
     _ ←! casOwner s cur e;
     _ ← rememberOwned s (oEpoch cur); mret (Ok cur))%go.

Definition deleteOwner (s : Scope) (e : string) : prog (result ownerError unit) :=
  w ← putObject (ConditionalDelete (ownerKey s) e);
  mret (match w with
        | Ok _ => Ok tt
        | Err ErrPrecondition => Err ErrEpochMismatch
        | Err e => Err (ErrBucket e)
        end).

Definition releaseHeld (s : Scope) (epoch : Z) (skipBeforeRelease : bool) : prog (result ownerError unit) :=
  ('(cur, e) ←! Resolve s;
   cfg ← ownerCfg;
   if negb (isOwn cfg cur) || bool_decide (oEpoch cur ≠ epoch) then
     _ ← Invalidate s; mret (Err ErrEpochMismatch)
   else
     ok ← callIf (ocBeforeRelease cfg && negb skipBeforeRelease) (CallBeforeRelease s epoch);
     if negb ok then _ ← Invalidate s; mret (Err ErrCallback)
     else _ ←! deleteOwner s e; _ ← Invalidate s; _ ← forgetOwned s; mret (Ok tt))%go.

Definition release (s : Scope) (epoch : Z) (skipBeforeRelease : bool) : prog (result ownerError unit) :=
  at_ ← now; t ← now; _ ← onCaches (beginRelease (scopeString s) at_ t);
  r ← releaseHeld s epoch skipBeforeRelease;
  at_ ← now; t ← now; _ ← onCaches (endRelease (scopeString s) at_ t);
  mret r.

Definition Release (s : Scope) (epoch : Z) : prog (result ownerError unit) := release s epoch false.
Definition ReleaseForPurge (s : Scope) (epoch : Z) : prog (result ownerError unit) := release s epoch true.

(** *** On behalf of another node ([as.go]) *)

Definition ttlOr (cfg : ownerConfig) (ttl : Z) : Z := if decide (ttl ≤ 0) then ocOwnerTTL cfg else ttl.

Definition ClaimAs (s : Scope) (node advertise : string) (role : Role) (ttl : Z) (t : time) :
    prog (result claimError Owner) :=
  cfg ← ownerCfg;
  let ttl := ttlOr cfg ttl in
  r ← Resolve s;
  match r with
  | Err ErrUnowned =>
      g ← nextEpoch s 0;
      match g with
      | Err e => mret (Err (e, None))
      | Ok epoch =>
          let o := ownerFor cfg epoch t node advertise role ttl in
          w ← putObject (ConditionalCreate (ownerKey s) (MarshalOwner o));
          match w with
          | Err e => mret (Err (ErrBucket e, None))
          | Ok _ => _ ← Invalidate s; mret (Ok o)
          end
      end
  | Err e => mret (Err (e, None))
  | Ok (cur, e) =>
      if negb (bool_decide (oNode cur = node)) && negb (Expired cur (UnixMilli t)) then
        _ ← onOwner (addStats 0 0 0 1); mret (Err (ErrOwnerLive, Some cur))
      else
        let takeover := negb (bool_decide (oNode cur = node)) in
        g ← nextEpoch s (oEpoch cur);
        match g with
        | Err e => mret (Err (e, None))
        | Ok epoch =>
            let o := ownerFor cfg epoch t node advertise role ttl in
            w ← putObject (CAS (ownerKey s) (MarshalOwner o) e);
            match w with
            | Err e => _ ← onOwner (addStats 0 0 (Z.b2z takeover) 0); mret (Err (ErrBucket e, None))
            | Ok _ => _ ← onOwner (addStats 0 (Z.b2z takeover) 0 0); _ ← Invalidate s; mret (Ok o)
            end
        end
  end.

Definition RenewAs (s : Scope) (node : string) (epoch ttl : Z) (t : time) : prog (result ownerError Owner) :=
  (cfg ← ownerCfg;
   '(cur, e) ←! Resolve s;
   if decide (oNode cur ≠ node ∨ oEpoch cur ≠ epoch) then mret (Err ErrEpochMismatch)
   else
     let cur := readdress cfg (setExpiry (UnixMilli (Add t (ttlOr cfg ttl))) cur) in
     _ ←! casOwner s cur e; mret (Ok cur))%go.

Definition ReleaseAs (s : Scope) (node : string) (epoch : Z) : prog (result ownerError unit) :=
  ('(cur, e) ←! Resolve s;
   if decide (oNode cur ≠ node ∨ oEpoch cur ≠ epoch) then mret (Err ErrEpochMismatch)
   else _ ←! deleteOwner s e; _ ← Invalidate s; mret (Ok tt))%go.
End programs.

(** ** A claim on its own *)

(** The generation a bump of the counter gives; [None] when the counter is corrupt. *)
Definition bumped (st : store) (s : Scope) (floor : Z) : option Z :=
  match st !! genKey s with
  | None => Some (bump 0 floor)
  | Some d => (λ g, bump g floor) <$> ParseUint (TrimSpace d)
  end.

Section claim.
Context `{Etag} `{MapOrder} `{leaseCodec} `{ownerCodec}.

(** What a claim does to the bucket and returns, by the record it finds: [live] is the
    verdict on a record of another holder, [cb] the answers of the callbacks. *)
Definition publish (cfg : ownerConfig) (s : Scope) (t : time) (floor : Z) (st : store) :
    store * result claimError Owner :=
  match bumped st s floor with
  | None => (st, Err (ErrGenCorrupt, None))
  | Some epoch =>
      let o := newOwner cfg epoch t in
      (<[ownerKey s := MarshalOwner o]> (<[genKey s := FormatUint epoch]> st), Ok o)
  end.

Definition claimOutcome (cfg : ownerConfig) (cb : ownerCall → bool) (live : Owner → result ownerError bool)
    (s : Scope) (t : time) (reset : bool) (st : store) : store * result claimError Owner :=
  let resets := negb reset || cb (CallReset s) in
  match st !! ownerKey s with
  | None =>
      match bumped st s 0 with
      | Some epoch =>
          if resets then publish cfg s t 0 st
          else (<[genKey s := FormatUint epoch]> st, Err (ErrCallback, None))
      | None => (st, Err (ErrGenCorrupt, None))
      end
  | Some d =>
      match unmarshal d with
      | None => (st, Err (ErrCorruptRecord, None))
      | Some cur =>
          if isOwn cfg cur then (st, Ok cur)
          else match live cur with
               | Err e => (st, Err (e, None))
               | Ok true => (st, Err (ErrOwnerLive, Some cur))
               | Ok false =>
                   if (negb (ocBeforeTakeover cfg) || cb (CallBeforeTakeover cur)) && resets
                   then publish cfg s t (oEpoch cur) st
                   else (st, Err (ErrCallback, Some cur))
               end
      end
  end.

(** The verdict of [Live]. *)
Definition verdict (t : time) (cb : ownerCall → bool) (now : time) (st : store) (m : process) (o : Owner) :
    result ownerError bool :=
  match alone t cb (Live o now) st m with Some (_, _, v) => v | None => Err ErrCtxDone end.

Lemma alone_withLease {R} t cb (p : prog ownerCall LeaseManager R) st lm :
  reads p →
  ∃ lm' r, ∀ om, alone t cb (withLease p) st (MkProc om lm) = Some (st, MkProc om lm', r).
Proof.
  revert lm. induction p as [r|key k IH|op k IH|pre k IH|k IH|k IH|T f k IH|T c f k IH|c k IH];
    intros lm Hp; simpl in Hp; try done; try (apply IH; apply Hp).
  - by exists lm, r.
  - simpl. destruct (f lm) as [x lm1] eqn:E. destruct (IH x lm1 (Hp x)) as (lm' & r & Hr).
    exists lm', r. intros om. apply Hr.
Qed.

(** A lease program followed by a continuation that leaves the owner manager alone. *)
Lemma alone_lease_bind {R S} t cb (p : prog ownerCall LeaseManager R) (g : R → prog ownerCall process S) st lm
    (P : OwnerManager → Prop) :
  reads p →
  (∀ r lm1, ∃ lm' v, ∀ om, P om → alone t cb (g r) st (MkProc om lm1) = Some (st, MkProc om lm', v)) →
  ∃ lm' v, ∀ om, P om → alone t cb (withLease p ≫= g) st (MkProc om lm) = Some (st, MkProc om lm', v).
Proof.
  intros Hp Hg. destruct (alone_withLease t cb p st lm Hp) as (lm1 & r & Hr).
  destruct (Hg r lm1) as (lm' & v & Hv). exists lm', v. intros om Hom.
  change (withLease p ≫= g) with (bind (withLease p) g). rewrite alone_bind, Hr. by apply Hv.
Qed.

Lemma reads_Healthy t : reads (Healthy (C := ownerCall) t).
Proof. unfold Healthy, HealthyUntil. simpl. by intros []. Qed.

Lemma reads_leaseFresh node : reads (leaseFresh (C := ownerCall) node).
Proof.
  unfold leaseFresh, readAndApply, leaseGet, applyRead. refine (reads_bind _ _ _ _); [|by intros []]. intros t r [|]; simpl; auto.
Qed.

Lemma reads_leaseOf node : reads (leaseOf (C := ownerCall) node).
Proof. unfold leaseOf. refine (reads_bind _ _ _ _); [done|]. intros [l|]; [done|apply reads_leaseFresh]. Qed.

(** [Live] leaves the bucket and the owner manager alone and depends on the latter
    only by its configuration. *)
Lemma alone_Live t cb cfg o now st lm :
  ∃ lm' v, ∀ om, oCfg om = cfg → alone t cb (Live o now) st (MkProc om lm) = Some (st, MkProc om lm', v).
Proof.
  unfold Live. case_decide; [by exists lm; eexists|].
  assert (∀ S (g : ownerConfig → leaseConfig → prog ownerCall process S),
    (∃ lm' v, ∀ om, oCfg om = cfg → alone t cb (g cfg (lCfg lm)) st (MkProc om lm) = Some (st, MkProc om lm', v)) →
    ∃ lm' v, ∀ om, oCfg om = cfg →
      alone t cb (cfg ← ownerCfg; lcfg ← leaseCfg; g cfg lcfg) st (MkProc om lm) = Some (st, MkProc om lm', v)) as Hcfg.
  { intros S g (lm' & v & Hv). exists lm', v. intros om Hom. simpl. rewrite Hom. by apply Hv. }
  apply Hcfg. clear Hcfg. destruct (_ && _).
  - apply alone_lease_bind; [apply reads_Healthy|]. intros r lm1. by exists lm1; eexists.
  - destruct (negb _); [by exists lm; eexists|].
    apply alone_lease_bind; [apply reads_leaseOf|]. intros [l|e] lm1; [|by exists lm1; eexists].
    destruct (proves l o now); [by exists lm1; eexists|].
    apply alone_lease_bind; [apply reads_leaseFresh|]. intros r lm2. by exists lm2; eexists.
Qed.

Lemma verdict_eq t cb now st m o :
  ∃ lm', ∀ om, oCfg om = oCfg (pOwner m) →
    alone t cb (Live o now) st (MkProc om (pLease m)) = Some (st, MkProc om lm', verdict t cb now st m o).
Proof.
  destruct m as [om0 lm]. cbn [pOwner pLease].
  destruct (alone_Live t cb (oCfg om0) o now st lm) as (lm' & v & Hv).
  exists lm'. intros om Hom. rewrite (Hv om Hom). unfold verdict. by rewrite (Hv om0 eq_refl).
Qed.

Lemma ownerKey_genKey s : ownerKey s ≠ genKey s.
Proof. unfold ownerKey, genKey. intros E%(inj (String.append _)). discriminate E. Qed.

(** Alone, the first attempt to bump the counter succeeds. *)
Lemma alone_nextEpoch t cb s floor st om lm :
  alone t cb (nextEpoch s floor) st (MkProc om lm) =
  match bumped st s floor with
  | None => Some (st, MkProc om lm, Err ErrGenCorrupt)
  | Some e => Some (<[genKey s := FormatUint e]> st, MkProc (addStats 1 0 0 0 om) lm, Ok e)
  end.
Proof.
  unfold nextEpoch, bumped. cbn [nextEpochLoop mbind prog_bind bind alone getObject putObject]. unfold fetch.
  destruct (st !! genKey s) as [d|] eqn:Hg.
  - cbn [fmap option_fmap option_map]. destruct (ParseUint (TrimSpace d)) as [g|]; [|done].
    cbn [mbind prog_bind bind alone perform]. rewrite Hg. rewrite decide_True by done. done.
  - cbn [mbind prog_bind bind alone perform]. rewrite Hg. done.
Qed.

Lemma alone_callIf {R} t cb b c (g : bool → prog ownerCall process R) st m :
  alone t cb (callIf b c ≫= g) st m = alone t cb (g (negb b || cb c)) st m.
Proof. by destruct b. Qed.

(** The program ends with this outcome, the lock as it was and, on success, the scope
    remembered. *)
Definition ends (t : time) (cb : ownerCall → bool) (s : Scope) (p : prog ownerCall process (result claimError Owner))
    (st : store) (om : OwnerManager) (lm : LeaseManager) (out : store * result claimError Owner) : Prop :=
  ∃ om' lm', alone t cb p st (MkProc om lm) = Some (out.1, MkProc om' lm', out.2)
    ∧ oCfg om' = oCfg om ∧ oClaims om' = oClaims om
    ∧ ∀ o, out.2 = Ok o → oOwned om' !! scopeString s = Some (MkOwned s (oEpoch o)).

(** An error, with the manager only counting it. *)
Lemma ends_err t cb s p st om lm st' e om' lm' :
  alone t cb p st (MkProc om lm) = Some (st', MkProc om' lm', Err e) →
  oCfg om' = oCfg om → oClaims om' = oClaims om → ends t cb s p st om lm (st', Err e).
Proof. intros Hp H1' H2'. exists om', lm'. split_and!; [done..|]. intros o [=]. Qed.

Lemma ends_claimUnowned t cb s now reset st om lm live :
  st !! ownerKey s = None →
  ends t cb s (claimUnowned s now reset) st om lm (claimOutcome (oCfg om) cb live s now reset st).
Proof.
  intros Hst. unfold claimOutcome, publish. rewrite Hst.
  destruct (bumped st s 0) as [e|] eqn:Hb; [destruct (negb reset || cb (CallReset s)) eqn:Hr|].
  all: unfold ends, claimUnowned; rewrite alone_mbind; cbn [ownerCfg atomic alone mbind option_bind pOwner fst snd].
  all: rewrite alone_mbind, alone_nextEpoch, Hb; cbn [mbind option_bind]; rewrite ?alone_callIf, ?Hr; cbn [negb].
  - rewrite alone_mbind. cbn [putObject alone perform].
    rewrite lookup_insert_ne, Hst by (symmetry; apply ownerKey_genKey).
    eexists _, _. split_and!; [reflexivity|done..|]. intros o [= <-]. apply lookup_insert_eq.
  - eexists _, _. split_and!; [reflexivity|done..].
  - eexists _, _. split_and!; [reflexivity|done..].
Qed.

Lemma ends_claimDead t cb s now reset st om lm d cur live :
  st !! ownerKey s = Some d → unmarshal d = Some cur → isOwn (oCfg om) cur = false → live cur = Ok false →
  ends t cb s (claimDead s now reset cur (etag d)) st om lm
    (claimOutcome (oCfg om) cb live s now reset st).
Proof.
  intros Hst Hd Hown Hlive. unfold claimOutcome, publish. rewrite Hst, Hd, Hown, Hlive.
  unfold ends, claimDead. rewrite alone_mbind. cbn [ownerCfg atomic alone mbind option_bind pOwner fst snd].
  rewrite Hown. cbn [negb andb]. rewrite alone_callIf.
  destruct (negb (ocBeforeTakeover (oCfg om)) || _); cbn [negb andb]; last first.
  { eexists _, _. split_and!; [reflexivity|done..]. }
  rewrite alone_callIf. destruct (negb reset || _); cbn [negb]; last first.
  { eexists _, _. split_and!; [reflexivity|done..]. }
  rewrite alone_mbind, alone_nextEpoch. destruct (bumped st s (oEpoch cur)) as [e|]; cbn [mbind option_bind]; last first.
  { eexists _, _. split_and!; [reflexivity|done..]. }
  rewrite alone_mbind. cbn [putObject alone perform].
  rewrite lookup_insert_ne, Hst by (symmetry; apply ownerKey_genKey). rewrite decide_True by done.
  eexists _, _. split_and!; [reflexivity|done..|]. intros o [= <-]. apply lookup_insert_eq.
Qed.

Lemma alone_touch {R} t cb s now (g : unit → prog ownerCall process R) st om lm :
  ∃ tm, alone t cb (touchOwnerSegment s now ≫= g) st (MkProc om lm) = alone t cb (g tt) st (MkProc (setTouched tm om) lm).
Proof.
  assert (om = setTouched (oTouched om) om) as Eom by by destruct om.
  rewrite alone_mbind. unfold touchOwnerSegment. rewrite alone_mbind.
  cbn [ownerCfg atomic alone mbind option_bind pOwner].
  destruct (negb (ocToucher (oCfg om))); [exists (oTouched om); by rewrite <-Eom|].
  cbn [prog_bind bind alone pOwner pLease].
  destruct (touchDue om (scopeString s) now); [by eexists|exists (oTouched om); by rewrite <-Eom].
Qed.

Lemma ends_claimLocked t cb s now reset st om lm :
  ends t cb s (claimLocked s now reset) st om lm
    (claimOutcome (oCfg om) cb (verdict t cb now st (MkProc om lm)) s now reset st).
Proof.
  destruct (st !! ownerKey s) as [d|] eqn:Hst; last first.
  { destruct (ends_claimUnowned t cb s now reset st om lm (verdict t cb now st (MkProc om lm)) Hst)
      as (om' & lm' & E & Hrest). exists om', lm'. split; [|done]. rewrite <-E. unfold claimLocked, Resolve.
    rewrite !alone_mbind. cbn [getObject alone]. unfold fetch. by rewrite Hst. }
  destruct (unmarshal d) as [cur|] eqn:Hd; last first.
  { unfold ends, claimLocked, Resolve, claimOutcome. rewrite !alone_mbind. cbn [getObject alone]. unfold fetch.
    rewrite Hst. cbn. rewrite Hd. cbn. eexists _, _. split_and!; [reflexivity|done..]. }
  destruct (verdict_eq t cb now st (MkProc om lm) cur) as (lm1 & Hlive).
  specialize (Hlive om eq_refl). cbn [pLease] in Hlive.
  assert (alone t cb (claimLocked s now reset) st (MkProc om lm) =
    if isOwn (oCfg om) cur then
      alone t cb (_ ← rememberOwned s (oEpoch cur); _ ← touchOwnerSegment s now; mret (Ok cur)) st (MkProc om lm)
    else match verdict t cb now st (MkProc om lm) cur with
         | Err e => Some (st, MkProc om lm1, Err (e, None))
         | Ok true => Some (st, MkProc (addStats 0 0 0 1 om) lm1, Err (ErrOwnerLive, Some cur))
         | Ok false => alone t cb (claimDead s now reset cur (etag d)) st (MkProc om lm1)
         end) as E.
  { unfold claimLocked, Resolve. rewrite !alone_mbind. cbn [getObject alone]. unfold fetch. rewrite Hst.
    cbn [mbind option_bind prog_bind bind alone mret prog_ret]. rewrite Hd.
    rewrite alone_mbind. cbn [ownerCfg atomic alone mbind option_bind pOwner].
    destruct (isOwn (oCfg om) cur); [done|]. rewrite alone_mbind. unfold liveFresh. rewrite Hlive.
    cbn [mbind option_bind]. by destruct (verdict _ _ _ _ _ _) as [[]|]. }
  destruct (isOwn (oCfg om) cur) eqn:Hown; [|destruct (verdict t cb now st (MkProc om lm) cur) as [[]|e] eqn:Hv].
  - unfold claimOutcome, ends. rewrite Hst, Hd, Hown, E.
    rewrite alone_mbind. cbn [rememberOwned onOwner update alone mbind option_bind].
    destruct (alone_touch t cb s now (λ _, mret (Ok cur : result claimError Owner)) st
      (setOwned (<[scopeString s := MkOwned s (oEpoch cur)]> (oOwned om)) om) lm) as (tm & Et).
    cbn [pOwner pLease]. rewrite Et. eexists _, _. split_and!; [reflexivity|done..|].
    intros o [= <-]. apply lookup_insert_eq.
  - unfold claimOutcome, ends. rewrite Hst, Hd, Hown, Hv, E. eexists _, _. split_and!; [reflexivity|done..].
  - destruct (ends_claimDead t cb s now reset st om lm1 d cur (verdict t cb now st (MkProc om lm)) Hst Hd Hown Hv)
      as (om' & lm' & E' & Hrest). exists om', lm'. split; [|done]. by rewrite E, E'.
  - unfold claimOutcome, ends. rewrite Hst, Hd, Hown, Hv, E. eexists _, _. split_and!; [reflexivity|done..].
Qed.

(** A failed claim leaves the owner record alone. *)
Lemma claimOutcome_err cfg cb live s now reset st e :
  (claimOutcome cfg cb live s now reset st).2 = Err e →
  (claimOutcome cfg cb live s now reset st).1 !! ownerKey s = st !! ownerKey s.
Proof.
  unfold claimOutcome, publish. repeat case_match; simplify_eq/=; try done.
  intros _. rewrite lookup_insert_ne; [done|]. intros E. by apply (ownerKey_genKey s).
Qed.
End claim.

(** ** Properties *)

(** C26: what a claim does, on every branch. Alone, with no other claim of the scope
    under way, [ClaimWithReset] ends; it leaves the lock free again; the bucket and
    the answer are those of [claimOutcome]: an unowned cell is claimed under the
    next generation, a cell of this process is kept without a write, a live holder
    blocks the claim, a dead one is replaced above its epoch after the takeover and
    reset callbacks agreed, and every failure leaves the owner record as it was;
    after a success the scope is in the owned set under its epoch. *)
Theorem ClaimWithReset_outcome `{Etag} `{MapOrder} `{leaseCodec} `{ownerCodec} t cb s now reset st om lm :
  scopeString s ∉ oClaims om →
  let out := claimOutcome (oCfg om) cb (verdict t cb now st (MkProc om lm)) s now reset st in
  ∃ om' lm', alone t cb (ClaimWithReset s now reset) st (MkProc om lm) = Some (out.1, MkProc om' lm', out.2)
    ∧ oClaims om' = oClaims om
    ∧ (∀ o, out.2 = Ok o → oOwned om' !! scopeString s = Some (MkOwned s (oEpoch o)))
    ∧ (∀ e, out.2 = Err e → out.1 !! ownerKey s = st !! ownerKey s).
Proof.
  intros Hfree out. unfold ClaimWithReset. set (om1 := setClaims ({[scopeString s]} ∪ oClaims om) om).
  rewrite (alone_seq t cb _ _ st (MkProc om lm) st (MkProc om1 lm) true); last first.
  { unfold lockClaim, waitCtx. cbn [alone pOwner]. by rewrite decide_False. }
  destruct (ends_claimLocked t cb s now reset st om1 lm) as (om2 & lm2 & E & Hcfg & Hcl & Hown).
  assert (∀ o, verdict t cb now st (MkProc om1 lm) o = verdict t cb now st (MkProc om lm) o) as Hverdict.
  { intros o. destruct (verdict_eq t cb now st (MkProc om lm) o) as (lm1 & Hv).
    specialize (Hv om1 eq_refl). cbn [pLease] in Hv. unfold verdict at 1. by rewrite Hv. }
  assert (claimOutcome (oCfg om1) cb (verdict t cb now st (MkProc om1 lm)) s now reset st = out) as Eout.
  { unfold out, claimOutcome. change (oCfg om1) with (oCfg om). by do 3 (case_match; try done); rewrite Hverdict. }
  rewrite Eout in E, Hown. cbn [negb]. rewrite (alone_seq _ _ _ _ _ _ _ _ _ E).
  eexists _, lm2. split_and!; [reflexivity| | |].
  - cbn. rewrite Hcl. cbn. set_solver.
  - intros o Ho. by apply Hown.
  - intros e He. apply (claimOutcome_err _ _ _ _ _ _ _ _ He).
Qed.

(** *** A claim *)

Definition roleField (r : Role) : string + Z :=
  match r with RoleCellAgent => inr 0 | RoleDORuntime => inr 1 | RoleOther r => inl r end.

Definition ownerFields (o : Owner) : list (string + Z) :=
  [inl (oNode o); roleField (oRole o); inl (oSession o); inr (oEpoch o); inr (oExpiry o); inl (oLiveness o);
   inl (oAddress o); inl (oAdminAddress o); inl (oProtoVersion o)].

Definition ownerOfFields (l : list (string + Z)) : option Owner :=
  match l with
  | [inl a; r; inl c; inr d; inr e; inl f; inl g; inl h; inl i] =>
      let role := match r with inl r => RoleOther r | inr 0 => RoleCellAgent | inr _ => RoleDORuntime end in
      Some (MkOwner a role c d e f g h i)
  | _ => None
  end.

#[global] Instance Owner_countable : Countable Owner.
Proof. refine (inj_countable ownerFields ownerOfFields _). by intros [?[]???????]. Defined.

(** Maps visited in the order of their keys. *)
Definition keyOrder : MapOrder := {| visit _ l := l; visit_perm _ l := Permutation_refl l |}.

(** A dead holder of epoch 3 is replaced under epoch 4. *)
Lemma ClaimWithReset_outcome_witness :
  let cfg := MkOwnerConfig "n1" "s1" "addr" EmptyString RoleCellAgent (10 * Second) false true false false in
  let old := MkOwner "n2" RoleCellAgent "s2" 3 5 "node-lease" "b" EmptyString "v1" in
  let s := MkScope "ns" "kv" "a" in
  let st : store := {[ ownerKey s := @marshal _ (bitCodec Owner) old; genKey s := FormatUint 3 ]} in
  let lm := NewManager (MkLeaseConfig "n1" "s1" "a" "u" "z" (10 * Second) "i") in
  ∃ st' m' o, @alone contentTag _ _ _ (at_ 9) (λ _, true)
      (@ClaimWithReset keyOrder (bitCodec NodeLease) (bitCodec Owner) s (at_ 9) true) st
      (MkProc (newOwnerManager cfg) lm) = Some (st', m', Ok o)
    ∧ oEpoch o = 4 ∧ oOwned (pOwner m') !! scopeString s = Some (MkOwned s 4).
Proof.
  intros cfg old s st lm.
  destruct (@ClaimWithReset_outcome contentTag keyOrder (bitCodec NodeLease) (bitCodec Owner) (at_ 9) (λ _, true)
    s (at_ 9) true st (newOwnerManager cfg) lm) as (om' & lm' & E & _ & Hown & _).
  - apply not_elem_of_empty.
  - eexists _, (MkProc om' lm'), (newOwner cfg 4 (at_ 9)). split; [|split; [reflexivity|]].
    + etransitivity; [exact E|]. apply (f_equal (λ r, Some (_, _, r))). vm_compute. reflexivity.
    + apply (Hown (newOwner cfg 4 (at_ 9))). vm_compute. reflexivity.
Defined.
