(* ===== verification/OwnerFleet.v ===== *)
(** * Ownership across the fleet

    The theorems about [internal/owner] that hold for every schedule of any number
    of processes. Each program of [Owner.v] is shown to follow a discipline on the
    two objects of a cell: the generation is only created, or replaced by a larger
    one; an owner record carries an epoch whose generation was acknowledged to its
    writer, and replaces a record of a smaller epoch or of the same holder. Late
    and lost writes keep the discipline, because it is a property of the write
    itself. The holders table [holders] is the ghost state: which node and session
    was given which epoch of which cell. *)

From stdpp Require Import sorting.
From S2P Require Import Prelude Decimal Cell Bucket Fleet Objects Lease Owner.

(** ** The objects of a cell *)

Definition ownerOf (c : string) : string := c +:+ "/owner.json".
Definition genOf (c : string) : string := c +:+ "/owner-gen".

Definition guarded (k : string) : Prop := ∃ c, k = ownerOf c ∨ k = genOf c.

Lemma list_ascii_app s t :
  String.list_ascii_of_string (s +:+ t) = String.list_ascii_of_string s ++ String.list_ascii_of_string t.
Proof. induction s as [|a s IH]; simpl; [done|by rewrite <-IH]. Qed.

Lemma list_ascii_inj s t : String.list_ascii_of_string s = String.list_ascii_of_string t → s = t.
Proof.
  intros E. rewrite <-(String.string_of_list_ascii_of_string s), E.
  apply String.string_of_list_ascii_of_string.
Qed.

Lemma string_app_inj_r s t u : s +:+ u = t +:+ u → s = t.
Proof.
  intros E. apply list_ascii_inj. apply (f_equal String.list_ascii_of_string) in E.
  rewrite !list_ascii_app in E. by apply app_inv_tail in E.
Qed.

Lemma ownerOf_inj c c' : ownerOf c = ownerOf c' → c = c'.
Proof. apply string_app_inj_r. Qed.
Lemma genOf_inj c c' : genOf c = genOf c' → c = c'.
Proof. apply string_app_inj_r. Qed.

Lemma ownerOf_genOf c c' : ownerOf c ≠ genOf c'.
Proof.
  intros E. apply (f_equal String.list_ascii_of_string), (f_equal reverse) in E.
  unfold ownerOf, genOf in E. rewrite !list_ascii_app, !reverse_app in E. discriminate E.
Qed.

Lemma genOf_dec k : (∃ c, k = genOf c) ∨ ∀ c, k ≠ genOf c.
Proof.
  set (l := String.list_ascii_of_string k).
  destruct (decide (k = genOf (String.string_of_list_ascii (take (length l - 10) l)))) as [E|E]; [eauto|].
  right. intros c ->. apply E. f_equal. unfold l, genOf. rewrite list_ascii_app, length_app. cbn [length String.list_ascii_of_string].
  rewrite Nat.add_sub, take_app_length. symmetry. apply String.string_of_list_ascii_of_string.
Qed.

Lemma FormatUint_inj a b :
  0 ≤ a ≤ maxUint64 → 0 ≤ b ≤ maxUint64 → FormatUint a = FormatUint b → a = b.
Proof.
  intros Ha Hb E. apply ParseUint_Format in Ha, Hb. rewrite E, Hb in Ha. by injection Ha.
Qed.

(** ** The discipline *)

(** Which node and session was given which epoch of which cell. *)
Abbreviation holders := (gmap (string * Z) (string * string)).

Definition wfHolders (A : holders) : Prop := ∀ c g id, A !! (c, g) = Some id → 0 < g < maxUint64.

Section discipline.
Context `{Etag} `{ownerCodec}.

(** The epoch of an owner record was given to its holder. *)
Definition held (A : holders) (c : string) (o : Owner) : Prop :=
  A !! (c, oEpoch o) = Some (oNode o, oSession o).

(** A record may take the place of another. *)
Definition replaces (o o' : Owner) : Prop :=
  oEpoch o < oEpoch o' ∨ (oEpoch o' = oEpoch o ∧ oNode o' = oNode o ∧ oSession o' = oSession o).

(** What is known of an object that was read. *)
Definition fact (A : holders) (k : string) (d : bytes) : Prop :=
  (∀ c, k = genOf c → ∃ g, d = FormatUint g ∧ 0 < g < maxUint64)
  ∧ (∀ c, k = ownerOf c → ∃ o, d = marshal o ∧ held A c o).

(** The writes that are allowed. *)
Definition goodOp (A : holders) (op : bucketOp) : Prop :=
  match op with
  | Put k _ | Delete k => ¬ guarded k
  | ConditionalCreate k d =>
      (∀ c, k = genOf c → ∃ g, d = FormatUint g ∧ 0 < g ≤ maxUint64)
      ∧ (∀ c, k = ownerOf c → ∃ o, d = marshal o ∧ held A c o)
  | CAS k d e =>
      (∀ c, k = genOf c → ∃ g g', e = etag (FormatUint g) ∧ d = FormatUint g' ∧ 0 < g < g' ∧ g' ≤ maxUint64)
      ∧ (∀ c, k = ownerOf c → ∃ o o', e = etag (marshal o) ∧ d = marshal o' ∧ held A c o' ∧ replaces o o')
  | ConditionalDelete k _ => ∀ c, k ≠ genOf c
  end.

(** A successful write of a generation gives its epoch to [id]. *)
Definition grants (A : holders) (op : bucketOp) (id : string * string) : Prop :=
  ∀ c g, 0 ≤ g ≤ maxUint64 →
    (op = ConditionalCreate (genOf c) (FormatUint g) ∨ ∃ e, op = CAS (genOf c) (FormatUint g) e) →
    A !! (c, g) = Some id.

Context {C M : Type}.

(** Every path of the program keeps the discipline and ends with [Q], however the
    holders grow in the meantime. *)
Fixpoint abides {R : Type} (A : holders) (Q : holders → R → Prop) (p : prog C M R) : Prop :=
  match p with
  | Ret r => Q A r
  | Fetch key k => ∀ A' r, A ⊆ A' → wfHolders A' →
      (∀ d e, r = Ok (d, e) → e = etag d ∧ fact A' key d) → abides A' Q (k r)
  | Do op k => goodOp A op ∧ ∃ id, ∀ A' r, A ⊆ A' → wfHolders A' →
      (∀ e, r = Ok e → grants A' op id) → abides A' Q (k r)
  | ListKeys _ k => ∀ A' r, A ⊆ A' → wfHolders A' → abides A' Q (k r)
  | Now k => ∀ A' t, A ⊆ A' → wfHolders A' → abides A' Q (k t)
  | CtxErr k => ∀ A' b, A ⊆ A' → wfHolders A' → abides A' Q (k b)
  | Atomic _ k => ∀ A' x, A ⊆ A' → wfHolders A' → abides A' Q (k x)
  | Wait _ _ k => ∀ A' x, A ⊆ A' → wfHolders A' → abides A' Q (k x)
  | Call _ k => ∀ A' b, A ⊆ A' → wfHolders A' → abides A' Q (k b)
  end.

Lemma held_mono (A A' : holders) c o : A ⊆ A' → held A c o → held A' c o.
Proof. unfold held. intros Hs Hh. by eapply lookup_weaken. Qed.

Lemma goodOp_mono (A A' : holders) op : A ⊆ A' → goodOp A op → goodOp A' op.
Proof.
  intros Hs. pose proof (held_mono A A') as Hh. destruct op; simpl; try done.
  - intros [Hg Ho]. split; [done|]. intros c Hc. destruct (Ho c Hc) as (o & ? & ?). eauto.
  - intros [Hg Ho]. split; [done|]. intros c Hc.
    destruct (Ho c Hc) as (o & o' & ? & ? & ? & ?). exists o, o'. eauto.
Qed.

Lemma abides_mono {R : Type} (A A' : holders) (Q : holders → R → Prop) (p : prog C M R) :
  (∀ (A A' : holders) r, A ⊆ A' → Q A r → Q A' r) → A ⊆ A' → abides A Q p → abides A' Q p.
Proof.
  intros HQ Hs. destruct p; simpl; try (intros Hp A'' ? Hs' Hwf; apply Hp; [by etrans|done]).
  - by apply HQ.
  - intros [Hg [id Hp]]. split; [by eapply goodOp_mono|]. exists id.
    intros A'' r Hs' Hwf Hf. apply Hp; [by etrans|done..].
Qed.

Lemma abides_bind {R S : Type} (A : holders) (Q : holders → R → Prop) (Q' : holders → S → Prop)
    (p : prog C M R) (g : R → prog C M S) :
  abides A Q p → wfHolders A →
  (∀ (A' : holders) r, A ⊆ A' → wfHolders A' → Q A' r → abides A' Q' (g r)) → abides A Q' (bind p g).
Proof.
  revert A. induction p as [r|key k IH|op k IH|pre k IH|k IH|k IH|T f k IH|T c f k IH|c k IH];
    intros A; simpl; try (intros Hp Hwf Hg A' x Hs Hwf'; apply IH; auto;
      intros A'' r Hs' Hwf'' HQ; apply Hg; [by etrans|done..]).
  - intros HQ Hwf Hg. by apply Hg.
  - intros Hp Hwf Hg A' x Hs Hwf' Hf. apply IH; auto. intros A'' r Hs' Hwf'' HQ. apply Hg; [by etrans|done..].
  - intros [Hgood [id Hp]] Hwf Hg. split; [done|]. exists id. intros A' x Hs Hwf' Hf. apply IH; auto.
    intros A'' r Hs' Hwf'' HQ. apply Hg; [by etrans|done..].
Qed.

(** Programs that leave the objects of cells alone. *)
Fixpoint aloof {N R : Type} (p : prog C N R) : Prop :=
  match p with
  | Ret _ => True
  | Fetch _ k => ∀ r, aloof (k r)
  | Do op k => ¬ guarded (opKey op) ∧ ∀ r, aloof (k r)
  | ListKeys _ k => ∀ r, aloof (k r)
  | Now k => ∀ t, aloof (k t)
  | CtxErr k => ∀ b, aloof (k b)
  | Atomic _ k => ∀ x, aloof (k x)
  | Wait _ _ k => ∀ x, aloof (k x)
  | Call _ k => ∀ b, aloof (k b)
  end.

Lemma goodOp_aloof A op : ¬ guarded (opKey op) → goodOp A op.
Proof.
  destruct op; simpl; try done; intros Hk; try (split; intros c ->; destruct Hk; exists c; auto).
  intros c ->. destruct Hk. exists c. auto.
Qed.

Lemma abides_aloof {R : Type} (A : holders) (Q : holders → R → Prop) (p : prog C M R) :
  aloof p → (∀ (A' : holders) r, A ⊆ A' → wfHolders A' → Q A' r) → wfHolders A → abides A Q p.
Proof.
  revert A. induction p as [r|key k IH|op k IH|pre k IH|k IH|k IH|T f k IH|T c f k IH|c k IH];
    intros A; simpl; try (intros Hp HQ Hwf A' x Hs Hwf'; apply IH; [done| |done];
      intros A'' r Hs' Hwf''; apply HQ; [by etrans|done]).
  - intros _ HQ Hwf. by apply HQ.
  - intros Hp HQ Hwf A' x Hs Hwf' Hf. apply IH; [done| |done]. intros A'' r Hs' Hwf''. apply HQ; [by etrans|done].
  - intros [Hk Hp] HQ Hwf. split; [by apply goodOp_aloof|]. exists (EmptyString, EmptyString).
    intros A' x Hs Hwf' Hf. apply IH; [done| |done]. intros A'' r Hs' Hwf''. apply HQ; [by etrans|done].
Qed.
End discipline.

Lemma aloof_bind {C N R S} (p : prog C N R) (g : R → prog C N S) :
  aloof p → (∀ r, aloof (g r)) → aloof (bind p g).
Proof.
  intros Hp Hg. induction p as [r|key k IH|op k IH|pre k IH|k IH|k IH|T f k IH|T c f k IH|c k IH];
    simpl in *; auto. destruct Hp. auto.
Qed.

Lemma aloof_zoom {C N M R} (view : M → N) put (p : prog C N R) : aloof p → aloof (zoom view put p).
Proof.
  intros Hp. induction p as [r|key k IH|op k IH|pre k IH|k IH|k IH|T f k IH|T c f k IH|c k IH];
    simpl in *; auto. destruct Hp. auto.
Qed.

(** ** The programs keep the discipline *)

Lemma bump_above g floor :
  0 ≤ g < maxUint64 → 0 ≤ floor < maxUint64 → g < bump g floor ∧ floor < bump g floor ∧ bump g floor ≤ maxUint64.
Proof.
  unfold bump, maxUint64, u64. intros Hg Hf. rewrite (Z.mod_small (g + 1)) by lia.
  case_decide; [rewrite Z.mod_small by lia|]; lia.
Qed.

Lemma stampOwner_same o :
  oEpoch (stampOwner o) = oEpoch o ∧ oNode (stampOwner o) = oNode o ∧ oSession (stampOwner o) = oSession o.
Proof. unfold stampOwner. by case_decide. Qed.

(** Walks a program that only touches the process's own state and other objects. *)
Ltac aloof :=
  repeat (intros; match goal with
  | |- aloof (mbind _ _) => refine (aloof_bind _ _ _ _)
  | |- aloof (withLease _) => apply aloof_zoom
  | |- aloof (if ?b then _ else _) => destruct b
  | |- aloof (match ?x with _ => _ end) => destruct x
  | |- _ => done
  end).

(** A chain of growing holders. *)
Ltac grow := first [eassumption | etransitivity; [eassumption|]; grow].

Section programs.
Context `{Etag} `{MapOrder} `{leaseCodec} `{ownerCodec}.

Lemma abides_then {R S : Type} (A : holders) (Q : holders → S → Prop)
    (p : prog ownerCall process R) (g : R → prog ownerCall process S) :
  aloof p → wfHolders A → (∀ (A' : holders) r, A ⊆ A' → wfHolders A' → abides A' Q (g r)) →
  abides A Q (p ≫= g).
Proof.
  intros Hp Hwf Hg. refine (abides_bind A (λ _ _, True) Q p g _ Hwf _); [by apply abides_aloof|].
  intros A' r Hs Hwf' _. by apply Hg.
Qed.

Lemma aloof_Live o t : aloof (Live o t).
Proof. unfold Live, Healthy, HealthyUntil, leaseOf, CachedNodeLease, leaseFresh, readAndApply, leaseGet, applyRead. aloof. Qed.

Lemma aloof_Invalidate s : aloof (Invalidate s).
Proof. done. Qed.
Lemma aloof_touch s t : aloof (touchOwnerSegment s t).
Proof. unfold touchOwnerSegment. aloof. Qed.
Lemma aloof_callIf b c : aloof (callIf b c).
Proof. unfold callIf. aloof. Qed.

Lemma abides_Resolve (A : holders) s :
  abides A (λ A' r, ∀ o e, r = Ok (o, e) → e = etag (marshal o) ∧ held A' (scopeKey s) o) (Resolve s).
Proof.
  intros A' r Hs Hwf Hf. destruct r as [[d e]|e]; simpl.
  - destruct (Hf d e eq_refl) as [-> [_ Ho]]. destruct (Ho (scopeKey s) eq_refl) as (o & -> & Hh).
    rewrite unmarshal_marshal. by intros ?? [= <- <-].
  - by destruct e.
Qed.

(** The epoch [nextEpoch] returns was given to the caller and is above [floor]. *)
Lemma abides_nextEpoch (n : nat) (A : holders) (s : Scope) (floor : Z) (id : string * string) :
  wfHolders A → 0 ≤ floor < maxUint64 →
  abides A (λ A' r, ∀ e, r = Ok e → A' !! (scopeKey s, e) = Some id ∧ floor < e) (nextEpochLoop n s floor).
Proof.
  revert A. induction n as [|n IH]; intros A Hwf Hfl; [done|]. simpl. intros A1 r Hs1 Hwf1 Hf.
  assert (∀ g op, 0 ≤ g < maxUint64 → goodOp A1 op →
      (op = ConditionalCreate (genOf (scopeKey s)) (FormatUint (bump g floor))
       ∨ ∃ e, op = CAS (genOf (scopeKey s)) (FormatUint (bump g floor)) e) →
      abides A1 (λ A' r, ∀ e, r = Ok e → A' !! (scopeKey s, e) = Some id ∧ floor < e)
        (w ← putObject op;
         match w with
         | Ok _ => _ ← onOwner (addStats 1 0 0 0); mret (Ok (bump g floor))
         | Err _ => nextEpochLoop n s floor
         end)) as Hput.
  { intros g op Hg Hgood Hop. split; [done|]. exists id. intros A2 w Hs2 Hwf2 Hgr.
    pose proof (bump_above g floor Hg Hfl) as Hb.
    destruct w as [tag|]; [|by apply IH]. simpl. intros A3 [] Hs3 Hwf3 e [= <-]. split; [|lia].
    eapply lookup_weaken; [|exact Hs3]. eapply Hgr; [done|lia|done]. }
  destruct r as [[d e]|e]; simpl.
  - destruct (Hf d e eq_refl) as [-> [Hg _]]. destruct (Hg (scopeKey s) eq_refl) as (g & -> & Hg').
    rewrite ParseUint_Format by lia. pose proof (bump_above g floor ltac:(lia) Hfl) as Hb.
    apply Hput; [lia| |eauto]. split.
    + intros c Hc. exists g, (bump g floor). split_and!; [done..|lia|lia|lia].
    + intros c Hc. by destruct (ownerOf_genOf c (scopeKey s)).
  - pose proof (bump_above 0 floor ltac:(unfold maxUint64; lia) Hfl) as Hb.
    destruct e; try done. apply Hput; [unfold maxUint64; lia| |eauto]. split.
    + intros c Hc. exists (bump 0 floor). split; [done|lia].
    + intros c Hc. by destruct (ownerOf_genOf c (scopeKey s)).
Qed.

(** A record of the epoch just given may be written. *)
Lemma good_create (A : holders) s o :
  held A (scopeKey s) o → goodOp A (ConditionalCreate (ownerKey s) (MarshalOwner o)).
Proof.
  intros Ho. destruct (stampOwner_same o) as (E1 & E2 & E3). split; intros c Hc.
  - by destruct (ownerOf_genOf (scopeKey s) c).
  - apply (ownerOf_inj (scopeKey s)) in Hc as <-. exists (stampOwner o). split; [done|].
    unfold held. by rewrite E1, E2, E3.
Qed.

Lemma good_cas (A : holders) s o o' :
  held A (scopeKey s) o' → replaces o o' →
  goodOp A (CAS (ownerKey s) (MarshalOwner o') (etag (marshal o))).
Proof.
  intros Ho Hr. destruct (stampOwner_same o') as (E1 & E2 & E3). split; intros c Hc.
  - by destruct (ownerOf_genOf (scopeKey s) c).
  - apply (ownerOf_inj (scopeKey s)) in Hc as <-. exists o, (stampOwner o').
    unfold held, replaces. by rewrite E1, E2, E3.
Qed.

Lemma good_delete (A : holders) s e : goodOp A (ConditionalDelete (ownerKey s) e).
Proof. intros c Hc. by destruct (ownerOf_genOf (scopeKey s) c). Qed.

(** After a write to an owner record nothing is left to show. *)
Lemma abides_put {S : Type} (A : holders) (Q : holders → S → Prop) op
    (g : result bucketError string → prog ownerCall process S) :
  goodOp A op → (∀ A' r, A ⊆ A' → wfHolders A' → abides A' Q (g r)) → abides A Q (putObject op ≫= g).
Proof. intros Hop Hg. split; [done|]. exists (EmptyString, EmptyString). intros A' r Hs Hwf _. by apply Hg. Qed.

(** [any] asks nothing of the result. *)
Definition any {R : Type} : holders → R → Prop := λ _ _, True.

Lemma abides_any {R : Type} (A : holders) (p : prog ownerCall process R) :
  aloof p → wfHolders A → abides A any p.
Proof. intros. by apply abides_aloof. Qed.

(** A claim's write of the record [mk epoch] under the epoch it was given. *)
Lemma abides_epoch {S : Type} (A : holders) s floor id (g : result ownerError Z → prog ownerCall process S) :
  wfHolders A → 0 ≤ floor < maxUint64 →
  (∀ (A' : holders) e, A ⊆ A' → wfHolders A' → abides A' any (g (Err e))) →
  (∀ (A' : holders) epoch, A ⊆ A' → wfHolders A' → A' !! (scopeKey s, epoch) = Some id → floor < epoch →
     abides A' any (g (Ok epoch))) →
  abides A any (nextEpoch s floor ≫= g).
Proof.
  intros Hwf Hfl Herr Hok. refine (abides_bind A _ any _ _ (abides_nextEpoch 8 A s floor id Hwf Hfl) Hwf _).
  intros A' [epoch|e] Hs Hwf' Hr; [|by apply Herr]. destruct (Hr epoch eq_refl). by apply Hok.
Qed.

Lemma floor_ok (A : holders) c o : wfHolders A → held A c o → 0 ≤ oEpoch o < maxUint64.
Proof. intros Hwf Ho. apply Hwf in Ho. lia. Qed.

Lemma abides_claimUnowned (A : holders) s t reset : wfHolders A → abides A any (claimUnowned s t reset).
Proof.
  intros Hwf. unfold claimUnowned. apply abides_then; [done..|]. intros A1 cfg Hs1 Hwf1.
  apply (abides_epoch A1 s 0 (ocNodeID cfg, ocSession cfg)); [done|unfold maxUint64; lia| |].
  { intros A2 e Hs2 Hwf2. by apply abides_any. }
  intros A2 epoch Hs2 Hwf2 Hid _. apply abides_then; [apply aloof_callIf|done|]. intros A3 [] Hs3 Hwf3; [|done].
  apply abides_put; [apply good_create; by eapply lookup_weaken|].
  intros A4 [tag|e] Hs4 Hwf4; by apply abides_any.
Qed.

Lemma abides_claimDead (A : holders) s t reset cur :
  wfHolders A → held A (scopeKey s) cur → abides A any (claimDead s t reset cur (etag (marshal cur))).
Proof.
  intros Hwf Hcur. unfold claimDead. apply abides_then; [done..|]. intros A1 cfg Hs1 Hwf1.
  apply abides_then; [apply aloof_callIf|done|]. intros A2 [] Hs2 Hwf2; [|by apply abides_any].
  apply abides_then; [apply aloof_callIf|done|]. intros A3 [] Hs3 Hwf3; [|done].
  apply (abides_epoch A3 s (oEpoch cur) (ocNodeID cfg, ocSession cfg)); [done|eapply floor_ok; [done|by apply (held_mono A); [grow|]]| |].
  { intros A4 e Hs4 Hwf4. by apply abides_any. }
  intros A4 epoch Hs4 Hwf4 Hid Hlt. apply abides_put; [apply good_cas; [done|by left]|].
  intros A5 [tag|e] Hs5 Hwf5; by apply abides_any.
Qed.

(** What follows a read of the owner record. *)
Lemma abides_resolved {S : Type} (A : holders) s (g : result ownerError (Owner * string) → prog ownerCall process S) :
  wfHolders A →
  (∀ (A' : holders) e, A ⊆ A' → wfHolders A' → abides A' any (g (Err e))) →
  (∀ (A' : holders) cur, A ⊆ A' → wfHolders A' → held A' (scopeKey s) cur →
     abides A' any (g (Ok (cur, etag (marshal cur))))) →
  abides A any (Resolve s ≫= g).
Proof.
  intros Hwf Herr Hok. refine (abides_bind A _ any _ _ (abides_Resolve A s) Hwf _).
  intros A' [[cur e]|e] Hs Hwf' Hr; [|by apply Herr]. destruct (Hr cur e eq_refl) as [-> Hh]. by apply Hok.
Qed.

Lemma abides_read {S : Type} (A : holders) s (g : Owner * string → prog ownerCall process (result ownerError S)) :
  wfHolders A →
  (∀ (A' : holders) cur, A ⊆ A' → wfHolders A' → held A' (scopeKey s) cur →
     abides A' any (g (cur, etag (marshal cur)))) →
  abides A any (check (Resolve s) g).
Proof. intros Hwf Hg. apply (abides_resolved A s (λ r, match r with Ok a => g a | Err e => Ret (Err e) end)); done. Qed.

Lemma abides_claimLocked (A : holders) s t reset : wfHolders A → abides A any (claimLocked s t reset).
Proof.
  intros Hwf. apply abides_resolved; [done| |].
  - intros A1 e Hs1 Hwf1. destruct e; try by apply abides_any. by apply abides_claimUnowned.
  - intros A1 cur Hs1 Hwf1 Hcur. apply abides_then; [done..|]. intros A2 cfg Hs2 Hwf2.
    destruct (isOwn cfg cur); [apply abides_any; [|done]; unfold touchOwnerSegment; aloof|].
    apply abides_then; [apply aloof_Live|done|]. intros A3 [[]|e] Hs3 Hwf3; try by apply abides_any.
    apply abides_claimDead; [done|]. eapply held_mono; [|done]. by etrans.
Qed.

Lemma abides_ClaimWithReset (A : holders) s t reset : wfHolders A → abides A any (ClaimWithReset s t reset).
Proof.
  intros Hwf. apply abides_then; [done..|]. intros A1 [] Hs1 Hwf1; [|done].
  refine (abides_bind A1 any any _ _ (abides_claimLocked A1 s t reset Hwf1) Hwf1 _).
  intros A2 r Hs2 Hwf2 _. by apply abides_any.
Qed.

Lemma abides_ClaimAs (A : holders) s node advertise role ttl t :
  wfHolders A → abides A any (ClaimAs s node advertise role ttl t).
Proof.
  intros Hwf. apply abides_then; [done..|]. intros A1 cfg Hs1 Hwf1. apply abides_resolved; [done| |].
  - intros A2 e Hs2 Hwf2. destruct e; try by apply abides_any.
    apply (abides_epoch A2 s 0 (node, ocSession cfg)); [done|unfold maxUint64; lia| |].
    { intros A3 e Hs3 Hwf3. by apply abides_any. }
    intros A3 epoch Hs3 Hwf3 Hid _. apply abides_put; [by apply good_create|].
    intros A4 [tag|e] Hs4 Hwf4; by apply abides_any.
  - intros A2 cur Hs2 Hwf2 Hcur. destruct (_ && _); [by apply abides_any|].
    apply (abides_epoch A2 s (oEpoch cur) (node, ocSession cfg)); [done|by eapply floor_ok| |].
    { intros A3 e Hs3 Hwf3. by apply abides_any. }
    intros A3 epoch Hs3 Hwf3 Hid Hlt. apply abides_put; [apply good_cas; [done|by left]|].
    intros A4 [tag|e] Hs4 Hwf4; by apply abides_any.
Qed.

(** A renewal writes the record it read, with another deadline or address. *)
Lemma abides_casOwner {S : Type} (A : holders) s cur cur' (g : unit → prog ownerCall process (result ownerError S)) :
  oEpoch cur' = oEpoch cur → oNode cur' = oNode cur → oSession cur' = oSession cur →
  held A (scopeKey s) cur → wfHolders A → (∀ x, aloof (g x)) →
  abides A any (check (casOwner s cur' (etag (marshal cur))) g).
Proof.
  intros E1 E2 E3 Hcur Hwf Hg. refine (abides_put A any _ _ _ _).
  - apply good_cas; [|by right]. unfold held. by rewrite E1, E2, E3.
  - intros A1 [tag|e] Hs1 Hwf1; [|done]. by apply abides_any; [apply Hg|].
Qed.

Lemma abides_Renew (A : holders) s epoch t : wfHolders A → abides A any (Renew s epoch t).
Proof.
  intros Hwf. apply abides_read; [done|]. intros A1 cur Hs1 Hwf1 Hcur.
  apply abides_then; [done..|]. intros A2 cfg Hs2 Hwf2. cbn zeta.
  assert (held A2 (scopeKey s) cur) as Hcur2 by by eapply held_mono.
  destruct (_ || _); [by apply abides_any|].
  assert (∀ o u, aloof (_ ← rememberOwned s (oEpoch o); _ ← touchOwnerSegment s u; mret (Ok o) :
    prog ownerCall process (result ownerError Owner))) as Hrest.
  { intros o u. unfold touchOwnerSegment. aloof. }
  repeat case_decide.
  - by apply abides_casOwner; [..|intros _; apply Hrest].
  - by apply abides_any.
  - apply abides_casOwner; try done; unfold readdress; by case_decide.
Qed.

Lemma abides_RenewAs (A : holders) s node epoch ttl t : wfHolders A → abides A any (RenewAs s node epoch ttl t).
Proof.
  intros Hwf. apply abides_then; [done..|]. intros A1 cfg Hs1 Hwf1.
  apply abides_read; [done|]. intros A2 cur Hs2 Hwf2 Hcur. case_decide; [done|].
  apply abides_casOwner; try done; unfold readdress; by case_decide.
Qed.

Lemma abides_deleteOwner {S : Type} (A : holders) s e (g : unit → prog ownerCall process (result ownerError S)) :
  wfHolders A → (∀ x, aloof (g x)) → abides A any (check (deleteOwner s e) g).
Proof.
  intros Hwf Hg. refine (abides_put A any _ _ (good_delete A s e) _).
  intros A1 [tag|e'] Hs1 Hwf1; [|by destruct e']. by apply abides_any; [apply Hg|].
Qed.

Lemma abides_ReleaseAs (A : holders) s node epoch : wfHolders A → abides A any (ReleaseAs s node epoch).
Proof.
  intros Hwf. apply abides_read; [done|]. intros A1 cur Hs1 Hwf1 Hcur.
  case_decide; [done|]. by apply abides_deleteOwner.
Qed.

Lemma abides_release (A : holders) s epoch skip : wfHolders A → abides A any (release s epoch skip).
Proof.
  intros Hwf. unfold release. apply abides_then; [done..|]. intros A1 at_ Hs1 Hwf1.
  apply abides_then; [done..|]. intros A2 u Hs2 Hwf2. apply abides_then; [done..|]. intros A3 _ Hs3 Hwf3.
  refine (abides_bind A3 any any (releaseHeld s epoch skip) _ _ Hwf3 _); last first.
  { intros A4 r Hs4 Hwf4 _. by apply abides_any. }
  apply abides_read; [done|]. intros A4 cur Hs4 Hwf4 Hcur.
  apply abides_then; [done..|]. intros A5 cfg Hs5 Hwf5.
  destruct (_ || _); [by apply abides_any|]. apply abides_then; [apply aloof_callIf|done|].
  intros A6 [] Hs6 Hwf6; [|by apply abides_any]. by apply abides_deleteOwner.
Qed.
End programs.

(** ** The fleet *)

(** A process claims, renews and releases, for itself or for others, and does
    whatever else it wants with other objects. *)
Inductive ownerThread `{MapOrder} `{leaseCodec} `{ownerCodec} : prog ownerCall process unit → Prop :=
| run_ClaimWithReset s t reset : ownerThread (ClaimWithReset s t reset ≫= λ _, mret tt)
| run_Renew s epoch t : ownerThread (Renew s epoch t ≫= λ _, mret tt)
| run_release s epoch skip : ownerThread (release s epoch skip ≫= λ _, mret tt)
| run_ClaimAs s node advertise role ttl t : ownerThread (ClaimAs s node advertise role ttl t ≫= λ _, mret tt)
| run_RenewAs s node epoch ttl t : ownerThread (RenewAs s node epoch ttl t ≫= λ _, mret tt)
| run_ReleaseAs s node epoch : ownerThread (ReleaseAs s node epoch ≫= λ _, mret tt)
| run_other p : aloof p → ownerThread p.

Definition ownerAction `{MapOrder} `{leaseCodec} `{ownerCodec} (x : action ownerCall process unit) : Prop :=
  match x with Spawn _ p => ownerThread p | _ => True end.

(** The generations written for a cell, oldest first. *)
Definition gensOf (c : string) (hist : list (string * bytes)) : list Z :=
  omap (λ '(k, d), if decide (k = genOf c) then ParseUint (TrimSpace d) else None) hist.

(** No generation has reached the largest number. *)
Definition roomLeft (hist : list (string * bytes)) : Prop :=
  ∀ c d, (genOf c, d) ∈ hist → d ≠ FormatUint maxUint64.

Section fleet.
Context `{Etag} `{MapOrder} `{leaseCodec} `{ownerCodec}.

(** What holds of the bucket and of what was written to it. *)
Record bucketInv (A : holders) (st : store) (hist : list (string * bytes)) : Prop := {
  inv_wf : wfHolders A;
  inv_given c g id : A !! (c, g) = Some id → (genOf c, FormatUint g) ∈ hist;
  inv_gen c d : (genOf c, d) ∈ hist → ∃ g, d = FormatUint g ∧ 0 < g ≤ maxUint64;
  inv_sorted c : StronglySorted Z.lt (gensOf c hist);
  inv_store k d : st !! k = Some d → (k, d) ∈ hist;
  inv_last c : st !! genOf c = FormatUint <$> last (gensOf c hist);
  inv_owner c d : (ownerOf c, d) ∈ hist → ∃ o, d = marshal o ∧ held A c o;
}.

Definition ownerInv (w : world ownerCall process unit) : Prop :=
  ∃ A, bucketInv A (wStore w) (wHist w) ∧ Forall (goodOp A) (wPending w)
       ∧ Forall (λ '(_, p), abides A any p) (wThreads w).

Lemma gensOf_snoc c hist k d :
  gensOf c (hist ++ [(k, d)]) =
  gensOf c hist ++ (if decide (k = genOf c) then option_list (ParseUint (TrimSpace d)) else []).
Proof. unfold gensOf. rewrite omap_app. simpl. case_decide; [by destruct (ParseUint _)|done]. Qed.

Lemma gensOf_elem c hist g : g ∈ gensOf c hist ↔ ∃ d, (genOf c, d) ∈ hist ∧ ParseUint (TrimSpace d) = Some g.
Proof.
  unfold gensOf. rewrite list_elem_of_omap. split.
  - intros ([k d] & Hin & Hk). case_decide; [subst; eauto|done].
  - intros (d & Hin & Hk). exists (genOf c, d). by rewrite decide_True.
Qed.

Lemma increasing_last l x y : StronglySorted Z.lt l → last l = Some y → x ∈ l → x ≤ y.
Proof.
  intros Hs Hl Hx. apply last_Some in Hl as [l' ->].
  apply StronglySorted_app in Hs as (Hlt & _ & _).
  apply elem_of_app in Hx as [Hx| ->%list_elem_of_singleton]; [|done].
  specialize (Hlt x y Hx (list_elem_of_here y [])). lia.
Qed.

Lemma increasing_snoc l x :
  StronglySorted Z.lt l → (∀ y, y ∈ l → y < x) → StronglySorted Z.lt (l ++ [x]).
Proof.
  intros Hs Hlt. apply StronglySorted_app. split_and!; [|done|repeat constructor].
  intros y z Hy ->%list_elem_of_singleton. by apply Hlt.
Qed.

(** How one operation changes the bucket. *)
Lemma perform_cases op st :
  ((perform op st).1 = st ∧ opWrites op st = [])
  ∨ (∃ k d, (perform op st).1 = <[k := d]> st ∧ opWrites op st = [(k, d)]
       ∧ (op = Put k d ∨ (op = ConditionalCreate k d ∧ st !! k = None)
          ∨ ∃ c, op = CAS k d (etag c) ∧ st !! k = Some c))
  ∨ (∃ k, (perform op st).1 = delete k st ∧ opWrites op st = []
       ∧ (op = Delete k ∨ ∃ e, op = ConditionalDelete k e)).
Proof.
  unfold opWrites. destruct op as [k d|k d|k d e|k|k e]; simpl.
  - right. left. exists k, d. split_and!; [done..|]. auto.
  - destruct (st !! k) eqn:E; simpl; [by left|]. right. left. exists k, d. split_and!; [done..|]. auto.
  - destruct (st !! k) as [c|] eqn:E; simpl; [|by left]. case_decide; simpl; [|by left]. subst e.
    right. left. exists k, d. split_and!; [done..|]. eauto.
  - right. right. exists k. split_and!; [done..|]. auto.
  - destruct (st !! k) as [c|] eqn:E; simpl; [|by left]. case_decide; simpl; [|by left].
    right. right. exists k. split_and!; [done..|]. eauto.
Qed.

(** A write of a generation is above all that were written before. *)
Lemma gen_above A op st hist c d :
  bucketInv A st hist → goodOp A op → (genOf c, d) ∈ opWrites op st →
  ∃ g, d = FormatUint g ∧ 0 < g ≤ maxUint64 ∧ ∀ y, y ∈ gensOf c hist → y < g.
Proof.
  intros Hinv Hop Hin.
  destruct (perform_cases op st) as [[_ E]|[(k & d' & _ & E & Hc)|(k & _ & E & _)]];
    rewrite E in Hin; try by apply elem_of_nil in Hin.
  apply list_elem_of_singleton in Hin as [= <- <-].
  destruct Hc as [->|[[-> Hst]|(cur & -> & Hst)]]; simpl in Hop.
  - destruct Hop. exists c. auto.
  - destruct Hop as [Hop _]. destruct (Hop c eq_refl) as (g & -> & Hg). exists g. split_and!; [done|lia|lia|].
    rewrite (inv_last _ _ _ Hinv) in Hst. apply fmap_None, last_None in Hst. rewrite Hst.
    intros y Hy. by apply elem_of_nil in Hy.
  - destruct Hop as [Hop _]. destruct (Hop c eq_refl) as (g0 & g & He & -> & Hlt & Hg).
    apply etag_inj in He as ->. exists g. split_and!; [done|lia|lia|].
    rewrite (inv_last _ _ _ Hinv) in Hst. apply fmap_Some in Hst as (g1 & Hl & E1).
    assert (g1 ∈ gensOf c hist) as (d1 & Hd1 & Hp1)%gensOf_elem by by apply last_Some_elem_of.
    apply FormatUint_inj in E1; [|lia|by apply ParseUint_range in Hp1]. subst g1.
    intros y Hy. pose proof (increasing_last _ _ _ (inv_sorted _ _ _ Hinv c) Hl Hy). lia.
Qed.

Lemma bucketInv_write A st hist k d :
  bucketInv A st hist →
  (∀ c, k = genOf c → ∃ g, d = FormatUint g ∧ 0 < g ≤ maxUint64 ∧ ∀ y, y ∈ gensOf c hist → y < g) →
  (∀ c, k = ownerOf c → ∃ o, d = marshal o ∧ held A c o) →
  bucketInv A (<[k := d]> st) (hist ++ [(k, d)]).
Proof.
  intros [Hwf Hgiven Hgen Hsort Hst Hlast Hown] Hg Ho. split.
  - done.
  - intros c g id Hid. apply elem_of_app. left. by eapply Hgiven.
  - intros c d' [Hin|Hin%list_elem_of_singleton]%elem_of_app; [by eapply Hgen|].
    injection Hin as <- ->. destruct (Hg c eq_refl) as (g & -> & Hr & _). eauto.
  - intros c. rewrite gensOf_snoc. case_decide as Hk; [|by rewrite app_nil_r].
    destruct (Hg c Hk) as (g & -> & Hr & Hlt). rewrite ParseUint_Format by lia. by apply increasing_snoc.
  - intros k' d'. destruct (decide (k = k')) as [<-|Hne].
    + rewrite lookup_insert_eq. intros [= <-]. apply elem_of_app. right. by apply list_elem_of_singleton.
    + rewrite lookup_insert_ne by done. intros Hd. apply elem_of_app. left. by apply Hst.
  - intros c. rewrite gensOf_snoc. case_decide as Hk.
    + destruct (Hg c Hk) as (g & -> & Hr & Hlt). rewrite ParseUint_Format by lia. subst k.
      simpl. by rewrite lookup_insert_eq, last_snoc.
    + rewrite app_nil_r, lookup_insert_ne by done. apply Hlast.
  - intros c d' [Hin|Hin%list_elem_of_singleton]%elem_of_app; [by apply Hown|].
    injection Hin as <- ->. by apply Ho.
Qed.

Lemma bucketInv_delete A st hist k :
  bucketInv A st hist → (∀ c, k ≠ genOf c) → bucketInv A (delete k st) hist.
Proof.
  intros [Hwf Hgiven Hgen Hsort Hst Hlast Hown] Hk. split; try done.
  - intros k' d [_ Hd]%lookup_delete_Some. by apply Hst.
  - intros c. rewrite lookup_delete_ne by done. apply Hlast.
Qed.

Lemma bucketInv_perform A op st hist :
  bucketInv A st hist → goodOp A op → bucketInv A (perform op st).1 (hist ++ opWrites op st).
Proof.
  intros Hinv Hop. pose proof (gen_above A op st hist) as Hgen.
  destruct (perform_cases op st) as [[E1 E2]|[(k & d & E1 & E2 & Hc)|(k & E1 & E2 & Hc)]];
    rewrite E1, E2 in *; rewrite ?app_nil_r; [done| |].
  - apply bucketInv_write; [done| |].
    + intros c ->. apply (Hgen c d Hinv Hop). by apply list_elem_of_singleton.
    + intros c ->. destruct Hc as [->|[[-> Hst]|(cur & -> & Hst)]]; simpl in Hop.
      * destruct Hop. exists c. auto.
      * destruct Hop as [_ Hop]. by apply Hop.
      * destruct Hop as [_ Hop]. destruct (Hop c eq_refl) as (o & o' & _ & -> & Ho & _). eauto.
  - apply bucketInv_delete; [done|]. intros c ->. destruct Hc as [->|(e & ->)]; simpl in Hop.
    + destruct Hop. exists c. auto.
    + by apply (Hop c).
Qed.

(** An acknowledged generation is given to its writer. *)
Lemma bucketInv_grant (A : holders) st hist c g id :
  bucketInv A st hist → (genOf c, FormatUint g) ∈ hist → 0 < g < maxUint64 → A !! (c, g) = None →
  bucketInv (<[(c, g) := id]> A) st hist.
Proof.
  intros [Hwf Hgiven Hgen Hsort Hst Hlast Hown] Hin Hg Hnone. split; try done.
  - intros c' g' id' [[[= <- <-] _]|[_ Hid]]%lookup_insert_Some; [done|by eapply Hwf].
  - intros c' g' id' [[[= <- <-] _]|[_ Hid]]%lookup_insert_Some; [done|by eapply Hgiven].
  - intros c' d Hd. destruct (Hown c' d Hd) as (o & -> & Ho). exists o. split; [done|].
    eapply held_mono; [|done]. by apply insert_subseteq.
Qed.

(** What was read from the bucket. *)
Lemma fact_fetch A st hist key d e :
  bucketInv A st hist → roomLeft hist → fetch st key = Ok (d, e) → e = etag d ∧ fact A key d.
Proof.
  intros Hinv Hroom. unfold fetch. destruct (st !! key) as [d'|] eqn:Hd; [|done]. intros [= -> <-].
  apply (inv_store _ _ _ Hinv) in Hd. split; [done|]. split; intros c ->.
  - destruct (inv_gen _ _ _ Hinv c d Hd) as (g & -> & Hg). exists g. split; [done|].
    assert (g ≠ maxUint64); [|lia]. intros ->. by apply (Hroom c _ Hd).
  - by apply (inv_owner _ _ _ Hinv).
Qed.

(** The writer of an acknowledged generation gets its epoch. *)
Lemma grant (A : holders) op st hist id tag :
  bucketInv A st hist → goodOp A op → (perform op st).2 = Ok tag → roomLeft (hist ++ opWrites op st) →
  ∃ A' : holders, A ⊆ A' ∧ bucketInv A' (perform op st).1 (hist ++ opWrites op st) ∧ grants A' op id.
Proof.
  intros Hinv Hop Hok Hroom. pose proof (bucketInv_perform A op st hist Hinv Hop) as Hinv'.
  destruct (genOf_dec (opKey op)) as [[c Hc]|Hc]; last first.
  { exists A. split_and!; [done..|]. intros c g _ [->|[e ->]]; by destruct (Hc c). }
  assert (∀ d, (genOf c, d) ∈ opWrites op st → ∃ A' : holders, A ⊆ A'
      ∧ bucketInv A' (perform op st).1 (hist ++ opWrites op st)
      ∧ ∀ g, 0 ≤ g ≤ maxUint64 → d = FormatUint g → A' !! (c, g) = Some id) as Hput.
  { intros d Hd. destruct (gen_above A op st hist c d Hinv Hop Hd) as (g & -> & Hg & Hlt).
    assert ((genOf c, FormatUint g) ∈ hist ++ opWrites op st) as Hin by (apply elem_of_app; by right).
    assert (g ≠ maxUint64) by (intros ->; by apply (Hroom c _ Hin)).
    assert (A !! (c, g) = None) as Hnone.
    { apply eq_None_not_Some. intros [id' Hid]. apply (inv_given _ _ _ Hinv) in Hid.
      specialize (Hlt g). assert (g < g); [|lia]. apply Hlt, gensOf_elem.
      exists (FormatUint g). split; [done|]. apply ParseUint_Format. lia. }
    exists (<[(c, g) := id]> A). split_and!.
    - by apply insert_subseteq.
    - apply bucketInv_grant; [done..|lia|done].
    - intros g' Hg' E. apply FormatUint_inj in E as <-; [|lia|lia]. apply lookup_insert_eq. }
  assert (∀ d, (op = ConditionalCreate (genOf c) d ∨ ∃ e, op = CAS (genOf c) d e) →
      (genOf c, d) ∈ opWrites op st) as Hw.
  { intros d Hd. unfold opWrites. destruct Hd as [->|[e ->]]; rewrite Hok; by apply list_elem_of_singleton. }
  destruct op as [k d|k d|k d e|k|k e]; simpl in Hc; subst k.
  - destruct Hop. exists c. auto.
  - destruct (Hput d) as (A' & Hs & HA' & Hid); [apply Hw; auto|]. exists A'. split_and!; [done..|].
    intros c' g Hg [[= <-%genOf_inj ->]|[e [=]]]. by apply Hid.
  - destruct (Hput d) as (A' & Hs & HA' & Hid); [apply Hw; eauto|]. exists A'. split_and!; [done..|].
    intros c' g Hg [[=]|[e' [= <-%genOf_inj -> _]]]. by apply Hid.
  - destruct Hop. exists c. auto.
  - by destruct (Hop c).
Qed.

(** One effect of a thread. *)
Lemma abides_step (A : holders) a st m p st' m' p' hist :
  bucketInv A st hist → abides A any p → step a st m p = Some (st', m', p') →
  roomLeft (hist ++ writes a st p) →
  ∃ A' : holders, A ⊆ A' ∧ bucketInv A' st' (hist ++ writes a st p)
    ∧ Forall (goodOp A') (delays a p) ∧ abides A' any (p' : prog ownerCall process unit).
Proof.
  intros Hinv Hp Hstep Hroom. pose proof (inv_wf _ _ _ Hinv) as Hwf.
  destruct p as [r|key k|op k|pre k|k|k|T f k|T c f k|c k]; simpl in *; destruct a as [|ap e|e|t|b];
    try done; rewrite ?app_nil_r in *.
  - injection Hstep as <- <- <-. exists A. split_and!; try done. apply Hp; [done..|].
    intros d e He. by eapply fact_fetch.
  - case_decide; [done|]. injection Hstep as <- <- <-. exists A. split_and!; try done. by apply Hp.
  - destruct Hp as [Hgood [id Hk]]. destruct (perform op st) as [st1 r] eqn:Eop.
    injection Hstep as <- <- <-. destruct r as [tag|e].
    + destruct (grant A op st hist id tag) as (A' & Hs & HA' & Hid); [done..|by rewrite Eop|done|].
      rewrite Eop in HA'. exists A'. split_and!; try done. apply Hk; [done|by eapply inv_wf|]. by intros e [= <-].
    + pose proof (bucketInv_perform A op st hist Hinv Hgood) as HA'. rewrite Eop in HA'.
      exists A. split_and!; try done. by apply Hk.
  - destruct Hp as [Hgood [id Hk]]. injection Hstep as <- <- <-. exists A. split_and!; try done.
    + destruct ap; rewrite ?app_nil_r; [by apply bucketInv_perform|done].
    + by apply Hk.
  - destruct Hp as [Hgood [id Hk]]. injection Hstep as <- <- <-. exists A. split_and!; try done.
    + by constructor.
    + by apply Hk.
  - injection Hstep as <- <- <-. exists A. split_and!; try done. by apply Hp.
  - injection Hstep as <- <- <-. exists A. split_and!; try done. by apply Hp.
  - injection Hstep as <- <- <-. exists A. split_and!; try done. by apply Hp.
  - injection Hstep as <- <- <-. exists A. split_and!; try done. by apply Hp.
  - destruct (f m) as [x m1]. injection Hstep as <- <- <-. exists A. split_and!; try done. by apply Hp.
  - destruct (f m) as [[x m1]|]; [|done]. injection Hstep as <- <- <-. exists A. split_and!; try done. by apply Hp.
  - destruct c; [|done]. injection Hstep as <- <- <-. exists A. split_and!; try done. by apply Hp.
  - injection Hstep as <- <- <-. exists A. split_and!; try done. by apply Hp.
Qed.

Lemma abides_thread (A : holders) p : wfHolders A → ownerThread p → abides A any p.
Proof.
  assert (∀ R (q : prog ownerCall process R), wfHolders A → abides A any q → abides A any (q ≫= λ _, mret tt)) as Hq.
  { intros R q Hwf Hq. refine (abides_bind A any any q _ Hq Hwf _). done. }
  intros Hwf. destruct 1; try (apply Hq; [done|]).
  - by apply abides_ClaimWithReset.
  - by apply abides_Renew.
  - by apply abides_release.
  - by apply abides_ClaimAs.
  - by apply abides_RenewAs.
  - by apply abides_ReleaseAs.
  - by apply abides_any.
Qed.

Lemma ownerInv_act x w w' :
  ownerAction x → ownerInv w → act x w = Some w' → roomLeft (wHist w') → ownerInv w'.
Proof.
  intros Hx (A & Hinv & Hpend & Hthr) Hact Hroom. destruct x as [m|i p|n a|n].
  - injection Hact as <-. by exists A.
  - simpl in Hact. destruct (wProcs w !! i); [|done]. injection Hact as <-. exists A. split_and!; [done..|].
    apply Forall_app. split; [done|]. constructor; [|done].
    apply abides_thread; [by eapply inv_wf|done].
  - apply act_Run in Hact as (i & p & m & st & m' & p' & Hn & Hi & Hs & ->). simpl in *.
    pose proof (Forall_lookup_1 _ _ _ _ Hthr Hn) as Hp. simpl in Hp.
    destruct (abides_step A a _ m p st m' p' _ Hinv Hp Hs Hroom) as (A' & Hsub & Hinv' & Hdel & Hp').
    exists A'. split_and!; [done| |].
    + apply Forall_app. split; [|done]. eapply Forall_impl; [exact Hpend|]. intros op. by apply goodOp_mono.
    + apply Forall_insert; [|done]. eapply Forall_impl; [exact Hthr|]. intros [j q]. by apply abides_mono.
  - simpl in Hact. destruct (wPending w !! n) as [op|] eqn:Hn; [|done]. injection Hact as <-. simpl in *.
    exists A. split_and!; [|by apply Forall_delete|done].
    apply bucketInv_perform; [done|]. by apply (Forall_lookup_1 _ _ _ _ Hpend Hn).
Qed.

Lemma act_hist (x : action ownerCall process unit) w w' :
  act x w = Some w' → ∃ l, wHist w' = wHist w ++ l.
Proof.
  destruct x as [m|i p|n a|n]; simpl.
  - intros [= <-]. exists []. by rewrite app_nil_r.
  - destruct (wProcs w !! i); [|done]. intros [= <-]. exists []. by rewrite app_nil_r.
  - intros (i & p & m & st & m' & p' & _ & _ & _ & ->)%act_Run. by eexists.
  - destruct (wPending w !! n); [|done]. intros [= <-]. by eexists.
Qed.

Lemma acts_hist (xs : list (action ownerCall process unit)) w w' :
  acts xs w = Some w' → ∃ l, wHist w' = wHist w ++ l.
Proof.
  revert w. induction xs as [|x xs IH]; intros w; cbn [acts].
  - intros [= <-]. exists []. by rewrite app_nil_r.
  - destruct (act x w) as [w1|] eqn:E; [|done]. intros (l & ->)%IH. apply act_hist in E as (l' & ->).
    exists (l' ++ l). by rewrite app_assoc.
Qed.

Lemma roomLeft_app h l : roomLeft (h ++ l) → roomLeft h.
Proof. intros Hr c d Hd. apply (Hr c). apply elem_of_app. by left. Qed.

Lemma ownerInv_acts xs w w' :
  Forall ownerAction xs → ownerInv w → acts xs w = Some w' → roomLeft (wHist w') → ownerInv w'.
Proof.
  intros Hxs. revert w. induction Hxs as [|x xs Hx Hxs IH]; intros w Hw; cbn [acts].
  - by intros [= <-].
  - destruct (act x w) as [w1|] eqn:E; [|done]. intros Hacts Hroom. apply (IH w1); [|done..].
    eapply ownerInv_act; [done..|]. destruct (acts_hist xs w1 w' Hacts) as (l & El).
    rewrite El in Hroom. by eapply roomLeft_app.
Qed.

Lemma ownerInv_empty : ownerInv emptyWorld.
Proof.
  exists ∅. split_and!; [|done..]. split; simpl; try done.
  - by intros c d Hd%elem_of_nil.
  - constructor.
  - by intros c d Hd%elem_of_nil.
Qed.

Lemma marshal_inj (o o' : Owner) : marshal o = marshal o' → o = o'.
Proof.
  intros E. apply (f_equal (λ d, unmarshal (A := Owner) d)) in E. rewrite !unmarshal_marshal in E. by injection E.
Qed.

Lemma hist_held A st hist c o : bucketInv A st hist → (ownerOf c, marshal o) ∈ hist → held A c o.
Proof.
  intros Hinv Hin. destruct (inv_owner _ _ _ Hinv c _ Hin) as (o' & E & Ho). by apply marshal_inj in E as ->.
Qed.

Lemma held_below A st hist c o :
  bucketInv A st hist → held A c o → ∃ g, st !! genOf c = Some (FormatUint g) ∧ 0 < oEpoch o ≤ g.
Proof.
  intros Hinv Ho. pose proof (inv_wf _ _ _ Hinv _ _ _ Ho) as He.
  assert (oEpoch o ∈ gensOf c hist) as Hin.
  { apply gensOf_elem. exists (FormatUint (oEpoch o)). split; [by eapply inv_given|]. apply ParseUint_Format. lia. }
  rewrite (inv_last _ _ _ Hinv). destruct (last (gensOf c hist)) as [g|] eqn:Hl; last first.
  { apply last_None in Hl. rewrite Hl in Hin. by apply elem_of_nil in Hin. }
  exists g. split; [done|]. pose proof (increasing_last _ _ _ (inv_sorted _ _ _ Hinv c) Hl Hin). lia.
Qed.

Lemma replaces_refl o : replaces o o.
Proof. by right. Qed.

Lemma replaces_perform A op st c o o' :
  goodOp A op → st !! ownerOf c = Some (marshal o) →
  (perform op st).1 !! ownerOf c = Some (marshal o') → replaces o o'.
Proof.
  intros Hop Ho Ho'. assert (st !! ownerOf c = Some (marshal o') → replaces o o') as Hsame.
  { rewrite Ho. intros [= ->%marshal_inj]. apply replaces_refl. }
  destruct (perform_cases op st) as [[E _]|[(k & d & E & _ & Hc)|(k & E & _ & _)]]; rewrite E in Ho'; [auto| |].
  - destruct (decide (k = ownerOf c)) as [->|Hk]; [|rewrite lookup_insert_ne in Ho' by done; auto].
    rewrite lookup_insert_eq in Ho'. injection Ho' as ->.
    destruct Hc as [->|[[-> Hst]|(cur & -> & Hst)]]; simpl in Hop.
    + destruct Hop. exists c. auto.
    + by rewrite Ho in Hst.
    + rewrite Ho in Hst. injection Hst as <-. destruct Hop as [_ Hop].
      destruct (Hop c eq_refl) as (o1 & o2 & E1%etag_inj%marshal_inj & E2%marshal_inj & _ & Hr). by subst.
  - apply lookup_delete_Some in Ho' as [_ Ho']. auto.
Qed.

(** A step changes the bucket by one disciplined operation, or not at all. *)
Lemma step_store (A : holders) a st m p st' m' p' :
  abides A any (p : prog ownerCall process unit) → step a st m p = Some (st', m', p') →
  st' = st ∨ ∃ op, goodOp A op ∧ st' = (perform op st).1.
Proof.
  destruct p as [r|key k|op k|pre k|k|k|T f k|T c f k|c k]; simpl; destruct a as [|ap e|e|t|b]; try done;
    try (intros _ [= <- <- <-]; by left).
  - case_decide; [done|]. intros _ [= <- <- <-]. by left.
  - intros [Hop _]. destruct (perform op st) as [st1 r] eqn:E. intros [= <- <- <-]. right. exists op. by rewrite E.
  - intros [Hop _] [= <- <- <-]. destruct ap; [right; eauto|by left].
  - intros _. destruct (f m). intros [= <- <- <-]. by left.
  - intros _. destruct (f m) as [[]|]; [|done]. intros [= <- <- <-]. by left.
  - intros _. destruct c; [|done]. intros [= <- <- <-]. by left.
Qed.

Lemma act_store (A : holders) (x : action ownerCall process unit) w w' :
  Forall (goodOp A) (wPending w) → Forall (λ '(_, p), abides A any p) (wThreads w) → act x w = Some w' →
  wStore w' = wStore w ∨ ∃ op, goodOp A op ∧ wStore w' = (perform op (wStore w)).1.
Proof.
  intros Hpend Hthr. destruct x as [m|i p|n a|n]; simpl.
  - intros [= <-]. by left.
  - destruct (wProcs w !! i); [|done]. intros [= <-]. by left.
  - intros (i & p & m & st & m' & p' & Hn & Hi & Hs & ->)%act_Run. simpl.
    eapply step_store; [|done]. by apply (Forall_lookup_1 _ _ _ _ Hthr Hn).
  - destruct (wPending w !! n) as [op|] eqn:Hn; [|done]. intros [= <-]. right. exists op.
    split; [by apply (Forall_lookup_1 _ _ _ _ Hpend Hn)|done].
Qed.

Lemma fleet_inv xs w :
  Forall ownerAction xs → acts xs emptyWorld = Some w → roomLeft (wHist w) → ownerInv w.
Proof. intros Hxs Hacts Hroom. eapply ownerInv_acts; [done|apply ownerInv_empty|done..]. Qed.
End fleet.

(** ** Properties *)

(** C6: generations are a fence: in every run of the fleet, with calls failing and
    writes lost or arriving late, the generations written for a cell strictly
    increase, and the object holds the last of them; no write, and in particular
    no release, ever takes the counter back or removes it. *)
Theorem generations_increase `{Etag} `{MapOrder} `{leaseCodec} `{ownerCodec} xs w s :
  Forall ownerAction xs → acts xs emptyWorld = Some w → roomLeft (wHist w) →
  StronglySorted Z.lt (gensOf (scopeKey s) (wHist w))
  ∧ wStore w !! genKey s = FormatUint <$> last (gensOf (scopeKey s) (wHist w)).
Proof.
  intros Hxs Hacts Hroom. destruct (fleet_inv xs w Hxs Hacts Hroom) as (A & Hinv & _ & _).
  split; [apply (inv_sorted _ _ _ Hinv)|apply (inv_last _ _ _ Hinv)].
Qed.

(** C5: an epoch belongs to one holder: in every run of the fleet, two owner records
    ever written for a cell with the same epoch name the same node and session,
    even across releases, takeovers and writes that arrive late; and the cell's
    generation is never below the epoch of a record. *)
Theorem epoch_one_holder `{Etag} `{MapOrder} `{leaseCodec} `{ownerCodec} xs w s o o' :
  Forall ownerAction xs → acts xs emptyWorld = Some w → roomLeft (wHist w) →
  (ownerKey s, marshal o) ∈ wHist w → (ownerKey s, marshal o') ∈ wHist w →
  (oEpoch o = oEpoch o' → oNode o = oNode o' ∧ oSession o = oSession o')
  ∧ ∃ g, wStore w !! genKey s = Some (FormatUint g) ∧ 0 < oEpoch o ≤ g.
Proof.
  intros Hxs Hacts Hroom Ho Ho'. destruct (fleet_inv xs w Hxs Hacts Hroom) as (A & Hinv & _ & _).
  apply (hist_held _ _ _ (scopeKey s) _ Hinv) in Ho, Ho'. split; [|by eapply held_below].
  intros E. unfold held in Ho, Ho'. rewrite E, Ho' in Ho. by injection Ho as -> ->.
Qed.

(** C7: an owner record is replaced only under a larger epoch or by its own holder: at
    every step of every run, when a cell has a record before and after the step,
    the later record has a larger epoch, or the same epoch, node and session. *)
Theorem owner_replaced `{Etag} `{MapOrder} `{leaseCodec} `{ownerCodec} xs x w w' s o o' :
  Forall ownerAction (xs ++ [x]) → acts xs emptyWorld = Some w → act x w = Some w' →
  roomLeft (wHist w') →
  wStore w !! ownerKey s = Some (marshal o) → wStore w' !! ownerKey s = Some (marshal o') →
  replaces o o'.
Proof.
  intros [Hxs Hx]%Forall_app Hacts Hact Hroom Ho Ho'.
  destruct (act_hist x w w' Hact) as (l & El). rewrite El in Hroom. apply roomLeft_app in Hroom.
  destruct (fleet_inv xs w Hxs Hacts Hroom) as (A & Hinv & Hpend & Hthr).
  destruct (act_store A x w w' Hpend Hthr Hact) as [E|(op & Hop & E)]; rewrite E in Ho'.
  - rewrite Ho in Ho'. injection Ho' as ->%marshal_inj. apply replaces_refl.
  - by eapply replaces_perform.
Qed.

(** ** Runs *)

Section runs.
#[local] Existing Instance contentTag.
#[local] Existing Instance keyOrder.
#[local] Instance nodeCodec : Codec NodeLease := bitCodec NodeLease.
#[local] Instance recordCodec : Codec Owner := bitCodec Owner.

Definition sc : Scope := MkScope "ns" "kv" "a".
Definition proc (node : string) : process :=
  MkProc (newOwnerManager (MkOwnerConfig node node "addr" EmptyString RoleCellAgent (10 * Second) false
            false false false))
         (NewManager (MkLeaseConfig node node "a" "u" "z" (10 * Second) "i")).

Definition claimAt (s : Z) : prog ownerCall process unit := ClaimWithReset sc (at_ s) false ≫= λ _, mret tt.
Definition releaseOf (epoch : Z) : prog ownerCall process unit := release sc epoch false ≫= λ _, mret tt.

(** [n1] claims the cell; its lease runs out and [n2] takes over. *)
Definition claimRun : list (action ownerCall process unit) :=
  let xs := [Boot (proc "n1"); Boot (proc "n2"); Spawn 0 (claimAt 1); Spawn 1 (claimAt 20)] in
  let ys := finish 0 (at_ 1) (after xs) in
  xs ++ ys ++ finish 1 (at_ 20) (after (xs ++ ys)).

Lemma claimRun_ok : Forall ownerAction claimRun.
Proof.
  unfold claimRun. apply Forall_app. split; [|apply Forall_app; split; by apply finish_ok].
  repeat (apply Forall_cons_2; [done || apply run_ClaimWithReset|]). done.
Qed.

Lemma roomLeft_all hist : Forall (λ kd, kd.2 ≠ FormatUint maxUint64) hist → roomLeft hist.
Proof. intros Hall c d Hd. by apply (proj1 (Forall_forall _ _) Hall (genOf c, d)). Qed.

Lemma claimRun_room : roomLeft (wHist (after claimRun)).
Proof. apply roomLeft_all. apply (bool_decide_unpack _). vm_compute. exact I. Qed.

Lemma claimRun_acts : acts claimRun emptyWorld = Some (after claimRun).
Proof. apply acts_after. vm_compute. reflexivity. Qed.

Lemma generations_increase_witness :
  gensOf (scopeKey sc) (wHist (after claimRun)) = [1; 2]
  ∧ wStore (after claimRun) !! genKey sc = Some (FormatUint 2).
Proof.
  split; [vm_compute; reflexivity|].
  destruct (generations_increase claimRun (after claimRun) sc claimRun_ok claimRun_acts claimRun_room)
    as [_ E]. rewrite E. vm_compute. reflexivity.
Defined.

Definition firstOwner : Owner := newOwner (oCfg (pOwner (proc "n1"))) 1 (at_ 1).
Definition secondOwner : Owner := newOwner (oCfg (pOwner (proc "n2"))) 2 (at_ 20).

Lemma epoch_one_holder_witness :
  ∃ g, wStore (after claimRun) !! genKey sc = Some (FormatUint g) ∧ 0 < oEpoch secondOwner ≤ g.
Proof.
  destruct (epoch_one_holder claimRun (after claimRun) sc secondOwner firstOwner claimRun_ok claimRun_acts
    claimRun_room) as [_ Hg].
  - apply (bool_decide_unpack _). vm_compute. exact I.
  - apply (bool_decide_unpack _). vm_compute. exact I.
  - exact Hg.
Defined.

Lemma owner_replaced_witness : replaces firstOwner secondOwner.
Proof.
  apply (owner_replaced (take 25 claimRun) (Run 1 RDone) (after (take 25 claimRun))
    (after (take 25 claimRun ++ [Run 1 RDone])) sc).
  - apply Forall_app. split; [apply Forall_take, claimRun_ok|by repeat constructor].
  - apply acts_after. vm_compute. reflexivity.
  - apply act_after. vm_compute. reflexivity.
  - apply roomLeft_all. apply (bool_decide_unpack _). vm_compute. exact I.
  - vm_compute. reflexivity.
  - vm_compute. reflexivity.
Defined.

(** Epochs of successive owners can go back: [n1] bumps the generation and stalls
    before it creates its record; [n2] claims and releases under the next
    generation; then the record of [n1] is created under the older epoch. *)
Definition stallRun : list (action ownerCall process unit) :=
  let xs := [Boot (proc "n1"); Boot (proc "n2"); Spawn 0 (claimAt 1); Spawn 1 (claimAt 1); Spawn 1 (releaseOf 2)]
            ++ replicate 6 (Run 0 RDone) in
  let ys := xs ++ finish 1 (at_ 1) (after xs) in
  let zs := ys ++ finish 2 (at_ 1) (after ys) in
  zs ++ finish 0 (at_ 1) (after zs).

Example epochs_can_go_back :
  acts stallRun emptyWorld = Some (after stallRun)
  ∧ omap (λ '(k, d), if decide (k = ownerKey sc) then (λ o, (oNode o, oEpoch o)) <$> unmarshal (A := Owner) d
                     else None) (wHist (after stallRun)) = [("n2"%string, 2); ("n1"%string, 1)].
Proof.
  split; [|vm_compute; reflexivity].
  apply acts_after. vm_compute. reflexivity.
Qed.
End runs.
