(* ===== verification/Route.v ===== *)
(** * Owner caches and routing ([internal/owner]: [route.go], [ResolveCached])

    Requests are routed by hints: a short cache of owner records, and routes that
    carry the lease evidence they were built on. Lookups of one scope share a
    flight. Readers hold a fence: a revision of the scope that every invalidation moves
    and so does the beginning and the end of a release, together with an epoch that
    moves whenever a revision is dropped to bound memory. A claim that writes a record
    invalidates the scope after its write; a claim that finds the process's own record
    keeps it and moves nothing, and neither do the calls made for another node.

    The lease calls that the code makes inside a critical section of [mu] are part
    of that section here; the clock readings of a section come before it. A loop
    of [ResolveRoute] runs at most [fuel] rounds.

    The theorem: a fence that still holds proves that the scope was not invalidated
    since the fence was taken and is not being released, however the caches were
    trimmed in between. *)

From S2P Require Import Prelude Decimal Cell Bucket Fleet Objects Lease Owner.

(** ** Sections of [mu] *)

Definition maxOwnerRoutes : Z := 4096.

(** [localLease]: the record is this process's and so is the lease manager. *)
Definition localLease (cfg : ownerConfig) (lcfg : leaseConfig) (o : Owner) : bool :=
  ocLeaseView cfg && bool_decide (oLiveness o = "node-lease") && isOwn cfg o
  && bool_decide (cNodeID lcfg = ocNodeID cfg) && bool_decide (cSession lcfg = ocSession cfg).

(** [Healthy(t)] as one section; [u] is its second reading of the clock. *)
Definition healthyLocked (t u : time) (l : LeaseManager) : bool * LeaseManager :=
  let '(expired, l) := expiredLocked t l in
  if expired then (false, l)
  else let '(until, l) := healthyUntilLocked u l in
       (match until with Some e => Before t e | None => false end, l).

Definition beforeUntil (t : time) (until : option time) : bool :=
  match until with Some u => Before t u | None => false end.

Definition routeValid (c : ownerRoute) (t : time) : bool :=
  beforeUntil t (rUntil c) && bool_decide (UnixMilli t < rWallExpiry c).

(** The time a zero deadline reads as does not matter: no instant is before it. *)
Definition untilMilli (u : option time) : Z := match u with Some u => UnixMilli u | None => 0 end.

(** What the first section of a round of [ResolveRoute] finds: a valid route, a flight
    to wait for, or that it leads a new one. *)
Inductive lookup : Type :=
| Hit (o : Owner) (etag : string)
| Join (flight : nat)
| Lead (flight : nat) (rev : Z).

Section sections.
Context `{MapOrder}.

(** [ResolveCached]'s first section. *)
Definition cachedHit (key : string) (t : time) (ttl : Z) (x : ownerCaches) : option (Owner * string) :=
  match cache x !! key with
  | Some c => if decide (mono t - mono (coAt c) < ttl) then Some (coOwner c, coEtag c) else None
  | None => None
  end.

Definition beginResolve (key : string) (x : ownerCaches) : ownerCaches :=
  setPending (<[key := count (cachePending x) key + 1]> (cachePending x)) x.

Definition endResolve (key : string) (rev : Z) (o : Owner) (e : string) (at_ t : time) (x : ownerCaches) :
    ownerCaches :=
  let x := if decide (count (cacheRev x) key = rev)
           then setCache (<[key := MkCached o e at_]> (cache x)) x else x in
  trimCachesLocked t (finishResolveLocked key x).

(** The route after it was looked at: a local one is extended while the lease holds. *)
Definition refreshRoute (cfg : ownerConfig) (t u v : time) (c : ownerRoute) (l : LeaseManager) :
    option ownerRoute * LeaseManager :=
  if negb (routeValid c t) then (None, l)
  else if negb (rLocal c) then (Some c, l)
  else if negb (localLease cfg (lCfg l) (rOwner c)) then (None, l)
  else
    let '(healthy, l) := healthyLocked t u l in
    if healthy : bool then
      let '(until, l) := healthyUntilLocked v l in
      (Some (MkRoute (rOwner c) (rEtag c) until (untilMilli until) true), l)
    else (None, l).

Definition startFlight (key : string) (x : ownerCaches) : lookup * ownerCaches :=
  match routeFlights x !! key with
  | Some f => (Join f, x)
  | None =>
      let rev := count (cacheRev x) key in
      let f := length (flights x) in
      (Lead f rev, setFlights (<[key := f]> (routeFlights x)) (flights x ++ [MkFlight rev None]) x)
  end.

Definition lookupRoute (key : string) (t u v : time) (m : process) : lookup * process :=
  let x := oCaches (pOwner m) in
  let put (x : ownerCaches) (l : LeaseManager) := MkProc (setCaches x (pOwner m)) l in
  match routes x !! key with
  | None => let '(r, x) := startFlight key x in (r, put x (pLease m))
  | Some c =>
      let '(c, l) := refreshRoute (oCfg (pOwner m)) t u v c (pLease m) in
      match c with
      | Some c => (Hit (rOwner c) (rEtag c), put (setRoutes (<[key := c]> (routes x)) x) l)
      | None => let '(r, x) := startFlight key (setRoutes (delete key (routes x)) x) in (r, put x l)
      end
  end.

(** Room for one more route: the first one the iteration meets goes. *)
Definition evictRoute (x : ownerCaches) : ownerCaches :=
  if decide (maxOwnerRoutes ≤ Z.of_nat (size (routes x))) then
    countRange (match mapKeys (routes x) x with
                | victim :: _ => setRoutes (delete victim (routes x)) x
                | [] => x
                end)
  else x.

(** The last section of the leader: the route is kept if nothing moved the revision,
    and the waiters get the answer. *)
Definition finishFlight (key : string) (f : nat) (rev : Z) (c : ownerRoute)
    (r : result ownerError (Owner * string)) (retry : bool) (t u : time) (x : ownerCaches) :
    bool * ownerCaches :=
  let current := bool_decide (count (cacheRev x) key = rev) in
  let ok := match r with Ok _ => true | Err _ => false end in
  let x := if current && ok && beforeUntil t (rUntil c) && bool_decide (UnixMilli u < rWallExpiry c)
           then let x := evictRoute x in setRoutes (<[key := c]> (routes x)) x else x in
  (current, setFlights (delete key (routeFlights x))
              (<[f := MkFlight rev (Some (r, retry))]> (flights x)) x).

(** *** Fences *)

(** What a fence remembers, and what a read guard remembers besides. *)
Record fence := MkFence {
  fnRev : Z;
  fnEpoch : Z;
}.

Definition takeFence (key : string) (x : ownerCaches) : fence :=
  MkFence (count (cacheRev x) key) (cacheEpoch x).

Definition addGuard (key : string) (x : ownerCaches) : ownerCaches :=
  setGuards (<[key := count (guards x) key + 1]> (guards x)) x.

Definition releaseGuardLocked (key : string) (x : ownerCaches) : ownerCaches :=
  setGuards (countDown (guards x) key) x.

Definition fenceHolds (key : string) (f : fence) (x : ownerCaches) : bool :=
  bool_decide (cacheEpoch x = fnEpoch f) && bool_decide (count (releasing x) key = 0)
  && bool_decide (count (cacheRev x) key = fnRev f).

(** The first section of [ReadFence]: [None] while a release is under way. *)
Definition openFence (key : string) (x : ownerCaches) : option fence * ownerCaches :=
  if decide (0 < count (releasing x) key) then (None, x)
  else (Some (takeFence key x), addGuard key x).

(** The check; the guard is given back the first time. *)
Definition checkFence (key : string) (f : fence) (released : bool) (x : ownerCaches) : bool * ownerCaches :=
  (fenceHolds key f x, if released then x else releaseGuardLocked key x).

(** The first section of [LocalReadGuard], with the route it relies on. *)
Definition openGuard (key : string) (t u : time) (m : process) : option (fence * ownerRoute) * process :=
  let x := oCaches (pOwner m) in
  match routes x !! key with
  | None => (None, m)
  | Some c =>
      if rLocal c && localLease (oCfg (pOwner m)) (lCfg (pLease m)) (rOwner c)
         && bool_decide (count (releasing x) key = 0) && routeValid c t
      then let '(healthy, l) := healthyLocked t u (pLease m) in
           if healthy : bool
           then (Some (takeFence key x, c), MkProc (setCaches (addGuard key x) (pOwner m)) l)
           else (None, MkProc (pOwner m) l)
      else (None, m)
  end.

Definition checkGuard (key : string) (f : fence) (c : ownerRoute) (released : bool) (t u : time)
    (m : process) : bool * process :=
  let x := oCaches (pOwner m) in
  let still := match routes x !! key with Some c' => bool_decide (rOwner c' = rOwner c) | None => false end in
  let x' := if released then x else releaseGuardLocked key x in
  if fenceHolds key f x && still && localLease (oCfg (pOwner m)) (lCfg (pLease m)) (rOwner c) && routeValid c t
  then let '(healthy, l) := healthyLocked t u (pLease m) in (healthy, MkProc (setCaches x' (pOwner m)) l)
  else (false, MkProc (setCaches x' (pOwner m)) (pLease m)).
End sections.

(** ** Programs *)

(** [errors.Is(err, context.Canceled) || errors.Is(err, context.DeadlineExceeded)] *)
Definition isCtxErr (e : ownerError) : bool :=
  match e with
  | ErrCtxDone | ErrBucket ErrCanceled | ErrLease ErrGetCtx | ErrLease (ErrGet ErrCanceled) => true
  | _ => false
  end.

Section programs.
Context `{MapOrder} `{leaseCodec} `{ownerCodec}.
Abbreviation prog := (prog ownerCall process).

Definition inCaches {A} (f : ownerCaches → A * ownerCaches) : prog A :=
  atomic (λ m, let '(a, x) := f (oCaches (pOwner m)) in (a, MkProc (setCaches x (pOwner m)) (pLease m))).

Definition ResolveCached (s : Scope) (ttl : Z) : prog (result ownerError (Owner * string)) :=
  let key := scopeString s in
  t ← now;
  '(rev, hit) ← inCaches (λ x,
    match cachedHit key t ttl x with
    | Some r => ((count (cacheRev x) key, Some r), x)
    | None => ((count (cacheRev x) key, None), beginResolve key x)
    end);
  match hit with
  | Some r => mret (Ok r)
  | None =>
      r ← Resolve s;
      match r with
      | Err e => _ ← onCaches (finishResolveLocked key); mret (Err e)
      | Ok (o, e) =>
          at_ ← now; t ← now; _ ← onCaches (endResolve key rev o e at_ t); mret (Ok (o, e))
      end
  end.

(** The lease of a foreign owner, read again when the snapshot does not prove it. *)
Definition routeLease (o : Owner) : prog (result getError (option NodeLease)) :=
  r ← withLease (leaseOf (oNode o));
  t ← now;
  match r with
  | Err e => mret (Err e)
  | Ok l =>
      if match l with
         | Some l => bool_decide (lNode l = oNode o) && bool_decide (lSession l = oSession o) && leaseLive l t
         | None => false
         end
      then mret (Ok l) else withLease (leaseFresh (oNode o))
  end.

(** [issued.Add(time.Duration(l.Expiry-time.Now().UnixMilli()) * time.Millisecond)] *)
Definition routeDeadline (issued t : time) (l : NodeLease) : time :=
  Add issued (i64 (i64 (lExpiry l - UnixMilli t) * Millisecond)).

(** The route a leader builds from the record it read. *)
Definition buildRoute (o : Owner) (e : string) (localUntil : option time) (issued : time) :
    prog (result ownerError ownerRoute) :=
  cfg ← ownerCfg; lcfg ← leaseCfg;
  if localLease cfg lcfg o then mret (Ok (MkRoute o e localUntil (untilMilli localUntil) true))
  else if bool_decide (oLiveness o = "node-lease") && ocLeaseView cfg then
    r ← routeLease o;
    match r with
    | Err le => mret (Err (ErrLease le))
    | Ok (Some l) =>
        if decide (lNode l = oNode o ∧ lSession l = oSession o) then
          t ← now; mret (Ok (MkRoute o e (Some (routeDeadline issued t l)) (lExpiry l) false))
        else mret (Ok (MkRoute o e None 0 false))
    | Ok None => mret (Ok (MkRoute o e None 0 false))
    end
  else mret (Ok (MkRoute o e (Some (Add issued Second)) (oExpiry o) false)).

(** A local record whose lease ran out during the read is not trusted when the lease
    has been revived since. *)
Definition retryLocal (c : ownerRoute) (localUntil : option time) : prog bool :=
  if negb (rLocal c) then mret false
  else t ← now;
       if beforeUntil t localUntil then mret false
       else t ← now; withLease (Healthy t).

Definition noRoute : ownerRoute :=
  MkRoute (MkOwner EmptyString RoleCellAgent EmptyString 0 0 EmptyString EmptyString EmptyString EmptyString)
    EmptyString None 0 false.

(** The leader of a flight; [None] asks for another round. *)
Definition leadFlight (s : Scope) (f : nat) (rev : Z) : prog (option (result ownerError (Owner * string))) :=
  cfg ← ownerCfg;
  localUntil ← (if ocLeaseView cfg then withLease HealthyUntil else mret None);
  issued ← now;
  r ← Resolve s;
  c ← (match r with
       | Ok (o, e) => buildRoute o e localUntil issued
       | Err e => mret (Err e)
       end);
  retry ← (match c with Ok c => retryLocal c localUntil | Err _ => mret false end);
  let answer := match c with Ok c => Ok (rOwner c, rEtag c) | Err e => Err e end in
  t ← now; u ← now;
  current ← inCaches (finishFlight (scopeString s) f rev (match c with Ok c => c | Err _ => noRoute end)
                        answer retry t u);
  mret (if negb current || retry then None else Some answer).

(** The flight a waiter was woken by, and whether its revision is current. *)
Definition flightAnswer (key : string) (f : nat) (x : ownerCaches) :
    bool * option (result ownerError (Owner * string) * bool) :=
  match flights x !! f with
  | Some fl => (bool_decide (count (cacheRev x) key = fRev fl), fResult fl)
  | None => (false, None)
  end.

(** A waiter for a flight. *)
Definition joinFlight (s : Scope) (f : nat) : prog (option (result ownerError (Owner * string))) :=
  done ← waitCtx (λ m, match flights (oCaches (pOwner m)) !! f with
                       | Some (MkFlight _ (Some _)) => Some m
                       | _ => None
                       end);
  if negb done then mret (Some (Err ErrCtxDone))
  else
    '(current, r) ← inCaches (λ x, (flightAnswer (scopeString s) f x, x));
    mret (match r with
          | Some (answer, retry) =>
              if negb current || retry then None
              else match answer with
                   | Err e => if isCtxErr e then None else Some (Err e)
                   | Ok r => Some (Ok r)
                   end
          | None => None
          end).

Definition routeRound (s : Scope) : prog (option (result ownerError (Owner * string))) :=
  c ← ctxErr;
  if c : bool then mret (Some (Err ErrCtxDone))
  else
    t ← now; u ← now; v ← now;
    r ← atomic (lookupRoute (scopeString s) t u v);
    match r with
    | Hit o e => mret (Some (Ok (o, e)))
    | Join f => joinFlight s f
    | Lead f rev => leadFlight s f rev
    end.

(** [None] when the rounds ran out. *)
Fixpoint ResolveRoute (fuel : nat) (s : Scope) : prog (option (result ownerError (Owner * string))) :=
  match fuel with
  | O => mret None
  | S fuel =>
      r ← routeRound s;
      match r with Some r => mret (Some r) | None => ResolveRoute fuel s end
  end.

Definition LiveRoute (s : Scope) (o : Owner) (t : time) : prog (result ownerError bool) :=
  cfg ← ownerCfg;
  c ← inCaches (λ x, (routes x !! scopeString s, x));
  let valid := match c with Some c => bool_decide (rOwner c = o) && routeValid c t | None => false end in
  let local := match c with Some c => rLocal c | None => false end in
  if valid && negb local && bool_decide (oLiveness o = "node-lease") && ocLeaseView cfg
  then mret (Ok true) else Live o t.

Definition ReadFence (s : Scope) : prog (option fence) := inCaches (openFence (scopeString s)).
Definition ReadFenceCheck (s : Scope) (f : fence) (released : bool) : prog bool :=
  inCaches (checkFence (scopeString s) f released).

Definition LocalReadGuard (s : Scope) : prog (option (fence * ownerRoute)) :=
  t ← now; u ← now; atomic (openGuard (scopeString s) t u).
Definition LocalReadGuardCheck (s : Scope) (f : fence) (c : ownerRoute) (released : bool) : prog bool :=
  t ← now; u ← now; atomic (checkGuard (scopeString s) f c released t u).

(** The hint of [ResolveForwardRoute]: a foreign route whose owner the snapshot shows
    alive. *)
Definition forwardHint (s : Scope) (t : time) (m : process) : option (Owner * string) :=
  match routes (oCaches (pOwner m)) !! scopeString s with
  | Some c =>
      if negb (rLocal c) && negb (bool_decide (oNode (rOwner c) = ocNodeID (oCfg (pOwner m))))
         && bool_decide (oLiveness (rOwner c) = "node-lease")
      then match cachedLease (oNode (rOwner c)) (pLease m) with
           | Some l => if bool_decide (lNode l = oNode (rOwner c)) && bool_decide (lSession l = oSession (rOwner c))
                          && leaseLive l t
                       then Some (rOwner c, rEtag c) else None
           | None => None
           end
      else None
  | None => None
  end.

Definition ResolveForwardRoute (fuel : nat) (s : Scope) : prog (option (result ownerError (Owner * string))) :=
  c ← ctxErr;
  if c : bool then mret (Some (Err ErrCtxDone))
  else
    cfg ← ownerCfg;
    t ← now;
    hint ← (if ocLeaseView cfg then atomic (λ m, (forwardHint s t m, m)) else mret None);
    match hint with
    | Some r => mret (Some (Ok r))
    | None => ResolveRoute fuel s
    end.
End programs.

(** ** Fences hold only over quiet intervals *)

(** The sections of [mu] that the manager's operations are made of. *)
Inductive section : Type :=
| SInvalidate (key : string) (at_ t : time)
| SBeginRelease (key : string) (at_ t : time)
| SEndRelease (key : string) (at_ t : time)
| SBeginResolve (key : string)
| SFailResolve (key : string)
| SEndResolve (key : string) (rev : Z) (o : Owner) (e : string) (at_ t : time)
| SPutRoute (key : string) (c : ownerRoute)
| SDropRoute (key : string)
| SStartFlight (key : string)
| SFinishFlight (key : string) (f : nat) (rev : Z) (c : ownerRoute) (r : result ownerError (Owner * string))
    (retry : bool) (t u : time)
| SGuard (key : string)
| SUnguard (key : string)
| SOwned (key : string) (* one of [ownedMu] or [touchMu], as [rememberOwned]: not of the caches *).

(** The sections that move the scope's revision. *)
Definition invalidates (key : string) (a : section) : bool :=
  match a with
  | SInvalidate k _ _ | SBeginRelease k _ _ | SEndRelease k _ _ => bool_decide (k = key)
  | _ => false
  end.

Section fences.
Context `{MapOrder}.

Definition runSection (x : ownerCaches) (a : section) : ownerCaches :=
  match a with
  | SInvalidate key at_ t => invalidateLocked key at_ t x
  | SBeginRelease key at_ t => beginRelease key at_ t x
  | SEndRelease key at_ t => endRelease key at_ t x
  | SBeginResolve key => beginResolve key x
  | SFailResolve key => finishResolveLocked key x
  | SEndResolve key rev o e at_ t => endResolve key rev o e at_ t x
  | SPutRoute key c => setRoutes (<[key := c]> (routes x)) x
  | SDropRoute key => setRoutes (delete key (routes x)) x
  | SStartFlight key => (startFlight key x).2
  | SFinishFlight key f rev c r retry t u => (finishFlight key f rev c r retry t u x).2
  | SGuard key => addGuard key x
  | SUnguard key => releaseGuardLocked key x
  | SOwned _ => x
  end.

(** Dropping [n] revisions: the epoch moves by as many. *)
Record drops (n : Z) (x x' : ownerCaches) : Prop := {
  drops_epoch : cacheEpoch x' = u64 (cacheEpoch x + n);
  drops_size : Z.of_nat (size (cacheRev x')) + n = Z.of_nat (size (cacheRev x));
  drops_none : n = 0 → cacheRev x' = cacheRev x;
  drops_pos : 0 ≤ n;
}.

Definition epochOk (x : ownerCaches) : Prop := is_u64 (cacheEpoch x).

Lemma u64_add a b : u64 (u64 a + b) = u64 (a + b).
Proof. unfold u64. by rewrite Z.add_mod_idemp_l. Qed.

Lemma drops_refl x x' :
  epochOk x → cacheEpoch x' = cacheEpoch x → cacheRev x' = cacheRev x → drops 0 x x'.
Proof. intros Hx He Hr. split; [|rewrite Hr|done|done]; [|lia]. by rewrite Z.add_0_r, u64_id. Qed.

Lemma drops_trans n n' x x' x'' : drops n x x' → drops n' x' x'' → drops (n + n') x x''.
Proof.
  intros [E1 S1 N1 P1] [E2 S2 N2 P2]. split; [|lia| |lia].
  - by rewrite E2, E1, u64_add, Z.add_assoc.
  - intros E. rewrite N2, N1 by lia. done.
Qed.

Lemma drops_dropRev key x : is_Some (cacheRev x !! key) → drops 1 x (dropRevLocked key x).
Proof.
  intros [v Hv]. split; cbn; [done| |lia|lia].
  rewrite map_size_delete, Hv. assert (size (cacheRev x) ≠ 0)%nat; [|lia].
  intros E%map_size_empty_inv. rewrite E in Hv. by rewrite lookup_empty in Hv.
Qed.

(** A loop over keys that drops some of them, each at most once. *)
Lemma drops_fold (f : ownerCaches → string → ownerCaches) keys x :
  (∀ x key, f x key = x ∨ f x key = dropRevLocked key x) →
  NoDup keys → (∀ key, key ∈ keys → is_Some (cacheRev x !! key)) → epochOk x →
  ∃ n, drops n x (foldl f x keys) ∧ epochOk (foldl f x keys).
Proof.
  intros Hf. revert x. induction keys as [|key keys IH]; intros x Hnd Hin Hx; simpl.
  { exists 0. split; [by apply drops_refl|done]. }
  apply NoDup_cons in Hnd as [Hnot Hnd].
  destruct (Hf x key) as [E|E]; rewrite E.
  - apply IH; [done| |done]. intros k Hk. apply Hin. by right.
  - assert (is_Some (cacheRev x !! key)) as Hkey by (apply Hin; left).
    pose proof (drops_dropRev key x Hkey) as Hd.
    destruct (IH (dropRevLocked key x)) as (n & Hn & Hok); [done| |apply u64_range|].
    { intros k Hk. cbn. rewrite lookup_delete_ne by (intros ->; done). apply Hin. by right. }
    exists (1 + n). split; [by eapply drops_trans|done].
Qed.

Lemma mapKeys_ok {V} (m : gmap string V) x :
  NoDup (mapKeys m x) ∧ ∀ key, key ∈ mapKeys m x → is_Some (m !! key).
Proof.
  unfold mapKeys. rewrite visit_perm. split; [apply NoDup_fst_map_to_list|].
  intros key. rewrite visit_perm. intros ([k v] & -> & Hv)%list_elem_of_fmap.
  apply elem_of_map_to_list in Hv. by exists v.
Qed.

Lemma drops_trim t x : epochOk x → ∃ n, drops n x (trimCachesLocked t x) ∧ epochOk (trimCachesLocked t x).
Proof.
  intros Hx. unfold trimCachesLocked.
  assert (drops 0 x (trimCache t x) ∧ epochOk (trimCache t x)) as [H1' Hx1].
  { unfold trimCache. case_decide; split; try done; by apply drops_refl. }
  revert H1' Hx1. generalize (trimCache t x) as x1. intros x1 H1' Hx1. unfold trimRevs.
  case_decide; [|by exists 0].
  destruct (mapKeys_ok (cacheRev x1) x1) as [Hnd Hin].
  destruct (drops_fold (dropIdle t) (mapKeys (cacheRev x1) x1) x1) as (n2 & H2' & Hx2); [|done..|].
  { intros y key. unfold dropIdle. repeat case_match; auto. }
  set (x2 := countRange (foldl (dropIdle t) x1 _)) in *.
  assert (drops n2 x1 x2) as H2'' by by destruct H2'. clear H2'.
  destruct (mapKeys_ok (cacheRev x2) x2) as [Hnd2 Hin2].
  destruct (drops_fold dropOver (mapKeys (cacheRev x2) x2) x2) as (n3 & H3' & Hx3); [|done..|].
  { intros y key. unfold dropOver. repeat case_match; auto. }
  exists (0 + (n2 + n3)). split; [|done]. eapply drops_trans; [done|]. eapply drops_trans; [done|]. by destruct H3'.
Qed.

(** What one section does to the revision of a scope and to the epoch. *)
Record moves (key : string) (n b : Z) (len : Z) (x x' : ownerCaches) : Prop := {
  moves_epoch : cacheEpoch x' = u64 (cacheEpoch x + n);
  moves_size : Z.of_nat (size (cacheRev x')) + n ≤ Z.of_nat (size (cacheRev x)) + len;
  moves_rev : n = 0 → is_u64 (count (cacheRev x) key) → count (cacheRev x') key = u64 (count (cacheRev x) key + b);
  moves_pos : 0 ≤ n;
}.

Lemma moves_drops key n x x' : drops n x x' → moves key n 0 0 x x'.
Proof.
  intros [E S N P]. split; [done|lia| |done]. intros -> Hc. by rewrite N, Z.add_0_r, u64_id.
Qed.

Lemma moves_join key n n' b b' len len' x x' x'' :
  moves key n b len x x' → moves key n' b' len' x' x'' → moves key (n + n') (b + b') (len + len') x x''.
Proof.
  intros [E1 S1 R1 P1] [E2 S2 R2 P2]. split; [|lia| |lia].
  - by rewrite E2, E1, u64_add, Z.add_assoc.
  - intros E Hc. rewrite R2, R1, u64_add, Z.add_assoc by (try lia; try done; rewrite R1 by (lia || done); apply u64_range).
    done.
Qed.

(** A section that leaves revisions and epoch alone. *)
Lemma moves_same key x x' :
  epochOk x → cacheEpoch x' = cacheEpoch x → cacheRev x' = cacheRev x →
  ∃ n, moves key n 0 1 x x' ∧ epochOk x'.
Proof.
  intros Hx He Hr. exists 0. split; [|by unfold epochOk; rewrite He].
  destruct (moves_drops key 0 x x'); [by apply drops_refl|]. split; [done|lia|done|done].
Qed.

Lemma moves_invalidate key k at_ t x :
  epochOk x → ∃ n, moves key n (Z.b2z (bool_decide (k = key))) 1 x (invalidateLocked k at_ t x)
                   ∧ epochOk (invalidateLocked k at_ t x).
Proof.
  intros Hx. unfold invalidateLocked. set (x1 := setRevs _ _ _ _).
  destruct (drops_trim t x1) as (n & Hd & Hok); [done|]. exists (0 + n). split; [|done].
  rewrite <-(Z.add_0_r (Z.b2z _)). change 1 with (1 + 0).
  eapply moves_join; [|by apply moves_drops]. split; cbn.
  - by rewrite Z.add_0_r, u64_id.
  - pose proof (map_size_insert k (u64 (count (cacheRev x) k + 1)) (cacheRev x)) as E. rewrite E.
    destruct (cacheRev x !! k); unfold id; lia.
  - intros _ Hc. unfold count at 1. destruct (decide (k = key)) as [->|Hk].
    + by rewrite lookup_insert_eq, bool_decide_eq_true_2.
    + rewrite lookup_insert_ne, bool_decide_eq_false_2 by done. cbn. by rewrite Z.add_0_r, u64_id.
  - lia.
Qed.

Lemma moves_releasing key k at_ t r x :
  epochOk x → ∃ n, moves key n (Z.b2z (bool_decide (k = key))) 1 x (invalidateLocked k at_ t (setReleasing r x))
                   ∧ epochOk (invalidateLocked k at_ t (setReleasing r x)).
Proof.
  intros Hx. destruct (moves_invalidate key k at_ t (setReleasing r x) Hx) as (n & [E S R P] & Hok).
  exists n. split; [by split|done].
Qed.

Lemma moves_section key x a :
  epochOk x → ∃ n, moves key n (Z.b2z (invalidates key a)) 1 x (runSection x a) ∧ epochOk (runSection x a).
Proof.
  intros Hx. destruct a; cbn [runSection invalidates Z.b2z].
  - by apply moves_invalidate.
  - by apply moves_releasing.
  - by apply moves_releasing.
  - by apply moves_same.
  - by apply moves_same.
  - unfold endResolve. set (x1 := finishResolveLocked _ _).
    assert (cacheEpoch x1 = cacheEpoch x ∧ cacheRev x1 = cacheRev x) as [He Hr] by (unfold x1; by case_decide).
    destruct (drops_trim t x1) as (n & Hd & Hok); [by unfold epochOk; rewrite He|]. exists n. split; [|done].
    destruct (moves_drops key n _ _ Hd) as [E S R P]. rewrite He, Hr in *. split; [done|lia|done|done].
  - by apply moves_same.
  - by apply moves_same.
  - apply moves_same; [done|..]; unfold startFlight; by case_match.
  - assert (cacheEpoch (evictRoute x) = cacheEpoch x ∧ cacheRev (evictRoute x) = cacheRev x) as [He Hr].
    { unfold evictRoute. by repeat case_match. }
    apply moves_same; [done|..]; unfold finishFlight; cbn; by case_match.
  - by apply moves_same.
  - by apply moves_same.
  - by apply moves_same.
Qed.

Lemma moves_sections key x ops :
  epochOk x → ∃ n, moves key n (Z.of_nat (length (filter (λ a, invalidates key a = true) ops)))
                     (Z.of_nat (length ops)) x (foldl runSection x ops).
Proof.
  revert x. induction ops as [|a ops IH]; intros x Hx; simpl.
  { exists 0. by apply moves_drops, drops_refl. }
  destruct (moves_section key x a Hx) as (n & Hn & Hx1). destruct (IH _ Hx1) as (n' & Hn').
  exists (n + n'). pose proof (moves_join _ _ _ _ _ _ _ _ _ _ Hn Hn') as [E S R P].
  rewrite filter_cons. split; [done|lia| |done].
  intros E0 Hc. rewrite R by done. f_equal. destruct (invalidates key a); simpl; rewrite ?Nat2Z.inj_succ; lia.
Qed.

(** A fence that holds was not crossed. *)
Lemma fence_quiet key x ops :
  epochOk x → is_u64 (count (cacheRev x) key) →
  Z.of_nat (size (cacheRev x)) + Z.of_nat (length ops) < 2 ^ 64 →
  fenceHolds key (takeFence key x) (foldl runSection x ops) = true →
  Forall (λ a, invalidates key a = false) ops ∧ count (releasing (foldl runSection x ops)) key = 0.
Proof.
  intros Hx Hc Hroom. unfold fenceHolds, takeFence. rewrite !andb_true_iff, !bool_decide_eq_true. cbn [fnRev fnEpoch].
  intros [[He Hr] Hrev]. split; [|done]. destruct (moves_sections key x ops Hx) as (n & [E S R P]).
  assert (n = 0) as ->.
  { rewrite He in E. unfold epochOk in Hx. unfold u64 in E. destruct (decide (n = 0)) as [|Hn]; [done|].
    rewrite Z.mod_eq in E by lia.
    set (q := (cacheEpoch x + n) / 2 ^ 64) in *. assert (n = 2 ^ 64 * q) by lia. nia. }
  rewrite R in Hrev by done.
  set (b := length (filter (λ a, invalidates key a = true) ops)) in *.
  assert (b ≤ length ops)%nat by apply length_filter.
  assert (b = 0)%nat as Hb.
  { unfold u64 in Hrev. rewrite Z.mod_eq in Hrev by lia.
    set (q := (count (cacheRev x) key + Z.of_nat b) / 2 ^ 64) in *. assert (Z.of_nat b = 2 ^ 64 * q) by lia. nia. }
  apply Forall_forall. intros a Ha. apply not_true_iff_false. intros Hi.
  apply length_zero_iff_nil in Hb. by eapply (filter_nil_not_elem_of _ _ _ Hb Hi).
Qed.
End fences.

(** ** Properties *)

(** C30: a read fence is sound: if a fence was opened on a scope and its check succeeds
    after any sequence of sections of the manager, then [Invalidate] did not run on the
    scope in between, no release of it began or ended, and none is under way, even if
    the caches were trimmed and revisions dropped and created anew (for fewer than
    [2^64] sections, over which the counters cannot come full circle). So a claim that
    wrote a record before the check has not yet reached the [Invalidate] that follows
    its write; a claim of an own record, which keeps record and epoch, does not cross
    the fence. *)
Theorem ReadFence_sound `{MapOrder} key x f x1 ops released :
  openFence key x = (Some f, x1) →
  is_u64 (cacheEpoch x) → is_u64 (count (cacheRev x) key) →
  Z.of_nat (size (cacheRev x)) + Z.of_nat (length ops) < 2 ^ 64 →
  (checkFence key f released (foldl runSection x1 ops)).1 = true →
  Forall (λ a, invalidates key a = false) ops ∧ count (releasing (foldl runSection x1 ops)) key = 0.
Proof.
  unfold openFence. case_decide; [done|]. intros [= <- <-] He Hc Hroom Hf.
  by apply (fence_quiet key (addGuard key x) ops).
Qed.

(** Another scope is invalidated and the fence still holds. *)
Lemma ReadFence_sound_witness :
  let x := newCaches in
  let a := SInvalidate "other" (MkTime 5 5) (MkTime 5 5) in
  invalidates "k" a = false
  ∧ count (releasing (foldl (@runSection keyOrder) (addGuard "k" x) [a])) "k" = 0.
Proof.
  intros x a.
  destruct (@ReadFence_sound keyOrder "k" x (takeFence "k" x) (addGuard "k" x) [a] true) as [Hall Hr].
  - vm_compute. reflexivity.
  - vm_compute. split; [intros E; discriminate E|reflexivity].
  - vm_compute. split; [intros E; discriminate E|reflexivity].
  - vm_compute. reflexivity.
  - vm_compute. reflexivity.
  - split; [exact (Forall_inv Hall)|exact Hr].
Defined.
