(* ===== verification/Discipline.v ===== *)
(** * Disciplines on shared objects

    Several subsystems keep one record per key in the bucket and only ever move it
    forward: they create it, replace the version they read by a later one, or
    delete the version they read. A [Discipline] says which keys, which contents
    and which moves. If every thread of a fleet keeps it, then in every run each
    step moves each record as the discipline says, whatever writes are lost or
    late: what makes a conditional write good does not depend on when it arrives. *)

From S2P Require Import Prelude Cell Bucket Fleet.

Class Discipline := {
  dKey : string → Prop;
  (** the contents a record of the key may have *)
  dOk : string → bytes → Prop;
  (** the content that may take the place of another *)
  dMove : string → bytes → bytes → Prop;
  (** the content that may be deleted *)
  dGone : string → bytes → Prop;
}.

Section discipline.
Context `{Etag} `{Discipline}.

Definition goodWrite (op : bucketOp) : Prop :=
  dKey (opKey op) →
  match op with
  | Put _ _ | Delete _ => False
  | ConditionalCreate k d => dOk k d
  | CAS k d e => ∃ d0, e = etag d0 ∧ dMove k d0 d ∧ dOk k d
  | ConditionalDelete k e => ∃ d0, e = etag d0 ∧ dGone k d0
  end.

Context {C M : Type}.

(** Every path of the program keeps the discipline and ends with [Q]. *)
Fixpoint yields {R : Type} (Q : R → Prop) (p : prog C M R) : Prop :=
  match p with
  | Ret r => Q r
  | Fetch key k => ∀ r,
      (∀ d e, r = Ok (d, e) → e = etag d ∧ (dKey key → dOk key d)) → yields Q (k r)
  | Do op k => goodWrite op ∧ ∀ r, (∀ e, r = Ok e → e = tagOf op) → yields Q (k r)
  | ListKeys _ k => ∀ r, yields Q (k r)
  | Now k => ∀ t, yields Q (k t)
  | CtxErr k => ∀ b, yields Q (k b)
  | Atomic _ k => ∀ x, yields Q (k x)
  | Wait _ _ k => ∀ x, yields Q (k x)
  | Call _ k => ∀ b, yields Q (k b)
  end.

Definition keeps {R : Type} (p : prog C M R) : Prop := yields (λ _, True) p.

Lemma yields_bind {R S : Type} (Q : R → Prop) (Q' : S → Prop) (p : prog C M R) (g : R → prog C M S) :
  yields Q p → (∀ r, Q r → yields Q' (g r)) → yields Q' (p ≫= g).
Proof.
  change (p ≫= g) with (bind p g). intros Hp Hg.
  induction p as [r|key k IH|op k IH|pre k IH|k IH|k IH|T f k IH|T c f k IH|c k IH]; simpl in *; auto.
  destruct Hp as [Hop Hk]. split; [done|]. intros r Hr. by apply IH, Hk.
Qed.

Lemma keeps_then {R S : Type} (p : prog C M R) (g : R → prog C M S) :
  keeps p → (∀ r, keeps (g r)) → keeps (p ≫= g).
Proof. intros Hp Hg. eapply yields_bind; [exact Hp|]. intros r _. apply Hg. Qed.

(** A program that leaves the records of the discipline alone. *)
Fixpoint elsewhere {R : Type} (p : prog C M R) : Prop :=
  match p with
  | Ret _ => True
  | Fetch _ k => ∀ r, elsewhere (k r)
  | Do op k => ¬ dKey (opKey op) ∧ ∀ r, elsewhere (k r)
  | ListKeys _ k => ∀ r, elsewhere (k r)
  | Now k => ∀ t, elsewhere (k t)
  | CtxErr k => ∀ b, elsewhere (k b)
  | Atomic _ k => ∀ x, elsewhere (k x)
  | Wait _ _ k => ∀ x, elsewhere (k x)
  | Call _ k => ∀ b, elsewhere (k b)
  end.

Lemma keeps_elsewhere {R : Type} (p : prog C M R) : elsewhere p → keeps p.
Proof.
  unfold keeps. induction p as [r|key k IH|op k IH|pre k IH|k IH|k IH|T f k IH|T c f k IH|c k IH];
    simpl; auto. intros [Hk Hp]. split; [by intros Hd|auto].
Qed.

(** ** Fleets that keep it *)

(** Any thread may do what it likes elsewhere. *)
Definition tidy {R} (x : action C M R) : Prop :=
  match x with Spawn _ p => keeps p | _ => True end.

Record orderly {R} (w : world C M R) : Prop := {
  orderly_store k d : dKey k → wStore w !! k = Some d → dOk k d;
  orderly_pending : Forall goodWrite (wPending w);
  orderly_threads : Forall (λ '(_, p), keeps p) (wThreads w);
}.

(** What one good write does to the records. *)
Definition moved (st st' : store) : Prop :=
  ∀ k d, dKey k → st !! k = Some d →
    st' !! k = Some d ∨ (∃ d', st' !! k = Some d' ∧ dMove k d d') ∨ (st' !! k = None ∧ dGone k d).

Lemma moved_refl st : moved st st.
Proof. intros k d _ Hd. by left. Qed.

Lemma perform_good op st :
  goodWrite op → (∀ k d, dKey k → st !! k = Some d → dOk k d) →
  moved st (perform op st).1 ∧ ∀ k d, dKey k → (perform op st).1 !! k = Some d → dOk k d.
Proof.
  intros Hop Hst. destruct op as [k d|k d|k d e|k|k e]; cbn in *.
  - split; intros k' d' Hk'.
    + intros Hd. left. rewrite lookup_insert_ne; [done|]. intros ->. by apply Hop.
    + rewrite lookup_insert_Some. intros [[-> _]|[_ Hd]]; [by destruct (Hop Hk')|by apply Hst].
  - destruct (st !! k) as [c|] eqn:E; cbn; [split; [apply moved_refl|done]|]. split; intros k' d' Hk'.
    + intros Hd. left. rewrite lookup_insert_ne; [done|]. intros ->. congruence.
    + rewrite lookup_insert_Some. intros [[-> ->]|[_ Hd]]; [by apply Hop|by apply Hst].
  - destruct (st !! k) as [c|] eqn:E; cbn; [|split; [apply moved_refl|done]].
    case_decide as He; cbn; [|split; [apply moved_refl|done]]. subst e. split; intros k' d' Hk'.
    + intros Hd. destruct (decide (k = k')) as [<-|Hne]; [|left; by rewrite lookup_insert_ne].
      destruct (Hop Hk') as (d0 & ->%etag_inj & Hm & _). right. left. exists d.
      rewrite lookup_insert_eq. split; [done|]. congruence.
    + rewrite lookup_insert_Some. intros [[-> ->]|[_ Hd]]; [|by apply Hst].
      destruct (Hop Hk') as (d0 & _ & _ & Hok). done.
  - split; intros k' d' Hk'.
    + intros Hd. left. rewrite lookup_delete_ne; [done|]. intros ->. by apply Hop.
    + rewrite lookup_delete_Some. intros [_ Hd]. by apply Hst.
  - destruct (st !! k) as [c|] eqn:E; cbn; [|split; [apply moved_refl|done]].
    case_decide as He; cbn; [|split; [apply moved_refl|done]]. subst e. split; intros k' d' Hk'.
    + intros Hd. destruct (decide (k = k')) as [<-|Hne]; [|left; by rewrite lookup_delete_ne].
      destruct (Hop Hk') as (d0 & ->%etag_inj & Hg). right. right.
      rewrite lookup_delete_eq. split; [done|]. congruence.
    + rewrite lookup_delete_Some. intros [_ Hd]. by apply Hst.
Qed.

(** One step keeps the fleet orderly and moves the records as the discipline says. *)
Lemma orderly_act {R} x (w w' : world C M R) : tidy x → orderly w → act x w = Some w' → orderly w' ∧ moved (wStore w) (wStore w').
Proof.
  intros Hx [Hst Hpend Hthr] Hact. destruct x as [m|i p|n a|n].
  - injection Hact as <-. split; [by split|apply moved_refl].
  - simpl in Hact. destruct (wProcs w !! i); [|done]. injection Hact as <-.
    split; [|apply moved_refl]. split; simpl; [done|done|]. apply Forall_app. split; [done|]. by constructor.
  - apply act_Run in Hact as (i & p & m & st & m' & p' & Hn & Hi & Hs & ->). simpl.
    pose proof (Forall_lookup_1 _ _ _ _ Hthr Hn) as Hp. simpl in Hp.
    assert (keeps p' ∧ moved (wStore w) st ∧ (∀ k d, dKey k → st !! k = Some d → dOk k d)
            ∧ Forall goodWrite (delays a p)) as (Hp' & Hm & Hst' & Hd).
    { destruct p as [r|key k|op k|pre k|k|k|T f k|T c f k|c k]; unfold keeps in *; simpl in *; destruct a as [|ap e|e|t|b];
        try done; try (injection Hs as <- <- <-; split_and!; try done; try apply moved_refl; auto; fail).
      - injection Hs as <- <- <-. split_and!; try done; [|apply moved_refl]. apply Hp. intros d e He.
        unfold fetch in He. destruct (wStore w !! key) as [d'|] eqn:Hd; [|done]. injection He as -> <-. auto.
      - case_decide; [done|]. injection Hs as <- <- <-. split_and!; try done; [|apply moved_refl]. by apply Hp.
      - destruct Hp as [Hop Hk]. destruct (perform op (wStore w)) as [st1 r] eqn:Eop.
        injection Hs as <- <- <-. destruct (perform_good op (wStore w) Hop Hst) as [Hm Hok].
        rewrite Eop in Hm, Hok. split_and!; try done. apply Hk. intros e ->.
        apply (perform_tag op (wStore w)). by rewrite Eop.
      - destruct Hp as [Hop Hk]. injection Hs as <- <- <-.
        destruct (perform_good op (wStore w) Hop Hst) as [Hm Hok].
        destruct ap; split_and!; try done; try (by apply Hk). apply moved_refl.
      - destruct Hp as [Hop Hk]. injection Hs as <- <- <-. split_and!; [by apply Hk|apply moved_refl|done|by constructor].
      - destruct (f m) as [x m1]. injection Hs as <- <- <-. split_and!; try done. apply moved_refl.
      - destruct (f m) as [[x m1]|]; [|done]. injection Hs as <- <- <-. split_and!; try done. apply moved_refl.
      - destruct c; [|done]. injection Hs as <- <- <-. split_and!; try done. apply moved_refl. }
    split; [|done]. split; simpl; [done| |].
    + apply Forall_app. by split.
    + by apply Forall_insert.
  - simpl in Hact. destruct (wPending w !! n) as [op|] eqn:Hn; [|done]. injection Hact as <-. simpl.
    pose proof (Forall_lookup_1 _ _ _ _ Hpend Hn) as Hop.
    destruct (perform_good op (wStore w) Hop Hst) as [Hm Hok]. split; [|done].
    split; simpl; [done|by apply Forall_delete|done].
Qed.

Lemma orderly_acts {R} xs (w w' : world C M R) : Forall tidy xs → orderly w → acts xs w = Some w' → orderly w'.
Proof.
  intros Hxs Hw Hacts. eapply (acts_invariant tidy orderly); [|done..].
  intros x w1 w2 Hx Hw1 Hact. by eapply orderly_act.
Qed.

Lemma orderly_empty {R} : orderly (R := R) emptyWorld.
Proof. split; simpl; [|done..]. intros k d _. by rewrite lookup_empty. Qed.

(** In every run, each step moves the records as the discipline says. *)
Lemma run_moved {R} xs x (w w' : world C M R) :
  Forall tidy (xs ++ [x]) → acts xs emptyWorld = Some w → act x w = Some w' → moved (wStore w) (wStore w').
Proof.
  intros [Hxs Hx]%Forall_app Hacts Hact. apply Forall_inv in Hx.
  eapply orderly_act; [done| |done]. eapply orderly_acts; [done|apply orderly_empty|done].
Qed.
End discipline.
