(* ===== verification/NodeLog.v ===== *)
(** * Node logs ([internal/nodelog])

    A node opens a record for its session before it acknowledges a write that only
    its followers hold. The record names the followers; recovery moves it from
    [open] over [recovering] to [sealed] and notes how far each follower was
    collected. Every change is a conditional write.

    The theorem: in every run of the fleet a record, once created, is never
    removed, never changes its session and ensemble, never loses progress, and
    stays sealed once it is sealed. *)

From S2P Require Import Prelude Cell Bucket Fleet Objects Lease Discipline.

Definition StatusOpen : string := "open".
Definition StatusRecovering : string := "recovering".
Definition StatusSealed : string := "sealed".
Definition ProtoVersionLegacy : string := "v1".
Definition ProtoVersionSession : string := "v2".
Definition ProtoVersionIdentity : string := "v3".

Record RecoveryResolution := MkResolution {
  rrKind : string;
  rrAcceptedMs : Z;
  rrAuditKey : string;
  rrOriginalSHA256 : string;
}.

Record LogRecord := MkLog {
  nlResolution : option RecoveryResolution;
  nlNode : string;
  nlSession : string;
  nlEpoch : Z;
  nlFollowerRefs : gmap string PeerIdentity;
  nlProgress : gmap string Z;
  nlFollowers : list string;
  nlStatus : string;
  nlProtoVersion : string;
  nlUpdatedMs : Z;
  nlCoveredSeq : gmap string Z;
}.

Inductive nodelogError : Set :=
| ErrLogNotFound
| ErrSessionClosed (status : string)
| ErrEnsembleMismatch
| ErrCorruptLog
| ErrLogStore (e : objectsError).

(** [New]: the owned view of the node-log prefix *)
Definition logStore : Objects := NewOwned PrefixNodeLogs OwnerNodeLog.

(** [Key] *)
Definition logKey (node session : string) : string :=
  "node-logs/" +:+ node +:+ "/" +:+ session +:+ ".json".

Definition canonicalFollowers (followers : list string) : list string := sortKeys followers.

Definition sameFollowers (a b : list string) : bool :=
  bool_decide (canonicalFollowers a = canonicalFollowers b).

Definition setStatus (status : string) (ms : Z) (r : LogRecord) : LogRecord :=
  MkLog (nlResolution r) (nlNode r) (nlSession r) (nlEpoch r) (nlFollowerRefs r) (nlProgress r) (nlFollowers r)
    status (nlProtoVersion r) ms (nlCoveredSeq r).
Definition sealWith (covered : gmap string Z) (ms : Z) (r : LogRecord) : LogRecord :=
  MkLog (nlResolution r) (nlNode r) (nlSession r) (nlEpoch r) (nlFollowerRefs r) (nlProgress r) (nlFollowers r)
    StatusSealed (nlProtoVersion r) ms covered.
Definition setProgress (follower : string) (after ms : Z) (r : LogRecord) : LogRecord :=
  MkLog (nlResolution r) (nlNode r) (nlSession r) (nlEpoch r) (nlFollowerRefs r)
    (<[follower := after]> (nlProgress r)) (nlFollowers r) (nlStatus r) (nlProtoVersion r) ms (nlCoveredSeq r).

(** [r.Progress[follower]] *)
Definition progressOf (r : LogRecord) (follower : string) : Z := default 0 (nlProgress r !! follower).

(** The ensemble of [OpenIdentified]: complete and distinct identities. *)
Definition validRefs (refs : gmap string PeerIdentity) : bool :=
  bool_decide (refs ≠ ∅
    ∧ Forall (λ '(addr, id), addr ≠ EmptyString ∧ pNode id ≠ EmptyString ∧ pInstance id ≠ EmptyString)
        (map_to_list refs)
    ∧ NoDup (map_to_list refs).*2).

(** [strings.Cut(rest, "/")] on the way to a node id *)
Definition nodeOfKey (k : string) : option string :=
  if hasPrefix "node-logs/" k then
    match split slash (String.substring 10 (String.length k - 10) k) with
    | node :: _ :: _ => if decide (node = EmptyString) then None else Some node
    | _ => None
    end
  else None.

Section programs.
Context `{Codec LogRecord} {C M : Type}.
Abbreviation prog := (prog C M).

Definition logGet (node session : string) : prog (result nodelogError (LogRecord * string)) :=
  r ← GetVersion logStore (logKey node session);
  mret (match r with
        | Err (ErrObject ErrNotFound) => Err ErrLogNotFound
        | Err e => Err (ErrLogStore e)
        | Ok (data, e) => match unmarshal data with Some r => Ok (r, e) | None => Err ErrCorruptLog end
        end).

(** The CAS of a record that was read. *)
Definition logCas (node session : string) (r : LogRecord) (e : string) : prog (result objectsError string) :=
  write logStore (CAS (logKey node session) (marshal r) e).

(** [open]; [refs] is nil for an ensemble without identities. *)
Definition openLog (nodeID session : string) (epoch : Z) (followers : list string)
    (refs : option (gmap string PeerIdentity)) : prog (result nodelogError LogRecord) :=
  let followers := canonicalFollowers followers in
  let proto := match refs with Some _ => ProtoVersionIdentity | None => ProtoVersionSession end in
  t ← now;
  let r := MkLog None nodeID session epoch (default ∅ refs) ∅ followers StatusOpen proto (UnixMilli t) ∅ in
  w ← write logStore (ConditionalCreate (logKey nodeID session) (marshal r));
  match w with
  | Ok _ => mret (Ok r)
  | Err (ErrObject ErrPrecondition) =>
      '(existing, _) ←! logGet nodeID session;
      if decide (nlNode existing ≠ nodeID ∨ nlSession existing ≠ session ∨ nlProtoVersion existing ≠ proto
                 ∨ sameFollowers (nlFollowers existing) followers = false
                 ∨ nlFollowerRefs existing ≠ default ∅ refs)
      then mret (Err ErrEnsembleMismatch)
      else if decide (nlStatus existing ≠ StatusOpen) then mret (Err (ErrSessionClosed (nlStatus existing)))
      else mret (Ok existing)
  | Err e => mret (Err (ErrLogStore e))
  end.

Definition Open (nodeID session : string) (epoch : Z) (followers : list string) :
    prog (result nodelogError LogRecord) :=
  openLog nodeID session epoch followers None.

Definition OpenIdentified (nodeID session : string) (epoch : Z) (refs : gmap string PeerIdentity) :
    prog (result nodelogError LogRecord) :=
  if validRefs refs then openLog nodeID session epoch (map_to_list refs).*1 (Some refs)
  else mret (Err ErrEnsembleMismatch).

Definition SetStatus (node session status : string) : prog (result nodelogError LogRecord) :=
  '(r, e) ←! logGet node session;
  if decide (nlStatus r = StatusSealed ∧ status ≠ StatusSealed) then
    mret (Err (ErrSessionClosed (nlStatus r)))
  else
    t ← now;
    let r := setStatus status (UnixMilli t) r in
    w ← logCas node session r e;
    mret (match w with Ok _ => Ok r | Err e => Err (ErrLogStore e) end).

Definition SealCovered (node session : string) (covered : gmap string Z) : prog (result nodelogError LogRecord) :=
  '(r, e) ←! logGet node session;
  t ← now;
  let r := sealWith covered (UnixMilli t) r in
  w ← logCas node session r e;
  mret (match w with Ok _ => Ok r | Err e => Err (ErrLogStore e) end).

Definition Seal (node session : string) : prog (result nodelogError LogRecord) :=
  SetStatus node session StatusSealed.

Fixpoint checkpointLoop (attempts : nat) (node session follower : string) (after : Z) :
    prog (result nodelogError unit) :=
  match attempts with
  | O => mret (Err (ErrLogStore (ErrObject ErrPrecondition)))
  | S attempts =>
      '(r, e) ←! logGet node session;
      if decide (nlStatus r = StatusSealed ∨ after ≤ progressOf r follower) then mret (Ok tt)
      else if decide (nlStatus r ≠ StatusRecovering) then mret (Err (ErrSessionClosed (nlStatus r)))
      else
        t ← now;
        w ← logCas node session (setProgress follower after (UnixMilli t) r) e;
        match w with
        | Ok _ => mret (Ok tt)
        | Err (ErrObject ErrPrecondition) => checkpointLoop attempts node session follower after
        | Err e => mret (Err (ErrLogStore e))
        end
  end.

Definition Checkpoint (node session follower : string) (after : Z) : prog (result nodelogError unit) :=
  checkpointLoop 8 node session follower after.

(** The loop of [ListNode]. *)
Fixpoint readLogs (keys : list string) : prog (result nodelogError (list LogRecord)) :=
  match keys with
  | [] => mret (Ok [])
  | k :: keys =>
      r ← GetVersion logStore k;
      match r with
      | Err (ErrObject ErrNotFound) => readLogs keys
      | Err e => mret (Err (ErrLogStore e))
      | Ok (data, _) =>
          match unmarshal data with
          | None => mret (Err ErrCorruptLog)
          | Some r => rs ←! readLogs keys; mret (Ok (r :: rs))
          end
      end
  end.

Definition ListNode (node : string) : prog (result nodelogError (list LogRecord)) :=
  r ← ListPrefix logStore ("node-logs/" +:+ node +:+ "/");
  match r with
  | Err e => mret (Err (ErrLogStore e))
  | Ok keys => readLogs keys
  end.

Definition Nodes : prog (result nodelogError (list string)) :=
  r ← ListPrefix logStore "node-logs/";
  mret (match r with
        | Err e => Err (ErrLogStore e)
        | Ok keys => Ok (sortKeys (remove_dups (omap nodeOfKey keys)))
        end).
End programs.

(** ** Records only move forward *)

(** What may change in a record. *)
Record advances (r r' : LogRecord) : Prop := {
  adv_resolution : nlResolution r' = nlResolution r;
  adv_node : nlNode r' = nlNode r;
  adv_session : nlSession r' = nlSession r;
  adv_epoch : nlEpoch r' = nlEpoch r;
  adv_refs : nlFollowerRefs r' = nlFollowerRefs r;
  adv_followers : nlFollowers r' = nlFollowers r;
  adv_proto : nlProtoVersion r' = nlProtoVersion r;
  adv_sealed : nlStatus r = StatusSealed → nlStatus r' = StatusSealed;
  adv_progress follower : progressOf r follower ≤ progressOf r' follower;
}.

Lemma advances_refl r : advances r r.
Proof. by split. Qed.

Lemma advances_trans r1 r2 r3 : advances r1 r2 → advances r2 r3 → advances r1 r3.
Proof.
  intros [] []. split; try congruence; [auto|]. intros f. etrans; eauto.
Qed.

Definition logDiscipline `{Codec LogRecord} : Discipline := {|
  dKey k := hasPrefix "node-logs/" k = true;
  dOk _ d := ∃ r : LogRecord, d = marshal r;
  dMove _ d d' := ∃ r r' : LogRecord, d = marshal r ∧ d' = marshal r' ∧ advances r r';
  dGone _ _ := False;
|}.

Section discipline.
Context `{Etag} `{Codec LogRecord} {C M : Type}.
#[local] Existing Instance logDiscipline.

Lemma yields_logGet node session :
  yields (C := C) (M := M) (λ r, ∀ rec e, r = Ok (rec, e) → e = etag (marshal rec)) (logGet node session).
Proof.
  unfold logGet, GetVersion. destruct (objectKey logStore (logKey node session)) as [k|e] eqn:Hk; [|simpl; intros ?? E; by repeat case_match].
  apply objectKey_Ok in Hk as (-> & _ & Hp & _). simpl. intros r Hr. destruct r as [[d e]|e].
  - destruct (Hr d e eq_refl) as [-> [rec ->]]; [done|]. simpl. rewrite unmarshal_marshal. by intros ?? [= <- <-].
  - simpl. by destruct e.
Qed.

(** A record that was read is replaced by one that advances it. *)
Lemma keeps_logCas {S} node session rec rec' (g : result objectsError string → prog C M S) :
  advances rec rec' → (∀ r, keeps (g r)) → keeps (logCas node session rec' (etag (marshal rec)) ≫= g).
Proof.
  intros Hadv Hg. apply keeps_then; [|done]. unfold logCas, write.
  destruct (objectKey _ _) as [k|e] eqn:Hk; [|done]. apply objectKey_Ok in Hk as (-> & _).
  split; [|done]. intros _. simpl. exists (marshal rec). split_and!; [done|by exists rec, rec'|by exists rec'].
Qed.

Lemma keeps_read {S} node session (g : LogRecord * string → prog C M (result nodelogError S)) :
  (∀ rec, keeps (g (rec, etag (marshal rec)))) → keeps (check (logGet node session) g).
Proof.
  intros Hg. refine (yields_bind _ _ _ _ (yields_logGet node session) _).
  intros [[rec e]|e] Hr; [|done]. rewrite (Hr rec e eq_refl). apply Hg.
Qed.

Lemma keeps_openLog nodeID session epoch followers refs :
  keeps (C := C) (M := M) (openLog nodeID session epoch followers refs).
Proof.
  unfold openLog. apply keeps_then; [done|]. intros t. apply keeps_then.
  - unfold write. destruct (objectKey _ _) as [k|e] eqn:Hk; [|done]. split; [|done]. intros _. simpl. eauto.
  - intros [tag|e]; [done|]. destruct e as [| | |e]; try done. destruct e; try done.
    apply keeps_read. intros rec. by repeat case_decide.
Qed.

Lemma keeps_SetStatus node session status : keeps (C := C) (M := M) (SetStatus node session status).
Proof.
  apply keeps_read. intros rec. case_decide as Hs; [done|]. apply keeps_then; [done|]. intros t.
  apply keeps_logCas; [|done]. split; try done. simpl. intros E. destruct (decide (status = StatusSealed)); naive_solver.
Qed.

Lemma keeps_SealCovered node session covered : keeps (C := C) (M := M) (SealCovered node session covered).
Proof. apply keeps_read. intros rec. apply keeps_then; [done|]. intros t. by apply keeps_logCas. Qed.

Lemma keeps_Checkpoint n node session follower after :
  keeps (C := C) (M := M) (checkpointLoop n node session follower after).
Proof.
  induction n as [|n IH]; [done|]. apply keeps_read. intros rec. case_decide as Hp; [done|].
  case_decide as Hs; [done|]. apply keeps_then; [done|]. intros t. apply keeps_logCas.
  - split; try done. intros f. unfold progressOf. cbn [nlProgress setProgress].
    destruct (decide (f = follower)) as [->|Hf]; [|by rewrite lookup_insert_ne].
    rewrite lookup_insert_eq. simpl. apply Z.lt_le_incl, Z.nle_gt. intros Hle. apply Hp. by right.
  - intros [tag|e]; [done|]. destruct e as [| | |e]; try done. by destruct e.
Qed.
End discipline.

(** The threads of the fleet: the operations on node logs, and whatever writes elsewhere. *)
Inductive logThread `{Codec LogRecord} {C M : Type} : prog C M unit → Prop :=
| run_Open nodeID session epoch followers : logThread (Open nodeID session epoch followers ≫= λ _, mret tt)
| run_OpenIdentified nodeID session epoch refs : logThread (OpenIdentified nodeID session epoch refs ≫= λ _, mret tt)
| run_SetStatus node session status : logThread (SetStatus node session status ≫= λ _, mret tt)
| run_SealCovered node session covered : logThread (SealCovered node session covered ≫= λ _, mret tt)
| run_Checkpoint node session follower after : logThread (Checkpoint node session follower after ≫= λ _, mret tt)
| run_elsewhere p : @elsewhere logDiscipline C M unit p → logThread p.

Definition logAction `{Codec LogRecord} {C M : Type} (x : action C M unit) : Prop :=
  match x with Spawn _ p => logThread p | _ => True end.

Lemma logAction_tidy `{Etag} `{Codec LogRecord} {C M : Type} (x : action C M unit) :
  logAction x → @tidy _ logDiscipline C M unit x.
Proof.
  destruct x as [| i p | |]; try done. simpl. destruct 1; try (apply keeps_then; [|done]).
  - apply keeps_openLog.
  - unfold OpenIdentified. destruct (validRefs refs); [apply keeps_openLog|done].
  - apply keeps_SetStatus.
  - apply keeps_SealCovered.
  - apply keeps_Checkpoint.
  - by apply keeps_elsewhere.
Qed.

(** ** Properties *)

(** C31: node logs only move forward: in every run of the fleet, with calls failing and
    writes lost or late, a step never removes a session's record and never changes
    its node, session, epoch, protocol or followers; a sealed record stays sealed;
    and no follower's recovery progress goes back. *)
Theorem nodelog_forward `{Etag} `{Codec LogRecord} {C M : Type} (xs : list (action C M unit)) x w w' node session r :
  Forall logAction (xs ++ [x]) → acts xs emptyWorld = Some w → act x w = Some w' →
  wStore w !! logKey node session = Some (marshal r) →
  ∃ r', wStore w' !! logKey node session = Some (marshal r') ∧ advances r r'.
Proof.
  intros Hxs Hacts Hact Hr.
  assert (Forall (@tidy _ logDiscipline C M unit) (xs ++ [x])) as Ht.
  { eapply Forall_impl; [exact Hxs|]. intros y. apply logAction_tidy. }
  destruct (@run_moved _ logDiscipline C M unit xs x w w' Ht Hacts Hact (logKey node session) (marshal r))
    as [Hd|[(d & Hd & (r0 & r' & E & -> & Hadv))|[_ []]]].
  - apply hasPrefix_app. by eexists.
  - done.
  - exists r. split; [done|apply advances_refl].
  - exists r'. split; [done|]. apply (f_equal (unmarshal (A := LogRecord))) in E.
    rewrite !unmarshal_marshal in E. by injection E as ->.
Qed.

(** *** A run *)

#[global] Instance PeerIdentity_countable : Countable PeerIdentity.
Proof. refine (inj_countable' (λ p, (pNode p, pInstance p)) (λ '(a, b), MkPeer a b) _). by intros []. Defined.
#[global] Instance RecoveryResolution_eq_dec : EqDecision RecoveryResolution.
Proof. solve_decision. Defined.
#[global] Instance RecoveryResolution_countable : Countable RecoveryResolution.
Proof.
  refine (inj_countable' (λ r, (rrKind r, rrAcceptedMs r, rrAuditKey r, rrOriginalSHA256 r))
    (λ '(a, b, c, d), MkResolution a b c d) _). by intros [].
Defined.
#[global] Instance LogRecord_eq_dec : EqDecision LogRecord.
Proof. solve_decision. Defined.

(** The fields one by one, for an encoding whose size is linear. *)
Definition logFields (r : LogRecord) : list positive :=
  [encode (nlResolution r); encode (nlNode r); encode (nlSession r); encode (nlEpoch r); encode (nlFollowerRefs r);
   encode (nlProgress r); encode (nlFollowers r); encode (nlStatus r); encode (nlProtoVersion r);
   encode (nlUpdatedMs r); encode (nlCoveredSeq r)].

Definition logOfFields (l : list positive) : option LogRecord :=
  match l with
  | [a; b; c; d; e; f; g; h; i; j; k] =>
      a ← decode a; b ← decode b; c ← decode c; d ← decode d; e ← decode e; f ← decode f; g ← decode g;
      h ← decode h; i ← decode i; j ← decode j; k ← decode k; Some (MkLog a b c d e f g h i j k)
  | _ => None
  end.

#[global] Instance LogRecord_countable : Countable LogRecord.
Proof.
  refine (inj_countable logFields logOfFields _). intros []. unfold logFields, logOfFields. cbn.
  by rewrite !decode_encode.
Defined.

Section run.
#[local] Existing Instance contentTag.
#[local] Instance logCodec : Codec LogRecord := bitCodec LogRecord.

(** A session is opened and then sealed. *)
Definition sealRun : list (action Empty_set unit unit) :=
  let xs := [Boot tt; Spawn 0 (Open "n1" "s1" 7 ["b"; "a"] ≫= λ _, mret tt);
             Spawn 0 (Seal "n1" "s1" ≫= λ _, mret tt)] in
  let ys := xs ++ finish 0 (MkTime 0 5000000) (after xs) in
  ys ++ finish 1 (MkTime 0 9000000) (after ys).

Lemma sealRun_ok : Forall logAction sealRun.
Proof.
  unfold sealRun. apply Forall_app. split; [apply Forall_app; split; [|by apply finish_ok]|by apply finish_ok].
  repeat (apply Forall_cons_2; [done || apply run_Open || apply run_SetStatus|]). done.
Qed.

Lemma nodelog_forward_witness :
  let opened := MkLog None "n1" "s1" 7 ∅ ∅ ["a"; "b"] StatusOpen ProtoVersionSession 5 ∅ in
  ∃ r', wStore (after (take 7 sealRun ++ [Run 1 RDone])) !! logKey "n1" "s1" = Some (marshal r') ∧ advances opened r'.
Proof.
  intros opened.
  apply (nodelog_forward (take 7 sealRun) (Run 1 RDone) (after (take 7 sealRun))).
  - apply Forall_app. split; [apply Forall_take, sealRun_ok|by repeat constructor].
  - apply acts_after. vm_compute. reflexivity.
  - apply act_after. vm_compute. reflexivity.
  - vm_compute. reflexivity.
Defined.
End run.
