(* ===== verification/Waker.v ===== *)
(** * The fleet waker ([internal/waker]: [election.go], [backoffDelay])

    One process of the fleet dispatches the timers of dead owners. It is elected by
    a lease record in the bucket: created when there is none, renewed by its
    holder, taken over once it has expired by the taker's clock, and deleted by a
    holder that steps down. What a leader's pass does ([Pass]) is not modelled.

    The theorems: in every run of the fleet a lease that has not run out by the
    taker's clock is not taken over, and alone an election succeeds exactly when
    the lease is absent, expired or its own. *)

From S2P Require Import Prelude Cell Bucket Fleet Objects Discipline.

(** [Key] *)
Definition wakerKey : string := "fleet/waker.json".

Definition DefaultTTL : Z := 10 * Second.

(** [Lease] *)
Record WakerLease := MkWaker {
  wNode : string;
  wSession : string;
  wExpiresMs : Z;
  wUpdatedMs : Z;
}.

(** [Live] *)
Definition wakerLive (l : WakerLease) (nowMs : Z) : bool := bool_decide (nowMs < wExpiresMs l).

Record Election := MkElection {
  eNodeID : string;
  eSession : string;
  eTTL : Z;
}.

Definition NewElection (nodeID session : string) (ttl : Z) : Election :=
  MkElection nodeID session (if decide (ttl ≤ 0) then DefaultTTL else ttl).

Inductive wakerError : Set :=
| ErrWakerBucket (e : bucketError)
| ErrWakerDecode.

(** The lease that [Acquire] writes. *)
Definition ownLease (e : Election) (nowMs : Z) : WakerLease :=
  MkWaker (eNodeID e) (eSession e) (i64 (nowMs + Z.quot (eTTL e) Millisecond)) nowMs.

Definition holds (e : Election) (l : WakerLease) : bool :=
  bool_decide (wNode l = eNodeID e ∧ wSession l = eSession e).

Section programs.
Context `{Codec WakerLease} {C M : Type}.
Abbreviation prog := (prog C M).

Definition holder : prog (result wakerError (option (WakerLease * string))) :=
  r ← getObject wakerKey;
  mret (match r with
        | Err ErrNotFound => Ok None
        | Err e => Err (ErrWakerBucket e)
        | Ok (data, e) => match unmarshal data with Some l => Ok (Some (l, e)) | None => Err ErrWakerDecode end
        end).

Definition Holder : prog (result wakerError (option WakerLease)) :=
  r ← holder;
  mret (match r with Ok l => Ok (option_map fst l) | Err e => Err e end).

(** A conditional write that a competitor may win. *)
Definition attempt (op : bucketOp) : prog (result wakerError bool) :=
  w ← putObject op;
  mret (match w with
        | Ok _ => Ok true
        | Err ErrPrecondition => Ok false
        | Err e => Err (ErrWakerBucket e)
        end).

Definition Acquire (e : Election) : prog (result wakerError bool) :=
  t ← now;
  let ms := UnixMilli t in
  let data := marshal (ownLease e ms) in
  (cur ←! holder;
   match cur with
   | None => attempt (ConditionalCreate wakerKey data)
   | Some (cur, etag) =>
       if holds e cur then attempt (CAS wakerKey data etag)
       else if wakerLive cur ms then mret (Ok false)
       else attempt (CAS wakerKey data etag)
   end)%go.

Definition StepDown (e : Election) : prog (result wakerError unit) :=
  (cur ←! holder;
   match cur with
   | None => mret (Ok tt)
   | Some (cur, token) =>
       if holds e cur then
         w ← putObject (ConditionalDelete wakerKey token);
         mret (match w with
               | Ok _ | Err ErrPrecondition => Ok tt
               | Err e => Err (ErrWakerBucket e)
               end)
       else mret (Ok tt)
   end)%go.
End programs.

(** ** The discipline *)

Definition wakerDiscipline `{Codec WakerLease} : Discipline := {|
  dKey k := k = wakerKey;
  dOk _ d := ∃ l : WakerLease, d = marshal l;
  dMove _ d d' := ∃ l l' : WakerLease, d = marshal l ∧ d' = marshal l'
    ∧ ((wNode l' = wNode l ∧ wSession l' = wSession l) ∨ wExpiresMs l ≤ wUpdatedMs l');
  dGone _ d := ∃ l : WakerLease, d = marshal l;
|}.

Section discipline.
Context `{Etag} `{Codec WakerLease} {C M : Type}.
#[local] Existing Instance wakerDiscipline.

Lemma keeps_holder {S} (g : option (WakerLease * string) → prog C M (result wakerError S)) :
  keeps (g None) → (∀ l, keeps (g (Some (l, etag (marshal l))))) → keeps (check holder g).
Proof.
  intros Hn Hs. intros r Hr. destruct r as [[d e]|e]; simpl.
  - destruct (Hr d e eq_refl) as [-> Hd]. destruct (Hd eq_refl) as [l ->]. rewrite unmarshal_marshal. apply Hs.
  - by destruct e.
Qed.

Lemma keeps_attempt op : goodWrite op → keeps (C := C) (M := M) (attempt op).
Proof. intros Hop. by split. Qed.

Lemma keeps_Acquire e : keeps (C := C) (M := M) (Acquire e).
Proof.
  intros t. apply keeps_holder.
  - apply keeps_attempt. intros _. by eexists.
  - intros l. assert ((holds e l = true ∨ wakerLive l (UnixMilli t) = false) →
      goodWrite (CAS wakerKey (marshal (ownLease e (UnixMilli t))) (etag (marshal l)))) as Hgood.
    { intros Hc _. exists (marshal l). split; [done|]. split; [|by eexists]. exists l, (ownLease e (UnixMilli t)).
      split_and!; [done..|]. destruct Hc as [Hc|Hc].
      - apply bool_decide_eq_true in Hc as [-> ->]. by left.
      - right. apply bool_decide_eq_false in Hc. simpl. lia. }
    destruct (holds e l); [by apply keeps_attempt; auto|].
    destruct (wakerLive l (UnixMilli t)); [done|by apply keeps_attempt; auto].
Qed.

Lemma keeps_StepDown e : keeps (C := C) (M := M) (StepDown e).
Proof.
  apply keeps_holder; [done|]. intros l. destruct (holds e l); [|done].
  split; [|done]. intros _. exists (marshal l). split; [done|]. by exists l.
Qed.
End discipline.

Inductive wakerThread `{Codec WakerLease} {C M : Type} : prog C M unit → Prop :=
| run_Acquire e : wakerThread (Acquire e ≫= λ _, mret tt)
| run_StepDown e : wakerThread (StepDown e ≫= λ _, mret tt)
| run_noWaker p : @elsewhere wakerDiscipline C M unit p → wakerThread p.

Definition wakerAction `{Codec WakerLease} {C M : Type} (x : action C M unit) : Prop :=
  match x with Spawn _ p => wakerThread p | _ => True end.

Lemma wakerAction_tidy `{Etag} `{Codec WakerLease} {C M : Type} (x : action C M unit) :
  wakerAction x → @tidy _ wakerDiscipline C M unit x.
Proof.
  destruct x as [| i p | |]; try done. simpl. destruct 1; try (apply keeps_then; [|done]).
  - apply keeps_Acquire.
  - apply keeps_StepDown.
  - by apply keeps_elsewhere.
Qed.

(** ** Backoff ([waker.go]) *)

Fixpoint doubling (n : nat) (max d : Z) : Z :=
  match n with
  | O => d
  | S n => if decide (d < max) then doubling n max (i64 (d * 2)) else d
  end.

Definition backoffDelay (base max fails : Z) : Z :=
  let base := if decide (base ≤ 0) then 5 * Second else base in
  if decide (fails ≤ 0 ∨ max ≤ base) then base
  else let d := doubling (Z.to_nat fails) max base in if decide (max < d) then max else d.

Lemma doubling_spec n max d :
  0 < d → max < 2 ^ 62 → d < 2 * max → Z.min max (doubling n max d) = Z.min max (d * 2 ^ Z.of_nat n).
Proof.
  revert d. induction n as [|n IH]; intros d Hd Hmax Hlt; cbn [doubling].
  { by rewrite Z.mul_1_r. }
  rewrite Nat2Z.inj_succ, Z.pow_succ_r by lia. case_decide as Hc.
  - unfold i64. rewrite Z.mod_small by lia. replace (d * 2 + 2 ^ 63 - 2 ^ 63) with (d * 2) by lia.
    rewrite IH by lia. f_equal. lia.
  - assert (0 < 2 ^ Z.of_nat n) by (apply Z.pow_pos_nonneg; lia). nia.
Qed.

(** The delay doubles with every failure up to its cap, without overflow. *)
Lemma backoffDelay_spec base max fails :
  0 < base < max → max < 2 ^ 62 → 0 ≤ fails → backoffDelay base max fails = Z.min max (base * 2 ^ fails).
Proof.
  intros Hb Hmax Hf. unfold backoffDelay. rewrite (decide_False (P := base ≤ 0)) by lia. case_decide as Hc.
  - assert (fails = 0) as -> by lia. lia.
  - pose proof (doubling_spec (Z.to_nat fails) max base ltac:(lia) Hmax ltac:(lia)) as E.
    rewrite Z2Nat.id in E by lia. rewrite <-E. case_decide; lia.
Qed.

(** ** An election on its own *)

(** Alone, [Acquire] succeeds exactly when the lease is absent, its own or expired, and
    then the bucket holds its lease. *)
Lemma Acquire_outcome `{Etag} `{Codec WakerLease} {C M : Type} t (cb : C → bool) e st (m : M) :
  alone t cb (Acquire e) st m =
  let mine := ownLease e (UnixMilli t) in
  match st !! wakerKey with
  | None => Some (<[wakerKey := marshal mine]> st, m, Ok true)
  | Some d =>
      match unmarshal d with
      | None => Some (st, m, Err ErrWakerDecode)
      | Some cur =>
          if holds e cur || negb (wakerLive cur (UnixMilli t))
          then Some (<[wakerKey := marshal mine]> st, m, Ok true) else Some (st, m, Ok false)
      end
  end.
Proof.
  unfold Acquire. cbn. unfold fetch. destruct (st !! wakerKey) as [d|] eqn:Hd; cbn.
  - destruct (unmarshal d) as [cur|]; [|done]. destruct (holds e cur); cbn.
    + rewrite Hd. by rewrite decide_True.
    + destruct (wakerLive cur (UnixMilli t)); cbn; [done|]. rewrite Hd. by rewrite decide_True.
  - by rewrite Hd.
Qed.

(** ** Properties *)

(** C32: the waker's lease is exclusive: in every run of the fleet, with calls failing and
    writes lost or late, a step that replaces the lease record by another either
    keeps its holder or happens after the record had expired by the clock of the
    process that takes over. *)
Theorem waker_exclusive `{Etag} `{Codec WakerLease} {C M : Type} (xs : list (action C M unit)) x w w' l l' :
  Forall wakerAction (xs ++ [x]) → acts xs emptyWorld = Some w → act x w = Some w' →
  wStore w !! wakerKey = Some (marshal l) → wStore w' !! wakerKey = Some (marshal l') → l' ≠ l →
  (wNode l' = wNode l ∧ wSession l' = wSession l) ∨ wExpiresMs l ≤ wUpdatedMs l'.
Proof.
  intros Hxs Hacts Hact Hl Hl' Hne.
  assert (∀ a b : WakerLease, marshal a = marshal b → a = b) as Hinj.
  { intros a b E. apply (f_equal (unmarshal (A := WakerLease))) in E. rewrite !unmarshal_marshal in E. by injection E. }
  assert (Forall (@tidy _ wakerDiscipline C M unit) (xs ++ [x])) as Ht.
  { eapply Forall_impl; [exact Hxs|]. intros y. apply wakerAction_tidy. }
  destruct (@run_moved _ wakerDiscipline C M unit xs x w w' Ht Hacts Hact wakerKey (marshal l) eq_refl Hl)
    as [Hd|[(d & Hd & (l0 & l1 & E0%Hinj & -> & Hm))|[Hd _]]]; rewrite Hl' in Hd.
  - injection Hd as E%Hinj. by subst.
  - injection Hd as E%Hinj. by subst.
  - done.
Qed.

(** *** A run *)

#[global] Instance WakerLease_eq_dec : EqDecision WakerLease.
Proof. solve_decision. Defined.
#[global] Instance WakerLease_countable : Countable WakerLease.
Proof.
  refine (inj_countable' (λ l, (wNode l, wSession l, wExpiresMs l, wUpdatedMs l)) (λ '(a, b, c, d), MkWaker a b c d) _).
  by intros [].
Defined.

Section run.
#[local] Existing Instance contentTag.
#[local] Instance wakerCodec : Codec WakerLease := bitCodec WakerLease.

(** [n1] is elected; its lease runs out and [n2] takes over. *)
Definition electRun : list (action Empty_set unit unit) :=
  let xs := [Boot tt; Spawn 0 (Acquire (NewElection "n1" "s1" 0) ≫= λ _, mret tt);
             Spawn 0 (Acquire (NewElection "n2" "s2" 0) ≫= λ _, mret tt)] in
  let ys := xs ++ finish 0 (MkTime 0 0) (after xs) in
  ys ++ finish 1 (MkTime 0 (10 * Second)) (after ys).

Lemma electRun_ok : Forall wakerAction electRun.
Proof.
  unfold electRun. apply Forall_app. split; [apply Forall_app; split; [|by apply finish_ok]|by apply finish_ok].
  repeat (apply Forall_cons_2; [done || apply run_Acquire|]). done.
Qed.

Lemma waker_exclusive_witness :
  let l := ownLease (NewElection "n1" "s1" 0) 0 in
  let l' := ownLease (NewElection "n2" "s2" 0) 10000 in
  wNode l' ≠ wNode l
  ∧ ((wNode l' = wNode l ∧ wSession l' = wSession l) ∨ wExpiresMs l ≤ wUpdatedMs l').
Proof.
  intros l l'. split; [intros E; discriminate E|].
  apply (waker_exclusive (take 8 electRun) (Run 1 RDone) (after (take 8 electRun))
    (after (take 8 electRun ++ [Run 1 RDone]))).
  - apply Forall_app. split; [apply Forall_take, electRun_ok|by repeat constructor].
  - apply acts_after. vm_compute. reflexivity.
  - apply act_after. vm_compute. reflexivity.
  - vm_compute. reflexivity.
  - vm_compute. reflexivity.
  - intros E. discriminate E.
Defined.
End run.
