(* ===== verification/Frames.v ===== *)
(** * Frames and records of the follower's spool ([internal/peer/frames.go], [spool.go])

    A batch of segments is a sequence of frames, each a length and its bytes
    ([EncodeFrames], [DecodeFrames]). A follower keeps the batches of an owner's
    session as numbered records of one log ([encodeSessionRecord]); it finds the end
    of the log again after a restart ([scanRecords]), reads the tail after a
    number ([tailRecords]), and one cell's part of it ([scopeRecords]).

    The theorems: what is encoded is decoded, whatever follows it; a scan of a log
    with anything after it finds the log's records and at most more; the tail of a log
    is its records after the number, and the page a cursor starts is the page read
    from the start. *)

From S2P Require Import Prelude Ltx Decimal.

(** ** Frames *)

Record SessionFragment := MkFragment {
  sfSequence : Z;
  sfScope : string;
  sfEpoch : Z;
  sfSegments : list bytes;
}.

Record HeldSegment := MkHeld {
  hsScope : string;
  hsEpoch : Z;
  hsSegment : bytes;
}.

Definition EncodeFrames (segments : list bytes) : bytes :=
  concat ((λ s, be_enc 4 (zlen s) ++ s) <$> segments).

(** The unread bytes and the segments found so far; a torn tail ends the loop. *)
Definition framesTurn (s : bytes * list bytes) : turn (bytes * list bytes) (list bytes) :=
  let '(data, out) := s in
  if decide (zlen data < 4) then Return out else
  let n := rd32 data 0 in
  if decide (zlen data < 4 + n) then Return out else
  Continue (drop (Z.to_nat (4 + n)) data, out ++ [slice data 4 (4 + n)]).

Definition DecodeFrames (data : bytes) : list bytes := run framesTurn (λ s, length s.1) [] (data, []).

(** ** Fragments *)

Inductive formatError : Set := ETruncated | EScope | EFrames | ESequence | EGap | EIncomplete.

(** The length of the scope is cut to 16 bits. *)
Definition encodeSessionFragment (scope : string) (epoch : Z) (segments : list bytes) : bytes :=
  be_enc 2 (zlen (bs scope)) ++ bs scope ++ be_enc 8 epoch ++ EncodeFrames segments.

Definition encodeRecord (seq : Z) (payload : bytes) : bytes :=
  be_enc 4 (8 + zlen payload) ++ be_enc 8 seq ++ payload.

Definition encodeSessionRecord (seq : Z) (scope : string) (epoch : Z) (segments : list bytes) : bytes :=
  encodeRecord seq (encodeSessionFragment scope epoch segments).

Definition decodeSessionFragment (seq : Z) (b : bytes) : result formatError SessionFragment :=
  if decide (zlen b < 10) then Err ETruncated else
  let n := rd16 b 0 in
  if decide (zlen b < n + 10) then Err EScope else
  let frames := drop (Z.to_nat (n + 10)) b in
  let segments := DecodeFrames frames in
  if decide (segments = [] ∨ zlen (EncodeFrames segments) ≠ zlen frames) then Err EFrames else
  Ok (MkFragment seq (String.string_of_list_byte (slice b 2 (2 + n))) (rd64 b (2 + n)) segments).

(** ** The end of a log *)

(** The unread bytes, the last sequence and the size of the log up to there. The size of
    a record is added in 32 bits. *)
Definition scanTurn (s : bytes * Z * Z) : turn (bytes * Z * Z) (result formatError (Z * Z)) :=
  let '(rest, last, size) := s in
  if decide (zlen rest < 12) then Return (Ok (last, size)) else
  let n := rd32 rest 0 in
  let seq := rd64 rest 4 in
  if decide (n < 18 ∨ seq ≠ u64 (last + 1)) then Return (Err ESequence) else
  if decide (zlen rest < 4 + n) then Return (Ok (last, size)) else
  Continue (drop (Z.to_nat (4 + n)) rest, seq, size + u32 (4 + n)).

Definition scanRecords (data : bytes) : result formatError (Z * Z) :=
  run scanTurn (λ s, length s.1.1) (Err ESequence) (data, 0, 0).

(** The loop of [Head]: a record may be shorter than a fragment. *)
Definition headTurn (s : bytes * Z) : turn (bytes * Z) (result formatError Z) :=
  let '(rest, last) := s in
  if decide (zlen rest < 12) then Return (Ok last) else
  let n := rd32 rest 0 in
  let seq := rd64 rest 4 in
  if decide (n < 8 ∨ seq ≠ u64 (last + 1)) then Return (Err ESequence) else
  if decide (zlen rest < 4 + n) then Return (Ok last) else
  Continue (drop (Z.to_nat (4 + n)) rest, seq).

Definition headRecords (data : bytes) : result formatError Z :=
  run headTurn (λ s, length s.1) (Err ESequence) (data, 0).

(** ** The tail of a log *)

(** The loop of [tailPage]: where it stands, what it returns, and the sequence and the
    offset after the last fragment returned. *)
Record tailState := MkTail {
  tsRest : bytes;
  tsSequence : Z;
  tsOffset : Z;
  tsOut : list SessionFragment;
  tsBytes : Z;
  tsRetSequence : Z;
  tsRetOffset : Z;
}.

Definition segmentBytes (f : SessionFragment) : Z := foldr (λ s n, zlen s + n) 0 (sfSegments f).

(** The page, and the place where the next one starts. *)
Abbreviation tailPageOf := (result formatError (list SessionFragment * (Z * Z))).

Definition tailDone (s : tailState) : tailPageOf := Ok (tsOut s, (tsRetSequence s, tsRetOffset s)).

(** After the loop; [final] is what the marker says, [None] for an open session. *)
Definition tailEnd (final : option Z) (maxFragments maxBytes : Z) (s : tailState) : tailPageOf :=
  match final with
  | Some f =>
      if decide (tsSequence s < f ∧ (maxFragments ≤ 0 ∨ zlen (tsOut s) < maxFragments)
                 ∧ (maxBytes ≤ 0 ∨ tsBytes s < maxBytes))
      then Err EIncomplete else tailDone s
  | None => tailDone s
  end.

(** [size] is the size of the file. *)
Definition tailTurn (size : Z) (final : option Z) (after maxFragments maxBytes : Z) (s : tailState) :
    turn tailState tailPageOf :=
  if from_option (λ f, bool_decide (f ≤ tsSequence s)) false final then Return (tailEnd final maxFragments maxBytes s) else
  if decide (0 < maxFragments ∧ maxFragments ≤ zlen (tsOut s)) then Return (tailDone s) else
  if decide (zlen (tsRest s) = 0 ∧ final = None) then Return (tailEnd final maxFragments maxBytes s) else
  if decide (zlen (tsRest s) < 12) then Return (Err EIncomplete) else
  let n := rd32 (tsRest s) 0 in
  let seq := rd64 (tsRest s) 4 in
  if decide (n < 18 ∨ seq ≠ u64 (tsSequence s + 1)) then Return (Err EGap) else
  if decide (size - tsOffset s - 12 < n - 8) then Return (Err EIncomplete) else
  let offset := tsOffset s + (n + 4) in
  let rest := drop (Z.to_nat (4 + n)) (tsRest s) in
  if decide (zlen (tsRest s) < 4 + n) then Return (Err EIncomplete) else
  if decide (seq ≤ after) then
    Continue (MkTail rest seq offset (tsOut s) (tsBytes s) (tsRetSequence s) (tsRetOffset s))
  else
    match decodeSessionFragment seq (slice (tsRest s) 12 (4 + n)) with
    | Err e => Return (Err e)
    | Ok fragment =>
        let b := segmentBytes fragment in
        if decide (tsOut s ≠ [] ∧ (0 < maxFragments ∧ maxFragments ≤ zlen (tsOut s)
                                   ∨ 0 < maxBytes ∧ maxBytes < tsBytes s + b))
        then Return (tailDone s)
        else Continue (MkTail rest seq offset (tsOut s ++ [fragment]) (tsBytes s + b) seq offset)
    end.

(** From [offset], where the record [start] ended. *)
Definition tailRecords (data : bytes) (final : option Z) (start offset after maxFragments maxBytes : Z) : tailPageOf :=
  run (tailTurn (zlen data) final after maxFragments maxBytes) (λ s, length (tsRest s)) (Err EIncomplete)
    (MkTail (drop (Z.to_nat offset) data) start offset [] 0 start offset).

(** ** One scope of an open log *)

(** The loop of [TailScopePage]: the records of other cells are counted and skipped. *)
Record scopeState := MkScopeTail {
  ssRest : bytes;
  ssNext : Z;
  ssOffset : Z;
  ssOut : list SessionFragment;
  ssUsed : Z;
}.

Abbreviation scopePageOf := (result formatError (list SessionFragment * Z * Z)).

Definition scopeDone (s : scopeState) : scopePageOf := Ok (ssOut s, ssNext s, ssOffset s).

Definition scopeTurn (scope : string) (after final maxRecords maxBytes : Z) (s : scopeState) :
    turn scopeState scopePageOf :=
  if decide (final ≤ ssNext s ∨ 0 < maxRecords ∧ maxRecords ≤ ssNext s - after) then Return (scopeDone s) else
  if decide (0 < maxBytes ∧ ssOut s ≠ [] ∧ maxBytes ≤ ssUsed s) then Return (scopeDone s) else
  if decide (zlen (ssRest s) < 12) then Return (Err EIncomplete) else
  let n := rd32 (ssRest s) 0 in
  let seq := rd64 (ssRest s) 4 in
  if decide (n < 18 ∨ seq ≠ u64 (ssNext s + 1)) then Return (Err EGap) else
  if decide (zlen (ssRest s) < 14) then Return (Err EIncomplete) else
  let scopeLen := rd16 (ssRest s) 12 in
  if decide (n - 18 < scopeLen) then Return (Err EScope) else
  if decide (zlen (ssRest s) < 4 + n) then Return (Err EIncomplete) else
  let rest := drop (Z.to_nat (4 + n)) (ssRest s) in
  let offset := ssOffset s + (4 + n) in
  if decide (String.string_of_list_byte (slice (ssRest s) 14 (14 + scopeLen)) = scope) then
    match decodeSessionFragment seq (slice (ssRest s) 12 (4 + n)) with
    | Err e => Return (Err e)
    | Ok fragment =>
        Continue (MkScopeTail rest seq offset (ssOut s ++ [fragment]) (ssUsed s + (n - 8 - 2 - scopeLen)))
    end
  else Continue (MkScopeTail rest seq offset (ssOut s) (ssUsed s)).

Definition scopeRecords (data : bytes) (scope : string) (after final offset maxRecords maxBytes : Z) : scopePageOf :=
  run (scopeTurn scope after final maxRecords maxBytes) (λ s, length (ssRest s)) (Err EIncomplete)
    (MkScopeTail (drop (Z.to_nat offset) data) after offset [] 0).

(** ** Frames are read back *)

Definition shortSegment (s : bytes) : Prop := zlen s < 2 ^ 32.

Lemma zlen_EncodeFrames_cons s segs : zlen (EncodeFrames (s :: segs)) = 4 + zlen s + zlen (EncodeFrames segs).
Proof. unfold EncodeFrames. rewrite fmap_cons. cbn [concat]. len. Qed.

Lemma framesTurn_dec s s' : framesTurn s = Continue s' → (length s'.1 < length s.1)%nat.
Proof.
  destruct s as [data out]. unfold framesTurn. cbv zeta. pose proof (rd32_range data 0).
  repeat case_decide; try discriminate. intros [= <-]. simpl. rewrite length_drop. lia.
Qed.

Lemma frames_run_eq data out :
  run framesTurn (λ s, length s.1) [] (data, out) =
    match framesTurn (data, out) with
    | Continue s' => run framesTurn (λ s, length s.1) [] s'
    | Return r => r
    end.
Proof. apply run_eq, framesTurn_dec. Qed.

Lemma framesTurn_cons s rest out :
  shortSegment s → framesTurn ((be_enc 4 (zlen s) ++ s) ++ rest, out) = Continue (rest, out ++ [s]).
Proof.
  intros Hs. unfold framesTurn, shortSegment in *. cbv zeta. rewrite <-app_assoc, rd32_enc by lia.
  rewrite !decide_False by len. f_equal. f_equal.
  - rewrite app_assoc, drop_app_length'; [done|len].
  - do 2 f_equal. apply slice_middle; len.
Qed.

Lemma DecodeFrames_app segs junk out :
  Forall shortSegment segs →
  run framesTurn (λ s, length s.1) [] (EncodeFrames segs ++ junk, out)
    = run framesTurn (λ s, length s.1) [] (junk, out ++ segs).
Proof.
  intros Hs. revert out. induction Hs as [|s segs Hs Hss IH]; intros out; [by rewrite app_nil_r|].
  unfold EncodeFrames. rewrite fmap_cons. cbn [concat]. rewrite <-app_assoc, frames_run_eq, framesTurn_cons by done.
  unfold EncodeFrames in IH. rewrite IH. by rewrite <-app_assoc.
Qed.

Lemma DecodeFrames_Encode segs : Forall shortSegment segs → DecodeFrames (EncodeFrames segs) = segs.
Proof.
  intros Hs. unfold DecodeFrames. rewrite <-(app_nil_r (EncodeFrames segs)), DecodeFrames_app by done.
  by rewrite frames_run_eq.
Qed.

(** The start of a frame, without its end, is no frame. *)
Lemma DecodeFrames_torn segs s n :
  Forall shortSegment segs → shortSegment s → (n < 4 + length s)%nat →
  DecodeFrames (EncodeFrames segs ++ take n (be_enc 4 (zlen s) ++ s)) = segs.
Proof.
  intros Hss Hs Hn. unfold shortSegment in *. unfold DecodeFrames. rewrite DecodeFrames_app, frames_run_eq by done.
  unfold framesTurn. cbv zeta. case_decide as H4; [done|]. rewrite length_take, length_app, length_be_enc in H4.
  rewrite take_app_ge by (rewrite length_be_enc; lia). rewrite rd32_enc by lia.
  rewrite decide_True; [done|]. autorewrite with go. lia.
Qed.

(** The decoder takes every frame from the front. *)
Lemma DecodeFrames_prefix data : ∃ rest, data = EncodeFrames (DecodeFrames data) ++ rest.
Proof.
  unfold DecodeFrames.
  apply (run_ind _ _ _ framesTurn_dec (λ s, EncodeFrames s.2 ++ s.1 = data) (λ r, ∃ rest, data = EncodeFrames r ++ rest)).
  - intros [r out] s' Hr. unfold framesTurn. cbv zeta. pose proof (rd32_range r 0) as Hn.
    repeat case_decide; try discriminate. intros [= <-]. simpl in *. subst data.
    unfold EncodeFrames. rewrite fmap_app, concat_app. cbn [fmap list_fmap concat]. rewrite app_nil_r, <-!app_assoc. f_equal.
    rewrite length_slice by lia. replace (4 + rd32 r 0 - 4) with (rd32 r 0) by lia.
    assert (be_enc 4 (rd32 r 0) = slice r 0 4) as ->.
    { apply be_enc_dec. pose proof (length_slice r 0 4). lia. }
    rewrite app_assoc, <-(slice_split r 0 4) by lia.
    rewrite <-slice_drop by lia. by rewrite <-slice_split, slice_all by lia.
  - intros [r out] rr Hr. unfold framesTurn. cbv zeta. repeat case_decide; intros [= <-]; eauto.
  - done.
Qed.

(** ** Fragments are read back *)

(** What a fragment can hold without being cut. *)
Record fits (scope : string) (epoch : Z) (segments : list bytes) : Prop := {
  fit_scope : zlen (bs scope) < 2 ^ 16;
  fit_epoch : is_u64 epoch;
  fit_segments : Forall shortSegment segments;
  fit_some : segments ≠ [];
}.

Lemma bs_inv s : String.string_of_list_byte (bs s) = s.
Proof. apply String.string_of_list_byte_of_string. Qed.

Lemma decodeSessionFragment_encode seq scope epoch segments :
  fits scope epoch segments →
  decodeSessionFragment seq (encodeSessionFragment scope epoch segments) = Ok (MkFragment seq scope epoch segments).
Proof.
  intros [Hs He Hss Hne]. unfold decodeSessionFragment, encodeSessionFragment. cbv zeta.
  set (fr := EncodeFrames segments). rewrite rd16_enc by lia. rewrite !decide_False by len.
  replace (drop (Z.to_nat (zlen (bs scope) + 10)) (be_enc 2 (zlen (bs scope)) ++ bs scope ++ be_enc 8 epoch ++ fr)) with fr.
  2:{ rewrite !app_assoc. symmetry. apply drop_app_length'. len. }
  unfold fr. rewrite DecodeFrames_Encode by done. rewrite decide_False by naive_solver.
  do 2 f_equal.
  - rewrite slice_middle; [apply bs_inv|len..].
  - rewrite rd64_skip by len. rewrite length_be_enc. rewrite rd64_skip by lia.
    replace (2 + zlen (bs scope) - Z.of_nat 2 - zlen (bs scope)) with 0 by lia. by apply rd64_enc.
Qed.

(** A fragment read back is as long as what it was read from. *)
Lemma decodeSessionFragment_length seq b fr :
  decodeSessionFragment seq b = Ok fr →
  zlen (encodeSessionFragment (sfScope fr) (sfEpoch fr) (sfSegments fr)) = zlen b ∧ 10 ≤ zlen b ∧ sfSequence fr = seq.
Proof.
  unfold decodeSessionFragment. cbv zeta. case_decide as H1; [done|]. case_decide as H2; [done|]. case_decide as H3; [done|].
  intros [= <-]. cbn [sfSequence sfScope sfEpoch sfSegments]. split; [|split; [lia|done]]. assert (zlen (EncodeFrames (DecodeFrames (drop (Z.to_nat (rd16 b 0 + 10)) b))) = zlen (drop (Z.to_nat (rd16 b 0 + 10)) b)) as H4 by lia.
  unfold encodeSessionFragment, bs. rewrite String.list_byte_of_string_of_list_byte.
  pose proof (be_dec_range (slice b 0 (0 + 2))) as Hn. fold (rd16 b 0) in Hn.
  assert (zlen (slice b 2 (2 + rd16 b 0)) = rd16 b 0) as Hs by (rewrite length_slice; lia).
  rewrite !length_app, !length_be_enc, !Nat2Z.inj_add, H4, Hs, length_drop. lia.
Qed.

(** ** Logs *)

(** The log of the payloads after the record [k]. *)
Fixpoint encodeFrom (k : Z) (ps : list bytes) : bytes :=
  match ps with [] => [] | p :: ps => encodeRecord (k + 1) p ++ encodeFrom (k + 1) ps end.

Definition encodeLog (ps : list bytes) : bytes := encodeFrom 0 ps.

(** A payload whose record's length is not cut. *)
Definition okPayload (p : bytes) : Prop := 10 ≤ zlen p ∧ 8 + zlen p < 2 ^ 32.

(** And whose size is not, when the scan adds it. *)
Definition smallPayload (p : bytes) : Prop := 10 ≤ zlen p ∧ 12 + zlen p < 2 ^ 32.

Lemma small_ok p : smallPayload p → okPayload p.
Proof. unfold smallPayload, okPayload. lia. Qed.

Lemma zlen_encodeRecord seq p : zlen (encodeRecord seq p) = 12 + zlen p.
Proof. unfold encodeRecord. len. Qed.

Lemma encodeFrom_app k ps qs : encodeFrom k (ps ++ qs) = encodeFrom k ps ++ encodeFrom (k + zlen ps) qs.
Proof.
  revert k. induction ps as [|p ps IH]; intros k; [by rewrite Z.add_0_r|].
  cbn [encodeFrom app]. rewrite IH, <-app_assoc, length_cons. do 3 f_equal. lia.
Qed.

Lemma encodeLog_app ps qs : encodeLog (ps ++ qs) = encodeLog ps ++ encodeFrom (zlen ps) qs.
Proof. unfold encodeLog. by rewrite encodeFrom_app. Qed.

Lemma encodeFrom_count k ps : 12 * zlen ps ≤ zlen (encodeFrom k ps).
Proof.
  revert k. induction ps as [|p ps IH]; intros k; cbn [encodeFrom]; [done|]. specialize (IH (k + 1)).
  pose proof (zlen_encodeRecord (k + 1) p). rewrite length_app, length_cons. lia.
Qed.

(** The fields of the record at the front. *)
Section record.
Context (seq : Z) (p rest : bytes) (Hseq : is_u64 seq) (Hp : okPayload p).
Abbreviation data := (encodeRecord seq p ++ rest).

Lemma record_length : rd32 data 0 = 8 + zlen p.
Proof. unfold encodeRecord. rewrite <-!app_assoc. apply rd32_enc. unfold okPayload in Hp. lia. Qed.

Lemma record_seq : rd64 data 4 = seq.
Proof. unfold encodeRecord. rewrite <-!app_assoc. rewrite rd64_skip by len. rewrite length_be_enc. by apply rd64_enc. Qed.

Lemma record_zlen : zlen data = 12 + zlen p + zlen rest.
Proof. pose proof (zlen_encodeRecord seq p). rewrite length_app. lia. Qed.

Lemma record_rest : drop (Z.to_nat (4 + (8 + zlen p))) data = rest.
Proof. apply drop_app_length'. pose proof (zlen_encodeRecord seq p). lia. Qed.

Lemma record_payload : slice data 12 (4 + (8 + zlen p)) = p.
Proof. unfold encodeRecord. rewrite app_assoc, <-app_assoc. apply slice_middle; len. Qed.
End record.

(** A header that is whole and its record: what the loops read is a record. *)
Lemma record_read rest :
  let n := rd32 rest 0 in let seq := rd64 rest 4 in
  18 ≤ n → 4 + n ≤ zlen rest →
  rest = encodeRecord seq (slice rest 12 (4 + n)) ++ drop (Z.to_nat (4 + n)) rest
  ∧ okPayload (slice rest 12 (4 + n)) ∧ is_u64 seq ∧ zlen (slice rest 12 (4 + n)) = n - 8.
Proof.
  intros n seq Hn Hl. pose proof (rd32_range rest 0) as Hr. fold n in Hr.
  assert (zlen (slice rest 12 (4 + n)) = n - 8) as Hz by (rewrite length_slice; lia).
  split; [|split; [unfold okPayload; lia|split; [apply rd64_range; lia|done]]].
  unfold encodeRecord. rewrite Hz. replace (8 + (n - 8)) with n by lia.
  assert (be_enc 4 n = slice rest 0 4) as ->. { apply be_enc_dec. pose proof (length_slice rest 0 4). lia. }
  assert (be_enc 8 seq = slice rest 4 12) as ->. { apply be_enc_dec. change (4 + 8) with 12. pose proof (length_slice rest 4 12). lia. }
  rewrite <-slice_drop by lia. rewrite <-!app_assoc.
  rewrite <-(slice_split rest 12), <-(slice_split rest 4), <-(slice_split rest 0) by lia. by rewrite slice_all.
Qed.

(** Two readings of the same bytes agree as far as both go. *)
Lemma encodeFrom_comparable k w c r1 r2 :
  Forall okPayload w → Forall okPayload c → 0 ≤ k → k + zlen w < 2 ^ 64 → k + zlen c < 2 ^ 64 →
  encodeFrom k w ++ r1 = encodeFrom k c ++ r2 → w `prefix_of` c ∨ c `prefix_of` w.
Proof.
  intros Hw. revert k c. induction Hw as [|p w Hp Hw IH]; intros k c Hc Hk Hkw Hkc E; [left; apply prefix_nil|].
  destruct Hc as [|q c Hq Hc]; [right; apply prefix_nil|]. cbn [encodeFrom] in E. rewrite <-!app_assoc in E.
  rewrite !length_cons in *. assert (is_u64 (k + 1)) as Hk1 by lia.
  pose proof (record_length (k + 1) p (encodeFrom (k + 1) w ++ r1) Hp) as L1.
  pose proof (record_payload (k + 1) p (encodeFrom (k + 1) w ++ r1)) as P1.
  pose proof (record_rest (k + 1) p (encodeFrom (k + 1) w ++ r1)) as R1.
  rewrite E, (record_length (k + 1) q) in L1 by done. assert (zlen p = zlen q) as Hz by lia.
  rewrite Hz, E, record_payload in P1. rewrite Hz, E, record_rest in R1. subst q.
  destruct (IH (k + 1) c) as [H|H]; [done|lia..|done|left|right]; by apply prefix_cons.
Qed.

Lemma encodeFrom_prefix k w c r :
  Forall okPayload w → Forall okPayload c → 0 ≤ k → k + zlen w < 2 ^ 64 → k + zlen c < 2 ^ 64 →
  encodeFrom k w `prefix_of` encodeFrom k c ++ r → zlen r < 12 → w `prefix_of` c.
Proof.
  intros Hw Hc Hk Hkw Hkc [r1 E] Hr. destruct (encodeFrom_comparable k w c r1 r) as [?|[e ->]]; [done..|].
  destruct e as [|x e]; [by rewrite app_nil_r|]. rewrite encodeFrom_app in E.
  apply (f_equal length) in E. rewrite !length_app in E.
  pose proof (encodeFrom_count (k + zlen c) (x :: e)) as Hn. rewrite length_cons in Hn. lia.
Qed.

(** A log file whose size, and the sizes of its records, can be counted. *)
Definition saneLog (data : bytes) : Prop :=
  zlen data < 2 ^ 63
  ∧ ∀ v rest, data = encodeLog v ++ rest → Forall okPayload v → Forall smallPayload v.

Lemma log_count v rest : zlen (encodeLog v ++ rest) < 2 ^ 63 → zlen v < 2 ^ 64 - 1.
Proof. pose proof (encodeFrom_count 0 v). unfold encodeLog. rewrite length_app. lia. Qed.

(** What an append leaves, whole or torn, is sane. *)
Lemma saneLog_write v ps n :
  Forall smallPayload v → Forall smallPayload ps → zlen (v ++ ps) < 2 ^ 64 - 1 →
  zlen (encodeLog v ++ take n (encodeFrom (zlen v) ps)) < 2 ^ 63 →
  saneLog (encodeLog v ++ take n (encodeFrom (zlen v) ps)).
Proof.
  intros Hv Hps Hc Hz. split; [done|]. intros w rest E Hw.
  assert (w `prefix_of` v ++ ps) as [e He].
  { apply (encodeFrom_prefix 0 w (v ++ ps) []); [done| |done| |lia| |done].
    - apply (Forall_impl smallPayload); [|apply small_ok]. by apply Forall_app.
    - rewrite E in Hz. apply log_count in Hz. lia.
    - rewrite app_nil_r. change (encodeLog w `prefix_of` encodeLog (v ++ ps)). rewrite encodeLog_app.
      transitivity (encodeLog v ++ take n (encodeFrom (zlen v) ps)); [by exists rest|].
      apply prefix_app. by exists (drop n (encodeFrom (zlen v) ps)); rewrite take_drop. }
  assert (Forall smallPayload (w ++ e)) as [? _]%Forall_app; [|done]. rewrite <-He. by apply Forall_app.
Qed.

(** A whole log is sane. *)
Lemma saneLog_log v : Forall smallPayload v → zlen (encodeLog v) < 2 ^ 63 → saneLog (encodeLog v).
Proof.
  intros Hv Hz. pose proof (saneLog_write v [] 0 Hv (Forall_nil_2 _)) as Hs. rewrite !app_nil_r in Hs.
  apply Hs; [|done]. apply (log_count v []). by rewrite app_nil_r.
Qed.

Lemma saneLog_nil : saneLog [].
Proof.
  split; [done|]. intros [|p v] rest E _; [done|]. unfold encodeLog in E. cbn [encodeFrom] in E.
  apply (f_equal length) in E. pose proof (zlen_encodeRecord (0 + 1) p). rewrite !length_app in E. simpl in E. lia.
Qed.

(** ** The scan finds the log *)

Lemma scanTurn_dec s s' : scanTurn s = Continue s' → (length s'.1.1 < length s.1.1)%nat.
Proof.
  destruct s as [[rest last] size]. unfold scanTurn. cbv zeta. repeat case_decide; try discriminate.
  intros [= <-]. simpl. rewrite length_drop. lia.
Qed.

Lemma scanRecords_sound c r last size :
  saneLog (encodeLog c ++ r) → Forall okPayload c → scanRecords (encodeLog c ++ r) = Ok (last, size) →
  ∃ v rest, encodeLog c ++ r = encodeLog v ++ rest ∧ c `prefix_of` v ∧ Forall smallPayload v
    ∧ last = zlen v ∧ size = zlen (encodeLog v).
Proof.
  intros [Hz Hsane] Hc. unfold scanRecords.
  apply (run_ind _ _ _ scanTurn_dec
    (λ s, ∃ v, encodeLog c ++ r = encodeLog v ++ s.1.1 ∧ Forall okPayload v ∧ s.1.2 = zlen v ∧ s.2 = zlen (encodeLog v))
    (λ x, x = Ok (last, size) → ∃ v rest, encodeLog c ++ r = encodeLog v ++ rest ∧ c `prefix_of` v
       ∧ Forall smallPayload v ∧ last = zlen v ∧ size = zlen (encodeLog v))).
  - intros [[rest k] sz] s' (v & E & Hv & Hk & Hs). simpl in *. unfold scanTurn. cbv zeta.
    repeat case_decide; try discriminate. intros [= <-]. simpl.
    destruct (record_read rest ltac:(lia) ltac:(lia)) as (Er & Hp & Hseq & Hl). set (p := slice rest 12 (4 + rd32 rest 0)) in *.
    assert (k + 1 < 2 ^ 64) as Hk64. { rewrite E in Hz. apply log_count in Hz. lia. }
    assert (rd64 rest 4 = zlen v + 1) as Es. { rewrite u64_id in * by lia. lia. }
    assert (encodeLog c ++ r = encodeLog (v ++ [p]) ++ drop (Z.to_nat (4 + rd32 rest 0)) rest) as E'.
    { rewrite E, encodeLog_app, <-app_assoc. f_equal. cbn [encodeFrom]. rewrite app_nil_r, <-Es. exact Er. }
    exists (v ++ [p]). assert (Forall okPayload (v ++ [p])) as Hvp by (apply Forall_app; auto).
    split_and!; [done|done|rewrite length_app; simpl; lia|].
    pose proof (Hsane _ _ E' Hvp) as [_ Hsm]%Forall_app. inversion_clear Hsm as [|?? [_ Hsmall] _].
    rewrite encodeLog_app, length_app. cbn [encodeFrom]. rewrite app_nil_r.
    pose proof (zlen_encodeRecord (zlen v + 1) p). rewrite u32_id by lia. lia.
  - intros [[rest k] sz] x (v & E & Hv & Hk & Hs). simpl in *. unfold scanTurn. cbv zeta.
    assert (zlen v < 2 ^ 64 - 1) as Hzv by (rewrite E in Hz; by apply log_count in Hz).
    assert (zlen c < 2 ^ 64 - 1) as Hzc by (by apply log_count in Hz).
    destruct (encodeFrom_comparable 0 c v r rest) as [Hcv|Hvc]; [done..|lia|lia|done| |].
    { repeat case_decide; intros [= <-] [= <- <-]; exists v, rest; (split_and!; [done..|by eapply Hsane|done|done]). }
    destruct Hvc as [[|p e] ->]; [rewrite app_nil_r in *|].
    { repeat case_decide; intros [= <-] [= <- <-]; exists v, rest; (split_and!; [done..|by eapply Hsane|done|done]). }
    rewrite encodeLog_app, <-app_assoc in E. apply app_inv_head in E. cbn [encodeFrom] in E. rewrite <-app_assoc in E.
    apply Forall_app in Hc as [_ Hc]. inversion_clear Hc as [|?? Hp _]. rewrite length_app, length_cons in Hzc.
    assert (is_u64 (zlen v + 1)) as Hu by lia.
    rewrite <-E, (record_length _ _ _ Hp), (record_seq _ _ _ Hu), record_zlen. unfold okPayload in Hp.
    rewrite !decide_False by (rewrite ?u64_id; lia). discriminate.
  - exists []. split_and!; [done|constructor|done|done].
Qed.

Lemma headTurn_dec s s' : headTurn s = Continue s' → (length s'.1 < length s.1)%nat.
Proof.
  destruct s as [rest last]. unfold headTurn. cbv zeta. repeat case_decide; try discriminate.
  intros [= <-]. simpl. rewrite length_drop. lia.
Qed.

(** The head is at the last record of the log or after it. *)
Lemma headRecords_sound c r last :
  zlen (encodeLog c ++ r) < 2 ^ 63 → Forall okPayload c → headRecords (encodeLog c ++ r) = Ok last →
  zlen c ≤ last < 2 ^ 63.
Proof.
  intros Hz Hc. unfold headRecords.
  enough (∀ ps k rest, Forall okPayload ps → 0 ≤ k → k + zlen (encodeFrom k ps ++ rest) < 2 ^ 63 →
    run headTurn (λ s, length s.1) (Err ESequence) (encodeFrom k ps ++ rest, k) = Ok last →
    k + zlen ps ≤ last < 2 ^ 63) as H.
  { intros E. specialize (H c 0 r Hc ltac:(done) Hz E). done. }
  clear c Hc Hz. intros ps k rest Hps. revert k. induction Hps as [|p ps Hp Hps IH]; intros k Hk Hz.
  - apply (run_ind _ _ _ headTurn_dec (λ s, k ≤ s.2 ∧ s.2 + zlen s.1 < 2 ^ 63)
      (λ x, x = Ok last → k + zlen (@nil bytes) ≤ last < 2 ^ 63)).
    + intros [b n] s' [H1 H2]. unfold headTurn. cbv zeta. repeat case_decide; try discriminate. intros [= <-]. simpl in *.
      rewrite u64_id in * by lia. rewrite length_drop. lia.
    + intros [b n] x [H1 H2]. unfold headTurn. cbv zeta. simpl in *. repeat case_decide; intros [= <-] [= <-]; lia.
    + simpl in *. lia.
  - cbn [encodeFrom] in *. rewrite <-app_assoc in *. rewrite run_eq by apply headTurn_dec.
    pose proof (record_zlen (k + 1) p (encodeFrom (k + 1) ps ++ rest)) as Hzl.
    assert (is_u64 (k + 1)) as Hu by lia.
    unfold headTurn at 1. cbv zeta. rewrite (record_length _ _ _ Hp), (record_seq _ _ _ Hu), Hzl, record_rest.
    unfold okPayload in Hp. rewrite !decide_False by (rewrite ?u64_id; lia). intros E.
    apply IH in E; [rewrite length_cons; lia|lia|lia].
Qed.

(** ** The tail is the records after the number *)

(** The fragments of the payloads after the record [k]. *)
Definition decoded (k : Z) (ps : list bytes) (fs : list SessionFragment) : Prop :=
  Forall2 (λ x f, x = Ok f) (imap (λ i p, decodeSessionFragment (k + 1 + Z.of_nat i) p) ps) fs.

Lemma decoded_length k ps fs : decoded k ps fs → length ps = length fs.
Proof. intros H%Forall2_length. by rewrite length_imap in H. Qed.

Lemma decoded_snoc k ps fs p f :
  decoded k ps fs → decodeSessionFragment (k + 1 + zlen ps) p = Ok f → decoded k (ps ++ [p]) (fs ++ [f]).
Proof.
  intros H Hf. unfold decoded. rewrite imap_app. apply Forall2_app; [done|]. constructor; [|constructor].
  unfold compose. rewrite <-Hf. f_equal. lia.
Qed.

Lemma decoded_lookup k ps fs i p :
  decoded k ps fs → ps !! i = Some p → ∃ f, fs !! i = Some f ∧ decodeSessionFragment (k + 1 + Z.of_nat i) p = Ok f.
Proof.
  intros H Hi. eapply Forall2_lookup_l in H as (f & Hf & E); [eauto|].
  rewrite list_lookup_imap, Hi. done.
Qed.

Lemma decoded_unique k ps fs fs' : decoded k ps fs → decoded k ps fs' → fs = fs'.
Proof.
  unfold decoded. intros H1. revert fs'. induction H1 as [|x f xs fs Hx Hxs IH]; intros fs'; inversion_clear 1; [done|].
  f_equal; [congruence|auto].
Qed.

Lemma tailTurn_dec size final after mf mb s s' :
  tailTurn size final after mf mb s = Continue s' → (length (tsRest s') < length (tsRest s))%nat.
Proof.
  unfold tailTurn. cbv zeta. destruct (from_option _ _ _); [discriminate|].
  do 6 (case_decide; [discriminate|]).
  case_decide; [|case_match; [case_decide; [discriminate|]|discriminate]]; intros [= <-]; simpl; rewrite length_drop; lia.
Qed.

Section tail.
Context (data : bytes) (final : option Z) (start off0 after mf mb : Z).
Abbreviation turnOf := (tailTurn (zlen data) final after mf mb).
Abbreviation runFrom := (run turnOf (λ s, length (tsRest s)) (Err EIncomplete)).

(** Where the loop stands: after the records [w]. *)
Record tailAt (w : list bytes) (s : tailState) : Prop := {
  ta_data : data = encodeLog w ++ tsRest s;
  ta_ok : Forall okPayload w;
  ta_seq : tsSequence s = zlen w;
  ta_off : tsOffset s = zlen (encodeLog w);
  ta_out : decoded after (drop (Z.to_nat after) w) (tsOut s);
  ta_ret : tsOut s = [] ∧ (tsRetSequence s, tsRetOffset s) = (start, off0)
           ∨ tsOut s ≠ [] ∧ (tsRetSequence s, tsRetOffset s) = (zlen w, zlen (encodeLog w));
  ta_final : ∀ f, final = Some f → zlen w ≤ Z.max start f;
}.

(** Why it stopped. *)
Definition tailEnds (w : list bytes) (s : tailState) : Prop :=
  (∃ f, final = Some f ∧ f ≤ zlen w) ∨ (0 < mf ≤ zlen (tsOut s)) ∨ (0 < mb ∧ tsOut s ≠ [])
  ∨ (final = None ∧ tsRest s = []).

(** One turn from there: a record more, the end, or an error. *)
Lemma tailTurn_cases w s :
  zlen data < 2 ^ 63 → 0 ≤ after → tailAt w s →
  match turnOf s with
  | Continue s' => ∃ p, tailAt (w ++ [p]) s'
  | Return (Ok x) => x = (tsOut s, (tsRetSequence s, tsRetOffset s)) ∧ tailEnds w s
  | Return (Err _) => True
  end.
Proof.
  intros Hz Ha [Ed Hok Hs Ho Hout Hret Hf]. unfold tailTurn, tailEnds. cbv zeta.
  destruct (from_option _ _ _) eqn:Efin.
  { destruct final as [f|]; [|done]. simpl in Efin. apply bool_decide_eq_true in Efin. unfold tailEnd.
    case_decide; [done|]. split; [done|]. left. exists f. split; [done|lia]. }
  case_decide as H1; [split; [done|]; right; by left|].
  case_decide as H2.
  { destruct H2 as [H2 ->]. split; [done|]. right; right; right. split; [done|]. destruct (tsRest s); [done|simpl in H2; lia]. }
  case_decide as H3; [done|]. case_decide as H4; [done|]. case_decide as H5; [done|]. case_decide as H6; [done|].
  destruct (record_read (tsRest s) ltac:(lia) ltac:(lia)) as (Er & Hp & Hseq & Hl).
  set (n := rd32 (tsRest s) 0) in *. set (p := slice (tsRest s) 12 (4 + n)) in *.
  assert (zlen w < 2 ^ 64 - 1) as Hw by (rewrite Ed in Hz; by apply log_count in Hz).
  assert (rd64 (tsRest s) 4 = zlen w + 1) as Es. { rewrite u64_id in H4 by lia. lia. }
  assert (data = encodeLog (w ++ [p]) ++ drop (Z.to_nat (4 + n)) (tsRest s)) as Ed'.
  { rewrite Ed, encodeLog_app, <-app_assoc. f_equal. cbn [encodeFrom]. rewrite app_nil_r, <-Es. exact Er. }
  assert (Forall okPayload (w ++ [p])) as Hok' by (apply Forall_app; auto).
  assert (zlen (encodeLog (w ++ [p])) = zlen (encodeLog w) + (n + 4)) as Hzl.
  { rewrite encodeLog_app, length_app. cbn [encodeFrom]. rewrite app_nil_r. pose proof (zlen_encodeRecord (zlen w + 1) p). lia. }
  assert (∀ f, final = Some f → zlen (w ++ [p]) ≤ Z.max start f) as Hf'.
  { intros f ->. simpl in Efin. apply bool_decide_eq_false in Efin. rewrite length_app. simpl. specialize (Hf f eq_refl). lia. }
  rewrite Es. case_decide as H7.
  - exists p. assert (tsOut s = []) as Eout.
    { apply decoded_length in Hout. rewrite length_drop in Hout. apply nil_length_inv. lia. }
    split; cbn [tsRest tsSequence tsOffset tsOut tsRetSequence tsRetOffset]; [done|done| | | | |done].
    + rewrite length_app. simpl. lia.
    + lia.
    + rewrite Eout. unfold decoded. rewrite drop_ge; [constructor|]. rewrite length_app. simpl. lia.
    + destruct Hret as [?|[??]]; [by left|done].
  - destruct (decodeSessionFragment (zlen w + 1) p) as [fr|e] eqn:Edec; [|done]. case_decide as H8.
    { split; [done|]. right. destruct H8 as [? [?|[??]]]; auto. }
    exists p. split; cbn [tsRest tsSequence tsOffset tsOut tsRetSequence tsRetOffset]; [done|done| | | | |done].
    + rewrite length_app. simpl. lia.
    + lia.
    + rewrite drop_app_le by lia. apply decoded_snoc; [done|]. rewrite <-Edec. f_equal. rewrite length_drop. lia.
    + right. split; [by destruct (tsOut s)|]. f_equal; [|lia]. rewrite length_app. simpl. lia.
Qed.

(** The page is the fragments after the number, and the next page starts after them. *)
Lemma tailRecords_sound w0 out rs ro :
  zlen data < 2 ^ 63 → 0 ≤ after → start ≤ after → zlen w0 = start → zlen (encodeLog w0) = off0 →
  encodeLog w0 `prefix_of` data → Forall okPayload w0 →
  tailRecords data final start off0 after mf mb = Ok (out, (rs, ro)) →
  ∃ w s, tailAt w s ∧ tailEnds w s ∧ out = tsOut s ∧ (rs, ro) = (tsRetSequence s, tsRetOffset s).
Proof.
  intros Hz Ha Hst Hw0 Hoff [rest Ed] Hok0. unfold tailRecords.
  apply (run_ind _ _ _ (tailTurn_dec _ _ _ _ _) (λ s, ∃ w, tailAt w s)
    (λ x, x = Ok (out, (rs, ro)) → ∃ w s, tailAt w s ∧ tailEnds w s ∧ out = tsOut s ∧ (rs, ro) = (tsRetSequence s, tsRetOffset s))).
  - intros s s' [w Hw] E. pose proof (tailTurn_cases w s Hz Ha Hw) as H. rewrite E in H. destruct H as [p Hp]. eauto.
  - intros s x [w Hw] E ->. pose proof (tailTurn_cases w s Hz Ha Hw) as H. rewrite E in H. destruct H as [[= -> -> ->] He]. eauto 10.
  - exists w0. rewrite Ed, drop_app_length' by lia. split; simpl; [done|done|done|done| |by left|lia].
    unfold decoded. rewrite drop_ge by lia. constructor.
Qed.

(** A record of the log is read without an error. *)
Lemma tailTurn_record w p s e :
  zlen data < 2 ^ 63 → tailAt w s → (∃ f, final = Some f) → okPayload p →
  (∃ fr, decodeSessionFragment (zlen w + 1) p = Ok fr) →
  ∀ r, tsRest s = encodeRecord (zlen w + 1) p ++ r → turnOf s ≠ Return (Err e).
Proof.
  intros Hz [Ed Hok Hs Ho Hout Hret Hf] [f ->] Hp [fr Hdec] r Er. unfold tailTurn. cbv zeta.
  assert (zlen w < 2 ^ 64 - 1) as Hw by (rewrite Ed in Hz; by apply log_count in Hz).
  assert (is_u64 (zlen w + 1)) as Hu by lia.
  destruct (from_option _ _ _) eqn:Efin.
  { simpl in Efin. apply bool_decide_eq_true in Efin. unfold tailEnd. rewrite decide_False by lia. discriminate. }
  rewrite Er, (record_length _ _ _ Hp), (record_seq _ _ _ Hu), record_payload, record_zlen, record_rest, Hs.
  case_decide; [discriminate|]. rewrite u64_id by lia. unfold okPayload in Hp.
  assert (zlen data = zlen (encodeLog w) + (12 + zlen p + zlen r)) as Hzd.
  { rewrite Ed at 1. rewrite length_app, Er, Nat2Z.inj_add. f_equal. apply record_zlen. }
  rewrite !decide_False by naive_solver lia. case_decide; [discriminate|].
  rewrite Hdec. case_decide; discriminate.
Qed.

(** A log with decodable payloads up to the final number can be read. *)
Lemma tailRecords_reads w0 v rest f :
  zlen data < 2 ^ 63 → 0 ≤ after → start ≤ after → zlen w0 = start → zlen (encodeLog w0) = off0 →
  w0 `prefix_of` v → data = encodeLog v ++ rest → Forall okPayload v → final = Some f → f ≤ zlen v →
  (∀ i p, v !! i = Some p → ∃ fr, decodeSessionFragment (Z.of_nat i + 1) p = Ok fr) →
  ∃ page, tailRecords data final start off0 after mf mb = Ok page.
Proof.
  intros Hz Ha Hst Hw0 Hoff Hpre Ed Hok Hfin Hf Hdec. unfold tailRecords.
  apply (run_ind _ _ _ (tailTurn_dec _ _ _ _ _) (λ s, ∃ w, tailAt w s ∧ w `prefix_of` v) (λ x, ∃ page, x = Ok page)).
  - intros s s' (w & Hw & e & He) E. pose proof (tailTurn_cases w s Hz Ha Hw) as H. rewrite E in H. destruct H as [p Hp].
    exists (w ++ [p]). split; [done|]. destruct Hp as [Ed' Hok' _ _ _ _ _].
    assert (zlen (w ++ [p]) < 2 ^ 64 - 1) by (apply (log_count _ (tsRest s')); by rewrite <-Ed').
    assert (zlen v < 2 ^ 64 - 1) by (apply (log_count _ rest); by rewrite <-Ed).
    destruct (encodeFrom_comparable 0 (w ++ [p]) v (tsRest s') rest) as [?|[e' He']]; [done..|lia|lia|exact (eq_trans (eq_sym Ed') Ed)|done|].
    subst v. destruct e as [|p' e].
    + rewrite app_nil_r in *. destruct Hw as [_ _ Hs _ _ _ _]. unfold tailTurn in E.
      rewrite Hfin in E. simpl in E. rewrite bool_decide_eq_true_2 in E by lia. done.
    + rewrite <-app_assoc in He'. apply app_inv_head in He' as [= <- [-> ->]%eq_sym%app_nil]. done.
  - intros s x (w & Hw & e & He) E. destruct x as [x|er]; [by eexists|]. exfalso. subst v. destruct e as [|p e].
    + rewrite app_nil_r in *. destruct Hw as [_ _ Hs _ _ _ _]. unfold tailTurn, tailEnd in E.
      rewrite Hfin in E. simpl in E. rewrite bool_decide_eq_true_2, decide_False in E by lia. done.
    + pose proof Hw as [Ew _ _ _ _ _ _]. rewrite Ed, encodeLog_app, <-app_assoc in Ew. apply app_inv_head in Ew.
      cbn [encodeFrom] in Ew. rewrite <-app_assoc in Ew. apply Forall_app in Hok as [_ Hok]. inversion_clear Hok.
      eapply tailTurn_record in E; [done|done|exact Hw|eauto|done| |by symmetry].
      rewrite Z.add_comm, Z.add_comm. apply Hdec. by rewrite lookup_app_r, Nat.sub_diag.
  - exists w0. split; [|done]. destruct Hpre as [e ->]. rewrite encodeLog_app, <-app_assoc in Ed.
    rewrite Ed, drop_app_length' by lia. apply Forall_app in Hok as [Hok _]. split; simpl; [done|done|done|done| |by left|lia].
    unfold decoded. rewrite drop_ge by lia. constructor.
Qed.
End tail.

(** ** A cursor changes nothing *)

Definition pageOf (r : tailPageOf) : result formatError (list SessionFragment) :=
  match r with Ok (out, _) => Ok out | Err e => Err e end.

Definition setRet (s : tailState) (r o : Z) : tailState :=
  MkTail (tsRest s) (tsSequence s) (tsOffset s) (tsOut s) (tsBytes s) r o.

Section cursor.
Context (size f after mf mb : Z).
Abbreviation turnOf := (tailTurn size (Some f) after mf mb).
Abbreviation runFrom := (run turnOf (λ s, length (tsRest s)) (Err EIncomplete)).

Lemma tailTurn_setRet s r o :
  match turnOf s with
  | Continue s' => ∃ r' o', turnOf (setRet s r o) = Continue (setRet s' r' o')
  | Return x => ∃ y, turnOf (setRet s r o) = Return y ∧ pageOf x = pageOf y
  end.
Proof.
  unfold tailTurn, setRet, tailEnd, tailDone. cbn [tsRest tsSequence tsOffset tsOut tsBytes]. cbv zeta.
  cbn [from_option]. destruct (bool_decide (f ≤ tsSequence s)); [case_decide; by eexists|].
  case_decide; [by eexists|]. rewrite !(decide_False (P := _ = 0 ∧ Some f = None)) by naive_solver.
  do 4 (case_decide; [by eexists|]). case_decide; [by eexists _, _|].
  destruct (decodeSessionFragment _ _); [|by eexists]. case_decide; [by eexists|]. by eexists _, _.
Qed.

Lemma run_setRet s r o : pageOf (runFrom s) = pageOf (runFrom (setRet s r o)).
Proof.
  revert r o. induction s as [s IH] using (induction_ltof1 _ (λ s, length (tsRest s))). intros r o.
  rewrite !(run_eq turnOf _ _ (tailTurn_dec _ _ _ _ _)). pose proof (tailTurn_setRet s r o) as H.
  destruct (turnOf s) as [s'|x] eqn:E.
  - destruct H as (r' & o' & ->). apply IH. by eapply tailTurn_dec.
  - by destruct H as (y & -> & ?).
Qed.
End cursor.

Lemma tail_skip data f after mf mb u x rest :
  zlen data < 2 ^ 63 → Forall okPayload (u ++ x) → data = encodeLog (u ++ x) ++ rest → zlen (u ++ x) ≤ after →
  let runFrom := run (tailTurn (zlen data) (Some f) after mf mb) (λ s, length (tsRest s)) (Err EIncomplete) in
  pageOf (runFrom (MkTail (encodeFrom (zlen u) x ++ rest) (zlen u) (zlen (encodeLog u)) [] 0 0 0))
  = pageOf (runFrom (MkTail rest (zlen (u ++ x)) (zlen (encodeLog (u ++ x))) [] 0 0 0)).
Proof.
  intros Hz Hok Ed Ha runFrom. revert u Hok Ed Ha. induction x as [|p x IH]; intros u Hok Ed Ha.
  { by rewrite app_nil_r. }
  assert (zlen (u ++ p :: x) < 2 ^ 64 - 1) as Hc by (apply (log_count _ rest); by rewrite <-Ed).
  rewrite length_app, length_cons in Hc.
  destruct (decide (f ≤ zlen u)) as [Hf|Hf].
  { unfold runFrom. rewrite !run_eq by apply tailTurn_dec. unfold tailTurn, tailEnd. cbn [from_option tsSequence].
    rewrite !bool_decide_eq_true_2 by (rewrite ?length_app; lia). cbn [tsSequence]. rewrite !decide_False; [done|..].
    - rewrite length_app. lia.
    - lia. }
  assert (okPayload p) as Hp by (apply Forall_app in Hok as [_ Hok]; by inversion_clear Hok).
  assert (zlen data = zlen (encodeLog u) + (12 + zlen p + zlen (encodeFrom (zlen u + 1) x ++ rest))) as Hzd.
  { rewrite Ed, encodeLog_app. cbn [encodeFrom]. rewrite <-!app_assoc, length_app, Nat2Z.inj_add. f_equal. apply record_zlen. }
  unfold runFrom. rewrite run_eq by apply tailTurn_dec. cbn [encodeFrom]. rewrite <-app_assoc.
  assert (is_u64 (zlen u + 1)) as Hu by lia.
  unfold tailTurn at 1. cbv zeta. cbn [from_option tsRest tsSequence tsOffset tsOut tsBytes tsRetSequence tsRetOffset].
  rewrite (record_length _ _ _ Hp), (record_seq _ _ _ Hu), record_zlen, record_rest.
  rewrite bool_decide_eq_false_2 by done. unfold okPayload in Hp. rewrite length_app, length_cons in Ha.
  rewrite !decide_False by (rewrite ?u64_id; simpl; naive_solver lia). rewrite decide_True by lia.
  assert (zlen (encodeLog (u ++ [p])) = zlen (encodeLog u) + (8 + zlen p + 4)) as Hl1.
  { rewrite encodeLog_app. cbn [encodeFrom]. pose proof (zlen_encodeRecord (zlen u + 1) p). rewrite app_nil_r, length_app. lia. }
  assert (zlen (u ++ [p]) = zlen u + 1) as Hl2 by (rewrite length_app; simpl; lia).
  specialize (IH (u ++ [p])). rewrite Hl1, Hl2, <-!app_assoc in IH. cbn [app] in IH.
  apply IH; [done|done|rewrite length_app, length_cons; lia].
Qed.

(** The page read from a cursor is the page read from the start. *)
Lemma tailRecords_cursor data f w after mf mb :
  zlen data < 2 ^ 63 → Forall okPayload w → encodeLog w `prefix_of` data → zlen w = after →
  pageOf (tailRecords data (Some f) after (zlen (encodeLog w)) after mf mb)
  = pageOf (tailRecords data (Some f) 0 0 after mf mb).
Proof.
  intros Hz Hok [rest Ed] Hw. unfold tailRecords. rewrite Ed at 2. rewrite drop_app_length' by lia.
  symmetry. rewrite (run_setRet _ _ _ _ _ (MkTail rest _ _ _ _ _ _) 0 0).
  pose proof (tail_skip data f after mf mb [] w rest Hz Hok Ed ltac:(simpl; lia)) as H. simpl in H.
  rewrite Hw in H. unfold setRet. simpl. rewrite <-H. do 3 f_equal. exact Ed.
Qed.

(** ** A scope's part of the log *)

Lemma slice_slice {A} (l : list A) a b i j :
  0 ≤ a → 0 ≤ i ≤ j → j ≤ b - a → slice (slice l a b) i j = slice l (a + i) (a + j).
Proof.
  intros Ha Hi Hj. unfold slice. rewrite skipn_firstn_comm, take_take, drop_drop. f_equal; [lia|f_equal; lia].
Qed.

Definition payloadScope (p : bytes) : string := String.string_of_list_byte (slice p 2 (2 + rd16 p 0)).

(** The fragments of the scope among the payloads after the record [k]. *)
Definition scopeDecoded (scope : string) (k : Z) (ps : list bytes) (fs : list SessionFragment) : Prop :=
  Forall2 (λ x f, decodeSessionFragment x.1 x.2 = Ok f)
    (filter (λ x, payloadScope x.2 = scope) (imap (λ i p, (k + 1 + Z.of_nat i, p)) ps)) fs.

Lemma scopeDecoded_snoc scope k ps fs p gs :
  scopeDecoded scope k ps fs →
  (if decide (payloadScope p = scope)
   then ∃ f, gs = [f] ∧ decodeSessionFragment (k + 1 + zlen ps) p = Ok f else gs = []) →
  scopeDecoded scope k (ps ++ [p]) (fs ++ gs).
Proof.
  intros H Hp. unfold scopeDecoded. rewrite imap_app, filter_app. apply Forall2_app; [done|]. simpl.
  rewrite filter_cons. unfold compose. simpl. case_decide.
  - destruct Hp as (f & -> & Hf). constructor; [simpl; rewrite <-Hf; f_equal; lia|constructor].
  - subst gs. constructor.
Qed.

Lemma scopeTurn_dec scope after final mr mb s s' :
  scopeTurn scope after final mr mb s = Continue s' → (length (ssRest s') < length (ssRest s))%nat.
Proof.
  unfold scopeTurn. cbv zeta. do 7 (case_decide; [discriminate|]).
  case_decide; [case_match; [|discriminate]|]; intros [= <-]; simpl; rewrite length_drop; lia.
Qed.

Section scope.
Context (data : bytes) (scope : string) (after final mr mb : Z).
Abbreviation turnOf := (scopeTurn scope after final mr mb).

Record scopeAt (w : list bytes) (s : scopeState) : Prop := {
  sa_data : data = encodeLog w ++ ssRest s;
  sa_ok : Forall okPayload w;
  sa_next : ssNext s = zlen w;
  sa_off : ssOffset s = zlen (encodeLog w);
  sa_out : scopeDecoded scope after (drop (Z.to_nat after) w) (ssOut s);
  sa_range : after ≤ zlen w ≤ Z.max after final;
}.

Lemma scopeTurn_cases w s :
  zlen data < 2 ^ 63 → 0 ≤ after → scopeAt w s →
  match turnOf s with
  | Continue s' => ∃ p, scopeAt (w ++ [p]) s'
  | Return (Ok x) => x = (ssOut s, ssNext s, ssOffset s)
      ∧ (final ≤ zlen w ∨ 0 < mr ≤ zlen w - after ∨ 0 < mb ∧ ssOut s ≠ [])
  | Return (Err _) => True
  end.
Proof.
  intros Hz Ha [Ed Hok Hs Ho Hout Hr]. unfold scopeTurn. cbv zeta.
  case_decide as H1; [split; [done|]; rewrite Hs in H1; tauto|].
  case_decide as H2; [split; [done|]; tauto|].
  case_decide as H3; [done|]. case_decide as H4; [done|]. case_decide as H5; [done|]. case_decide as H6; [done|].
  case_decide as H7; [done|].
  destruct (record_read (ssRest s) ltac:(lia) ltac:(lia)) as (Er & Hp & Hseq & Hl).
  set (n := rd32 (ssRest s) 0) in *. set (p := slice (ssRest s) 12 (4 + n)) in *.
  assert (zlen w < 2 ^ 64 - 1) as Hw by (rewrite Ed in Hz; by apply log_count in Hz).
  assert (rd64 (ssRest s) 4 = zlen w + 1) as Es. { rewrite u64_id in H4 by lia. lia. }
  assert (data = encodeLog (w ++ [p]) ++ drop (Z.to_nat (4 + n)) (ssRest s)) as Ed'.
  { rewrite Ed, encodeLog_app, <-app_assoc. f_equal. cbn [encodeFrom]. rewrite app_nil_r, <-Es. exact Er. }
  assert (Forall okPayload (w ++ [p])) as Hok' by (apply Forall_app; auto).
  assert (zlen (encodeLog (w ++ [p])) = zlen (encodeLog w) + (4 + n)) as Hzl.
  { rewrite encodeLog_app, length_app. cbn [encodeFrom]. rewrite app_nil_r. pose proof (zlen_encodeRecord (zlen w + 1) p). lia. }
  assert (zlen (w ++ [p]) = zlen w + 1) as Hl1 by (rewrite length_app; simpl; lia).
  assert (zlen (drop (Z.to_nat after) w) = zlen w - after) as Hld by (rewrite length_drop; lia).
  assert (slice (ssRest s) 14 (14 + rd16 (ssRest s) 12) = slice p 2 (2 + rd16 p 0)) as Esc.
  { assert (rd16 p 0 = rd16 (ssRest s) 12) as ->; [unfold rd16, p; rewrite slice_slice by lia; done|].
    unfold p. pose proof (be_dec_range (slice (ssRest s) 12 (12 + 2))). fold (rd16 (ssRest s) 12) in *.
    rewrite slice_slice by lia. f_equal; lia. }
  rewrite Esc. fold (payloadScope p). rewrite Es.
  case_decide as H8; [destruct (decodeSessionFragment (zlen w + 1) p) as [fr|e] eqn:Edec; [|done]|];
    exists p; (split; cbn [ssRest ssNext ssOffset ssOut]; [done|done|lia|lia| |lia]); rewrite drop_app_le by lia.
  - apply scopeDecoded_snoc; [done|]. rewrite decide_True by done. exists fr. split; [done|]. rewrite <-Edec. f_equal. lia.
  - rewrite <-(app_nil_r (ssOut s)). apply scopeDecoded_snoc; [done|]. by rewrite decide_False.
Qed.

(** The page is the scope's fragments among the records after the number. *)
Lemma scopeRecords_sound w0 offset out next noff :
  zlen data < 2 ^ 63 → 0 ≤ after → zlen w0 = after → zlen (encodeLog w0) = offset →
  encodeLog w0 `prefix_of` data → Forall okPayload w0 →
  scopeRecords data scope after final offset mr mb = Ok (out, next, noff) →
  ∃ w s, scopeAt w s ∧ (out, next, noff) = (ssOut s, ssNext s, ssOffset s)
    ∧ (final ≤ zlen w ∨ 0 < mr ≤ zlen w - after ∨ 0 < mb ∧ out ≠ []).
Proof.
  intros Hz Ha Hw0 Hoff [rest Ed] Hok0. unfold scopeRecords.
  apply (run_ind _ _ _ (scopeTurn_dec _ _ _ _ _) (λ s, ∃ w, scopeAt w s)
    (λ x, x = Ok (out, next, noff) → ∃ w s, scopeAt w s ∧ (out, next, noff) = (ssOut s, ssNext s, ssOffset s)
    ∧ (final ≤ zlen w ∨ 0 < mr ≤ zlen w - after ∨ 0 < mb ∧ out ≠ []))).
  - intros s s' [w Hw] E. pose proof (scopeTurn_cases w s Hz Ha Hw) as H. rewrite E in H. destruct H as [p Hp]. eauto.
  - intros s x [w Hw] E ->. pose proof (scopeTurn_cases w s Hz Ha Hw) as H. rewrite E in H.
    destruct H as [[= -> -> ->] He]. eauto 10.
  - exists w0. rewrite Ed, drop_app_length' by lia. split; simpl; [done|done|done|done| |lia].
    unfold scopeDecoded. rewrite drop_ge by lia. constructor.
Qed.
End scope.
