(* ===== verification/Stream.v ===== *)
(** * The stream to a follower ([internal/peer/stream.go])

    An owner sends its batches to a follower over a few long-lived connections. A batch is
    one frame ([encodeBatchFrame]); the follower waits for a frame and takes the complete
    frames that have arrived with it ([DecodeBatchFrames]), stores them with one sync and
    answers each with a byte ([handlePeerStream] of internal/server). The owner pipelines:
    [submit] registers the sender and writes its frame under the write gate, [readAcks]
    gives each answer to the oldest sender that waits ([rawStream]).

    The theorems: however the bytes arrive, the follower decodes the frames that were sent,
    in order, never waits for more than the first one and keeps to its limits; and
    in every interleaving of senders, answers, timeouts, cancellations and torn writes, a
    sender is told that its batch was stored only if the follower stored that very batch. *)

From S2P Require Import Prelude Ltx Cell Frames.

(** ** Frames of batches *)

Record BatchFrame := MkBatchFrame {
  bfScope : Scope;
  bfEpoch : Z;
  bfSegments : list bytes;
}.

Inductive streamError : Set :=
| EStreamEnd
| EBatchSize (n : Z)
| EScopeLength (n : Z)
| EEmptyBatch
| EMalformedFrames
| EBatchScope (e : scopeError).

Definition encodeBatchFrame (scope : Scope) (epoch : Z) (segments : list bytes) : bytes :=
  let scopeText := bs (scopeString scope) in
  let segmentsData := EncodeFrames segments in
  let total := 2 + zlen scopeText + 8 + zlen segmentsData in
  be_enc 4 total ++ be_enc 2 (zlen scopeText) ++ scopeText ++ be_enc 8 epoch ++ segmentsData.

(** A [bufio.Reader]: what it has buffered, and what the connection will deliver, read
    by read. *)
Record reader := MkReader {
  rdBuf : bytes;
  rdComing : list bytes;
}.

Definition streamOf (r : reader) : bytes := rdBuf r ++ concat (rdComing r).

(** Reads from the connection until [n] bytes are buffered or nothing comes any more. *)
Fixpoint fill (n : Z) (buf : bytes) (coming : list bytes) : reader :=
  if decide (n ≤ zlen buf) then MkReader buf coming
  else match coming with
       | [] => MkReader buf []
       | c :: coming => fill n (buf ++ c) coming
       end.

(** [io.ReadFull] *)
Definition readFull (n : Z) (r : reader) : option (bytes * reader) :=
  let r := fill n (rdBuf r) (rdComing r) in
  if decide (zlen (rdBuf r) < n) then None
  else Some (take (Z.to_nat n) (rdBuf r), MkReader (drop (Z.to_nat n) (rdBuf r)) (rdComing r)).

Definition maxBatchFrame : Z := 64 * 2 ^ 20.

Definition DecodeBatchFrame (r : reader) : result streamError (string * Z * list bytes * reader) :=
  match readFull 4 r with
  | None => Err EStreamEnd
  | Some (size, r) =>
      let n := rd32 size 0 in
      if decide (n < 10 ∨ maxBatchFrame < n) then Err (EBatchSize n) else
      match readFull n r with
      | None => Err EStreamEnd
      | Some (payload, r) =>
          let scopeLen := rd16 payload 0 in
          if decide (zlen payload < scopeLen + 10) then Err (EScopeLength scopeLen) else
          let scopeText := String.string_of_list_byte (slice payload 2 (2 + scopeLen)) in
          let epoch := rd64 payload (2 + scopeLen) in
          let rest := drop (Z.to_nat (2 + scopeLen + 8)) payload in
          let segments := DecodeFrames rest in
          if decide (segments = []) then Err EEmptyBatch else
          if decide (zlen (EncodeFrames segments) ≠ zlen rest) then Err EMalformedFrames else
          Ok (scopeText, epoch, segments, r)
      end
  end.

(** The closure [decode] of [DecodeBatchFrames]. *)
Definition decodeOne (r : reader) : result streamError (BatchFrame * reader) :=
  '(scopeText, epoch, segments, r) ←ᵣ DecodeBatchFrame r;
  scope ←ᵣ rmap_err EBatchScope (ParseScope scopeText);
  Ok (MkBatchFrame scope epoch segments, r).

(** The frames that are already buffered; [fuel] is how many more may be taken. *)
Fixpoint drainFrames (fuel : nat) (maxBytes groupBytes : Z) (frames : list BatchFrame) (r : reader) :
    result streamError (list BatchFrame * reader) :=
  match fuel with
  | O => Ok (frames, r)
  | S fuel =>
      if decide (zlen (rdBuf r) < 4) then Ok (frames, r) else
      let n := rd32 (rdBuf r) 0 in
      if decide (n < 10 ∨ maxBatchFrame < n) then Err (EBatchSize n) else
      let frameBytes := 4 + n in
      if decide (zlen (rdBuf r) < frameBytes ∨ 0 < maxBytes ∧ maxBytes < groupBytes + frameBytes) then Ok (frames, r) else
      '(frame, r) ←ᵣ decodeOne r;
      drainFrames fuel maxBytes (groupBytes + frameBytes) (frames ++ [frame]) r
  end.

Definition DecodeBatchFrames (maxFrames maxBytes : Z) (r : reader) : result streamError (list BatchFrame * reader) :=
  let maxFrames := if decide (maxFrames ≤ 0) then 1 else maxFrames in
  let r := fill 4 (rdBuf r) (rdComing r) in
  if decide (zlen (rdBuf r) < 4) then Err EStreamEnd else
  let firstBytes := 4 + rd32 (rdBuf r) 0 in
  '(first, r) ←ᵣ decodeOne r;
  drainFrames (Z.to_nat (maxFrames - 1)) maxBytes firstBytes [first] r.

(** ** What is sent is decoded *)

Definition encodeFrame (f : BatchFrame) : bytes := encodeBatchFrame (bfScope f) (bfEpoch f) (bfSegments f).

(** A batch that its frame can hold. *)
Record okFrame (f : BatchFrame) : Prop := {
  ok_scope : Validate (bfScope f) = Ok tt;
  ok_fits : fits (scopeString (bfScope f)) (bfEpoch f) (bfSegments f);
  ok_size : zlen (encodeFrame f) ≤ 4 + maxBatchFrame;
}.

Definition frameTotal (f : BatchFrame) : Z := zlen (encodeFrame f) - 4.

Lemma encodeFrame_payload f :
  encodeFrame f = be_enc 4 (frameTotal f) ++ encodeSessionFragment (scopeString (bfScope f)) (bfEpoch f) (bfSegments f).
Proof.
  unfold frameTotal, encodeFrame, encodeBatchFrame, encodeSessionFragment. cbv zeta. f_equal. f_equal. len.
Qed.

Lemma frameTotal_bounds f : okFrame f → 10 ≤ frameTotal f ≤ maxBatchFrame.
Proof.
  intros [_ _ Hs]. unfold frameTotal. split; [|lia]. unfold encodeFrame, encodeBatchFrame. cbv zeta. len.
Qed.

Lemma fill_stream n buf coming : streamOf (fill n buf coming) = buf ++ concat coming.
Proof.
  revert buf. induction coming as [|c coming IH]; intros buf; simpl; case_decide; try done. rewrite IH. by rewrite <-app_assoc.
Qed.

Lemma fill_enough n buf coming : n ≤ zlen (buf ++ concat coming) → n ≤ zlen (rdBuf (fill n buf coming)).
Proof.
  revert buf. induction coming as [|c coming IH]; intros buf Hn; simpl in *; case_decide; simpl; try done.
  - by rewrite app_nil_r in Hn.
  - apply IH. by rewrite <-app_assoc.
Qed.

Lemma fill_buffered n r : n ≤ zlen (rdBuf r) → fill n (rdBuf r) (rdComing r) = r.
Proof. intros Hn. destruct r as [buf [|c coming]]; simpl in *; by rewrite decide_True. Qed.

(** [readFull] takes the first bytes of the stream, when they come. *)
Lemma readFull_app n r a rest :
  streamOf r = a ++ rest → zlen a = n →
  ∃ r', readFull n r = Some (a, r') ∧ streamOf r' = rest ∧ (n ≤ zlen (rdBuf r) → rdComing r' = rdComing r).
Proof.
  intros Hs Ha. unfold readFull. pose proof (fill_stream n (rdBuf r) (rdComing r)) as Hf.
  pose proof (fill_enough n (rdBuf r) (rdComing r)) as He. fold (streamOf r) in Hf, He. rewrite Hs in Hf, He.
  assert (n ≤ zlen (rdBuf (fill n (rdBuf r) (rdComing r)))) as Hle by (apply He; rewrite length_app; lia).
  assert (n ≤ zlen (rdBuf r) → rdComing (fill n (rdBuf r) (rdComing r)) = rdComing r) as Hc by (intros Hb; by rewrite fill_buffered).
  destruct (fill n (rdBuf r) (rdComing r)) as [buf coming] eqn:E. cbn [rdBuf rdComing] in *. rewrite decide_False by lia.
  unfold streamOf in Hf. cbn [rdBuf rdComing] in Hf. exists (MkReader (drop (Z.to_nat n) buf) coming).
  split; [|split; [|done]].
  - do 2 f_equal. apply (f_equal (take (Z.to_nat n))) in Hf. rewrite take_app_le in Hf by lia. rewrite Hf.
    apply take_app_length'. lia.
  - unfold streamOf. cbn [rdBuf rdComing]. apply (f_equal (drop (Z.to_nat n))) in Hf. rewrite drop_app_le in Hf by lia. rewrite Hf.
    apply drop_app_length'. lia.
Qed.

Lemma readFull_short n r : zlen (streamOf r) < n → readFull n r = None.
Proof.
  intros Hn. unfold readFull. pose proof (fill_stream n (rdBuf r) (rdComing r)) as Hf. fold (streamOf r) in Hf.
  rewrite decide_True; [done|]. rewrite <-Hf in Hn. unfold streamOf in Hn. rewrite length_app in Hn. lia.
Qed.

(** A whole frame at the front is decoded; nothing is read for it when it is buffered. *)
Lemma decodeOne_encode f r rest :
  okFrame f → streamOf r = encodeFrame f ++ rest →
  ∃ r', decodeOne r = Ok (f, r') ∧ streamOf r' = rest ∧ (zlen (encodeFrame f) ≤ zlen (rdBuf r) → rdComing r' = rdComing r).
Proof.
  intros Hf Hs. pose proof (frameTotal_bounds f Hf) as Ht. destruct Hf as [Hv Hfit _]. rewrite encodeFrame_payload in Hs.
  set (payload := encodeSessionFragment (scopeString (bfScope f)) (bfEpoch f) (bfSegments f)) in *.
  assert (zlen payload = frameTotal f) as Hp.
  { pose proof (f_equal length (encodeFrame_payload f)) as E. fold payload in E. rewrite length_app, length_be_enc in E.
    unfold frameTotal in *. lia. }
  rewrite <-app_assoc in Hs. destruct (readFull_app 4 r _ _ Hs (f_equal Z.of_nat (length_be_enc 4 _))) as (r1 & E1 & Hs1 & Hc1).
  destruct (readFull_app (frameTotal f) r1 payload rest Hs1 Hp) as (r2 & E2 & Hs2 & Hc2).
  exists r2. split; [|split; [done|]].
  - unfold decodeOne, DecodeBatchFrame. rewrite E1. cbv zeta.
    assert (rd32 (be_enc 4 (frameTotal f)) 0 = frameTotal f) as ->.
    { rewrite <-(app_nil_r (be_enc 4 _)). apply rd32_enc. unfold maxBatchFrame in Ht. lia. }
    rewrite decide_False by lia. rewrite E2. pose proof (decodeSessionFragment_encode 0 _ _ _ Hfit) as Hd. fold payload in Hd.
    unfold decodeSessionFragment in Hd. cbv zeta in Hd. rewrite decide_False in Hd by lia.
    case_decide as Hl; [done|]. replace (2 + rd16 payload 0 + 8) with (rd16 payload 0 + 10) by lia. case_decide as He; [done|].
    rewrite decide_False by tauto. rewrite decide_False by tauto. injection Hd as -> -> ->.
    simpl. rewrite ParseScope_valid by done. simpl. by destruct f.
  - intros Hb. rewrite encodeFrame_payload, length_app, length_be_enc in Hb. fold payload in Hb.
    rewrite Hc2, Hc1; [done|lia|]. unfold readFull in E1. rewrite fill_buffered in E1 by lia. case_decide; [done|].
    injection E1 as _ <-. cbn [rdBuf]. rewrite length_drop. lia.
Qed.

(** The bytes of frames that were sent one after the other. *)
Definition wire (fs : list BatchFrame) : bytes := concat (encodeFrame <$> fs).

Lemma wire_cons f fs : wire (f :: fs) = encodeFrame f ++ wire fs.
Proof. done. Qed.

Lemma wire_app fs fs' : wire (fs ++ fs') = wire fs ++ wire fs'.
Proof. unfold wire. by rewrite fmap_app, concat_app. Qed.

(** The header of a frame that has begun to arrive. *)
Lemma header_total f buf more :
  okFrame f → buf `prefix_of` encodeFrame f ++ more → 4 ≤ zlen buf → rd32 buf 0 = frameTotal f.
Proof.
  intros Hf [rest Hb] H4. pose proof (frameTotal_bounds f Hf) as Ht. unfold maxBatchFrame in Ht.
  rewrite encodeFrame_payload in Hb. transitivity (rd32 (buf ++ rest) 0).
  - unfold rd32. by rewrite slice_app_take by lia.
  - rewrite <-Hb, <-app_assoc. apply rd32_enc. lia.
Qed.

(** Frames that have arrived completely are at the front of the stream. *)
Lemma prefix_frame f data more :
  data `prefix_of` encodeFrame f ++ more → zlen (encodeFrame f) ≤ zlen data →
  ∃ rest, data = encodeFrame f ++ rest ∧ rest `prefix_of` more.
Proof.
  intros Hp Hl. destruct (prefix_weak_total (encodeFrame f) data (encodeFrame f ++ more)) as [[rest ->]|[rest E]].
  - by apply prefix_app_r.
  - done.
  - exists rest. split; [done|]. by apply prefix_app_inv in Hp.
  - assert (rest = []) as ->.
    { apply nil_length_inv. apply (f_equal length) in E. rewrite length_app in E. lia. }
    rewrite app_nil_r in E. exists []. rewrite app_nil_r. split; [done|apply prefix_nil].
Qed.

Lemma drainFrames_spec fuel mb group frames r fs :
  Forall okFrame fs → streamOf r `prefix_of` wire fs →
  ∃ k r', drainFrames fuel mb group frames r = Ok (frames ++ take k fs, r') ∧ (k ≤ fuel)%nat
    ∧ streamOf r = wire (take k fs) ++ streamOf r' ∧ rdComing r' = rdComing r
    ∧ (0 < mb → k = 0%nat ∨ group + zlen (wire (take k fs)) ≤ mb).
Proof.
  revert group frames r fs. induction fuel as [|fuel IH]; intros group frames r fs Hok Hp.
  { exists 0%nat, r. rewrite take_0, app_nil_r. split_and!; [done|done|done|done|by left]. }
  assert (∃ k r', Ok (frames, r) = Ok (E := streamError) (frames ++ take k fs, r') ∧ (k ≤ S fuel)%nat
    ∧ streamOf r = wire (take k fs) ++ streamOf r' ∧ rdComing r' = rdComing r
    ∧ (0 < mb → k = 0%nat ∨ group + zlen (wire (take k fs)) ≤ mb)) as Hstop.
  { exists 0%nat, r. rewrite take_0, app_nil_r. split_and!; [done|lia|done|done|by left]. }
  cbn [drainFrames]. case_decide as H4; [done|]. cbv zeta. destruct Hok as [|f fs Hf Hok].
  { apply prefix_nil_inv in Hp. unfold streamOf in Hp. apply app_eq_nil in Hp as [Hb _]. by rewrite Hb in H4. }
  rewrite wire_cons in Hp. assert (rdBuf r `prefix_of` encodeFrame f ++ wire fs) as Hb by (etrans; [by eexists|exact Hp]).
  rewrite (header_total f (rdBuf r) (wire fs)) by (done || lia). pose proof (frameTotal_bounds f Hf) as Ht.
  rewrite decide_False by lia. case_decide as Hl; [done|]. assert (4 + frameTotal f = zlen (encodeFrame f)) as El by (unfold frameTotal; lia).
  destruct (prefix_frame f (streamOf r) (wire fs) Hp) as (rest & Hs & Hrest).
  { unfold streamOf. rewrite length_app. lia. }
  destruct (decodeOne_encode f r rest Hf Hs) as (r1 & E1 & Hs1 & Hc1). rewrite E1. cbn [rbind].
  destruct (IH (group + (4 + frameTotal f)) (frames ++ [f]) r1 fs Hok) as (k & r' & E & Hk & Hst & Hc & Hm); [by rewrite Hs1|].
  exists (S k), r'. rewrite E. cbn [take]. rewrite <-app_assoc, wire_cons. split_and!; [done|lia| | |].
  - by rewrite Hs, <-Hs1, Hst, app_assoc.
  - rewrite Hc. apply Hc1. lia.
  - intros Hmb. right. rewrite length_app. destruct (Hm Hmb) as [-> | ?]; [|lia]. rewrite take_0.
    change (length (wire [])) with 0%nat. lia.
Qed.

(** A stream of frames, as far as it has been sent: the first frame, when it is complete, and
    frames that came with it; nothing more is read for them. *)
Lemma DecodeBatchFrames_spec mf mb r fs :
  Forall okFrame fs → streamOf r `prefix_of` wire fs →
  match fs with
  | f :: _ =>
      if decide (zlen (encodeFrame f) ≤ zlen (streamOf r)) then
        ∃ k r1 r', DecodeBatchFrames mf mb r = Ok (take k fs, r') ∧ (0 < k)%nat ∧ Z.of_nat k ≤ Z.max 1 mf
          ∧ streamOf r = wire (take k fs) ++ streamOf r'
          ∧ (0 < mb → k = 1%nat ∨ zlen (wire (take k fs)) ≤ mb)
          ∧ decodeOne (fill 4 (rdBuf r) (rdComing r)) = Ok (f, r1) ∧ rdComing r' = rdComing r1
      else DecodeBatchFrames mf mb r = Err EStreamEnd
  | [] => DecodeBatchFrames mf mb r = Err EStreamEnd
  end.
Proof.
  intros Hok Hp. unfold DecodeBatchFrames. set (maxFrames := if decide (mf ≤ 0) then 1 else mf).
  pose proof (fill_stream 4 (rdBuf r) (rdComing r)) as Hs4. pose proof (fill_enough 4 (rdBuf r) (rdComing r)) as He4.
  fold (streamOf r) in Hs4, He4. set (r4 := fill 4 (rdBuf r) (rdComing r)) in *. cbv zeta.
  assert (zlen (rdBuf r4) ≤ zlen (streamOf r)) as Hle by (rewrite <-Hs4; unfold streamOf; rewrite length_app; lia).
  destruct Hok as [|f fs Hf Hok].
  { apply prefix_nil_inv in Hp. rewrite Hp in Hle. rewrite decide_True; [done|simpl in Hle; lia]. }
  rewrite wire_cons in Hp. pose proof (frameTotal_bounds f Hf) as Ht. unfold frameTotal in Ht.
  destruct (decide (zlen (encodeFrame f) ≤ zlen (streamOf r))) as [Hfull|Hshort].
  - destruct (prefix_frame f (streamOf r) (wire fs) Hp Hfull) as (rest & Hs & Hrest). rewrite Hs in Hs4.
    destruct (decodeOne_encode f r4 rest Hf Hs4) as (r1 & E1 & Hs1 & _). rewrite decide_False by lia. rewrite E1. cbn [rbind].
    rewrite (header_total f (rdBuf r4) rest); [|done| |lia].
    2:{ rewrite <-Hs4. by eexists. }
    destruct (drainFrames_spec (Z.to_nat (maxFrames - 1)) mb (4 + frameTotal f) [f] r1 fs Hok) as (k & r' & E & Hk & Hst & Hc & Hm).
    { by rewrite Hs1. }
    exists (S k), r1, r'. rewrite E. split_and!; [done|lia| | | |done|done].
    + unfold maxFrames in Hk. case_decide; lia.
    + cbn [take]. by rewrite wire_cons, <-app_assoc, <-Hst, Hs1.
    + intros Hmb. cbn [take]. rewrite wire_cons, length_app. unfold frameTotal in Hm. destruct (Hm Hmb) as [-> | ?]; [by left|right; lia].
  - case_decide as H4; [done|]. unfold decodeOne, DecodeBatchFrame, readFull. fold r4. rewrite fill_buffered by lia.
    rewrite decide_False by lia. cbv zeta.
    assert (rd32 (take (Z.to_nat 4) (rdBuf r4)) 0 = frameTotal f) as ->.
    { rewrite <-(header_total f (rdBuf r4) (wire fs)); [|done| |lia].
      - unfold rd32, slice. change (Z.to_nat 0) with 0%nat. by rewrite !drop_0, take_take.
      - etrans; [|exact Hp]. rewrite <-Hs4. by eexists. }
    unfold frameTotal. rewrite decide_False by lia.
    pose proof (fill_stream (zlen (encodeFrame f) - 4) (drop (Z.to_nat 4) (rdBuf r4)) (rdComing r4)) as Hs5.
    cbn [rdBuf rdComing]. rewrite decide_True; [done|].
    apply (f_equal length) in Hs5. apply (f_equal length) in Hs4. unfold streamOf in Hs5, Hs4 at 1.
    rewrite !length_app, ?length_drop in *. lia.
Qed.

Lemma DecodeBatchFrames_sound mf mb r fs out r' :
  Forall okFrame fs → streamOf r `prefix_of` wire fs → DecodeBatchFrames mf mb r = Ok (out, r') →
  out `prefix_of` fs ∧ streamOf r = wire out ++ streamOf r'.
Proof.
  intros Hok Hp E. pose proof (DecodeBatchFrames_spec mf mb r fs Hok Hp) as Hs. rewrite E in Hs.
  destruct fs as [|f fs]; [done|]. case_decide; [|done]. destruct Hs as (k & r1 & r2 & [= -> ->] & _ & _ & Hst & _).
  split; [|done]. exists (drop k (f :: fs)). by rewrite take_drop.
Qed.

(** ** The owner's end ([rawStream]) *)

(** The senders are numbered. [rsDone] holds what was sent on a sender's channel [done]: nil or
    an error. *)
Record rawStream := MkStream {
  rsPending : list nat;
  rsSlots : nat;
  rsGate : option nat;
  rsFailed : bool;
  rsDone : gmap nat bool;
}.

Definition newStream : rawStream := MkStream [] 0 None false ∅.

(** Completion and release of the slot, once. *)
Definition finishLocked (c : nat) (ok : bool) (s : rawStream) : rawStream :=
  if decide (is_Some (rsDone s !! c)) then s
  else MkStream (rsPending s) (rsSlots s - 1) (rsGate s) (rsFailed s) (<[c := ok]> (rsDone s)).

Definition failLocked (s : rawStream) : rawStream :=
  if rsFailed s then s
  else
    let s := MkStream (rsPending s) (rsSlots s) (rsGate s) true (rsDone s) in
    let s := foldl (λ s c, finishLocked c false s) s (rsPending s) in
    MkStream [] (rsSlots s) (rsGate s) (rsFailed s) (rsDone s).

(** [readAcks] after it has read a byte. *)
Definition onAck (ack : byte) (s : rawStream) : rawStream :=
  if rsFailed s then s
  else match rsPending s with
       | [] => failLocked s
       | p :: pending =>
           finishLocked p (bool_decide (ack = x01)) (MkStream pending (rsSlots s) (rsGate s) (rsFailed s) (rsDone s))
       end.

(** The steps of [submit]: the slot, the gate, the registration, and the release of the gate. *)
Definition takeSlot (pipeline : nat) (s : rawStream) : option rawStream :=
  if decide (rsSlots s < pipeline)%nat
  then Some (MkStream (rsPending s) (S (rsSlots s)) (rsGate s) (rsFailed s) (rsDone s)) else None.

Definition releaseSlot (s : rawStream) : rawStream :=
  MkStream (rsPending s) (rsSlots s - 1) (rsGate s) (rsFailed s) (rsDone s).

Definition takeGate (c : nat) (s : rawStream) : option rawStream :=
  if decide (rsGate s = None) then Some (MkStream (rsPending s) (rsSlots s) (Some c) (rsFailed s) (rsDone s)) else None.

Definition releaseGate (s : rawStream) : rawStream :=
  MkStream (rsPending s) (rsSlots s) None (rsFailed s) (rsDone s).

Definition register (c : nat) (s : rawStream) : option rawStream :=
  if rsFailed s then None
  else Some (MkStream (rsPending s ++ [c]) (rsSlots s) (rsGate s) (rsFailed s) (rsDone s)).

(** ** A lane: senders, the stream, the connection and the follower *)

(** Where a call of [send] is: it holds a slot; it is inside the gate; it is registered and
    writes; it has written and waits; it has returned. *)
Inductive phase : Set := PSlot | PGate | PWrite | PWait | PEnd (ok : bool).

#[global] Instance phase_eq_dec : EqDecision phase.
Proof. solve_decision. Defined.

(** [lnWire] is what the follower has not read, [lnAcks] what the owner has not read. The rest
    is remembered for the theorems: the senders in the order of registration, the groups the
    follower handled, with its answer, and how many answers were read. *)
Record lane := MkLane {
  lnStream : rawStream;
  lnCalls : gmap nat (BatchFrame * phase);
  lnWire : bytes;
  lnAcks : list byte;
  lnSent : list (nat * BatchFrame);
  lnStored : list (list BatchFrame * bool);
  lnRead : nat;
}.

Definition newLane : lane := MkLane newStream ∅ [] [] [] [] 0.

Definition ackByte (ok : bool) : byte := if ok then x01 else x00.

Section lane.
Context (pipeline : nat) (maxFrames maxBytes : Z).

Definition onCall (c : nat) (f : BatchFrame) (ph : phase) (s : rawStream) (l : lane) : lane :=
  MkLane s (<[c := (f, ph)]> (lnCalls l)) (lnWire l) (lnAcks l) (lnSent l) (lnStored l) (lnRead l).

Inductive laneStep (l : lane) : lane → Prop :=
(** a call starts: it gets a slot, or gives up *)
| step_slot c f s :
    lnCalls l !! c = None → okFrame f → takeSlot pipeline (lnStream l) = Some s → laneStep l (onCall c f PSlot s l)
| step_refused c f :
    lnCalls l !! c = None → okFrame f → laneStep l (onCall c f (PEnd false) (lnStream l) l)
(** it enters the gate, or gives up *)
| step_gate c f s :
    lnCalls l !! c = Some (f, PSlot) → takeGate c (lnStream l) = Some s → laneStep l (onCall c f PGate s l)
| step_left c f :
    lnCalls l !! c = Some (f, PSlot) → laneStep l (onCall c f (PEnd false) (releaseSlot (lnStream l)) l)
(** it is registered, or the stream has failed or its context ended *)
| step_register c f s :
    lnCalls l !! c = Some (f, PGate) → register c (lnStream l) = Some s →
    laneStep l (MkLane s (<[c := (f, PWrite)]> (lnCalls l)) (lnWire l) (lnAcks l) (lnSent l ++ [(c, f)]) (lnStored l) (lnRead l))
| step_turned c f :
    lnCalls l !! c = Some (f, PGate) →
    laneStep l (onCall c f (PEnd false) (releaseGate (releaseSlot (lnStream l))) l)
(** its frame is written, or a part of it with an error that fails the stream *)
| step_write c f :
    lnCalls l !! c = Some (f, PWrite) →
    laneStep l (MkLane (releaseGate (lnStream l)) (<[c := (f, PWait)]> (lnCalls l)) (lnWire l ++ encodeFrame f)
                  (lnAcks l) (lnSent l) (lnStored l) (lnRead l))
| step_torn c f k :
    lnCalls l !! c = Some (f, PWrite) →
    laneStep l (MkLane (releaseGate (failLocked (lnStream l))) (<[c := (f, PEnd false)]> (lnCalls l))
                  (lnWire l ++ take k (encodeFrame f)) (lnAcks l) (lnSent l) (lnStored l) (lnRead l))
(** an answer is read; the stream fails: a read or a timer failed, or it was closed *)
| step_ack b acks :
    lnAcks l = b :: acks →
    laneStep l (MkLane (onAck b (lnStream l)) (lnCalls l) (lnWire l) acks (lnSent l) (lnStored l) (S (lnRead l)))
| step_fail :
    laneStep l (MkLane (failLocked (lnStream l)) (lnCalls l) (lnWire l) (lnAcks l) (lnSent l) (lnStored l) (lnRead l))
(** a sender gets its result, or stops waiting *)
| step_return c f ok :
    lnCalls l !! c = Some (f, PWait) → rsDone (lnStream l) !! c = Some ok → laneStep l (onCall c f (PEnd ok) (lnStream l) l)
| step_cancel c f :
    lnCalls l !! c = Some (f, PWait) → laneStep l (onCall c f (PEnd false) (lnStream l) l)
(** the follower handles a group of what has arrived *)
| step_follow r later out r' ok :
    lnWire l = streamOf r ++ later → DecodeBatchFrames maxFrames maxBytes r = Ok (out, r') →
    laneStep l (MkLane (lnStream l) (lnCalls l) (streamOf r' ++ later) (lnAcks l ++ replicate (length out) (ackByte ok))
                  (lnSent l) (lnStored l ++ [(out, ok)]) (lnRead l)).

Definition laneReach : lane → Prop := rtc laneStep newLane.

(** A call keeps its frame, and its result once it has one. *)
Lemma laneStep_calls l l' c f ph :
  laneStep l l' → lnCalls l !! c = Some (f, ph) →
  ∃ ph', lnCalls l' !! c = Some (f, ph') ∧ ∀ ok, ph = PEnd ok → ph' = PEnd ok.
Proof.
  intros Hs Hc.
  assert (∀ c' f' ph', (c = c' → f' = f ∧ ∀ ok, ph ≠ PEnd ok) →
    ∃ ph0, <[c' := (f', ph')]> (lnCalls l) !! c = Some (f, ph0) ∧ ∀ ok, ph = PEnd ok → ph0 = PEnd ok) as Hset.
  { intros c' f' ph' Heq. destruct (decide (c = c')) as [<-|Hne]; [|exists ph; by rewrite lookup_insert_ne].
    destruct (Heq eq_refl) as [-> Hn]. exists ph'. rewrite lookup_insert_eq. split; [done|]. intros ok ->. by destruct (Hn ok). }
  destruct Hs; cbn [onCall lnCalls]; try (apply Hset; intros ->; by simplify_eq); by exists ph.
Qed.
End lane.

(** ** Every answer goes to its sender *)

(** The answers to the frames, in order. *)
Definition flags (stored : list (list BatchFrame * bool)) : list bool :=
  concat ((λ g, replicate (length g.1) g.2) <$> stored).

Definition handled (stored : list (list BatchFrame * bool)) : list BatchFrame := concat stored.*1.

Lemma flags_app stored g ok : flags (stored ++ [(g, ok)]) = flags stored ++ replicate (length g) ok.
Proof. unfold flags. rewrite fmap_app, concat_app. simpl. by rewrite app_nil_r. Qed.

Lemma handled_app stored g ok : handled (stored ++ [(g, ok)]) = handled stored ++ g.
Proof. unfold handled. rewrite fmap_app, concat_app. simpl. by rewrite app_nil_r. Qed.

Lemma flags_length stored : length (flags stored) = length (handled stored).
Proof.
  induction stored as [|[g ok] stored IH]; [done|]. unfold flags, handled in *. simpl. rewrite !length_app, length_replicate. f_equal. exact IH.
Qed.

Lemma flags_lookup stored k ok :
  flags stored !! k = Some ok → ∃ g f, (g, ok) ∈ stored ∧ f ∈ g ∧ handled stored !! k = Some f.
Proof.
  revert k. induction stored as [|[g b] stored IH]; intros k; [done|]. unfold flags, handled in *. simpl.
  rewrite !lookup_app. destruct (replicate (length g) b !! k) as [b'|] eqn:E.
  - intros [= ->]. apply lookup_replicate in E as [-> Hk]. destruct (lookup_lt_is_Some_2 g k Hk) as [f Hf].
    rewrite Hf. exists g, f. split; [apply list_elem_of_here|]. split; [by eapply list_elem_of_lookup_2|done].
  - apply lookup_ge_None in E. rewrite length_replicate in *. rewrite (lookup_ge_None_2 g k) by done. intros Hk.
    destruct (IH _ Hk) as (g' & f & Hin & Hf & Hl). exists g', f. split; [by apply list_elem_of_further|done].
Qed.

(** Calls that hold a slot without being registered. *)
Definition slotHeld (ph : phase) : Prop := ph = PSlot ∨ ph = PGate.
#[global] Instance slotHeld_dec ph : Decision (slotHeld ph).
Proof. unfold slotHeld. apply _. Defined.

Definition holders (calls : gmap nat (BatchFrame * phase)) : nat := size (filter (λ x, slotHeld x.2.2) calls).

Record laneOk (l : lane) : Prop := {
  lo_nodup : NoDup (lnSent l).*1;
  lo_frames c f ph : lnCalls l !! c = Some (f, ph) → okFrame f;
  lo_sent c f : (c, f) ∈ lnSent l → ∃ ph, lnCalls l !! c = Some (f, ph) ∧ ¬ slotHeld ph;
  lo_gate c f ph : lnCalls l !! c = Some (f, ph) → ph = PGate ∨ ph = PWrite → rsGate (lnStream l) = Some c;
  lo_prefix : wire (handled (lnStored l)) ++ lnWire l `prefix_of` wire (lnSent l).*2;
  lo_writing c f : lnCalls l !! c = Some (f, PWrite) →
    ∃ sent, lnSent l = sent ++ [(c, f)] ∧ wire (handled (lnStored l)) ++ lnWire l = wire sent.*2;
  lo_written : rsFailed (lnStream l) = false → (∀ c f, lnCalls l !! c ≠ Some (f, PWrite)) →
    wire (handled (lnStored l)) ++ lnWire l = wire (lnSent l).*2;
  lo_handled : handled (lnStored l) `prefix_of` (lnSent l).*2;
  lo_acks : lnAcks l = drop (lnRead l) (ackByte <$> flags (lnStored l)) ∧ (lnRead l ≤ length (flags (lnStored l)))%nat;
  lo_pending : rsPending (lnStream l) = if rsFailed (lnStream l) then [] else drop (lnRead l) (lnSent l).*1;
  lo_finished : rsFailed (lnStream l) = false → ∀ c, is_Some (rsDone (lnStream l) !! c) →
    ∃ k, (k < lnRead l)%nat ∧ (lnSent l).*1 !! k = Some c;
  lo_done c : rsDone (lnStream l) !! c = Some true →
    ∃ k, (lnSent l).*1 !! k = Some c ∧ flags (lnStored l) !! k = Some true;
  lo_end c f : lnCalls l !! c = Some (f, PEnd true) → rsDone (lnStream l) !! c = Some true;
  lo_slots : rsSlots (lnStream l) = (holders (lnCalls l) + length (rsPending (lnStream l)))%nat;
}.

Lemma newLane_ok : laneOk newLane.
Proof.
  split; simpl; try done.
  - apply NoDup_nil_2.
  - by intros c f ?%elem_of_nil.
  - intros _ c [? ?]. done.
Qed.

(** Senders that wait have no result yet. *)
Lemma pending_unfinished l c : laneOk l → c ∈ rsPending (lnStream l) → rsDone (lnStream l) !! c = None.
Proof.
  intros Hl Hc. rewrite (lo_pending _ Hl) in Hc. destruct (rsFailed (lnStream l)) eqn:Hf; [by apply elem_of_nil in Hc|].
  destruct (rsDone (lnStream l) !! c) as [ok|] eqn:Hd; [|done].
  destruct (lo_finished _ Hl Hf c) as (k & Hk & Hs); [by eexists|].
  apply list_elem_of_lookup in Hc as [i Hi]. rewrite lookup_drop in Hi.
  pose proof (NoDup_lookup _ _ _ _ (lo_nodup _ Hl) Hs Hi). lia.
Qed.

(** Failing completes all of them. *)
Lemma fail_all cs s :
  NoDup cs → (∀ c, c ∈ cs → rsDone s !! c = None) →
  let s' := foldl (λ s c, finishLocked c false s) s cs in
  rsPending s' = rsPending s ∧ rsGate s' = rsGate s ∧ rsFailed s' = rsFailed s ∧ rsSlots s' = (rsSlots s - length cs)%nat
  ∧ (∀ c, rsDone s' !! c = Some true → rsDone s !! c = Some true)
  ∧ (∀ c, rsDone s !! c = Some true → rsDone s' !! c = Some true)
  ∧ (∀ c, is_Some (rsDone s' !! c) → is_Some (rsDone s !! c) ∨ c ∈ cs).
Proof.
  intros Hnd. revert s. induction Hnd as [|c cs Hc Hnd IH]; intros s Hn; simpl.
  { rewrite Nat.sub_0_r. split_and!; auto. }
  assert (rsDone s !! c = None) as Hcn by (apply Hn, list_elem_of_here).
  assert (finishLocked c false s
    = MkStream (rsPending s) (rsSlots s - 1) (rsGate s) (rsFailed s) (<[c := false]> (rsDone s))) as ->.
  { unfold finishLocked. by rewrite Hcn, decide_False by (by intros [? ?]). }
  specialize (IH (MkStream (rsPending s) (rsSlots s - 1) (rsGate s) (rsFailed s) (<[c := false]> (rsDone s)))).
  cbn [rsDone rsPending rsGate rsFailed rsSlots] in IH. destruct IH as (E1 & E2 & E3 & E4 & E5 & E5' & E6).
  { intros c' Hc'. rewrite lookup_insert_ne by (intros ->; done). apply Hn. by apply list_elem_of_further. }
  split_and!; [done|done|done|rewrite E4; lia|..].
  - intros c' Hd%E5. destruct (decide (c = c')) as [->|]; [by rewrite lookup_insert_eq in Hd|by rewrite lookup_insert_ne in Hd].
  - intros c' Hd. apply E5'. rewrite lookup_insert_ne; [done|]. intros ->. congruence.
  - intros c' [Hd|Hin]%E6; [|right; by apply list_elem_of_further].
    destruct (decide (c = c')) as [->|]; [right; apply list_elem_of_here|left; by rewrite lookup_insert_ne in Hd].
Qed.

Lemma failLocked_ok l :
  laneOk l →
  rsPending (failLocked (lnStream l)) = [] ∧ rsFailed (failLocked (lnStream l)) = true
  ∧ rsGate (failLocked (lnStream l)) = rsGate (lnStream l)
  ∧ rsSlots (failLocked (lnStream l)) = holders (lnCalls l)
  ∧ (∀ c, rsDone (failLocked (lnStream l)) !! c = Some true ↔ rsDone (lnStream l) !! c = Some true).
Proof.
  intros Hl. pose proof (lo_pending _ Hl) as Hp. pose proof (lo_slots _ Hl) as Hs. unfold failLocked.
  destruct (rsFailed (lnStream l)) eqn:Hf; [rewrite Hp in Hs; simpl in Hs; rewrite Hs, Nat.add_0_r; by split_and!|].
  destruct (fail_all (rsPending (lnStream l))
    (MkStream (rsPending (lnStream l)) (rsSlots (lnStream l)) (rsGate (lnStream l)) true (rsDone (lnStream l)))) as (E1 & E2 & E3 & E4 & E5 & E5' & E6).
  - rewrite Hp. eapply sublist_NoDup; [by apply lo_nodup|apply sublist_drop].
  - intros c. by apply pending_unfinished.
  - cbn [rsDone rsPending rsGate rsFailed rsSlots] in *. split_and!; [done|done|done|rewrite E4, Hs; lia|]. intros c. split; auto.
Qed.

Definition weight (ph : phase) : nat := if decide (slotHeld ph) then 1 else 0.

Lemma holders_insert calls c f ph : holders (<[c := (f, ph)]> calls) = (holders (delete c calls) + weight ph)%nat.
Proof.
  unfold holders, weight. rewrite <-insert_delete_eq, map_filter_insert. cbn [snd]. case_decide.
  - rewrite map_size_insert_None; [lia|]. apply map_lookup_filter_None. left. apply lookup_delete_eq.
  - rewrite delete_delete_eq. lia.
Qed.

Lemma holders_at calls c f ph : calls !! c = Some (f, ph) → holders calls = (holders (delete c calls) + weight ph)%nat.
Proof. intros Hc. rewrite <-holders_insert with (f := f). by rewrite insert_id. Qed.

Lemma holders_new calls c f ph : calls !! c = None → holders (<[c := (f, ph)]> calls) = (holders calls + weight ph)%nat.
Proof. intros Hc. by rewrite holders_insert, delete_id. Qed.

Lemma holders_move calls c f ph ph' :
  calls !! c = Some (f, ph) → (holders (<[c := (f, ph')]> calls) + weight ph = holders calls + weight ph')%nat.
Proof. intros Hc. rewrite holders_insert, (holders_at calls c f ph) by done. lia. Qed.

(** A call that is neither written nor begins to write. *)
Lemma onCall_ok l c f ph s :
  laneOk l → okFrame f →
  (lnCalls l !! c = None ∨ ∃ ph0, lnCalls l !! c = Some (f, ph0) ∧ ph0 ≠ PWrite ∧ (¬ slotHeld ph0 → ¬ slotHeld ph)) →
  ph ≠ PWrite → rsPending s = rsPending (lnStream l) → rsFailed s = rsFailed (lnStream l) → rsDone s = rsDone (lnStream l) →
  (ph = PGate → rsGate s = Some c) →
  (∀ c' f' ph', c' ≠ c → lnCalls l !! c' = Some (f', ph') → ph' = PGate ∨ ph' = PWrite → rsGate s = Some c') →
  (ph = PEnd true → rsDone s !! c = Some true) →
  rsSlots s = (holders (<[c := (f, ph)]> (lnCalls l)) + length (rsPending s))%nat →
  laneOk (onCall c f ph s l).
Proof.
  intros [L1 L2 L3 L4 L5 L6 L7 L8 L9 L10 L11 L12 L13 L14] Hf Hc Hph Ep Efl Ed Hg Hg' He Hs.
  assert (∀ c' f', <[c := (f, ph)]> (lnCalls l) !! c' = Some (f', PWrite) ↔ lnCalls l !! c' = Some (f', PWrite)) as Hw.
  { intros c' f'. destruct (decide (c = c')) as [<-|Hne]; [|by rewrite lookup_insert_ne]. rewrite lookup_insert_eq.
    split; [congruence|]. destruct Hc as [->|(ph0 & -> & ? & _)]; congruence. }
  split; cbn [onCall lnStream lnCalls lnWire lnAcks lnSent lnStored lnRead]; rewrite ?Ep, ?Efl, ?Ed in *; try done.
  - intros c' f' ph'. rewrite lookup_insert_Some. intros [[_ [= <- _]]|[_ ?]]; [done|by eapply L2].
  - intros c' f' Hin. destruct (decide (c = c')) as [<-|Hne]; [|rewrite lookup_insert_ne by done; by apply L3].
    destruct (L3 _ _ Hin) as (ph1 & Hc1 & Hn1). rewrite lookup_insert_eq. destruct Hc as [?|(ph0 & Hc0 & _ & Hn0)]; [congruence|].
    rewrite Hc0 in Hc1. injection Hc1 as <- <-. exists ph. auto.
  - intros c' f' ph'. rewrite lookup_insert_Some. intros [[<- [= <- <-]]|[Hne Hc']]; [|by apply (Hg' c' f')].
    intros [-> | ->]; [by apply Hg|done].
  - intros c' f' Hc'%Hw. by apply L6.
  - intros Hfl Hno. apply L7; [done|]. intros c' f' Hc'%Hw. by apply (Hno c' f').
  - intros c' f'. rewrite lookup_insert_Some. intros [[<- [= <- ->]]|[Hne Hc']]; [by apply He|by eapply L13].
Qed.

(** Only one call is inside the gate. *)
Lemma gate_unique l c f ph c' f' ph' :
  laneOk l → lnCalls l !! c = Some (f, ph) → ph = PGate ∨ ph = PWrite →
  lnCalls l !! c' = Some (f', ph') → ph' = PGate ∨ ph' = PWrite → c' = c.
Proof.
  intros Hl Hc Hp Hc' Hp'. pose proof (lo_gate _ Hl _ _ _ Hc Hp). pose proof (lo_gate _ Hl _ _ _ Hc' Hp'). congruence.
Qed.

Lemma register_ok l c f s :
  laneOk l → lnCalls l !! c = Some (f, PGate) → register c (lnStream l) = Some s →
  laneOk (MkLane s (<[c := (f, PWrite)]> (lnCalls l)) (lnWire l) (lnAcks l) (lnSent l ++ [(c, f)]) (lnStored l) (lnRead l)).
Proof.
  intros Hl Hc Hs. pose proof Hl as [L1 L2 L3 L4 L5 L6 L7 L8 L9 L10 L11 L12 L13 L14]. unfold register in Hs.
  destruct (rsFailed (lnStream l)) eqn:Hf; [done|]. injection Hs as <-.
  assert (c ∉ (lnSent l).*1) as Hnew.
  { intros ([c0 f0] & -> & Hin)%list_elem_of_fmap. destruct (L3 _ _ Hin) as (ph & Hph & Hn). simpl in *.
    rewrite Hc in Hph. injection Hph as <- <-. apply Hn. by right. }
  assert (∀ c' f', lnCalls l !! c' ≠ Some (f', PWrite)) as Hnone.
  { intros c' f' Hc'. assert (c' = c) as -> by (eapply (gate_unique l c f PGate c' f'); eauto). congruence. }
  specialize (L7 eq_refl Hnone).
  split; cbn [lnStream lnCalls lnWire lnAcks lnSent lnStored lnRead rsPending rsSlots rsGate rsFailed rsDone]; rewrite ?fmap_app in *; try done.
  - apply NoDup_app. split_and!; [done| |apply NoDup_singleton]. intros x Hx ->%list_elem_of_singleton. done.
  - intros c' f' ph'. rewrite lookup_insert_Some. intros [[_ [= <- _]]|[_ ?]]; by eapply L2.
  - intros c' f' [Hin|Hin%list_elem_of_singleton]%elem_of_app.
    + destruct (L3 _ _ Hin) as (ph & Hph & Hn). exists ph. split; [|done]. rewrite lookup_insert_ne; [done|]. intros <-.
      apply Hnew, list_elem_of_fmap. by exists (c, f').
    + injection Hin as -> ->. exists PWrite. rewrite lookup_insert_eq. split; [done|]. by intros [].
  - intros c' f' ph'. rewrite lookup_insert_Some. intros [[<- [= <- <-]]|[Hne Hc']]; [intros _; eapply L4; eauto|by apply (L4 c' f')].
  - rewrite L7, wire_app. by eexists.
  - intros c' f'. rewrite lookup_insert_Some. intros [[<- [= <-]]|[Hne Hc']]; [by exists (lnSent l)|by destruct (Hnone c' f')].
  - intros _ Hno. destruct (Hno c f). apply lookup_insert_eq.
  - etrans; [exact L8|]. by eexists.
  - rewrite L10, drop_app_le; [done|]. rewrite length_fmap. destruct L9 as [_ Hr]. rewrite flags_length in Hr.
    apply prefix_length in L8. rewrite length_fmap in L8. lia.
  - intros _ c' Hd. destruct (L11 eq_refl c' Hd) as (k & Hk & Hc'). exists k. split; [done|]. by apply lookup_app_l_Some.
  - intros c' Hd. destruct (L12 c' Hd) as (k & Hc' & Hk). exists k. split; [by apply lookup_app_l_Some|done].
  - intros c' f'. rewrite lookup_insert_Some. intros [[<- ?]|[Hne Hc']]; [done|by eapply L13].
  - rewrite length_app, L14. pose proof (holders_move _ c f PGate PWrite Hc) as Hm. unfold weight in Hm.
    rewrite decide_True in Hm by (by right). rewrite decide_False in Hm by (by intros []). simpl. lia.
Qed.

(** A frame is written, whole or in part. *)
Lemma written_ok l c f k s ph :
  laneOk l → lnCalls l !! c = Some (f, PWrite) →
  (ph = PWait ∧ k = length (encodeFrame f) ∧ s = releaseGate (lnStream l)
   ∨ ph = PEnd false ∧ s = releaseGate (failLocked (lnStream l))) →
  laneOk (MkLane s (<[c := (f, ph)]> (lnCalls l)) (lnWire l ++ take k (encodeFrame f)) (lnAcks l) (lnSent l) (lnStored l) (lnRead l)).
Proof.
  intros Hl Hc Hs. pose proof Hl as [L1 L2 L3 L4 L5 L6 L7 L8 L9 L10 L11 L12 L13 L14].
  destruct (L6 c f Hc) as (sent & Hsent & Hwire). destruct (failLocked_ok l Hl) as (F1 & F2 & F3 & F4 & F5).
  assert (∀ c' f' ph', c' ≠ c → lnCalls l !! c' = Some (f', ph') → ¬ (ph' = PGate ∨ ph' = PWrite)) as Hone.
  { intros c' f' ph' Hne Hc' Hp'. apply Hne. eapply (gate_unique l c f PWrite c' f'); eauto. }
  assert (¬ slotHeld ph ∧ ph ≠ PWrite ∧ ph ≠ PGate ∧ ph ≠ PEnd true) as (Hph & Hph1 & Hph2 & Hph3).
  { destruct Hs as [(-> & _)|(-> & _)]; (split; [by intros []|done]). }
  assert (rsPending s = if rsFailed s then [] else drop (lnRead l) (lnSent l).*1) as Ep.
  { destruct Hs as [(_ & _ & ->)|(_ & ->)]; simpl; [done|]. by rewrite F1, F2. }
  assert (∀ c', rsDone s !! c' = Some true ↔ rsDone (lnStream l) !! c' = Some true) as Ed.
  { destruct Hs as [(_ & _ & ->)|(_ & ->)]; simpl; [done|apply F5]. }
  split; cbn [lnStream lnCalls lnWire lnAcks lnSent lnStored lnRead]; try done.
  - intros c' f' ph'. rewrite lookup_insert_Some. intros [[_ [= <- _]]|[_ ?]]; by eapply L2.
  - intros c' f' Hin. destruct (decide (c = c')) as [<-|Hne]; [|rewrite lookup_insert_ne by done; by apply L3].
    destruct (L3 _ _ Hin) as (ph1 & Hc1 & _). rewrite Hc in Hc1. injection Hc1 as <- _. exists ph. by rewrite lookup_insert_eq.
  - intros c' f' ph'. rewrite lookup_insert_Some. intros [[<- [= <- <-]]|[Hne Hc']] Hp'; [naive_solver|by destruct (Hone c' f' ph')].
  - rewrite app_assoc, Hwire, Hsent, fmap_app, wire_app. simpl. unfold wire at 3. simpl. rewrite app_nil_r.
    apply prefix_app. exists (drop k (encodeFrame f)). by rewrite take_drop.
  - intros c' f'. rewrite lookup_insert_Some. intros [[<- [= <- ->]]|[Hne Hc']]; [done|]. destruct (Hone c' f' PWrite); auto.
  - intros Hf _. destruct Hs as [(_ & -> & _)|(_ & ->)]; [|simpl in Hf; congruence].
    rewrite firstn_all, app_assoc, Hwire, Hsent, fmap_app, wire_app. simpl. unfold wire at 3. simpl. by rewrite app_nil_r.
  - intros Hf c' Hd. destruct Hs as [(_ & _ & ->)|(_ & ->)]; simpl in *; [by apply L11|congruence].
  - intros c' Hd. by apply L12, Ed.
  - intros c' f'. rewrite lookup_insert_Some, Ed. intros [[<- [= <- ->]]|[Hne Hc']]; [done|by eapply L13].
  - pose proof (holders_move _ c f PWrite ph Hc) as Hm. unfold weight in Hm. rewrite (decide_False (P := slotHeld ph)) in Hm by done.
    rewrite decide_False in Hm by (by intros []). destruct Hs as [(-> & _ & ->)|(-> & ->)]; simpl; rewrite ?F1, ?F4; simpl; lia.
Qed.

Lemma fail_ok l :
  laneOk l →
  laneOk (MkLane (failLocked (lnStream l)) (lnCalls l) (lnWire l) (lnAcks l) (lnSent l) (lnStored l) (lnRead l)).
Proof.
  intros Hl. pose proof Hl as [L1 L2 L3 L4 L5 L6 L7 L8 L9 L10 L11 L12 L13 L14]. destruct (failLocked_ok l Hl) as (F1 & F2 & F3 & F4 & F5).
  split; cbn [lnStream lnCalls lnWire lnAcks lnSent lnStored lnRead]; try done.
  - intros c f ph Hc Hp. rewrite F3. by eapply L4.
  - congruence.
  - by rewrite F1, F2.
  - congruence.
  - intros c Hd. by apply L12, F5.
  - intros c f Hc. eapply F5, L13, Hc.
  - rewrite F1, F4. simpl. lia.
Qed.

(** An answer goes to the sender of the frame it answers. *)
Lemma ack_ok l b acks :
  laneOk l → lnAcks l = b :: acks →
  laneOk (MkLane (onAck b (lnStream l)) (lnCalls l) (lnWire l) acks (lnSent l) (lnStored l) (S (lnRead l))).
Proof.
  intros Hl Hb. pose proof Hl as [L1 L2 L3 L4 L5 L6 L7 L8 [L9 L9'] L10 L11 L12 L13 L14].
  rewrite Hb in L9. symmetry in L9. assert (∃ ok, flags (lnStored l) !! lnRead l = Some ok ∧ b = ackByte ok) as (ok & Hok & ->).
  { pose proof (f_equal head L9) as E. simpl in E. rewrite head_lookup, lookup_drop, Nat.add_0_r, list_lookup_fmap in E.
    destruct (flags (lnStored l) !! lnRead l) as [ok|]; [|done]. exists ok. split; [done|]. by injection E. }
  assert (acks = drop (S (lnRead l)) (ackByte <$> flags (lnStored l)) ∧ (S (lnRead l) ≤ length (flags (lnStored l)))%nat) as Hacks.
  { split; [|by apply lookup_lt_Some in Hok]. change acks with (drop 1 (ackByte ok :: acks)). rewrite <-L9, drop_drop. f_equal. lia. }
  destruct (lookup_lt_is_Some_2 (lnSent l).*1 (lnRead l)) as [p Hp].
  { rewrite length_fmap. apply prefix_length in L8. rewrite length_fmap in L8. apply lookup_lt_Some in Hok. rewrite flags_length in Hok. lia. }
  assert (rsFailed (lnStream l) = false → rsPending (lnStream l) = p :: drop (S (lnRead l)) (lnSent l).*1) as Hpend.
  { intros Hf. rewrite L10, Hf. by apply drop_S. }
  assert (rsFailed (lnStream l) = false → rsDone (lnStream l) !! p = None) as Hnd.
  { intros Hf. apply (pending_unfinished l); [done|]. rewrite Hpend by done. apply list_elem_of_here. }
  assert (rsFailed (lnStream l) = false → onAck (ackByte ok) (lnStream l)
    = MkStream (drop (S (lnRead l)) (lnSent l).*1) (rsSlots (lnStream l) - 1) (rsGate (lnStream l)) false (<[p := ok]> (rsDone (lnStream l)))) as Ea.
  { intros Hf. unfold onAck, finishLocked. rewrite Hf, Hpend by done. cbn [rsDone]. rewrite Hnd, decide_False by (done || by intros [? ?]).
    cbn [rsPending rsSlots rsGate rsFailed rsDone]. by destruct ok. }
  destruct (rsFailed (lnStream l)) eqn:Hf.
  - assert (onAck (ackByte ok) (lnStream l) = lnStream l) as -> by (unfold onAck; by rewrite Hf).
    split; cbn [lnStream lnCalls lnWire lnAcks lnSent lnStored lnRead]; rewrite ?Hf in *; done.
  - rewrite Ea by done. specialize (Hpend eq_refl). specialize (Hnd eq_refl).
    split; cbn [lnStream lnCalls lnWire lnAcks lnSent lnStored lnRead rsPending rsSlots rsGate rsFailed rsDone]; try done.
    + intros _ c [v Hc]. rewrite lookup_insert_Some in Hc. destruct Hc as [[<- _]|[Hne Hc]]; [exists (lnRead l); split; [lia|done]|].
      destruct (L11 eq_refl c) as (k & Hk & ?); [by eexists|]. exists k. split; [lia|done].
    + intros c Hc. rewrite lookup_insert_Some in Hc. destruct Hc as [[<- ->]|[Hne Hc]]; [by exists (lnRead l)|by apply L12].
    + intros c f Hc. rewrite lookup_insert_ne; [by eapply L13|]. intros <-. apply L13 in Hc. congruence.
    + rewrite L14, Hpend. simpl. lia.
Qed.

(** The follower takes the next frames. *)
Lemma follow_ok mf mb l r more out r' ok :
  laneOk l → lnWire l = streamOf r ++ more → DecodeBatchFrames mf mb r = Ok (out, r') →
  laneOk (MkLane (lnStream l) (lnCalls l) (streamOf r' ++ more) (lnAcks l ++ replicate (length out) (ackByte ok))
            (lnSent l) (lnStored l ++ [(out, ok)]) (lnRead l)).
Proof.
  intros Hl Hr Hd. pose proof Hl as [L1 L2 L3 L4 L5 L6 L7 L8 [L9 L9'] L10 L11 L12 L13 L14].
  assert (Forall okFrame (lnSent l).*2) as Hok.
  { apply Forall_fmap, Forall_forall. intros [c f] Hin. destruct (L3 _ _ Hin) as (ph & Hc & _). by eapply L2. }
  destruct L8 as [next Hnext].
  assert (streamOf r `prefix_of` wire next) as Hp.
  { rewrite Hr, Hnext, wire_app in L5. apply prefix_app_inv in L5. etrans; [|exact L5]. by eexists. }
  destruct (DecodeBatchFrames_sound mf mb r next out r') as [Hout Hst]; [|done|done|].
  { rewrite Hnext in Hok. by apply Forall_app in Hok as [_ ?]. }
  assert (∀ x, wire (handled (lnStored l ++ [(out, ok)])) ++ streamOf r' ++ more = x ↔ wire (handled (lnStored l)) ++ lnWire l = x) as Hw.
  { intros x. rewrite handled_app, wire_app, Hr, Hst. by rewrite <-!app_assoc. }
  split; cbn [lnStream lnCalls lnWire lnAcks lnSent lnStored lnRead]; try done.
  - destruct L5 as [e He]. exists e. rewrite He. f_equal. symmetry. by apply Hw.
  - intros c f Hc. destruct (L6 c f Hc) as (sent & ? & ?). exists sent. split; [done|]. by apply Hw.
  - intros Hf Hno. by apply Hw, L7.
  - rewrite handled_app, Hnext. by apply prefix_app.
  - rewrite flags_app, fmap_app, fmap_replicate, length_app, drop_app_le by (rewrite length_fmap; lia). rewrite L9. split; [done|lia].
  - intros c Hc. destruct (L12 c Hc) as (k & ? & Hk). exists k. split; [done|]. rewrite flags_app. by apply lookup_app_l_Some.
Qed.

Lemma laneStep_ok pipeline mf mb l l' : laneStep pipeline mf mb l l' → laneOk l → laneOk l'.
Proof.
  intros Hs Hl. pose proof (lo_slots _ Hl) as Hslots. destruct Hs as
    [c f s Hc Hf Hs|c f Hc Hf|c f s Hc Hs|c f Hc|c f s Hc Hs|c f Hc|c f Hc|c f k Hc|b acks Hb| |c f ok Hc Hd|c f Hc|r more out r' ok Hr Hd].
  - unfold takeSlot in Hs. case_decide as Hlt; [|done]. injection Hs as <-. apply onCall_ok; try done; [by left|by intros; eapply lo_gate|].
    rewrite holders_new by done. unfold weight. rewrite decide_True by (by left). simpl. lia.
  - apply onCall_ok; try done; [by left|by intros; eapply lo_gate|]. rewrite holders_new by done. unfold weight.
    rewrite decide_False by (by intros []). lia.
  - unfold takeGate in Hs. case_decide as Hg; [|done]. injection Hs as <-.
    apply onCall_ok; try done; [by eapply lo_frames|right; exists PSlot; split_and!; [done..|]; intros Hn; destruct Hn; by left| |].
    + intros c' f' ph' Hne Hc' Hp'. pose proof (lo_gate _ Hl _ _ _ Hc' Hp'). congruence.
    + pose proof (holders_move _ c f PSlot PGate Hc) as Hm. unfold weight in Hm.
      rewrite !decide_True in Hm by (by left + by right). simpl. lia.
  - apply onCall_ok; try done; [by eapply lo_frames|right; exists PSlot; split_and!; [done..|]; intros _; by intros []|by intros; eapply lo_gate|].
    pose proof (holders_move _ c f PSlot (PEnd false) Hc) as Hm. unfold weight in Hm. rewrite decide_True in Hm by (by left).
    rewrite decide_False in Hm by (by intros []). simpl. lia.
  - by eapply register_ok.
  - apply onCall_ok; try done; [by eapply lo_frames|right; exists PGate; split_and!; [done..|]; intros _; by intros []| |].
    + intros c' f' ph' Hne Hc' Hp'. destruct Hne. eapply (gate_unique l c f PGate c' f'); eauto.
    + pose proof (holders_move _ c f PGate (PEnd false) Hc) as Hm. unfold weight in Hm. rewrite decide_True in Hm by (by right).
      rewrite decide_False in Hm by (by intros []). simpl. lia.
  - pose proof (written_ok l c f (length (encodeFrame f)) (releaseGate (lnStream l)) PWait Hl Hc) as Hw.
    rewrite firstn_all in Hw. apply Hw. by left.
  - apply written_ok; [done|done|]. by right.
  - by apply ack_ok.
  - by apply fail_ok.
  - apply onCall_ok; try done; [by eapply lo_frames|right; exists PWait; split_and!; [done..|]; intros _; by intros []|by intros; eapply lo_gate| |].
    + intros [= ->]. done.
    + pose proof (holders_move _ c f PWait (PEnd ok) Hc) as Hm. unfold weight in Hm. rewrite !decide_False in Hm by (by intros []). lia.
  - apply onCall_ok; try done; [by eapply lo_frames|right; exists PWait; split_and!; [done..|]; intros _; by intros []|by intros; eapply lo_gate|].
    pose proof (holders_move _ c f PWait (PEnd false) Hc) as Hm. unfold weight in Hm. rewrite !decide_False in Hm by (by intros []). lia.
  - by eapply follow_ok.
Qed.

Lemma laneReach_ok pipeline mf mb l : laneReach pipeline mf mb l → laneOk l.
Proof.
  unfold laneReach. intros Hr. remember newLane as l0. assert (laneOk l0) as H0 by (subst; apply newLane_ok). clear Heql0.
  induction Hr as [|l0 l1 l Hs Hr IH]; [done|]. apply IH. by eapply laneStep_ok.
Qed.

(** ** Properties *)

(** What a sender is told happened to its batch. *)
Lemma ack_stored pipeline mf mb l c f :
  laneReach pipeline mf mb l → lnCalls l !! c = Some (f, PEnd true) → ∃ g, (g, true) ∈ lnStored l ∧ f ∈ g.
Proof.
  intros Hl%laneReach_ok Hc. destruct (lo_done _ Hl c (lo_end _ Hl c f Hc)) as (k & Hk & Hok).
  destruct (flags_lookup _ _ _ Hok) as (g & f' & Hg & Hf & Hh). exists g. split; [done|].
  rewrite list_lookup_fmap in Hk. destruct (lnSent l !! k) as [[c' f0]|] eqn:Hs; [|done]. injection Hk as ->.
  destruct (lo_sent _ Hl c f0) as (ph & Hph & _); [by eapply list_elem_of_lookup_2|]. rewrite Hc in Hph. injection Hph as <- _.
  pose proof (prefix_lookup_Some _ _ _ _ Hh (lo_handled _ Hl)) as Hf'. rewrite list_lookup_fmap, Hs in Hf'. by injection Hf' as <-.
Qed.

(** C19: an acknowledgement is for the batch that was sent. In every interleaving of the
    senders of a lane, the reading of answers, timeouts, cancellations, torn writes and
    the follower, a sender is told that its batch was stored only if the follower has stored
    a group with that very batch and answered it with success. *)
Theorem ack_means_stored pipeline mf mb l c f :
  laneReach pipeline mf mb l → lnCalls l !! c = Some (f, PEnd true) → ∃ g, (g, true) ∈ lnStored l ∧ f ∈ g.
Proof. apply ack_stored. Qed.

(** C40: slots are neither lost nor returned twice: in every interleaving, the slots in use
    are those of the calls that wait to write and of the frames that wait for their
    answer, and never more than the pipeline allows. *)
Theorem lane_slots pipeline mf mb l :
  laneReach pipeline mf mb l →
  rsSlots (lnStream l) = (holders (lnCalls l) + length (rsPending (lnStream l)))%nat
  ∧ (rsSlots (lnStream l) ≤ pipeline)%nat.
Proof.
  intros Hr. split; [by apply lo_slots, laneReach_ok with pipeline mf mb|]. unfold laneReach in Hr.
  remember newLane as l0. assert (laneOk l0 ∧ (rsSlots (lnStream l0) ≤ pipeline)%nat) as [H0 H1].
  { subst. split; [apply newLane_ok|simpl; lia]. }
  clear Heql0. induction Hr as [|l0 l1 l Hs Hr IH]; [done|]. apply IH; [by eapply laneStep_ok|].
  destruct (failLocked_ok l0 H0) as (_ & _ & _ & F4 & _). pose proof (lo_slots _ H0) as Hslots.
  destruct Hs as [c f s _ _ Hs| |c f s _ Hs| |c f s _ Hs| | | |b acks _| | | |]; cbn [onCall lnStream releaseSlot releaseGate rsSlots]; try lia.
  - unfold takeSlot in Hs. case_decide; [|done]. injection Hs as <-. simpl. lia.
  - unfold takeGate in Hs. case_decide; [|done]. by injection Hs as <-.
  - unfold register in Hs. destruct (rsFailed _); [done|]. by injection Hs as <-.
  - unfold onAck, finishLocked. destruct (rsFailed _); [done|]. destruct (rsPending _); [lia|]. case_decide; simpl; lia.
Qed.

(** A follower decodes what was sent. However the bytes of the frames arrive, as soon as
    the first one is complete, [DecodeBatchFrames] returns it with frames that follow it, in
    order and unchanged, leaves the rest of the stream in place, keeps to its limits on frames
    and bytes, and reads no more from the connection than the first frame needs. *)
Theorem DecodeBatchFrames_stream mf mb r f fs :
  Forall okFrame (f :: fs) → streamOf r `prefix_of` wire (f :: fs) → zlen (encodeFrame f) ≤ zlen (streamOf r) →
  ∃ k r1 r', DecodeBatchFrames mf mb r = Ok (take k (f :: fs), r') ∧ (0 < k)%nat ∧ Z.of_nat k ≤ Z.max 1 mf
    ∧ streamOf r = wire (take k (f :: fs)) ++ streamOf r'
    ∧ (0 < mb → k = 1%nat ∨ zlen (wire (take k (f :: fs))) ≤ mb)
    ∧ decodeOne (fill 4 (rdBuf r) (rdComing r)) = Ok (f, r1) ∧ rdComing r' = rdComing r1.
Proof.
  intros Hok Hp Hl. pose proof (DecodeBatchFrames_spec mf mb r (f :: fs) Hok Hp) as Hs. simpl in Hs. by rewrite decide_True in Hs.
Qed.

(** *** A lane with two senders *)

Section example.
Definition exampleBatch (n : Z) : BatchFrame := MkBatchFrame (MkScope "app" "room" "a") n [bs "page"].

Lemma exampleBatch_ok n : is_u64 n → okFrame (exampleBatch n).
Proof.
  intros Hn. assert (zlen (encodeFrame (exampleBatch n)) = 32) as Hl.
  { unfold encodeFrame, encodeBatchFrame. cbv zeta. rewrite !length_app, !length_be_enc. done. }
  split; [done| |rewrite Hl; unfold maxBatchFrame; lia].
  split; [done|done| |done]. apply Forall_singleton. unfold shortSegment. simpl. lia.
Qed.

(** The bytes of the two frames. *)
Definition exampleArrived : reader := MkReader [] [encodeFrame (exampleBatch 7) ++ encodeFrame (exampleBatch 8)].

(** The steps of a run without faults. *)
Inductive laneMove : Type :=
| MSlot (c : nat) (f : BatchFrame)
| MGate (c : nat)
| MRegister (c : nat)
| MWrite (c : nat)
| MFollow (r : reader)
| MAck
| MReturn (c : nat).

Definition laneDo (pipeline : nat) (mf mb : Z) (m : laneMove) (l : lane) : option lane :=
  match m with
  | MSlot c f =>
      match lnCalls l !! c with
      | None => s ← takeSlot pipeline (lnStream l); Some (onCall c f PSlot s l)
      | Some _ => None
      end
  | MGate c =>
      match lnCalls l !! c with
      | Some (f, PSlot) => s ← takeGate c (lnStream l); Some (onCall c f PGate s l)
      | _ => None
      end
  | MRegister c =>
      match lnCalls l !! c with
      | Some (f, PGate) =>
          s ← register c (lnStream l);
          Some (MkLane s (<[c := (f, PWrite)]> (lnCalls l)) (lnWire l) (lnAcks l) (lnSent l ++ [(c, f)]) (lnStored l) (lnRead l))
      | _ => None
      end
  | MWrite c =>
      match lnCalls l !! c with
      | Some (f, PWrite) =>
          Some (MkLane (releaseGate (lnStream l)) (<[c := (f, PWait)]> (lnCalls l)) (lnWire l ++ encodeFrame f)
                  (lnAcks l) (lnSent l) (lnStored l) (lnRead l))
      | _ => None
      end
  | MFollow r =>
      if decide (lnWire l = streamOf r) then
        match DecodeBatchFrames mf mb r with
        | Ok (out, r') =>
            Some (MkLane (lnStream l) (lnCalls l) (streamOf r' ++ []) (lnAcks l ++ replicate (length out) (ackByte true))
                    (lnSent l) (lnStored l ++ [(out, true)]) (lnRead l))
        | Err _ => None
        end
      else None
  | MAck =>
      match lnAcks l with
      | b :: acks => Some (MkLane (onAck b (lnStream l)) (lnCalls l) (lnWire l) acks (lnSent l) (lnStored l) (S (lnRead l)))
      | [] => None
      end
  | MReturn c =>
      match lnCalls l !! c with
      | Some (f, PWait) => ok ← rsDone (lnStream l) !! c; Some (onCall c f (PEnd ok) (lnStream l) l)
      | _ => None
      end
  end.

Lemma laneDo_step pipeline mf mb m l l' :
  match m with MSlot _ f => okFrame f | _ => True end → laneDo pipeline mf mb m l = Some l' → laneStep pipeline mf mb l l'.
Proof.
  destruct m as [c f|c|c|c|r| |c]; simpl; intros Hf Hm.
  - destruct (lnCalls l !! c) eqn:Hc; [done|]. destruct (takeSlot _ _) as [s|] eqn:Hs; [|done]. injection Hm as <-. by apply step_slot.
  - destruct (lnCalls l !! c) as [[f []]|] eqn:Hc; try done. destruct (takeGate _ _) as [s|] eqn:Hs; [|done]. injection Hm as <-. by apply step_gate.
  - destruct (lnCalls l !! c) as [[f []]|] eqn:Hc; try done. destruct (register _ _) as [s|] eqn:Hs; [|done]. injection Hm as <-. by apply step_register.
  - destruct (lnCalls l !! c) as [[f []]|] eqn:Hc; try done. injection Hm as <-. by apply step_write.
  - case_decide as Hr; [|done]. destruct (DecodeBatchFrames mf mb r) as [[out r']|] eqn:E; [|done]. injection Hm as <-.
    apply (step_follow pipeline mf mb l r [] out r' true); [by rewrite app_nil_r|done].
  - destruct (lnAcks l) as [|b acks] eqn:Hb; [done|]. injection Hm as <-. by apply step_ack.
  - destruct (lnCalls l !! c) as [[f []]|] eqn:Hc; try done. destruct (rsDone (lnStream l) !! c) as [ok|] eqn:Hd; [|done]. injection Hm as <-. by apply step_return.
Qed.

Fixpoint laneRun (pipeline : nat) (mf mb : Z) (ms : list laneMove) (l : lane) : option lane :=
  match ms with
  | [] => Some l
  | m :: ms => l ← laneDo pipeline mf mb m l; laneRun pipeline mf mb ms l
  end.

Lemma laneRun_reach pipeline mf mb ms l l' :
  Forall (λ m, match m with MSlot _ f => okFrame f | _ => True end) ms → laneRun pipeline mf mb ms l = Some l' →
  rtc (laneStep pipeline mf mb) l l'.
Proof.
  intros Hok. revert l. induction Hok as [|m ms Hm Hok IH]; intros l; simpl; [intros [= <-]; apply rtc_refl|].
  destruct (laneDo pipeline mf mb m l) as [l1|] eqn:E; [|done]. intros Hr. eapply rtc_l; [by eapply laneDo_step|by apply IH].
Qed.

(** Both senders write before the first answer is read; then the second learns its result. *)
Definition exampleLaneMoves : list laneMove :=
  [MSlot 0 (exampleBatch 7); MSlot 1 (exampleBatch 8); MGate 0; MRegister 0; MWrite 0; MGate 1; MRegister 1; MWrite 1;
   MFollow exampleArrived; MAck; MAck; MReturn 1].

Definition exampleLane : lane := default newLane (laneRun 4 64 (2 ^ 20) exampleLaneMoves newLane).

Lemma exampleLane_reach : laneReach 4 64 (2 ^ 20) exampleLane.
Proof.
  apply laneRun_reach with exampleLaneMoves; [|vm_compute; reflexivity].
  repeat (apply Forall_cons_2; [done || by apply exampleBatch_ok|]). apply Forall_nil_2.
Qed.

Lemma ack_means_stored_witness : ∃ g, (g, true) ∈ lnStored exampleLane ∧ exampleBatch 8 ∈ g.
Proof.
  apply (ack_means_stored 4 64 (2 ^ 20) exampleLane 1%nat (exampleBatch 8) exampleLane_reach). vm_compute. reflexivity.
Defined.

Lemma lane_slots_witness :
  rsSlots (lnStream exampleLane) = (holders (lnCalls exampleLane) + length (rsPending (lnStream exampleLane)))%nat
  ∧ (rsSlots (lnStream exampleLane) ≤ 4)%nat.
Proof. apply (lane_slots 4 64 (2 ^ 20) exampleLane exampleLane_reach). Defined.

Lemma DecodeBatchFrames_stream_witness :
  ∃ k r1 r', DecodeBatchFrames 64 (2 ^ 20) exampleArrived = Ok (take k [exampleBatch 7; exampleBatch 8], r')
    ∧ (0 < k)%nat ∧ Z.of_nat k ≤ Z.max 1 64
    ∧ streamOf exampleArrived = wire (take k [exampleBatch 7; exampleBatch 8]) ++ streamOf r'
    ∧ (0 < 2 ^ 20 → k = 1%nat ∨ zlen (wire (take k [exampleBatch 7; exampleBatch 8])) ≤ 2 ^ 20)
    ∧ decodeOne (fill 4 (rdBuf exampleArrived) (rdComing exampleArrived)) = Ok (exampleBatch 7, r1) ∧ rdComing r' = rdComing r1.
Proof.
  apply (DecodeBatchFrames_stream 64 (2 ^ 20) exampleArrived (exampleBatch 7) [exampleBatch 8]).
  - repeat (apply Forall_cons_2; [by apply exampleBatch_ok|]). apply Forall_nil_2.
  - exists []. vm_compute. reflexivity.
  - vm_compute. discriminate.
Defined.
End example.
