(* ===== verification/Disk.v ===== *)
(** * A disk that loses what was not synced ([os])

    The follower's spool promises that what it acknowledged survives a crash. This
    file models what the operating system gives it for that: directories whose
    entries are durable once the directory was synced, files whose contents are
    durable up to what was synced, calls that fail, writes that are cut short, and
    a machine that dies in the middle of any call.

    A program is a function of the machine ([io]); the faults it will meet are a
    list in the machine, so a theorem over all machines ranges over all of them.
    [triple] is a Hoare triple with a crash condition. *)

From S2P Require Import Prelude Cell Bucket.

(** ** Directories and files *)

(** The first [fSynced] bytes are durable; all of them and the length, when the file is not
    [fDirty]. [fStamp] is the modification time. *)
Record file := MkFile {
  fData : bytes;
  fSynced : nat;
  fDirty : bool;
  fStamp : Z;
}.

(** The files of a directory by number; the names as they are and as they were when the
    directory was last synced; whether the directory is there, and whether its own
    entry is durable. *)
Record dirState := MkDirState {
  dNodes : gmap nat file;
  dLive : gmap string nat;
  dStable : gmap string nat;
  dHere : bool;
  dKept : bool;
}.

(** The directories below the root of the spool, which is []. *)
Abbreviation disk := (@gmap path _ (@list_countable string _ _) dirState).

Definition newDir : dirState := MkDirState ∅ ∅ ∅ true false.

Definition setNodes (n : gmap nat file) (s : dirState) : dirState :=
  MkDirState n (dLive s) (dStable s) (dHere s) (dKept s).
Definition setLive (l : gmap string nat) (s : dirState) : dirState :=
  MkDirState (dNodes s) l (dStable s) (dHere s) (dKept s).

(** The directory, when it is there. *)
Definition dirAt (d : disk) (p : path) : option dirState :=
  s ← d !! p; if dHere s then Some s else None.

(** The file of a path: its number and state. *)
Definition nodeIn (s : dirState) (name : string) : option (nat * file) :=
  i ← dLive s !! name; f ← dNodes s !! i; Some (i, f).

Definition fileAt (d : disk) (dir : path) (name : string) : option (nat * file) :=
  s ← dirAt d dir; nodeIn s name.

(** ** Crashes *)

(** What the machine makes of the state that was not durable: which of the changed
    directory entries it kept, and what stands in a file after its synced bytes. *)
Record crashChoice := MkCrash {
  keepDir : path → bool;
  keepName : path → string → bool;
  junkOf : path → nat → bytes;
}.

Definition present (c : crashChoice) (d : disk) (p : path) : bool :=
  match d !! p with
  | Some s => if keepDir c p then dHere s else dKept s
  | None => false
  end.

(** The directories on the way to a path, and the path. *)
Definition prefixes (p : path) : list path := (λ n, take n p) <$> seq 0 (S (length p)).

Definition survives (c : crashChoice) (d : disk) (p : path) : bool := forallb (present c d) (prefixes p).

Definition rebootFile (junk : bytes) (f : file) : file :=
  let data := if fDirty f then take (fSynced f) (fData f) ++ junk else fData f in
  MkFile data (length data) false (fStamp f).

Definition rebootNames (keep : string → bool) (live stable : gmap string nat) : gmap string nat :=
  map_imap (λ n i, if keep n then Some i else None) live
  ∪ map_imap (λ n i, if keep n then None else Some i) stable.

Definition rebootDir (c : crashChoice) (p : path) (s : dirState) : dirState :=
  let names := rebootNames (keepName c p) (dLive s) (dStable s) in
  MkDirState (map_imap (λ i f, Some (rebootFile (junkOf c p i) f)) (dNodes s)) names names true true.

Definition reboot (c : crashChoice) (d : disk) : disk :=
  map_imap (λ p s, if survives c d p then Some (rebootDir c p s) else None) d.

(** ** Programs *)

(** A call succeeds or fails by itself; or it fails after a part of its effect; or the
    machine dies after a part of it. The part is a number of bytes for a write, and
    nothing or everything for another call. *)
Inductive fault : Set := Fine | Fail (part : nat) | Die (part : nat).

Record machine (S : Type) := MkMachine {
  mem : S;
  dsk : disk;
  faults : list fault;
}.
Arguments MkMachine {S} mem dsk faults.
Arguments mem {S} m.
Arguments dsk {S} m.
Arguments faults {S} m.

(** [None]: the machine has died. *)
Definition io (S A : Type) : Type := machine S → option A * machine S.

#[global] Instance io_ret {S} : MRet (io S) := λ A a m, (Some a, m).
#[global] Instance io_bind {S} : MBind (io S) := λ A B g p m,
  match p m with (Some a, m') => g a m' | (None, m') => (None, m') end.

(** [v, err := p; if err != nil { return err }] *)
Definition tryIO {S E A B} (p : io S (result E A)) (k : A → io S (result E B)) : io S (result E B) :=
  p ≫= λ r, match r with Ok a => k a | Err e => mret (Err e) end.
Notation "x ←? p ; k" := (tryIO p (λ x, k))
  (at level 20, p at level 100, k at level 200, right associativity) : go_scope.
Notation "' x ←? p ; k" := (tryIO p (λ y, match y with x => k end))
  (at level 20, x pattern, p at level 100, k at level 200, right associativity) : go_scope.

Section calls.
Context {S : Type}.

Definition getMem : io S S := λ m, (Some (mem m), m).
Definition modMem (f : S → S) : io S unit := λ m, (Some tt, MkMachine (f (mem m)) (dsk m) (faults m)).

(** A call to the operating system; [part] is the effect of a call that was cut short. *)
Definition sysCall {A} (f : disk → result errno A * disk) (part : nat → disk → disk) : io S (result errno A) :=
  λ m, match faults m with
       | [] => let '(r, d) := f (dsk m) in (Some r, MkMachine (mem m) d [])
       | Fine :: fs => let '(r, d) := f (dsk m) in (Some r, MkMachine (mem m) d fs)
       | Fail n :: fs => (Some (Err EIO), MkMachine (mem m) (part n (dsk m)) fs)
       | Die n :: fs => (None, MkMachine (mem m) (part n (dsk m)) fs)
       end.

(** A call that happens or does not. *)
Definition osCall {A} (f : disk → result errno A * disk) : io S (result errno A) :=
  sysCall f (λ n d, match n with O => d | _ => (f d).2 end).

(** A call that changes nothing. *)
Definition osRead {A} (f : disk → result errno A) : io S (result errno A) :=
  sysCall (λ d, (f d, d)) (λ _ d, d).
End calls.

(** ** Calls *)

(** A change of the directory, which must be there. *)
Definition inDir {A} (dir : path) (f : dirState → result errno A * dirState) (d : disk) : result errno A * disk :=
  match dirAt d dir with
  | None => (Err ENOENT, d)
  | Some s => let '(r, s') := f s in (r, <[dir := s']> d)
  end.

(** The directory that holds the path, and its last name. *)
Definition base (p : path) : string := default EmptyString (last p).

(** A name is taken by a file or by a directory. *)
Definition isThere (d : disk) (p : path) : bool :=
  bool_decide (is_Some (fileAt d (Dir p) (base p)) ∨ is_Some (dirAt d p)).

(** [os.Mkdir] *)
Definition mkdirOn (p : path) (d : disk) : result errno unit * disk :=
  if isThere d p then (Err EEXIST, d)
  else match dirAt d (Dir p) with
       | None => (Err ENOENT, d)
       | Some _ => (Ok tt, <[p := newDir]> d)
       end.

(** [os.MkdirAll]: the missing directories on the way, the outermost first. *)
Definition mkdirAllOn (p : path) (d : disk) : result errno unit * disk :=
  if existsb (λ q, bool_decide (is_Some (fileAt d (Dir q) (base q)))) (prefixes p) then (Err ENOTDIR, d)
  else (Ok tt, foldl (λ d q, if bool_decide (is_Some (dirAt d q)) then d else <[q := newDir]> d) d (prefixes p)).

(** The [Sync] of an opened directory: its names, and the entries of its directories. *)
Definition syncDirOn (dir : path) (d : disk) : result errno unit * disk :=
  match dirAt d dir with
  | None => (Err ENOENT, d)
  | Some _ =>
      (Ok tt, map_imap (λ p s, Some
         (let s := if decide (p = dir) then MkDirState (dNodes s) (dLive s) (dLive s) (dHere s) (dKept s) else s in
          if decide (Dir p = dir ∧ p ≠ []) then MkDirState (dNodes s) (dLive s) (dStable s) (dHere s) (dHere s)
          else s)) d)
  end.

(** [os.Stat]: [None] for a directory. *)
Definition statOn (p : path) (d : disk) : result errno (option (nat * file)) :=
  match fileAt d (Dir p) (base p) with
  | Some f => Ok (Some f)
  | None => if decide (is_Some (dirAt d p)) then Ok None else Err ENOENT
  end.

(** [os.OpenFile(p, O_CREATE|O_WRONLY)], with [O_EXCL] or not; the number of the file. *)
Definition openOn (excl : bool) (p : path) (d : disk) : result errno nat * disk :=
  if decide (is_Some (dirAt d p)) then (Err EISDIR, d)
  else inDir (Dir p) (λ s,
    match nodeIn s (base p) with
    | Some (i, _) => (if excl then Err EEXIST else Ok i, s)
    | None =>
        let i := fresh (dom (dNodes s)) in
        (Ok i, setLive (<[base p := i]> (dLive s)) (setNodes (<[i := MkFile [] 0 true 0]> (dNodes s)) s))
    end) d.

(** A change of an opened file of the directory [dir]. *)
Definition onFile (dir : path) (i : nat) (f : file → file) (d : disk) : result errno unit * disk :=
  match d !! dir with
  | None => (Err EIO, d)
  | Some s => (Ok tt, <[dir := setNodes (alter f i (dNodes s)) s]> d)
  end.

Definition truncFile (n : nat) (f : file) : file :=
  MkFile (take n (fData f) ++ replicate (n - length (fData f)) x00) (Nat.min n (fSynced f)) true (fStamp f + 1).

(** [Seek] and [Write]: the bytes from [off] on are replaced. *)
Definition writeFile (off : nat) (data : bytes) (f : file) : file :=
  MkFile (take off (fData f) ++ replicate (off - length (fData f)) x00 ++ data ++ drop (off + length data) (fData f))
    (Nat.min off (fSynced f)) true (fStamp f + 1).

(** A file is shorter than [2 ^ 63] bytes. *)
Definition writeOn (dir : path) (i off : nat) (data : bytes) (d : disk) : result errno unit * disk :=
  if decide (2 ^ 63 ≤ Z.of_nat (off + length data)) then (Err EIO, d) else onFile dir i (writeFile off data) d.

(** [O_APPEND]: at the end of the file. *)
Definition appendOn (dir : path) (i : nat) (data : bytes) (d : disk) : result errno unit * disk :=
  match d !! dir ≫= λ s, dNodes s !! i with
  | Some f => writeOn dir i (length (fData f)) data d
  | None => (Err EIO, d)
  end.

Definition syncFile (f : file) : file := MkFile (fData f) (length (fData f)) false (fStamp f).

(** [os.Open] of a file to read: its number and what it holds. *)
Definition openReadOn (p : path) (d : disk) : result errno (nat * file) :=
  match fileAt d (Dir p) (base p) with
  | Some f => Ok f
  | None => Err (if decide (is_Some (dirAt d p)) then EISDIR else ENOENT)
  end.

(** [os.ReadFile] *)
Definition readFileOn (p : path) (d : disk) : result errno bytes :=
  match fileAt d (Dir p) (base p) with
  | Some (_, f) => Ok (fData f)
  | None => Err (if decide (is_Some (dirAt d p)) then EISDIR else ENOENT)
  end.

(** [os.Remove] of a file *)
Definition removeOn (p : path) (d : disk) : result errno unit * disk :=
  match fileAt d (Dir p) (base p) with
  | None => (Err ENOENT, d)
  | Some _ => inDir (Dir p) (λ s, (Ok tt, setLive (delete (base p) (dLive s)) s)) d
  end.

(** [os.Rename] of a file within a directory *)
Definition renameOn (dir : path) (a b : string) (d : disk) : result errno unit * disk :=
  match fileAt d dir a with
  | None => (Err ENOENT, d)
  | Some (i, _) =>
      if decide (is_Some (dirAt d (dir ++ [b]))) then (Err EEXIST, d)
      else inDir dir (λ s, (Ok tt, setLive (<[b := i]> (delete a (dLive s))) s)) d
  end.

(** [os.RemoveAll] of a directory: what is below it is gone. *)
Definition removeAllOn (p : path) (d : disk) : result errno unit * disk :=
  (Ok tt, map_imap (λ q s, Some (if decide (take (length p) q = p)
     then MkDirState (dNodes s) ∅ (dStable s) false (dKept s) else s)) d).

(** [os.ReadDir]: the names of the files; the directories are skipped by the callers. *)
Definition readDirOn (p : path) (d : disk) : result errno (list string) :=
  match dirAt d p with
  | None => Err ENOENT
  | Some s => Ok (sortKeys (map_to_list (dLive s)).*1)
  end.

(** The paths of the files with the name. *)
Definition walkOn (name : string) (d : disk) : result errno (list path) :=
  Ok ((λ x, x.1 ++ [name]) <$> filter (λ x : path * dirState, dHere x.2 = true ∧ is_Some (dLive x.2 !! name)) (map_to_list d)).

Section os.
Context {S : Type}.
Abbreviation io := (io S).

Definition osMkdir (p : path) : io (result errno unit) := osCall (mkdirOn p).
Definition osMkdirAll (p : path) : io (result errno unit) := osCall (mkdirAllOn p).
Definition osSyncDir (p : path) : io (result errno unit) := osCall (syncDirOn p).
Definition osStat (p : path) : io (result errno (option (nat * file))) := osRead (statOn p).
Definition osOpen (excl : bool) (p : path) : io (result errno nat) := osCall (openOn excl p).
Definition osTruncate (dir : path) (i n : nat) : io (result errno unit) := osCall (onFile dir i (truncFile n)).
Definition osWriteAt (dir : path) (i off : nat) (data : bytes) : io (result errno unit) :=
  sysCall (writeOn dir i off data) (λ n d, (writeOn dir i off (take n data) d).2).
Definition osAppend (dir : path) (i : nat) (data : bytes) : io (result errno unit) :=
  sysCall (appendOn dir i data) (λ n d, (appendOn dir i (take n data) d).2).
Definition osSync (dir : path) (i : nat) : io (result errno unit) := osCall (onFile dir i syncFile).
Definition osClose : io (result errno unit) := osRead (λ _, Ok tt).
Definition osReadFile (p : path) : io (result errno bytes) := osRead (readFileOn p).
Definition osRemove (p : path) : io (result errno unit) := osCall (removeOn p).
Definition osRename (dir : path) (a b : string) : io (result errno unit) := osCall (renameOn dir a b).
Definition osRemoveAll (p : path) : io (result errno unit) := osCall (removeAllOn p).
Definition osReadDir (p : path) : io (result errno (list string)) := osRead (readDirOn p).
Definition osOpenRead (p : path) : io (result errno (nat * file)) := osRead (openReadOn p).
(** The reads of an opened file. *)
Definition osReadAll : io (result errno unit) := osRead (λ _, Ok tt).
(** [filepath.Walk]: the files with the name. *)
Definition osWalk (name : string) : io (result errno (list path)) := osRead (walkOn name).
End os.

(** ** A logic with crashes *)

(** From a state that satisfies [P], whatever calls fail: the program ends in [Q], or the
    machine dies with a disk that satisfies [C]. *)
Definition triple {S A : Type} (P : S → disk → Prop) (p : io S A) (Q : A → S → disk → Prop) (C : disk → Prop) : Prop :=
  ∀ s d fs, P s d →
  match p (MkMachine s d fs) with
  | (Some a, m) => Q a (mem m) (dsk m)
  | (None, m) => C (dsk m)
  end.

Section triple.
Context {S : Type}.
Implicit Types (P : S → disk → Prop) (C : disk → Prop).

Lemma triple_ret {A : Type} P (a : A) (Q : A → S → disk → Prop) C : (∀ s d, P s d → Q a s d) → triple P (mret a) Q C.
Proof. intros H s d fs HP. by apply H. Qed.

Lemma triple_bind {A B : Type} P (p : io S A) (k : A → io S B) R Q C :
  triple P p R C → (∀ a, triple (R a) (k a) Q C) → triple P (p ≫= k) Q C.
Proof.
  intros Hp Hk s d fs HP. specialize (Hp s d fs HP). unfold mbind, io_bind.
  destruct (p _) as [[a|] [s' d' fs']]; [by apply Hk|done].
Qed.

Lemma triple_mono {A : Type} P P' (p : io S A) Q Q' C C' :
  triple P' p Q' C' → (∀ s d, P s d → P' s d) → (∀ a s d, Q' a s d → Q a s d) → (∀ d, C' d → C d) → triple P p Q C.
Proof.
  intros H HP HQ HC s d fs Hs. specialize (H s d fs (HP _ _ Hs)).
  destruct (p _) as [[a|] m]; [by apply HQ|by apply HC].
Qed.

Lemma triple_pre {A : Type} P P' (p : io S A) Q C : triple P' p Q C → (∀ s d, P s d → P' s d) → triple P p Q C.
Proof. intros H HP. by eapply triple_mono. Qed.

Lemma triple_and {A : Type} P P' (p : io S A) Q Q' C C' :
  triple P p Q C → triple P' p Q' C' →
  triple (λ s d, P s d ∧ P' s d) p (λ a s d, Q a s d ∧ Q' a s d) (λ d, C d ∧ C' d).
Proof.
  intros H H' s d fs [HP HP']. specialize (H s d fs HP). specialize (H' s d fs HP').
  destruct (p _) as [[a|] m]; by split.
Qed.

Lemma triple_all {A X : Type} (P : X → S → disk → Prop) (p : io S A)
    (Q : X → A → S → disk → Prop) (C : X → disk → Prop) :
  (∀ x, triple (P x) p (Q x) (C x)) → triple (λ s d, ∀ x, P x s d) p (λ a s d, ∀ x, Q x a s d) (λ d, ∀ x, C x d).
Proof.
  intros H s d fs HP. assert (∀ x, match p (MkMachine s d fs) with
    | (Some a, m) => Q x a (mem m) (dsk m) | (None, m) => C x (dsk m) end) as Hx by (intros x; by apply H).
  destruct (p _) as [[a|] m]; intros x; apply (Hx x).
Qed.

Lemma triple_ex {A X : Type} (P : X → S → disk → Prop) (p : io S A)
    (Q : A → S → disk → Prop) C :
  (∀ x, triple (P x) p Q C) → triple (λ s d, ∃ x, P x s d) p Q C.
Proof. intros H s d fs [x HP]. by apply (H x). Qed.

Lemma triple_pure {A : Type} (φ : Prop) P (p : io S A) Q C : (φ → triple P p Q C) → triple (λ s d, φ ∧ P s d) p Q C.
Proof. intros H s d fs [Hφ HP]. by apply H. Qed.

Lemma triple_try {E A B : Type} P (p : io S (result E A)) (k : A → io S (result E B)) R Q C :
  triple P p R C → (∀ e s d, R (Err e) s d → Q (Err e) s d) → (∀ a, triple (R (Ok a)) (k a) Q C) →
  triple P (tryIO p k) Q C.
Proof.
  intros Hp He Hk. eapply triple_bind; [exact Hp|]. intros [a|e]; [apply Hk|]. apply triple_ret. apply He.
Qed.

Lemma triple_getMem P Q C : (∀ s d, P s d → Q s s d) → triple P getMem Q C.
Proof. intros H s d fs HP. by apply H. Qed.

Lemma triple_modMem P (f : S → S) Q C : (∀ s d, P s d → Q tt (f s) d) → triple P (modMem f) Q C.
Proof. intros H s d fs HP. by apply H. Qed.

Lemma triple_sysCall {A : Type} P (f : disk → result errno A * disk) part Q C :
  (∀ s d, P s d → Q (f d).1 s (f d).2 ∧ ∀ n, Q (Err EIO) s (part n d) ∧ C (part n d)) →
  triple P (sysCall f part) Q C.
Proof.
  intros H s d fs HP. destruct (H s d HP) as [Hf Hp]. unfold sysCall. simpl.
  destruct fs as [|[|n|n] fs]; simpl; [..|apply Hp|apply Hp]; destruct (f d); done.
Qed.

Lemma triple_osCall {A : Type} P (f : disk → result errno A * disk) Q C :
  (∀ s d, P s d → Q (f d).1 s (f d).2 ∧ Q (Err EIO) s d ∧ Q (Err EIO) s (f d).2 ∧ C d ∧ C (f d).2) →
  triple P (osCall f) Q C.
Proof.
  intros H. apply triple_sysCall. intros s d HP. destruct (H s d HP) as (H1 & H2 & H3 & H4 & H5).
  split; [done|]. by intros [|n].
Qed.

Lemma triple_osRead {A : Type} P (f : disk → result errno A) Q C :
  (∀ s d, P s d → Q (f d) s d ∧ Q (Err EIO) s d ∧ C d) → triple P (osRead f) Q C.
Proof. intros H. apply triple_sysCall. intros s d HP. destruct (H s d HP) as (H1 & H2 & H3). by split. Qed.
End triple.
