(* ===== verification/Spool.v ===== *)
(** * The follower's spool ([internal/peer/spool.go])

    A follower keeps what the owners send it on its disk, and acknowledges it when
    it would survive a crash. The batches of an owner's session are records of one
    log in a directory of the session; sealing the session stops its appends and
    fixes its last number; the recovery of the session reads the tail and then
    reclaims it. An older protocol keeps one log per cell and epoch.

    The programs run on the disk of [Disk]: every call can fail, or be the last one
    before a crash. An operation on a session holds the session's lock, and one on a
    cell's log the directory's, so operations on one of them do not overlap.

    The paths of a spool start at its directory, []. The name of a session's directory
    is a hash of the session ([Digest]). *)

From S2P Require Import Prelude Ltx Cell Bucket Decimal Frames Disk.

(** The hexadecimal SHA-256 sum of a session's name, as if it had no collisions. *)
Class Digest := {
  digest : string → string;
  digest_inj :: Inj (=) (=) digest;
}.

Definition logName : string := "segments.log".
Definition sessionLogName : string := "fragments.log".
Definition sealName : string := "sealed".

Inductive spoolError : Set :=
| EOs (e : errno)
| EFormat (e : formatError)
| ESegment (e : Ltx.error)
| ESessionSealed
| ENoSession
| EEmptyGroup
| EEmptyFrame
| EEpoch
| ENotADirectory
| ELegacyGap
| EParse
| ELogMissing.

(** ** State *)

(** A place in a sealed log where a page starts: only an optimization. *)
Record sessionTailCursor := MkCursor {
  tcAfter : Z;
  tcOffset : Z;
  tcFinal : Z;
  tcInfo : nat * Z * Z;
}.

Record sessionLog := MkSession {
  slTail : option sessionTailCursor;
  slLoaded : bool;
  slLast : Z;
  slSize : Z;
}.

Record spoolLog := MkSpoolLog {
  plLoaded : bool;
  plSeen : gset string;
}.

(** [spMade] and [spSynced] are the two kinds of keys of [dirs]. *)
Record Spool := MkSpool {
  spMade : gset path;
  spSynced : gset path;
  spLogs : gmap path spoolLog;
  spSessions : gmap path sessionLog;
}.

Definition NewSpool : Spool := MkSpool ∅ ∅ ∅ ∅.

Definition addMade (p : path) (s : Spool) : Spool := MkSpool ({[ p ]} ∪ spMade s) (spSynced s) (spLogs s) (spSessions s).
Definition addSynced (p : path) (s : Spool) : Spool := MkSpool (spMade s) ({[ p ]} ∪ spSynced s) (spLogs s) (spSessions s).
Definition setLog (p : path) (l : spoolLog) (s : Spool) : Spool :=
  MkSpool (spMade s) (spSynced s) (<[p := l]> (spLogs s)) (spSessions s).
Definition setSession (p : path) (l : sessionLog) (s : Spool) : Spool :=
  MkSpool (spMade s) (spSynced s) (spLogs s) (<[p := l]> (spSessions s)).
Definition dropSession (p : path) (s : Spool) : Spool :=
  MkSpool (spMade s) (spSynced s) (spLogs s) (delete p (spSessions s)).

Definition newSession : sessionLog := MkSession None false 0 0.

(** [LoadOrStore] *)
Definition sessionOf (p : path) (s : Spool) : sessionLog := default newSession (spSessions s !! p).

Abbreviation spool A := (io Spool (result spoolError A)).

(** An error of the operating system, returned. *)
Definition sys {A} (p : io Spool (result errno A)) : spool A := r ← p; mret (rmap_err EOs r).
(** [_ = p] *)
Definition ignore {A} (p : io Spool A) : io Spool unit := _ ← p; mret tt.

Record SessionAppend := MkAppend {
  saScope : Scope;
  saEpoch : Z;
  saSegments : list bytes;
}.

Section spool.
Context `{Digest}.

Definition sessionsDir : path := ["_sessions"].
Definition sessionDir (session : string) : path := ["_sessions"; digest session].

(** ** Directories *)

Definition syncDir (dir : path) : spool unit := sys (osSyncDir dir).

Definition mkdirDurable (p parent : path) : spool unit :=
  s ← getMem;
  if decide (p ∈ spMade s) then mret (Ok tt) else
  r ← osMkdir p;
  match r with
  | Err ENOENT | Err ENOTDIR | Err EISDIR | Err ENOTEMPTY | Err EINVAL | Err EIO => mret (rmap_err EOs r)
  | Ok _ | Err EEXIST =>
      info ←? sys (osStat p);
      match info with
      | Some _ => mret (Err ENotADirectory)
      | None =>
          _ ←? syncDir parent;
          _ ← modMem (addMade p);
          mret (Ok tt)
      end
  end.

Definition ensureSessionDir (dir : path) : spool unit :=
  _ ←? mkdirDurable sessionsDir [];
  mkdirDurable dir sessionsDir.

(** ** The log of a session *)

Definition scanSessionState (p : path) : spool (Z * Z) :=
  r ← osOpenRead p;
  match r with
  | Err ENOENT => mret (Ok (0, 0))
  | Err e => mret (Err (EOs e))
  | Ok (_, f) => _ ←? sys osReadAll; mret (rmap_err EFormat (scanRecords (fData f)))
  end.

Definition trimSuffix (s suf : string) : string :=
  if hasSuffix s suf then String.substring 0 (String.length s - String.length suf) s else s.

(** The older layout of a session: a file per fragment. *)
Fixpoint readLegacyFiles (dir : path) (names : list string) (out : list SessionFragment) : spool (list SessionFragment) :=
  match names with
  | [] => mret (Ok out)
  | name :: names =>
      if negb (hasSuffix name ".frame") then readLegacyFiles dir names out else
      match ParseUint (bs (trimSuffix name ".frame")) with
      | None => mret (Err EParse)
      | Some seq =>
          data ←? sys (osReadFile (dir ++ [name]));
          match decodeSessionFragment seq data with
          | Err e => mret (Err (EFormat e))
          | Ok fragment => readLegacyFiles dir names (out ++ [fragment])
          end
      end
  end.

Definition readLegacySession (dir : path) : spool (list SessionFragment) :=
  r ← osReadDir dir;
  match r with
  | Err ENOENT => mret (Ok [])
  | Err e => mret (Err (EOs e))
  | Ok names => readLegacyFiles dir names []
  end.

Definition recordOf (f : SessionFragment) : bytes :=
  encodeSessionRecord (sfSequence f) (sfScope f) (sfEpoch f) (sfSegments f).

(** The writes of a migration, [k] fragments done and [size] bytes. A gap removes the
    file and ends the load; a failed write ends the loop. *)
Fixpoint migrate (dir : path) (tmp : string) (i : nat) (k : Z) (size : Z) (legacy : list SessionFragment) : spool (result errno Z) :=
  match legacy with
  | [] => mret (Ok (Ok size))
  | f :: legacy =>
      if decide (sfSequence f ≠ k + 1) then
        _ ← osClose; _ ← ignore (osRemove (dir ++ [tmp])); mret (Err ELegacyGap)
      else
        r ← osWriteAt dir i (Z.to_nat size) (recordOf f);
        match r with
        | Err e => mret (Ok (Err e))
        | Ok _ => migrate dir tmp i (k + 1) (size + zlen (recordOf f)) legacy
        end
  end.

(** [err == nil] before the next step *)
Definition andThen {A B} (r : result errno A) (p : A → io Spool (result errno B)) : io Spool (result errno B) :=
  match r with Ok a => p a | Err e => mret (Err e) end.

(** The migrated log is synced, closed and moved to its place. *)
Definition finishMigration (dir : path) (tmp : string) (i : nat) (r : result errno Z) : io Spool (result errno Z) :=
  r ← andThen r (λ size, r ← osSync dir i; mret (r ;;ᵣ Ok size));
  closed ← osClose;
  r ← andThen (size ←ᵣ r; closed ;;ᵣ Ok size) (λ size, r ← osRename dir tmp sessionLogName; mret (r ;;ᵣ Ok size));
  andThen r (λ size, r ← osSyncDir dir; mret (r ;;ᵣ Ok size)).

Definition loadSessionState (dir : path) : spool (Z * Z) :=
  '(last, size) ←? scanSessionState (dir ++ [sessionLogName]);
  if decide (size ≠ 0) then mret (Ok (last, size)) else
  legacy ←? readLegacySession (dir ++ ["fragments"]);
  if decide (legacy = []) then mret (Ok (0, 0)) else
  let tmp := sessionLogName +:+ ".migrate" in
  _ ← ignore (osRemove (dir ++ [tmp]));
  i ←? sys (osOpen true (dir ++ [tmp]));
  r ←? migrate dir tmp i 0 size legacy;
  r ← finishMigration dir tmp i r;
  match r with
  | Err e => _ ← ignore (osRemove (dir ++ [tmp])); mret (Err (EOs e))
  | Ok size => mret (Ok (zlen legacy, size))
  end.

(** The state of a session, loaded on first use. *)
Definition loaded (dir : path) : spool sessionLog :=
  s ← getMem;
  let state := sessionOf dir s in
  if slLoaded state then mret (Ok state) else
  _ ← modMem (setSession dir state);
  '(last, size) ←? loadSessionState dir;
  let state := MkSession (slTail state) true last size in
  _ ← modMem (setSession dir state);
  mret (Ok state).

(** ** Appends *)

(** The checks of one append, before anything is changed. *)
Fixpoint checkSegments (epoch : Z) (segments : list bytes) : result spoolError unit :=
  match segments with
  | [] => Ok tt
  | seg :: segments =>
      '(h, _) ←ᵣ rmap_err ESegment (Decode seg);
      reject (bool_decide (hEpoch h ≠ epoch)) EEpoch ;;ᵣ
      checkSegments epoch segments
  end.

Fixpoint checkAppends (appends : list SessionAppend) : result spoolError unit :=
  match appends with
  | [] => Ok tt
  | a :: appends =>
      reject (bool_decide (saSegments a = [])) EEmptyFrame ;;ᵣ
      checkSegments (saEpoch a) (saSegments a) ;;ᵣ
      checkAppends appends
  end.

(** [os.Stat] of the marker: an error, or whether it is there. *)
Definition statMarker (dir : path) : spool bool :=
  r ← osStat (dir ++ [sealName]);
  match r with
  | Ok _ => mret (Ok true)
  | Err ENOENT => mret (Ok false)
  | Err e => mret (Err (EOs e))
  end.

Definition payloadOf (a : SessionAppend) : bytes :=
  encodeSessionFragment (scopeString (saScope a)) (saEpoch a) (saSegments a).

(** The records of a group after the sequence [last]. *)
Fixpoint groupRecords (last : Z) (appends : list SessionAppend) : bytes :=
  match appends with
  | [] => []
  | a :: appends =>
      encodeSessionRecord (u64 (last + 1)) (scopeString (saScope a)) (saEpoch a) (saSegments a)
        ++ groupRecords (u64 (last + 1)) appends
  end.

Fixpoint groupSeqs (last : Z) (appends : list SessionAppend) : list Z :=
  match appends with [] => [] | _ :: appends => u64 (last + 1) :: groupSeqs (u64 (last + 1)) appends end.

(** The open file: cut to the known size, written, synced and closed. *)
Definition writeRecords (dir : path) (i : nat) (size : Z) (records : bytes) : io Spool (result errno unit) :=
  r ← osTruncate dir i (Z.to_nat size);
  r ← andThen r (λ _, osWriteAt dir i (Z.to_nat size) records);
  r ← andThen r (λ _, osSync dir i);
  closed ← osClose;
  mret (r ;;ᵣ closed).

(** The directory is synced once per log. *)
Definition syncOnce (dir : path) : spool unit :=
  s ← getMem;
  if decide (dir ∈ spSynced s) then mret (Ok tt) else
  _ ←? syncDir dir;
  _ ← modMem (addSynced dir);
  mret (Ok tt).

Definition AppendSessionGroup (session : string) (appends : list SessionAppend) : spool (list Z) :=
  if decide (session = EmptyString) then mret (Err ENoSession) else
  if decide (appends = []) then mret (Err EEmptyGroup) else
  match checkAppends appends with
  | Err e => mret (Err e)
  | Ok _ =>
      let dir := sessionDir session in
      sealed ←? statMarker dir;
      if sealed : bool then mret (Err ESessionSealed) else
      _ ←? ensureSessionDir dir;
      state ←? loaded dir;
      let seqs := groupSeqs (slLast state) appends in
      let records := groupRecords (slLast state) appends in
      i ←? sys (osOpen false (dir ++ [sessionLogName]));
      _ ←? sys (writeRecords dir i (slSize state) records);
      _ ←? syncOnce dir;
      _ ← modMem (setSession dir (MkSession (slTail state) true (default 0 (last seqs)) (slSize state + zlen records)));
      mret (Ok seqs)
  end.

(** ** Seals *)

(** The temporary marker; one left by an earlier seal is removed first. *)
Definition openTmp (dir : path) : spool nat :=
  let tmp := dir ++ [sealName +:+ ".tmp"] in
  r ← osOpen true tmp;
  match r with
  | Err EEXIST =>
      _ ←? sys (osRemove tmp);
      sys (osOpen true tmp)
  | _ => mret (rmap_err EOs r)
  end.

(** The marker is written beside its place, synced and moved there. *)
Definition writeMarker (dir : path) (i : nat) (data : bytes) : io Spool (result errno unit) :=
  r ← osWriteAt dir i 0 data;
  r ← andThen r (λ _, osSync dir i);
  closed ← osClose;
  r ← andThen (r ;;ᵣ closed) (λ _, osRename dir (sealName +:+ ".tmp") sealName);
  match r with
  | Ok _ => osSyncDir dir
  | Err e => _ ← ignore (osRemove (dir ++ [sealName +:+ ".tmp"])); mret (Err e)
  end.

Definition Seal (session : string) : spool Z :=
  let dir := sessionDir session in
  _ ←? ensureSessionDir dir;
  r ← osReadFile (dir ++ [sealName]);
  match r with
  | Ok data =>
      _ ←? syncDir dir;
      match ParseUint data with Some n => mret (Ok n) | None => mret (Err EParse) end
  | Err ENOENT =>
      state ←? loaded dir;
      let final := slLast state in
      i ←? openTmp dir;
      _ ←? sys (writeMarker dir i (FormatUint final));
      mret (Ok final)
  | Err e => mret (Err (EOs e))
  end.

(** ** Reads *)

Definition Head (session : string) : spool Z :=
  let dir := sessionDir session in
  s ← getMem;
  if slLoaded (sessionOf dir s) then mret (Ok (slLast (sessionOf dir s))) else
  r ← osOpenRead (dir ++ [sessionLogName]);
  match r with
  | Err ENOENT => mret (Err ELogMissing)
  | Err e => mret (Err (EOs e))
  | Ok (_, f) => _ ←? sys osReadAll; mret (rmap_err EFormat (headRecords (fData f)))
  end.

Definition TailScopePage (session scope : string) (after final offset maxRecords maxBytes : Z) :
    spool (list SessionFragment * Z * Z) :=
  '(_, f) ←? sys (osOpenRead (sessionDir session ++ [sessionLogName]));
  if decide (offset < 0) then mret (Err (EOs EINVAL)) else
  _ ←? sys osReadAll;
  mret (rmap_err EFormat (scopeRecords (fData f) scope after final offset maxRecords maxBytes)).

(** The cursor that serves the page, for the file that it was saved for. *)
Definition cursorFor (l : sessionLog) (after final : Z) (info : nat * Z * Z) : option sessionTailCursor :=
  match slTail l with
  | Some c => if decide (tcAfter c = after ∧ tcFinal c = final ∧ tcInfo c = info) then Some c else None
  | None => None
  end.

(** [os.ReadFile] of the marker and its number; [None] when an open session may be read. *)
Definition readFinal (dir : path) (allowOpen : bool) : spool (option Z) :=
  r ← osReadFile (dir ++ [sealName]);
  match r with
  | Ok data => match ParseUint data with Some n => mret (Ok (Some n)) | None => mret (Err EParse) end
  | Err e => if decide (allowOpen = true ∧ e = ENOENT) then mret (Ok None) else mret (Err (EOs e))
  end.

Definition tailPage (session : string) (after maxFragments maxBytes : Z) (allowOpen : bool) : spool (list SessionFragment) :=
  let dir := sessionDir session in
  final ←? readFinal dir allowOpen;
  r ← osOpenRead (dir ++ [sessionLogName]);
  match r with
  | Err e => if decide (allowOpen = true ∧ e = ENOENT) then mret (Ok []) else mret (Err (EOs e))
  | Ok (i, f) =>
      let info := (i, zlen (fData f), fStamp f) in
      s ← getMem;
      let state := sessionOf dir s in
      _ ← modMem (setSession dir state);
      let cursor := f ← final; cursorFor state after f info in
      let '(sequence, offset) := match cursor with Some c => (tcAfter c, tcOffset c) | None => (0, 0) end in
      _ ←? sys osReadAll;
      match tailRecords (fData f) final sequence offset after maxFragments maxBytes with
      | Err e => mret (Err (EFormat e))
      | Ok (out, (rs, ro)) =>
          _ ← match final with
              | Some n => modMem (setSession dir (MkSession (Some (MkCursor rs ro n info)) (slLoaded state) (slLast state) (slSize state)))
              | None => mret tt
              end;
          mret (Ok out)
      end
  end.

Definition TailPage (session : string) (after maxFragments maxBytes : Z) : spool (list SessionFragment) :=
  tailPage session after maxFragments maxBytes false.

Definition Tail (session : string) (after : Z) : spool (list SessionFragment) := TailPage session after 0 0.

Fixpoint upTo (final : Z) (fs : list SessionFragment) : list SessionFragment :=
  match fs with
  | [] => []
  | f :: fs => if decide (final < sfSequence f) then [] else f :: upTo final fs
  end.

Definition TailOpenPage (session : string) (after final maxFragments maxBytes : Z) : spool (list SessionFragment) :=
  fragments ←? tailPage session after maxFragments maxBytes true;
  mret (Ok (upTo final fragments)).

(** ** The end of a session *)

Definition Reclaim (session : string) : spool unit :=
  let dir := sessionDir session in
  _ ←? sys (osStat (dir ++ [sealName]));
  r ← osRemove (dir ++ [sessionLogName]);
  match r with
  | Ok _ | Err ENOENT =>
      _ ←? sys (osRemoveAll (dir ++ ["fragments"]));
      _ ← modMem (dropSession dir);
      syncDir dir
  | Err e => mret (Err (EOs e))
  end.

Definition Prepare (session : string) : spool unit :=
  if decide (session = EmptyString) then mret (Err ENoSession) else
  let dir := sessionDir session in
  sealed ←? statMarker dir;
  if sealed : bool then mret (Err ESessionSealed) else
  _ ←? ensureSessionDir dir;
  i ←? sys (osOpen false (dir ++ [sessionLogName]));
  r ← osSync dir i;
  closed ← osClose;
  _ ←? sys (mret (r ;;ᵣ closed));
  syncDir dir.

Definition SessionExists (session : string) : io Spool bool :=
  let dir := sessionDir session in
  r ← osStat (dir ++ [sessionLogName]);
  match r with
  | Ok _ => mret true
  | Err _ => r ← osStat (dir ++ [sealName]); mret (match r with Ok _ => true | Err _ => false end)
  end.

(** ** The log of a cell and epoch *)

Definition logDir (sc : Scope) (epoch : Z) : path := [Namespace sc; Class sc; ScopeID sc; "e" +:+ fmt_d epoch].
Definition logPath (sc : Scope) (epoch : Z) : path := logDir sc epoch ++ [logName].

Definition parseLogFile (p : path) : spool (list bytes) :=
  r ← osReadFile p;
  match r with
  | Ok data => mret (Ok (DecodeFrames data))
  | Err ENOENT => mret (Ok [])
  | Err e => mret (Err (EOs e))
  end.

(** The identities of the segments that can be decoded. *)
Definition identities (segs : list bytes) : gset string :=
  list_to_set (omap (λ seg, match Decode seg with Ok (h, _) => Some (ID h) | Err _ => None end) segs).

(** The identities already in the log, read on first use; a read error leaves none. *)
Definition loadSeen (sc : Scope) (epoch : Z) : io Spool (gset string) :=
  let dir := logDir sc epoch in
  s ← getMem;
  let sl := default (MkSpoolLog false ∅) (spLogs s !! dir) in
  if plLoaded sl then mret (plSeen sl) else
  r ← parseLogFile (logPath sc epoch);
  let seen := plSeen sl ∪ match r with Ok segs => identities segs | Err _ => ∅ end in
  _ ← modMem (setLog dir (MkSpoolLog true seen));
  mret seen.

(** The segments whose identity is new, and the identities with theirs. *)
Fixpoint freshSegments (seen : gset string) (segments : list bytes) : gset string * list bytes :=
  match segments with
  | [] => (seen, [])
  | seg :: segments =>
      match Decode seg with
      | Err _ => freshSegments seen segments
      | Ok (h, _) =>
          if decide (ID h ∈ seen) then freshSegments seen segments else
          let '(seen, fresh) := freshSegments ({[ ID h ]} ∪ seen) segments in (seen, seg :: fresh)
      end
  end.

(** The segments pass [checkSegments], so none fails to decode when it is looked at again. The
    identities are noted before the segments are written. *)
Definition AppendBatch (sc : Scope) (epoch : Z) (segments : list bytes) : spool path :=
  match checkSegments epoch segments with
  | Err e => mret (Err e)
  | Ok _ =>
      let dir := logDir sc epoch in
      let lp := logPath sc epoch in
      _ ←? sys (osMkdirAll dir);
      seen ← loadSeen sc epoch;
      let '(seen, fresh) := freshSegments seen segments in
      _ ← modMem (setLog dir (MkSpoolLog true seen));
      if decide (fresh = []) then mret (Ok lp) else
      i ←? sys (osOpen false lp);
      _ ←? sys (osAppend dir i (EncodeFrames fresh));
      _ ←? sys (osSync dir i);
      _ ←? sys osClose;
      _ ←? syncOnce dir;
      mret (Ok lp)
  end.

Definition Append (sc : Scope) (epoch : Z) (segment : bytes) : spool path := AppendBatch sc epoch [segment].

Definition AppendBatchSession (session : string) (sc : Scope) (epoch : Z) (segments : list bytes) : spool (path * string) :=
  if decide (session = EmptyString) then
    lp ←? AppendBatch sc epoch segments; mret (Ok (lp, EmptyString))
  else
    seqs ←? AppendSessionGroup session [MkAppend sc epoch segments];
    mret (Ok (sessionDir session ++ [sessionLogName], String.string_of_list_byte (FormatUint (default 0 (head seqs))))).

Definition Segments (sc : Scope) (epoch : Z) : spool (list bytes) := parseLogFile (logPath sc epoch).

Definition ListSegments (sc : Scope) (epoch : Z) : spool (list string) :=
  segs ←? Segments sc epoch;
  mret (Ok (sortKeys (omap (λ seg, match Decode seg with Ok (h, _) => Some (SegmentName h) | Err _ => None end) segs))).

(** The logs of the walk, in the order of their paths. *)
Fixpoint heldLogs (logs : list path) (out : list HeldSegment) : spool (list HeldSegment) :=
  match logs with
  | [] => mret (Ok out)
  | p :: logs =>
      match p with
      | [ns; class; id; e; _] =>
          if negb (hasPrefix "e" e) then heldLogs logs out else
          match ParseUint (drop 1 (bs e)) with
          | None => heldLogs logs out
          | Some n =>
              segs ←? parseLogFile p;
              heldLogs logs (out ++ (MkHeld (ns +:+ "/" +:+ class +:+ "/" +:+ id) n <$> segs))
          end
      | _ => heldLogs logs out
      end
  end.

(** The order of the paths as strings *)
Definition pathLe (p q : path) : Prop := String.le (keyOfPath p) (keyOfPath q).
#[global] Instance pathLe_dec p q : Decision (pathLe p q).
Proof. unfold pathLe. apply _. Defined.

Definition Held : spool (list HeldSegment) :=
  logs ←? sys (osWalk logName);
  heldLogs (merge_sort pathLe logs) [].
End spool.
