(* ===== verification/SpoolDurable.v ===== *)
(** * What the spool promises survives ([internal/peer/spool.go])

    For every session there is a promise ([promise]): the payloads that were
    acknowledged, in the order of their numbers, and the number the session was sealed
    with. [holdsUp] is what the memory and the disk of the follower must satisfy for it,
    and every operation, whatever calls fail in it, keeps the promise or extends it;
    the crash of the machine in the middle of any call, and the restart of the
    process, keep it too. *)

From S2P Require Import Prelude Ltx Cell Bucket Decimal Frames Disk Spool.

Record promise := MkPromise {
  pAcked : list bytes;
  pFinal : option Z;
  pGone : bool;
}.

(** The name of a file, now or after a crash. *)
Definition named (ds : dirState) (n : string) (i : nat) : Prop := dLive ds !! n = Some i ∨ dStable ds !! n = Some i.

Definition tmpName : string := sealName +:+ ".tmp".
Definition migrateName : string := sessionLogName +:+ ".migrate".

(** What the directory of a session is for its promise [g]. *)
Record dirOk (g : promise) (ds : dirState) : Prop := {
  do_targets : ∀ n i, named ds n i → is_Some (dNodes ds !! i);
  do_inj : ∀ n n' i, named ds n i → named ds n' i → n = n';
  do_log : pGone g = false → pAcked g ≠ [] → ∃ i f,
    dLive ds !! sessionLogName = Some i ∧ dStable ds !! sessionLogName = Some i ∧ dNodes ds !! i = Some f
    ∧ encodeLog (pAcked g) `prefix_of` take (fSynced f) (fData f);
  do_sane : ∀ i f, named ds sessionLogName i → dNodes ds !! i = Some f → saneLog (fData f);
  do_marker : ∀ j, named ds sealName j → ∃ n f, dNodes ds !! j = Some f ∧ fData f = FormatUint n
    ∧ fDirty f = false ∧ 0 ≤ n ≤ maxUint64 ∧ (pGone g = false → zlen (pAcked g) ≤ n);
  do_once : ∀ j, dStable ds !! sealName = Some j → dLive ds !! sealName = Some j;
  do_final : ∀ n, pFinal g = Some n → ∃ j f, dStable ds !! sealName = Some j
    ∧ dNodes ds !! j = Some f ∧ fData f = FormatUint n ∧ 0 ≤ n ≤ maxUint64;
}.

Definition setStable (l : gmap string nat) (ds : dirState) : dirState :=
  MkDirState (dNodes ds) (dLive ds) l (dHere ds) (dKept ds).

Section dir.
Context (g : promise) (ds : dirState) (Hok : dirOk g ds).

Lemma live_target n i : dLive ds !! n = Some i → ∃ f, dNodes ds !! i = Some f ∧ nodeIn ds n = Some (i, f).
Proof.
  intros Hn. destruct (do_targets _ _ Hok n i) as [f Hf]; [by left|]. exists f. split; [done|].
  unfold nodeIn. by rewrite Hn; simpl; rewrite Hf.
Qed.

Lemma nodeIn_Some n i f : nodeIn ds n = Some (i, f) ↔ dLive ds !! n = Some i ∧ dNodes ds !! i = Some f.
Proof.
  unfold nodeIn. split; [|intros [-> H]; simpl; by rewrite H].
  destruct (dLive ds !! n) as [j|]; [|done]. simpl. destruct (dNodes ds !! j) eqn:E; [|done]. simpl. by intros [= <- <-].
Qed.

Lemma nodeIn_None n : nodeIn ds n = None → dLive ds !! n = None.
Proof.
  intros Hn. destruct (dLive ds !! n) as [i|] eqn:E; [|done]. destruct (live_target n i E) as (f & _ & H). congruence.
Qed.

Lemma dirOk_here h k : dirOk g (MkDirState (dNodes ds) (dLive ds) (dStable ds) h k).
Proof using Hok. by destruct Hok; split. Qed.

Lemma dirOk_sync : dirOk g (setStable (dLive ds) ds).
Proof.
  assert (∀ n i, named (setStable (dLive ds) ds) n i → named ds n i) as Hn by (intros n i [?|?]; by left).
  destruct Hok as [Ht Hi Hl Hs Hm Ho Hf]. split; simpl; [by eauto|by eauto| |by eauto|by eauto|done|].
  - intros Hg Ha. destruct (Hl Hg Ha) as (i & f & ? & ? & ?). eauto 10.
  - intros n Hp. destruct (Hf n Hp) as (j & f & Hj & ?). exists j, f. split; [by apply Ho|done].
Qed.

(** A new file. *)
Lemma dirOk_create n i :
  nodeIn ds n = None → n ≠ sealName → dNodes ds !! i = None →
  dirOk g (setLive (<[n := i]> (dLive ds)) (setNodes (<[i := MkFile [] 0 true 0]> (dNodes ds)) ds)).
Proof.
  intros Hn%nodeIn_None Hne Hi.
  assert (∀ n' i', named ds n' i' → i' ≠ i) as Hfresh.
  { intros n' i' H ->. apply (do_targets _ _ Hok) in H as [? H]. congruence. }
  set (ds' := setLive _ _).
  assert (∀ n' i', named ds' n' i' → n' = n ∧ i' = i ∨ named ds n' i') as Hnm.
  { intros n' i' [H|H]; simpl in H; [|by right; right].
    destruct (decide (n = n')) as [<-|Hd]; [rewrite lookup_insert_eq in H; simplify_eq; by left|].
    rewrite lookup_insert_ne in H by done. right. by left. }
  assert (∀ i', i' ≠ i → dNodes ds' !! i' = dNodes ds !! i') as Hnd by (intros; by apply lookup_insert_ne).
  assert (∀ n', n' ≠ n → dLive ds' !! n' = dLive ds !! n') as Hlv by (intros; by apply lookup_insert_ne).
  destruct Hok as [Ht Hinj Hl Hs Hm Ho Hf]. split.
  - intros n' i' [[-> ->]|H]%Hnm; [exists (MkFile [] 0 true 0); apply lookup_insert_eq|]. rewrite Hnd by eauto. eauto.
  - intros n1 n2 i' [[-> ->]|H1]%Hnm [[-> E]|H2]%Hnm; [done|..|by eauto]; exfalso; [by eapply Hfresh|subst i'; by eapply Hfresh].
  - intros Hg Ha. destruct (Hl Hg Ha) as (i' & f & H1 & H2 & H3 & H4). exists i', f.
    rewrite Hlv by (intros E; congruence). split_and!; [done..| |done]. rewrite Hnd; [done|]. eapply Hfresh. by left.
  - intros i' f [[E ->]|H]%Hnm.
    + simpl. rewrite lookup_insert_eq. intros [= <-]. apply saneLog_nil.
    + rewrite Hnd by eauto. eauto.
  - intros j [[E _]|H]%Hnm; [done|]. rewrite Hnd by eauto. eauto.
  - intros j H. rewrite Hlv by done. by apply Ho.
  - intros k Hk. destruct (Hf k Hk) as (j & f & H1 & H2). exists j, f. split; [done|]. rewrite Hnd; [done|].
    eapply Hfresh. by right.
Qed.

(** A change of a file that is not the marker. *)
Lemma dirOk_alter i f f' :
  dNodes ds !! i = Some f → (∀ n, named ds n i → n ≠ sealName) →
  (named ds sessionLogName i → saneLog (fData f')
     ∧ (pGone g = false → encodeLog (pAcked g) `prefix_of` take (fSynced f) (fData f) →
        encodeLog (pAcked g) `prefix_of` take (fSynced f') (fData f'))) →
  dirOk g (setNodes (<[i := f']> (dNodes ds)) ds).
Proof.
  intros Hi Hns Hlog. destruct Hok as [Ht Hinj Hl Hs Hm Ho Hf]. split; simpl; [|done| | | |done|].
  - intros n i' H. destruct (decide (i = i')) as [<-|Hd]; [rewrite lookup_insert_eq; eauto|].
    rewrite lookup_insert_ne by done. by eapply Ht.
  - intros Hg Ha. destruct (Hl Hg Ha) as (i' & x & H1 & H2 & H3 & H4).
    destruct (decide (i = i')) as [<-|Hd].
    + exists i, f'. rewrite lookup_insert_eq. split_and!; [done..|]. simplify_eq. apply Hlog; [by left|done..].
    + exists i', x. by rewrite lookup_insert_ne.
  - intros i' x H. destruct (decide (i = i')) as [<-|Hd].
    + rewrite lookup_insert_eq. intros [= <-]. by apply Hlog.
    + rewrite lookup_insert_ne by done. by apply Hs.
  - intros j H. destruct (decide (i = j)) as [<-|Hd]; [by apply Hns in H|]. rewrite lookup_insert_ne by done. by apply Hm.
  - intros n Hn. destruct (Hf n Hn) as (j & x & H1 & H2). exists j, x.
    destruct (decide (i = j)) as [<-|Hd]; [by destruct (Hns sealName); [right|]|]. by rewrite lookup_insert_ne.
Qed.

(** The removal of a file that the promise does not need. *)
Lemma dirOk_remove n :
  n ≠ sealName → (n = sessionLogName → pGone g = true) → dirOk g (setLive (delete n (dLive ds)) ds).
Proof.
  intros Hn Hlog. set (ds' := setLive _ _).
  assert (∀ n' i, named ds' n' i → named ds n' i) as Hnm.
  { intros n' i [H|H]; simpl in H; [|by right]. apply lookup_delete_Some in H as [_ H]. by left. }
  destruct Hok as [Ht Hinj Hl Hs Hm Ho Hf]. split; [by eauto|by eauto| |by eauto|by eauto| |done].
  - intros Hg Ha. destruct (Hl Hg Ha) as (i & f & H1 & H2). exists i, f. simpl. rewrite lookup_delete_ne; [done|].
    intros ->. by rewrite Hlog in Hg.
  - intros j Hj. simpl. rewrite lookup_delete_ne by done. by apply Ho.
Qed.

(** A new file takes its place. *)
Lemma dirOk_rename a b i f :
  dLive ds !! a = Some i → (∀ n, dStable ds !! n ≠ Some i) → dNodes ds !! i = Some f → a ≠ sealName → a ≠ sessionLogName →
  (b = sealName → dLive ds !! sealName = None ∧ ∃ n, fData f = FormatUint n ∧ fDirty f = false ∧ 0 ≤ n ≤ maxUint64
     ∧ (pGone g = false → zlen (pAcked g) ≤ n)) →
  (b = sessionLogName → saneLog (fData f) ∧ (pGone g = true ∨ pAcked g = [])) →
  dirOk g (setLive (<[b := i]> (delete a (dLive ds))) ds).
Proof.
  intros Ha Hst Hi Has Hal Hb Hbl. set (ds' := setLive _ _).
  assert (∀ n' i', named ds' n' i' → n' = b ∧ i' = i ∨ named ds n' i' ∧ i' ≠ i) as Hnm.
  { intros n' i' [H|H]; simpl in H.
    - destruct (decide (b = n')) as [<-|Hd]; [rewrite lookup_insert_eq in H; simplify_eq; by left|].
      rewrite lookup_insert_ne in H by done. apply lookup_delete_Some in H as [Hd' H]. right. split; [by left|].
      intros ->. apply Hd'. apply (do_inj _ _ Hok _ _ i); by left.
    - right. split; [by right|]. intros ->. by apply Hst in H. }
  assert (∀ n, n ≠ b → n ≠ a → dLive ds' !! n = dLive ds !! n) as Hlv.
  { intros n H1 H2. simpl. rewrite lookup_insert_ne, lookup_delete_ne by done. done. }
  destruct Hok as [Ht Hinj Hl Hs Hm Ho Hf]. split.
  - intros n i' [[-> ->]|[H _]]%Hnm; simpl; [by rewrite Hi; eauto|by eauto].
  - intros n1 n2 i' [[-> ->]|[H1 N1]]%Hnm [[-> E]|[H2 N2]]%Hnm; [done..|by eauto].
  - intros Hg Hne. destruct (Hl Hg Hne) as (i' & f' & H1 & H2). exists i', f'. rewrite Hlv; [done| |done].
    intros <-. destruct (Hbl eq_refl) as [_ [?|?]]; congruence.
  - intros i' f' [[E ->]|[H _]]%Hnm; [|by eauto]. simpl. intros Hf'. simplify_eq. apply Hbl; done.
  - intros j [[E ->]|[H _]]%Hnm; [|by eauto]. symmetry in E. destruct (Hb E) as (_ & n & ?). exists n, f. tauto.
  - intros j Hj. destruct (decide (b = sealName)) as [E|Hd]; [|rewrite Hlv by done; by apply Ho].
    destruct (Hb E) as [Hno _]. apply Ho in Hj. congruence.
  - done.
Qed.
End dir.

(** ** The promise of a session *)

(** The directory is there and its entry is durable. *)
Definition keptAt (d : disk) (p : path) : Prop := ∃ ds, d !! p = Some ds ∧ dHere ds = true ∧ dKept ds = true.

Definition claims (g : promise) : Prop := pGone g = false ∧ pAcked g ≠ [] ∨ pFinal g ≠ None.

(** The log has the payloads. *)
Definition holds (ds : dirState) (v : list bytes) : Prop :=
  v = [] ∨ ∃ i f, dLive ds !! sessionLogName = Some i ∧ dNodes ds !! i = Some f ∧ encodeLog v `prefix_of` fData f.

Section session.
Context `{Digest} (session : string).
Abbreviation D := (sessionDir session).

(** The files of the older layout are whole. *)
Definition legacyOk (d : disk) : Prop := ∀ ds i f,
  d !! (D ++ ["fragments"]) = Some ds → dNodes ds !! i = Some f → zlen (fData f) + 12 < 2 ^ 32 ∧ fDirty f = false.

Record diskOk (g : promise) (d : disk) : Prop := {
  dk_root : keptAt d [];
  dk_sessions : ∀ ds, d !! sessionsDir = Some ds → dHere ds = true;
  dk_dir : ∀ ds, d !! D = Some ds → dHere ds = true ∧ dirOk g ds;
  dk_claims : claims g → keptAt d sessionsDir ∧ keptAt d D;
  dk_small : Forall smallPayload (pAcked g);
  dk_legacy : legacyOk d;
  dk_marker : d !! (D ++ [sealName]) = None;
}.

(** What the memory knows of the session. *)
Record memOk (g : promise) (s : Spool) (ds : dirState) : Prop := {
  mo_loaded : slLoaded (sessionOf D s) = true → ∃ v,
    slLast (sessionOf D s) = zlen v ∧ slSize (sessionOf D s) = zlen (encodeLog v) ∧ Forall smallPayload v
    ∧ (pGone g = false → pAcked g `prefix_of` v) ∧ (dLive ds !! sealName = None → holds ds v);
  mo_synced : D ∈ spSynced s → is_Some (dLive ds !! sealName)
    ∨ slLoaded (sessionOf D s) = true
      ∧ (∃ i, dLive ds !! sessionLogName = Some i ∧ dStable ds !! sessionLogName = Some i);
  mo_tail : ∀ c, slTail (sessionOf D s) = Some c →
    is_Some (dLive ds !! sealName)
    ∧ ∀ i f, dLive ds !! sessionLogName = Some i → dNodes ds !! i = Some f →
      ∃ w, Forall okPayload w ∧ zlen w = tcAfter c ∧ tcOffset c = zlen (encodeLog w) ∧ encodeLog w `prefix_of` fData f;
}.

Definition idle (s : Spool) : Prop :=
  slLoaded (sessionOf D s) = false ∧ (D ∉ spSynced s) ∧ slTail (sessionOf D s) = None.

Record holdsUp (g : promise) (s : Spool) (d : disk) : Prop := {
  hu_disk : diskOk g d;
  hu_made : ∀ p, p ∈ spMade s → p = sessionsDir ∨ p = D → keptAt d p;
  hu_mem : match d !! D with Some ds => memOk g s ds | None => idle s end;
}.

Lemma sessionsDir_ne : sessionsDir ≠ D.
Proof. done. Qed.

Lemma idle_memOk g s ds : idle s → memOk g s ds.
Proof. intros (H1 & H2 & H3). split; [by rewrite H1|done|by rewrite H3]. Qed.

(** *** Restarts and crashes *)

Lemma idle_new : idle NewSpool.
Proof. done. Qed.

Lemma holdsUp_restart g d : diskOk g d → holdsUp g NewSpool d.
Proof.
  intros Hd. split; [done|by intros p ?%elem_of_empty|]. destruct (d !! D); [|apply idle_new]. apply idle_memOk, idle_new.
Qed.

(** What a crash leaves in a log can be counted. *)
Definition saneCrash (c : crashChoice) (d : disk) : Prop :=
  ∀ ds i f, d !! D = Some ds → dNodes ds !! i = Some f → named ds sessionLogName i →
    saneLog (fData (rebootFile (junkOf c D i) f)).

Lemma lookup_rebootNames keep live stable n :
  rebootNames keep live stable !! n = if keep n then live !! n else stable !! n.
Proof.
  unfold rebootNames. rewrite lookup_union, !map_lookup_imap.
  destruct (keep n), (live !! n), (stable !! n); done.
Qed.

Lemma rebootDir_named c ds n i : named (rebootDir c D ds) n i → named ds n i.
Proof.
  intros [Hn|Hn]; simpl in Hn; rewrite lookup_rebootNames in Hn; destruct (keepName c D n); first [by left|by right].
Qed.

Lemma dirOk_reboot g c d ds : saneCrash c d → d !! D = Some ds → dirOk g ds → dirOk g (rebootDir c D ds).
Proof.
  intros Hsane Hd [Ht Hinj Hl Hs Hm Ho Hf]. pose proof (rebootDir_named c ds) as Hnm.
  assert (∀ i f, dNodes ds !! i = Some f →
    dNodes (rebootDir c D ds) !! i = Some (rebootFile (junkOf c D i) f)) as Hnd.
  { intros i f Hi. simpl. rewrite map_lookup_imap, Hi. done. }
  assert (∀ n i, dLive ds !! n = Some i → dStable ds !! n = Some i →
    rebootNames (keepName c D) (dLive ds) (dStable ds) !! n = Some i) as Hsame.
  { intros n i H1 H2. rewrite lookup_rebootNames. by destruct (keepName c D n). }
  split.
  - intros n i Hn%Hnm. destruct (Ht n i Hn) as [f Hi]. rewrite (Hnd _ _ Hi). eauto.
  - eauto.
  - intros Hg Ha. destruct (Hl Hg Ha) as (i & f & H1 & H2 & H3 & H4). exists i, (rebootFile (junkOf c D i) f).
    split_and!; [by apply Hsame..|by apply Hnd|]. unfold rebootFile. cbn [fSynced fData].
    rewrite take_ge by done. destruct (fDirty f); [by apply prefix_app_r|]. etransitivity; [exact H4|]. by eexists; rewrite take_drop.
  - intros i f Hn%Hnm Hi. destruct (Ht _ _ Hn) as [f' Hf']. rewrite (Hnd _ _ Hf') in Hi. simplify_eq. by eapply Hsane.
  - intros j Hn%Hnm. destruct (Hm j Hn) as (n & f & H1 & H2 & H3 & H4). exists n, (rebootFile (junkOf c D j) f).
    split; [by apply Hnd|]. unfold rebootFile. rewrite H3. split_and!; naive_solver.
  - done.
  - intros n Hn. destruct (Hf n Hn) as (j & f & H1 & H2 & H3). exists j, (rebootFile (junkOf c D j) f).
    split; [by apply Hsame; [apply Ho|]|]. split; [by apply Hnd|]. unfold rebootFile.
    destruct (Hm j) as (n' & f' & H1' & _ & H3' & _); [by right|]. simplify_eq. by rewrite H3'.
Qed.

Lemma keptAt_present c d p : keptAt d p → present c d p = true.
Proof. intros (ds & Hd & Hh & Hk). unfold present. rewrite Hd. by destruct (keepDir c p). Qed.

Lemma keptAt_reboot c d p : Forall (keptAt d) (prefixes p) → keptAt (reboot c d) p.
Proof.
  intros Hp. assert (survives c d p = true) as Hs.
  { unfold survives. apply Is_true_true, forallb_True, Forall_forall. intros q Hq. rewrite keptAt_present; [done|].
    by eapply Forall_forall in Hp. }
  assert (keptAt d p) as (ds & Hd & _).
  { eapply Forall_forall; [exact Hp|]. unfold prefixes. apply list_elem_of_fmap. exists (length p).
    split; [by rewrite take_ge|]. apply elem_of_seq. lia. }
  exists (rebootDir c p ds). split; [|done]. unfold reboot. rewrite map_lookup_imap, Hd. simpl. by rewrite Hs.
Qed.

Lemma diskOk_reboot g c d : saneCrash c d → diskOk g d → diskOk g (reboot c d).
Proof.
  intros Hsane [Hr Hs Hd Hc Hsm Hleg Hmk]. assert (∀ p ds, reboot c d !! p = Some ds → ∃ ds0, d !! p = Some ds0 ∧ ds = rebootDir c p ds0) as Hlk.
  { intros p ds. unfold reboot. rewrite map_lookup_imap. destruct (d !! p) as [ds0|]; [|done]. simpl.
    destruct (survives c d p); [|done]. intros [= <-]. eauto. }
  split; [|by intros ds (ds0 & _ & ->)%Hlk| | |done| |].
  - apply keptAt_reboot. by repeat constructor.
  - intros ds (ds0 & Hd0 & ->)%Hlk. split; [done|]. destruct (Hd ds0 Hd0) as [_ ?]. by eapply dirOk_reboot.
  - intros [Hks Hkd]%Hc. split; apply keptAt_reboot; by repeat constructor.
  - intros ds i f (ds0 & Hd0 & ->)%Hlk Hi. simpl in Hi. rewrite map_lookup_imap in Hi.
    destruct (dNodes ds0 !! i) as [f0|] eqn:E; [|done]. destruct (Hleg ds0 i f0 Hd0 E) as [Hz Hdirty].
    simpl in Hi. simplify_eq. unfold rebootFile. by rewrite Hdirty.
  - unfold reboot. by rewrite map_lookup_imap, Hmk.
Qed.

Lemma holdsUp_crash g c d : saneCrash c d → diskOk g d → holdsUp g NewSpool (reboot c d).
Proof. intros Hs Hd. by apply holdsUp_restart, diskOk_reboot. Qed.

(** *** Steps that keep the promise *)

Lemma keptAt_insert d p q ds :
  keptAt d q → (p = q → dHere ds = true ∧ dKept ds = true) → keptAt (<[p := ds]> d) q.
Proof.
  intros (x & Hx & Hk) Hds. destruct (decide (p = q)) as [->|Hne].
  - exists ds. rewrite lookup_insert_eq. naive_solver.
  - exists x. by rewrite lookup_insert_ne.
Qed.

(** The directories that the promise is about. *)
Definition ours (p : path) : Prop := p = [] ∨ p = sessionsDir ∨ p = D ∨ p = D ++ ["fragments"] ∨ p = D ++ [sealName].

Lemma holdsUp_other g s d p ds : holdsUp g s d → ¬ ours p → holdsUp g s (<[p := ds]> d).
Proof.
  unfold ours. intros [[Hr Hs Hd Hc Hsm Hleg Hmk] Hm Hmem] Hp.
  assert (∀ q, ours q → <[p := ds]> d !! q = d !! q) as Hlk.
  { intros q Hq. apply lookup_insert_ne. by intros ->. }
  assert (∀ q, ours q → keptAt d q → keptAt (<[p := ds]> d) q) as Hk.
  { intros q Hq Hk. apply keptAt_insert; [done|]. by intros ->. }
  unfold ours in *. split; [split|..].
  - apply Hk; [tauto|done].
  - rewrite Hlk by tauto. done.
  - rewrite Hlk by tauto. done.
  - intros [? ?]%Hc. split; apply Hk; tauto.
  - done.
  - unfold legacyOk. rewrite Hlk by tauto. done.
  - rewrite Hlk by tauto. done.
  - intros q Hq Hq'. apply Hk; [tauto|by apply Hm].
  - by rewrite Hlk by tauto.
Qed.

Lemma holdsUp_mkdir g s d p : holdsUp g s d → dirAt d p = None → p ≠ D ++ [sealName] → holdsUp g s (<[p := newDir]> d).
Proof.
  intros [[Hr Hs Hd Hc Hsm Hleg Hmk] Hm Hmem] Hp Hpm.
  assert (∀ q, keptAt d q → q ≠ p) as Hne. { intros q (x & Hx & Hh & _) ->. unfold dirAt in Hp. rewrite Hx in Hp. simpl in Hp. by rewrite Hh in Hp. }
  assert (∀ q, keptAt d q → keptAt (<[p := newDir]> d) q) as Hk.
  { intros q Hq. apply keptAt_insert; [done|]. intros ->. by apply Hne in Hq. }
  assert (p = D → d !! D = None) as HD.
  { intros ->. unfold dirAt in Hp. destruct (d !! D) as [x|] eqn:E; [|done]. simpl in Hp. destruct (Hd x eq_refl) as [Hh _]. by rewrite Hh in Hp. }
  split; [split|..].
  - by apply Hk.
  - intros ds. rewrite lookup_insert. case_decide; [by intros [= <-]|apply Hs].
  - intros ds. rewrite lookup_insert. case_decide as E; [|apply Hd]. intros [= <-]. split; [done|].
    assert (¬ claims g) as Hnc. { intros [_ (x & Hx & _)]%Hc. rewrite HD in Hx by done. done. }
    unfold claims in Hnc. split.
    + by intros n i [?|?].
    + by intros n n' i [?|?].
    + intros Hg Ha. destruct Hnc. by left.
    + by intros i f [?|?].
    + by intros j [?|?].
    + done.
    + intros n Hn. destruct Hnc. right. by rewrite Hn.
  - intros [? ?]%Hc. by split; apply Hk.
  - done.
  - intros ds i f. rewrite lookup_insert. case_decide; [by intros [= <-]|apply Hleg].
  - by rewrite lookup_insert_ne.
  - intros q Hq Hq'. apply Hk. by apply Hm.
  - rewrite lookup_insert. case_decide as E; [|done]. apply idle_memOk. by rewrite HD in Hmem.
Qed.

Definition syncedState (dir p : path) (ds : dirState) : dirState :=
  let ds := if decide (p = dir) then setStable (dLive ds) ds else ds in
  if decide (Dir p = dir ∧ p ≠ []) then MkDirState (dNodes ds) (dLive ds) (dStable ds) (dHere ds) (dHere ds) else ds.

Lemma lookup_syncDirOn dir d p :
  is_Some (dirAt d dir) → (syncDirOn dir d).2 !! p = syncedState dir p <$> d !! p.
Proof. intros [x Hx]. unfold syncDirOn. rewrite Hx. simpl. rewrite map_lookup_imap. by destruct (d !! p). Qed.

Lemma syncedState_here dir p ds : dHere (syncedState dir p ds) = dHere ds.
Proof. unfold syncedState. by repeat case_decide. Qed.

Lemma syncedState_nodes dir p ds : dNodes (syncedState dir p ds) = dNodes ds ∧ dLive (syncedState dir p ds) = dLive ds.
Proof. unfold syncedState. by repeat case_decide. Qed.

Lemma keptAt_sync dir d q : is_Some (dirAt d dir) → keptAt d q → keptAt (syncDirOn dir d).2 q.
Proof.
  intros Hdir (ds & Hds & Hh & Hk). exists (syncedState dir q ds). rewrite lookup_syncDirOn, Hds by done.
  split; [done|]. split; [by rewrite syncedState_here|]. unfold syncedState. repeat case_decide; done.
Qed.

(** After the sync of a directory, its directories are durable. *)
Lemma sync_keeps dir d q :
  is_Some (dirAt d dir) → is_Some (dirAt d q) → Dir q = dir → q ≠ [] → keptAt (syncDirOn dir d).2 q.
Proof.
  intros Hdir [ds Hds] Hq Hne. unfold dirAt in Hds. destruct (d !! q) as [x|] eqn:E; [|done]. simpl in Hds.
  destruct (dHere x) eqn:Hh; [|done]. simplify_eq.
  exists (syncedState (Dir q) q ds). rewrite lookup_syncDirOn, E by done. split; [done|].
  split; [by rewrite syncedState_here|]. unfold syncedState. rewrite (decide_True (P := Dir q = Dir q ∧ q ≠ [])) by done.
  simpl. by case_decide.
Qed.

Lemma dirOk_synced g dir ds : dirOk g ds → dirOk g (syncedState dir D ds).
Proof.
  intros Hok. unfold syncedState. destruct (decide (D = dir)).
  - apply dirOk_sync in Hok. case_decide; [by apply dirOk_here|done].
  - case_decide; [by apply dirOk_here|done].
Qed.

Lemma memOk_synced g s dir ds : memOk g s ds → memOk g s (syncedState dir D ds).
Proof.
  destruct (syncedState_nodes dir D ds) as [En El]. intros [H1 H2 H3]. split; unfold holds in *; rewrite ?En, ?El in *; [done| |done].
  intros [?|(Hl & i & Hi & Hst)]%H2; [by left|]. right. split; [done|]. exists i. split; [done|].
  unfold syncedState. repeat case_decide; done.
Qed.

Lemma holdsUp_syncDir g s d dir : holdsUp g s d → holdsUp g s (syncDirOn dir d).2.
Proof.
  intros Hup. destruct (dirAt d dir) as [x|] eqn:Edir; [|unfold syncDirOn; by rewrite Edir].
  assert (is_Some (dirAt d dir)) as Hdir by eauto. pose proof (λ p, lookup_syncDirOn dir d p Hdir) as Hlk.
  destruct Hup as [[Hr Hs Hd Hc Hsm Hleg Hmk] Hm Hmem]. split; [split|..].
  - by apply keptAt_sync.
  - intros ds. rewrite Hlk. intros (y & Hy & ->)%fmap_Some. rewrite syncedState_here. by apply Hs.
  - intros ds. rewrite Hlk. intros (y & Hy & ->)%fmap_Some. rewrite syncedState_here.
    destruct (Hd y Hy). split; [done|]. by apply dirOk_synced.
  - intros [? ?]%Hc. by split; apply keptAt_sync.
  - done.
  - intros ds i f. rewrite Hlk. intros (y & Hy & ->)%fmap_Some. destruct (syncedState_nodes dir (D ++ ["fragments"]) y) as [-> _].
    by apply Hleg.
  - by rewrite Hlk, Hmk.
  - intros p Hp Hp'. apply keptAt_sync; [done|]. by apply Hm.
  - rewrite Hlk. destruct (d !! D) as [ds|]; [|done]. by apply memOk_synced.
Qed.

(** A change in the directory of the session. *)
Lemma holdsUp_dir g s d ds ds' :
  holdsUp g s d → d !! D = Some ds → dHere ds' = dHere ds → dKept ds' = dKept ds →
  dirOk g ds' → memOk g s ds' → holdsUp g s (<[D := ds']> d).
Proof.
  intros [[Hr Hs Hd Hc Hsm Hleg Hmk] Hm Hmem] Hds Hh Hk Hok Hmo. destruct (Hd ds Hds) as [Hhere _].
  assert (∀ q, keptAt d q → keptAt (<[D := ds']> d) q) as Hkeep.
  { intros q Hq. apply keptAt_insert; [done|]. intros <-. destruct Hq as (x & Hx & H1 & H2). simplify_eq.
    by rewrite Hh, Hk. }
  split; [split|..].
  - by apply Hkeep.
  - intros x. rewrite lookup_insert_ne by done. apply Hs.
  - intros x. rewrite lookup_insert_eq. intros [= <-]. by rewrite Hh.
  - intros [? ?]%Hc. by split; apply Hkeep.
  - done.
  - intros x i f. rewrite lookup_insert_ne by done. apply Hleg.
  - by rewrite lookup_insert_ne by done.
  - intros p Hp Hp'. apply Hkeep. by apply Hm.
  - by rewrite lookup_insert_eq.
Qed.
End session.

(** ** Specifications *)

Section specs.
Context `{Digest} (session : string) (g : promise).
Abbreviation D := (sessionDir session).
Abbreviation up := (holdsUp session g).
Implicit Types P : Spool → disk → Prop.

(** From [P], the program ends in [R] when it succeeds, and keeps the promise when it
    fails or the machine dies. *)
Definition spec {E A : Type} (P : Spool → disk → Prop) (p : io Spool (result E A)) (R : A → Spool → disk → Prop) : Prop :=
  triple P p (λ r s d, match r with Ok a => R a s d | Err _ => up s d end) (diskOk session g).

Lemma spec_ok {E A : Type} P (a : A) (R : A → Spool → disk → Prop) : (∀ s d, P s d → R a s d) → spec (E := E) P (mret (Ok a)) R.
Proof. intros Hr. by apply triple_ret. Qed.

Lemma spec_err {E A : Type} P (e : E) (R : A → Spool → disk → Prop) : (∀ s d, P s d → up s d) → spec P (mret (Err e)) R.
Proof. intros Hr. by apply triple_ret. Qed.

Lemma spec_try {E A B : Type} P (p : io Spool (result E A)) (k : A → io Spool (result E B))
    (R : A → Spool → disk → Prop) (Q : B → Spool → disk → Prop) :
  spec P p R → (∀ a, spec (R a) (k a) Q) → spec P (tryIO p k) Q.
Proof. intros Hp Hk. eapply triple_try; [exact Hp|done|exact Hk]. Qed.

Lemma spec_pre {E A : Type} P P' (p : io Spool (result E A)) (R : A → Spool → disk → Prop) : spec P' p R → (∀ s d, P s d → P' s d) → spec P p R.
Proof. intros Hp Hpre. by eapply triple_pre. Qed.

Lemma spec_post {E A : Type} P (p : io Spool (result E A)) (R R' : A → Spool → disk → Prop) :
  spec P p R' → (∀ a s d, R' a s d → R a s d) → spec P p R.
Proof. intros Hp Hpost. eapply triple_mono; [exact Hp|done| |done]. intros [a|e]; naive_solver. Qed.

Lemma spec_sys {A : Type} P (p : io Spool (result errno A)) (R : A → Spool → disk → Prop) : spec P p R → spec P (sys p) R.
Proof. intros Hp. eapply triple_bind; [exact Hp|]. intros [a|e]; by apply triple_ret. Qed.

Lemma spec_bind {E A B : Type} P (p : io Spool A) (k : A → io Spool (result E B)) (R : A → Spool → disk → Prop)
    (Q : B → Spool → disk → Prop) :
  triple P p R (diskOk session g) → (∀ a, spec (R a) (k a) Q) → spec P (p ≫= k) Q.
Proof. intros Hp Hk. by eapply triple_bind. Qed.

(** The last step: a change of the memory. *)
Lemma spec_mod {E A : Type} P (f : Spool → Spool) (a : A) (R : A → Spool → disk → Prop) :
  (∀ s d, P s d → R a (f s) d) → spec (E := E) P (modMem f ≫= λ _, mret (Ok a)) R.
Proof. intros Hr s d fs HP. by apply Hr. Qed.

Lemma spec_call {A : Type} P (f : disk → result errno A * disk) (R : A → Spool → disk → Prop) :
  (∀ s d, P s d → up s d ∧ up s (f d).2 ∧ ∀ a, (f d).1 = Ok a → R a s (f d).2) → spec P (osCall f) R.
Proof.
  intros Hf. apply triple_osCall. intros s d HP. destruct (Hf s d HP) as (H1 & H2 & H3).
  split; [destruct (f d).1; auto|]. split_and!; [done|done|apply H1|apply H2].
Qed.

(** A call whose errors the program looks at. *)
Lemma call_cases {A : Type} P (f : disk → result errno A * disk) :
  (∀ s d, P s d → up s d ∧ up s (f d).2) →
  triple P (osCall f) (λ r s d, up s d ∧ (P s d ∧ r = Err EIO ∨ (∃ d0, P s d0 ∧ d = (f d0).2 ∧ (r = (f d0).1 ∨ r = Err EIO))))
    (diskOk session g).
Proof.
  intros Hf. apply triple_osCall. intros s d HP. destruct (Hf s d HP) as [H1 H2].
  split; [eauto 10|]. split; [auto|]. split; [eauto 10|]. split; [apply H1|apply H2].
Qed.

Lemma spec_read {A : Type} P (f : disk → result errno A) (R : A → Spool → disk → Prop) :
  (∀ s d, P s d → up s d ∧ ∀ a, f d = Ok a → R a s d) → spec P (osRead f) R.
Proof.
  intros Hf. apply triple_osRead. intros s d HP. destruct (Hf s d HP) as [H1 H2].
  split; [destruct (f d); auto|]. split; [done|apply H1].
Qed.

Lemma read_cases {A : Type} P (f : disk → result errno A) :
  (∀ s d, P s d → up s d) →
  triple P (osRead f) (λ r s d, P s d ∧ (r = f d ∨ r = Err EIO)) (diskOk session g).
Proof. intros Hf. apply triple_osRead. intros s d HP. split; [auto|]. split; [auto|]. by apply Hf in HP as [? _ _]. Qed.

(** The session has no marker that the follower sees. *)
Definition unsealed (d : disk) : Prop := ∀ ds, d !! D = Some ds → dLive ds !! sealName = None.

(** The promise, the durable directories [ks], and no marker when [u]. *)
Definition upK (u : bool) (ks : list path) (s : Spool) (d : disk) : Prop :=
  up s d ∧ Forall (keptAt d) ks ∧ (u = true → unsealed d).

Lemma upK_mkdir u ks s d p : upK u ks s d → dirAt d p = None → p ≠ D ++ [sealName] → upK u ks s (<[p := newDir]> d).
Proof.
  intros (Hup & Hks & Hu) Hp Hpm. split; [by apply holdsUp_mkdir|]. split.
  - eapply Forall_impl; [exact Hks|]. intros q Hq. apply keptAt_insert; [done|]. intros <-.
    destruct Hq as (x & Hx & Hh & _). unfold dirAt in Hp. rewrite Hx in Hp. simpl in Hp. by rewrite Hh in Hp.
  - intros Hut ds. rewrite lookup_insert. case_decide; [by intros [= <-]|by apply Hu].
Qed.

Lemma upK_syncDir u ks s d dir : upK u ks s d → upK u ks s (syncDirOn dir d).2.
Proof.
  intros (Hup & Hks & Hu). split; [by apply holdsUp_syncDir|].
  destruct (dirAt d dir) as [x|] eqn:E; [|unfold syncDirOn; by rewrite E].
  assert (is_Some (dirAt d dir)) as Hdir by eauto. split.
  - eapply Forall_impl; [exact Hks|]. intros q Hq. by apply keptAt_sync.
  - intros Hut ds. rewrite lookup_syncDirOn by done. intros (y & Hy & ->)%fmap_Some.
    destruct (syncedState_nodes dir D y) as [_ ->]. by apply Hu.
Qed.

Lemma mkdirOn_cases p d :
  mkdirOn p d = (Err EEXIST, d) ∨ mkdirOn p d = (Err ENOENT, d) ∨ mkdirOn p d = (Ok tt, <[p := newDir]> d) ∧ dirAt d p = None.
Proof.
  unfold mkdirOn, isThere. case_bool_decide as Hb; [by left|]. destruct (dirAt d (Dir p)); [|by right; left].
  right. right. split; [done|]. destruct (dirAt d p) eqn:E; [|done]. destruct Hb. right. eauto.
Qed.

(** A change of the memory that does not touch the session. *)
Lemma holdsUp_mem s s' d :
  up s d → sessionOf D s' = sessionOf D s → (D ∈ spSynced s' → D ∈ spSynced s) →
  (∀ p, p ∈ spMade s' → p = sessionsDir ∨ p = D → p ∈ spMade s ∨ keptAt d p) → up s' d.
Proof.
  intros [Hd Hm Hmem] E Hsy Hmade. split; [done| |].
  - intros p Hp Hp'. destruct (Hmade p Hp Hp'); [by apply Hm|done].
  - destruct (d !! D) as [ds|]; [destruct Hmem as [H1 H2 H3]|destruct Hmem as (H1 & H2 & H3)].
    + split; rewrite E; auto.
    + split_and!; rewrite ?E; auto.
Qed.

Lemma holdsUp_addMade s d p :
  up s d → (p = sessionsDir ∨ p = D → keptAt d p) → up (addMade p s) d.
Proof.
  intros Hup Hp. eapply holdsUp_mem; [exact Hup|done..|]. intros q [->%elem_of_singleton|Hq]%elem_of_union Hq'; auto.
Qed.

Lemma mkdirDurable_spec u ks p :
  p ≠ [] → p ≠ D ++ [sealName] → spec (upK u ks) (mkdirDurable p (Dir p)) (λ _ s d, upK u ks s d ∧ (p = sessionsDir ∨ p = D → keptAt d p)).
Proof.
  intros Hne Hpm. unfold mkdirDurable. eapply spec_bind.
  { apply (triple_getMem _ (λ a s d, upK u ks s d ∧ a = s)). by split. }
  intros s0. case_decide as Hmade.
  { apply spec_ok. intros s d [Hk ->]. split; [done|]. intros Hp. destruct Hk as [[_ Hm _] _]. by apply Hm. }
  eapply spec_bind.
  { eapply (triple_pre _ (upK u ks)); [|by intros ?? []].
    apply (triple_osCall _ _ (λ _, upK u ks)). intros s d Hk. assert (upK u ks s (mkdirOn p d).2) as Hk'.
    { destruct (mkdirOn_cases p d) as [->|[->|[-> Hp]]]; [done..|]. by apply upK_mkdir. }
    split; [done|]. split; [done|]. split; [done|]. split; [apply Hk|apply Hk']. }
  intros r. assert (spec (upK u ks) (info ←? sys (osStat p);
      match info with
      | Some _ => mret (Err ENotADirectory)
      | None => _ ←? syncDir (Dir p); _ ← modMem (addMade p); mret (Ok tt)
      end) (λ _ s d, upK u ks s d ∧ (p = sessionsDir ∨ p = D → keptAt d p))) as Hrest.
  { eapply spec_try.
    { apply spec_sys. apply (spec_read _ _ (λ a s d, upK u ks s d ∧ (a = None → is_Some (dirAt d p)))).
      intros s d Hk. split; [apply Hk|]. intros a Ha. split; [done|]. intros ->. unfold statOn in Ha.
      destruct (fileAt d (Dir p) (base p)); [done|]. by case_decide. }
    intros [f|]; [apply spec_err; intros s d [Hk _]; apply Hk|].
    eapply spec_try.
    { apply spec_sys. apply (spec_call _ _ (λ _ s d, upK u ks s d ∧ (p = sessionsDir ∨ p = D → keptAt d p))).
      intros s d [Hk Hp]. split; [apply Hk|]. split; [by eapply proj1, upK_syncDir|]. intros a Ha. split; [by apply upK_syncDir|].
      intros _. unfold syncDirOn in Ha. destruct (dirAt d (Dir p)) as [x|] eqn:E; [|done]. by apply sync_keeps; eauto. }
    intros []. apply spec_mod. intros s d [(Hk & Hks & Hu) Hp]. split; [|done]. split; [by apply holdsUp_addMade|by split]. }
  destruct r as [[]|[]]; first [exact Hrest | by apply spec_err; intros s d Hk; apply Hk].
Qed.

Lemma ensure_spec u : spec (upK u []) (ensureSessionDir D) (λ _, upK u [sessionsDir; D]).
Proof.
  eapply spec_try; [by apply (mkdirDurable_spec u [] sessionsDir)|]. intros [].
  eapply spec_pre; [eapply spec_post; [by apply (mkdirDurable_spec u [sessionsDir] D)|]|].
  - intros _ s d [(Hup & Hks & Hu) Hk]. split; [done|]. split; [|done]. constructor; [by inversion_clear Hks|].
    constructor; [|done]. apply Hk. by right.
  - intros s d [(Hup & _ & Hu) Hk]. split; [done|]. split; [|done]. constructor; [|done]. apply Hk. by left.
Qed.

(** *** Files of the session *)

Lemma file_some d n i f :
  fileAt d D n = Some (i, f) → ∃ ds, d !! D = Some ds ∧ dHere ds = true ∧ dLive ds !! n = Some i ∧ dNodes ds !! i = Some f.
Proof.
  unfold fileAt, dirAt. destruct (d !! D) as [ds|]; [|done]. simpl. destruct (dHere ds) eqn:Hh; [|done]. simpl.
  intros Hn%nodeIn_Some. exists ds. tauto.
Qed.

Lemma file_none d n ds : diskOk session g d → fileAt d D n = None → d !! D = Some ds → dLive ds !! n = None.
Proof.
  intros Hd Hf Hds. destruct (dk_dir _ _ _ Hd ds Hds) as [Hh Hok]. unfold fileAt, dirAt in Hf. rewrite Hds in Hf. simpl in Hf.
  rewrite Hh in Hf. simpl in Hf. by apply (nodeIn_None g).
Qed.

Lemma upK_dir u ks s d ds ds' :
  upK u ks s d → d !! D = Some ds → dHere ds' = dHere ds → dKept ds' = dKept ds →
  dirOk g ds' → memOk session g s ds' → (u = true → dLive ds' !! sealName = None) → upK u ks s (<[D := ds']> d).
Proof.
  intros (Hup & Hks & Hu) Hds Hh Hk Hok Hmo Hs. split; [by eapply holdsUp_dir|]. split.
  - eapply Forall_impl; [exact Hks|]. intros q Hq. apply keptAt_insert; [done|]. intros <-.
    destruct Hq as (x & Hx & H1 & H2). simplify_eq. by rewrite Hh, Hk.
  - intros Hut x. rewrite lookup_insert_eq. intros [= <-]. by apply Hs.
Qed.

Lemma upK_state u ks s d ds : upK u ks s d → d !! D = Some ds →
  dHere ds = true ∧ dirOk g ds ∧ memOk session g s ds ∧ (u = true → dLive ds !! sealName = None).
Proof.
  intros ([Hd _ Hmem] & _ & Hu) Hds. rewrite Hds in Hmem. destruct (dk_dir _ _ _ Hd ds Hds). split_and!; try done.
  intros Hut. by apply Hu.
Qed.

(** The memory does not look at other files. *)
Lemma memOk_same s ds ds' :
  memOk session g s ds →
  (∀ n, n = sealName ∨ n = sessionLogName → dLive ds' !! n = dLive ds !! n ∧ dStable ds' !! n = dStable ds !! n) →
  (∀ i, dLive ds !! sessionLogName = Some i → dNodes ds' !! i = dNodes ds !! i) → memOk session g s ds'.
Proof.
  intros [H1 H2 H3] Hn Hnd. destruct (Hn sealName) as [Es _]; [by left|]. destruct (Hn sessionLogName) as [El Et]; [by right|].
  split; rewrite Es.
  - intros Hl. destruct (H1 Hl) as (v & ? & ? & ? & ? & Hh). exists v. split_and!; try done. intros Hs.
    destruct (Hh Hs) as [->|(i & f & Hi & Hf & Hp)]; [by left|]. right. exists i, f. rewrite El, Hnd by done. done.
  - rewrite El, Et. done.
  - intros c Hc. destruct (H3 c Hc) as [? Hw]. split; [done|]. intros i f. rewrite El. intros Hi. rewrite Hnd by done. by apply Hw.
Qed.

(** A file beside the log and the marker, new since the last sync of the directory. *)
Definition tmpAt (n : string) (i : nat) (Φ : file → Prop) (d : disk) : Prop := ∃ ds f,
  d !! D = Some ds ∧ dLive ds !! n = Some i ∧ (∀ m, dStable ds !! m ≠ Some i) ∧ dNodes ds !! i = Some f ∧ Φ f.

Definition aside (n : string) : Prop := n ≠ sealName ∧ n ≠ sessionLogName.

Lemma tmp_aside ds n i : dirOk g ds → dLive ds !! n = Some i → aside n → ∀ m, named ds m i → m ≠ sealName ∧ m ≠ sessionLogName.
Proof. intros Hok Hn [H1 H2] m Hm. rewrite <-(do_inj _ _ Hok n m i); [done|by left|done]. Qed.

Lemma upK_remove u ks s d n : upK u ks s d → aside n → upK u ks s (removeOn (D ++ [n]) d).2.
Proof.
  intros Hk Hn. unfold removeOn. change (Dir (D ++ [n])) with D. change (base (D ++ [n])) with n.
  destruct (fileAt d D n) as [[i f]|] eqn:E; [|done]. apply file_some in E as (ds & Hds & Hh & Hi & Hf).
  destruct (upK_state _ _ _ _ _ Hk Hds) as (_ & Hok & Hmem & Hu). unfold inDir, dirAt. rewrite Hds. simpl. rewrite Hh. simpl.
  destruct Hn as [Hn1 Hn2]. eapply upK_dir; [exact Hk|exact Hds|done|done|by apply dirOk_remove| |].
  - eapply memOk_same; [exact Hmem| |done]. intros m Hm. simpl. rewrite lookup_delete_ne by (by destruct Hm as [->| ->]). done.
  - intros Hut. simpl. rewrite lookup_delete_ne by done. by apply Hu.
Qed.

(** [O_EXCL]: the file is new. *)
Lemma upK_create u ks s d n :
  upK u ks s d → aside n →
  upK u ks s (openOn true (D ++ [n]) d).2
  ∧ ∀ i, (openOn true (D ++ [n]) d).1 = Ok i → tmpAt n i (λ f, fData f = []) (openOn true (D ++ [n]) d).2.
Proof.
  intros Hk Hn. unfold openOn. case_decide; [done|]. change (Dir (D ++ [n])) with D. change (base (D ++ [n])) with n.
  unfold inDir, dirAt. destruct (d !! D) as [ds|] eqn:Hds; [|done]. simpl.
  destruct (upK_state _ _ _ _ _ Hk Hds) as (Hh & Hok & Hmem & Hu). rewrite Hh. simpl.
  destruct (nodeIn ds n) as [[j f]|] eqn:E.
  { simpl. rewrite insert_id by done. done. }
  simpl. set (i := fresh (dom (dNodes ds))).
  assert (dNodes ds !! i = None) as Hi by (apply not_elem_of_dom, is_fresh).
  assert (∀ m j, named ds m j → j ≠ i) as Hfr.
  { intros m j [x Hx]%(do_targets _ _ Hok) ->. congruence. }
  destruct Hn as [Hn1 Hn2]. split.
  - eapply upK_dir; [exact Hk|exact Hds|done|done|by apply dirOk_create| |].
    + eapply memOk_same; [exact Hmem| |].
      * intros m Hm. simpl. rewrite lookup_insert_ne by (by destruct Hm as [->| ->]). done.
      * intros j Hj. simpl. apply lookup_insert_ne. intros <-. by destruct (Hfr sessionLogName i); [left|].
    + intros Hut. simpl. rewrite lookup_insert_ne by done. by apply Hu.
  - intros _ [= <-]. eexists _, _. split; [apply lookup_insert_eq|]. simpl. split; [apply lookup_insert_eq|].
    split; [|split; [apply lookup_insert_eq|done]]. intros m Hm. by destruct (Hfr m i); [right|].
Qed.

(** A change of such a file. *)
Lemma upK_tmp u ks s d n i (Φ Ψ : file → Prop) (h : file → file) :
  upK u ks s d → aside n → tmpAt n i Φ d → (∀ f, Φ f → Ψ (h f)) →
  upK u ks s (onFile D i h d).2 ∧ tmpAt n i Ψ (onFile D i h d).2.
Proof.
  intros Hk Hn (ds & f & Hds & Hi & Hst & Hf & HΦ) Hh. unfold onFile. rewrite Hds. simpl.
  destruct (upK_state _ _ _ _ _ Hk Hds) as (_ & Hok & Hmem & Hu).
  assert (alter h i (dNodes ds) = <[i := h f]> (dNodes ds)) as ->.
  { apply map_eq. intros j. destruct (decide (i = j)) as [<-|]; [by rewrite lookup_alter_eq, lookup_insert_eq, Hf|].
    by rewrite lookup_alter_ne, lookup_insert_ne. }
  pose proof (tmp_aside ds n i Hok Hi Hn) as Hnm. split.
  - eapply upK_dir; [exact Hk|exact Hds|done|done| | |done].
    + eapply dirOk_alter; [done|exact Hf| |]; [intros m Hm; apply (proj1 (Hnm m Hm))|intros Hm; by destruct (Hnm _ Hm) as [_ []]].
    + eapply memOk_same; [exact Hmem|done|]. intros j Hj. simpl. apply lookup_insert_ne. intros <-.
      destruct (Hnm sessionLogName) as [_ Hne]; [by left|done].
  - eexists _, _. split; [apply lookup_insert_eq|]. simpl. split_and!; [done|done|apply lookup_insert_eq|by apply Hh].
Qed.

Lemma spec_sysCall {A : Type} P (f : disk → result errno A * disk) (part : nat → disk → disk)
    (R : A → Spool → disk → Prop) :
  (∀ s d, P s d → up s (f d).2 ∧ (∀ n, up s (part n d)) ∧ ∀ a, (f d).1 = Ok a → R a s (f d).2) → spec P (sysCall f part) R.
Proof.
  intros Hf. apply triple_sysCall. intros s d HP. destruct (Hf s d HP) as (H1 & H2 & H3).
  split; [destruct (f d).1; auto|]. intros n. split; apply H2.
Qed.

Lemma writeFile_end data f new : fData f = data → fData (writeFile (length data) new f) = data ++ new.
Proof.
  intros <-. unfold writeFile. cbn [fData]. rewrite take_ge, Nat.sub_diag by done. cbn [replicate app].
  rewrite drop_ge by lia. by rewrite app_nil_r.
Qed.

Lemma tmp_write (M : Spool → Prop) u ks n i old new :
  aside n →
  triple (λ s d, M s ∧ upK u ks s d ∧ tmpAt n i (λ f, fData f = old) d) (osWriteAt D i (length old) new)
    (λ r s d, M s ∧ upK u ks s d
      ∧ (r = Ok tt → tmpAt n i (λ f, fData f = old ++ new) d ∧ zlen (old ++ new) < 2 ^ 63)) (diskOk session g).
Proof.
  intros Hn. apply triple_sysCall. intros s d (HM & Hk & Ht).
  assert (∀ data, upK u ks s (writeOn D i (length old) data d).2) as Hw.
  { intros data. unfold writeOn. case_decide; [done|]. by apply (upK_tmp u ks s d n i _ (λ _, True) _ Hk Hn Ht). }
  split; [|intros k; split; [split; [done|split; [apply Hw|done]]|apply (Hw (take k new))]].
  split; [done|]. split; [apply Hw|]. unfold writeOn. case_decide; [done|]. intros _. split; [|len].
  apply (upK_tmp u ks s d n i _ (λ f, fData f = old ++ new) _ Hk Hn Ht). intros f. apply writeFile_end.
Qed.

Lemma tmp_sync (M : Spool → Prop) u ks n i data :
  aside n →
  triple (λ s d, M s ∧ upK u ks s d ∧ tmpAt n i (λ f, fData f = data) d) (osSync D i)
    (λ r s d, M s ∧ upK u ks s d ∧ (r = Ok tt → tmpAt n i (λ f, fData f = data ∧ fDirty f = false) d)) (diskOk session g).
Proof.
  intros Hn. apply triple_osCall. intros s d (HM & Hk & Ht).
  destruct (upK_tmp u ks s d n i (λ f, fData f = data) (λ f, fData f = data ∧ fDirty f = false) syncFile Hk Hn Ht) as [H1 H2]; [done|].
  split; [done|]. split; [done|]. split; [done|]. split; [apply Hk|apply H1].
Qed.

Lemma triple_andThen {A B : Type} P (r : result errno A) (p : A → io Spool (result errno B))
    (R : result errno B → Spool → disk → Prop) C :
  (∀ e, r = Err e → ∀ s d, P s d → R (Err e) s d) → (∀ a, r = Ok a → triple P (p a) R C) → triple P (andThen r p) R C.
Proof. intros He Hk. destruct r as [a|e]; [by apply Hk|]. apply triple_ret. by apply (He e). Qed.

(** The marker that the follower sees. *)
Definition markerAt (k : Z) (d : disk) : Prop := ∃ ds j f,
  d !! D = Some ds ∧ dLive ds !! sealName = Some j ∧ dNodes ds !! j = Some f ∧ fData f = FormatUint k.

(** The file takes the place of the marker, or of a log that the promise does not need. *)
Lemma upK_rename_seal ks s d i k :
  upK true ks s d → tmpAt tmpName i (λ f, fData f = FormatUint k ∧ fDirty f = false) d → 0 ≤ k ≤ maxUint64 →
  (pGone g = false → zlen (pAcked g) ≤ k) →
  upK false ks s (renameOn D tmpName sealName d).2
  ∧ ((renameOn D tmpName sealName d).1 = Ok tt → markerAt k (renameOn D tmpName sealName d).2).
Proof.
  intros Hk (ds & f & Hds & Hi & Hst & Hf & Hdata & Hdirty) Hk0 Hak. unfold renameOn.
  destruct (upK_state _ _ _ _ _ Hk Hds) as (Hh & Hok & Hmem & Hu). specialize (Hu eq_refl).
  assert (fileAt d D tmpName = Some (i, f)) as ->.
  { unfold fileAt, dirAt. rewrite Hds. simpl. rewrite Hh. simpl. by apply nodeIn_Some. }
  assert (upK false ks s d) as Hkf by (destruct Hk as (? & ? & ?); by split).
  case_decide; [done|]. unfold inDir, dirAt. rewrite Hds. simpl. rewrite Hh. simpl. split.
  - eapply upK_dir; [exact Hkf|exact Hds|done|done| | |done].
    + eapply dirOk_rename; [done|exact Hi|done|exact Hf|done|done| |done]. intros _. split; [done|]. exists k. tauto.
    + destruct Hmem as [H1 H2 H3]. split.
      * intros Hl. destruct (H1 Hl) as (v & ? & ? & ? & ? & _). exists v. split_and!; try done. simpl. by rewrite lookup_insert_eq.
      * intros _. left. simpl. by rewrite lookup_insert_eq.
      * intros c [Hs _]%H3. rewrite Hu in Hs. by destruct Hs.
  - intros _. eexists _, i, f. split; [apply lookup_insert_eq|]. simpl. split; [apply lookup_insert_eq|done].
Qed.

Lemma upK_rename_log ks s d i v :
  upK true ks s d → tmpAt migrateName i (λ f, fData f = encodeLog v ∧ fDirty f = false) d → idle session s →
  (pGone g = true ∨ pAcked g = []) → Forall smallPayload v → zlen (encodeLog v) < 2 ^ 63 →
  upK true ks s (renameOn D migrateName sessionLogName d).2
  ∧ ((renameOn D migrateName sessionLogName d).1 = Ok tt →
     ∀ ds, (renameOn D migrateName sessionLogName d).2 !! D = Some ds → holds ds v).
Proof.
  intros Hk (ds & f & Hds & Hi & Hst & Hf & Hdata & Hdirty) Hidle Hno Hsm Hz. unfold renameOn.
  destruct (upK_state _ _ _ _ _ Hk Hds) as (Hh & Hok & Hmem & Hu).
  assert (fileAt d D migrateName = Some (i, f)) as ->.
  { unfold fileAt, dirAt. rewrite Hds. simpl. rewrite Hh. simpl. by apply nodeIn_Some. }
  case_decide; [by split|]. unfold inDir, dirAt. rewrite Hds. simpl. rewrite Hh. simpl. split.
  - eapply upK_dir; [exact Hk|exact Hds|done|done| |by apply idle_memOk|].
    + eapply dirOk_rename; [done|exact Hi|done|exact Hf|done|done|done|]. intros _. split; [|done]. rewrite Hdata.
      by apply saneLog_log.
    + intros Hut. simpl. rewrite lookup_insert_ne, lookup_delete_ne by done. by apply Hu.
  - intros _ x. rewrite lookup_insert_eq. intros [= <-]. right. exists i, f. simpl. rewrite lookup_insert_eq. by rewrite Hdata.
Qed.

(** *** The state of a log is found again *)

Definition found (v : list bytes) (last size : Z) (d : disk) : Prop :=
  last = zlen v ∧ size = zlen (encodeLog v) ∧ Forall smallPayload v ∧ (pGone g = false → pAcked g `prefix_of` v)
  ∧ ∀ ds, d !! D = Some ds → holds ds v.

(** The payloads that the log must have. *)
Definition needed : list bytes := if pGone g then [] else pAcked g.

Lemma needed_ok d : diskOk session g d → Forall okPayload needed.
Proof.
  intros Hd. unfold needed. destruct (pGone g); [constructor|]. apply (Forall_impl _ _ _ (dk_small _ _ _ Hd)), small_ok.
Qed.

(** The file of the log starts with them. *)
Lemma log_needed d i f :
  diskOk session g d → fileAt d D sessionLogName = Some (i, f) →
  saneLog (fData f) ∧ encodeLog needed `prefix_of` fData f.
Proof.
  intros Hd (ds & Hds & _ & Hi & Hf)%file_some. destruct (dk_dir _ _ _ Hd ds Hds) as [_ Hok].
  split; [eapply do_sane; [done|by left|done]|]. unfold needed. destruct (pGone g) eqn:Hg; [apply prefix_nil|].
  destruct (decide (pAcked g = [])) as [->|Hne]; [apply prefix_nil|].
  destruct (do_log _ _ Hok Hg Hne) as (i' & f' & Hi' & _ & Hf' & Hp). simplify_eq.
  etransitivity; [exact Hp|]. by eexists; rewrite take_drop.
Qed.

(** A missing log was never acknowledged. *)
Lemma log_missing d : diskOk session g d → fileAt d D sessionLogName = None → needed = [].
Proof.
  intros Hd Hf. unfold needed. destruct (pGone g) eqn:Hg; [done|]. destruct (decide (pAcked g = [])) as [?|Hne]; [done|].
  destruct (dk_claims _ _ _ Hd) as [_ (ds & Hds & _)]; [by left|]. destruct (dk_dir _ _ _ Hd ds Hds) as [_ Hok].
  destruct (do_log _ _ Hok Hg Hne) as (i & _ & Hi & _). by rewrite (file_none d sessionLogName ds) in Hi.
Qed.

Lemma openRead_file d n i f : openReadOn (D ++ [n]) d = Ok (i, f) → fileAt d D n = Some (i, f).
Proof. unfold openReadOn. change (Dir (D ++ [n])) with D. change (base (D ++ [n])) with n. destruct (fileAt d D n); [by intros [= ->]|done]. Qed.

Lemma openRead_missing d n : openReadOn (D ++ [n]) d = Err ENOENT → fileAt d D n = None.
Proof. unfold openReadOn. change (Dir (D ++ [n])) with D. change (base (D ++ [n])) with n. by destruct (fileAt d D n). Qed.

Lemma found_needed v d last size : found v last size d → needed `prefix_of` v.
Proof. intros (_ & _ & _ & Hp & _). unfold needed. destruct (pGone g); [apply prefix_nil|by apply Hp]. Qed.

Lemma scan_found d i f last size :
  diskOk session g d → fileAt d D sessionLogName = Some (i, f) → scanRecords (fData f) = Ok (last, size) →
  ∃ v, found v last size d.
Proof.
  intros Hd Hf Hs. destruct (log_needed d i f Hd Hf) as [Hsane [r Er]]. rewrite Er in Hsane, Hs.
  apply scanRecords_sound in Hs as (v & rest & Ev & Hpre & Hsm & -> & ->); [|done|by eapply needed_ok].
  exists v. split_and!; [done..| |].
  - intros Hg. unfold needed in Hpre. by rewrite Hg in Hpre.
  - intros ds Hds. apply file_some in Hf as (ds' & Hds' & _ & Hi & Hf). simplify_eq. right. exists i, f.
    split_and!; [done..|]. rewrite Er, Ev. by exists rest.
Qed.

Lemma missing_found d : diskOk session g d → fileAt d D sessionLogName = None → found [] 0 0 d.
Proof.
  intros Hd Hf. split_and!; [done|done|constructor| |by left]. intros Hg. apply log_missing in Hf; [|done].
  unfold needed in Hf. rewrite Hg in Hf. by rewrite Hf.
Qed.

Lemma scanSessionState_spec (M : Spool → Prop) u ks :
  spec (λ s d, M s ∧ upK u ks s d) (scanSessionState (D ++ [sessionLogName]))
    (λ r s d, M s ∧ upK u ks s d ∧ ∃ v, found v r.1 r.2 d).
Proof.
  unfold scanSessionState. eapply spec_bind; [apply read_cases; intros s d [_ Hk]; apply Hk|].
  intros r. destruct r as [[i f]|e].
  - eapply spec_try.
    { apply spec_sys. apply (spec_read _ _ (λ _ s d, (M s ∧ upK u ks s d) ∧ fileAt d D sessionLogName = Some (i, f))).
      intros s d [[HM Hk] [Hr|?]]; [|done]. split; [apply Hk|]. intros _ _. split; [done|]. by apply openRead_file. }
    intros []. destruct (scanRecords (fData f)) as [[last size]|e] eqn:E; [|apply spec_err; by intros s d [[_ Hk] _]; apply Hk].
    apply spec_ok. intros s d [[HM Hk] Hf]. split; [done|]. split; [done|]. eapply scan_found; [apply Hk|done|done].
  - destruct e; try (apply spec_err; by intros s d [[_ Hk] _]; apply Hk).
    apply spec_ok. intros s d [[HM Hk] [Hr|?]]; [|done]. split; [done|]. split; [done|]. exists [].
    apply missing_found; [apply Hk|]. by apply openRead_missing.
Qed.

(** *** The older layout *)

Definition legacyPayload (f : SessionFragment) : bytes := encodeSessionFragment (sfScope f) (sfEpoch f) (sfSegments f).
Abbreviation legacyDir := (D ++ ["fragments"]).

Lemma readLegacyFiles_spec (M : Spool → Prop) u ks names out :
  Forall (λ f, smallPayload (legacyPayload f)) out →
  spec (λ s d, M s ∧ upK u ks s d) (readLegacyFiles legacyDir names out)
    (λ l s d, (M s ∧ upK u ks s d) ∧ Forall (λ f, smallPayload (legacyPayload f)) l).
Proof.
  revert out. induction names as [|n names IH]; intros out Hout; cbn [readLegacyFiles]; [by apply spec_ok|].
  destruct (negb _); [by apply IH|]. destruct (ParseUint _) as [seq|]; [|apply spec_err; by intros s d [_ Hk]; apply Hk].
  eapply spec_try.
  { apply spec_sys. apply (spec_read _ _ (λ data s d, (M s ∧ upK u ks s d) ∧ zlen data + 12 < 2 ^ 32)).
    intros s d [HM Hk]. split; [apply Hk|]. intros data Hr. split; [done|]. unfold readFileOn in Hr.
    change (Dir (legacyDir ++ [n])) with legacyDir in Hr. change (base (legacyDir ++ [n])) with n in Hr.
    destruct (fileAt d legacyDir n) as [[i f]|] eqn:E; [|done]. simplify_eq. unfold fileAt, dirAt in E.
    destruct (d !! legacyDir) as [ds|] eqn:Hds; [|done]. simpl in E. destruct (dHere ds); [|done]. simpl in E.
    apply nodeIn_Some in E as [_ Hf]. destruct Hk as [[Hd _ _] _]. by destruct (dk_legacy _ _ _ Hd ds i f Hds Hf). }
  intros data. destruct (decodeSessionFragment seq data) as [fr|e] eqn:E; [|apply spec_err; by intros s d [[_ Hk] _]; apply Hk].
  eapply triple_pre; [|intros s d [Hs Hz]; exact (conj Hz Hs)]. apply triple_pure. intros Hz. apply IH. apply Forall_app. split; [done|].
  apply Forall_singleton. destruct (decodeSessionFragment_length seq data fr E) as (Hl & H10 & _).
  unfold smallPayload, legacyPayload. lia.
Qed.

Lemma readLegacySession_spec (M : Spool → Prop) u ks :
  spec (λ s d, M s ∧ upK u ks s d) (readLegacySession legacyDir)
    (λ l s d, (M s ∧ upK u ks s d) ∧ Forall (λ f, smallPayload (legacyPayload f)) l).
Proof.
  unfold readLegacySession. eapply spec_bind; [apply read_cases; intros s d [_ Hk]; apply Hk|].
  intros r. eapply spec_pre; [|intros s d [Hs _]; exact Hs]. destruct r as [names|[]];
    first [by apply readLegacyFiles_spec | by apply spec_ok | apply spec_err; by intros s d [_ Hk]; apply Hk].
Qed.

Lemma recordOf_eq f k : sfSequence f = k + 1 → recordOf f = encodeFrom k [legacyPayload f].
Proof. intros E. unfold recordOf, encodeSessionRecord. cbn [encodeFrom]. by rewrite E, app_nil_r. Qed.

Definition migrating (M : Spool → Prop) (u : bool) (ks : list path) (i : nat) (got : list bytes) (s : Spool) (d : disk) : Prop :=
  M s ∧ upK u ks s d ∧ tmpAt migrateName i (λ f, fData f = encodeLog got) d ∧ zlen (encodeLog got) < 2 ^ 63.

Lemma migrate_aside : aside migrateName.
Proof. done. Qed.

Lemma upK_gone u ks s d n : upK u ks s d → aside n → up s (removeOn (D ++ [n]) d).2.
Proof. intros Hk Hn. by apply (upK_remove u ks s d n). Qed.

(** A cleanup whose outcome does not matter. *)
Lemma triple_ignore_remove (M : Spool → Prop) u ks n :
  aside n →
  triple (λ s d, M s ∧ upK u ks s d) (ignore (osRemove (D ++ [n]))) (λ _ s d, M s ∧ upK u ks s d) (diskOk session g).
Proof.
  intros Hn. eapply triple_bind; [|intros r; apply triple_ret; intros s d Hs; exact Hs].
  apply (triple_osCall _ _ (λ _ s d, M s ∧ upK u ks s d)). intros s d [HM Hk]. pose proof (upK_remove u ks s d n Hk Hn) as Hk'.
  split; [done|]. split; [done|]. split; [done|]. split; [apply Hk|apply Hk'].
Qed.

Lemma triple_close (P : Spool → disk → Prop) :
  (∀ s d, P s d → up s d) → triple P osClose (λ _, P) (diskOk session g).
Proof. intros HP. apply triple_osRead. intros s d Hs. split; [done|]. split; [done|]. by apply HP in Hs as [? _ _]. Qed.

Lemma migrate_spec (M : Spool → Prop) u ks i legacy got :
  Forall (λ f, smallPayload (legacyPayload f)) legacy →
  spec (migrating M u ks i got) (migrate D migrateName i (zlen got) (zlen (encodeLog got)) legacy)
    (λ r s d, match r with
              | Ok size => size = zlen (encodeLog (got ++ (legacyPayload <$> legacy)))
                  ∧ migrating M u ks i (got ++ (legacyPayload <$> legacy)) s d
              | Err _ => M s ∧ upK u ks s d
              end).
Proof.
  intros Hl. revert got. induction Hl as [|f legacy Hf Hl IH]; intros got; cbn [migrate].
  { apply spec_ok. intros s d Hm. rewrite app_nil_r. done. }
  case_decide as Hgap.
  { eapply spec_bind; [apply triple_close; by intros s d (_ & Hk & _); apply Hk|]. intros c. eapply spec_bind.
    { eapply triple_pre; [apply (triple_ignore_remove M u ks), migrate_aside|]. by intros s d (? & ? & _). }
    intros x. apply spec_err. by intros s d [_ Hk]; apply Hk. }
  assert (recordOf f = encodeFrom (zlen got) [legacyPayload f]) as Er by (apply recordOf_eq; lia).
  assert (encodeLog (got ++ [legacyPayload f]) = encodeLog got ++ recordOf f) as Ed by (by rewrite encodeLog_app, Er).
  rewrite Nat2Z.id. eapply spec_bind.
  { eapply triple_pre; [apply (tmp_write M u ks migrateName i (encodeLog got) (recordOf f)), migrate_aside|].
    by intros s d (HM & Hk & Ht & _). }
  intros [[]|e]; [|by apply spec_ok; intros s d (HM & Hk & _)].
  replace (zlen got + 1) with (zlen (got ++ [legacyPayload f])) by (rewrite length_app; simpl; lia).
  replace (zlen (encodeLog got) + zlen (recordOf f)) with (zlen (encodeLog (got ++ [legacyPayload f]))) by (rewrite Ed; len).
  replace (got ++ (legacyPayload <$> f :: legacy)) with ((got ++ [legacyPayload f]) ++ (legacyPayload <$> legacy))
    by (by rewrite <-app_assoc).
  eapply spec_pre; [apply (IH (got ++ [legacyPayload f]))|]. intros s d (HM & Hk & Hr). destruct (Hr eq_refl) as [Ht Hz]. unfold migrating. rewrite Ed. done.
Qed.

Lemma holds_sync dir ds v : holds ds v → holds (syncedState dir D ds) v.
Proof. unfold holds. by destruct (syncedState_nodes dir D ds) as [-> ->]. Qed.

Lemma migrated_triple s0 ks i r v :
  idle session s0 → (pGone g = true ∨ pAcked g = []) → Forall smallPayload v →
  triple (λ s d, match r with
                 | Ok size => size = zlen (encodeLog v) ∧ migrating (λ s, s = s0) true ks i v s d
                 | Err _ => s = s0 ∧ upK true ks s d
                 end) (finishMigration D migrateName i r)
    (λ r s d, s = s0 ∧ upK true ks s d
      ∧ ∀ size, r = Ok size → size = zlen (encodeLog v) ∧ ∀ ds, d !! D = Some ds → holds ds v) (diskOk session g).
Proof.
  intros Hidle Hno Hsm. unfold finishMigration.
  set (A := λ (Φ : disk → Prop) (r : result errno Z) s d, s = s0 ∧ upK true ks s d
    ∧ ∀ size, r = Ok size → size = zlen (encodeLog v) ∧ Φ d).
  set (Φ1 := λ d, tmpAt migrateName i (λ f, fData f = encodeLog v ∧ fDirty f = false) d ∧ zlen (encodeLog v) < 2 ^ 63).
  set (Φ2 := λ d : disk, ∀ ds, d !! D = Some ds → holds ds v).
  assert (∀ Φ r s d, A Φ r s d → up s d) as HA by (by intros Φ x s d (_ & Hk & _); apply Hk).
  eapply triple_bind; [apply (triple_andThen _ _ _ (A Φ1))|].
  - intros e -> s d [-> Hk]. done.
  - intros size ->. eapply triple_bind.
    { eapply triple_pre.
      - apply (triple_pure (size = zlen (encodeLog v) ∧ zlen (encodeLog v) < 2 ^ 63)
          (λ s d, s = s0 ∧ upK true ks s d ∧ tmpAt migrateName i (λ f, fData f = encodeLog v) d) (osSync D i)
          (λ r s d, (s = s0 ∧ upK true ks s d ∧ (r = Ok tt → tmpAt migrateName i (λ f, fData f = encodeLog v ∧ fDirty f = false) d))
             ∧ size = zlen (encodeLog v) ∧ zlen (encodeLog v) < 2 ^ 63)).
        intros Hp. eapply triple_mono; [apply (tmp_sync (λ s, s = s0) true ks migrateName i (encodeLog v)), migrate_aside| | |done].
        + intros s d Hs. exact Hs.
        + intros a s d Hs. split; [exact Hs|exact Hp].
      - by intros s d [Hsz (HM & Hk & Ht & Hz)]. }
    intros x. apply triple_ret. intros s d [(-> & Hk & Ht) [Hsz Hz]]. split; [done|]. split; [done|].
    destruct x as [[]|e]; [|done]. intros size' [= <-]. split; [done|]. split; [by apply Ht|done].
  - intros x. eapply triple_bind; [apply triple_close, HA|]. intros closed.
    eapply triple_bind; [apply (triple_andThen _ _ _ (A Φ2))|].
    + intros e He s d (-> & Hk & _). done.
    + intros size He. destruct x as [size'|]; [|done]. destruct closed as [[]|]; [|done]. injection He as ->.
      eapply triple_bind; [|intros y; apply triple_ret; intros s d Hs; exact Hs].
      apply (triple_osCall _ _ (λ y, A Φ2 (y ;;ᵣ Ok size))). intros s d (-> & Hk & Hsz). destruct (Hsz size eq_refl) as [Es [Ht Hz]].
      destruct (upK_rename_log ks s0 d i v Hk Ht Hidle Hno Hsm Hz) as [Hk' Hh].
      split; [|split; [by split|]; split; [by split|]; split; [apply Hk|apply Hk']].
      split; [done|]. split; [done|]. destruct (renameOn D migrateName sessionLogName d).1 as [[]|]; [|done].
      intros size' [= <-]. split; [done|]. exact (Hh eq_refl).
    + intros y. apply triple_andThen.
      * intros e -> s d (-> & Hk & _). done.
      * intros size ->. eapply triple_bind; [|intros z; apply triple_ret; intros s d Hs; exact Hs].
        apply (triple_osCall _ _ (λ z, A Φ2 (z ;;ᵣ Ok size))). intros s d (-> & Hk & Hsz).
        destruct (Hsz size eq_refl) as [Es Hh]. pose proof (upK_syncDir true ks s0 d D Hk) as Hk'.
        split; [|split; [by split|]; split; [by split|]; split; [apply Hk|apply Hk']].
        split; [done|]. split; [done|]. destruct (syncDirOn D d).1 as [[]|] eqn:E; [|done]. intros size' [= <-]. split; [done|].
        intros ds. unfold syncDirOn in E. destruct (dirAt d D) eqn:Edir; [|done]. rewrite lookup_syncDirOn by eauto.
        intros (x' & Hx & ->)%fmap_Some. apply holds_sync. by apply Hh.
Qed.

Lemma encodeLog_nil v : zlen (encodeLog v) = 0 → v = [].
Proof.
  intros Hz. pose proof (encodeFrom_count 0 v) as Hc. unfold encodeLog in Hz. destruct v; [done|]. rewrite length_cons in Hc. lia.
Qed.

Lemma loadSessionState_spec s0 ks :
  idle session s0 →
  spec (λ s d, s = s0 ∧ upK true ks s d) (loadSessionState D)
    (λ r s d, s = s0 ∧ upK true ks s d ∧ ∃ v, found v r.1 r.2 d).
Proof.
  intros Hidle. unfold loadSessionState. eapply spec_try; [apply (scanSessionState_spec (λ s, s = s0))|].
  intros [last size]. case_decide as Hsz; [by apply spec_ok|].
  eapply (triple_pre _ (λ s d, ((pGone g = true ∨ pAcked g = []) ∧ last = 0) ∧ (s = s0 ∧ upK true ks s d))).
  2:{ intros s d (-> & Hk & v & Hv & Hz & _ & Hp & _). split; [|done]. cbn [fst snd] in *.
      assert (v = []) as -> by (apply encodeLog_nil; lia). split; [|done].
      destruct (pGone g); [by left|]. right. by apply prefix_nil_inv, Hp. }
  apply triple_pure. intros [Hno ->].
  assert (∀ d, found [] 0 0 d) as Hempty.
  { intros d. split_and!; [done|done|constructor| |by left]. intros Hg. destruct Hno as [?|Hno]; [congruence|by rewrite Hno]. }
  eapply spec_try; [apply (readLegacySession_spec (λ s, s = s0))|]. intros legacy.
  case_decide as Hleg; [apply spec_ok; intros s d [[-> Hk] _]; eauto|].
  eapply triple_pre; [|intros s d [Hs Hf]; exact (conj Hf Hs)]. apply triple_pure. intros Hsmall. cbv zeta.
  change (sessionLogName +:+ ".migrate") with migrateName.
  eapply spec_bind; [apply (triple_ignore_remove (λ s, s = s0)), migrate_aside|]. intros [].
  eapply spec_try.
  { apply spec_sys. apply (spec_call _ _ (λ i s d, s = s0 ∧ upK true ks s d ∧ tmpAt migrateName i (λ f, fData f = []) d)).
    intros s d [-> Hk]. destruct (upK_create true ks s0 d migrateName Hk migrate_aside) as [H1 H2].
    split; [apply Hk|]. split; [apply H1|]. intros i Hi. split; [done|]. split; [done|by apply H2]. }
  intros i. replace size with (zlen (encodeLog [])) by (change (zlen (encodeLog [])) with 0; lia). change 0 with (zlen (@nil bytes)) at 1.
  eapply spec_try.
  { eapply spec_pre; [by apply (migrate_spec (λ s, s = s0) true ks i legacy [])|].
    intros s d (-> & Hk & Ht). done. }
  intros r. cbn [app].
  assert (Forall smallPayload (legacyPayload <$> legacy)) as Hsm by (by apply Forall_fmap).
  eapply spec_bind; [by apply migrated_triple|]. intros [size'|e].
  - apply spec_ok. intros s d (-> & Hk & Hr). destruct (Hr size' eq_refl) as [-> Hh]. split; [done|]. split; [done|].
    exists (legacyPayload <$> legacy). split_and!; [by rewrite length_fmap|done|done| |done].
    intros Hg. destruct Hno as [?|Hno]; [congruence|]. rewrite Hno. apply prefix_nil.
  - eapply spec_bind.
    + eapply triple_pre; [apply (triple_ignore_remove (λ s, s = s0) true ks), migrate_aside|]. by intros s d (-> & Hk & _).
    + intros x. apply spec_err. intros s d [_ Hk]. apply Hk.
Qed.

(** *** The memory of the session *)

Abbreviation kept := [sessionsDir; D].

Lemma kept_state u s d : upK u kept s d → ∃ ds, d !! D = Some ds.
Proof. intros (_ & Hks & _). inversion_clear Hks as [|?? _ Hk]. inversion_clear Hk as [|?? (ds & Hds & _) _]. eauto. Qed.

Lemma sessionOf_set l s : sessionOf D (setSession D l s) = l.
Proof. unfold sessionOf. simpl. by rewrite lookup_insert_eq. Qed.

Lemma upK_setSession u s d ds l :
  upK u kept s d → d !! D = Some ds → memOk session g (setSession D l s) ds → upK u kept (setSession D l s) d.
Proof.
  intros ([Hd Hm Hmem] & Hks & Hu) Hds Hmo. split; [|done]. split; [done|done|]. by rewrite Hds.
Qed.

Lemma idle_of s d : upK true kept s d → slLoaded (sessionOf D s) = false → idle session s.
Proof.
  intros Hk Hl. destruct (kept_state _ _ _ Hk) as [ds Hds]. destruct (upK_state _ _ _ _ _ Hk Hds) as (_ & _ & [_ H2 H3] & Hu).
  specialize (Hu eq_refl). split; [done|]. split.
  - intros [Hs|[? _]]%H2; [rewrite Hu in Hs; by destruct Hs|congruence].
  - destruct (slTail _) as [c|]; [|done]. destruct (H3 c eq_refl) as [Hs _]. rewrite Hu in Hs. by destruct Hs.
Qed.

Lemma loaded_spec :
  spec (upK true kept) (loaded D) (λ l s d, upK true kept s d ∧ sessionOf D s = l ∧ slLoaded l = true).
Proof.
  unfold loaded. eapply spec_bind.
  { apply (triple_getMem _ (λ a s d, upK true kept s d ∧ a = s)). by split. }
  intros s0. cbv zeta. destruct (slLoaded (sessionOf D s0)) eqn:Hl; [apply spec_ok; by intros s d [Hk ->]|].
  set (l := sessionOf D s0) in *. set (s1 := setSession D l s0).
  eapply spec_bind.
  { apply (triple_modMem _ _ (λ _ s d, idle session s1 ∧ s = s1 ∧ upK true kept s d)). intros s d [Hk <-].
    assert (sessionOf D s1 = l) as E by apply sessionOf_set.
    pose proof (idle_of s0 d Hk Hl) as Hi. assert (idle session s1) as Hi1.
    { destruct Hi as (H1 & H2 & H3). split_and!; [by rewrite E|done|by rewrite E]. }
    split; [done|]. split; [done|]. destruct (kept_state _ _ _ Hk) as [ds Hds].
    eapply upK_setSession; [done|exact Hds|by apply idle_memOk]. }
  intros []. apply triple_pure. intros Hidle. eapply spec_try; [by apply loadSessionState_spec|]. intros [last size].
  set (l1 := MkSession (slTail l) true last size).
  apply spec_mod. intros s d (-> & Hk & v & E1 & E2 & Hsm & Hp & Hh). destruct (kept_state _ _ _ Hk) as [ds Hds].
  split; [|split; [apply sessionOf_set|done]]. eapply upK_setSession; [done|exact Hds|]. subst l1.
  split; rewrite sessionOf_set; cbn [slLoaded slLast slSize slTail].
  - intros _. exists v. split_and!; [done..|]. intros _. by apply Hh.
  - destruct Hidle as (_ & Hns & _). intros Hs. by destruct Hns.
  - destruct Hidle as (_ & _ & Ht). unfold s1 in Ht. rewrite sessionOf_set in Ht. by rewrite Ht.
Qed.

(** *** Writing the log *)

(** What the memory [l] says of the log. *)
Record knows (l : sessionLog) (v : list bytes) : Prop := {
  kn_loaded : slLoaded l = true;
  kn_last : slLast l = zlen v;
  kn_size : slSize l = zlen (encodeLog v);
  kn_small : Forall smallPayload v;
  kn_acked : pGone g = false → pAcked g `prefix_of` v;
}.

(** The open session has its log in the file [i]. *)
Definition logging (l : sessionLog) (i : nat) (Φ : file → Prop) (s : Spool) (d : disk) : Prop :=
  upK true kept s d ∧ sessionOf D s = l ∧ ∃ ds f,
  d !! D = Some ds ∧ dLive ds !! sessionLogName = Some i ∧ dNodes ds !! i = Some f ∧ Φ f.

(** The memory agrees with a directory where the log still has the payloads. *)
Lemma memOk_log s ds ds' l v :
  memOk session g s ds → sessionOf D s = l → knows l v → dLive ds !! sealName = None → dLive ds' !! sealName = None →
  holds ds' v →
  (∀ i, dLive ds !! sessionLogName = Some i → dStable ds !! sessionLogName = Some i →
     dLive ds' !! sessionLogName = Some i ∧ dStable ds' !! sessionLogName = Some i) → memOk session g s ds'.
Proof.
  intros [H1 H2 H3] El [K1 K2 K3 K4 K5] Hs Hs' Hh Hl. rewrite Hs in *. split; rewrite El in *.
  - intros _. exists v. done.
  - intros [?|(_ & i & Hi & Hst)]%H2; [by destruct (is_Some_None (A := nat))|]. right. split; [done|]. exists i. by apply Hl.
  - intros c [? _]%H3. by destruct (is_Some_None (A := nat)).
Qed.

Lemma open_log s d l v :
  upK true kept s d → sessionOf D s = l → knows l v → (∀ ds, d !! D = Some ds → holds ds v) →
  upK true kept s (openOn false (D ++ [sessionLogName]) d).2
  ∧ ∀ i, (openOn false (D ++ [sessionLogName]) d).1 = Ok i →
      logging l i (λ f, encodeLog v `prefix_of` fData f) s (openOn false (D ++ [sessionLogName]) d).2.
Proof.
  intros Hk El Hkn Hh. unfold openOn. case_decide; [done|].
  change (Dir (D ++ [sessionLogName])) with D. change (base (D ++ [sessionLogName])) with sessionLogName.
  destruct (kept_state _ _ _ Hk) as [ds Hds]. destruct (upK_state _ _ _ _ _ Hk Hds) as (Hhere & Hok & Hmem & Hu).
  specialize (Hu eq_refl). specialize (Hh ds Hds). unfold inDir, dirAt. rewrite Hds. simpl. rewrite Hhere. simpl.
  destruct (nodeIn ds sessionLogName) as [[i f]|] eqn:E; simpl.
  { rewrite insert_id by done. split; [done|]. intros _ [= <-]. split; [done|]. split; [done|].
    apply nodeIn_Some in E as [Hi Hf]. exists ds, f. split_and!; [done..|].
    destruct Hh as [->|(i' & f' & Hi' & Hf' & Hp)]; [apply prefix_nil|]. by simplify_eq. }
  set (i := fresh (dom (dNodes ds))).
  assert (dNodes ds !! i = None) as Hi by (apply not_elem_of_dom, is_fresh).
  pose proof (nodeIn_None g ds Hok _ E) as Hno.
  assert (v = []) as Hv by (destruct Hh as [?|(i' & f' & Hi' & _)]; [done|congruence]).
  set (ds' := setLive _ _). assert (upK true kept s (<[D := ds']> d)) as Hk'.
  { assert (dLive ds' !! sealName = None) as Hs' by (simpl; by rewrite lookup_insert_ne).
    eapply upK_dir; [exact Hk|exact Hds|done|done|by apply dirOk_create| |done].
    eapply memOk_log; [exact Hmem|exact El|exact Hkn|done|done|by left|]. intros j Hj. congruence. }
  split; [done|]. intros _ [= <-]. split; [done|]. split; [done|]. exists ds', (MkFile [] 0 true 0).
  split; [apply lookup_insert_eq|]. simpl. split; [apply lookup_insert_eq|]. split; [apply lookup_insert_eq|]. by rewrite Hv.
Qed.

(** A change of the file of the log. *)
Lemma log_step l i v (Φ Ψ : file → Prop) (h : file → file) s d :
  logging l i Φ s d → knows l v →
  (∀ f, Φ f → saneLog (fData f) → saneLog (fData (h f)) ∧ encodeLog v `prefix_of` fData (h f) ∧ Ψ (h f)
     ∧ (pGone g = false → encodeLog (pAcked g) `prefix_of` take (fSynced f) (fData f) →
        encodeLog (pAcked g) `prefix_of` take (fSynced (h f)) (fData (h f)))) →
  logging l i Ψ s (onFile D i h d).2.
Proof.
  intros (Hk & El & ds & f & Hds & Hi & Hf & HΦ) Hkn Hh. unfold onFile. rewrite Hds. simpl.
  destruct (upK_state _ _ _ _ _ Hk Hds) as (_ & Hok & Hmem & Hu). specialize (Hu eq_refl).
  destruct (Hh f HΦ) as (Hsane & Hp & HΨ & Hdur); [eapply do_sane; [done|by left|done]|].
  assert (alter h i (dNodes ds) = <[i := h f]> (dNodes ds)) as ->.
  { apply map_eq. intros j. destruct (decide (i = j)) as [<-|]; [by rewrite lookup_alter_eq, lookup_insert_eq, Hf|].
    by rewrite lookup_alter_ne, lookup_insert_ne. }
  set (ds' := setNodes _ _).
  assert (∀ n, named ds n i → n = sessionLogName) as Hnm by (intros n Hn; apply (do_inj _ _ Hok _ _ i); [done|by left]).
  split; [|split; [done|]].
  - eapply upK_dir; [exact Hk|exact Hds|done|done| | |done].
    + eapply dirOk_alter; [done|exact Hf| |done]. intros n Hn. by rewrite (Hnm n Hn).
    + eapply memOk_log; [exact Hmem|exact El|exact Hkn|done|done| |done]. right. exists i, (h f).
      split_and!; [done|apply lookup_insert_eq|done].
  - exists ds', (h f). split_and!; [apply lookup_insert_eq|done|apply lookup_insert_eq|done].
Qed.

Lemma prefix_take {A : Type} (a b : list A) k : a `prefix_of` b → (length a ≤ k)%nat → a `prefix_of` take k b.
Proof. intros [r ->] Hk. rewrite take_app_ge by done. by apply prefix_app_r. Qed.

(** The acknowledged part stays durable when the log is cut at a record that the memory
    knows of. *)
Lemma acked_durable l v (f f' : file) rest :
  knows l v → fData f' = encodeLog v ++ rest → fSynced f' = Nat.min (length (encodeLog v)) (fSynced f) →
  pGone g = false → encodeLog (pAcked g) `prefix_of` take (fSynced f) (fData f) →
  encodeLog (pAcked g) `prefix_of` take (fSynced f') (fData f').
Proof.
  intros Hkn -> -> Hg Hp. destruct (kn_acked _ _ Hkn Hg) as [e ->]. rewrite encodeLog_app, <-app_assoc.
  apply prefix_take; [by apply prefix_app_r|]. apply prefix_length in Hp. rewrite length_take in Hp. rewrite length_app. lia.
Qed.

Lemma truncFile_log v f : encodeLog v `prefix_of` fData f → fData (truncFile (length (encodeLog v)) f) = encodeLog v.
Proof.
  intros [r Er]. unfold truncFile. cbn [fData]. rewrite Er, take_app_length, length_app.
  replace (length (encodeLog v) - _)%nat with 0%nat by lia. apply app_nil_r.
Qed.

Lemma encodeLog_bound v f : saneLog (fData f) → encodeLog v `prefix_of` fData f → zlen (encodeLog v) < 2 ^ 63.
Proof. intros [Hz _] Hp%prefix_length. lia. Qed.

Lemma logging_up l i Φ s d : logging l i Φ s d → up s d.
Proof. intros (Hk & _). apply Hk. Qed.

Lemma logging_mono l i (Φ Ψ : file → Prop) s d : logging l i Φ s d → (∀ f, Φ f → Ψ f) → logging l i Ψ s d.
Proof. intros (Hk & El & ds & f & H1 & H2 & H3 & HΦ) Hi. split; [done|]. split; [done|]. exists ds, f. auto. Qed.

Lemma onFile_ok l i Φ s d h : logging l i Φ s d → (onFile D i h d).1 = Ok tt.
Proof. intros (_ & _ & ds & f & Hds & _). unfold onFile. by rewrite Hds. Qed.

Section write.
Context (l : sessionLog) (v ps : list bytes) (i : nat) (Hkn : knows l v).
Context (Hps : Forall smallPayload ps) (Hcount : zlen (v ++ ps) < 2 ^ 64 - 1).
Abbreviation n := (Z.to_nat (slSize l)).
Abbreviation records := (encodeFrom (zlen v) ps).

Lemma size_eq : n = length (encodeLog v).
Proof. rewrite (kn_size _ _ Hkn). lia. Qed.

Lemma truncate_triple :
  triple (logging l i (λ f, encodeLog v `prefix_of` fData f)) (osTruncate D i n)
    (λ r, logging l i (λ f, encodeLog v `prefix_of` fData f ∧ (r = Ok tt → fData f = encodeLog v))) (diskOk session g).
Proof.
  apply triple_osCall. intros s d Hlg. rewrite size_eq.
  assert (logging l i (λ f, encodeLog v `prefix_of` fData f ∧ fData f = encodeLog v) s
    (onFile D i (truncFile (length (encodeLog v))) d).2) as H1.
  { eapply log_step; [exact Hlg|exact Hkn|]. intros f Hp Hsane. rewrite (truncFile_log v f Hp).
    split; [apply saneLog_log; [apply (kn_small _ _ Hkn)|by eapply encodeLog_bound]|]. split; [done|]. split; [done|].
    pose proof (acked_durable l v f (truncFile (length (encodeLog v)) f) [] Hkn) as Hdur.
    rewrite (truncFile_log v f Hp), app_nil_r in Hdur. by apply Hdur. }
  split; [eapply logging_mono; [exact H1|]; by intros f [? ?]|].
  split; [eapply logging_mono; [exact Hlg|]; by split|].
  split; [eapply logging_mono; [exact H1|]; by intros f [? ?]|]. split; [by apply logging_up in Hlg as []|by apply logging_up in H1 as []].
Qed.

Lemma write_triple :
  triple (logging l i (λ f, fData f = encodeLog v)) (osWriteAt D i n records)
    (λ r, logging l i (λ f, encodeLog v `prefix_of` fData f ∧ (r = Ok tt → fData f = encodeLog (v ++ ps)))) (diskOk session g).
Proof.
  apply triple_sysCall. intros s d Hlg. rewrite size_eq.
  assert (∀ k, logging l i (λ f, encodeLog v `prefix_of` fData f
      ∧ ((writeOn D i (length (encodeLog v)) (take k records) d).1 = Ok tt → fData f = encodeLog v ++ take k records)) s
    (writeOn D i (length (encodeLog v)) (take k records) d).2) as Hw.
  { intros k. unfold writeOn. case_decide as Hz; [eapply logging_mono; [exact Hlg|]; by intros f ->|].
    eapply log_step; [exact Hlg|exact Hkn|]. intros f Hf Hsane. pose proof (writeFile_end _ f (take k records) Hf) as Ed. rewrite Ed.
    split; [apply saneLog_write; [apply (kn_small _ _ Hkn)|done|done|]; rewrite length_app; lia|].
    split; [by eexists|]. split; [split; [by eexists|done]|].
    pose proof (acked_durable l v f (writeFile (length (encodeLog v)) (take k records) f) (take k records) Hkn) as Hdur.
    rewrite Ed in Hdur. by apply Hdur. }
  split.
  - specialize (Hw (length records)). rewrite take_ge in Hw by done. eapply logging_mono; [exact Hw|].
    intros f [H1 H2]. split; [done|]. intros Hr. rewrite encodeLog_app. by apply H2.
  - intros k. specialize (Hw k). split; [eapply logging_mono; [exact Hw|]; by intros f [? _]|by apply logging_up in Hw as []].
Qed.

Lemma sync_triple :
  triple (logging l i (λ f, fData f = encodeLog (v ++ ps))) (osSync D i)
    (λ r, logging l i (λ f, r = Ok tt → fData f = encodeLog (v ++ ps) ∧ fSynced f = length (fData f))) (diskOk session g).
Proof.
  apply triple_osCall. intros s d Hlg.
  assert (logging l i (λ f, fData f = encodeLog (v ++ ps) ∧ fSynced f = length (fData f)) s (onFile D i syncFile d).2) as H1.
  { eapply log_step; [exact Hlg|exact Hkn|]. intros f Hf Hsane. split; [done|]. cbn [syncFile fData fSynced].
    split; [rewrite Hf, encodeLog_app; by eexists|]. split; [done|]. intros _ Hd. rewrite take_ge by done.
    etransitivity; [exact Hd|]. by eexists; rewrite take_drop. }
  split; [by eapply logging_mono|]. split; [by eapply logging_mono|]. split; [by eapply logging_mono|].
  split; [by apply logging_up in Hlg as []|by apply logging_up in H1 as []].
Qed.

Lemma writeRecords_triple :
  triple (logging l i (λ f, encodeLog v `prefix_of` fData f)) (writeRecords D i (slSize l) records)
    (λ r, logging l i (λ f, r = Ok tt → fData f = encodeLog (v ++ ps) ∧ fSynced f = length (fData f))) (diskOk session g).
Proof.
  unfold writeRecords. eapply triple_bind; [apply truncate_triple|]. intros r1.
  eapply triple_bind; [apply (triple_andThen _ _ _ (λ r, logging l i (λ f, encodeLog v `prefix_of` fData f ∧ (r = Ok tt → fData f = encodeLog (v ++ ps)))))|].
  - intros e -> s d Hlg. eapply logging_mono; [exact Hlg|]. by intros f [? _].
  - intros [] ->. eapply triple_pre; [apply write_triple|]. intros s d Hlg. eapply logging_mono; [exact Hlg|]. intros f [_ Hf]. by apply Hf.
  - intros r2. eapply triple_bind; [apply (triple_andThen _ _ _ (λ r, logging l i (λ f, r = Ok tt → fData f = encodeLog (v ++ ps) ∧ fSynced f = length (fData f))))|].
    + intros e -> s d Hlg. by eapply logging_mono.
    + intros [] ->. eapply triple_pre; [apply sync_triple|]. intros s d Hlg. eapply logging_mono; [exact Hlg|]. intros f [_ Hf]. by apply Hf.
    + intros r3. eapply triple_bind; [apply triple_close; intros s d; apply logging_up|]. intros closed. apply triple_ret.
      intros s d Hlg. eapply logging_mono; [exact Hlg|]. intros f Hf Hr. apply Hf. by destruct r3 as [[]|].
Qed.
End write.

Lemma logging_sync l i Φ s d :
  logging l i Φ s d →
  logging l i Φ s (syncDirOn D d).2
  ∧ ((syncDirOn D d).1 = Ok tt → ∀ ds, (syncDirOn D d).2 !! D = Some ds → dStable ds !! sessionLogName = Some i).
Proof.
  intros (Hk & El & ds & f & Hds & Hi & Hf & HΦ). destruct (upK_state _ _ _ _ _ Hk Hds) as (Hh & _).
  assert (is_Some (dirAt d D)) as Hdir by (exists ds; unfold dirAt; rewrite Hds; simpl; by rewrite Hh).
  destruct (syncedState_nodes D D ds) as [En Elv]. split.
  - split; [by apply upK_syncDir|]. split; [done|]. exists (syncedState D D ds), f. rewrite lookup_syncDirOn, Hds, Elv, En by done. done.
  - intros _ x. rewrite lookup_syncDirOn, Hds by done. intros [= <-]. unfold syncedState.
    rewrite (decide_True (P := D = D)) by done. by case_decide.
Qed.

Lemma syncOnce_spec l i v (Φ : file → Prop) :
  knows l v →
  spec (logging l i Φ) (syncOnce D) (λ _ s d, logging l i Φ s d ∧ ∀ ds, d !! D = Some ds → dStable ds !! sessionLogName = Some i).
Proof.
  intros Hkn. unfold syncOnce. eapply spec_bind.
  { apply (triple_getMem _ (λ a s d, logging l i Φ s d ∧ a = s)). by split. }
  intros s0. case_decide as Hin.
  { apply spec_ok. intros s d [Hlg <-]. split; [done|]. intros ds Hds. destruct Hlg as (Hk & El & ds' & f & Hds' & Hi & _).
    assert (ds' = ds) as -> by congruence.
    destruct (upK_state _ _ _ _ _ Hk Hds) as (_ & _ & [_ Hsy _] & Hu). destruct (Hsy Hin) as [Hs|(_ & j & Hj & Hst)].
    - rewrite Hu in Hs by done. by destruct Hs.
    - by simplify_eq. }
  eapply spec_try.
  { apply spec_sys. apply (spec_call _ _ (λ _ s d, logging l i Φ s d ∧ ∀ ds, d !! D = Some ds → dStable ds !! sessionLogName = Some i)).
    intros s d [Hlg _]. destruct (logging_sync l i Φ s d Hlg) as [H1 H2]. split; [by eapply logging_up|].
    split; [by eapply logging_up|]. intros [] Ha. split; [done|by apply H2]. }
  intros []. apply spec_mod. intros s d [(Hk & El & ds & f & Hds & Hi & Hf & HΦ) Hst]. split; [|done].
  split; [|split; [done|]; by exists ds, f]. destruct Hk as ([Hd Hm Hmem] & Hks & Hu). split; [|done].
  split; [done|done|]. rewrite Hds in *. destruct Hmem as [M1 M2 M3]. split; [exact M1| |exact M3].
  intros _. right. change (sessionOf D (addSynced D s)) with (sessionOf D s). rewrite El. split; [apply Hkn|].
  exists i. split; [done|by apply Hst].
Qed.

(** *** Appends *)

(** A group whose records are not cut. *)
Definition fitsRecord (a : SessionAppend) : Prop := zlen (payloadOf a) + 12 < 2 ^ 32.

Lemma payload_small a : fitsRecord a → smallPayload (payloadOf a).
Proof.
  unfold fitsRecord, smallPayload, payloadOf, encodeSessionFragment. rewrite !length_app, !length_be_enc. lia.
Qed.

Lemma groupRecords_eq k appends :
  0 ≤ k → k + zlen appends < 2 ^ 64 →
  groupRecords k appends = encodeFrom k (payloadOf <$> appends) ∧ groupSeqs k appends = seqZ (k + 1) (zlen appends).
Proof.
  revert k. induction appends as [|a appends IH]; intros k Hk Hlt; [done|]. rewrite length_cons in *.
  cbn [groupRecords groupSeqs]. rewrite u64_id by lia. destruct (IH (k + 1)) as [-> ->]; [lia..|]. split; [done|].
  rewrite (seqZ_cons (k + 1)) by lia. f_equal; f_equal; lia.
Qed.

(** What the promise becomes. *)
Definition extend (ps : list bytes) : promise := MkPromise ps (pFinal g) (pGone g).

Lemma unsealed_no_final ds n : dirOk g ds → dLive ds !! sealName = None → pFinal g ≠ Some n.
Proof. intros Hok Hs Hn. destruct (do_final _ _ Hok n Hn) as (j & f & Hj & _). apply (do_once _ _ Hok) in Hj. congruence. Qed.

(** The session's part of the memory and the durable log make the longer promise. *)
Lemma holdsUp_extend l i v ps s d :
  logging l i (λ f, fData f = encodeLog (v ++ ps) ∧ fSynced f = length (fData f)) s d →
  (∀ ds, d !! D = Some ds → dStable ds !! sessionLogName = Some i) → knows l v → Forall smallPayload ps →
  holdsUp session (extend (v ++ ps))
    (setSession D (MkSession (slTail l) true (zlen (v ++ ps)) (zlen (encodeLog (v ++ ps)))) s) d ∧ pFinal g = None.
Proof.
  intros (Hk & El & ds & f & Hds & Hi & Hf & Hdata & Hsy) Hst Hkn Hps.
  destruct (upK_state _ _ _ _ _ Hk Hds) as (Hh & Hok & Hmem & Hu). specialize (Hu eq_refl). specialize (Hst ds Hds).
  assert (pFinal g = None) as Hfin by (destruct (pFinal g) as [n|] eqn:E; [by destruct (unsealed_no_final ds n Hok Hu)|done]).
  split; [|done]. destruct Hk as ([Hd Hm _] & Hks & _). inversion_clear Hks as [|?? Hk1 Hks']. inversion_clear Hks' as [|?? Hk2 _].
  assert (Forall smallPayload (v ++ ps)) as Hsm by (apply Forall_app; split; [apply Hkn|done]).
  assert (∀ j, ¬ named ds sealName j) as Hns.
  { intros j [Hj|Hj]; [congruence|]. apply (do_once _ _ Hok) in Hj. congruence. }
  destruct Hd as [Hr Hs Hdir Hc _ Hleg Hmk]. split; [split|..]; try done.
  - intros x Hx. assert (x = ds) as -> by congruence. split; [done|]. destruct Hok as [O1 O2 O3 O4 O5 O6 O7]. split; simpl; try done.
    + intros _ _. exists i, f. split_and!; [done..|]. rewrite Hsy, take_ge, Hdata by done. done.
    + intros j Hj. by apply Hns in Hj.
  - rewrite Hds. destruct Hmem as [M1 M2 M3]. split; rewrite sessionOf_set; cbn [slLoaded slLast slSize slTail].
    + intros _. exists (v ++ ps). split_and!; try done. intros _. right. exists i, f. split_and!; [done..|]. by rewrite Hdata.
    + intros Hin. destruct (M2 Hin) as [?|[_ ?]]; [by left|by right].
    + intros c Hct. rewrite <-El in Hct. by apply M3.
Qed.

Lemma statMarker_spec : spec up (statMarker D) (λ b s d, up s d ∧ (b = false → unsealed d)).
Proof.
  unfold statMarker. eapply spec_bind; [by apply read_cases|]. intros r. destruct r as [x|e].
  { apply spec_ok. by intros s d [Hup _]. }
  destruct e; try (apply spec_err; by intros s d [Hup _]).
  apply spec_ok. intros s d [Hup [Hr|?]]; [|done]. split; [done|]. intros _ ds Hds.
  eapply file_none; [apply Hup| |exact Hds]. unfold statOn in Hr.
  change (Dir (D ++ [sealName])) with D in Hr. change (base (D ++ [sealName])) with sealName in Hr.
  destruct (fileAt d D sealName); [done|done].
Qed.

Lemma loaded_knows s d l :
  upK true kept s d → sessionOf D s = l → slLoaded l = true →
  ∃ v, knows l v ∧ ∀ ds, d !! D = Some ds → holds ds v.
Proof.
  intros Hk El Hl. destruct (kept_state _ _ _ Hk) as [ds Hds]. destruct (upK_state _ _ _ _ _ Hk Hds) as (_ & _ & [M1 _ _] & Hu).
  rewrite El in M1. destruct (M1 Hl) as (v & ? & ? & ? & ? & Hh). exists v. split; [done|]. intros x Hx. assert (x = ds) as -> by congruence. apply Hh. by apply Hu.
Qed.

(** A group that succeeds is in the promise, after what was there. *)
Lemma append_spec appends :
  Forall fitsRecord appends → zlen appends < 2 ^ 63 →
  spec up (AppendSessionGroup session appends) (λ seqs s d, ∃ v,
    (pGone g = false → pAcked g `prefix_of` v) ∧ pFinal g = None
    ∧ seqs = seqZ (zlen v + 1) (zlen appends) ∧ holdsUp session (extend (v ++ (payloadOf <$> appends))) s d).
Proof.
  intros Hfit Hlen. unfold AppendSessionGroup. case_decide; [by apply spec_err|]. case_decide as Hne; [by apply spec_err|].
  destruct (checkAppends appends) as [[]|e]; [|by apply spec_err]. cbv zeta.
  eapply spec_try; [apply statMarker_spec|]. intros [|]; [apply spec_err; by intros s d []|].
  eapply spec_try; [eapply spec_pre; [apply (ensure_spec true)|]; intros s d [Hup Hu]; split; [done|]; split; [done|]; intros _; by apply Hu|].
  intros []. eapply spec_try; [apply loaded_spec|]. intros l.
  eapply (triple_pre _ (λ s d, ∃ v, (knows l v ∧ zlen v < 2 ^ 63) ∧ (upK true kept s d ∧ sessionOf D s = l ∧ ∀ ds, d !! D = Some ds → holds ds v))).
  2:{ intros s d (Hk & El & Hl). destruct (loaded_knows s d l Hk El Hl) as (v & Hkn & Hh). exists v. split; [|done]. split; [done|].
      destruct (kept_state _ _ _ Hk) as [ds Hds]. destruct (Hh ds Hds) as [->|(i & f & Hi & Hf & Hp)]; [done|].
      destruct (upK_state _ _ _ _ _ Hk Hds) as (_ & Hok & _). destruct (do_sane _ _ Hok i f) as [Hz _]; [by left|done|].
      apply prefix_length in Hp. pose proof (encodeFrom_count 0 v). unfold encodeLog in Hp. lia. }
  apply triple_ex. intros v. apply triple_pure. intros [Hkn Hv].
  assert (Forall smallPayload (payloadOf <$> appends)) as Hps.
  { apply Forall_fmap. eapply Forall_impl; [exact Hfit|]. apply payload_small. }
  assert (zlen (v ++ (payloadOf <$> appends)) < 2 ^ 64 - 1) as Hcount by (rewrite length_app, length_fmap; lia).
  destruct (groupRecords_eq (slLast l) appends) as [Er Es]; [rewrite (kn_last _ _ Hkn); lia..|]. rewrite Er, Es, (kn_last _ _ Hkn).
  eapply spec_try.
  { apply spec_sys. apply (spec_call _ _ (λ i, logging l i (λ f, encodeLog v `prefix_of` fData f))).
    intros s d (Hk & El & Hh). destruct (open_log s d l v Hk El Hkn Hh) as [H1 H2]. split; [apply Hk|]. split; [apply H1|done]. }
  intros i. apply (spec_try _ _ _ (λ _, logging l i (λ f, fData f = encodeLog (v ++ (payloadOf <$> appends)) ∧ fSynced f = length (fData f)))).
  { apply spec_sys. eapply (triple_mono _ _ _ _ _ _ _ (writeRecords_triple l v (payloadOf <$> appends) i Hkn Hps Hcount)); [done| |done].
    intros [[]|e] s d Hlg; [|by eapply logging_up]. eapply logging_mono; [exact Hlg|]. intros f Hf. exact (Hf eq_refl). }
  intros []. eapply spec_try; [by apply (syncOnce_spec l i v)|]. intros []. apply spec_mod.
  intros s d [Hlg Hst]. exists v.
  destruct (holdsUp_extend l i v (payloadOf <$> appends) s d Hlg Hst Hkn Hps) as [Hup Hfin].
  split; [apply Hkn|]. split; [done|]. split; [done|].
  replace (default 0 (last (seqZ (zlen v + 1) (zlen appends)))) with (zlen (v ++ (payloadOf <$> appends))).
  2:{ rewrite last_lookup, length_seqZ, lookup_seqZ_lt; [simpl; rewrite length_app, length_fmap|];
      (destruct appends as [|a appends']; [done|]; rewrite ?length_cons; lia). }
  replace (slSize l + zlen (encodeFrom (zlen v) (payloadOf <$> appends))) with (zlen (encodeLog (v ++ (payloadOf <$> appends)))); [done|].
  rewrite (kn_size _ _ Hkn), encodeLog_app, length_app. lia.
Qed.

(** *** Seals *)

Definition sealAt (n : Z) : promise := MkPromise (pAcked g) (Some n) (pGone g).

(** A marker that is seen when the directory is synced is there for good. *)
Lemma seal_sync s d n :
  upK false kept s d → markerAt n d → (syncDirOn D d).1 = Ok tt → 0 ≤ n ≤ maxUint64 →
  (pFinal g = None ∨ pFinal g = Some n) ∧ (pGone g = false → zlen (pAcked g) ≤ n)
  ∧ holdsUp session (sealAt n) s (syncDirOn D d).2.
Proof.
  intros Hk (ds & j & f & Hds & Hj & Hf & Hdata) Hr Hn. destruct (upK_state _ _ _ _ _ Hk Hds) as (Hh & Hok & _).
  assert (∀ k, 0 ≤ k ≤ maxUint64 → FormatUint k = FormatUint n → k = n) as Hinj.
  { intros k Hk0 E. apply (f_equal ParseUint) in E. rewrite !ParseUint_FormatUint in E by done. by injection E. }
  pose proof (upK_syncDir _ _ _ _ D Hk) as ([Hd Hm Hmem] & Hks & _).
  inversion_clear Hks as [|?? Hk1 Hks']. inversion_clear Hks' as [|?? Hk2 _].
  assert (is_Some (dirAt d D)) as Hdir by (exists ds; unfold dirAt; rewrite Hds; simpl; by rewrite Hh).
  split; [|split].
  - destruct (pFinal g) as [n'|] eqn:E; [|by left]. right. f_equal.
    destruct (do_final _ _ Hok n' E) as (j' & f' & Hj' & Hf' & Hd' & Hn'). apply (do_once _ _ Hok) in Hj'.
    simplify_eq. apply Hinj; [done|]. congruence.
  - intros Hg. destruct (do_marker _ _ Hok j) as (n' & f' & Hf' & Hd' & _ & Hn' & Hle); [by left|].
    simplify_eq. rewrite <-(Hinj n'); [by apply Hle|done|]. congruence.
  - destruct Hd as [Hr0 Hs Hdir0 Hc Hsm Hleg Hmk]. split; [split|..]; try done.
    + intros x Hx. destruct (Hdir0 x Hx) as [Hhx Hokx]. split; [done|]. destruct Hokx as [O1 O2 O3 O4 O5 O6 O7]. split; try done.
      intros k [= <-]. rewrite lookup_syncDirOn, Hds in Hx by done. injection Hx as <-.
      destruct (syncedState_nodes D D ds) as [En El]. exists j, f. rewrite En. split; [|done].
      unfold syncedState. rewrite (decide_True (P := D = D)) by done. by case_decide.
    + destruct ((syncDirOn D d).2 !! D) as [x|]; [|done]. destruct Hmem as [M1 M2 M3]. by split.
Qed.

Lemma openTmp_spec (M : Spool → Prop) u :
  spec (λ s d, M s ∧ upK u kept s d) (openTmp D) (λ i s d, M s ∧ upK u kept s d ∧ tmpAt tmpName i (λ f, fData f = []) d).
Proof.
  assert (aside tmpName) as Hn by done. change (sealName +:+ ".tmp") with tmpName in *.
  assert (spec (λ s d, M s ∧ upK u kept s d) (osOpen true (D ++ [tmpName]))
    (λ i s d, M s ∧ upK u kept s d ∧ tmpAt tmpName i (λ f, fData f = []) d)) as Hopen.
  { apply spec_call. intros s d [HM Hk]. destruct (upK_create u kept s d tmpName Hk Hn) as [H1 H2].
    split; [apply Hk|]. split; [apply H1|]. intros i Hi. split; [done|]. split; [done|by apply H2]. }
  unfold openTmp. eapply spec_bind.
  { apply (triple_osCall _ _ (λ r s d, (M s ∧ upK u kept s d) ∧ ∀ i, r = Ok i → tmpAt tmpName i (λ f, fData f = []) d)).
    intros s d [HM Hk]. destruct (upK_create u kept s d tmpName Hk Hn) as [H1 H2].
    split; [done|]. split; [done|]. split; [done|]. split; [apply Hk|apply H1]. }
  intros r. destruct r as [i|e]; [apply spec_ok; intros s d [[HM Hk] Ht]; auto|].
  destruct e; try (apply spec_err; intros s d [[_ Hk] _]; apply Hk).
  apply (spec_try _ _ _ (λ _ s d, M s ∧ upK u kept s d)); [|intros []; by apply spec_sys].
  apply spec_sys. apply spec_call. intros s d [[HM Hk] _]. pose proof (upK_remove u kept s d tmpName Hk Hn) as Hk'.
  split; [apply Hk|]. split; [apply Hk'|done].
Qed.

Lemma writeMarker_spec i n :
  0 ≤ n ≤ maxUint64 → (pGone g = false → zlen (pAcked g) ≤ n) →
  spec (λ s d, upK true kept s d ∧ tmpAt tmpName i (λ f, fData f = []) d) (writeMarker D i (FormatUint n))
    (λ _ s d, (pFinal g = None ∨ pFinal g = Some n) ∧ (pGone g = false → zlen (pAcked g) ≤ n) ∧ holdsUp session (sealAt n) s d).
Proof.
  intros Hn Hak. assert (aside tmpName) as Ha by done. unfold writeMarker. change (sealName +:+ ".tmp") with tmpName in *.
  eapply spec_bind.
  { eapply triple_pre; [apply (tmp_write (λ _, True) true kept tmpName i [] (FormatUint n) Ha)|]. by intros s d [Hk Ht]. }
  intros r1. eapply (spec_bind _ _ _ (λ r s d, upK true kept s d
      ∧ (r = Ok tt → tmpAt tmpName i (λ f, fData f = FormatUint n ∧ fDirty f = false) d))).
  { apply triple_andThen; [by intros e -> s d (_ & Hk & _)|]. intros [] ->.
    eapply triple_mono; [apply (tmp_sync (λ _, True) true kept tmpName i (FormatUint n) Ha)| | |done].
    - intros s d (_ & Hk & Ht). destruct (Ht eq_refl). done.
    - by intros r s d (_ & Hk & Ht). }
  intros r2. eapply spec_bind; [apply triple_close; intros s d [Hk _]; apply Hk|]. intros closed.
  eapply (spec_bind _ _ _ (λ r s d, upK false kept s d ∧ (r = Ok tt → markerAt n d))).
  { apply triple_andThen.
    - intros e _ s d [(Hup & Hks & _) _]. by split.
    - intros [] Hr. destruct r2 as [[]|]; [|done]. apply triple_osCall. intros s d [Hk Ht].
      destruct (upK_rename_seal kept s d i n Hk (Ht eq_refl) Hn Hak) as [H1 H2].
      assert (upK false kept s d) as Hkf by (destruct Hk as (Hup & Hks & _); by split).
      split; [done|]. split; [done|]. split; [done|]. split; [apply Hk|apply H1]. }
  intros r3. destruct r3 as [[]|e].
  - apply spec_call. intros s d [Hk Hmk]. split; [apply Hk|]. split; [apply (upK_syncDir _ _ _ _ D Hk)|].
    intros [] Hr. apply seal_sync; auto.
  - eapply spec_bind.
    + eapply triple_pre; [apply (triple_ignore_remove (λ _, True) false kept tmpName Ha)|]. by intros s d [Hk _].
    + intros x. apply spec_err. intros s d [_ Hk]. apply Hk.
Qed.

(** A seal that succeeds is in the promise, and does not change. *)
Lemma seal_spec :
  spec up (Seal session) (λ n s d, (pFinal g = None ∨ pFinal g = Some n) ∧ (pGone g = false → zlen (pAcked g) ≤ n)
    ∧ holdsUp session (sealAt n) s d).
Proof.
  unfold Seal. cbv zeta. eapply spec_try; [eapply spec_pre; [apply (ensure_spec false)|]; by intros s d Hup; split|]. intros [].
  eapply spec_bind; [apply read_cases; intros s d Hk; apply Hk|]. intros r. destruct r as [data|e].
  - apply (spec_try _ _ _ (λ _ s d, ∃ n, (ParseUint data = Some n) ∧ (pFinal g = None ∨ pFinal g = Some n)
      ∧ (pGone g = false → zlen (pAcked g) ≤ n) ∧ holdsUp session (sealAt n) s d)).
    { apply spec_sys, spec_call. intros s d [Hk [Hr|?]]; [|done]. split; [apply Hk|].
      split; [apply (upK_syncDir _ _ _ _ D Hk)|]. intros [] Hsy. unfold readFileOn in Hr.
      change (Dir (D ++ [sealName])) with D in Hr. change (base (D ++ [sealName])) with sealName in Hr.
      destruct (fileAt d D sealName) as [[j f]|] eqn:E; [|done]. injection Hr as ->.
      apply file_some in E as (ds & Hds & _ & Hj & Hf). destruct (upK_state _ _ _ _ _ Hk Hds) as (_ & Hok & _).
      destruct (do_marker _ _ Hok j) as (n & f' & Hf' & Hd' & _ & Hn & _); [by left|]. assert (f' = f) as -> by congruence.
      exists n. rewrite Hd', ParseUint_FormatUint by done. split; [done|]. apply seal_sync; [done| |done|done].
      exists ds, j, f. done. }
    intros []. apply triple_ex. intros n. apply triple_pure. intros ->. by apply spec_ok.
  - destruct e; try (apply spec_err; intros s d [Hk _]; apply Hk).
    eapply spec_try.
    { eapply spec_pre; [apply loaded_spec|]. intros s d [(Hup & Hks & _) [Hr|?]]; [|done]. split; [done|]. split; [done|].
      intros _ ds Hds. eapply file_none; [apply Hup| |exact Hds]. unfold readFileOn in Hr.
      change (Dir (D ++ [sealName])) with D in Hr. change (base (D ++ [sealName])) with sealName in Hr.
      by destruct (fileAt d D sealName) as [[? ?]|]. }
    intros l. eapply (triple_pre _ (λ s d, (0 ≤ slLast l ≤ maxUint64 ∧ (pGone g = false → zlen (pAcked g) ≤ slLast l)) ∧ (True ∧ upK true kept s d))).
    2:{ intros s d (Hk & El & Hl). split; [|done]. destruct (loaded_knows s d l Hk El Hl) as (v & Hkn & Hh).
        rewrite (kn_last _ _ Hkn). split; [|intros Hg; pose proof (prefix_length _ _ (kn_acked _ _ Hkn Hg)); lia].
        destruct (kept_state _ _ _ Hk) as [ds Hds]. unfold maxUint64. split; [lia|].
        destruct (Hh ds Hds) as [->|(i & f & Hi & Hf & Hp)]; [done|].
        destruct (upK_state _ _ _ _ _ Hk Hds) as (_ & Hok & _). destruct (do_sane _ _ Hok i f) as [Hz _]; [by left|done|].
        apply prefix_length in Hp. pose proof (encodeFrom_count 0 v). unfold encodeLog in Hp. lia. }
    apply triple_pure. intros [Hn Hak]. eapply spec_try; [apply (openTmp_spec (λ _, True))|]. intros i.
    apply (spec_try _ _ _ (λ _ s d, (pFinal g = None ∨ pFinal g = Some (slLast l)) ∧ (pGone g = false → zlen (pAcked g) ≤ slLast l)
      ∧ holdsUp session (sealAt (slLast l)) s d)); [|intros []; by apply spec_ok].
    apply spec_sys. eapply spec_pre; [by apply writeMarker_spec|]. by intros s d (_ & Hk & Ht).
Qed.

(** *** Reads *)

Lemma needed_gone : pGone g = false → needed = pAcked g.
Proof. unfold needed. by intros ->. Qed.

(** What a page of the session may be: fragments of a log that has the acknowledged ones,
    or that they go beyond; all of them when the page is not limited. *)
Definition goodTail (after mf mb : Z) (sealed : bool) (out : list SessionFragment) : Prop := ∃ w,
  decoded after (drop (Z.to_nat after) w) out ∧ (needed `prefix_of` w ∨ w `prefix_of` needed)
  ∧ (sealed = true → zlen needed ≤ zlen w ∨ (0 < mf ≤ zlen out) ∨ (0 < mb ∧ out ≠ [])).

(** The marker that was read. *)
Definition finalRead (open : bool) (final : option Z) (d : disk) : Prop :=
  match final with
  | Some n => (∃ ds, d !! D = Some ds ∧ is_Some (dLive ds !! sealName)) ∧ zlen needed ≤ n
  | None => open = true
  end.

Lemma readFinal_spec open : spec up (readFinal D open) (λ final s d, up s d ∧ finalRead open final d).
Proof.
  unfold readFinal. eapply spec_bind; [by apply read_cases|]. intros r. destruct r as [data|e].
  - destruct (ParseUint data) as [n|] eqn:En; [|apply spec_err; by intros s d [? _]]. apply spec_ok.
    intros s d [Hup [Hr|?]]; [|done]. split; [done|]. unfold readFileOn in Hr.
    change (Dir (D ++ [sealName])) with D in Hr. change (base (D ++ [sealName])) with sealName in Hr.
    destruct (fileAt d D sealName) as [[j f]|] eqn:E; [|done]. injection Hr as ->.
    apply file_some in E as (ds & Hds & _ & Hj & Hf). destruct (dk_dir _ _ _ (hu_disk _ _ _ _ Hup) ds Hds) as [_ Hok].
    destruct (do_marker _ _ Hok j) as (n' & f' & Hf' & Hd' & _ & Hn' & Hle); [by left|]. assert (f' = f) as -> by congruence.
    rewrite Hd', ParseUint_FormatUint in En by done. injection En as ->. split; [by exists ds; rewrite Hj; eauto|].
    unfold needed. destruct (pGone g); [simpl; lia|by apply Hle].
  - case_decide as Ho; [|apply spec_err; by intros s d [? _]]. apply spec_ok. intros s d [Hup _]. by split; [|destruct Ho].
Qed.

Lemma comparable_needed d i f w rest :
  diskOk session g d → fileAt d D sessionLogName = Some (i, f) → fData f = encodeLog w ++ rest → Forall okPayload w →
  needed `prefix_of` w ∨ w `prefix_of` needed.
Proof.
  intros Hd Hf Ed Hw. destruct (log_needed d i f Hd Hf) as [[Hz _] [r Er]].
  apply (encodeFrom_comparable 0 needed w r rest); [by eapply needed_ok|done|done|..].
  - rewrite Er in Hz. apply log_count in Hz. lia.
  - rewrite Ed in Hz. apply log_count in Hz. lia.
  - exact (eq_trans (eq_sym Er) Ed).
Qed.

(** The start of a page: the beginning of the log, or where the cursor is. *)
Lemma cursor_start s d i f ds after final info c :
  up s d → fileAt d D sessionLogName = Some (i, f) → d !! D = Some ds →
  cursorFor (sessionOf D s) after final info = Some c →
  tcAfter c = after ∧ ∃ w, Forall okPayload w ∧ zlen w = after ∧ tcOffset c = zlen (encodeLog w) ∧ encodeLog w `prefix_of` fData f.
Proof.
  intros [_ _ Hmem] Hf Hds Hc. rewrite Hds in Hmem. unfold cursorFor in Hc.
  destruct (slTail (sessionOf D s)) as [c'|] eqn:E; [|done]. case_decide as Ha; [|done]. injection Hc as ->.
  destruct Ha as [<- _]. split; [done|]. destruct (mo_tail _ _ _ _ Hmem c E) as [_ Hw].
  apply file_some in Hf as (ds' & Hds' & _ & Hi & Hf). assert (ds' = ds) as -> by congruence. by apply (Hw i f).
Qed.

Lemma sessionOf_same s d : up s d → up (setSession D (sessionOf D s) s) d.
Proof. intros Hup. eapply holdsUp_mem; [exact Hup|apply sessionOf_set|done|]. auto. Qed.

(** The cursor after a page is where a log ends. *)
Lemma save_cursor s d i f l n info rs ro :
  up s d → sessionOf D s = l → fileAt d D sessionLogName = Some (i, f) → finalRead false (Some n) d →
  (∃ w, Forall okPayload w ∧ zlen w = rs ∧ ro = zlen (encodeLog w) ∧ encodeLog w `prefix_of` fData f) →
  up (setSession D (MkSession (Some (MkCursor rs ro n info)) (slLoaded l) (slLast l) (slSize l)) s) d.
Proof.
  intros [Hd Hm Hmem] El Hf [(ds & Hds & Hs) _] Hw. split; [done|done|]. rewrite Hds in *. destruct Hmem as [M1 M2 M3]. rewrite El in *.
  split; rewrite sessionOf_set; cbn [slLoaded slLast slSize slTail]; [done|done|]. intros c [= <-]. split; [done|].
  cbn [tcAfter tcOffset]. intros i' f' Hi' Hf'. apply file_some in Hf as (ds' & Hds' & _ & Hi & Hf).
  assert (ds' = ds) as -> by congruence. by simplify_eq.
Qed.

Lemma tail_spec after mf mb open :
  0 ≤ after → spec up (tailPage session after mf mb open) (λ out s d, up s d ∧ goodTail after mf mb (negb open) out).
Proof.
  intros Ha. unfold tailPage. cbv zeta. eapply spec_try; [apply readFinal_spec|]. intros final.
  eapply spec_bind; [apply read_cases; by intros s d []|]. intros r. destruct r as [[i f]|e].
  2:{ case_decide as Ho; [|apply spec_err; by intros s d [[? _] _]]. destruct Ho as [-> ->]. apply spec_ok.
      intros s d [[Hup _] [Hr|?]]; [|done]. split; [done|]. exists []. rewrite drop_nil. split; [constructor|].
      split; [|done]. right. apply prefix_nil. }
  eapply (spec_bind _ _ _ (λ a s d, a = s ∧ up s d ∧ finalRead open final d ∧ fileAt d D sessionLogName = Some (i, f))).
  { apply triple_getMem. intros s d [[Hup Hfin] [Hr|?]]; [|done]. split; [done|]. split; [done|]. split; [done|]. by apply openRead_file. }
  intros s0. set (l := sessionOf D s0). set (info := (i, zlen (fData f), fStamp f)).
  eapply (spec_bind _ _ _ (λ _ s d, up s d ∧ sessionOf D s = l ∧ finalRead open final d ∧ fileAt d D sessionLogName = Some (i, f))).
  { apply triple_modMem. intros s d (<- & Hup & Hfin & Hf). split; [by apply sessionOf_same|]. split; [apply sessionOf_set|done]. }
  intros []. set (cursor := f ← final; cursorFor l after f info).
  destruct (match cursor with Some c => (tcAfter c, tcOffset c) | None => (0, 0) end) as [sequence offset] eqn:Ecur.
  apply (spec_try _ _ _ (λ _ s d, (zlen (fData f) < 2 ^ 63 ∧ sequence ≤ after
      ∧ ∃ w, Forall okPayload w ∧ zlen w = sequence ∧ offset = zlen (encodeLog w) ∧ encodeLog w `prefix_of` fData f)
    ∧ (up s d ∧ sessionOf D s = l ∧ finalRead open final d ∧ fileAt d D sessionLogName = Some (i, f)))).
  { apply spec_sys, spec_read. intros s d (Hup & El & Hfin & Hf). split; [done|]. intros [] _. split; [|done].
    destruct (log_needed d i f (hu_disk _ _ _ _ Hup) Hf) as [[Hz _] _]. split; [done|].
    destruct cursor as [c|] eqn:Ec; [|injection Ecur as <- <-; split; [done|]; exists []; split_and!; [constructor|done|done|apply prefix_nil]].
    injection Ecur as <- <-. unfold cursor in Ec. destruct final as [n|]; [|done]. simpl in Ec. rewrite <-El in Ec.
    apply file_some in Hf as Hf'. destruct Hf' as (ds & Hds & _).
    destruct (cursor_start s d i f ds after n info c Hup Hf Hds Ec) as [<- Hw]. split; [done|exact Hw]. }
  intros []. apply triple_pure. intros (Hz & Hseq & w0 & Hw0 & Hl0 & Ho0 & Hp0).
  destruct (tailRecords (fData f) final sequence offset after mf mb) as [[out [rs ro]]|e] eqn:Et;
    [|apply spec_err; by intros s d [? _]].
  destruct (tailRecords_sound (fData f) final sequence offset after mf mb w0 out rs ro Hz Ha Hseq Hl0 (eq_sym Ho0) Hp0 Hw0 Et)
    as (w & st & [Ed Hok _ _ Hout Hret _] & Hends & -> & Er).
  assert (∀ s d, up s d → fileAt d D sessionLogName = Some (i, f) → finalRead open final d →
    goodTail after mf mb (negb open) (tsOut st)) as Hgood.
  { intros s d Hup Hf Hfin. exists w. split; [done|]. split; [by eapply comparable_needed; [apply Hup|..]|].
    intros Hneg. destruct Hends as [(n & -> & Hn)|[?|[?|[-> _]]]]; [left; destruct Hfin; lia|by right; left|by right; right|].
    simpl in Hfin. by subst open. }
  eapply (spec_bind _ _ _ (λ _ s d, up s d ∧ goodTail after mf mb (negb open) (tsOut st))); [|intros []; by apply spec_ok].
  destruct final as [n|].
  - apply triple_modMem. intros s d (Hup & El & Hfin & Hf). split; [|by eapply Hgood].
    eapply save_cursor; [done|exact El|exact Hf|exact Hfin|].
    destruct Hret as [[_ Hret]|[_ Hret]]; rewrite Hret in Er; injection Er as -> ->; [by exists w0|].
    exists w. split_and!; [done..|]. rewrite Ed. by eexists.
  - apply triple_ret. intros s d (Hup & El & Hfin & Hf). split; [done|by eapply Hgood].
Qed.

(** The head is not before the last acknowledged fragment. *)
Lemma head_spec : spec up (Head session) (λ n s d, up s d ∧ zlen needed ≤ n).
Proof.
  unfold Head. cbv zeta. eapply (spec_bind _ _ _ (λ a s d, a = s ∧ up s d)); [by apply triple_getMem|]. intros s0.
  destruct (slLoaded (sessionOf D s0)) eqn:El.
  { apply spec_ok. intros s d [<- Hup]. split; [done|]. destruct Hup as [_ _ Hmem].
    destruct (d !! D) as [ds|]; [|destruct Hmem as [H1 _]; congruence].
    destruct (mo_loaded _ _ _ _ Hmem El) as (v & -> & _ & _ & Hp & _). unfold needed.
    destruct (pGone g); [simpl; lia|]. specialize (Hp eq_refl). apply prefix_length in Hp. lia. }
  eapply spec_bind; [apply read_cases; by intros s d []|]. intros r. destruct r as [[i f]|e].
  - apply (spec_try _ _ _ (λ _ s d, up s d ∧ fileAt d D sessionLogName = Some (i, f))).
    { apply spec_sys, spec_read. intros s d [[_ Hup] [Hr|?]]; [|done]. split; [done|]. intros _ _. split; [done|]. by apply openRead_file. }
    intros []. destruct (headRecords (fData f)) as [n|e] eqn:E; [|apply spec_err; by intros s d []].
    apply spec_ok. intros s d [Hup Hf]. split; [done|]. destruct (log_needed d i f (hu_disk _ _ _ _ Hup) Hf) as [[Hz _] [r Er]].
    rewrite Er in Hz, E. apply headRecords_sound in E; [lia|done|]. eapply needed_ok. apply Hup.
  - destruct e; apply spec_err; by intros s d [[_ Hup] _].
Qed.

(** A page of one scope, from a place among the acknowledged fragments. *)
Definition goodScope (scope : string) (after final mr mb : Z) (x : list SessionFragment * Z * Z) : Prop := ∃ w,
  x.1.2 = zlen w ∧ x.2 = zlen (encodeLog w) ∧ scopeDecoded scope after (drop (Z.to_nat after) w) x.1.1
  ∧ (needed `prefix_of` w ∨ w `prefix_of` needed)
  ∧ (final ≤ zlen w ∨ 0 < mr ≤ zlen w - after ∨ 0 < mb ∧ x.1.1 ≠ []).

Lemma scope_spec scope w0 after final offset mr mb :
  w0 `prefix_of` needed → zlen w0 = after → zlen (encodeLog w0) = offset →
  spec up (TailScopePage session scope after final offset mr mb) (λ x s d, up s d ∧ goodScope scope after final mr mb x).
Proof.
  intros Hw0 Ha Ho. unfold TailScopePage.
  apply (spec_try _ _ _ (λ x s d, up s d ∧ fileAt d D sessionLogName = Some x)).
  { apply spec_sys, spec_read. intros s d Hup. split; [done|]. intros [i f] Hr. split; [done|]. by apply openRead_file. }
  intros [i f]. rewrite decide_False by lia.
  apply (spec_try _ _ _ (λ _ s d, up s d ∧ fileAt d D sessionLogName = Some (i, f))).
  { apply spec_sys, spec_read. intros s d [Hup Hf]. split; [done|]. done. }
  intros []. destruct (scopeRecords (fData f) scope after final offset mr mb) as [[[out next] noff]|e] eqn:E;
    [|apply spec_err; by intros s d []].
  apply spec_ok. intros s d [Hup Hf]. split; [done|]. destruct (log_needed d i f (hu_disk _ _ _ _ Hup) Hf) as [[Hz _] Hp].
  assert (Forall okPayload w0) as Hok0.
  { destruct Hw0 as [e He]. pose proof (needed_ok d (hu_disk _ _ _ _ Hup)) as Hn. rewrite He in Hn. by apply Forall_app in Hn as [? _]. }
  destruct (scopeRecords_sound (fData f) scope after final mr mb w0 offset out next noff) as (w & st & [Ed Hok Hnx Hof Hout Hr] & Ex & Hends);
    [done|lia|done|done| |done|done|].
  { etransitivity; [|exact Hp]. destruct Hw0 as [e ->]. rewrite encodeLog_app. by eexists. }
  injection Ex as -> -> ->. exists w. simpl. split_and!; [done|done|done|by eapply comparable_needed; [apply Hup|..]|done].
Qed.

Lemma exists_spec : triple up (SessionExists session) (λ _, up) (diskOk session g).
Proof.
  unfold SessionExists. cbv zeta. eapply triple_bind; [by apply read_cases|]. intros r.
  destruct r as [x|e]; [apply triple_ret; by intros s d []|].
  eapply triple_bind; [apply read_cases; by intros s d []|]. intros r. apply triple_ret. by intros s d [[? _] _].
Qed.

(** *** Preparing a session *)

(** A file with the same contents is the same to the memory. *)
Lemma memOk_data s ds i f f' :
  memOk session g s ds → dNodes ds !! i = Some f → fData f' = fData f → memOk session g s (setNodes (<[i := f']> (dNodes ds)) ds).
Proof.
  intros [H1 H2 H3] Hf Hd. split; simpl; [|done|].
  - intros Hl. destruct (H1 Hl) as (v & ? & ? & ? & ? & Hh). exists v. split_and!; try done. intros Hs.
    destruct (Hh Hs) as [->|(j & x & Hj & Hx & Hp)]; [by left|]. right. simpl. destruct (decide (i = j)) as [<-|].
    + exists i, f'. rewrite lookup_insert_eq. simplify_eq. by rewrite Hd.
    + exists j, x. by rewrite lookup_insert_ne.
  - intros c Hc. destruct (H3 c Hc) as [? Hw]. split; [done|]. intros j x Hj.
    destruct (decide (i = j)) as [<-|]; [rewrite lookup_insert_eq; intros [= <-]; rewrite Hd; by apply (Hw i)|].
    rewrite lookup_insert_ne by done. by apply Hw.
Qed.

Lemma upK_open_log s d :
  upK true kept s d →
  upK true kept s (openOn false (D ++ [sessionLogName]) d).2
  ∧ ∀ i, (openOn false (D ++ [sessionLogName]) d).1 = Ok i →
      ∃ ds, (openOn false (D ++ [sessionLogName]) d).2 !! D = Some ds ∧ dLive ds !! sessionLogName = Some i.
Proof.
  intros Hk. unfold openOn. case_decide; [done|].
  change (Dir (D ++ [sessionLogName])) with D. change (base (D ++ [sessionLogName])) with sessionLogName.
  destruct (kept_state _ _ _ Hk) as [ds Hds]. destruct (upK_state _ _ _ _ _ Hk Hds) as (Hhere & Hok & Hmem & Hu).
  specialize (Hu eq_refl). unfold inDir, dirAt. rewrite Hds. simpl. rewrite Hhere. simpl.
  destruct (nodeIn ds sessionLogName) as [[i f]|] eqn:E; simpl.
  { rewrite insert_id by done. split; [done|]. intros _ [= <-]. apply nodeIn_Some in E as [Hi _]. eauto. }
  set (i := fresh (dom (dNodes ds))).
  assert (dNodes ds !! i = None) as Hi by (apply not_elem_of_dom, is_fresh).
  pose proof (nodeIn_None g ds Hok _ E) as Hno. set (ds' := setLive _ _).
  assert (dLive ds' !! sealName = None) as Hs' by (simpl; by rewrite lookup_insert_ne). split.
  - eapply upK_dir; [exact Hk|exact Hds|done|done|by apply dirOk_create| |done].
    destruct Hmem as [M1 M2 M3]. split.
    + intros Hl. destruct (M1 Hl) as (v & ? & ? & ? & ? & Hh). exists v. split_and!; try done. intros _. left.
      destruct (Hh Hu) as [?|(j & f & Hj & _)]; [done|congruence].
    + intros [Hs|(_ & j & Hj & _)]%M2; [rewrite Hu in Hs; by destruct Hs|congruence].
    + intros c [Hs _]%M3. rewrite Hu in Hs. by destruct Hs.
  - intros _ [= <-]. exists ds'. split; [apply lookup_insert_eq|]. simpl. apply lookup_insert_eq.
Qed.

Lemma upK_sync_log u s d ds i :
  upK u kept s d → d !! D = Some ds → dLive ds !! sessionLogName = Some i → upK u kept s (onFile D i syncFile d).2.
Proof.
  intros Hk Hds Hi. destruct (upK_state _ _ _ _ _ Hk Hds) as (_ & Hok & Hmem & Hu). unfold onFile. rewrite Hds. simpl.
  destruct (do_targets _ _ Hok sessionLogName i) as [f Hf]; [by left|].
  assert (alter syncFile i (dNodes ds) = <[i := syncFile f]> (dNodes ds)) as ->.
  { apply map_eq. intros j. destruct (decide (i = j)) as [<-|]; [by rewrite lookup_alter_eq, lookup_insert_eq, Hf|].
    by rewrite lookup_alter_ne, lookup_insert_ne. }
  eapply upK_dir; [exact Hk|exact Hds|done|done| |by eapply memOk_data|done].
  eapply dirOk_alter; [done|exact Hf| |].
  - intros n Hn. rewrite (do_inj _ _ Hok n sessionLogName i); [done|done|by left].
  - intros Hn. split; [exact (do_sane _ _ Hok i f Hn Hf)|]. intros _ Hp. cbn [syncFile fSynced fData]. rewrite take_ge by done.
    etransitivity; [exact Hp|]. by eexists; rewrite take_drop.
Qed.

Lemma prepare_spec : spec up (Prepare session) (λ _, up).
Proof.
  unfold Prepare. case_decide; [by apply spec_err|]. cbv zeta.
  eapply spec_try; [apply statMarker_spec|]. intros [|]; [apply spec_err; by intros s d []|].
  eapply spec_try; [eapply spec_pre; [apply (ensure_spec true)|]; intros s d [Hup Hu]; split; [done|]; split; [done|]; intros _; by apply Hu|].
  intros []. apply (spec_try _ _ _ (λ i s d, upK true kept s d ∧ ∃ ds, d !! D = Some ds ∧ dLive ds !! sessionLogName = Some i)).
  { apply spec_sys, spec_call. intros s d Hk. destruct (upK_open_log s d Hk) as [H1 H2]. split; [apply Hk|]. split; [apply H1|].
    intros i Hi. split; [done|]. by apply H2. }
  intros i. eapply (spec_bind _ _ _ (λ _, up)).
  { apply triple_osCall. intros s d [Hk (ds & Hds & Hi)]. pose proof (upK_sync_log true s d ds i Hk Hds Hi) as Hk'.
    split; [apply Hk'|]. split; [apply Hk|]. split; [apply Hk'|]. split; [apply Hk|apply Hk']. }
  intros r. eapply spec_bind; [apply triple_close; intros s d Hup; exact Hup|]. intros closed.
  apply (spec_try _ _ _ (λ _, up)).
  { apply spec_sys. destruct (r ;;ᵣ closed) as [[]|]; [by apply spec_ok|by apply spec_err]. }
  intros []. apply spec_sys, spec_call. intros s d Hup. split; [done|]. split; [by apply holdsUp_syncDir|]. intros [] _. by apply holdsUp_syncDir.
Qed.

(** *** Reclaiming a session *)

(** The files below a directory are gone; those of the sessions that are not, are not. *)
Lemma holdsUp_removeAll s d t : up s d → up s (removeAllOn (sessionDir t ++ ["fragments"]) d).2.
Proof.
  intros [[Hr Hs Hd Hc Hsm Hleg Hmk] Hm Hmem]. unfold removeAllOn. simpl. set (p := [_; _; _]).
  set (d' := map_imap _ d). assert (∀ q, (length q < 3)%nat → d' !! q = d !! q) as Hlk.
  { intros q Hq. unfold d'. rewrite map_lookup_imap. destruct (d !! q) as [x|]; [|done]. simpl. rewrite decide_False; [done|].
    intros E. apply (f_equal length) in E. rewrite length_take in E. change (length p) with 3%nat in E. lia. }
  assert (∀ q, (length q < 3)%nat → keptAt d q → keptAt d' q) as Hk.
  { intros q Hq (x & Hx & ?). exists x. by rewrite Hlk. }
  split; [split|..].
  - apply Hk; [simpl; lia|done].
  - rewrite Hlk by (simpl; lia). done.
  - rewrite Hlk by (simpl; lia). done.
  - intros [? ?]%Hc. split; apply Hk; simpl; lia || done.
  - done.
  - intros x i f. unfold d'. rewrite map_lookup_imap. destruct (d !! (D ++ ["fragments"])) as [y|] eqn:E; [|done]. simpl.
    intros [= <-] Hf. apply (Hleg y i f E). by case_decide.
  - unfold d'. by rewrite map_lookup_imap, Hmk.
  - intros q Hq Hq'. apply Hk; [destruct Hq' as [->| ->]; simpl; lia|by apply Hm].
  - by rewrite Hlk by (simpl; lia).
Qed.

Definition sealedNow (d : disk) : Prop := ∃ ds, d !! D = Some ds ∧ is_Some (dLive ds !! sealName).

Lemma statSeal_cases :
  triple up (osStat (D ++ [sealName])) (λ r s d, up s d ∧ (∀ x, r = Ok x → sealedNow d)) (diskOk session g).
Proof.
  eapply triple_mono; [by apply read_cases|done| |done]. intros r s d [Hup Hr]. split; [done|]. intros x ->.
  destruct Hr as [Hr|?]; [|done]. unfold statOn in Hr.
  change (Dir (D ++ [sealName])) with D in Hr. change (base (D ++ [sealName])) with sealName in Hr.
  destruct (fileAt d D sealName) as [[j f]|] eqn:E.
  - apply file_some in E as (ds & Hds & _ & Hj & _). exists ds. rewrite Hj. eauto.
  - case_decide as Hs; [|done]. destruct Hs as [y Hy]. unfold dirAt in Hy. by rewrite (dk_marker _ _ _ (hu_disk _ _ _ _ Hup)) in Hy.
Qed.

(** An open session is not reclaimed. *)
Lemma reclaim_open :
  triple (λ s d, up s d ∧ unsealed d) (Reclaim session) (λ r s d, up s d ∧ ∃ e, r = Err e) (diskOk session g).
Proof.
  unfold Reclaim. cbv zeta. eapply triple_try.
  { eapply triple_bind.
    - eapply triple_mono; [eapply (triple_and _ (λ _ d, unsealed d) _ _ (λ _ _ d, unsealed d) _ (λ _, True)); [apply statSeal_cases|]|done| |].
      + apply triple_osRead. by intros s d Hu.
      + intros r s d Hr. exact Hr.
      + by intros d [? _].
    - intros r. apply (triple_ret _ _ (λ x s d, up s d ∧ ∃ e, x = Err e)). intros s d [[Hup Hs] Hu]. split; [done|].
      destruct r as [x|e]; [|by eexists]. destruct (Hs x eq_refl) as (ds & Hds & Hj). rewrite (Hu ds Hds) in Hj. by destruct Hj. }
  - intros e s d [Hup _]. eauto.
  - intros a s d fs [_ [e He]]. done.
Qed.

Lemma reclaim_gone : pGone g = true → spec up (Reclaim session) (λ _, up).
Proof.
  intros Hg. unfold Reclaim. cbv zeta. apply (spec_try _ _ _ (λ _ s d, up s d ∧ sealedNow d)).
  { apply spec_sys. eapply triple_mono; [apply statSeal_cases|done| |done]. intros [x|e] s d [Hup Hs]; [|done]. split; [done|by eapply Hs]. }
  intros x. eapply (spec_bind _ _ _ (λ _ s d, up s d ∧ sealedNow d)).
  { assert (∀ s d, up s d → sealedNow d → up s (removeOn (D ++ [sessionLogName]) d).2 ∧ sealedNow (removeOn (D ++ [sessionLogName]) d).2) as Hrm.
    { intros s d Hup Hs. unfold removeOn. change (Dir (D ++ [sessionLogName])) with D. change (base (D ++ [sessionLogName])) with sessionLogName.
      destruct (fileAt d D sessionLogName) as [[i f]|] eqn:E; [|done]. apply file_some in E as (ds & Hds & Hh & Hi & Hf).
      destruct Hs as (ds' & Hds' & Hs). assert (ds' = ds) as -> by congruence. destruct (dk_dir _ _ _ (hu_disk _ _ _ _ Hup) ds Hds) as [_ Hok].
      unfold inDir, dirAt. rewrite Hds. simpl. rewrite Hh. simpl. set (ds' := setLive _ ds).
      assert (is_Some (dLive ds' !! sealName)) as Hs' by (simpl; by rewrite lookup_delete_ne). split.
      - eapply holdsUp_dir; [exact Hup|exact Hds|done|done|by apply dirOk_remove|].
        pose proof (hu_mem _ _ _ _ Hup) as Hmem. rewrite Hds in Hmem. destruct Hmem as [M1 M2 M3]. split.
        + intros Hl. destruct (M1 Hl) as (v & ? & ? & ? & ? & _). exists v. split_and!; try done.
          intros Hn. rewrite Hn in Hs'. by destruct Hs'.
        + by left.
        + intros c _. split; [done|]. simpl. intros j y Hj. by rewrite lookup_delete_eq in Hj.
      - exists ds'. by rewrite lookup_insert_eq. }
    apply triple_osCall. intros s d [Hup Hs]. destruct (Hrm s d Hup Hs) as [H1 H2].
    split; [done|]. split; [done|]. split; [done|]. split; [apply Hup|apply H1]. }
  intros r. assert (spec (λ s d, up s d ∧ sealedNow d) (_ ←? sys (osRemoveAll (D ++ ["fragments"])); _ ← modMem (dropSession D); syncDir D) (λ _, up)) as Hrest.
  { apply (spec_try _ _ _ (λ _ s d, up s d ∧ sealedNow d)).
    { apply spec_sys, spec_call. intros s d [Hup (ds & Hds & Hs)]. pose proof (holdsUp_removeAll s d session Hup) as H1.
      split; [done|]. split; [done|]. intros [] _. split; [done|]. exists ds. split; [|done].
      unfold removeAllOn. simpl. rewrite map_lookup_imap, Hds. simpl. by rewrite decide_False. }
    intros []. eapply (spec_bind _ _ _ (λ _, up)).
    { apply triple_modMem. intros s d [[Hd Hm Hmem] (ds & Hds & Hs)]. split; [done|done|]. rewrite Hds.
      assert (sessionOf D (dropSession D s) = newSession) as E by (unfold sessionOf; simpl; by rewrite lookup_delete_eq).
      split; rewrite E; [done|by left|done]. }
    intros []. apply spec_sys, spec_call. intros s d Hup. split; [done|]. split; [by apply holdsUp_syncDir|]. intros [] _. by apply holdsUp_syncDir. }
  destruct r as [[]|[]]; first [exact Hrest | apply spec_err; by intros s d []].
Qed.
End specs.

Definition goneOf (g : promise) : promise := MkPromise (pAcked g) (pFinal g) true.

Lemma diskOk_gone `{Digest} session g d : diskOk session g d → diskOk session (goneOf g) d.
Proof.
  intros [Hr Hs Hd Hc Hsm Hleg Hmk]. split; try done.
  - intros ds Hds. destruct (Hd ds Hds) as [? [O1 O2 O3 O4 O5 O6 O7]]. split; [done|]. split; try done.
    intros j Hj. destruct (O5 j Hj) as (n & f & ? & ? & ? & ? & _). by exists n, f.
  - intros [[? _]|?]; [done|]. apply Hc. by right.
Qed.

Lemma holdsUp_gone `{Digest} session g s d : holdsUp session g s d → holdsUp session (goneOf g) s d.
Proof.
  intros [Hd Hm Hmem]. split; [by apply diskOk_gone|done|]. destruct (d !! sessionDir session) as [ds|]; [|done].
  destruct Hmem as [M1 M2 M3]. split; [|done|done]. intros Hl. destruct (M1 Hl) as (v & ? & ? & ? & _ & ?). by exists v.
Qed.

Lemma reclaim_spec `{Digest} session g :
  triple (holdsUp session g) (Reclaim session) (λ _, holdsUp session (goneOf g)) (diskOk session (goneOf g)).
Proof.
  eapply triple_mono; [by apply (reclaim_gone session (goneOf g))|apply holdsUp_gone| |done]. by intros [[]|e].
Qed.
