(* ===== verification/SpoolHistory.v ===== *)
(** * Histories of a follower ([internal/peer/spool.go])

    The operations of a follower run one after another on one disk; some fail, some
    are cut off by a crash of the machine, and the process is restarted. A
    [history] is such a run, with the answers that left the follower. The
    theorems are about every history: a fragment that was acknowledged is in every
    page that covers its number, with the contents it was appended with, until its session
    is reclaimed; a seal that was answered is answered with the same number for good, and
    nothing is appended after it.

    The operations on one session do not disturb another one: they keep its promise
    ([stays]). *)

From S2P Require Import Prelude Ltx Cell Bucket Decimal Frames Disk Spool SpoolDurable.

(** ** Other sessions *)

Section stays.
Context `{Digest} (session : string) (g : promise).
Abbreviation D := (sessionDir session).
Abbreviation up := (holdsUp session g).

(** The program keeps the promise of the session, however it ends. *)
Definition stays {A : Type} (p : io Spool A) : Prop := triple up p (λ _, up) (diskOk session g).

Lemma stays_ret {A : Type} (a : A) : stays (mret a).
Proof. by apply triple_ret. Qed.

Lemma stays_bind {A B : Type} (p : io Spool A) (k : A → io Spool B) : stays p → (∀ a, stays (k a)) → stays (p ≫= k).
Proof. intros Hp Hk. by eapply triple_bind. Qed.

Lemma stays_try {E A B : Type} (p : io Spool (result E A)) (k : A → io Spool (result E B)) :
  stays p → (∀ a, stays (k a)) → stays (tryIO p k).
Proof. intros Hp Hk. apply stays_bind; [done|]. intros [a|e]; [apply Hk|apply stays_ret]. Qed.

Lemma stays_sys {A : Type} (p : io Spool (result errno A)) : stays p → stays (sys p).
Proof. intros Hp. apply stays_bind; [done|]. intros r. apply stays_ret. Qed.

Lemma stays_ignore {A : Type} (p : io Spool A) : stays p → stays (ignore p).
Proof. intros Hp. apply stays_bind; [done|]. intros r. apply stays_ret. Qed.

Lemma stays_andThen {A B : Type} (r : result errno A) (p : A → io Spool (result errno B)) :
  (∀ a, stays (p a)) → stays (andThen r p).
Proof. intros Hp. destruct r; [apply Hp|apply stays_ret]. Qed.

Lemma stays_getMem : stays getMem.
Proof. by apply triple_getMem. Qed.

Lemma stays_mod (f : Spool → Spool) :
  (∀ s, sessionOf D (f s) = sessionOf D s) → (∀ s, D ∈ spSynced (f s) → D ∈ spSynced s) → (∀ s, spMade (f s) = spMade s) →
  stays (modMem f).
Proof.
  intros H1 H2 H3. apply triple_modMem. intros s d Hup. eapply holdsUp_mem; [exact Hup|apply H1|apply H2|].
  intros p Hp _. left. by rewrite H3 in Hp.
Qed.

Lemma stays_call {A : Type} (f : disk → result errno A * disk) : (∀ s d, up s d → up s (f d).2) → stays (osCall f).
Proof. intros Hf. apply triple_osCall. intros s d Hup. pose proof (Hf s d Hup) as Hup'. split_and!; [done..|apply Hup|apply Hup']. Qed.

Lemma stays_sysCall {A : Type} (f : disk → result errno A * disk) (part : nat → disk → disk) :
  (∀ s d, up s d → up s (f d).2) → (∀ n s d, up s d → up s (part n d)) → stays (sysCall f part).
Proof.
  intros Hf Hp. apply triple_sysCall. intros s d Hup. split; [by apply Hf|]. intros n. pose proof (Hp n s d Hup) as Hup'.
  split; [done|apply Hup'].
Qed.

Lemma stays_read {A : Type} (f : disk → result errno A) : stays (osRead f).
Proof. apply triple_osRead. intros s d Hup. split_and!; [done..|apply Hup]. Qed.

Lemma stays_spec {E A : Type} (p : io Spool (result E A)) : spec session g up p (λ _, up) → stays p.
Proof. intros Hp. eapply triple_mono; [exact Hp|done| |done]. by intros [a|e]. Qed.

(** One step of a program, by its head. *)
Ltac step_io :=
  lazymatch goal with
  | |- stays (tryIO _ _) => apply stays_try; [|intros ?]
  | |- stays (_ ≫= _) => apply stays_bind; [|intros ?]
  | |- stays (sys _) => apply stays_sys
  | |- stays (ignore _) => apply stays_ignore
  | |- stays (andThen _ _) => apply stays_andThen; intros ?
  end.

(** A directory that the promise is not about. *)
Section elsewhere.
Context (dir : path) (Hdir : ¬ ours session dir).

Lemma up_inDir {A : Type} (f : dirState → result errno A * dirState) s d : up s d → up s (inDir dir f d).2.
Proof.
  intros Hup. unfold inDir. destruct (dirAt d dir) as [ds|]; [|done]. destruct (f ds). by apply holdsUp_other.
Qed.

Lemma up_onFile i h s d : up s d → up s (onFile dir i h d).2.
Proof. intros Hup. unfold onFile. destruct (d !! dir) as [ds|]; [|done]. by apply holdsUp_other. Qed.

Lemma up_writeOn i off data s d : up s d → up s (writeOn dir i off data d).2.
Proof. intros Hup. unfold writeOn. case_decide; [done|]. by apply up_onFile. Qed.

Lemma stays_open excl n : stays (osOpen excl (dir ++ [n])).
Proof.
  apply stays_call. intros s d Hup. unfold openOn. case_decide; [done|]. unfold Dir. rewrite length_app, Nat.add_sub, take_app_length.
  by apply up_inDir.
Qed.

Lemma stays_remove n : stays (osRemove (dir ++ [n])).
Proof.
  apply stays_call. intros s d Hup. unfold removeOn. case_match; [|done]. unfold Dir. rewrite length_app, Nat.add_sub, take_app_length.
  by apply up_inDir.
Qed.

Lemma stays_truncate i n : stays (osTruncate dir i n).
Proof. apply stays_call. intros s d. apply up_onFile. Qed.

Lemma stays_sync i : stays (osSync dir i).
Proof. apply stays_call. intros s d. apply up_onFile. Qed.

Lemma stays_write i off data : stays (osWriteAt dir i off data).
Proof. apply stays_sysCall; intros; by apply up_writeOn. Qed.

Lemma stays_append i data : stays (osAppend dir i data).
Proof. apply stays_sysCall; intros; unfold appendOn; case_match; try done; by apply up_writeOn. Qed.

Lemma stays_rename a b : stays (osRename dir a b).
Proof. apply stays_call. intros s d Hup. unfold renameOn. case_match; [|done]. case_match. case_decide; [done|]. by apply up_inDir. Qed.
End elsewhere.

Lemma stays_syncDir dir : stays (osSyncDir dir).
Proof. apply stays_call. intros s d. apply holdsUp_syncDir. Qed.

(** *** The operations on another session *)

Lemma stays_mkdirDurable p : p ≠ [] → (length p ≤ 2)%nat → stays (mkdirDurable p (Dir p)).
Proof.
  intros Hp Hl. apply stays_spec. eapply spec_pre; [eapply spec_post; [apply (mkdirDurable_spec session g false []); [done|]|]|].
  - intros ->. simpl in Hl. lia.
  - by intros a s d [(Hup & _) _].
  - by intros s d Hup.
Qed.

Lemma stays_syncOnce dir : dir ≠ D → stays (syncOnce dir).
Proof.
  intros Hd. apply stays_bind; [apply stays_getMem|]. intros s. case_decide; [apply stays_ret|].
  apply stays_try; [apply stays_sys, stays_syncDir|]. intros []. apply stays_bind; [|intros; apply stays_ret].
  apply stays_mod; [done| |done]. simpl. set_solver.
Qed.

Section other.
Context (t : string) (Ht : t ≠ session).
Abbreviation T := (sessionDir t).

Lemma other_dir : T ≠ D.
Proof. intros [= E]. by apply (inj digest) in E. Qed.

Lemma other_ours : ¬ ours session T.
Proof. intros [?|[?|[E|[?|?]]]]; [done|done|by apply other_dir in E|done|done]. Qed.

Lemma stays_ensure : stays (ensureSessionDir T).
Proof.
  apply stays_try; [|intros []].
  - apply (stays_mkdirDurable sessionsDir); [done|simpl; lia].
  - apply (stays_mkdirDurable T); [done|simpl; lia].
Qed.

Lemma sessionOf_other l s : sessionOf D (setSession T l s) = sessionOf D s.
Proof. unfold sessionOf. simpl. rewrite lookup_insert_ne; [done|apply other_dir]. Qed.

Lemma stays_setSession l : stays (modMem (setSession T l)).
Proof. apply stays_mod; [apply sessionOf_other|done|done]. Qed.

Ltac stay_with tac :=
  repeat first
    [ tac | apply stays_ret | apply stays_read | apply stays_getMem | apply stays_ensure | apply stays_syncDir
    | apply stays_setSession | apply stays_open, other_ours | apply stays_remove, other_ours | apply stays_truncate, other_ours
    | apply stays_sync, other_ours | apply stays_write, other_ours | apply stays_rename, other_ours
    | apply stays_syncOnce, other_dir | step_io | case_decide | case_match ].
Ltac stay := stay_with fail.

Lemma stays_readLegacyFiles dir names out : stays (readLegacyFiles dir names out).
Proof. revert out. induction names as [|n names IH]; intros out; cbn [readLegacyFiles]; stay_with ltac:(apply IH). Qed.

Lemma stays_migrate tmp i k size legacy : stays (migrate T tmp i k size legacy).
Proof. revert k size. induction legacy as [|f legacy IH]; intros k size; cbn [migrate]; stay_with ltac:(apply IH). Qed.

Lemma stays_load : stays (loadSessionState T).
Proof.
  unfold loadSessionState, scanSessionState, readLegacySession, finishMigration.
  stay_with ltac:(first [apply stays_readLegacyFiles | apply stays_migrate]).
Qed.

Lemma stays_loaded : stays (loaded T).
Proof. unfold loaded. cbv zeta. stay_with ltac:(apply stays_load). Qed.

Lemma stays_Append appends : stays (AppendSessionGroup t appends).
Proof. unfold AppendSessionGroup, statMarker, writeRecords. cbv zeta. stay_with ltac:(apply stays_loaded). Qed.

Lemma stays_Seal : stays (Seal t).
Proof. unfold Seal, openTmp, writeMarker, syncDir. cbv zeta. stay_with ltac:(apply stays_loaded). Qed.

Lemma stays_Prepare : stays (Prepare t).
Proof. unfold Prepare, statMarker, syncDir. cbv zeta. stay. Qed.

Lemma stays_Head : stays (Head t).
Proof. unfold Head. cbv zeta. stay. Qed.

Lemma stays_TailScopePage scope after final offset mr mb : stays (TailScopePage t scope after final offset mr mb).
Proof. unfold TailScopePage. stay. Qed.

Lemma stays_tailPage after mf mb open : stays (tailPage t after mf mb open).
Proof. unfold tailPage, readFinal. cbv zeta. stay. Qed.

Lemma stays_Reclaim : stays (Reclaim t).
Proof.
  unfold Reclaim, syncDir. cbv zeta.
  assert (stays (osRemoveAll (T ++ ["fragments"]))) as Hrm by (apply stays_call; intros s d; apply holdsUp_removeAll).
  assert (stays (modMem (dropSession T))) as Hdrop.
  { apply stays_mod; [|done|done]. intros s. unfold sessionOf. simpl. rewrite lookup_delete_ne; [done|apply other_dir]. }
  stay_with ltac:(first [exact Hrm | exact Hdrop]).
Qed.
End other.

(** *** The logs of the older protocol *)

Section legacy.
Context (sc : Scope) (epoch : Z) (Hns : Namespace sc ≠ "_sessions").
Abbreviation L := (logDir sc epoch).

Lemma legacy_ours : ¬ ours session L.
Proof. intros [?|[?|[?|[?|?]]]]; done. Qed.

Lemma up_mkdirs qs s d :
  Forall (λ q, q ≠ D ++ [sealName]) qs → up s d →
  up s (foldl (λ d q, if bool_decide (is_Some (dirAt d q)) then d else <[q := newDir]> d) d qs).
Proof.
  intros Hqs. revert d. induction Hqs as [|q qs Hq Hqs IH]; intros d Hup; [done|]. cbn [foldl]. apply IH. case_bool_decide as E; [done|].
  apply holdsUp_mkdir; [done| |done]. apply eq_None_not_Some. exact E.
Qed.

Lemma stays_mkdirAll : stays (osMkdirAll L).
Proof.
  apply stays_call. intros s d Hup. unfold mkdirAllOn. case_match; [done|]. apply up_mkdirs; [|done].
  unfold prefixes, logDir. simpl. repeat constructor; intros [=]; done.
Qed.

Lemma stays_setLog l : stays (modMem (setLog L l)).
Proof. by apply stays_mod. Qed.

Lemma stays_AppendBatch segments : stays (AppendBatch sc epoch segments).
Proof.
  unfold AppendBatch, loadSeen, parseLogFile. cbv zeta.
  repeat first
    [ apply stays_ret | apply stays_read | apply stays_getMem | apply stays_setLog | apply stays_mkdirAll
    | apply stays_open, legacy_ours | apply stays_append, legacy_ours | apply stays_sync, legacy_ours
    | apply stays_syncOnce; intros [=] | step_io
    | case_decide | case_match ].
Qed.
End legacy.

Lemma stays_heldLogs logs out : stays (heldLogs logs out).
Proof.
  revert out. induction logs as [|p logs IH]; intros out; cbn [heldLogs]; [apply stays_ret|].
  repeat (case_match; try apply IH). apply stays_try; [|intros; apply IH].
  unfold parseLogFile. apply stays_bind; [apply stays_read|]. intros r. repeat case_match; apply stays_ret.
Qed.

Lemma stays_Held : stays Held.
Proof. unfold Held. apply stays_try; [apply stays_sys, stays_read|]. intros logs. apply stays_heldLogs. Qed.
End stays.

(** ** Requests and answers *)

Inductive request : Type :=
| RPrepare (session : string)
| RAppend (session : string) (appends : list SessionAppend)
| RSeal (session : string)
| RTail (session : string) (after maxFragments maxBytes : Z)
| RTailOpen (session : string) (after final maxFragments maxBytes : Z)
| RHead (session : string)
| RScope (session scope : string) (after final offset maxRecords maxBytes : Z)
| RReclaim (session : string)
| RExists (session : string)
| RLog (sc : Scope) (epoch : Z) (segments : list bytes)
| RHeld.

Inductive answer : Type :=
| ADone (r : result spoolError unit)
| ASeqs (r : result spoolError (list Z))
| ANumber (r : result spoolError Z)
| APage (r : result spoolError (list SessionFragment))
| AScope (r : result spoolError (list SessionFragment * Z * Z))
| AExists (b : bool)
| ALog (r : result spoolError path)
| AHeld (r : result spoolError (list HeldSegment)).

Definition reply {A : Type} (f : A → answer) (p : io Spool A) : io Spool answer := a ← p; mret (f a).

Definition serve `{Digest} (q : request) : io Spool answer :=
  match q with
  | RPrepare t => reply ADone (Prepare t)
  | RAppend t appends => reply ASeqs (AppendSessionGroup t appends)
  | RSeal t => reply ANumber (Seal t)
  | RTail t after mf mb => reply APage (TailPage t after mf mb)
  | RTailOpen t after final mf mb => reply APage (TailOpenPage t after final mf mb)
  | RHead t => reply ANumber (Head t)
  | RScope t scope after final offset mr mb => reply AScope (TailScopePage t scope after final offset mr mb)
  | RReclaim t => reply ADone (Reclaim t)
  | RExists t => reply AExists (SessionExists t)
  | RLog sc epoch segments => reply ALog (AppendBatch sc epoch segments)
  | RHeld => reply AHeld Held
  end.

(** What a request may be: numbers of 64 bits; records that are not cut; no cell in the
    directory of the sessions. *)
Definition okRequest (q : request) : Prop :=
  match q with
  | RAppend _ appends => zlen appends < 2 ^ 63 ∧ Forall fitsRecord appends
      ∧ Forall (λ a, fits (scopeString (saScope a)) (saEpoch a) (saSegments a)) appends
  | RTail _ after _ _ | RTailOpen _ after _ _ _ => 0 ≤ after
  | RLog sc _ _ => Namespace sc ≠ "_sessions"
  | _ => True
  end.

Definition reclaims (session : string) (q : request) : Prop := q = RReclaim session.

(** ** The promise along a history *)

Record grows (session : string) (q : request) (g g' : promise) : Prop := {
  gr_acked : pGone g' = false → pAcked g `prefix_of` pAcked g';
  gr_final : ∀ n, pFinal g = Some n → pFinal g' = Some n;
  gr_gone : pGone g = true → pGone g' = true;
  gr_reclaim : pGone g' = true → pGone g = true ∨ reclaims session q;
}.

(** What an answer says of the session. *)
Definition tells (session : string) (q : request) (a : answer) (g g' : promise) : Prop :=
  match q, a with
  | RAppend t appends, ASeqs (Ok seqs) => t = session → pFinal g = None ∧ ∃ v,
      (pGone g = false → pAcked g `prefix_of` v) ∧ seqs = seqZ (zlen v + 1) (zlen appends)
      ∧ pAcked g' = v ++ (payloadOf <$> appends)
  | RSeal t, ANumber (Ok n) => t = session →
      pFinal g' = Some n ∧ (pGone g = false → zlen (pAcked g) ≤ n)
  | RTail t after mf mb, APage (Ok out) => t = session → goodTail g after mf mb true out
  | RHead t, ANumber (Ok n) => t = session → zlen (needed g) ≤ n
  | _, _ => True
  end.

Lemma grows_refl session q g : grows session q g g.
Proof. split; auto. Qed.

Section serve.
Context `{Digest} (session : string) (g : promise).
Abbreviation up := (holdsUp session g).

(** A program that keeps the promise and says nothing about the session. *)
Lemma reply_stays {A : Type} (q : request) (f : A → answer) (p : io Spool A) :
  stays session g p → (∀ a, tells session q (f a) g g) →
  triple up (reply f p) (λ a s d, ∃ g', holdsUp session g' s d ∧ grows session q g g' ∧ tells session q a g g')
    (λ d, ∃ g', diskOk session g' d ∧ grows session q g g').
Proof.
  intros Hp Ht. eapply triple_bind.
  - eapply triple_mono; [exact Hp|done|intros a s d Hs; exact Hs|]. intros d Hd. exists g. split; [done|apply grows_refl].
  - intros a. apply triple_ret. intros s d Hup. exists g. split; [done|]. split; [apply grows_refl|apply Ht].
Qed.

(** A program with a specification. *)
Lemma reply_spec {A : Type} (q : request) (f : result spoolError A → answer) (p : io Spool (result spoolError A)) (R : A → Spool → disk → Prop) :
  spec session g up p R → (∀ e, tells session q (f (Err e)) g g) →
  (∀ a s d, R a s d → ∃ g', holdsUp session g' s d ∧ grows session q g g' ∧ tells session q (f (Ok a)) g g') →
  triple up (reply f p) (λ a s d, ∃ g', holdsUp session g' s d ∧ grows session q g g' ∧ tells session q a g g')
    (λ d, ∃ g', diskOk session g' d ∧ grows session q g g').
Proof.
  intros Hp He Hok. eapply triple_bind.
  - eapply triple_mono; [exact Hp|done|intros a s d Hs; exact Hs|]. intros d Hd. exists g. split; [done|apply grows_refl].
  - intros [a|e]; apply triple_ret; intros s d Hs; [by apply Hok|]. exists g. split; [done|]. split; [apply grows_refl|apply He].
Qed.

Lemma stays_scope t scope after final offset mr mb : stays session g (TailScopePage t scope after final offset mr mb).
Proof.
  unfold TailScopePage. apply stays_try; [apply stays_sys, stays_read|]. intros [i f]. case_decide; [apply stays_ret|].
  apply stays_try; [apply stays_sys, stays_read|]. intros []. apply stays_ret.
Qed.

Lemma stays_SessionExists t : stays session g (SessionExists t).
Proof.
  unfold SessionExists. cbv zeta. apply stays_bind; [apply stays_read|]. intros r. case_match; [apply stays_ret|].
  apply stays_bind; [apply stays_read|]. intros r'. apply stays_ret.
Qed.

Lemma stays_TailOpenPage t after final mf mb : 0 ≤ after → stays session g (TailOpenPage t after final mf mb).
Proof.
  intros Ha. unfold TailOpenPage. apply stays_try; [|intros; apply stays_ret].
  destruct (decide (t = session)) as [->|Ht]; [|by apply stays_tailPage].
  apply stays_spec. eapply spec_post; [by apply tail_spec|]. by intros out s d [? _].
Qed.

(** Every request keeps the promise of the session or extends it as its answer tells. *)
Lemma serve_spec q :
  okRequest q →
  triple up (serve q) (λ a s d, ∃ g', holdsUp session g' s d ∧ grows session q g g' ∧ tells session q a g g')
    (λ d, ∃ g', diskOk session g' d ∧ grows session q g g').
Proof.
  intros Hq. destruct q as [t|t appends|t|t after mf mb|t after final mf mb|t|t scope after final offset mr mb|t|t|sc epoch segs|];
    cbn [serve okRequest] in *.
  - apply reply_stays; [|done]. destruct (decide (t = session)) as [->|Ht]; [|by apply stays_Prepare].
    apply stays_spec, prepare_spec.
  - destruct Hq as (Hlen & Hfit & _). destruct (decide (t = session)) as [->|Ht].
    2:{ apply reply_stays; [by apply stays_Append|]. intros [x|e]; [by intros ->|done]. }
    eapply reply_spec; [by apply append_spec|done|]. intros seqs s d (v & Hp & Hfin & Hseqs & Hup). eexists. split; [exact Hup|].
    split; [split; simpl; auto|].
    + intros Hg. etransitivity; [by apply Hp|by eexists].
    + intros _. split; [done|]. exists v. done.
  - destruct (decide (t = session)) as [->|Ht].
    2:{ apply reply_stays; [by apply stays_Seal|]. intros [x|e]; [by intros ->|done]. }
    eapply reply_spec; [apply seal_spec|done|]. intros n s d (Hfin & Hle & Hup). eexists. split; [exact Hup|].
    split; [split; simpl; auto|done]. intros k Hk. destruct Hfin; congruence.
  - destruct (decide (t = session)) as [->|Ht].
    2:{ apply reply_stays; [by apply stays_tailPage|]. intros [x|e]; [by intros ->|done]. }
    eapply reply_spec; [by apply tail_spec|done|]. intros out s d [Hup Hout]. exists g. split; [done|]. split; [apply grows_refl|intros _; exact Hout].
  - apply reply_stays; [by apply stays_TailOpenPage|]. by intros [n|e].
  - destruct (decide (t = session)) as [->|Ht].
    2:{ apply reply_stays; [by apply stays_Head|]. intros [x|e]; [by intros ->|done]. }
    eapply reply_spec; [apply head_spec|done|]. intros n s d [Hup Hn]. exists g. split; [done|]. split; [apply grows_refl|intros _; exact Hn].
  - apply reply_stays; [apply stays_scope|done].
  - destruct (decide (t = session)) as [->|Ht]; [|by apply reply_stays; [apply stays_Reclaim|]].
    assert (grows session (RReclaim session) g (goneOf g)) as Hg by (split; [done|done|done|by right]).
    eapply triple_bind.
    + eapply triple_mono; [apply reclaim_spec|done|intros a s d Hs; exact Hs|]. intros d Hd. by exists (goneOf g).
    + intros a. apply triple_ret. intros s d Hup. by exists (goneOf g).
  - apply reply_stays; [apply stays_SessionExists|done].
  - apply reply_stays; [by apply stays_AppendBatch|done].
  - apply reply_stays; [apply stays_Held|done].
Qed.
End serve.

(** ** Histories *)

(** A request was answered; it was cut off by the death of the process, or of the machine; the
    process was restarted, or the machine, between two requests. *)
Inductive event : Type :=
| Answered (q : request) (a : answer)
| Cut (q : request)
| Restarted.

Section history.
Context `{Digest}.

(** What a crash leaves in the logs can be counted. *)
Definition okCrash (c : crashChoice) (d : disk) : Prop := ∀ session, saneCrash session c d.

Inductive step : Spool * disk → event → Spool * disk → Prop :=
| step_answer q a s d fs m :
    okRequest q → serve q (MkMachine s d fs) = (Some a, m) → step (s, d) (Answered q a) (mem m, dsk m)
| step_killed q s d fs m :
    okRequest q → serve q (MkMachine s d fs) = (None, m) → step (s, d) (Cut q) (NewSpool, dsk m)
| step_crashed q s d fs m c :
    okRequest q → serve q (MkMachine s d fs) = (None, m) → okCrash c (dsk m) → step (s, d) (Cut q) (NewSpool, reboot c (dsk m))
| step_restart s d : step (s, d) Restarted (NewSpool, d)
| step_reboot s d c : okCrash c d → step (s, d) Restarted (NewSpool, reboot c d).

Inductive history : Spool * disk → list event → Spool * disk → Prop :=
| history_nil σ : history σ [] σ
| history_cons σ e σ1 es σ2 : step σ e σ1 → history σ1 es σ2 → history σ (e :: es) σ2.

Lemma history_app σ es es' σ' :
  history σ (es ++ es') σ' → ∃ σ1, history σ es σ1 ∧ history σ1 es' σ'.
Proof.
  revert σ. induction es as [|e es IH]; intros σ Hh; [exists σ; split; [constructor|done]|].
  inversion Hh as [|? ? σ1 ? ? Hs Hr]; subst. apply IH in Hr as (σ2 & ? & ?). exists σ2. split; [by econstructor|done].
Qed.

(** Events that reclaim the session. *)
Definition reclaiming (session : string) (e : event) : Prop :=
  match e with Answered q _ | Cut q => reclaims session q | Restarted => False end.

(** The promise does not shrink over events, while the session is not reclaimed. *)
Record grown (g g' : promise) : Prop := {
  gn_acked : pGone g' = false → pAcked g `prefix_of` pAcked g';
  gn_final : ∀ n, pFinal g = Some n → pFinal g' = Some n;
}.

Abbreviation holding session g σ := (holdsUp session g σ.1 σ.2).

Lemma step_promise session g σ e σ' :
  step σ e σ' → holding session g σ →
  ∃ g', holding session g' σ' ∧ grown g g' ∧ (pGone g' = true → pGone g = true ∨ reclaiming session e)
    ∧ (pGone g = true → pGone g' = true)
    ∧ match e with Answered q a => tells session q a g g' ∧ okRequest q | _ => True end.
Proof.
  intros Hs. destruct Hs as [q a s d fs m Hq E|q s d fs m Hq E|q s d fs m c Hq E Hc|s d|s d c Hc]; simpl; intros Hup.
  - pose proof (serve_spec session g q Hq s d fs Hup) as Hsp. rewrite E in Hsp.
    destruct Hsp as (g' & Hup' & [G1 G2 G3 G4] & Ht). by exists g'.
  - pose proof (serve_spec session g q Hq s d fs Hup) as Hsp. rewrite E in Hsp.
    destruct Hsp as (g' & Hd & [G1 G2 G3 G4]). exists g'. split; [by apply holdsUp_restart|done].
  - pose proof (serve_spec session g q Hq s d fs Hup) as Hsp. rewrite E in Hsp.
    destruct Hsp as (g' & Hd & [G1 G2 G3 G4]). exists g'. split; [by apply holdsUp_crash|done].
  - exists g. split; [apply holdsUp_restart, Hup|]. split; [done|]. auto.
  - exists g. split; [apply holdsUp_crash; [done|apply Hup]|]. split; [done|]. auto.
Qed.

Lemma history_promise session g σ es σ' :
  history σ es σ' → holding session g σ →
  ∃ g', holding session g' σ' ∧ grown g g'
    ∧ (pGone g' = true → pGone g = true ∨ Exists (reclaiming session) es) ∧ (pGone g = true → pGone g' = true).
Proof.
  intros Hh. revert g. induction Hh as [σ|σ e σ1 es σ2 Hs Hh IH]; intros g Hup; [exists g; split; [done|]; split; [done|]; auto|].
  destruct (step_promise session g σ e σ1 Hs Hup) as (g1 & Hup1 & [A1 A2] & R1 & G1 & _).
  destruct (IH g1 Hup1) as (g2 & Hup2 & [B1 B2] & R2 & G2). exists g2. split; [done|]. split; [split|].
  - intros Hg. assert (pGone g1 = false) as Hg1 by (destruct (pGone g1); [by rewrite G2 in Hg|done]).
    etransitivity; [by apply A1|by apply B1].
  - auto.
  - split; [|auto]. intros Hg. destruct (R2 Hg) as [Hg1|?]; [|right; by apply Exists_cons_tl].
    destruct (R1 Hg1); [by left|right; by apply Exists_cons_hd].
Qed.
End history.

(** ** What a follower promised *)

Definition noPromise : promise := MkPromise [] None false.

(** The disk of a follower that has no log of a session yet, only, maybe, whole files of
    the older layout. *)
Record startDisk (d : disk) : Prop := {
  sd_root : keptAt d [];
  sd_here : ∀ p ds, d !! p = Some ds → dHere ds = true;
  sd_empty : ∀ p ds, d !! p = Some ds → length p = 2%nat → dLive ds = ∅ ∧ dStable ds = ∅;
  sd_legacy : ∀ p ds i f, d !! p = Some ds → length p = 3%nat → dNodes ds !! i = Some f →
    zlen (fData f) + 12 < 2 ^ 32 ∧ fDirty f = false;
  sd_marker : ∀ p ds, d !! p = Some ds → last p ≠ Some sealName;
}.

Section promises.
Context `{Digest}.

Lemma start_promise session d : startDisk d → holdsUp session noPromise NewSpool d.
Proof.
  intros [Hr Hh He Hl Hm]. apply holdsUp_restart. split; [done|by intros ds ?%Hh| | |constructor| |].
  - intros ds Hds. split; [by eapply Hh|]. destruct (He _ _ Hds eq_refl) as [Elive Estable].
    assert (∀ n i, ¬ named ds n i) as Hn by (intros n i [Hi|Hi]; [rewrite Elive in Hi|rewrite Estable in Hi]; by rewrite lookup_empty in Hi).
    split; try done; [intros n i Hi; by apply Hn in Hi|intros n n' i Hi; by apply Hn in Hi|intros i f Hi; by apply Hn in Hi
      |intros j Hj; by apply Hn in Hj|intros j Hj; by destruct (Hn sealName j); right].
  - intros [[_ ?]|?]; done.
  - intros ds i f Hds Hf. by eapply Hl.
  - destruct (d !! (sessionDir session ++ [sealName])) as [ds|] eqn:E; [|done]. by destruct (Hm _ _ E).
Qed.

(** The promise at an event of a history. *)
Lemma history_event session d es q a es' σ :
  startDisk d → history (NewSpool, d) (es ++ Answered q a :: es') σ →
  ∃ g g' σ1, grown noPromise g ∧ (pGone g = true → Exists (reclaiming session) es)
    ∧ tells session q a g g' ∧ okRequest q ∧ (pGone g' = true → Exists (reclaiming session) (es ++ [Answered q a]))
    ∧ grown g g' ∧ holdsUp session g' σ1.1 σ1.2 ∧ history σ1 es' σ.
Proof.
  intros Hd (σ0 & H0 & H1)%history_app. destruct (history_promise session noPromise _ _ _ H0) as (g & Hup & Hgr & Hgone & _).
  { by apply start_promise. }
  inversion H1 as [|? ? σ1 ? ? Hs Hr]; subst. destruct (step_promise session g _ _ _ Hs Hup) as (g' & Hup' & Hgr' & Hgone' & _ & Ht & Hq).
  exists g, g', σ1. split_and!; try done.
  - intros Hg. by destruct (Hgone Hg).
  - intros Hg. apply Exists_app. destruct (Hgone' Hg) as [Hg0|?]; [left; by destruct (Hgone Hg0)|right; by apply Exists_cons_hd].
Qed.

(** The promise at a later event. *)
Lemma later_event session g σ es q a es' σ' :
  holdsUp session g σ.1 σ.2 → history σ (es ++ Answered q a :: es') σ' →
  ∃ g1 g2, grown g g1 ∧ (pGone g1 = true → pGone g = true ∨ Exists (reclaiming session) es)
    ∧ tells session q a g1 g2 ∧ okRequest q.
Proof.
  intros Hup (σ0 & H0 & H1)%history_app. destruct (history_promise session g _ _ _ H0 Hup) as (g1 & Hup1 & Hgr & Hgone & _).
  inversion H1 as [|? ? σ1 ? ? Hs Hr]; subst. destruct (step_promise session g1 _ _ _ Hs Hup1) as (g2 & _ & _ & _ & _ & Ht & Hq). eauto 10.
Qed.

(** Without a request to reclaim the session, the promise stands. *)
Lemma not_gone session es q a es1 g' g1 :
  (pGone g' = true → Exists (reclaiming session) (es ++ [Answered q a])) →
  (pGone g1 = true → pGone g' = true ∨ Exists (reclaiming session) es1) →
  ¬ Exists (reclaiming session) (es ++ es1) → ¬ reclaims session q → pGone g1 = false.
Proof.
  intros Hg' Hg1 Hno Hq. rewrite Exists_app in Hno. destruct (pGone g1); [|done]. destruct Hno.
  destruct (Hg1 eq_refl) as [E|?]; [|by right]. apply Hg', Exists_app in E as [?|Hx]; [by left|].
  by inversion_clear Hx as [? ? Hx'|? ? Hx']; [|inversion Hx'].
Qed.

(** An acknowledged append is in the promise under its numbers. *)
Lemma acked_lookup g' v appends seqs i a n :
  pAcked g' = v ++ (payloadOf <$> appends) → seqs = seqZ (zlen v + 1) (zlen appends) →
  appends !! i = Some a → seqs !! i = Some n →
  n = zlen v + 1 + Z.of_nat i ∧ pAcked g' !! Z.to_nat (n - 1) = Some (payloadOf a).
Proof.
  intros Hg -> Ha Hn. apply lookup_seqZ in Hn as [-> Hi]. split; [done|]. rewrite Hg, lookup_app_r by lia.
  rewrite list_lookup_fmap. replace (Z.to_nat (zlen v + 1 + Z.of_nat i - 1) - length v)%nat with i by lia. by rewrite Ha.
Qed.

(** A page that covers a number of the promise has its fragment. *)
Lemma goodTail_covers g after mf mb out n p :
  goodTail g after mf mb true out → 0 ≤ after < n → needed g !! Z.to_nat (n - 1) = Some p →
  (n ≤ after + zlen out → ∃ f, out !! Z.to_nat (n - after - 1) = Some f ∧ decodeSessionFragment n p = Ok f)
  ∧ (mf ≤ 0 → mb ≤ 0 → n ≤ after + zlen out).
Proof.
  intros (w & Hdec & Hcmp & Hends) Hn Hp. pose proof (decoded_length _ _ _ Hdec) as Hl. rewrite length_drop in Hl.
  assert (zlen w ≤ after ∧ out = [] ∨ zlen w = after + zlen out) as Hw.
  { destruct (decide (zlen w ≤ after)); [left; split; [done|]; apply nil_length_inv; lia|right; lia]. }
  assert (n ≤ zlen w → w !! Z.to_nat (n - 1) = Some p) as Hwp.
  { intros Hle. destruct Hcmp as [[e ->]|[e He]]; [by apply lookup_app_l_Some|].
    rewrite He, lookup_app_l in Hp by lia. done. }
  split.
  - intros Hle. assert (n ≤ zlen w) as Hnw by (destruct Hw as [[? ->]|?]; simpl in *; lia).
    destruct (decoded_lookup _ _ _ (Z.to_nat (n - after - 1)) p Hdec) as (f & Hf & Ef).
    { rewrite lookup_drop, <-Hwp by done. f_equal. lia. }
    exists f. split; [done|]. rewrite <-Ef. f_equal. lia.
  - intros Hmf Hmb. apply lookup_lt_Some in Hp. destruct (Hends eq_refl) as [?|[?|?]]; [|lia|lia].
    destruct Hw as [[? ->]|?]; simpl; lia.
Qed.

Lemma acked_fits appends i a :
  okRequest (RAppend EmptyString appends) → appends !! i = Some a →
  ∀ n, decodeSessionFragment n (payloadOf a) = Ok (MkFragment n (scopeString (saScope a)) (saEpoch a) (saSegments a)).
Proof.
  intros (_ & _ & Hf) Ha n. apply decodeSessionFragment_encode. by eapply (Forall_lookup_1 _ _ _ _ Hf).
Qed.

(** A read of the disk does not depend on the memory. *)
Lemma osRead_any {A : Type} (f : disk → result errno A) (d : disk) fs :
  ∃ r fs', (∀ s : Spool, osRead f (MkMachine s d fs) = (r, MkMachine s d fs')) ∧ (r = None ∨ r = Some (f d) ∨ r = Some (Err EIO)).
Proof. unfold osRead, sysCall. destruct fs as [|[|n|n] fs]; simpl; eauto 10. Qed.

(** The memory without the session's cursor. *)
Definition withoutCursor (session : string) (s : Spool) : Spool :=
  let l := sessionOf (sessionDir session) s in
  setSession (sessionDir session) (MkSession None (slLoaded l) (slLast l) (slSize l)) s.

Lemma tail_without_cursor session g s d fs after mf mb :
  holdsUp session g s d → 0 ≤ after →
  (TailPage session after mf mb (MkMachine s d fs)).1 = (TailPage session after mf mb (MkMachine (withoutCursor session s) d fs)).1.
Proof.
  intros Hup Ha. set (s' := withoutCursor session s). unfold TailPage, tailPage, readFinal. cbv zeta.
  unfold tryIO, mbind, io_bind. cbn beta.
  destruct (osRead_any (readFileOn (sessionDir session ++ [sealName])) d fs) as (r1 & fs1 & E1 & C1).
  unfold osReadFile. rewrite !E1. destruct r1 as [[data|e]|]; [|by rewrite decide_False by naive_solver|done].
  destruct (ParseUint data) as [n|]; [|done]. cbn [mret io_ret].
  destruct (osRead_any (openReadOn (sessionDir session ++ [sessionLogName])) d fs1) as (r2 & fs2 & E2 & C2).
  unfold osOpenRead. rewrite !E2. destruct r2 as [[[i f]|e]|]; [|by rewrite decide_False by naive_solver|done].
  assert (fileAt d (sessionDir session) sessionLogName = Some (i, f)) as Hf.
  { apply openRead_file. destruct C2 as [?|[C2|?]]; [done|by injection C2|done]. }
  cbn [getMem modMem mem dsk faults option_bind]. cbn beta iota.
  assert (cursorFor (sessionOf (sessionDir session) s') after n (i, zlen (fData f), fStamp f) = None) as ->.
  { unfold s', withoutCursor. by rewrite sessionOf_set. }
  destruct (osRead_any (λ _, Ok tt) d fs2) as (r3 & fs3 & E3 & _). unfold sys, osReadAll, mbind, io_bind.
  destruct (cursorFor (sessionOf (sessionDir session) s) after n (i, zlen (fData f), fStamp f)) as [c|] eqn:Ec;
    rewrite !E3; (destruct r3 as [[[]|]|]; [|done|done]); cbn [rmap_err mret io_ret].
  2:{ by destruct (tailRecords (fData f) (Some n) 0 0 after mf mb) as [[out [rs ro]]|]. }
  apply file_some in Hf as Hf'. destruct Hf' as (ds & Hds & _).
  destruct (cursor_start session g s d i f ds after n _ c Hup Hf Hds Ec) as (<- & w & Hok & Hw & Ho & Hp).
  destruct (log_needed session g d i f (hu_disk _ _ _ _ Hup) Hf) as [[Hz _] _].
  pose proof (tailRecords_cursor (fData f) n w (tcAfter c) mf mb Hz Hok Hp Hw) as Hpage. rewrite <-Ho in Hpage.
  destruct (tailRecords (fData f) (Some n) (tcAfter c) (tcOffset c) (tcAfter c) mf mb) as [[out [rs ro]]|e];
    destruct (tailRecords (fData f) (Some n) 0 0 (tcAfter c) mf mb) as [[out' [rs' ro']]|e']; simpl in Hpage;
    by simplify_eq.
Qed.
End promises.

(** An acknowledged fragment is in the pages that cover it. *)
Lemma page_has_acked `{Digest} d0 es0 session appends seqs es1 after mf mb page es2 σ i a n :
  startDisk d0 →
  history (NewSpool, d0)
    (es0 ++ Answered (RAppend session appends) (ASeqs (Ok seqs)) :: es1
         ++ Answered (RTail session after mf mb) (APage (Ok page)) :: es2) σ →
  ¬ Exists (reclaiming session) (es0 ++ es1) →
  appends !! i = Some a → seqs !! i = Some n → after < n →
  (n ≤ after + zlen page →
     page !! Z.to_nat (n - after - 1) = Some (MkFragment n (scopeString (saScope a)) (saEpoch a) (saSegments a)))
  ∧ (mf ≤ 0 → mb ≤ 0 → n ≤ after + zlen page).
Proof.
  intros Hd Hh Hno Ha Hn Hlt.
  destruct (history_event session _ _ _ _ _ _ Hd Hh) as (g & g' & σ1 & _ & Hg & Ht & Hq & Hg' & _ & Hup & Hr).
  destruct (later_event session g' σ1 _ _ _ _ _ Hup Hr) as (g1 & g2 & Hgr & Hg1 & Ht1 & Hq1).
  destruct (Ht eq_refl) as (_ & v & _ & Hseqs & Hacked). specialize (Ht1 eq_refl).
  pose proof (not_gone session _ _ _ _ _ _ Hg' Hg1 Hno (λ E, ltac:(discriminate E))) as Hgone.
  destruct (acked_lookup g' v appends seqs i a n Hacked Hseqs Ha Hn) as [-> Hp].
  destruct (goodTail_covers g1 after mf mb page (zlen v + 1 + Z.of_nat i) (payloadOf a) Ht1) as [H1 H2].
  { simpl in Hq1. lia. }
  { rewrite needed_gone by done. destruct (gn_acked _ _ Hgr Hgone) as [e ->]. by apply lookup_app_l_Some. }
  split; [|done]. intros Hle. destruct (H1 Hle) as (f & Hf & Ef). rewrite Hf. f_equal.
  rewrite (acked_fits appends i a) in Ef by done. by injection Ef.
Qed.

(** C15: what a follower acknowledged survives. In every run of a follower (any
    requests on any sessions, calls that fail, processes that die in the middle of a
    call, machines that crash and lose what was not synced), a fragment whose append was
    answered with the number [n] is in every later page of the sealed session that covers [n],
    unchanged; and a page without limits covers it, unless the session was reclaimed. *)
Theorem acknowledged_survives `{Digest} d0 es0 session appends seqs es1 after mf mb page es2 σ i a n :
  startDisk d0 →
  history (NewSpool, d0)
    (es0 ++ Answered (RAppend session appends) (ASeqs (Ok seqs)) :: es1
         ++ Answered (RTail session after mf mb) (APage (Ok page)) :: es2) σ →
  ¬ Exists (reclaiming session) (es0 ++ es1) →
  appends !! i = Some a → seqs !! i = Some n → after < n →
  (n ≤ after + zlen page →
     page !! Z.to_nat (n - after - 1) = Some (MkFragment n (scopeString (saScope a)) (saEpoch a) (saSegments a)))
  ∧ (mf ≤ 0 → mb ≤ 0 → n ≤ after + zlen page).
Proof. apply page_has_acked. Qed.

(** Nothing changes after a seal. *)
Lemma seal_is_final `{Digest} d0 es0 session n es1 q a es2 σ :
  startDisk d0 →
  history (NewSpool, d0) (es0 ++ Answered (RSeal session) (ANumber (Ok n)) :: es1 ++ Answered q a :: es2) σ →
  (∀ m, q = RSeal session → a = ANumber (Ok m) → m = n)
  ∧ (∀ appends seqs, q = RAppend session appends → a ≠ ASeqs (Ok seqs)).
Proof.
  intros Hd Hh. destruct (history_event session _ _ _ _ _ _ Hd Hh) as (g & g' & σ1 & _ & _ & Ht & _ & _ & _ & Hup & Hr).
  assert (history σ1 (es1 ++ Answered q a :: es2) σ) as (σ2 & H0 & H1)%history_app by exact Hr.
  destruct (history_promise session g' _ _ _ H0 Hup) as (g1 & Hup1 & Hgr & _).
  inversion H1 as [|? ? σ3 ? ? Hs Hr']; subst. destruct (step_promise session g1 _ _ _ Hs Hup1) as (g2 & _ & Hgr2 & _ & _ & Ht2 & _).
  destruct (Ht eq_refl) as [Hfin _]. pose proof (gn_final _ _ Hgr _ Hfin) as Hfin1. split.
  - intros m -> ->. destruct (Ht2 eq_refl) as [Hm _]. rewrite (gn_final _ _ Hgr2 _ Hfin1) in Hm. by injection Hm.
  - intros appends seqs -> ->. destruct (Ht2 eq_refl) as [Hno _]. congruence.
Qed.

(** C16: a seal is final. Once a follower has answered the seal of a session with a number,
    every later answer to a seal of the session is that number and no append to the
    session is acknowledged, whatever fails or crashes in between. *)
Theorem sealed_for_good `{Digest} d0 es0 session n es1 q a es2 σ :
  startDisk d0 →
  history (NewSpool, d0) (es0 ++ Answered (RSeal session) (ANumber (Ok n)) :: es1 ++ Answered q a :: es2) σ →
  (∀ m, q = RSeal session → a = ANumber (Ok m) → m = n)
  ∧ (∀ appends seqs, q = RAppend session appends → a ≠ ASeqs (Ok seqs)).
Proof. apply seal_is_final. Qed.

(** The numbers of later answers. *)
Lemma acked_numbers `{Digest} d0 es0 session appends seqs es1 q a es2 σ n :
  startDisk d0 →
  history (NewSpool, d0)
    (es0 ++ Answered (RAppend session appends) (ASeqs (Ok seqs)) :: es1 ++ Answered q a :: es2) σ →
  ¬ Exists (reclaiming session) (es0 ++ es1) → n ∈ seqs →
  (∀ later seqs', q = RAppend session later → a = ASeqs (Ok seqs') → Forall (λ m, n < m) seqs')
  ∧ (∀ m, q = RSeal session ∨ q = RHead session → a = ANumber (Ok m) → n ≤ m).
Proof.
  intros Hd Hh Hno [i Hi]%list_elem_of_lookup.
  destruct (history_event session _ _ _ _ _ _ Hd Hh) as (g & g' & σ1 & _ & Hg & Ht & Hq & Hg' & _ & Hup & Hr).
  destruct (later_event session g' σ1 _ _ _ _ _ Hup Hr) as (g1 & g2 & Hgr & Hg1 & Ht1 & Hq1).
  destruct (Ht eq_refl) as (_ & v & _ & -> & Hacked).
  pose proof (not_gone session _ _ _ _ _ _ Hg' Hg1 Hno (λ E, ltac:(discriminate E))) as Hgone.
  apply lookup_seqZ in Hi as [-> Hi]. pose proof (prefix_length _ _ (gn_acked _ _ Hgr Hgone)) as Hlen.
  rewrite Hacked, length_app, length_fmap in Hlen. split.
  - intros later seqs' -> ->. destruct (Ht1 eq_refl) as (_ & v1 & Hv1 & -> & _).
    specialize (Hv1 Hgone). apply prefix_length in Hv1. apply Forall_forall. intros m Hm%elem_of_seqZ. lia.
  - intros m [-> | ->] ->; [destruct (Ht1 eq_refl) as [_ Hle]; specialize (Hle Hgone)|specialize (Ht1 eq_refl) as Hle; rewrite needed_gone in Hle by done]; lia.
Qed.

(** Numbers are not given twice and not lost. After an append was answered with the
    number [n], a later append to the session is answered with larger numbers, and a
    later seal or head of the session is not before [n], whatever fails or crashes in
    between, unless the session was reclaimed. *)
Theorem numbers_increase `{Digest} d0 es0 session appends seqs es1 q a es2 σ n :
  startDisk d0 →
  history (NewSpool, d0)
    (es0 ++ Answered (RAppend session appends) (ASeqs (Ok seqs)) :: es1 ++ Answered q a :: es2) σ →
  ¬ Exists (reclaiming session) (es0 ++ es1) → n ∈ seqs →
  (∀ later seqs', q = RAppend session later → a = ASeqs (Ok seqs') → Forall (λ m, n < m) seqs')
  ∧ (∀ m, q = RSeal session ∨ q = RHead session → a = ANumber (Ok m) → n ≤ m).
Proof. apply acked_numbers. Qed.

(** The cursor of a sealed session is only an optimization: in every state that a
    follower can reach, a page read with the cursor is the page read without it. *)
Theorem cursor_changes_nothing `{Digest} d0 es s d session after mf mb fs :
  startDisk d0 → history (NewSpool, d0) es (s, d) → 0 ≤ after →
  (TailPage session after mf mb (MkMachine s d fs)).1
  = (TailPage session after mf mb (MkMachine (withoutCursor session s) d fs)).1.
Proof.
  intros Hd Hh Ha. destruct (history_promise session noPromise _ _ _ Hh) as (g & Hup & _); [by apply start_promise|].
  by apply (tail_without_cursor session g).
Qed.

(** ** Runs *)

(** A crash that loses everything that was not durable. *)
Definition plainCrash : crashChoice := MkCrash (λ _, false) (λ _ _, false) (λ _ _, []).

(** Requests with the faults they meet: a call that dies takes the process down, or, when
    [crash] is set, the machine. Between them the machine may be restarted. *)
Inductive move : Type :=
| Request (q : request) (fs : list fault) (crash : bool)
| Reboot.

Definition makeMove `{Digest} (v : move) (σ : Spool * disk) : event * (Spool * disk) :=
  match v with
  | Request q fs crash =>
      match serve q (MkMachine σ.1 σ.2 fs) with
      | (Some a, m) => (Answered q a, (mem m, dsk m))
      | (None, m) => (Cut q, (NewSpool, if crash then reboot plainCrash (dsk m) else dsk m))
      end
  | Reboot => (Restarted, (NewSpool, reboot plainCrash σ.2))
  end.

Fixpoint play `{Digest} (moves : list move) (σ : Spool * disk) : list event * (Spool * disk) :=
  match moves with
  | [] => ([], σ)
  | v :: moves =>
      let '(e, σ1) := makeMove v σ in
      let '(es, σ2) := play moves σ1 in (e :: es, σ2)
  end.

Definition okMove (v : move) : Prop := match v with Request q _ _ => okRequest q | Reboot => True end.

Section play.
Context `{Digest}.

Lemma saneLog_take n data : saneLog data → saneLog (take n data).
Proof.
  intros [Hz Hs]. split; [rewrite length_take; lia|]. intros v rest E Hv.
  apply (Hs v (rest ++ drop n data)); [|done]. by rewrite app_assoc, <-E, take_drop.
Qed.

Lemma plain_ok d : (∀ session, ∃ g, diskOk session g d) → okCrash plainCrash d.
Proof.
  intros Hd session ds i f Hds Hf Hn. destruct (Hd session) as [g Hg]. destruct (dk_dir _ _ _ Hg ds Hds) as [_ Hok].
  pose proof (do_sane _ _ Hok i f Hn Hf) as Hs. unfold rebootFile. simpl. destruct (fDirty f); [|done].
  rewrite app_nil_r. by apply saneLog_take.
Qed.

Lemma makeMove_step v σ : (∀ session, ∃ g, holdsUp session g σ.1 σ.2) → okMove v → step σ (makeMove v σ).1 (makeMove v σ).2.
Proof.
  destruct σ as [s d]. intros Hup Hq. destruct v as [q fs crash|]; simpl in *.
  - destruct (serve q (MkMachine s d fs)) as [[a|] m] eqn:E; [by econstructor|]. destruct crash; [|by econstructor].
    eapply step_crashed; [done|done|]. apply plain_ok. intros session. destruct (Hup session) as [g Hg].
    pose proof (serve_spec session g q Hq s d fs Hg) as Hs. rewrite E in Hs. destruct Hs as (g' & ? & _). eauto.
  - apply step_reboot, plain_ok. intros session. destruct (Hup session) as [g Hg]. exists g. apply Hg.
Qed.

Lemma play_history moves σ :
  (∀ session, ∃ g, holdsUp session g σ.1 σ.2) → Forall okMove moves → history σ (play moves σ).1 (play moves σ).2.
Proof.
  intros Hup Hok. revert σ Hup. induction Hok as [|v moves Hq Hok IH]; intros σ Hup; [constructor|]. cbn [play].
  pose proof (makeMove_step v σ Hup Hq) as Hs. destruct (makeMove v σ) as [e σ1]. specialize (IH σ1).
  destruct (play moves σ1) as [es σ2]. econstructor; [exact Hs|]. apply IH. intros session. destruct (Hup session) as [g Hg].
  destruct (step_promise session g _ _ _ Hs Hg) as (g' & Hg' & _). by exists g'.
Qed.

(** A run from a follower's first start *)
Lemma play_start moves d es :
  startDisk d → Forall okMove moves → (play moves (NewSpool, d)).1 = es →
  history (NewSpool, d) es (play moves (NewSpool, d)).2.
Proof.
  intros Hd Hok <-. apply play_history; [|done]. intros session. exists noPromise. by apply start_promise.
Qed.
End play.

(** ** Examples *)

Section example.
Instance exampleDigest : Digest := {| digest := id |}.

(** An empty spool. *)
Definition emptyDisk : disk := {[ [] := MkDirState ∅ ∅ ∅ true true ]}.

Lemma emptyDisk_start : startDisk emptyDisk.
Proof.
  unfold emptyDisk. split.
  - exists (MkDirState ∅ ∅ ∅ true true). split; [apply lookup_singleton_eq|done].
  - intros p ds [<- <-]%lookup_singleton_Some. done.
  - intros p ds [<- <-]%lookup_singleton_Some. done.
  - intros p ds i f [<- <-]%lookup_singleton_Some. done.
  - intros p ds [<- <-]%lookup_singleton_Some. done.
Qed.

Definition exampleScope : Scope := MkScope "app" "room" "a".
Definition exampleSegment (t : Z) : bytes := Encode (MkHeader 1 KindDelta 0 7 t t 0 0) (bs "page").
Definition exampleAppend (t : Z) : SessionAppend := MkAppend exampleScope 7 [exampleSegment t].

Lemma example_ok t : 0 ≤ t < 2 ^ 64 → okRequest (RAppend "s" [exampleAppend t]).
Proof.
  intros Ht. assert (zlen (exampleSegment t) = 48) as Hz by (unfold exampleSegment; rewrite zlen_Encode; done).
  split; [done|]. split.
  - apply Forall_singleton. unfold fitsRecord, payloadOf, encodeSessionFragment. rewrite !length_app, !length_be_enc.
    change (saSegments (exampleAppend t)) with [exampleSegment t]. pose proof (zlen_EncodeFrames_cons (exampleSegment t) []) as Hf.
    change (zlen (EncodeFrames [])) with 0 in Hf. change (length (bs (scopeString (saScope (exampleAppend t))))) with 10%nat. lia.
  - apply Forall_singleton. split; [done|done| |done]. apply Forall_singleton. unfold shortSegment. lia.
Qed.

(** An append; one that dies with the machine when its log is synced; the seal; the tail. *)
Definition exampleMoves : list move :=
  [Request (RAppend "s" [exampleAppend 1]) [] false;
   Request (RAppend "s" [exampleAppend 2]) (replicate 4 Fine ++ [Die 0]) true;
   Request (RAppend "s" [exampleAppend 3]) [] false;
   Request (RSeal "s") [] false; Request (RTail "s" 0 0 0) [] false; Request (RSeal "s") [] false].

Definition exampleFragment (n t : Z) : SessionFragment := MkFragment n "app/room/a" 7 [exampleSegment t].

Definition exampleEvents : list event :=
  [Answered (RAppend "s" [exampleAppend 1]) (ASeqs (Ok [1]));
   Cut (RAppend "s" [exampleAppend 2]);
   Answered (RAppend "s" [exampleAppend 3]) (ASeqs (Ok [2]));
   Answered (RSeal "s") (ANumber (Ok 2));
   Answered (RTail "s" 0 0 0) (APage (Ok [exampleFragment 1 1; exampleFragment 2 3]));
   Answered (RSeal "s") (ANumber (Ok 2))].

Lemma exampleMoves_ok : Forall okMove exampleMoves.
Proof.
  repeat (apply Forall_cons_2; [first [apply example_ok; lia | done]|]). apply Forall_nil_2.
Qed.

Lemma example_history : history (NewSpool, emptyDisk) exampleEvents (play exampleMoves (NewSpool, emptyDisk)).2.
Proof. apply play_start; [apply emptyDisk_start|apply exampleMoves_ok|]. vm_compute. reflexivity. Qed.

(** The events of the run do not reclaim the session. *)
Lemma example_kept n m : ¬ Exists (reclaiming "s") (take n exampleEvents ++ take m (drop 1 exampleEvents)).
Proof.
  rewrite Exists_app. intros [Hx|Hx]; apply Exists_exists in Hx as (e & He & Hr).
  - apply elem_of_take in He as (i & He & _). by do 6 (destruct i as [|i]; [injection He as <-; discriminate Hr|]).
  - apply elem_of_take in He as (i & He & _). by do 5 (destruct i as [|i]; [injection He as <-; discriminate Hr|]).
Qed.

Lemma acknowledged_survives_witness :
  [exampleFragment 1 1; exampleFragment 2 3] !! Z.to_nat (1 - 0 - 1)
  = Some (MkFragment 1 (scopeString exampleScope) 7 [exampleSegment 1]).
Proof.
  apply (acknowledged_survives emptyDisk [] "s" [exampleAppend 1] [1] (take 3 (drop 1 exampleEvents)) 0 0 0
    [exampleFragment 1 1; exampleFragment 2 3] (drop 5 exampleEvents) _ 0%nat (exampleAppend 1) 1
    emptyDisk_start example_history (example_kept 0 3) eq_refl eq_refl); simpl; lia.
Defined.

Lemma sealed_for_good_witness :
  exampleEvents !! 5%nat = Some (Answered (RSeal "s") (ANumber (Ok 2))) ∧ ∀ m, ANumber (Ok 2) = ANumber (Ok m) → m = 2.
Proof.
  split; [reflexivity|]. intros m. apply (sealed_for_good emptyDisk (take 3 exampleEvents) "s" 2 (take 1 (drop 4 exampleEvents)) (RSeal "s")
    (ANumber (Ok 2)) [] _ emptyDisk_start example_history). reflexivity.
Defined.

Lemma numbers_increase_witness : Forall (λ m, 1 < m) [2].
Proof.
  eapply (proj1 (numbers_increase emptyDisk [] "s" [exampleAppend 1] [1] (take 1 (drop 1 exampleEvents)) (RAppend "s" [exampleAppend 3])
    (ASeqs (Ok [2])) (drop 3 exampleEvents) _ 1 emptyDisk_start example_history (example_kept 0 1)
    (list_elem_of_here _ _))); reflexivity.
Defined.

Definition exampleEnd : Spool * disk := (play exampleMoves (NewSpool, emptyDisk)).2.

Lemma cursor_changes_nothing_witness :
  (TailPage "s" 1 1 0 (MkMachine exampleEnd.1 exampleEnd.2 [])).1
  = (TailPage "s" 1 1 0 (MkMachine (withoutCursor "s" exampleEnd.1) exampleEnd.2 [])).1.
Proof.
  apply (cursor_changes_nothing emptyDisk exampleEvents exampleEnd.1 exampleEnd.2 "s" 1 1 0 [] emptyDisk_start).
  - rewrite <-surjective_pairing. apply example_history.
  - lia.
Defined.
End example.
