(* ===== verification/SpoolLimits.v ===== *)
(** * What a follower's spool does not keep

    Runs of a follower (peer/spool.go) that show the limits of what SpoolHistory.v
    proves. [log_*]: the append log of the older protocol ([AppendBatch]), which is not
    written like the log of a session, acknowledges segments that it does not hold, or
    that a crash takes away. [seal_before_sync]: the seal of a session counts records
    that no sync has made durable. Each run is a history of the model, from an empty
    spool. *)

From S2P Require Import Prelude Ltx Cell Bucket Decimal Frames Disk Spool SpoolDurable SpoolHistory.

Section limits.
Local Existing Instance exampleDigest.

Definition logRequest (t : Z) : request := RLog exampleScope 7 [exampleSegment t].
Definition exampleLog : path := logPath exampleScope 7.

(** The run of the moves, from an empty spool, has the events. *)
Definition shows (moves : list move) (es : list event) : Prop :=
  history (NewSpool, emptyDisk) es (play moves (NewSpool, emptyDisk)).2.

Lemma logRequest_ok t fs crash : okMove (Request (logRequest t) fs crash).
Proof. done. Qed.

Ltac show_run :=
  apply play_start; [apply emptyDisk_start
    |repeat (apply Forall_cons_2; [first [apply logRequest_ok|apply example_ok; lia|done]|]); apply Forall_nil_2
    |vm_compute; reflexivity].

(** The retry of an append that failed is acknowledged although nothing is stored: the
    identities were noted before the write, and stay. *)
Example log_retry_not_stored :
  shows [Request (logRequest 1) (replicate 3 Fine ++ [Fail 0]) false; Request (logRequest 1) [] false; Request RHeld [] false]
    [Answered (logRequest 1) (ALog (Err (EOs EIO))); Answered (logRequest 1) (ALog (Ok exampleLog));
     Answered RHeld (AHeld (Ok []))].
Proof. show_run. Qed.

(** A torn record of a process that was killed is not cut off before the next append, whose
    segments are read as its end: what is held is neither segment. *)
Example log_torn_tail_swallows :
  shows [Request (logRequest 1) (replicate 3 Fine ++ [Die 10]) false; Request (logRequest 2) [] false; Request RHeld [] false]
    [Cut (logRequest 1); Answered (logRequest 2) (ALog (Ok exampleLog));
     Answered RHeld (AHeld (Ok [MkHeld "app/room/a" 7 (take 6 (exampleSegment 1) ++ take 42 (EncodeFrames [exampleSegment 2]))]))].
Proof. show_run. Qed.

(** Only the directory of the log is synced, not the new directories above it. *)
Example log_directory_lost :
  shows [Request (logRequest 1) [] false; Reboot; Request RHeld [] false]
    [Answered (logRequest 1) (ALog (Ok exampleLog)); Restarted; Answered RHeld (AHeld (Ok []))].
Proof. show_run. Qed.

(** A seal after a restart of the process counts a record that its append had not yet synced.
    A crash of the machine can take the record away; the tail of the session is then
    not readable, acknowledged fragments included. *)
Example seal_before_sync :
  shows [Request (RAppend "s" [exampleAppend 1]) [] false;
         Request (RAppend "s" [exampleAppend 2]) (replicate 4 Fine ++ [Die 0]) false;
         Request (RSeal "s") [] false; Reboot; Request (RTail "s" 0 0 0) [] false]
    [Answered (RAppend "s" [exampleAppend 1]) (ASeqs (Ok [1])); Cut (RAppend "s" [exampleAppend 2]);
     Answered (RSeal "s") (ANumber (Ok 2)); Restarted; Answered (RTail "s" 0 0 0) (APage (Err (EFormat EIncomplete)))].
Proof. show_run. Qed.
End limits.
