(* ===== verification/Peer.v ===== *)
(** * Between owners and followers ([internal/peer], [internal/server])

    The follower's HTTP handlers ([handlePeer*] of internal/server/server.go) over its spool,
    behind the check of the identity that the request asks for ([peerIdentity]), and the
    transport of the owners and recoveries that calls them ([HTTPTransport]).

    A request is its method, path, query, headers and body; a response its status, headers
    and the value that is sent as JSON: encoding a value and decoding it, and escaping a
    query, are taken to be inverse. A caller may get no response ([ask] answers [None]).
    The authorization of a request is an argument.

    The theorems: whatever a handler does is a history of the spool, and what a response
    says are the answers of that history; a caller that asks for an identity accepts
    an answer only from the follower that has it; an owner that uses identities gets no
    acknowledgement from a follower that was not prepared for its session. *)

From S2P Require Import Prelude Ltx Cell Bucket Decimal Frames Disk Spool SpoolDurable SpoolHistory Stream.
From S2P Require Import Fleet Objects Lease NodeLog.

(** ** Requests and responses *)

Record httpRequest := MkRequest {
  rqMethod : string;
  rqPath : string;
  rqQuery : gmap string string;
  rqHeader : gmap string string;
  rqBody : bytes;
}.

(** The values of the responses; [BError] has the error's code. *)
Inductive httpBody : Type :=
| BError (code : string)
| BFsynced (count : Z)
| BFinal (final : Z)
| BFragments (fragments : list SessionFragment)
| BScoped (fragments : list SessionFragment) (next offset : Z)
| BHeld (segments : list HeldSegment)
| BReclaimed
| BPrepared
| BUpgraded (* no value: the connection is a stream from here on *).

Record httpResponse := MkResponse {
  rpCode : Z;
  rpHeader : gmap string string;
  rpBody : httpBody;
}.

Definition get (m : gmap string string) (k : string) : string := default EmptyString (m !! k).
Definition query (r : httpRequest) (k : string) : string := get (rqQuery r) k.
Definition header (r : httpRequest) (k : string) : string := get (rqHeader r) k.

Definition writeErr (status : Z) (code : string) : httpResponse := MkResponse status ∅ (BError code).
Definition writeJSON (v : httpBody) : httpResponse := MkResponse 200 ∅ v.

Definition TargetNodeHeader : string := "X-Cellhive-Target-Node".
Definition TargetInstanceHeader : string := "X-Cellhive-Target-Instance".
Definition SessionProtocolHeader : string := "X-Cellhive-Session-Protocol".
(** The names of headers are canonical; the sources also write it in lower case. *)
Definition ownerSessionHeader : string := "X-Cellhive-Owner-Session".

Definition maxSegmentBytes : Z := 64 * 2 ^ 20.
Definition maxBatchBytes : Z := 64 * 2 ^ 20.
Definition maxTailFragments : Z := 256.
Definition maxTailRawBytes : Z := 48 * 2 ^ 20.
Definition maxStreamCommitFrames : Z := 64.
Definition maxStreamCommitBytes : Z := 2 ^ 20.

Definition StreamProtocol : string := "cellhive-peer-v2".

(** [strings.EqualFold] with the protocol's name, which has no letter that folds with one
    outside ASCII. *)
Definition lowerByte (b : byte) : byte :=
  if decide (65 ≤ b2z b ≤ 90) then z2b (b2z b + 32) else b.
Definition isStreamProtocol (v : string) : bool := bool_decide (lowerByte <$> bs v = lowerByte <$> bs StreamProtocol).

(** [strconv.ParseInt] for base 10 and 64 bits *)
Definition ParseInt (l : bytes) : option Z :=
  match l with
  | b :: t =>
      if decide (b = x2d) then n ← ParseUint t; if decide (n ≤ 2 ^ 63) then Some (- n) else None
      else n ← ParseUint (if decide (b = x2b) then t else l); if decide (n < 2 ^ 63) then Some n else None
  | [] => None
  end.

(** ** The follower *)

(** The parts of the server that the handlers use: whether it has a spool, and the node and
    instance of its lease. *)
Record peerServer := MkPeerServer {
  psSpool : bool;
  psLease : option PeerIdentity;
}.

Section handlers.
Context `{Digest} (srv : peerServer).
Abbreviation handler := (httpRequest → io Spool httpResponse).

(** The answer when the owner's session was used proves the protocol. *)
Definition sessionProof (session : string) (resp : httpResponse) : httpResponse :=
  if decide (session = EmptyString) then resp
  else MkResponse (rpCode resp) (<[SessionProtocolHeader := ProtoVersionSession]> (rpHeader resp)) (rpBody resp).

(** [PeerUploader], when there is one: the batcher in front of the spool's log. *)
Definition handlePeerAppend (uploader : option (Scope → Z → bytes → io Spool (result spoolError unit))) : handler := λ r,
  match ParseScope (query r "scope") with
  | Err _ => mret (writeErr 400 "invalid_scope")
  | Ok sc =>
      match ParseUint (bs (query r "epoch")) with
      | None => mret (writeErr 400 "invalid_epoch")
      | Some epoch =>
          if negb (psSpool srv) then mret (writeErr 503 "no_spool") else
          if decide (maxSegmentBytes < zlen (rqBody r)) then mret (writeErr 413 "segment_too_large") else
          let session := header r ownerSessionHeader in
          match uploader with
          | Some enqueueWait =>
              if decide (session = EmptyString) then
                x ← enqueueWait sc epoch (rqBody r);
                mret (match x with Ok _ => writeJSON (BFsynced 1) | Err _ => writeErr 500 "spool_failed" end)
              else
                x ← AppendBatchSession session sc epoch [rqBody r];
                mret (match x with Ok _ => sessionProof session (writeJSON (BFsynced 1)) | Err _ => writeErr 400 "spool_failed" end)
          | None =>
              x ← AppendBatchSession session sc epoch [rqBody r];
              mret (match x with Ok _ => sessionProof session (writeJSON (BFsynced 1)) | Err _ => writeErr 400 "spool_failed" end)
          end
      end
  end.

Definition handlePeerAppendBatch : handler := λ r,
  match ParseScope (query r "scope") with
  | Err _ => mret (writeErr 400 "invalid_scope")
  | Ok sc =>
      match ParseUint (bs (query r "epoch")) with
      | None => mret (writeErr 400 "invalid_epoch")
      | Some epoch =>
          if negb (psSpool srv) then mret (writeErr 503 "no_spool") else
          if decide (maxBatchBytes < zlen (rqBody r)) then mret (writeErr 413 "batch_too_large") else
          let segments := DecodeFrames (rqBody r) in
          if decide (segments = []) then mret (writeErr 400 "empty_batch") else
          if decide (Exists (λ s, maxSegmentBytes < zlen s) segments) then mret (writeErr 413 "segment_too_large") else
          let session := header r ownerSessionHeader in
          x ← AppendBatchSession session sc epoch segments;
          mret (match x with
                | Ok _ => sessionProof session (writeJSON (BFsynced (zlen segments)))
                | Err _ => writeErr 400 "spool_failed"
                end)
      end
  end.

Definition appendOf (f : BatchFrame) : SessionAppend := MkAppend (bfScope f) (bfEpoch f) (bfSegments f).

(** The frames of a stream without a session, until one fails. *)
Fixpoint appendFrames (frames : list BatchFrame) : io Spool bool :=
  match frames with
  | [] => mret true
  | f :: frames =>
      x ← AppendBatchSession EmptyString (bfScope f) (bfEpoch f) (bfSegments f);
      match x with Ok _ => appendFrames frames | Err _ => mret false end
  end.

(** One round of the loop of [handlePeerStream]: the group is stored, and every frame of it
    gets the same answer. *)
Definition handleGroup (session : string) (frames : list BatchFrame) : io Spool (list byte) :=
  ok ← (if decide (session = EmptyString) then appendFrames frames
        else x ← AppendSessionGroup session (appendOf <$> frames); mret (match x with Ok _ => true | Err _ => false end));
  mret (replicate (length frames) (ackByte ok)).

Definition handlePeerHeld : handler := λ _,
  if negb (psSpool srv) then mret (writeErr 503 "no_spool") else
  x ← Spool.Held;
  mret (match x with Ok held => writeJSON (BHeld held) | Err _ => writeErr 500 "held_failed" end).

Definition handlePeerSeal : handler := λ r,
  if negb (psSpool srv) then mret (writeErr 503 "no_spool") else
  let session := query r "session" in
  if decide (session = EmptyString) then mret (writeErr 400 "session_required") else
  exists_ ← SessionExists session;
  if negb exists_ then mret (writeErr 409 "session_missing") else
  x ← Spool.Seal session;
  mret (match x with Ok final => writeJSON (BFinal final) | Err _ => writeErr 500 "seal_failed" end).

Definition handlePeerHead : handler := λ r,
  if negb (psSpool srv) then mret (writeErr 503 "no_spool") else
  let session := query r "session" in
  if decide (session = EmptyString) then mret (writeErr 400 "session_required") else
  x ← Spool.Head session;
  mret (match x with Ok final => writeJSON (BFinal final) | Err _ => writeErr 500 "head_failed" end).

Definition writePeerTail (open : bool) : handler := λ r,
  if negb (psSpool srv) then mret (writeErr 503 "no_spool") else
  let session := query r "session" in
  match ParseUint (bs (query r "after")) with
  | None => mret (writeErr 400 "bad_tail_request")
  | Some after =>
      if decide (session = EmptyString) then mret (writeErr 400 "bad_tail_request") else
      if open then
        match ParseUint (bs (query r "final")) with
        | None => mret (writeErr 400 "bad_final")
        | Some final =>
            match ParseInt (bs (query r "offset")) with
            | None => mret (writeErr 400 "bad_tail_request")
            | Some offset =>
                if decide (query r "scope" = EmptyString ∨ offset < 0 ∨ final < after
                           ∨ after = 0 ∧ offset ≠ 0 ∨ 0 < after ∧ offset = 0)
                then mret (writeErr 400 "bad_tail_request") else
                x ← TailScopePage session (query r "scope") after final offset maxTailFragments maxTailRawBytes;
                mret (match x with
                      | Ok (fragments, next, offset) => writeJSON (BScoped fragments next offset)
                      | Err _ => writeErr 500 "tail_failed"
                      end)
            end
        end
      else
        x ← TailPage session after maxTailFragments maxTailRawBytes;
        mret (match x with Ok fragments => writeJSON (BFragments fragments) | Err _ => writeErr 500 "tail_failed" end)
  end.

Definition handlePeerTail : handler := writePeerTail false.
Definition handlePeerTailOpen : handler := writePeerTail true.

Definition handlePeerSessionDelete : handler := λ r,
  if negb (psSpool srv) then mret (writeErr 503 "no_spool") else
  let session := query r "session" in
  if decide (session = EmptyString) then mret (writeErr 400 "session_required") else
  x ← Spool.Reclaim session;
  mret (match x with Ok _ => writeJSON BReclaimed | Err _ => writeErr 409 "reclaim_failed" end).

Definition handlePeerPrepare : handler := λ r,
  if negb (psSpool srv) then mret (writeErr 503 "no_spool") else
  x ← Spool.Prepare (query r "session");
  mret (match x with Ok _ => writeJSON BPrepared | Err _ => writeErr 409 "prepare_failed" end).

(** [handlePeerStream] up to its loop: the connection becomes a stream, and the rounds of
    the loop are [handleGroup]. The identity headers are those that [peerIdentity] sets on the
    response. The connection is one that can be taken over, and the answer can be written. *)
Definition handlePeerStream : handler := λ r,
  if negb (psSpool srv) then mret (writeErr 503 "no_spool") else
  if negb (isStreamProtocol (header r "Upgrade")) then mret (writeErr 400 "bad_upgrade") else
  mret (MkResponse 101 {[ "Connection" := "Upgrade"; "Upgrade" := StreamProtocol ]} BUpgraded).

(** The routes. *)
Definition route (r : httpRequest) : string * string := (rqMethod r, rqPath r).

Definition peerMux (authorized : httpRequest → bool)
    (uploader : option (Scope → Z → bytes → io Spool (result spoolError unit))) : handler := λ r,
  if negb (authorized r) then mret (writeErr 401 "unauthorized") else
  if decide (route r = ("POST", "/v1/peer/append")) then handlePeerAppend uploader r else
  if decide (route r = ("POST", "/v1/peer/append_batch")) then handlePeerAppendBatch r else
  if decide (route r = ("POST", "/v1/peer/stream")) then handlePeerStream r else
  if decide (route r = ("POST", "/v1/peer/prepare")) then handlePeerPrepare r else
  if decide (route r = ("POST", "/v1/peer/seal")) then handlePeerSeal r else
  if decide (route r = ("GET", "/v1/peer/head")) then handlePeerHead r else
  if decide (route r = ("GET", "/v1/peer/tail")) then handlePeerTail r else
  if decide (route r = ("GET", "/v1/peer/tail_open")) then handlePeerTailOpen r else
  if decide (route r = ("DELETE", "/v1/peer/session")) then handlePeerSessionDelete r else
  if decide (route r = ("GET", "/v1/peer/held")) then handlePeerHeld r else
  mret (writeErr 404 "not_found").

(** The paths whose session must have been prepared. *)
Definition appendPath (p : string) : bool :=
  bool_decide (p = "/v1/peer/append" ∨ p = "/v1/peer/append_batch" ∨ p = "/v1/peer/stream").

Definition withIdentity (id : PeerIdentity) (resp : httpResponse) : httpResponse :=
  MkResponse (rpCode resp)
    (<[TargetNodeHeader := pNode id]> (<[TargetInstanceHeader := pInstance id]> (rpHeader resp))) (rpBody resp).

Definition peerIdentity (next : handler) : handler := λ r,
  let node := header r TargetNodeHeader in
  let instance := header r TargetInstanceHeader in
  if decide (hasPrefix "/v1/peer/" (rqPath r) = true ∧ (node ≠ EmptyString ∨ instance ≠ EmptyString)) then
    if decide (node = EmptyString ∨ instance = EmptyString ∨ psLease srv ≠ Some (MkPeer node instance)) then
      mret (writeErr 409 "peer_identity_mismatch")
    else if appendPath (rqPath r) then
      let session := header r ownerSessionHeader in
      if decide (psSpool srv = false ∨ session = EmptyString) then mret (writeErr 409 "session_missing") else
      exists_ ← SessionExists session;
      if negb exists_ then mret (writeErr 409 "session_missing") else
      resp ← next r; mret (withIdentity (MkPeer node instance) resp)
    else resp ← next r; mret (withIdentity (MkPeer node instance) resp)
  else next r.

(** The follower's server. *)
Definition peerServe (authorized : httpRequest → bool)
    (uploader : option (Scope → Z → bytes → io Spool (result spoolError unit))) : handler :=
  peerIdentity (peerMux authorized uploader).
End handlers.

(** ** The transport ([HTTPTransport], [Targets]) *)

(** [Targets]: the identities of an ensemble, by address. *)
Definition Bind (refs ids : gmap string PeerIdentity) : option (gmap string PeerIdentity) :=
  if decide (map_Forall (λ addr id, ids !! addr = None ∨ ids !! addr = Some id) refs) then Some (refs ∪ ids) else None.

Definition noIdentity : PeerIdentity := MkPeer EmptyString EmptyString.

Definition targetsGet (ids : gmap string PeerIdentity) (addr : string) : PeerIdentity := default noIdentity (ids !! addr).

(** The identity of the context, or else of the address. *)
Definition targetIdentity (ctx : option PeerIdentity) (ids : gmap string PeerIdentity) (addr : string) : PeerIdentity :=
  match ctx with Some id => id | None => targetsGet ids addr end.

Definition setIdentity (id : PeerIdentity) (r : httpRequest) : httpRequest :=
  if decide (pNode id = EmptyString) then r
  else MkRequest (rqMethod r) (rqPath r) (rqQuery r)
         (<[TargetInstanceHeader := pInstance id]> (<[TargetNodeHeader := pNode id]> (rqHeader r))) (rqBody r).

Definition verifyIdentity (id : PeerIdentity) (resp : httpResponse) : bool :=
  bool_decide (pNode id = EmptyString
    ∨ get (rpHeader resp) TargetNodeHeader = pNode id ∧ get (rpHeader resp) TargetInstanceHeader = pInstance id).

Section transport.
(** [ask] is the network with the server at its other end; [htSession] the session of the
    transport; the context and the targets give the identity. *)
Context (ask : string → httpRequest → option httpResponse) (htSession : string)
  (ctx : option PeerIdentity) (targets : gmap string PeerIdentity).

Definition do (r : httpRequest) (addr : string) : option httpResponse :=
  let id := targetIdentity ctx targets addr in
  resp ← ask addr (setIdentity id r);
  if verifyIdentity id resp then Some resp else None.

Definition verifySessionProof (resp : httpResponse) : bool :=
  bool_decide (htSession = EmptyString ∨ get (rpHeader resp) SessionProtocolHeader = ProtoVersionSession).

Definition uintText (n : Z) : string := String.string_of_list_byte (FormatUint n).
Definition intText (n : Z) : string := if decide (n < 0) then "-" +:+ uintText (- n) else uintText n.

Definition sessionHeaders : gmap string string :=
  if decide (htSession = EmptyString) then ∅ else {[ ownerSessionHeader := htSession ]}.

Definition appendRequest (path : string) (sc : Scope) (epoch : Z) (body : bytes) : httpRequest :=
  MkRequest "POST" path {[ "scope" := scopeString sc; "epoch" := uintText epoch ]} sessionHeaders body.

Definition accepted (resp : option httpResponse) : bool :=
  match resp with
  | Some resp => bool_decide (rpCode resp = 200) && verifySessionProof resp
  | None => false
  end.

Definition transportAppend (addr : string) (sc : Scope) (epoch : Z) (segment : bytes) : bool :=
  accepted (do (appendRequest "/v1/peer/append" sc epoch segment) addr).

Definition transportAppendBatch (addr : string) (sc : Scope) (epoch : Z) (segments : list bytes) : bool :=
  accepted (do (appendRequest "/v1/peer/append_batch" sc epoch (EncodeFrames segments)) addr).

(** A response with status 200; fields that its value does not have are zero. *)
Definition expect {A : Type} (f : httpBody → A) (resp : option httpResponse) : option A :=
  resp ← resp; if decide (rpCode resp = 200) then Some (f (rpBody resp)) else None.

Definition finalOf (b : httpBody) : Z := match b with BFinal n => n | _ => 0 end.
Definition fragmentsOf (b : httpBody) : list SessionFragment :=
  match b with BFragments fs | BScoped fs _ _ => fs | _ => [] end.
Definition cursorOf (b : httpBody) : Z * Z := match b with BScoped _ next offset => (next, offset) | _ => (0, 0) end.

Definition sessionRequest (method path session : string) : httpRequest :=
  MkRequest method path {[ "session" := session ]} ∅ [].

Definition transportHeld (addr : string) : option (list HeldSegment) :=
  expect (λ b, match b with BHeld held => held | _ => [] end) (do (MkRequest "GET" "/v1/peer/held" ∅ ∅ []) addr).

Definition transportSeal (addr session : string) : option Z :=
  expect finalOf (do (sessionRequest "POST" "/v1/peer/seal" session) addr).

Definition transportHead (addr session : string) : option Z :=
  expect finalOf (do (sessionRequest "GET" "/v1/peer/head" session) addr).

Definition tailRequest (session : string) (after : Z) : httpRequest :=
  MkRequest "GET" "/v1/peer/tail" {[ "session" := session; "after" := uintText after ]} ∅ [].

Definition transportTail (addr session : string) (after : Z) : option (list SessionFragment) :=
  expect fragmentsOf (do (tailRequest session after) addr).

Definition tailOpenRequest (session scope : string) (after final offset : Z) : httpRequest :=
  MkRequest "GET" "/v1/peer/tail_open"
    {[ "session" := session; "scope" := scope; "after" := uintText after; "final" := uintText final;
       "offset" := intText offset ]} ∅ [].

Definition transportTailOpen (addr session scope : string) (after final offset : Z) : option (list SessionFragment * Z * Z) :=
  expect (λ b, (fragmentsOf b, (cursorOf b).1, (cursorOf b).2)) (do (tailOpenRequest session scope after final offset) addr).

Definition transportReclaim (addr session : string) : bool :=
  bool_decide (is_Some (expect id (do (sessionRequest "DELETE" "/v1/peer/session" session) addr))).

Definition transportPrepare (addr session : string) : bool :=
  bool_decide (is_Some (expect id (do (sessionRequest "POST" "/v1/peer/prepare" session) addr))).
End transport.

(** ** What a response says *)

Section answers.
Context `{Digest}.

(** When the program ends, what it did is a history of the spool. *)
Definition traces {A : Type} (p : io Spool A) (Q : A → list event → Prop) : Prop :=
  ∀ m a m', p m = (Some a, m') → ∃ es, history (mem m, dsk m) es (mem m', dsk m') ∧ Q a es.

Lemma history_trans σ es σ1 es' σ2 : history σ es σ1 → history σ1 es' σ2 → history σ (es ++ es') σ2.
Proof. induction 1 as [|σ e σ0 es σ1 Hs Hh IH]; [done|]. intros Hh'. econstructor; [exact Hs|by apply IH]. Qed.

Lemma traces_ret {A} (a : A) (Q : A → list event → Prop) : Q a [] → traces (mret a) Q.
Proof. intros HQ m b m' [= -> ->]. exists []. split; [constructor|done]. Qed.

Lemma traces_bind {A B} (p : io Spool A) (k : A → io Spool B) Q1 (Q : B → list event → Prop) :
  traces p Q1 → (∀ a es, Q1 a es → traces (k a) (λ b es', Q b (es ++ es'))) → traces (p ≫= k) Q.
Proof.
  intros Hp Hk m b m2. unfold mbind, io_bind. destruct (p m) as [[a|] m1] eqn:E; [|done]. intros E2.
  destruct (Hp m a m1 E) as (es & Hh & H1). destruct (Hk a es H1 m1 b m2 E2) as (es' & Hh' & H2).
  exists (es ++ es'). split; [by eapply history_trans|done].
Qed.

Lemma traces_mono {A} (p : io Spool A) (Q Q' : A → list event → Prop) : traces p Q → (∀ a es, Q a es → Q' a es) → traces p Q'.
Proof. intros Hp HQ m a m' E. destruct (Hp m a m' E) as (es & Hh & H1). eauto. Qed.

(** A request that the spool serves. *)
Lemma traces_serve {A} (p : io Spool A) q (f : A → answer) :
  okRequest q → serve q = SpoolHistory.reply f p → traces p (λ a es, es = [Answered q (f a)]).
Proof.
  intros Hq Es m a m' E. exists [Answered q (f a)]. split; [|done]. econstructor; [|constructor].
  destruct m as [s d fs]. apply (step_answer q (f a) s d fs m'); [done|]. rewrite Es. unfold SpoolHistory.reply, mbind, io_bind. by rewrite E.
Qed.

Lemma traces_seq {A B} (p : io Spool A) q (f : A → answer) (k : A → B) (Q : B → list event → Prop) :
  okRequest q → serve q = SpoolHistory.reply f p → (∀ a, Q (k a) [Answered q (f a)]) → traces (x ← p; mret (k x)) Q.
Proof.
  intros Hq Es HQ. eapply traces_bind; [by apply traces_serve|]. intros a es ->. apply traces_ret. apply HQ.
Qed.

(** An append that a record can hold: a scope of less than 64 KiB and segments that came in
    one request. *)
Lemma append_request_ok session sc epoch segs text n :
  ParseScope text = Ok sc → zlen (bs text) < 2 ^ 16 → is_u64 epoch → segs ≠ [] → zlen (EncodeFrames segs) ≤ n → n < 2 ^ 31 →
  okRequest (RAppend session [MkAppend sc epoch segs]).
Proof.
  intros [-> _]%ParseScope_inv Hs He Hne Hl Hn. split; [done|].
  assert (Forall shortSegment segs) as Hshort.
  { apply Forall_forall. intros x Hx. unfold shortSegment. assert (zlen x ≤ zlen (EncodeFrames segs)); [|lia].
    clear -Hx. induction segs as [|y segs IH]; [by apply elem_of_nil in Hx|]. rewrite zlen_EncodeFrames_cons.
    apply elem_of_cons in Hx as [->|Hx]; [lia|]. specialize (IH Hx). lia. }
  split; [|apply Forall_singleton; by split].
  apply Forall_singleton. unfold fitsRecord, payloadOf, encodeSessionFragment. cbn [saScope saEpoch saSegments].
  rewrite !length_app, !length_be_enc. lia.
Qed.

(** The append of a request: with a session, the follower has answered it. *)
Lemma traces_AppendBatchSession session sc epoch segs :
  (session ≠ EmptyString → okRequest (RAppend session [MkAppend sc epoch segs])) →
  (session = EmptyString → Namespace sc ≠ "_sessions") →
  traces (AppendBatchSession session sc epoch segs) (λ x es, ∀ y, x = Ok y → session ≠ EmptyString →
    ∃ seqs, Answered (RAppend session [MkAppend sc epoch segs]) (ASeqs (Ok seqs)) ∈ es).
Proof.
  intros Hok Hns. unfold AppendBatchSession, tryIO. case_decide as Hs.
  - eapply traces_bind; [by apply (traces_serve _ (RLog sc epoch segs) ALog); [apply Hns|]|]. intros [lp|e] es ->; apply traces_ret; done.
  - eapply traces_bind; [by apply (traces_serve _ (RAppend session [MkAppend sc epoch segs]) ASeqs); [apply Hok|]|].
    intros [seqs|e] es ->; apply traces_ret; [|done]. intros y _ _. exists seqs. apply list_elem_of_here.
Qed.

(** The segments that a request to append carries. *)
Definition carries (r : httpRequest) (segs : list bytes) : Prop :=
  route r = ("POST", "/v1/peer/append") ∧ segs = [rqBody r]
  ∨ route r = ("POST", "/v1/peer/append_batch") ∧ segs = DecodeFrames (rqBody r).

(** What a response to a request says about the history. *)
Definition told (r : httpRequest) (resp : httpResponse) (es : list event) : Prop :=
  let session := query r "session" in
  match rpBody resp with
  | BError _ => rpCode resp ≠ 200
  | BFsynced _ => ∃ sc epoch segs, ParseScope (query r "scope") = Ok sc ∧ ParseUint (bs (query r "epoch")) = Some epoch ∧ carries r segs
      ∧ (header r ownerSessionHeader ≠ EmptyString →
         ∃ seqs, Answered (RAppend (header r ownerSessionHeader) [MkAppend sc epoch segs]) (ASeqs (Ok seqs)) ∈ es)
  | BFinal n =>
      route r = ("POST", "/v1/peer/seal")
        ∧ (∃ es0, es = es0 ++ [Answered (RExists session) (AExists true); Answered (RSeal session) (ANumber (Ok n))])
      ∨ route r = ("GET", "/v1/peer/head") ∧ Answered (RHead session) (ANumber (Ok n)) ∈ es
  | BFragments page => route r = ("GET", "/v1/peer/tail") ∧ ∃ after, ParseUint (bs (query r "after")) = Some after
      ∧ Answered (RTail session after maxTailFragments maxTailRawBytes) (APage (Ok page)) ∈ es
  | BScoped page next offset => route r = ("GET", "/v1/peer/tail_open") ∧ ∃ after final from,
      ParseUint (bs (query r "after")) = Some after
      ∧ ParseUint (bs (query r "final")) = Some final ∧ ParseInt (bs (query r "offset")) = Some from
      ∧ Answered (RScope session (query r "scope") after final from maxTailFragments maxTailRawBytes)
          (AScope (Ok (page, next, offset))) ∈ es
  | BHeld held => route r = ("GET", "/v1/peer/held") ∧ Answered RHeld (AHeld (Ok held)) ∈ es
  | BReclaimed => route r = ("DELETE", "/v1/peer/session") ∧ Answered (RReclaim session) (ADone (Ok tt)) ∈ es
  | BPrepared => route r = ("POST", "/v1/peer/prepare") ∧ Answered (RPrepare session) (ADone (Ok tt)) ∈ es
  | BUpgraded => route r = ("POST", "/v1/peer/stream") ∧ rpCode resp = 101
  end.

Lemma told_proof r session resp es : told r resp es → told r (sessionProof session resp) es.
Proof. unfold sessionProof. by case_decide. Qed.

Section server.
Context (srv : peerServer) (authorized : httpRequest → bool)
  (uploader : option (Scope → Z → bytes → io Spool (result spoolError unit))).
(** The batcher, too, only uses the spool's requests. *)
Hypothesis uploader_traces :
  ∀ u sc epoch segment, uploader = Some u → traces (u sc epoch segment) (λ _ _, True).

(** Appends that records can hold, and without a session only for cells outside the spool's own
    directory. *)
Definition okAppendRequest (r : httpRequest) : Prop :=
  zlen (bs (query r "scope")) < 2 ^ 16
  ∧ (header r ownerSessionHeader = EmptyString → ∀ sc, ParseScope (query r "scope") = Ok sc → Namespace sc ≠ "_sessions").

Lemma traces_append r sc epoch segs count :
  okAppendRequest r → ParseScope (query r "scope") = Ok sc → ParseUint (bs (query r "epoch")) = Some epoch →
  segs ≠ [] → zlen (EncodeFrames segs) ≤ maxBatchBytes + 4 → carries r segs →
  traces (x ← AppendBatchSession (header r ownerSessionHeader) sc epoch segs;
          mret (match x with
                | Ok _ => sessionProof (header r ownerSessionHeader) (writeJSON (BFsynced count))
                | Err _ => writeErr 400 "spool_failed"
                end)) (told r).
Proof.
  intros [Hs Hns] Hsc He Hne Hl Hc. eapply traces_bind.
  - apply traces_AppendBatchSession; [|intros Hn; by apply Hns]. intros _.
    eapply append_request_ok; [done|done| |done|exact Hl|unfold maxBatchBytes; lia].
    apply ParseUint_range in He. unfold maxUint64 in He. lia.
  - intros [y|e] es Hes; apply traces_ret; [|done]. apply told_proof. rewrite app_nil_r.
    exists sc, epoch, segs. split; [done|]. split; [done|]. split; [done|]. by apply (Hes y).
Qed.

Lemma traces_err r code e : code ≠ 200 → traces (mret (writeErr code e)) (told r).
Proof. intros Hc. by apply traces_ret. Qed.

Ltac refused := by apply traces_err.

Lemma traces_handlePeerAppend r :
  okAppendRequest r → route r = ("POST", "/v1/peer/append") → traces (handlePeerAppend srv uploader r) (told r).
Proof.
  intros Hr Hp. unfold handlePeerAppend. destruct (ParseScope _) as [sc|e] eqn:Hsc; [|refused].
  destruct (ParseUint _) as [epoch|] eqn:He; [|refused]. destruct (negb _); [refused|].
  case_decide as Hl; [refused|]. cbv zeta.
  assert (zlen (EncodeFrames [rqBody r]) ≤ maxBatchBytes + 4) as Hlen.
  { rewrite zlen_EncodeFrames_cons. change (zlen (EncodeFrames [])) with 0. unfold maxSegmentBytes, maxBatchBytes in *. lia. }
  assert (carries r [rqBody r]) as Hc by (by left).
  pose proof (traces_append r sc epoch [rqBody r] 1 Hr Hsc He ltac:(done) Hlen Hc) as Happ.
  destruct uploader as [u|] eqn:Hu; [|done]. case_decide as Hs; [|done].
  eapply traces_bind; [by apply uploader_traces|]. intros [y|e] es _; apply traces_ret; [|done].
  exists sc, epoch, [rqBody r]. by rewrite Hs.
Qed.

Lemma traces_handlePeerAppendBatch r :
  okAppendRequest r → route r = ("POST", "/v1/peer/append_batch") → traces (handlePeerAppendBatch srv r) (told r).
Proof.
  intros Hr Hp. unfold handlePeerAppendBatch. destruct (ParseScope _) as [sc|e] eqn:Hsc; [|refused].
  destruct (ParseUint _) as [epoch|] eqn:He; [|refused]. destruct (negb _); [refused|].
  case_decide as Hl; [refused|]. cbv zeta. case_decide as Hne; [refused|]. case_decide; [refused|].
  apply traces_append; try done; [|by right]. destruct (DecodeFrames_prefix (rqBody r)) as [rest Hrest].
  apply (f_equal length) in Hrest. rewrite length_app in Hrest. lia.
Qed.

Lemma traces_handlePeerSeal r : route r = ("POST", "/v1/peer/seal") → traces (handlePeerSeal srv r) (told r).
Proof.
  intros Hr. unfold handlePeerSeal. destruct (negb _); [refused|]. cbv zeta. case_decide; [refused|].
  eapply traces_bind; [by apply (traces_serve _ (RExists (query r "session")) AExists)|]. intros b es ->.
  destruct b; [|apply traces_ret; done]. eapply (traces_seq _ (RSeal (query r "session")) ANumber); [done|done|].
  intros [final|e]; [|done]. left. split; [done|]. by exists [].
Qed.

Lemma traces_handlePeerTail r : route r = ("GET", "/v1/peer/tail") → traces (handlePeerTail srv r) (told r).
Proof.
  intros Hr. unfold handlePeerTail, writePeerTail. destruct (negb _); [refused|]. cbv zeta.
  destruct (ParseUint (bs (query r "after"))) as [after|] eqn:Ha; [|refused]. case_decide; [refused|].
  pose proof (ParseUint_range _ _ Ha).
  eapply (traces_seq _ (RTail (query r "session") after maxTailFragments maxTailRawBytes) APage); [simpl; lia|done|].
  intros [page|e]; [|done]. split; [done|]. exists after. split; [done|]. apply list_elem_of_here.
Qed.

Lemma traces_handlePeerTailOpen r : route r = ("GET", "/v1/peer/tail_open") → traces (handlePeerTailOpen srv r) (told r).
Proof.
  intros Hr. unfold handlePeerTailOpen, writePeerTail. destruct (negb _); [refused|]. cbv zeta.
  destruct (ParseUint (bs (query r "after"))) as [after|] eqn:Ha; [|refused]. case_decide; [refused|].
  destruct (ParseUint (bs (query r "final"))) as [final|] eqn:Hf; [|refused].
  destruct (ParseInt _) as [offset|] eqn:Ho; [|refused]. case_decide; [refused|].
  eapply (traces_seq _ (RScope (query r "session") (query r "scope") after final offset maxTailFragments maxTailRawBytes) AScope); [done|done|].
  intros [[[page next] off]|e]; [|done]. split; [done|]. exists after, final, offset. split; [done|]. split; [done|].
  split; [done|]. apply list_elem_of_here.
Qed.

(** A handler that is one request of the spool. *)
Lemma traces_one {A} (p : io Spool (result spoolError A)) q f (body : A → httpBody) code e r :
  okRequest q → serve q = SpoolHistory.reply f p → code ≠ 200 → (∀ a, told r (writeJSON (body a)) [Answered q (f (Ok a))]) →
  traces (x ← p; mret (match x with Ok a => writeJSON (body a) | Err _ => writeErr code e end)) (told r).
Proof. intros Hq Hs Hc Hb. eapply traces_seq; [done|done|]. intros [a|err]; [apply Hb|done]. Qed.

Lemma traces_peerMux r : okAppendRequest r → traces (peerMux srv authorized uploader r) (told r).
Proof.
  intros Hr. unfold peerMux. destruct (negb _); [refused|].
  case_decide; [by apply traces_handlePeerAppend|]. case_decide; [by apply traces_handlePeerAppendBatch|].
  case_decide.
  { unfold handlePeerStream. destruct (negb _); [refused|]. destruct (negb _); [refused|]. by apply traces_ret. }
  case_decide.
  { unfold handlePeerPrepare. destruct (negb _); [refused|]. eapply (traces_one _ (RPrepare (query r "session")) ADone (λ _, BPrepared)); try done.
    intros []. split; [done|]. apply list_elem_of_here. }
  case_decide; [by apply traces_handlePeerSeal|].
  case_decide.
  { unfold handlePeerHead. cbv zeta. destruct (negb _); [refused|]. case_decide; [refused|].
    eapply (traces_one _ (RHead (query r "session")) ANumber BFinal); try done. intros n. right. split; [done|apply list_elem_of_here]. }
  case_decide; [by apply traces_handlePeerTail|]. case_decide; [by apply traces_handlePeerTailOpen|].
  case_decide.
  { unfold handlePeerSessionDelete. cbv zeta. destruct (negb _); [refused|]. case_decide; [refused|].
    eapply (traces_one _ (RReclaim (query r "session")) ADone (λ _, BReclaimed)); try done. intros []. split; [done|apply list_elem_of_here]. }
  case_decide; [|refused]. unfold handlePeerHeld. destruct (negb _); [refused|].
  eapply (traces_one _ RHeld AHeld BHeld); try done. intros held. split; [done|apply list_elem_of_here].
Qed.

(** What is told stays told when more happened before. *)
Lemma told_after r resp es0 es : told r resp es → told r resp (es0 ++ es).
Proof.
  unfold told. destruct (rpBody resp); try done; setoid_rewrite elem_of_app; try naive_solver.
  intros [[? [es1 ->]]|[? Hin]]; [left|right; by auto]. split; [done|]. exists (es0 ++ es1). by rewrite app_assoc.
Qed.

(** The identity of the request, when it asks for one. *)
Definition asked (r : httpRequest) : option PeerIdentity :=
  if decide (hasPrefix "/v1/peer/" (rqPath r) = true
             ∧ (header r TargetNodeHeader ≠ EmptyString ∨ header r TargetInstanceHeader ≠ EmptyString))
  then Some (MkPeer (header r TargetNodeHeader) (header r TargetInstanceHeader)) else None.

(** The session was there when an identified request to append came in. *)
Definition preparedFor (r : httpRequest) (es : list event) : Prop :=
  is_Some (asked r) → appendPath (rqPath r) = true →
  Answered (RExists (header r ownerSessionHeader)) (AExists true) ∈ es.

Lemma traces_peerServe r :
  okAppendRequest r →
  traces (peerServe srv authorized uploader r) (λ resp es, told r resp es ∧ (rpCode resp = 200 → preparedFor r es)).
Proof.
  intros Hr. pose proof (traces_peerMux r Hr) as Hmux. unfold peerServe, peerIdentity. cbv zeta. unfold preparedFor, asked. case_decide.
  - case_decide; [by apply traces_ret|]. destruct (appendPath (rqPath r)).
    + case_decide; [by apply traces_ret|].
      eapply traces_bind; [by apply (traces_serve _ (RExists (header r ownerSessionHeader)) AExists)|]. intros b es ->.
      destruct b; [|by apply traces_ret].
      eapply traces_bind; [apply Hmux|]. intros resp es He. apply traces_ret.
      rewrite app_nil_r. split; [by apply (told_after _ _ [_])|]. intros _ _ _. apply list_elem_of_here.
    + eapply traces_bind; [apply Hmux|]. intros resp es He. apply traces_ret. rewrite app_nil_r. split; [done|]. by intros _ _.
  - eapply traces_mono; [apply Hmux|]. intros resp es He. split; [done|]. by intros _ [? ?].
Qed.

(** The rounds of a stream. *)
Lemma streamGroup_ok session frames :
  Forall okFrame frames → zlen frames < 2 ^ 63 → okRequest (RAppend session (appendOf <$> frames)).
Proof.
  intros Hok Hl. split; [by rewrite length_fmap|]. rewrite !Forall_fmap. split; (eapply Forall_impl; [exact Hok|]); intros f [_ Hf Hs].
  - unfold compose, fitsRecord, payloadOf, appendOf. cbn [saScope saEpoch saSegments]. pose proof (encodeFrame_payload f) as E. apply (f_equal length) in E.
    rewrite length_app, length_be_enc in E. unfold maxBatchFrame in Hs. lia.
  - done.
Qed.

Lemma traces_handleGroup session frames :
  session ≠ EmptyString → Forall okFrame frames → zlen frames < 2 ^ 63 →
  traces (handleGroup session frames) (λ acks es, (∃ ok, acks = replicate (length frames) (ackByte ok)) ∧
    (ackByte true ∈ acks → ∃ seqs, Answered (RAppend session (appendOf <$> frames)) (ASeqs (Ok seqs)) ∈ es)).
Proof.
  intros Hs Hok Hl. unfold handleGroup. rewrite decide_False by done. eapply traces_bind.
  - eapply (traces_seq _ (RAppend session (appendOf <$> frames)) ASeqs _
      (λ ok es, ok = true → ∃ seqs, Answered (RAppend session (appendOf <$> frames)) (ASeqs (Ok seqs)) ∈ es)); [by apply streamGroup_ok|done|].
    intros [seqs|e]; [|done]. intros _. exists seqs. apply list_elem_of_here.
  - intros ok es He. apply traces_ret. split; [by exists ok|]. rewrite app_nil_r. intros [Hack _]%elem_of_replicate. apply He.
    by destruct ok.
Qed.
End server.
End answers.

(** ** What a response means *)

(** C17: what a follower answers happened. Whatever request the handlers answer, what they did to
    the spool is a history of its requests, and the response reports answers of that history:
    an acknowledged append was stored in the request's session, with the cell, epoch and
    segments of the request; a final sequence is what sealing the session (which existed), or
    reading its head, gave; fragments are the page that the request asks for. A value is sent
    only on its own route; an error never has status 200. *)
Theorem response_means `{Digest} srv authorized uploader r m resp m' :
  (∀ u sc epoch segment, uploader = Some u → traces (u sc epoch segment) (λ _ _, True)) →
  okAppendRequest r → peerServe srv authorized uploader r m = (Some resp, m') →
  ∃ es, history (mem m, dsk m) es (mem m', dsk m') ∧ told r resp es.
Proof.
  intros Hu Hr E. destruct (traces_peerServe srv authorized uploader Hu r Hr m resp m' E) as (es & Hh & Ht & _). eauto.
Qed.

(** ** Identities *)

Lemma setIdentity_keeps id r :
  rqMethod (setIdentity id r) = rqMethod r ∧ rqPath (setIdentity id r) = rqPath r ∧ rqQuery (setIdentity id r) = rqQuery r
  ∧ rqBody (setIdentity id r) = rqBody r
  ∧ ∀ k, k ≠ TargetNodeHeader → k ≠ TargetInstanceHeader → header (setIdentity id r) k = header r k.
Proof.
  unfold setIdentity. case_decide; [done|]. split; [done|]. split; [done|]. split; [done|]. split; [done|]. intros k H1 H2.
  unfold header, get. cbn [rqHeader]. by rewrite !lookup_insert_ne.
Qed.

Lemma asked_setIdentity id r :
  pNode id ≠ EmptyString → hasPrefix "/v1/peer/" (rqPath r) = true → asked (setIdentity id r) = Some id.
Proof.
  intros Hn Hp. unfold asked, setIdentity, header, get. rewrite (decide_False (P := pNode id = _)) by done. cbn [rqPath rqHeader].
  rewrite (lookup_insert_ne _ TargetInstanceHeader TargetNodeHeader), !lookup_insert_eq by done. simpl.
  rewrite decide_True by (split; [done|by left]). by destruct id.
Qed.

Lemma peerServe_asked `{Digest} srv authorized uploader id r :
  asked r = Some id →
  peerServe srv authorized uploader r =
    if decide (pNode id = EmptyString ∨ pInstance id = EmptyString ∨ psLease srv ≠ Some id) then mret (writeErr 409 "peer_identity_mismatch")
    else if appendPath (rqPath r) then
      if decide (psSpool srv = false ∨ header r ownerSessionHeader = EmptyString) then mret (writeErr 409 "session_missing") else
      exists_ ← SessionExists (header r ownerSessionHeader);
      if negb exists_ then mret (writeErr 409 "session_missing") else
      resp ← peerMux srv authorized uploader r; mret (withIdentity id resp)
    else resp ← peerMux srv authorized uploader r; mret (withIdentity id resp).
Proof.
  unfold asked. case_decide as Hc; [|done]. intros [= <-]. unfold peerServe, peerIdentity. cbv zeta. by rewrite decide_True.
Qed.

Lemma verify_with id resp : verifyIdentity id (withIdentity id resp) = true.
Proof.
  unfold verifyIdentity, withIdentity, get. apply bool_decide_eq_true. right. cbn [rpHeader].
  rewrite (lookup_insert_ne _ TargetNodeHeader TargetInstanceHeader), !lookup_insert_eq by done. done.
Qed.

Lemma verify_without id code e : pNode id ≠ EmptyString → verifyIdentity id (writeErr code e) = false.
Proof. intros Hn. apply bool_decide_eq_false. unfold get. cbn [writeErr rpHeader]. rewrite !lookup_empty. intros [Hx|[Hx _]]; [done|by apply Hn]. Qed.

(** What a follower with another identity does. *)
Lemma wrong_identity `{Digest} srv authorized uploader id r m resp m' :
  pNode id ≠ EmptyString → hasPrefix "/v1/peer/" (rqPath r) = true → psLease srv ≠ Some id →
  peerServe srv authorized uploader (setIdentity id r) m = (Some resp, m') →
  resp = writeErr 409 "peer_identity_mismatch" ∧ m' = m.
Proof.
  intros Hn Hp Hl. rewrite (peerServe_asked _ _ _ id) by (by apply asked_setIdentity). rewrite decide_True by auto. by intros [= <- <-].
Qed.

(** C18: a session belongs to the machine that was chosen for it. A request for the node and instance of
    a follower that reaches a server with any other identity (or none), at a reused
    address, changes nothing there, and its answer is not accepted; the follower with the
    identity gives answers that are accepted, except for appends to a session it was not prepared
    for. *)
Theorem identity_checked `{Digest} srv authorized uploader id r m resp m' :
  pNode id ≠ EmptyString → hasPrefix "/v1/peer/" (rqPath r) = true →
  peerServe srv authorized uploader (setIdentity id r) m = (Some resp, m') →
  (psLease srv ≠ Some id → verifyIdentity id resp = false ∧ m' = m)
  ∧ (psLease srv = Some id → pInstance id ≠ EmptyString →
     verifyIdentity id resp = true ∨ appendPath (rqPath r) = true ∧ resp = writeErr 409 "session_missing").
Proof.
  intros Hn Hp E. split.
  - intros Hl. destruct (wrong_identity _ _ _ _ _ _ _ _ Hn Hp Hl E) as [-> ->]. split; [by apply verify_without|done].
  - intros Hl Hi. rewrite (peerServe_asked _ _ _ id) in E by (by apply asked_setIdentity).
    rewrite (decide_False (P := pNode id = _ ∨ _)) in E by naive_solver.
    destruct (setIdentity_keeps id r) as (_ & Ep & _). rewrite Ep in E.
    assert (∀ m1, (resp0 ← peerMux srv authorized uploader (setIdentity id r); mret (withIdentity id resp0)) m1 = (Some resp, m') →
      verifyIdentity id resp = true) as Hnext.
    { intros m1. unfold mbind, io_bind. destruct (peerMux _ _ _ _ m1) as [[resp0|] m2]; [|done]. intros [= <- _]. apply verify_with. }
    destruct (appendPath (rqPath r)); [|left; by apply (Hnext m)].
    case_decide; [right; by injection E|]. revert E. unfold mbind at 1, io_bind at 1.
    destruct (SessionExists _ m) as [[[]|] m1]; [|intros [= <- _]; by right|done]. intros E. left. by apply (Hnext m1).
Qed.

(** ** An owner's append *)

Lemma parse_uintText n : 0 ≤ n ≤ maxUint64 → ParseUint (bs (uintText n)) = Some n.
Proof. intros Hn. unfold uintText, bs. rewrite String.list_byte_of_string_of_list_byte. by apply ParseUint_FormatUint. Qed.

(** The response that [do] gives. *)
Lemma do_some ask ctx targets r addr resp :
  do ask ctx targets r addr = Some resp →
  ask addr (setIdentity (targetIdentity ctx targets addr) r) = Some resp ∧ verifyIdentity (targetIdentity ctx targets addr) resp = true.
Proof.
  unfold do. cbv zeta. destruct (ask addr _) as [resp'|]; [|done]. simpl. destruct (verifyIdentity _ resp') eqn:Hv; [|done].
  by intros [= ->].
Qed.

(** A response of a follower's handlers, with the events of its spool. *)
Record explained `{Digest} authorized uploader (srv : peerServer) (r : httpRequest) (resp : httpResponse) (es : list event) : Prop := {
  ex_run : ∃ m m', peerServe srv authorized uploader r m = (Some resp, m') ∧ history (mem m, dsk m) es (mem m', dsk m');
  ex_told : told r resp es;
  ex_prepared : rpCode resp = 200 → preparedFor r es;
}.

Lemma peerServe_explained `{Digest} srv authorized uploader r m resp m' :
  (∀ u sc epoch segment, uploader = Some u → traces (u sc epoch segment) (λ _ _, True)) →
  okAppendRequest r → peerServe srv authorized uploader r m = (Some resp, m') →
  ∃ es, history (mem m, dsk m) es (mem m', dsk m') ∧ explained authorized uploader srv r resp es.
Proof.
  intros Hu Hr E. destruct (traces_peerServe srv authorized uploader Hu r Hr m resp m' E) as (es & Hh & Ht & Hp).
  exists es. split; [done|]. split; [by exists m, m'|done|done].
Qed.

Section owner.
Context `{Digest} (authorized : httpRequest → bool)
  (uploader : option (Scope → Z → bytes → io Spool (result spoolError unit))).

(** A response that the transport accepts. *)
Lemma accepted_means srv id r resp es :
  explained authorized uploader srv (setIdentity id r) resp es → verifyIdentity id resp = true → rpCode resp = 200 →
  hasPrefix "/v1/peer/" (rqPath r) = true → pNode id ≠ EmptyString →
  psLease srv = Some id
  ∧ (appendPath (rqPath r) = true → Answered (RExists (header r ownerSessionHeader)) (AExists true) ∈ es).
Proof.
  intros [(m & m' & E & _) Ht Hpre] Hv Hc Hp Hn. destruct (setIdentity_keeps id r) as (_ & Epath & _ & _ & Ehead). split.
  - destruct (decide (psLease srv = Some id)) as [|Hl]; [done|].
    destruct (wrong_identity _ _ _ _ _ _ _ _ Hn Hp Hl E) as [-> _]. by rewrite verify_without in Hv.
  - intros Hap. rewrite <- (Ehead ownerSessionHeader) by done. apply Hpre; [done| |by rewrite Epath].
    rewrite asked_setIdentity by done. done.
Qed.

Context (htSession : string) (sc : Scope) (epoch : Z).
Hypothesis session_some : htSession ≠ EmptyString.
Hypothesis scope_valid : Validate sc = Ok tt.
Hypothesis scope_short : zlen (bs (scopeString sc)) < 2 ^ 16.
Hypothesis epoch_range : 0 ≤ epoch ≤ maxUint64.

(** The request that reaches the follower. *)
Definition sentRequest (id : PeerIdentity) (path : string) (body : bytes) : httpRequest :=
  setIdentity id (appendRequest htSession path sc epoch body).

Lemma sentRequest_fields id path body :
  query (sentRequest id path body) "scope" = scopeString sc ∧ query (sentRequest id path body) "epoch" = uintText epoch
  ∧ header (sentRequest id path body) ownerSessionHeader = htSession ∧ route (sentRequest id path body) = ("POST", path)
  ∧ rqBody (sentRequest id path body) = body.
Proof.
  unfold sentRequest, query, route. destruct (setIdentity_keeps id (appendRequest htSession path sc epoch body)) as (-> & -> & -> & -> & Eh).
  split; [done|]. split; [done|]. split; [|done]. rewrite Eh by done. unfold header, get, appendRequest, sessionHeaders. cbn [rqHeader].
  rewrite decide_False by done. by rewrite lookup_singleton_eq.
Qed.

Lemma sentRequest_ok id path body : okAppendRequest (sentRequest id path body).
Proof. destruct (sentRequest_fields id path body) as (Qs & _ & Hh & _). split; [by rewrite Qs|]. by rewrite Hh. Qed.

Lemma append_means ask ctx targets addr path body :
  let id := targetIdentity ctx targets addr in
  appendPath path = true → hasPrefix "/v1/peer/" path = true →
  accepted htSession (do ask ctx targets (appendRequest htSession path sc epoch body) addr) = true →
  ∃ resp, ask addr (sentRequest id path body) = Some resp
    ∧ ∀ srv es, explained authorized uploader srv (sentRequest id path body) resp es →
      ∃ segs seqs, (path = "/v1/peer/append" ∧ segs = [body] ∨ path = "/v1/peer/append_batch" ∧ segs = DecodeFrames body)
        ∧ Answered (RAppend htSession [MkAppend sc epoch segs]) (ASeqs (Ok seqs)) ∈ es
        ∧ (pNode id ≠ EmptyString → psLease srv = Some id ∧ Answered (RExists htSession) (AExists true) ∈ es).
Proof.
  intros id Hap Hp Hacc. destruct (do ask ctx targets _ addr) as [resp|] eqn:Ed; [|done]. unfold accepted in Hacc.
  apply andb_true_iff in Hacc as [Hc%bool_decide_eq_true _]. apply do_some in Ed as [Ha Hv]. fold id in Ha, Hv.
  exists resp. split; [done|]. intros srv es Hex.
  destruct (sentRequest_fields id path body) as (Qs & Qe & Hh & Hr & Hb). pose proof (ex_told _ _ _ _ _ _ Hex) as Ht.
  pose proof (accepted_means srv id _ _ _ Hex Hv Hc Hp) as Hid. cbn [appendRequest rqPath] in Hid.
  assert (header (appendRequest htSession path sc epoch body) ownerSessionHeader = htSession) as Hh'.
  { unfold header, get, appendRequest, sessionHeaders. cbn [rqHeader]. rewrite decide_False by done. by rewrite lookup_singleton_eq. }
  rewrite Hh' in Hid. unfold told, carries in Ht. rewrite Qs, Qe, Hh, Hr, Hb in Ht.
  destruct (rpBody resp) as [| | | | | | | |]; try done; try (by destruct Ht).
  - destruct Ht as (sc' & epoch' & segs & Hsc & Hep & Hsegs & Hin). rewrite ParseScope_valid in Hsc by done. injection Hsc as <-.
    rewrite parse_uintText in Hep by done. injection Hep as <-. destruct (Hin session_some) as [seqs Hseqs]. exists segs, seqs.
    split; [|split; [done|intros Hn; destruct (Hid Hn) as [? Hx]; auto]].
    destruct Hsegs as [[[= ->] ->]|[[= ->] ->]]; [by left|by right].
  - destruct Ht as [[[= ->] _]|[[=] _]]. by vm_compute in Hap.
  - destruct Ht as [[= ->] _]. by vm_compute in Hap.
  - destruct Ht as [_ H101]. by rewrite Hc in H101.
Qed.
End owner.

(** An owner's append that its transport accepts is stored. When a call for a session returns
    without an error, the follower answered an append of exactly these segments, for this
    cell and epoch, in this session. When the address was bound to an identity it was the
    follower with that identity, and the session existed there. *)
Theorem append_accepted `{Digest} srv authorized uploader ask addr ran ctx targets htSession sc epoch segments :
  (∀ u sc epoch segment, uploader = Some u → traces (u sc epoch segment) (λ _ _, True)) →
  (∀ r resp, ask addr r = Some resp → ∃ m m', ran m m' ∧ peerServe srv authorized uploader r m = (Some resp, m')) →
  htSession ≠ EmptyString → Validate sc = Ok tt → zlen (bs (scopeString sc)) < 2 ^ 16 → 0 ≤ epoch ≤ maxUint64 →
  Forall shortSegment segments →
  transportAppendBatch ask htSession ctx targets addr sc epoch segments = true →
  ∃ m m' es seqs, ran m m' ∧ history (mem m, dsk m) es (mem m', dsk m')
    ∧ Answered (RAppend htSession [MkAppend sc epoch segments]) (ASeqs (Ok seqs)) ∈ es
    ∧ (pNode (targetIdentity ctx targets addr) ≠ EmptyString →
       psLease srv = Some (targetIdentity ctx targets addr) ∧ Answered (RExists htSession) (AExists true) ∈ es).
Proof.
  intros Hu Ha Hs Hv Hl He Hseg Hacc.
  destruct (append_means authorized uploader htSession sc epoch Hs Hv He ask ctx targets addr "/v1/peer/append_batch" _ eq_refl eq_refl Hacc)
    as (resp & Hask & Hmeans). destruct (Ha _ _ Hask) as (m & m' & Hran & E).
  destruct (peerServe_explained _ _ _ _ _ _ _ Hu (sentRequest_ok _ _ _ Hs Hl _ _ _) E) as (es & Hh & Hex).
  destruct (Hmeans srv es Hex) as (segs & seqs & [[[=] _]|[_ ->]] & Hin & Hid). rewrite DecodeFrames_Encode in Hin by done. eauto 10.
Qed.

(** *** A run *)

Section example.
#[local] Existing Instance exampleDigest.

Definition exampleIdentity : PeerIdentity := MkPeer "n2" "i2".
Definition exampleServer : peerServer := MkPeerServer true (Some exampleIdentity).
Definition answer1 (r : httpRequest) : machine Spool → option httpResponse * machine Spool :=
  peerServe exampleServer (λ _, true) None r.

(** The follower after it was prepared for the session, and then had an append. *)
Definition prepared : machine Spool := (answer1 (sessionRequest "POST" "/v1/peer/prepare" "s") (MkMachine NewSpool emptyDisk [])).2.
Definition exampleRequest : httpRequest :=
  setIdentity exampleIdentity (appendRequest "s" "/v1/peer/append_batch" exampleScope 7 (EncodeFrames [exampleSegment 1])).
Definition filled : machine Spool := (answer1 exampleRequest prepared).2.
Definition sealRequest : httpRequest := sessionRequest "POST" "/v1/peer/seal" "s".

Lemma response_means_witness :
  ∃ es, history (mem filled, dsk filled) es (mem (answer1 sealRequest filled).2, dsk (answer1 sealRequest filled).2)
    ∧ told sealRequest (writeJSON (BFinal 1)) es.
Proof.
  apply (response_means exampleServer (λ _, true) None sealRequest filled (writeJSON (BFinal 1))).
  - done.
  - by split.
  - vm_compute. reflexivity.
Defined.

Lemma identity_checked_witness :
  verifyIdentity exampleIdentity (withIdentity exampleIdentity (sessionProof "s" (writeJSON (BFsynced 1)))) = true
  ∧ verifyIdentity (MkPeer "n2" "old") (writeErr 409 "peer_identity_mismatch") = false.
Proof.
  split.
  - destruct (identity_checked exampleServer (λ _, true) None exampleIdentity exampleRequest prepared
      (withIdentity exampleIdentity (sessionProof "s" (writeJSON (BFsynced 1)))) filled) as [_ Hv]; [done|done|vm_compute; reflexivity|].
    destruct (Hv eq_refl) as [Hx|[_ Hx]]; [done|exact Hx|discriminate Hx].
  - destruct (identity_checked exampleServer (λ _, true) None (MkPeer "n2" "old") exampleRequest prepared
      (writeErr 409 "peer_identity_mismatch") prepared) as [Hv _]; [done|done|vm_compute; reflexivity|].
    by apply Hv.
Defined.

Lemma append_accepted_witness :
  ∃ m m' es seqs, m = prepared ∧ history (mem m, dsk m) es (mem m', dsk m')
    ∧ Answered (RAppend "s" [exampleAppend 1]) (ASeqs (Ok seqs)) ∈ es
    ∧ (pNode exampleIdentity ≠ EmptyString →
       psLease exampleServer = Some exampleIdentity ∧ Answered (RExists "s") (AExists true) ∈ es).
Proof.
  apply (append_accepted exampleServer (λ _, true) None (λ _ r, (answer1 r prepared).1) "f1" (λ m _, m = prepared)
    (Some exampleIdentity) ∅ "s" exampleScope 7 [exampleSegment 1]).
  - done.
  - intros r resp E. exists prepared, (answer1 r prepared).2. split; [done|]. unfold answer1 in *. by rewrite <-E, <-surjective_pairing.
  - done.
  - reflexivity.
  - done.
  - done.
  - by apply Forall_singleton.
  - vm_compute. reflexivity.
Defined.
End example.
