(* ===== verification/Ship.v ===== *)
(** * Shipping commits to followers ([internal/peer/shipper.go], [Manager] of [internal/peer/peer.go])

    An owner's commits wait in a shard's queue, are gathered into batches, and each batch is sent
    to the followers of its commits: to the first, and to the next ones when a copy fails or
    the hedge timer fires, until one acknowledges. A race is a state with the events of its
    select statement; a shard is a step relation of its accumulator, sender and
    races.

    The theorems: a commit that was shipped is stored, in a batch of its own cell and
    epoch, by the follower it names; a batch fails only when every follower
    failed; commits leave a shard in the order they came, with at most [pipeline] batches
    in flight; a race that can send all its copies ends when they have been answered. (When a later copy cannot be sent a
    race may have nothing left to wait for but its context: [race_hangs].) *)

From S2P Require Import Prelude Ltx Cell Bucket Decimal.

(** ** Keys *)

Fixpoint itoaDigits (fuel : nat) (u : Z) (acc : bytes) : bytes :=
  match fuel with
  | O => acc
  | S fuel => if decide (0 < u) then itoaDigits fuel (u / 10) (z2b (48 + u mod 10) :: acc) else acc
  end.

(** The buffer has room for the twenty digits of a 64-bit number. *)
Definition itoa (u : Z) : string :=
  if decide (u = 0) then "0" else String.string_of_list_byte (itoaDigits 20 u []).

Definition comma : Ascii.ascii := Ascii.ascii_of_byte x2c.
Definition hash : Ascii.ascii := Ascii.ascii_of_byte x23.
Definition atSign : Ascii.ascii := Ascii.ascii_of_byte x40.

Definition followersKey (followers : list string) : string :=
  match followers with
  | [f] => f
  | _ => joinWith comma (sortKeys followers)
  end.

Definition fnv (h : Z) (b : byte) : Z := (Z.lxor h (b2z b) * 16777619) mod 2 ^ 32.

Definition shardIndex (key : string) (n : Z) : Z := foldl fnv 2166136261 (bs key) mod n.

Record shipItem := MkItem {
  siScope : Scope;
  siEpoch : Z;
  siFollowers : list string;
  siFkey : string;
  siSeg : bytes;
  siDone : nat;
}.

Definition itemKey (it : shipItem) : string :=
  scopeString (siScope it) +:+ String atSign (itoa (siEpoch it) +:+ String hash (siFkey it)).

(** ** The recent latencies *)

Definition millisecond : Z := 10 ^ 6.

Record latencies := MkLatencies {
  latRing : list Z;
  latN : nat;
  latI : nat;
}.

Definition ringSize : nat := 32.
Definition newLatencies : latencies := MkLatencies (replicate ringSize 0) 0 0.

Definition recordAppend (d : Z) (l : latencies) : latencies :=
  MkLatencies (<[latI l := d]> (latRing l)) (if decide (latN l < ringSize)%nat then S (latN l) else latN l)
    ((latI l + 1) mod ringSize)%nat.

Definition recentMax (l : latencies) : Z :=
  foldl (λ m d, if decide (m < d) then d else m) 0 (take (latN l) (latRing l)).

(** [time.Duration] is a 64-bit integer. *)
Definition duration (z : Z) : Z := (z + 2 ^ 63) mod 2 ^ 64 - 2 ^ 63.

Definition hedgeWait (hedgeMS hedgeMaxMS : Z) (l : latencies) : Z :=
  if decide (0 < hedgeMS) then duration (hedgeMS * millisecond) else
  let w := duration (4 * recentMax l) in
  let w := if decide (w < 250 * millisecond) then 250 * millisecond else w in
  let max := duration (hedgeMaxMS * millisecond) in
  if decide (0 < max ∧ max < w) then max else w.

(** ** Races ([followersRace]) *)

(** [rcFlight] are the goroutines that wait for a copy's answer; [rcTimer] says that the hedge
    timer is set; the counters are those of the metrics. *)
Record followersRace := MkRace {
  rcNext : nat;
  rcPending : Z;
  rcTimer : bool;
  rcHedged : gset nat;
  rcFlight : list nat;
  rcFired : Z;
  rcWon : Z;
}.

Inductive raceOutcome : Type :=
| Acked (addr : string)
| NoUsable
| AllFailed
| Canceled.

Inductive raceEvent : Type :=
| EvResult (i : nat) (ok : bool)
| EvTimer
| EvDone.

#[global] Instance raceEvent_eq_dec : EqDecision raceEvent.
Proof. solve_decision. Defined.

Section race.
(** [launch i] says that the copy for the follower [i] could be sent. *)
Context (followers : list string) (launch : nat → bool) (hedgeEnabled : bool).

Fixpoint startLoop (fuel : nat) (hedged : bool) (r : followersRace) : followersRace * bool :=
  match fuel with
  | O => (r, false)
  | S fuel =>
      if decide (rcNext r < length followers)%nat then
        let i := rcNext r in
        let r := MkRace (S i) (rcPending r) (rcTimer r) (rcHedged r) (rcFlight r) (rcFired r) (rcWon r) in
        if launch i then
          (MkRace (rcNext r) (rcPending r + 1) (rcTimer r) (if hedged then {[i]} ∪ rcHedged r else rcHedged r)
             (rcFlight r ++ [i]) (if hedged then rcFired r + 1 else rcFired r) (rcWon r), true)
        else startLoop fuel hedged r
      else (r, false)
  end.

(** Every round tries another follower. *)
Definition startNext : bool → followersRace → followersRace * bool := startLoop (length followers).

Definition withTimer (timer : bool) (r : followersRace) : followersRace :=
  MkRace (rcNext r) (rcPending r) timer (rcHedged r) (rcFlight r) (rcFired r) (rcWon r).

Definition beginRace : followersRace :=
  let '(r, started) := startNext false (MkRace 0 0 false ∅ [] 0 0) in
  withTimer (started && hedgeEnabled && bool_decide (1 < length followers)%nat) r.

(** The cases of the select statement of [wait]; the race comes along for its counters. *)
Definition onEvent (r : followersRace) (ev : raceEvent) : followersRace * option raceOutcome :=
  match ev with
  | EvResult i ok =>
      let won := if ok && bool_decide (i ∈ rcHedged r) then rcWon r + 1 else rcWon r in
      let r := MkRace (rcNext r) (rcPending r - 1) (rcTimer r) (rcHedged r) (filter (λ j, j ≠ i) (rcFlight r)) (rcFired r) won in
      if ok then (r, Some (Acked (nth i followers EmptyString))) else
      if decide (rcNext r < length followers)%nat then ((startNext false r).1, None) else
      if decide (rcPending r = 0) then (r, Some AllFailed) else (r, None)
  | EvTimer =>
      if decide (rcNext r < length followers)%nat then ((startNext true r).1, None) else (withTimer false r, None)
  | EvDone => (r, Some Canceled)
  end.

(** The events that can happen: an answer that is awaited, the timer when it is set, the end of the
    context. *)
Definition enabled (r : followersRace) (ev : raceEvent) : Prop :=
  match ev with
  | EvResult i _ => i ∈ rcFlight r
  | EvTimer => rcTimer r = true
  | EvDone => True
  end.

(** The check at the start of [wait]. *)
Definition raceStart : followersRace * option raceOutcome :=
  (beginRace, if decide (rcPending beginRace = 0) then Some NoUsable else None).

(** The race after events. *)
Inductive raceReach : list raceEvent → followersRace * option raceOutcome → Prop :=
| race_start : raceReach [] raceStart
| race_event evs r ev : raceReach evs (r, None) → enabled r ev → raceReach (evs ++ [ev]) (onEvent r ev).
End race.

(** ** Replicating without batches ([Manager.Replicate]) *)

(** The answers in the order they arrive. *)
Fixpoint replicateLoop (results : list (string * bool)) : option string :=
  match results with
  | [] => None
  | (addr, ok) :: results => if ok then Some addr else replicateLoop results
  end.

Definition Replicate (followers : list string) (arrivals : list (string * bool)) : option string :=
  match followers with [] => None | _ => replicateLoop (take (length followers) arrivals) end.

(** ** Groups ([dispatchItems]) *)

Record group := MkGroup {
  grScope : Scope;
  grEpoch : Z;
  grFollowers : list string;
  grSegs : list bytes;
  grItems : list shipItem;
}.

(** The map [index], in the order of the list [groups]. *)
Fixpoint addItem (gs : list (string * group)) (it : shipItem) : list (string * group) :=
  match gs with
  | [] => [(itemKey it, MkGroup (siScope it) (siEpoch it) (siFollowers it) [siSeg it] [it])]
  | (k, g) :: gs =>
      if decide (k = itemKey it) then
        (k, MkGroup (grScope g) (grEpoch g) (grFollowers g) (grSegs g ++ [siSeg it]) (grItems g ++ [it])) :: gs
      else (k, g) :: addItem gs it
  end.

Definition groupItems (items : list shipItem) : list (string * group) := foldl addItem [] items.

(** ** A shard *)

Record config := MkConfig {
  cfSegments : Z;
  cfBytes : Z;
  cfPipeline : nat;
  cfQueue : Z;
  cfHedge : bool;
}.

(** The defaults of [NewShipBatcher]; [cfQueue] is the capacity of a shard's queue. *)
Definition NewShipBatcher (maxSegments maxBytes parallel pipeline hedgeMS : Z) : config :=
  let parallel := if decide (parallel ≤ 0) then 1 else parallel in
  MkConfig (if decide (maxSegments ≤ 0) then 128 else maxSegments) (if decide (maxBytes ≤ 0) then 4 * 2 ^ 20 else maxBytes)
    (Z.to_nat (if decide (pipeline ≤ 0) then 1 else pipeline)) (8192 `quot` parallel) (bool_decide (hedgeMS ≠ 0)).

Definition maxGroups : Z := 64.

(** Where the accumulator is: at its select statement, or inside [drain], which is the
    last one when the context has ended. *)
Inductive accumulatorPhase : Set :=
| Select
| Draining (last : bool).

#[global] Instance accumulatorPhase_eq_dec : EqDecision accumulatorPhase.
Proof. solve_decision. Defined.

(** [shOut] is the batch that the accumulator is handing to the sender; [shWindow] the
    sender's batches in flight, as the numbers of their races; [shDone] what was sent on
    the items' channels. [shShipped] and [shSent] record the items that came in and that were
    dispatched. *)
Record shard := MkShard {
  shCh : list shipItem;
  shPending : list shipItem;
  shBytes : Z;
  shOut : option (list shipItem);
  shGroups : list (list shipItem);
  shWindow : list (list nat);
  shRaces : list (group * (followersRace * option raceOutcome));
  shDone : gmap nat raceOutcome;
  shPhase : accumulatorPhase;
  shOver : bool;
  shShipped : list shipItem;
  shSent : list shipItem;
}.

Definition newShard : shard := MkShard [] [] 0 None [] [] [] ∅ Select false [] [].

Definition sizeOf (items : list shipItem) : Z := foldl (λ n it, n + zlen (siSeg it)) 0 items.

Section shard.
(** [launch k i] says that the race [k] could send its copy to its follower [i]; [stored] that
    the transport's append of a batch returned without an error. *)
Context (cfg : config) (launch : nat → nat → bool) (stored : string → Scope → Z → list bytes → Prop).

(** [Ship] puts the item in the queue, unless it is full. *)
Definition enqueue (it : shipItem) (s : shard) : option shard :=
  if decide (zlen (shCh s) < cfQueue cfg) then
    Some (MkShard (shCh s ++ [it]) (shPending s) (shBytes s) (shOut s) (shGroups s) (shWindow s) (shRaces s) (shDone s)
            (shPhase s) (shOver s) (shShipped s ++ [it]) (shSent s))
  else None.

(** The function [flush] of the accumulator, up to its select statement. *)
Definition flushPending (s : shard) : shard :=
  match shPending s with
  | [] => s
  | batch => MkShard (shCh s) [] 0 (Some batch) (shGroups s) (shWindow s) (shRaces s) (shDone s) (shPhase s) (shOver s) (shShipped s) (shSent s)
  end.

(** A tick, a wake-up or the end of the context: [drain] begins. *)
Definition startDrain (last : bool) (s : shard) : shard :=
  MkShard (shCh s) (shPending s) (shBytes s) (shOut s) (shGroups s) (shWindow s) (shRaces s) (shDone s) (Draining last) (shOver s)
    (shShipped s) (shSent s).

(** A round of [drain]; others can fill the queue between two rounds. *)
Definition drain (s : shard) : option shard :=
  match shPhase s, shCh s with
  | Draining _, it :: ch =>
      Some (MkShard ch (shPending s ++ [it]) (shBytes s + zlen (siSeg it)) (shOut s) (shGroups s) (shWindow s) (shRaces s)
              (shDone s) (shPhase s) (shOver s) (shShipped s) (shSent s))
  | _, _ => None
  end.

(** [drain] found the queue empty; [flush] follows, and after the last one the
    accumulator ends. *)
Definition finishDrain (s : shard) : option shard :=
  match shPhase s, shCh s with
  | Draining last, [] =>
      let s := flushPending s in
      Some (MkShard (shCh s) (shPending s) (shBytes s) (shOut s) (shGroups s) (shWindow s) (shRaces s) (shDone s) Select last
              (shShipped s) (shSent s))
  | _, _ => None
  end.

(** An item from the queue. *)
Definition accumulate (s : shard) : option shard :=
  match shCh s with
  | [] => None
  | it :: ch =>
      let s := MkShard ch (shPending s ++ [it]) (shBytes s + zlen (siSeg it)) (shOut s) (shGroups s) (shWindow s) (shRaces s)
                 (shDone s) (shPhase s) (shOver s) (shShipped s) (shSent s) in
      Some (if decide (cfSegments cfg ≤ zlen (shPending s) ∨ cfBytes cfg ≤ shBytes s) then flushPending s else s)
  end.

(** The batch goes to the sender when its channel has room. *)
Definition handOver (s : shard) : option shard :=
  match shOut s with
  | Some batch =>
      if decide (zlen (shGroups s) < maxGroups) then
        Some (MkShard (shCh s) (shPending s) (shBytes s) None (shGroups s ++ [batch]) (shWindow s) (shRaces s) (shDone s)
                (shPhase s) (shOver s) (shShipped s) (shSent s))
      else None
  | None => None
  end.

(** The results of a race that has ended, for the items of its group. *)
Definition deliverTo (g : group) (o : option raceOutcome) (done : gmap nat raceOutcome) : gmap nat raceOutcome :=
  match o with
  | Some out => foldr (λ it, <[siDone it := out]>) done (grItems g)
  | None => done
  end.

Definition beginRaces (first : nat) (gs : list group) : list (group * (followersRace * option raceOutcome)) :=
  imap (λ k g, (g, raceStart (grFollowers g) (launch (first + k)) (cfHedge cfg))) gs.

Definition dispatchItems (items : list shipItem) (window : list (list nat)) (s : shard) : shard :=
  let first := length (shRaces s) in
  let races := beginRaces first (groupItems items).*2 in
  MkShard (shCh s) (shPending s) (shBytes s) (shOut s) (shGroups s) window (shRaces s ++ races)
    (foldl (λ done r, deliverTo r.1 r.2.2 done) (shDone s) races) (shPhase s) (shOver s) (shShipped s) (shSent s ++ items).

Definition ended (s : shard) (k : nat) : bool :=
  match shRaces s !! k with Some (_, (_, None)) => false | _ => true end.

(** A round of [sender]: with a full window it waits for the oldest batch. *)
Definition send (s : shard) : option shard :=
  match shGroups s with
  | [] => None
  | items :: groups =>
      let s := MkShard (shCh s) (shPending s) (shBytes s) (shOut s) groups (shWindow s) (shRaces s) (shDone s)
                 (shPhase s) (shOver s) (shShipped s) (shSent s) in
      let batch := seq (length (shRaces s)) (length (groupItems items)) in
      if decide (length (shWindow s) < cfPipeline cfg)%nat then Some (dispatchItems items (shWindow s ++ [batch]) s)
      else match shWindow s with
           | oldest :: window => if forallb (ended s) oldest then Some (dispatchItems items (window ++ [batch]) s) else None
           | [] => None
           end
  end.

(** An event of a race. *)
Definition raceAt (k : nat) (ev : raceEvent) (s : shard) : option shard :=
  match shRaces s !! k with
  | Some (g, (r, None)) =>
      let x := onEvent (grFollowers g) (launch k) r ev in
      Some (MkShard (shCh s) (shPending s) (shBytes s) (shOut s) (shGroups s) (shWindow s) (<[k := (g, x)]> (shRaces s))
              (deliverTo g x.2 (shDone s)) (shPhase s) (shOver s) (shShipped s) (shSent s))
  | _ => None
  end.

(** The end of [Start]'s context: the accumulator may send a batch itself. *)
Definition flushInline (s : shard) : option shard :=
  match shOut s with
  | Some batch =>
      Some (dispatchItems batch (shWindow s)
        (MkShard (shCh s) (shPending s) (shBytes s) None (shGroups s) (shWindow s) (shRaces s) (shDone s)
           (shPhase s) (shOver s) (shShipped s) (shSent s)))
  | None => None
  end.

(** [ShipNow], [ShipNowAsync], and [Ship] when its queue is full: the segment is a batch of
    its own, and its race ends with [out]. *)
Definition shipNow (followers : list string) (launched : nat → bool) (sc : Scope) (epoch : Z) (seg : bytes)
    (out : raceOutcome) : Prop :=
  followers ≠ [] ∧ ∃ evs r, raceReach followers launched (cfHedge cfg) evs (r, Some out)
    ∧ ∀ i, EvResult i true ∈ evs → stored (nth i followers EmptyString) sc epoch [seg].

(** [up] says that the context of [Start] has not ended. *)
Inductive shardStep (up : bool) (s : shard) : shard → Prop :=
| step_ship it s' : enqueue it s = Some s' → siDone it ∉ siDone <$> shShipped s → siFkey it = followersKey (siFollowers it) →
    siFollowers it ≠ [] → shardStep up s s'
| step_take s' : shOut s = None → shPhase s = Select → shOver s = false → accumulate s = Some s' → shardStep up s s'
| step_start last : shOut s = None → shPhase s = Select → shOver s = false → (last = true → up = false) →
    shardStep up s (startDrain last s)
| step_drain s' : drain s = Some s' → shardStep up s s'
| step_flush s' : shOut s = None → finishDrain s = Some s' → shardStep up s s'
| step_hand s' : handOver s = Some s' → shardStep up s s'
| step_send s' : send s = Some s' → shardStep up s s'
| step_race k ev g r s' : shRaces s !! k = Some (g, (r, None)) → enabled r ev →
    (∀ i, ev = EvResult i true → stored (nth i (grFollowers g) EmptyString) (grScope g) (grEpoch g) (grSegs g)) →
    raceAt k ev s = Some s' → shardStep up s s'
| step_inline s' : up = false → flushInline s = Some s' → shardStep up s s'.

Inductive shardReach (up : bool) : shard → Prop :=
| shard_new : shardReach up newShard
| shard_step s s' : shardReach up s → shardStep up s s' → shardReach up s'.
End shard.

(** ** Lemmas *)

Lemma itoa_FormatUint u : 0 ≤ u → itoa u = String.string_of_list_byte (FormatUint u).
Proof.
  intros Hu. unfold itoa, FormatUint. case_decide as H0; [by subst u|]. f_equal. assert (0 < u) as Hp by lia. clear Hu H0.
  generalize ([] : bytes) as acc. revert u Hp. generalize 20%nat as fuel.
  induction fuel as [|fuel IH]; intros u Hp acc; [done|]. cbn [itoaDigits formatDigits]. rewrite decide_True by done. cbv zeta.
  case_decide as Ht; [|apply IH, Z.div_str_pos; lia]. rewrite Z.div_small by lia. by destruct fuel.
Qed.

Lemma itoa_inj u v : 0 ≤ u ≤ maxUint64 → 0 ≤ v ≤ maxUint64 → itoa u = itoa v → u = v.
Proof.
  intros Hu Hv. rewrite !itoa_FormatUint by lia. intros E. apply (f_equal String.list_byte_of_string) in E.
  rewrite !String.list_byte_of_string_of_list_byte in E. apply (f_equal ParseUint) in E. rewrite !ParseUint_FormatUint in E by done.
  by injection E.
Qed.

Lemma itoa_free sep u : isDigit sep = false → 0 ≤ u → sepFree (Ascii.ascii_of_byte sep) (itoa u).
Proof.
  intros Hs Hu. rewrite itoa_FormatUint by done. pose proof (formatDigits_digits 20 u [] Hu (Forall_nil_2 _)) as Hd.
  unfold FormatUint. induction Hd as [|b l Hb Hd IH]; [done|]. split; [|done].
  intros E. apply (f_equal Ascii.byte_of_ascii) in E. rewrite !Ascii.byte_of_ascii_of_byte in E. subst b. by rewrite Hs in Hb.
Qed.

(** The part after the last separator. *)
Lemma last_part sep a b f g :
  sepFree sep f → sepFree sep g → a +:+ String sep f = b +:+ String sep g → a = b ∧ f = g.
Proof.
  intros Hf Hg E. apply (f_equal (split sep)) in E. rewrite !split_app_gen, (split_sepFree _ f), (split_sepFree _ g) in E by done.
  apply app_inj_tail in E as [E ->]. split; [|done]. apply (f_equal (joinWith sep)) in E. by rewrite !join_split in E.
Qed.

Lemma followersKey_perm l1 l2 :
  Forall (sepFree comma) l1 → Forall (sepFree comma) l2 → l1 ≠ [] → l2 ≠ [] → followersKey l1 = followersKey l2 → l1 ≡ₚ l2.
Proof.
  assert (∀ l, Forall (sepFree comma) l → l ≠ [] → split comma (followersKey l) ≡ₚ l) as Hs.
  { intros l Hl Hne. destruct l as [|x [|y l]]; [done| |].
    - unfold followersKey. rewrite split_sepFree; [done|by inversion_clear Hl].
    - unfold followersKey. pose proof (merge_sort_Permutation String.le (x :: y :: l)) as Hp. fold (sortKeys (x :: y :: l)) in Hp.
      rewrite split_join; [done| |by rewrite Hp]. intros E. rewrite E in Hp. by apply Permutation_nil_cons in Hp. }
  intros H1 H2 Hn1 Hn2 E. rewrite <- (Hs l1), <- (Hs l2) by done. by rewrite E.
Qed.

(** Addresses that the keys can hold. *)
Record okItem (it : shipItem) : Prop := {
  oi_scope : Validate (siScope it) = Ok tt;
  oi_epoch : 0 ≤ siEpoch it ≤ maxUint64;
  oi_fkey : siFkey it = followersKey (siFollowers it);
  oi_some : siFollowers it ≠ [];
  oi_comma : Forall (sepFree comma) (siFollowers it);
  oi_hash : sepFree hash (siFkey it);
}.

Lemma itemKey_inj it1 it2 :
  okItem it1 → okItem it2 → itemKey it1 = itemKey it2 →
  siScope it1 = siScope it2 ∧ siEpoch it1 = siEpoch it2 ∧ siFollowers it1 ≡ₚ siFollowers it2.
Proof.
  intros H1 H2 E. unfold itemKey in E.
  change (String atSign (itoa (siEpoch it1) +:+ ?x)) with (String atSign (itoa (siEpoch it1)) +:+ x) in E.
  change (String atSign (itoa (siEpoch it2) +:+ ?x)) with (String atSign (itoa (siEpoch it2)) +:+ x) in E.
  rewrite !string_app_assoc in E. apply last_part in E as [E Ef]; [|apply H1|apply H2].
  apply last_part in E as [Es Ee]; [|by apply itoa_free; [|apply H1]|by apply itoa_free; [|apply H2]].
  split; [|split].
  - apply (f_equal ParseScope) in Es. rewrite !ParseScope_valid in Es by (apply H1 || apply H2). by injection Es.
  - apply itoa_inj; [apply H1|apply H2|done].
  - rewrite (oi_fkey _ H1), (oi_fkey _ H2) in Ef. by apply followersKey_perm; [apply H1|apply H2|apply H1|apply H2|].
Qed.

(** *** Races *)

Section raceLemmas.
Context (followers : list string) (launch : nat → bool) (hedgeEnabled : bool).

(** A copy that has failed: it could not be sent, or was answered with an error. *)
Definition failedCopy (evs : list raceEvent) (i : nat) : Prop := launch i = false ∨ EvResult i false ∈ evs.

Record raceOk (evs : list raceEvent) (r : followersRace) : Prop := {
  ro_next : (rcNext r <= length followers)%nat;
  ro_pending : rcPending r = zlen (rcFlight r);
  ro_nodup : NoDup (rcFlight r);
  ro_flight i : i ∈ rcFlight r → (i < rcNext r)%nat ∧ launch i = true;
  ro_rest i : (i < rcNext r)%nat → i ∈ rcFlight r ∨ failedCopy evs i;
}.

Lemma startLoop_ok evs fuel hedged r :
  raceOk evs r → (length followers <= rcNext r + fuel)%nat →
  raceOk evs (startLoop followers launch fuel hedged r).1
  ∧ rcTimer (startLoop followers launch fuel hedged r).1 = rcTimer r
  ∧ (rcNext r <= rcNext (startLoop followers launch fuel hedged r).1)%nat
  ∧ ((startLoop followers launch fuel hedged r).2 = true → rcFlight (startLoop followers launch fuel hedged r).1 ≠ [])
  ∧ ((startLoop followers launch fuel hedged r).2 = false →
     rcNext (startLoop followers launch fuel hedged r).1 = length followers
     ∧ rcFlight (startLoop followers launch fuel hedged r).1 = rcFlight r
     ∧ ∀ i, (rcNext r <= i < length followers)%nat → launch i = false).
Proof.
  revert r. induction fuel as [|fuel IH]; intros r Hr Hf; cbn [startLoop].
  { destruct Hr. split; [by split|]. split; [done|]. split; [done|]. split; [done|]. intros _. split; [simpl; lia|]. split; [done|]. intros; lia. }
  case_decide as Hn; cbn [fst snd].
  2:{ destruct Hr. split; [by split|]. split; [done|]. split; [done|]. split; [done|]. intros _. split; [lia|]. split; [done|]. intros; lia. }
  destruct Hr as [H1 H2 H3 H4 H5]. cbv zeta. cbn [rcNext rcPending rcTimer rcHedged rcFlight rcFired rcWon].
  destruct (launch (rcNext r)) eqn:Hl; cbn [fst snd rcNext rcTimer rcFlight].
  - split; [|split; [done|split; [lia|split; [|done]]]].
    2:{ intros _ E. by apply app_eq_nil in E as [_ ?]. }
    split; cbn [rcNext rcPending rcFlight]; [lia|rewrite length_app; simpl; lia| | |].
    + apply NoDup_app. split; [done|]. split; [|apply NoDup_singleton]. intros i Hi ->%list_elem_of_singleton. by apply H4 in Hi as [? _]; lia.
    + intros i [Hi| ->%list_elem_of_singleton]%elem_of_app; [|split; [lia|done]]. apply H4 in Hi as [? ?]. split; [lia|done].
    + intros i Hi. rewrite elem_of_app, list_elem_of_singleton. destruct (decide (i = rcNext r)) as [->|]; [by left; right|].
      destruct (H5 i) as [?|?]; [lia|by left; left|by right].
  - match goal with |- context [startLoop _ _ fuel hedged ?r1] => specialize (IH r1) end. cbn [rcNext rcTimer rcFlight] in IH.
    destruct IH as (I1 & I2 & I3 & I4 & I5); [|lia|].
    { split; cbn [rcNext rcPending rcFlight]; [lia|done|done| |].
      - intros i Hi. apply H4 in Hi as [? ?]. split; [lia|done].
      - intros i Hi. destruct (decide (i = rcNext r)) as [->|]; [right; by left|]. apply H5. lia. }
    split; [done|]. split; [done|]. split; [lia|]. split; [done|]. intros E. destruct (I5 E) as (? & ? & Hi). split; [done|]. split; [done|].
    intros i Hx. destruct (decide (i = rcNext r)) as [->|]; [done|]. apply Hi. lia.
Qed.

Lemma startNext_ok evs hedged r : raceOk evs r →
  let x := startNext followers launch hedged r in
  raceOk evs x.1 ∧ rcTimer x.1 = rcTimer r ∧ (rcNext r <= rcNext x.1)%nat ∧ (x.2 = true → rcFlight x.1 ≠ [])
  ∧ (x.2 = false → rcNext x.1 = length followers ∧ rcFlight x.1 = rcFlight r
     ∧ ∀ i, (rcNext r <= i < length followers)%nat → launch i = false).
Proof. intros Hr. apply startLoop_ok; [done|lia]. Qed.

Lemma raceOk_more evs ev r : raceOk evs r → raceOk (evs ++ [ev]) r.
Proof.
  intros [H1 H2 H3 H4 H5]. split; try done. intros i Hi. destruct (H5 i Hi) as [?|[?|?]]; [by left|by right; left|].
  right. right. apply elem_of_app. by left.
Qed.

Lemma raceOk_timer evs b r : raceOk evs r → raceOk evs (withTimer b r).
Proof. by intros []. Qed.

(** An answer with an error. *)
Lemma raceOk_result evs r i fired won :
  raceOk evs r → i ∈ rcFlight r →
  raceOk (evs ++ [EvResult i false])
    (MkRace (rcNext r) (rcPending r - 1) (rcTimer r) (rcHedged r) (filter (λ j, j ≠ i) (rcFlight r)) fired won).
Proof.
  intros Hr Hi. pose proof (raceOk_more evs (EvResult i false) r Hr) as [H1 H2 H3 H4 H5].
  split; cbn [rcNext rcPending rcFlight]; [done| |by apply NoDup_filter| |].
  - rewrite H2. apply elem_of_Permutation in Hi as [l Hl]. rewrite Hl in H3 |- *. apply NoDup_cons in H3 as [Hni _].
    rewrite filter_cons_False by (by intros []). rewrite (list_filter_all (λ j, j ≠ i) l); [simpl; lia|].
    apply Forall_forall. by intros j Hj ->.
  - intros j [_ Hj]%list_elem_of_filter. by apply H4.
  - intros j Hj. destruct (decide (j = i)) as [->|Hne]; [right; right; apply elem_of_app; right; apply list_elem_of_here|].
    destruct (H5 j Hj); [left; by apply list_elem_of_filter|by right].
Qed.

(** A race with nothing in flight has tried every follower, and could not send some copy. *)
Definition idleOnly (r : followersRace) : Prop :=
  rcFlight r = [] → rcNext r = length followers ∧ ∃ i, (i < length followers)%nat ∧ launch i = false.

(** What the outcome of a race means. *)
Definition outcomeMeans (evs : list raceEvent) (o : raceOutcome) : Prop :=
  match o with
  | Acked addr => ∃ i, followers !! i = Some addr ∧ launch i = true ∧ EvResult i true ∈ evs
  | NoUsable | AllFailed => ∀ i, (i < length followers)%nat → failedCopy evs i
  | Canceled => EvDone ∈ evs
  end.

Lemma flight_zero evs r : raceOk evs r → (rcPending r = 0 ↔ rcFlight r = []).
Proof. intros [_ -> _ _ _]. destruct (rcFlight r); simpl; [done|]. split; [lia|done]. Qed.

Lemma idle_next evs hedged r :
  raceOk evs r → (rcNext r < length followers)%nat → idleOnly (startNext followers launch hedged r).1.
Proof.
  intros Hr Hn. destruct (startNext_ok evs hedged r Hr) as (_ & _ & _ & Ht & Hf). intros E.
  destruct (startNext followers launch hedged r).2 eqn:E2; [by destruct (Ht eq_refl)|]. destruct (Hf eq_refl) as (-> & _ & Hl).
  split; [done|]. exists (rcNext r). split; [done|]. apply Hl. lia.
Qed.

Lemma raceStart_ok :
  raceOk [] (raceStart followers launch hedgeEnabled).1
  ∧ match (raceStart followers launch hedgeEnabled).2 with
    | None => idleOnly (raceStart followers launch hedgeEnabled).1
    | Some o => outcomeMeans [] o
    end.
Proof.
  unfold raceStart. cbn [fst snd]. assert (raceOk [] (MkRace 0 0 false ∅ [] 0 0)) as H0.
  { split; simpl; [lia|done|apply NoDup_nil_2|by intros i ?%elem_of_nil|intros; lia]. }
  destruct (startNext_ok [] false _ H0) as (Hok & _). unfold beginRace.
  destruct (startNext followers launch false (MkRace 0 0 false ∅ [] 0 0)) as [r started] eqn:E. cbn [fst snd] in *.
  split; [by apply raceOk_timer|]. pose proof (flight_zero [] r Hok) as Hz. case_decide as Hp.
  - pose proof (proj1 Hz Hp) as Hfl. intros i Hi. cbn [outcomeMeans]. destruct (startNext_ok [] false _ H0) as (_ & _ & _ & Ht & Hf).
    rewrite E in Ht, Hf. cbn [fst snd] in *. destruct started; [by destruct (Ht eq_refl)|]. destruct (Hf eq_refl) as (_ & _ & Hl).
    left. apply Hl. simpl. lia.
  - intros Hfl. destruct Hp. by apply Hz.
Qed.

Lemma onEvent_ok evs r ev :
  raceOk evs r → idleOnly r → enabled r ev →
  match onEvent followers launch r ev with
  | (r', None) => raceOk (evs ++ [ev]) r' ∧ idleOnly r'
  | (_, Some o) => outcomeMeans (evs ++ [ev]) o
  end.
Proof.
  intros Hr Hidle Hen. destruct ev as [i ok| |]; cbn [onEvent].
  - destruct ok; cbv zeta.
    + cbn [andb]. destruct (ro_flight _ _ Hr i Hen) as [Hi Hl]. exists i. split; [|split; [done|apply elem_of_app; right; apply list_elem_of_here]].
      pose proof (ro_next _ _ Hr) as Hn. destruct (lookup_lt_is_Some_2 followers i ltac:(lia)) as [a Ha]. rewrite Ha. f_equal.
      by rewrite (nth_lookup_Some followers i EmptyString a Ha).
    + cbn [andb]. pose proof (raceOk_result evs r i (rcFired r) (rcWon r) Hr Hen) as Hr1. cbn [rcNext rcPending].
      case_decide as Hn.
      * destruct (startNext_ok _ false _ Hr1) as (Hok & _). split; [done|]. eapply idle_next; [exact Hr1|done].
      * pose proof (flight_zero _ _ Hr1) as Hz. cbn [rcPending rcFlight] in Hz. case_decide as Hp.
        -- apply Hz in Hp. intros j Hj. destruct (ro_rest _ _ Hr1 j) as [Hx|Hx]; [simpl; lia| |done]. cbn [rcFlight] in Hx.
           rewrite Hp in Hx. by apply elem_of_nil in Hx.
        -- split; [done|]. intros E. destruct Hp. by apply Hz.
  - case_decide as Hn.
    + pose proof (raceOk_more _ EvTimer _ Hr) as Hr1. destruct (startNext_ok _ true _ Hr1) as (Hok & _). split; [done|].
      eapply idle_next; [exact Hr1|done].
    + split; [by apply raceOk_timer, raceOk_more|done].
  - apply elem_of_app. right. apply list_elem_of_here.
Qed.

Lemma raceReach_ok evs x :
  raceReach followers launch hedgeEnabled evs x →
  match x with (r, None) => raceOk evs r ∧ idleOnly r | (_, Some o) => outcomeMeans evs o end.
Proof.
  induction 1 as [|evs r ev Hr [IH Hi] Hen].
  - pose proof raceStart_ok as [H1 H2]. unfold raceStart in *. cbn [fst snd] in *. by case_decide.
  - by apply onEvent_ok.
Qed.
End raceLemmas.

(** *** Groups *)

(** The group of a key has its items, in their order. *)
Record okGroup (items : list shipItem) (k : string) (g : group) : Prop := {
  og_items : grItems g = filter (λ it, itemKey it = k) items;
  og_segs : grSegs g = siSeg <$> grItems g;
  og_first : ∃ it rest, grItems g = it :: rest ∧ grScope g = siScope it ∧ grEpoch g = siEpoch it ∧ grFollowers g = siFollowers it;
}.

Lemma okGroup_other items it k g : okGroup items k g → k ≠ itemKey it → okGroup (items ++ [it]) k g.
Proof.
  intros [H1 H2 H3] Hk. split; [|done|done]. rewrite filter_app, filter_cons_False, filter_nil, app_nil_r by done. done.
Qed.

Lemma addItem_ok items gs it :
  Forall (λ kg, okGroup items kg.1 kg.2) gs → NoDup gs.*1 →
  (itemKey it ∉ gs.*1 → filter (λ x, itemKey x = itemKey it) items = []) →
  Forall (λ kg, okGroup (items ++ [it]) kg.1 kg.2) (addItem gs it) ∧ NoDup (addItem gs it).*1
  ∧ ∀ k, k ∈ (addItem gs it).*1 ↔ k ∈ gs.*1 ∨ k = itemKey it.
Proof.
  induction gs as [|[k g] gs IH]; intros Hok Hnd Hnew; cbn [addItem].
  - split; [|split; [apply NoDup_singleton|intros k; set_solver]]. apply Forall_singleton. cbn [fst snd]. split; [|done|].
    + rewrite filter_app, Hnew by apply not_elem_of_nil. by rewrite filter_cons_True.
    + by exists it, [].
  - apply Forall_cons in Hok as [Hg Hok]. apply NoDup_cons in Hnd as [Hk Hnd]. cbn [fst snd] in *.
    assert (Forall (λ kg : string * group, kg.1 ≠ itemKey it → okGroup (items ++ [it]) kg.1 kg.2) gs) as Hother.
    { eapply Forall_impl; [exact Hok|]. intros x Hx. by apply okGroup_other. }
    case_decide as E.
    + split; [|split; [by apply NoDup_cons|]].
      * apply Forall_cons. cbn [fst snd]. split.
        -- destruct Hg as [H1 H2 (x & rest & H3 & H4)]. split; cbn [grItems grSegs grScope grEpoch grFollowers].
           ++ rewrite filter_app, <- H1. by rewrite filter_cons_True.
           ++ by rewrite fmap_app, H2.
           ++ exists x, (rest ++ [it]). by rewrite H3.
        -- apply Forall_forall. intros x Hx. rewrite Forall_forall in Hother. apply Hother; [done|]. intros Ex. apply Hk.
           rewrite E, <- Ex. by apply list_elem_of_fmap_2.
      * intros x. cbn [fmap list_fmap fst]. rewrite !elem_of_cons. naive_solver.
    + destruct IH as (I1 & I2 & I3); [done|done| |].
      { intros Hx. apply Hnew. cbn [fmap list_fmap fst]. apply not_elem_of_cons. split; [by intros ?|done]. }
      split; [apply Forall_cons; split; [by apply okGroup_other|done]|]. cbn [fmap list_fmap fst]. split.
      * apply NoDup_cons. split; [|done]. intros [?|?]%I3; [done|by apply E].
      * intros x. rewrite !elem_of_cons, I3. tauto.
Qed.

Lemma groupItems_ok items :
  Forall (λ kg, okGroup items kg.1 kg.2) (groupItems items) ∧ NoDup (groupItems items).*1
  ∧ ∀ k, k ∈ (groupItems items).*1 ↔ k ∈ itemKey <$> items.
Proof.
  induction items as [|it items (I1 & I2 & I3)] using rev_ind; [split; [done|split; [apply NoDup_nil_2|done]]|].
  unfold groupItems. rewrite foldl_app. cbn [foldl]. fold (groupItems items).
  destruct (addItem_ok items (groupItems items) it I1 I2) as (H1 & H2 & H3).
  { intros Hn. apply elem_of_nil_inv. intros x [Hx Hin]%list_elem_of_filter. apply Hn, I3. rewrite <- Hx. by apply list_elem_of_fmap_2. }
  split; [done|]. split; [done|]. intros k. rewrite H3, I3, fmap_app, elem_of_app. set_solver.
Qed.

(** Every item of a group is for its cell, epoch and followers. *)
Lemma okGroup_item items k g it :
  okGroup items k g → Forall okItem items → it ∈ grItems g →
  it ∈ items ∧ siSeg it ∈ grSegs g ∧ grScope g = siScope it ∧ grEpoch g = siEpoch it ∧ grFollowers g ≡ₚ siFollowers it.
Proof.
  intros [H1 H2 (x & rest & H3 & -> & -> & ->)] Hok Hit. rewrite Forall_forall in Hok.
  assert (x ∈ grItems g) as Hx by (rewrite H3; apply list_elem_of_here).
  rewrite H2. split; [|split; [by apply list_elem_of_fmap_2|]]; rewrite H1 in *; apply list_elem_of_filter in Hit as [Hk Hit]; [done|].
  apply list_elem_of_filter in Hx as [Hkx Hx]. apply itemKey_inj; [by apply Hok|by apply Hok|by rewrite Hk].
Qed.

(** *** Shards *)

Section shardLemmas.
Context (cfg : config) (launch : nat → nat → bool) (stored : string → Scope → Z → list bytes → Prop).

(** The items of a shard, from those that were dispatched to the last in the queue. *)
Definition content (s : shard) : list shipItem :=
  shSent s ++ concat (shGroups s) ++ default [] (shOut s) ++ shPending s ++ shCh s.

(** A race of the shard is a race for a group of items that were sent; a copy that was
    acknowledged is stored. *)
Definition raceFor (sent : list shipItem) (k : nat) (gx : group * (followersRace * option raceOutcome)) : Prop :=
  (∃ items key, okGroup items key gx.1 ∧ items ⊆ sent)
  ∧ ∃ evs, raceReach (grFollowers gx.1) (launch k) (cfHedge cfg) evs gx.2
      ∧ ∀ i, EvResult i true ∈ evs → stored (nth i (grFollowers gx.1) EmptyString) (grScope gx.1) (grEpoch gx.1) (grSegs gx.1).

Record shardOk (s : shard) : Prop := {
  so_content : content s ≡ₚ shShipped s;
  so_ids : NoDup (siDone <$> shShipped s);
  so_races k gx : shRaces s !! k = Some gx → raceFor (shSent s) k gx;
  so_done id out : shDone s !! id = Some out →
    ∃ k g r it, shRaces s !! k = Some (g, (r, Some out)) ∧ it ∈ grItems g ∧ siDone it = id;
}.

Lemma flush_content s : shOut s = None → content (flushPending s) = content s.
Proof. intros Hout. unfold flushPending, content. destruct (shPending s) eqn:E; [by rewrite E|]. cbn. rewrite Hout. done. Qed.

Lemma drain_same s s' :
  drain s = Some s' → content s' = content s ∧ shShipped s' = shShipped s ∧ shRaces s' = shRaces s ∧ shSent s' = shSent s
    ∧ shDone s' = shDone s ∧ shWindow s' = shWindow s.
Proof.
  unfold drain. destruct (shPhase s) eqn:Ep; [done|]. destruct (shCh s) as [|it ch] eqn:Ech; [done|]. intros [= <-].
  split_and!; [|done..]. unfold content. cbn. rewrite Ech. by rewrite <- (app_assoc (shPending s)).
Qed.

Lemma flush_same s :
  shShipped (flushPending s) = shShipped s ∧ shRaces (flushPending s) = shRaces s ∧ shSent (flushPending s) = shSent s
  ∧ shDone (flushPending s) = shDone s ∧ shWindow (flushPending s) = shWindow s.
Proof. unfold flushPending. by destruct (shPending s). Qed.

Lemma finish_same s s' :
  shOut s = None → finishDrain s = Some s' → content s' = content s ∧ shShipped s' = shShipped s ∧ shRaces s' = shRaces s
    ∧ shSent s' = shSent s ∧ shDone s' = shDone s ∧ shWindow s' = shWindow s.
Proof.
  unfold finishDrain. intros Ho. destruct (shPhase s); [done|]. destruct (shCh s) eqn:Ech; [|done]. intros [= <-].
  destruct (flush_same s) as (? & ? & ? & ? & ?). split_and!; try done. by rewrite <- (flush_content s Ho).
Qed.

(** Steps that move items only. *)
Lemma shardOk_moved s s' :
  shardOk s → content s' ≡ₚ content s → shShipped s' = shShipped s → shRaces s' = shRaces s → shSent s' = shSent s →
  shDone s' = shDone s → shardOk s'.
Proof. intros [H1 H2 H3 H4] Hc E1 E2 E3 E4. split; rewrite ?E1, ?E2, ?E3, ?E4; [by rewrite Hc|done|done|done]. Qed.

Lemma deliverTo_lookup g o done id out :
  deliverTo g o done !! id = Some out →
  (o = Some out ∧ ∃ it, it ∈ grItems g ∧ siDone it = id) ∨ done !! id = Some out.
Proof.
  unfold deliverTo. destruct o as [o|]; [|by right]. induction (grItems g) as [|it items IH]; cbn [foldr]; [by right|].
  destruct (decide (siDone it = id)) as [<-|Hne].
  - rewrite lookup_insert_eq. intros [= ->]. left. split; [done|]. exists it. split; [apply list_elem_of_here|done].
  - rewrite lookup_insert_ne by done. intros [[-> (x & ? & ?)]|?]%IH; [left|by right]. split; [done|]. exists x. split; [by right|done].
Qed.

Lemma deliverAll_lookup (races : list (group * (followersRace * option raceOutcome))) done id out :
  foldl (λ done r, deliverTo r.1 r.2.2 done) done races !! id = Some out →
  (∃ (k : nat) g r it, races !! k = Some (g, (r, Some out)) ∧ it ∈ grItems g ∧ siDone it = id) ∨ done !! id = Some out.
Proof.
  revert done. induction races as [|[g [r o]] races IH]; intros done; cbn [foldl]; [by right|].
  intros [(k & g' & r' & it & Hk & Hit)|Hd]%IH; [left; by exists (S k), g', r', it|].
  apply deliverTo_lookup in Hd as [[Ho (it & Hit)]|Hd]; [|by right]. cbn [fst snd] in *. subst o. left. by exists 0%nat, g, r, it.
Qed.

Lemma raceFor_mono sent sent' k gx : sent ⊆ sent' → raceFor sent k gx → raceFor sent' k gx.
Proof. intros Hs [(items & key & Hg & Hi) Hr]. split; [|done]. exists items, key. split; [done|]. set_solver. Qed.

Lemma dispatch_ok items window s :
  items ++ content s ≡ₚ shShipped s → NoDup (siDone <$> shShipped s) →
  (∀ k gx, shRaces s !! k = Some gx → raceFor (shSent s) k gx) →
  (∀ id out, shDone s !! id = Some out →
    ∃ k g r it, shRaces s !! k = Some (g, (r, Some out)) ∧ it ∈ grItems g ∧ siDone it = id) →
  shardOk (dispatchItems cfg launch items window s).
Proof.
  intros Hc Hids Hraces Hdone. unfold dispatchItems. split; cbn [shShipped shSent shRaces shDone].
  - etransitivity; [|exact Hc]. unfold content. cbn. rewrite <- app_assoc. by rewrite Permutation_app_swap_app.
  - done.
  - intros k gx [Hk|[Hlen Hk]]%lookup_app_Some; [eapply raceFor_mono; [|by apply Hraces]; set_solver|].
    unfold beginRaces in Hk. rewrite list_lookup_imap in Hk. apply fmap_Some in Hk as (g & Hg & ->).
    rewrite list_lookup_fmap in Hg. apply fmap_Some in Hg as ([key g'] & Hg & ->). destruct (groupItems_ok items) as (Hok & _).
    pose proof (Forall_lookup_1 _ _ _ _ Hok Hg) as Hgr. split; cbn [fst snd] in *.
    + exists items, key. split; [done|]. set_solver.
    + exists []. replace (length (shRaces s) + (k - length (shRaces s)))%nat with k by lia. split; [constructor|by intros i ?%elem_of_nil].
  - intros id out [(k & g & r & it & Hk & Hit)|(k & g & r & it & Hk & Hit)%Hdone]%deliverAll_lookup.
    + exists (length (shRaces s) + k)%nat, g, r, it. split; [|done]. rewrite lookup_app_r by lia. by rewrite Nat.add_comm, Nat.add_sub.
    + exists k, g, r, it. split; [by apply lookup_app_l_Some|done].
Qed.

Lemma enqueue_ok it s s' :
  shardOk s → enqueue cfg it s = Some s' → siDone it ∉ siDone <$> shShipped s → shardOk s'.
Proof.
  intros [H1 H2 H3 H4]. unfold enqueue. case_decide; [|done]. intros [= <-] Hn. split; cbn [shShipped shRaces shSent shDone]; try done.
  - etransitivity; [|by apply Permutation_app_tail, H1]. unfold content. cbn. by rewrite <- !app_assoc.
  - rewrite fmap_app. apply NoDup_app. split; [done|]. split; [|apply NoDup_singleton]. intros x Hx ->%list_elem_of_singleton. done.
Qed.

Lemma raceAt_ok k ev g r s s' :
  shardOk s → shRaces s !! k = Some (g, (r, None)) → enabled r ev →
  (∀ i, ev = EvResult i true → stored (nth i (grFollowers g) EmptyString) (grScope g) (grEpoch g) (grSegs g)) →
  raceAt launch k ev s = Some s' → shardOk s'.
Proof.
  intros [H1 H2 H3 H4] Hk Hen Hst. unfold raceAt. rewrite Hk. cbv zeta. intros [= <-].
  split; cbn [shShipped shRaces shSent shDone]; [done|done| |].
  - intros j gx. destruct (decide (j = k)) as [->|Hne].
    + rewrite list_lookup_insert_eq by (by eapply lookup_lt_Some). intros [= <-]. destruct (H3 k _ Hk) as [Hg (evs & Hr & Hev)].
      split; [done|]. cbn [fst snd] in *. exists (evs ++ [ev]). split; [by constructor|].
      intros i [Hi|Hi%list_elem_of_singleton]%elem_of_app; [by apply Hev|by apply Hst].
    + rewrite list_lookup_insert_ne by done. apply H3.
  - intros id out [[Ho (it & Hit)]|Hd]%deliverTo_lookup.
    + destruct (onEvent (grFollowers g) (launch k) r ev) as [r' o] eqn:E. cbn [fst snd] in *. subst o. exists k, g, r', it.
      split; [|done]. rewrite list_lookup_insert_eq by (by eapply lookup_lt_Some). done.
    + apply H4 in Hd as (j & g' & r' & it & Hj & Hit). exists j, g', r', it. split; [|done].
      rewrite list_lookup_insert_ne; [done|]. intros <-. by rewrite Hk in Hj.
Qed.

Lemma send_inv s s' :
  send cfg launch s = Some s' → ∃ items groups window, shGroups s = items :: groups
    ∧ s' = dispatchItems cfg launch items window (MkShard (shCh s) (shPending s) (shBytes s) (shOut s) groups (shWindow s) (shRaces s) (shDone s)
                 (shPhase s) (shOver s) (shShipped s) (shSent s)).
Proof.
  unfold send. destruct (shGroups s) as [|items groups]; [done|]. cbv zeta. cbn [shWindow shRaces]. case_decide.
  - intros [= <-]. by eexists _, _, _.
  - destruct (shWindow s) as [|oldest window]; [done|]. destruct (forallb _ _); [|done]. intros [= <-]. by eexists _, _, _.
Qed.

Lemma shardStep_ok up s s' : shardOk s → shardStep cfg launch stored up s s' → shardOk s'.
Proof.
  intros Hs Hstep. destruct Hstep as [it s' He Hn _ _|s' Ho _ _ Ha|last _ _ _ _|s' Hd|s' Ho Hd|s' Hh|s' Hsend|k ev g r s' Hk Hen Hst Hat|s' _ Hi].
  - by eapply enqueue_ok.
  - unfold accumulate in Ha. destruct (shCh s) as [|it ch] eqn:Ech; [done|]. cbv zeta in Ha.
    match type of Ha with context [flushPending ?x] => set (s1 := x) in Ha end.
    assert (shardOk s1) as H1.
    { eapply shardOk_moved; try done. unfold content, s1. cbn. rewrite Ech. by rewrite <- (app_assoc (shPending s)). }
    injection Ha as <-. case_decide; [|done]. destruct (flush_same s1) as (? & ? & ? & ? & ?).
    eapply shardOk_moved; try done. by rewrite flush_content.
  - by eapply shardOk_moved.
  - apply drain_same in Hd as (Hc & ? & ? & ? & ? & ?). eapply shardOk_moved; try done. by rewrite Hc.
  - apply finish_same in Hd as (Hc & ? & ? & ? & ? & ?); [|done]. eapply shardOk_moved; try done. by rewrite Hc.
  - unfold handOver in Hh. destruct (shOut s) as [batch|] eqn:Eo; [|done]. case_decide; [|done]. injection Hh as <-.
    eapply shardOk_moved; try done. unfold content. cbn. rewrite Eo, concat_app. cbn. by rewrite app_nil_r, <- (app_assoc (concat _)).
  - apply send_inv in Hsend as (items & groups & window & Eg & ->). destruct Hs as [H1 H2 H3 H4]. apply dispatch_ok; try done.
    etransitivity; [|exact H1]. unfold content. cbn [shSent shGroups shOut shPending shCh shShipped]. rewrite Eg. cbn [concat].
    rewrite <- (app_assoc items). by rewrite Permutation_app_swap_app.
  - by eapply raceAt_ok.
  - unfold flushInline in Hi. destruct (shOut s) as [batch|] eqn:Eo; [|done]. injection Hi as <-. destruct Hs as [H1 H2 H3 H4].
    apply dispatch_ok; try done. etransitivity; [|exact H1]. unfold content. cbn [shSent shGroups shOut shPending shCh shShipped]. rewrite Eo. cbn [default].
    rewrite (Permutation_app_swap_app batch), (Permutation_app_swap_app batch). done.
Qed.

Lemma shardReach_ok up s : shardReach cfg launch stored up s → shardOk s.
Proof.
  induction 1 as [|s s' _ IH Hstep]; [|by eapply shardStep_ok]. split; cbn; [done|apply NoDup_nil_2|done|done].
Qed.

(** *** Order, and the batches in flight *)

Record inOrder (s : shard) : Prop := {
  io_content : content s = shShipped s;
  io_window : (length (shWindow s) <= cfPipeline cfg)%nat;
  io_flight k : ended s k = false → ∃ b, b ∈ shWindow s ∧ k ∈ b;
}.

Lemma inOrder_moved s s' :
  inOrder s → content s' = content s → shShipped s' = shShipped s → shRaces s' = shRaces s → shWindow s' = shWindow s → inOrder s'.
Proof. intros [H1 H2 H3] Hc E1 E2 E3. split; unfold ended in *; rewrite ?E1, ?E2, ?E3; [by rewrite Hc|done|done]. Qed.

Lemma dispatch_ended items window s k :
  ended (dispatchItems cfg launch items window s) k = false →
  ended s k = false ∨ k ∈ seq (length (shRaces s)) (length (groupItems items)).
Proof.
  unfold ended, dispatchItems. cbn [shRaces]. destruct (decide (k < length (shRaces s))%nat) as [Hk|Hk].
  - rewrite lookup_app_l by done. by left.
  - rewrite lookup_app_r by lia. intros He. right. apply elem_of_seq. split; [lia|].
    destruct (beginRaces _ _ _ _ !! _) eqn:E; [|done]. apply lookup_lt_Some in E. unfold beginRaces in E.
    rewrite length_imap, length_fmap in E. lia.
Qed.

Lemma send_order s s' : inOrder s → send cfg launch s = Some s' → inOrder s'.
Proof.
  intros [H1 H2 H3]. unfold send. destruct (shGroups s) as [|items groups] eqn:Eg; [done|]. cbv zeta. cbn [shWindow shRaces].
  match goal with |- context [dispatchItems _ _ items _ ?x] => set (s1 := x) end.
  assert (∀ window, content (dispatchItems cfg launch items window s1) = shShipped (dispatchItems cfg launch items window s1)) as Hc.
  { intros window. unfold dispatchItems, content, s1. cbn. rewrite <- H1. unfold content. rewrite Eg. cbn [concat]. by rewrite <- !app_assoc. }
  case_decide as Hw.
  - intros [= <-]. split; [apply Hc|cbn; rewrite length_app; simpl; lia|]. intros k [Hk|Hk]%dispatch_ended; cbn [dispatchItems shWindow].
    + destruct (H3 k Hk) as (b & ? & ?). exists b. split; [apply elem_of_app; by left|done].
    + eexists. split; [apply elem_of_app; right; apply list_elem_of_here|done].
  - destruct (shWindow s) as [|oldest window] eqn:Ew; [done|]. destruct (forallb (ended s1) oldest) eqn:Hf; [|done]. intros [= <-].
    split; [apply Hc|cbn; rewrite length_app; simpl in *; lia|]. intros k [Hk|Hk]%dispatch_ended; cbn [dispatchItems shWindow].
    + destruct (H3 k Hk) as (b & [->|Hb]%elem_of_cons & Hkb); [|exists b; split; [apply elem_of_app; by left|done]].
      rewrite forallb_forall in Hf. rewrite (Hf k) in Hk by (by apply list_elem_of_In). done.
    + eexists. split; [apply elem_of_app; right; apply list_elem_of_here|done].
Qed.

Lemma shardStep_order s s' : inOrder s → shardStep cfg launch stored true s s' → inOrder s'.
Proof.
  intros Hs Hstep. destruct Hstep as [it s' He _ _ _|s' Ho _ _ Ha|last _ _ _ _|s' Hd|s' Ho Hd|s' Hh|s' Hsend|k ev g r s' Hk _ _ Hat|s' Hup _]; [| | | | | | | |done].
  - unfold enqueue in He. case_decide; [|done]. injection He as <-. destruct Hs as [H1 H2 H3]. split; [|done|done].
    cbn [shShipped]. rewrite <- H1. unfold content. cbn. by rewrite <- !app_assoc.
  - unfold accumulate in Ha. destruct (shCh s) as [|it ch] eqn:Ech; [done|]. cbv zeta in Ha.
    match type of Ha with context [flushPending ?x] => set (s1 := x) in Ha end.
    assert (inOrder s1) as H1.
    { eapply inOrder_moved; try done. unfold content, s1. cbn. rewrite Ech. by rewrite <- (app_assoc (shPending s)). }
    injection Ha as <-. case_decide; [|done]. destruct (flush_same s1) as (? & ? & ? & ? & ?).
    eapply inOrder_moved; try done. by rewrite flush_content.
  - by eapply inOrder_moved.
  - apply drain_same in Hd as (Hc & ? & ? & ? & ? & ?). by eapply inOrder_moved.
  - apply finish_same in Hd as (Hc & ? & ? & ? & ? & ?); [|done]. by eapply inOrder_moved.
  - unfold handOver in Hh. destruct (shOut s) as [batch|] eqn:Eo; [|done]. case_decide; [|done]. injection Hh as <-.
    eapply inOrder_moved; try done. unfold content. cbn. rewrite Eo, concat_app. cbn. by rewrite app_nil_r, <- (app_assoc (concat _)).
  - by eapply send_order.
  - unfold raceAt in Hat. rewrite Hk in Hat. injection Hat as <-. destruct Hs as [H1 H2 H3]. split; [done|done|]. cbn [shWindow].
    intros j Hj. apply H3. unfold ended in *. cbn [shRaces] in Hj. destruct (decide (j = k)) as [->|Hne]; [by rewrite Hk|].
    by rewrite list_lookup_insert_ne in Hj.
Qed.

Lemma shardReach_order s : shardReach cfg launch stored true s → inOrder s.
Proof.
  induction 1 as [|s s' _ IH Hstep]; [|by eapply shardStep_order]. split; [done|simpl; lia|]. intros k. by unfold ended.
Qed.
End shardLemmas.

(** *** Latencies *)

(** The samples that the ring holds. *)
Definition windowOf (l : latencies) : list Z := take (latN l) (latRing l).

Lemma recentMax_max l : Forall (λ d, d ≤ recentMax l) (windowOf l) ∧ (recentMax l = 0 ∨ recentMax l ∈ windowOf l).
Proof.
  unfold recentMax, windowOf. generalize (take (latN l) (latRing l)) as ds. intros ds.
  assert (∀ m, m ≤ foldl (λ m d, if decide (m < d) then d else m) m ds
    ∧ Forall (λ d, d ≤ foldl (λ m d, if decide (m < d) then d else m) m ds) ds
    ∧ (foldl (λ m d, if decide (m < d) then d else m) m ds = m ∨ foldl (λ m d, if decide (m < d) then d else m) m ds ∈ ds)) as Hm.
  { induction ds as [|d ds IH]; intros m; cbn [foldl]; [split; [lia|split; [done|by left]]|].
    destruct (IH (if decide (m < d) then d else m)) as (I1 & I2 & I3). split; [case_decide; lia|]. split.
    - apply Forall_cons. split; [case_decide; lia|done].
    - destruct I3 as [->|I3]; [|right; by right]. case_decide; [right; apply list_elem_of_here|by left]. }
  destruct (Hm 0) as (_ & H1 & H2). done.
Qed.

(** The ring after samples. *)
Definition sampled (ds : list Z) : latencies := foldl (λ l d, recordAppend d l) newLatencies ds.

Lemma sampled_ok ds :
  length (latRing (sampled ds)) = ringSize ∧ latN (sampled ds) = Nat.min (length ds) ringSize
  ∧ latI (sampled ds) = (length ds mod ringSize)%nat
  ∧ ∀ i, (i < length ds)%nat → (length ds <= i + ringSize)%nat → latRing (sampled ds) !! (i mod ringSize)%nat = ds !! i.
Proof.
  induction ds as [|d ds (I1 & I2 & I3 & I4)] using rev_ind; [split; [done|split; [done|split; [done|intros; simpl in *; lia]]]|].
  unfold sampled. rewrite foldl_app. cbn [foldl]. fold (sampled ds). unfold recordAppend. cbn [latRing latN latI].
  assert (ringSize ≠ 0%nat) as Hr by done. pose proof (Nat.mod_upper_bound (length ds) ringSize Hr) as Hb. rewrite length_app. cbn [length].
  split; [by rewrite length_insert|]. split; [case_decide; lia|]. split; [by rewrite I3, Nat.Div0.add_mod_idemp_l|].
  intros i Hi Hn. rewrite I3. destruct (decide (i = length ds)) as [->|Hne].
  - rewrite list_lookup_insert_eq by lia. by rewrite list_lookup_middle.
  - rewrite lookup_app_l by lia. rewrite list_lookup_insert_ne; [apply I4; lia|]. intros E.
    assert (length ds = i ∨ (i + ringSize <= length ds)%nat) as [?|?]; [|lia|lia].
    pose proof (Nat.div_mod_eq (length ds) ringSize) as D1. pose proof (Nat.div_mod_eq i ringSize) as D2.
    destruct (decide (length ds / ringSize = i / ringSize)%nat) as [Eq|Nq]; [left; rewrite D1, D2, Eq; lia|right].
    assert (i / ringSize <= length ds / ringSize)%nat by (apply Nat.Div0.div_le_mono; lia). nia.
Qed.

Lemma windowOf_recent ds d : d ∈ windowOf (sampled ds) ↔ d ∈ drop (length ds - ringSize) ds.
Proof.
  destruct (sampled_ok ds) as (H1 & H2 & _ & H4). assert (ringSize ≠ 0%nat) as Hr by done.
  unfold windowOf. rewrite H2, !list_elem_of_lookup. split; intros [j Hj].
  - apply lookup_take_Some in Hj as [Hj Hlt].
    set (i := (length ds - ringSize + (j + ringSize - (length ds - ringSize) mod ringSize) mod ringSize)%nat).
    assert ((i mod ringSize = j)%nat ∧ (length ds - ringSize <= i)%nat ∧ (i < length ds)%nat) as (Ei & L1 & L2).
    { unfold ringSize in *. subst i. destruct (decide (length ds < 32)%nat).
      - replace (length ds - 32)%nat with 0%nat by lia. change (0 mod 32)%nat with 0%nat. rewrite Nat.sub_0_r.
        replace ((j + 32) mod 32)%nat with j; [rewrite Nat.mod_small by lia; lia|].
        rewrite <- (Nat.mod_small j 32) at 1 by lia. by rewrite <- (Nat.Div0.mod_add j 1 32), Nat.mul_1_l.
      - remember (length ds - 32)%nat as b eqn:Hb. pose proof (Nat.mod_upper_bound b 32 ltac:(lia)).
        pose proof (Nat.mod_upper_bound (j + 32 - b mod 32) 32 ltac:(lia)). split; [|lia].
        rewrite Nat.Div0.add_mod_idemp_r. pose proof (Nat.div_mod_eq b 32). rewrite <- (Nat.mod_small j 32) at 2 by lia.
        replace (b + (j + 32 - b mod 32))%nat with (j + (b / 32 + 1) * 32)%nat by lia. by rewrite Nat.Div0.mod_add. }
    exists (i - (length ds - ringSize))%nat. rewrite lookup_drop. replace (length ds - ringSize + (i - (length ds - ringSize)))%nat with i by lia.
    rewrite <- (H4 i) by (unfold ringSize in *; lia). by rewrite Ei.
  - rewrite lookup_drop in Hj. pose proof (lookup_lt_Some _ _ _ Hj) as Hlt. rewrite <- H4 in Hj by (unfold ringSize in *; lia).
    eexists. apply lookup_take_Some. split; [exact Hj|]. pose proof (Nat.mod_upper_bound (length ds - ringSize + j) ringSize Hr).
    apply Nat.min_glb_lt; [|done]. destruct (decide (length ds < ringSize)%nat); [|lia].
    rewrite Nat.mod_small by lia. lia.
Qed.

(** *** Answers of a race *)

Definition results (evs : list raceEvent) : list nat :=
  omap (λ ev, match ev with EvResult i _ => Some i | _ => None end) evs.

(** The copies that were sent, among the first [n] followers. *)
Definition copies (launch : nat → bool) (n : nat) : list nat := filter (λ i, launch i = true) (seq 0 n).

Lemma copies_S launch n : copies launch (S n) = copies launch n ++ (if launch n then [n] else []).
Proof.
  unfold copies. rewrite seq_S, filter_app. simpl. f_equal. destruct (launch n) eqn:E; [by rewrite filter_cons_True|].
  by rewrite filter_cons_False by (by rewrite E).
Qed.

Lemma startLoop_copies followers launch fuel hedged r sent :
  rcFlight r ++ sent ≡ₚ copies launch (rcNext r) →
  let r' := (startLoop followers launch fuel hedged r).1 in rcFlight r' ++ sent ≡ₚ copies launch (rcNext r').
Proof.
  revert r. induction fuel as [|fuel IH]; intros r Hr; cbn [startLoop]; [done|]. case_decide as Hn; [|done]. cbv zeta.
  cbn [rcNext rcPending rcTimer rcHedged rcFlight rcFired rcWon].
  pose proof (copies_S launch (rcNext r)) as Hc. destruct (launch (rcNext r)) eqn:Hl.
  - cbn [fst rcFlight rcNext]. rewrite Hc, <- Hr, <- !app_assoc. by rewrite (Permutation_app_comm sent).
  - apply IH. cbn [rcFlight rcNext]. by rewrite Hc, app_nil_r.
Qed.

Lemma results_app evs evs' : results (evs ++ evs') = results evs ++ results evs'.
Proof. apply omap_app. Qed.

Lemma raceReach_copies followers launch hedge evs x :
  raceReach followers launch hedge evs x → x.2 = None → rcFlight x.1 ++ results evs ≡ₚ copies launch (rcNext x.1).
Proof.
  induction 1 as [|evs r ev Hr IH Hen].
  - intros _. unfold raceStart, beginRace. cbn [fst]. pose proof (startLoop_copies followers launch (length followers) false
      (MkRace 0 0 false ∅ [] 0 0) [] ltac:(done)) as Hs. unfold startNext in *.
    destruct (startLoop followers launch (length followers) false (MkRace 0 0 false ∅ [] 0 0)) as [r0 b]. done.
  - specialize (IH eq_refl). cbn [fst] in *. rewrite results_app. destruct ev as [i ok| |]; cbn [onEvent].
    + destruct ok; cbv zeta; [done|]. cbn [andb rcNext rcPending]. intros Hrun.
      destruct (raceReach_ok _ _ _ _ _ Hr) as [Hok _]. pose proof (ro_nodup _ _ _ _ Hok) as Hnd.
      assert (filter (λ j, j ≠ i) (rcFlight r) ++ results evs ++ [i] ≡ₚ copies launch (rcNext r)) as Hp.
      { rewrite <- IH. apply elem_of_Permutation in Hen as [l Hl]. rewrite Hl in Hnd |- *. apply NoDup_cons in Hnd as [Hi _].
        rewrite filter_cons_False by (by intros []). rewrite (list_filter_all (λ j, j ≠ i) l) by (apply Forall_forall; by intros j Hj ->).
        rewrite (Permutation_app_comm (results evs)). symmetry. apply (Permutation_middle l (results evs) i). }
      revert Hrun. case_decide; [intros _; by apply startLoop_copies|]. by case_decide.
    + rewrite app_nil_r. intros _. case_decide; [by apply startLoop_copies|done].
    + done.
Qed.

(** The batch that was acknowledged for a commit. *)
Lemma acked_stored cfg launch stored up s it addr :
  shardReach cfg launch stored up s → Forall okItem (shShipped s) → it ∈ shShipped s →
  shDone s !! siDone it = Some (Acked addr) →
  ∃ items, it ∈ items ∧ items ⊆ shShipped s ∧ addr ∈ siFollowers it ∧ stored addr (siScope it) (siEpoch it) (siSeg <$> items).
Proof.
  intros Hr Hok Hit Hd. destruct (shardReach_ok _ _ _ _ _ Hr) as [Hc Hids Hraces Hdone].
  destruct (Hdone _ _ Hd) as (k & g & r & it' & Hk & Hin & Hid).
  destruct (Hraces _ _ Hk) as [(items & key & Hg & Hsent) (evs & Hrace & Hst)]. cbn [fst snd] in *.
  assert (∀ x, x ∈ items → x ∈ shShipped s) as Hsub.
  { intros x Hx. rewrite <- Hc. unfold content. apply elem_of_app. left. by apply Hsent. }
  destruct (okGroup_item items key g it' Hg) as (Hin' & _ & Es & Ee & Ef); [|done|].
  { apply Forall_forall. intros x Hx. rewrite Forall_forall in Hok. by apply Hok, Hsub. }
  assert (it' = it) as ->.
  { apply list_elem_of_lookup in Hit as [i Hi]. apply Hsub, list_elem_of_lookup in Hin' as [j Hj].
    assert (i = j) as ->; [|congruence].
    eapply (NoDup_lookup (siDone <$> shShipped s) i j (siDone it)); [done| |]; rewrite list_lookup_fmap; [by rewrite Hi|rewrite Hj; simpl; by f_equal]. }
  destruct (raceReach_ok _ _ _ _ _ Hrace) as (i & Hi & _ & Hev). exists (grItems g). split; [done|]. split; [|split].
  - intros x. rewrite (og_items _ _ _ Hg). intros [_ Hx]%list_elem_of_filter. by apply Hsub.
  - rewrite <- Ef. by eapply list_elem_of_lookup_2.
  - rewrite <- Es, <- Ee, <- (og_segs _ _ _ Hg). rewrite <- (nth_lookup_Some _ _ EmptyString _ Hi). by apply Hst.
Qed.

(** A transport that accepts more. *)
Lemma shardReach_mono cfg launch (stored stored' : string → Scope → Z → list bytes → Prop) up s :
  (∀ addr sc epoch segs, stored addr sc epoch segs → stored' addr sc epoch segs) →
  shardReach cfg launch stored up s → shardReach cfg launch stored' up s.
Proof.
  intros Hst. induction 1 as [|s s' _ IH Hs]; [constructor|]. econstructor; [exact IH|].
  destruct Hs; [by eapply step_ship|by eapply step_take|by eapply step_start|by eapply step_drain|by eapply step_flush
    |by eapply step_hand|by eapply step_send|eapply step_race; eauto|by eapply step_inline].
Qed.

Lemma shipNow_stored cfg stored followers launched sc epoch seg addr :
  shipNow cfg stored followers launched sc epoch seg (Acked addr) → addr ∈ followers ∧ stored addr sc epoch [seg].
Proof.
  intros (_ & evs & r & Hr & Hst). destruct (raceReach_ok _ _ _ _ _ Hr) as (i & Hi & _ & Hev).
  split; [by eapply list_elem_of_lookup_2|]. rewrite <- (nth_lookup_Some _ _ EmptyString _ Hi). by apply Hst.
Qed.

(** ** Properties *)

(** C22: the outcome of a race is what its followers said. An append succeeds with an address only
    when the follower at that address acknowledged its copy; it fails only when every
    follower failed, because its copy could not be sent or was answered with an error;
    otherwise the context had ended. *)
Theorem race_outcome followers launch hedgeEnabled evs r o :
  raceReach followers launch hedgeEnabled evs (r, Some o) → outcomeMeans followers launch evs o.
Proof. apply raceReach_ok. Qed.

(** A race ends with its answers. When copies can be sent, [wait] never waits without a copy
    in flight, and each follower is asked at most once: an append returns at the latest when
    as many answers have come as there are followers, whatever the timer does. *)
Theorem race_answers_end followers launch hedgeEnabled evs r :
  (∀ i, launch i = true) → raceReach followers launch hedgeEnabled evs (r, None) →
  rcFlight r ≠ [] ∧ NoDup (rcFlight r ++ results evs) ∧ (length (results evs) < length followers)%nat.
Proof.
  intros Hl Hr. pose proof (raceReach_copies _ _ _ _ _ Hr eq_refl) as Hc. cbn [fst] in Hc.
  destruct (raceReach_ok _ _ _ _ _ Hr) as [Hok Hidle].
  assert (rcFlight r ≠ []) as Hne by (intros (_ & i & _ & Hi)%Hidle; by rewrite Hl in Hi).
  split; [done|]. split; [rewrite Hc; apply NoDup_filter, NoDup_seq|].
  apply Permutation_length in Hc. rewrite length_app in Hc. pose proof (ro_next _ _ _ _ Hok) as Hn.
  assert (length (copies launch (rcNext r)) <= rcNext r)%nat as Hcl.
  { unfold copies. etransitivity; [apply length_filter|]. by rewrite length_seq. }
  destruct (rcFlight r); [done|]. simpl in Hc. lia.
Qed.

(** C20: a commit that was shipped is stored. When the channel of a commit gets an address, in any
    run of a shard (its context may end), a batch with the commit's segment was stored,
    under the commit's cell and epoch, by the follower at that address, which is one of the
    commit's followers. Batches never mix cells, epochs or followers. *)
Theorem shipped_stored cfg launch stored up s it addr :
  shardReach cfg launch stored up s → Forall okItem (shShipped s) → it ∈ shShipped s →
  shDone s !! siDone it = Some (Acked addr) →
  ∃ segs, siSeg it ∈ segs ∧ addr ∈ siFollowers it ∧ stored addr (siScope it) (siEpoch it) segs.
Proof.
  intros Hr Hok Hit Hd. destruct (acked_stored _ _ _ _ _ _ _ Hr Hok Hit Hd) as (items & Hin & _ & Ha & Hst).
  exists (siSeg <$> items). split; [by apply list_elem_of_fmap_2|done].
Qed.

(** C21: a shard keeps the order. Until its context ends, the items that were dispatched, those on their
    way and those still in the queue are, in this order, exactly the items that were shipped: none
    is lost, doubled or overtaken; at most [pipeline] batches are in flight, and
    every race that has not ended belongs to one of them. *)
Theorem shard_order cfg launch stored s :
  shardReach cfg launch stored true s →
  content s = shShipped s ∧ (length (shWindow s) <= cfPipeline cfg)%nat
  ∧ ∀ k, ended s k = false → ∃ b, b ∈ shWindow s ∧ k ∈ b.
Proof. intros Hr. by destruct (shardReach_order _ _ _ _ Hr). Qed.

(** *** Runs *)

#[global] Instance enabled_dec r ev : Decision (enabled r ev).
Proof. destruct ev; simpl; apply _. Defined.

Fixpoint raceRun (followers : list string) (launch : nat → bool) (evs : list raceEvent) (x : followersRace * option raceOutcome)
    : option (followersRace * option raceOutcome) :=
  match evs, x with
  | [], _ => Some x
  | ev :: evs, (r, None) => if decide (enabled r ev) then raceRun followers launch evs (onEvent followers launch r ev) else None
  | _, _ => None
  end.

Lemma raceRun_reach followers launch hedge evs0 evs x y :
  raceReach followers launch hedge evs0 x → raceRun followers launch evs x = Some y → raceReach followers launch hedge (evs0 ++ evs) y.
Proof.
  revert evs0 x. induction evs as [|ev evs IH]; intros evs0 x Hx; cbn [raceRun]; [rewrite app_nil_r; by intros [= <-]|].
  destruct x as [r [o|]]; [done|]. case_decide as He; [|done]. intros E. rewrite cons_middle, app_assoc. eapply IH; [|exact E]. by constructor.
Qed.

Lemma raceRun_start followers launch hedge evs y :
  raceRun followers launch evs (raceStart followers launch hedge) = Some y → raceReach followers launch hedge evs y.
Proof. apply (raceRun_reach _ _ _ []). constructor. Qed.

(** The hedge copy goes to [b]; [a] fails, so that [c] gets a copy; [b] acknowledges. *)
Lemma race_outcome_witness :
  outcomeMeans ["a"; "b"; "c"] (λ _, true) [EvTimer; EvResult 0 false; EvResult 1 true] (Acked "b").
Proof.
  eapply (race_outcome ["a"; "b"; "c"] (λ _, true) true). apply raceRun_start. vm_compute. reflexivity.
Defined.

Lemma race_answers_end_witness :
  [1; 2]%nat ≠ [] ∧ NoDup [1; 2; 0]%nat ∧ (1 < 3)%nat.
Proof.
  apply (race_answers_end ["a"; "b"; "c"] (λ _, true) true [EvTimer; EvResult 0 false]
    (MkRace 3 2 true {[1%nat]} [1; 2]%nat 1 0)).
  - done.
  - apply raceRun_start. vm_compute. reflexivity.
Defined.

(** The first copy fails after it was sent, and the next follower cannot be sent one: nothing is in
    flight, the timer is used up, and only the end of the context ends the race. *)
Example race_hangs :
  ∃ r, raceReach ["a"; "b"] (λ i, bool_decide (i = 0%nat)) true [EvResult 0 false; EvTimer] (r, None)
    ∧ ∀ ev, enabled r ev → ev = EvDone.
Proof.
  eexists. split; [apply raceRun_start; vm_compute; reflexivity|]. intros [i ok| |]; [|done|done]. by intros ?%elem_of_nil.
Qed.

Inductive shardMove : Type :=
| MShip (it : shipItem)
| MTake
| MTick
| MDrain
| MFlush
| MHand
| MSend
| MRace (k : nat) (ev : raceEvent).

Section moves.
Context (cfg : config) (launch : nat → nat → bool) (stored : string → Scope → Z → list bytes → Prop)
  {stored_dec : ∀ addr sc epoch segs, Decision (stored addr sc epoch segs)}.

Definition shardMoveOk (s : shard) (mv : shardMove) : bool :=
  match mv with
  | MShip it => bool_decide ((siDone it ∉ siDone <$> shShipped s) ∧ siFkey it = followersKey (siFollowers it) ∧ siFollowers it ≠ [])
  | MTake | MTick => bool_decide (shOut s = None ∧ shPhase s = Select ∧ shOver s = false)
  | MFlush => bool_decide (shOut s = None)
  | MDrain | MHand | MSend => true
  | MRace k ev =>
      match shRaces s !! k with
      | Some (g, (r, None)) =>
          bool_decide (enabled r ev)
          && (match ev with
              | EvResult i true => bool_decide (stored (nth i (grFollowers g) EmptyString) (grScope g) (grEpoch g) (grSegs g))
              | _ => true
              end)
      | _ => false
      end
  end.

Definition shardDo (mv : shardMove) (s : shard) : option shard :=
  if shardMoveOk s mv then
    match mv with
    | MShip it => enqueue cfg it s
    | MTake => accumulate cfg s
    | MTick => Some (startDrain false s)
    | MDrain => drain s
    | MFlush => finishDrain s
    | MHand => handOver s
    | MSend => send cfg launch s
    | MRace k ev => raceAt launch k ev s
    end
  else None.

Lemma shardDo_step mv s s' : shardDo mv s = Some s' → shardStep cfg launch stored true s s'.
Proof.
  unfold shardDo. destruct (shardMoveOk s mv) eqn:Hm; [|done]. destruct mv as [it| | | | | | |k ev]; cbn [shardMoveOk] in Hm.
  - apply bool_decide_eq_true in Hm as (? & ? & ?). intros E. by eapply step_ship.
  - apply bool_decide_eq_true in Hm as (? & ? & ?). intros E. by eapply step_take.
  - apply bool_decide_eq_true in Hm as (? & ? & ?). intros [= <-]. by apply step_start.
  - apply step_drain.
  - apply bool_decide_eq_true in Hm. by apply step_flush.
  - apply step_hand.
  - apply step_send.
  - destruct (shRaces s !! k) as [[g [r [o|]]]|] eqn:Hk; try done. apply andb_true_iff in Hm as [He%bool_decide_eq_true Hst].
    intros E. eapply step_race; [exact Hk|exact He| |exact E]. intros i ->. by apply bool_decide_eq_true in Hst.
Qed.

Definition shardRun (mvs : list shardMove) (s : shard) : option shard := foldl (λ o mv, o ≫= shardDo mv) (Some s) mvs.

Lemma shardRun_reach mvs s : shardRun mvs newShard = Some s → shardReach cfg launch stored true s.
Proof.
  assert (∀ s0, shardReach cfg launch stored true s0 → shardRun mvs s0 = Some s → shardReach cfg launch stored true s) as Hrun; [|apply Hrun; constructor].
  unfold shardRun. induction mvs as [|mv mvs IH]; intros s0 H0; cbn [foldl]; [by intros [= <-]|]. cbn [mbind option_bind].
  destruct (shardDo mv s0) as [s1|] eqn:E; [apply IH; econstructor; [exact H0|by eapply shardDo_step]|].
  intros Hx. exfalso. clear -Hx. by induction mvs.
Qed.
End moves.

Section example.

Definition exampleShip (id : nat) (cell : string) (seg : bytes) (followers : list string) : shipItem :=
  MkItem (MkScope "app" "room" cell) 7 followers (followersKey followers) seg id.

(** Two commits of a cell (one names its followers in another order) and one of another cell, in one
    batch; then a commit that is still in the queue. *)
Definition exampleItems : list shipItem :=
  [exampleShip 0 "x" [x01] ["a"; "b"]; exampleShip 1 "y" [x02] ["b"]; exampleShip 2 "x" [x03] ["b"; "a"]; exampleShip 3 "x" [x04] ["a"]].

Definition exampleConfig : config := NewShipBatcher 0 0 0 1 5.

Definition exampleStored (addr : string) (sc : Scope) (epoch : Z) (segs : list bytes) : Prop :=
  addr = "b" ∧ sc = MkScope "app" "room" "x" ∧ epoch = 7 ∧ segs = [[x01]; [x03]].

#[local] Instance exampleStored_dec addr sc epoch segs : Decision (exampleStored addr sc epoch segs) := _.

Definition exampleShard : shard :=
  default newShard (shardRun exampleConfig (λ _ _, true) exampleStored
    ((MShip <$> take 3 exampleItems) ++ [MTick; MDrain; MDrain; MDrain; MFlush; MHand; MSend; MShip (exampleShip 3 "x" [x04] ["a"]); MRace 0 (EvResult 0 false); MRace 0 (EvResult 1 true)])
    newShard).

Lemma exampleShard_reach : shardReach exampleConfig (λ _ _, true) exampleStored true exampleShard.
Proof.
  apply (shardRun_reach _ _ _ ((MShip <$> take 3 exampleItems)
    ++ [MTick; MDrain; MDrain; MDrain; MFlush; MHand; MSend; MShip (exampleShip 3 "x" [x04] ["a"]); MRace 0 (EvResult 0 false); MRace 0 (EvResult 1 true)])).
  vm_compute. reflexivity.
Qed.

Lemma shipped_stored_witness :
  ∃ segs, [x03] ∈ segs ∧ "b" ∈ ["b"; "a"] ∧ exampleStored "b" (MkScope "app" "room" "x") 7 segs.
Proof.
  apply (shipped_stored exampleConfig (λ _ _, true) exampleStored true exampleShard (exampleShip 2 "x" [x03] ["b"; "a"]) "b").
  - apply exampleShard_reach.
  - vm_compute shShipped. repeat (apply Forall_cons_2; [split; [done|done|done|done|by repeat constructor|by repeat constructor]|]). done.
  - vm_compute shShipped. set_solver.
  - vm_compute. reflexivity.
Defined.

Lemma shard_order_witness :
  content exampleShard = exampleItems ∧ (length [[0; 1]%nat] <= 1)%nat ∧ ∃ b, b ∈ [[0; 1]%nat] ∧ 1%nat ∈ b.
Proof.
  destruct (shard_order exampleConfig (λ _ _, true) exampleStored exampleShard exampleShard_reach) as (H1 & H2 & H3).
  split; [exact H1|]. split; [exact H2|]. apply H3. vm_compute. reflexivity.
Defined.
End example.
