(* ===== verification/StreamPool.v ===== *)
(** * The stream transport ([StreamTransport] of internal/peer/stream.go)

    An owner keeps a pool of streams: a few lanes per follower, chosen by the hash of the
    cell ([streamKey]). A call finds the stream of its lane, waits for a dial that another
    call has begun, or dials itself ([stream]); the handshake is an HTTP request that the
    follower's server answers with 101 ([dialRawStream], [Peer.handlePeerStream]), and what
    follows on the connection is a lane of Stream.v. A call of an owner with a session that
    gets no stream fails; without a session it falls back to HTTP.

    The calls are numbered, and a call has the same number on its lane. A base URL has no
    path of its own. The identities of the ensemble ([targets]) are bound before the first
    call. The network and the servers are an argument: [answers remote addr r resp] says that a
    request to an address was answered by the server of [remote].

    The theorem: in every interleaving of calls, dials, failures and the shutdown, a call
    that succeeds was stored, as one of a group, by the server that answered the handshake
    of a connection to the address of the call. *)

From S2P Require Import Prelude Ltx Cell Bucket Decimal Frames Disk Spool SpoolDurable SpoolHistory Stream.
From S2P Require Import Fleet Objects Lease NodeLog Peer Ship.

(** ** The handshake ([dialRawStream]) *)

Definition upgradeRequest (session : string) : httpRequest :=
  MkRequest "POST" "/v1/peer/stream" ∅
    ({[ "Connection" := "Upgrade"; "Upgrade" := StreamProtocol ]} ∪ sessionHeaders session) [].
Definition streamRequest (session : string) (id : PeerIdentity) : httpRequest := setIdentity id (upgradeRequest session).

(** The response makes the connection a stream. *)
Definition upgraded (id : PeerIdentity) (resp : httpResponse) : bool :=
  bool_decide (rpCode resp = 101) && isStreamProtocol (get (rpHeader resp) "Upgrade") && verifyIdentity id resp.

(** ** The pool *)

Record poolConfig := MkPoolConfig {
  pcSession : string;
  pcLanes : Z;
  pcPipeline : nat;
}.

(** The default of a lane without pipeline is the same. *)
Definition NewSessionStreamTransport (session : string) (lanes pipeline : Z) : poolConfig :=
  MkPoolConfig session (if decide (lanes ≤ 0) then 4 else lanes) (Z.to_nat (if decide (pipeline ≤ 0) then 4 else pipeline)).

(** The key of a lane. *)
Definition streamKey (lanes : Z) (addr : string) (sc : Scope) : string :=
  addr +:+ String hash (itoa (shardIndex (scopeString sc) lanes)).

(** Where a call of [AppendBatch] or [AppendBatchAsync] is: in [stream], on a connection, or
    returned (for [AppendBatchAsync], the result was sent). *)
Inductive callState : Set :=
| CAsk
| COn (i : nat)
| CEnd (ok : bool).

Record poolCall := MkPoolCall {
  caAddr : string;
  caScope : Scope;
  caEpoch : Z;
  caSegs : list bytes;
  caState : callState;
}.

Definition frameOf (ca : poolCall) : BatchFrame := MkBatchFrame (caScope ca) (caEpoch ca) (caSegs ca).
Definition setState (st : callState) (ca : poolCall) : poolCall :=
  MkPoolCall (caAddr ca) (caScope ca) (caEpoch ca) (caSegs ca) st.

(** [tpStreams] and [tpConns]: the streams of the lanes, as numbers of the connections that were
    made; [tpDialing]: the calls that dial. *)
Record connection (R : Type) := MkConnection {
  cnAddr : string;
  cnRemote : R;
  cnLane : lane;
}.
Arguments MkConnection {R} _ _ _.
Arguments cnAddr {R} _.
Arguments cnRemote {R} _.
Arguments cnLane {R} _.

Record pool (R : Type) := MkPool {
  tpStreams : gmap string nat;
  tpDialing : gmap string nat;
  tpClosed : bool;
  tpConns : list (connection R);
  tpCalls : gmap nat poolCall;
}.
Arguments MkPool {R} _ _ _ _ _.
Arguments tpStreams {R} _.
Arguments tpDialing {R} _.
Arguments tpClosed {R} _.
Arguments tpConns {R} _.
Arguments tpCalls {R} _.

Section pool.
Context {R : Type} (cfg : poolConfig) (targets : gmap string PeerIdentity) (maxFrames maxBytes : Z)
  (answers : R → string → httpRequest → httpResponse → Prop) (fallback : string → Scope → Z → list bytes → bool).
Implicit Types (p : pool R).

Definition newPool : pool R := MkPool ∅ ∅ false [] ∅.

Definition keyOf (ca : poolCall) : string := streamKey (pcLanes cfg) (caAddr ca) (caScope ca).

Definition isFailed (i : nat) p : bool :=
  match tpConns p !! i with Some c => rsFailed (lnStream (cnLane c)) | None => true end.

(** The stream of a lane that has not failed. *)
Definition usable (key : string) p : option nat :=
  i ← tpStreams p !! key; if isFailed i p then None else Some i.

Definition withCalls (n : nat) (ca : poolCall) p : pool R :=
  MkPool (tpStreams p) (tpDialing p) (tpClosed p) (tpConns p) (<[n := ca]> (tpCalls p)).

Definition beginDial (key : string) (n : nat) p : pool R :=
  MkPool (tpStreams p) (<[key := n]> (tpDialing p)) (tpClosed p) (tpConns p) (tpCalls p).

Definition endDial (key : string) p : pool R :=
  MkPool (tpStreams p) (delete key (tpDialing p)) (tpClosed p) (tpConns p) (tpCalls p).

(** The new stream replaces the one of its lane. *)
Definition addStream (key addr : string) (remote : R) p : pool R :=
  MkPool (<[key := length (tpConns p)]> (tpStreams p)) (tpDialing p) (tpClosed p)
    (tpConns p ++ [MkConnection addr remote newLane]) (tpCalls p).

Definition setLane (i : nat) (c : connection R) (l : lane) p : pool R :=
  MkPool (tpStreams p) (tpDialing p) (tpClosed p) (<[i := MkConnection (cnAddr c) (cnRemote c) l]> (tpConns p)) (tpCalls p).

(** What a call without a stream returns. *)
Definition withoutStream (ca : poolCall) : bool :=
  if decide (pcSession cfg = EmptyString) then fallback (caAddr ca) (caScope ca) (caEpoch ca) (caSegs ca) else false.

Definition failLane (l : lane) : lane :=
  MkLane (failLocked (lnStream l)) (lnCalls l) (lnWire l) (lnAcks l) (lnSent l) (lnStored l) (lnRead l).

(** [Close] fails the streams of the lanes; the dials that it cancels fail later. *)
Definition Close p : pool R :=
  MkPool ∅ (tpDialing p) true
    (imap (λ i c, if decide (i ∈ (map_to_list (tpStreams p)).*2)
                  then MkConnection (cnAddr c) (cnRemote c) (failLane (cnLane c)) else c) (tpConns p)) (tpCalls p).

(** The identity that the follower at an address has to prove. *)
Definition idOf (addr : string) : PeerIdentity := targetIdentity None targets addr.

Inductive poolStep p : pool R → Prop :=
| pool_call n ca : tpCalls p !! n = None → caState ca = CAsk → poolStep p (withCalls n ca p)
(** [stream]: the lane has a stream; or the call begins to dial *)
| pool_cached n ca i :
    tpCalls p !! n = Some ca → caState ca = CAsk → tpClosed p = false → usable (keyOf ca) p = Some i →
    poolStep p (withCalls n (setState (COn i) ca) p)
| pool_dial n ca :
    tpCalls p !! n = Some ca → caState ca = CAsk → tpClosed p = false → usable (keyOf ca) p = None →
    tpDialing p !! keyOf ca = None → poolStep p (beginDial (keyOf ca) n p)
(** the dial succeeds, or fails or comes after the shutdown *)
| pool_dialed n ca remote resp :
    tpCalls p !! n = Some ca → caState ca = CAsk → tpDialing p !! keyOf ca = Some n → tpClosed p = false →
    answers remote (caAddr ca) (streamRequest (pcSession cfg) (idOf (caAddr ca))) resp →
    upgraded (idOf (caAddr ca)) resp = true →
    poolStep p (withCalls n (setState (COn (length (tpConns p))) ca) (addStream (keyOf ca) (caAddr ca) remote (endDial (keyOf ca) p)))
| pool_undialed n ca :
    tpCalls p !! n = Some ca → caState ca = CAsk → tpDialing p !! keyOf ca = Some n →
    poolStep p (withCalls n (setState (CEnd (withoutStream ca)) ca) (endDial (keyOf ca) p))
(** a call that does not dial gives up: its context ended, the pool is closed, or the dial that it
    waited for failed *)
| pool_refused n ca :
    tpCalls p !! n = Some ca → caState ca = CAsk → tpDialing p !! keyOf ca ≠ Some n →
    poolStep p (withCalls n (setState (CEnd (withoutStream ca)) ca) p)
(** a step of a connection; only a call that has got its stream starts there, with its own frame *)
| pool_lane i c l :
    tpConns p !! i = Some c → laneStep (pcPipeline cfg) maxFrames maxBytes (cnLane c) l →
    (∀ n f ph, lnCalls (cnLane c) !! n = None → lnCalls l !! n = Some (f, ph) →
       ∃ ca, tpCalls p !! n = Some ca ∧ caState ca = COn i ∧ f = frameOf ca) →
    poolStep p (setLane i c l p)
| pool_end n ca i c f ok :
    tpCalls p !! n = Some ca → caState ca = COn i → tpConns p !! i = Some c → lnCalls (cnLane c) !! n = Some (f, PEnd ok) →
    poolStep p (withCalls n (setState (CEnd ok) ca) p)
| pool_close : poolStep p (Close p).

Definition poolReach : pool R → Prop := rtc poolStep newPool.

(** A call of the pool that returned without an error. *)
Definition poolAccepted p (addr : string) (sc : Scope) (epoch : Z) (segs : list bytes) : Prop :=
  ∃ n, tpCalls p !! n = Some (MkPoolCall addr sc epoch segs (CEnd true)).

(** ** Calls and connections *)

Hypothesis lanes_pos : 0 < pcLanes cfg.

Lemma shardIndex_pos key n : 0 < n → 0 ≤ shardIndex key n.
Proof. intros Hn. apply Z.mod_pos_bound, Hn. Qed.

(** Lanes of different followers have different keys. *)
Lemma streamKey_addr a sc a' sc' : streamKey (pcLanes cfg) a sc = streamKey (pcLanes cfg) a' sc' → a = a'.
Proof.
  intros E. apply last_part in E as [-> _]; [done|..]; apply (itoa_free x23); first [done|by apply shardIndex_pos].
Qed.

(** The handshake of the connection. *)
Definition connected (c : connection R) : Prop :=
  laneReach (pcPipeline cfg) maxFrames maxBytes (cnLane c)
  ∧ ∃ resp, answers (cnRemote c) (cnAddr c) (streamRequest (pcSession cfg) (idOf (cnAddr c))) resp
      ∧ upgraded (idOf (cnAddr c)) resp = true.

Record poolOk p : Prop := {
  po_conn i c : tpConns p !! i = Some c → connected c;
  po_key key i : tpStreams p !! key = Some i → ∃ c sc, tpConns p !! i = Some c ∧ key = streamKey (pcLanes cfg) (cnAddr c) sc;
  po_on n ca i : tpCalls p !! n = Some ca → caState ca = COn i → ∃ c, tpConns p !! i = Some c ∧ cnAddr c = caAddr ca;
  po_frame i c n f ph : tpConns p !! i = Some c → lnCalls (cnLane c) !! n = Some (f, ph) →
    ∃ ca, tpCalls p !! n = Some ca ∧ caState ca ≠ CAsk ∧ f = frameOf ca;
  po_end n ca : tpCalls p !! n = Some ca → caState ca = CEnd true → pcSession cfg ≠ EmptyString →
    ∃ i c, tpConns p !! i = Some c ∧ cnAddr c = caAddr ca ∧ lnCalls (cnLane c) !! n = Some (frameOf ca, PEnd true);
}.

Lemma newPool_ok : poolOk newPool.
Proof. by split. Qed.

(** A call moves on, and the connections stay. *)
Lemma withCalls_ok n ca p :
  poolOk p →
  (∀ ca0, tpCalls p !! n = Some ca0 → frameOf ca0 = frameOf ca ∧ (caState ca0 ≠ CAsk → caState ca ≠ CAsk)) →
  (∀ i, caState ca = COn i → ∃ c, tpConns p !! i = Some c ∧ cnAddr c = caAddr ca) →
  (caState ca = CEnd true → pcSession cfg ≠ EmptyString →
    ∃ i c, tpConns p !! i = Some c ∧ cnAddr c = caAddr ca ∧ lnCalls (cnLane c) !! n = Some (frameOf ca, PEnd true)) →
  poolOk (withCalls n ca p).
Proof.
  intros [H1 H2 H3 H4 H5] Hold Hon Hend. split; cbn [withCalls tpConns tpStreams tpCalls]; [exact H1|exact H2|..].
  - intros n' ca' i. destruct (decide (n = n')) as [<-|Hne]; [rewrite lookup_insert_eq; intros [= <-]; apply Hon|].
    rewrite lookup_insert_ne by done. apply H3.
  - intros i c n' f ph Hc Hf. destruct (H4 i c n' f ph Hc Hf) as (ca0 & Hca & Hask & ->).
    destruct (decide (n = n')) as [<-|Hne]; [|exists ca0; by rewrite lookup_insert_ne].
    destruct (Hold ca0 Hca) as [E Ha]. exists ca. rewrite lookup_insert_eq, E. auto.
  - intros n' ca'. destruct (decide (n = n')) as [<-|Hne]; [rewrite lookup_insert_eq; intros [= <-]; apply Hend|].
    rewrite lookup_insert_ne by done. apply H5.
Qed.

(** Connections move on: what is known of them is kept. *)
Definition keepsConns (conns conns' : list (connection R)) : Prop :=
  ∀ i c, conns !! i = Some c → ∃ c', conns' !! i = Some c' ∧ cnAddr c' = cnAddr c
    ∧ ∀ n f, lnCalls (cnLane c) !! n = Some (f, PEnd true) → lnCalls (cnLane c') !! n = Some (f, PEnd true).

Lemma moved_ok p streams dialing closed conns :
  poolOk p → keepsConns (tpConns p) conns →
  (∀ i c, conns !! i = Some c → connected c
     ∧ ∀ n f ph, lnCalls (cnLane c) !! n = Some (f, ph) → ∃ ca, tpCalls p !! n = Some ca ∧ caState ca ≠ CAsk ∧ f = frameOf ca) →
  (∀ key i, streams !! key = Some i → ∃ c sc, conns !! i = Some c ∧ key = streamKey (pcLanes cfg) (cnAddr c) sc) →
  poolOk (MkPool streams dialing closed conns (tpCalls p)).
Proof.
  intros [H1 H2 H3 H4 H5] Hk Hc Hs. split; cbn [tpConns tpStreams tpCalls].
  - intros i c Hi. by apply (Hc i c).
  - exact Hs.
  - intros n ca i Hn Hst. destruct (H3 n ca i Hn Hst) as (c & Hi & E). destruct (Hk i c Hi) as (c' & Hi' & E' & _).
    exists c'. by rewrite E'.
  - intros i c n f ph Hi. by apply (Hc i c).
  - intros n ca Hn Hst Hse. destruct (H5 n ca Hn Hst Hse) as (i & c & Hi & E & Hf).
    destruct (Hk i c Hi) as (c' & Hi' & E' & Hl). exists i, c'. split; [done|]. rewrite E'. auto.
Qed.

Lemma keepsConns_refl conns : keepsConns conns conns.
Proof. intros i c Hi. by exists c. Qed.

(** A change of what is dialed. *)
Lemma dialing_ok p dialing closed : poolOk p → poolOk (MkPool (tpStreams p) dialing closed (tpConns p) (tpCalls p)).
Proof.
  intros Hp. apply moved_ok; [done|apply keepsConns_refl| |by apply po_key].
  intros i c Hi. split; [by eapply po_conn|]. intros n f ph. by eapply po_frame.
Qed.

Lemma addStream_ok p ca remote resp :
  poolOk p → answers remote (caAddr ca) (streamRequest (pcSession cfg) (idOf (caAddr ca))) resp →
  upgraded (idOf (caAddr ca)) resp = true → poolOk (addStream (keyOf ca) (caAddr ca) remote p).
Proof.
  intros Hp Ha Hu. unfold addStream. apply moved_ok; [done| | |].
  - intros i c Hi. exists c. rewrite lookup_app_l by (by eapply lookup_lt_Some). done.
  - intros i c [Hi|[_ Hi]]%lookup_app_Some.
    + split; [by eapply po_conn|]. intros n f ph. by eapply po_frame.
    + apply list_lookup_singleton_Some in Hi as [_ <-]. split; [|done]. split; [apply rtc_refl|]. by exists resp.
  - intros key i. destruct (decide (keyOf ca = key)) as [<-|Hne].
    + rewrite lookup_insert_eq. intros [= <-]. eexists _, (caScope ca). by rewrite list_lookup_middle.
    + rewrite lookup_insert_ne by done. intros Hs. destruct (po_key _ Hp key i Hs) as (c & sc & Hi & E). exists c, sc.
      by rewrite lookup_app_l by (by eapply lookup_lt_Some).
Qed.

(** Lanes that move on, each by a step or not at all. *)
Lemma lanes_ok p streams closed (conns : list (connection R)) :
  poolOk p → (∀ key i, streams !! key = Some i → tpStreams p !! key = Some i) →
  (∀ i c, tpConns p !! i = Some c → ∃ l, conns !! i = Some (MkConnection (cnAddr c) (cnRemote c) l)
     ∧ (l = cnLane c ∨ laneStep (pcPipeline cfg) maxFrames maxBytes (cnLane c) l)
     ∧ ∀ n f ph, lnCalls (cnLane c) !! n = None → lnCalls l !! n = Some (f, ph) →
        ∃ ca, tpCalls p !! n = Some ca ∧ caState ca ≠ CAsk ∧ f = frameOf ca) →
  length conns = length (tpConns p) → poolOk (MkPool streams (tpDialing p) closed conns (tpCalls p)).
Proof.
  intros Hp Hst Hl Hlen.
  assert (∀ i c', conns !! i = Some c' → ∃ c, tpConns p !! i = Some c) as Hback.
  { intros i c' Hi. apply lookup_lt_Some in Hi. rewrite Hlen in Hi. by apply lookup_lt_is_Some_2. }
  apply moved_ok; [done| | |].
  - intros i c Hi. destruct (Hl i c Hi) as (l & Hi' & Hs & _). eexists. split; [exact Hi'|]. split; [done|]. intros n f Hn. cbn [cnLane].
    destruct Hs as [->|Hs]; [done|]. destruct (laneStep_calls _ _ _ _ _ _ _ _ Hs Hn) as (ph & -> & Hph). by rewrite (Hph true).
  - intros i c' Hi'. destruct (Hback i c' Hi') as [c Hi]. destruct (Hl i c Hi) as (l & E & Hs & Hnew). rewrite Hi' in E. injection E as ->.
    destruct (po_conn _ Hp i c Hi) as [Hr Hresp]. split.
    + split; [|done]. cbn [cnLane]. destruct Hs as [->|Hs]; [done|]. eapply rtc_r; [exact Hr|exact Hs].
    + cbn [cnLane]. intros n f ph Hf. destruct (lnCalls (cnLane c) !! n) as [[f0 ph0]|] eqn:Hn; [|by eapply Hnew].
      destruct (po_frame _ Hp i c n f0 ph0 Hi Hn) as (ca & Hca & Hask & ->). exists ca. split; [done|]. split; [done|].
      destruct Hs as [->|Hs]; [congruence|]. destruct (laneStep_calls _ _ _ _ _ _ _ _ Hs Hn) as (ph' & E & _). congruence.
  - intros key i Hs. destruct (po_key _ Hp key i (Hst key i Hs)) as (c & sc & Hi & E).
    destruct (Hl i c Hi) as (l & Hi' & _). eexists _, sc. split; [exact Hi'|done].
Qed.

Lemma Close_ok p : poolOk p → poolOk (Close p).
Proof.
  intros Hp. unfold Close. apply lanes_ok; [done|by intros key i| |apply length_imap].
  intros i c Hi. rewrite list_lookup_imap, Hi. cbn [fmap option_fmap option_map].
  case_decide.
  - exists (failLane (cnLane c)). split; [done|]. split; [right; apply step_fail|]. intros n f ph. cbn [failLane lnCalls]. congruence.
  - exists (cnLane c). split; [by destruct c|]. split; [by left|]. congruence.
Qed.

Lemma poolStep_ok p p' : poolStep p p' → poolOk p → poolOk p'.
Proof.
  intros Hs Hp. destruct Hs as [n ca Hn Ha|n ca i Hn Ha Hc Hu|n ca Hn Ha Hc Hu Hd|n ca remote resp Hn Ha Hd Hc Hans Hup
    |n ca Hn Ha Hd|n ca Hn Ha Hd|i c l Hi Hl Hnew|n ca i c f ok Hn Ha Hi Hf|].
  - apply withCalls_ok; [done|congruence|congruence|congruence].
  - apply withCalls_ok; [done|by intros ? [= <-]%(eq_trans (eq_sym Hn))| |done]. intros j [= <-].
    unfold usable in Hu. destruct (tpStreams p !! keyOf ca) as [j|] eqn:Hk; [|done]. simpl in Hu.
    destruct (isFailed j p); [done|]. injection Hu as ->. destruct (po_key _ Hp _ _ Hk) as (c & sc & Hi & E).
    exists c. split; [done|]. symmetry. by eapply streamKey_addr.
  - by apply dialing_ok.
  - apply withCalls_ok.
    + eapply addStream_ok; [by apply dialing_ok|exact Hans|exact Hup].
    + cbn [addStream endDial tpCalls]. by intros ? [= <-]%(eq_trans (eq_sym Hn)).
    + intros j [= <-]. cbn [addStream endDial tpConns]. eexists. by rewrite list_lookup_middle.
    + done.
  - apply withCalls_ok; [by apply dialing_ok|cbn [endDial tpCalls]; by intros ? [= <-]%(eq_trans (eq_sym Hn))|done|].
    cbn [setState caState]. unfold withoutStream. by case_decide.
  - apply withCalls_ok; [done|by intros ? [= <-]%(eq_trans (eq_sym Hn))|done|].
    cbn [setState caState]. unfold withoutStream. by case_decide.
  - unfold setLane. apply lanes_ok; [done|done| |apply length_insert]. intros j c' Hj. destruct (decide (i = j)) as [<-|Hne].
    + assert (c' = c) as -> by congruence. exists l. rewrite list_lookup_insert_eq by (by eapply lookup_lt_Some).
      split; [done|]. split; [by right|]. intros n f ph H0 H1. destruct (Hnew n f ph H0 H1) as (ca & Hca & E & Ef). exists ca. by rewrite E.
    + exists (cnLane c'). rewrite list_lookup_insert_ne by done. split; [by destruct c'|]. split; [by left|]. congruence.
  - destruct (po_frame _ Hp i c n f _ Hi Hf) as (ca' & E & _ & ->). rewrite Hn in E. injection E as <-.
    destruct (po_on _ Hp n ca i Hn Ha) as (c' & Hi' & Eaddr). assert (c' = c) as -> by congruence.
    apply withCalls_ok; [done|by intros ? [= <-]%(eq_trans (eq_sym Hn))|done|].
    cbn [setState caState]. intros [= ->] _. by exists i, c.
  - by apply Close_ok.
Qed.

Lemma poolReach_ok p : poolReach p → poolOk p.
Proof.
  unfold poolReach. intros Hr. pose proof newPool_ok as H0. induction Hr as [|p0 p1 p Hs Hr IH]; [done|].
  apply IH. by eapply poolStep_ok.
Qed.

(** A call that succeeded was stored at the other end of a connection to its address. *)
Lemma accepted_stored p addr sc epoch segs :
  poolReach p → pcSession cfg ≠ EmptyString → poolAccepted p addr sc epoch segs →
  ∃ c g resp, c ∈ tpConns p ∧ cnAddr c = addr
    ∧ answers (cnRemote c) addr (streamRequest (pcSession cfg) (idOf addr)) resp ∧ upgraded (idOf addr) resp = true
    ∧ (g, true) ∈ lnStored (cnLane c) ∧ MkBatchFrame sc epoch segs ∈ g ∧ okFrame (MkBatchFrame sc epoch segs).
Proof.
  intros Hr Hse [n Hn]. pose proof (poolReach_ok p Hr) as Hp. destruct (po_end _ Hp n _ Hn eq_refl Hse) as (i & c & Hi & Ea & Hf).
  cbn [caAddr frameOf] in Ea, Hf. destruct (po_conn _ Hp i c Hi) as [Hl (resp & Hans & Hup)]. rewrite Ea in Hans, Hup.
  destruct (ack_stored _ _ _ _ _ _ Hl Hf) as (g & Hg & Hin). exists c, g, resp.
  split; [by eapply list_elem_of_lookup_2|]. split_and!; try done. by eapply lo_frames, Hf; eapply laneReach_ok.
Qed.
End pool.

(** ** Runs *)

Inductive poolMove (R : Type) : Type :=
| PCall (n : nat) (addr : string) (f : BatchFrame)
| PDial (n : nat)
| PDialed (n : nat) (remote : R) (resp : httpResponse)
| PCached (n : nat)
| PStart (n : nat)
| PLane (i : nat) (m : laneMove)
| PReturn (n : nat).
Arguments PCall {R} _ _ _.
Arguments PDial {R} _.
Arguments PDialed {R} _ _ _.
Arguments PCached {R} _.
Arguments PStart {R} _.
Arguments PLane {R} _ _.
Arguments PReturn {R} _.

#[global] Instance callState_eq_dec : EqDecision callState.
Proof. solve_decision. Defined.

Section moves.
Context {R : Type} (cfg : poolConfig) (targets : gmap string PeerIdentity) (mf mb : Z)
  (answers : R → string → httpRequest → httpResponse → Prop) (fallback : string → Scope → Z → list bytes → bool)
  {answers_dec : ∀ remote addr r resp, Decision (answers remote addr r resp)}.
Implicit Types (p : pool R).

Definition poolDo (m : poolMove R) p : option (pool R) :=
  match m with
  | PCall n addr f =>
      match tpCalls p !! n with
      | None => Some (withCalls n (MkPoolCall addr (bfScope f) (bfEpoch f) (bfSegments f) CAsk) p)
      | Some _ => None
      end
  | PDial n =>
      ca ← tpCalls p !! n;
      if decide (caState ca = CAsk ∧ tpClosed p = false ∧ usable (keyOf cfg ca) p = None ∧ tpDialing p !! keyOf cfg ca = None)
      then Some (beginDial (keyOf cfg ca) n p) else None
  | PDialed n remote resp =>
      ca ← tpCalls p !! n;
      if decide (caState ca = CAsk ∧ tpDialing p !! keyOf cfg ca = Some n ∧ tpClosed p = false
                 ∧ answers remote (caAddr ca) (streamRequest (pcSession cfg) (idOf targets (caAddr ca))) resp
                 ∧ upgraded (idOf targets (caAddr ca)) resp = true)
      then Some (withCalls n (setState (COn (length (tpConns p))) ca)
                   (addStream (keyOf cfg ca) (caAddr ca) remote (endDial (keyOf cfg ca) p)))
      else None
  | PCached n =>
      ca ← tpCalls p !! n;
      i ← usable (keyOf cfg ca) p;
      if decide (caState ca = CAsk ∧ tpClosed p = false) then Some (withCalls n (setState (COn i) ca) p) else None
  | PStart n =>
      ca ← tpCalls p !! n;
      match caState ca with
      | COn i =>
          c ← tpConns p !! i;
          l ← laneDo (pcPipeline cfg) mf mb (MSlot n (frameOf ca)) (cnLane c);
          Some (setLane i c l p)
      | _ => None
      end
  | PLane i m =>
      match m with
      | MSlot _ _ => None
      | _ => c ← tpConns p !! i; l ← laneDo (pcPipeline cfg) mf mb m (cnLane c); Some (setLane i c l p)
      end
  | PReturn n =>
      ca ← tpCalls p !! n;
      match caState ca with
      | COn i =>
          c ← tpConns p !! i;
          match lnCalls (cnLane c) !! n with
          | Some (_, PEnd ok) => Some (withCalls n (setState (CEnd ok) ca) p)
          | _ => None
          end
      | _ => None
      end
  end.

(** A move on a lane that starts no call. *)
Lemma laneDo_calls m l l' n :
  match m with MSlot _ _ => False | _ => True end → laneDo (pcPipeline cfg) mf mb m l = Some l' → lnCalls l !! n = None → lnCalls l' !! n = None.
Proof.
  destruct m as [c f|c|c|c|r| |c]; intros Hm E Hn; [done|cbn [laneDo] in E..].
  - destruct (lnCalls l !! c) as [[f []]|] eqn:Hc; try done. destruct (takeGate _ _); [|done]. injection E as <-.
    cbn. rewrite lookup_insert_ne; [done|congruence].
  - destruct (lnCalls l !! c) as [[f []]|] eqn:Hc; try done. destruct (register _ _); [|done]. injection E as <-.
    cbn. rewrite lookup_insert_ne; [done|congruence].
  - destruct (lnCalls l !! c) as [[f []]|] eqn:Hc; try done. injection E as <-. cbn. rewrite lookup_insert_ne; [done|congruence].
  - case_decide; [|done]. destruct (DecodeBatchFrames _ _ _) as [[]|]; [|done]. by injection E as <-.
  - destruct (lnAcks l); [done|]. by injection E as <-.
  - destruct (lnCalls l !! c) as [[f []]|] eqn:Hc; try done. destruct (rsDone _ !! c); [|done]. injection E as <-.
    cbn. rewrite lookup_insert_ne; [done|congruence].
Qed.

Lemma poolDo_step m p p' :
  (∀ n ca, m = PStart n → tpCalls p !! n = Some ca → okFrame (frameOf ca)) → poolDo m p = Some p' →
  poolStep cfg targets mf mb answers fallback p p'.
Proof.
  destruct m as [n addr f|n|n remote resp|n|n|i m|n]; cbn [poolDo]; intros Hok E.
  - destruct (tpCalls p !! n) eqn:Hn; [done|]. injection E as <-. by apply pool_call.
  - destruct (tpCalls p !! n) as [ca|] eqn:Hn; [|done]. cbn [mbind option_bind] in E. case_decide as Hx; [|done].
    destruct Hx as (? & ? & ? & ?). injection E as <-. by apply pool_dial.
  - destruct (tpCalls p !! n) as [ca|] eqn:Hn; [|done]. cbn [mbind option_bind] in E. case_decide as Hx; [|done].
    destruct Hx as (? & ? & ? & ? & ?). injection E as <-. by eapply pool_dialed.
  - destruct (tpCalls p !! n) as [ca|] eqn:Hn; [|done]. cbn [mbind option_bind] in E.
    destruct (usable _ p) as [i|] eqn:Hu; [|done]. cbn in E. case_decide as Hx; [|done]. destruct Hx. injection E as <-. by eapply pool_cached.
  - destruct (tpCalls p !! n) as [ca|] eqn:Hn; [|done]. cbn [mbind option_bind] in E. destruct (caState ca) as [|i|] eqn:Hs; try done.
    destruct (tpConns p !! i) as [c|] eqn:Hi; [|done]. cbn [mbind option_bind] in E.
    destruct (laneDo _ _ _ _ _) as [l|] eqn:El; [|done]. injection E as <-.
    apply (pool_lane _ _ _ _ _ _ _ i c l); [done|eapply laneDo_step; [|exact El]; by apply (Hok n)|].
    intros n' f ph H0 H1. cbn [laneDo] in El. destruct (lnCalls (cnLane c) !! n); [done|]. destruct (takeSlot _ _); [|done].
    injection El as <-. cbn in H1. destruct (decide (n = n')) as [<-|Hne]; [|by rewrite lookup_insert_ne, H0 in H1].
    rewrite lookup_insert_eq in H1. injection H1 as <- _. by exists ca.
  - assert (match m with MSlot _ _ => False | _ => True end) as Hm by (by destruct m).
    assert ((c ← tpConns p !! i; l ← laneDo (pcPipeline cfg) mf mb m (cnLane c); Some (setLane i c l p)) = Some p') as E' by (by destruct m).
    clear E. destruct (tpConns p !! i) as [c|] eqn:Hi; [|done]. cbn [mbind option_bind] in E'.
    destruct (laneDo _ _ _ _ _) as [l|] eqn:El; [|done]. injection E' as <-.
    apply (pool_lane _ _ _ _ _ _ _ i c l); [done|eapply laneDo_step; [|exact El]; by destruct m|].
    intros n f ph H0 H1. by rewrite (laneDo_calls m (cnLane c) l n Hm El H0) in H1.
  - destruct (tpCalls p !! n) as [ca|] eqn:Hn; [|done]. cbn [mbind option_bind] in E. destruct (caState ca) as [|i|] eqn:Hs; try done.
    destruct (tpConns p !! i) as [c|] eqn:Hi; [|done]. cbn [mbind option_bind] in E.
    destruct (lnCalls (cnLane c) !! n) as [[f []]|] eqn:Hl; try done. injection E as <-. by eapply pool_end.
Qed.

Fixpoint poolRun (ms : list (poolMove R)) p : option (pool R) :=
  match ms with
  | [] => Some p
  | m :: ms => p ← poolDo m p; poolRun ms p
  end.

(** Frames that the follower accepts, in every call. *)
Definition okCalls p : Prop := ∀ n ca, tpCalls p !! n = Some ca → okFrame (frameOf ca).

Lemma poolDo_calls m p p' :
  match m with PCall _ _ f => okFrame f | _ => True end → okCalls p → poolDo m p = Some p' → okCalls p'.
Proof.
  intros Hm Hok E n ca.
  assert (∀ k ca', okFrame (frameOf ca') → <[k := ca']> (tpCalls p) !! n = Some ca → okFrame (frameOf ca)) as Hset.
  { intros k ca' Hf. destruct (decide (k = n)) as [->|]; [rewrite lookup_insert_eq; by intros [= <-]|].
    rewrite lookup_insert_ne by done. apply Hok. }
  destruct m as [k addr f|k|k remote resp|k|k|i m|k]; cbn [poolDo] in E.
  - destruct (tpCalls p !! k); [done|]. injection E as <-. apply Hset. by destruct f.
  - destruct (tpCalls p !! k); [|done]. cbn in E. case_decide; [|done]. injection E as <-. apply Hok.
  - destruct (tpCalls p !! k) as [c|] eqn:Hk; [|done]. cbn in E. case_decide; [|done]. injection E as <-. apply Hset, (Hok k c Hk).
  - destruct (tpCalls p !! k) as [c|] eqn:Hk; [|done]. cbn in E. destruct (usable _ p); [|done]. cbn in E. case_decide; [|done].
    injection E as <-. apply Hset, (Hok k c Hk).
  - destruct (tpCalls p !! k) as [c|] eqn:Hk; [|done]. cbn in E. destruct (caState c) as [|i|]; try done.
    destruct (tpConns p !! i); [|done]. cbn in E. destruct (lnCalls _ !! k); [done|]. destruct (takeSlot _ _); [|done]. injection E as <-. apply Hok.
  - assert (tpCalls p' = tpCalls p) as ->; [|apply Hok].
    destruct m; try done; (destruct (tpConns p !! i) as [cn|]; [|done]); cbn [mbind option_bind] in E;
      (destruct (laneDo _ _ _ _ _); [|done]); by injection E as <-.
  - destruct (tpCalls p !! k) as [c|] eqn:Hk; [|done]. cbn in E. destruct (caState c) as [|i|]; try done.
    destruct (tpConns p !! i) as [x|]; [|done]. cbn in E. destruct (lnCalls _ !! k) as [[f []]|]; try done.
    injection E as <-. apply Hset, (Hok k c Hk).
Qed.

Lemma poolRun_reach ms p p' :
  Forall (λ m, match m with PCall _ _ f => okFrame f | _ => True end) ms → okCalls p → poolRun ms p = Some p' →
  rtc (poolStep cfg targets mf mb answers fallback) p p'.
Proof.
  intros Hms. revert p. induction Hms as [|m ms Hm _ IH]; intros p Hok; cbn [poolRun]; [intros [= <-]; apply rtc_refl|].
  destruct (poolDo m p) as [p1|] eqn:E; [|done]. intros Hr. eapply rtc_l; [|apply IH; [by eapply poolDo_calls|exact Hr]].
  eapply poolDo_step; [|exact E]. intros n ca _. apply Hok.
Qed.
End moves.
