(* ===== verification/Recovery.v ===== *)
(** * Recovery of lost sessions ([internal/recovery])

    Before a new owner restores a cell, the writes that only the followers of a lost
    session hold are brought into the bucket: each follower is sealed, its
    numbered fragments are read page by page, their segments are uploaded in
    batches ([recoveryBatch]), and the progress is noted in the node log.

    The followers' transport and the upload into the replica are arguments
    ([peers]): what they answer, not how they do it. The uploads of a process are
    logged in its state, in order, with their answers.

    The count of segments is returned only with success: no caller reads the count
    that accompanies an error. The deadline of an attempt shows as the errors it
    causes. A loop that reads a follower has as many rounds as the follower has
    fragments left, which always suffices.

    The theorems: whatever the bucket, the followers and the uploads answer,
    recovery ends; it writes a follower's progress only after every fragment up to
    there was uploaded, or its cell found deleted; it seals the session only after
    the whole tail of every follower was; followers give up their copies only in a
    recovery that succeeds; and it succeeds when the followers can be read and the
    uploads are not refused. *)

From S2P Require Import Prelude Cell Ltx Frames Bucket Fleet Objects Lease Discipline NodeLog.

(** ** The world outside *)

(** The answer of [Append] and [AppendBatch]; [Deleted] is [ErrResourceDeleted]. *)
Inductive appendAnswer : Set := Appended | Deleted | AppendFailed.

#[global] Instance appendAnswer_eq_dec : EqDecision appendAnswer.
Proof. solve_decision. Defined.

(** Whom a call is for: the address, and the identity that the follower has to prove
    ([peer.WithIdentity]). *)
Record target := MkTarget {
  tgIdentity : option PeerIdentity;
  tgAddr : string;
}.

(** [peer.Transport], [peer.RecoveryTransport], [peer.LiveRecoveryTransport] and the
    replica's appends; [None] is an error. *)
Record peers := MkPeers {
  pSeal : target → string → option Z;
  pTail : target → string → Z → option (list SessionFragment);
  pHead : target → string → option Z;
  pTailOpen : target → string → string → Z → Z → Z → option (list SessionFragment * Z * Z);
  pHeld : string → option (list HeldSegment);
  pAppend : Scope → Z → bytes → appendAnswer;
  pAppendBatch : Scope → Z → list bytes → appendAnswer;
}.

Inductive upload : Type :=
| USegment (s : Scope) (epoch : Z) (segment : bytes)
| UBatch (s : Scope) (epoch : Z) (segments : list bytes).

(** What the process did, in order: uploads, and sessions given up on a follower. *)
Inductive event : Type :=
| Uploaded (u : upload) (a : appendAnswer)
| Reclaimed (addr : target) (session : string).

Inductive recoveryError : Set :=
| ErrUnreachable
| ErrScope (e : scopeError)
| ErrUpload
| ErrDecodeSegment
| ErrNoSeal
| ErrSeal
| ErrHead
| ErrRegressed
| ErrTail
| ErrTailEnded (at_ want : Z)
| ErrTailGap (got want : Z)
| ErrNoLive
| ErrState
| ErrNoFollowers
| ErrTailAdvance
| ErrScopedTail
| ErrRecord
| ErrEnsemble
| ErrIdentityMissing
| ErrAddress (e : addressError)
| ErrCurrentSession
| ErrLeaseRead (e : getError)
| ErrLeaseNode
| ErrLive
| ErrProto
| ErrNodelog (e : nodelogError)
| ErrSessionUsed
| ErrLeader
| ErrRequired
| ErrDone
| ErrOutOfRounds.

(** [Manager]: which collaborators it has. *)
Record recoveryConfig := MkRecovery {
  rcLease : bool;
  rcLocalInstanceLocked : bool;
  rcSealed : bool;
  rcLive : bool;
}.

(** The log of the process, and its lease manager. *)
Record recState := MkRec {
  rsLog : list event;
  rsLease : LeaseManager;
}.

(** ** Batches ([batch.go]) *)

Definition batchMax : nat := 64.
Definition batchBytes : Z := 2 ^ 20.

Record recoveryBatch := MkBatch {
  rbScope : Scope;
  rbEpoch : Z;
  rbLast : Z;
  rbSegments : list bytes;
  rbBytes : Z;
  rbUploaded : Z;
}.

Definition newBatch : recoveryBatch :=
  MkBatch (MkScope EmptyString EmptyString EmptyString) 0 0 [] 0 0.

(** The segment does not continue the run. *)
Definition breaks (b : recoveryBatch) (s : Scope) (epoch : Z) (h : Header) (raw : bytes) : bool :=
  bool_decide (rbSegments b ≠ [])
  && (bool_decide (s ≠ rbScope b) || bool_decide (epoch ≠ rbEpoch b) || bool_decide (hKind h ≠ KindDelta)
      || bool_decide (rbLast b = 2 ^ 64 - 1) || bool_decide (hStartTxID h ≠ u64 (rbLast b + 1))
      || bool_decide (batchMax ≤ length (rbSegments b))%nat || bool_decide (batchBytes < rbBytes b + zlen raw)).

Section programs.
Context `{leaseCodec} `{Codec RecoveryAddress} `{Codec LogRecord} {C : Type} (P : peers) (order : list string → list string) (cfg : recoveryConfig).
Abbreviation prog := (prog C recState).

Definition onLease {R} (p : Fleet.prog C LeaseManager R) : prog R :=
  zoom rsLease (λ l m, MkRec (rsLog m) l) p.

Definition logEvent (e : event) : prog unit :=
  update (λ m, MkRec (rsLog m ++ [e]) (rsLease m)).

(** An operation on the node log. *)
Definition logOp {R} (p : prog (result nodelogError R)) : prog (result recoveryError R) :=
  r ← p; mret (rmap_err ErrNodelog r).

Definition append (s : Scope) (epoch : Z) (segment : bytes) : prog appendAnswer :=
  let a := pAppend P s epoch segment in
  _ ← logEvent (Uploaded (USegment s epoch segment) a); mret a.

Definition appendBatch (s : Scope) (epoch : Z) (segments : list bytes) : prog appendAnswer :=
  let a := pAppendBatch P s epoch segments in
  _ ← logEvent (Uploaded (UBatch s epoch segments) a); mret a.

Definition flush (b : recoveryBatch) : prog (result recoveryError recoveryBatch) :=
  if decide (rbSegments b = []) then mret (Ok b)
  else
    a ← appendBatch (rbScope b) (rbEpoch b) (rbSegments b);
    match a with
    | AppendFailed => mret (Err ErrUpload)
    | Deleted => mret (Ok (MkBatch (rbScope b) (rbEpoch b) (rbLast b) [] 0 (rbUploaded b)))
    | Appended =>
        mret (Ok (MkBatch (rbScope b) (rbEpoch b) (rbLast b) [] 0 (rbUploaded b + zlen (rbSegments b))))
    end.

Definition addTo (b : recoveryBatch) (s : Scope) (epoch : Z) (h : Header) (raw : bytes) : recoveryBatch :=
  MkBatch s epoch (hEndTxID h) (rbSegments b ++ [raw]) (rbBytes b + zlen raw) (rbUploaded b).

(** The batch is complete. *)
Definition full (h : Header) (b : recoveryBatch) : bool :=
  bool_decide (hKind h ≠ KindDelta) || bool_decide (batchMax ≤ length (rbSegments b))%nat
  || bool_decide (batchBytes ≤ rbBytes b).

Definition add (b : recoveryBatch) (s : Scope) (epoch : Z) (raw : bytes) :
    prog (result recoveryError recoveryBatch) :=
  match Decode raw with
  | Err _ => mret (Err ErrDecodeSegment)
  | Ok (h, _) =>
      b ←! (if breaks b s epoch h raw then flush b else mret (Ok b));
      let b := addTo b s epoch h raw in
      if full h b then flush b else mret (Ok b)
  end.

(** ** Collecting a follower ([recovery.go]) *)

Fixpoint addAll (b : recoveryBatch) (s : Scope) (epoch : Z) (segments : list bytes) :
    prog (result recoveryError recoveryBatch) :=
  match segments with
  | [] => mret (Ok b)
  | raw :: segments => b ←! add b s epoch raw; addAll b s epoch segments
  end.

(** The fragments of a page: they follow each other from [after]. *)
Fixpoint addPage (b : recoveryBatch) (after final : Z) (fragments : list SessionFragment) :
    prog (result recoveryError (recoveryBatch * Z)) :=
  match fragments with
  | [] => mret (Ok (b, after))
  | f :: fragments =>
      let want := u64 (after + 1) in
      if decide (sfSequence f ≠ want ∨ final < sfSequence f) then mret (Err (ErrTailGap (sfSequence f) want))
      else match ParseScope (sfScope f) with
           | Err e => mret (Err (ErrScope e))
           | Ok s => b ←! addAll b s (sfEpoch f) (sfSegments f); addPage b (sfSequence f) final fragments
           end
  end.

(** One page of the tail: its fragments, the flush and the checkpoint. *)
Definition collectPage (rec : LogRecord) (follower : string) (after final : Z) (fragments : list SessionFragment) :
    prog (result recoveryError (Z * Z)) :=
  '(b, after) ←! addPage newBatch after final fragments;
  b ←! flush b;
  _ ←! logOp (Checkpoint (nlNode rec) (nlSession rec) follower after);
  mret (Ok (after, rbUploaded b)).

(** [for after < final] *)
Fixpoint collectTail (fuel : nat) (rec : LogRecord) (follower : string) (addr : target) (after final total : Z) :
    prog (result recoveryError Z) :=
  if decide (final ≤ after) then mret (Ok total)
  else match fuel with
       | O => mret (Err ErrOutOfRounds)
       | S fuel =>
           match pTail P addr (nlSession rec) after with
           | None => mret (Err ErrTail)
           | Some [] => mret (Err (ErrTailEnded after final))
           | Some fragments =>
               '(after, n) ←! collectPage rec follower after final fragments;
               collectTail fuel rec follower addr after final (total + n)
           end
       end.

(** *** Identities ([identity.go]) *)

Definition follower (rec : LogRecord) (addr : string) : prog (result recoveryError target) :=
  if decide (nlProtoVersion rec ≠ ProtoVersionIdentity) then mret (Ok (MkTarget None addr))
  else match nlFollowerRefs rec !! addr with
       | None => mret (Err ErrIdentityMissing)
       | Some id =>
           if decide (pNode id = EmptyString ∨ pInstance id = EmptyString ∨ rcLease cfg = false)
           then mret (Err ErrIdentityMissing)
           else r ← onLease (ResolveRecoveryAddress id);
                mret (resolved ←ᵣ rmap_err ErrAddress r; Ok (MkTarget (Some id) resolved))
       end.

Definition checkSession (node session : string) : prog (result recoveryError unit) :=
  if negb (rcLease cfg) then mret (Ok tt)
  else
    lcfg ← onLease config;
    if decide (node = cNodeID lcfg ∧ session = cSession lcfg) then mret (Err ErrCurrentSession)
    else
      r ← onLease (leaseGet node);
      match r with
      | Err (ErrGet ErrNotFound) => mret (Ok tt)
      | Err e => mret (Err (ErrLeaseRead e))
      | Ok l =>
          if decide (lNode l ≠ node) then mret (Err ErrLeaseNode)
          else
            t ← now;
            mret (if leaseLive l t && bool_decide (lSession l = session) then
                    if decide (rcLocalInstanceLocked cfg = true ∧ node = cNodeID lcfg
                               ∧ lInstance l ≠ EmptyString ∧ lInstance l = cInstance lcfg)
                    then Ok tt else Err ErrLive
                  else Ok tt)
      end.

(** *** The followers of a record *)

Definition collectFollower (rec : LogRecord) (f : string) : prog (result recoveryError (Z * Z)) :=
  addr ←! follower rec f;
  match pSeal P addr (nlSession rec) with
  | None => mret (Err ErrSeal)
  | Some final =>
      let after := progressOf rec f in
      if decide (final < after) then mret (Err ErrRegressed)
      else n ←! collectTail (Z.to_nat (final - after)) rec f addr after final 0;
           mret (Ok (n, final))
  end.

Fixpoint collectFollowers (rec : LogRecord) (followers : list string) (total : Z) (covered : gmap string Z) :
    prog (result recoveryError (Z * gmap string Z)) :=
  match followers with
  | [] => mret (Ok (total, covered))
  | f :: followers =>
      '(n, final) ←! collectFollower rec f;
      collectFollowers rec followers (total + n) (<[f := final]> covered)
  end.

Definition collectSealed (rec : LogRecord) : prog (result recoveryError (Z * gmap string Z)) :=
  if rcSealed cfg then collectFollowers rec (nlFollowers rec) 0 ∅ else mret (Err ErrNoSeal).

(** The segments a follower holds; the last error is kept. *)
Fixpoint collectHeld (held : list HeldSegment) (total : Z) (lastErr : option recoveryError) :
    prog (Z * option recoveryError) :=
  match held with
  | [] => mret (total, lastErr)
  | h :: held =>
      match ParseScope (hsScope h) with
      | Err e => collectHeld held total (Some (ErrScope e))
      | Ok s =>
          a ← append s (hsEpoch h) (hsSegment h);
          match a with
          | Appended => collectHeld held (total + 1) lastErr
          | Deleted => collectHeld held total lastErr
          | AppendFailed => collectHeld held total (Some ErrUpload)
          end
      end
  end.

Fixpoint collectAll (followers : list string) (total : Z) (lastErr : option recoveryError) :
    prog (Z * option recoveryError) :=
  match followers with
  | [] => mret (total, lastErr)
  | f :: followers =>
      match pHeld P f with
      | None => collectAll followers total (Some ErrUnreachable)
      | Some held =>
          r ← collectHeld held total lastErr;
          collectAll followers r.1 r.2
      end
  end.

Definition Collect (followers : list string) : prog (result recoveryError Z) :=
  r ← collectAll followers 0 None;
  mret (match r.2 with Some e => Err e | None => Ok r.1 end).

(** ** Recovery of a session *)

Fixpoint reclaimAll (rec : LogRecord) (session : string) (followers : list string) : prog unit :=
  match followers with
  | [] => mret tt
  | f :: followers =>
      r ← follower rec f;
      _ ← (match r with Ok addr => logEvent (Reclaimed addr session) | Err _ => mret tt end);
      reclaimAll rec session followers
  end.

Definition sessionProto (proto : string) : bool :=
  bool_decide (proto = ProtoVersionSession ∨ proto = ProtoVersionIdentity).

(** What the followers of the record hold, by its protocol. *)
Definition collectRecord (rec : LogRecord) : prog (result recoveryError (Z * gmap string Z)) :=
  if decide (nlFollowers rec = []) then mret (Ok (0, ∅))
  else if sessionProto (nlProtoVersion rec) then collectSealed rec
  else n ←! Collect (nlFollowers rec); mret (Ok (n, ∅)).

(** [Recover] after the record was read. *)
Definition recoverRecord (deadNode session : string) (rec : LogRecord) : prog (result recoveryError Z) :=
  if decide (nlNode rec ≠ deadNode ∨ nlSession rec ≠ session) then mret (Err ErrRecord)
  else if decide (nlStatus rec = StatusSealed) then mret (Ok 0)
  else if decide (nlProtoVersion rec = ProtoVersionIdentity
                  ∧ (nlFollowers rec = [] ∨ size (nlFollowerRefs rec) ≠ length (nlFollowers rec)))
  then mret (Err ErrEnsemble)
  else
    _ ←! checkSession deadNode session;
    if decide (nlProtoVersion rec ≠ EmptyString ∧ nlProtoVersion rec ≠ ProtoVersionLegacy
               ∧ sessionProto (nlProtoVersion rec) = false)
    then mret (Err ErrProto)
    else
      _ ←! logOp (SetStatus deadNode session StatusRecovering);
      '(n, covered) ←! collectRecord rec;
      _ ←! logOp (SealCovered deadNode session covered);
      _ ← reclaimAll rec session (order (map_to_list covered).*1);
      mret (Ok n).

Definition Recover (deadNode session : string) : prog (result recoveryError Z) :=
  r ← logGet deadNode session;
  match r with
  | Err ErrLogNotFound => mret (Ok 0)
  | Err e => mret (Err (ErrNodelog e))
  | Ok (rec, _) => recoverRecord deadNode session rec
  end.

Fixpoint recoverSessions (deadNode : string) (recs : list LogRecord) (segments sessions : Z) :
    prog (result recoveryError (Z * Z)) :=
  match recs with
  | [] => mret (Ok (segments, sessions))
  | rec :: recs =>
      if decide (nlStatus rec = StatusSealed) then recoverSessions deadNode recs segments sessions
      else n ←! Recover deadNode (nlSession rec);
           recoverSessions deadNode recs (segments + n) (sessions + 1)
  end.

Definition RecoverNode (deadNode : string) : prog (result recoveryError (Z * Z)) :=
  recs ←! logOp (ListNode deadNode);
  recoverSessions deadNode recs 0 0.
(** ** One scope of a live session *)

Fixpoint appendScoped (s : Scope) (epoch : Z) (segments : list bytes) (total : Z) : prog (result recoveryError Z) :=
  match segments with
  | [] => mret (Ok total)
  | raw :: segments =>
      a ← append s epoch raw;
      match a with
      | Appended => appendScoped s epoch segments (total + 1)
      | _ => mret (Err ErrUpload)
      end
  end.

Fixpoint appendFragments (s : Scope) (previous next total : Z) (fragments : list SessionFragment) :
    prog (result recoveryError Z) :=
  match fragments with
  | [] => mret (Ok total)
  | f :: fragments =>
      if decide (sfSequence f ≤ previous ∨ next < sfSequence f ∨ sfScope f ≠ scopeString s)
      then mret (Err ErrScopedTail)
      else total ←! appendScoped s (sfEpoch f) (sfSegments f) total;
           appendFragments s (sfSequence f) next total fragments
  end.

(** [for after < final] over an open session. *)
Fixpoint scopedTail (fuel : nat) (rec : LogRecord) (s : Scope) (addr : target) (after final offset total : Z) :
    prog (result recoveryError Z) :=
  if decide (final ≤ after) then mret (Ok total)
  else match fuel with
       | O => mret (Err ErrOutOfRounds)
       | S fuel =>
           match pTailOpen P addr (nlSession rec) (scopeString s) after final offset with
           | None => mret (Err ErrTail)
           | Some (fragments, next, nextOffset) =>
               if decide (next ≤ after ∨ final < next ∨ nextOffset ≤ offset) then mret (Err ErrTailAdvance)
               else total ←! appendFragments s after next total fragments;
                    scopedTail fuel rec s addr next final nextOffset total
           end
       end.

Fixpoint scopedFollowers (rec : LogRecord) (s : Scope) (followers : list string) (total : Z) :
    prog (result recoveryError Z) :=
  match followers with
  | [] => mret (Ok total)
  | f :: followers =>
      addr ←! follower rec f;
      match pHead P addr (nlSession rec) with
      | None => mret (Err ErrHead)
      | Some final =>
          total ←! scopedTail (Z.to_nat final) rec s addr 0 final 0 total;
          scopedFollowers rec s followers total
      end
  end.

Definition RecoverLiveScope (rec : LogRecord) (s : Scope) : prog (result recoveryError Z) :=
  if negb (rcLive cfg) then mret (Err ErrNoLive)
  else if decide (sessionProto (nlProtoVersion rec) = false ∨ nlStatus rec ≠ StatusOpen) then mret (Err ErrState)
  else if decide (nlFollowers rec = []) then mret (Err ErrNoFollowers)
  else scopedFollowers rec s (nlFollowers rec) 0.

(** ** At startup ([startup.go]) *)

(** The predecessors of the node; a session that was already used is final. *)
Fixpoint recoverPredecessors (node current : string) (recs : list LogRecord) : prog (result recoveryError unit) :=
  match recs with
  | [] => mret (Ok tt)
  | rec :: recs =>
      if decide (nlSession rec = current) then mret (Err ErrSessionUsed)
      else if decide (nlStatus rec = StatusSealed) then recoverPredecessors node current recs
      else _ ←! Recover node (nlSession rec); recoverPredecessors node current recs
  end.

Definition nextDelay (delay : Z) : Z :=
  if decide (delay < 30 * Second) then Z.min (delay * 2) (30 * Second) else delay.

(** [tries] bounds the attempts; the delay is what the timer waits for. *)
Fixpoint RecoverLocal (tries : nat) (delay : Z) (node current : string) : prog (result recoveryError unit) :=
  match tries with
  | O => mret (Err ErrOutOfRounds)
  | S tries =>
      r ← (recs ←! logOp (ListNode node); recoverPredecessors node current recs)%go;
      match r with
      | Ok _ => mret (Ok tt)
      | Err ErrSessionUsed => mret (Err ErrSessionUsed)
      | Err _ =>
          c ← ctxErr;
          if c : bool then mret (Err ErrDone) else RecoverLocal tries (nextDelay delay) node current
      end
  end.

(** ** In the background ([runner.go]) *)

Record retryState := MkRetry {
  rtAfter : option time;
  rtDelay : Z;
}.

(** The counts of a pass and its retries, which only [Pass] touches, under [mu]. *)
Record passState := MkPass {
  psRetries : gmap string retryState;
  psSegments : Z;
  psSessions : Z;
}.

Definition retryOf (retries : gmap string retryState) (key : string) : retryState :=
  default (MkRetry None 0) (retries !! key).

Definition retryDelay (delay : Z) : Z :=
  Z.min (if decide (delay = 0) then Second else delay * 2) (60 * Second).

Definition waits (r : retryState) (t : time) : bool :=
  match rtAfter r with Some a => After a t | None => false end.

(** The session is sealed, or the node's live lease is its own. *)
Definition skipped (l : option NodeLease) (t : time) (rec : LogRecord) : bool :=
  bool_decide (nlStatus rec = StatusSealed)
  || match l with Some l => leaseLive l t && bool_decide (lSession l = nlSession rec) | None => false end.

(** The sessions of a node; whether one was recovered. *)
Fixpoint passSessions (node : string) (l : option NodeLease) (t : time) (recs : list LogRecord) (recovered : bool)
    (x : passState) : prog (bool * passState) :=
  match recs with
  | [] => mret (recovered, x)
  | rec :: recs =>
      let key := node +:+ "/" +:+ nlSession rec in
      let retry := retryOf (psRetries x) key in
      if skipped l t rec || waits retry t then passSessions node l t recs recovered x
      else
        r ← Recover node (nlSession rec);
        match r with
        | Err _ =>
            u ← now;
            let d := retryDelay (rtDelay retry) in
            passSessions node l t recs recovered
              (MkPass (<[key := MkRetry (Some (Add u d)) d]> (psRetries x)) (psSegments x) (psSessions x))
        | Ok n =>
            passSessions node l t recs true
              (MkPass (delete key (psRetries x)) (psSegments x + n) (psSessions x + 1))
        end
  end.

Fixpoint passNodes (nodeList : list string) (t : time) (nodes : Z) (x : passState) : prog (Z * passState) :=
  match nodeList with
  | [] => mret (nodes, x)
  | node :: nodeList =>
      r ← onLease (leaseGet node);
      match orAbsent r with
      | Err _ => passNodes nodeList t nodes x
      | Ok l =>
          rs ← ListNode node;
          match rs with
          | Err _ => passNodes nodeList t nodes x
          | Ok recs =>
              '(recovered, x) ← passSessions node l t recs false x;
              passNodes nodeList t (if recovered : bool then nodes + 1 else nodes) x
          end
      end
  end.

(** [leader] is [IsLeader], when there is one; [complete] says that the runner has its
    node log, its recovery manager and its leases. *)
Definition Pass (leader : option (prog (option bool))) (complete : bool) (retries : gmap string retryState) :
    prog (gmap string retryState * result recoveryError (Z * Z * Z)) :=
  ok ← (match leader with Some p => p | None => mret (Some true) end);
  match ok with
  | None => mret (retries, Err ErrLeader)
  | Some false => mret (retries, Ok (0, 0, 0))
  | Some true =>
      if negb complete then mret (retries, Err ErrRequired)
      else
        ns ← Nodes;
        match ns with
        | Err e => mret (retries, Err (ErrNodelog e))
        | Ok nodeList =>
            t ← now;
            '(nodes, x) ← passNodes nodeList t 0 (MkPass retries 0 0);
            mret (psRetries x, Ok (nodes, psSegments x, psSessions x))
        end
  end.
End programs.

(** ** Every path of a program *)

Section safe.
Context `{Etag} {C M : Type}.

(** Whatever the bucket, the clock, the context and the callbacks answer (an object comes
    with its etag): every write satisfies [I] in the state in which it is made, and the
    end satisfies [Q]. *)
Fixpoint safe {R : Type} (I : M → bucketOp → Prop) (Q : M → R → Prop) (p : prog C M R) (m : M) : Prop :=
  match p with
  | Ret r => Q m r
  | Fetch _ k => ∀ x, (∀ d e, x = Ok (d, e) → e = etag d) → safe I Q (k x) m
  | Do op k => I m op ∧ ∀ x, safe I Q (k x) m
  | ListKeys _ k => ∀ x, safe I Q (k x) m
  | Now k => ∀ t, safe I Q (k t) m
  | CtxErr k => ∀ b, safe I Q (k b) m
  | Atomic f k => safe I Q (k (f m).1) (f m).2
  | Wait cancel f k =>
      (∀ x m', f m = Some (x, m') → safe I Q (k (Some x)) m') ∧ (cancel = true → safe I Q (k None) m)
  | Call _ k => ∀ b, safe I Q (k b) m
  end.

Lemma safe_bind {A B} I (Q : M → A → Prop) (Q' : M → B → Prop) (p : prog C M A) (g : A → prog C M B) m :
  safe I Q p m → (∀ m' a, Q m' a → safe I Q' (g a) m') → safe I Q' (p ≫= g) m.
Proof.
  change (p ≫= g) with (bind p g). intros Hp Hg. revert m Hp.
  induction p as [r|key k IH|op k IH|pre k IH|k IH|k IH|T f k IH|T c f k IH|c k IH]; intros m Hp; simpl in *; auto.
  - destruct Hp as [Hop Hk]. auto.
  - destruct Hp as [Hs Hn]. split; auto.
Qed.

Lemma safe_mono {A} (I I' : M → bucketOp → Prop) (Q Q' : M → A → Prop) (p : prog C M A) m :
  (∀ m op, I m op → I' m op) → (∀ m a, Q m a → Q' m a) → safe I Q p m → safe I' Q' p m.
Proof.
  intros HI HQ. revert m.
  induction p as [r|key k IH|op k IH|pre k IH|k IH|k IH|T f k IH|T c f k IH|c k IH]; intros m Hp; simpl in *; auto.
  - destruct Hp as [Hop Hk]. auto.
  - destruct Hp as [Hs Hn]. split; eauto.
Qed.

Lemma safe_check {E A B} I (Q : M → result E A → Prop) (Q' : M → result E B → Prop)
    (p : prog C M (result E A)) (g : A → prog C M (result E B)) m :
  safe I Q p m → (∀ m' a, Q m' (Ok a) → safe I Q' (g a) m') → (∀ m' e, Q m' (Err e) → Q' m' (Err e)) →
  safe I Q' (check p g) m.
Proof. intros Hp Hok Herr. eapply safe_bind; [exact Hp|]. intros m' [a|e] Ha; [by apply Hok|by apply Herr]. Qed.
End safe.

(** ** What recovery has uploaded *)

(** A segment with its scope and epoch. *)
Abbreviation item := (Scope * Z * bytes)%type.

Definition tagged (s : Scope) (epoch : Z) (xs : list bytes) : list item := (λ x, (s, epoch, x)) <$> xs.

Definition itemsOf (e : event) : list item :=
  match e with
  | Uploaded (USegment s epoch x) _ => [(s, epoch, x)]
  | Uploaded (UBatch s epoch xs) _ => tagged s epoch xs
  | Reclaimed _ _ => []
  end.

Definition uploadedOf (us : list event) : list item := us ≫= itemsOf.

Definition fragItems (f : SessionFragment) : list item :=
  match ParseScope (sfScope f) with
  | Ok s => tagged s (sfEpoch f) (sfSegments f)
  | Err _ => []
  end.

Definition heldItems (h : HeldSegment) : list item :=
  match ParseScope (hsScope h) with
  | Ok s => [(s, hsEpoch h, hsSegment h)]
  | Err _ => []
  end.

Definition accepted (e : event) : Prop :=
  match e with Uploaded _ a => a ≠ AppendFailed | Reclaimed _ _ => False end.

(** Consecutive headers follow each other. *)
Definition contiguousRun (hs : list Header) : Prop :=
  ∀ i h h', hs !! i = Some h → hs !! S i = Some h' → hStartTxID h' = hEndTxID h + 1.

Definition totalBytes (xs : list bytes) : Z := foldr (λ x n, zlen x + n) 0 xs.

(** A batch: one segment, or a bounded run of deltas. *)
Definition goodBatch (xs : list bytes) : Prop :=
  ∃ hs, Forall2 (λ x h, ∃ p, Decode x = Ok (h, p)) xs hs
    ∧ ((length xs = 1)%nat
       ∨ (1 < length xs ≤ batchMax)%nat ∧ Forall (λ h, hKind h = KindDelta) hs ∧ contiguousRun hs
         ∧ totalBytes xs ≤ batchBytes).

Definition soundUpload (e : event) : Prop :=
  match e with
  | Uploaded (USegment _ _ _) _ => True
  | Uploaded (UBatch _ _ xs) _ => goodBatch xs
  | Reclaimed _ _ => False
  end.

Section tails.
Context (P : peers).

(** The fragments that a follower's pages hold from [a] up to [b]. *)
Inductive tailRead (addr : target) (session : string) (a : Z) : Z → list SessionFragment → Prop :=
| tail_none : tailRead addr session a a []
| tail_page b fs page :
    tailRead addr session a b fs → pTail P addr session b = Some page →
    tailRead addr session a (b + zlen page) (fs ++ page).

(** They are numbered without a gap, and their scopes are scopes. *)
Record tailOf (addr : target) (session : string) (a b : Z) (fs : list SessionFragment) : Prop := {
  to_read : tailRead addr session a b fs;
  to_numbered : sfSequence <$> fs = seqZ (a + 1) (b - a);
  to_scopes : Forall (λ f, ∃ s, ParseScope (sfScope f) = Ok s) fs;
}.

(** Without identities the address is the follower's name; with them, the record says whom
    to ask. *)
Definition resolves (rec : LogRecord) (f : string) (addr : target) : Prop :=
  if decide (nlProtoVersion rec ≠ ProtoVersionIdentity) then addr = MkTarget None f
  else is_Some (tgIdentity addr) ∧ tgIdentity addr = nlFollowerRefs rec !! f.

(** The last uploads are the follower's fragments after the recorded progress, up to [b]. *)
Definition tailUploaded (rec : LogRecord) (f : string) (b : Z) (us : list event) : Prop :=
  ∃ addr final fs us0 new, us = us0 ++ new ∧ resolves rec f addr ∧ pSeal P addr (nlSession rec) = Some final
    ∧ b ≤ final ∧ tailOf addr (nlSession rec) (progressOf rec f) b fs ∧ uploadedOf new = fs ≫= fragItems.

(** The uploads are the whole tails of the followers, in order; [covered] notes their ends. *)
Inductive tailsUploaded (rec : LogRecord) : list string → gmap string Z → list event → Prop :=
| tails_none : tailsUploaded rec [] ∅ []
| tails_one fs covered us f addr final frags new :
    tailsUploaded rec fs covered us → resolves rec f addr → pSeal P addr (nlSession rec) = Some final →
    tailOf addr (nlSession rec) (progressOf rec f) final frags → uploadedOf new = frags ≫= fragItems →
    tailsUploaded rec (fs ++ [f]) (<[f := final]> covered) (us ++ new).

(** The uploads are what the followers hold. *)
Definition heldUploaded (followers : list string) (us : list event) : Prop :=
  ∃ helds, Forall2 (λ f h, pHeld P f = Some h) followers helds
    ∧ Forall (λ h, ∃ s, ParseScope (hsScope h) = Ok s) (concat helds)
    ∧ uploadedOf us = concat helds ≫= heldItems.

Definition recordUploaded (rec : LogRecord) (covered : gmap string Z) (us : list event) : Prop :=
  Forall accepted us
  ∧ if sessionProto (nlProtoVersion rec) then tailsUploaded rec (nlFollowers rec) covered us
    else covered = ∅ ∧ heldUploaded (nlFollowers rec) us.

(** The writes of a recovery that has made the uploads [us]: they replace the version of the
    record, [d], that was read. *)
Inductive allowed `{Etag} `{Codec LogRecord} (rec : LogRecord) (us : list event) : bucketOp → Prop :=
| allow_recovering d r ms :
    unmarshal d = Some r → nlStatus r ≠ StatusSealed →
    allowed rec us (CAS (logKey (nlNode rec) (nlSession rec)) (marshal (setStatus StatusRecovering ms r)) (etag d))
| allow_progress d r ms f after :
    unmarshal d = Some r → nlStatus r = StatusRecovering → Forall accepted us → tailUploaded rec f after us →
    allowed rec us (CAS (logKey (nlNode rec) (nlSession rec)) (marshal (setProgress f after ms r)) (etag d))
| allow_seal d r ms covered :
    unmarshal d = Some r → recordUploaded rec covered us →
    allowed rec us (CAS (logKey (nlNode rec) (nlSession rec)) (marshal (sealWith covered ms r)) (etag d)).
End tails.

(** ** The uploads of the programs *)

Section tracks.
Context `{Etag} {C : Type} (log0 : list event) (I : list event → bucketOp → Prop).

(** From a state in which the process has made [us] since [log0]. *)
Definition tracks {R} (Q : list event → R → Prop) (us : list event) (p : prog C recState R) : Prop :=
  ∀ m, rsLog m = log0 ++ us →
    safe (λ m op, ∃ us, rsLog m = log0 ++ us ∧ I us op) (λ m r, ∃ us, rsLog m = log0 ++ us ∧ Q us r) p m.

(** The program adds well-formed uploads, ends, and on success has had all of them
    accepted and satisfies [F]. *)
Definition delivers {A} (us : list event) (F : list event → A → Prop) (us' : list event)
    (r : result recoveryError A) : Prop :=
  ∃ new, us' = us ++ new ∧ Forall soundUpload new ∧ r ≠ Err ErrOutOfRounds
    ∧ ∀ a, r = Ok a → Forall accepted new ∧ F new a.

Lemma tracks_ret {R} Q us (r : R) : Q us r → tracks Q us (mret r).
Proof. intros HQ m Hm. by exists us. Qed.

Lemma tracks_bind {A B} (Q : list event → A → Prop) (Q' : list event → B → Prop) us p (g : A → prog C recState B) :
  tracks Q us p → (∀ us' a, Q us' a → tracks Q' us' (g a)) → tracks Q' us (p ≫= g).
Proof. intros Hp Hg m Hm. eapply safe_bind; [by apply Hp|]. intros m' a (us' & Hm' & HQ). by apply (Hg us'). Qed.

Lemma tracks_then {A B} us (F : list event → A → Prop) (Q : list event → result recoveryError B → Prop) p
    (g : A → prog C recState (result recoveryError B)) :
  tracks (delivers us F) us p →
  (∀ new a, Forall soundUpload new → Forall accepted new → F new a → tracks Q (us ++ new) (g a)) →
  (∀ new e, Forall soundUpload new → e ≠ ErrOutOfRounds → Q (us ++ new) (Err e)) →
  tracks Q us (check p g).
Proof.
  intros Hp Hg He. eapply tracks_bind; [exact Hp|]. intros us' [a|e] (new & -> & Hs & Hne & Hok).
  - destruct (Hok a eq_refl). by apply Hg.
  - apply tracks_ret, He; [done|]. intros ->. by apply Hne.
Qed.

Lemma tracks_weaken {R} (Q Q' : list event → R → Prop) us p :
  tracks Q us p → (∀ us' r, Q us' r → Q' us' r) → tracks Q' us p.
Proof.
  intros Hp HQ m Hm. eapply safe_mono; [intros ?? Hop; exact Hop| |by apply Hp].
  intros m' r (us' & Hm' & Hr). eauto.
Qed.

Lemma tracks_check {A B} us (F : list event → A → Prop) (G : list event → B → Prop) p
    (g : A → prog C recState (result recoveryError B)) :
  tracks (delivers us F) us p →
  (∀ new a, Forall accepted new → F new a →
     tracks (delivers (us ++ new) (λ new' b, G (new ++ new') b)) (us ++ new) (g a)) →
  tracks (delivers us G) us (check p g).
Proof.
  intros Hp Hg. eapply tracks_then; [exact Hp| |].
  - intros new a Hs Hacc HF. eapply tracks_weaken; [by apply Hg|]. intros us' r (new' & -> & Hs' & Hne & Hok).
    exists (new ++ new'). rewrite app_assoc. split_and!; [done|by apply Forall_app|done|].
    intros b Hb. destruct (Hok b Hb). split; [by apply Forall_app|done].
  - intros new e Hs He. exists new. split_and!; [done..| |done]. intros [= ->]. by apply He.
Qed.

Lemma tracks_mono {A} us (F G : list event → A → Prop) p :
  tracks (delivers us F) us p → (∀ new a, Forall accepted new → F new a → G new a) → tracks (delivers us G) us p.
Proof.
  intros Hp HFG. eapply tracks_weaken; [exact Hp|]. intros us' r (new & -> & Hs & Hne & Hok).
  exists new. split_and!; [done..|]. intros a Ha. destruct (Hok a Ha). auto.
Qed.

Lemma delivers_ok {A} us (F : list event → A → Prop) a : F [] a → delivers us F us (Ok a).
Proof. intros HF. exists []. rewrite app_nil_r. split_and!; [done..|]. by intros ? [= <-]. Qed.

Lemma delivers_err {A} us (F : list event → A → Prop) e : e ≠ ErrOutOfRounds → delivers us F us (Err e).
Proof. intros He. exists []. rewrite app_nil_r. split_and!; [done..|congruence|done]. Qed.
End tracks.

(** *** Batches *)

Definition pending (b : recoveryBatch) : list item := tagged (rbScope b) (rbEpoch b) (rbSegments b).

(** The batch may be sent; and it may grow. *)
Definition ripe (b : recoveryBatch) : Prop :=
  rbBytes b = totalBytes (rbSegments b) ∧ (rbSegments b = [] ∨ goodBatch (rbSegments b)).

Definition growing (b : recoveryBatch) : Prop :=
  rbBytes b = totalBytes (rbSegments b)
  ∧ (rbSegments b = []
     ∨ ∃ hs h, Forall2 (λ x h, ∃ p, Decode x = Ok (h, p)) (rbSegments b) hs ∧ Forall (λ h, hKind h = KindDelta) hs
         ∧ contiguousRun hs ∧ last hs = Some h ∧ hEndTxID h = rbLast b
         ∧ (length (rbSegments b) < batchMax)%nat ∧ totalBytes (rbSegments b) < batchBytes).

Lemma totalBytes_snoc xs x : totalBytes (xs ++ [x]) = totalBytes xs + zlen x.
Proof. induction xs as [|y xs IH]; simpl; [lia|]. unfold totalBytes in *. rewrite IH. lia. Qed.

Lemma contiguousRun_snoc hs h h' :
  contiguousRun hs → last hs = Some h → hStartTxID h' = hEndTxID h + 1 → contiguousRun (hs ++ [h']).
Proof.
  intros Hc Hl E i x y Hx Hy.
  apply lookup_app_Some in Hy as [Hy|[Hlen Hy]].
  - rewrite lookup_app_l in Hx by (apply lookup_lt_Some in Hy; lia). eauto.
  - destruct (S i - length hs)%nat eqn:Ei; [|done]. injection Hy as <-.
    rewrite lookup_app_l in Hx by lia. rewrite last_lookup in Hl.
    replace (pred (length hs)) with i in Hl by lia. congruence.
Qed.

Lemma growing_ripe b : growing b → ripe b.
Proof.
  intros [Hb Hg]. split; [done|]. destruct Hg as [?|(hs & h & Hd & Hk & Hc & Hl & He & Hlen & Ht)]; [by left|right].
  exists hs. split; [done|]. pose proof (Forall2_length _ _ _ Hd) as Hlen'.
  destruct (decide (length (rbSegments b) = 1)%nat) as [?|Hne]; [by left|right].
  split_and!; [|lia|done|done|lia]. destruct hs; [done|]. simpl in *. lia.
Qed.

Lemma growing_new : growing newBatch.
Proof. split; [done|by left]. Qed.

Lemma tagged_app s epoch xs ys : tagged s epoch (xs ++ ys) = tagged s epoch xs ++ tagged s epoch ys.
Proof. apply fmap_app. Qed.

Lemma addTo_first b s epoch h p raw :
  rbSegments b = [] → rbBytes b = totalBytes (rbSegments b) → Decode raw = Ok (h, p) →
  ripe (addTo b s epoch h raw) ∧ pending (addTo b s epoch h raw) = [(s, epoch, raw)]
  ∧ (full h (addTo b s epoch h raw) = false → growing (addTo b s epoch h raw)).
Proof.
  intros E Eb Hd. unfold ripe, growing, pending, addTo, full. simpl. rewrite Eb, E. simpl.
  split_and!; [unfold totalBytes; simpl; lia| |done|].
  - right. exists [h]. split; [|by left]. constructor; [by exists p|constructor].
  - intros Hf. apply orb_false_iff in Hf as [[Hk%bool_decide_eq_false Hl]%orb_false_iff Hy%bool_decide_eq_false].
    split; [unfold totalBytes; simpl; lia|right]. exists [h], h.
    split_and!; [|constructor; [by apply dec_stable|constructor]| |done|done|unfold batchMax; lia|].
    + constructor; [by exists p|constructor].
    + intros i x y Hx Hy'. by destruct i.
    + unfold totalBytes in *. simpl in *. lia.
Qed.

Lemma addTo_more b s epoch h p raw :
  rbSegments b ≠ [] → growing b → Decode raw = Ok (h, p) → breaks b s epoch h raw = false →
  ripe (addTo b s epoch h raw) ∧ pending (addTo b s epoch h raw) = pending b ++ [(s, epoch, raw)]
  ∧ (full h (addTo b s epoch h raw) = false → growing (addTo b s epoch h raw)).
Proof.
  intros Hne [Eb Hg] Hd Hbr. destruct Hg as [?|(hs & h0 & Hds & Hks & Hc & Hl & He & Hlen & Ht)]; [done|].
  unfold breaks in Hbr. rewrite bool_decide_eq_true_2 in Hbr by done. simpl in Hbr.
  repeat (apply orb_false_iff in Hbr as [Hbr ?]). rewrite !bool_decide_eq_false in *.
  assert (s = rbScope b) as -> by (by apply dec_stable).
  assert (epoch = rbEpoch b) as -> by (by apply dec_stable).
  assert (hKind h = KindDelta) as Hk by (by apply dec_stable).
  assert (hStartTxID h = u64 (rbLast b + 1)) as Hs by (by apply dec_stable).
  assert (hStartTxID h = hEndTxID h0 + 1) as Hs'.
  { apply last_Some in Hl as [hs' ->]. apply Forall2_app_inv_r in Hds as (l1 & l2 & _ & Hd2 & _).
    apply Forall2_cons_inv_r in Hd2 as (x & l' & (p0 & Hx) & _ & _).
    destruct (ltx_sound _ _ _ Hx) as (_ & _ & _ & Hwf). pose proof (wf_end _ Hwf) as Hr.
    rewrite Hs, <- He, u64_id; [done|]. lia. }
  unfold ripe, growing, pending, addTo, full. simpl. rewrite tagged_app, totalBytes_snoc, Eb, length_app. simpl.
  assert (Forall2 (λ x h, ∃ p, Decode x = Ok (h, p)) (rbSegments b ++ [raw]) (hs ++ [h])) as Hds'.
  { apply Forall2_app; [done|]. constructor; [by exists p|constructor]. }
  assert (Forall (λ h, hKind h = KindDelta) (hs ++ [h])) as Hks' by (apply Forall_app; auto).
  pose proof (contiguousRun_snoc _ _ _ Hc Hl Hs') as Hc'.
  assert (0 < length (rbSegments b))%nat by (destruct (rbSegments b); [done|simpl; lia]).
  split_and!; [done| |done|].
  - right. exists (hs ++ [h]). split; [done|]. right. rewrite length_app, totalBytes_snoc. simpl.
    split_and!; [lia|lia|done|done|lia].
  - intros Hf. apply orb_false_iff in Hf as [[_ Hn%bool_decide_eq_false]%orb_false_iff Hy%bool_decide_eq_false].
    split; [done|right]. exists (hs ++ [h]), h. rewrite last_snoc. split_and!; try done; lia.
Qed.

Section uploads.
Context `{Etag} {C : Type} (P : peers) (log0 : list event) (I : list event → bucketOp → Prop).
Abbreviation tracks := (tracks (C := C) log0 I).

Lemma tracks_event {R} (Q : list event → R → Prop) us e (g : unit → prog C recState R) :
  tracks Q (us ++ [e]) (g tt) → tracks Q us (logEvent e ≫= g).
Proof. intros Hg m Hm. apply Hg. simpl. by rewrite Hm, app_assoc. Qed.

Lemma tracks_flush us b :
  ripe b →
  tracks (delivers us (λ new b', uploadedOf new = pending b ∧ rbSegments b' = [] ∧ growing b')) us (flush P b).
Proof.
  intros [Eb Hb]. unfold flush. case_decide as E.
  - apply tracks_ret, delivers_ok. split_and!; [by unfold pending; rewrite E|done|]. split; [done|by left].
  - destruct Hb as [?|Hb]; [done|]. apply tracks_event.
    assert (∀ a, soundUpload (Uploaded (UBatch (rbScope b) (rbEpoch b) (rbSegments b)) a)) as Hs by done.
    assert (∀ n, growing (MkBatch (rbScope b) (rbEpoch b) (rbLast b) [] 0 n)) as Hg by (intros n; split; [done|by left]).
    destruct (pAppendBatch _ _ _ _) eqn:Ea; apply tracks_ret; eexists; (split_and!; [reflexivity|by repeat constructor|done|]);
      intros b' [= <-]; (split; [by repeat constructor|]); (split_and!; [|done|apply Hg]); apply app_nil_r.
Qed.

Lemma tracks_add us b s epoch raw :
  growing b →
  tracks (delivers us (λ new b', uploadedOf new ++ pending b' = pending b ++ [(s, epoch, raw)] ∧ growing b')) us
    (add P b s epoch raw).
Proof.
  intros Hg. unfold add. destruct (Decode raw) as [[h p]|e] eqn:Hd; [|by apply tracks_ret, delivers_err].
  apply (tracks_check _ _ us (λ new b', uploadedOf new ++ pending b' = pending b ∧ growing b'
    ∧ (rbSegments b' = [] ∨ breaks b' s epoch h raw = false))).
  - destruct (breaks b s epoch h raw) eqn:Hbr; [|apply tracks_ret, delivers_ok; by auto].
    eapply tracks_mono; [by apply tracks_flush, growing_ripe|]. intros new b' _ (Hu & He & Hg').
    split_and!; [|done|by left]. unfold pending at 1. by rewrite He, app_nil_r.
  - intros new b' _ (Hu & Hg' & Hbr).
    assert (ripe (addTo b' s epoch h raw) ∧ pending (addTo b' s epoch h raw) = pending b' ++ [(s, epoch, raw)]
      ∧ (full h (addTo b' s epoch h raw) = false → growing (addTo b' s epoch h raw))) as (Hr & Hp & Hf).
    { destruct (decide (rbSegments b' = [])) as [E|E].
      - unfold pending at 2. rewrite E. eapply addTo_first; [done|apply Hg'|done].
      - destruct Hbr; [done|]. by eapply addTo_more. }
    destruct (full h _).
    + eapply tracks_mono; [by apply tracks_flush|]. intros new' b2 _ (Hu' & He & Hg2). split; [|done].
      unfold pending at 1. rewrite He, app_nil_r. unfold uploadedOf in *. by rewrite bind_app, Hu', Hp, app_assoc, Hu.
    + apply tracks_ret, delivers_ok. split; [|by apply Hf]. rewrite app_nil_r, Hp, app_assoc, Hu. done.
Qed.

Lemma tracks_addAll us b s epoch xs :
  growing b →
  tracks (delivers us (λ new b', uploadedOf new ++ pending b' = pending b ++ tagged s epoch xs ∧ growing b')) us
    (addAll P b s epoch xs).
Proof.
  revert us b. induction xs as [|x xs IH]; intros us b Hg; simpl.
  - apply tracks_ret, delivers_ok. by rewrite app_nil_r.
  - eapply tracks_check; [by apply tracks_add|]. intros new b1 _ [Hu Hg1].
    eapply tracks_mono; [by apply IH|]. intros new' b2 _ [Hu' Hg2]. split; [|done].
    unfold uploadedOf in *. rewrite bind_app, <- app_assoc, Hu', app_assoc, Hu, <- app_assoc. done.
Qed.

(** The fragments of a page that was accepted. *)
Definition pageOk (after final after' : Z) (fs : list SessionFragment) : Prop :=
  sfSequence <$> fs = seqZ (after + 1) (zlen fs) ∧ after' = after + zlen fs ∧ after' ≤ final
  ∧ Forall (λ f, ∃ s, ParseScope (sfScope f) = Ok s) fs.

Lemma tracks_addPage us b after final fs :
  growing b → 0 ≤ after ≤ final → final < 2 ^ 64 - 1 →
  tracks (delivers us (λ new r, uploadedOf new ++ pending r.1 = pending b ++ (fs ≫= fragItems) ∧ growing r.1
    ∧ pageOk after final r.2 fs)) us (addPage P b after final fs).
Proof.
  revert us b after. induction fs as [|f fs IH]; intros us b after Hg Ha Hf; simpl.
  - apply tracks_ret, delivers_ok. unfold pageOk. rewrite app_nil_r. split_and!; try done; simpl; lia.
  - rewrite u64_id by lia. case_decide as Hseq; [by apply tracks_ret, delivers_err|].
    assert (sfSequence f = after + 1 ∧ sfSequence f ≤ final) as [Es Hle] by lia.
    destruct (ParseScope (sfScope f)) as [s|e] eqn:Hs; [|by apply tracks_ret, delivers_err].
    eapply tracks_check; [by apply tracks_addAll|]. intros new b1 _ [Hu Hg1].
    eapply tracks_mono; [apply IH; [done|lia|done]|]. intros new' [b2 after2] _ (Hu' & Hg2 & Hn & Hl & Hle2 & Hps).
    simpl in *. split_and!; [|done|]; unfold pageOk.
    + unfold uploadedOf in *. unfold fragItems at 1. rewrite bind_app, <- app_assoc, Hu', app_assoc, Hu, Hs, <- app_assoc.
      done.
    + split_and!; [|rewrite length_cons; lia|done|constructor; eauto].
      rewrite fmap_cons, Hn, Es. rewrite (seqZ_cons (after + 1)), length_cons by (rewrite length_cons; lia).
      f_equal. f_equal; lia.
Qed.
End uploads.

(** *** The node log and the leases *)

Section steps.
Context `{Etag} `{leaseCodec} `{Codec RecoveryAddress} `{Codec LogRecord} {C : Type}.
Context (log0 : list event) (I : list event → bucketOp → Prop).
Abbreviation tracks := (tracks (C := C) log0 I).

Lemma tracks_onLease {A B} (Q : list event → B → Prop) us (p : prog C LeaseManager A) (g : A → prog C recState B) :
  reads p → (∀ a, tracks Q us (g a)) → tracks Q us (onLease p ≫= g).
Proof.
  intros Hp Hg m Hm. change (onLease p ≫= g) with (bind (onLease p) g). revert m Hm Hp.
  induction p as [r|key k IH|op k IH|pre k IH|k IH|k IH|T f k IH|T c f k IH|c k IH]; intros m Hm Hp; simpl in Hp;
    try done; try (intros x; by apply IH).
  - by apply Hg.
  - intros x _. by apply IH.
  - simpl. destruct (f (rsLease m)) as [x l]. by apply IH.
Qed.

(** A record that was read, with its version. *)
Definition versionOf (r : LogRecord) (e : string) : Prop := ∃ d, e = etag d ∧ unmarshal d = Some r.

Lemma tracks_logGet {B} (Q : list event → B → Prop) us node session g :
  (∀ r, (∀ rec e, r = Ok (rec, e) → versionOf rec e) → tracks Q us (g r)) → tracks Q us (logGet node session ≫= g).
Proof.
  intros Hg m Hm. unfold logGet, GetVersion. destruct (objectKey _ _) as [k|e0].
  - intros x Hx. destruct x as [[d e]|e]; apply Hg; try done; simpl.
    + intros rec e'. destruct (unmarshal d) as [r|] eqn:E; [|done]. intros [= -> ->]. exists d. split; [by apply Hx|done].
    + intros rec e'. by destruct e.
  - apply Hg; [|done]. simpl. intros rec e'. by destruct e0 as [| | |[]].
Qed.

Lemma tracks_logCas {B} (Q : list event → B → Prop) us node session r e g :
  I us (CAS (logKey node session) (marshal r) e) → (∀ w, tracks Q us (g w)) →
  tracks Q us (logCas node session r e ≫= g).
Proof.
  intros HI Hg m Hm. unfold logCas, write. destruct (objectKey _ _) as [k|e'] eqn:Hk; [|by apply Hg].
  apply objectKey_Ok in Hk as (-> & _). split; [by exists us|]. intros w. by apply Hg.
Qed.

(** A node-log operation that only writes what [I] allows. *)
Definition logs {R} us (p : prog C recState (result nodelogError R)) : Prop := tracks (λ us' _, us' = us) us p.

Lemma logs_read {R} us node session (g : LogRecord * string → prog C recState (result nodelogError R)) :
  (∀ r d, unmarshal d = Some r → logs us (g (r, etag d))) → logs us (check (logGet node session) g).
Proof.
  intros Hg. apply tracks_logGet. intros [[r e]|e] Hr; [|by apply tracks_ret].
  destruct (Hr r e eq_refl) as (d & -> & Hd). by apply Hg.
Qed.

Lemma tracks_now {B} (Q : list event → B → Prop) us (g : time → prog C recState B) :
  (∀ t, tracks Q us (g t)) → tracks Q us (now ≫= g).
Proof. intros Hg m Hm t. by apply Hg. Qed.

Lemma logs_SetStatus us node session :
  (∀ d r ms, unmarshal d = Some r → nlStatus r ≠ StatusSealed →
     I us (CAS (logKey node session) (marshal (setStatus StatusRecovering ms r)) (etag d))) →
  logs us (SetStatus node session StatusRecovering).
Proof.
  intros HI. apply logs_read. intros r d Hd. case_decide as Hs; [by apply tracks_ret|]. apply tracks_now. intros t.
  apply tracks_logCas; [|intros w; by apply tracks_ret]. apply HI; [done|]. intros E. by apply Hs.
Qed.

Lemma logs_SealCovered us node session covered :
  (∀ d r ms, unmarshal d = Some r → I us (CAS (logKey node session) (marshal (sealWith covered ms r)) (etag d))) →
  logs us (SealCovered node session covered).
Proof.
  intros HI. apply logs_read. intros r d Hd. apply tracks_now. intros t.
  apply tracks_logCas; [by apply HI|intros w; by apply tracks_ret].
Qed.

Lemma logs_Checkpoint us node session f after :
  (∀ d r ms, unmarshal d = Some r → nlStatus r = StatusRecovering →
     I us (CAS (logKey node session) (marshal (setProgress f after ms r)) (etag d))) →
  logs us (Checkpoint node session f after).
Proof.
  intros HI. unfold Checkpoint. generalize 8%nat. intros n.
  induction n as [|n IH]; [by apply tracks_ret|]. apply logs_read. intros r d Hd.
  case_decide; [by apply tracks_ret|]. case_decide as Hr; [by apply tracks_ret|]. apply tracks_now. intros t.
  apply tracks_logCas; [by apply HI|].
  intros [w|[| | |[]]]; try (by apply tracks_ret). exact IH.
Qed.

Lemma tracks_logOp {R} us (p : prog C recState (result nodelogError R)) :
  logs us p → tracks (delivers us (λ new _, new = [])) us (logOp p).
Proof.
  intros Hp. eapply tracks_bind; [exact Hp|]. intros us' [a|e] ->; apply tracks_ret; [by apply delivers_ok|].
  by apply delivers_err.
Qed.

Lemma follower_quiet cfg rec f us :
  tracks (λ us' r, us' = us ∧ r ≠ Err ErrOutOfRounds ∧ ∀ addr, r = Ok addr → resolves rec f addr) us
    (follower cfg rec f).
Proof.
  unfold follower, resolves. case_decide as Hv; [apply tracks_ret; split_and!; [done..|]; by intros ? [= <-]|].
  destruct (nlFollowerRefs rec !! f) as [id|]; [|by apply tracks_ret].
  case_decide; [by apply tracks_ret|]. apply tracks_onLease.
  - unfold ResolveRecoveryAddress. case_decide; [done|]. unfold Get, GetVersion.
    destruct (objectKey _ _); [|by simpl; repeat case_match]. intros [[d e]|e]; simpl; [done|]. by destruct e.
  - intros [a|e]; apply tracks_ret; [|done]. split_and!; [done..|]. by intros ? [= <-].
Qed.

Lemma tracks_follower cfg rec f us :
  tracks (delivers us (λ new addr, new = [] ∧ resolves rec f addr)) us (follower cfg rec f).
Proof.
  eapply tracks_weaken; [apply follower_quiet|]. intros us' [addr|e] (-> & He & Hr).
  - apply delivers_ok. auto.
  - apply delivers_err. congruence.
Qed.

Lemma tracks_checkSession cfg node session us :
  tracks (delivers us (λ new _, new = [])) us (checkSession cfg node session).
Proof.
  unfold checkSession. case_match; [by apply tracks_ret, delivers_ok|]. apply tracks_onLease; [done|]. intros lcfg.
  case_decide; [by apply tracks_ret, delivers_err|]. apply tracks_onLease; [done|].
  intros [l|e]; [|by repeat case_match; apply tracks_ret; (apply delivers_ok || apply delivers_err)].
  case_decide; [by apply tracks_ret, delivers_err|]. apply tracks_now. intros t. apply tracks_ret.
  by repeat case_match; (apply delivers_ok || apply delivers_err).
Qed.
End steps.

(** *** One scope of a live session *)

Section scoped.
Context `{Etag} `{leaseCodec} `{Codec RecoveryAddress} {C : Type}.
Context (P : peers) (cfg : recoveryConfig) (rec : LogRecord) (s : Scope) (log0 : list event).
Abbreviation tracks := (tracks (C := C) log0 (λ _ _, False)).

(** The uploads are accepted segments of the scope, counted from [total]. *)
Definition counted (total : Z) (new : list event) (n : Z) : Prop :=
  Forall (λ e, ∃ epoch x, e = Uploaded (USegment s epoch x) Appended) new ∧ n = total + zlen new.

Lemma counted_app total new1 n1 new2 n2 : counted total new1 n1 → counted n1 new2 n2 → counted total (new1 ++ new2) n2.
Proof. intros [Hn1 ->] [Hn2 ->]. split; [by apply Forall_app|]. rewrite length_app. lia. Qed.

Lemma counted_nil total : counted total [] total.
Proof. split; [done|]. simpl. lia. Qed.

Lemma tracks_appendScoped us epoch xs total :
  tracks (delivers us (counted total)) us (appendScoped P s epoch xs total).
Proof.
  revert us total. induction xs as [|x xs IH]; intros us total; simpl; [apply tracks_ret, delivers_ok, counted_nil|].
  apply tracks_event. destruct (pAppend P s epoch x) eqn:Ea.
  - eapply tracks_weaken; [apply IH|]. intros us' r (new & -> & Hs & Hne & Hok).
    exists (Uploaded (USegment s epoch x) Appended :: new). rewrite <- app_assoc. split_and!; [done|by constructor|done|].
    intros n Hn. destruct (Hok n Hn) as [Hacc Hc]. split; [by constructor|].
    apply (counted_app total [_] (total + 1)); [|done]. split; [|done]. constructor; [by eexists _, _|constructor].
  - apply tracks_ret. eexists. split_and!; [reflexivity|by repeat constructor|done..].
  - apply tracks_ret. eexists. split_and!; [reflexivity|by repeat constructor|done..].
Qed.

Lemma tracks_appendFragments us previous next total fs :
  tracks (delivers us (counted total)) us (appendFragments P s previous next total fs).
Proof.
  revert us previous total. induction fs as [|f fs IH]; intros us previous total; simpl;
    [apply tracks_ret, delivers_ok, counted_nil|].
  case_decide; [by apply tracks_ret, delivers_err|]. eapply tracks_check; [apply tracks_appendScoped|].
  intros new n _ Hc. eapply tracks_mono; [apply IH|]. intros new' n' _ Hc'. by eapply counted_app.
Qed.

Lemma tracks_scopedTail fuel us addr after final offset total :
  final - after ≤ Z.of_nat fuel →
  tracks (delivers us (counted total)) us (scopedTail P fuel rec s addr after final offset total).
Proof.
  revert us after offset total. induction fuel as [|fuel IH]; intros us after offset total Hf; cbn [scopedTail];
    (case_decide; [apply tracks_ret, delivers_ok, counted_nil|]); [lia|].
  destruct (pTailOpen _ _ _ _ _ _ _) as [[[fs next] off]|]; [|by apply tracks_ret, delivers_err].
  case_decide as Hn; [by apply tracks_ret, delivers_err|]. eapply tracks_check; [apply tracks_appendFragments|].
  intros new n _ Hc. eapply tracks_mono; [apply IH; lia|]. intros new' n' _ Hc'. by eapply counted_app.
Qed.

Lemma tracks_scopedFollowers us fs total :
  tracks (delivers us (counted total)) us (scopedFollowers P cfg rec s fs total).
Proof.
  revert us total. induction fs as [|f fs IH]; intros us total; simpl; [apply tracks_ret, delivers_ok, counted_nil|].
  eapply tracks_check; [apply tracks_follower|]. intros ? addr _ [-> _].
  destruct (pHead _ _ _) as [final|]; [|by apply tracks_ret, delivers_err].
  eapply tracks_check; [apply tracks_scopedTail; lia|]. intros new n _ Hc.
  eapply tracks_mono; [apply IH|]. intros new' n' _ Hc'. simpl. by eapply counted_app.
Qed.

Lemma tracks_RecoverLiveScope : tracks (delivers [] (counted 0)) [] (RecoverLiveScope P cfg rec s).
Proof.
  unfold RecoverLiveScope. case_match; [by apply tracks_ret, delivers_err|].
  case_decide; [by apply tracks_ret, delivers_err|]. case_decide; [by apply tracks_ret, delivers_err|].
  apply tracks_scopedFollowers.
Qed.
End scoped.

(** *** A record *)

Section record.
Context `{Etag} `{leaseCodec} `{Codec RecoveryAddress} `{Codec LogRecord} {C : Type}.
Context (P : peers) (order : list string → list string) (cfg : recoveryConfig) (rec : LogRecord).
Context (log0 : list event).
Hypothesis seal_seq : ∀ addr session final, pSeal P addr session = Some final → final < 2 ^ 64 - 1.
Hypothesis progress_seq : ∀ f, 0 ≤ progressOf rec f.
Abbreviation tracks := (tracks (C := C) log0 (allowed P rec)).

(** The uploads [new] are the follower's fragments up to [b]. *)
Definition reading (f : string) (addr : target) (b : Z) (new : list event) : Prop :=
  ∃ fs, tailOf P addr (nlSession rec) (progressOf rec f) b fs ∧ uploadedOf new = fs ≫= fragItems.

Lemma tailOf_page addr a b fs page final b' :
  tailOf P addr (nlSession rec) a b fs → a ≤ b → pTail P addr (nlSession rec) b = Some page →
  pageOk b final b' page → tailOf P addr (nlSession rec) a b' (fs ++ page).
Proof.
  intros [Hr Hn Hs] Hab Hp (Hseq & -> & _ & Hps). split.
  - by constructor.
  - rewrite fmap_app, Hn, Hseq. replace (b + zlen page - a) with (b - a + zlen page) by lia.
    rewrite (seqZ_app (a + 1) (b - a) (zlen page)) by lia. f_equal. f_equal. lia.
  - by apply Forall_app.
Qed.

Section follower.
Context (f : string) (addr : target) (final : Z).
Hypothesis f_resolves : resolves rec f addr.
Hypothesis f_final : pSeal P addr (nlSession rec) = Some final.

Lemma tracks_collectPage us0 new after page :
  Forall accepted (us0 ++ new) → reading f addr after new → progressOf rec f ≤ after ≤ final →
  pTail P addr (nlSession rec) after = Some page → page ≠ [] →
  tracks (delivers (us0 ++ new) (λ new' r, reading f addr r.1 (new ++ new') ∧ after < r.1 ≤ final)) (us0 ++ new)
    (collectPage P rec f after final page).
Proof.
  intros Hacc (fs & Ht & Hu) Ha Hp Hne. pose proof (progress_seq f) as Hmin. pose proof (seal_seq _ _ _ f_final) as Hmax.
  eapply tracks_check; [apply tracks_addPage; [apply growing_new|lia|done]|].
  intros new1 [b after'] Hacc1 (Hu1 & Hg & Hpage). simpl in Hu1, Hg, Hpage.
  eapply tracks_check; [by apply tracks_flush, growing_ripe|]. intros new2 b2 Hacc2 (Hu2 & _ & _).
  assert (reading f addr after' (new ++ new1 ++ new2)) as Hread.
  { exists (fs ++ page). split; [eapply tailOf_page; [exact Ht|lia|exact Hp|exact Hpage]|]. unfold uploadedOf in *.
    rewrite !bind_app, Hu, Hu2, Hu1. done. }
  destruct Hpage as (_ & Eafter & Hle & _).
  assert (after < after') by (destruct page; [done|rewrite length_cons in Eafter; lia]).
  eapply tracks_check.
  - apply tracks_logOp, logs_Checkpoint. intros d r ms Hd Hr. apply allow_progress; [done|done|by rewrite !Forall_app in *|].
    destruct Hread as (fs' & Ht' & Hu'). exists addr, final, fs', us0, (new ++ new1 ++ new2).
    split_and!; try done. by rewrite !app_assoc.
  - intros new3 _ _ ->. apply tracks_ret, delivers_ok. rewrite !app_nil_r. split; [done|simpl; lia].
Qed.

Lemma tracks_collectTail fuel us0 new after total :
  Forall accepted (us0 ++ new) → reading f addr after new → progressOf rec f ≤ after ≤ final →
  final - after ≤ Z.of_nat fuel →
  tracks (delivers (us0 ++ new) (λ new' _, reading f addr final (new ++ new'))) (us0 ++ new)
    (collectTail P fuel rec f addr after final total).
Proof.
  revert new after total. induction fuel as [|fuel IH]; intros new after total Hacc Hr Ha Hf; cbn [collectTail];
    (case_decide; [apply tracks_ret, delivers_ok; rewrite app_nil_r; by replace final with after by lia|]); [lia|].
  destruct (pTail P addr (nlSession rec) after) as [[|x page]|] eqn:Hp; [by apply tracks_ret, delivers_err| |by apply tracks_ret, delivers_err].
  eapply tracks_check; [by apply tracks_collectPage|]. intros new1 [after' n] Hacc1 [Hr' Ha']. simpl in Ha'.
  rewrite <- app_assoc. eapply tracks_mono; [apply IH; [|done|lia|lia]|].
  - rewrite app_assoc. by apply Forall_app.
  - intros new2 a _ Hread. by rewrite app_assoc.
Qed.
End follower.

Lemma reading_nil f addr : reading f addr (progressOf rec f) [].
Proof. exists []. split; [|done]. split; [constructor|by rewrite Z.sub_diag|done]. Qed.

Lemma tracks_collectFollower us0 f :
  Forall accepted us0 →
  tracks (delivers us0 (λ new r, ∃ addr, resolves rec f addr ∧ pSeal P addr (nlSession rec) = Some r.2
    ∧ reading f addr r.2 new)) us0 (collectFollower P cfg rec f).
Proof.
  intros Hacc. eapply tracks_check; [apply tracks_follower|]. intros new addr _ [-> Hres]. rewrite app_nil_r.
  destruct (pSeal P addr (nlSession rec)) as [final|] eqn:Hs; [|by apply tracks_ret, delivers_err].
  cbv zeta. case_decide; [by apply tracks_ret, delivers_err|]. eapply tracks_check.
  - rewrite <- (app_nil_r us0). apply (tracks_collectTail f addr final Hres Hs);
      [by rewrite app_nil_r|apply reading_nil|lia|lia].
  - intros new n _ Hr. apply tracks_ret, delivers_ok. exists addr. simpl in *. by rewrite app_nil_r.
Qed.

Lemma tracks_collectFollowers us0 fs0 fs total covered :
  Forall accepted us0 → tailsUploaded P rec fs0 covered us0 →
  tracks (delivers us0 (λ new r, tailsUploaded P rec (fs0 ++ fs) r.2 (us0 ++ new))) us0
    (collectFollowers P cfg rec fs total covered).
Proof.
  revert us0 fs0 total covered. induction fs as [|f fs IH]; intros us0 fs0 total covered Hacc Ht; simpl.
  - apply tracks_ret, delivers_ok. simpl. by rewrite !app_nil_r.
  - eapply tracks_check; [by apply tracks_collectFollower|].
    intros new [n final] Hacc' (addr & Hres & Hs & frags & Htail & Hu). simpl in *.
    eapply tracks_mono; [apply (IH _ (fs0 ++ [f])); [by apply Forall_app|by econstructor]|].
    intros new' r _ Hr. by rewrite <- !app_assoc in *.
Qed.

(** *** The segments the followers hold *)

(** After [held], from the last error [err]. *)
Definition heldDone (us : list event) (held : list HeldSegment) (err : option recoveryError) (us' : list event)
    (r : Z * option recoveryError) : Prop :=
  ∃ new, us' = us ++ new ∧ Forall soundUpload new ∧ (err ≠ Some ErrOutOfRounds → r.2 ≠ Some ErrOutOfRounds)
    ∧ (r.2 = None → err = None ∧ Forall accepted new ∧ Forall (λ h, ∃ s, ParseScope (hsScope h) = Ok s) held
                    ∧ uploadedOf new = held ≫= heldItems).

Lemma heldDone_app us us1 held1 held2 err r1 us' r :
  heldDone us held1 err us1 r1 → heldDone us1 held2 r1.2 us' r → heldDone us (held1 ++ held2) err us' r.
Proof.
  intros (new1 & -> & Hs1 & He1 & Hok1) (new2 & -> & Hs2 & He2 & Hok2). exists (new1 ++ new2).
  split_and!; [by rewrite app_assoc|by apply Forall_app|by auto|]. intros Hn.
  destruct (Hok2 Hn) as (Hn1 & Ha2 & Hp2 & Hu2). destruct (Hok1 Hn1) as (-> & Ha1 & Hp1 & Hu1).
  split_and!; [done|by apply Forall_app..|]. unfold uploadedOf in *. by rewrite !bind_app, Hu1, Hu2.
Qed.

Lemma tracks_collectHeld us held total err :
  tracks (heldDone us held err) us (collectHeld P held total err).
Proof.
  revert us total err. induction held as [|h held IH]; intros us total err; simpl.
  - apply tracks_ret. exists []. rewrite app_nil_r. by split_and!.
  - assert (∀ us1 total' err', heldDone us [h] err us1 (total', err') →
      tracks (heldDone us (h :: held) err) us1 (collectHeld P held total' err')) as Hstep.
    { intros us1 total' err' Hfirst. eapply tracks_weaken; [apply IH|]. intros us' r Hr.
      by apply (heldDone_app us us1 [h] held err (total', err')). }
    destruct (ParseScope (hsScope h)) as [s|e] eqn:Hs.
    + apply tracks_event. assert (heldItems h = [(s, hsEpoch h, hsSegment h)]) as Hi by (unfold heldItems; by rewrite Hs).
      destruct (pAppend _ _ _ _) eqn:Ea; apply Hstep; eexists;
        (split_and!; [reflexivity|by repeat constructor|done|]); simpl; try done;
        (intros ->; split_and!; [done|by repeat constructor|constructor; eauto|by rewrite Hi]).
    + apply Hstep. exists []. rewrite app_nil_r. by split_and!.
Qed.

Lemma tracks_collectAll us fs total err :
  tracks (λ us' r, ∃ helds, heldDone us (concat helds) err us' r
    ∧ (r.2 = None → Forall2 (λ f h, pHeld P f = Some h) fs helds)) us (collectAll P fs total err).
Proof.
  revert us total err. induction fs as [|f fs IH]; intros us total err; simpl.
  - apply tracks_ret. exists []. split; [|done]. exists []. rewrite app_nil_r. by split_and!.
  - destruct (pHeld P f) as [held|] eqn:Hh.
    + eapply tracks_bind; [apply tracks_collectHeld|]. intros us1 r1 Hfirst.
      eapply tracks_weaken; [apply IH|]. intros us' r (helds & Hrest & Hf). exists (held :: helds).
      split; [by eapply heldDone_app|]. intros Hn. constructor; auto.
    + eapply tracks_weaken; [apply IH|]. intros us' r (helds & (new & -> & Hs & He & Hok) & _). exists [].
      assert (r.2 ≠ None) as Hn by (intros Hn; by destruct (Hok Hn)).
      split; [|done]. exists new. split_and!; [done|done|intros _; by apply He|done].
Qed.

Lemma tracks_Collect :
  tracks (delivers [] (λ new _, heldUploaded P (nlFollowers rec) new)) [] (Collect P (nlFollowers rec)).
Proof.
  eapply tracks_bind; [apply tracks_collectAll|]. intros us [n err] (helds & (new & -> & Hs & He & Hok) & Hf).
  apply tracks_ret. exists new. simpl in *. destruct err as [e|].
  - split_and!; [done..| |done]. intros [= ->]. by apply He.
  - destruct (Hok eq_refl) as (_ & Ha & Hp & Hu). split_and!; [done..|]. intros ? [= <-]. split; [done|].
    exists helds. split_and!; auto.
Qed.

Lemma tracks_collectRecord :
  tracks (delivers [] (λ new r, recordUploaded P rec r.2 new)) [] (collectRecord P cfg rec).
Proof.
  unfold collectRecord, recordUploaded. case_decide as Hf.
  { apply tracks_ret, delivers_ok. split; [done|]. rewrite Hf. case_match; [constructor|]. split; [done|]. by exists []. }
  destruct (sessionProto _) eqn:Hp.
  - unfold collectSealed. case_match; [|by apply tracks_ret, delivers_err].
    eapply (tracks_weaken _ _ (delivers [] (λ new r, tailsUploaded P rec ([] ++ nlFollowers rec) r.2 ([] ++ new)))).
    + apply tracks_collectFollowers; [done|constructor].
    + intros us r (new & -> & Hs & Hne & Hok). exists new. split_and!; [done..|].
      intros a Ha. destruct (Hok a Ha). auto.
  - eapply tracks_check; [apply tracks_Collect|]. intros new n Hacc Hh. apply tracks_ret, delivers_ok. by rewrite app_nil_r.
Qed.

(** *** The whole recovery *)

(** How a recovery ends: its uploads are well-formed; on success a record that was not
    sealed is uploaded; and followers give up the session only after a success. *)
Definition recovered (us : list event) (r : result recoveryError Z) : Prop :=
  r ≠ Err ErrOutOfRounds
  ∧ ∃ ups rcs, us = ups ++ rcs ∧ Forall soundUpload ups
    ∧ Forall (λ e, ∃ addr, e = Reclaimed addr (nlSession rec)) rcs
    ∧ (rcs = [] ∨ ∃ n, r = Ok n)
    ∧ (∀ n, r = Ok n → nlStatus rec = StatusSealed ∨ ∃ covered, recordUploaded P rec covered ups).

Lemma recovered_err us e : Forall soundUpload us → e ≠ ErrOutOfRounds → recovered us (Err e).
Proof.
  intros Hs He. split; [congruence|]. exists us, []. rewrite app_nil_r. split_and!; [done..|by left|done].
Qed.

Lemma tracks_reclaimAll us fs :
  tracks (λ us' _, ∃ rcs, us' = us ++ rcs ∧ Forall (λ e, ∃ addr, e = Reclaimed addr (nlSession rec)) rcs) us
    (reclaimAll cfg rec (nlSession rec) fs).
Proof.
  revert us. induction fs as [|f fs IH]; intros us; simpl.
  - apply tracks_ret. exists []. by rewrite app_nil_r.
  - eapply tracks_bind; [apply follower_quiet|]. intros us' [addr|e] (-> & _); [apply tracks_event|].
    + eapply tracks_weaken; [apply IH|]. intros us' _ (rcs & -> & Hr). exists (Reclaimed addr (nlSession rec) :: rcs).
      rewrite <- app_assoc. split; [done|]. constructor; eauto.
    + apply IH.
Qed.

Lemma tracks_recoverRecord node session :
  tracks recovered [] (recoverRecord P order cfg node session rec).
Proof.
  unfold recoverRecord. case_decide as Hid; [by apply tracks_ret, recovered_err|].
  assert (node = nlNode rec ∧ session = nlSession rec) as [-> ->].
  { split; symmetry; apply dec_stable; tauto. }
  case_decide as Hsealed.
  { apply tracks_ret. split; [done|]. exists [], []. split_and!; [done..|by left|by left]. }
  case_decide; [by apply tracks_ret, recovered_err|].
  eapply tracks_then; [apply tracks_checkSession| |by intros; apply recovered_err]. intros ? ? _ _ ->.
  case_decide; [by apply tracks_ret, recovered_err|].
  eapply tracks_then; [| |by intros; apply recovered_err].
  { apply tracks_logOp, logs_SetStatus. intros d r ms Hd Hr. by constructor. }
  intros ? ? _ _ ->. eapply tracks_then; [apply tracks_collectRecord| |by intros; apply recovered_err].
  intros ups [n covered] Hs _ Hup. simpl in Hup.
  eapply tracks_then; [| |by intros ? e ??; apply recovered_err; [by apply Forall_app|]].
  { apply tracks_logOp, logs_SealCovered. intros d r ms Hd. by constructor. }
  intros ? ? _ _ ->. rewrite app_nil_r. eapply tracks_bind; [apply tracks_reclaimAll|].
  intros us' _ (rcs & -> & Hr). apply tracks_ret. split; [done|]. exists ups, rcs. split_and!; eauto.
Qed.
End record.

(** ** Recovery succeeds *)

Section completes.
Context `{Etag} `{leaseCodec} `{Codec RecoveryAddress} `{Codec LogRecord} {C : Type}.
Context (P : peers) (order : list string → list string) (cfg : recoveryConfig) (t : time) (cb : C → bool).

(** What holds on every path holds at the end of a run. *)
Lemma safe_alone {M R} I (Q : M → R → Prop) (p : prog C M R) st m st' m' r :
  safe I Q p m → alone t cb p st m = Some (st', m', r) → Q m' r.
Proof.
  revert st m. induction p as [x|key k IH|op k IH|pre k IH|k IH|k IH|T f k IH|T c f k IH|c k IH]; intros st m Hs Ha;
    simpl in Hs, Ha; eauto.
  - by injection Ha as <- <- <-.
  - eapply IH; [|exact Ha]. apply Hs. intros d e. unfold fetch. destruct (st !! key); [|done]. by intros [= -> <-].
  - destruct (perform op st) as [st1 x]. destruct Hs. eauto.
  - destruct (f m) as [x m1] eqn:E. simpl in *. eauto.
  - destruct (f m) as [[x m1]|] eqn:E; [|done]. destruct Hs. eauto.
Qed.

(** Alone, from the bucket [st], the program succeeds. *)
Definition succeeds {A} (Q : store → A → Prop) (p : prog C recState (result recoveryError A)) (st : store) : Prop :=
  ∀ m, ∃ st' m' a, alone t cb p st m = Some (st', m', Ok a) ∧ Q st' a.

Lemma succeeds_ret {A} (Q : store → A → Prop) a st : Q st a → succeeds Q (mret (Ok a)) st.
Proof. intros HQ m. by exists st, m, a. Qed.

Lemma succeeds_check {A B} (Q : store → A → Prop) (Q' : store → B → Prop) p g st :
  succeeds Q p st → (∀ st' a, Q st' a → succeeds Q' (g a) st') → succeeds Q' (check p g) st.
Proof.
  intros Hp Hg m. destruct (Hp m) as (st1 & m1 & a & E & HQ). rewrite alone_check, E. simpl. by apply Hg.
Qed.

Hypothesis appends : ∀ s epoch xs, pAppendBatch P s epoch xs ≠ AppendFailed.

Lemma succeeds_flush b st : succeeds (λ st' _, st' = st) (flush P b) st.
Proof.
  unfold flush. case_decide; [by apply succeeds_ret|]. intros m. simpl.
  destruct (pAppendBatch _ _ _ _) eqn:E; [| |by apply appends in E]; simpl; eauto.
Qed.

Definition decodable (x : bytes) : Prop := ∃ h p, Decode x = Ok (h, p).

Lemma succeeds_add b s epoch x st : decodable x → succeeds (λ st' _, st' = st) (add P b s epoch x) st.
Proof.
  intros (h & p & Hd). unfold add. rewrite Hd. apply (succeeds_check (λ st' _, st' = st)).
  - destruct (breaks _ _ _ _ _); [apply succeeds_flush|by apply succeeds_ret].
  - intros st' b' ->. destruct (full _ _); [apply succeeds_flush|by apply succeeds_ret].
Qed.

Lemma succeeds_addAll b s epoch xs st : Forall decodable xs → succeeds (λ st' _, st' = st) (addAll P b s epoch xs) st.
Proof.
  intros Hd. revert b. induction Hd as [|x xs Hx Hd IH]; intros b; [by apply succeeds_ret|].
  eapply succeeds_check; [by apply succeeds_add|]. intros st' b' ->. apply IH.
Qed.

(** A page that follows [after]. *)
Definition goodPage (after final : Z) (page : list SessionFragment) : Prop :=
  page ≠ [] ∧ sfSequence <$> page = seqZ (after + 1) (zlen page) ∧ after + zlen page ≤ final
  ∧ Forall (λ f, (∃ s, ParseScope (sfScope f) = Ok s) ∧ Forall decodable (sfSegments f)) page.

Lemma succeeds_addPage b after final page st :
  sfSequence <$> page = seqZ (after + 1) (zlen page) → after + zlen page ≤ final → 0 ≤ after → final < 2 ^ 64 - 1 →
  Forall (λ f, (∃ s, ParseScope (sfScope f) = Ok s) ∧ Forall decodable (sfSegments f)) page →
  succeeds (λ st' r, st' = st ∧ r.2 = after + zlen page) (addPage P b after final page) st.
Proof.
  intros Hn Hle Ha Hf Hp. revert b after Hn Hle Ha. induction Hp as [|f page [[s Hs] Hd] Hp IH]; intros b after Hn Hle Ha.
  - apply succeeds_ret. simpl. split; [done|lia].
  - rewrite length_cons in *. rewrite fmap_cons, seqZ_cons in Hn by lia. injection Hn as Hseq Hn.
    cbn [addPage]. rewrite u64_id by lia. rewrite decide_False by lia. rewrite Hs.
    eapply succeeds_check; [by apply succeeds_addAll|]. intros st' b' ->. intros m.
    destruct (IH b' (sfSequence f)) with (m := m) as (st1 & m1 & a & E & -> & Ea).
    + rewrite Hn. f_equal; lia.
    + lia.
    + lia.
    + exists st, m1, a. split; [done|]. split; [done|lia].
Qed.

(** *** The node log of the session *)

Section session.
Context (node session : string).
Abbreviation key := (logKey node session).
Hypothesis key_ok : objectKey logStore key = Ok key.

(** The bucket before the recovery. *)
Context (st0 : store).

(** Nothing but the session's record has changed. *)
Definition framed (st : store) : Prop := ∀ k, k ≠ key → st !! k = st0 !! k.

Lemma framed_insert d st : framed st → framed (<[key := d]> st).
Proof. intros Hf k Hk. rewrite lookup_insert_ne by done. by apply Hf. Qed.

(** The bucket holds a record of the session with this status. *)
Definition logged (status : string → Prop) (st : store) : Prop :=
  framed st ∧ ∃ r : LogRecord, st !! key = Some (marshal r) ∧ status (nlStatus r).

(** Reading a record and replacing it. *)
Lemma alone_logGet r st m : st !! key = Some (marshal r) →
  alone (C := C) (M := recState) t cb (logGet node session) st m = Some (st, m, Ok (r, etag (marshal r))).
Proof.
  intros Hr. unfold logGet, GetVersion. rewrite key_ok. cbn. unfold fetch. rewrite Hr. cbn. by rewrite unmarshal_marshal.
Qed.

Lemma alone_logCas r r' st m : st !! key = Some (marshal r) →
  alone (C := C) (M := recState) t cb (logCas node session r' (etag (marshal r))) st m
  = Some (<[key := marshal r']> st, m, Ok (etag (marshal r'))).
Proof.
  intros Hr. unfold logCas, write. cbn [opKey]. rewrite key_ok. cbn. rewrite Hr, decide_True by done. done.
Qed.

Lemma succeeds_SetStatus st :
  logged (λ s, s ≠ StatusSealed) st →
  succeeds (λ st' _, logged (λ s, s = StatusRecovering) st') (logOp (SetStatus node session StatusRecovering)) st.
Proof.
  intros (Hfr & r & Hr & Hs) m. unfold logOp. rewrite alone_mbind. unfold SetStatus.
  rewrite alone_check, (alone_logGet r) by done. cbn [mbind option_bind]. rewrite decide_False by naive_solver.
  rewrite alone_mbind. cbn [now alone mbind option_bind]. rewrite alone_mbind, alone_logCas by done.
  cbn. eexists _, _, _. split; [done|]. split; [by apply framed_insert|]. eexists. by rewrite lookup_insert_eq.
Qed.

Lemma succeeds_SealCovered covered st :
  logged (λ _, True) st →
  succeeds (λ st' _, framed st' ∧ ∃ r, st' !! key = Some (marshal r) ∧ nlStatus r = StatusSealed ∧ nlCoveredSeq r = covered)
    (logOp (SealCovered node session covered)) st.
Proof.
  intros (Hfr & r & Hr & Hs) m. unfold logOp. rewrite alone_mbind. unfold SealCovered.
  rewrite alone_check, (alone_logGet r) by done. cbn [mbind option_bind].
  rewrite alone_mbind. cbn [now alone mbind option_bind]. rewrite alone_mbind, alone_logCas by done.
  cbn. eexists _, _, _. split; [done|]. split; [by apply framed_insert|]. eexists. by rewrite lookup_insert_eq.
Qed.

Lemma succeeds_Checkpoint f after st :
  logged (λ s, s = StatusRecovering) st →
  succeeds (λ st' _, logged (λ s, s = StatusRecovering) st') (logOp (Checkpoint node session f after)) st.
Proof.
  intros (Hfr & r & Hr & Hs) m. unfold logOp. rewrite alone_mbind. unfold Checkpoint. cbn [checkpointLoop].
  rewrite alone_check, (alone_logGet r) by done. cbn [mbind option_bind]. case_decide.
  { cbn. eexists _, _, _. split; [done|]. split; [done|]. by exists r. }
  rewrite decide_False by naive_solver. rewrite alone_mbind. cbn [now alone mbind option_bind].
  rewrite alone_mbind, alone_logCas by done.
  cbn. eexists _, _, _. split; [done|]. split; [by apply framed_insert|]. eexists. by rewrite lookup_insert_eq.
Qed.

(** *** The followers *)

Context (rec : LogRecord).
Hypothesis rec_node : nlNode rec = node.
Hypothesis rec_session : nlSession rec = session.

(** The address at which the bucket says that a follower can be reached: the one it
    published for its recovery, else the one of its lease. *)
Definition addressIn (st : store) (id : PeerIdentity) : option string :=
  match objectKey nodeStore (recoveryAddressKey id) with
  | Err _ => None
  | Ok k =>
      match st !! k with
      | Some b =>
          a ← (unmarshal b : option RecoveryAddress);
          if decide (aPeer a ≠ id ∨ aAddress a = EmptyString) then None else Some (aAddress a)
      | None =>
          d ← st !! leaseKey (pNode id);
          l ← (unmarshal d : option NodeLease);
          if decide (lNode l ≠ pNode id ∨ lInstance l ≠ pInstance id ∨ lPeerURL l = EmptyString) then None
          else Some (lPeerURL l)
      end
  end.

(** Whom a call to the follower is for: by its name in the record before identities,
    else the address and the proof of the identity in the record. *)
Definition targetIn (st : store) (f : string) : option target :=
  if decide (nlProtoVersion rec ≠ ProtoVersionIdentity) then Some (MkTarget None f)
  else
    id ← nlFollowerRefs rec !! f;
    if decide (pNode id = EmptyString ∨ pInstance id = EmptyString ∨ rcLease cfg = false) then None
    else MkTarget (Some id) <$> addressIn st id.

Lemma nodes_key s : "nodes/" +:+ s ≠ key.
Proof. unfold logKey. intros E. by apply (f_equal (hasPrefix "nodes/")) in E. Qed.

Lemma addressIn_framed st id : framed st → addressIn st id = addressIn st0 id.
Proof.
  intros Hf. unfold addressIn. destruct (objectKey nodeStore (recoveryAddressKey id)) as [k|] eqn:Hk; [|done]. apply objectKey_Ok in Hk as [-> _].
  by rewrite (Hf (recoveryAddressKey id)), (Hf (leaseKey (pNode id))) by apply nodes_key.
Qed.

Lemma targetIn_framed st f : framed st → targetIn st f = targetIn st0 f.
Proof. intros Hf. unfold targetIn. case_decide; [done|]. destruct (_ !! f); [|done]. simpl. by rewrite addressIn_framed. Qed.

Lemma alone_resolve id addr st m :
  addressIn st id = Some addr → ¬ (pNode id = EmptyString ∨ pInstance id = EmptyString) →
  alone t cb (onLease (ResolveRecoveryAddress (C := C) id)) st m = Some (st, m, Ok addr).
Proof.
  intros Ha Hne. unfold ResolveRecoveryAddress. rewrite decide_False by done. unfold Get, GetVersion.
  unfold addressIn in Ha. destruct (objectKey nodeStore (recoveryAddressKey id)) as [k|]; [|done]. cbn. unfold fetch. destruct (st !! k) as [b|].
  - cbn. destruct (unmarshal b) as [a|]; [|done]. simpl in Ha. case_decide; [done|]. by injection Ha as <-.
  - cbn. unfold fetch. destruct (st !! leaseKey (pNode id)) as [d|]; [|done]. cbn. simpl in Ha.
    destruct (unmarshal d) as [l|]; [|done]. simpl in Ha. case_decide; [done|]. by injection Ha as <-.
Qed.

Lemma succeeds_follower f a st :
  framed st → targetIn st0 f = Some a → succeeds (λ st' a', st' = st ∧ a' = a) (follower cfg rec f) st.
Proof.
  intros Hfr Ha. rewrite <- (targetIn_framed st) in Ha by done. unfold targetIn in Ha. unfold follower.
  case_decide as Hp; [injection Ha as <-; by apply succeeds_ret|].
  destruct (nlFollowerRefs rec !! f) as [id|]; [|done]. simpl in Ha. case_decide as Hid; [done|].
  destruct (addressIn st id) as [addr|] eqn:E; [|done]. injection Ha as <-.
  intros m. rewrite alone_mbind, (alone_resolve id addr) by tauto.
  cbn. by eexists _, _, _.
Qed.

(** A follower that can be found, sealed and read to its end. *)
Definition readable (f : string) (a : target) (final : Z) : Prop :=
  targetIn st0 f = Some a ∧ pSeal P a session = Some final ∧ 0 ≤ progressOf rec f ≤ final ∧ final < 2 ^ 64 - 1
  ∧ ∀ after, progressOf rec f ≤ after < final → ∃ page, pTail P a session after = Some page ∧ goodPage after final page.

Abbreviation recovering := (logged (λ s, s = StatusRecovering)).

Lemma succeeds_collectPage f after final page st :
  goodPage after final page → 0 ≤ after → final < 2 ^ 64 - 1 → recovering st →
  succeeds (λ st' r, recovering st' ∧ r.1 = after + zlen page) (collectPage P rec f after final page) st.
Proof.
  intros (_ & Hn & Hle & Hp) Ha Hf Hst. eapply succeeds_check; [by apply succeeds_addPage|].
  intros st' [b after'] [-> Ea]. simpl in Ea. eapply succeeds_check; [apply succeeds_flush|]. intros st' b' ->.
  rewrite rec_node, rec_session. eapply succeeds_check; [by apply succeeds_Checkpoint|].
  intros st' ? Hst'. by apply succeeds_ret.
Qed.

Lemma succeeds_collectTail fuel f a after final total st :
  readable f a final → progressOf rec f ≤ after ≤ final → final - after ≤ Z.of_nat fuel → recovering st →
  succeeds (λ st' _, recovering st') (collectTail P fuel rec f a after final total) st.
Proof.
  intros (_ & Hs & H01 & Hmax & Hr). revert after total st. induction fuel as [|fuel IH]; intros after total st Ha Hfuel Hst;
    cbn [collectTail]; (case_decide; [by apply succeeds_ret|]); [lia|].
  destruct (Hr after) as (page & Hp & Hg); [lia|]. rewrite rec_session, Hp.
  destruct page as [|x page]; [by destruct Hg|].
  eapply succeeds_check; [apply succeeds_collectPage; [exact Hg|lia..|done]|].
  intros st' [after' n] [Hst' Ea]. simpl in Ea. destruct Hg as (_ & _ & Hle & _). rewrite length_cons in *.
  apply IH; [lia|lia|done].
Qed.

Lemma succeeds_collectFollower f a final st :
  readable f a final → recovering st →
  succeeds (λ st' r, recovering st' ∧ r.2 = final) (collectFollower P cfg rec f) st.
Proof.
  intros Hr Hst. unfold collectFollower. eapply succeeds_check; [apply (succeeds_follower f a); [apply Hst|apply Hr]|].
  intros st' a' [-> ->]. pose proof Hr as (_ & Hs & Hp & Hrest). rewrite rec_session, Hs. cbv zeta. rewrite decide_False by lia.
  eapply succeeds_check; [apply succeeds_collectTail; [done|lia|lia|done]|]. intros st' n Hst'. by apply succeeds_ret.
Qed.

(** The end that the follower reported. *)
Definition endOf (f : string) : option Z := a ← targetIn st0 f; pSeal P a session.

Lemma succeeds_collectFollowers fs total covered st :
  Forall (λ f, ∃ a final, readable f a final) fs → recovering st →
  succeeds (λ st' r, recovering st' ∧ (∀ f, f ∈ fs → r.2 !! f = endOf f)
    ∧ (∀ f, f ∉ fs → r.2 !! f = covered !! f)) (collectFollowers P cfg rec fs total covered) st.
Proof.
  intros Hfs. revert total covered st. induction Hfs as [|f fs (a & final & Hf) Hfs IH]; intros total covered st Hst.
  - apply succeeds_ret. split_and!; [done|set_solver|done].
  - eapply succeeds_check; [by eapply succeeds_collectFollower|]. intros st1 [n final'] [Hst1 E]. simpl in E. subst final'.
    intros m. destruct (IH (total + n) (<[f := final]> covered) st1 Hst1 m) as (st' & m' & r & Ea & Hst' & Hin & Hout).
    exists st', m', r. split_and!; [done..| |].
    + intros g [->|Hg]%elem_of_cons; [|by apply Hin]. destruct (decide (f ∈ fs)) as [?|Hn]; [by apply Hin|].
      rewrite Hout, lookup_insert_eq by done. destruct Hf as (Et & Es & _). unfold endOf. rewrite Et. simpl. by rewrite Es.
    + intros g Hg. rewrite not_elem_of_cons in Hg. rewrite Hout, lookup_insert_ne by naive_solver. done.
Qed.

Lemma alone_follower f st m :
  ∃ m' r, alone t cb (follower (C := C) cfg rec f) st m = Some (st, m', r).
Proof.
  unfold follower. case_decide; [by eexists _, _|]. destruct (_ !! f) as [id|]; [|by eexists _, _].
  case_decide; [by eexists _, _|]. unfold ResolveRecoveryAddress. case_decide; [by eexists _, _|]. unfold Get, GetVersion.
  destruct (objectKey nodeStore (recoveryAddressKey id)) as [k|e]; cbn.
  - unfold fetch at 1. destruct (st !! k) as [b|]; cbn; by eexists _, _.
  - destruct e as [| | |e]; [by eexists _, _..|]. destruct e; by eexists _, _.
Qed.

Lemma succeeds_reclaimAll {A} (Q : store → A → Prop) fs a st :
  Q st a → succeeds Q (reclaimAll cfg rec session fs ≫= λ _, mret (Ok a)) st.
Proof.
  intros HQ. induction fs as [|f fs IH]; intros m; [by eexists _, _, _|].
  cbn [reclaimAll]. destruct (alone_follower f st m) as (m1 & r & E). rewrite alone_mbind.
  rewrite (alone_seq _ _ _ _ _ _ _ _ _ E). destruct r as [addr|e].
  - specialize (IH (MkRec (rsLog m1 ++ [Reclaimed addr session]) (rsLease m1))). rewrite alone_mbind in IH. exact IH.
  - specialize (IH m1). rewrite alone_mbind in IH. exact IH.
Qed.

(** *** Segments that the followers hold *)

Hypothesis held_appends : ∀ s epoch x, pAppend P s epoch x ≠ AppendFailed.

(** A follower of the first protocol that answers with cells that exist. *)
Definition holds (f : string) : Prop :=
  ∃ held, pHeld P f = Some held ∧ Forall (λ h, ∃ s, ParseScope (hsScope h) = Ok s) held.

Lemma alone_collectHeld held total st m :
  Forall (λ h, ∃ s, ParseScope (hsScope h) = Ok s) held →
  ∃ m' n, alone t cb (collectHeld (C := C) P held total None) st m = Some (st, m', (n, None)).
Proof.
  intros Hh. revert total m. induction Hh as [|h held [s Hs] _ IH]; intros total m; [by eexists _, _|].
  cbn [collectHeld]. rewrite Hs. unfold append. cbn.
  destruct (pAppend _ _ _ _) eqn:E; [| |by apply held_appends in E]; apply IH.
Qed.

Lemma alone_collectAll fs total st m :
  Forall holds fs → ∃ m' n, alone t cb (collectAll (C := C) P fs total None) st m = Some (st, m', (n, None)).
Proof.
  intros Hf. revert total m. induction Hf as [|f fs (held & Hh & Hp) _ IH]; intros total m; [by eexists _, _|].
  cbn [collectAll]. rewrite Hh. destruct (alone_collectHeld held total st m Hp) as (m1 & n & E).
  rewrite (alone_seq _ _ _ _ _ _ _ _ _ E). apply IH.
Qed.

Lemma succeeds_Collect st : Forall holds (nlFollowers rec) → succeeds (λ st' _, st' = st) (Collect P (nlFollowers rec)) st.
Proof.
  intros Hf m. unfold Collect. destruct (alone_collectAll _ 0 st m Hf) as (m' & n & E).
  rewrite (alone_seq _ _ _ _ _ _ _ _ _ E). by eexists _, _, _.
Qed.

(** *** The record *)

(** The session is not this process's, and the node's lease is gone, expired or of
    another session. *)
Definition lost (st : store) (m : recState) : Prop :=
  rcLease cfg = true →
  ¬ (node = cNodeID (lCfg (rsLease m)) ∧ session = cSession (lCfg (rsLease m)))
  ∧ match st !! leaseKey node with
    | None => True
    | Some d => ∃ l, unmarshal d = Some l ∧ lNode l = node ∧ (leaseLive l t = false ∨ lSession l ≠ session)
    end.

Lemma alone_checkSession st m :
  lost st m → ∃ m', alone t cb (checkSession (C := C) cfg node session) st m = Some (st, m', Ok tt).
Proof.
  intros Hl. unfold checkSession. destruct (rcLease cfg) eqn:Hc; [|by eexists]. destruct (Hl Hc) as [Hown Hst].
  cbn [negb]. rewrite alone_mbind. cbn [onLease zoom config atomic alone mbind option_bind]. rewrite decide_False by done.
  rewrite alone_mbind. unfold leaseGet. cbn. unfold fetch. destruct (st !! leaseKey node) as [d|]; [|by eexists].
  destruct Hst as (l & Hd & Hn & Hlive). cbn. rewrite Hd. cbn. rewrite decide_False by naive_solver. cbn.
  destruct Hlive as [->|Hs]; [by eexists|]. rewrite (bool_decide_eq_false_2 _ Hs), andb_false_r. by eexists.
Qed.

(** What recovery needs of the followers, by the protocol of the record. *)
Definition recoverable : Prop :=
  if sessionProto (nlProtoVersion rec) then
    rcSealed cfg = true ∧ Forall (λ f, ∃ a final, readable f a final) (nlFollowers rec)
    ∧ (nlProtoVersion rec = ProtoVersionIdentity →
       nlFollowers rec ≠ [] ∧ size (nlFollowerRefs rec) = length (nlFollowers rec))
  else nlProtoVersion rec ∈ [EmptyString; ProtoVersionLegacy] ∧ Forall holds (nlFollowers rec).

Lemma succeeds_collectRecord st :
  recoverable → recovering st →
  succeeds (λ st' r, recovering st' ∧ (sessionProto (nlProtoVersion rec) = true →
    ∀ f, f ∈ nlFollowers rec → r.2 !! f = endOf f)) (collectRecord P cfg rec) st.
Proof.
  unfold recoverable. intros Hrec Hst. unfold collectRecord. case_decide as E; [apply succeeds_ret; rewrite E; set_solver|].
  destruct (sessionProto _).
  - destruct Hrec as (Hsd & Hfs & _). unfold collectSealed. rewrite Hsd. intros m.
    destruct (succeeds_collectFollowers _ 0 ∅ st Hfs Hst m) as (st' & m' & r & Ea & Hst' & Hin & _). eauto 10.
  - eapply succeeds_check; [apply succeeds_Collect, Hrec|]. intros st' n ->. by apply succeeds_ret.
Qed.

(** The session is sealed, and covered as far as its followers go. *)
Definition sealedRight (st : store) : Prop :=
  ∃ r : LogRecord, st !! key = Some (marshal r) ∧ nlStatus r = StatusSealed
    ∧ (sessionProto (nlProtoVersion rec) = true → ∀ f, f ∈ nlFollowers rec → nlCoveredSeq r !! f = endOf f).

Lemma alone_recoverRecord m :
  st0 !! key = Some (marshal rec) → nlStatus rec ≠ StatusSealed → lost st0 m → recoverable →
  ∃ st' m' n, alone t cb (recoverRecord P order cfg node session rec) st0 m = Some (st', m', Ok n)
    ∧ framed st' ∧ sealedRight st'.
Proof.
  intros Hst Hopen Hlost Hrec.
  unfold recoverRecord. rewrite decide_False by (rewrite rec_node, rec_session; naive_solver).
  rewrite decide_False by done. rewrite decide_False.
  2: { intros [Ep Hens]. unfold recoverable in Hrec. rewrite Ep in Hrec. destruct Hrec as (_ & _ & Href). naive_solver. }
  rewrite alone_check. destruct (alone_checkSession st0 m Hlost) as [m1 ->]. cbn [mbind option_bind].
  rewrite decide_False.
  2: { intros (Hn1 & Hn2 & Hp). unfold recoverable in Hrec. rewrite Hp in Hrec. destruct Hrec as [Hin _]. set_solver. }
  enough (succeeds (λ st' _, framed st' ∧ sealedRight st')
    (_ ←! logOp (SetStatus node session StatusRecovering); '(n, covered) ←! collectRecord P cfg rec;
     _ ←! logOp (SealCovered node session covered);
     reclaimAll cfg rec session (order (map_to_list covered).*1) ≫= λ _, mret (Ok n))%go st0) as Hs by apply Hs.
  eapply succeeds_check; [apply succeeds_SetStatus; split; [done|by exists rec]|]. intros st1 ? Hst1.
  eapply succeeds_check; [by apply succeeds_collectRecord|]. intros st2 [n covered] [(Hf2 & r2 & Hr2 & _) Hcov].
  eapply succeeds_check; [apply succeeds_SealCovered; split; [done|by exists r2]|]. intros st3 ? (Hf3 & r & Hr & Hs & <-).
  apply succeeds_reclaimAll. split; [done|]. by exists r.
Qed.
End session.
End completes.

(** ** Properties *)

(** C8: recovery uploads before it forgets: whatever the bucket, the followers and the
    uploads answer, with sequence numbers below the largest one, recovering a record
    ends without running out of rounds; it writes a follower's progress only after
    every fragment up to there was uploaded or found deleted, seals the session only
    after the whole tail of every follower was, in order and in well-formed batches,
    and has followers give up their copies only in a recovery that succeeds. *)
Theorem recovery_uploads_first `{Etag} `{leaseCodec} `{Codec RecoveryAddress} `{Codec LogRecord} {C : Type}
    P order cfg node session rec m :
  (∀ addr session final, pSeal P addr session = Some final → final < 2 ^ 64 - 1) → (∀ f, 0 ≤ progressOf rec f) →
  safe (C := C) (λ m' op, ∃ us, rsLog m' = rsLog m ++ us ∧ allowed P rec us op)
    (λ m' r, ∃ us, rsLog m' = rsLog m ++ us ∧ recovered P rec us r) (recoverRecord P order cfg node session rec) m.
Proof. intros Hs Hp. apply tracks_recoverRecord; [done..|]. by rewrite app_nil_r. Qed.

(** C27: recovery of a lost session succeeds, for every protocol: a process that runs
    alone recovers an unsealed record when its followers can be found, sealed and read
    to their ends from the recorded progress on (or, in the first protocol, tell what
    they hold), the cells parse, the segments decode and no upload fails. The names of
    node and session can be part of an object's key, the process
    can seal sessions ([rcSealed]), the session is not its own nor of a live lease,
    sequence numbers are below [2^64 - 1], and a record with identities has one for each
    of its followers. Then everything the followers held after the recorded progress is
    uploaded, the record is sealed and covers each follower of a sealed session up to
    the end it reported, and nothing else in the bucket has changed. *)
Theorem recovery_completes `{Etag} `{leaseCodec} `{Codec RecoveryAddress} `{Codec LogRecord} {C : Type}
    P order cfg t (cb : C → bool) node session rec st m :
  (∀ addr session final, pSeal P addr session = Some final → final < 2 ^ 64 - 1) → (∀ f, 0 ≤ progressOf rec f) →
  (∀ s epoch xs, pAppendBatch P s epoch xs ≠ AppendFailed) → (∀ s epoch x, pAppend P s epoch x ≠ AppendFailed) →
  objectKey logStore (logKey node session) = Ok (logKey node session) →
  nlNode rec = node → nlSession rec = session →
  st !! logKey node session = Some (marshal rec) → nlStatus rec ≠ StatusSealed →
  lost cfg t node session st m → recoverable P cfg session st rec →
  ∃ st' m' n ups rcs covered, alone t cb (Recover P order cfg node session) st m = Some (st', m', Ok n)
    ∧ rsLog m' = rsLog m ++ ups ++ rcs ∧ recordUploaded P rec covered ups
    ∧ framed node session st st' ∧ sealedRight P cfg node session st rec st'.
Proof.
  intros Hseq Hprog Happ Hone Hkey En Es Hst Hopen Hlost Hrec.
  destruct (alone_recoverRecord P order cfg t cb Happ node session Hkey st rec En Es Hone m Hst Hopen Hlost Hrec)
    as (st' & m' & n & E & Hfr & Hright).
  assert (safe (C := C) (λ m' op, ∃ us, rsLog m' = rsLog m ++ us ∧ allowed P rec us op)
    (λ m' r, ∃ us, rsLog m' = rsLog m ++ us ∧ recovered P rec us r) (recoverRecord P order cfg node session rec) m) as Hsafe.
  { apply tracks_recoverRecord; [done..|]. by rewrite app_nil_r. }
  destruct (safe_alone t cb _ _ _ st m st' m' _ Hsafe E) as (us & Hlog & _ & ups & rcs & -> & _ & _ & _ & Hup).
  destruct (Hup n eq_refl) as [?|[covered Hcov]]; [done|]. exists st', m', n, ups, rcs, covered. split_and!; try done.
  unfold Recover. rewrite (alone_seq _ _ _ _ _ _ _ _ _ (alone_logGet _ _ _ _ Hkey _ _ _ Hst)). exact E.
Qed.

(** Copying one scope out of a live session ends: whatever the followers answer,
    the loops over their tails never run out of rounds and nothing is written to the
    node log; on success the uploads are segments of that scope, all accepted, and
    the result is their number. *)
Theorem live_scope_ends `{Etag} `{leaseCodec} `{Codec RecoveryAddress} {C : Type} P cfg rec s m :
  safe (C := C) (λ _ _, False)
    (λ m' r, ∃ us, rsLog m' = rsLog m ++ us ∧ r ≠ Err ErrOutOfRounds ∧ ∀ n, r = Ok n → counted s 0 us n)
    (RecoverLiveScope P cfg rec s) m.
Proof.
  pose proof (tracks_RecoverLiveScope (C := C) P cfg rec s (rsLog m)) as Hp.
  eapply safe_mono; [| |by apply Hp; rewrite app_nil_r]; [by intros ?? (? & ? & [])|].
  intros m' r (us & Hm & new & -> & _ & Hne & Hok). exists new. split_and!; [done..|]. intros n Hn. by apply Hok.
Qed.

(** *** A session with two fragments *)

#[global] Instance RecoveryAddress_eq_dec : EqDecision RecoveryAddress.
Proof. solve_decision. Defined.
#[global] Instance RecoveryAddress_countable : Countable RecoveryAddress.
Proof. refine (inj_countable' (λ a, (aPeer a, aAddress a)) (λ '(p, a), MkAddress p a) _). by intros []. Defined.

Section example.
#[local] Existing Instance contentTag.
#[local] Instance exampleLease : leaseCodec := bitCodec NodeLease.
#[local] Instance exampleAddress : Codec RecoveryAddress := bitCodec RecoveryAddress.
#[local] Instance exampleLog : Codec LogRecord := bitCodec LogRecord.

Definition deltaAt (tx : Z) : bytes := Encode (MkHeader 1 KindDelta 0 7 tx tx 0 0) (bs "page").
Definition fragmentAt (n : Z) : SessionFragment := MkFragment n "app/room/a" 7 [deltaAt n].

(** The follower [f1] holds the fragments 1 and 2, a page each. *)
Definition examplePeers : peers := {|
  pSeal addr _ := if decide (tgAddr addr = "f1") then Some 2 else None;
  pTail _ _ after := Some [fragmentAt (after + 1)];
  pHead _ _ := None;
  pTailOpen _ _ _ _ _ _ := None;
  pHeld _ := None;
  pAppend _ _ _ := Appended;
  pAppendBatch _ _ _ := Appended;
|}.

Definition exampleConfig : recoveryConfig := MkRecovery true false true false.
Definition exampleRecord : LogRecord :=
  MkLog None "n1" "s1" 7 ∅ ∅ ["f1"] StatusOpen ProtoVersionSession 0 ∅.
Definition exampleState : recState :=
  MkRec [] (NewManager (MkLeaseConfig "n2" "s2" EmptyString EmptyString EmptyString (15 * Second) EmptyString)).

Lemma example_seq addr session final : pSeal examplePeers addr session = Some final → final < 2 ^ 64 - 1.
Proof. simpl. case_decide; [|done]. intros [= <-]. lia. Qed.

Lemma example_progress f : 0 ≤ progressOf exampleRecord f.
Proof. unfold progressOf. simpl. by rewrite lookup_empty. Qed.

(** The same session when its follower has an identity and a published address. *)
Definition exampleId : PeerIdentity := MkPeer "n3" "i3".
Definition identityRecord : LogRecord :=
  MkLog None "n1" "s1" 7 {[ "node3" := exampleId ]} ∅ ["node3"] StatusOpen ProtoVersionIdentity 0 ∅.
Definition identityStore : store :=
  {[ logKey "n1" "s1" := marshal identityRecord; recoveryAddressKey exampleId := marshal (MkAddress exampleId "f1") ]}.

Lemma identity_target : targetIn exampleConfig identityRecord identityStore "node3" = Some (MkTarget (Some exampleId) "f1").
Proof. vm_compute. reflexivity. Qed.

Lemma identity_readable :
  readable examplePeers exampleConfig "s1" identityStore identityRecord "node3" (MkTarget (Some exampleId) "f1") 2.
Proof.
  split; [apply identity_target|].
  split_and!; [done|done|done|lia|]. intros after Ha. change (progressOf identityRecord "node3") with 0 in Ha.
  assert (Forall (λ f, (∃ s, ParseScope (sfScope f) = Ok s) ∧ Forall decodable (sfSegments f)) [fragmentAt (after + 1)]).
  { assert (after = 0 ∨ after = 1) as [-> | ->] by lia; repeat constructor; eexists; try eexists; vm_compute; reflexivity. }
  exists [fragmentAt (after + 1)]. split; [done|]. split_and!; try done. simpl. lia.
Qed.

Lemma recovery_uploads_first_witness :
  safe (C := Empty_set) (λ m' op, ∃ us, rsLog m' = [] ++ us ∧ allowed examplePeers exampleRecord us op)
    (λ m' r, ∃ us, rsLog m' = [] ++ us ∧ recovered examplePeers exampleRecord us r)
    (recoverRecord examplePeers id exampleConfig "n1" "s1" exampleRecord) exampleState.
Proof.
  apply (recovery_uploads_first examplePeers id exampleConfig "n1" "s1" exampleRecord exampleState).
  - apply example_seq.
  - apply example_progress.
Defined.

Lemma recovery_completes_witness :
  ∃ st' m' n ups rcs covered,
    alone (MkTime 0 0) (λ _ : Empty_set, true) (Recover examplePeers id exampleConfig "n1" "s1") identityStore exampleState
      = Some (st', m', Ok n)
    ∧ rsLog m' = [] ++ ups ++ rcs ∧ recordUploaded examplePeers identityRecord covered ups
    ∧ framed "n1" "s1" identityStore st' ∧ sealedRight examplePeers exampleConfig "n1" "s1" identityStore identityRecord st'.
Proof.
  apply (recovery_completes examplePeers id exampleConfig (MkTime 0 0) (λ _, true) "n1" "s1" identityRecord).
  - apply example_seq.
  - intros f. unfold progressOf. simpl. by rewrite lookup_empty.
  - done.
  - done.
  - vm_compute. reflexivity.
  - done.
  - done.
  - apply lookup_insert_eq.
  - done.
  - intros _. split; [by intros []|]. unfold identityStore. by rewrite lookup_insert_ne, lookup_singleton_ne.
  - split; [done|]. split; [constructor; [|constructor]; eexists _, _; apply identity_readable|]. by intros _.
Defined.
End example.
