(* ===== verification/Settled.v ===== *)
(** * What a sealed node log means ([internal/recovery], [internal/nodelog])

    A session whose owner was lost is recovered by any number of processes, at the same
    time or one after the other, any of which may stop half-way, over a bucket whose calls
    fail and whose writes may be late; each continues from the progress that the node
    log records. The theorem is about all of them together: when the record of the session
    is sealed, every fragment that one of its followers ever acknowledged has been uploaded
    by some process (or its cell was found deleted).

    [acked] is what the followers acknowledged; a recovery's view of the followers is
    [honest] about it. Sessions that their owner hands over itself are [handed]: nothing is
    said about them.

    The proof follows the state of knowledge ([facts]) of a run: what has been uploaded and
    the fixed parts of the records. It only grows, so what makes a write right stays
    right until the write arrives. *)

From S2P Require Import Prelude Cell Ltx Frames Bucket Fleet Objects Lease Discipline NodeLog Recovery.

(** ** Followers and what they acknowledged *)

(** A follower, by its address or by its identity. *)
Inductive holder : Type :=
| ByAddress (addr : string)
| ByIdentity (id : PeerIdentity).

Definition holderOf (t : target) : holder :=
  match tgIdentity t with Some id => ByIdentity id | None => ByAddress (tgAddr t) end.

(** Who the follower [f] of the record is. *)
Definition memberOf (r : LogRecord) (f : string) : option holder :=
  if decide (nlProtoVersion r ≠ ProtoVersionIdentity) then Some (ByAddress f)
  else ByIdentity <$> nlFollowerRefs r !! f.

Lemma resolves_member r f t : resolves r f t → memberOf r f = Some (holderOf t).
Proof.
  unfold resolves, memberOf, holderOf. case_decide; [by intros ->|]. intros [[id Hid] Hr]. rewrite <- Hr, Hid. done.
Qed.

Section settled.
Context (acked : holder → string → Z → SessionFragment → Prop) (handed : string → Prop).
Hypothesis acked_positive : ∀ h session n f, acked h session n f → 0 < n.

(** What a recovery is told about a follower it has sealed is what the follower
    acknowledged, and maybe more. *)
Definition honest (P : peers) : Prop :=
  ∀ t session final, pSeal P t session = Some final →
    final < 2 ^ 64 - 1
    ∧ (∀ n f, acked (holderOf t) session n f → n ≤ final)
    ∧ (∀ after page n f, pTail P t session after = Some page → acked (holderOf t) session n f →
         after < n ≤ after + zlen page → page !! Z.to_nat (n - after - 1) = Some f).

(** The pages that a recovery has read hold what was acknowledged in their range. *)
Lemma tailRead_holds P t session final a b fs n f :
  honest P → pSeal P t session = Some final → tailRead P t session a b fs → acked (holderOf t) session n f →
  a < n ≤ b → f ∈ fs.
Proof.
  intros Hh Hs Hr Hn. destruct (Hh _ _ _ Hs) as (_ & _ & Hp). induction Hr as [|b fs page Hr IH Hpage]; [lia|].
  intros Hb. apply elem_of_app. destruct (decide (n ≤ b)); [left; apply IH; lia|right].
  eapply list_elem_of_lookup_2, Hp; [done|done|lia].
Qed.

(** ** Knowledge *)

Context `{Etag} `{leaseCodec} `{Codec RecoveryAddress} `{Codec LogRecord}.

(** The part of a record that never changes. *)
Definition fixedOf (r : LogRecord) : string * string * list string * gmap string PeerIdentity * string :=
  (nlNode r, nlSession r, nlFollowers r, nlFollowerRefs r, nlProtoVersion r).

Record facts := MkFacts {
  fUp : item → Prop;
  fFixed : string → option (string * string * list string * gmap string PeerIdentity * string);
}.

Record later (F F' : facts) : Prop := {
  lt_up x : fUp F x → fUp F' x;
  lt_fixed k v : fFixed F k = Some v → fFixed F' k = Some v;
}.

#[global] Instance later_refl : Reflexive later.
Proof. by split. Qed.
#[global] Instance later_trans : Transitive later.
Proof. intros F1 F2 F3 [] []. split; eauto. Qed.

(** The uploads of a process are known. *)
Definition noted (F : facts) (m : recState) : Prop :=
  ∀ e x, e ∈ rsLog m → accepted e → x ∈ itemsOf e → fUp F x.

(** A record that says no more than what was uploaded. *)
Record good (F : facts) (k : string) (r : LogRecord) : Prop := {
  gd_progress f : 0 ≤ progressOf r f;
  gd_uploaded : ¬ handed k →
    k = logKey (nlNode r) (nlSession r)
    ∧ (sessionProto (nlProtoVersion r) = true → ∀ f h n frag x,
         memberOf r f = Some h → acked h (nlSession r) n frag →
         n ≤ progressOf r f ∨ nlStatus r = StatusSealed ∧ f ∈ nlFollowers r →
         x ∈ fragItems frag → fUp F x);
}.

Lemma good_later F F' k r : later F F' → good F k r → good F' k r.
Proof.
  intros HF [Hp Hu]. split; [done|]. intros Hk. destruct (Hu Hk) as [Ek Hup]. split; [done|].
  intros Hs f h n frag x Hm Ha Hn Hx. by eapply lt_up, Hup.
Qed.

Definition isLog (k : string) : Prop := hasPrefix "node-logs/" k = true.

(** What is read, and what may be written. *)
Definition readOk (F : facts) (key : string) (x : result bucketError (bytes * string)) : Prop :=
  ∀ d e, x = Ok (d, e) →
    e = etag d ∧ (isLog key → ∃ r, d = marshal r ∧ fFixed F key = Some (fixedOf r) ∧ good F key r).

Definition okWrite (F : facts) (op : bucketOp) : Prop :=
  isLog (opKey op) →
  match op with
  | ConditionalCreate k d => ∃ r, d = marshal r ∧ good F k r
  | CAS k d e => ∃ d0 r r', e = etag d0 ∧ unmarshal d0 = Some r ∧ d = marshal r' ∧ fixedOf r' = fixedOf r
      ∧ ∀ F', later F F' → fFixed F' k = Some (fixedOf r) → good F' k r → good F' k r'
  | _ => False
  end.

Lemma okWrite_later F F' op : later F F' → okWrite F op → okWrite F' op.
Proof.
  intros HF Hop Hk. specialize (Hop Hk). destruct op as [k d|k d|k d e|k|k e]; try done.
  - destruct Hop as (r & -> & Hr). exists r. split; [done|]. by eapply good_later.
  - destruct Hop as (d0 & r & r' & -> & Hd & -> & Hfix & Hg). exists d0, r, r'. split_and!; try done.
    intros F2 HF2. apply Hg. by etrans.
Qed.

(** ** Programs *)

Context {C : Type}.

(** Whatever others do meanwhile, every write of the program is right when it is made, and its
    end satisfies [Q]. *)
Fixpoint duly {R : Type} (F : facts) (Q : recState → R → Prop) (p : prog C recState R) (m : recState) : Prop :=
  match p with
  | Ret r => Q m r
  | Fetch key k => ∀ F' x, later F F' → readOk F' key x → duly F' Q (k x) m
  | Do op k => (∀ F', later F F' → noted F' m → okWrite F' op) ∧ ∀ x, duly F Q (k x) m
  | ListKeys _ k => ∀ x, duly F Q (k x) m
  | Now k => ∀ x, duly F Q (k x) m
  | CtxErr k => ∀ x, duly F Q (k x) m
  | Atomic f k => duly F Q (k (f m).1) (f m).2
  | Wait c f k => (∀ x m', f m = Some (x, m') → duly F Q (k (Some x)) m') ∧ (c = true → duly F Q (k None) m)
  | Call _ k => ∀ x, duly F Q (k x) m
  end.

Lemma duly_later {R} F F' (Q : recState → R → Prop) p m : later F F' → duly F Q p m → duly F' Q p m.
Proof.
  intros HF. revert m. induction p as [r|key k IH|op k IH|pre k IH|k IH|k IH|T f k IH|T c f k IH|c k IH]; intros m Hp;
    simpl in *; eauto.
  - intros F2 x HF2. apply Hp. by etrans.
  - destruct Hp as [Hop Hk]. split; [|auto]. intros F2 HF2. apply Hop. by etrans.
  - destruct Hp as [Hs Hn]. split; auto.
Qed.

Lemma duly_bind {A B} F (Q : recState → A → Prop) (Q' : recState → B → Prop) p (g : A → prog C recState B) m :
  duly F Q p m → (∀ F' m' a, later F F' → Q m' a → duly F' Q' (g a) m') → duly F Q' (p ≫= g) m.
Proof.
  change (p ≫= g) with (bind p g). intros Hp Hg. revert F m Hp Hg.
  induction p as [r|key k IH|op k IH|pre k IH|k IH|k IH|T f k IH|T c f k IH|c k IH]; intros F m Hp Hg; simpl in *; eauto.
  - by apply Hg.
  - intros F' x HF Hx. apply IH; [by apply Hp|]. intros F2 m' a HF2. apply Hg. by etrans.
  - destruct Hp as [Hop Hk]. split; [done|]. intros x. by apply IH.
  - destruct Hp as [Hs Hn]. split; eauto.
Qed.

Lemma duly_weaken {R} F (Q Q' : recState → R → Prop) p m : (∀ m r, Q m r → Q' m r) → duly F Q p m → duly F Q' p m.
Proof.
  intros HQ. revert F m. induction p as [r|key k IH|op k IH|pre k IH|k IH|k IH|T f k IH|T c f k IH|c k IH]; intros F m Hp;
    simpl in *; eauto.
  - destruct Hp as [Hop Hk]. split; auto.
  - destruct Hp as [Hs Hn]. split; eauto.
Qed.

Lemma duly_then {A B} F (Q' : recState → B → Prop) p (g : A → prog C recState B) m :
  duly F (λ _ _, True) p m → (∀ F' m' a, later F F' → duly F' Q' (g a) m') → duly F Q' (p ≫= g) m.
Proof. intros Hp Hg. eapply duly_bind; [exact Hp|]. auto. Qed.

(** What is proved of a program on its own. *)
Lemma duly_safe {R} F I (Q : recState → R → Prop) p m :
  safe I Q p m → (∀ F' m op, later F F' → noted F' m → I m op → okWrite F' op) → duly F Q p m.
Proof.
  revert F m. induction p as [r|key k IH|op k IH|pre k IH|k IH|k IH|T f k IH|T c f k IH|c k IH]; intros F m Hp HI;
    simpl in *; eauto.
  - intros F' x HF Hx. apply IH; [|intros F2 m2 op HF2; apply HI; by etrans]. apply Hp. intros d e He. by apply (Hx d e).
  - destruct Hp as [Hop Hk]. split; [|auto]. intros F' HF Hn. by apply (HI F' m).
  - destruct Hp as [Hs Hn]. split; eauto.
Qed.

Lemma duly_reads {R} F (p : prog C recState R) m : reads p → duly F (λ _ _, True) p m.
Proof.
  revert F m. induction p as [r|key k IH|op k IH|pre k IH|k IH|k IH|T f k IH|T c f k IH|c k IH]; intros F m Hp; simpl in *; auto; done.
Qed.

(** ** The writes of a recovery *)

Lemma tailRead_le P t session a b fs : tailRead P t session a b fs → a ≤ b.
Proof. induction 1; lia. Qed.

(** Items that were uploaded by a process are known. *)
Lemma noted_uploaded F m log0 us x :
  noted F m → rsLog m = log0 ++ us → Forall accepted us → x ∈ uploadedOf us → fUp F x.
Proof.
  intros Hn Hm Ha. unfold uploadedOf. rewrite list_elem_of_bind. intros (e & Hx & He).
  apply (Hn e); [|by eapply Forall_forall|done]. rewrite Hm. apply elem_of_app. by right.
Qed.

Lemma tailsUploaded_follower P rec fs covered us f :
  tailsUploaded P rec fs covered us → f ∈ fs →
  ∃ t final frags, resolves rec f t ∧ pSeal P t (nlSession rec) = Some final
    ∧ tailOf P t (nlSession rec) (progressOf rec f) final frags ∧ ∀ x, x ∈ frags ≫= fragItems → x ∈ uploadedOf us.
Proof.
  induction 1 as [|fs covered us g t final frags new Ht IH Hr Hs Hto Hu]; [by intros ?%elem_of_nil|].
  unfold uploadedOf in *. setoid_rewrite bind_app. intros [Hf|Hf]%elem_of_app.
  - destruct (IH Hf) as (t' & final' & frags' & ? & ? & ? & Hx). exists t', final', frags'. split_and!; try done.
    intros x Hin. apply elem_of_app. left. by apply Hx.
  - apply list_elem_of_singleton in Hf as ->. exists t, final, frags. split_and!; try done.
    intros x Hin. apply elem_of_app. right. by rewrite Hu.
Qed.

(** What a recovery has read of a follower was uploaded, with what was uploaded before. *)
Lemma member_uploaded P rec F k f t final b fs h n frag x :
  honest P → good F k rec → ¬ handed k → sessionProto (nlProtoVersion rec) = true →
  resolves rec f t → pSeal P t (nlSession rec) = Some final → tailRead P t (nlSession rec) (progressOf rec f) b fs →
  (∀ x, x ∈ fs ≫= fragItems → fUp F x) →
  memberOf rec f = Some h → acked h (nlSession rec) n frag → n ≤ b → x ∈ fragItems frag → fUp F x.
Proof.
  intros Hh [_ Hg] Hk Hp Hr Hs Ht Hup Hm Ha Hn Hx. destruct (decide (n ≤ progressOf rec f)) as [Hle|Hgt].
  - destruct (Hg Hk) as [_ Hg']. by eapply Hg'; [..|left|].
  - apply resolves_member in Hr. rewrite Hr in Hm. injection Hm as <-. apply Hup, list_elem_of_bind. exists frag.
    split; [done|]. eapply tailRead_holds; [done|done|done|done|lia].
Qed.

Lemma memberOf_fixed r r' f : fixedOf r = fixedOf r' → memberOf r f = memberOf r' f.
Proof. unfold fixedOf, memberOf. intros [= _ _ _ -> ->]. done. Qed.

Lemma allowed_ok P rec F F' m log0 us op :
  let k := logKey (nlNode rec) (nlSession rec) in
  honest P → fFixed F k = Some (fixedOf rec) → good F k rec → later F F' → noted F' m → rsLog m = log0 ++ us →
  allowed P rec us op → okWrite F' op.
Proof.
  intros k Hh Hfix Hrec HF Hn Hm Hop _. apply (good_later _ F') in Hrec; [|done]. apply (lt_fixed _ _ HF) in Hfix.
  destruct Hop as [d r ms Hd Hs|d r ms f after Hd Hs Hacc Htail|d r ms covered Hd Hup].
  - eexists d, r, _. split_and!; try done. intros F2 HF2 _ [Hp Hu]. split; [done|]. intros Hk.
    destruct (Hu Hk) as [Ek Hu']. split; [done|]. intros Hpr g h n frag x Hmem Ha [Hle|[Hst _]] Hx; [by eapply Hu'; [..|left|]|done].
  - eexists d, r, _. split_and!; try done. intros F2 HF2 Hfix2 [Hp Hu].
    destruct Htail as (t & final & fs & us0 & new & -> & Hres & Hseal & Hle & [Hread _ _] & Hnew).
    pose proof (lt_fixed _ _ HF2 _ _ Hfix) as Hfix2'.
    assert (fixedOf r = fixedOf rec) as Efix by (apply (inj Some); rewrite <- Hfix2; exact Hfix2').
    pose proof (tailRead_le _ _ _ _ _ _ Hread) as Hprog. pose proof (gd_progress _ _ _ Hrec f) as H0f. split.
    + intros g. unfold progressOf. cbn [nlProgress setProgress]. destruct (decide (g = f)) as [->|Hgf].
      * rewrite lookup_insert_eq. simpl. lia.
      * rewrite lookup_insert_ne by done. apply Hp.
    + intros Hk. destruct (Hu Hk) as [Ek Hu']. split; [done|]. intros Hpr g h n frag x Hmem Ha Hst Hx.
      destruct (decide (g = f)) as [->|Hgf].
      2:{ eapply (Hu' Hpr g h n frag); [done|done| |done]. destruct Hst as [Hst|Hst]; [left|by right].
          unfold progressOf in *. cbn [nlProgress setProgress] in Hst. by rewrite lookup_insert_ne in Hst. }
      destruct Hst as [Hst|[Hst _]]; [|simpl in Hst; by rewrite Hs in Hst].
      unfold progressOf in Hst. cbn [nlProgress setProgress] in Hst. rewrite lookup_insert_eq in Hst. simpl in Hst, Ha, Hpr.
      rewrite (memberOf_fixed _ rec) in Hmem by exact Efix. unfold fixedOf in Efix. injection Efix as _ Eses _ _ Epro.
      rewrite Eses in Ha. rewrite Epro in Hpr.
      eapply (member_uploaded P rec F2 k f); try done; [by eapply good_later|]. intros y Hy. eapply lt_up; [done|].
      apply (noted_uploaded F' m (log0 ++ us0) new); [done|by rewrite <- app_assoc|by apply Forall_app in Hacc as [_ ?]|by rewrite Hnew].
  - eexists d, r, _. split_and!; try done. intros F2 HF2 Hfix2 [Hp Hu].
    pose proof (lt_fixed _ _ HF2 _ _ Hfix) as Hfix2'.
    assert (fixedOf r = fixedOf rec) as Efix by (apply (inj Some); rewrite <- Hfix2; exact Hfix2').
    split; [done|]. intros Hk. destruct (Hu Hk) as [Ek Hu']. split; [done|]. intros Hpr g h n frag x Hmem Ha Hst Hx.
    destruct Hst as [Hst|[_ Hg]]; [by eapply (Hu' Hpr g h n frag); [..|left|]|].
    rewrite (memberOf_fixed _ rec) in Hmem by exact Efix. unfold fixedOf in Efix. injection Efix as _ Eses Efol _ Epro.
    simpl in Ha, Hpr, Hg. rewrite Eses in Ha. rewrite Epro in Hpr. rewrite Efol in Hg. destruct Hup as [Hacc Htails].
    rewrite Hpr in Htails. destruct (tailsUploaded_follower P rec _ _ _ g Htails Hg) as (t & final & frags & Hres & Hseal & [Hread _ _] & Hin).
    eapply (member_uploaded P rec F2 k g); try done; [by eapply good_later| |].
    + intros y Hy. eapply lt_up; [done|]. by apply (noted_uploaded F' m log0 us), Hin.
    + destruct (Hh _ _ _ Hseal) as (_ & Hmax & _). apply resolves_member in Hres. rewrite Hres in Hmem.
      injection Hmem as <-. by eapply Hmax.
Qed.

(** ** The programs of a fleet *)

Abbreviation anyEnd := (λ (_ : recState) _, True).

Lemma isLog_key node session : isLog (logKey node session).
Proof. apply hasPrefix_app. by eexists. Qed.

(** A record that is read is right. *)
Lemma duly_logGet {B} F (Q : recState → B → Prop) node session g m :
  (∀ F' r, later F F' →
     (∀ rec e, r = Ok (rec, e) → versionOf rec e ∧ good F' (logKey node session) rec
        ∧ fFixed F' (logKey node session) = Some (fixedOf rec)) →
     duly F' Q (g r) m) →
  duly F Q (logGet node session ≫= g) m.
Proof.
  intros Hg. unfold logGet, GetVersion. destruct (objectKey _ _) as [k|e0] eqn:Hk.
  - apply objectKey_Ok in Hk as (-> & _). intros F' x HF Hx. destruct x as [[d e]|e]; apply (Hg F'); try done; simpl.
    + destruct (Hx d e eq_refl) as [-> Hr]. destruct (Hr (isLog_key _ _)) as (r & -> & Hfix & Hgood).
      rewrite unmarshal_marshal. intros rec e' [= <- <-]. split_and!; [|done|done]. exists (marshal r).
      by rewrite unmarshal_marshal.
    + intros rec e'. by destruct e.
  - apply Hg; [done|]. simpl. intros rec e'. by destruct e0 as [| | |[]].
Qed.

Lemma duly_Recover P order cfg node session F m : honest P → duly F anyEnd (Recover P order cfg node session) m.
Proof.
  intros Hh. apply duly_logGet. intros F' r HF Hr. destruct r as [[rec e]|e]; [|by destruct e].
  destruct (Hr rec e eq_refl) as (_ & Hgood & Hfix).
  destruct (decide (nlNode rec ≠ node ∨ nlSession rec ≠ session)) as [Hne|He].
  { unfold recoverRecord. by rewrite decide_True. }
  assert (nlNode rec = node ∧ nlSession rec = session) as [<- <-] by (split; apply dec_stable; tauto).
  pose proof (tracks_recoverRecord (C := C) P order cfg rec (rsLog m)) as Hsafe.
  apply (duly_weaken F' (λ m' r, ∃ us, rsLog m' = rsLog m ++ us ∧ recovered P rec us r)); [done|].
  eapply duly_safe; [apply Hsafe|].
  - intros t session final Hs. apply (Hh _ _ _ Hs).
  - apply Hgood.
  - by rewrite app_nil_r.
  - intros F2 m2 op HF2 Hn (us & Hm & Hop). by eapply allowed_ok.
Qed.

Lemma duly_openLog node session epoch followers refs F m :
  duly F anyEnd (openLog node session epoch followers refs) m.
Proof.
  intros t. unfold write. apply duly_then; [|intros F' m' w HF].
  - cbn [opKey]. destruct (objectKey _ _) as [k|e] eqn:Hk; [|done]. apply objectKey_Ok in Hk as (-> & _).
    split; [|done]. intros F' _ _ _. eexists. split; [done|]. split; [intros f; unfold progressOf; simpl; by rewrite lookup_empty|].
    intros _. split; [done|]. intros _ f h n frag x _ Ha [Hle|[? _]] _; [|done].
    unfold progressOf in Hle. simpl in Hle. rewrite lookup_empty in Hle. apply acked_positive in Ha. simpl in Hle. lia.
  - destruct w as [tag|e]; [done|]. destruct e as [| | |e]; try done. destruct e; try done. apply duly_logGet.
    intros F2 r _ _. destruct r as [[rec e]|e]; [|done]. cbn. by repeat case_decide.
Qed.

(** Handing a session over. *)
Lemma duly_handoff node session F m :
  handed (logKey node session) → duly F anyEnd (Seal node session) m.
Proof.
  intros Hk. apply duly_logGet. intros F' r HF Hr. destruct r as [[rec e]|e]; [|done].
  destruct (Hr rec e eq_refl) as ((d & -> & Hd) & Hgood & Hfix). cbn -[logCas]. case_decide; [done|]. intros t.
  apply duly_then; [|by intros F2 m2 [w|e] _]. unfold logCas, write. cbn [opKey].
  destruct (objectKey _ _) as [k|e] eqn:Ek; [|done]. apply objectKey_Ok in Ek as (-> & _). split; [|done].
  intros F2 HF2 _ _. eexists d, rec, _. split_and!; try done. intros F3 _ _ [Hp _]. by split.
Qed.

Lemma reads_readLogs keys : reads (C := C) (M := recState) (readLogs keys).
Proof.
  induction keys as [|k keys IH]; [done|]. simpl. unfold GetVersion.
  apply reads_bind; [by destruct (objectKey _ _)|]. intros [[data tag]|e].
  - destruct (unmarshal data); [|done]. apply reads_bind; [done|]. by intros [].
  - by destruct e as [| | |[]].
Qed.

Lemma reads_ListNode node : reads (C := C) (M := recState) (ListNode node).
Proof.
  unfold ListNode, ListPrefix. apply reads_bind; [by repeat case_match|]. intros [keys|e]; [apply reads_readLogs|done].
Qed.

Lemma duly_check {E A B} F (p : prog C recState (result E A)) (g : A → prog C recState (result E B)) m :
  duly F anyEnd p m → (∀ F' m' a, later F F' → duly F' anyEnd (g a) m') → duly F anyEnd (check p g) m.
Proof. intros Hp Hg. apply duly_then; [done|]. intros F' m' [a|e] HF; [by apply Hg|done]. Qed.

Lemma duly_logOp {R} F (p : prog C recState (result nodelogError R)) m : reads p → duly F anyEnd (logOp p) m.
Proof. intros Hp. apply duly_then; [by apply duly_reads|done]. Qed.

Section peers.
Context (P : peers) (order : list string → list string) (cfg : recoveryConfig) (P_honest : honest P).

Lemma duly_recoverSessions node recs a b F m : duly F anyEnd (recoverSessions P order cfg node recs a b) m.
Proof.
  revert a b F m. induction recs as [|rec recs IH]; intros a b F m; [done|]. simpl. case_decide; [apply IH|].
  apply duly_check; [by apply duly_Recover|]. intros F' m' n _. apply IH.
Qed.

Lemma duly_RecoverNode node F m : duly F anyEnd (RecoverNode P order cfg node) m.
Proof.
  apply duly_check; [apply duly_logOp, reads_ListNode|]. intros F' m' recs _. apply duly_recoverSessions.
Qed.

Lemma duly_recoverPredecessors node current recs F m : duly F anyEnd (recoverPredecessors P order cfg node current recs) m.
Proof.
  revert F m. induction recs as [|rec recs IH]; intros F m; [done|]. simpl. case_decide; [done|].
  case_decide; [apply IH|]. apply duly_check; [by apply duly_Recover|]. intros F' m' n _. apply IH.
Qed.

Lemma duly_RecoverLocal tries delay node current F m : duly F anyEnd (RecoverLocal P order cfg tries delay node current) m.
Proof.
  revert delay F m. induction tries as [|tries IH]; intros delay F m; [done|]. cbn [RecoverLocal]. apply duly_then.
  - apply duly_check; [apply duly_logOp, reads_ListNode|]. intros F' m' recs _. apply duly_recoverPredecessors.
  - intros F' m' [a|e] _; [done|].
    destruct e; try done; intros c; (destruct c; [done|apply IH]).
Qed.

Lemma duly_passSessions node l t recs recovered x F m : duly F anyEnd (passSessions P order cfg node l t recs recovered x) m.
Proof.
  revert recovered x F m. induction recs as [|rec recs IH]; intros recovered x F m; [done|]. simpl. case_match; [apply IH|].
  apply duly_then; [by apply duly_Recover|]. intros F' m' [n|e] _; [apply IH|]. intros u. apply IH.
Qed.

Lemma duly_onLease {A B} F (p : prog C LeaseManager A) (g : A → prog C recState B) m :
  reads p → (∀ F' m' a, later F F' → duly F' anyEnd (g a) m') → duly F anyEnd (onLease p ≫= g) m.
Proof.
  intros Hp Hg. change (onLease p ≫= g) with (bind (onLease p) g). revert F m Hp Hg.
  induction p as [r|key k IH|op k IH|pre k IH|k IH|k IH|T f k IH|T c f k IH|c k IH]; intros F m Hp Hg; simpl in Hp;
    try done; try (intros x; by apply IH).
  - by apply Hg.
  - intros F' x HF _. apply IH; [done|]. intros F2 m2 a HF2. apply Hg. by etrans.
  - simpl. destruct (f (rsLease m)) as [x l]. by apply IH.
Qed.

Lemma duly_passNodes nodes t n x F m : duly F anyEnd (passNodes P order cfg nodes t n x) m.
Proof.
  revert n x F m. induction nodes as [|node nodes IH]; intros n x F m; [done|]. cbn [passNodes].
  apply duly_onLease; [done|]. intros F1 m1 r _. destruct (orAbsent r) as [l|e]; [|apply IH].
  apply duly_then; [apply duly_reads, reads_ListNode|]. intros F2 m2 [recs|e] _; [|apply IH].
  apply duly_then; [apply duly_passSessions|]. intros F3 m3 [recovered x'] _. apply IH.
Qed.

(** [leader] only reads. *)
Lemma duly_Pass leader complete retries F m :
  (∀ p, leader = Some p → reads p) → duly F anyEnd (Pass P order cfg leader complete retries) m.
Proof.
  intros Hl. unfold Pass. apply duly_then; [destruct leader as [p|]; [apply duly_reads; by apply Hl|done]|].
  intros F1 m1 ok _. destruct ok as [[]|]; [|done|done]. destruct (negb complete); [done|]. apply duly_then.
  - apply duly_reads. unfold Nodes, ListPrefix. apply reads_bind; [by repeat case_match|done].
  - intros F2 m2 [nodeList|e] _; [|done]. intros t. apply duly_then; [apply duly_passNodes|]. by intros F3 m3 [nodes x] _.
Qed.

Lemma duly_RecoverLiveScope rec sc F m : duly F anyEnd (RecoverLiveScope P cfg rec sc) m.
Proof.
  apply (duly_weaken F (λ m' r, ∃ us, rsLog m' = rsLog m ++ us ∧ delivers [] (counted sc 0) us r)); [done|].
  eapply duly_safe; [by apply tracks_RecoverLiveScope; rewrite app_nil_r|]. by intros F' m' op _ _ (us & _ & []).
Qed.
End peers.

(** A program that neither writes node logs nor touches the log of uploads. *)
Fixpoint bystander {R : Type} (p : prog C recState R) : Prop :=
  match p with
  | Ret _ => True
  | Fetch _ k => ∀ x, bystander (k x)
  | Do op k => ¬ isLog (opKey op) ∧ ∀ x, bystander (k x)
  | ListKeys _ k => ∀ x, bystander (k x)
  | Now k => ∀ x, bystander (k x)
  | CtxErr k => ∀ x, bystander (k x)
  | Atomic f k => (∀ m, rsLog (f m).2 = rsLog m) ∧ ∀ x, bystander (k x)
  | Wait _ f k => (∀ m x m', f m = Some (x, m') → rsLog m' = rsLog m) ∧ ∀ x, bystander (k x)
  | Call _ k => ∀ x, bystander (k x)
  end.

Lemma duly_bystander {R} F (p : prog C recState R) m : bystander p → duly F anyEnd p m.
Proof.
  revert F m. induction p as [r|key k IH|op k IH|pre k IH|k IH|k IH|T f k IH|T c f k IH|c k IH]; intros F m Hp;
    simpl in *; auto.
  - destruct Hp as [Hop Hk]. split; [|auto]. intros F' _ _ Hl. by destruct Hop.
  - destruct Hp. auto.
  - destruct Hp. auto.
Qed.

(** The views of the followers that recoveries may have. *)
Context (view : peers → Prop) (view_honest : ∀ P, view P → honest P).

(** The threads of a fleet: owners open their sessions, recoveries run, sessions are handed
    over, and whatever else is done leaves the node logs alone. *)
Inductive fleetThread : prog C recState unit → Prop :=
| thread_open node session epoch followers : fleetThread (Open node session epoch followers ≫= λ _, mret tt)
| thread_identified node session epoch refs : fleetThread (OpenIdentified node session epoch refs ≫= λ _, mret tt)
| thread_recover P order cfg node session : view P → fleetThread (Recover P order cfg node session ≫= λ _, mret tt)
| thread_node P order cfg node : view P → fleetThread (RecoverNode P order cfg node ≫= λ _, mret tt)
| thread_local P order cfg tries delay node current :
    view P → fleetThread (RecoverLocal P order cfg tries delay node current ≫= λ _, mret tt)
| thread_pass P order cfg leader complete retries :
    view P → (∀ p, leader = Some p → reads p) →
    fleetThread (Pass P order cfg leader complete retries ≫= λ _, mret tt)
| thread_scope P cfg rec sc : view P → fleetThread (RecoverLiveScope P cfg rec sc ≫= λ _, mret tt)
| thread_handoff node session : handed (logKey node session) → fleetThread (Seal node session ≫= λ _, mret tt)
| thread_other p : bystander p → fleetThread p.

Lemma fleetThread_duly F p m : fleetThread p → duly F anyEnd p m.
Proof.
  destruct 1; try (apply duly_then; [|done]).
  - apply duly_openLog.
  - unfold OpenIdentified. destruct (validRefs refs); [apply duly_openLog|done].
  - apply duly_Recover; auto.
  - apply duly_RecoverNode; auto.
  - apply duly_RecoverLocal; auto.
  - apply duly_Pass; auto.
  - apply duly_RecoverLiveScope; auto.
  - by apply duly_handoff.
  - by apply duly_bystander.
Qed.

(** A process starts with nothing uploaded. *)
Definition fleetAction (x : action C recState unit) : Prop :=
  match x with Boot m => rsLog m = [] | Spawn _ p => fleetThread p | _ => True end.

(** ** Runs *)

(** Uploaded by a process, at some point of the run. *)
Definition uploadedIn (xs : list (action C recState unit)) (x : item) : Prop :=
  ∃ ys w m e, ys `prefix_of` xs ∧ acts ys emptyWorld = Some w ∧ m ∈ wProcs w ∧ e ∈ rsLog m ∧ accepted e ∧ x ∈ itemsOf e.

Definition fixedIn (st : store) (k : string) :=
  if hasPrefix "node-logs/" k then r ← (st !! k ≫= unmarshal); Some (fixedOf r) else None.

Abbreviation knowing U st := (MkFacts U (fixedIn st)).

Record settled (U : item → Prop) (w : world C recState unit) : Prop := {
  st_store k d : isLog k → wStore w !! k = Some d → ∃ r, d = marshal r ∧ good (knowing U (wStore w)) k r;
  st_noted i m : wProcs w !! i = Some m → noted (knowing U (wStore w)) m;
  st_pending : Forall (okWrite (knowing U (wStore w))) (wPending w);
  st_valid n i p : wThreads w !! n = Some (i, p) → is_Some (wProcs w !! i);
  st_threads n i p m : wThreads w !! n = Some (i, p) → wProcs w !! i = Some m → duly (knowing U (wStore w)) anyEnd p m;
}.

Abbreviation goodStore U st := (∀ k d, isLog k → st !! k = Some d → ∃ r, d = marshal r ∧ good (knowing U st) k r).

Lemma fixedIn_log st k r : isLog k → st !! k = Some (marshal r) → fixedIn st k = Some (fixedOf r).
Proof. intros Hk Hr. unfold fixedIn. rewrite Hk, Hr. simpl. by rewrite unmarshal_marshal. Qed.

(** Changing the record of one key. *)
Lemma insert_good U (st : store) k d r :
  goodStore U st → (isLog k → d = marshal r ∧ (∀ r0, st !! k = Some (marshal r0) → fixedOf r = fixedOf r0)) →
  (isLog k → later (knowing U st) (knowing U (<[k := d]> st)) → good (knowing U (<[k := d]> st)) k r) →
  later (knowing U st) (knowing U (<[k := d]> st)) ∧ goodStore U (<[k := d]> st).
Proof.
  intros Hst Hd Hg. assert (later (knowing U st) (knowing U (<[k := d]> st))) as Hl.
  { split; [done|]. intros k' v. cbn [fFixed]. unfold fixedIn. destruct (hasPrefix "node-logs/" k') eqn:Hk; [|done].
    destruct (decide (k' = k)) as [->|Hne]; [|by rewrite lookup_insert_ne]. rewrite lookup_insert_eq.
    destruct (Hd Hk) as [-> Hfix]. simpl. rewrite unmarshal_marshal. simpl. destruct (st !! k) as [d0|] eqn:E; [|done].
    destruct (Hst k d0 Hk E) as (r0 & -> & _). simpl. rewrite unmarshal_marshal. simpl. by rewrite (Hfix r0). }
  split; [done|]. intros k' d' Hk'. rewrite lookup_insert_Some. intros [[<- <-]|[Hne Hd']].
  - exists r. split; [by apply Hd|]. by apply Hg.
  - destruct (Hst k' d' Hk' Hd') as (r' & -> & Hr'). exists r'. split; [done|]. by eapply good_later.
Qed.

Lemma delete_good U (st : store) k :
  goodStore U st → ¬ isLog k → later (knowing U st) (knowing U (delete k st)) ∧ goodStore U (delete k st).
Proof.
  intros Hst Hk. assert (later (knowing U st) (knowing U (delete k st))) as Hl.
  { split; [done|]. intros k' v. cbn [fFixed]. unfold fixedIn. destruct (hasPrefix "node-logs/" k') eqn:Hk'; [|done].
    rewrite lookup_delete_ne; [done|]. by intros ->. }
  split; [done|]. intros k' d' Hk'. rewrite lookup_delete_Some. intros [Hne Hd'].
  destruct (Hst k' d' Hk' Hd') as (r' & -> & Hr'). exists r'. split; [done|]. by eapply good_later.
Qed.

Lemma perform_settled U st op :
  goodStore U st → okWrite (knowing U st) op →
  later (knowing U st) (knowing U (perform op st).1) ∧ goodStore U (perform op st).1.
Proof.
  intros Hst Hop. destruct op as [k d|k d|k d e|k|k e]; cbn in *.
  - by apply (insert_good U st k d (MkLog None EmptyString EmptyString 0 ∅ ∅ [] EmptyString EmptyString 0 ∅)); [|intros Hk; destruct (Hop Hk)..].
  - destruct (st !! k) as [c|] eqn:E; cbn; [done|]. destruct (hasPrefix "node-logs/" k) eqn:Hk.
    + destruct (Hop Hk) as (r & -> & Hr). apply (insert_good U st k (marshal r) r); [done| |].
      * intros _. split; [done|]. congruence.
      * intros _ Hl. by eapply good_later.
    + apply (insert_good U st k d (MkLog None EmptyString EmptyString 0 ∅ ∅ [] EmptyString EmptyString 0 ∅)); [done|..];
        intros Hk'; unfold isLog in Hk'; congruence.
  - destruct (st !! k) as [c|] eqn:E; cbn; [|done]. case_decide as He; cbn; [|done]. subst e.
    destruct (hasPrefix "node-logs/" k) eqn:Hk.
    + destruct (Hop Hk) as (d0 & r & r' & ->%etag_inj & Hd0 & -> & Hfix & Hg).
      destruct (Hst k _ Hk E) as (r0 & -> & Hr0). rewrite unmarshal_marshal in Hd0. injection Hd0 as ->.
      apply (insert_good U st k (marshal r') r'); [done| |].
      * intros _. split; [done|]. intros r1 Hr1. rewrite E in Hr1. injection Hr1 as Hr1.
        apply (f_equal unmarshal) in Hr1. rewrite !unmarshal_marshal in Hr1. by injection Hr1 as <-.
      * intros _ Hl. apply Hg; [done| |by eapply good_later]. apply (lt_fixed _ _ Hl). by apply fixedIn_log.
    + apply (insert_good U st k d (MkLog None EmptyString EmptyString 0 ∅ ∅ [] EmptyString EmptyString 0 ∅)); [done|..];
        intros Hk'; unfold isLog in Hk'; congruence.
  - by apply delete_good.
  - destruct (st !! k) as [c|] eqn:E; cbn; [|done]. case_decide as He; cbn; [|done]. by apply delete_good.
Qed.

(** A step of a thread. *)
Lemma step_duly U st a p m st' m' p' :
  goodStore U st → noted (knowing U st) m → duly (knowing U st) anyEnd p m → step (R := unit) a st m p = Some (st', m', p') →
  (later (knowing U st) (knowing U st') ∧ goodStore U st') ∧ Forall (okWrite (knowing U st)) (delays a p)
  ∧ duly (knowing U st) anyEnd p' m'.
Proof.
  intros Hst Hn Hp Hs.
  destruct p as [r|key k|op k|pre k|k|k|T f k|T c f k|c k]; simpl in *; destruct a as [|ap e|e|t|b]; try done;
    try (injection Hs as <- <- <-; split_and!; try done; auto; fail).
  - injection Hs as <- <- <-. split_and!; try done. apply Hp; [done|]. intros d e. unfold fetch.
    destruct (st !! key) as [d'|] eqn:E; [|done]. intros [= -> <-]. split; [done|]. intros Hk.
    destruct (Hst _ _ Hk E) as (r & -> & Hr). exists r. split_and!; try done. by apply fixedIn_log.
  - case_decide; [done|]. injection Hs as <- <- <-. split_and!; try done. by apply Hp.
  - destruct Hp as [Hop Hk]. destruct (perform op st) as [st1 r] eqn:Eop. injection Hs as <- <- <-.
    split; [|by split]. change st1 with (st1, r).1. rewrite <- Eop. apply perform_settled; [done|]. by apply Hop.
  - destruct Hp as [Hop Hk]. injection Hs as <- <- <-. split; [|by split]. destruct ap; [|done].
    apply perform_settled; [done|]. by apply Hop.
  - destruct Hp as [Hop Hk]. injection Hs as <- <- <-. split_and!; try done. constructor; [by apply Hop|done].
  - destruct (f m) as [x m1]. injection Hs as <- <- <-. by split_and!.
  - destruct (f m) as [[x m1]|] eqn:E; [|done]. injection Hs as <- <- <-. destruct Hp as [Hx _]. split_and!; try done. by apply Hx.
  - destruct c; [|done]. injection Hs as <- <- <-. destruct Hp as [_ Hx]. split_and!; try done. by apply Hx.
Qed.

Lemma more_later U U' st : (∀ x, U x → U' x) → later (knowing U st) (knowing U' st).
Proof. intros HU. by split. Qed.

(** Uploads of the processes of a world. *)
Definition upIn (w : world C recState unit) (x : item) : Prop :=
  ∃ i m e, wProcs w !! i = Some m ∧ e ∈ rsLog m ∧ accepted e ∧ x ∈ itemsOf e.

(** What one step of the fleet has to bring. *)
Lemma settled_next U U' w w' :
  settled U w → (∀ x, U x ∨ upIn w' x → U' x) → later (knowing U (wStore w)) (knowing U (wStore w')) →
  goodStore U (wStore w') →
  (∀ op, op ∈ wPending w' → op ∈ wPending w ∨ okWrite (knowing U (wStore w)) op) →
  (∀ n i p, wThreads w' !! n = Some (i, p) → is_Some (wProcs w' !! i)) →
  (∀ n i p m, wThreads w' !! n = Some (i, p) → wProcs w' !! i = Some m →
     wThreads w !! n = Some (i, p) ∧ wProcs w !! i = Some m ∨ duly (knowing U (wStore w)) anyEnd p m) →
  settled U' w'.
Proof.
  intros [Hst Hno Hpe Hva Hth] HU Hl Hst' Hpe' Hva' Hth'.
  assert (later (knowing U (wStore w)) (knowing U' (wStore w'))) as Hl'.
  { etrans; [exact Hl|]. apply more_later. auto. }
  split; [|..|done|].
  - intros k d Hk Hd. destruct (Hst' k d Hk Hd) as (r & -> & Hr). exists r. split; [done|].
    eapply good_later; [|exact Hr]. apply more_later. auto.
  - intros i m Hm e x He Ha Hx. apply HU. right. by exists i, m, e.
  - apply Forall_forall. intros op Hop. eapply okWrite_later; [exact Hl'|].
    destruct (Hpe' op Hop) as [Hin|?]; [|done]. by eapply Forall_forall.
  - intros n i p m Hn Hm. eapply duly_later; [exact Hl'|]. destruct (Hth' n i p m Hn Hm) as [[Hn' Hm']|?]; [|done]. by eapply Hth.
Qed.

Lemma settled_act U U' x w w' :
  fleetAction x → settled U w → (∀ y, U y ∨ upIn w' y → U' y) → act x w = Some w' → NoDup (wThreads w').*1 →
  settled U' w'.
Proof.
  intros Hx Hw HU Hact Hnd. pose proof Hw as [Hst Hno Hpe Hva Hth]. destruct x as [m|i p|n a|n].
  - injection Hact as <-. eapply settled_next; [exact Hw|done|done|done|by left|..]; simpl.
    + intros n i p Hn. destruct (Hva n i p Hn) as [m' Hm']. exists m'. by apply lookup_app_l_Some.
    + intros n i p m' Hn Hm. left. split; [done|]. destruct (Hva n i p Hn) as [m0 Hm0].
      rewrite (lookup_app_l_Some _ _ _ _ Hm0) in Hm. congruence.
  - simpl in Hact. destruct (wProcs w !! i) as [mi|] eqn:Hi; [|done]. injection Hact as <-.
    eapply settled_next; [exact Hw|done|done|done|by left|..]; simpl.
    + intros n j q [Hn|[_ Hn]]%lookup_app_Some; [by eapply Hva|]. apply list_lookup_singleton_Some in Hn as [_ [= <- <-]]. by rewrite Hi.
    + intros n j q m [Hn|[_ Hn]]%lookup_app_Some Hm; [by left|]. apply list_lookup_singleton_Some in Hn as [_ [= <- <-]].
      right. by apply fleetThread_duly.
  - apply act_Run in Hact as (i & p & m & st & m' & p' & Hn & Hi & Hs & ->). simpl in *.
    destruct (step_duly U _ a p m st m' p' Hst (Hno i m Hi) (Hth n i p m Hn Hi) Hs) as ([Hl Hst'] & Hd & Hp').
    eapply settled_next; [exact Hw|done|done|done|..]; simpl.
    + intros op [?|Hop]%elem_of_app; [by left|right]. by eapply Forall_forall.
    + intros n' j q Hq. apply lookup_lt_is_Some. rewrite length_insert. apply lookup_lt_is_Some.
      rewrite list_lookup_insert_Some in Hq. destruct Hq as [(-> & [= <- <-] & _)|[_ Hq]]; by eapply Hva.
    + intros n' j q mj Hq Hm. rewrite list_lookup_insert_Some in Hq. destruct Hq as [(-> & [= <- <-] & _)|[Hne Hq]].
      * rewrite list_lookup_insert_eq in Hm by (by eapply lookup_lt_Some). injection Hm as <-. by right.
      * left. split; [done|]. rewrite list_lookup_insert_ne in Hm; [done|]. intros <-. apply Hne.
        eapply (NoDup_lookup (wThreads w).*1 n n' i).
        -- by rewrite list_fmap_insert, list_insert_id in Hnd by (by rewrite list_lookup_fmap, Hn).
        -- by rewrite list_lookup_fmap, Hn.
        -- by rewrite list_lookup_fmap, Hq.
  - simpl in Hact. destruct (wPending w !! n) as [op|] eqn:Hn; [|done]. injection Hact as <-.
    destruct (perform_settled U (wStore w) op Hst) as [Hl Hst']; [by eapply Forall_lookup_1|].
    eapply settled_next; [exact Hw|done|done|done|..]; simpl; [|done|by left].
    intros op' Hop. left. eapply elem_of_submseteq; [exact Hop|]. apply sublist_submseteq, sublist_delete.
Qed.

Lemma threads_distinct x (w w' : world C recState unit) : act x w = Some w' → NoDup (wThreads w').*1 → NoDup (wThreads w).*1.
Proof.
  destruct x as [m|i p|n a|n]; intros Hact.
  - by injection Hact as <-.
  - simpl in Hact. destruct (wProcs w !! i); [|done]. injection Hact as <-. simpl. rewrite fmap_app. by intros [? _]%NoDup_app.
  - apply act_Run in Hact as (i & p & m & st & m' & p' & Hn & Hi & Hs & ->). simpl.
    by rewrite list_fmap_insert, list_insert_id by (by rewrite list_lookup_fmap, Hn).
  - simpl in Hact. destruct (wPending w !! n); [|done]. by injection Hact as <-.
Qed.

Lemma settled_run xs w :
  Forall fleetAction xs → acts xs emptyWorld = Some w → NoDup (wThreads w).*1 → settled (uploadedIn xs) w.
Proof.
  revert w. induction xs as [|x xs IH] using rev_ind; intros w Hxs Hacts Hnd.
  - by injection Hacts as <-.
  - apply Forall_app in Hxs as [Hxs Hx]. apply Forall_inv in Hx. pose proof Hacts as Hall. rewrite acts_app in Hacts.
    destruct (acts xs emptyWorld) as [w0|] eqn:E; [|done]. simpl in Hacts. destruct (act x w0) as [w1|] eqn:Ex; [|done].
    injection Hacts as ->. eapply settled_act; [done|apply IH; [done|done|by eapply threads_distinct]| |done|done].
    intros y [(ys & w1 & m & e & Hp & ?)|(i & m & e & Hm & ? & ? & ?)].
    + exists ys, w1, m, e. split; [by apply prefix_app_r|done].
    + exists (xs ++ [x]), w, m, e. split_and!; try done. by eapply list_elem_of_lookup_2.
Qed.

(** When the record of a session that was not handed over is sealed, everything that its
    followers acknowledged was uploaded. *)
Lemma settled_sealed xs w k r f h n frag x :
  Forall fleetAction xs → acts xs emptyWorld = Some w → NoDup (wThreads w).*1 → isLog k → ¬ handed k →
  wStore w !! k = Some (marshal r) → nlStatus r = StatusSealed → sessionProto (nlProtoVersion r) = true →
  f ∈ nlFollowers r → memberOf r f = Some h → acked h (nlSession r) n frag → x ∈ fragItems frag → uploadedIn xs x.
Proof.
  intros Hxs Hacts Hnd Hk Hkh Hr Hs Hp Hf Hm Ha Hx. destruct (settled_run xs w Hxs Hacts Hnd) as [Hst _ _ _ _].
  destruct (Hst k _ Hk Hr) as (r' & E & [_ Hg]). apply (f_equal unmarshal) in E. rewrite !unmarshal_marshal in E.
  injection E as <-. destruct (Hg Hkh) as [_ Hu]. eapply (Hu Hp); [done|done|by right|done].
Qed.
End settled.
