(* ===== verification/Durability.v ===== *)
(** * What was acknowledged is not lost

    The composition of the followers' spools (SpoolHistory.v) with recovery over the
    bucket (Settled.v). Each follower runs its own history of requests, failures and
    crashes; what a recovery is told when it seals and reads a follower are answers of
    that history. Then an append that a follower answered is in the bucket, or its cell
    was deleted, by the time the node log of its session is sealed: whichever processes
    recovered the session, wherever they stopped, and whatever the bucket and the machines
    of the followers did.

    A follower gives up a session only on the request of a recovery that has sealed the
    node log (Recovery.v, [recovered]); the answers considered here are those
    given before that. *)

From S2P Require Import Prelude Cell Ltx Bucket Decimal Frames Disk Spool SpoolDurable SpoolHistory.
From S2P Require Import Fleet Objects Lease Discipline NodeLog Recovery Settled.

(** ** Followers *)

(** A follower from its first start: its disk, what happened, and where it is. *)
Record copy := MkCopy {
  cpDisk : disk;
  cpEvents : list SpoolHistory.event;
  cpNow : Spool * disk;
}.

Section copies.
Context `{Digest} (copies : holder → copy).

Definition running (c : copy) : Prop := startDisk (cpDisk c) ∧ history (NewSpool, cpDisk c) (cpEvents c) (cpNow c).

Hypothesis copies_run : ∀ h, running (copies h).

(** The follower answered an append with the number [n], which gave it the fragment [f]. *)
Definition acknowledged (h : holder) (session : string) (n : Z) (f : SessionFragment) : Prop :=
  ∃ appends seqs i a, Answered (RAppend session appends) (ASeqs (Ok seqs)) ∈ cpEvents (copies h)
    ∧ appends !! i = Some a ∧ seqs !! i = Some n ∧ f = MkFragment n (scopeString (saScope a)) (saEpoch a) (saSegments a).

(** What a recovery was told are answers of the followers: the seal, and pages of the tail
    after it, before the session was reclaimed. *)
Definition answered (P : peers) : Prop :=
  ∀ t session final, pSeal P t session = Some final →
    final < 2 ^ 64 - 1
    ∧ ∃ es0 es1, cpEvents (copies (holderOf t)) = es0 ++ Answered (RSeal session) (ANumber (Ok final)) :: es1
      ∧ ¬ Exists (reclaiming session) es0
      ∧ ∀ after page, pTail P t session after = Some page →
          ∃ mf mb es2 es3, es1 = es2 ++ Answered (RTail session after mf mb) (APage (Ok page)) :: es3
            ∧ ¬ Exists (reclaiming session) es2.

Lemma acknowledged_positive h session n f : acknowledged h session n f → 0 < n.
Proof.
  intros (appends & seqs & i & a & (es0 & es1 & He)%list_elem_of_split & Ha & Hn & _).
  destruct (copies_run h) as [Hd Hh]. rewrite He in Hh.
  destruct (history_event session _ _ _ _ _ _ Hd Hh) as (g & g' & σ1 & _ & _ & Ht & _).
  destruct (Ht eq_refl) as (_ & v & _ & Hseqs & Hacked).
  destruct (acked_lookup g' v appends seqs i a n Hacked Hseqs Ha Hn) as [-> _]. lia.
Qed.

(** Every append gets its numbers. *)
Lemma append_numbered h session appends seqs i a :
  Answered (RAppend session appends) (ASeqs (Ok seqs)) ∈ cpEvents (copies h) → appends !! i = Some a →
  ∃ n, seqs !! i = Some n.
Proof.
  intros (es0 & es1 & He)%list_elem_of_split Ha. destruct (copies_run h) as [Hd Hh]. rewrite He in Hh.
  destruct (history_event session _ _ _ _ _ _ Hd Hh) as (g & g' & σ1 & _ & _ & Ht & _).
  destruct (Ht eq_refl) as (_ & v & _ & -> & _). apply lookup_lt_Some in Ha.
  apply lookup_lt_is_Some_2. rewrite length_seqZ. lia.
Qed.

(** An append that was answered was answered before the seal. *)
Lemma before_seal h session n f es0 es1 final :
  acknowledged h session n f → cpEvents (copies h) = es0 ++ Answered (RSeal session) (ANumber (Ok final)) :: es1 →
  ∃ appends seqs i a b0 b1, es0 = b0 ++ Answered (RAppend session appends) (ASeqs (Ok seqs)) :: b1
    ∧ appends !! i = Some a ∧ seqs !! i = Some n ∧ f = MkFragment n (scopeString (saScope a)) (saEpoch a) (saSegments a).
Proof.
  intros (appends & seqs & i & a & Hin & Ha & Hn & Hf) He. rewrite He in Hin. destruct (copies_run h) as [Hd Hh]. rewrite He in Hh.
  apply elem_of_app in Hin as [(b0 & b1 & ->)%list_elem_of_split|[Hin|(b0 & b1 & ->)%list_elem_of_split]%elem_of_cons].
  - by exists appends, seqs, i, a, b0, b1.
  - done.
  - destruct (seal_is_final _ _ _ _ _ _ _ _ _ Hd Hh) as [_ Hno]. by destruct (Hno appends seqs eq_refl).
Qed.

Lemma answered_honest P : answered P → honest acknowledged P.
Proof.
  intros HP t session final Hs. destruct (HP t session final Hs) as (Hmax & es0 & es1 & He & Hno & Htail).
  destruct (copies_run (holderOf t)) as [Hd Hh]. rewrite He in Hh. split; [done|]. split.
  - intros n f Hack. destruct (before_seal _ _ _ _ _ _ _ Hack He) as (appends & seqs & i & a & b0 & b1 & -> & Ha & Hn & _).
    rewrite <- app_assoc in Hh. eapply acked_numbers; [exact Hd|exact Hh| |by eapply list_elem_of_lookup_2|by left|done].
    intros Hx. apply Hno. rewrite Exists_app in *. destruct Hx; [by left|right; by apply Exists_cons_tl].
  - intros after page n f Hp Hack Hr. destruct (Htail after page Hp) as (mf & mb & es2 & es3 & -> & Hno2).
    destruct (before_seal _ _ _ _ _ _ _ Hack He) as (appends & seqs & i & a & b0 & b1 & -> & Ha & Hn & ->).
    rewrite <- app_assoc in Hh. simpl in Hh.
    change (Answered (RSeal session) (ANumber (Ok final)) :: es2 ++ ?l) with ((Answered (RSeal session) (ANumber (Ok final)) :: es2) ++ l) in Hh.
    rewrite (app_assoc b1) in Hh.
    eapply (page_has_acked _ _ _ _ _ _ after mf mb page _ _ i a n Hd Hh); [|done|done|lia|lia].
    intros Hx. rewrite !Exists_app in *. destruct Hx as [Hx|[Hx|Hx]]; [by apply Hno; left|by apply Hno; right; apply Exists_cons_tl|].
    by inversion_clear Hx.
Qed.
End copies.

(** ** Durability *)

(** An append that was answered. *)
Lemma answered_uploaded `{Digest} `{Etag} `{leaseCodec} `{Codec RecoveryAddress} `{Codec LogRecord} {C : Type}
    copies handed (xs : list (action C recState unit)) w node session r f h appends seqs i a segment :
  (∀ h, running (copies h)) →
  Forall (fleetAction handed (answered copies)) xs → acts xs emptyWorld = Some w → NoDup (wThreads w).*1 →
  ¬ handed (logKey node session) → wStore w !! logKey node session = Some (marshal r) →
  nlStatus r = StatusSealed → sessionProto (nlProtoVersion r) = true → f ∈ nlFollowers r → memberOf r f = Some h →
  Answered (RAppend (nlSession r) appends) (ASeqs (Ok seqs)) ∈ cpEvents (copies h) → appends !! i = Some a →
  Validate (saScope a) = Ok tt → segment ∈ saSegments a →
  uploadedIn xs (saScope a, saEpoch a, segment).
Proof.
  intros Hrun Hxs Hacts Hnd Hk Hr Hs Hp Hf Hm Hin Ha Hv Hseg.
  destruct (append_numbered copies Hrun h _ _ _ i a Hin Ha) as [n Hn].
  eapply (settled_sealed (acknowledged copies) handed (acknowledged_positive copies Hrun) (answered copies)
    (answered_honest copies Hrun) xs w (logKey node session) r f h n
    (MkFragment n (scopeString (saScope a)) (saEpoch a) (saSegments a))); try done.
  - by exists appends, seqs, i, a.
  - unfold fragItems. cbn [sfScope sfEpoch sfSegments]. rewrite ParseScope_valid by done.
    apply list_elem_of_fmap. by exists segment.
Qed.

(** C4: what a follower acknowledged reaches the bucket. In every run of the fleet
    (any number of recoveries, by any processes, stopping anywhere, with bucket calls that
    fail and writes that are lost or late) over followers with any histories of failures
    and crashes: once the node log of a session that was not handed over is sealed,
    every segment of every append that a follower of the session answered was uploaded
    under its cell and epoch, or the cell was found deleted. *)
Theorem acknowledged_reaches_bucket `{Digest} `{Etag} `{leaseCodec} `{Codec RecoveryAddress} `{Codec LogRecord} {C : Type}
    copies handed (xs : list (action C recState unit)) w node session r f h appends seqs i a segment :
  (∀ h, running (copies h)) →
  Forall (fleetAction handed (answered copies)) xs → acts xs emptyWorld = Some w → NoDup (wThreads w).*1 →
  ¬ handed (logKey node session) → wStore w !! logKey node session = Some (marshal r) →
  nlStatus r = StatusSealed → sessionProto (nlProtoVersion r) = true → f ∈ nlFollowers r → memberOf r f = Some h →
  Answered (RAppend (nlSession r) appends) (ASeqs (Ok seqs)) ∈ cpEvents (copies h) → appends !! i = Some a →
  Validate (saScope a) = Ok tt → segment ∈ saSegments a →
  uploadedIn xs (saScope a, saEpoch a, segment).
Proof. apply answered_uploaded. Qed.

(** *** A run *)

Section example.
#[local] Existing Instance contentTag.
#[local] Existing Instance exampleDigest.
#[local] Existing Instance exampleLease.
#[local] Existing Instance exampleAddress.
#[local] Existing Instance Recovery.exampleLog.

(** The follower of the example of SpoolHistory.v, which lost its second append in a crash. *)
Definition exampleCopy : copy := MkCopy emptyDisk exampleEvents (play exampleMoves (NewSpool, emptyDisk)).2.

(** What it told a recovery. *)
Definition toldPeers : peers := {|
  pSeal _ s := if decide (s = "s") then Some 2 else None;
  pTail _ s after := if decide (s = "s" ∧ after = 0) then Some [exampleFragment 1 1; exampleFragment 2 3] else None;
  pHead _ _ := None;
  pTailOpen _ _ _ _ _ _ := None;
  pHeld _ := None;
  pAppend _ _ _ := Appended;
  pAppendBatch _ _ _ := Appended;
|}.

Lemma toldPeers_answered : answered (λ _, exampleCopy) toldPeers.
Proof.
  intros t session final. simpl. case_decide as Hs; [|done]. intros [= <-]. subst session. split; [lia|].
  exists (take 3 exampleEvents), (drop 4 exampleEvents). split; [done|]. split.
  - rewrite <- (app_nil_r (take 3 _)). apply (example_kept 3 0).
  - intros after page. case_decide as Hp; [|done]. intros [= <-]. destruct Hp as [_ ->].
    exists 0, 0, [], (drop 5 exampleEvents). split; [done|]. by intros ?%Exists_nil.
Qed.

(** The owner opens its session and is lost; another process recovers it. *)
Definition exampleFleet : list (action Empty_set recState unit) :=
  let xs := [Boot exampleState; Spawn 0 (Open "n1" "s" 7 ["f1"] ≫= λ _, mret tt)] in
  let ys := xs ++ finish 0 (MkTime 0 5000000) (after xs)
            ++ [Boot exampleState; Spawn 1 (Recover toldPeers id exampleConfig "n1" "s" ≫= λ _, mret tt)] in
  ys ++ finish 1 (MkTime 0 9000000) (after ys).

Lemma exampleFleet_ok : Forall (fleetAction (λ _, False) (answered (λ _, exampleCopy))) exampleFleet.
Proof.
  unfold exampleFleet. repeat (apply Forall_app; split); try (by apply finish_ok).
  - repeat (apply Forall_cons_2; [done || apply thread_open|]). done.
  - apply Forall_cons_2; [done|]. apply Forall_cons_2; [apply thread_recover, toldPeers_answered|done].
Qed.

Definition sealedRecord : LogRecord :=
  MkLog None "n1" "s" 7 ∅ {[ "f1" := 2 ]} ["f1"] StatusSealed ProtoVersionSession 9 {[ "f1" := 2 ]}.

Lemma acknowledged_reaches_bucket_witness : uploadedIn exampleFleet (exampleScope, 7, exampleSegment 1).
Proof.
  apply (acknowledged_reaches_bucket (λ _, exampleCopy) (λ _, False) exampleFleet (after exampleFleet) "n1" "s" sealedRecord
    "f1" (ByAddress "f1") [exampleAppend 1] [1] 0%nat (exampleAppend 1) (exampleSegment 1)).
  - intros _. split; [apply emptyDisk_start|apply example_history].
  - apply exampleFleet_ok.
  - apply acts_after. vm_compute. reflexivity.
  - vm_compute. repeat constructor; set_solver.
  - by intros [].
  - vm_compute. reflexivity.
  - reflexivity.
  - reflexivity.
  - apply list_elem_of_here.
  - reflexivity.
  - apply list_elem_of_here.
  - reflexivity.
  - reflexivity.
  - apply list_elem_of_here.
Defined.
End example.
