(* ===== verification/Shipped.v ===== *)
(** * From a commit to the bucket

    The composition of the owner's side (Ship.v and its transport, the pool of streams of
    StreamPool.v), the followers' servers (Peer.v) over their spools (SpoolHistory.v), and
    recovery (Durability.v). A follower's server runs over its machine with all its
    failures; its log are the requests that it answered and the rounds of its streams. The network
    delivers each request to any server, or none, and may lose responses; it does not make
    them up, and a connection carries the bytes of its two ends until it breaks. An
    address that was bound to an identity need not lead to the machine with that identity. *)

From S2P Require Import Prelude Cell Ltx Bucket Decimal Frames Disk Spool SpoolDurable SpoolHistory.
From S2P Require Import Fleet Objects Lease Discipline NodeLog Recovery Settled Stream Peer Ship StreamPool Durability.

(** ** Servers *)

(** What a server did: it answered a request; a stream of a session handled a group. *)
Inductive entry : Type :=
| Served (r : httpRequest) (resp : httpResponse)
| Round (session : string) (frames : list BatchFrame) (ok : bool).

Section servers.
Context `{Digest} (authorized : httpRequest → bool)
  (uploader : option (Scope → Z → bytes → io Spool (result spoolError unit))) (srv : peerServer).

(** What the answer to a round says. *)
Definition roundStored (session : string) (frames : list BatchFrame) (ok : bool) (es : list SpoolHistory.event) : Prop :=
  ok = true → session ≠ EmptyString → ∃ seqs, Answered (RAppend session (appendOf <$> frames)) (ASeqs (Ok seqs)) ∈ es.

(** A server from a state of its machine: the requests it answered and the rounds of its streams, with
    the events that explain them, among other events of the spool (crashes and restarts). *)
Inductive serverRun : Spool * disk → list entry → list SpoolHistory.event → Spool * disk → Prop :=
| run_done σ : serverRun σ [] [] σ
| run_served m r resp m' es log es' σ :
    peerServe srv authorized uploader r m = (Some resp, m') → history (mem m, dsk m) es (mem m', dsk m') →
    explained authorized uploader srv r resp es →
    serverRun (mem m', dsk m') log es' σ → serverRun (mem m, dsk m) (Served r resp :: log) (es ++ es') σ
| run_round m session frames ok m' es log es' σ :
    handleGroup session frames m = (Some (replicate (length frames) (ackByte ok)), m') →
    history (mem m, dsk m) es (mem m', dsk m') → roundStored session frames ok es →
    serverRun (mem m', dsk m') log es' σ → serverRun (mem m, dsk m) (Round session frames ok :: log) (es ++ es') σ
| run_event σ e σ1 log es σ2 : SpoolHistory.step σ e σ1 → serverRun σ1 log es σ2 → serverRun σ log (e :: es) σ2.

Lemma serverRun_history σ log es σ' : serverRun σ log es σ' → history σ es σ'.
Proof. induction 1; [constructor|by eapply history_trans|by eapply history_trans|by econstructor]. Qed.

(** Every entry of the log has its events. *)
Lemma serverRun_log σ log es σ' e :
  serverRun σ log es σ' → e ∈ log →
  ∃ es', es' ⊆ es ∧ match e with
                    | Served r resp => explained authorized uploader srv r resp es'
                    | Round session frames ok => roundStored session frames ok es'
                    end.
Proof.
  induction 1 as [|m r0 resp0 m' es log es' σ _ _ Hex _ IH|m se fr ok m' es log es' σ _ _ Hex _ IH|σ e0 σ1 log es σ2 _ _ IH];
    [by intros ?%elem_of_nil| | |].
  - intros [->|Hin]%elem_of_cons; [exists es; split; [set_solver|done]|]. destruct (IH Hin) as (es1 & ? & ?). exists es1. split; [set_solver|done].
  - intros [->|Hin]%elem_of_cons; [exists es; split; [set_solver|done]|]. destruct (IH Hin) as (es1 & ? & ?). exists es1. split; [set_solver|done].
  - intros Hin. destruct (IH Hin) as (es1 & ? & ?). exists es1. split; [set_solver|done].
Qed.

Lemma serverRun_trans σ log es σ1 log' es' σ2 :
  serverRun σ log es σ1 → serverRun σ1 log' es' σ2 → serverRun σ (log ++ log') (es ++ es') σ2.
Proof.
  induction 1 as [|m r0 resp0 m' es log es0 σ H1 H2 H3 _ IH|m se fr ok m' es log es0 σ H1 H2 H3 _ IH|σ e0 σ1 log es σ3 H1 _ IH]; intros Hr.
  - done.
  - rewrite <- app_assoc. simpl. eapply run_served; [exact H1|done|done|by apply IH].
  - rewrite <- app_assoc. simpl. eapply run_round; [exact H1|done|done|by apply IH].
  - simpl. eapply run_event; [exact H1|by apply IH].
Qed.

(** Whatever requests come, the server has a run. *)
Lemma serverRun_serve σ log es m r resp m' :
  (∀ u sc epoch segment, uploader = Some u → traces (u sc epoch segment) (λ _ _, True)) → okAppendRequest r →
  serverRun σ log es (mem m, dsk m) → peerServe srv authorized uploader r m = (Some resp, m') →
  ∃ es', serverRun σ (log ++ [Served r resp]) (es ++ es') (mem m', dsk m').
Proof.
  intros Hu Hr Hrun E. destruct (peerServe_explained _ _ _ _ _ _ _ Hu Hr E) as (es' & Hh & Hex). exists es'.
  eapply serverRun_trans; [exact Hrun|]. rewrite <- (app_nil_r es'). eapply run_served; [exact E|done|done|constructor].
Qed.

(** And whatever groups come on the streams of sessions. *)
Lemma serverRun_stream σ log es m session frames acks m' :
  session ≠ EmptyString → Forall okFrame frames → frames ≠ [] → zlen frames < 2 ^ 63 →
  serverRun σ log es (mem m, dsk m) → handleGroup session frames m = (Some acks, m') →
  ∃ ok es', serverRun σ (log ++ [Round session frames ok]) (es ++ es') (mem m', dsk m').
Proof.
  intros Hs Hf Hne Hl Hrun E. destruct (traces_handleGroup session frames Hs Hf Hl m acks m' E) as (es' & Hh & [ok ->] & Hst).
  exists ok, es'. eapply serverRun_trans; [exact Hrun|]. rewrite <- (app_nil_r es'). eapply run_round; [exact E|done| |constructor].
  intros -> _. apply Hst. destruct frames; [done|apply list_elem_of_here].
Qed.
End servers.

(** ** An append over the network *)

(** Who holds what is appended at an address, as far as the owner knows. *)
Definition heldBy (targets : gmap string PeerIdentity) (addr : string) : holder :=
  match targets !! addr with Some id => ByIdentity id | None => ByAddress addr end.

(** A response comes from some server; from the one at the address when the owner knows no identity. *)
Definition answersAt (log : holder → list entry) (targets : gmap string PeerIdentity)
    (remote : holder) (addr : string) (r : httpRequest) (resp : httpResponse) : Prop :=
  Served r resp ∈ log remote ∧ (targets !! addr = None → remote = ByAddress addr).

(** What was handled on a connection are rounds of the server at its other end, for the session of
    the handshake. *)
Definition wired (log : holder → list entry) (session : string) (p : pool holder) : Prop :=
  ∀ c g ok, c ∈ tpConns p → (g, ok) ∈ lnStored (cnLane c) → Round session g ok ∈ log (cnRemote c).

Section network.
Context `{Digest} (authorized : httpRequest → bool)
  (uploader : option (Scope → Z → bytes → io Spool (result spoolError unit)))
  (srv : holder → peerServer) (copies : holder → copy) (log : holder → list entry)
  (targets : gmap string PeerIdentity) (session : string) (lanes pipeline : Z) (fallback : string → Scope → Z → list bytes → bool).
Abbreviation cfg := (NewSessionStreamTransport session lanes pipeline).
Hypothesis session_some : session ≠ EmptyString.
Hypothesis servers_run : ∀ h, startDisk (cpDisk (copies h)) ∧
  serverRun authorized uploader (srv h) (NewSpool, cpDisk (copies h)) (log h) (cpEvents (copies h)) (cpNow (copies h)).
(** An identity is the name of one machine. *)
Hypothesis identities : ∀ h id, psLease (srv h) = Some id → h = ByIdentity id.
Hypothesis targets_named : ∀ addr id, targets !! addr = Some id → pNode id ≠ EmptyString.

Lemma copies_running h : running (copies h).
Proof. destruct (servers_run h) as [Hd Hr]. split; [done|]. by eapply serverRun_history. Qed.

(** The server that answered the handshake is the one that holds what is sent to the address. *)
Lemma handshake_holder h addr resp :
  answersAt log targets h addr (streamRequest session (idOf targets addr)) resp → upgraded (idOf targets addr) resp = true →
  heldBy targets addr = h.
Proof.
  intros [Hlog Haddr] [_ Hv]%andb_true_iff. unfold heldBy, idOf, targetIdentity, targetsGet in *.
  destruct (targets !! addr) as [id|] eqn:Et; [|symmetry; by apply Haddr]. simpl in *. pose proof (targets_named addr id Et) as Hn.
  destruct (serverRun_log _ _ _ _ _ _ _ _ (proj2 (servers_run h)) Hlog) as (es & _ & [(m & m' & E & _) _ _]).
  destruct (decide (psLease (srv h) = Some id)) as [Hl|Hl]; [symmetry; by apply identities|].
  destruct (wrong_identity _ _ _ _ (upgradeRequest session) _ _ _ Hn eq_refl Hl E) as [-> _]. by rewrite verify_without in Hv.
Qed.

(** A call of the pool that succeeds was answered by the follower's spool, in a group. *)
Lemma accepted_answered p addr sc epoch segs :
  poolReach cfg targets maxStreamCommitFrames maxStreamCommitBytes (answersAt log targets) fallback p → wired log session p →
  poolAccepted p addr sc epoch segs →
  ∃ appends seqs i, Answered (RAppend session appends) (ASeqs (Ok seqs)) ∈ cpEvents (copies (heldBy targets addr))
    ∧ appends !! i = Some (MkAppend sc epoch segs) ∧ Validate sc = Ok tt.
Proof.
  intros Hp Hw Hacc. assert (0 < pcLanes cfg) as Hlanes by (simpl; case_decide; lia).
  destruct (accepted_stored cfg targets _ _ _ _ Hlanes p addr sc epoch segs Hp session_some Hacc)
    as (c & g & resp & Hc & Ha & Hans & Hup & Hg & Hin & Hok).
  rewrite (handshake_holder (cnRemote c) addr resp Hans Hup).
  destruct (serverRun_log _ _ _ _ _ _ _ _ (proj2 (servers_run (cnRemote c))) (Hw c g true Hc Hg)) as (es & Hsub & Hst).
  destruct (Hst eq_refl session_some) as [seqs Hans']. apply list_elem_of_lookup in Hin as [i Hi].
  exists (appendOf <$> g), seqs, i. split; [by apply Hsub|]. split; [by rewrite list_lookup_fmap, Hi|]. apply Hok.
Qed.
End network.

(** ** A commit *)

(** The shipper has reported a segment as replicated, by the follower at [addr]: [Ship] from a batch of
    its shard; [ShipNow], [ShipNowAsync] or [Ship] with a full queue from a race of its own. *)
Inductive reported (cfg : Ship.config) (stored : string → Scope → Z → list bytes → Prop)
    (sc : Scope) (epoch : Z) (seg : bytes) (addr : string) : Prop :=
| reported_batch launch up s it :
    shardReach cfg launch stored up s → Forall okItem (shShipped s) → it ∈ shShipped s →
    shDone s !! siDone it = Some (Acked addr) → siScope it = sc → siEpoch it = epoch → siSeg it = seg →
    reported cfg stored sc epoch seg addr
| reported_now followers launched :
    shipNow cfg stored followers launched sc epoch seg (Acked addr) → reported cfg stored sc epoch seg addr.

Lemma reported_stored cfg stored sc epoch seg addr :
  reported cfg stored sc epoch seg addr → ∃ segs, seg ∈ segs ∧ stored addr sc epoch segs.
Proof.
  intros [launch up s it Hs Hok Hit Hd <- <- <-|followers launched Hn].
  - destruct (acked_stored _ _ _ _ _ _ _ Hs Hok Hit Hd) as (items & Hin & _ & _ & Hst).
    exists (siSeg <$> items). split; [by apply list_elem_of_fmap_2|done].
  - exists [seg]. split; [apply list_elem_of_here|]. by eapply shipNow_stored.
Qed.

(** C1: a commit that an owner's shipper reports as replicated is not lost. The owner ships it in a
    batch of its shard or in a race of its own, over its pool of streams: calls, dials,
    failures of streams and the shutdown in any order, over any network that makes up neither
    responses nor bytes, with batches that a stream can carry (64 MiB, [okFrame]), valid
    cells, follower addresses without comma or hash ([okItem]) and the identities of the
    ensemble bound before the first call. The followers' servers, spools and
    machines run with any failures, and after the owner is lost any processes recover the
    session. Once the node log of the session is sealed, with the follower that acknowledged
    the commit as a member, the commit's segment was uploaded under its cell and epoch, or the
    cell was found deleted. *)
Theorem shipped_reaches_bucket `{Digest} `{Etag} `{leaseCodec} `{Codec RecoveryAddress} `{Codec LogRecord} {C : Type}
    authorized uploader srv copies log targets lanes pipeline fallback p cfg sc epoch seg addr
    handed (xs : list (action C recState unit)) w node session r :
  (∀ h, startDisk (cpDisk (copies h)) ∧
     serverRun authorized uploader (srv h) (NewSpool, cpDisk (copies h)) (log h) (cpEvents (copies h)) (cpNow (copies h))) →
  (∀ h id, psLease (srv h) = Some id → h = ByIdentity id) →
  (∀ addr id, targets !! addr = Some id → pNode id ≠ EmptyString) →
  poolReach (NewSessionStreamTransport (nlSession r) lanes pipeline) targets maxStreamCommitFrames maxStreamCommitBytes
    (answersAt log targets) fallback p →
  wired log (nlSession r) p → reported cfg (poolAccepted p) sc epoch seg addr →
  Forall (fleetAction handed (answered copies)) xs → acts xs emptyWorld = Some w → NoDup (wThreads w).*1 →
  ¬ handed (logKey node session) → wStore w !! logKey node session = Some (marshal r) →
  nlStatus r = StatusSealed → sessionProto (nlProtoVersion r) = true → nlSession r ≠ EmptyString →
  addr ∈ nlFollowers r → memberOf r addr = Some (heldBy targets addr) →
  uploadedIn xs (sc, epoch, seg).
Proof.
  intros Hrun Hids Htn Hpool Hwired Hrep Hxs Hacts Hnd Hk Hr Hst Hp Hne Hf Hm.
  destruct (reported_stored _ _ _ _ _ _ Hrep) as (segs & Hin & Hacc).
  destruct (accepted_answered authorized uploader srv copies log targets _ lanes pipeline fallback Hne Hrun Hids Htn
    p addr sc epoch segs Hpool Hwired Hacc) as (appends & seqs & i & Hans & Hi & Hv).
  apply (answered_uploaded copies handed xs w node session r addr (heldBy targets addr) appends seqs i (MkAppend sc epoch segs));
    try done. by apply (copies_running authorized uploader srv copies log).
Qed.

(** *** A run *)

Section example.
#[local] Existing Instance contentTag.
#[local] Existing Instance exampleDigest.
#[local] Existing Instance exampleLease.
#[local] Existing Instance exampleAddress.
#[local] Existing Instance Recovery.exampleLog.

(** The follower of Durability.v: its first append came over a stream. *)
Definition shipServer : peerServer := MkPeerServer true None.
Definition shipRequest : httpRequest := streamRequest "s" noIdentity.
Definition shipResponse : httpResponse := MkResponse 101 {[ "Connection" := "Upgrade"; "Upgrade" := StreamProtocol ]} BUpgraded.
Definition shipFrame : BatchFrame := MkBatchFrame exampleScope 7 [exampleSegment 1].
Definition bootMachine : machine Spool := MkMachine NewSpool emptyDisk [].
Definition firstMachine : machine Spool := (handleGroup "s" [shipFrame] bootMachine).2.
Definition shipEntries : list entry := [Served shipRequest shipResponse; Round "s" [shipFrame] true].

Lemma hand_shaken : peerServe shipServer (λ _, true) None shipRequest bootMachine = (Some shipResponse, bootMachine).
Proof. vm_compute. reflexivity. Qed.

Lemma first_handled : handleGroup "s" [shipFrame] bootMachine = (Some (replicate 1 (ackByte true)), firstMachine).
Proof. vm_compute. reflexivity. Qed.

Definition firstMove : move := Request (RAppend "s" [exampleAppend 1]) [] false.

Lemma first_move :
  makeMove firstMove (NewSpool, emptyDisk)
    = (Answered (RAppend "s" [exampleAppend 1]) (ASeqs (Ok [1])), (mem firstMachine, dsk firstMachine)).
Proof. vm_compute. reflexivity. Qed.

Lemma other_moves :
  play (drop 1 exampleMoves) (mem firstMachine, dsk firstMachine) = (drop 1 exampleEvents, (play exampleMoves (NewSpool, emptyDisk)).2).
Proof. vm_compute. reflexivity. Qed.

Lemma made_step v (σ : Spool * disk) e σ' :
  (∀ session, ∃ g, holdsUp session g σ.1 σ.2) → okMove v → makeMove v σ = (e, σ') → SpoolHistory.step σ e σ'.
Proof. intros Hup Hv E. pose proof (makeMove_step v σ Hup Hv) as Hs. by rewrite E in Hs. Qed.

Lemma played moves (σ : Spool * disk) es σ' :
  (∀ session, ∃ g, holdsUp session g σ.1 σ.2) → Forall okMove moves → play moves σ = (es, σ') → history σ es σ'.
Proof. intros Hup Hv E. pose proof (play_history moves σ Hup Hv) as Hs. by rewrite E in Hs. Qed.

Lemma first_run :
  SpoolHistory.step (NewSpool, emptyDisk) (Answered (RAppend "s" [exampleAppend 1]) (ASeqs (Ok [1]))) (mem firstMachine, dsk firstMachine)
  ∧ history (mem firstMachine, dsk firstMachine) (drop 1 exampleEvents) (play exampleMoves (NewSpool, emptyDisk)).2.
Proof.
  assert (∀ session, ∃ g, holdsUp session g NewSpool emptyDisk) as Hup
    by (intros session; exists noPromise; apply start_promise, emptyDisk_start).
  assert (okMove firstMove) as Hq by (apply example_ok; lia).
  pose proof (made_step firstMove (NewSpool, emptyDisk) _ _ Hup Hq first_move) as Hs. split; [done|]. eapply played; [|apply Forall_drop, exampleMoves_ok|apply other_moves].
  intros session. destruct (Hup session) as [g Hg]. destruct (step_promise session g _ _ _ Hs Hg) as (g' & Hg' & _). by exists g'.
Qed.

Lemma history_run srv σ es σ' : history σ es σ' → serverRun (λ _, true) None srv σ [] es σ'.
Proof. induction 1; [constructor|by econstructor]. Qed.

Lemma ship_run : serverRun (λ _, true) None shipServer (NewSpool, emptyDisk) shipEntries exampleEvents
  (play exampleMoves (NewSpool, emptyDisk)).2.
Proof.
  destruct first_run as [Hs Hh].
  apply (run_served _ _ _ bootMachine shipRequest shipResponse bootMachine [] [Round "s" [shipFrame] true] exampleEvents).
  - apply hand_shaken.
  - constructor.
  - split; [exists bootMachine, bootMachine; split; [apply hand_shaken|constructor]|by split|discriminate].
  - apply (run_round _ _ _ bootMachine "s" [shipFrame] true firstMachine [Answered (RAppend "s" [exampleAppend 1]) (ASeqs (Ok [1]))]
      [] (drop 1 exampleEvents)).
    + apply first_handled.
    + econstructor; [exact Hs|constructor].
    + intros _ _. exists [1]. apply list_elem_of_here.
    + by apply history_run.
Qed.

Definition shipLog (h : holder) : list entry :=
  match h with ByAddress a => if decide (a = "f1") then shipEntries else [] | ByIdentity _ => [] end.

(** The owner's pool: a call dials the follower, its frame is stored, and the answer comes back. *)
Definition shipPoolConfig : poolConfig := NewSessionStreamTransport "s" 0 0.
Definition noFallback (addr : string) (sc : Scope) (epoch : Z) (segs : list bytes) : bool := false.

#[local] Instance SessionFragment_eq_dec : EqDecision SessionFragment.
Proof. solve_decision. Defined.
#[local] Instance HeldSegment_eq_dec : EqDecision HeldSegment.
Proof. solve_decision. Defined.
#[local] Instance BatchFrame_eq_dec : EqDecision BatchFrame.
Proof. solve_decision. Defined.
#[local] Instance httpRequest_eq_dec : EqDecision httpRequest.
Proof. solve_decision. Defined.
#[local] Instance httpBody_eq_dec : EqDecision httpBody.
Proof. solve_decision. Defined.
#[local] Instance httpResponse_eq_dec : EqDecision httpResponse.
Proof. solve_decision. Defined.
#[local] Instance entry_eq_dec : EqDecision entry.
Proof. solve_decision. Defined.
#[local] Instance holder_eq_dec : EqDecision holder.
Proof. solve_decision. Defined.

#[local] Instance answersAt_dec remote addr r resp : Decision (answersAt shipLog ∅ remote addr r resp).
Proof. unfold answersAt. apply _. Defined.

Definition shipPoolMoves : list (poolMove holder) :=
  [PCall 0 "f1" shipFrame; PDial 0; PDialed 0 (ByAddress "f1") shipResponse; PStart 0; PLane 0 (MGate 0); PLane 0 (MRegister 0);
   PLane 0 (MWrite 0); PLane 0 (MFollow (MkReader [] [encodeFrame shipFrame])); PLane 0 MAck; PLane 0 (MReturn 0); PReturn 0].

Definition shipPool : pool holder :=
  default newPool (poolRun shipPoolConfig ∅ maxStreamCommitFrames maxStreamCommitBytes (answersAt shipLog ∅) shipPoolMoves newPool).

Lemma shipFrame_ok : okFrame shipFrame.
Proof.
  split; [done| |vm_compute; discriminate]. split; [done|done| |done].
  apply Forall_singleton. unfold shortSegment. vm_compute. reflexivity.
Qed.

Lemma shipPool_reach :
  poolReach shipPoolConfig ∅ maxStreamCommitFrames maxStreamCommitBytes (answersAt shipLog ∅) noFallback shipPool.
Proof.
  apply (poolRun_reach _ _ _ _ _ _ shipPoolMoves).
  - unfold shipPoolMoves. apply Forall_cons_2; [apply shipFrame_ok|]. by repeat constructor.
  - intros n ca. unfold newPool. cbn [tpCalls]. rewrite lookup_empty. discriminate.
  - vm_compute. reflexivity.
Qed.

Lemma shipPool_conns :
  (λ c : connection holder, (cnRemote c, lnStored (cnLane c))) <$> tpConns shipPool = [(ByAddress "f1", [([shipFrame], true)])].
Proof. vm_compute. reflexivity. Qed.

Lemma shipPool_wired : wired shipLog "s" shipPool.
Proof.
  intros c g ok Hc Hg. apply (list_elem_of_fmap_2 (λ c : connection holder, (cnRemote c, lnStored (cnLane c)))) in Hc.
  rewrite shipPool_conns in Hc. apply list_elem_of_singleton in Hc. injection Hc as E1 E2. rewrite E2 in Hg. rewrite E1.
  apply list_elem_of_singleton in Hg. injection Hg as -> ->. cbn [shipLog]. rewrite decide_True by done.
  unfold shipEntries. right. apply list_elem_of_here.
Qed.

Definition shipConfig : Ship.config := NewShipBatcher 0 0 0 0 0.
Definition shipItem1 : shipItem := MkItem exampleScope 7 ["f1"] "f1" (exampleSegment 1) 0.

Lemma shipPool_accepted : poolAccepted shipPool "f1" exampleScope 7 [exampleSegment 1].
Proof. exists 0%nat. vm_compute. reflexivity. Qed.

(** The shard of the commit, with what it needs of the transport. *)
Definition shipStored (addr : string) (sc : Scope) (epoch : Z) (segs : list bytes) : Prop :=
  addr = "f1" ∧ sc = exampleScope ∧ epoch = 7 ∧ segs = [exampleSegment 1].

#[local] Instance shipStored_dec addr sc epoch segs : Decision (shipStored addr sc epoch segs).
Proof. unfold shipStored. apply _. Defined.

Definition shipMoves : list shardMove := [MShip shipItem1; MTick; MDrain; MFlush; MHand; MSend; MRace 0 (EvResult 0 true)].
Definition shipShard : shard := default newShard (shardRun shipConfig (λ _ _, true) shipStored shipMoves newShard).

Lemma shipShard_reach : shardReach shipConfig (λ _ _, true) (poolAccepted shipPool) true shipShard.
Proof.
  apply (shardReach_mono _ _ shipStored).
  - intros addr sc epoch segs (-> & -> & -> & ->). apply shipPool_accepted.
  - apply (shardRun_reach _ _ _ shipMoves). vm_compute. reflexivity.
Qed.

Lemma shipShard_items : shShipped shipShard = [shipItem1].
Proof. vm_compute. reflexivity. Qed.

Lemma shipItem1_ok : okItem shipItem1.
Proof. split; [done|done|done|done|by repeat constructor|by repeat constructor]. Qed.

Lemma ship_reported : reported shipConfig (poolAccepted shipPool) exampleScope 7 (exampleSegment 1) "f1".
Proof.
  apply (reported_batch _ _ _ _ _ _ (λ _ _, true) true shipShard shipItem1); try done.
  - apply shipShard_reach.
  - rewrite shipShard_items. apply Forall_singleton, shipItem1_ok.
  - rewrite shipShard_items. apply list_elem_of_here.
Qed.

Lemma ship_servers h :
  startDisk (cpDisk exampleCopy)
  ∧ serverRun (λ _, true) None shipServer (NewSpool, cpDisk exampleCopy) (shipLog h) (cpEvents exampleCopy) (cpNow exampleCopy).
Proof.
  unfold exampleCopy. cbn [cpDisk cpEvents cpNow]. split; [apply emptyDisk_start|].
  destruct h as [a|id]; cbn [shipLog]; [|apply history_run, example_history].
  case_decide; [apply ship_run|apply history_run, example_history].
Qed.

Lemma shipped_reaches_bucket_witness : uploadedIn exampleFleet (exampleScope, 7, exampleSegment 1).
Proof.
  apply (shipped_reaches_bucket (λ _, true) None (λ _, shipServer) (λ _, exampleCopy)
    shipLog ∅ 0 0 noFallback shipPool shipConfig exampleScope 7 (exampleSegment 1) "f1" (λ _, False)
    exampleFleet (after exampleFleet) "n1" "s" sealedRecord).
  - apply ship_servers.
  - intros h id. discriminate.
  - intros addr id Hx. by rewrite lookup_empty in Hx.
  - apply shipPool_reach.
  - apply shipPool_wired.
  - apply ship_reported.
  - apply exampleFleet_ok.
  - apply acts_after. vm_compute. reflexivity.
  - vm_compute. repeat constructor; set_solver.
  - by intros [].
  - vm_compute. reflexivity.
  - reflexivity.
  - reflexivity.
  - done.
  - apply list_elem_of_here.
  - reflexivity.
Defined.
End example.
