(* ===== verification/Names.v ===== *)
(** * Names of replicated objects ([internal/replica], [internal/compaction])

    The segments of a cell live below [cells/<scope>/ltx/e<epoch>/], the compacted
    ones below [L1/] there. Restoring, computing watermarks and collecting garbage
    read what an object holds off its name where the name proves it; this file has
    the names and their readers.

    The theorems: the readers invert the names that [SegmentName] and [BatchName]
    give, and the strict reader, on whose word objects are skipped and deleted,
    accepts exactly those names, so a covered name is never a guess. *)

From S2P Require Import Prelude Ltx Cell Bucket Decimal SnapshotParts.

(** ** Strings ([strings], [strconv]) *)

(** [strings.CutSuffix] *)
Fixpoint cutSuffix (suf s : string) : option string :=
  if decide (s = suf) then Some EmptyString
  else match s with EmptyString => None | String c s => String c <$> cutSuffix suf s end.

(** [strings.TrimSuffix] *)
Definition trimSuffix (suf s : string) : string := default s (cutSuffix suf s).

(** [strings.CutPrefix] *)
Fixpoint cutPrefix (p s : string) : option string :=
  match p, s with
  | EmptyString, _ => Some s
  | String c p, String d s => if decide (c = d) then cutPrefix p s else None
  | _, EmptyString => None
  end.

(** The text before and after the first occurrence of a byte ([strings.IndexByte]). *)
Fixpoint cutAt (c : Ascii.ascii) (s : string) : option (string * string) :=
  match s with
  | EmptyString => None
  | String d s => if decide (d = c) then Some (EmptyString, s)
                  else '(a, b) ← cutAt c s; Some (String d a, b)
  end.

(** The text before the first occurrence of a string ([strings.Index]). *)
Fixpoint beforeSub (sub s : string) : option string :=
  if hasPrefix sub s then Some EmptyString
  else match s with EmptyString => None | String c s => String c <$> beforeSub sub s end.

(** The text after the last slash ([strings.LastIndexByte]). *)
Definition baseName (key : string) : string := default key (last (split slash key)).

(** [strconv.ParseUint(s, 10, 64)] *)
Definition parseUint (s : string) : option Z := ParseUint (bs s).

Definition dash : Ascii.ascii := Ascii.Ascii true false true true false true false false.
Definition dot : Ascii.ascii := Ascii.Ascii false true true true false true false false.
Definition zero : Ascii.ascii := Ascii.Ascii false false false false true true false false.

Example dash_ok : String dash (String dot (String zero EmptyString)) = "-.0".
Proof. reflexivity. Qed.

(** ** Keys *)

(** [Prefix] *)
Definition LtxPrefix (s : Scope) (epoch : Z) : string := scopeKey s +:+ "/ltx/e" +:+ fmt_d epoch +:+ "/".
Definition L1Prefix (s : Scope) (epoch : Z) : string := LtxPrefix s epoch +:+ "L1/".
Definition ManifestName (s : Scope) (epoch : Z) : string := L1Prefix s epoch +:+ "manifest.json".
Definition IndexName (s : Scope) (epoch : Z) : string := L1Prefix s epoch +:+ "index.bin".
Definition SnapshotStartedName (s : Scope) (epoch txid : Z) : string :=
  LtxPrefix s epoch +:+ fmt_d txid +:+ ".snapshot-started".
Definition SnapshotDoneName (s : Scope) (epoch txid : Z) : string :=
  LtxPrefix s epoch +:+ fmt_d txid +:+ ".snapshot-done".

Definition ValidateKey (key prefix : string) : bool := hasPrefix prefix key.

Definition isSegmentKey (key : string) : bool :=
  let name := baseName key in
  hasSuffix name ".snapshot" || hasSuffix name ".ltx" || hasSuffix name ".batch"
  || hasSuffix name ".link" || hasSuffix name ".marker".

(** The epoch directory of a key below [<scope>/ltx/]: the epoch and the rest. *)
Definition epochOfKey (s : Scope) (key : string) : option (Z * string) :=
  rest ← cutPrefix (scopeKey s +:+ "/ltx/e") key;
  '(e, name) ← cutAt slash rest;
  if decide (e = EmptyString) then None else n ← parseUint e; Some (n, name).

Definition resourceObjectEpoch (s : Scope) (key : string) : option Z := fst <$> epochOfKey s key.

(** ** Spans *)

Record segmentSpan := MkSpan {
  spStart : Z;
  spEnd : Z;
  spSnapshot : bool;
  spMarker : bool;
}.

#[global] Instance segmentSpan_eq_dec : EqDecision segmentSpan.
Proof. solve_decision. Defined.

Definition parseSegmentRange (base : string) : option segmentSpan :=
  '(a, b) ← cutAt dash base;
  if decide (a = EmptyString ∨ b = EmptyString) then None else
  start ← parseUint a;
  end_ ← parseUint b;
  if decide (end_ < start) then None else Some (MkSpan start end_ false false).

(** The text before a [.p], if there is text before it. *)
Definition beforePart (base : string) : option string :=
  match beforeSub ".p" base with
  | Some EmptyString | None => None
  | Some a => Some a
  end.

Definition snapshotSpan (txid : string) : option segmentSpan :=
  n ← parseUint txid; Some (MkSpan n n true false).

Definition parseSegmentSpan (name : string) : option segmentSpan :=
  match cutSuffix ".snapshot" name with
  | Some base => snapshotSpan (default base (beforePart base))
  | None =>
  match cutSuffix ".batch" name with
  | Some base =>
      let base := trimSuffix ".s" (trimSuffix ".m" (trimSuffix ".d" base)) in
      match beforePart base with
      | Some txid => snapshotSpan txid
      | None => parseSegmentRange base
      end
  | None =>
  match cutSuffix ".ltx" name with
  | Some base => parseSegmentRange base
  | None =>
  match cutSuffix ".marker" name with
  | Some base => n ← parseUint base; if decide (n = 0) then None else Some (MkSpan n (n - 1) false true)
  | None => None
  end end end end.

Definition batchSpanKnown (name : string) : bool := hasSuffix name ".d.batch" || hasSuffix name ".s.batch".

(** [canonicalDecimal], and [canonicalUint] of the compaction *)
Definition canonicalDecimal (s : string) : bool :=
  match s with
  | EmptyString => false
  | String c t => (bool_decide (t = EmptyString) || bool_decide (c ≠ zero)) && digits s
  end.

(** [canonicalSnapshotTxID], and [strictSnapshotEnd] of the compaction; the part fits 32 bits
    when it is below [MaxSnapshotParts]. *)
Definition canonicalSnapshotTxID (name : string) : option Z :=
  base ← cutSuffix ".snapshot" name;
  match cutAt dot base with
  | Some (txid, part) =>
      part ← cutPrefix "p" part;
      if canonicalDecimal txid && canonicalDecimal part then
        n ← parseUint txid;
        p ← parseUint part;
        if decide (MaxSnapshotParts ≤ p) then None else Some n
      else None
  | None => if canonicalDecimal base then parseUint base else None
  end.

Definition strictRangeEnd (base : string) : option Z :=
  '(a, b) ← cutAt dash base;
  if canonicalDecimal a && canonicalDecimal b then
    start ← parseUint a;
    end_ ← parseUint b;
    if decide (end_ < start) then None else Some end_
  else None.

(** The end of what the name covers, and whether the object holds exactly one segment;
    [None] when the name proves nothing. *)
Definition strictCoveredNameEnd (name : string) : option (Z * bool) :=
  if hasSuffix name ".snapshot" then e ← canonicalSnapshotTxID name; Some (e, true)
  else match cutSuffix ".ltx" name with
  | Some base => e ← strictRangeEnd base; Some (e, true)
  | None =>
  match cutSuffix ".d.batch" name with
  | Some base => e ← strictRangeEnd base; Some (e, false)
  | None => None
  end end.

(** ** Cutting strings *)

Lemma append_cons c s t : String c s +:+ t = String c (s +:+ t).
Proof. done. Qed.

Lemma append_nil_r s : s +:+ EmptyString = s.
Proof. induction s as [|c s IH]; [done|]. by rewrite append_cons, IH. Qed.

Lemma cutSuffix_Some suf s r : cutSuffix suf s = Some r → s = r +:+ suf.
Proof.
  revert r. induction s as [|c s IH]; intros r; cbn [cutSuffix]; case_decide as E; try done.
  - by intros [= <-].
  - intros [= <-]. by rewrite E.
  - intros (t & Ht & ->)%fmap_Some. rewrite append_cons. f_equal. by apply IH.
Qed.

Lemma length_string_app a b : String.length (a +:+ b) = (String.length a + String.length b)%nat.
Proof. induction a as [|c a IH]; [done|]. rewrite append_cons. cbn. by rewrite IH. Qed.

Lemma cutSuffix_app suf a b :
  (String.length suf ≤ String.length b)%nat → cutSuffix suf (a +:+ b) = String.append a <$> cutSuffix suf b.
Proof.
  intros Hlen. induction a as [|c a IH].
  { change (EmptyString +:+ b) with b. destruct (cutSuffix suf b); done. }
  rewrite append_cons. cbn [cutSuffix]. rewrite decide_False.
  - rewrite IH. by destruct (cutSuffix suf b).
  - intros E. apply (f_equal String.length) in E. cbn in E. rewrite length_string_app in E. lia.
Qed.

Lemma cutSuffix_own suf a : cutSuffix suf (a +:+ suf) = Some a.
Proof.
  rewrite cutSuffix_app by done.
  assert (cutSuffix suf suf = Some EmptyString) as ->.
  { destruct suf; cbn [cutSuffix]; by rewrite decide_True. }
  cbn. f_equal. apply append_nil_r.
Qed.

(** A text that ends in something else than the end of the suffix. *)
Lemma cutSuffix_other suf a b :
  (String.length b ≤ String.length suf)%nat → cutSuffix b suf = None → cutSuffix suf (a +:+ b) = None.
Proof.
  intros Hlen Hb. destruct (cutSuffix suf (a +:+ b)) as [r|] eqn:E; [|done]. apply cutSuffix_Some in E.
  apply (f_equal (cutSuffix b)) in E. rewrite cutSuffix_own, cutSuffix_app, Hb in E by done. done.
Qed.

Lemma hasSuffix_cut s suf : hasSuffix s suf = bool_decide (is_Some (cutSuffix suf s)).
Proof.
  induction s as [|c s IH]; cbn [hasSuffix cutSuffix].
  - case_decide as E; [by rewrite bool_decide_eq_true_2|]. by rewrite (bool_decide_eq_false_2 (_ = _)).
  - case_decide as E; [by rewrite bool_decide_eq_true_2|]. rewrite (bool_decide_eq_false_2 (_ = _)) by done.
    rewrite IH. apply bool_decide_ext. by rewrite fmap_is_Some.
Qed.

Lemma cutPrefix_app p s : cutPrefix p (p +:+ s) = Some s.
Proof. induction p as [|c p IH]; [done|]. rewrite append_cons. cbn. by rewrite decide_True. Qed.

Lemma cutPrefix_Some p s r : cutPrefix p s = Some r → s = p +:+ r.
Proof.
  revert s. induction p as [|c p IH]; intros s; cbn; [by intros [= ->]|].
  destruct s as [|d s]; [done|]. case_decide as E; [|done]. subst d. intros H. by rewrite (IH s H), append_cons.
Qed.

Lemma cutAt_app c a b : sepFree c a → cutAt c (a +:+ String c b) = Some (a, b).
Proof.
  induction a as [|d a IH]; intros Ha.
  - simpl. by rewrite decide_True.
  - destruct Ha as [Hd Ha]. rewrite append_cons. cbn. rewrite decide_False by done. by rewrite (IH Ha).
Qed.

Lemma cutAt_None c a : sepFree c a → cutAt c a = None.
Proof.
  induction a as [|d a IH]; intros Ha; cbn; [done|].
  destruct Ha as [Hd Ha]. rewrite decide_False by done. by rewrite IH.
Qed.

Lemma cutAt_Some c s a b : cutAt c s = Some (a, b) → s = a +:+ String c b ∧ sepFree c a.
Proof.
  revert a. induction s as [|d s IH]; intros a; cbn; [done|]. case_decide as E.
  - subst d. by intros [= <- <-].
  - destruct (cutAt c s) as [[a' b']|] eqn:Hc; [|done]. intros [= <- <-].
    destruct (IH a' eq_refl) as [-> Ha]. by split.
Qed.

(** ** Decimal numbers *)

Lemma digits_sepFree c s : Ascii.is_nat c = None → digits s → sepFree c s.
Proof.
  intros Hc. induction s as [|d s IH]; cbn; [done|]. rewrite andb_True, bool_decide_spec. intros [[n Hd] Hs].
  split; [congruence|auto].
Qed.

Lemma byte_digit x : (x < 10)%N → b2z (Ascii.byte_of_ascii (pretty_N_char x)) = 48 + Z.of_N x.
Proof.
  intros Hx. assert (x ∈ [0; 1; 2; 3; 4; 5; 6; 7; 8; 9]%N) as H.
  { assert (x = 0 ∨ x = 1 ∨ x = 2 ∨ x = 3 ∨ x = 4 ∨ x = 5 ∨ x = 6 ∨ x = 7 ∨ x = 8 ∨ x = 9)%N by lia. set_solver. }
  rewrite !elem_of_cons, elem_of_nil in H. by destruct_or! H; subst.
Qed.

Lemma parseDigits_char x s n :
  (x < 10)%N → 0 ≤ n → n * 10 + Z.of_N x ≤ maxUint64 →
  parseDigits (bs (String (pretty_N_char x) s)) n = parseDigits (bs s) (n * 10 + Z.of_N x).
Proof.
  intros Hx Hn Hmax. change (bs (String ?c ?t)) with (Ascii.byte_of_ascii c :: bs t). cbn [parseDigits].
  unfold isDigit. rewrite byte_digit by done. rewrite bool_decide_eq_true_2 by lia. cbn zeta iota beta.
  replace (n * 10 + (48 + Z.of_N x - 48)) with (n * 10 + Z.of_N x) by lia. by rewrite decide_False by lia.
Qed.

Lemma parseDigits_pretty x s :
  Z.of_N x ≤ maxUint64 → parseDigits (bs (pretty_N_go x s)) 0 = parseDigits (bs s) (Z.of_N x).
Proof.
  revert s. induction (N.lt_wf_0 x) as [x _ IH]. intros s Hx.
  destruct (decide (0 < x)%N) as [H0|H0]; [|replace x with 0%N by lia; done].
  pose proof (N.div_mod' x 10) as Hdm. pose proof (N.mod_lt x 10 ltac:(done)) as Hm.
  rewrite pretty_N_go_step by done. pose proof (N.div_lt x 10 H0 ltac:(done)) as Hlt.
  generalize dependent (x `div` 10)%N. generalize dependent (x `mod` 10)%N. intros r Hr q Hq Hlt.
  rewrite IH by lia. rewrite parseDigits_char; [f_equal; lia|done|lia|lia].
Qed.

Lemma fmt_d_N z : 0 ≤ z → fmt_d z = if decide (z = 0) then "0" else pretty_N_go (Z.to_N z) EmptyString.
Proof.
  intros Hz. unfold fmt_d, pretty, pretty_Z, pretty, pretty_positive, pretty, pretty_N.
  destruct z as [|p|p]; [done| |lia]. by rewrite !decide_False.
Qed.

Lemma pretty_N_go_app x s t : pretty_N_go x (s +:+ t) = pretty_N_go x s +:+ t.
Proof.
  revert s. induction (N.lt_wf_0 x) as [x _ IH]. intros s.
  destruct (decide (0 < x)%N) as [H0|H0]; [|replace x with 0%N by lia; done].
  rewrite !(pretty_N_go_step x) by done.
  rewrite <-append_cons. apply IH. by apply N.div_lt.
Qed.

(** A number does not start with a zero. *)
Lemma pretty_N_go_head x s : (0 < x)%N → ∃ c t, pretty_N_go x s = String c t ∧ c ≠ zero.
Proof.
  revert s. induction (N.lt_wf_0 x) as [x _ IH]. intros s H0. rewrite pretty_N_go_step by done.
  destruct (decide (0 < x `div` 10)%N) as [Hd|Hd]; [apply IH; [by apply N.div_lt|done]|].
  pose proof (N.div_mod' x 10) as Hdm. pose proof (N.mod_lt x 10 ltac:(done)) as Hm.
  assert (x `div` 10 = 0)%N as E by lia. rewrite E in *. rewrite pretty_N_go_0. eexists _, _. split; [done|].
  intros Hc. assert (x `mod` 10 = 0)%N as E0; [|lia]. by apply pretty_N_char_inj.
Qed.

Lemma fmt_d_nonempty z : 0 ≤ z → fmt_d z ≠ EmptyString.
Proof.
  intros Hz. rewrite fmt_d_N by done. case_decide; [done|].
  destruct (pretty_N_go_head (Z.to_N z) EmptyString) as (c & t & -> & _); [lia|done].
Qed.

Lemma parseUint_fmt z : is_u64 z → parseUint (fmt_d z) = Some z.
Proof.
  intros Hz. unfold parseUint, ParseUint. rewrite fmt_d_N by lia. case_decide as E; [by subst|].
  assert (parseDigits (bs (pretty_N_go (Z.to_N z) EmptyString)) 0 = Some z) as Hp.
  { rewrite parseDigits_pretty; [|unfold maxUint64; lia]. cbn. f_equal. lia. }
  destruct (pretty_N_go_head (Z.to_N z) EmptyString) as (c & t & Et & _); [lia|]. by rewrite Et in *.
Qed.

Lemma canonical_fmt z : 0 ≤ z → canonicalDecimal (fmt_d z) = true.
Proof.
  intros Hz. pose proof (fmt_d_digits z Hz) as Hd. rewrite fmt_d_N in * by done. case_decide as E; [done|].
  destruct (pretty_N_go_head (Z.to_N z) EmptyString) as (c & t & Et & Hc); [lia|]. rewrite Et in *.
  unfold canonicalDecimal. rewrite (bool_decide_eq_true_2 (c ≠ zero)) by done.
  rewrite orb_true_r. by apply Is_true_true.
Qed.

Lemma is_nat_digit c : is_Some (Ascii.is_nat c) → ∃ x, (x < 10)%N ∧ c = pretty_N_char x.
Proof.
  intros [n Hn]. assert (n < 10)%nat as Hlt.
  { destruct c as [[] [] [] [] [] [] [] []]; cbn in Hn; congruence || (injection Hn as <-; lia). }
  exists (N.of_nat n). split; [lia|].
  destruct c as [[] [] [] [] [] [] [] []]; cbn in Hn; congruence || by injection Hn as <-.
Qed.

(** The digits that follow a number continue it. *)
Lemma parse_pretty s t (x : N) n :
  digits s → (0 < x)%N → parseDigits (bs s) (Z.of_N x) = Some n →
  pretty_N_go x (s +:+ t) = pretty_N_go (Z.to_N n) t ∧ Z.of_N x ≤ n.
Proof.
  revert x. induction s as [|c s IH]; intros x Hs Hx Hp.
  { cbn in Hp. injection Hp as <-. rewrite N2Z.id. split; [done|lia]. }
  cbn in Hs. apply andb_True in Hs as [Hc%bool_decide_spec Hs].
  apply is_nat_digit in Hc as (y & Hy & ->).
  change (bs (String ?c ?t)) with (Ascii.byte_of_ascii c :: bs t) in Hp. cbn [parseDigits] in Hp.
  unfold isDigit in Hp. rewrite byte_digit in Hp by done. rewrite bool_decide_eq_true_2 in Hp by lia.
  cbn zeta iota beta in Hp. case_decide as Hmax; [done|].
  replace (Z.of_N x * 10 + (48 + Z.of_N y - 48)) with (Z.of_N (x * 10 + y)) in Hp by lia.
  destruct (IH (x * 10 + y)%N Hs ltac:(lia) Hp) as [E Hle].
  split; [|lia]. rewrite <-E. rewrite (pretty_N_go_step (x * 10 + y)) by lia.
  rewrite N.div_add_l, N.div_small, N.add_0_r by done.
  replace ((x * 10 + y) `mod` 10)%N with y; [done|].
  by rewrite N.add_comm, N.Div0.mod_add, N.mod_small.
Qed.

(** A canonical numeral is the numeral of its value. *)
Lemma canonical_parse s n : canonicalDecimal s = true → parseUint s = Some n → s = fmt_d n ∧ is_u64 n.
Proof.
  intros Hc Hp. pose proof (ParseUint_range _ _ Hp) as Hr. unfold maxUint64 in Hr. split; [|lia].
  destruct s as [|c s]; [done|]. unfold canonicalDecimal in Hc. apply andb_true_iff in Hc as [Hz Hd].
  cbn [digits] in Hd. apply andb_true_iff in Hd as [Hc%bool_decide_eq_true Hs].
  apply is_nat_digit in Hc as (y & Hy & ->). unfold parseUint, ParseUint in Hp.
  change (bs (String ?c ?t)) with (Ascii.byte_of_ascii c :: bs t) in Hp. cbn [parseDigits] in Hp.
  unfold isDigit in Hp. rewrite byte_digit in Hp by done. rewrite bool_decide_eq_true_2 in Hp by lia.
  cbn zeta iota beta in Hp. case_decide as Hmax; [done|].
  replace (0 * 10 + (48 + Z.of_N y - 48)) with (Z.of_N y) in Hp by lia.
  rewrite fmt_d_N by lia. destruct (decide (y = 0%N)) as [->|Hy0].
  - apply orb_true_iff in Hz as [->%bool_decide_eq_true|Hz%bool_decide_eq_true]; [|done].
    cbn in Hp. by injection Hp as <-.
  - destruct (parse_pretty s EmptyString y n) as [E Hle]; [by apply Is_true_true|lia|done|].
    rewrite decide_False by lia. rewrite <-E.
    rewrite append_nil_r, pretty_N_go_step by lia. rewrite N.div_small, N.mod_small by done. by rewrite pretty_N_go_0.
Qed.

(** ** Reading names back *)

Lemma fmt_sepFree c z : Ascii.is_nat c = None → 0 ≤ z → sepFree c (fmt_d z).
Proof. intros Hc Hz. apply digits_sepFree; [done|by apply fmt_d_digits]. Qed.

Lemma hasPrefix_dot a s : sepFree dot a → a ≠ EmptyString → hasPrefix ".p" (a +:+ s) = false.
Proof.
  intros Ha Hne. destruct a as [|c a]; [done|]. destruct Ha as [Hc _]. rewrite append_cons.
  change ".p" with (String dot "p"). cbn [hasPrefix]. by rewrite bool_decide_eq_false_2.
Qed.

Lemma beforeSub_part a s : sepFree dot a → beforeSub ".p" (a +:+ ".p" +:+ s) = Some a.
Proof.
  induction a as [|c a IH]; intros Ha.
  { change (EmptyString +:+ ".p" +:+ s) with (".p" +:+ s). by destruct s. }
  pose proof (hasPrefix_dot (String c a) (".p" +:+ s) Ha ltac:(done)) as Hp. destruct Ha as [Hc Ha].
  rewrite (append_cons c a) in *. cbn [beforeSub]. by rewrite Hp, IH.
Qed.

Lemma beforeSub_None a : sepFree dot a → beforeSub ".p" a = None.
Proof.
  induction a as [|c a IH]; intros Ha; [done|].
  pose proof (hasPrefix_dot (String c a) EmptyString Ha ltac:(done)) as Hp. destruct Ha as [Hc Ha].
  rewrite append_nil_r in Hp. cbn [beforeSub]. by rewrite Hp, IH.
Qed.

Lemma beforePart_part a s : sepFree dot a → a ≠ EmptyString → beforePart (a +:+ ".p" +:+ s) = Some a.
Proof. intros Ha Hne. unfold beforePart. rewrite beforeSub_part by done. by destruct a. Qed.

Lemma beforePart_None a : sepFree dot a → beforePart a = None.
Proof. intros Ha. unfold beforePart. by rewrite beforeSub_None. Qed.

Lemma sepFree_app c a b : sepFree c a → sepFree c b → sepFree c (a +:+ b).
Proof. induction a as [|d a IH]; [done|]. intros [Hd Ha] Hb. rewrite append_cons. split; auto. Qed.

Lemma fmt_range_dots a b : 0 ≤ a → 0 ≤ b → sepFree dot (fmt_d a +:+ "-" +:+ fmt_d b).
Proof. intros Ha Hb. apply sepFree_app; [by apply fmt_sepFree|]. apply sepFree_app; [done|by apply fmt_sepFree]. Qed.

Lemma parseRange_fmt a b :
  is_u64 a → is_u64 b →
  parseSegmentRange (fmt_d a +:+ "-" +:+ fmt_d b) = if decide (b < a) then None else Some (MkSpan a b false false).
Proof.
  intros Ha Hb. unfold parseSegmentRange. change ("-" +:+ fmt_d b) with (String dash (fmt_d b)).
  rewrite cutAt_app by (apply fmt_sepFree; [done|lia]). cbn [mbind option_bind].
  rewrite decide_False by (intros [E|E]; revert E; apply fmt_d_nonempty; lia).
  by rewrite !parseUint_fmt by done.
Qed.

Lemma strictRange_fmt a b :
  is_u64 a → is_u64 b →
  strictRangeEnd (fmt_d a +:+ "-" +:+ fmt_d b) = if decide (b < a) then None else Some b.
Proof.
  intros Ha Hb. unfold strictRangeEnd. change ("-" +:+ fmt_d b) with (String dash (fmt_d b)).
  rewrite cutAt_app by (apply fmt_sepFree; [done|lia]). cbn [mbind option_bind].
  rewrite !canonical_fmt by lia. cbn. by rewrite !parseUint_fmt by done.
Qed.

Lemma snapshotSpan_fmt e : is_u64 e → snapshotSpan (fmt_d e) = Some (MkSpan e e true false).
Proof. intros He. unfold snapshotSpan. by rewrite parseUint_fmt. Qed.

Lemma cutSuffix_tail suf a b c :
  (String.length suf ≤ String.length c)%nat →
  cutSuffix suf (a +:+ b +:+ c) = (λ r, a +:+ b +:+ r) <$> cutSuffix suf c.
Proof.
  intros Hlen. rewrite cutSuffix_app by (rewrite length_string_app; lia). rewrite cutSuffix_app by done.
  by destruct (cutSuffix suf c).
Qed.

(** Which suffix a text ends with, decided by its last characters. *)
Ltac cut_suffix :=
  repeat match goal with
  | |- context [cutSuffix ?suf (?a +:+ ?suf)] => rewrite (cutSuffix_own suf a)
  | |- context [cutSuffix ?suf (?a +:+ ?b)] =>
      first [ rewrite (cutSuffix_other suf a b) by (vm_compute; lia || reflexivity)
            | rewrite (cutSuffix_app suf a b) by (vm_compute; lia);
              let r := eval vm_compute in (cutSuffix suf b) in change (cutSuffix suf b) with r;
              cbn [fmap option_fmap option_map] ]
  end.

(** A name is a stem and one of the suffixes. *)
Definition spanOf (h : Header) : option segmentSpan :=
  if decide (hKind h = KindSnapshot) then Some (MkSpan (hEndTxID h) (hEndTxID h) true false)
  else if decide (hKind h = KindLink) then None
  else if decide (hKind h = KindMarker) then
    if decide (hStartTxID h = 0) then None else Some (MkSpan (hStartTxID h) (hStartTxID h - 1) false true)
  else if decide (hEndTxID h < hStartTxID h) then None
  else Some (MkSpan (hStartTxID h) (hEndTxID h) false false).

Lemma parse_SegmentName h : wf_header h → parseSegmentSpan (SegmentName h) = spanOf h.
Proof.
  intros [_ _ _ _ Hs He _ _]. unfold SegmentName, spanOf, parseSegmentSpan. case_decide as Hk.
  - destruct (SnapshotPart h) as [part|].
    + rewrite !string_app_assoc. cut_suffix. rewrite <-string_app_assoc.
      rewrite beforePart_part; [|apply fmt_sepFree; [done|lia]|apply fmt_d_nonempty; lia].
      by apply snapshotSpan_fmt.
    + cut_suffix. rewrite beforePart_None by (apply fmt_sepFree; [done|lia]). by apply snapshotSpan_fmt.
  - case_decide; [by cut_suffix|]. case_decide.
    + cut_suffix. by rewrite parseUint_fmt.
    + rewrite !string_app_assoc. cut_suffix. rewrite <-string_app_assoc. by apply parseRange_fmt.
Qed.

(** A text without dots has no suffix that starts with one. *)
Lemma cutSuffix_dot suf s : sepFree dot s → cutSuffix (String dot suf) s = None.
Proof.
  intros Hs. destruct (cutSuffix (String dot suf) s) as [r|] eqn:E; [|done]. apply cutSuffix_Some in E. subst s. exfalso.
  induction r as [|c r IH]; [by destruct Hs|]. rewrite append_cons in Hs. destruct Hs. auto.
Qed.

Lemma cutSuffix_range suf a b : 0 ≤ a → 0 ≤ b → cutSuffix (String dot suf) (fmt_d a +:+ "-" +:+ fmt_d b) = None.
Proof. intros. apply cutSuffix_dot. by apply fmt_range_dots. Qed.

(** What the name of a batch says. *)
Definition batchSpan (f l : Header) : option segmentSpan :=
  if decide (hKind f = KindSnapshot ∧ hKind l = KindSnapshot ∧ hEndTxID f = hEndTxID l)
  then Some (MkSpan (hEndTxID f) (hEndTxID f) true false)
  else if decide (hEndTxID l < hStartTxID f) then None
  else Some (MkSpan (hStartTxID f) (hEndTxID l) false false).

Lemma parse_BatchName f l : wf_header f → wf_header l → parseSegmentSpan (BatchName f l) = batchSpan f l.
Proof.
  intros [_ _ _ _ Hs He _ _] [_ _ _ _ _ He' _ _]. unfold BatchName, batchSpan, parseSegmentSpan. case_decide as Hk.
  - change ".s.batch" with (".s" +:+ ".batch"). rewrite !string_app_assoc. cut_suffix.
    unfold trimSuffix. cut_suffix. cbn [from_option id]. cut_suffix. cbn [from_option id]. cut_suffix. cbn [from_option id].
    rewrite <-!string_app_assoc. rewrite beforePart_part; [|apply fmt_sepFree; [done|lia]|apply fmt_d_nonempty; lia].
    by apply snapshotSpan_fmt.
  - assert (∀ suf, suf = "m" ∨ suf = "d" →
      parseSegmentSpan (fmt_d (hStartTxID f) +:+ "-" +:+ fmt_d (hEndTxID l) +:+ "." +:+ suf +:+ ".batch")
      = if decide (hEndTxID l < hStartTxID f) then None
        else Some (MkSpan (hStartTxID f) (hEndTxID l) false false)) as Hgo.
    { intros suf Hsuf. unfold parseSegmentSpan. rewrite !string_app_assoc. cut_suffix.
      rewrite <-(string_app_assoc _ "."). unfold trimSuffix.
      destruct Hsuf as [->| ->]; [change ("." +:+ "m") with ".m"|change ("." +:+ "d") with ".d"];
        cut_suffix; cbn [from_option id]; cut_suffix; cbn [from_option id]; cut_suffix; cbn [from_option id].
      - rewrite <-string_app_assoc. rewrite (cutSuffix_range "s") by lia. cbn [from_option id].
        rewrite beforePart_None by (apply fmt_range_dots; lia). by apply parseRange_fmt.
      - rewrite <-string_app_assoc. rewrite (cutSuffix_range "m") by lia. cbn [from_option id].
        rewrite (cutSuffix_range "s") by lia. cbn [from_option id].
        rewrite beforePart_None by (apply fmt_range_dots; lia). by apply parseRange_fmt. }
    apply Hgo. clear Hgo. case_decide; auto.
Qed.

(** ** Strict names *)

(** The names whose objects are covered by their name alone: one snapshot or snapshot part, one
    delta, or a batch that starts and ends with deltas. *)
Definition emitted (name : string) (e : Z) (one : bool) : Prop :=
  (one = true ∧ ∃ h, wf_header h ∧ name = SegmentName h ∧ hEndTxID h = e
     ∧ (hKind h = KindSnapshot ∨ hKind h = KindDelta ∧ hStartTxID h ≤ e))
  ∨ (one = false ∧ ∃ f l, wf_header f ∧ wf_header l ∧ name = BatchName f l ∧ hEndTxID l = e
     ∧ hKind f = KindDelta ∧ hKind l = KindDelta ∧ hStartTxID f ≤ e).

Definition headerOf (kind flags start end_ : Z) : Header := MkHeader 0 kind flags 0 start end_ 0 0.

Lemma headerOf_wf kind flags start end_ :
  is_u8 kind → is_u16 flags → is_u64 start → is_u64 end_ → wf_header (headerOf kind flags start end_).
Proof. intros. by split. Qed.

Lemma canonicalSnapshot_names name e :
  canonicalSnapshotTxID name = Some e ↔
  ∃ h, wf_header h ∧ hKind h = KindSnapshot ∧ name = SegmentName h ∧ hEndTxID h = e.
Proof.
  unfold canonicalSnapshotTxID. split.
  - destruct (cutSuffix ".snapshot" name) as [base|] eqn:Hb; [|done]. apply cutSuffix_Some in Hb as ->.
    cbn [mbind option_bind]. destruct (cutAt dot base) as [[txid part]|] eqn:Hd.
    + apply cutAt_Some in Hd as [-> _]. destruct (cutPrefix "p" part) as [p|] eqn:Hp; [|done].
      apply cutPrefix_Some in Hp as ->. cbn [mbind option_bind].
      destruct (canonicalDecimal txid && canonicalDecimal p) eqn:Hc; [|done].
      apply andb_true_iff in Hc as [Hc1 Hc2]. destruct (parseUint txid) as [n|] eqn:En; [|done].
      destruct (parseUint p) as [k|] eqn:Ek; [|done]. cbn [mbind option_bind]. case_decide as Hk; [done|]. intros [= <-].
      apply canonical_parse in En as [-> Hn]; [|done]. apply canonical_parse in Ek as [-> Hk0]; [|done].
      change MaxSnapshotParts with (2 ^ 15) in Hk.
      destruct (snapshot_flags (headerOf KindSnapshot 0 n n) k) as [Hpart Hu]; [done|lia|].
      exists (setFlags (headerOf KindSnapshot 0 n n) (SnapshotFlags k)). split_and!; try done.
      unfold SegmentName. rewrite Hpart. cbn [hKind hEndTxID setFlags headerOf]. rewrite decide_True by done.
      by rewrite <-!string_app_assoc.
    + destruct (canonicalDecimal base) eqn:Hc; [|done]. intros En.
      apply canonical_parse in En as [-> Hn]; [|done]. exists (headerOf KindSnapshot 0 e e). by split_and!.
  - intros (h & [_ _ Hf _ _ He _ _] & Hk & -> & <-). unfold SegmentName. rewrite decide_True by done.
    destruct (SnapshotPart h) as [part|] eqn:Hp.
    + assert (0 ≤ part < 2 ^ 15) as Hr.
      { unfold SnapshotPart in Hp. case_decide; [done|]. injection Hp as <-.
        change snapshotPartMask with (Z.ones 15). rewrite Z.land_ones by lia. apply Z.mod_pos_bound. lia. }
      rewrite !string_app_assoc, cutSuffix_own. cbn [mbind option_bind]. rewrite <-string_app_assoc.
      change (".p" +:+ fmt_d part) with (String dot ("p" +:+ fmt_d part)).
      rewrite cutAt_app by (apply fmt_sepFree; [done|lia]). rewrite cutPrefix_app. cbn [mbind option_bind].
      rewrite !canonical_fmt by lia. cbn [andb]. rewrite !parseUint_fmt by lia. cbn [mbind option_bind].
      change MaxSnapshotParts with (2 ^ 15). by rewrite decide_False by lia.
    + rewrite cutSuffix_own. cbn [mbind option_bind]. rewrite cutAt_None by (apply fmt_sepFree; [done|lia]).
      rewrite canonical_fmt by lia. by apply parseUint_fmt.
Qed.

Lemma strictRange_names base e :
  strictRangeEnd base = Some e ↔ ∃ a, is_u64 a ∧ is_u64 e ∧ a ≤ e ∧ base = fmt_d a +:+ "-" +:+ fmt_d e.
Proof.
  split.
  - unfold strictRangeEnd. destruct (cutAt dash base) as [[a b]|] eqn:Hd; [|done]. apply cutAt_Some in Hd as [-> _].
    cbn [mbind option_bind]. destruct (canonicalDecimal a && canonicalDecimal b) eqn:Hc; [|done].
    apply andb_true_iff in Hc as [Hc1 Hc2]. destruct (parseUint a) as [n|] eqn:En; [|done].
    destruct (parseUint b) as [k|] eqn:Ek; [|done]. cbn [mbind option_bind]. case_decide as Hk; [done|]. intros [= <-].
    apply canonical_parse in En as [-> Hn]; [|done]. apply canonical_parse in Ek as [-> Hk0]; [|done].
    exists n. split_and!; done || lia.
  - intros (a & Ha & He & Hle & ->). rewrite strictRange_fmt by done. by rewrite decide_False by lia.
Qed.

Lemma strict_emitted name e one : strictCoveredNameEnd name = Some (e, one) ↔ emitted name e one.
Proof.
  unfold strictCoveredNameEnd. rewrite hasSuffix_cut. split.
  - case_bool_decide as Hs.
    + destruct (canonicalSnapshotTxID name) as [n|] eqn:En; [|done]. intros [= <- <-].
      apply canonicalSnapshot_names in En as (h & Hh & Hk & -> & <-). left. eauto 10.
    + destruct (cutSuffix ".ltx" name) as [base|] eqn:Hb.
      * apply cutSuffix_Some in Hb as ->. destruct (strictRangeEnd base) as [n|] eqn:En; [|done]. intros [= <- <-].
        apply strictRange_names in En as (a & Ha & He & Hle & ->). left. split; [done|].
        exists (headerOf KindDelta 0 a n). split_and!; [by apply headerOf_wf| |done|by right].
        by rewrite <-!string_app_assoc.
      * destruct (cutSuffix ".d.batch" name) as [base|] eqn:Hd; [|done].
        apply cutSuffix_Some in Hd as ->. destruct (strictRangeEnd base) as [n|] eqn:En; [|done]. intros [= <- <-].
        apply strictRange_names in En as (a & Ha & He & Hle & ->). right. split; [done|].
        exists (headerOf KindDelta 0 a a), (headerOf KindDelta 0 n n).
        split_and!; [by apply headerOf_wf..| |done|done|done|done]. by rewrite <-!string_app_assoc.
  - intros [[-> (h & Hh & -> & <- & Hk)]|[-> (f & l & Hf & Hl & -> & <- & Hkf & Hkl & Hle)]].
    + destruct Hk as [Hk|[Hk Hle]].
      * rewrite bool_decide_eq_true_2; [|unfold SegmentName; rewrite decide_True by done; destruct (SnapshotPart h);
          rewrite ?string_app_assoc, cutSuffix_own; by eexists].
        assert (canonicalSnapshotTxID (SegmentName h) = Some (hEndTxID h)) as ->; [|done].
        apply canonicalSnapshot_names. eauto.
      * destruct Hh as [_ _ _ _ Hs He _ _]. unfold SegmentName. rewrite Hk. rewrite !decide_False by done.
        rewrite !string_app_assoc. cut_suffix. cbn [bool_decide]. rewrite bool_decide_eq_false_2 by (by intros []).
        rewrite <-string_app_assoc, strictRange_fmt by done. by rewrite decide_False by lia.
    + destruct Hf as [_ _ _ _ Hs He _ _], Hl as [_ _ _ _ _ He' _ _]. unfold BatchName. rewrite Hkf, Hkl.
      rewrite !decide_False by (intros H; by destruct_and?; destruct_or?).
      change ("." +:+ "d" +:+ ".batch") with ".d.batch". rewrite !string_app_assoc. cut_suffix.
      rewrite bool_decide_eq_false_2 by (by intros []).
      rewrite <-string_app_assoc, strictRange_fmt by done. by rewrite decide_False by lia.
Qed.

(** ** Property *)

(** C14: the strict reader of names, on whose word a compaction skips and deletes objects without
    reading them, accepts exactly the names the replica writes: of a single snapshot or delta,
    and of a batch of deltas; and the transaction it gives is the last one of what was
    stored under the name. *)
Theorem strict_names name e one :
  strictCoveredNameEnd name = Some (e, one) ↔
  one = true ∧ (∃ h, wf_header h ∧ name = SegmentName h ∧ hEndTxID h = e
      ∧ (hKind h = KindSnapshot ∨ hKind h = KindDelta ∧ hStartTxID h ≤ e))
  ∨ one = false ∧ (∃ f l, wf_header f ∧ wf_header l ∧ name = BatchName f l ∧ hEndTxID l = e
      ∧ hKind f = KindDelta ∧ hKind l = KindDelta ∧ hStartTxID f ≤ e).
Proof. apply strict_emitted. Qed.
