(* ===== verification/Index.v ===== *)
(** * The page index of a compacted cell ([internal/replica/index.go])

    Beside the objects of a compacted snapshot the bucket holds an index: for each
    object the pages it defines and where their frames lie in it. A cold start
    reads single pages through it. The layout has two versions; the second carries
    the locations of compressed frames.

    The theorems: decoding an encoded index gives it back, and what the decoder
    accepts is well formed, with one location per page. *)

From S2P Require Import Prelude PageMap.

Record PageIndexEntry := MkEntry {
  ieKey : string;
  iePageSize : Z;
  ieCommit : Z;
  iePages : list Z;
  ieLocs : list PageLoc;
}.

Record PageIndex := MkIndex {
  ixWatermark : Z;
  ixEntries : list PageIndexEntry;
}.

#[global] Instance PageLoc_eq_dec : EqDecision PageLoc.
Proof. solve_decision. Defined.
#[global] Instance PageIndexEntry_eq_dec : EqDecision PageIndexEntry.
Proof. solve_decision. Defined.

Definition indexMagic : bytes := bs "CIDX".
Definition indexMagicV2 : bytes := bs "CID2".

Inductive indexError : Set :=
| ErrKeyLong
| ErrPagesOrder
| ErrLocPages
| ErrIndexHeader
| ErrIndexEntry
| ErrIndexDimensions
| ErrIndexLocs
| ErrIndexLoc (j : Z).

(** ** Encoding *)

Definition hasLocs (e : PageIndexEntry) : bool := bool_decide (ieLocs e ≠ []).

Fixpoint putPages (prev : option Z) (pages : list Z) : result indexError bytes :=
  match pages with
  | [] => Ok []
  | p :: pages =>
      match prev with Some q => reject (bool_decide (p ≤ q)) ErrPagesOrder | None => Ok tt end ;;ᵣ
      rest ←ᵣ putPages (Some p) pages;
      Ok (be_enc 4 p ++ rest)
  end.

Definition putLocs (e : PageIndexEntry) : result indexError bytes :=
  if hasLocs e then
    reject (bool_decide (zlen (ieLocs e) ≠ zlen (iePages e))) ErrLocPages ;;ᵣ
    Ok (concat (putLoc <$> ieLocs e))
  else Ok [].

Definition putEntry (e : PageIndexEntry) : result indexError bytes :=
  let key := bs (ieKey e) in
  reject (bool_decide (65535 < zlen key)) ErrKeyLong ;;ᵣ
  pages ←ᵣ putPages None (iePages e);
  locs ←ᵣ putLocs e;
  Ok (be_enc 2 (zlen key) ++ key ++ be_enc 4 (iePageSize e) ++ be_enc 4 (ieCommit e)
      ++ be_enc 4 (zlen (iePages e)) ++ pages ++ locs).

Fixpoint putEntries (es : list PageIndexEntry) : result indexError bytes :=
  match es with
  | [] => Ok []
  | e :: es => b ←ᵣ putEntry e; rest ←ᵣ putEntries es; Ok (b ++ rest)
  end.

Definition isV2 (idx : PageIndex) : bool := existsb hasLocs (ixEntries idx).

Definition EncodeIndex (idx : PageIndex) : result indexError bytes :=
  body ←ᵣ putEntries (ixEntries idx);
  Ok ((if isV2 idx then indexMagicV2 else indexMagic)
      ++ be_enc 8 (ixWatermark idx) ++ be_enc 4 (zlen (ixEntries idx)) ++ body).

(** ** Decoding *)

(** [pageCount] numbers from [off] on. *)
Definition getPages (data : bytes) (off count : Z) : list Z :=
  (λ j, rd32 data (off + 4 * j)) <$> seqZ 0 count.

Fixpoint getLocs (data : bytes) (ps off j : Z) (pages : list Z) : result indexError (list PageLoc) :=
  match pages with
  | [] => Ok []
  | p :: pages =>
      let word := rd32 data (off + 8) in
      let codec := if decide (Z.land word CodecBit ≠ 0) then CodecLZ4 else CodecRaw in
      let loc := MkPageLoc (rd32 data off) (rd32 data (off + 4)) (Z.ldiff word CodecBit) ps codec in
      reject (bool_decide (Pgno loc ≠ p ∨ Stored loc ≤ 0)) (ErrIndexLoc j) ;;ᵣ
      locs ←ᵣ getLocs data ps (off + 12) (j + 1) pages;
      Ok (loc :: locs)
  end.

(** One entry and the offset behind it. *)
Definition getEntry (v2 : bool) (data : bytes) (off : Z) : result indexError (PageIndexEntry * Z) :=
  reject (bool_decide (zlen data < off + 2)) ErrIndexEntry ;;ᵣ
  let keyLen := rd16 data off in
  let off := off + 2 in
  reject (bool_decide (zlen data < off + keyLen + 12)) ErrIndexEntry ;;ᵣ
  let key := String.string_of_list_byte (slice data off (off + keyLen)) in
  let off := off + keyLen in
  let ps := rd32 data off in
  let cm := rd32 data (off + 4) in
  let count := rd32 data (off + 8) in
  let off := off + 12 in
  reject (bool_decide (ps = 0 ∨ zlen data < off + count * 4)) ErrIndexDimensions ;;ᵣ
  let pages := getPages data off count in
  let off := off + 4 * count in
  if v2 then
    reject (bool_decide (zlen data < off + count * 12)) ErrIndexLocs ;;ᵣ
    locs ←ᵣ getLocs data ps off 0 pages;
    Ok (MkEntry key ps cm pages locs, off + 12 * count)
  else Ok (MkEntry key ps cm pages [], off).

Fixpoint getEntries (v2 : bool) (data : bytes) (off : Z) (n : nat) : result indexError (list PageIndexEntry) :=
  match n with
  | O => Ok []
  | S n =>
      '(e, off) ←ᵣ getEntry v2 data off;
      es ←ᵣ getEntries v2 data off n;
      Ok (e :: es)
  end.

Definition DecodeIndex (data : bytes) : result indexError PageIndex :=
  reject (bool_decide (zlen data < 16)) ErrIndexHeader ;;ᵣ
  let v2 := bool_decide (slice data 0 4 = indexMagicV2) in
  reject (negb v2 && bool_decide (slice data 0 4 ≠ indexMagic)) ErrIndexHeader ;;ᵣ
  es ←ᵣ getEntries v2 data 16 (Z.to_nat (rd32 data 12));
  Ok (MkIndex (rd64 data 4) es).

(** ** Well-formed indexes *)

Definition locOk (ps p : Z) (l : PageLoc) : Prop :=
  Pgno l = p ∧ is_u32 (Off l) ∧ 0 < Stored l < 2 ^ 31 ∧ Size l = ps ∧ (Codec l = CodecRaw ∨ Codec l = CodecLZ4).

Record entryOk (v2 : bool) (e : PageIndexEntry) : Prop := {
  entry_size : 0 < iePageSize e < 2 ^ 32;
  entry_commit : is_u32 (ieCommit e);
  entry_pages : Forall (λ p, is_u32 p) (iePages e);
  entry_count : zlen (iePages e) < 2 ^ 32;
  entry_locs : if v2 then Forall2 (locOk (iePageSize e)) (iePages e) (ieLocs e) else ieLocs e = [];
}.

Record indexOk (v2 : bool) (idx : PageIndex) : Prop := {
  index_watermark : is_u64 (ixWatermark idx);
  index_count : zlen (ixEntries idx) < 2 ^ 32;
  index_entries : Forall (entryOk v2) (ixEntries idx);
}.

(** *** What is decoded is well formed *)

Lemma land_low w : is_u32 w → 0 ≤ Z.ldiff w CodecBit < 2 ^ 31.
Proof.
  intros Hw. rewrite ldiff_sub. unfold CodecBit.
  destruct (decide (w < 2 ^ 31)) as [Hlt|Hge].
  - destruct (bit_set w 31) as (_ & _ & ->); lia.
  - destruct (bit_set (w - 2 ^ 31) 31) as (_ & H & _); [lia..|].
    replace (w - 2 ^ 31 + 2 ^ 31) with w in H by lia. lia.
Qed.

Lemma getLocs_ok data ps off j pages locs : getLocs data ps off j pages = Ok locs → Forall2 (locOk ps) pages locs.
Proof.
  revert off j locs. induction pages as [|p pages IH]; intros off j locs H; cbn [getLocs] in H; inv_ok; subst locs;
    constructor; [|by eapply IH].
  rewrite bool_decide_eq_false in *. pose proof (land_low _ (rd32_range data (off + 8))).
  split_and!; cbn [Pgno Off Stored Size Codec] in *; try done; try apply rd32_range; [by destruct (decide (rd32 data off = p)); [|tauto]|lia|lia|].
  case_decide; auto.
Qed.

Lemma getPages_ok data off count : Forall (λ p, is_u32 p) (getPages data off count).
Proof. apply Forall_fmap, Forall_true. intros j. apply rd32_range. Qed.

Lemma getEntry_ok v2 data off e off' : getEntry v2 data off = Ok (e, off') → entryOk v2 e.
Proof.
  unfold getEntry. intros H. inv_ok. rewrite bool_decide_eq_false in *.
  match goal with H : ¬ (rd32 data ?o = 0 ∨ _) |- _ =>
    pose proof (rd32_range data o) as Hps; pose proof (rd32_range data (o + 4)) as Hcm;
    pose proof (rd32_range data (o + 8)) as Hcount end.
  destruct v2; inv_ok; simplify_eq; split; cbn [iePageSize ieCommit iePages ieLocs]; try done;
    try apply getPages_ok; try lia; try (unfold getPages; rewrite length_fmap, length_seqZ; lia).
  by eapply getLocs_ok.
Qed.

Lemma getEntries_ok v2 data off n es :
  getEntries v2 data off n = Ok es → Forall (entryOk v2) es ∧ length es = n.
Proof.
  revert off es. induction n as [|n IH]; intros off es H; cbn [getEntries] in H; inv_ok.
  - subst es. by split.
  - destruct a as [e off']. inv_ok. apply getEntry_ok in Ha. apply IH in Ha0 as [Hes <-]. subst es.
    split; [by constructor|done].
Qed.

Lemma index_decoded data idx :
  DecodeIndex data = Ok idx → indexOk (bool_decide (slice data 0 4 = indexMagicV2)) idx.
Proof.
  unfold DecodeIndex. intros H. inv_ok. subst idx. rewrite bool_decide_eq_false in *.
  apply getEntries_ok in Ha as [Hes Hn]. split; cbn [ixWatermark ixEntries]; [apply rd64_range; lia| |done].
  pose proof (rd32_range data 12). lia.
Qed.

(** *** Round trip *)

Lemma getPages_cons data off n : 0 ≤ n → getPages data off (1 + n) = rd32 data off :: getPages data (off + 4) n.
Proof.
  intros Hn. unfold getPages. rewrite seqZ_app by lia. rewrite fmap_app. change (seqZ 0 1) with [0].
  cbn [fmap list_fmap app]. f_equal; [f_equal; lia|].
  rewrite <-(fmap_add_seqZ 1 0), <-list_fmap_compose. apply list_fmap_ext. intros i x _. cbn. f_equal. lia.
Qed.

Lemma rd32_at pre z tl : is_u32 z → rd32 (pre ++ be_enc 4 z ++ tl) (zlen pre) = z.
Proof. intros Hz. rewrite rd32_skip, Z.sub_diag by lia. by apply rd32_enc. Qed.

Lemma getPages_put prev pages b pre tl :
  putPages prev pages = Ok b → Forall (λ p, is_u32 p) pages →
  getPages (pre ++ b ++ tl) (zlen pre) (zlen pages) = pages ∧ zlen b = 4 * zlen pages.
Proof.
  revert prev b pre. induction pages as [|p pages IH]; intros prev b pre H Hp; cbn [putPages] in H; inv_ok; subst b.
  { split; done. }
  apply Forall_cons in Hp as [Hp Hps]. rewrite <-!app_assoc.
  destruct (IH (Some p) a0 (pre ++ be_enc 4 p)) as [E Hlen]; [done..|].
  split; [|len]. rewrite length_cons, Nat2Z.inj_succ, <-Z.add_1_l, getPages_cons by lia.
  rewrite rd32_at by done. f_equal. rewrite <-E at 2. rewrite <-!app_assoc. f_equal. len.
Qed.

Lemma getLocs_put ps pages locs pre tl j :
  Forall2 (locOk ps) pages locs → Forall (λ p, is_u32 p) pages →
  getLocs (pre ++ concat (putLoc <$> locs) ++ tl) ps (zlen pre) j pages = Ok locs.
Proof.
  intros Hl. revert pre j. induction Hl as [|p l pages locs (E & Ho & Hs & Hz & Hc) Hl IH]; intros pre j Hp; [done|].
  apply Forall_cons in Hp as [Hp Hps]. rewrite fmap_cons. cbn [concat getLocs]. rewrite <-app_assoc.
  destruct (rd_putLoc pre l (concat (putLoc <$> locs) ++ tl)) as (H1 & H2 & H3 & H4); [by rewrite E|done..|].
  cbn zeta in H1, H2, H3, H4. rewrite H1, H2, H3, H4, bool_decide_eq_false_2; [|cbn; lia].
  assert (zlen (putLoc l) = 12) as Hlen by (unfold putLoc; len).
  cbn [reject rbind]. specialize (IH (pre ++ putLoc l) (j + 1) Hps).
  rewrite <-app_assoc in IH. replace (zlen (pre ++ putLoc l)) with (zlen pre + 12) in IH by (rewrite length_app; lia).
  rewrite IH. cbn [rbind]. rewrite <-Hz. by destruct l.
Qed.

Lemma zlen_entryLocs locs : zlen (concat (putLoc <$> locs)) = 12 * zlen locs.
Proof.
  induction locs as [|l locs IH]; [done|]. rewrite fmap_cons. cbn [concat].
  rewrite length_app, Nat2Z.inj_add, IH. unfold putLoc at 1. len.
Qed.

Lemma putLocs_v2 v2 e b :
  entryOk v2 e → putLocs e = Ok b → b = if v2 then concat (putLoc <$> ieLocs e) else [].
Proof.
  intros [_ _ _ _ Hl]. unfold putLocs, hasLocs. case_bool_decide as Hne; intros H; inv_ok; subst b.
  - destruct v2; [done|]. by rewrite Hl in Hne.
  - destruct (decide (ieLocs e = [])) as [E|]; [|by destruct Hne]. rewrite E. by destruct v2.
Qed.

Lemma string_bs s : String.string_of_list_byte (bs s) = s.
Proof. apply String.string_of_list_byte_of_string. Qed.

(** A field read out of a buffer cut in front of it. *)
Lemma rd32_field data pre z tl off : data = pre ++ be_enc 4 z ++ tl → off = zlen pre → is_u32 z → rd32 data off = z.
Proof. intros -> -> Hz. by apply rd32_at. Qed.

Lemma getEntry_put v2 e b pre tl :
  entryOk v2 e → putEntry e = Ok b → getEntry v2 (pre ++ b ++ tl) (zlen pre) = Ok (e, zlen pre + zlen b).
Proof.
  intros He H. pose proof He as [Hsize Hcm Hpages Hcount Hlocs]. unfold putEntry in H. inv_ok. subst b.
  rewrite bool_decide_eq_false in *. apply (putLocs_v2 v2) in Ha0; [|done]. subst a0. rename a into pages.
  set (key := bs (ieKey e)) in *. set (locs := if v2 then _ else []) in *.
  set (kp := pre ++ be_enc 2 (zlen key) ++ key).
  set (sp := kp ++ be_enc 4 (iePageSize e)). set (cp := sp ++ be_enc 4 (ieCommit e)).
  set (hp := cp ++ be_enc 4 (zlen (iePages e))).
  destruct (getPages_put None (iePages e) pages hp (locs ++ tl)) as [Epages Hlen]; [done..|].
  assert (zlen locs = if v2 then 12 * zlen (iePages e) else 0) as Hll.
  { unfold locs. destruct v2; [|done]. rewrite zlen_entryLocs. by rewrite (Forall2_length _ _ _ Hlocs). }
  replace (pre ++ _ ++ tl) with (hp ++ pages ++ locs ++ tl) by (unfold hp, cp, sp, kp; by rewrite <-!app_assoc).
  assert (zlen hp = zlen pre + 14 + zlen key) as Hhp by (unfold hp, cp, sp, kp; len).
  set (data := hp ++ pages ++ locs ++ tl) in *.
  assert (zlen data = zlen hp + 4 * zlen (iePages e) + zlen locs + zlen tl) as Hdata by (unfold data; len).
  unfold getEntry.
  assert (rd16 data (zlen pre) = zlen key) as ->.
  { unfold data, hp, cp, sp, kp. rewrite <-!app_assoc, rd16_skip, Z.sub_diag by lia. apply rd16_enc. lia. }
  assert (slice data (zlen pre + 2) (zlen pre + 2 + zlen key) = key) as ->.
  { unfold data, hp, cp, sp, kp. rewrite <-!app_assoc, app_assoc. apply slice_middle; len. }
  assert (rd32 data (zlen pre + 2 + zlen key) = iePageSize e) as -> 
    by (eapply (rd32_field _ kp); [unfold data, hp, cp, sp; by rewrite <-!app_assoc|unfold hp, cp, sp, kp in *; len|lia]).
  assert (rd32 data (zlen pre + 2 + zlen key + 4) = ieCommit e) as -> 
    by (eapply (rd32_field _ sp); [unfold data, hp, cp; by rewrite <-!app_assoc|unfold hp, cp, sp, kp in *; len|lia]).
  assert (rd32 data (zlen pre + 2 + zlen key + 8) = zlen (iePages e)) as -> 
    by (eapply (rd32_field _ cp); [unfold data, hp; by rewrite <-!app_assoc|unfold hp, cp, sp, kp in *; len|lia]).
  rewrite !bool_decide_eq_false_2 by lia. cbn [reject rbind].
  replace (zlen pre + 2 + zlen key + 12) with (zlen hp) by lia. rewrite Epages.
  assert (String.string_of_list_byte key = ieKey e) as -> by apply string_bs. destruct v2.
  - rewrite bool_decide_eq_false_2 by lia. cbn [reject rbind].
    replace data with ((hp ++ pages) ++ locs ++ tl) by (unfold data; by rewrite <-!app_assoc).
    replace (zlen hp + 4 * zlen (iePages e)) with (zlen (hp ++ pages)) by len.
    unfold locs. rewrite getLocs_put by done. cbn [rbind]. f_equal. f_equal; [by destruct e|]. unfold locs in Hll. len.
  - rewrite <-Hlocs. f_equal. f_equal; [by destruct e|]. len.
Qed.

Lemma getEntries_put v2 es b pre tl :
  Forall (entryOk v2) es → putEntries es = Ok b → getEntries v2 (pre ++ b ++ tl) (zlen pre) (length es) = Ok es.
Proof.
  intros He. revert b pre. induction He as [|e es He Hes IH]; intros b pre H; cbn [putEntries] in H; inv_ok; [done|].
  subst b. cbn [length getEntries]. rewrite <-app_assoc, (getEntry_put v2 e) by done. cbn [rbind].
  specialize (IH a0 (pre ++ a) Ha0). rewrite <-!app_assoc in IH.
  replace (zlen (pre ++ a)) with (zlen pre + zlen a) in IH by len. by rewrite IH.
Qed.

Lemma index_roundtrip idx data : indexOk (isV2 idx) idx → EncodeIndex idx = Ok data → DecodeIndex data = Ok idx.
Proof.
  intros [Hw Hcount Hes]. unfold EncodeIndex. intros H. inv_ok. subst data. set (magic := if isV2 idx then _ else _).
  assert (zlen magic = 4) as Hm by (unfold magic; by destruct (isV2 idx)).
  unfold DecodeIndex.
  rewrite bool_decide_eq_false_2 by len. cbn [reject rbind].
  replace (slice (magic ++ be_enc 8 (ixWatermark idx) ++ be_enc 4 (zlen (ixEntries idx)) ++ a) 0 4) with magic;
    [|symmetry; rewrite slice_app_take by lia; by apply slice_all].
  assert (bool_decide (magic = indexMagicV2) = isV2 idx) as ->
    by (unfold magic; by destruct (isV2 idx)).
  assert (negb (isV2 idx) && bool_decide (magic ≠ indexMagic) = false) as -> by (unfold magic; by destruct (isV2 idx)).
  cbn [reject rbind].
  assert (∀ z off k, zlen magic = off → is_u64 z → rd64 (magic ++ be_enc 8 z ++ k) off = z) as H8.
  { intros z off k <- Hz. rewrite rd64_skip, Z.sub_diag by lia. by apply rd64_enc. }
  rewrite (H8 _ 4) by done.
  rewrite (app_assoc magic). replace 12 with (zlen (magic ++ be_enc 8 (ixWatermark idx))) by len.
  rewrite rd32_at by lia. rewrite Nat2Z.id. rewrite (app_assoc _ (be_enc 4 _)).
  replace 16 with (zlen ((magic ++ be_enc 8 (ixWatermark idx)) ++ be_enc 4 (zlen (ixEntries idx)))) by len.
  rewrite <-(app_nil_r a), getEntries_put by done. cbn [rbind]. by destruct idx.
Qed.

(** ** Properties *)

(** C39: decoding an encoded index gives the index back: for every index whose numbers fit
    their fields and whose entries all carry one location per page (the second
    version) or none (the first), the decoder returns exactly the watermark and
    the entries that were encoded. *)
Theorem DecodeIndex_Encode idx data :
  indexOk (isV2 idx) idx → EncodeIndex idx = Ok data → DecodeIndex data = Ok idx.
Proof. apply index_roundtrip. Qed.

Definition exampleIndex : PageIndex :=
  MkIndex 9 [MkEntry "cells/a/b/c/ltx/e1/L1/9.p0.snapshot" 512 3 [1; 2] [MkPageLoc 1 48 512 512 CodecRaw; MkPageLoc 2 560 20 512 CodecLZ4];
             MkEntry "cells/a/b/c/ltx/e1/L1/9.p1.snapshot" 512 3 [3] [MkPageLoc 3 36 31 512 CodecLZ4]].

Lemma exampleIndex_ok : indexOk true exampleIndex.
Proof.
  split; [done|done|]. repeat (constructor; [split; cbn; [lia|lia|repeat (constructor; [lia|]); constructor|lia|]|]); [..|constructor].
  - repeat (constructor; [split_and!; cbn; done || lia || auto|]). constructor.
  - repeat (constructor; [split_and!; cbn; done || lia || auto|]). constructor.
Qed.

Lemma DecodeIndex_Encode_witness :
  ∃ data, EncodeIndex exampleIndex = Ok data ∧ DecodeIndex data = Ok exampleIndex.
Proof.
  eexists. split; [vm_compute; reflexivity|]. apply (DecodeIndex_Encode exampleIndex); [apply exampleIndex_ok|vm_compute; reflexivity].
Defined.

(** Whatever bytes the decoder accepts as an index, the result is well formed: the
    watermark and every number fit their fields, page sizes are positive, and in
    the second version each entry has exactly one location per page, for that
    page, of that page size, with a positive stored length and a known codec. *)
Theorem DecodeIndex_wf data idx :
  DecodeIndex data = Ok idx → indexOk (bool_decide (slice data 0 4 = indexMagicV2)) idx.
Proof. apply index_decoded. Qed.

Definition exampleIndexBytes : bytes :=
  match EncodeIndex exampleIndex with Ok d => d | Err _ => [] end.

Lemma DecodeIndex_wf_witness :
  indexOk (bool_decide (slice exampleIndexBytes 0 4 = indexMagicV2)) exampleIndex.
Proof. apply DecodeIndex_wf. vm_compute. reflexivity. Defined.

(** An index that mixes entries with and without locations is encoded without an error, and read
    as something else. *)
Example mixed_index :
  let idx := MkIndex 9 [MkEntry "a" 512 1 [1] []; MkEntry "b" 512 2 [2] [MkPageLoc 2 36 512 512 CodecRaw]] in
  match EncodeIndex idx with Ok d => DecodeIndex d | Err e => Err e end = Err (ErrIndexLoc 0).
Proof. vm_compute. reflexivity. Qed.
