(* ===== verification/Permanent.v ===== *)
(** * Objects that are written once

    Some objects of the bucket are only ever created: no program of the fleet puts,
    replaces or deletes them. What a program has seen in such an object, or has
    created, holds from then on, in every run. [knows] says which writes a program
    makes and collects what it has seen on the way to its result; [claims_hold]
    concludes that a thread's result speaks the truth about the bucket, at its end
    and at any later time. The same statement about a program's writes also shows
    that it keeps a [Discipline]. *)

From S2P Require Import Prelude Cell Bucket Fleet Discipline.

Section knows.
(** The writes that a program may make. *)
Context `{Etag} (W : bucketOp → Prop) {C M : Type}.

Abbreviation facts := (list (string * bytes)).

(** What an effect that succeeded tells. *)
Definition learns (op : bucketOp) : facts :=
  match op with Put k d | ConditionalCreate k d | CAS k d _ => [(k, d)] | _ => [] end.

(** Every path of the program writes as it may and ends with [Q] of what it knows. *)
Fixpoint knows {R : Type} (Q : facts → R → Prop) (K : facts) (p : prog C M R) : Prop :=
  match p with
  | Ret r => Q K r
  | Fetch key k => (∀ d, knows Q ((key, d) :: K) (k (Ok (d, etag d)))) ∧ ∀ e, knows Q K (k (Err e))
  | Do op k => W op ∧ knows Q (learns op ++ K) (k (Ok (tagOf op))) ∧ ∀ e, knows Q K (k (Err e))
  | ListKeys _ k => ∀ r, knows Q K (k r)
  | Now k => ∀ t, knows Q K (k t)
  | CtxErr k => ∀ b, knows Q K (k b)
  | Atomic _ k => ∀ x, knows Q K (k x)
  | Wait _ _ k => ∀ x, knows Q K (k x)
  | Call _ k => ∀ b, knows Q K (k b)
  end.

Lemma knows_mono {R} (Q Q' : facts → R → Prop) K K' (p : prog C M R) :
  K ⊆ K' → (∀ K1 K2 r, K1 ⊆ K2 → Q K1 r → Q' K2 r) → knows Q K p → knows Q' K' p.
Proof.
  intros HK HQ. revert K K' HK. induction p as [r|key k IH|op k IH|pre k IH|k IH|k IH|T f k IH|T c f k IH|c k IH];
    intros K K' HK; simpl; try (by eauto).
  - intros [Ho He]. split; [|by eauto]. intros d. eapply IH; [|by apply Ho]. set_solver.
  - intros (Hop & Ho & He). split_and!; [done| |by eauto]. eapply IH; [|exact Ho]. set_solver.
Qed.

Lemma knows_bind {R S} (Q : facts → R → Prop) (Q' : facts → S → Prop) K (p : prog C M R) (g : R → prog C M S) :
  knows Q K p → (∀ K' r, K ⊆ K' → Q K' r → knows Q' K' (g r)) → knows Q' K (p ≫= g).
Proof.
  change (p ≫= g) with (bind p g). revert K.
  induction p as [r|key k IH|op k IH|pre k IH|k IH|k IH|T f k IH|T c f k IH|c k IH]; intros K Hp Hg; simpl in *;
    try (by eauto).
  - destruct Hp as [Ho He]. split; [|by eauto]. intros d. eapply IH; [by apply Ho|]. intros K' r HK. apply Hg. set_solver.
  - destruct Hp as (Hop & Ho & He). split_and!; [done| |by eauto]. eapply IH; [exact Ho|]. intros K' r HK. apply Hg. set_solver.
Qed.

Lemma knows_check {E A B} (Q : facts → result E A → Prop) (Q' : facts → result E B → Prop) K
    (p : prog C M (result E A)) (g : A → prog C M (result E B)) :
  knows Q K p → (∀ K' e, Q K' (Err e) → Q' K' (Err e)) →
  (∀ K' a, K ⊆ K' → Q K' (Ok a) → knows Q' K' (g a)) → knows Q' K (check p g).
Proof.
  intros Hp He Hg. unfold check. eapply (knows_bind Q); [done|]. intros K' [a|e] HK HQ; [by apply Hg|by apply He].
Qed.

(** A program of which only the writes matter. *)
Definition careful {R} (p : prog C M R) : Prop := ∀ K, knows (λ _ _, True) K p.

Lemma careful_bind {R S} (p : prog C M R) (g : R → prog C M S) :
  careful p → (∀ r, careful (g r)) → careful (p ≫= g).
Proof. intros Hp Hg K. eapply knows_bind; [apply Hp|]. intros K' r _ _. apply Hg. Qed.

Lemma careful_check {E A B} (p : prog C M (result E A)) (g : A → prog C M (result E B)) :
  careful p → (∀ r, careful (g r)) → careful (check p g).
Proof. intros Hp Hg. apply careful_bind; [done|]. by intros [a|e]. Qed.

Lemma knows_careful {R} (Q : facts → R → Prop) K (p : prog C M R) :
  careful p → (∀ K r, Q K r) → knows Q K p.
Proof. intros Hp HQ. eapply knows_mono; [|auto|apply Hp]. done. Qed.

(** A program whose writes are good keeps the discipline. *)
Lemma careful_keeps `{Discipline} {R} (p : prog C M R) : (∀ op, W op → goodWrite op) → careful p → keeps p.
Proof.
  intros HW Hp. specialize (Hp []). revert Hp. unfold keeps. generalize (@nil (string * bytes)) as K.
  induction p as [r|key k IH|op k IH|pre k IH|k IH|k IH|T f k IH|T c f k IH|c k IH]; intros K; simpl; try (by eauto).
  - intros [Ho He] r Hr. destruct r as [[d e]|e]; [|by eauto]. destruct (Hr d e eq_refl) as [-> _]. by eauto.
  - intros (Hop & Ho & He). split; [auto|]. intros r Hr. destruct r as [e|e]; [|by eauto].
    rewrite (Hr e eq_refl). by eauto.
Qed.
End knows.

(** ** Programs that only read *)

Section silent.
Context `{Etag} {C M : Type}.

Fixpoint silent {R : Type} (p : prog C M R) : Prop :=
  match p with
  | Ret _ => True
  | Fetch _ k => ∀ r, silent (k r)
  | Do _ _ | Atomic _ _ | Wait _ _ _ => False
  | ListKeys _ k => ∀ r, silent (k r)
  | Now k => ∀ t, silent (k t)
  | CtxErr k => ∀ b, silent (k b)
  | Call _ k => ∀ b, silent (k b)
  end.

Lemma silent_bind {A B} (p : prog C M A) (g : A → prog C M B) : silent p → (∀ a, silent (g a)) → silent (p ≫= g).
Proof.
  change (p ≫= g) with (bind p g). intros Hp Hg.
  induction p as [r|key k IH|op k IH|pre k IH|k IH|k IH|T f k IH|T c f k IH|c k IH]; simpl in *; auto.
Qed.

Lemma silent_check {E A B} (p : prog C M (result E A)) (g : A → prog C M (result E B)) :
  silent p → (∀ a, silent (g a)) → silent (check p g).
Proof. intros Hp Hg. apply silent_bind; [done|]. by intros [a|e]. Qed.

Lemma silent_alone {R} t cb (p : prog C M R) st m st' m' r :
  silent p → alone t cb p st m = Some (st', m', r) → st' = st ∧ m' = m.
Proof.
  revert st m. induction p as [x|key k IH|op k IH|pre k IH|k IH|k IH|T f k IH|T c f k IH|c k IH];
    intros st m Hp; simpl in *; try done; try (by apply IH). by intros [= -> -> ->].
Qed.

(** It returns when it runs alone. *)
Lemma silent_returns {R} t cb (p : prog C M R) st m : silent p → ∃ r, alone t cb p st m = Some (st, m, r).
Proof.
  revert st m. induction p as [x|key k IH|op k IH|pre k IH|k IH|k IH|T f k IH|T c f k IH|c k IH];
    intros st m Hp; simpl in *; try done; try (by apply IH). by exists x.
Qed.

Lemma silent_careful {R} W (p : prog C M R) : silent p → careful W p.
Proof.
  intros Hp K. revert K. induction p as [x|key k IH|op k IH|pre k IH|k IH|k IH|T f k IH|T c f k IH|c k IH];
    intros K; simpl in *; try done; auto.
Qed.
End silent.

(** ** Fleets *)

(** The keys that are written once. *)
Class Permanent := perm : string → Prop.

Definition onlyCreates `{Permanent} (op : bucketOp) : Prop :=
  perm (opKey op) → match op with ConditionalCreate _ _ => True | _ => False end.

Section fleet.
Context `{Etag} `{Permanent} (W : bucketOp → Prop) (W_creates : ∀ op, W op → onlyCreates op).
Context {C M R : Type} (Q : list (string * bytes) → R → Prop).

Definition honest (x : action C M R) : Prop :=
  match x with Spawn _ p => knows W Q [] p | _ => True end.

Definition holds (st : store) (K : list (string * bytes)) : Prop :=
  ∀ k d, (k, d) ∈ K → perm k → st !! k = Some d.

Record faithful (w : world C M R) : Prop := {
  faithful_pending : Forall W (wPending w);
  faithful_threads : Forall (λ '(_, p), ∃ K, knows W Q K p ∧ holds (wStore w) K) (wThreads w);
}.

(** What is there stays. *)
Definition lasting (st st' : store) : Prop := ∀ k d, perm k → st !! k = Some d → st' !! k = Some d.

Lemma lasting_refl st : lasting st st.
Proof. by intros k d _. Qed.

Lemma holds_lasting st st' K : lasting st st' → holds st K → holds st' K.
Proof. intros Hl HK k d Hd Hk. by apply Hl, HK. Qed.

Lemma perform_lasting op st : W op → lasting st (perform op st).1.
Proof.
  intros Hop%W_creates k d Hk Hd. unfold onlyCreates in Hop. destruct op as [k' d'|k' d'|k' d' e|k'|k' e]; cbn in *.
  - rewrite lookup_insert_ne; [done|]. intros ->. by apply Hop.
  - destruct (st !! k') eqn:E; [done|]. cbn. rewrite lookup_insert_ne; [done|]. intros ->. congruence.
  - destruct (st !! k') eqn:E; [|done]. case_decide; [|done]. cbn. rewrite lookup_insert_ne; [done|]. intros ->. by apply Hop.
  - rewrite lookup_delete_ne; [done|]. intros ->. by apply Hop.
  - destruct (st !! k') eqn:E; [|done]. case_decide; [|done]. cbn. rewrite lookup_delete_ne; [done|]. intros ->. by apply Hop.
Qed.

Lemma perform_learns op st st' e K :
  perform op st = (st', Ok e) → W op → holds st K → e = tagOf op ∧ holds st' (learns op ++ K).
Proof.
  intros E Hop HK. pose proof (perform_lasting op st Hop) as Hl. rewrite E in Hl.
  assert (e = tagOf op ∧ ∀ k d, (k, d) ∈ learns op → st' !! k = Some d) as [-> Hn].
  { destruct op as [k' d'|k' d'|k' d' e'|k'|k' e']; cbn in *.
    - injection E as <- <-. split; [done|]. intros k d [= -> ->]%list_elem_of_singleton. apply lookup_insert_eq.
    - destruct (st !! k'); [done|]. injection E as <- <-. split; [done|].
      intros k d [= -> ->]%list_elem_of_singleton. apply lookup_insert_eq.
    - destruct (st !! k'); [|done]. case_decide; [|done]. injection E as <- <-. split; [done|].
      intros k d [= -> ->]%list_elem_of_singleton. apply lookup_insert_eq.
    - injection E as <- <-. by split; [|intros k d ?%elem_of_nil].
    - destruct (st !! k'); [|done]. case_decide; [|done]. injection E as <- <-. by split; [|intros k d ?%elem_of_nil]. }
  split; [done|]. intros k d [Hin|Hin]%elem_of_app Hk; [by apply Hn|]. by apply Hl, HK.
Qed.

Lemma step_faithful a st (m : M) (p : prog C M R) st' m' p' K :
  step a st m p = Some (st', m', p') → knows W Q K p → holds st K →
  lasting st st' ∧ (∃ K', knows W Q K' p' ∧ holds st' K') ∧ Forall W (delays a p).
Proof.
  intros Hs Hp HK.
  pose proof lasting_refl as Hrefl.
  destruct p as [r|key k|op k|pre k|k|k|T f k|T c f k|c k]; simpl in *; destruct a as [|ap e|e|t|b]; try done.
  - injection Hs as <- <- <-. split_and!; [done| |done]. destruct Hp as [Ho He]. unfold fetch.
    destruct (st !! key) as [d|] eqn:Hd; [|by eauto]. exists ((key, d) :: K). split; [done|].
    intros k' d' [[= -> ->]|Hin]%elem_of_cons Hk; [done|by apply HK].
  - case_decide; [done|]. injection Hs as <- <- <-. destruct Hp as [_ He]. split_and!; [done|by eauto|done].
  - destruct Hp as (Hop & Ho & He). pose proof (perform_lasting op st Hop) as Hl.
    destruct (perform op st) as [st1 [e|e]] eqn:E; injection Hs as <- <- <-; (split_and!; [done| |done]).
    + destruct (perform_learns op st st1 e K E Hop HK) as [-> HK']. eauto.
    + exists K. split; [done|]. by eapply holds_lasting.
  - destruct Hp as (Hop & Ho & He). pose proof (perform_lasting op st Hop) as Hl.
    injection Hs as <- <- <-. assert (lasting st (if ap then (perform op st).1 else st)) by by destruct ap.
    split_and!; [done| |done]. exists K. split; [done|]. by eapply holds_lasting.
  - destruct Hp as (Hop & Ho & He). injection Hs as <- <- <-. split_and!; [done|by eauto|by constructor].
  - injection Hs as <- <- <-. split_and!; [done|by eauto|done].
  - injection Hs as <- <- <-. split_and!; [done|by eauto|done].
  - injection Hs as <- <- <-. split_and!; [done|by eauto|done].
  - injection Hs as <- <- <-. split_and!; [done|by eauto|done].
  - destruct (f m) as [x m1]. injection Hs as <- <- <-. split_and!; [done|by eauto|done].
  - destruct (f m) as [[x m1]|]; [|done]. injection Hs as <- <- <-. split_and!; [done|by eauto|done].
  - destruct c; [|done]. injection Hs as <- <- <-. split_and!; [done|by eauto|done].
  - injection Hs as <- <- <-. split_and!; [done|by eauto|done].
Qed.

Lemma faithful_lasting pend thr (st st' : store) procs hist :
  lasting st st' → faithful (MkWorld st hist pend procs thr) →
  Forall (λ '(_, p), ∃ K, knows W Q K p ∧ holds st' K) thr.
Proof.
  intros Hl [_ Ht]. eapply Forall_impl; [exact Ht|]. intros [i p] (K & Hp & HK). exists K. split; [done|].
  by eapply holds_lasting.
Qed.

Lemma faithful_act x w w' :
  honest x → faithful w → act x w = Some w' → faithful w' ∧ lasting (wStore w) (wStore w').
Proof.
  intros Hx Hw Hact. pose proof Hw as [Hpend Hthr]. destruct x as [m|i p|n a|n].
  - injection Hact as <-. split; [by split|apply lasting_refl].
  - simpl in Hact. destruct (wProcs w !! i); [|done]. injection Hact as <-. split; [|apply lasting_refl].
    split; simpl; [done|]. apply Forall_app. split; [done|]. constructor; [|done]. exists []. split; [done|].
    intros k d ?%elem_of_nil. done.
  - apply act_Run in Hact as (i & p & m & st & m' & p' & Hn & Hi & Hs & ->). simpl.
    destruct (Forall_lookup_1 _ _ _ _ Hthr Hn) as (K & Hp & HK).
    destruct (step_faithful _ _ _ _ _ _ _ _ Hs Hp HK) as (Hl & HK' & Hd). split; [|done].
    split; simpl; [by apply Forall_app|]. apply Forall_insert; [|done]. by destruct w; eapply faithful_lasting.
  - simpl in Hact. destruct (wPending w !! n) as [op|] eqn:Hn; [|done]. injection Hact as <-. simpl.
    pose proof (perform_lasting op (wStore w) (Forall_lookup_1 _ _ _ _ Hpend Hn)) as Hl. split; [|done].
    split; simpl; [by apply Forall_delete|]. by destruct w; eapply faithful_lasting.
Qed.

Lemma faithful_empty : faithful emptyWorld.
Proof. by split. Qed.

Lemma faithful_acts xs w : Forall honest xs → acts xs emptyWorld = Some w → faithful w.
Proof.
  intros Hxs Hacts. eapply (acts_invariant honest faithful); [|done|apply faithful_empty|done].
  intros x w1 w2 Hx Hw1 Hact. by eapply faithful_act.
Qed.

(** In every run a step leaves what was written once. *)
Lemma run_lasting xs x w w' :
  Forall honest (xs ++ [x]) → acts xs emptyWorld = Some w → act x w = Some w' → lasting (wStore w) (wStore w').
Proof.
  intros [Hxs Hx]%Forall_app Hacts Hact. apply Forall_inv in Hx.
  eapply faithful_act; [done| |done]. by eapply faithful_acts.
Qed.

(** What a thread that has ended knows is so. *)
Lemma claims_hold xs w n i r :
  Forall honest xs → acts xs emptyWorld = Some w → wThreads w !! n = Some (i, Ret r) →
  ∃ K, Q K r ∧ holds (wStore w) K.
Proof.
  intros Hxs Hacts Hn. destruct (faithful_acts xs w Hxs Hacts) as [_ Hthr].
  by destruct (Forall_lookup_1 _ _ _ _ Hthr Hn) as (K & Hp & HK); eauto.
Qed.
End fleet.

(** ** While something holds of the bucket *)

Section within.
Context `{Etag} {C M R : Type} (I : store → Prop).

(** Every path of the program, as long as its reads find a bucket with [I], makes no write and
    ends with [Q]. *)
Fixpoint within {R} (Q : R → Prop) (p : prog C M R) : Prop :=
  match p with
  | Ret r => Q r
  | Fetch key k => (∀ st, I st → within Q (k (fetch st key))) ∧ ∀ e, e ≠ ErrNotFound → within Q (k (Err e))
  | Do _ _ => False
  | ListKeys _ k => ∀ r, within Q (k r)
  | Now k => ∀ t, within Q (k t)
  | CtxErr k => ∀ b, within Q (k b)
  | Atomic _ k => ∀ x, within Q (k x)
  | Wait _ _ k => ∀ x, within Q (k x)
  | Call _ k => ∀ b, within Q (k b)
  end.

Lemma within_bind {A B} (Q : A → Prop) (Q' : B → Prop) (p : prog C M A) (g : A → prog C M B) :
  within Q p → (∀ a, Q a → within Q' (g a)) → within Q' (p ≫= g).
Proof.
  change (p ≫= g) with (bind p g). intros Hp Hg.
  induction p as [r|key k IH|op k IH|pre k IH|k IH|k IH|T f k IH|T c f k IH|c k IH]; simpl in *; auto.
  destruct Hp as [Ho He]. split; auto.
Qed.

Lemma within_step (Q : R → Prop) a st m (p : prog C M R) st' m' p' :
  I st → within Q p → step a st m p = Some (st', m', p') → within Q p'.
Proof.
  intros HI Hp Hs. destruct p as [r|key k|op k|pre k|k|k|T f k|T c f k|c k]; simpl in *; destruct a as [|ap e|e|t|b]; try done.
  - injection Hs as <- <- <-. by apply Hp.
  - case_decide; [done|]. injection Hs as <- <- <-. by apply Hp.
  - by injection Hs as <- <- <-.
  - by injection Hs as <- <- <-.
  - by injection Hs as <- <- <-.
  - by injection Hs as <- <- <-.
  - destruct (f m). by injection Hs as <- <- <-.
  - destruct (f m) as [[]|]; [|done]. by injection Hs as <- <- <-.
  - destruct c; [|done]. by injection Hs as <- <- <-.
  - by injection Hs as <- <- <-.
Qed.

Lemma within_act (Q : R → Prop) x (w w' : world C M R) n i p :
  I (wStore w) → act x w = Some w' → wThreads w !! n = Some (i, p) → within Q p →
  ∃ p', wThreads w' !! n = Some (i, p') ∧ within Q p'.
Proof.
  intros HI Hact Hn Hp. destruct x as [m|j q|k a|k].
  - injection Hact as <-. eauto.
  - simpl in Hact. destruct (wProcs w !! j); [|done]. injection Hact as <-. simpl. exists p. split; [|done].
    by apply lookup_app_l_Some.
  - apply act_Run in Hact as (j & q & m & st & m' & q' & Hk & Hj & Hs & ->). simpl.
    destruct (decide (k = n)) as [->|Hne].
    + assert ((j, q) = (i, p)) as [= -> ->] by congruence. exists q'. split; [|by eapply within_step].
      apply list_lookup_insert_eq. by eapply lookup_lt_Some.
    + exists p. split; [|done]. by rewrite list_lookup_insert_ne.
  - simpl in Hact. destruct (wPending w !! k); [|done]. injection Hact as <-. eauto.
Qed.

(** A run in which the bucket has [I] up to the last step. *)
Fixpoint throughout (xs : list (action C M R)) (w : world C M R) : Prop :=
  match xs with
  | [] => True
  | x :: xs => I (wStore w) ∧ match act x w with Some w' => throughout xs w' | None => True end
  end.

Fixpoint throughoutb (b : store → bool) (xs : list (action C M R)) (w : world C M R) : bool :=
  match xs with
  | [] => true
  | x :: xs => b (wStore w) && match act x w with Some w' => throughoutb b xs w' | None => true end
  end.

Lemma throughoutb_ok b xs w : (∀ st, b st = true → I st) → throughoutb b xs w = true → throughout xs w.
Proof.
  intros Hb. revert w. induction xs as [|x xs IH]; intros w; cbn [throughout throughoutb]; [done|].
  rewrite andb_true_iff. intros [Hw Hx]. split; [by apply Hb|]. destruct (act x w); [by apply IH|done].
Qed.

Lemma within_acts (Q : R → Prop) xs (w w' : world C M R) n i p :
  throughout xs w → acts xs w = Some w' → wThreads w !! n = Some (i, p) → within Q p →
  ∃ p', wThreads w' !! n = Some (i, p') ∧ within Q p'.
Proof.
  revert w p. induction xs as [|x xs IH]; intros w p; simpl; [intros _ [= <-]; eauto|].
  intros [HI Ht] Hacts Hn Hp. destruct (act x w) as [w1|] eqn:Hx; [|done]. simpl in Hacts.
  destruct (within_act Q x w w1 n i p HI Hx Hn Hp) as (p1 & Hn1 & Hp1). by eapply IH.
Qed.
End within.
