(* ===== verification/Replica.v ===== *)
(** * The replica manager: storing segments ([internal/replica])

    The manager puts the segments of a cell into the bucket under their canonical
    names. Segments are immutable: a key is created once, and writing it again
    succeeds only with the same bytes. Key-value stores and queues can be deleted
    and created anew; a fence in the bucket says that a deletion is under way and
    up to which epoch the cell's objects belong to a deleted life. Every write
    reads the fence first, under a lock that it shares with other writes and that
    excludes changes of the fence by the same process.

    The cached read of the fence ([readResourceFenceShared]) retries without a
    bound; its number of rounds is an argument and running out of them shows as the
    end of the context. *)

From S2P Require Import Prelude Ltx PageMap SnapshotParts Cell Bucket Fleet Objects Decimal Names Index.

(** ** State *)

Record resourceFence := MkResFence {
  rfJob : string;
  rfDeleted : bool;
  rfEpoch : Z;
}.

#[global] Instance resourceFence_eq_dec : EqDecision resourceFence.
Proof. solve_decision. Defined.

Definition noFence : resourceFence := MkResFence EmptyString false 0.

Record Manifest := MkManifest {
  mnEpoch : Z;
  mnMinTxID : Z;
  mnMaxTxID : Z;
  mnCommit : Z;
  mnPageSize : Z;
  mnObjects : list string;
  mnCreatedMs : Z;
}.

#[global] Instance Manifest_eq_dec : EqDecision Manifest.
Proof. solve_decision. Defined.

Inductive replicaError : Set :=
| ErrResourceDeleted
| ErrScopeInvalid (e : scopeError)
| ErrObjects (e : objectsError)
| ErrRawBucket (e : bucketError)
| ErrFenceCorrupt
| ErrCtxEnded
| ErrCleanupIdentity
| ErrSegmentInvalid (e : Ltx.error)
| ErrSegmentEpoch
| ErrEmptyBatch
| ErrSegmentConflict
| ErrEpochMarkerConflict
| ErrManifestDecode
| ErrIndexFormat (e : indexError)
| ErrPayloadKey.

#[global] Instance scopeError_eq_dec : EqDecision scopeError.
Proof. solve_decision. Defined.
#[global] Instance objectsError_eq_dec : EqDecision objectsError.
Proof. solve_decision. Defined.
#[global] Instance ltxError_eq_dec : EqDecision Ltx.error.
Proof. solve_decision. Defined.
#[global] Instance indexError_eq_dec : EqDecision indexError.
Proof. solve_decision. Defined.
#[global] Instance replicaError_eq_dec : EqDecision replicaError.
Proof. solve_decision. Defined.

Record fenceCacheEntry := MkFenceEntry {
  feFence : resourceFence;
  feEtag : string;
  feAt : time;
}.

(** A read of the fence that others may wait for; its outcome once it is done. *)
Record fenceFlight := MkFenceFlight {
  ffRev : Z;
  ffDone : option (result replicaError (resourceFence * string));
}.

(** Flights are numbered by their place in [mgFlightLog]. A lock has a number of readers and
    possibly a writer. *)
Record Manager := MkManager {
  mgLocks : gmap Z (nat * bool);
  mgCache : gmap string fenceCacheEntry;
  mgRev : Z;
  mgFlights : gmap string nat;
  mgFlightLog : list fenceFlight;
}.

Definition newManager : Manager := MkManager ∅ ∅ 0 ∅ [].

Definition setLocks (x : gmap Z (nat * bool)) (m : Manager) : Manager :=
  MkManager x (mgCache m) (mgRev m) (mgFlights m) (mgFlightLog m).
Definition setFenceCache (x : gmap string fenceCacheEntry) (m : Manager) : Manager :=
  MkManager (mgLocks m) x (mgRev m) (mgFlights m) (mgFlightLog m).
Definition setFlightState (fl : gmap string nat) (log : list fenceFlight) (m : Manager) : Manager :=
  MkManager (mgLocks m) (mgCache m) (mgRev m) fl log.
Definition bumpRev (m : Manager) : Manager :=
  MkManager (mgLocks m) (mgCache m) (mgRev m + 1) (mgFlights m) (mgFlightLog m).

(** [encoding/json] for the records; an empty object is the zero fence. *)
Class replicaCodec := {
  fence_codec :: Codec resourceFence;
  manifest_codec :: Codec Manifest;
  jsonValid : bytes → bool;
  jsonValid_decoded d (f : resourceFence) : unmarshal d = Some f → jsonValid d = true;
  empty_object : unmarshal (bs "{}") = Some noFence;
}.

(** ** Keys and locks *)

Definition resourceFenceKey (s : Scope) : string := scopeKey s +:+ "/resource-fence.v2".
Definition legacyResourceFenceKey (s : Scope) : string := scopeKey s +:+ "/resource-fence.json".

(** The classes whose cells can be deleted. *)
Definition resourceClass (s : Scope) : bool :=
  bool_decide (Class s = "__kv__") || bool_decide (Class s = "__queue__").

Definition resourceObjects : Objects := NewOwned PrefixCells OwnerReplica.

Fixpoint lockHash (s : string) (h : Z) : Z :=
  match s with
  | EmptyString => h
  | String c s => lockHash s (u64 (h * 131 + Z.of_N (Ascii.N_of_ascii c)))
  end.

Definition resourceLock (s : Scope) : Z := lockHash (scopeString s) 0 mod 64.

Definition lockOf (m : Manager) (i : Z) : nat * bool := default (O, false) (mgLocks m !! i).

Definition tryRLock (i : Z) (m : Manager) : option Manager :=
  match lockOf m i with
  | (n, false) => Some (setLocks (<[i := (S n, false)]> (mgLocks m)) m)
  | _ => None
  end.
Definition runlock (i : Z) (m : Manager) : Manager :=
  setLocks (<[i := (pred (lockOf m i).1, (lockOf m i).2)]> (mgLocks m)) m.
Definition tryLock (i : Z) (m : Manager) : option Manager :=
  match lockOf m i with
  | (O, false) => Some (setLocks (<[i := (O, true)]> (mgLocks m)) m)
  | _ => None
  end.
Definition unlock (i : Z) (m : Manager) : Manager :=
  setLocks (<[i := ((lockOf m i).1, false)]> (mgLocks m)) m.

(** ** The fence cache *)

Definition resourceFenceCacheTTL : Z := 1 * Second.
Definition maxFenceCache : Z := 4096.
Definition maxFenceFlights : Z := 1024.

Definition fenceAbsent (f : resourceFence) : bool :=
  negb (rfDeleted f) && bool_decide (rfJob f = EmptyString) && bool_decide (rfEpoch f = 0).

Definition fenceFresh (t : time) (e : fenceCacheEntry) : bool :=
  bool_decide (mono t - mono (feAt e) < resourceFenceCacheTTL).

Section cache.
(** The order in which a loop over a map meets its keys. *)
Context (order : list string → list string).

(** Keys are removed until there is room. *)
Fixpoint evictFences (keys : list string) (c : gmap string fenceCacheEntry) : gmap string fenceCacheEntry :=
  match keys with
  | [] => c
  | k :: keys => if decide (Z.of_nat (size c) < maxFenceCache) then c else evictFences keys (delete k c)
  end.

Definition roomForFence (key : string) (t : time) (c : gmap string fenceCacheEntry) : gmap string fenceCacheEntry :=
  if decide (c !! key = None ∧ maxFenceCache ≤ Z.of_nat (size c)) then
    let c := filter (λ '(_, e), fenceFresh t e = true) c in
    evictFences (order (map_to_list c).*1) c
  else c.

(** The critical section of [cacheReadFence], with its two clock readings. *)
Definition cacheReadFence (key : string) (f : resourceFence) (e : string) (rev : Z) (t u : time) (m : Manager) : Manager :=
  if decide (mgRev m ≠ rev) then m
  else if fenceAbsent f then
    setFenceCache (<[key := MkFenceEntry f e u]> (roomForFence key t (mgCache m))) m
  else setFenceCache (delete key (mgCache m)) m.

(** [cacheFence] *)
Definition cacheFence (s : Scope) (f : resourceFence) (e : string) (t : time) (m : Manager) : Manager :=
  let m := bumpRev m in
  if fenceAbsent f then setFenceCache (<[scopeString s := MkFenceEntry f e t]> (mgCache m)) m
  else setFenceCache (delete (scopeString s) (mgCache m)) m.

Inductive fenceLookup : Type :=
| FenceHit (f : resourceFence) (e : string)
| FenceJoin (n : nat)
| FenceLead (n : nat) (rev : Z).

Definition leadFence (key : string) (m : Manager) : fenceLookup * Manager :=
  let n := length (mgFlightLog m) in
  let flights := if decide (Z.of_nat (size (mgFlights m)) < maxFenceFlights)
                 then <[key := n]> (mgFlights m) else mgFlights m in
  (FenceLead n (mgRev m), setFlightState flights (mgFlightLog m ++ [MkFenceFlight (mgRev m) None]) m).

(** The first critical section of a round. *)
Definition lookupFence (key : string) (refresh : bool) (t : time) (m : Manager) : fenceLookup * Manager :=
  let hit := if refresh then None else e ← mgCache m !! key; if fenceFresh t e then Some e else None in
  match hit with
  | Some e => (FenceHit (feFence e) (feEtag e), m)
  | None =>
      match n ← mgFlights m !! key; f ← mgFlightLog m !! n; if decide (ffRev f = mgRev m) then Some n else None with
      | Some n => (FenceJoin n, m)
      | None => leadFence key m
      end
  end.

(** The last one of a leader: whether the revision is still the same. *)
Definition finishFence (key : string) (n : nat) (rev : Z) (r : result replicaError (resourceFence * string)) (m : Manager) :
    bool * Manager :=
  let flights := if decide (mgFlights m !! key = Some n) then delete key (mgFlights m) else mgFlights m in
  (bool_decide (mgRev m = rev), setFlightState flights (<[n := MkFenceFlight rev (Some r)]> (mgFlightLog m)) m).
End cache.

Definition isCtxError (e : replicaError) : bool :=
  bool_decide (e = ErrCtxEnded ∨ e = ErrObjects (ErrObject ErrCanceled)).

(** ** Programs *)

Section programs.
Context `{replicaCodec} (order : list string → list string) (rounds : nat) {C : Type}.
Abbreviation prog := (prog C Manager).

Definition onObjects {A} (p : prog (result objectsError A)) : prog (result replicaError A) :=
  r ← p; mret (rmap_err ErrObjects r).

Definition onBucket {A} (p : prog (result bucketError A)) : prog (result replicaError A) :=
  r ← p; mret (rmap_err ErrRawBucket r).

Definition decodeFence (r : result objectsError (bytes * string)) : result replicaError (resourceFence * string) :=
  match r with
  | Err e => Err (ErrObjects e)
  | Ok (raw, e) => match unmarshal raw with Some f => Ok (f, e) | None => Err ErrFenceCorrupt end
  end.

(** The record of the first version is taken over when there is none of the second. *)
Definition migrateFence (s : Scope) (legacy : bytes) : prog (result replicaError (resourceFence * string)) :=
  if jsonValid legacy then
    w ← write resourceObjects (ConditionalCreate (resourceFenceKey s) legacy);
    match w with
    | Ok e => mret (decodeFence (Ok (legacy, e)))
    | Err (ErrObject ErrPrecondition) => r ← GetVersion resourceObjects (resourceFenceKey s); mret (decodeFence r)
    | Err e => mret (Err (ErrObjects e))
    end
  else mret (Err ErrFenceCorrupt).

Definition readResourceFenceFresh (s : Scope) : prog (result replicaError (resourceFence * string)) :=
  match Validate s with
  | Err e => mret (Err (ErrScopeInvalid e))
  | Ok _ =>
      if negb (resourceClass s) then mret (Ok (noFence, EmptyString))
      else
        r ← GetVersion resourceObjects (resourceFenceKey s);
        match r with
        | Err (ErrObject ErrNotFound) =>
            l ← GetVersion resourceObjects (legacyResourceFenceKey s);
            match l with
            | Err (ErrObject ErrNotFound) => migrateFence s (bs "{}")
            | Err e => mret (Err (ErrObjects e))
            | Ok (legacy, _) => migrateFence s legacy
            end
        | r => mret (decodeFence r)
        end
  end.

Fixpoint readFenceRounds (rounds : nat) (s : Scope) (refresh : bool) : prog (result replicaError (resourceFence * string)) :=
  match rounds with
  | O => mret (Err ErrCtxEnded)
  | S rounds =>
      let key := scopeString s in
      ended ← ctxErr;
      if ended : bool then mret (Err ErrCtxEnded)
      else
        t ← now;
        x ← atomic (lookupFence key refresh t);
        match x with
        | FenceHit f e => mret (Ok (f, e))
        | FenceJoin n =>
            r ← Wait true (λ m, f ← mgFlightLog m !! n; r ← ffDone f; Some ((ffRev f, r), m)) Ret;
            match r with
            | None => mret (Err ErrCtxEnded)
            | Some (rev, r) =>
                current ← atomic (λ m, (bool_decide (mgRev m = rev), m));
                if (current : bool) && negb (match r with Err e => isCtxError e | Ok _ => false end) then mret r
                else readFenceRounds rounds s refresh
            end
        | FenceLead n rev =>
            r ← readResourceFenceFresh s;
            _ ← (match r with
                 | Ok (f, e) => t ← now; u ← now; update (cacheReadFence order key f e rev t u)
                 | Err _ => mret tt
                 end);
            current ← atomic (finishFence key n rev r);
            if current : bool then mret r else readFenceRounds rounds s refresh
        end
  end.

Definition readResourceFenceShared (s : Scope) (refresh : bool) : prog (result replicaError (resourceFence * string)) :=
  readFenceRounds rounds s refresh.

Definition readResourceFence (s : Scope) : prog (result replicaError (resourceFence * string)) :=
  if resourceClass s then readResourceFenceShared s false else mret (Ok (noFence, EmptyString)).

Definition RefreshResourceSnapshot (s : Scope) : prog (result replicaError unit) :=
  _ ←! readResourceFenceShared s true; mret (Ok tt).

(** [fence.Deleted || (fence.JobID != "" && epoch <= fence.Epoch)] *)
Definition fenceBlocks (f : resourceFence) (epoch : Z) : bool :=
  rfDeleted f || (bool_decide (rfJob f ≠ EmptyString) && bool_decide (epoch ≤ rfEpoch f)).

(** [resourceWriteGuard] around the rest of a function that defers the release. *)
Definition guarded {A} (s : Scope) (epoch : Z) (body : prog (result replicaError A)) : prog (result replicaError A) :=
  let i := resourceLock s in
  _ ← lock (tryRLock i);
  r ← readResourceFenceFresh s;
  x ← (match r with
       | Err e => mret (Err e)
       | Ok (f, _) => if fenceBlocks f epoch then mret (Err ErrResourceDeleted) else body
       end);
  _ ← update (runlock i);
  mret x.

(** *** Changes of the fence *)

Fixpoint updateFenceRounds (n : nat) (s : Scope) (change : resourceFence → result replicaError resourceFence) :
    prog (result replicaError unit) :=
  match n with
  | O => mret (Err (ErrObjects (ErrObject ErrPrecondition)))
  | S n =>
      '(f, e) ←! readResourceFenceFresh s;
      match change f with
      | Err err => mret (Err err)
      | Ok f =>
          let raw := marshal f in
          w ← write resourceObjects (if decide (e = EmptyString) then ConditionalCreate (resourceFenceKey s) raw
                                     else CAS (resourceFenceKey s) raw e);
          match w with
          | Err (ErrObject ErrPrecondition) => updateFenceRounds n s change
          | Err err => mret (Err (ErrObjects err))
          | Ok _ => t ← now; _ ← update (cacheFence s f EmptyString t); mret (Ok tt)
          end
      end
  end.

Definition locked {A} (s : Scope) (body : prog A) : prog A :=
  let i := resourceLock s in
  _ ← lock (tryLock i); x ← body; _ ← update (unlock i); mret x.

Definition updateResourceFence (s : Scope) (change : resourceFence → result replicaError resourceFence) :
    prog (result replicaError unit) :=
  locked s (updateFenceRounds 8 s change).

Definition blockChange (job : string) (f : resourceFence) : result replicaError resourceFence :=
  if negb (rfDeleted f) && bool_decide (rfJob f = job) then Err ErrResourceDeleted
  else if rfDeleted f && bool_decide (rfJob f ≠ job) then Err ErrResourceDeleted
  else Ok (MkResFence job true (rfEpoch f)).

Definition BlockResource (s : Scope) (job : string) : prog (result replicaError unit) :=
  if decide (job = EmptyString) then mret (Err ErrCleanupIdentity)
  else updateResourceFence s (blockChange job).

Definition fenceChange (job : string) (epoch : Z) (f : resourceFence) : result replicaError resourceFence :=
  if negb (rfDeleted f) || bool_decide (rfJob f ≠ job) then Err ErrResourceDeleted
  else Ok (if decide (rfEpoch f < epoch) then MkResFence (rfJob f) (rfDeleted f) epoch else f).

Definition FenceResource (s : Scope) (job : string) (epoch : Z) : prog (result replicaError unit) :=
  updateResourceFence s (fenceChange job epoch).

Definition allowChange (job : string) (f : resourceFence) : result replicaError resourceFence :=
  if decide (rfJob f ≠ job) then Err ErrResourceDeleted
  else Ok (MkResFence (rfJob f) false (rfEpoch f)).

Definition AllowResource (s : Scope) (job : string) : prog (result replicaError unit) :=
  updateResourceFence s (allowChange job).

(** *** Views of the fence *)

Definition ResourceBlocked (s : Scope) : prog (result replicaError bool) :=
  '(f, _) ←! readResourceFence s; mret (Ok (rfDeleted f)).

Definition ResourceState (s : Scope) : prog (result replicaError (bool * Z)) :=
  '(f, _) ←! readResourceFence s; mret (Ok (rfDeleted f, rfEpoch f)).

Definition ResourceSnapshot (s : Scope) : prog (result replicaError (string * bool * Z)) :=
  '(f, _) ←! readResourceFence s; mret (Ok (rfJob f, rfDeleted f, rfEpoch f)).

Definition ResourceGeneration (s : Scope) : prog (result replicaError string) :=
  '(f, _) ←! readResourceFence s;
  mret (if rfDeleted f then Err ErrResourceDeleted else Ok (rfJob f)).

Definition ValidateResourceDelete (s : Scope) (job : string) : prog (result replicaError unit) :=
  '(f, _) ←! readResourceFenceFresh s;
  mret (if negb (rfDeleted f) || bool_decide (rfJob f ≠ job) then Err ErrResourceDeleted else Ok tt).

(** *** Objects *)

(** The object is taken back when the cell turns out to be deleted. *)
Definition takeBack (key e : string) : prog (result replicaError string) :=
  _ ← write resourceObjects (ConditionalDelete key e);
  mret (Err ErrResourceDeleted).

Definition putResourceObject (s : Scope) (epoch : Z) (key : string) (data : bytes) : prog (result replicaError string) :=
  e ←! onObjects (write resourceObjects (Put key data));
  '(f, _) ←! readResourceFence s;
  if fenceBlocks f epoch then takeBack key e else mret (Ok e).

(** The object as it is there after the attempt to create it: whether it was created, and its
    tag. *)
Definition createImmutable (key : string) (data : bytes) : prog (result replicaError (bool * string)) :=
  w ← write resourceObjects (ConditionalCreate key data);
  match w with
  | Ok e => mret (Ok (true, e))
  | Err (ErrObject ErrPrecondition) =>
      '(old, e) ←! onObjects (GetVersion resourceObjects key);
      mret (if decide (old = data) then Ok (false, e) else Err ErrSegmentConflict)
  | Err e => mret (Err (ErrObjects e))
  end.

Definition putImmutableSegment (s : Scope) (epoch : Z) (key : string) (data : bytes) : prog (result replicaError string) :=
  '(created, e) ←! createImmutable key data;
  '(f, _) ←! readResourceFence s;
  if fenceBlocks f epoch then
    if (created : bool) then takeBack key e else mret (Err ErrResourceDeleted)
  else mret (Ok e).

(** *** Segments *)

(** [ltx.Decode] and the comparison of the epoch *)
Definition segmentHeader (epoch : Z) (segment : bytes) : result replicaError Header :=
  '(h, _) ←ᵣ rmap_err ErrSegmentInvalid (Decode segment);
  if decide (hEpoch h ≠ epoch) then Err ErrSegmentEpoch else Ok h.

Definition storeSegment (s : Scope) (epoch : Z) (prefix : string) (segment : bytes) : prog (result replicaError (string * string)) :=
  guarded s epoch
    (match segmentHeader epoch segment with
     | Err e => mret (Err e)
     | Ok h =>
         let key := prefix +:+ SegmentName h in
         e ←! putImmutableSegment s epoch key segment;
         mret (Ok (key, e))
     end).

Definition Append (s : Scope) (epoch : Z) (segment : bytes) : prog (result replicaError (string * string)) :=
  storeSegment s epoch (LtxPrefix s epoch) segment.

Definition AppendL1 (s : Scope) (epoch : Z) (segment : bytes) : prog (result replicaError (string * string)) :=
  storeSegment s epoch (L1Prefix s epoch) segment.

(** The headers of a batch, all of the epoch. *)
Fixpoint batchHeaders (epoch : Z) (segments : list bytes) : result replicaError (list Header) :=
  match segments with
  | [] => Ok []
  | seg :: segments => h ←ᵣ segmentHeader epoch seg; hs ←ᵣ batchHeaders epoch segments; Ok (h :: hs)
  end.

(** The name of a batch by its first and last header; a single segment has its own name. *)
Definition batchName (hs : list Header) : string :=
  match hs with
  | [h] => SegmentName h
  | h :: _ => BatchName h (default h (last hs))
  | [] => EmptyString
  end.

Definition AppendBatch (s : Scope) (epoch : Z) (segments : list bytes) : prog (result replicaError (string * string)) :=
  guarded s epoch
    (match segments with
     | [] => mret (Err ErrEmptyBatch)
     | _ =>
         match batchHeaders epoch segments with
         | Err e => mret (Err e)
         | Ok hs =>
             let key := LtxPrefix s epoch +:+ batchName hs in
             e ←! putImmutableSegment s epoch key (concat segments);
             mret (Ok (key, e))
         end
     end).

(** *** Epoch markers *)

Definition markerHeader (epoch cut : Z) : Header := MkHeader 0 KindMarker 0 epoch (cut + 1) cut 0 0.

(** Whether the markers that are there have the cut. *)
Definition markersAgree (s : Scope) (epoch cut : Z) (keys : list string) : bool :=
  forallb (λ k,
    let name := default k (cutPrefix (LtxPrefix s epoch) k) in
    negb (hasSuffix name ".marker")
    || match parseSegmentSpan name with Some sp => spMarker sp && bool_decide (spEnd sp = cut) | None => false end) keys.

(** One of the two objects that claim the cut. *)
Definition claimCut (key : string) (seg : bytes) : prog (result replicaError unit) :=
  w ← write resourceObjects (ConditionalCreate key seg);
  match w with
  | Ok _ => mret (Ok tt)
  | Err (ErrObject ErrPrecondition) =>
      '(raw, _) ←! onObjects (GetVersion resourceObjects key);
      mret (if decide (raw = seg) then Ok tt else Err ErrEpochMarkerConflict)
  | Err e => mret (Err (ErrObjects e))
  end.

Definition EpochCutName (s : Scope) (epoch : Z) : string := LtxPrefix s epoch +:+ "epoch-cut".

Definition MarkEpoch (s : Scope) (epoch cut : Z) : prog (result replicaError string) :=
  if decide (cut = maxUint64) then mret (Err ErrEpochMarkerConflict)
  else
    guarded s epoch
      (let h := markerHeader epoch cut in
       let seg := Encode h [] in
       let key := LtxPrefix s epoch +:+ SegmentName h in
       keys ←! onBucket (listKeys (LtxPrefix s epoch));
       if negb (markersAgree s epoch cut keys) then mret (Err ErrEpochMarkerConflict)
       else
         _ ←! claimCut (EpochCutName s epoch) seg;
         _ ←! claimCut key seg;
         '(f, _) ←! readResourceFence s;
         mret (if fenceBlocks f epoch then Err ErrResourceDeleted else Ok key)).

(** *** Snapshot markers, manifests and indexes *)

Definition snapshotMark : bytes := bs "{}".

Definition MarkSnapshotStarted (s : Scope) (epoch txid : Z) : prog (result replicaError unit) :=
  _ ←! onBucket (putObject (Put (SnapshotStartedName s epoch txid) snapshotMark)); mret (Ok tt).
Definition MarkSnapshotDone (s : Scope) (epoch txid : Z) : prog (result replicaError unit) :=
  _ ←! onBucket (putObject (Put (SnapshotDoneName s epoch txid) snapshotMark)); mret (Ok tt).
Definition ClearSnapshotStarted (s : Scope) (epoch txid : Z) : prog (result replicaError unit) :=
  _ ←! onBucket (putObject (Delete (SnapshotStartedName s epoch txid))); mret (Ok tt).

(** Whether an object is there. *)
Definition present (key : string) : prog (result replicaError bool) :=
  r ← getObject key;
  mret (match r with
        | Ok _ => Ok true
        | Err ErrNotFound => Ok false
        | Err e => Err (ErrRawBucket e)
        end).

Definition SnapshotStarted (s : Scope) (epoch txid : Z) : prog (result replicaError bool) :=
  present (SnapshotStartedName s epoch txid).
Definition SnapshotDone (s : Scope) (epoch txid : Z) : prog (result replicaError bool) :=
  present (SnapshotDoneName s epoch txid).

Definition stampManifest (epoch : Z) (t : time) (man : Manifest) : Manifest :=
  MkManifest epoch (mnMinTxID man) (mnMaxTxID man) (mnCommit man) (mnPageSize man) (mnObjects man)
    (if decide (mnCreatedMs man = 0) then UnixMilli t else mnCreatedMs man).

Definition PutManifest (s : Scope) (epoch : Z) (man : Manifest) : prog (result replicaError unit) :=
  guarded s epoch
    (t ← now;
     _ ←! putResourceObject s epoch (ManifestName s epoch) (marshal (stampManifest epoch t man));
     mret (Ok tt)).

Definition ReadManifest (s : Scope) (epoch : Z) : prog (result replicaError (option Manifest)) :=
  r ← getObject (ManifestName s epoch);
  mret (match r with
        | Ok (data, _) => match unmarshal data with Some man => Ok (Some man) | None => Err ErrManifestDecode end
        | Err ErrNotFound => Ok None
        | Err e => Err (ErrRawBucket e)
        end).

Definition Covers (s : Scope) (epoch txid : Z) : prog (result replicaError bool) :=
  man ←! ReadManifest s epoch;
  mret (Ok (match man with Some man => bool_decide (txid ≤ mnMaxTxID man) | None => false end)).

Definition PutIndex (s : Scope) (epoch : Z) (idx : PageIndex) : prog (result replicaError unit) :=
  guarded s epoch
    (match EncodeIndex idx with
     | Err e => mret (Err (ErrIndexFormat e))
     | Ok data => _ ←! putResourceObject s epoch (IndexName s epoch) data; mret (Ok tt)
     end).

Definition ReadIndex (s : Scope) (epoch : Z) : prog (result replicaError (option PageIndex)) :=
  r ← getObject (IndexName s epoch);
  mret (match r with
        | Ok (data, _) => match DecodeIndex data with Ok idx => Ok (Some idx) | Err e => Err (ErrIndexFormat e) end
        | Err ErrNotFound => Ok None
        | Err e => Err (ErrRawBucket e)
        end).

Definition ReadSegment (key : string) : prog (result replicaError bytes) :=
  '(data, _) ←! onBucket (getObject key); mret (Ok data).

(** *** Listings *)

Definition ListSegments (s : Scope) (epoch : Z) : prog (result replicaError (list string)) :=
  onBucket (listKeys (LtxPrefix s epoch)).

Definition isL0Key (s : Scope) (epoch : Z) (k : string) : bool :=
  negb (hasPrefix (L1Prefix s epoch) k) && isSegmentKey k.

Definition ListL0Segments (s : Scope) (epoch : Z) : prog (result replicaError (list string)) :=
  keys ←! ListSegments s epoch;
  mret (Ok (filter (λ k, isL0Key s epoch k = true) keys)).

(** *** Removing what a deletion left *)

Fixpoint purgeItems (s : Scope) (floor : Z) (items : list ObjectInfo) : prog (result replicaError unit) :=
  match items with
  | [] => mret (Ok tt)
  | item :: items =>
      match resourceObjectEpoch s (Key item) with
      | None => mret (Err ErrPayloadKey)
      | Some epoch =>
          if decide (floor < epoch) then purgeItems s floor items
          else _ ←! onObjects (write resourceObjects (Delete (Key item))); purgeItems s floor items
      end
  end.

(** The answer says whether the purge is complete. *)
Definition PurgeResource (s : Scope) (job : string) (max : Z) : prog (result replicaError bool) :=
  locked s
    ('(f, _) ←! readResourceFenceFresh s;
     if negb (rfDeleted f) || bool_decide (rfJob f ≠ job) then mret (Err ErrResourceDeleted)
     else
       let max := if decide (max ≤ 0 ∨ 1000 < max) then 500 else max in
       '(items, next) ←! onObjects (ListObjectsPage resourceObjects (scopeKey s +:+ "/ltx/") EmptyString max);
       _ ←! purgeItems s (rfEpoch f) items;
       mret (Ok (bool_decide (next = EmptyString)))).

(** The etag of a listed object: the one that the listing gave, or a fresh one where it
    gave none. *)
Definition itemETag (item : ObjectInfo) : prog (result objectsError string) :=
  if decide (ETag item = EmptyString) then
    '(_, e) ←! GetVersion resourceObjects (Key item); mret (Ok e)
  else mret (Ok (ETag item)).

Fixpoint sweepItems (s : Scope) (floor : Z) (items : list ObjectInfo) : prog (result replicaError unit) :=
  match items with
  | [] => mret (Ok tt)
  | item :: items =>
      match resourceObjectEpoch s (Key item) with
      | None => sweepItems s floor items
      | Some epoch =>
          if decide (floor < epoch) then sweepItems s floor items
          else
            r ← itemETag item;
            match r with
            | Err (ErrObject ErrNotFound) => sweepItems s floor items
            | Err e => mret (Err (ErrObjects e))
            | Ok e =>
                w ← write resourceObjects (ConditionalDelete (Key item) e);
                match w with
                | Ok _ | Err (ErrObject ErrPrecondition) | Err (ErrObject ErrNotFound) => sweepItems s floor items
                | Err e => mret (Err (ErrObjects e))
                end
            end
      end
  end.

(** The cursor to go on from; an error leaves it where it was. *)
Definition SweepRetired (s : Scope) (job : string) (floor : Z) (after : string) : prog (result replicaError string) :=
  '(f, _) ←! readResourceFence s;
  if decide (rfJob f ≠ job ∨ rfEpoch f < floor) then mret (Ok EmptyString)
  else
    '(items, next) ←! onObjects (ListObjectsPage resourceObjects (scopeKey s +:+ "/ltx/") after 500);
    _ ←! sweepItems s floor items;
    mret (Ok next).
End programs.
