(* ===== verification/Epochs.v ===== *)
(** * The replica manager: reading epochs ([internal/replica])

    Restoring a cell reads the compacted snapshot that the manifest names and the
    newer segments of the epoch, drops what a crashed snapshot left and what is
    there twice, and orders the rest. A cell whose last epoch only holds deltas is
    restored from the epochs before it too. The watermark functions say how far the
    bucket reaches without a gap, from names where they suffice. Objects are only
    removed when the caller asserts that nobody uses them.

    Objects are fetched one after the other here; the order is that of the keys,
    and the code's workers only differ in which of several errors is reported.
    [sort.Slice] leaves equal elements in some order, [merge_sort] in one of them. *)

From S2P Require Import Prelude Ltx PageMap SnapshotParts Chain Restore Paging Cell Bucket Fleet Objects Decimal.
From S2P Require Import Names Index Permanent Replica.

Inductive epochError : Set :=
| ErrReplica (e : replicaError)
| ErrCorruptObject (e : Ltx.error)
| ErrCorruptSegment (e : Ltx.error)
| ErrCorruptPages (e : PageMap.error)
| ErrBaselineProof (e : pagingError)
| ErrInvalidChain (e : chainError)
| ErrManifestChanged
| ErrMarkerConflict
| ErrManifestAboveCut
| ErrGCDeferred
| ErrCtxOver
| ErrVerify.

(** ** Segments *)

Record Segment := MkSegment {
  sgKey : string;
  sgHeader : Header;
  sgRaw : bytes;
}.

Definition rank (h : Header) : Z :=
  if decide (hKind h = KindSnapshot) then 0
  else if decide (hKind h = KindLink ∨ hKind h = KindMarker) then 1 else 2.

Definition seg_le (a b : Segment) : Prop :=
  rank (sgHeader a) < rank (sgHeader b)
  ∨ rank (sgHeader a) = rank (sgHeader b) ∧ hStartTxID (sgHeader a) ≤ hStartTxID (sgHeader b).
#[global] Instance seg_le_dec : RelDecision seg_le.
Proof. intros a b. unfold seg_le. apply _. Defined.

(** The distinct keys, in the order in which they come first. *)
Fixpoint firstOf (seen : gset string) (keys : list string) : list string :=
  match keys with
  | [] => []
  | k :: keys => if decide (k ∈ seen) then firstOf seen keys else k :: firstOf ({[k]} ∪ seen) keys
  end.

(** What a name proves to lie at or below the floor. *)
Definition coveredName (floor : Z) (name : string) : bool :=
  match parseSegmentSpan name with
  | Some sp =>
      negb (hasSuffix name ".batch" && negb (batchSpanKnown name))
      && bool_decide (0 < floor) && negb (spMarker sp) && bool_decide (spEnd sp ≤ floor)
  | None => false
  end.

(** The objects that a restore reads. *)
Definition restoreKeys (man : option Manifest) (l0 : list string) : list string :=
  match man with
  | None => l0
  | Some man => firstOf ∅ (mnObjects man) ++ filter (λ k, coveredName (mnMaxTxID man) (baseName k) = false) l0
  end.

(** The state of the loop over the objects: the identities seen, what is known about snapshots that
    were started, whether the manifest was proven complete, and the segments so far. *)
Record gather := MkGather {
  gaSeen : gset string;
  gaPartial : gmap Z bool;
  gaComplete : option bool;
  gaSegments : list Segment;
}.

Section programs.
Context `{replicaCodec} (order : list string → list string) (rounds : nat) {C : Type}.
Abbreviation prog := (prog C Manager).

Definition onReplica {A} (p : prog (result replicaError A)) : prog (result epochError A) :=
  r ← p; mret (rmap_err ErrReplica r).

Fixpoint readObjects (keys : list string) : prog (result epochError (list (string * bytes))) :=
  match keys with
  | [] => mret (Ok [])
  | k :: keys =>
      raw ←! onReplica (ReadSegment k);
      rest ←! readObjects keys;
      mret (Ok ((k, raw) :: rest))
  end.

(** ** The proof of a compacted snapshot *)

(** The loop over the entries of the index; [None] when a key comes twice. *)
Fixpoint entryMap (es : list PageIndexEntry) (m : gmap string PageIndexEntry) : option (gmap string PageIndexEntry) :=
  match es with
  | [] => Some m
  | e :: es => if decide (is_Some (m !! ieKey e)) then None else entryMap es (<[ieKey e := e]> m)
  end.

(** The layout of an index without locations. *)
Definition fixedFrames (ps : Z) (locs : list PageLoc) : bool :=
  forallb (λ '(i, l), bool_decide (PageMap.Codec l = CodecRaw ∧ Stored l = ps ∧ Off l = PageEntryOffset ps i + 4))
    (zip (seqZ 0 (zlen locs)) locs).

(** Whether one object is what the manifest and its entry say. *)
Definition checkL1 (s : Scope) (epoch : Z) (man : Manifest) (key : string) (e : PageIndexEntry) (raw : bytes) :
    result epochError bool :=
  '(h, payload) ←ᵣ rmap_err ErrCorruptSegment (Decode raw);
  if decide (hKind h ≠ KindSnapshot ∨ hEpoch h ≠ epoch ∨ hStartTxID h ≠ mnMaxTxID man ∨ hEndTxID h ≠ mnMaxTxID man
             ∨ key ≠ L1Prefix s epoch +:+ SegmentName h) then Ok false
  else
    d ←ᵣ rmap_err ErrCorruptPages (DecodeWALPageMap payload);
    nums ←ᵣ rmap_err ErrCorruptPages (PageMapNumbers payload);
    if decide (dPageSize d ≠ iePageSize e ∨ dCommit d ≠ ieCommit e ∨ nums ≠ iePages e) then Ok false
    else
      locs ←ᵣ rmap_err ErrCorruptPages (PageLocs payload);
      Ok (if decide (ieLocs e = []) then fixedFrames (dPageSize d) locs else bool_decide (locs = ieLocs e)).

(** The objects when all of them are right, [None] when one is not. *)
Fixpoint checkObjects (s : Scope) (epoch : Z) (man : Manifest) (keys : list string)
    (entries : gmap string PageIndexEntry) : prog (result epochError (option (list bytes))) :=
  match keys with
  | [] => mret (Ok (Some []))
  | key :: keys =>
      match entries !! key with
      | None => mret (Ok None)
      | Some e =>
          if negb (hasPrefix (L1Prefix s epoch) key) || bool_decide (iePageSize e ≠ mnPageSize man)
             || bool_decide (ieCommit e ≠ mnCommit man)
          then mret (Ok None)
          else
            raw ←! onReplica (ReadSegment key);
            match checkL1 s epoch man key e raw with
            | Err err => mret (Err err)
            | Ok false => mret (Ok None)
            | Ok true =>
                rest ←! checkObjects s epoch man keys (delete key entries);
                mret (Ok (raws ← rest; Some (raw :: raws)))
            end
      end
  end.

Definition completeBaseline (s : Scope) (epoch : Z) (man : Manifest) : prog (result epochError bool) :=
  if decide (mnEpoch man ≠ epoch ∨ mnObjects man = [] ∨ mnPageSize man = 0 ∨ mnCommit man = 0) then mret (Ok false)
  else
    idx ←! onReplica (ReadIndex s epoch);
    match idx with
    | None => mret (Ok false)
    | Some idx =>
        if decide (Index.ixWatermark idx ≠ mnMaxTxID man ∨ zlen (ixEntries idx) ≠ zlen (mnObjects man)) then mret (Ok false)
        else
          match entryMap (ixEntries idx) ∅ with
          | None => mret (Ok false)
          | Some entries =>
              raws ←! checkObjects s epoch man (mnObjects man) entries;
              mret (match raws with
                    | None => Ok false
                    | Some raws =>
                        proof ←ᵣ rmap_err ErrBaselineProof (IndexChain raws);
                        Ok (bool_decide (Paging.ixWatermark proof = mnMaxTxID man ∧ ixCommit proof = mnCommit man
                                         ∧ ixPageSize proof = mnPageSize man))
                    end)
          end
    end.

(** ** One epoch *)

(** Whether a crashed snapshot at the transaction is to be ignored, with the memory of the
    answers. *)
Definition skipPartialSnapshot (s : Scope) (epoch txid : Z) (cache : gmap Z bool) :
    prog (result epochError (bool * gmap Z bool)) :=
  match cache !! txid with
  | Some skip => mret (Ok (skip, cache))
  | None =>
      started ←! onReplica (SnapshotStarted s epoch txid);
      if negb started then mret (Ok (false, <[txid := false]> cache))
      else
        done ←! onReplica (SnapshotDone s epoch txid);
        mret (Ok (negb done, <[txid := negb done]> cache))
  end.

(** Whether a snapshot segment is dropped as a part of a crashed snapshot; a compacted one is kept
    when its manifest is proven complete. *)
Definition dropPartial (s : Scope) (epoch : Z) (man : option Manifest) (l1 : bool) (h : Header) (g : gather) :
    prog (result epochError (bool * gather)) :=
  if decide (hKind h ≠ KindSnapshot) then mret (Ok (false, g))
  else
    '(skip, cache) ←! skipPartialSnapshot s epoch (hEndTxID h) (gaPartial g);
    let g := MkGather (gaSeen g) cache (gaComplete g) (gaSegments g) in
    if negb skip then mret (Ok (false, g))
    else if negb l1 then mret (Ok (true, g))
    else
      match gaComplete g, man with
      | Some complete, _ => mret (Ok (negb complete, g))
      | None, Some man =>
          complete ←! completeBaseline s epoch man;
          mret (Ok (negb complete, MkGather (gaSeen g) cache (Some complete) (gaSegments g)))
      | None, None => mret (Ok (true, g))
      end.

(** A segment that is new and not folded into the compacted snapshot is added. *)
Definition addSegment (l1 : bool) (floor : Z) (key : string) (h : Header) (raw : bytes) (g : gather) : gather :=
  if decide (ID h ∈ gaSeen g) then g
  else
    let seen := {[ID h]} ∪ gaSeen g in
    if negb l1 && bool_decide (0 < floor) && bool_decide (hEndTxID h ≤ floor) && bool_decide (hKind h ≠ KindMarker)
    then MkGather seen (gaPartial g) (gaComplete g) (gaSegments g)
    else MkGather seen (gaPartial g) (gaComplete g) (gaSegments g ++ [MkSegment key h raw]).

Fixpoint gatherParts (s : Scope) (epoch : Z) (man : option Manifest) (key : string) (i : Z) (parts : list bytes) (g : gather) :
    prog (result epochError gather) :=
  match parts with
  | [] => mret (Ok g)
  | part :: parts =>
      match Decode part with
      | Err e => mret (Err (ErrCorruptSegment e))
      | Ok (h, _) =>
          let l1 := match man with Some man => bool_decide (key ∈ mnObjects man) | None => false end in
          let floor := match man with Some man => mnMaxTxID man | None => 0 end in
          '(drop, g) ←! dropPartial s epoch man l1 h g;
          gatherParts s epoch man key (i + 1) parts
            (if (drop : bool) then g else addSegment l1 floor (key +:+ "#" +:+ fmt_d i) h part g)
      end
  end.

Fixpoint gatherObjects (s : Scope) (epoch : Z) (man : option Manifest) (objects : list (string * bytes)) (g : gather) :
    prog (result epochError gather) :=
  match objects with
  | [] => mret (Ok g)
  | (key, raw) :: objects =>
      match Split raw with
      | Err e => mret (Err (ErrCorruptObject e))
      | Ok parts => g ←! gatherParts s epoch man key 0 parts g; gatherObjects s epoch man objects g
      end
  end.

Definition restoreOnceKeys (s : Scope) (epoch : Z) (l0 : list string) : prog (result epochError (list Segment)) :=
  '(f, _) ←! onReplica (readResourceFence order rounds s);
  if fenceBlocks f epoch then mret (Ok [])
  else
    man ←! onReplica (ReadManifest s epoch);
    objects ←! readObjects (restoreKeys man l0);
    g ←! gatherObjects s epoch man objects (MkGather ∅ ∅ None []);
    mret (Ok (merge_sort seg_le (gaSegments g))).

Definition restoreOnce (s : Scope) (epoch : Z) : prog (result epochError (list Segment)) :=
  l0 ←! onReplica (ListL0Segments s epoch);
  restoreOnceKeys s epoch l0.

Fixpoint restoreAttempts (n : nat) (s : Scope) (epoch : Z) : prog (result epochError (list Segment)) :=
  match n with
  | O => mret (Err ErrManifestChanged)
  | S n =>
      before ←! onReplica (ReadManifest s epoch);
      segs ←! restoreOnce s epoch;
      after ←! onReplica (ReadManifest s epoch);
      if decide (before = after) then mret (Ok segs) else restoreAttempts n s epoch
  end.

(** [Restore] *)
Definition RestoreEpoch (s : Scope) (epoch : Z) : prog (result epochError (list Segment)) :=
  restoreAttempts 3 s epoch.

Definition chainValid (segs : list Segment) : result epochError bool :=
  _ ←ᵣ rmap_err ErrInvalidChain (ValidateChain (sgRaw <$> segs)); Ok true.

Definition HasCompleteSnapshot (s : Scope) (epoch : Z) : prog (result epochError bool) :=
  man ←! onReplica (ReadManifest s epoch);
  match man with
  | Some man =>
      complete ←! completeBaseline s epoch man;
      if (complete : bool) then segs ←! RestoreEpoch s epoch; mret (chainValid segs) else mret (Ok false)
  | None =>
      keys ←! onReplica (onBucket (listKeys (LtxPrefix s epoch)));
      if existsb (λ k, hasSuffix k ".snapshot-done") keys
      then segs ←! RestoreEpoch s epoch; mret (chainValid segs)
      else mret (Ok false)
  end.

(** ** The chain of epochs *)

(** What one listing says about the epochs: in the order in which they are met, the keys of their
    segments, and which have a snapshot to start from. *)
Record epochKeys := MkEpochKeys {
  ekKeys : list string;
  ekBase : bool;
}.

Definition noteKey (s : Scope) (maxEpoch : Z) (m : gmap Z epochKeys) (key : string) : gmap Z epochKeys :=
  match epochOfKey s key with
  | None => m
  | Some (e, name) =>
      if decide (0 < maxEpoch ∧ maxEpoch < e) then m
      else
        let g := default (MkEpochKeys [] false) (m !! e) in
        if decide (name = "L1/manifest.json") then <[e := MkEpochKeys (ekKeys g) true]> m
        else if negb (isSegmentKey key) then m
        else if hasPrefix "L1/" name then <[e := g]> m
        else <[e := MkEpochKeys (ekKeys g ++ [key]) (ekBase g || hasSuffix key ".snapshot" || hasSuffix key ".snapshot-done")]> m
  end.

Definition sortAsc (l : list Z) : list Z := merge_sort Z.le l.

(** The index of the newest epoch below [n] with a base. *)
Fixpoint lastBase (groups : gmap Z epochKeys) (epochs : list Z) : option nat :=
  match epochs with
  | [] => None
  | e :: epochs =>
      match lastBase groups epochs with
      | Some i => Some (S i)
      | None => if ekBase (default (MkEpochKeys [] false) (groups !! e)) then Some O else None
      end
  end.

(** The segments of some epochs, each key once; epochs that were read before are not read
    again. *)
Fixpoint loadEpochs (s : Scope) (groups : gmap Z epochKeys) (epochs : list Z) (loaded : gmap Z (list Segment)) :
    prog (result epochError (gmap Z (list Segment))) :=
  match epochs with
  | [] => mret (Ok loaded)
  | e :: epochs =>
      match loaded !! e with
      | Some _ => loadEpochs s groups epochs loaded
      | None =>
          segs ←! restoreOnceKeys s e (ekKeys (default (MkEpochKeys [] false) (groups !! e)));
          loadEpochs s groups epochs (<[e := segs]> loaded)
      end
  end.

Fixpoint firstSegments (seen : gset string) (segs : list Segment) : list Segment :=
  match segs with
  | [] => []
  | sg :: segs => if decide (sgKey sg ∈ seen) then firstSegments seen segs
                  else sg :: firstSegments ({[sgKey sg]} ∪ seen) segs
  end.

(** The loop that goes back to earlier bases until the chain is valid; each round starts at an
    earlier epoch. *)
Fixpoint chainRounds (n : nat) (s : Scope) (groups : gmap Z epochKeys) (epochs : list Z) (start : nat)
    (loaded : gmap Z (list Segment)) (firstErr : option chainError) : prog (result epochError (list Segment)) :=
  match n with
  | O => mret (Err (ErrInvalidChain (default ErrNoSnapshot firstErr)))
  | S n =>
      loaded ←! loadEpochs s groups (drop start epochs) loaded;
      let out := firstSegments ∅ (drop start epochs ≫= λ e, default [] (loaded !! e)) in
      match lastBase groups epochs with
      | None => mret (Ok out)
      | Some _ =>
          match ValidateChain (sgRaw <$> out) with
          | Ok _ => mret (Ok out)
          | Err err =>
              let firstErr := keepFirst firstErr err in
              if decide (start = O) then mret (Err (ErrInvalidChain (default err firstErr)))
              else chainRounds n s groups epochs (default O (lastBase groups (take start epochs))) loaded firstErr
          end
      end
  end.

Definition RestoreChain (s : Scope) (maxEpoch : Z) : prog (result epochError (list Segment)) :=
  keys ←! onReplica (onBucket (listKeys (scopeKey s +:+ "/ltx/")));
  let groups := foldl (noteKey s maxEpoch) ∅ keys in
  let epochs := sortAsc (map_to_list groups).*1 in
  chainRounds (S (length epochs)) s groups epochs (default O (lastBase groups epochs)) ∅ None.

(** [epochDirs]: from a full listing *)
Definition Epochs (s : Scope) (maxEpoch : Z) : prog (result epochError (list Z)) :=
  keys ←! onReplica (onBucket (listKeys (scopeKey s +:+ "/ltx/")));
  let es := filter (λ e, ¬ (0 < maxEpoch ∧ maxEpoch < e)) (omap (resourceObjectEpoch s) keys) in
  mret (Ok (sortAsc (elements (list_to_set (C := gset Z) es)))).

Definition LatestEpoch (s : Scope) (maxEpoch : Z) : prog (result epochError (option Z)) :=
  es ←! Epochs s maxEpoch; mret (Ok (last es)).

(** ** Watermarks *)

Definition span_le (a b : segmentSpan) : Prop :=
  spStart a < spStart b ∨ spStart a = spStart b ∧ spEnd a ≤ spEnd b.
#[global] Instance span_le_dec : RelDecision span_le.
Proof. intros a b. unfold span_le. apply _. Defined.

(** The spans of the headers of a batch whose name does not tell. *)
Fixpoint headerSpans (parts : list bytes) : result epochError (list segmentSpan) :=
  match parts with
  | [] => Ok []
  | part :: parts =>
      '(h, _) ←ᵣ rmap_err ErrCorruptSegment (Decode part);
      rest ←ᵣ headerSpans parts;
      Ok (if decide (hKind h = KindSnapshot ∨ hKind h = KindDelta)
          then MkSpan (hStartTxID h) (hEndTxID h) (bool_decide (hKind h = KindSnapshot)) false :: rest
          else rest)
  end.

Fixpoint readSpans (keys : list string) : prog (result epochError (list segmentSpan)) :=
  match keys with
  | [] => mret (Ok [])
  | key :: keys =>
      let name := baseName key in
      if hasSuffix name ".batch" && negb (batchSpanKnown name) then
        raw ←! onReplica (ReadSegment key);
        match Split raw with
        | Err e => mret (Err (ErrCorruptObject e))
        | Ok parts =>
            match headerSpans parts with
            | Err e => mret (Err e)
            | Ok sps => rest ←! readSpans keys; mret (Ok (sps ++ rest))
            end
        end
      else
        rest ←! readSpans keys;
        mret (Ok (match parseSegmentSpan name with Some sp => sp :: rest | None => rest end))
  end.

(** The newest of the ends whose snapshot is marked as done. *)
Fixpoint newestDone (s : Scope) (epoch : Z) (ends : list Z) : prog (result epochError (option Z)) :=
  match ends with
  | [] => mret (Ok None)
  | e :: ends =>
      done ←! onReplica (SnapshotDone s epoch e);
      if done : bool then mret (Ok (Some e)) else newestDone s epoch ends
  end.

Definition snapEnds (floor : Z) (spans : list segmentSpan) : list Z :=
  sortDesc (spEnd <$> filter (λ sp, spSnapshot sp = true ∧ floor < spEnd sp) spans).

(** The contiguous deltas above the floor. *)
Definition extendFloor (markers : bool) (floor : Z) (spans : list segmentSpan) : Z :=
  foldl (λ floor sp,
    if (markers && spMarker sp) || spSnapshot sp || bool_decide (spEnd sp ≤ floor) || bool_decide (u64 (floor + 1) < spStart sp)
    then floor else spEnd sp) floor (merge_sort span_le spans).

Definition DurableWatermark (s : Scope) (epoch : Z) : prog (result epochError Z) :=
  man ←! onReplica (ReadManifest s epoch);
  let floor := match man with Some man => mnMaxTxID man | None => 0 end in
  keys ←! onReplica (ListL0Segments s epoch);
  spans ←! readSpans keys;
  snap ←! newestDone s epoch (snapEnds floor spans);
  let floor := default floor snap in
  mret (Ok (if decide (floor = 0) then 0 else extendFloor false floor spans)).

(** The spans of an epoch by their names, and whether it has a manifest. *)
Record epochSpans := MkEpochSpans {
  esSpans : list segmentSpan;
  esManifest : bool;
}.

Definition noSpans : epochSpans := MkEpochSpans [] false.

Definition noteSpan (s : Scope) (maxEpoch : Z) (m : gmap Z epochSpans) (key : string) : gmap Z epochSpans :=
  match epochOfKey s key with
  | None => m
  | Some (e, name) =>
      if decide (0 < maxEpoch ∧ maxEpoch < e) then m
      else
        let g := default noSpans (m !! e) in
        if decide (name = "L1/manifest.json") then <[e := MkEpochSpans (esSpans g) true]> m
        else if contains name "L1/" then <[e := g]> m
        else match parseSegmentSpan name with
             | Some sp => <[e := MkEpochSpans (esSpans g ++ [sp]) (esManifest g)]> m
             | None => <[e := g]> m
             end
  end.

(** The cut of an epoch by its markers; [None] in the result when they disagree. *)
Fixpoint cutOf (cut : option Z) (spans : list segmentSpan) : option (option Z) :=
  match spans with
  | [] => Some cut
  | sp :: spans =>
      if spMarker sp then
        match cut with
        | Some c => if decide (spEnd sp = c) then cutOf cut spans else None
        | None => cutOf (Some (spEnd sp)) spans
        end
      else cutOf cut spans
  end.

Fixpoint cutsOfEpochs (groups : list (Z * epochSpans)) : option (gmap Z Z) :=
  match groups with
  | [] => Some ∅
  | (e, g) :: groups =>
      cut ← cutOf None (esSpans g);
      cuts ← cutsOfEpochs groups;
      Some (match cut with Some c => <[e := c]> cuts | None => cuts end)
  end.

(** The smallest cut of a later epoch. *)
Definition deadAbove (cuts : gmap Z Z) (epoch : Z) : option Z :=
  foldr (λ '(e, c) lim, if decide (epoch < e) then match lim with Some l => Some (Z.min l c) | None => Some c end else lim)
    None (map_to_list cuts).

Definition liveSpans (lim : option Z) (spans : list segmentSpan) : list segmentSpan :=
  match lim with
  | Some l => filter (λ sp, spEnd sp ≤ l ∨ spMarker sp = true) spans
  | None => spans
  end.

(** The base of an epoch's manifest, if it is proven and above the floor. *)
Definition manifestBase (s : Scope) (epoch : Z) (lim : option Z) (have : bool) (floor : Z) (g : epochSpans) :
    prog (result epochError (bool * Z)) :=
  if negb (esManifest g) then mret (Ok (have, floor))
  else
    man ←! onReplica (ReadManifest s epoch);
    match man with
    | None => mret (Ok (have, floor))
    | Some man =>
        if match lim with Some l => bool_decide (l < mnMaxTxID man) | None => false end then mret (Err ErrManifestAboveCut)
        else
          complete ←! completeBaseline s epoch man;
          mret (Ok (if (complete : bool) && (negb have || bool_decide (floor < mnMaxTxID man))
                    then (true, mnMaxTxID man) else (have, floor)))
    end.

Fixpoint watermarkEpochs (s : Scope) (groups : gmap Z epochSpans) (cuts : gmap Z Z) (epochs : list Z) (have : bool) (floor : Z) :
    prog (result epochError (bool * Z)) :=
  match epochs with
  | [] => mret (Ok (have, floor))
  | e :: epochs =>
      let g := default noSpans (groups !! e) in
      let lim := deadAbove cuts e in
      let spans := liveSpans lim (esSpans g) in
      '(have, floor) ←! manifestBase s e lim have floor g;
      snap ←! newestDone s e (snapEnds floor spans);
      let have := have || bool_decide (is_Some snap) in
      watermarkEpochs s groups cuts epochs have (extendFloor true (default floor snap) spans)
  end.

Definition DurableWatermarkChain (s : Scope) (maxEpoch : Z) : prog (result epochError Z) :=
  keys ←! onReplica (onBucket (listKeys (scopeKey s +:+ "/ltx/")));
  let groups := foldl (noteSpan s maxEpoch) ∅ keys in
  match cutsOfEpochs (map_to_list groups) with
  | None => mret (Err ErrMarkerConflict)
  | Some cuts =>
      '(have, floor) ←! watermarkEpochs s groups cuts (sortAsc (map_to_list groups).*1) false 0;
      mret (Ok (if (have : bool) then floor else 0))
  end.

(** ** Removing objects *)

(** [RetireOptions]: the assertion that nothing else runs, and whether there is a check before each
    deletion; the check is a callback. *)
Record retireOptions := MkRetire {
  roOffline : bool;
  roVerify : option C;
}.

Definition verify (v : option C) : prog (result epochError unit) :=
  match v with
  | None => mret (Ok tt)
  | Some c => ok ← callback c; mret (if ok : bool then Ok tt else Err ErrVerify)
  end.

(** The headers of a payload: of the epoch, all snapshots or all deltas. *)
Fixpoint payloadHeaders (epoch : Z) (kind : option Z) (parts : list bytes) : option (list Header) :=
  match parts with
  | [] => Some []
  | part :: parts =>
      match Decode part with
      | Err _ => None
      | Ok (h, _) =>
          if decide (hEpoch h ≠ epoch ∨ (hKind h ≠ KindSnapshot ∧ hKind h ≠ KindDelta)
                     ∨ hKind h ≠ default (hKind h) kind)
          then None
          else hs ← payloadHeaders epoch (Some (default (hKind h) kind)) parts; Some (h :: hs)
      end
  end.

(** Whether the object is exactly what its name says. *)
Definition canonicalPayload (epoch : Z) (name : string) (raw : bytes) : bool :=
  match Split raw with
  | Ok (p :: ps) =>
      match payloadHeaders epoch None (p :: ps) with
      | Some (first :: hs) =>
          (bool_decide (hs = []) && bool_decide (name = SegmentName first))
          || bool_decide (name = BatchName first (default first (last (first :: hs))))
      | _ => false
      end
  | _ => false
  end.

(** The name of a payload below the prefix of the epoch. *)
Definition payloadName (s : Scope) (epoch : Z) (key : string) : option string :=
  name ← cutPrefix (LtxPrefix s epoch) key;
  let name := default name (cutPrefix "L1/" name) in
  if contains name "/" || negb (hasSuffix name ".snapshot" || hasSuffix name ".ltx" || hasSuffix name ".batch")
  then None else Some name.

Definition DeleteObjectWithOptions (s : Scope) (epoch : Z) (key : string) (opts : retireOptions) :
    prog (result epochError bool) :=
  if negb (roOffline opts) then mret (Err ErrGCDeferred)
  else
    match Validate s with
    | Err e => mret (Err (ErrReplica (ErrScopeInvalid e)))
    | Ok _ =>
        match payloadName s epoch key with
        | None => mret (Ok false)
        | Some name =>
            r ← ReadSegment key;
            match r with
            | Err (ErrRawBucket ErrNotFound) => mret (Ok false)
            | Err e => mret (Err (ErrReplica e))
            | Ok raw =>
                if negb (canonicalPayload epoch name raw) then mret (Ok false)
                else
                  ended ← ctxErr;
                  if ended : bool then mret (Err ErrCtxOver)
                  else
                    _ ←! verify (roVerify opts);
                    _ ←! onReplica (onObjects (write resourceObjects (Delete key)));
                    mret (Ok true)
            end
        end
    end.

(** [DeleteObject] *)
Definition DeleteObject (key : string) : prog (result epochError unit) := mret (Err ErrGCDeferred).

Fixpoint deleteAll (s : Scope) (epoch : Z) (opts : retireOptions) (keys : list string) (deleted : Z) :
    prog (Z * result epochError unit) :=
  match keys with
  | [] => mret (deleted, Ok tt)
  | key :: keys =>
      r ← DeleteObjectWithOptions s epoch key opts;
      match r with
      | Err e => mret (deleted, Err e)
      | Ok did => deleteAll s epoch opts keys (if (did : bool) then deleted + 1 else deleted)
      end
  end.

Fixpoint retireAll (s : Scope) (keepFrom : Z) (opts : retireOptions) (epochs : list Z) (deleted : Z) :
    prog (Z * result epochError unit) :=
  match epochs with
  | [] => mret (deleted, Ok tt)
  | e :: epochs =>
      if decide (keepFrom ≤ e) then retireAll s keepFrom opts epochs deleted
      else
        r ← onReplica (onBucket (listKeys (LtxPrefix s e)));
        match r with
        | Err err => mret (deleted, Err err)
        | Ok keys =>
            '(deleted, r) ← deleteAll s e opts keys deleted;
            match r with
            | Err err => mret (deleted, Err err)
            | Ok _ => retireAll s keepFrom opts epochs deleted
            end
        end
  end.

(** The number of objects removed, also beside an error. *)
Definition RetireEpochsWithOptions (s : Scope) (current keepPrevious : Z) (opts : retireOptions) :
    prog (Z * result epochError unit) :=
  if negb (roOffline opts) then mret (0, Err ErrGCDeferred)
  else
    r ← HasCompleteSnapshot s current;
    match r with
    | Err e => mret (0, Err e)
    | Ok false => mret (0, Ok tt)
    | Ok true =>
        let keepPrevious := Z.max 0 keepPrevious in
        let keepFrom := if decide (keepPrevious < current) then current - keepPrevious else 0 in
        r ← Epochs s current;
        match r with
        | Err e => mret (0, Err e)
        | Ok epochs => retireAll s keepFrom opts epochs 0
        end
    end.

Definition RetireEpochs (s : Scope) (current keepPrevious : Z) : prog (Z * result epochError unit) :=
  RetireEpochsWithOptions s current keepPrevious (MkRetire false None).
End programs.

Arguments MkRetire {C} _ _.
Arguments roOffline {C} _.
Arguments roVerify {C} _.

(** ** Which effects reading has *)

Section reading.
Context `{Etag} `{replicaCodec} (order : list string → list string) (rounds : nat) {C : Type}.
Abbreviation prog := (prog C Manager).

Lemma silent_onReplica {A} (p : prog (result replicaError A)) : silent p → silent (onReplica p).
Proof. intros Hp. by apply silent_bind. Qed.

Lemma silent_ReadSegment key : silent (ReadSegment (C := C) key).
Proof. unfold ReadSegment, onBucket. apply silent_check; [by apply silent_bind|]. by intros [data e]. Qed.

Lemma silent_ReadIndex s epoch : silent (ReadIndex (C := C) s epoch).
Proof. by apply silent_bind. Qed.

Lemma silent_ReadManifest s epoch : silent (ReadManifest (C := C) s epoch).
Proof. by apply silent_bind. Qed.

Lemma silent_listing prefix : silent (onReplica (onBucket (C := C) (listKeys prefix))).
Proof. apply silent_onReplica. by apply silent_bind. Qed.

Lemma silent_ListL0Segments s epoch : silent (ListL0Segments (C := C) s epoch).
Proof. unfold ListL0Segments, ListSegments. apply silent_check; [by apply silent_bind|done]. Qed.

Lemma silent_present key : silent (present (C := C) key).
Proof. by apply silent_bind. Qed.

Lemma silent_readObjects keys : silent (readObjects (C := C) keys).
Proof.
  induction keys as [|k keys IH]; [done|]. apply silent_check; [apply silent_onReplica, silent_ReadSegment|]. intros raw.
  by apply silent_check.
Qed.

Lemma silent_checkObjects s epoch man keys entries : silent (checkObjects (C := C) s epoch man keys entries).
Proof.
  revert entries. induction keys as [|key keys IH]; intros entries; [done|]. cbn [checkObjects].
  destruct (entries !! key); [|done]. destruct (negb _ || _ || _); [done|].
  apply silent_check; [apply silent_onReplica, silent_ReadSegment|]. intros raw.
  destruct (checkL1 _ _ _ _ _ _) as [[|]|]; try done. apply silent_check; [apply IH|]. done.
Qed.

Lemma silent_completeBaseline s epoch man : silent (completeBaseline (C := C) s epoch man).
Proof.
  unfold completeBaseline. case_decide; [done|]. apply silent_check; [apply silent_onReplica, silent_ReadIndex|].
  intros [idx|]; [|done]. case_decide; [done|]. destruct (entryMap _ _); [|done].
  apply silent_check; [apply silent_checkObjects|]. done.
Qed.

Lemma silent_skipPartial s epoch txid cache : silent (skipPartialSnapshot (C := C) s epoch txid cache).
Proof.
  unfold skipPartialSnapshot. destruct (cache !! txid); [done|]. apply silent_check; [apply silent_onReplica, silent_present|].
  intros [|]; [|done]. by apply silent_check; [apply silent_onReplica, silent_present|].
Qed.

Lemma silent_dropPartial s epoch man l1 h g : silent (dropPartial (C := C) s epoch man l1 h g).
Proof.
  unfold dropPartial. case_decide; [done|]. apply silent_check; [apply silent_skipPartial|]. intros [skip cache].
  destruct skip; [|done]. destruct l1; [|done]. cbn [negb gaComplete]. destruct (gaComplete g); [done|]. destruct man; [|done].
  by apply silent_check; [apply silent_completeBaseline|].
Qed.

Lemma silent_gatherParts s epoch man key i parts g : silent (gatherParts (C := C) s epoch man key i parts g).
Proof.
  revert i g. induction parts as [|part parts IH]; intros i g; [done|]. cbn [gatherParts].
  destruct (Decode part) as [[h p]|]; [|done]. apply silent_check; [apply silent_dropPartial|]. intros [drop g']. apply IH.
Qed.

Lemma silent_gatherObjects s epoch man objs g : silent (gatherObjects (C := C) s epoch man objs g).
Proof.
  revert g. induction objs as [|[key raw] objs IH]; intros g; [done|]. cbn [gatherObjects].
  destruct (Split raw) as [parts|]; [|done]. apply silent_check; [apply silent_gatherParts|]. intros g'. apply IH.
Qed.

(** A class of programs that has those that only read and is closed under sequencing, and has the
    reading of the fence, has all of reading. *)
Record closed (P : ∀ R : Type, prog R → Prop) : Prop := {
  closed_silent R p : silent p → P R p;
  closed_bind A B p (g : A → prog B) : P A p → (∀ a, P B (g a)) → P B (p ≫= g);
}.

Section closed.
Context (P : ∀ R : Type, prog R → Prop) (HP : closed P).

Lemma closed_check {E A B} (p : prog (result E A)) (g : A → prog (result E B)) : P _ p → (∀ a, P _ (g a)) → P _ (check p g).
Proof. intros Hp Hg. apply (closed_bind _ HP); [done|]. intros [a|e]; [apply Hg|by apply (closed_silent _ HP)]. Qed.

Lemma closed_onReplica {A} (p : prog (result replicaError A)) : P _ p → P _ (onReplica p).
Proof. intros Hp. apply (closed_bind _ HP); [done|]. intros r. by apply (closed_silent _ HP). Qed.

Context (s : Scope) (Hfence : P _ (readResourceFence order rounds s)).

Lemma closed_restoreOnceKeys epoch l0 : P _ (restoreOnceKeys order rounds s epoch l0).
Proof.
  unfold restoreOnceKeys. apply closed_check; [by apply closed_onReplica|]. intros [f e].
  destruct (fenceBlocks f epoch); [by apply (closed_silent _ HP)|]. apply (closed_silent _ HP).
  apply silent_check; [apply silent_onReplica, silent_ReadManifest|]. intros man.
  apply silent_check; [apply silent_readObjects|]. intros objects.
  by apply silent_check; [apply silent_gatherObjects|].
Qed.

Lemma closed_restoreOnce epoch : P _ (restoreOnce order rounds s epoch).
Proof.
  apply closed_check; [|intros l0; apply closed_restoreOnceKeys]. apply (closed_silent _ HP), silent_onReplica, silent_ListL0Segments.
Qed.

Lemma closed_RestoreEpoch epoch : P _ (RestoreEpoch order rounds s epoch).
Proof.
  unfold RestoreEpoch. generalize 3%nat as n. induction n as [|n IH]; [by apply (closed_silent _ HP)|]. cbn [restoreAttempts].
  apply closed_check; [apply (closed_silent _ HP), silent_onReplica, silent_ReadManifest|]. intros before.
  apply closed_check; [apply closed_restoreOnce|]. intros segs.
  apply closed_check; [apply (closed_silent _ HP), silent_onReplica, silent_ReadManifest|]. intros after.
  case_decide; [by apply (closed_silent _ HP)|done].
Qed.

Lemma closed_HasCompleteSnapshot epoch : P _ (HasCompleteSnapshot order rounds s epoch).
Proof.
  unfold HasCompleteSnapshot.
  apply closed_check; [apply (closed_silent _ HP), silent_onReplica, silent_ReadManifest|]. intros [man|].
  - apply closed_check; [apply (closed_silent _ HP), silent_completeBaseline|]. intros [|]; [|by apply (closed_silent _ HP)].
    apply closed_check; [apply closed_RestoreEpoch|]. intros segs. by apply (closed_silent _ HP).
  - apply closed_check; [apply (closed_silent _ HP), silent_listing|]. intros keys.
    destruct (existsb _ _); [|by apply (closed_silent _ HP)].
    apply closed_check; [apply closed_RestoreEpoch|]. intros segs. by apply (closed_silent _ HP).
Qed.

Lemma closed_loadEpochs groups epochs loaded : P _ (loadEpochs order rounds s groups epochs loaded).
Proof.
  revert loaded. induction epochs as [|e epochs IH]; intros loaded; [by apply (closed_silent _ HP)|]. cbn [loadEpochs].
  destruct (loaded !! e); [apply IH|]. apply closed_check; [apply closed_restoreOnceKeys|]. intros segs. apply IH.
Qed.

Lemma closed_RestoreChain maxEpoch : P _ (RestoreChain order rounds s maxEpoch).
Proof.
  unfold RestoreChain. apply closed_check; [apply (closed_silent _ HP), silent_listing|]. intros keys. cbv zeta.
  set (groups := foldl _ _ _). set (epochs := sortAsc _). generalize (default O (lastBase groups epochs)) as start.
  generalize (S (length epochs)) as n. generalize (∅ : gmap Z (list Segment)) as loaded. generalize (@None chainError) as err.
  intros err loaded n. revert err loaded. induction n as [|n IH]; intros err loaded start; [by apply (closed_silent _ HP)|].
  cbn [chainRounds]. apply closed_check; [apply closed_loadEpochs|]. intros loaded'. cbv zeta.
  destruct (lastBase groups epochs); [|by apply (closed_silent _ HP)].
  destruct (ValidateChain _); [by apply (closed_silent _ HP)|]. case_decide; [by apply (closed_silent _ HP)|]. apply IH.
Qed.
End closed.

Lemma silent_closed : closed (@silent C Manager).
Proof. split; [done|]. intros A B p g. apply silent_bind. Qed.

(** The fence of a cell that cannot be deleted is not read. *)
Lemma silent_noFence s : resourceClass s = false → silent (readResourceFence (C := C) order rounds s).
Proof. intros Hr. unfold readResourceFence. by rewrite Hr. Qed.
End reading.
