(* ===== verification/Compaction.v ===== *)
(** * Compaction ([internal/compaction])

    A compaction folds the objects of an epoch, the compacted snapshot that the
    manifest names and the newer segments, into a new compacted snapshot, and
    publishes it: the parts first, then the page index, and the manifest last. Names
    alone decide whether there is anything to do where they can. Objects that the new
    manifest covers are only removed when the caller asserts that nobody uses
    them; otherwise they are counted.

    Whether the bucket lists by pages is an argument; a page is cut from a listing
    and the sizes are read object by object. The listing of sizes stops after
    100000 pages like the code's; the listing for the counts stops at 10000 objects, which
    eleven pages of 1000 always reach. *)

From S2P Require Import Prelude Ltx PageMap SnapshotParts Chain Restore Paging Cell Bucket Fleet Objects Decimal.
From S2P Require Import Names Index Permanent Replica Epochs.

Inductive compactError : Set :=
| CErrEpoch (e : epochError)
| CErrObject (e : Ltx.error)
| CErrSegment (e : Ltx.error)
| CErrPages (e : PageMap.error)
| CErrFold (e : restoreError)
| CErrPredecessor (current : restoreError) (e : epochError)
| CErrNoParts.

(** ** Results *)

(** What is observed about the objects of the epoch. *)
Record accounting := MkAccounting {
  acEpoch : Z;
  acObjectCount : Z;
  acObjectBytes : Z;
  acObjectBytesKnown : bool;
  acRetainedBytes : Z;
  acRetainedBytesKnown : bool;
  acCoveredBytes : Z;
  acDeferredBytes : Z;
  acCovered : Z;
  acDeferred : Z;
  acUnknown : Z;
  acTruncated : bool;
}.

Definition noAccounting : accounting := MkAccounting 0 0 0 false 0 false 0 0 0 0 0 false.

Record Result := MkResult {
  rsCompacted : bool;
  rsSkipped : string;
  rsInputs : Z;
  rsInputBytes : Z;
  rsNewL0 : Z;
  rsParts : Z;
  rsMinTxID : Z;
  rsMaxTxID : Z;
  rsCommit : Z;
  rsDeletedL1 : Z;
  rsDeletedL0 : Z;
  rsDeferredGC : Z;
  rsGCSkipped : string;
  rsAccount : accounting;
}.

Definition skippedResult (why : string) (inputs inputBytes : Z) : Result :=
  MkResult false why inputs inputBytes 0 0 0 0 0 0 0 0 EmptyString noAccounting.
Definition noResult : Result := skippedResult EmptyString 0 0.

Definition setGC (deletedL1 deletedL0 deferred : Z) (skipped : string) (r : Result) : Result :=
  MkResult (rsCompacted r) (rsSkipped r) (rsInputs r) (rsInputBytes r) (rsNewL0 r) (rsParts r) (rsMinTxID r) (rsMaxTxID r)
    (rsCommit r) deletedL1 deletedL0 deferred skipped (rsAccount r).
Definition setAccount (a : accounting) (r : Result) : Result :=
  MkResult (rsCompacted r) (rsSkipped r) (rsInputs r) (rsInputBytes r) (rsNewL0 r) (rsParts r) (rsMinTxID r) (rsMaxTxID r)
    (rsCommit r) (rsDeletedL1 r) (rsDeletedL0 r) (rsDeferredGC r) (rsGCSkipped r) a.

(** [replica.ErrGCDeferred] *)
Definition gcDeferred : string := "replica: physical GC deferred; external writer and reader quiescence required".
Definition noProof : string := "complete snapshot proof missing".

(** ** The names of an epoch against a floor *)

Record l0Preflight := MkPreflight {
  pfComplete : bool;
  pfCovered : list string;
  pfNewKeys : list string;
  pfNewSegments : Z;
  pfNewCountsKnown : bool;
  pfNewObjects : Z;
  pfNewBytes : Z;
  pfNewBytesKnown : bool;
}.

Definition noPreflight : l0Preflight := MkPreflight false [] [] 0 false 0 0 false.

Definition classify (floor : Z) (p : l0Preflight) (key : string) : l0Preflight :=
  match strictCoveredNameEnd (baseName key) with
  | None =>
      MkPreflight false (pfCovered p) (pfNewKeys p) (pfNewSegments p) (pfNewCountsKnown p) (pfNewObjects p) (pfNewBytes p)
        (pfNewBytesKnown p)
  | Some (end_, countable) =>
      if decide (end_ ≤ floor) then
        MkPreflight (pfComplete p) (pfCovered p ++ [key]) (pfNewKeys p) (pfNewSegments p) (pfNewCountsKnown p) (pfNewObjects p)
          (pfNewBytes p) (pfNewBytesKnown p)
      else
        MkPreflight (pfComplete p) (pfCovered p) (pfNewKeys p ++ [key])
          (if (countable : bool) then pfNewSegments p + 1 else pfNewSegments p)
          (pfNewCountsKnown p && countable) (pfNewObjects p + 1) (pfNewBytes p) (pfNewBytesKnown p)
  end.

Definition classifyAll (floor : Z) (l0 : list string) : l0Preflight :=
  foldl (classify floor) (MkPreflight true [] [] 0 true 0 0 false) l0.

Definition addSize (sizes : gmap string Z) (p : l0Preflight) (key : string) : l0Preflight :=
  match sizes !! key with
  | Some size =>
      if decide (HeaderSize ≤ size) then
        MkPreflight (pfComplete p) (pfCovered p) (pfNewKeys p) (pfNewSegments p) (pfNewCountsKnown p) (pfNewObjects p)
          (i64 (pfNewBytes p + size)) (pfNewBytesKnown p)
      else MkPreflight (pfComplete p) (pfCovered p) (pfNewKeys p) (pfNewSegments p) (pfNewCountsKnown p) (pfNewObjects p)
             (pfNewBytes p) false
  | None => MkPreflight (pfComplete p) (pfCovered p) (pfNewKeys p) (pfNewSegments p) (pfNewCountsKnown p) (pfNewObjects p)
              (pfNewBytes p) false
  end.

Definition sizedPreflight (sizes : gmap string Z) (sized : bool) (p : l0Preflight) : l0Preflight :=
  foldl (addSize sizes)
    (MkPreflight (pfComplete p) (pfCovered p) (pfNewKeys p) (pfNewSegments p) (pfNewCountsKnown p) (pfNewObjects p)
       (pfNewBytes p) sized)
    (pfNewKeys p).

(** ** The parts of the inputs *)

Record scan := MkScan {
  scSegs : list bytes;
  scBytes : Z;
  scMin : Z;
  scMax : Z;
  scSnap : bool;
  scSeen : gset string;
  scNew : Z;
}.

Definition noScan : scan := MkScan [] 0 0 0 false ∅ 0.

Definition addPart (new : bool) (h : Header) (part : bytes) (x : scan) : scan :=
  MkScan (scSegs x ++ [part]) (i64 (scBytes x + zlen part))
    (if decide (scMin x = 0 ∨ hStartTxID h < scMin x) then hStartTxID h else scMin x)
    (if decide (scMax x < hEndTxID h) then hEndTxID h else scMax x)
    (scSnap x || bool_decide (hKind h = KindSnapshot)) ({[ID h]} ∪ scSeen x)
    (if new then scNew x + 1 else scNew x).

(** The parts of an object above the floor, and whether there were any. *)
Fixpoint scanL0 (floor : option Z) (parts : list bytes) (x : scan) (fresh : bool) : result compactError (scan * bool) :=
  match parts with
  | [] => Ok (x, fresh)
  | part :: parts =>
      '(h, _) ←ᵣ rmap_err CErrSegment (Decode part);
      if (match floor with Some floor => bool_decide (hEndTxID h ≤ floor) | None => false end) then scanL0 floor parts x fresh
      else scanL0 floor parts (if decide (ID h ∈ scSeen x) then x else addPart true h part x) true
  end.

(** The parts of an object of the old compacted snapshot. *)
Fixpoint scanL1 (parts : list bytes) (x : scan) : result compactError scan :=
  match parts with
  | [] => Ok x
  | part :: parts =>
      '(h, _) ←ᵣ rmap_err CErrSegment (Decode part);
      scanL1 parts (if decide (ID h ∈ scSeen x) then x else addPart false h part x)
  end.

(** The parts of a snapshot under another epoch, and the last transaction. *)
Fixpoint restamp (epoch maxTx : Z) (parts : list bytes) : result compactError (list bytes * Z) :=
  match parts with
  | [] => Ok ([], maxTx)
  | part :: parts =>
      '(h, payload) ←ᵣ rmap_err CErrSegment (Decode part);
      '(rest, maxTx) ←ᵣ restamp epoch (hEndTxID h) parts;
      Ok (Encode (MkHeader (hVersion h) (hKind h) (hFlags h) epoch (hStartTxID h) (hEndTxID h) (hLength h) (hCRC h)) payload
            :: rest, maxTx)
  end.

(** The entry of the page index for a part. *)
Definition indexEntry (key : string) (part : bytes) : result compactError PageIndexEntry :=
  '(_, payload) ←ᵣ rmap_err CErrSegment (Decode part);
  d ←ᵣ rmap_err CErrPages (DecodeWALPageMap payload);
  nums ←ᵣ rmap_err CErrPages (PageMapNumbers payload);
  locs ←ᵣ rmap_err CErrPages (PageLocs payload);
  Ok (MkEntry key (dPageSize d) (dCommit d) nums locs).

Fixpoint indexEntries (keys : list string) (parts : list bytes) : result compactError (list PageIndexEntry) :=
  match keys, parts with
  | key :: keys, part :: parts => e ←ᵣ indexEntry key part; es ←ᵣ indexEntries keys parts; Ok (e :: es)
  | _, _ => Ok []
  end.

(** The page size and the number of pages, from the first part. *)
Definition firstMap (parts : list bytes) : result compactError (Z * Z) :=
  match parts with
  | [] => Err CErrNoParts
  | part :: _ =>
      '(_, payload) ←ᵣ rmap_err CErrSegment (Decode part);
      d ←ᵣ rmap_err CErrPages (DecodeWALPageMap payload);
      Ok (dPageSize d, dCommit d)
  end.

Section programs.
Context `{replicaCodec} (order : list string → list string) (rounds : nat) (compression paged : bool) {C : Type}.
Abbreviation prog := (prog C Manager).

Record Options := MkOptions {
  opMinSegments : Z;
  opMinBytes : Z;
  opMinObjects : Z;
  opMaxPartBytes : Z;
  opVerify : option C;
  opGC : bool;
  opOffline : bool;
}.

Definition belowObjects (opts : Options) (objects : Z) : bool :=
  bool_decide (opMinObjects opts ≤ 0) || bool_decide (objects < opMinObjects opts).

Definition belowThreshold (p : l0Preflight) (opts : Options) : bool :=
  pfComplete p && bool_decide (pfNewKeys p ≠ []) && pfNewCountsKnown p && pfNewBytesKnown p
  && bool_decide (0 < opMinSegments opts) && bool_decide (pfNewSegments p < opMinSegments opts)
  && bool_decide (0 < opMinBytes opts) && bool_decide (pfNewBytes p < opMinBytes opts)
  && belowObjects opts (pfNewObjects p).

(** An error ends the compaction with an empty result. *)
Definition onEpoch {A} (p : prog (result epochError A)) : prog (result compactError A) :=
  r ← p; mret (rmap_err CErrEpoch r).

(** *** Listing with sizes *)

Fixpoint sizesOf (keys : list string) : prog (result bucketError (list (string * Z))) :=
  match keys with
  | [] => mret (Ok [])
  | key :: keys =>
      r ← getObject key;
      match r with
      | Err ErrNotFound => sizesOf keys
      | Err e => mret (Err e)
      | Ok (data, _) => rest ←! sizesOf keys; mret (Ok ((key, zlen data) :: rest))
      end
  end.

(** [ListPage] with 1000 objects a page *)
Definition listPage (prefix after : string) : prog (result bucketError (list (string * Z) * string)) :=
  keys ←! listKeys prefix;
  let '(page, next) := cutPage after 1000 [] (sortKeys keys) in
  infos ←! sizesOf page;
  mret (Ok (infos, next)).

Fixpoint sizePages (n : nat) (prefix after : string) (sizes : gmap string Z) : prog (gmap string Z * bool) :=
  match n with
  | O => mret (sizes, false)
  | S n =>
      r ← listPage prefix after;
      match r with
      | Err _ => mret (∅, false)
      | Ok (infos, next) =>
          let sizes := foldl (λ m i, <[i.1 := i.2]> m) sizes infos in
          if decide (next = EmptyString) then mret (sizes, true)
          else if decide (next = after) then mret (sizes, false)
          else sizePages n prefix next sizes
      end
  end.

Definition listObjectSizes (prefix : string) : prog (gmap string Z * bool) :=
  if paged then sizePages (Z.to_nat 100000) prefix EmptyString ∅ else mret (∅, false).

Definition preflightL0 (s : Scope) (epoch : Z) (l0 : list string) (floor : Z) : prog l0Preflight :=
  let p := classifyAll floor l0 in
  if negb (pfComplete p) || bool_decide (pfNewKeys p = []) || negb (pfNewCountsKnown p) then mret p
  else '(sizes, sized) ← listObjectSizes (LtxPrefix s epoch); mret (sizedPreflight sizes sized p).

(** *** Counting *)

Definition accountingObjectLimit : Z := 10000.

(** Eleven pages of a thousand pass the limit, when no object vanishes between the listing and its size. *)
Fixpoint infoPages (n : nat) (prefix after : string) (out : list (string * Z)) : prog (list (string * Z) * bool * bool) :=
  match n with
  | O => mret (out, true, true)
  | S n =>
      if decide (accountingObjectLimit ≤ zlen out) then mret (out, true, true)
      else
        r ← listPage prefix after;
        match r with
        | Err _ => mret (out, false, false)
        | Ok (infos, next) =>
            let remaining := accountingObjectLimit - zlen out in
            if decide (remaining < zlen infos) then mret (out ++ take (Z.to_nat remaining) infos, true, true)
            else
              let out := out ++ infos in
              if decide (next = EmptyString) then mret (out, true, false)
              else if decide (next = after) then mret (out, false, false)
              else infoPages n prefix next out
        end
  end.

(** The objects with their sizes, whether the sizes are known, and whether there are more. *)
Definition listObjectMetadata (prefix : string) : prog (list (string * Z) * bool * bool) :=
  if paged then infoPages 11 prefix EmptyString []
  else
    r ← listKeys prefix;
    match r with
    | Err _ => mret ([], false, false)
    | Ok keys => mret ((λ k, (k, -1)) <$> take (Z.to_nat accountingObjectLimit) keys, false,
                       bool_decide (accountingObjectLimit < zlen keys))
    end.

Definition countObject (floor : Z) (a : accounting) (info : string * Z) : accounting :=
  let known := bool_decide (0 ≤ info.2) in
  let plus (n : Z) : Z := if known then i64 (n + info.2) else n in
  match strictCoveredNameEnd (baseName info.1) with
  | Some (end_, _) =>
      if decide (end_ ≤ floor) then
        MkAccounting (acEpoch a) (acObjectCount a + 1) (plus (acObjectBytes a)) (acObjectBytesKnown a) (acRetainedBytes a)
          (acRetainedBytesKnown a) (plus (acCoveredBytes a)) (acDeferredBytes a) (acCovered a + 1) (acDeferred a) (acUnknown a)
          (acTruncated a)
      else
        MkAccounting (acEpoch a) (acObjectCount a + 1) (plus (acObjectBytes a)) (acObjectBytesKnown a) (acRetainedBytes a)
          (acRetainedBytesKnown a) (acCoveredBytes a) (plus (acDeferredBytes a)) (acCovered a) (acDeferred a + 1) (acUnknown a)
          (acTruncated a)
  | None =>
      MkAccounting (acEpoch a) (acObjectCount a + 1) (plus (acObjectBytes a)) (acObjectBytesKnown a) (acRetainedBytes a)
        (acRetainedBytesKnown a) (acCoveredBytes a) (acDeferredBytes a) (acCovered a) (acDeferred a) (acUnknown a + 1)
        (acTruncated a)
  end.

Definition deferredMetadataAccounting (s : Scope) (epoch floor : Z) : prog accounting :=
  '(infos, known, truncated) ← listObjectMetadata (LtxPrefix s epoch);
  let a := foldl (countObject floor) (MkAccounting epoch 0 0 known 0 false 0 0 0 0 0 truncated) infos in
  mret (MkAccounting (acEpoch a) (acObjectCount a) (acObjectBytes a) (acObjectBytesKnown a)
          (i64 (acCoveredBytes a + acDeferredBytes a)) (acObjectBytesKnown a) (acCoveredBytes a) (acDeferredBytes a)
          (acCovered a) (acDeferred a) (if (truncated : bool) then acUnknown a + 1 else acUnknown a) (acTruncated a)).

Definition addDeferredMetadataAccounting (s : Scope) (epoch floor : Z) (r : Result) : prog Result :=
  if decide (rsGCSkipped r = EmptyString) then mret r
  else a ← deferredMetadataAccounting s epoch floor; mret (setAccount a r).

(** *** Removing what is covered *)

(** The number removed and the number kept for now, why, and the error. *)
Definition gcOutcome : Type := Z * Z * string * option compactError.

Definition gcCoveredL0 (s : Scope) (epoch floor : Z) (opts : Options) (keys : list string) : prog gcOutcome :=
  if negb (opGC opts) || bool_decide (keys = []) then mret (0, 0, EmptyString, None)
  else if negb (opOffline opts) then mret (0, zlen keys, gcDeferred, None)
  else
    r ← onReplica (ReadIndex s epoch);
    match r with
    | Err e => mret (0, 0, EmptyString, Some (CErrEpoch e))
    | Ok None => mret (0, zlen keys, "index missing", None)
    | Ok (Some idx) =>
        if decide (Index.ixWatermark idx < floor) then
          mret (0, zlen keys, "index watermark " +:+ fmt_d (Index.ixWatermark idx) +:+ " behind manifest " +:+ fmt_d floor, None)
        else
          r ← HasCompleteSnapshot order rounds s epoch;
          match r with
          | Err e => mret (0, 0, EmptyString, Some (CErrEpoch e))
          | Ok false => mret (0, zlen keys, noProof, None)
          | Ok true =>
              r ← verify (opVerify opts);
              match r with
              | Err e => mret (0, 0, EmptyString, Some (CErrEpoch e))
              | Ok _ =>
                  '(deleted, r) ← deleteAll s epoch (MkRetire true (opVerify opts)) keys 0;
                  mret (deleted, 0, EmptyString, match r with Ok _ => None | Err e => Some (CErrEpoch e) end)
              end
          end
    end.

(** A compaction that is skipped still removes or counts what is covered. *)
Definition finishSkipped (s : Scope) (epoch floor : Z) (opts : Options) (covered : list string) (res : Result) :
    prog (Result * option compactError) :=
  '(deleted, deferred, skipped, err) ← gcCoveredL0 s epoch floor opts covered;
  let res := setGC 0 deleted deferred skipped res in
  res ← (if opOffline opts then mret res else addDeferredMetadataAccounting s epoch floor res);
  mret (res, err).

(** *** Reading the inputs *)

Fixpoint readL0 (floor : option Z) (keys : list string) (x : scan) (objects : Z) : prog (result compactError (scan * Z)) :=
  match keys with
  | [] => mret (Ok (x, objects))
  | key :: keys =>
      raw ←! onEpoch (onReplica (ReadSegment key));
      match (parts ←ᵣ rmap_err CErrObject (Split raw); scanL0 floor parts x false) with
      | Err e => mret (Err e)
      | Ok (x, fresh) => readL0 floor keys x (if (fresh : bool) then objects + 1 else objects)
      end
  end.

Fixpoint readL1 (keys : list string) (x : scan) : prog (result compactError scan) :=
  match keys with
  | [] => mret (Ok x)
  | key :: keys =>
      raw ←! onEpoch (onReplica (ReadSegment key));
      match (parts ←ᵣ rmap_err CErrObject (Split raw); scanL1 parts x) with
      | Err e => mret (Err e)
      | Ok x => readL1 keys x
      end
  end.

(** *** Folding *)

(** What is folded: the inputs, their size, the parts, and the last transaction. *)
Record folding := MkFolding {
  fdInputs : list bytes;
  fdBytes : Z;
  fdParts : list bytes;
  fdMax : Z;
}.

Definition sumSizes (l : list bytes) : Z := foldl (λ n b, i64 (n + zlen b)) 0 l.

(** From the epochs before it, when the epoch itself does not fold. *)
Definition foldPredecessors (s : Scope) (epoch : Z) (opts : Options) (maxTx : Z) (why : restoreError) :
    prog (result compactError folding) :=
  r ← RestoreChain order rounds s epoch;
  match r with
  | Err e => mret (Err (CErrPredecessor why e))
  | Ok chain =>
      let segs := sgRaw <$> chain in
      match (parts ←ᵣ rmap_err CErrFold (Compact compression segs (opMaxPartBytes opts)); restamp epoch maxTx parts) with
      | Err e => mret (Err e)
      | Ok (parts, maxTx) =>
          _ ←! onEpoch (verify (opVerify opts));
          mret (Ok (MkFolding segs (sumSizes segs) parts maxTx))
      end
  end.

Definition foldInputs (s : Scope) (epoch : Z) (opts : Options) (x : scan) : prog (result compactError folding) :=
  match Compact compression (scSegs x) (opMaxPartBytes opts) with
  | Ok parts => mret (Ok (MkFolding (scSegs x) (scBytes x) parts (scMax x)))
  | Err why => foldPredecessors s epoch opts (scMax x) why
  end.

(** *** Publishing *)

Fixpoint appendParts (s : Scope) (epoch : Z) (parts : list bytes) : prog (result compactError (list string)) :=
  match parts with
  | [] => mret (Ok [])
  | part :: parts =>
      '(key, _) ←! onEpoch (onReplica (AppendL1 order rounds s epoch part));
      keys ←! appendParts s epoch parts;
      mret (Ok (key :: keys))
  end.

(** The manifest that is published. *)
Definition publish (s : Scope) (epoch : Z) (opts : Options) (minTx : Z) (f : folding) : prog (result compactError Manifest) :=
  match firstMap (fdParts f) with
  | Err e => mret (Err e)
  | Ok (pageSize, commit) =>
      keys ←! appendParts s epoch (fdParts f);
      match indexEntries keys (fdParts f) with
      | Err e => mret (Err e)
      | Ok entries =>
          _ ←! onEpoch (onReplica (PutIndex order rounds s epoch (MkIndex (fdMax f) entries)));
          _ ←! onEpoch (verify (opVerify opts));
          let man := MkManifest 0 minTx (fdMax f) commit pageSize keys 0 in
          _ ←! onEpoch (onReplica (PutManifest order rounds s epoch man));
          mret (Ok man)
      end
  end.

(** What the new manifest makes superfluous. *)
Definition removeOld (s : Scope) (epoch : Z) (opts : Options) (l0 oldL1 : list string) (man : Manifest) (res : Result) :
    prog (Result * option compactError) :=
  if negb (opGC opts) then mret (res, None)
  else if negb (opOffline opts) then
    p ← preflightL0 s epoch l0 (mnMaxTxID man);
    res ← addDeferredMetadataAccounting s epoch (mnMaxTxID man)
            (setGC 0 0 (zlen oldL1 + zlen (pfCovered p)) gcDeferred res);
    mret (res, None)
  else
    r ← HasCompleteSnapshot order rounds s epoch;
    match r with
    | Err e => mret (res, Some (CErrEpoch e))
    | Ok false => mret (setGC 0 0 0 noProof res, None)
    | Ok true =>
        r ← verify (opVerify opts);
        match r with
        | Err e => mret (res, Some (CErrEpoch e))
        | Ok _ =>
            '(deletedL1, r) ← deleteAll s epoch (MkRetire true (opVerify opts))
                               (filter (λ k, k ∉ mnObjects man) oldL1) 0;
            match r with
            | Err e => mret (setGC deletedL1 0 0 EmptyString res, Some (CErrEpoch e))
            | Ok _ =>
                p ← preflightL0 s epoch l0 (mnMaxTxID man);
                '(deleted, deferred, skipped, err) ← gcCoveredL0 s epoch (mnMaxTxID man) opts (pfCovered p);
                mret (setGC deletedL1 deleted deferred skipped res, err)
            end
        end
    end.

(** The compaction once the inputs above the floor are known to be enough. *)
Definition compactInputs (s : Scope) (epoch : Z) (opts : Options) (l0 : list string) (man : option Manifest) (x : scan) :
    prog (Result * option compactError) :=
  let oldL1 := match man with Some man => mnObjects man | None => [] end in
  r ← readL1 oldL1 x;
  match r with
  | Err e => mret (noResult, Some e)
  | Ok y =>
      if negb (scSnap y) then mret (skippedResult "no snapshot baseline" 0 0, None)
      else
        r ← (_ ←! onEpoch (verify (opVerify opts));
             f ←! foldInputs s epoch opts y;
             man ←! publish s epoch opts (scMin y) f;
             mret (Ok (f, man)));
        match r with
        | Err e => mret (noResult, Some e)
        | Ok (f, man) =>
            removeOld s epoch opts l0 oldL1 man
              (MkResult true EmptyString (zlen (fdInputs f)) (fdBytes f) (scNew y) (zlen (fdParts f)) (mnMinTxID man)
                 (mnMaxTxID man) (mnCommit man) 0 0 0 EmptyString noAccounting)
        end
  end.

(** The rest once the names did not decide. *)
Definition compactDecoded (s : Scope) (epoch : Z) (opts : Options) (l0 : list string) (man : option Manifest)
    (covered : list string) : prog (Result * option compactError) :=
  let floor := mnMaxTxID <$> man in
  r ← readL0 floor l0 noScan 0;
  match r with
  | Err e => mret (noResult, Some e)
  | Ok (x, objects) =>
      if negb (scSnap x) && bool_decide (man = None) then mret (skippedResult "no snapshot baseline" 0 0, None)
      else if bool_decide (scNew x = 0) && bool_decide (man ≠ None) then
        finishSkipped s epoch (default 0 floor) opts covered (skippedResult "already compacted" 0 0)
      else if bool_decide (zlen (scSegs x) < opMinSegments opts) && bool_decide (scBytes x < opMinBytes opts)
              && belowObjects opts objects then
        finishSkipped s epoch (default 0 floor) opts covered
          (skippedResult "below threshold" (zlen (scSegs x)) (scBytes x))
      else compactInputs s epoch opts l0 man x
  end.

(** [Compact] *)
Definition CompactEpoch (s : Scope) (epoch : Z) (opts : Options) : prog (Result * option compactError) :=
  r ← (man ←! onReplica (ReadManifest s epoch); l0 ←! onReplica (ListL0Segments s epoch); mret (Ok (man, l0)));
  match r with
  | Err e => mret (noResult, Some (CErrEpoch e))
  | Ok (None, l0) => compactDecoded s epoch opts l0 None []
  | Ok (Some man, l0) =>
      pre ← preflightL0 s epoch l0 (mnMaxTxID man);
      if pfComplete pre && bool_decide (pfNewKeys pre = []) then
        finishSkipped s epoch (mnMaxTxID man) opts (pfCovered pre) (skippedResult "already compacted" 0 0)
      else if pfComplete pre && belowThreshold pre opts then
        finishSkipped s epoch (mnMaxTxID man) opts (pfCovered pre)
          (skippedResult "below threshold" (pfNewSegments pre) (pfNewBytes pre))
      else compactDecoded s epoch opts l0 (Some man) (pfCovered pre)
  end.
End programs.

Arguments MkOptions {C} _ _ _ _ _ _ _.
Arguments opMinSegments {C} _.
Arguments opMinBytes {C} _.
Arguments opMinObjects {C} _.
Arguments opMaxPartBytes {C} _.
Arguments opVerify {C} _.
Arguments opGC {C} _.
Arguments opOffline {C} _.

(** ** Which effects a compaction has *)

Section effects.
Context `{Etag} `{replicaCodec} (order : list string → list string) (rounds : nat) (compression paged : bool) {C : Type}.
Abbreviation prog := (prog C Manager).

Lemma silent_onEpoch {A} (p : prog (result epochError A)) : silent p → silent (onEpoch p).
Proof. intros Hp. by apply silent_bind. Qed.

Lemma silent_verify (v : option C) : silent (verify v).
Proof. by destruct v. Qed.

Lemma silent_sizesOf keys : silent (sizesOf (C := C) keys).
Proof.
  induction keys as [|key keys IH]; [done|]. apply silent_bind; [done|]. intros [[d e]|e]; [by apply silent_check|].
  by destruct e.
Qed.

Lemma silent_listPage prefix after : silent (listPage (C := C) prefix after).
Proof.
  apply silent_check; [done|]. intros keys. destruct (cutPage _ _ _ _) as [page next].
  by apply silent_check; [apply silent_sizesOf|].
Qed.

Lemma silent_sizePages n prefix after sizes : silent (sizePages (C := C) n prefix after sizes).
Proof.
  revert after sizes. induction n as [|n IH]; intros after sizes; [done|]. apply silent_bind; [apply silent_listPage|].
  intros [[infos next]|e]; [|done]. cbv zeta. repeat case_decide; done || apply IH.
Qed.

Lemma silent_preflightL0 s epoch l0 floor : silent (preflightL0 (C := C) paged s epoch l0 floor).
Proof.
  unfold preflightL0. cbv zeta. destruct (negb _ || _ || _); [done|]. apply silent_bind; [|by intros []].
  unfold listObjectSizes. destruct paged; [apply silent_sizePages|done].
Qed.

Lemma silent_infoPages n prefix after out : silent (infoPages (C := C) n prefix after out).
Proof.
  revert after out. induction n as [|n IH]; intros after out; [done|]. cbn [infoPages]. case_decide; [done|].
  apply silent_bind; [apply silent_listPage|]. intros [[infos next]|e]; [|done]. cbv zeta. repeat case_decide; done || apply IH.
Qed.

Lemma silent_accounting s epoch floor r : silent (addDeferredMetadataAccounting (C := C) paged s epoch floor r).
Proof.
  unfold addDeferredMetadataAccounting. case_decide; [done|]. apply silent_bind; [|done].
  apply silent_bind; [|by intros [[infos known] truncated]]. unfold listObjectMetadata.
  destruct paged; [apply silent_infoPages|]. apply silent_bind; [done|]. by intros [keys|e].
Qed.

Lemma silent_readL0 floor keys x objects : silent (readL0 (C := C) floor keys x objects).
Proof.
  revert x objects. induction keys as [|key keys IH]; intros x objects; [done|].
  apply silent_check; [apply silent_onEpoch, silent_onReplica, silent_ReadSegment|]. intros raw.
  destruct (rbind _ _) as [[y fresh]|e]; [apply IH|done].
Qed.

Lemma silent_readL1 keys x : silent (readL1 (C := C) keys x).
Proof.
  revert x. induction keys as [|key keys IH]; intros x; [done|].
  apply silent_check; [apply silent_onEpoch, silent_onReplica, silent_ReadSegment|]. intros raw.
  destruct (rbind _ _) as [y|e]; [apply IH|done].
Qed.

Section online.
Context (opts : Options (C := C)) (Hon : opOffline opts = false).

Lemma silent_finishSkipped s epoch floor covered res : silent (finishSkipped order rounds paged s epoch floor opts covered res).
Proof.
  unfold finishSkipped. apply silent_bind.
  - unfold gcCoveredL0. rewrite Hon. by destruct (negb (opGC opts) || _).
  - intros [[[deleted deferred] skipped] err]. rewrite Hon. apply silent_bind; [apply silent_accounting|done].
Qed.

Lemma silent_removeOld s epoch l0 oldL1 man res : silent (removeOld order rounds paged s epoch opts l0 oldL1 man res).
Proof.
  unfold removeOld. destruct (negb (opGC opts)); [done|]. rewrite Hon. cbn [negb].
  apply silent_bind; [apply silent_preflightL0|]. intros p. apply silent_bind; [apply silent_accounting|done].
Qed.

Context (P : ∀ R : Type, prog R → Prop) (HP : closed P) (s : Scope) (epoch : Z).
Context (Hfence : P _ (readResourceFence order rounds s)) (Happend : ∀ part, P _ (AppendL1 order rounds s epoch part)).
Context (Hindex : ∀ idx, P _ (PutIndex order rounds s epoch idx)) (Hmanifest : ∀ man, P _ (PutManifest order rounds s epoch man)).

Lemma closed_onEpoch {A} (p : prog (result epochError A)) : P _ p → P _ (onEpoch p).
Proof. intros Hp. apply (closed_bind _ HP); [done|]. intros r. by apply (closed_silent _ HP). Qed.

Lemma closed_verify : P _ (onEpoch (verify (opVerify opts))).
Proof. apply (closed_silent _ HP), silent_onEpoch, silent_verify. Qed.

Lemma closed_foldInputs x : P _ (foldInputs order rounds compression s epoch opts x).
Proof.
  unfold foldInputs. destruct (Compact _ _ _) as [parts|why]; [by apply (closed_silent _ HP)|].
  apply (closed_bind _ HP); [by apply closed_RestoreChain|]. intros [chain|e]; [|by apply (closed_silent _ HP)].
  cbv zeta. destruct (rbind _ _) as [[parts maxTx]|e]; [|by apply (closed_silent _ HP)].
  apply (closed_check _ HP); [apply closed_verify|]. intros _. by apply (closed_silent _ HP).
Qed.

Lemma closed_publish minTx f : P _ (publish order rounds s epoch opts minTx f).
Proof.
  unfold publish. destruct (firstMap _) as [[ps cm]|e]; [|by apply (closed_silent _ HP)].
  apply (closed_check _ HP).
  - induction (fdParts f) as [|part parts IH]; [by apply (closed_silent _ HP)|].
    apply (closed_check _ HP); [apply closed_onEpoch, (closed_onReplica _ HP), Happend|]. intros [key e].
    apply (closed_check _ HP); [done|]. intros keys. by apply (closed_silent _ HP).
  - intros keys. destruct (indexEntries _ _) as [entries|e]; [|by apply (closed_silent _ HP)].
    apply (closed_check _ HP); [apply closed_onEpoch, (closed_onReplica _ HP), Hindex|]. intros _.
    apply (closed_check _ HP); [apply closed_verify|]. intros _. cbv zeta.
    apply (closed_check _ HP); [apply closed_onEpoch, (closed_onReplica _ HP), Hmanifest|]. intros _.
    by apply (closed_silent _ HP).
Qed.

Lemma closed_compactInputs l0 man x : P _ (compactInputs order rounds compression paged s epoch opts l0 man x).
Proof.
  unfold compactInputs. cbv zeta. apply (closed_bind _ HP); [apply (closed_silent _ HP), silent_readL1|].
  intros [y|e]; [|by apply (closed_silent _ HP)]. destruct (negb (scSnap y)); [by apply (closed_silent _ HP)|].
  apply (closed_bind _ HP).
  - apply (closed_check _ HP); [apply closed_verify|]. intros _. apply (closed_check _ HP); [apply closed_foldInputs|]. intros f.
    apply (closed_check _ HP); [apply closed_publish|]. intros man'. by apply (closed_silent _ HP).
  - intros [[f man']|e]; [|by apply (closed_silent _ HP)]. apply (closed_silent _ HP), silent_removeOld.
Qed.

Lemma closed_compactDecoded l0 man covered : P _ (compactDecoded order rounds compression paged s epoch opts l0 man covered).
Proof.
  unfold compactDecoded. cbv zeta. apply (closed_bind _ HP); [apply (closed_silent _ HP), silent_readL0|].
  intros [[x objects]|e]; [|by apply (closed_silent _ HP)].
  destruct (negb _ && _); [by apply (closed_silent _ HP)|].
  destruct (bool_decide _ && _); [apply (closed_silent _ HP), silent_finishSkipped|].
  destruct (bool_decide _ && _ && _); [apply (closed_silent _ HP), silent_finishSkipped|apply closed_compactInputs].
Qed.

Lemma closed_CompactEpoch : P _ (CompactEpoch order rounds compression paged s epoch opts).
Proof.
  unfold CompactEpoch. apply (closed_bind _ HP).
  { apply (closed_silent _ HP), silent_check; [apply silent_onReplica, silent_ReadManifest|]. intros man.
    by apply silent_check; [apply silent_onReplica, silent_ListL0Segments|]. }
  intros [[[man|] l0]|e]; [|apply closed_compactDecoded|by apply (closed_silent _ HP)].
  apply (closed_bind _ HP); [apply (closed_silent _ HP), silent_preflightL0|]. intros pre.
  destruct (pfComplete pre && bool_decide _); [apply (closed_silent _ HP), silent_finishSkipped|].
  destruct (pfComplete pre && _); [apply (closed_silent _ HP), silent_finishSkipped|apply closed_compactDecoded].
Qed.
End online.
End effects.
