(* ===== verification/ReplicaFleet.v ===== *)
(** * Fleets of replica managers

    The bucket is shared by the replica managers of all nodes. Here any number of
    them run in any order, with calls that fail and writes that are lost or late.
    [replicaOp] says which writes the operations of the manager make, whatever they
    read; two promises follow. The segments of cells that cannot be deleted are
    written once ([Permanent]): the purge and the sweep of deleted cells leave them
    alone too. The fence of a deletable cell only moves as its deletion protocol
    says ([Discipline]). *)

From S2P Require Import Prelude Ltx PageMap Cell Bucket Fleet Objects Decimal Names Index Replica Epochs.
From S2P Require Import Compaction Discipline Permanent.

(** ** Keys *)

Lemma baseName_app a b : sepFree slash b → baseName (a +:+ "/" +:+ b) = b.
Proof.
  intros Hb. unfold baseName. rewrite slash_app, split_app_gen, (split_sepFree slash b) by done.
  by rewrite last_snoc.
Qed.

Lemma fmt_slash z : sepFree slash (fmt_d z).
Proof.
  destruct (decide (0 ≤ z)) as [Hz|Hz]; [by apply fmt_sepFree|].
  unfold fmt_d, pretty, pretty_Z. destruct z as [|p|p]; [lia..|]. split; [done|].
  change (sepFree slash (fmt_d (Zpos p))). by apply fmt_sepFree.
Qed.

Lemma SegmentName_slash h : sepFree slash (SegmentName h).
Proof.
  unfold SegmentName. repeat case_match; repeat (apply sepFree_app; [apply fmt_slash || done|]); by try apply fmt_slash.
Qed.

Lemma BatchName_slash f l : sepFree slash (BatchName f l).
Proof.
  unfold BatchName. case_decide; [|case_decide];
    repeat (apply sepFree_app; [apply fmt_slash || done|]); by try apply fmt_slash.
Qed.

Lemma batchName_slash hs : sepFree slash (batchName hs).
Proof. destruct hs as [|h [|h' hs]]; [done|apply SegmentName_slash|apply BatchName_slash]. Qed.

Lemma LtxPrefix_slash s epoch name : LtxPrefix s epoch +:+ name = (scopeKey s +:+ "/ltx/e" +:+ fmt_d epoch) +:+ "/" +:+ name.
Proof. unfold LtxPrefix. by rewrite !string_app_assoc. Qed.

Lemma L1Prefix_slash s epoch name : L1Prefix s epoch +:+ name = (LtxPrefix s epoch +:+ "L1") +:+ "/" +:+ name.
Proof. unfold L1Prefix. rewrite <-!string_app_assoc. done. Qed.

Lemma isSegmentKey_base a name : sepFree slash name → isSegmentKey (a +:+ "/" +:+ name) = isSegmentKey name.
Proof.
  intros Hn. unfold isSegmentKey. rewrite baseName_app by done. unfold baseName. by rewrite split_sepFree.
Qed.

Lemma isSegmentKey_ltx s epoch name :
  sepFree slash name → isSegmentKey (LtxPrefix s epoch +:+ name) = isSegmentKey name.
Proof. intros Hn. rewrite LtxPrefix_slash. by apply isSegmentKey_base. Qed.

Lemma isSegmentKey_l1 s epoch name :
  sepFree slash name → isSegmentKey (L1Prefix s epoch +:+ name) = isSegmentKey name.
Proof. intros Hn. rewrite L1Prefix_slash. by apply isSegmentKey_base. Qed.

Lemma isSegmentKey_suffixes name :
  sepFree slash name →
  isSegmentKey name = hasSuffix name ".snapshot" || hasSuffix name ".ltx" || hasSuffix name ".batch"
                      || hasSuffix name ".link" || hasSuffix name ".marker".
Proof. intros Hn. unfold isSegmentKey, baseName. by rewrite split_sepFree. Qed.

Lemma isSegmentKey_SegmentName h : isSegmentKey (SegmentName h) = true.
Proof.
  rewrite isSegmentKey_suffixes by apply SegmentName_slash. unfold SegmentName.
  repeat case_match; rewrite ?string_app_assoc, hasSuffix_app, ?orb_true_r; done.
Qed.

Lemma isSegmentKey_batchName hs : hs ≠ [] → isSegmentKey (batchName hs) = true.
Proof.
  destruct hs as [|h [|h' hs]]; [done|intros _; apply isSegmentKey_SegmentName|intros _].
  cbn [batchName]. rewrite isSegmentKey_suffixes by apply BatchName_slash. unfold BatchName.
  case_decide; [|case_decide].
  - change ".s.batch" with (".s" +:+ ".batch"). by rewrite !string_app_assoc, hasSuffix_app, ?orb_true_r.
  - change ("." +:+ "m" +:+ ".batch") with (".m" +:+ ".batch"). by rewrite !string_app_assoc, hasSuffix_app, ?orb_true_r.
  - change ("." +:+ "d" +:+ ".batch") with (".d" +:+ ".batch"). by rewrite !string_app_assoc, hasSuffix_app, ?orb_true_r.
Qed.

(** ** The writes of a manager *)

(** A fence is blocked under a new identity, its epoch is raised during the deletion, and the
    identity that blocked it allows the next life. *)
Inductive fenceStep : resourceFence → resourceFence → Prop :=
| step_same f : fenceStep f f
| step_block f job :
    rfDeleted f = false → rfJob f ≠ job → fenceStep f (MkResFence job true (rfEpoch f))
| step_raise f epoch :
    rfDeleted f = true → rfEpoch f < epoch → fenceStep f (MkResFence (rfJob f) true epoch)
| step_allow f : fenceStep f (MkResFence (rfJob f) false (rfEpoch f)).

Definition fenceName : string := "resource-fence.v2".

Inductive replicaOp `{Etag} `{replicaCodec} : bucketOp → Prop :=
| op_create k d : replicaOp (ConditionalCreate k d)
| op_fence s d f f' :
    Validate s = Ok tt → unmarshal d = Some f → fenceStep f f' →
    replicaOp (CAS (resourceFenceKey s) (marshal f') (etag d))
(* neither a segment nor a fence *)
| op_other op a b :
    opKey op = a +:+ "/" +:+ b → sepFree slash b → isSegmentKey b = false → b ≠ fenceName → replicaOp op
(* below the segments of a cell that can be deleted *)
| op_resource op s rest :
    Validate s = Ok tt → resourceClass s = true → opKey op = scopeKey s +:+ "/ltx/e" +:+ rest → replicaOp op.

Section ops.
Context `{Etag} `{replicaCodec}.

Lemma op_manifest op s epoch : opKey op = ManifestName s epoch → replicaOp op.
Proof.
  intros E. eapply (op_other _ (LtxPrefix s epoch +:+ "L1") "manifest.json"); [|vm_compute; intuition congruence..].
  by rewrite E, <-L1Prefix_slash.
Qed.

Lemma op_index op s epoch : opKey op = IndexName s epoch → replicaOp op.
Proof.
  intros E. eapply (op_other _ (LtxPrefix s epoch +:+ "L1") "index.bin"); [|vm_compute; intuition congruence..].
  by rewrite E, <-L1Prefix_slash.
Qed.

Lemma fmt_mark_other z suf :
  sepFree slash suf → (hasSuffix suf ".snapshot" || hasSuffix suf ".ltx" || hasSuffix suf ".batch"
    || hasSuffix suf ".link" || hasSuffix suf ".marker") = false → (9 ≤ String.length suf)%nat →
  isSegmentKey (fmt_d z +:+ suf) = false.
Proof.
  intros Hs Hsuf Hlen. rewrite isSegmentKey_suffixes by (apply sepFree_app; [apply fmt_slash|done]).
  rewrite !hasSuffix_cut in *. rewrite !cutSuffix_app by (cbn; lia).
  rewrite !(bool_decide_ext _ _ (fmap_is_Some _ _)). done.
Qed.

Lemma op_mark op s epoch txid suf :
  opKey op = LtxPrefix s epoch +:+ fmt_d txid +:+ suf → suf = ".snapshot-started" ∨ suf = ".snapshot-done" → replicaOp op.
Proof.
  intros E Hsuf. rewrite LtxPrefix_slash in E. eapply op_other; [exact E|..].
  - apply sepFree_app; [apply fmt_slash|]. destruct Hsuf as [->| ->]; vm_compute; intuition congruence.
  - apply fmt_mark_other; destruct Hsuf as [->| ->]; vm_compute; intuition (congruence || lia).
  - intros Ef. apply (f_equal (cutSuffix suf)) in Ef. rewrite cutSuffix_own in Ef. by destruct Hsuf as [->| ->].
Qed.

Lemma op_ltx op s epoch name :
  Validate s = Ok tt → resourceClass s = true → opKey op = LtxPrefix s epoch +:+ name → replicaOp op.
Proof.
  intros Hs Hr E. eapply (op_resource op s (fmt_d epoch +:+ "/" +:+ name)); [done..|].
  rewrite E. unfold LtxPrefix. by rewrite <-!string_app_assoc.
Qed.

Lemma op_l1 op s epoch name :
  Validate s = Ok tt → resourceClass s = true → opKey op = L1Prefix s epoch +:+ name → replicaOp op.
Proof. intros Hs Hr E. eapply op_ltx; [done..|]. rewrite E. unfold L1Prefix. by rewrite <-string_app_assoc. Qed.

Lemma op_purged op s epoch :
  Validate s = Ok tt → resourceClass s = true → resourceObjectEpoch s (opKey op) = Some epoch → replicaOp op.
Proof.
  intros Hs Hr. unfold resourceObjectEpoch, epochOfKey.
  destruct (cutPrefix _ (opKey op)) as [rest|] eqn:E; [|done]. apply cutPrefix_Some in E. intros _.
  eapply op_resource; [done..|]. by rewrite E, <-string_app_assoc.
Qed.
End ops.

Section knows.
Context `{Etag} `{replicaCodec} (order : list string → list string) (rounds : nat) {C : Type}.
Abbreviation prog := (prog C Manager).
Abbreviation facts := (list (string * bytes)).
Implicit Types (K : facts).

Lemma knows_write (Q : facts → result objectsError string → Prop) K op :
  replicaOp op → Q (learns op ++ K) (Ok (tagOf op)) → (∀ e, Q K (Err e)) →
  knows replicaOp Q K (write (C := C) (M := Manager) resourceObjects op).
Proof.
  intros Hop Ho He. unfold write. destruct (objectKey _ _) as [k|e] eqn:Hk; [|apply He].
  apply objectKey_Ok in Hk as (-> & _). replace (withKey op (opKey op)) with op by (by destruct op).
  split_and!; [done|exact Ho|]. intros e. apply He.
Qed.

Lemma careful_write op : replicaOp op → careful replicaOp (write (C := C) (M := Manager) resourceObjects op).
Proof. intros Hop K. by apply knows_write. Qed.

Lemma knows_GetVersion (Q : facts → result objectsError (bytes * string) → Prop) K key :
  (∀ d, Q ((key, d) :: K) (Ok (d, etag d))) → (∀ e, Q K (Err e)) →
  knows replicaOp Q K (GetVersion (C := C) (M := Manager) resourceObjects key).
Proof.
  intros Ho He. unfold GetVersion. destruct (objectKey _ _) as [k|e] eqn:Hk; [|apply He].
  apply objectKey_Ok in Hk as (-> & _). split; [intros d; apply Ho|intros e; apply He].
Qed.

Lemma careful_GetVersion key : careful replicaOp (GetVersion (C := C) (M := Manager) resourceObjects key).
Proof. intros K. by apply knows_GetVersion. Qed.

Lemma careful_ret {R} (r : R) : careful replicaOp (C := C) (M := Manager) (mret r).
Proof. done. Qed.

Lemma careful_getObject key : careful replicaOp (C := C) (M := Manager) (getObject key).
Proof. done. Qed.

Lemma careful_listKeys key : careful replicaOp (C := C) (M := Manager) (listKeys key).
Proof. done. Qed.

Lemma careful_putObject op : replicaOp op → careful replicaOp (C := C) (M := Manager) (putObject op).
Proof. done. Qed.

(** *** The fence *)

(** What is known of a fence that was read: a cell that cannot be deleted has none; a fresh one is
    the content of the record. *)
Definition fenceRead (s : Scope) (r : result replicaError (resourceFence * string)) : Prop :=
  match r with Ok (f, _) => resourceClass s = false → f = noFence | Err _ => True end.

Definition freshRead (s : Scope) (r : result replicaError (resourceFence * string)) : Prop :=
  match r with
  | Ok (f, e) => Validate s = Ok tt ∧ fenceRead s r ∧ (e ≠ EmptyString → ∃ d, e = etag d ∧ unmarshal d = Some f)
  | Err _ => True
  end.

(** The answer to a read or a creation of the record. *)
Definition tagged (K : facts) (r : result objectsError (bytes * string)) : Prop :=
  match r with Ok (d, e) => e = etag d | Err _ => True end.

Lemma tagged_GetVersion K key : knows replicaOp tagged K (GetVersion (C := C) (M := Manager) resourceObjects key).
Proof. by apply knows_GetVersion. Qed.

Lemma decodeFence_fresh s K r :
  Validate s = Ok tt → resourceClass s = true → tagged K r → freshRead s (decodeFence r).
Proof.
  intros Hs Hr Ht. destruct r as [[d e]|e]; [|done]. simpl in *. subst e.
  destruct (unmarshal d) as [f|] eqn:Ed; [|done]. split_and!; [done|simpl; congruence|by eauto].
Qed.

Lemma knows_migrateFence (s : Scope) legacy K :
  Validate s = Ok tt → resourceClass s = true →
  knows replicaOp (λ _, freshRead s) K (migrateFence (C := C) s legacy).
Proof.
  intros Hs Hr. unfold migrateFence. destruct (jsonValid legacy); [|done].
  eapply (knows_bind _ (λ K r, match r with Ok e => e = etag legacy | Err _ => True end)).
  { apply knows_write; [constructor|done|done]. }
  intros K' [e|e] _ He; [by eapply (decodeFence_fresh s K' (Ok (legacy, e)))|].
  destruct e as [| | |e]; try done. destruct e; try done.
  eapply knows_bind; [apply tagged_GetVersion|]. intros K'' r _ Ht. by eapply decodeFence_fresh.
Qed.

Lemma knows_fresh s K : knows replicaOp (λ _, freshRead s) K (readResourceFenceFresh (C := C) s).
Proof.
  unfold readResourceFenceFresh. destruct (Validate s) as [[]|e] eqn:Hs; [|done].
  destruct (resourceClass s) eqn:Hr; simpl negb; cbn iota; [|by split_and!].
  eapply knows_bind; [apply tagged_GetVersion|]. intros K' r _ Ht.
  pose proof (decodeFence_fresh s K' r Hs Hr Ht) as Hd.
  destruct r as [[raw e]|e]; [exact Hd|]. destruct e as [| | |e]; try done. destruct e; try done.
  eapply knows_bind; [apply tagged_GetVersion|]. intros K'' l _ _.
  destruct l as [[legacy e]|e]; [by apply knows_migrateFence|]. destruct e as [| | |e]; try done.
  destruct e; try done. by apply knows_migrateFence.
Qed.

Lemma careful_fresh s : careful replicaOp (readResourceFenceFresh (C := C) s).
Proof. intros K. eapply knows_mono; [| |apply knows_fresh]; done. Qed.

Lemma careful_readFenceRounds n s refresh : careful replicaOp (readFenceRounds order (C := C) n s refresh).
Proof.
  induction n as [|n IH]; [done|]. cbn [readFenceRounds]. apply careful_bind; [done|]. intros [|]; [done|].
  apply careful_bind; [done|]. intros t. apply careful_bind; [done|]. intros [f e|k|k rev]; [done| |].
  - apply careful_bind; [done|]. intros [[rev r]|]; [|done]. apply careful_bind; [done|].
    intros b. destruct (b && _); [done|apply IH].
  - apply careful_bind; [apply careful_fresh|]. intros r. apply careful_bind; [by destruct r as [[f e]|e]|].
    intros _. apply careful_bind; [done|]. intros [|]; [done|apply IH].
Qed.

Lemma knows_readFence s K : knows replicaOp (λ _, fenceRead s) K (readResourceFence order rounds (C := C) s).
Proof.
  unfold readResourceFence. destruct (resourceClass s) eqn:Hr; [|done].
  apply knows_careful; [apply careful_readFenceRounds|]. intros _ [[f e]|e]; simpl; [congruence|done].
Qed.

Lemma careful_readFence s : careful replicaOp (readResourceFence order rounds (C := C) s).
Proof. intros K. eapply knows_mono; [| |apply knows_readFence]; done. Qed.

(** A write that is guarded runs for a valid scope only. *)
Lemma knows_guarded {A} (Q : facts → result replicaError A → Prop) K s epoch (body : prog (result replicaError A)) :
  (∀ K e, Q K (Err e)) → (Validate s = Ok tt → ∀ K, knows replicaOp Q K body) → knows replicaOp Q K (guarded s epoch body).
Proof.
  intros He Hb. unfold guarded. eapply (knows_bind _ (λ _ _, True)); [done|]. intros K1 _ _ _.
  eapply knows_bind; [apply knows_fresh|]. intros K2 r _ Hr. cbn beta in Hr.
  eapply (knows_bind _ Q); [|by intros K3 x _ HQ ?].
  destruct r as [[f e]|e]; [|apply He]. destruct Hr as (Hs & _). destruct (fenceBlocks f epoch); [apply He|by apply Hb].
Qed.

Lemma careful_guarded {A} s epoch (body : prog (result replicaError A)) :
  (Validate s = Ok tt → careful replicaOp body) → careful replicaOp (guarded s epoch body).
Proof. intros Hb K. apply knows_guarded; [done|]. intros Hs K'. by apply Hb. Qed.

Lemma careful_locked {A} s (body : prog A) : careful replicaOp body → careful replicaOp (locked s body).
Proof.
  intros Hb. unfold locked. apply careful_bind; [done|]. intros _. apply careful_bind; [done|]. by intros x K.
Qed.

Lemma careful_updateFence n s change :
  (∀ f f', change f = Ok f' → fenceStep f f') → careful replicaOp (updateFenceRounds (C := C) n s change).
Proof.
  intros Hch. induction n as [|n IH]; [done|]. cbn [updateFenceRounds]. intros K.
  eapply knows_check; [apply knows_fresh|done|]. intros K1 [f e] _ (Hs & _ & He).
  destruct (change f) as [f'|err] eqn:Hf; [|done]. eapply (knows_bind _ (λ _ _, True)).
  - apply careful_write. case_decide as Hd; [constructor|]. destruct (He Hd) as (d & -> & Ed).
    eapply op_fence; [done..|]. by apply Hch.
  - intros K2 [tag|err] _ _; [by intros|]. destruct err as [| | |err]; try done. destruct err; try done.
Qed.

Lemma careful_update s change :
  (∀ f f', change f = Ok f' → fenceStep f f') → careful replicaOp (updateResourceFence (C := C) s change).
Proof. intros Hch. by apply careful_locked, careful_updateFence. Qed.

Lemma careful_Block s job : careful replicaOp (BlockResource (C := C) s job).
Proof.
  unfold BlockResource. case_decide; [done|]. apply careful_update. intros [j d e] f'. unfold blockChange. simpl.
  destruct d; simpl; (case_bool_decide as Hj; [done|]); intros [= <-].
  - destruct (decide (j = job)) as [->|]; [|by destruct Hj]. apply step_same.
  - by apply step_block.
Qed.

Lemma careful_Fence s job epoch : careful replicaOp (FenceResource (C := C) s job epoch).
Proof.
  apply careful_update. intros [j d e] f'. unfold fenceChange. simpl. destruct d; [|done]. simpl.
  case_bool_decide; [done|]. intros [= <-]. case_decide; [|apply step_same]. by apply (step_raise (MkResFence j true e)).
Qed.

Lemma careful_Allow s job : careful replicaOp (AllowResource (C := C) s job).
Proof.
  apply careful_update. intros f f'. unfold allowChange. case_decide; [done|]. intros [= <-]. apply step_allow.
Qed.

(** *** Storing *)

(** What was read of the fence says that the object may not be there: the cell can be deleted. *)
Lemma blocks_resource s f e epoch : fenceRead s (Ok (f, e)) → fenceBlocks f epoch = true → resourceClass s = true.
Proof. intros Hf Hb. destruct (resourceClass s) eqn:E; [done|]. by rewrite (Hf E) in Hb. Qed.

Lemma knows_takeBack (Q : facts → result replicaError string → Prop) K key e :
  replicaOp (ConditionalDelete key e) → (∀ K e, Q K (Err e)) → knows replicaOp Q K (takeBack (C := C) key e).
Proof.
  intros Hk HQ. eapply (knows_bind _ (λ _ _, True)); [by apply careful_write|]. intros K' r _ _. apply HQ.
Qed.

Lemma careful_putResource s epoch key data :
  (∀ op, opKey op = key → replicaOp op) → careful replicaOp (putResourceObject order rounds (C := C) s epoch key data).
Proof.
  intros Hk. unfold putResourceObject. apply careful_check.
  - apply careful_bind; [|done]. apply careful_write. by apply Hk.
  - intros e. apply careful_check; [apply careful_readFence|]. intros [f e'].
    destruct (fenceBlocks f epoch); [|done]. intros K. apply knows_takeBack; [|done]. by apply Hk.
Qed.

Lemma knows_createImmutable K key data :
  knows replicaOp (λ K r, match r with Ok _ => (key, data) ∈ K | Err _ => True end) K (createImmutable (C := C) key data).
Proof.
  unfold createImmutable.
  eapply (knows_bind _ (λ K r, match r with Ok _ => (key, data) ∈ K | Err _ => True end)).
  { apply knows_write; [constructor| |done]. cbn. apply elem_of_cons. by left. }
  intros K1 [e|e] _ HQ; [exact HQ|]. destruct e as [| | |e]; try done. destruct e; try done.
  eapply (knows_check _ (λ K r, match r with Ok (d, _) => (key, d) ∈ K | Err _ => True end)); [| |].
  - eapply knows_bind; [apply (knows_GetVersion (λ K r, match r with Ok (d, _) => (key, d) ∈ K | Err _ => True end))|].
    + intros d. apply elem_of_cons. by left.
    + done.
    + by intros K2 [[d e]|e] _ HQ2.
  - done.
  - intros K2 [old e] _ Hold. simpl. by case_decide; subst.
Qed.

Lemma knows_putImmutable K s epoch key data :
  (resourceClass s = true → ∀ op, opKey op = key → replicaOp op) →
  knows replicaOp (λ K r, match r with Ok _ => (key, data) ∈ K | Err _ => True end) K
    (putImmutableSegment order rounds (C := C) s epoch key data).
Proof.
  intros Hk. unfold putImmutableSegment. eapply knows_check; [apply knows_createImmutable|done|].
  intros K1 [created e] _ Hin. cbn beta in Hin.
  eapply knows_check; [apply knows_readFence|done|]. intros K2 [f e'] HK Hf.
  destruct (fenceBlocks f epoch) eqn:Hb; [|by apply HK].
  destruct created; [|done]. apply knows_takeBack; [|done]. apply Hk; [|done]. by eapply blocks_resource.
Qed.

Lemma careful_putImmutable s epoch key data :
  (resourceClass s = true → ∀ op, opKey op = key → replicaOp op) → careful replicaOp (putImmutableSegment order rounds (C := C) s epoch key data).
Proof. intros Hk K. eapply knows_mono; [| |by apply knows_putImmutable]; done. Qed.

Lemma segmentHeader_single epoch segment h :
  segmentHeader epoch segment = Ok h → batchHeaders epoch [segment] = Ok [h].
Proof. intros Hh. simpl. by rewrite Hh. Qed.

(** What an append that succeeded leaves: the object of the batch. *)
Definition appended (s : Scope) (epoch : Z) (segments : list bytes) (K : facts) : Prop :=
  Validate s = Ok tt ∧ segments ≠ [] ∧ ∃ hs, batchHeaders epoch segments = Ok hs
  ∧ (LtxPrefix s epoch +:+ batchName hs, concat segments) ∈ K.

Lemma knows_Append K s epoch segment :
  knows replicaOp (λ K r, match r with Ok _ => appended s epoch [segment] K | Err _ => True end) K
    (Append order rounds (C := C) s epoch segment).
Proof.
  apply knows_guarded; [done|]. intros Hs K1. destruct (segmentHeader epoch segment) as [h|e] eqn:Hh; [|done].
  eapply knows_check; [apply knows_putImmutable; intros; by eapply op_ltx|done|].
  intros K2 e _ Hin. split_and!; [done|done|]. exists [h]. split; [by apply segmentHeader_single|].
  cbn [batchName concat]. by rewrite app_nil_r.
Qed.

Lemma knows_AppendBatch K s epoch segments :
  knows replicaOp (λ K r, match r with Ok _ => appended s epoch segments K | Err _ => True end) K
    (AppendBatch order rounds (C := C) s epoch segments).
Proof.
  apply knows_guarded; [done|]. intros Hs K1. destruct segments as [|seg segments]; [done|].
  destruct (batchHeaders epoch (seg :: segments)) as [hs|e] eqn:Hh; [|done].
  eapply knows_check; [apply knows_putImmutable; intros; by eapply op_ltx|done|].
  intros K2 e _ Hin. split_and!; [done|done|]. by exists hs.
Qed.

Lemma careful_AppendL1 s epoch segment : careful replicaOp (AppendL1 order rounds (C := C) s epoch segment).
Proof.
  apply careful_guarded. intros Hs. destruct (segmentHeader epoch segment) as [h|e] eqn:Hh; [|done].
  apply careful_check; [|done]. apply careful_putImmutable. intros. by eapply op_l1.
Qed.

Lemma careful_onObjects {A} (p : prog (result objectsError A)) : careful replicaOp p → careful replicaOp (onObjects p).
Proof. intros Hp. apply careful_bind; [done|]. by intros r K. Qed.

Lemma careful_onBucket {A} (p : prog (result bucketError A)) : careful replicaOp p → careful replicaOp (onBucket p).
Proof. intros Hp. apply careful_bind; [done|]. by intros r K. Qed.

Lemma careful_claimCut key seg : careful replicaOp (claimCut (C := C) key seg).
Proof.
  unfold claimCut. apply careful_bind; [apply careful_write; constructor|]. intros [e|e]; [done|].
  destruct e as [| | |e]; try done. destruct e; try done.
  apply careful_check; [apply careful_onObjects, careful_GetVersion|]. by intros [raw e] K.
Qed.

Lemma careful_MarkEpoch s epoch cut : careful replicaOp (MarkEpoch order rounds (C := C) s epoch cut).
Proof.
  unfold MarkEpoch. case_decide; [done|]. apply careful_guarded. intros Hs.
  apply careful_check; [by apply careful_onBucket|]. intros keys. destruct (markersAgree s epoch cut keys); [|done].
  apply careful_check; [apply careful_claimCut|]. intros _. apply careful_check; [apply careful_claimCut|]. intros _.
  apply careful_check; [apply careful_readFence|]. by intros [f e] K.
Qed.

Lemma careful_raw op : replicaOp op → careful replicaOp (C := C) (check (onBucket (putObject op)) (λ _, mret (Ok tt))).
Proof. intros Hk. apply careful_check; [|done]. apply careful_onBucket. by apply careful_putObject. Qed.

Lemma careful_PutManifest s epoch man : careful replicaOp (PutManifest order rounds (C := C) s epoch man).
Proof.
  apply careful_guarded. intros Hs. apply careful_bind; [done|]. intros t.
  apply careful_check; [apply careful_putResource; intros; by eapply op_manifest|done].
Qed.

Lemma careful_PutIndex s epoch idx : careful replicaOp (PutIndex order rounds (C := C) s epoch idx).
Proof.
  apply careful_guarded. intros Hs. destruct (EncodeIndex idx); [|done].
  apply careful_check; [apply careful_putResource; intros; by eapply op_index|done].
Qed.

(** *** Deleted cells *)

Lemma careful_pageInfos keys : careful replicaOp (pageInfos (C := C) (M := Manager) keys).
Proof.
  induction keys as [|k keys IH]; [done|]. cbn [pageInfos]. apply careful_bind; [by intros K|]. intros r.
  by apply careful_bind.
Qed.

Lemma careful_listPage prefix after limit :
  careful replicaOp (ListObjectsPage (C := C) (M := Manager) resourceObjects prefix after limit).
Proof.
  unfold ListObjectsPage. destruct (objErr _); [done|]. destruct (negb _ || _); [done|].
  apply careful_bind; [by intros K|]. intros [keys|e]; [|done]. destruct (cutPage _ _ _ _) as [page next].
  by apply careful_bind; [apply careful_pageInfos|].
Qed.

Lemma careful_purgeItems s floor items :
  Validate s = Ok tt → resourceClass s = true → careful replicaOp (purgeItems (C := C) s floor items).
Proof.
  intros Hs Hr. induction items as [|item items IH]; [done|]. cbn [purgeItems].
  destruct (resourceObjectEpoch s (Key item)) as [epoch|] eqn:He; [|done]. case_decide; [done|].
  apply careful_check; [|done]. apply careful_onObjects, careful_write. by eapply op_purged.
Qed.

Lemma careful_PurgeResource s job max : careful replicaOp (PurgeResource (C := C) s job max).
Proof.
  apply careful_locked. intros K. eapply knows_check; [apply knows_fresh|done|]. intros K1 [f e] _ (Hs & Hf & _).
  destruct (rfDeleted f) eqn:Hd; [|done]. simpl negb. case_bool_decide as Hj; [done|]. simpl orb. cbn iota.
  assert (resourceClass s = true) as Hr.
  { destruct (resourceClass s) eqn:E; [done|]. simpl in Hf. rewrite (Hf E) in Hd. done. }
  eapply (knows_check _ (λ _ _, True)); [apply careful_onObjects, careful_listPage|done|]. intros K2 [items next] _ _.
  eapply (knows_check _ (λ _ _, True)); [by apply careful_purgeItems|done|]. done.
Qed.

Lemma careful_itemETag item : careful replicaOp (itemETag (C := C) item).
Proof. unfold itemETag. case_decide; [|done]. apply careful_check; [apply careful_GetVersion|]. by intros [d e]. Qed.

Lemma careful_sweepItems s floor items :
  Validate s = Ok tt → resourceClass s = true → careful replicaOp (sweepItems (C := C) s floor items).
Proof.
  intros Hs Hr. induction items as [|item items IH]; [done|]. cbn [sweepItems].
  destruct (resourceObjectEpoch s (Key item)) as [epoch|] eqn:He; [|done]. case_decide; [done|].
  apply careful_bind; [apply careful_itemETag|]. intros [e|e].
  - apply careful_bind; [apply careful_write; by eapply op_purged|].
    intros [e'|e']; [done|]. destruct e' as [| | |e']; try done. by destruct e'.
  - destruct e as [| | |e]; try done. by destruct e.
Qed.

Lemma careful_SweepRetired s job floor after :
  Validate s = Ok tt → job ≠ EmptyString → careful replicaOp (SweepRetired order rounds (C := C) s job floor after).
Proof.
  intros Hs Hj K. unfold SweepRetired. eapply knows_check; [apply knows_readFence|done|]. intros K1 [f e] _ Hf.
  case_decide as Hd; [done|].
  assert (resourceClass s = true) as Hr.
  { destruct (resourceClass s) eqn:E; [done|]. simpl in Hf. rewrite (Hf E) in Hd. cbn in Hd. destruct Hd. by left. }
  eapply (knows_check _ (λ _ _, True)); [apply careful_onObjects, careful_listPage|done|]. intros K2 [items next] _ _.
  eapply (knows_check _ (λ _ _, True)); [by apply careful_sweepItems|done|]. done.
Qed.
End knows.

(** ** What follows from the writes *)

(** The segments of cells that cannot be deleted. *)
#[global] Instance segmentOf : Permanent := λ k,
  ∃ s epoch name, Validate s = Ok tt ∧ resourceClass s = false ∧ k = LtxPrefix s epoch +:+ name
    ∧ isSegmentKey k = true.

Lemma batch_permanent s epoch hs :
  Validate s = Ok tt → resourceClass s = false → hs ≠ [] → perm (LtxPrefix s epoch +:+ batchName hs).
Proof.
  intros Hs Hr Hne. exists s, epoch, (batchName hs). split_and!; try done.
  rewrite isSegmentKey_ltx by apply batchName_slash. by apply isSegmentKey_batchName.
Qed.

Lemma batchHeaders_nonempty epoch segments hs : batchHeaders epoch segments = Ok hs → segments ≠ [] → hs ≠ [].
Proof. destruct segments as [|seg segments]; [done|]. simpl. intros E _. by inv_ok; subst. Qed.

(** Keys below a cell that can be deleted are below no other. *)
Lemma scope_unique s s' rest rest' :
  Validate s = Ok tt → Validate s' = Ok tt → scopeKey s +:+ "/" +:+ rest = scopeKey s' +:+ "/" +:+ rest' →
  s = s' ∧ rest = rest'.
Proof.
  intros Hs Hs' E. pose proof (scopeKey_disjoint _ _ _ _ Hs Hs' E) as ->. split; [done|].
  apply (f_equal (cutPrefix (scopeKey s' +:+ "/"))) in E. rewrite !string_app_assoc, !cutPrefix_app in E.
  by injection E.
Qed.

Lemma replicaOp_creates `{Etag} `{replicaCodec} op : replicaOp op → onlyCreates op.
Proof.
  intros Hop (s' & epoch & name & Hs' & Hr' & E & Hk). destruct Hop as [k d|s d f f' Hs|op a b Eb Hb Hseg|op s rest Hs Hr Er].
  - done.
  - simpl in *. unfold resourceFenceKey in Hk. change "/resource-fence.v2" with ("/" +:+ "resource-fence.v2") in Hk.
    rewrite isSegmentKey_base in Hk; vm_compute in *; intuition congruence.
  - rewrite Eb, isSegmentKey_base in Hk; congruence.
  - exfalso. rewrite Er in E. unfold LtxPrefix in E. rewrite <-!string_app_assoc in E.
    change ("/ltx/e" +:+ ?x) with ("/" +:+ "ltx/e" +:+ x) in E.
    apply scope_unique in E as [<- _]; [congruence|done..].
Qed.

Definition fenceDiscipline `{replicaCodec} : Discipline := {|
  dKey k := ∃ s, Validate s = Ok tt ∧ resourceClass s = true ∧ k = resourceFenceKey s;
  dOk _ _ := True;
  dMove _ d d' := ∃ f f' : resourceFence, unmarshal d = Some f ∧ d' = marshal f' ∧ fenceStep f f';
  dGone _ _ := False;
|}.

Lemma replicaOp_fences `{Etag} `{replicaCodec} op : replicaOp op → @goodWrite _ fenceDiscipline op.
Proof.
  intros Hop (s' & Hs' & Hr' & E). unfold resourceFenceKey in E.
  change "/resource-fence.v2" with ("/" +:+ fenceName) in E.
  destruct Hop as [k d|s d f f' Hs Hd Hf|op a b Eb Hb Hseg Hne|op s rest Hs Hr Er].
  - done.
  - simpl. exists d. split_and!; [done|by exists f, f'|done].
  - exfalso. rewrite Eb in E. apply (f_equal baseName) in E.
    rewrite !baseName_app in E; [congruence|vm_compute; intuition congruence|done].
  - exfalso. rewrite Er in E. change ("/ltx/e" +:+ ?x) with ("/" +:+ "ltx/e" +:+ x) in E.
    by apply scope_unique in E as [_ E].
Qed.

(** *** Threads *)

(** The appends that a thread reports as done. *)
Abbreviation claim := (Scope * Z * list bytes)%type.

Definition truthful (K : list (string * bytes)) (claims : list claim) : Prop :=
  ∀ s epoch segments, (s, epoch, segments) ∈ claims → appended s epoch segments K.

Section threads.
Context `{Etag} `{replicaCodec} (order : list string → list string) (rounds : nat) {C : Type}.
Abbreviation prog := (prog C Manager).

(** The operations of a manager whose success says nothing about segments. *)
Inductive replicaCall : ∀ {A : Type}, prog A → Prop :=
| call_AppendL1 s epoch segment : replicaCall (AppendL1 order rounds s epoch segment)
| call_MarkEpoch s epoch cut : replicaCall (MarkEpoch order rounds s epoch cut)
| call_PutManifest s epoch man : replicaCall (PutManifest order rounds s epoch man)
| call_PutIndex s epoch idx : replicaCall (PutIndex order rounds s epoch idx)
| call_MarkSnapshotStarted s epoch txid : replicaCall (MarkSnapshotStarted s epoch txid)
| call_MarkSnapshotDone s epoch txid : replicaCall (MarkSnapshotDone s epoch txid)
| call_ClearSnapshotStarted s epoch txid : replicaCall (ClearSnapshotStarted s epoch txid)
| call_BlockResource s job : replicaCall (BlockResource s job)
| call_FenceResource s job epoch : replicaCall (FenceResource s job epoch)
| call_AllowResource s job : replicaCall (AllowResource s job)
| call_Refresh s : replicaCall (RefreshResourceSnapshot order rounds s)
| call_Read s : replicaCall (readResourceFence order rounds s)
| call_Purge s job max : replicaCall (PurgeResource s job max)
| call_Sweep s job floor after :
    Validate s = Ok tt → job ≠ EmptyString → replicaCall (SweepRetired order rounds s job floor after)
| call_Restore s epoch : replicaCall (RestoreEpoch order rounds s epoch)
| call_RestoreChain s maxEpoch : replicaCall (RestoreChain order rounds s maxEpoch)
| call_Compact compression paged s epoch opts :
    opOffline opts = false → replicaCall (CompactEpoch order rounds compression paged s epoch opts).

Inductive replicaThread : prog (list claim) → Prop :=
| run_Append s epoch segment :
    replicaThread (r ← Append order rounds s epoch segment;
                   mret (match r with Ok _ => [(s, epoch, [segment])] | Err _ => [] end))
| run_AppendBatch s epoch segments :
    replicaThread (r ← AppendBatch order rounds s epoch segments;
                   mret (match r with Ok _ => [(s, epoch, segments)] | Err _ => [] end))
| run_call {A} (p : prog A) : replicaCall p → replicaThread (p ≫= λ _, mret [])
| run_other p : knows replicaOp truthful [] p → replicaThread p.

Definition replicaAction (x : action C Manager (list claim)) : Prop :=
  match x with Spawn _ p => replicaThread p | _ => True end.

Lemma careful_closed : closed (C := C) (λ R, careful replicaOp).
Proof. split; [intros R p; apply silent_careful|]. intros A B p g. apply careful_bind. Qed.

Lemma replicaCall_careful {A} (p : prog A) : replicaCall p → careful replicaOp p.
Proof.
  destruct 1.
  - apply careful_AppendL1.
  - apply careful_MarkEpoch.
  - apply careful_PutManifest.
  - apply careful_PutIndex.
  - apply careful_raw. eapply op_mark; [done|by left].
  - apply careful_raw. eapply op_mark; [done|by right].
  - apply careful_raw. eapply op_mark; [done|by left].
  - apply careful_Block.
  - apply careful_Fence.
  - apply careful_Allow.
  - apply careful_check; [apply careful_readFenceRounds|done].
  - apply careful_readFence.
  - apply careful_PurgeResource.
  - by apply careful_SweepRetired.
  - apply closed_RestoreEpoch; [apply careful_closed|apply careful_readFence].
  - apply closed_RestoreChain; [apply careful_closed|apply careful_readFence].
  - apply (closed_CompactEpoch order rounds compression paged opts ltac:(done) (λ R, careful replicaOp) careful_closed);
      [apply careful_readFence|..].
    + apply careful_AppendL1.
    + apply careful_PutIndex.
    + apply careful_PutManifest.
Qed.

Lemma truthful_nil K : truthful K [].
Proof. intros s epoch segments ?%elem_of_nil. done. Qed.

Lemma truthful_one K s epoch segments : appended s epoch segments K → truthful K [(s, epoch, segments)].
Proof. by intros Ha s' e' x [= -> -> ->]%list_elem_of_singleton. Qed.

Lemma replicaThread_truthful p : replicaThread p → knows replicaOp truthful [] p.
Proof.
  destruct 1 as [s epoch segment|s epoch segments|A p Hp|p Hp].
  - eapply knows_bind; [apply knows_Append|]. intros K [r|e] _ Ha; [by apply truthful_one|apply truthful_nil].
  - eapply knows_bind; [apply knows_AppendBatch|]. intros K [r|e] _ Ha; [by apply truthful_one|apply truthful_nil].
  - eapply (knows_bind _ (λ _ _, True)); [by apply replicaCall_careful|]. intros K x _ _. apply truthful_nil.
  - done.
Qed.

Lemma replicaAction_honest xs : Forall replicaAction xs → Forall (honest replicaOp truthful) xs.
Proof.
  intros Hxs. eapply Forall_impl; [exact Hxs|]. intros [| i p | |]; try done. apply replicaThread_truthful.
Qed.

Lemma replicaAction_tidy xs : Forall replicaAction xs → Forall (@tidy _ fenceDiscipline C Manager _) xs.
Proof.
  intros Hxs. eapply Forall_impl; [exact Hxs|]. intros [| i p | |]; try done. simpl. intros Hp.
  apply (careful_keeps replicaOp); [apply replicaOp_fences|]. intros K.
  eapply knows_mono; [| |by apply replicaThread_truthful]; [set_solver|done].
Qed.

(** An append that was reported is there. *)
Lemma appended_stored xs w n i claims s epoch segments :
  Forall replicaAction xs → acts xs emptyWorld = Some w → wThreads w !! n = Some (i, Ret claims) →
  (s, epoch, segments) ∈ claims → resourceClass s = false →
  ∃ hs, batchHeaders epoch segments = Ok hs ∧ wStore w !! (LtxPrefix s epoch +:+ batchName hs) = Some (concat segments).
Proof.
  intros Hxs Hacts Hn Hin Hr.
  destruct (claims_hold replicaOp replicaOp_creates truthful xs w n i claims) as (K & Ht & HK);
    [by apply replicaAction_honest|done..|].
  destruct (Ht _ _ _ Hin) as (Hs & Hne & hs & Hh & HinK). exists hs. split; [done|]. apply HK; [done|].
  apply batch_permanent; [done..|]. by eapply batchHeaders_nonempty.
Qed.

Lemma fence_moves xs x w w' s d f :
  Forall replicaAction (xs ++ [x]) → acts xs emptyWorld = Some w → act x w = Some w' →
  Validate s = Ok tt → resourceClass s = true →
  wStore w !! resourceFenceKey s = Some d → unmarshal d = Some f →
  ∃ d' f', wStore w' !! resourceFenceKey s = Some d' ∧ unmarshal d' = Some f' ∧ fenceStep f f'.
Proof.
  intros Hxs Hacts Hact Hs Hr Hd Hf.
  destruct (@run_moved _ fenceDiscipline C Manager _ xs x w w' (replicaAction_tidy _ Hxs) Hacts Hact (resourceFenceKey s) d)
    as [Hd'|[(d' & Hd' & (f0 & f' & E & -> & Hstep))|[_ []]]]; [by exists s|done| |].
  - exists d, f. split_and!; [done..|apply step_same].
  - exists (marshal f'), f'. rewrite unmarshal_marshal. split_and!; [done..|]. congruence.
Qed.
End threads.

(** ** Writes to a deleted cell *)

(** The fence of the cell in the bucket blocks the epoch: the cell is being deleted, or was deleted at
    that epoch or a later one. *)
Definition blocked `{replicaCodec} (s : Scope) (epoch : Z) (st : store) : Prop :=
  ∃ d f, st !! resourceFenceKey s = Some d ∧ unmarshal d = Some f
    ∧ (rfDeleted f = true ∨ rfJob f ≠ EmptyString ∧ epoch ≤ rfEpoch f).

Lemma fenceBlocks_iff f epoch :
  fenceBlocks f epoch = true ↔ rfDeleted f = true ∨ rfJob f ≠ EmptyString ∧ epoch ≤ rfEpoch f.
Proof. unfold fenceBlocks. by rewrite orb_true_iff, andb_true_iff, !bool_decide_eq_true. Qed.

Section blocked.
Context `{Etag} `{replicaCodec} (order : list string → list string) (rounds : nat) {C : Type}.

(** A read of the fence finds it, or fails. *)
Lemma within_fresh s epoch :
  Validate s = Ok tt → resourceClass s = true →
  within (C := C) (M := Manager) (blocked s epoch)
    (λ r, match r with Ok (f, _) => fenceBlocks f epoch = true | Err _ => True end) (readResourceFenceFresh s).
Proof.
  intros Hs Hr. unfold readResourceFenceFresh. rewrite Hs, Hr. simpl negb. cbn iota.
  eapply (within_bind _ (λ r, match r with
    | Ok (d, _) => ∃ f, unmarshal d = Some f ∧ fenceBlocks f epoch = true
    | Err e => e ≠ ErrObject ErrNotFound end)).
  - unfold GetVersion. destruct (objectKey _ _) as [k|e] eqn:Hk; [|simpl].
    + apply objectKey_Ok in Hk as (-> & _). split; [|intros e He; simpl; congruence].
      intros st (d & f & Hd & Hf & Hb%fenceBlocks_iff). unfold fetch. rewrite Hd. simpl. eauto.
    + unfold objectKey in Hk. change (objErr resourceObjects) with (@None objectsError) in Hk.
      repeat case_match; congruence.
  - intros [[d e]|e].
    + intros (f & Hf & Hb). simpl. by rewrite Hf.
    + intros Hne. destruct e as [| | |e]; try done. by destruct e.
Qed.

Lemma within_guarded {A} s epoch (body : prog C Manager (result replicaError A)) :
  Validate s = Ok tt → resourceClass s = true →
  within (C := C) (blocked s epoch) (λ r, ∃ e, r = Err e) (guarded s epoch body).
Proof.
  intros Hs Hr. unfold guarded. eapply (within_bind _ (λ _, True)); [done|]. intros _ _.
  eapply within_bind; [by apply within_fresh|]. intros r Hb.
  eapply (within_bind _ (λ r, ∃ e, r = Err e)); [|by intros x Hx ?].
  destruct r as [[f e]|e]; [|by eexists]. cbn beta iota in Hb. rewrite Hb. by eexists.
Qed.
End blocked.

(** ** Properties *)

(** C2: an acknowledged segment stays: in every run of any number of replica managers, with
    calls failing and writes lost or late, whenever an append has returned success
    for a cell that cannot be deleted, the bucket holds the appended bytes under
    the canonical name of their headers, at that moment and at every later one. No
    append, online compaction, restore, manifest, fence change, purge or sweep takes
    it away or changes it. *)
Theorem acknowledged_segment_stays `{Etag} `{replicaCodec} {C : Type} order rounds xs
    (w : world C Manager (list claim)) n i claims s epoch segments :
  Forall (replicaAction order rounds) xs → acts xs emptyWorld = Some w → wThreads w !! n = Some (i, Ret claims) →
  (s, epoch, segments) ∈ claims → resourceClass s = false →
  ∃ hs, batchHeaders epoch segments = Ok hs ∧ wStore w !! (LtxPrefix s epoch +:+ batchName hs) = Some (concat segments).
Proof. apply appended_stored. Qed.

(** C12: a cell's deletion fence only moves forward: in every run, a step never removes it, never
    lowers the epoch up to which it blocks, and while a deletion is under way
    never changes whose deletion it is; a new deletion starts under another identity
    than the last one. *)
Theorem fence_forward `{Etag} `{replicaCodec} {C : Type} order rounds xs x
    (w w' : world C Manager (list claim)) s d f :
  Forall (replicaAction order rounds) (xs ++ [x]) → acts xs emptyWorld = Some w → act x w = Some w' →
  Validate s = Ok tt → resourceClass s = true →
  wStore w !! resourceFenceKey s = Some d → unmarshal d = Some f →
  ∃ d' f', wStore w' !! resourceFenceKey s = Some d' ∧ unmarshal d' = Some f'
    ∧ rfEpoch f ≤ rfEpoch f' ∧ (rfDeleted f = true → rfJob f' = rfJob f)
    ∧ (rfDeleted f = false → rfDeleted f' = true → rfJob f' ≠ rfJob f).
Proof.
  intros Hxs Hacts Hact Hs Hr Hd Hf.
  destruct (fence_moves order rounds xs x w w' s d f) as (d' & f' & Hd' & Hf' & Hstep); [done..|].
  exists d', f'. split_and!; [done..| | |]; destruct Hstep; simpl; (lia || congruence).
Qed.

(** The threads that append to a cell. *)
Inductive appendThread `{replicaCodec} {C : Type} order rounds (s : Scope) (epoch : Z) : prog C Manager (list claim) → Prop :=
| append_one segment :
    appendThread order rounds s epoch (r ← Append order rounds s epoch segment;
                   mret (match r with Ok _ => [(s, epoch, [segment])] | Err _ => [] end))
| append_batch segments :
    appendThread order rounds s epoch (r ← AppendBatch order rounds s epoch segments;
                   mret (match r with Ok _ => [(s, epoch, segments)] | Err _ => [] end)).

(** C11: a deleted cell is not written: as long as the fence in the bucket blocks the epoch, a
    thread that starts to append to the cell under that epoch never makes a write,
    whatever the other nodes do meanwhile, and reports no append when it ends. *)
Theorem deleted_cell_not_written `{Etag} `{replicaCodec} {C : Type} order rounds xs
    (w w' : world C Manager (list claim)) n i s epoch p :
  Validate s = Ok tt → resourceClass s = true → appendThread order rounds s epoch p →
  wThreads w !! n = Some (i, p) → acts xs w = Some w' → throughout (blocked s epoch) xs w →
  ∃ p', wThreads w' !! n = Some (i, p') ∧ (∀ op k, p' ≠ Do op k) ∧ (∀ claims, p' = Ret claims → claims = []).
Proof.
  intros Hs Hr Hp Hn Hacts Ht.
  destruct (within_acts (blocked s epoch) (λ claims, claims = []) xs w w' n i p) as (p' & Hn' & Hp'); try done.
  { destruct Hp; (eapply within_bind; [by apply within_guarded|]); by intros r [e ->]. }
  exists p'. split_and!; [done|by intros op k ->|by intros claims ->].
Qed.

(** *** Runs *)

#[global] Instance resourceFence_countable : Countable resourceFence.
Proof. refine (inj_countable' (λ f, (rfJob f, rfDeleted f, rfEpoch f)) (λ '(a, b, c), MkResFence a b c) _). by intros []. Defined.
#[global] Instance Manifest_countable : Countable Manifest.
Proof.
  refine (inj_countable' (λ m, (mnEpoch m, mnMinTxID m, mnMaxTxID m, mnCommit m, mnPageSize m, mnObjects m, mnCreatedMs m))
    (λ '(a, b, c, d, e, f, g), MkManifest a b c d e f g) _). by intros [].
Defined.

Lemma bitBytes_small p : Forall (λ b, b = x00 ∨ b = x01) (bitBytes p).
Proof. induction p as [p IH|p IH|]; simpl; constructor; auto. Qed.

(** The bits of a value, and the empty object for no fence. *)
Definition exampleReplicaCodec : replicaCodec.
Proof.
  refine {| fence_codec := {| marshal f := bitBytes (encode f);
                              unmarshal d := if decide (d = bs "{}") then Some noFence else decode (bytesBits d) |};
            manifest_codec := bitCodec Manifest; jsonValid _ := true |}.
  - done.
  - done.
  Unshelve. intros f. rewrite decide_False; [by rewrite bytesBits_bitBytes, decode_encode|].
  intros E. pose proof (bitBytes_small (encode f)) as Hs. rewrite E in Hs. apply Forall_inv in Hs. by destruct Hs.
Defined.

Section runs.
#[local] Existing Instance contentTag.
#[local] Existing Instance exampleReplicaCodec.

Definition exampleRoom : Scope := MkScope "app" "Room" "a".
Definition exampleKv : Scope := MkScope "app" "__kv__" "main".
Definition exampleSegment (tx : Z) : bytes := Encode (MkHeader 1 KindDelta 0 7 tx tx 0 0) (bs "page").

Abbreviation exampleAction := (action Empty_set Manager (list claim)).

(** A batch is appended; then the same segment comes again, alone, from a second process. *)
Definition appendRun : list exampleAction :=
  let xs := [Boot newManager; Boot newManager;
             Spawn 0 (r ← AppendBatch id 1 exampleRoom 7 [exampleSegment 1; exampleSegment 2];
                      mret (match r with Ok _ => [(exampleRoom, 7, [exampleSegment 1; exampleSegment 2])] | Err _ => [] end));
             Spawn 1 (r ← Append id 1 exampleRoom 7 (exampleSegment 1);
                      mret (match r with Ok _ => [(exampleRoom, 7, [exampleSegment 1])] | Err _ => [] end))] in
  let ys := xs ++ finish 0 (MkTime 0 5000000) (after xs) in
  ys ++ finish 1 (MkTime 0 9000000) (after ys).

Lemma appendRun_ok : Forall (replicaAction id 1) appendRun.
Proof.
  unfold appendRun. apply Forall_app. split; [apply Forall_app; split; [|by apply finish_ok]|by apply finish_ok].
  do 2 (apply Forall_cons_2; [exact I|]). apply Forall_cons_2; [apply run_AppendBatch|].
  apply Forall_cons_2; [apply run_Append|apply Forall_nil_2].
Qed.

Lemma acknowledged_segment_stays_witness :
  ∃ hs, batchHeaders 7 [exampleSegment 1; exampleSegment 2] = Ok hs
    ∧ wStore (after appendRun) !! (LtxPrefix exampleRoom 7 +:+ batchName hs) = Some (concat [exampleSegment 1; exampleSegment 2]).
Proof.
  apply (acknowledged_segment_stays id 1 appendRun (after appendRun) 0 0 [(exampleRoom, 7, [exampleSegment 1; exampleSegment 2])]).
  - apply appendRun_ok.
  - apply acts_after. vm_compute. reflexivity.
  - vm_compute. reflexivity.
  - by apply list_elem_of_singleton.
  - vm_compute. reflexivity.
Defined.

(** A key-value store is being deleted. *)
Definition blockRun : list exampleAction :=
  let xs := [Boot newManager; Spawn 0 (BlockResource exampleKv "job1" ≫= λ _, mret []);
             Spawn 0 (FenceResource exampleKv "job1" 7 ≫= λ _, mret [])] in
  let ys := xs ++ finish 0 (MkTime 0 5000000) (after xs) in
  ys ++ finish 1 (MkTime 0 9000000) (after ys).

Lemma blockRun_ok : Forall (replicaAction id 1) blockRun.
Proof.
  unfold blockRun. apply Forall_app. split; [apply Forall_app; split; [|by apply finish_ok]|by apply finish_ok].
  apply Forall_cons_2; [exact I|]. apply Forall_cons_2; [apply run_call, call_BlockResource|].
  apply Forall_cons_2; [apply run_call, call_FenceResource|apply Forall_nil_2].
Qed.

Lemma fence_forward_witness :
  ∃ d' f', wStore (after (take 13 blockRun ++ [Run 1 RDone])) !! resourceFenceKey exampleKv = Some d' ∧ unmarshal d' = Some f'
    ∧ 0 ≤ rfEpoch f' ∧ (true = true → rfJob f' = "job1") ∧ (true = false → rfDeleted f' = true → rfJob f' ≠ "job1").
Proof.
  apply (fence_forward id 1 (take 13 blockRun) (Run 1 RDone) (after (take 13 blockRun))
    (after (take 13 blockRun ++ [Run 1 RDone])) exampleKv (marshal (MkResFence "job1" true 0)) (MkResFence "job1" true 0)).
  - apply Forall_app. split; [apply Forall_take, blockRun_ok|by repeat constructor].
  - apply acts_after. vm_compute. reflexivity.
  - apply act_after. vm_compute. reflexivity.
  - vm_compute. reflexivity.
  - vm_compute. reflexivity.
  - vm_compute. reflexivity.
  - vm_compute. reflexivity.
Defined.

Definition blockedb (s : Scope) (epoch : Z) (st : store) : bool :=
  match st !! resourceFenceKey s with
  | Some d => match unmarshal d with Some f => fenceBlocks f epoch | None => false end
  | None => false
  end.

Lemma blockedb_ok s epoch st : blockedb s epoch st = true → blocked s epoch st.
Proof.
  unfold blockedb, blocked. destruct (st !! resourceFenceKey s) as [d|]; [|done].
  destruct (unmarshal d) as [f|] eqn:E; [|done]. intros Hb%fenceBlocks_iff. eauto.
Qed.

(** Someone appends to the store that is being deleted. *)
Definition lateAppend : prog Empty_set Manager (list claim) :=
  r ← Append id 1 exampleKv 7 (exampleSegment 1);
  mret (match r with Ok _ => [(exampleKv, 7, [exampleSegment 1])] | Err _ => [] end).

Definition lateWorld : world Empty_set Manager (list claim) :=
  let w := after blockRun in
  MkWorld (wStore w) (wHist w) (wPending w) (wProcs w) (wThreads w ++ [(0%nat, lateAppend)]).
Definition lateRun : list exampleAction := finish 2 (MkTime 0 11000000) lateWorld.
Definition lateEnd : world Empty_set Manager (list claim) := default emptyWorld (acts lateRun lateWorld).

Lemma lateRun_acts : acts lateRun lateWorld = Some lateEnd.
Proof.
  assert (bool_decide (is_Some (acts lateRun lateWorld)) = true) as [w E]%bool_decide_eq_true by (vm_compute; reflexivity).
  unfold lateEnd. by rewrite E.
Qed.

Lemma lateWorld_thread : wThreads lateWorld !! 2%nat = Some (0%nat, lateAppend).
Proof.
  assert (length (wThreads (after blockRun)) = 2%nat) as E by (vm_compute; reflexivity).
  unfold lateWorld. cbn [wThreads]. rewrite <-E. apply list_lookup_middle. done.
Qed.

Lemma lateRun_blocked : throughout (blocked exampleKv 7) lateRun lateWorld.
Proof. apply (throughoutb_ok _ (blockedb exampleKv 7)); [apply blockedb_ok|]. vm_compute. reflexivity. Qed.

Lemma deleted_cell_not_written_witness :
  ∃ p', wThreads lateEnd !! 2%nat = Some (0%nat, p')
    ∧ (∀ op k, p' ≠ Do op k) ∧ (∀ claims, p' = Ret claims → claims = []).
Proof.
  apply (deleted_cell_not_written id 1 lateRun lateWorld lateEnd 2 0 exampleKv 7 lateAppend).
  - vm_compute. reflexivity.
  - vm_compute. reflexivity.
  - apply append_one.
  - apply lateWorld_thread.
  - apply lateRun_acts.
  - apply lateRun_blocked.
Defined.
End runs.

(** *** A limit *)

(** Only the last deletion is remembered: after a second deletion was allowed, the identity of the first
    one blocks the cell again. *)
Example identity_comes_back :
  (f ←ᵣ blockChange "first" (MkResFence EmptyString false 0); f ←ᵣ allowChange "first" f;
   f ←ᵣ blockChange "second" f; f ←ᵣ allowChange "second" f; blockChange "first" f)
  = Ok (MkResFence "first" true 0).
Proof. vm_compute. reflexivity. Qed.
