(* ===== verification/Restored.v ===== *)
(** * What a restore returns

    The reading side of the replica manager against a bucket that does not change
    meanwhile, for cells without a deletion fence (all but KV and queue cells): every segment that was stored is returned by a restore that succeeds,
    unless the manifest covers it or it belongs to a snapshot that was never
    finished; nothing is returned twice; and what the restore over several epochs
    returns is a valid chain whenever some epoch has a snapshot. *)

From S2P Require Import Prelude Ltx PageMap SnapshotParts Chain Restore Paging Cell Bucket Fleet Objects Decimal.
From S2P Require Import Names Index Replica Epochs Discipline Permanent ReplicaFleet.

Section alone.
Context `{Etag} `{replicaCodec} (order : list string → list string) (rounds : nat) {C : Type} (t : time) (cb : C → bool).
Abbreviation prog := (prog C Manager).

(** A program that ran alone and succeeded. *)
Definition gives {E A} (p : prog (result E A)) (st : store) (m : Manager) (st' : store) (m' : Manager) (a : A) : Prop :=
  alone t cb p st m = Some (st', m', Ok a).

Lemma gives_check {E A B} (p : prog (result E A)) (k : A → prog (result E B)) st m st' m' b :
  gives (check p k) st m st' m' b ↔ ∃ st1 m1 a, gives p st m st1 m1 a ∧ gives (k a) st1 m1 st' m' b.
Proof.
  unfold gives. rewrite alone_check. destruct (alone t cb p st m) as [[[st1 m1] [a|e]]|]; simpl; split; try done.
  - intros E1. by exists st1, m1, a.
  - by intros (? & ? & ? & [= -> -> ->] & ?).
  - by intros (? & ? & ? & ? & ?).
  - by intros (? & ? & ? & ? & ?).
Qed.

Lemma gives_ret {E A} (r : result E A) st m st' m' a : gives (mret r) st m st' m' a ↔ st' = st ∧ m' = m ∧ r = Ok a.
Proof. unfold gives. simpl. naive_solver. Qed.

(** Reading one object. *)
Lemma gives_onReplica {A} (p : prog (result replicaError A)) st m st' m' a :
  gives (onReplica p) st m st' m' a ↔ gives p st m st' m' a.
Proof.
  unfold gives, onReplica. rewrite alone_mbind. destruct (alone t cb p st m) as [[[st1 m1] [x|e]]|]; simpl; naive_solver.
Qed.

Lemma gives_onBucket {A} (p : prog (result bucketError A)) st m st' m' a :
  gives (onBucket p) st m st' m' a ↔ gives p st m st' m' a.
Proof.
  unfold gives, onBucket. rewrite alone_mbind. destruct (alone t cb p st m) as [[[st1 m1] [x|e]]|]; simpl; naive_solver.
Qed.

Lemma gives_ReadSegment key st m st' m' raw :
  gives (ReadSegment key) st m st' m' raw ↔ st' = st ∧ m' = m ∧ st !! key = Some raw.
Proof.
  unfold gives, ReadSegment, onBucket. rewrite alone_check. simpl. unfold fetch. destruct (st !! key); simpl; naive_solver.
Qed.

Lemma gives_ReadManifest s epoch st m st' m' man :
  gives (ReadManifest s epoch) st m st' m' man ↔
  st' = st ∧ m' = m ∧ match st !! ManifestName s epoch with
                      | Some d => ∃ x, unmarshal d = Some x ∧ man = Some x
                      | None => man = None
                      end.
Proof.
  unfold gives, ReadManifest. rewrite alone_mbind. simpl. unfold fetch.
  destruct (st !! ManifestName s epoch) as [d|]; simpl; [destruct (unmarshal d)|]; naive_solver.
Qed.

Lemma gives_present key st m st' m' b :
  gives (present key) st m st' m' b ↔ st' = st ∧ m' = m ∧ b = bool_decide (is_Some (st !! key)).
Proof.
  unfold gives, present. rewrite alone_mbind. simpl. unfold fetch.
  destruct (st !! key); simpl; naive_solver.
Qed.

Lemma gives_listKeys prefix st m st' m' keys :
  gives (listKeys prefix) st m st' m' keys ↔ st' = st ∧ m' = m ∧ keys = keysOf prefix st.
Proof. unfold gives. simpl. naive_solver. Qed.

Lemma elem_of_keysOf prefix st k : k ∈ keysOf prefix st ↔ hasPrefix prefix k = true ∧ is_Some (st !! k).
Proof.
  unfold keysOf, sortKeys. rewrite merge_sort_Permutation, list_elem_of_filter, list_elem_of_fmap. split.
  - intros [Hp ([k' d] & -> & Hin)]. apply elem_of_map_to_list in Hin. by eauto.
  - intros [Hp [d Hd]]. split; [done|]. exists (k, d). split; [done|]. by apply elem_of_map_to_list.
Qed.

Lemma gives_ListL0 s epoch st m st' m' keys :
  gives (ListL0Segments s epoch) st m st' m' keys ↔
  st' = st ∧ m' = m ∧ keys = filter (λ k, isL0Key s epoch k = true) (keysOf (LtxPrefix s epoch) st).
Proof.
  unfold ListL0Segments, ListSegments. rewrite gives_check. split.
  - intros (st1 & m1 & ks & (-> & -> & ->)%gives_onBucket%gives_listKeys & (-> & -> & [= <-])%gives_ret). done.
  - intros (-> & -> & ->). eexists st, m, _. split; [by apply gives_onBucket, gives_listKeys|by apply gives_ret].
Qed.

(** The fence of a cell that cannot be deleted. *)
Lemma gives_noFence s st m st' m' r :
  resourceClass s = false → gives (readResourceFence order rounds s) st m st' m' r → st' = st ∧ m' = m ∧ r = (noFence, EmptyString).
Proof. intros Hr. unfold readResourceFence. rewrite Hr. by intros (-> & -> & [= <-])%gives_ret. Qed.

Lemma gives_readObjects keys st m st' m' objs :
  gives (readObjects keys) st m st' m' objs →
  st' = st ∧ m' = m ∧ objs.*1 = keys ∧ Forall (λ '(k, raw), st !! k = Some raw) objs.
Proof.
  revert objs. induction keys as [|k keys IH]; intros objs; cbn [readObjects].
  { intros (-> & -> & [= <-])%gives_ret. done. }
  intros (st1 & m1 & raw & (-> & -> & Hk)%gives_onReplica%gives_ReadSegment & Hg)%gives_check.
  apply gives_check in Hg as (st2 & m2 & rest & Hrest & (-> & -> & [= <-])%gives_ret).
  apply IH in Hrest as (-> & -> & <- & Hall). split_and!; [done..|]. by constructor.
Qed.

(** ** Gathering *)

Lemma Decode_wf raw h p : Decode raw = Ok (h, p) → wf_header h.
Proof. intros Hd. by destruct (ltx_sound _ _ _ Hd) as (_ & _ & _ & Hw). Qed.

Definition colon : Ascii.ascii := Ascii.Ascii false true false true true true false false.

Lemma cut_field a b c d :
  0 ≤ a → 0 ≤ c → fmt_d a +:+ String colon b = fmt_d c +:+ String colon d → a = c ∧ b = d.
Proof.
  intros Ha Hc E. apply (f_equal (cutAt colon)) in E. rewrite !cutAt_app in E by (by apply fmt_sepFree).
  injection E as E1 E2. by apply (inj fmt_d) in E1.
Qed.

(** An identity tells the fields it is made of. *)
Lemma ID_fields h h' :
  wf_header h → wf_header h' → ID h = ID h' →
  hEpoch h = hEpoch h' ∧ hKind h = hKind h' ∧ hStartTxID h = hStartTxID h' ∧ hEndTxID h = hEndTxID h' ∧ hCRC h = hCRC h'.
Proof.
  intros [_ K1 _ E1 S1 N1 _ _] [_ K2 _ E2 S2 N2 _ _]. unfold ID. change ":" with (String colon EmptyString).
  rewrite !append_cons. intros Eq. change (EmptyString +:+ ?s) with s in Eq.
  apply cut_field in Eq as [He Eq]; [|lia..]. apply cut_field in Eq as [Hk Eq]; [|lia..].
  apply cut_field in Eq as [Hs Eq]; [|lia..]. apply cut_field in Eq as [Hn Eq]; [|lia..].
  by apply (inj fmt_d) in Eq.
Qed.

(** A snapshot that was started and not finished. *)
Definition crashed (s : Scope) (epoch : Z) (st : store) (h : Header) : Prop :=
  hKind h = KindSnapshot ∧ is_Some (st !! SnapshotStartedName s epoch (hEndTxID h))
  ∧ st !! SnapshotDoneName s epoch (hEndTxID h) = None.

(** Folded into the compacted snapshot. *)
Definition folded (floor : Z) (h : Header) : Prop := 0 < floor ∧ hEndTxID h ≤ floor ∧ hKind h ≠ KindMarker.

Record gatherOk (s : Scope) (epoch : Z) (st : store) (floor : Z) (g : gather) : Prop := {
  gather_partial txid b : gaPartial g !! txid = Some b →
    b = bool_decide (is_Some (st !! SnapshotStartedName s epoch txid)) && bool_decide (st !! SnapshotDoneName s epoch txid = None);
  gather_nodup : NoDup ((λ sg, ID (sgHeader sg)) <$> gaSegments g);
  gather_decoded : Forall (λ sg, ∃ p, Decode (sgRaw sg) = Ok (sgHeader sg, p)) (gaSegments g);
  gather_known sg : sg ∈ gaSegments g → ID (sgHeader sg) ∈ gaSeen g;
  gather_seen x : x ∈ gaSeen g → (∃ sg, sg ∈ gaSegments g ∧ ID (sgHeader sg) = x) ∨ ∃ h, wf_header h ∧ ID h = x ∧ folded floor h;
}.

(** What gathering adds to. *)
Definition extends (g g' : gather) : Prop := gaSeen g ⊆ gaSeen g'.

Lemma gather_empty s epoch st floor : gatherOk s epoch st floor (MkGather ∅ ∅ None []).
Proof. split; simpl; [by intros ??; rewrite lookup_empty|apply NoDup_nil_2|done|by intros ? ?%elem_of_nil|set_solver]. Qed.

Lemma gives_skipPartial s epoch txid cache st m st' m' skip cache' :
  (∀ x b, cache !! x = Some b →
    b = bool_decide (is_Some (st !! SnapshotStartedName s epoch x)) && bool_decide (st !! SnapshotDoneName s epoch x = None)) →
  gives (skipPartialSnapshot s epoch txid cache) st m st' m' (skip, cache') →
  st' = st ∧ m' = m
  ∧ skip = bool_decide (is_Some (st !! SnapshotStartedName s epoch txid)) && bool_decide (st !! SnapshotDoneName s epoch txid = None)
  ∧ (∀ x b, cache' !! x = Some b →
    b = bool_decide (is_Some (st !! SnapshotStartedName s epoch x)) && bool_decide (st !! SnapshotDoneName s epoch x = None)).
Proof.
  intros Hc. unfold skipPartialSnapshot. destruct (cache !! txid) as [b|] eqn:Eb.
  { intros (-> & -> & [= <- <-])%gives_ret. split_and!; [done..|by apply Hc|done]. }
  intros (st1 & m1 & started & (-> & -> & ->)%gives_onReplica%gives_present & Hg)%gives_check.
  case_bool_decide as Hs; cbn [negb] in Hg.
  - apply gives_check in Hg as (st2 & m2 & done & (-> & -> & ->)%gives_onReplica%gives_present & (-> & -> & [= <- <-])%gives_ret).
    assert (negb (bool_decide (is_Some (st !! SnapshotDoneName s epoch txid))) = bool_decide (st !! SnapshotDoneName s epoch txid = None)) as ->.
    { rewrite <-bool_decide_not. apply bool_decide_ext. by rewrite <-eq_None_not_Some. }
    split_and!; [done..|]. intros x b. rewrite lookup_insert_Some. intros [[<- <-]|[_ Hx]]; [|by apply Hc].
    by rewrite (bool_decide_eq_true_2 (is_Some _)).
  - apply gives_ret in Hg as (-> & -> & [= <- <-]). split_and!; [done..|]. intros x b.
    rewrite lookup_insert_Some. intros [[<- <-]|[_ Hx]]; [|by apply Hc]. by rewrite (bool_decide_eq_false_2 (is_Some _)).
Qed.

Lemma gives_dropPartial s epoch man l1 h g st m st' m' drop g' floor :
  gatherOk s epoch st floor g →
  gives (dropPartial s epoch man l1 h g) st m st' m' (drop, g') →
  st' = st ∧ m' = m ∧ gatherOk s epoch st floor g' ∧ gaSeen g' = gaSeen g ∧ gaSegments g' = gaSegments g
  ∧ (drop = true → crashed s epoch st h).
Proof.
  intros Hg. unfold dropPartial. case_decide as Hk.
  { intros (-> & -> & [= <- <-])%gives_ret. split_and!; done. }
  intros (st1 & m1 & [skip cache] & Hskip & Hrest)%gives_check.
  apply gives_skipPartial in Hskip as (-> & -> & Eskip & Hcache); [|apply Hg].
  set (g1 := MkGather (gaSeen g) cache (gaComplete g) (gaSegments g)) in *.
  assert (∀ c, gatherOk s epoch st floor (MkGather (gaSeen g) cache c (gaSegments g))) as Hg1.
  { intros c. destruct Hg. by split. }
  assert (skip = true → crashed s epoch st h) as Hcr.
  { intros ->. symmetry in Eskip. apply andb_true_iff in Eskip as [H1%bool_decide_eq_true H2%bool_decide_eq_true].
    done. }
  assert (∀ r c, gives (E:=epochError) (mret (Ok (r, MkGather (gaSeen g) cache c (gaSegments g)))) st m st' m' (drop, g') →
    (r = true → skip = true) →
    st' = st ∧ m' = m ∧ gatherOk s epoch st floor g' ∧ gaSeen g' = gaSeen g ∧ gaSegments g' = gaSegments g
    ∧ (drop = true → crashed s epoch st h)) as Hout.
  { intros r c (-> & -> & [= <- <-])%gives_ret Hr. split_and!; eauto. }
  destruct skip; cbn [negb] in Hrest; [|by eapply Hout].
  destruct l1; cbn [negb] in Hrest; [|by eapply Hout].
  cbn [gaComplete g1] in Hrest. destruct (gaComplete g) as [b|]; [by eapply Hout|].
  destruct man as [man|]; [|by eapply Hout].
  apply gives_check in Hrest as (st2 & m2 & b & Hb & Hret).
  apply silent_alone in Hb as [-> ->]; [|apply silent_completeBaseline]. by eapply Hout.
Qed.

Lemma addSegment_ok s epoch st floor l1 key h raw p g :
  gatherOk s epoch st floor g → Decode raw = Ok (h, p) →
  gatherOk s epoch st floor (addSegment l1 floor key h raw g)
  ∧ extends g (addSegment l1 floor key h raw g) ∧ ID h ∈ gaSeen (addSegment l1 floor key h raw g).
Proof.
  intros [Hp Hn Hd Hk Hs] Hdec. unfold addSegment, extends. case_decide as Hin; [by split_and!|].
  destruct (negb l1 && _ && _ && _) eqn:Hf.
  - apply andb_true_iff in Hf as [[[_ H1%bool_decide_eq_true]%andb_true_iff H2%bool_decide_eq_true]%andb_true_iff H3%bool_decide_eq_true].
    split; [split; simpl; try done|split; simpl; set_solver].
    + intros sg Hsg. apply elem_of_union. right. by apply Hk.
    + intros x [->%elem_of_singleton|Hx]%elem_of_union; [right; exists h; split_and!; [by eapply Decode_wf|done..]|by apply Hs].
  - split; [split; simpl; try done|split; simpl; set_solver].
    + rewrite fmap_app. apply NoDup_app. split_and!; [done| |apply NoDup_singleton].
      intros x (sg & -> & Hsg)%list_elem_of_fmap [=Ex]%list_elem_of_singleton. apply Hin. rewrite <-Ex. by apply Hk.
    + apply Forall_app. split; [done|]. constructor; [by exists p|done].
    + intros sg [Hsg| ->%list_elem_of_singleton]%elem_of_app; [apply elem_of_union; right; by apply Hk|set_solver].
    + intros x [->%elem_of_singleton|Hx]%elem_of_union.
      * left. eexists. split; [apply elem_of_app; right; by apply list_elem_of_singleton|done].
      * destruct (Hs x Hx) as [(sg & Hsg & E)|Hfold]; [left|by right]. exists sg. split; [by apply elem_of_app; left|done].
Qed.

(** What became of a part. *)
Definition accounted (s : Scope) (epoch : Z) (st : store) (g : gather) (part : bytes) : Prop :=
  ∃ h p, Decode part = Ok (h, p) ∧ (ID h ∈ gaSeen g ∨ crashed s epoch st h).

Lemma accounted_mono s epoch st g g' part : extends g g' → accounted s epoch st g part → accounted s epoch st g' part.
Proof. intros Hx (h & p & Hd & [Hin|Hc]); exists h, p; split; [done|left; by apply Hx|done|by right]. Qed.

Definition floorOf (man : option Manifest) : Z := match man with Some man => mnMaxTxID man | None => 0 end.

Lemma gives_gatherParts s epoch man key i parts g st m st' m' g' :
  gatherOk s epoch st (floorOf man) g →
  gives (gatherParts s epoch man key i parts g) st m st' m' g' →
  st' = st ∧ m' = m ∧ gatherOk s epoch st (floorOf man) g' ∧ extends g g' ∧ Forall (accounted s epoch st g') parts.
Proof.
  revert i g. induction parts as [|part parts IH]; intros i g Hg; cbn [gatherParts].
  { intros (-> & -> & [= <-])%gives_ret. split_and!; [done..|by unfold extends|constructor]. }
  destruct (Decode part) as [[h p]|e] eqn:Hd; [|by intros (_ & _ & ?)%gives_ret].
  intros (st1 & m1 & [drop g1] & Hdrop & Hrest)%gives_check.
  eapply gives_dropPartial in Hdrop as (-> & -> & Hg1 & Eseen & Esegs & Hcr); [|done].
  set (g2 := if drop then g1 else _) in *.
  assert (gatherOk s epoch st (floorOf man) g2 ∧ extends g1 g2 ∧ accounted s epoch st g2 part) as (Hg2 & Hx & Ha).
  { unfold g2. clear Hrest. destruct drop; [split_and!; [done|by unfold extends|by exists h, p; auto]|].
    edestruct addSegment_ok as (Hok & Hext & Hin); [exact Hg1|exact Hd|]. split_and!; [exact Hok|exact Hext|].
    exists h, p. split; [done|]. left. exact Hin. }
  apply IH in Hrest as (-> & -> & Hg' & Hx' & Hall); [|done].
  assert (extends g g') by (unfold extends in *; rewrite <-Eseen; by etrans). split_and!; try done.
  constructor; [|done]. exact (accounted_mono _ _ _ _ _ _ Hx' Ha).
Qed.

Lemma gives_gatherObjects s epoch man objs g st m st' m' g' :
  gatherOk s epoch st (floorOf man) g →
  gives (gatherObjects s epoch man objs g) st m st' m' g' →
  st' = st ∧ m' = m ∧ gatherOk s epoch st (floorOf man) g' ∧ extends g g'
  ∧ Forall (λ '(_, raw), ∃ parts, Split raw = Ok parts ∧ Forall (accounted s epoch st g') parts) objs.
Proof.
  revert g. induction objs as [|[key raw] objs IH]; intros g Hg; cbn [gatherObjects].
  { intros (-> & -> & [= <-])%gives_ret. split_and!; [done..|by unfold extends|constructor]. }
  destruct (Split raw) as [parts|e] eqn:Hsp; [|by intros (_ & _ & ?)%gives_ret].
  intros (st1 & m1 & g1 & Hparts & Hrest)%gives_check.
  apply gives_gatherParts in Hparts as (-> & -> & Hg1 & Hx1 & Hall1); [|done].
  apply IH in Hrest as (-> & -> & Hg' & Hx' & Hall); [|done].
  split_and!; try done; [unfold extends in *; by etrans|]. constructor; [|done]. exists parts. split; [done|].
  eapply Forall_impl; [exact Hall1|]. intros part. by apply accounted_mono.
Qed.

(** ** One epoch *)

(** The steps of a restore. *)
Lemma gives_restoreSteps s epoch l0 st m st' m' segs :
  resourceClass s = false →
  gives (restoreOnceKeys order rounds s epoch l0) st m st' m' segs →
  st' = st ∧ m' = m ∧ ∃ man objs g,
    gives (ReadManifest s epoch) st m st m man
    ∧ objs.*1 = restoreKeys man l0
    ∧ Forall (λ '(k, raw), st !! k = Some raw) objs
    ∧ gives (gatherObjects s epoch man objs (MkGather ∅ ∅ None [])) st m st m g
    ∧ segs = merge_sort seg_le (gaSegments g).
Proof.
  intros Hr. unfold restoreOnceKeys.
  intros (st2 & m2 & [f e] & Hf%gives_onReplica & Hg)%gives_check.
  apply gives_noFence in Hf as (-> & -> & [= -> ->]); [|done].
  change (fenceBlocks noFence epoch) with false in Hg. cbv iota in Hg.
  apply gives_check in Hg as (st3 & m3 & man & Hman%gives_onReplica & Hg).
  pose proof Hman as (-> & -> & _)%gives_ReadManifest.
  apply gives_check in Hg as (st4 & m4 & objs & (-> & -> & Ho & Hall)%gives_readObjects & Hg).
  apply gives_check in Hg as (st5 & m5 & g & Hg' & (-> & -> & [= <-])%gives_ret).
  pose proof Hg' as (-> & -> & _)%gives_gatherObjects; [|apply gather_empty].
  split_and!; [done..|]. by exists man, objs, g.
Qed.

Lemma gives_restoreOnceKeys s epoch l0 st m st' m' segs :
  resourceClass s = false →
  gives (restoreOnceKeys order rounds s epoch l0) st m st' m' segs →
  st' = st ∧ m' = m ∧ ∃ man objs g,
    gives (ReadManifest s epoch) st m st m man
    ∧ objs.*1 = restoreKeys man l0
    ∧ Forall (λ '(k, raw), st !! k = Some raw) objs
    ∧ gatherOk s epoch st (floorOf man) g
    ∧ Forall (λ '(_, raw), ∃ parts, Split raw = Ok parts ∧ Forall (accounted s epoch st g) parts) objs
    ∧ segs = merge_sort seg_le (gaSegments g).
Proof.
  intros Hr (-> & -> & man & objs & g & Hman & Ho & Hall & Hg & ->)%gives_restoreSteps; [|done].
  apply gives_gatherObjects in Hg as (_ & _ & Hok & _ & Hparts); [|apply gather_empty].
  split_and!; [done..|]. by exists man, objs, g.
Qed.

Lemma gives_restoreOnce s epoch st m st' m' segs :
  gives (restoreOnce order rounds s epoch) st m st' m' segs ↔
  gives (restoreOnceKeys order rounds s epoch (filter (λ k, isL0Key s epoch k = true) (keysOf (LtxPrefix s epoch) st)))
    st m st' m' segs.
Proof.
  unfold restoreOnce. rewrite gives_check. split.
  - by intros (st1 & m1 & l0 & (-> & -> & ->)%gives_onReplica%gives_ListL0 & Hg).
  - intros Hg. eexists st, m, _. split; [|exact Hg]. by apply gives_onReplica, gives_ListL0.
Qed.

Lemma gives_manifest s epoch st m man :
  gives (ReadManifest s epoch) st m st m (Some man) →
  ∃ d, st !! ManifestName s epoch = Some d ∧ unmarshal d = Some man.
Proof. intros (_ & _ & Hm)%gives_ReadManifest. destruct (st !! ManifestName s epoch) as [d|]; naive_solver. Qed.

(** Behind the floor of the manifest. *)
Definition behind (s : Scope) (epoch : Z) (st : store) (h : Header) : Prop :=
  ∃ d man, st !! ManifestName s epoch = Some d ∧ unmarshal d = Some man ∧ 0 < mnMaxTxID man ∧ hEndTxID h ≤ mnMaxTxID man.

(** What becomes of a segment of an object that is there. *)
Lemma restored_object s epoch st m st' m' segs k raw parts part :
  resourceClass s = false →
  gives (restoreOnce order rounds s epoch) st m st' m' segs →
  hasPrefix (LtxPrefix s epoch) k = true → isL0Key s epoch k = true → st !! k = Some raw → Split raw = Ok parts →
  part ∈ parts →
  ∃ h p, Decode part = Ok (h, p)
    ∧ ((∃ sg, sg ∈ segs ∧ ID (sgHeader sg) = ID h) ∨ behind s epoch st h ∨ crashed s epoch st h
       ∨ ∃ d man, st !! ManifestName s epoch = Some d ∧ unmarshal d = Some man ∧ coveredName (mnMaxTxID man) (baseName k) = true).
Proof.
  intros Hr Hg Hp Hl Hk Hsp Hpart.
  apply gives_restoreOnce, gives_restoreOnceKeys in Hg as (-> & -> & man & objs & g & Hman & Ho & Hall & Hok & Hparts & ->); [|done].
  assert (k ∈ filter (λ k, isL0Key s epoch k = true) (keysOf (LtxPrefix s epoch) st)) as Hin.
  { apply list_elem_of_filter. split; [done|]. apply elem_of_keysOf. by eauto. }
  assert ((∃ man', man = Some man' ∧ coveredName (mnMaxTxID man') (baseName k) = true) ∨ k ∈ objs.*1) as [(man' & -> & Hc)|Hobj].
  { rewrite Ho. destruct man as [man|]; [|by right]. simpl.
    destruct (coveredName (mnMaxTxID man) (baseName k)) eqn:Hc; [left; by exists man|right].
    apply elem_of_app. right. by apply list_elem_of_filter. }
  - destruct (split_sound raw parts Hsp) as [_ Hs]. rewrite Forall_forall in Hs. destruct (Hs part Hpart) as (h & p & _ & _ & Hd).
    exists h, p. split; [done|]. do 3 right. apply gives_manifest in Hman as (d & Hd1 & Hd2). by exists d, man'.
  - apply list_elem_of_fmap in Hobj as ([k' raw'] & -> & Hobj). rewrite Forall_forall in Hall, Hparts.
    pose proof (Hall _ Hobj) as Hraw. simpl in Hraw, Hk. rewrite Hk in Hraw. simplify_eq.
    destruct (Hparts _ Hobj) as (parts' & Hsp' & Hacc). rewrite Hsp in Hsp'. simplify_eq. rewrite Forall_forall in Hacc.
    destruct (Hacc part Hpart) as (h & p & Hd & Hcase). exists h, p. split; [done|].
    destruct Hcase as [Hseen|]; [|by auto]. apply (gather_seen _ _ _ _ _ Hok) in Hseen as [(sg & Hsg & E)|(h' & Hw & E & Hf & He & _)].
    + left. exists sg. split; [|done]. by rewrite merge_sort_Permutation.
    + right. left. apply ID_fields in E as (_ & _ & _ & E & _); [|done|by eapply Decode_wf]. rewrite E in He. destruct man as [man|]; [|unfold floorOf in Hf; lia].
      apply gives_manifest in Hman as (d & Hd1 & Hd2). by exists d, man.
Qed.

(** The headers of a batch and its segments. *)
Lemma batchHeaders_decode epoch segments hs :
  batchHeaders epoch segments = Ok hs →
  Forall2 (λ seg h, hEpoch h = epoch ∧ ∃ p, Decode seg = Ok (h, p)) segments hs.
Proof.
  revert hs. induction segments as [|seg segments IH]; intros hs E; simpl in E; inv_ok; simplify_eq; [constructor|].
  constructor; [|by apply IH]. unfold segmentHeader in *. destruct (Decode seg) as [[h p]|]; [|done]. simpl in *.
  case_decide; [done|]. simplify_eq. by eauto.
Qed.

(** A name that is covered covers the segments, when the last one ends last. *)
Lemma covered_batch floor hs :
  Forall wf_header hs → hs ≠ [] → Forall (λ h, hEndTxID h ≤ hEndTxID (default h (last hs))) hs →
  coveredName floor (batchName hs) = true → 0 < floor ∧ Forall (λ h, hEndTxID h ≤ floor) hs.
Proof.
  intros Hw Hne Hl. unfold coveredName.
  assert (∀ sp, parseSegmentSpan (batchName hs) = Some sp → ∀ l, last hs = Some l → spMarker sp = false → spEnd sp = hEndTxID l) as Hspan.
  { intros sp Hp l Hlast Hm. destruct hs as [|f [|f' hs]]; [done| |].
    - simpl in Hlast. simplify_eq. simpl in Hp. rewrite parse_SegmentName in Hp by (by inversion Hw). unfold spanOf in Hp.
      repeat case_decide; by simplify_eq.
    - cbn [batchName] in Hp. rewrite Hlast in Hp. cbn [default from_option id] in Hp.
      rewrite parse_BatchName in Hp; [|by inversion Hw|].
      + unfold batchSpan in Hp. repeat case_decide; simplify_eq; naive_solver.
      + rewrite Forall_forall in Hw. apply Hw. by apply last_Some_elem_of. }
  destruct (parseSegmentSpan (batchName hs)) as [sp|]; [|done]. intros Hc.
  repeat (apply andb_true_iff in Hc as [Hc ?]). rewrite ?bool_decide_eq_true, ?negb_true_iff in *.
  split; [done|]. destruct (last hs) as [l|] eqn:Hlast; [|by apply last_None in Hlast].
  eapply Forall_impl; [exact Hl|]. intros h Hh. simpl in Hh. rewrite <-(Hspan sp eq_refl l eq_refl) in Hh by done. lia.
Qed.

Lemma notL1 s epoch name : sepFree slash name → hasPrefix (L1Prefix s epoch) (LtxPrefix s epoch +:+ name) = false.
Proof.
  intros Hs. unfold L1Prefix. apply not_true_is_false. intros (t' & E)%hasPrefix_app. rewrite <-string_app_assoc in E.
  apply (inj (String.append _)) in E. rewrite E in Hs. simpl in Hs. by destruct Hs as (_ & _ & Hs & _).
Qed.

Lemma batch_L0 s epoch hs : hs ≠ [] → isL0Key s epoch (LtxPrefix s epoch +:+ batchName hs) = true.
Proof.
  intros Hne. unfold isL0Key. rewrite isSegmentKey_ltx, isSegmentKey_batchName by (done || apply batchName_slash).
  by rewrite notL1 by apply batchName_slash.
Qed.

(** ** What is appended is restored *)

Lemma restored_appended s epoch st m st' m' segs segments hs seg :
  resourceClass s = false →
  batchHeaders epoch segments = Ok hs → segments ≠ [] → Split (concat segments) = Ok segments →
  Forall (λ h, hEndTxID h ≤ hEndTxID (default h (last hs))) hs →
  st !! (LtxPrefix s epoch +:+ batchName hs) = Some (concat segments) →
  gives (restoreOnce order rounds s epoch) st m st' m' segs → seg ∈ segments →
  ∃ h p, Decode seg = Ok (h, p)
    ∧ ((∃ sg, sg ∈ segs ∧ ID (sgHeader sg) = ID h) ∨ behind s epoch st h ∨ crashed s epoch st h).
Proof.
  intros Hr Hh Hne Hsp Hl Hst Hg Hin. pose proof (batchHeaders_nonempty _ _ _ Hh Hne) as Hne'.
  pose proof (batchHeaders_decode _ _ _ Hh) as Hd.
  destruct (restored_object s epoch st m st' m' segs _ _ _ seg Hr Hg ltac:(apply hasPrefix_app; by eexists)
    (batch_L0 s epoch hs Hne') Hst Hsp Hin) as (h & p & Hdec & [?|[?|[?|(d & man & Hd1 & Hd2 & Hc)]]]); [by exists h, p; auto..|].
  exists h, p. split; [done|]. right. left. exists d, man. split_and!; [done..| |].
  all: rewrite LtxPrefix_slash, baseName_app in Hc by apply batchName_slash.
  all: apply covered_batch in Hc as [Hf Hall]; [|by eapply Forall2_Forall_r; [exact Hd|]; apply Forall_true; intros ? ? (_ & ? & ?); eapply Decode_wf|done..].
  - done.
  - rewrite Forall_forall in Hall. apply list_elem_of_lookup in Hin as [i Hi].
    destruct (Forall2_lookup_l _ _ _ _ _ Hd Hi) as (h' & Hh' & _ & p' & Hdec'). rewrite Hdec in Hdec'. simplify_eq.
    apply Hall. by eapply list_elem_of_lookup_2.
Qed.

(** Nothing comes twice, everything is decoded, and the order is by rank and start. *)
Lemma restored_shape s epoch st m st' m' segs :
  resourceClass s = false →
  gives (restoreOnce order rounds s epoch) st m st' m' segs →
  NoDup ((λ sg, ID (sgHeader sg)) <$> segs) ∧ Sorted seg_le segs
  ∧ Forall (λ sg, ∃ p, Decode (sgRaw sg) = Ok (sgHeader sg, p)) segs.
Proof.
  intros Hr (-> & -> & man & objs & g & _ & _ & _ & [_ Hn Hd _ _] & _ & ->)%gives_restoreOnce%gives_restoreOnceKeys; [|done].
  split_and!.
  - by rewrite merge_sort_Permutation.
  - apply Sorted_merge_sort. intros a b. unfold seg_le. lia.
  - by rewrite merge_sort_Permutation.
Qed.

(** ** The chain of epochs *)

Section chain.
Context (s : Scope) (Hr : resourceClass s = false) (st : store) (m : Manager) (groups : gmap Z epochKeys) (epochs : list Z).

Definition keysAt (e : Z) : list string := ekKeys (default (MkEpochKeys [] false) (groups !! e)).

(** What an epoch is restored to. *)
Definition epochGives (e : Z) (segs : list Segment) : Prop :=
  gives (restoreOnceKeys order rounds s e (keysAt e)) st m st m segs.

(** The chain from some epoch on. *)
Definition chainFrom (start : nat) (out : list Segment) : Prop :=
  ∃ segss, Forall2 epochGives (drop start epochs) segss ∧ out = firstSegments ∅ (concat segss).

(** The epochs that a restore may start from: those with a base, and the first. *)
Definition candidate (start : nat) : Prop :=
  start = O ∨ ∃ e, epochs !! start = Some e ∧ ekBase (default (MkEpochKeys [] false) (groups !! e)) = true.

Lemma epochGives_det e a b : epochGives e a → epochGives e b → a = b.
Proof. unfold epochGives, gives. intros E1 E2. rewrite E1 in E2. by simplify_eq. Qed.

Lemma loadEpochs_spec es loaded :
  (∀ e, e ∈ es → ∃ segs, epochGives e segs) → (∀ e segs, loaded !! e = Some segs → epochGives e segs) →
  ∃ loaded', gives (loadEpochs order rounds s groups es loaded) st m st m loaded'
    ∧ (∀ e segs, loaded' !! e = Some segs → epochGives e segs)
    ∧ loaded ⊆ loaded' ∧ Forall (λ e, is_Some (loaded' !! e)) es.
Proof.
  revert loaded. induction es as [|e es IH]; intros loaded Hes Hl; cbn [loadEpochs].
  { exists loaded. split_and!; [by apply gives_ret|done..|constructor]. }
  destruct (loaded !! e) as [segs|] eqn:He.
  - destruct (IH loaded) as (l' & Hg & Hl' & Hsub & Hall); [set_solver|done|]. exists l'. split_and!; try done.
    constructor; [|done]. eexists. by eapply lookup_weaken.
  - destruct (Hes e) as [segs Hsegs]; [set_solver|].
    destruct (IH (<[e := segs]> loaded)) as (l' & Hg & Hl' & Hsub & Hall).
    + set_solver.
    + intros e' segs'. rewrite lookup_insert_Some. intros [[<- <-]|[_ ?]]; auto.
    + exists l'. split_and!; try done.
      * apply gives_check. exists st, m, segs. done.
      * etrans; [|exact Hsub]. by apply insert_subseteq.
      * constructor; [|done]. exists segs. eapply lookup_weaken; [|exact Hsub]. by apply lookup_insert_eq.
Qed.

Lemma loaded_chain start (loaded : gmap Z (list Segment)) :
  (∀ e segs, loaded !! e = Some segs → epochGives e segs) → Forall (λ e, is_Some (loaded !! e)) (drop start epochs) →
  chainFrom start (firstSegments ∅ (drop start epochs ≫= λ e, default [] (loaded !! e))).
Proof.
  intros Hl Hall. exists ((λ e, default [] (loaded !! e)) <$> drop start epochs). split.
  - apply Forall2_fmap_r. induction Hall as [|e es [segs He] Hall IH]; constructor; [|done]. unfold compose. rewrite He. by apply Hl.
  - f_equal. induction (drop start epochs) as [|e es IH]; [done|]. cbn. f_equal. apply IH. by inversion Hall.
Qed.

Lemma chainFrom_det start a b : chainFrom start a → chainFrom start b → a = b.
Proof.
  intros (xs & Hxs & ->) (ys & Hys & ->). do 2 f_equal. revert ys Hys.
  induction Hxs as [|e x es xs Hx _ IH]; intros ys Hys; inversion Hys; simplify_eq; [done|].
  f_equal; [by eapply epochGives_det|by apply IH].
Qed.

(** The newest base below a point, and that there is none between. *)
Lemma lastBase_spec es :
  match lastBase groups es with
  | Some i => (i < length es)%nat ∧ (∃ e, es !! i = Some e ∧ ekBase (default (MkEpochKeys [] false) (groups !! e)) = true)
      ∧ ∀ j e, (i < j)%nat → es !! j = Some e → ekBase (default (MkEpochKeys [] false) (groups !! e)) = false
  | None => ∀ j e, es !! j = Some e → ekBase (default (MkEpochKeys [] false) (groups !! e)) = false
  end.
Proof.
  induction es as [|e es IH]; simpl; [done|]. destruct (lastBase groups es) as [i|].
  - destruct IH as (Hi & He & Hj). split_and!; [lia|done|]. intros [|j] e' Hij; [lia|]. simpl. apply Hj. lia.
  - destruct (ekBase _) eqn:Eb.
    + split_and!; [lia|by exists e|]. intros [|j] e' Hij; [lia|]. apply IH.
    + intros [|j] e'; simpl; [by intros [= <-]|apply IH].
Qed.

(** The start of the next round lies before the last, and no candidate lies between. *)
Lemma next_start start :
  (0 < start ≤ length epochs)%nat →
  let next := default O (lastBase groups (take start epochs)) in
  (next < start)%nat ∧ candidate next ∧ ∀ j, candidate j → (j < start)%nat → (j ≤ next)%nat.
Proof.
  intros Hs. simpl. pose proof (lastBase_spec (take start epochs)) as Hb.
  destruct (lastBase groups (take start epochs)) as [i|]; simpl.
  - rewrite length_take in Hb. destruct Hb as (Hi & (e & He & Hbase) & Hj). rewrite lookup_take_lt in He by lia.
    split_and!; [lia|right; by exists e|]. intros j [->|(e' & He' & Hb')] Hlt; [lia|].
    destruct (decide (j ≤ i)%nat); [done|]. exfalso. assert (i < j)%nat as Hij by lia.
    specialize (Hj j e' Hij). rewrite lookup_take_lt in Hj by lia. rewrite (Hj He') in Hb'. done.
  - split_and!; [lia|by left|]. intros j [->|(e' & He' & Hb')] Hlt; [lia|]. exfalso.
    specialize (Hb j e'). rewrite lookup_take_lt in Hb by lia. by rewrite (Hb He') in Hb'.
Qed.

(** The rounds from a start: a valid chain from the newest candidate that has one, or none has. *)
Lemma chainRounds_spec n start loaded err i :
  lastBase groups epochs = Some i → (∀ e, e ∈ epochs → ∃ segs, epochGives e segs) →
  (start < n)%nat → (start ≤ length epochs)%nat → candidate start →
  (∀ e segs, loaded !! e = Some segs → epochGives e segs) →
  ∃ r, alone t cb (chainRounds order rounds n s groups epochs start loaded err) st m = Some (st, m, r)
    ∧ match r with
      | Ok segs => ∃ from v, (from ≤ start)%nat ∧ candidate from ∧ chainFrom from segs ∧ ValidateChain (sgRaw <$> segs) = Ok v
          ∧ ∀ j out, candidate j → (from < j ≤ start)%nat → chainFrom j out → ∃ e, ValidateChain (sgRaw <$> out) = Err e
      | Err _ => ∀ j out, candidate j → (j ≤ start)%nat → chainFrom j out → ∃ e, ValidateChain (sgRaw <$> out) = Err e
      end.
Proof.
  intros Hbase Hread. revert start loaded err. induction n as [|n IH]; intros start loaded err Hn Hlen Hc Hl; [lia|].
  cbn [chainRounds]. rewrite alone_check.
  destruct (loadEpochs_spec (drop start epochs) loaded) as (l' & Hg & Hl' & _ & Hall);
    [intros e He; apply Hread; rewrite <-(take_drop start epochs); apply elem_of_app; by right|done|]. unfold gives in Hg. rewrite Hg. simpl.
  pose proof (loaded_chain start l' Hl' Hall) as Hchain. set (out := firstSegments _ _) in *. rewrite Hbase.
  destruct (ValidateChain (sgRaw <$> out)) as [v|e] eqn:Hv.
  { eexists. split; [done|]. exists start, v. split_and!; try done. intros; lia. }
  destruct (decide (start = 0%nat)) as [->|Hne].
  { eexists. split; [done|]. intros j out' _ Hj Hout'. assert (j = 0%nat) as -> by lia.
    rewrite (chainFrom_det _ _ _ Hout' Hchain). by exists e. }
  destruct (next_start start) as (Hlt & Hcn & Hbetween); [lia|]. cbv zeta in *.
  destruct (IH (default O (lastBase groups (take start epochs))) l' (keepFirst err e)) as (r & Hrun & Hres); [lia|lia|done..|].
  assert (∀ j o, candidate j → (j ≤ start)%nat → chainFrom j o →
    (j ≤ default O (lastBase groups (take start epochs)))%nat ∨ ∃ e, ValidateChain (sgRaw <$> o) = Err e) as Hsplit.
  { intros j o Hj Hle Ho. destruct (decide (j = start)) as [->|]; [right|left; apply Hbetween; [done|lia]].
    rewrite (chainFrom_det _ _ _ Ho Hchain). by exists e. }
  exists r. split; [exact Hrun|]. destruct r as [segs|err'].
  - destruct Hres as (from & v & Hf & Hcf & Hfrom & Hv' & Hbad). exists from, v. split_and!; try done; [lia|].
    intros j o Hj Hrange Ho. destruct (Hsplit j o Hj ltac:(lia) Ho) as [Hle|He]; [|done]. apply (Hbad j o Hj); [lia|done].
  - intros j o Hj Hle Ho. destruct (Hsplit j o Hj Hle Ho) as [Hle'|He]; [|done]. by apply (Hres j o).
Qed.
End chain.

(** What one listing says of the epochs, and the epochs in their order. *)
Definition groupsAt (s : Scope) (maxEpoch : Z) (st : store) : gmap Z epochKeys :=
  foldl (noteKey s maxEpoch) ∅ (keysOf (scopeKey s +:+ "/ltx/") st).
Definition epochsAt (s : Scope) (maxEpoch : Z) (st : store) : list Z :=
  sortAsc (map_to_list (groupsAt s maxEpoch st)).*1.

Lemma candidate_le groups epochs i j :
  lastBase groups epochs = Some i → candidate groups epochs j → (j ≤ i)%nat.
Proof.
  intros Hi Hj. pose proof (lastBase_spec groups epochs) as Hs. rewrite Hi in Hs. destruct Hs as (_ & _ & Hbig).
  destruct Hj as [->|(e & He & Hb)]; [lia|]. destruct (decide (j ≤ i)%nat); [done|].
  rewrite (Hbig j e ltac:(lia) He) in Hb. done.
Qed.

Lemma restoreChain_spec s maxEpoch st m i :
  resourceClass s = false → lastBase (groupsAt s maxEpoch st) (epochsAt s maxEpoch st) = Some i →
  (∀ e, e ∈ epochsAt s maxEpoch st → ∃ segs, epochGives s st m (groupsAt s maxEpoch st) e segs) →
  let chain := chainFrom s st m (groupsAt s maxEpoch st) (epochsAt s maxEpoch st) in
  let start := candidate (groupsAt s maxEpoch st) (epochsAt s maxEpoch st) in
  ∃ r, alone t cb (RestoreChain order rounds s maxEpoch) st m = Some (st, m, r)
    ∧ match r with
      | Ok segs => ∃ from v, start from ∧ chain from segs ∧ ValidateChain (sgRaw <$> segs) = Ok v
          ∧ ∀ j out, start j → (from < j)%nat → chain j out → ∃ e, ValidateChain (sgRaw <$> out) = Err e
      | Err _ => ∀ j out, start j → chain j out → ∃ e, ValidateChain (sgRaw <$> out) = Err e
      end.
Proof.
  intros Hr Hi Hread chain start. unfold RestoreChain. rewrite alone_check.
  change (alone t cb (onReplica _) st m) with
    (Some (st, m, Ok (E := epochError) (keysOf (scopeKey s +:+ "/ltx/") st))). cbn [mbind option_bind]. cbv beta iota zeta.
  fold (groupsAt s maxEpoch st). fold (epochsAt s maxEpoch st). rewrite Hi.
  pose proof (lastBase_spec (groupsAt s maxEpoch st) (epochsAt s maxEpoch st)) as Hs. rewrite Hi in Hs.
  destruct Hs as (Hlen & Hb & _).
  destruct (chainRounds_spec s Hr st m (groupsAt s maxEpoch st) (epochsAt s maxEpoch st) (S (length (epochsAt s maxEpoch st))) i ∅ None i)
    as (r & Hrun & Hres); [done|done|lia|lia|by right|by intros ??; rewrite lookup_empty|].
  exists r. split; [exact Hrun|]. destruct r as [segs|e].
  - destruct Hres as (from & v & _ & Hc & Hfrom & Hv & Hbad). exists from, v. split_and!; [done..|].
    intros j out Hj Hlt Ho. apply (Hbad j out); [done| |done]. pose proof (candidate_le _ _ _ _ Hi Hj). lia.
  - intros j out Hj Ho. apply (Hres j out); [done| |done]. exact (candidate_le _ _ _ _ Hi Hj).
Qed.
End alone.

(** ** Properties *)

(** C9: what was acknowledged is restored, for a cell without a deletion fence (not a KV
    or queue cell: [resourceClass s = false]). After any run of the fleet from an empty
    bucket, a restore of
    the epoch that runs alone on the bucket as it stands, and succeeds, returns every
    segment of every acknowledged batch by its identity, unless the manifest of the
    compacted snapshot covers its transactions or it belongs to a snapshot that was
    started and never finished; provided the batch splits back into exactly its
    segments (each is one encoded segment with nothing behind it) and no segment of it
    ends after the last one. *)
Theorem acknowledged_restored `{Etag} `{replicaCodec} {C : Type} order rounds t (cb : C → bool) xs
    (w : world C Manager (list claim)) n i claims s epoch segments m st' m' segs seg :
  Forall (replicaAction order rounds) xs → acts xs emptyWorld = Some w → wThreads w !! n = Some (i, Ret claims) →
  (s, epoch, segments) ∈ claims → resourceClass s = false →
  Split (concat segments) = Ok segments →
  (∀ hs h, batchHeaders epoch segments = Ok hs → h ∈ hs → hEndTxID h ≤ hEndTxID (default h (last hs))) →
  gives t cb (restoreOnce order rounds s epoch) (wStore w) m st' m' segs → seg ∈ segments →
  ∃ h p, Decode seg = Ok (h, p)
    ∧ ((∃ sg, sg ∈ segs ∧ ID (sgHeader sg) = ID h) ∨ behind s epoch (wStore w) h ∨ crashed s epoch (wStore w) h).
Proof.
  intros Hxs Hacts Hn Hin Hr Hsp Hl Hg Hseg.
  destruct (appended_stored order rounds xs w n i claims s epoch segments) as (hs & Hh & Hst); [done..|].
  eapply restored_appended; [done|exact Hh|by destruct segments; [apply elem_of_nil in Hseg|]|done| |exact Hst|exact Hg|done].
  apply Forall_forall. intros h. by apply Hl.
Qed.

(** A restore of one epoch returns segments that decode to the headers they are listed with,
    no identity twice, snapshots before links and markers before deltas, and by their
    first transactions within a kind. *)
Theorem restored_once `{Etag} `{replicaCodec} {C : Type} order rounds t (cb : C → bool) s epoch st m st' m' segs :
  resourceClass s = false →
  gives t cb (restoreOnce order rounds s epoch) st m st' m' segs →
  NoDup ((λ sg, ID (sgHeader sg)) <$> segs) ∧ Sorted seg_le segs
  ∧ Forall (λ sg, ∃ p, Decode (sgRaw sg) = Ok (sgHeader sg, p)) segs.
Proof. apply restored_shape. Qed.

(** C10: the restore over the epochs, of a cell without a deletion fence (not a KV or
    queue cell: [resourceClass s = false]), by a process that runs alone on a bucket that
    does not change, ends within its rounds, and goes back no further than it has
    to: when every epoch can be read and some epoch has a snapshot, the answer is the
    valid chain that starts at the newest possible epoch, and an error only when no epoch
    that could be the first gives a valid chain. *)
Theorem restore_goes_back `{Etag} `{replicaCodec} {C : Type} order rounds t (cb : C → bool) s maxEpoch st m i :
  resourceClass s = false → lastBase (groupsAt s maxEpoch st) (epochsAt s maxEpoch st) = Some i →
  (∀ e, e ∈ epochsAt s maxEpoch st → ∃ segs, epochGives order rounds t cb s st m (groupsAt s maxEpoch st) e segs) →
  let chain := chainFrom order rounds t cb s st m (groupsAt s maxEpoch st) (epochsAt s maxEpoch st) in
  let start := candidate (groupsAt s maxEpoch st) (epochsAt s maxEpoch st) in
  ∃ r, alone t cb (RestoreChain order rounds s maxEpoch) st m = Some (st, m, r)
    ∧ match r with
      | Ok segs => ∃ from v, start from ∧ chain from segs ∧ ValidateChain (sgRaw <$> segs) = Ok v
          ∧ ∀ j out, start j → (from < j)%nat → chain j out → ∃ e, ValidateChain (sgRaw <$> out) = Err e
      | Err _ => ∀ j out, start j → chain j out → ∃ e, ValidateChain (sgRaw <$> out) = Err e
      end.
Proof. apply restoreChain_spec. Qed.

(** ** Examples *)

#[local] Existing Instance contentTag.
#[local] Existing Instance exampleReplicaCodec.

Definition noCalls (c : Empty_set) : bool := match c with end.
Definition atStart : time := MkTime 0 9000000.

(** What a program answers. *)
Definition answer {E A} (p : prog Empty_set Manager (result E A)) (st : store) : option A :=
  match alone atStart noCalls p st newManager with
  | Some (_, _, Ok a) => Some a
  | _ => None
  end.

Lemma answer_gives {E A} (p : prog Empty_set Manager (result E A)) st a :
  answer p st = Some a → ∃ st' m', gives atStart noCalls p st newManager st' m' a.
Proof. unfold answer, gives. destruct (alone _ _ _ _ _) as [[[st' m'] [x|e]]|]; intros [= ->]. by exists st', m'. Qed.

Definition restoredRoom : list Segment := default [] (answer (restoreOnce id 1 exampleRoom 7) (wStore (after appendRun))).

Lemma restoredRoom_answer : answer (restoreOnce id 1 exampleRoom 7) (wStore (after appendRun)) = Some restoredRoom.
Proof.
  unfold restoredRoom. destruct (answer _ _) eqn:E; [done|]. exfalso. apply (f_equal (λ x, bool_decide (is_Some x))) in E.
  vm_compute in E. discriminate E.
Qed.

Lemma acknowledged_restored_witness :
  restoredRoom ≠ [] ∧ ∃ h p, Decode (exampleSegment 2) = Ok (h, p)
    ∧ ((∃ sg, sg ∈ restoredRoom ∧ ID (sgHeader sg) = ID h) ∨ behind exampleRoom 7 (wStore (after appendRun)) h
       ∨ crashed exampleRoom 7 (wStore (after appendRun)) h).
Proof.
  split; [vm_compute; discriminate|].
  destruct (answer_gives _ _ _ restoredRoom_answer) as (st' & m' & Hg).
  eapply (acknowledged_restored id 1 atStart noCalls appendRun (after appendRun) 0 0
    [(exampleRoom, 7, [exampleSegment 1; exampleSegment 2])] exampleRoom 7 [exampleSegment 1; exampleSegment 2] newManager).
  - apply appendRun_ok.
  - apply acts_after. vm_compute. reflexivity.
  - vm_compute. reflexivity.
  - by apply list_elem_of_singleton.
  - vm_compute. reflexivity.
  - vm_compute. reflexivity.
  - intros hs h Eh. vm_compute in Eh. injection Eh as <-. intros Hin.
    apply elem_of_cons in Hin as [->|Hin]; [vm_compute; discriminate|].
    apply list_elem_of_singleton in Hin as ->. vm_compute. discriminate.
  - exact Hg.
  - by apply elem_of_cons; right; apply list_elem_of_singleton.
Defined.

Lemma restored_once_witness :
  length restoredRoom = 2%nat ∧ NoDup ((λ sg, ID (sgHeader sg)) <$> restoredRoom) ∧ Sorted seg_le restoredRoom
  ∧ Forall (λ sg, ∃ p, Decode (sgRaw sg) = Ok (sgHeader sg, p)) restoredRoom.
Proof.
  split; [vm_compute; reflexivity|].
  destruct (answer_gives _ _ _ restoredRoom_answer) as (st' & m' & Hg).
  apply (restored_once id 1 atStart noCalls exampleRoom 7 (wStore (after appendRun)) newManager st' m'); [vm_compute; reflexivity|].
  exact Hg.
Defined.

(** An epoch with a snapshot and a delta, and a second one that cuts the first, goes on, and has one part of
    a snapshot whose other parts are missing. *)
Definition twoEpochs : store :=
  let seg kind flags epoch start end_ := Encode (MkHeader 1 kind flags epoch start end_ 0 0) (bs "pages") in
  let put e name raw (st : store) := <[LtxPrefix exampleRoom e +:+ name := raw]> st in
  put 1 "5.snapshot" (seg KindSnapshot 0 1 5 5) (put 1 "6-6.ltx" (seg KindDelta 0 1 6 6)
    (put 2 "7.marker" (seg KindMarker 0 2 7 6) (put 2 "7-9.ltx" (seg KindDelta 0 2 7 9)
      (put 2 "9.p1.snapshot" (seg KindSnapshot (flagSnapshotPaged + 1) 2 9 9) ∅)))).

Definition restoredTwo : list Segment := default [] (answer (RestoreChain id 1 exampleRoom 0) twoEpochs).

Lemma twoEpochs_readable e :
  e ∈ epochsAt exampleRoom 0 twoEpochs →
  ∃ segs, epochGives id 1 atStart noCalls exampleRoom twoEpochs newManager (groupsAt exampleRoom 0 twoEpochs) e segs.
Proof.
  intros He. assert (forallb (λ e, bool_decide (is_Some
    (answer (restoreOnceKeys id 1 exampleRoom e (keysAt (groupsAt exampleRoom 0 twoEpochs) e)) twoEpochs)))
    (epochsAt exampleRoom 0 twoEpochs) = true) as Hall by (vm_compute; reflexivity).
  rewrite forallb_forall in Hall. apply list_elem_of_In in He. apply Hall, bool_decide_eq_true in He as [segs Hsegs].
  apply answer_gives in Hsegs as (st' & m' & Hg). exists segs. unfold epochGives.
  pose proof Hg as (-> & -> & _)%gives_restoreOnceKeys; [exact Hg|vm_compute; reflexivity].
Qed.

Lemma restore_goes_back_witness :
  length restoredTwo = 5%nat
  ∧ lastBase (groupsAt exampleRoom 0 twoEpochs) (epochsAt exampleRoom 0 twoEpochs) = Some 1%nat
  ∧ ∃ r, alone atStart noCalls (RestoreChain id 1 exampleRoom 0) twoEpochs newManager = Some (twoEpochs, newManager, r)
    ∧ match r with
      | Ok segs => ∃ from v, candidate (groupsAt exampleRoom 0 twoEpochs) (epochsAt exampleRoom 0 twoEpochs) from
          ∧ chainFrom id 1 atStart noCalls exampleRoom twoEpochs newManager (groupsAt exampleRoom 0 twoEpochs)
              (epochsAt exampleRoom 0 twoEpochs) from segs
          ∧ ValidateChain (sgRaw <$> segs) = Ok v
          ∧ ∀ j out, candidate (groupsAt exampleRoom 0 twoEpochs) (epochsAt exampleRoom 0 twoEpochs) j → (from < j)%nat →
              chainFrom id 1 atStart noCalls exampleRoom twoEpochs newManager (groupsAt exampleRoom 0 twoEpochs)
                (epochsAt exampleRoom 0 twoEpochs) j out →
              ∃ e, ValidateChain (sgRaw <$> out) = Err e
      | Err _ => ∀ j out, candidate (groupsAt exampleRoom 0 twoEpochs) (epochsAt exampleRoom 0 twoEpochs) j →
          chainFrom id 1 atStart noCalls exampleRoom twoEpochs newManager (groupsAt exampleRoom 0 twoEpochs)
            (epochsAt exampleRoom 0 twoEpochs) j out →
          ∃ e, ValidateChain (sgRaw <$> out) = Err e
      end.
Proof.
  split; [vm_compute; reflexivity|]. split; [vm_compute; reflexivity|].
  apply (restore_goes_back id 1 atStart noCalls exampleRoom 0 twoEpochs newManager 1).
  - vm_compute. reflexivity.
  - vm_compute. reflexivity.
  - apply twoEpochs_readable.
Defined.
