(* ===== verification/Compacted.v ===== *)
(** * What a compaction leaves

    A compaction that reports success without removing anything leaves an epoch
    whose restore is the database that its inputs merge to. The cells are those without a
    deletion fence (all but KV and queue cells), and nothing else runs meanwhile. *)

From S2P Require Import Prelude Ltx PageMap SnapshotParts Chain Restore Paging Cell Bucket Fleet Objects Decimal.
From S2P Require Import Names Index Permanent Replica Epochs Compaction Discipline ReplicaFleet Restored.

Section alone.
Context `{Etag} `{replicaCodec} (order : list string → list string) (rounds : nat) {C : Type} (t : time) (cb : C → bool).
Abbreviation prog := (prog C Manager).
Abbreviation gives := (gives t cb).

(** ** Writes of a cell that cannot be deleted *)

Lemma gives_guarded {A} s epoch (body : prog (result replicaError A)) st m st' m' a :
  resourceClass s = false → gives (guarded s epoch body) st m st' m' a → ∃ m1 m2, gives body st m1 st' m2 a.
Proof.
  intros Hr. unfold gives, guarded. rewrite alone_mbind. cbn [lock alone mbind option_bind].
  destruct (tryRLock (resourceLock s) m) as [m1|]; [|done]. cbn [mbind option_bind].
  rewrite alone_mbind. unfold readResourceFenceFresh. destruct (Validate s) as [u|e]; [|done].
  rewrite Hr. cbn [negb alone mbind option_bind mret prog_ret]. change (fenceBlocks noFence epoch) with false. cbv iota.
  rewrite alone_mbind. destruct (alone t cb body st m1) as [[[st2 m2] x]|] eqn:Eb; [|done]. simpl.
  intros [= -> _ ->]. by exists m1, m2.
Qed.

Lemma gives_write op st m st' m' e :
  gives (onObjects (write resourceObjects op)) st m st' m' e → m' = m ∧ perform op st = (st', Ok e).
Proof.
  unfold gives, onObjects. rewrite alone_mbind. unfold write. destruct (objectKey _ _) as [k|err] eqn:Ek; [|done].
  rewrite alone_mbind. cbn [putObject alone mbind option_bind].
  assert (withKey op k = op) as -> by (apply objectKey_Ok in Ek as [-> _]; by destruct op).
  destruct (perform op st) as [st1 [x|x]]; [|done]. simpl. by intros [= -> -> ->].
Qed.

Lemma gives_putResource s epoch key data st m st' m' e :
  resourceClass s = false → gives (putResourceObject order rounds s epoch key data) st m st' m' e →
  m' = m ∧ st' = <[key := data]> st.
Proof.
  intros Hr. unfold putResourceObject. intros (st1 & m1 & e1 & (-> & Ep)%gives_write & Hg)%gives_check.
  cbn in Ep. injection Ep as <- <-. apply gives_check in Hg as (st2 & m2 & [f e2] & Hf & Hg).
  apply gives_noFence in Hf as (-> & -> & [= -> ->]); [|done].
  change (fenceBlocks noFence epoch) with false in Hg. by apply gives_ret in Hg as (-> & -> & _).
Qed.

Lemma resourceKey_err key e : objectKey resourceObjects key = Err e → e = ErrBadKey.
Proof.
  unfold objectKey. change (objErr resourceObjects) with (@None objectsError). cbv iota.
  destruct (_ || _); [by intros [= <-]|]. destruct (_ || _); [by intros [= <-]|done].
Qed.

Lemma gives_createImmutable key data st m st' m' r :
  gives (createImmutable key data) st m st' m' r →
  m' = m ∧ st' !! key = Some data ∧ (st' = st ∨ st !! key = None ∧ st' = <[key := data]> st).
Proof.
  unfold gives, createImmutable. rewrite alone_mbind. unfold write. cbn [opKey withKey].
  destruct (objectKey resourceObjects key) as [k|err] eqn:Ek; [|by apply resourceKey_err in Ek as ->].
  rewrite alone_mbind. cbn [putObject alone mbind option_bind].
  assert (k = key) as -> by (by apply objectKey_Ok in Ek as [-> _]). cbn [perform].
  destruct (st !! key) as [old|] eqn:Eo; cbn [mret prog_ret alone rmap_err mbind option_bind].
  - rewrite alone_check. unfold GetVersion. rewrite Ek.
    unfold onObjects. rewrite alone_mbind, alone_mbind. cbn [getObject alone mbind option_bind mret prog_ret].
    unfold fetch. rewrite Eo. cbn. destruct (decide (old = data)) as [->|]; [|done]. intros [= -> -> <-]. auto.
  - intros [= <- <- <-]. rewrite lookup_insert_eq. auto.
Qed.

Lemma gives_putImmutable s epoch key data st m st' m' e :
  resourceClass s = false → gives (putImmutableSegment order rounds s epoch key data) st m st' m' e →
  m' = m ∧ st' !! key = Some data ∧ (st' = st ∨ st !! key = None ∧ st' = <[key := data]> st).
Proof.
  intros Hr. unfold putImmutableSegment. intros (st1 & m1 & [created e1] & Hc & Hg)%gives_check.
  apply gives_createImmutable in Hc as (-> & Hk & Hcase). apply gives_check in Hg as (st2 & m2 & [f e2] & Hf & Hg).
  apply gives_noFence in Hf as (-> & -> & [= -> ->]); [|done].
  change (fenceBlocks noFence epoch) with false in Hg. by apply gives_ret in Hg as (-> & -> & _).
Qed.

(** ** Publishing *)

(** What is below the compacted objects of an epoch changed at most. *)
Definition onlyL1 (s : Scope) (epoch : Z) (st st' : store) : Prop :=
  ∀ k, hasPrefix (L1Prefix s epoch) k = false → st' !! k = st !! k.

Lemma onlyL1_trans s epoch st1 st2 st3 : onlyL1 s epoch st1 st2 → onlyL1 s epoch st2 st3 → onlyL1 s epoch st1 st3.
Proof. intros H12 H23 k Hk. by rewrite H23, H12. Qed.

Lemma onlyL1_insert s epoch st name data : onlyL1 s epoch st (<[L1Prefix s epoch +:+ name := data]> st).
Proof.
  intros k Hk. rewrite lookup_insert_ne; [done|]. intros <-. apply not_true_iff_false in Hk. apply Hk, hasPrefix_app. by eexists.
Qed.

(** A part is stored under its name. *)
Definition storedPart (s : Scope) (epoch : Z) (st : store) (part : bytes) (key : string) : Prop :=
  ∃ h p, Decode part = Ok (h, p) ∧ hEpoch h = epoch ∧ key = L1Prefix s epoch +:+ SegmentName h ∧ st !! key = Some part.

Lemma gives_AppendL1 s epoch part st m st' m' key e :
  resourceClass s = false → gives (AppendL1 order rounds s epoch part) st m st' m' (key, e) →
  st ⊆ st' ∧ onlyL1 s epoch st st' ∧ storedPart s epoch st' part key.
Proof.
  intros Hr (m1 & m2 & Hg)%gives_guarded; [|done]. destruct (segmentHeader epoch part) as [h|err] eqn:Eh;
    [|by apply gives_ret in Hg as (_ & _ & ?)].
  apply gives_check in Hg as (st1 & m3 & e1 & Hp & (-> & -> & [= <- <-])%gives_ret).
  apply gives_putImmutable in Hp as (-> & Hk & Hcase); [|done].
  unfold segmentHeader in Eh. destruct (Decode part) as [[h' p]|] eqn:Ed; [|done]. cbn in Eh.
  destruct (decide (hEpoch h' ≠ epoch)) as [|He]; [done|]. injection Eh as ->. apply dec_stable in He.
  split_and!; [|destruct Hcase as [->|[_ ->]]; [done|apply onlyL1_insert]|by exists h, p].
  destruct Hcase as [->|[Hn ->]]; [done|by apply insert_subseteq].
Qed.

Lemma gives_onEpoch {A} (p : prog (result epochError A)) st m st' m' a :
  gives (onEpoch p) st m st' m' a ↔ gives p st m st' m' a.
Proof.
  unfold gives, onEpoch. rewrite alone_mbind. destruct (alone t cb p st m) as [[[st1 m1] [x|e]]|]; simpl; naive_solver.
Qed.

Lemma gives_appendParts s epoch parts st m st' m' keys :
  resourceClass s = false → gives (appendParts order rounds s epoch parts) st m st' m' keys →
  st ⊆ st' ∧ onlyL1 s epoch st st' ∧ Forall2 (storedPart s epoch st') parts keys.
Proof.
  intros Hr. revert st m keys. induction parts as [|part parts IH]; intros st m keys; cbn [appendParts].
  { intros (-> & -> & [= <-])%gives_ret. split_and!; [done|done|constructor]. }
  intros (st1 & m1 & [key e] & Ha%gives_onEpoch%gives_onReplica & Hg)%gives_check.
  apply gives_AppendL1 in Ha as (Hsub & Ho & h & p & Hd & He & Hkey & Hst); [|done].
  apply gives_check in Hg as (st2 & m2 & keys' & Hrest & (-> & -> & [= <-])%gives_ret).
  apply IH in Hrest as (Hsub' & Ho' & Hall). split_and!; [by etrans|by eapply onlyL1_trans|].
  constructor; [|done]. exists h, p. split_and!; try done. by eapply lookup_weaken.
Qed.

Lemma gives_PutIndex s epoch idx st m st' m' u :
  resourceClass s = false → gives (PutIndex order rounds s epoch idx) st m st' m' u →
  ∃ data, EncodeIndex idx = Ok data ∧ st' = <[IndexName s epoch := data]> st.
Proof.
  intros Hr (m1 & m2 & Hg)%gives_guarded; [|done]. destruct (EncodeIndex idx) as [data|e]; [|by apply gives_ret in Hg as (_ & _ & ?)].
  apply gives_check in Hg as (st1 & m3 & e & Hp & (-> & -> & _)%gives_ret).
  apply gives_putResource in Hp as (-> & ->); [|done]. by exists data.
Qed.

Lemma gives_PutManifest s epoch man st m st' m' u :
  resourceClass s = false → gives (PutManifest order rounds s epoch man) st m st' m' u →
  st' = <[ManifestName s epoch := marshal (stampManifest epoch t man)]> st.
Proof.
  intros Hr (m1 & m2 & Hg)%gives_guarded; [|done]. unfold gives in Hg. rewrite alone_mbind in Hg.
  cbn [now alone mbind option_bind] in Hg.
  apply gives_check in Hg as (st1 & m3 & e & Hp & (-> & -> & _)%gives_ret).
  by apply gives_putResource in Hp as (-> & ->).
Qed.

Lemma gives_verify (v : option C) st m st' m' u : gives (onEpoch (verify v)) st m st' m' u → st' = st ∧ m' = m.
Proof. apply silent_alone, silent_onEpoch, silent_verify. Qed.

Lemma metadata_name s epoch h name :
  isSegmentKey name = false → L1Prefix s epoch +:+ name ≠ L1Prefix s epoch +:+ SegmentName h.
Proof. intros Hn E. apply (inj (String.append _)) in E. subst name. by rewrite isSegmentKey_SegmentName in Hn. Qed.

Lemma storedPart_insert s epoch st part key name data :
  isSegmentKey name = false → storedPart s epoch st part key →
  storedPart s epoch (<[L1Prefix s epoch +:+ name := data]> st) part key.
Proof.
  intros Hn (h & p & Hd & He & -> & Hst). exists h, p. split_and!; try done.
  rewrite lookup_insert_ne; [done|by apply metadata_name].
Qed.

Lemma gives_publish s epoch opts minTx f st m st' m' man :
  resourceClass s = false → gives (publish order rounds s epoch opts minTx f) st m st' m' man →
  onlyL1 s epoch st st' ∧ Forall2 (storedPart s epoch st') (fdParts f) (mnObjects man) ∧ mnMaxTxID man = fdMax f
  ∧ st' !! ManifestName s epoch = Some (marshal (stampManifest epoch t man)).
Proof.
  intros Hr. unfold publish. destruct (firstMap (fdParts f)) as [[ps cm]|e]; [|by intros (_ & _ & ?)%gives_ret].
  intros (st1 & m1 & keys & Ha & Hg)%gives_check. apply gives_appendParts in Ha as (_ & Ho & Hall); [|done].
  destruct (indexEntries keys (fdParts f)) as [entries|e]; [|by apply gives_ret in Hg as (_ & _ & ?)].
  apply gives_check in Hg as (st2 & m2 & u2 & Hi%gives_onEpoch%gives_onReplica & Hg).
  apply gives_PutIndex in Hi as (data & _ & ->); [|done].
  apply gives_check in Hg as (st3 & m3 & u3 & [-> ->]%gives_verify & Hg). cbv zeta in Hg.
  apply gives_check in Hg as (st4 & m4 & u4 & Hm%gives_onEpoch%gives_onReplica & (-> & -> & [= <-])%gives_ret).
  apply gives_PutManifest in Hm as ->; [|done]. split_and!; [| |done|apply lookup_insert_eq].
  - eapply onlyL1_trans; [|apply onlyL1_insert]. eapply onlyL1_trans; [exact Ho|apply onlyL1_insert].
  - eapply Forall2_impl; [exact Hall|]. intros part key Hp.
    apply storedPart_insert; [vm_compute; done|]. apply storedPart_insert; [vm_compute; done|done].
Qed.

(** ** The restore after it *)

(** What gathering adds for the compacted objects. *)
Lemma gives_gatherL1 s epoch man parts keys objs g st m st' m' g' :
  Forall2 (storedPart s epoch st) parts keys → Forall (λ k, k ∈ mnObjects man) keys →
  Forall (λ part, Split part = Ok [part]) parts →
  Forall (λ part, ∀ h p, Decode part = Ok (h, p) → ¬ crashed s epoch st h) parts →
  NoDup ((λ part, ID (headOf part)) <$> parts) → (∀ part, part ∈ parts → ID (headOf part) ∉ gaSeen g) →
  gatherOk s epoch st (mnMaxTxID man) g →
  gives (gatherObjects s epoch (Some man) (zip keys parts ++ objs) g) st m st' m' g' →
  ∃ g1 new, gives (gatherObjects s epoch (Some man) objs g1) st m st' m' g'
    ∧ gatherOk s epoch st (mnMaxTxID man) g1 ∧ gaSegments g1 = gaSegments g ++ new ∧ sgRaw <$> new = parts.
Proof.
  intros Hst. revert g. induction Hst as [|part key parts keys (h & p & Hd & He & Hkey & Hl) Hst IH];
    intros g Hin Hsp Hcr Hnd Hfresh Hok Hg.
  { exists g, []. split_and!; try done. by rewrite app_nil_r. }
  apply Forall_cons in Hin as [Hin1 Hin]. apply Forall_cons in Hsp as [Hsp1 Hsp]. apply Forall_cons in Hcr as [Hcr1 Hcr].
  rewrite fmap_cons in Hnd. apply NoDup_cons in Hnd as [Hnot Hnd].
  cbn [zip zip_with app gatherObjects] in Hg. rewrite Hsp1 in Hg.
  apply gives_check in Hg as (st1 & m1 & g1 & Hparts & Hg). cbn [gatherParts] in Hparts. rewrite Hd in Hparts.
  apply gives_check in Hparts as (st2 & m2 & [drop g2] & Hdrop & Hret).
  eapply gives_dropPartial in Hdrop as (-> & -> & Hok2 & Eseen & Esegs & Hdrop); [|exact Hok].
  destruct drop; [by destruct (Hcr1 h p Hd); apply Hdrop|]. apply gives_ret in Hret as (-> & -> & [= <-]).
  assert (headOf part = h) as Hh by (unfold headOf; by rewrite Hd).
  assert (ID h ∉ gaSeen g2) as Hn by (rewrite Eseen, <-Hh; apply Hfresh; by left).
  rewrite (bool_decide_eq_true_2 _ Hin1) in Hg. cbn [mnMaxTxID] in Hg.
  set (g3 := addSegment true (mnMaxTxID man) (key +:+ "#" +:+ fmt_d 0) h part g2) in *.
  assert (g3 = MkGather ({[ID h]} ∪ gaSeen g2) (gaPartial g2) (gaComplete g2)
                 (gaSegments g2 ++ [MkSegment (key +:+ "#" +:+ fmt_d 0) h part])) as Eg3.
  { unfold g3, addSegment. by rewrite decide_False by done. }
  destruct (addSegment_ok s epoch st (mnMaxTxID man) true (key +:+ "#" +:+ fmt_d 0) h part p g2 Hok2 Hd) as (Hok3 & _ & _).
  fold g3 in Hok3.
  destruct (IH g3) as (g4 & new & Hg4 & Hok4 & Es4 & Er4); try done.
  { intros part' Hp'. rewrite Eg3. cbn [gaSeen]. rewrite Eseen. intros [E%elem_of_singleton|Hs]%elem_of_union.
    - apply Hnot. rewrite Hh, <-E. by apply (list_elem_of_fmap_2 (λ part, ID (headOf part))).
    - apply (Hfresh part'); [by right|done]. }
  exists g4, (MkSegment (key +:+ "#" +:+ fmt_d 0) h part :: new). split_and!; try done.
  - rewrite Es4, Eg3. cbn [gaSegments]. by rewrite Esegs, <-app_assoc.
  - rewrite fmap_cons, Er4. done.
Qed.

(** Only markers come from what is behind the manifest. *)
Definition markerSegment (sg : Segment) : Prop :=
  hKind (sgHeader sg) = KindMarker ∧ ∃ p, Decode (sgRaw sg) = Ok (sgHeader sg, p).

Lemma gives_gatherL0_parts s epoch man key i parts g st m st' m' g' :
  0 < mnMaxTxID man → key ∉ mnObjects man →
  Forall (λ part, ∀ h p, Decode part = Ok (h, p) → hEndTxID h ≤ mnMaxTxID man) parts →
  gatherOk s epoch st (mnMaxTxID man) g →
  gives (gatherParts s epoch (Some man) key i parts g) st m st' m' g' →
  st' = st ∧ m' = m ∧ gatherOk s epoch st (mnMaxTxID man) g'
  ∧ ∃ new, gaSegments g' = gaSegments g ++ new ∧ Forall markerSegment new.
Proof.
  intros Hfl Hkey. revert i g. induction parts as [|part parts IH]; intros i g Hb Hok; cbn [gatherParts].
  { intros (-> & -> & [= <-])%gives_ret. split_and!; try done. exists []. by rewrite app_nil_r. }
  apply Forall_cons in Hb as [Hb1 Hb].
  destruct (Decode part) as [[h p]|e] eqn:Hd; [|by intros (_ & _ & ?)%gives_ret].
  intros (st1 & m1 & [drop g1] & Hdrop & Hrest)%gives_check.
  eapply gives_dropPartial in Hdrop as (-> & -> & Hok1 & _ & Esegs & _); [|exact Hok].
  rewrite (bool_decide_eq_false_2 _ Hkey) in Hrest. cbn [mnMaxTxID] in Hrest.
  set (sgn := key +:+ "#" +:+ fmt_d i) in *. set (g2 := if drop then g1 else _) in *.
  assert (gatherOk s epoch st (mnMaxTxID man) g2
    ∧ ∃ new, gaSegments g2 = gaSegments g ++ new ∧ Forall markerSegment new) as (Hok2 & new & Es2 & Hnew).
  { unfold g2. clear Hrest. destruct drop; [split; [done|]; exists []; by rewrite app_nil_r, Esegs|].
    destruct (addSegment_ok s epoch st (mnMaxTxID man) false sgn h part p g1 Hok1 Hd) as (Hok2 & _ & _).
    split; [done|]. unfold addSegment. case_decide; [exists []; by rewrite app_nil_r, Esegs|].
    rewrite !bool_decide_eq_true_2 by (done || by eapply Hb1). cbn [negb andb].
    case_bool_decide as Hk; cbn [gaSegments]; [exists []; by rewrite app_nil_r, Esegs|].
    exists [MkSegment sgn h part]. rewrite Esegs. split; [done|]. constructor; [|done].
    split; [done|by exists p]. }
  apply IH in Hrest as (-> & -> & Hok' & new' & Es' & Hnew'); [|done..].
  split_and!; try done. exists (new ++ new'). rewrite Es', Es2, app_assoc. split; [done|]. by apply Forall_app.
Qed.

Lemma gives_gatherL0 s epoch man objs g st m st' m' g' :
  0 < mnMaxTxID man →
  Forall (λ '(key, raw), (key ∉ mnObjects man) ∧ (∀ parts, Split raw = Ok parts →
    Forall (λ part, ∀ h p, Decode part = Ok (h, p) → hEndTxID h ≤ mnMaxTxID man) parts)) objs →
  gatherOk s epoch st (mnMaxTxID man) g →
  gives (gatherObjects s epoch (Some man) objs g) st m st' m' g' →
  ∃ new, gaSegments g' = gaSegments g ++ new ∧ Forall markerSegment new.
Proof.
  intros Hfl. revert g. induction objs as [|[key raw] objs IH]; intros g Hb Hok; cbn [gatherObjects].
  { intros (-> & -> & [= <-])%gives_ret. exists []. by rewrite app_nil_r. }
  apply Forall_cons in Hb as [[Hkey Hb1] Hb]. destruct (Split raw) as [parts|e]; [|by intros (_ & _ & ?)%gives_ret].
  intros (st1 & m1 & g1 & Hp & Hrest)%gives_check.
  apply gives_gatherL0_parts in Hp as (-> & -> & Hok1 & new & Es & Hnew); [|done|done|by apply Hb1|done].
  apply IH in Hrest as (new' & Es' & Hnew'); [|done..].
  exists (new ++ new'). rewrite Es', Es, app_assoc. split; [done|]. by apply Forall_app.
Qed.

Lemma firstOf_nodup keys seen : NoDup keys → (∀ k, k ∈ keys → k ∉ seen) → firstOf seen keys = keys.
Proof.
  intros Hnd. revert seen. induction Hnd as [|k keys Hnot Hnd IH]; intros seen Hs; [done|]. cbn [firstOf].
  rewrite decide_False by (apply Hs; by left). f_equal. apply IH. intros k' Hk'.
  intros [->%elem_of_singleton|Hin]%elem_of_union; [done|]. by apply (Hs k'); [right|].
Qed.

(** Parts with distinct identities have distinct names. *)
Lemma storedPart_keys s epoch st parts keys :
  Forall2 (storedPart s epoch st) parts keys → NoDup ((λ part, ID (headOf part)) <$> parts) → NoDup keys.
Proof.
  induction 1 as [|part key parts keys (h & p & Hd & _ & _ & Hst) Hall IH]; [constructor|].
  rewrite fmap_cons. intros [Hnot Hnd]%NoDup_cons. constructor; [|by apply IH]. intros [i Hi]%list_elem_of_lookup.
  destruct (Forall2_lookup_r _ _ _ _ _ Hall Hi) as (part' & Hp' & h' & p' & _ & _ & _ & Hst').
  rewrite Hst in Hst'. injection Hst' as ->. apply Hnot.
  apply (list_elem_of_fmap_2 (λ part, ID (headOf part))). by eapply list_elem_of_lookup_2.
Qed.

(** Every segment of the epoch ends within the bound. *)
Definition endsBy (s : Scope) (epoch : Z) (st : store) (bound : Z) : Prop :=
  ∀ k raw parts part h p, hasPrefix (LtxPrefix s epoch) k = true → isL0Key s epoch k = true → st !! k = Some raw →
    Split raw = Ok parts → part ∈ parts → Decode part = Ok (h, p) → hEndTxID h ≤ bound.

Lemma parts_epoch s epoch st parts keys rs mg :
  Forall2 (storedPart s epoch st) parts keys → partsOf parts rs mg → epoch = mEpoch mg.
Proof.
  intros Hst Hof. destruct parts as [|part parts]; [by destruct (po_nonempty _ _ _ Hof)|].
  apply Forall2_cons_inv_l in Hst as (key & keys' & (h & p & Hd & He & _) & _ & _).
  destruct (part_decode _ _ part (po_read _ _ _ Hof)) as (k & r & _ & Hrk & _ & p' & Hd'); [by left|].
  rewrite Hd in Hd'. injection Hd' as -> _. apply (po_all _ _ _ Hof) in Hrk as (_ & <- & _). done.
Qed.

Lemma gather_decodes s epoch st floor g :
  gatherOk s epoch st floor g → ∀ sg, sg ∈ gaSegments g → ∃ p, Decode (sgRaw sg) = Ok (sgHeader sg, p).
Proof. intros Hok. apply Forall_forall, (gather_decoded _ _ _ _ _ Hok). Qed.

Lemma restored_compacted s epoch st man parts rs mg m st' m' segs :
  resourceClass s = false → st !! ManifestName s epoch = Some (marshal man) →
  Forall2 (storedPart s epoch st) parts (mnObjects man) → partsOf parts rs mg →
  Forall (λ part, Split part = Ok [part]) parts → NoDup ((λ part, ID (headOf part)) <$> parts) →
  0 < mnMaxTxID man → endsBy s epoch st (mnMaxTxID man) →
  (∀ h, hEndTxID h = mWatermark mg → ¬ crashed s epoch st h) →
  gives (restoreOnce order rounds s epoch) st m st' m' segs →
  (∀ sg, sg ∈ segs → hEpoch (sgHeader sg) = epoch ∧ txidOk (hStartTxID (sgHeader sg)) ∧ txidOk (hEndTxID (sgHeader sg))) →
  markersOk (sgHeader <$> segs) → mergeChain (sgRaw <$> segs) = Ok mg.
Proof.
  intros Hr Hman Hst Hof Hsp Hnd Hfl Hends Hcr Hg Hmk Hmarkers.
  apply gives_restoreOnce, gives_restoreSteps in Hg as (_ & _ & man' & objs & g & Hm & Ho & Hobjs & Hgather & ->); [|done].
  apply gives_ReadManifest in Hm as (_ & _ & Hm). rewrite Hman in Hm. destruct Hm as (x & Hx & ->).
  rewrite unmarshal_marshal in Hx. injection Hx as <-.
  pose proof (storedPart_keys _ _ _ _ _ Hst Hnd) as Hkeys.
  cbn [restoreKeys] in Ho. rewrite firstOf_nodup in Ho by (done || set_solver).
  set (l0 := filter _ _) in Ho.
  assert (∃ objs0, objs = zip (mnObjects man) parts ++ objs0 ∧ objs0.*1 = l0) as (objs0 & -> & Hl0).
  { apply fmap_app_inv in Ho as (o1 & o2 & E1 & E2 & ->). exists o2. split; [|done]. f_equal.
    apply Forall_app in Hobjs as [Hobjs _]. clear -Hobjs E1 Hst. revert o1 E1 Hobjs.
    induction Hst as [|part key parts keys (h & p & _ & _ & _ & Hl) Hst IH]; intros [|[k raw] o1] E1 Hobjs; try done.
    rewrite fmap_cons in E1. injection E1 as E1 E1'. simpl in E1. subst k. apply Forall_cons in Hobjs as [Hraw Hobjs].
    rewrite Hl in Hraw. injection Hraw as <-. simpl. f_equal. by apply IH. }
  apply Forall_app in Hobjs as [_ Hobjs].
  pose proof Hgather as (_ & _ & Hokg & _)%gives_gatherObjects; [|apply gather_empty].
  eapply gives_gatherL1 in Hgather as (g1 & new & Hg1 & Hok1 & Es1 & Er1); try done.
  - apply gives_gatherL0 in Hg1 as (new' & Es & Hnew); [|done| |done].
    + rewrite Es, Es1 in *. cbn [gaSegments app] in *.
      apply (merge_partsOf _ parts (sgRaw <$> new') rs); [done| | |].
      * by rewrite merge_sort_Permutation, fmap_app, Er1.
      * apply Forall_fmap. apply Forall_forall. intros sg Hsg. rewrite Forall_forall in Hnew.
        destruct (Hnew sg Hsg) as [Hk [p Hd]]. destruct (Hmk sg) as (He & Ht); [rewrite merge_sort_Permutation; set_solver|].
        exists (sgHeader sg), p. split_and!; try done; try apply Ht. rewrite He. by eapply parts_epoch.
      * assert (headOf <$> (sgRaw <$> merge_sort seg_le (new ++ new')) = sgHeader <$> merge_sort seg_le (new ++ new')) as ->; [|done].
        rewrite <-list_fmap_compose. apply list_fmap_ext. intros i sg Hi. unfold compose, headOf.
        apply list_elem_of_lookup_2 in Hi. rewrite merge_sort_Permutation in Hi.
        destruct (gather_decodes _ _ _ _ _ Hokg sg) as [p Hp]; [by rewrite Es|]. by rewrite Hp.
    + apply Forall_forall. intros [key raw] Hin. rewrite Forall_forall in Hobjs. pose proof (Hobjs _ Hin) as Hraw.
      assert (key ∈ l0) as Hkey by (rewrite <-Hl0; by apply (list_elem_of_fmap_2 fst) in Hin).
      apply list_elem_of_filter in Hkey as [_ Hkey]. apply list_elem_of_filter in Hkey as [Hisl0 [Hpre _]%elem_of_keysOf].
      split.
      * intros [i Hi]%list_elem_of_lookup. destruct (Forall2_lookup_r _ _ _ _ _ Hst Hi) as (part & _ & h & p & _ & _ & -> & _).
        unfold isL0Key in Hisl0. apply andb_true_iff in Hisl0 as [Hn%negb_true_iff _]. apply not_true_iff_false in Hn.
        apply Hn, hasPrefix_app. by eexists.
      * intros ps Hps. apply Forall_forall. intros part Hpart h p Hd. exact (Hends key raw ps part h p Hpre Hisl0 Hraw Hps Hpart Hd).
  - apply Forall_forall. done.
  - apply Forall_forall. intros part Hpart h p Hd. apply Hcr.
    destruct (part_decode _ _ part (po_read _ _ _ Hof) Hpart) as (k & r & _ & Hrk & _ & p' & Hd').
    rewrite Hd in Hd'. injection Hd' as -> _. by apply (po_all _ _ _ Hof) in Hrk as (_ & _ & _ & -> & _).
  - apply gather_empty.
Qed.

(** ** The inputs *)

(** The objects that a compaction folds. *)
Definition oldObjects (man : option Manifest) : list string := match man with Some man => mnObjects man | None => [] end.

Definition epochInputs (s : Scope) (epoch : Z) : prog (result compactError scan) :=
  man ←! onEpoch (onReplica (ReadManifest s epoch));
  l0 ←! onEpoch (onReplica (ListL0Segments s epoch));
  '(x, _) ←! readL0 (mnMaxTxID <$> man) l0 noScan 0;
  readL1 (oldObjects man) x.

(** What is seen ends by the largest transaction, and there is something new above the floor. *)
Record scanOk (floor : option Z) (x : scan) : Prop := {
  scan_ends h : wf_header h → ID h ∈ scSeen x → hEndTxID h ≤ scMax x;
  scan_new f : floor = Some f → scNew x ≠ 0 → f ≤ scMax x;
  scan_count : 0 ≤ scNew x;
}.

(** The scan only grows. *)
Definition grows (x y : scan) : Prop := scSeen x ⊆ scSeen y ∧ scMax x ≤ scMax y ∧ scNew x ≤ scNew y.

Lemma kept_refl x : grows x x.
Proof. done. Qed.

Lemma grows_trans x y z : grows x y → grows y z → grows x z.
Proof. intros (? & ? & ?) (? & ? & ?). split_and!; [by etrans|lia|lia]. Qed.

Lemma addPart_ok floor new h p part x :
  Decode part = Ok (h, p) → scanOk floor x → (new = true → ∀ f, floor = Some f → f < hEndTxID h) →
  scanOk floor (addPart new h part x) ∧ grows x (addPart new h part x) ∧ ID h ∈ scSeen (addPart new h part x).
Proof.
  intros Hd [He Hn Hc] Hf. split_and!.
  - split; cbn [addPart scSeen scMax scNew].
    + intros h' Hw [E%elem_of_singleton|Hs]%elem_of_union.
      * apply ID_fields in E as (_ & _ & _ & -> & _); [|done|by eapply Decode_wf]. case_decide; lia.
      * specialize (He h' Hw Hs). case_decide; lia.
    + intros f Ef Hne. destruct new; [specialize (Hf eq_refl f Ef)|specialize (Hn f Ef Hne)]; case_decide; lia.
    + destruct new; lia.
  - split_and!; cbn [addPart scSeen scMax scNew]; [set_solver|case_decide; lia|destruct new; lia].
  - cbn [addPart scSeen]. set_solver.
Qed.

Lemma scanL0_ok floor parts x fresh y fresh' :
  scanOk floor x → scanL0 floor parts x fresh = Ok (y, fresh') →
  scanOk floor y ∧ grows x y
  ∧ Forall (λ part, ∃ h p, Decode part = Ok (h, p) ∧ ((∃ f, floor = Some f ∧ hEndTxID h ≤ f) ∨ ID h ∈ scSeen y)) parts.
Proof.
  revert x fresh. induction parts as [|part parts IH]; intros x fresh Hok E; cbn [scanL0] in E; inv_ok; simplify_eq.
  { split_and!; [done|apply kept_refl|constructor]. }
  destruct a as [h p]. destruct (match floor with Some f => bool_decide (hEndTxID h ≤ f) | None => false end) eqn:Hfl.
  - apply IH in E as (Hok' & Hg & Hall); [|done]. split_and!; try done. constructor; [|done]. exists h, p. split; [done|]. left.
    destruct floor as [f|]; [|done]. exists f. by apply bool_decide_eq_true in Hfl.
  - set (x1 := if decide (ID h ∈ scSeen x) then x else addPart true h part x) in *.
    assert (scanOk floor x1 ∧ grows x x1 ∧ ID h ∈ scSeen x1) as (Hok1 & Hg1 & Hin).
    { unfold x1. case_decide; [by split_and!; [|apply kept_refl|]|]. eapply addPart_ok; [done|done|].
      intros _ f ->. apply bool_decide_eq_false in Hfl. lia. }
    apply IH in E as (Hok' & Hg & Hall); [|done]. split_and!; [done|by eapply grows_trans|]. constructor; [|done].
    exists h, p. split; [done|]. right. by apply Hg.
Qed.

Lemma gives_readL0 floor keys x n st m st' m' y n' :
  scanOk floor x → gives (readL0 floor keys x n) st m st' m' (y, n') →
  scanOk floor y ∧ grows x y
  ∧ ∀ key raw parts part h p, key ∈ keys → st !! key = Some raw → Split raw = Ok parts → part ∈ parts →
      Decode part = Ok (h, p) → (∃ f, floor = Some f ∧ hEndTxID h ≤ f) ∨ ID h ∈ scSeen y.
Proof.
  revert x n. induction keys as [|key keys IH]; intros x n Hok; cbn [readL0].
  { intros (-> & -> & [= <- <-])%gives_ret. split_and!; [done|apply kept_refl|]. intros ? ? ? ? ? ? ?%elem_of_nil. done. }
  intros (st1 & m1 & raw & (-> & -> & Hraw)%gives_onEpoch%gives_onReplica%gives_ReadSegment & Hg)%gives_check.
  destruct (Split raw) as [parts|e] eqn:Hsp; cbn [rmap_err rbind] in Hg; [|by apply gives_ret in Hg as (_ & _ & ?)].
  destruct (scanL0 floor parts x false) as [[x1 fresh]|e] eqn:Hs; [|by apply gives_ret in Hg as (_ & _ & ?)].
  apply scanL0_ok in Hs as (Hok1 & Hg1 & Hall1); [|done]. apply IH in Hg as (Hok' & Hg' & Hall); [|done].
  split_and!; [done|by eapply grows_trans|].
  intros key' raw' parts' part h p [->|Hin]%elem_of_cons Hraw' Hsp' Hpart Hd; [|by eapply Hall].
  rewrite Hraw in Hraw'. simplify_eq. rewrite Hsp in Hsp'. simplify_eq. rewrite Forall_forall in Hall1.
  destruct (Hall1 part Hpart) as (h' & p' & Hd' & Hcase). rewrite Hd in Hd'. simplify_eq.
  destruct Hcase as [?|Hs]; [by left|right]. by apply Hg'.
Qed.

Lemma gives_readL1 keys x st m st' m' y :
  scanOk None x → gives (readL1 keys x) st m st' m' y → scanOk None y ∧ grows x y.
Proof.
  revert x. induction keys as [|key keys IH]; intros x Hok; cbn [readL1].
  { intros (-> & -> & [= <-])%gives_ret. split; [done|apply kept_refl]. }
  intros (st1 & m1 & raw & (-> & -> & Hraw)%gives_onEpoch%gives_onReplica%gives_ReadSegment & Hg)%gives_check.
  destruct (Split raw) as [parts|e] eqn:Hsp; cbn [rmap_err rbind] in Hg; [|by apply gives_ret in Hg as (_ & _ & ?)].
  destruct (scanL1 parts x) as [x1|e] eqn:Hs; [|by apply gives_ret in Hg as (_ & _ & ?)].
  assert (scanOk None x1 ∧ grows x x1) as [Hok1 Hg1].
  { clear -Hok Hs. revert x Hok Hs. induction parts as [|part parts IH]; intros x Hok Hs; cbn [scanL1] in Hs; inv_ok; simplify_eq.
    { split; [done|apply kept_refl]. }
    destruct a as [h p]. apply IH in Hs as [Hok' Hg'].
    - split; [done|]. eapply grows_trans; [|exact Hg']. case_decide; [apply kept_refl|].
      by destruct (addPart_ok None false h p part x Ha Hok) as (_ & Hgr & _).
    - case_decide; [done|]. by destruct (addPart_ok None false h p part x Ha Hok) as (Hok1 & _). }
  apply IH in Hg as [Hok' Hg']; [|done]. split; [done|by eapply grows_trans].
Qed.

(** ** The steps of a compaction *)

Context (compression paged : bool) (opts : Options (C := C)) (Hon : opOffline opts = false).

Abbreviation ends p st m st' m' r := (alone t cb p st m = Some (st', m', r)).

Lemma ends_bind {A B} (p : prog A) (k : A → prog B) st m st' m' b :
  ends (p ≫= k) st m st' m' b → ∃ st1 m1 a, ends p st m st1 m1 a ∧ ends (k a) st1 m1 st' m' b.
Proof. rewrite alone_mbind. destruct (alone t cb p st m) as [[[st1 m1] a]|]; [|done]. intros E. by exists st1, m1, a. Qed.

Lemma ends_silent {A B} (p : prog A) (k : A → prog B) st m st' m' b :
  silent p → ends (p ≫= k) st m st' m' b → ∃ a, ends p st m st m a ∧ ends (k a) st m st' m' b.
Proof.
  intros Hp (st1 & m1 & a & E & Hk)%ends_bind. pose proof E as [-> ->]%silent_alone; [|done]. by exists a.
Qed.

(** A compaction that is skipped says so. *)
Lemma skipped_finish s epoch floor covered res st m st' m' res' err :
  rsCompacted res = false → ends (finishSkipped order rounds paged s epoch floor opts covered res) st m st' m' (res', err) →
  rsCompacted res' = false.
Proof.
  intros Hres. unfold finishSkipped. rewrite Hon. intros (st1 & m1 & [[[a b] c] d] & _ & Hk)%ends_bind.
  apply ends_bind in Hk as (st2 & m2 & res2 & Ha & [= _ _ <- _]). revert Ha. unfold addDeferredMetadataAccounting.
  case_decide; [by intros [= _ _ <-]|]. intros (st3 & m3 & acc & _ & [= _ _ <-])%ends_bind. done.
Qed.

Lemma removed_old s epoch l0 oldL1 man res st m st' m' res' err :
  ends (removeOld order rounds paged s epoch opts l0 oldL1 man res) st m st' m' (res', err) →
  st' = st ∧ rsMaxTxID res' = rsMaxTxID res.
Proof.
  intros He. pose proof He as [-> ->]%silent_alone; [|by apply silent_removeOld]. split; [done|]. revert He. unfold removeOld.
  destruct (negb (opGC opts)); [by intros [= <- _]|]. rewrite Hon. cbn [negb].
  intros (p & _ & Hk)%ends_silent; [|apply silent_preflightL0]. apply ends_bind in Hk as (st2 & m2 & res2 & Ha & [= _ _ <- _]).
  revert Ha. unfold addDeferredMetadataAccounting. case_decide; [by intros [= _ _ <-]|].
  intros (st3 & m3 & acc & _ & [= _ _ <-])%ends_bind. done.
Qed.

Context (s : Scope) (epoch : Z) (Hr : resourceClass s = false).

(** What a compaction did that reports success. *)
Record compactedBy (st : store) (m : Manager) (st' : store) (res : Result) (man : option Manifest) (x y : scan) (f : folding)
    (man' : Manifest) : Prop := {
  cb_manifest : gives (ReadManifest s epoch) st m st m man;
  cb_l0 : ∃ n, gives (readL0 (mnMaxTxID <$> man) (filter (λ k, isL0Key s epoch k = true) (keysOf (LtxPrefix s epoch) st)) noScan 0)
    st m st m (x, n);
  cb_new : man ≠ None → scNew x ≠ 0;
  cb_l1 : gives (readL1 (oldObjects man) x) st m st m y;
  cb_fold : gives (foldInputs order rounds compression s epoch opts y) st m st m f;
  cb_publish : ∃ m', gives (publish order rounds s epoch opts (scMin y) f) st m st' m' man';
  cb_max : rsMaxTxID res = mnMaxTxID man';
}.

Lemma compactInputs_steps l0 man x st m st' m' res err :
  ends (compactInputs order rounds compression paged s epoch opts l0 man x) st m st' m' (res, err) → rsCompacted res = true →
  ∃ y f man', gives (readL1 (oldObjects man) x) st m st m y ∧ gives (foldInputs order rounds compression s epoch opts y) st m st m f
    ∧ (∃ m1, gives (publish order rounds s epoch opts (scMin y) f) st m st' m1 man') ∧ rsMaxTxID res = mnMaxTxID man'.
Proof.
  unfold compactInputs. cbv zeta. intros (r & Hl1 & Hk)%ends_silent; [|apply silent_readL1].
  destruct r as [y|e]; [|injection Hk as _ _ <- _; done].
  destruct (negb (scSnap y)); [injection Hk as _ _ <- _; done|].
  apply ends_bind in Hk as (st1 & m1 & r & Hp & Hk). destruct r as [[f man']|e]; [|injection Hk as _ _ <- _; done]. intros _.
  apply removed_old in Hk as [-> Hmax]. exists y, f, man'.
  apply gives_check in Hp as (st2 & m2 & u & [-> ->]%gives_verify & Hp).
  apply gives_check in Hp as (st3 & m3 & f' & Hf & Hp).
  apply gives_check in Hp as (st4 & m4 & man2 & Hpub & (-> & -> & [= -> ->])%gives_ret).
  pose proof Hf as [-> ->]%silent_alone;
    [|by apply (closed_foldInputs _ _ _ _ (@silent C Manager) silent_closed), silent_noFence].
  split_and!; try done. by exists m4.
Qed.

Lemma compactDecoded_steps l0 man covered st m st' m' res err :
  ends (compactDecoded order rounds compression paged s epoch opts l0 man covered) st m st' m' (res, err) →
  rsCompacted res = true →
  ∃ x y f man', (∃ n, gives (readL0 (mnMaxTxID <$> man) l0 noScan 0) st m st m (x, n)) ∧ (man ≠ None → scNew x ≠ 0)
    ∧ gives (readL1 (oldObjects man) x) st m st m y ∧ gives (foldInputs order rounds compression s epoch opts y) st m st m f
    ∧ (∃ m1, gives (publish order rounds s epoch opts (scMin y) f) st m st' m1 man') ∧ rsMaxTxID res = mnMaxTxID man'.
Proof.
  unfold compactDecoded. cbv zeta. intros (r & Hl0 & Hk)%ends_silent; [|apply silent_readL0]. intros Hres.
  destruct r as [[x n]|e]; [|injection Hk as _ _ <- _; done].
  destruct (negb (scSnap x) && _); [injection Hk as _ _ <- _; done|].
  destruct (bool_decide (scNew x = 0) && _) eqn:Hnew; [apply skipped_finish in Hk; [congruence|done]|].
  destruct (bool_decide _ && _ && _); [apply skipped_finish in Hk; [congruence|done]|].
  apply compactInputs_steps in Hk as (y & f & man' & Hl1 & Hf & Hp & Hmax); [|done].
  exists x, y, f, man'. split_and!; try done; [by exists n|].
  intros Hm E0. rewrite !bool_decide_eq_true_2 in Hnew by done. done.
Qed.

Lemma compact_steps st m st' m' res err :
  ends (CompactEpoch order rounds compression paged s epoch opts) st m st' m' (res, err) → rsCompacted res = true →
  ∃ man x y f man', compactedBy st m st' res man x y f man'.
Proof.
  unfold CompactEpoch. intros (r & Hread & Hk)%ends_silent.
  2: { apply silent_check; [apply silent_onReplica, silent_ReadManifest|]. intros man.
       by apply silent_check; [apply silent_onReplica, silent_ListL0Segments|]. }
  intros Hres. destruct r as [[man l0]|e]; [|injection Hk as _ _ <- _; done].
  apply gives_check in Hread as (st1 & m1 & man1 & Hm%gives_onReplica & Hread). pose proof Hm as (-> & -> & _)%gives_ReadManifest.
  apply gives_check in Hread as (st2 & m2 & l1 & Hl%gives_onReplica & Hret).
  apply (gives_ListL0 order) in Hl as (-> & -> & ->). apply gives_ret in Hret as (_ & _ & [= -> <-]).
  assert (∃ covered, ends (compactDecoded order rounds compression paged s epoch opts
    (filter (λ k, isL0Key s epoch k = true) (keysOf (LtxPrefix s epoch) st)) man covered) st m st' m' (res, err)) as [covered Hd].
  { destruct man as [man|]; [|by eexists]. apply ends_silent in Hk as (pre & _ & Hk); [|apply silent_preflightL0].
    destruct (pfComplete pre && bool_decide _); [apply skipped_finish in Hk; [congruence|done]|].
    destruct (pfComplete pre && _); [apply skipped_finish in Hk; [congruence|done]|]. by eexists. }
  apply compactDecoded_steps in Hd as (x & y & f & man' & Hl0 & Hnew & Hl1 & Hf & Hp & Hmax); [|done].
  by exists man, x, y, f, man'.
Qed.

Lemma crashed_onlyL1 st st' h : onlyL1 s epoch st st' → crashed s epoch st' h ↔ crashed s epoch st h.
Proof.
  intros Ho. unfold crashed.
  assert (∀ suf, sepFree slash suf → st' !! (LtxPrefix s epoch +:+ (fmt_d (hEndTxID h) +:+ suf))
                                   = st !! (LtxPrefix s epoch +:+ (fmt_d (hEndTxID h) +:+ suf))) as Hk.
  { intros suf Hs. apply Ho, notL1, sepFree_app; [apply fmt_slash|done]. }
  unfold SnapshotStartedName, SnapshotDoneName. by rewrite !Hk by (vm_compute; intuition congruence).
Qed.

Lemma scanOk_none floor x : scanOk floor x → scanOk None x.
Proof. intros [He _ Hc]. by split. Qed.

Lemma noScan_ok floor : scanOk floor noScan.
Proof. split; [|done|done]. intros h _ ?%elem_of_empty. done. Qed.

(** The new floor is above every segment of the epoch. *)
Lemma compacted_ends st m st' res man x y f man' :
  compactedBy st m st' res man x y f man' → onlyL1 s epoch st st' → endsBy s epoch st' (scMax y).
Proof.
  intros [_ [n Hl0] Hnew Hl1 _ _ _] Ho k raw parts part h p Hpre Hk Hraw Hsp Hpart Hd.
  apply gives_readL0 in Hl0 as (Hok & _ & Hall); [|apply noScan_ok].
  apply gives_readL1 in Hl1 as [_ (_ & Hmax & _)]; [|by eapply scanOk_none].
  rewrite Ho in Hraw by (apply andb_true_iff in Hk as [Hn%negb_true_iff _]; done).
  destruct (Hall k raw parts part h p) as [(f0 & Ef & Hle)|Hseen]; [|done..| |].
  - apply list_elem_of_filter. split; [done|]. apply elem_of_keysOf. by eauto.
  - destruct man as [man|]; [|done]. pose proof (scan_new _ _ Hok f0 Ef (Hnew ltac:(done))). lia.
  - pose proof (scan_ends _ _ Hok h (Decode_wf _ _ _ Hd) Hseen). lia.
Qed.

Lemma epochInputs_scan st m st' res man x y f man' y' :
  compactedBy st m st' res man x y f man' → gives (epochInputs s epoch) st m st m y' → y' = y.
Proof.
  intros [Hm [n Hl0] _ Hl1 _ _ _] Hi. apply gives_check in Hi as (st1 & m1 & man1 & Hm1%gives_onEpoch%gives_onReplica & Hi).
  unfold gives, Restored.gives in *. rewrite Hm in Hm1. injection Hm1 as <- <- <-.
  apply gives_check in Hi as (st2 & m2 & l1 & Hl%gives_onEpoch%gives_onReplica & Hi).
  apply (gives_ListL0 order) in Hl as (-> & -> & ->).
  apply gives_check in Hi as (st3 & m3 & [x1 n1] & Hx & Hi). unfold Restored.gives in *. rewrite Hl0 in Hx.
  injection Hx as <- <- <- <-. rewrite Hl1 in Hi. by injection Hi.
Qed.

Lemma compaction_restores st m st' m' res err y mg parts m1 st2 m2 segs :
  ends (CompactEpoch order rounds compression paged s epoch opts) st m st' m' (res, err) → rsCompacted res = true →
  gives (epochInputs s epoch) st m st m y → mergeChain (scSegs y) = Ok mg →
  Compact compression (scSegs y) (opMaxPartBytes opts) = Ok parts → opMaxPartBytes opts ≤ 2 ^ 29 →
  txidOk (mWatermark mg) → NoDup ((λ part, ID (headOf part)) <$> parts) → 0 < rsMaxTxID res →
  (∀ h, hEndTxID h = mWatermark mg → ¬ crashed s epoch st h) →
  gives (restoreOnce order rounds s epoch) st' m1 st2 m2 segs →
  (∀ sg, sg ∈ segs → hEpoch (sgHeader sg) = epoch ∧ txidOk (hStartTxID (sgHeader sg)) ∧ txidOk (hEndTxID (sgHeader sg))) →
  markersOk (sgHeader <$> segs) → mergeChain (sgRaw <$> segs) = Ok mg.
Proof.
  intros Hc Hres Hi Hmg Hparts Hmax Htx Hnd Hpos Hcr Hg Hsegs Hmk.
  destruct (compact_steps _ _ _ _ _ _ Hc Hres) as (man & x & y' & f & man' & Hby).
  rewrite (epochInputs_scan _ _ _ _ _ _ _ _ _ _ Hby Hi) in Hmg, Hparts. destruct (cb_publish _ _ _ _ _ _ _ _ _ Hby) as [m3 Hpub].
  apply gives_publish in Hpub as (Ho & Hst & Hmx & Hman); [|done].
  pose proof (cb_fold _ _ _ _ _ _ _ _ _ Hby) as Hf. unfold foldInputs in Hf. rewrite Hparts in Hf.
  apply gives_ret in Hf as (_ & _ & [= <-]). cbn [fdParts fdMax] in *.
  destruct (compact_parts _ _ _ _ _ Hmg Hparts Hmax Htx) as [Hsp [rs Hof]].
  rewrite (cb_max _ _ _ _ _ _ _ _ _ Hby) in Hpos.
  eapply (restored_compacted s epoch st' (stampManifest epoch t man') parts rs mg); try done.
  - cbn [stampManifest mnMaxTxID]. rewrite Hmx. by eapply compacted_ends.
  - intros h He. rewrite crashed_onlyL1 by done. by apply Hcr.
Qed.
End alone.

(** ** Removing objects *)

Section removing.
Context `{Etag} `{replicaCodec} (order : list string → list string) (rounds : nat) {C : Type} (t : time) (cb : C → bool).
Abbreviation prog := (prog C Manager).
Abbreviation gives := (gives t cb).

(** Only proven payloads of the epochs in question are gone. *)
Definition removedOnly (s : Scope) (P : Z → Prop) (st st' : store) : Prop :=
  ∀ k, st' !! k = st !! k
    ∨ st' !! k = None ∧ ∃ e name raw, P e ∧ payloadName s e k = Some name ∧ st !! k = Some raw ∧ canonicalPayload e name raw = true.

Lemma removedOnly_refl s P st : removedOnly s P st st.
Proof. intros k. by left. Qed.

Lemma removedOnly_trans s P st1 st2 st3 : removedOnly s P st1 st2 → removedOnly s P st2 st3 → removedOnly s P st1 st3.
Proof.
  intros H12 H23 k. destruct (H23 k) as [E|(E & e & name & raw & Hp & Hn & Hs & Hc)]; [rewrite E; apply H12|].
  right. split; [done|]. exists e, name, raw. destruct (H12 k) as [E2|[E2 _]]; [by rewrite <-E2|congruence].
Qed.

Lemma removed_DeleteObject s epoch key opts (P : Z → Prop) st m st' m' r :
  P epoch → alone t cb (DeleteObjectWithOptions s epoch key opts) st m = Some (st', m', r) → removedOnly s P st st'.
Proof.
  intros HP. unfold DeleteObjectWithOptions. destruct (negb (roOffline opts)); [by intros [= <- _ _]; apply removedOnly_refl|].
  destruct (Validate s) as [u|e]; [|by intros [= <- _ _]; apply removedOnly_refl].
  destruct (payloadName s epoch key) as [name|] eqn:Hn; [|by intros [= <- _ _]; apply removedOnly_refl].
  rewrite alone_mbind. destruct (alone t cb (ReadSegment key) st m) as [[[st1 m1] x]|] eqn:Er; [|done].
  pose proof Er as [-> ->]%silent_alone; [|apply silent_ReadSegment]. cbn [mbind option_bind].
  destruct x as [raw|e]; [|intros He; assert (st' = st) as -> by (repeat case_match; by injection He); apply removedOnly_refl].
  apply gives_ReadSegment in Er as (_ & _ & Hraw).
  destruct (canonicalPayload epoch name raw) eqn:Hc; cbn [negb]; [|by intros [= <- _ _]; apply removedOnly_refl].
  rewrite alone_mbind. cbn [ctxErr alone mbind option_bind]. rewrite alone_check.
  destruct (alone t cb (verify (roVerify opts)) st m) as [[[st2 m2] v]|] eqn:Ev; [|done].
  pose proof Ev as [-> ->]%silent_alone; [|by destruct (roVerify opts)]. cbn [mbind option_bind].
  destruct v as [[]|e]; [|by intros [= <- _ _]; apply removedOnly_refl]. rewrite alone_check.
  unfold onReplica, onObjects, write. rewrite !alone_mbind.
  destruct (objectKey _ _) as [k|e] eqn:Ek; [|by cbn; intros [= <- _ _]; apply removedOnly_refl].
  apply objectKey_Ok in Ek as [-> _]. rewrite alone_mbind. cbn. intros [= <- _ _] k.
  destruct (decide (k = key)) as [->|Hne]; [|left; by rewrite lookup_delete_ne].
  right. rewrite lookup_delete_eq. split; [done|]. by exists epoch, name, raw.
Qed.

Lemma removed_deleteAll s epoch opts keys deleted (P : Z → Prop) st m st' m' r :
  P epoch → alone t cb (deleteAll s epoch opts keys deleted) st m = Some (st', m', r) → removedOnly s P st st'.
Proof.
  intros HP. revert deleted st m. induction keys as [|key keys IH]; intros deleted st m; cbn [deleteAll].
  { intros [= <- _ _]. apply removedOnly_refl. }
  rewrite alone_mbind. destruct (alone t cb (DeleteObjectWithOptions s epoch key opts) st m) as [[[st1 m1] x]|] eqn:E; [|done].
  apply (removed_DeleteObject _ _ _ _ P) in E; [|done]. cbn [mbind option_bind]. destruct x as [did|e].
  - intros Hg. eapply removedOnly_trans; [exact E|by eapply IH].
  - by intros [= <- _ _].
Qed.

Lemma removed_retireAll s keepFrom opts epochs deleted st m st' m' r :
  alone t cb (retireAll s keepFrom opts epochs deleted) st m = Some (st', m', r) →
  removedOnly s (λ e, e < keepFrom) st st'.
Proof.
  revert deleted st m. induction epochs as [|e epochs IH]; intros deleted st m; cbn [retireAll].
  { intros [= <- _ _]. apply removedOnly_refl. }
  case_decide as Hk; [apply IH|]. rewrite alone_mbind.
  destruct (alone t cb (onReplica _) st m) as [[[st1 m1] x]|] eqn:El; [|done].
  pose proof El as [-> ->]%silent_alone; [|apply silent_listing]. cbn [mbind option_bind].
  destruct x as [keys|err]; [|intros [= <- _ _]; apply removedOnly_refl]. rewrite alone_mbind.
  destruct (alone t cb (deleteAll s e opts keys deleted) st m) as [[[st2 m2] [n y]]|] eqn:Ed; [|done].
  apply (removed_deleteAll _ _ _ _ _ (λ e, e < keepFrom)) in Ed; [|lia]. cbn [mbind option_bind].
  destruct y as [u|err]; [|by intros [= <- _ _]]. intros Hg. eapply removedOnly_trans; [exact Ed|by eapply IH].
Qed.

(** Nothing is removed but payloads of earlier epochs, and then the current epoch was complete. *)
Lemma retired_only s current keepPrevious opts st m st' m' r :
  0 ≤ current → resourceClass s = false →
  alone t cb (RetireEpochsWithOptions order rounds s current keepPrevious opts) st m = Some (st', m', r) →
  removedOnly s (λ e, e < current) st st'
  ∧ (st' ≠ st → roOffline opts = true ∧ gives (HasCompleteSnapshot order rounds s current) st m st m true).
Proof.
  intros Hc Hr. unfold RetireEpochsWithOptions. destruct (roOffline opts) eqn:Ho; cbn [negb]; [|intros [= <- _ _]; split; [apply removedOnly_refl|done]].
  rewrite alone_mbind. destruct (alone t cb (HasCompleteSnapshot order rounds s current) st m) as [[[st1 m1] x]|] eqn:Eh; [|done].
  pose proof Eh as [-> ->]%silent_alone;
    [|by apply (closed_HasCompleteSnapshot _ _ (@silent C Manager) silent_closed), silent_noFence]. cbn [mbind option_bind].
  destruct x as [[|]|e]; [|by intros [= <- _ _]; split; [apply removedOnly_refl|]..]. cbv zeta. rewrite alone_mbind.
  destruct (alone t cb (Epochs s current) st m) as [[[st2 m2] y]|] eqn:Ee; [|done].
  pose proof Ee as [-> ->]%silent_alone; [|by apply silent_check; [apply silent_listing|]]. cbn [mbind option_bind].
  destruct y as [epochs|e]; [|by intros [= <- _ _]; split; [apply removedOnly_refl|]].
  intros Hg%removed_retireAll. split; [|done]. intros k. destruct (Hg k) as [|(Hn & e & name & raw & Hlt & ?)]; [by left|right].
  split; [done|]. exists e, name, raw. split; [|done]. revert Hlt. case_decide; lia.
Qed.
End removing.

(** ** Properties *)

(** C3: a compaction keeps the database. The cell has no deletion fence (it is not a KV
    or queue cell: [resourceClass s = false]); the compaction, and then the restore, run
    alone on a bucket that nobody else changes. When the inputs of an epoch, its
    compacted snapshot and its newer segments, merge to a database and fold into parts
    of at most [2^29] bytes, and a compaction that removes nothing (online) reports that
    it compacted up to a transaction above 0, then a later restore of the epoch that
    succeeds merges to that same database, pages, size and last transaction. This needs
    that the database's last transaction is in the range of object names, no two of the
    parts have the same identity, no unfinished snapshot stands at that transaction,
    and the segments that are restored are of the epoch, with transactions in that
    range and markers that agree. *)
Theorem compaction_keeps `{Etag} `{replicaCodec} {C : Type} order rounds t (cb : C → bool) compression paged opts s epoch
    st m st' m' res err y mg parts m1 st2 m2 segs :
  opOffline opts = false → resourceClass s = false →
  alone t cb (CompactEpoch order rounds compression paged s epoch opts) st m = Some (st', m', (res, err)) →
  rsCompacted res = true →
  gives t cb (epochInputs s epoch) st m st m y → mergeChain (scSegs y) = Ok mg →
  Compact compression (scSegs y) (opMaxPartBytes opts) = Ok parts → opMaxPartBytes opts ≤ 2 ^ 29 →
  txidOk (mWatermark mg) → NoDup ((λ part, ID (headOf part)) <$> parts) → 0 < rsMaxTxID res →
  (∀ h, hEndTxID h = mWatermark mg → ¬ crashed s epoch st h) →
  gives t cb (restoreOnce order rounds s epoch) st' m1 st2 m2 segs →
  (∀ sg, sg ∈ segs → hEpoch (sgHeader sg) = epoch ∧ txidOk (hStartTxID (sgHeader sg)) ∧ txidOk (hEndTxID (sgHeader sg))) →
  markersOk (sgHeader <$> segs) → mergeChain (sgRaw <$> segs) = Ok mg.
Proof. intros Hon Hr. by apply compaction_restores. Qed.

(** C13: retiring old epochs, of a cell without a deletion fence (not a KV or queue cell:
    [resourceClass s = false]), for a current epoch that is not negative, by a process
    that runs alone on the bucket, removes nothing but payloads that prove, by their
    name and content, to be of an epoch before the current one; manifests, links,
    proofs and everything of the current epoch stay as they are; and it removes
    something only offline, when the current epoch has a complete snapshot. *)
Theorem retire_keeps_current `{Etag} `{replicaCodec} {C : Type} order rounds t (cb : C → bool) s current keepPrevious opts
    st m st' m' r :
  0 ≤ current → resourceClass s = false →
  alone t cb (RetireEpochsWithOptions order rounds s current keepPrevious opts) st m = Some (st', m', r) →
  removedOnly s (λ e, e < current) st st'
  ∧ (st' ≠ st → roOffline opts = true ∧ gives t cb (HasCompleteSnapshot order rounds s current) st m st m true).
Proof. apply retired_only. Qed.

(** ** Examples *)

#[local] Existing Instance contentTag.
#[local] Existing Instance exampleReplicaCodec.

Definition putSegment (e : Z) (name : string) (raw : bytes) (st : store) : store :=
  <[LtxPrefix exampleRoom e +:+ name := raw]> st.

(** An epoch with a snapshot, two deltas and a marker. *)
Definition roomStore : store :=
  let seg i := default [] (witnessSegs !! i) in
  putSegment 4 "5.snapshot" (seg 1%nat) (putSegment 4 "6-6.ltx" (seg 2%nat) (putSegment 4 "7-8.ltx" (seg 0%nat)
    (putSegment 4 "5.marker" (Encode (MkHeader 1 KindMarker 0 4 5 4 0 0) []) ∅))).

Definition roomOptions : Options := MkOptions (C := Empty_set) 1 1 0 76 None true false.

Definition roomRun : option (store * Manager * (Result * option compactError)) :=
  alone atStart noCalls (CompactEpoch id 1 true true exampleRoom 4 roomOptions) roomStore newManager.

Definition roomInputs : scan := default noScan (answer (epochInputs exampleRoom 4) roomStore).
Definition roomParts : list bytes := match Compact true (scSegs roomInputs) 76 with Ok parts => parts | Err _ => [] end.

(** Two parts, up to transaction 8, and three objects that could be removed. *)
Definition roomResult (res : Result) : bool :=
  rsCompacted res && bool_decide (rsParts res = 2 ∧ rsMaxTxID res = 8 ∧ rsDeferredGC res = 3).

(** The markers agree, as a check. *)
Definition markersAgreeb (hs : list Header) : bool :=
  forallb (λ h, bool_decide (hKind h ≠ KindMarker)
    || (bool_decide (hStartTxID h ≠ 0 ∧ u64 (hStartTxID h - 1) = hEndTxID h)
        && forallb (λ h', bool_decide (hKind h' = KindMarker → hEpoch h' = hEpoch h → hEndTxID h' = hEndTxID h)) hs)) hs.

Lemma markersAgreeb_ok hs : markersAgreeb hs = true → markersOk hs.
Proof.
  unfold markersAgreeb. rewrite forallb_forall. intros Hall m Hm%list_elem_of_In Hk.
  specialize (Hall m Hm). rewrite bool_decide_eq_false_2 in Hall by tauto. cbn [orb] in Hall.
  apply andb_true_iff in Hall as [H1%bool_decide_eq_true H2]. split; [done|]. rewrite forallb_forall in H2.
  intros m' Hm'%list_elem_of_In. specialize (H2 m' Hm'). by apply bool_decide_eq_true in H2.
Qed.

Definition roomSegment (sg : Segment) : bool :=
  bool_decide (hEpoch (sgHeader sg) = 4 ∧ 0 ≤ hStartTxID (sgHeader sg) < 2 ^ 64 - 1 ∧ 0 ≤ hEndTxID (sgHeader sg) < 2 ^ 64 - 1).

(** The run succeeds, and a restore after it gives segments of the epoch with markers that agree. *)
Definition roomChecks : bool :=
  match roomRun with
  | Some (st, _, (res, None)) =>
      roomResult res
      && match answer (restoreOnce id 1 exampleRoom 4) st with
         | Some segs => forallb roomSegment segs && markersAgreeb (sgHeader <$> segs)
         | None => false
         end
  | _ => false
  end.

Lemma room_restored :
  ∃ st m res segs st' m', roomRun = Some (st, m, (res, None)) ∧ roomResult res = true
    ∧ gives atStart noCalls (restoreOnce id 1 exampleRoom 4) st newManager st' m' segs
    ∧ forallb roomSegment segs = true ∧ markersAgreeb (sgHeader <$> segs) = true.
Proof.
  assert (roomChecks = true) as Hc by (vm_compute; reflexivity). unfold roomChecks in Hc.
  destruct roomRun as [[[st m] [res [e|]]]|]; try done. apply andb_true_iff in Hc as [Hres Hc].
  destruct (answer (restoreOnce id 1 exampleRoom 4) st) as [segs|] eqn:Ea; [|done]. apply andb_true_iff in Hc as [H1 H2].
  apply answer_gives in Ea as (st' & m' & Hg). by exists st, m, res, segs, st', m'.
Qed.

Lemma room_inputs : gives atStart noCalls (epochInputs exampleRoom 4) roomStore newManager roomStore newManager roomInputs.
Proof.
  destruct (silent_returns atStart noCalls (epochInputs exampleRoom 4) roomStore newManager) as [r Hr].
  { unfold epochInputs. apply silent_check; [apply silent_onEpoch, silent_onReplica, silent_ReadManifest|]. intros man.
    apply silent_check; [apply silent_onEpoch, silent_onReplica, silent_ListL0Segments|]. intros l0.
    apply silent_check; [apply silent_readL0|]. intros [x n]. apply silent_readL1. }
  unfold gives, roomInputs, answer. rewrite Hr. destruct r as [y|e]; [done|]. exfalso.
  assert (match alone atStart noCalls (epochInputs exampleRoom 4) roomStore newManager with
          | Some (_, _, Ok _) => true | _ => false end = true) as Hb by (vm_compute; reflexivity).
  by rewrite Hr in Hb.
Qed.

Lemma compaction_keeps_witness :
  ∃ st m res segs, roomRun = Some (st, m, (res, None)) ∧ roomResult res = true
    ∧ answer (restoreOnce id 1 exampleRoom 4) st = Some segs ∧ mergeChain (sgRaw <$> segs) = Ok witnessMerged.
Proof.
  destruct room_restored as (st & m & res & segs & st' & m' & Hrun & Hres & Hg & Hsegs & Hmk).
  exists st, m, res, segs. split; [exact Hrun|]. split; [exact Hres|]. split; [unfold answer; by rewrite Hg|].
  apply andb_true_iff in Hres as [Hdone Hmax%bool_decide_eq_true].
  eapply (compaction_keeps id 1 atStart noCalls true true roomOptions exampleRoom 4 roomStore newManager st m res None
    roomInputs witnessMerged roomParts newManager st' m' segs).
  - reflexivity.
  - vm_compute. reflexivity.
  - exact Hrun.
  - exact Hdone.
  - exact room_inputs.
  - vm_compute. reflexivity.
  - vm_compute. reflexivity.
  - vm_compute. discriminate.
  - unfold txidOk. vm_compute. split; [discriminate|reflexivity].
  - apply (bool_decide_unpack _). vm_compute. exact I.
  - lia.
  - intros h He (_ & [d Hd] & _). rewrite He in Hd. vm_compute in Hd. discriminate Hd.
  - exact Hg.
  - intros sg Hsg. rewrite forallb_forall in Hsegs. apply list_elem_of_In in Hsg. by apply Hsegs, bool_decide_eq_true in Hsg.
  - by apply markersAgreeb_ok.
Defined.

(** *** Limits *)

(** A part of a newer snapshot whose first part is missing raises the transaction that the manifest
    claims, but not the image: the compaction reports 9, the restore reaches 8, and a delta
    that arrives later for transaction 9 is then taken for folded. *)
Example compacted_beyond_image :
  let part := Encode (MkHeader 1 KindSnapshot (flagSnapshotPaged + 1) 4 9 9 0 0) (bs "pages") in
  let delta := witnessSeg KindDelta 9 9 3 [MkWALPage 3 (bs "C9")] in
  match alone atStart noCalls (CompactEpoch id 1 true true exampleRoom 4 roomOptions)
          (putSegment 4 "9.p1.snapshot" part roomStore) newManager with
  | Some (st, _, (res, None)) =>
      (rsCompacted res, rsMaxTxID res,
       segs ← answer (restoreOnce id 1 exampleRoom 4) (putSegment 4 "9-9.ltx" delta st);
       match mergeChain (sgRaw <$> segs) with Ok m => Some (mWatermark m) | Err _ => None end)
  | _ => (false, 0, None)
  end = (true, 9, Some 8).
Proof. vm_compute. reflexivity. Qed.

(** An append accepts bytes behind the segment, and the epoch can no longer be restored. *)
Example appended_with_trailing_byte :
  match alone atStart noCalls (Append id 1 exampleRoom 7 (exampleSegment 1 ++ [x00])) ∅ newManager with
  | Some (st, _, Ok _) =>
      match alone atStart noCalls (restoreOnce id 1 exampleRoom 7) st newManager with
      | Some (_, _, Err (ErrCorruptObject _)) => true
      | _ => false
      end
  | _ => false
  end = true.
Proof. vm_compute. reflexivity. Qed.

(** A snapshot that was uploaded as a batch of parts, and marked as done, makes the epoch complete, but the
    restore over the epochs does not count it as one to start from. *)
Example batched_snapshot_no_base :
  match Compact true witnessSegs 76 with
  | Ok [p0; p1] =>
      let st := putSegment 4 "8.p0-p1.s.batch" (p0 ++ p1) (putSegment 4 "8.snapshot-done" (bs "{}") ∅) in
      (answer (HasCompleteSnapshot id 1 exampleRoom 4) st, lastBase (groupsAt exampleRoom 0 st) (epochsAt exampleRoom 0 st))
  | _ => (None, None)
  end = (Some true, None).
Proof. vm_compute. reflexivity. Qed.

(** The compacted epoch, and a next one with a whole snapshot. *)
Definition nextEpochStore : store :=
  match roomRun with
  | Some (st, _, _) =>
      let full := match Compact true witnessSegs 1000 with Ok [p] => p | _ => [] end in
      let payload := match Decode full with Ok (_, p) => p | Err _ => [] end in
      let snap := Encode (MkHeader 1 KindSnapshot 0 5 8 8 0 0) payload in
      putSegment 5 "8.snapshot" snap (putSegment 5 "8.snapshot-done" (bs "{}") st)
  | None => ∅
  end.

Definition retireRun : option (store * Manager * (Z * result epochError unit)) :=
  alone atStart noCalls (RetireEpochsWithOptions id 1 exampleRoom 5 0 (MkRetire true None)) nextEpochStore newManager.

(** Five objects are removed. *)
Definition retireChecks : bool :=
  match retireRun with
  | Some (st', _, (n, Ok _)) => bool_decide (n = 5 ∧ size nextEpochStore = (5 + size st')%nat)
  | _ => false
  end.

Lemma retire_runs : ∃ st' m', retireRun = Some (st', m', (5, Ok tt)) ∧ size nextEpochStore = (5 + size st')%nat.
Proof.
  assert (retireChecks = true) as Hc by (vm_compute; reflexivity). unfold retireChecks in Hc.
  destruct retireRun as [[[st' m'] [n [[]|e]]]|]; [|discriminate Hc..].
  apply bool_decide_eq_true in Hc as [-> Hn]. exists st', m'. split; [reflexivity|exact Hn].
Qed.

Lemma retire_keeps_current_witness :
  ∃ st' m', retireRun = Some (st', m', (5, Ok tt)) ∧ size nextEpochStore = (5 + size st')%nat
    ∧ removedOnly exampleRoom (λ e, e < 5) nextEpochStore st'
    ∧ (st' ≠ nextEpochStore → roOffline (C := Empty_set) (MkRetire true None) = true
        ∧ gives atStart noCalls (HasCompleteSnapshot id 1 exampleRoom 5) nextEpochStore newManager nextEpochStore newManager true).
Proof.
  destruct retire_runs as (st' & m' & Hrun & Hn). exists st', m'. split; [exact Hrun|]. split; [exact Hn|].
  apply (retire_keeps_current id 1 atStart noCalls exampleRoom 5 0 (MkRetire true None) nextEpochStore newManager st' m' (5, Ok tt)).
  - lia.
  - vm_compute. reflexivity.
  - exact Hrun.
Defined.

(** Retiring the epoch before a complete one removes its compacted objects and keeps the manifest that
    names them; the watermark over the epochs is then an error. *)
Example retired_breaks_watermark :
  match retireRun with
  | Some (st, _, (deleted, Ok _)) =>
      (answer (DurableWatermarkChain exampleRoom 5) nextEpochStore, deleted,
       match alone atStart noCalls (DurableWatermarkChain exampleRoom 5) st newManager with
       | Some (_, _, Err (ErrReplica (ErrRawBucket ErrNotFound))) => true
       | _ => false
       end)
  | _ => (None, 0, false)
  end = (Some 8, 5, true).
Proof. vm_compute. reflexivity. Qed.
